(* ===== verification/_CoqProject ===== *)
-Q . S2P
Prelude.v
BlockTree.v
TreeWalks.v
Era.v
EraFacts.v
EngineConfig.v
Engine.v
ForkChoice.v
Pruning.v
EngineInvariant.v
EngineTheorems.v
Uncles.v
EngineWitness.v
Merkle.v
MerkleFacts.v
MerkleTheorems.v
MerkleStore.v
Mmr.v
MmrFacts.v
MmrTheorems.v
Codec.v
CodecLaws.v
Ops.v
OpsCodec.v
Channels.v
Utxos.v
ServiceNotes.v
Inputs.v
ChannelOps.v
SignedTx.v
SdpOps.v
SdpTheorems.v
LedgerConfig.v
ClaimOps.v
TxVerification.v
NoteFacts.v
Leaders.v
Pow.v
PowTheorems.v
Markets.v
MarketFacts.v
Cryptarchia.v
ConsensusFacts.v
Ledger.v
BlendRewards.v
BlendFacts.v
LedgerInvariant.v
TxTheorems.v
BlockTheorems.v
GenesisTheorems.v
LedgerExamples.v
LedgerWitness.v
Wallet.v
WalletFacts.v
WalletMirror.v
TxBuilder.v
TxPricing.v
TxFunding.v
FundedTx.v
WalletWitness.v
Blocks.v
BlockFacts.v
BlockVerify.v
Chain.v
ChainFacts.v
UncleRules.v
ChainTheorems.v
TxSelection.v
SelectionFacts.v
Proposals.v
ChainWitness.v
Eviction.v
Mempool.v
EvictionFacts.v
MempoolFacts.v
MempoolSteps.v
MempoolTheorems.v
ChainNetwork.v
NetworkTheorems.v
MempoolWitness.v
