(* ===== verification/Prelude.v ===== *)
(** * Logos blockchain: a verification library

    This library models the state transition of the node, from the bytes of a
    transaction to the ledger of all blocks and the choice of the chain, and
    proves what makes it correct. Paths below are relative to src/.

    ** The program and its parts

    A block arrives with a slot, a leadership proof and transactions. The engine
    (consensus/cryptarchia-engine) keeps the tree of block identifiers, chooses
    the local chain and moves the last irreversible block (LIB). The ledger
    (ledger, core/src/mantle, core/src/sdp) keeps one state per block: the
    consensus ledger (notes, epochs, markets), the Mantle ledger (channels,
    services, leaders, proof of work) and their composition by headers,
    operations, transactions and blocks. Notes live in a Merkle store
    (merkle), vouchers in a Merkle mountain range (mmr), slots and epochs in a
    schedule of eras (time), and operations travel in a canonical binary format
    (binary-codec, core/src/mantle/ops). A wallet (wallet) follows the blocks
    through the events of the ledger, and builds, prices and funds transactions
    (core/src/mantle/transactions) which the ledger then verifies. Around them the
    services of a node: the chain service (services/chain/chain-service) applies a
    block to ledger and engine and stores it, a leader (chain-leader) selects
    transactions and proposes a block, the mempool (services/tx-service) holds the
    transactions that wait, and the chain network service (chain-network) rebuilds
    the blocks of proposals from the mempool and tells it what entered the chain.

    ** Which file models which part

    - [BlockTree], [Engine]: [Branches] and [Cryptarchia] of
      consensus/cryptarchia-engine/src/lib.rs: reception, fork choice under both
      rules, the LIB, pruning, going online, uncles. [TreeWalks], [ForkChoice],
      [Pruning], [EngineInvariant], [EngineTheorems] and [Uncles] prove it,
      [EngineWitness] runs it on the examples of [Engine].
    - [Era], [EraFacts]: time/src/era.rs. [EngineConfig]: config.rs and time.rs
      of the engine, and the ratios of utils/src/math.rs.
    - [Merkle], [MerkleFacts], [MerkleTheorems]: merkle/dynamic-merkle.
      [MerkleStore]: merkle/tree and merkle/utxotree, and the class [KeyedStore]
      of finite maps the ledger is proved against. [Mmr], [MmrFacts],
      [MmrTheorems]: mmr.
    - [Codec], [CodecLaws]: binary-codec. [Ops], [OpsCodec]: the operations of
      core/src/mantle/ops on the wire. [SignedTx]: proofs, signed operations and
      transactions (core/src/mantle/transactions).
    - [Utxos], [Inputs]: core/src/mantle/ledger.rs with the hashes it uses.
      [Channels], [ChannelOps]: core/src/mantle/channel.rs and ops/channel.
      [ServiceNotes], [SdpOps]: core/src/sdp, ops/sdp and ledger/src/mantle/sdp.
      [ClaimOps]: transfers and claims. [TxVerification]: the checks of every
      operation and the batch of deferred proofs.
    - [LedgerConfig]: ledger/src/config.rs. [Leaders], [Pow]: leader.rs and pow
      of ledger/src/mantle. [Markets]: the fee markets, stake inference, block
      density and lottery values. [Cryptarchia]: ledger/src/cryptarchia.
      [Ledger]: ledger/src/lib.rs with mantle/mod.rs, helpers.rs,
      gas_and_fees.rs and update.rs. [BlendRewards]: the reward scheme of the
      Blend service (ledger/src/mantle/sdp/rewards and blend/message/src/reward),
      an instance of the class [Rewards] the ledger of services takes.
    - [SdpTheorems], [NoteFacts], [PowTheorems], [MarketFacts], [ConsensusFacts],
      [BlendFacts], [LedgerInvariant] (with [ChannelFacts]), [TxTheorems] (with
      [LedgerVerify]), [BlockTheorems] and [GenesisTheorems] prove the ledger;
      [LedgerExamples] is a ledger with every parameter instantiated, the real
      Merkle store and Blend rewards included, on which [LedgerWitness] applies the
      theorems.
    - [Wallet]: wallet/src, with one function per operation: a block with its
      events reduced to the operations a wallet applies ([from_block]), the state
      at a block ([WalletState]: the notes of the known keys, their index, the
      marks of services and channels, the voucher range with the tracked paths),
      and the store of states ([WalletStore], the struct [Wallet]). [WalletFacts]
      and [WalletMirror] relate it to the ledger.
    - [TxBuilder]: the thresholds, sizes and gas an unsigned transaction is priced
      with (thresholds.rs, codec.rs and tx_list/ops.rs of
      core/src/mantle/transactions), the builder (builder.rs) and [fund_tx] of
      wallet/src/lib.rs. The price of an operation is one function of the class
      [ThresholdSource] (core/src/mantle/gas.rs), which the channels of the ledger
      and the running thresholds of the prediction both implement. [TxPricing],
      [TxFunding] and [FundedTx] prove it, [WalletWitness] applies the theorems of
      the wallet to the example ledger.
    - [Blocks]: core/src/header, core/src/block and core/src/utils/merkle.rs, with
      the size bounds of [Bounded] (utils/src/bounded, a module of [Codec]).
      [BlockFacts] (with [BodyRoot]) and [BlockVerify] prove it.
    - [Chain]: lib.rs and uncle.rs of services/chain/chain-service/src, with the
      processing of blocks and the selection of uncles of service/mod.rs.
      [ChainState] is the struct [Cryptarchia] of that service, the engine and the
      ledger; the blocks in storage are a map, and whether a write to it succeeds is
      an argument. [ChainFacts] (with [ChainLedger]), [UncleRules] and
      [ChainTheorems] prove it.
    - [TxSelection]: tx_selection.rs of services/chain/chain-leader/src, with
      [propose_block] and [txs_for_block] of its lib.rs. [SelectionFacts] and
      [Proposals] prove it.
    - [Eviction]: policy and evictor.rs of services/tx-service/src/backend.
      [Mempool]: pool.rs there, one function per operation of the pool, over the
      class [MempoolStorage] (the trait of the storage adapter, whose calls may
      fail) and the clock readings still to come. [EvictionFacts], [MempoolFacts],
      [MempoolSteps] (with [MempoolAdmission]) and [MempoolTheorems] prove it.
    - [ChainNetwork]: the reconstruction of proposals and the application of blocks
      of services/chain/chain-network/src/lib.rs, a composition of [Blocks],
      [Chain] and [Mempool]. [NetworkTheorems] proves it.
    - [ChainExamples], in [ChainWitness], is a chain over the example ledger, with
      two forks, an uncle and a reorganisation. [ChainWitness] and [MempoolWitness]
      apply the theorems of these services to it, the latter with a storage in a map.

    ** How the code is rendered

    A function of the code is a function here, with the state it mutates as an
    argument and a result. [result E A] below has the two arms of [Result] and a
    third one, [Fault], for a panic: [expect], indexing, [assert!], a failed
    conversion, and arithmetic that leaves its width. For the plain operators that
    is the behaviour of a build with overflow checks; the release profile wraps
    instead. A theorem without faults covers both, as it shows that no operation
    leaves its width. Integers are [Z] with the
    bounds written where the code checks, saturates or casts. Persistent maps and
    sets are [gmap] and [gset]; where their iteration order reaches a result, it
    is sorted as the code sorts it, or it is a class parameter ([SetOrder]).
    Floating point follows IEEE 754 through [SpecFloat].

    Code outside src/ is a class: hashes ([Blake2Crate], [Poseidon2Crate],
    [MerkleHasher], [Blake2VarCrate]), signatures and proofs ([Ed25519Crate],
    [Ed25519Verify], [PoCVerify], [BatchVerify], and the traits [LeaderProof] and
    [ProofsVerifier], [PolVerify], [Ed25519Sign]), [TimeCrate], [MultiaddrCrate],
    [BincodeCrate], [HeaderBincode], [BigUintCrate], [F64Log2], [LotteryCrate],
    [MembershipTree], [MempoolStorage]. What a theorem assumes of them is a law
    class with an instance ([BigUintLaws], [Blake2Laws], [Blake2VarLaws],
    [Ed25519SignLaws]: what is signed verifies; [BatchLaws]: a batch of proofs holds
    when each does; [MempoolStorageLaws]: what is stored is found, and a call that
    fails changes nothing; the adapter of the node does not wait for its writes, so
    that one which fails after it was sent is outside of this law). Nothing assumes that a hash is injective: where new notes
    must not collide with existing ones, the theorem asks that the identifiers it
    creates are fresh ([insertable], [tx_fresh], [header_fresh]), which is a
    condition on one run and is checked by computation on the example.

    ** What the theorems show

    - Engine: the reception of a block that is not known yet, with room for its slot
      and height ([acceptable]), keeps the old LIB under the new one
      ([receive_block_finality]), never panics and always returns
      ([receive_block_total]), prunes exactly what left the tree
      ([receive_block_prunes]), never reorganises deeper than the rule allows
      ([mc_reorg_bounded]) and does not depend on the iteration order of tips
      ([receive_block_deterministic]); every reachable engine is well formed
      ([reachable_wf]).
    - Value: transactions conserve it exactly ([transaction_conserves]), blocks
      add at most the maximal emission ([block_contents_safe], which also shows the
      base fee to be the only possible panic, and [supply_bounded]), from the genesis transaction ([genesis_reachable]) on and across forks
      ([ledger_states_reachable]).
    - Consensus: the stake and the nonce of an epoch are frozen before it, also
      when epochs are skipped or the last blocks of one are missing
      ([stake_snapshot_frozen], [nonce_snapshot_frozen]); headers fail only for
      their slot or proof ([header_epochs]).
    - Operations: verification always returns a verdict ([verification_total]),
      channels obey their keys ([channel_operations_authorized]), messages and
      claims are not replayed ([sdp_no_replay], [pow_no_double_claim]), rewards
      are paid from what was collected ([blend_solvent], [blend_payout],
      [leader_claims_fair]).
    - Wallet: it mirrors the ledger along every chain ([wallet_mirrors_ledger]),
      except for rewards of proof of work ([pow_reward_untracked]), and counts the
      notes outside of channels ([wallet_balance_spec]). The predicted gas and size
      are those charged ([gas_prediction_exact]); funding a builder whose inputs are
      those of its transfer and notes of the ledger returns the exact price or fails
      for a stated reason ([fund_tx_exact]; a builder that was deserialized need not be
      such, and may then panic); and a transaction funded from no inputs, whose
      operations are no transfers and apply by themselves, is accepted with the fee
      and the tip asked for, unless it has more inputs than a signature has keys
      ([funded_transaction_verdict]).
    - Blocks: decoding accepts exactly the blocks that verify
      ([block_decode_exact]), an identifier commits to the contents
      ([block_binding]), and a created block and its proposal are accepted and
      within their sizes ([created_block]).
    - Chain service: a block is applied to engine, ledger and storage or to none
      ([process_block_safe]), which stay in step in every reachable state
      ([chain_in_step]); the uncle checks are the documented rules
      ([verify_uncles_exact]) and the uncles selected pass them
      ([selected_uncles_valid]); the transactions reported as entering and leaving
      the canonical chain are those ([reorg_transactions]).
    - Leader: the selection applies in order and ends ([selection_spec]), and the
      proposed block is accepted by a node with the same chain
      ([proposal_accepted]).
    - Mempool: no operation panics or loses a transaction, even if the storage
      refuses any of its calls, those of a restart included ([mempool_safe], where
      [lost] are the transactions whose claims the evictor was not told of); the
      answer to a submission ([admission_exact]); what a processed block evicts and
      releases ([processed_block_evicts]), and that a transaction is only turned away
      for a claim which the ledger would reject ([evicted_claims_rejected]).
    - Services together: a proposal gives back its block
      ([proposal_reconstruction]), and after a block chain, ledger, storage and
      mempool agree ([block_reconciled]).
    - Controllers: difficulties, fees, rewards and stake estimates stay in their
      bounds and move the right way.
    - Formats and structures: decoding is the inverse of encoding on exactly the
      canonical inputs; the Merkle store is a finite map; paths and ranges open
      only the leaves they commit to.

    ** Bounds and fuel

    Walks towards the root of the block tree take [walk_fuel], one more than the
    number of known blocks; every step moves to a strictly shorter ancestor, so
    [OutOfFuel] is unreachable on a well-formed tree, which the totality theorems
    prove; so does the walk over the window of the uncles. The rounds of the selection
    have one more than the number of candidates, as every round but the last selects
    one. Decoders and Merkle operations recurse on their input. Loops over
    skipped epochs run as many times as the code's range. Slots are below
    [slot_bound], which leaves room for the turn counter of a channel; block
    counts are below 2^32 so that epochs and rewards stay in width; the supply
    bound asks that genesis plus emission fits in 64 bits. The base fee is multiplied
    by the weights of its update in 128 bits; chains are of blocks whose fee leaves
    room for that ([fee_room] in [block_assumptions]), and [block_contents_safe] says
    what happens without. The sizes and gas of a
    transaction under construction are added up in 64 bits; [builder_ok], [fits]
    and [context_ok] bound the operations and their prices so that these sums do
    not leave their width.

    ** Not modelled

    Of the services that are modelled: their message loops, queries,
    subscriptions and metrics; the recovery of the chain from storage and the
    deletion of stale blocks from it; the lottery loop of the leader; the download
    of orphans and of initial blocks, and retries. They schedule the operations that
    are modelled, over asynchronous channels and clocks, and the theorems hold for
    every sequence of these operations. Further the other services (networking,
    storage, HTTP, key management, time, proof of work), the Blend network and its
    message encapsulation, libp2p, the wallet service and its HTTP client, the zone
    SDK and its SQL client, the node binary and its bindings: they are input and
    output around the state transition, or clients of it. The wallet visits the notes of a key
    in the order of a hash set; here it is that of the finite set, which only
    matters among notes of equal value. The circuits and their provers are external code. The
    approximation constants of the lottery are computed by an
    arbitrary-precision library and are a parameter. Serde formats, logging and
    test helpers are left out. *)

From Stdlib Require Export ZArith Lia Sorted.
From stdpp Require Export base gmap sets strings fin_maps numbers option.
From stdpp Require Export list_basics list_relations list_monad list_misc list.

#[export] Set Default Goal Selector "!".

(** ** Outcomes of fallible code

    [result E A] is the value of a Rust function: [Ok] and [Err] are the two
    arms of [Result<A, E>]; [Fault] is a panic or a loop that the chosen fuel
    did not finish. A function without an error type is polymorphic in [E]. *)

Inductive fault :=
  | Overflow      (* a checked or strict arithmetic operation that panics *)
  | Unwrap        (* [expect]/[unwrap]/indexing of an absent value *)
  | Panic         (* a failed [assert!] or an explicit [panic!] *)
  | OutOfFuel.    (* the loop did not finish within the model's fuel *)

Inductive result (E A : Type) :=
  | Ok (a : A)
  | Err (e : E)
  | Fault (f : fault).

Arguments Ok {E A} a.
Arguments Err {E A} e.
Arguments Fault {E A} f.

#[export] Instance fault_eq_dec : EqDecision fault.
Proof. solve_decision. Defined.

#[export] Instance result_eq_dec `{EqDecision E, EqDecision A} : EqDecision (result E A).
Proof. solve_decision. Defined.

#[export] Instance result_ret {E} : MRet (result E) := fun A a => Ok a.

#[export] Instance result_bind {E} : MBind (result E) := fun A B k m =>
  match m with
  | Ok a => k a
  | Err e => Err e
  | Fault f => Fault f
  end.

#[export] Instance result_fmap {E} : FMap (result E) := fun A B g m =>
  match m with
  | Ok a => Ok (g a)
  | Err e => Err e
  | Fault f => Fault f
  end.

Definition is_ok {E A} (r : result E A) : bool :=
  match r with Ok _ => true | _ => false end.

(** [o.ok_or(e)?] and [o.expect(..)]. *)
Definition ok_or {E A} (o : option A) (e : E) : result E A :=
  match o with Some a => Ok a | None => Err e end.

Definition expect {E A} (o : option A) : result E A :=
  match o with Some a => Ok a | None => Fault Unwrap end.

(** [r.map_err(f)?]. *)
Definition map_err {E F A} (f : E → F) (r : result E A) : result F A :=
  match r with Ok a => Ok a | Err e => Err (f e) | Fault x => Fault x end.

(** [assert!(c)]. *)
Definition assert_ {E} (c : bool) : result E unit := if c then Ok tt else Fault Panic.

(** [if c { return Err(e) }]. *)
Definition err_if {E} (c : bool) (e : E) : result E unit :=
  if c then Err e else Ok tt.

Lemma Ok_inj {E A} (a b : A) : Ok (E:=E) a = Ok b → a = b.
Proof. by intros [= ->]. Qed.

Lemma result_bind_ok {E A B} (m : result E A) (k : A → result E B) b :
  (m ≫= k) = Ok b ↔ ∃ a, m = Ok a ∧ k a = Ok b.
Proof. destruct m; cbn; naive_solver. Qed.

Lemma ok_or_ok {E A} (o : option A) (e : E) a : ok_or o e = Ok a ↔ o = Some a.
Proof. destruct o; cbn; naive_solver. Qed.

Lemma expect_ok {E A} (o : option A) a : expect (E:=E) o = Ok a ↔ o = Some a.
Proof. destruct o; cbn; naive_solver. Qed.

Lemma map_err_ok {E F A} (f : E → F) (r : result E A) a : map_err f r = Ok a ↔ r = Ok a.
Proof. destruct r; cbn; naive_solver. Qed.

Lemma err_if_ok {E} c (e : E) : err_if c e = Ok tt ↔ c = false.
Proof. destruct c; cbn; naive_solver. Qed.

Lemma assert_ok {E} c : assert_ (E:=E) c = Ok tt ↔ c = true.
Proof. destruct c; cbn; naive_solver. Qed.

(** ** Machine integers: [Z] within the range of the width. *)

Definition u8_max : Z := 255.
Definition u16_max : Z := 65535.
Definition u32_max : Z := 4294967295.
Definition u64_max : Z := 18446744073709551615.
Definition u128_max : Z := 340282366920938463463374607431768211455.

Definition in_u8 (z : Z) : Prop := (0 <= z <= u8_max)%Z.
Definition in_u16 (z : Z) : Prop := (0 <= z <= u16_max)%Z.
Definition in_u32 (z : Z) : Prop := (0 <= z <= u32_max)%Z.
Definition in_u64 (z : Z) : Prop := (0 <= z <= u64_max)%Z.
Definition in_u128 (z : Z) : Prop := (0 <= z <= u128_max)%Z.

(** [checked_*], [saturating_*] of an unsigned type whose maximum is [m]. *)
Definition checked_add (m a b : Z) : option Z :=
  if (a + b <=? m)%Z then Some (a + b)%Z else None.
Definition checked_sub (a b : Z) : option Z :=
  if (b <=? a)%Z then Some (a - b)%Z else None.
Definition checked_mul (m a b : Z) : option Z :=
  if (a * b <=? m)%Z then Some (a * b)%Z else None.
Definition saturating_add (m a b : Z) : Z := Z.min m (a + b).
Definition saturating_sub (a b : Z) : Z := Z.max 0 (a - b).
Definition saturating_mul (m a b : Z) : Z := Z.min m (a * b).

(** [checked_div], and [div_ceil] by a non-zero divisor. *)
Definition checked_div (a b : Z) : option Z := if (b =? 0)%Z then None else Some (a / b)%Z.
Definition div_ceil (a b : Z) : Z := (if a mod b =? 0 then a / b else a / b + 1)%Z.

(** [a / b] and [a % b], which panic on a zero divisor. *)
Definition div_ {E} (a b : Z) : result E Z := if (b =? 0)%Z then Fault Panic else Ok (a / b)%Z.
Definition rem_ {E} (a b : Z) : result E Z := if (b =? 0)%Z then Fault Panic else Ok (a mod b)%Z.

(** [strict_*]: panic on overflow. *)
Definition strict_add {E} (m a b : Z) : result E Z :=
  match checked_add m a b with Some c => Ok c | None => Fault Overflow end.
Definition strict_sub {E} (a b : Z) : result E Z :=
  match checked_sub a b with Some c => Ok c | None => Fault Overflow end.
Definition strict_mul {E} (m a b : Z) : result E Z :=
  match checked_mul m a b with Some c => Ok c | None => Fault Overflow end.

Lemma checked_add_Some m a b c :
  checked_add m a b = Some c ↔ (c = a + b ∧ a + b <= m)%Z.
Proof. unfold checked_add. case_match; naive_solver lia. Qed.

Lemma checked_sub_Some a b c :
  checked_sub a b = Some c ↔ (c = a - b ∧ b <= a)%Z.
Proof. unfold checked_sub. case_match; naive_solver lia. Qed.

Lemma checked_mul_Some m a b c :
  checked_mul m a b = Some c ↔ (c = a * b ∧ a * b <= m)%Z.
Proof. unfold checked_mul. case_match; naive_solver lia. Qed.

Lemma strict_add_ok {E} m a b c :
  strict_add (E:=E) m a b = Ok c ↔ (c = a + b ∧ a + b <= m)%Z.
Proof.
  unfold strict_add. rewrite <- checked_add_Some. case_match; naive_solver.
Qed.

Lemma strict_sub_ok {E} a b c :
  strict_sub (E:=E) a b = Ok c ↔ (c = a - b ∧ b <= a)%Z.
Proof.
  unfold strict_sub. rewrite <- checked_sub_Some. case_match; naive_solver.
Qed.

Lemma strict_mul_ok {E} m a b c :
  strict_mul (E:=E) m a b = Ok c ↔ (c = a * b ∧ a * b <= m)%Z.
Proof.
  unfold strict_mul. rewrite <- checked_mul_Some. case_match; naive_solver.
Qed.

(** An operation within its bounds returns. *)
Lemma strict_add_in {E} m a b : (a + b <= m)%Z → strict_add (E:=E) m a b = Ok (a + b)%Z.
Proof. intros. by apply strict_add_ok. Qed.

Lemma strict_sub_in {E} a b : (b <= a)%Z → strict_sub (E:=E) a b = Ok (a - b)%Z.
Proof. intros. by apply strict_sub_ok. Qed.

Lemma strict_mul_in {E} m a b : (a * b <= m)%Z → strict_mul (E:=E) m a b = Ok (a * b)%Z.
Proof. intros. by apply strict_mul_ok. Qed.

Lemma checked_div_Some a b c : checked_div a b = Some c ↔ (c = a / b ∧ b ≠ 0)%Z.
Proof. unfold checked_div. case_match; naive_solver lia. Qed.

Lemma div_ok {E} a b c : div_ (E:=E) a b = Ok c ↔ (c = a / b ∧ b ≠ 0)%Z.
Proof. unfold div_. case_match; naive_solver lia. Qed.

Lemma div_in {E} a b : (b ≠ 0)%Z → div_ (E:=E) a b = Ok (a / b)%Z.
Proof. intros. by apply div_ok. Qed.

Lemma rem_ok {E} a b c : rem_ (E:=E) a b = Ok c ↔ (c = a mod b ∧ b ≠ 0)%Z.
Proof. unfold rem_. case_match; naive_solver lia. Qed.

Lemma div_ceil_spec a b : (0 < b → a <= b * div_ceil a b < a + b)%Z.
Proof.
  intros Hb. unfold div_ceil. pose proof (Z.div_mod a b ltac:(lia)).
  pose proof (Z.mod_pos_bound a b Hb). destruct (Z.eqb_spec (a mod b) 0); nia.
Qed.

(** ** Lists *)

Lemma list_filter_all {A} (P : A → Prop) `{∀ x, Decision (P x)} (l : list A) :
  Forall P l → filter P l = l.
Proof. induction 1; [done|]. rewrite filter_cons_True by done. by f_equal. Qed.

Lemma StronglySorted_app_2 {A} (R : A → A → Prop) (l k : list A) :
  (∀ x y, x ∈ l → y ∈ k → R x y) → StronglySorted R l → StronglySorted R k → StronglySorted R (l ++ k).
Proof.
  intros Hlk Hl Hk. induction Hl as [|x l Hl IH Hx]; cbn; [done|].
  constructor; [apply IH; intros y z Hy; apply Hlk; by constructor|].
  apply Forall_app. split; [done|]. apply Forall_forall. intros y Hy. apply Hlk; [by constructor|done].
Qed.

Lemma mapM_total {E A B} (f : A → result E B) (P : A → B → Prop) (l : list A) :
  (∀ x, x ∈ l → ∃ y, f x = Ok y ∧ P x y) → ∃ ys, mapM f l = Ok ys ∧ Forall2 P l ys.
Proof.
  induction l as [|x l IH]; intros Hf; [by exists []|].
  destruct (Hf x (list_elem_of_here x l)) as (y & Hy & HP).
  destruct IH as (ys & Hys & HF); [intros z Hz; apply Hf; by constructor|].
  exists (y :: ys). cbn. by rewrite Hy, Hys; auto.
Qed.

(** ** Maps *)

(** Collecting into a map: a later entry replaces an earlier one. *)
Definition collect_map {K V} `{Countable K} (l : list (K * V)) : gmap K V :=
  foldl (λ m '(k, x), <[k := x]> m) ∅ l.

Section CollectMap.
Context {K V : Type} `{Countable K}.
Implicit Types (l : list (K * V)) (k : K) (x : V).

Lemma collect_map_in l k x : collect_map l !! k = Some x → (k, x) ∈ l.
Proof.
  unfold collect_map. induction l as [|[k' x'] l IH] using rev_ind; [done|].
  rewrite foldl_snoc, elem_of_app, list_elem_of_singleton. intros [[-> ->]|[_ ?]]%lookup_insert_Some; auto.
Qed.

Lemma collect_map_elem l k x : (k, x) ∈ l → (∀ x', (k, x') ∈ l → x' = x) → collect_map l !! k = Some x.
Proof.
  unfold collect_map. induction l as [|[k' x'] l IH] using rev_ind; [by intros ?%not_elem_of_nil|].
  rewrite foldl_snoc. setoid_rewrite elem_of_app. setoid_rewrite list_elem_of_singleton. intros Hin Hu.
  destruct (decide (k = k')) as [->|Hne].
  - rewrite lookup_insert_eq. f_equal. apply Hu. by right.
  - rewrite lookup_insert_ne by done. apply IH; [|intros; apply Hu; by left].
    destruct Hin as [?|[= ? ?]]; done.
Qed.

(** Collecting entries with distinct keys keeps every one. *)
Lemma collect_map_lookup l k x : (∀ k x x', (k, x) ∈ l → (k, x') ∈ l → x = x') →
  collect_map l !! k = Some x ↔ (k, x) ∈ l.
Proof.
  intros Hf. split; [apply collect_map_in|]. intros Hin. apply collect_map_elem; [done|]. eauto.
Qed.

End CollectMap.

(** ** Automation *)

Create HintDb logos.
Create Rewrite HintDb logos.
#[export] Hint Rewrite @result_bind_ok @ok_or_ok @expect_ok @map_err_ok @err_if_ok
  checked_add_Some checked_sub_Some checked_mul_Some
  @strict_add_ok @strict_sub_ok @strict_mul_ok @div_ok @rem_ok checked_div_Some : logos.

(** Take apart a hypothesis saying that a monadic computation returned. *)
Ltac inv_ok H :=
  lazymatch type of H with
  | (_ ≫= _) = Ok _ =>
      rewrite result_bind_ok in H;
      let a := fresh "a" in let Ha := fresh "Hok" in
      destruct H as (a & Ha & H); inv_ok Ha; cbn beta iota in H; inv_ok H
  | (match ?m with _ => _ end) = Ok _ =>
      let Hm := fresh "Hm" in destruct m eqn:Hm; try discriminate H; inv_ok H
  | ok_or _ _ = Ok _ => apply ok_or_ok in H
  | expect _ = Ok _ => apply expect_ok in H
  | map_err _ _ = Ok _ => apply map_err_ok in H; inv_ok H
  | err_if _ _ = Ok ?u => destruct u; apply err_if_ok in H
  | assert_ _ = Ok ?u => destruct u; apply assert_ok in H
  | strict_add _ _ _ = Ok _ => apply strict_add_ok in H as [? ?]
  | strict_sub _ _ = Ok _ => apply strict_sub_ok in H as [? ?]
  | strict_mul _ _ _ = Ok _ => apply strict_mul_ok in H as [? ?]
  | div_ _ _ = Ok _ => apply div_ok in H as [? ?]
  | rem_ _ _ = Ok _ => apply rem_ok in H as [? ?]
  | Ok _ = Ok _ => first [injection H as H; subst | clear H | idtac]
  | _ => idtac
  end.

(** The first step of such a computation. *)
Tactic Notation "peel" hyp(H) "as" simple_intropattern(x) simple_intropattern(Hx) :=
  apply result_bind_ok in H as (x & Hx & H).

(** Run the first operation of the goal, within its bounds by [tac]. *)
Ltac strict_step tac :=
  lazymatch goal with
  | |- (strict_add ?m ?a ?b ≫= _) = _ => rewrite (strict_add_in m a b) by tac
  | |- (strict_sub ?a ?b ≫= _) = _ => rewrite (strict_sub_in a b) by tac
  | |- (strict_mul ?m ?a ?b ≫= _) = _ => rewrite (strict_mul_in m a b) by tac
  | |- (div_ ?a ?b ≫= _) = _ => rewrite (div_in a b) by tac
  end; cbn [mbind result_bind].

(** Case analysis on the outermost [match] of a hypothesis or of the goal. *)
Ltac split_match :=
  repeat case_match; simplify_eq/=; try done.
