(* ===== verification/BlockTree.v ===== *)
(** * The block tree: [Branches] of consensus/cryptarchia-engine/src/lib.rs

    State, operations and walks of the tree of known blocks, its
    well-formedness invariant, and the theory of ancestors by height that the
    fork choice and the pruning proofs use. *)

From S2P Require Import Prelude.

Open Scope Z_scope.

(** ** Data *)

Record Branch (Id : Type) := mkBranch {
  b_id : Id;
  b_parent : Id;
  b_slot : Z;
  b_length : Z;
  b_uncle_slots : list Z
}.

Arguments mkBranch {Id} _ _ _ _ _.
Arguments b_id {Id} _.
Arguments b_parent {Id} _.
Arguments b_slot {Id} _.
Arguments b_length {Id} _.
Arguments b_uncle_slots {Id} _.

#[export] Instance Branch_eq_dec `{EqDecision Id} : EqDecision (Branch Id).
Proof. solve_decision. Defined.

Record Branches (Id : Type) `{Countable Id} := mkBranches {
  branches : gmap Id (Branch Id);
  tips : gset Id;
  lib : Id
}.

Arguments mkBranches {Id _ _} _ _ _.
Arguments branches {Id _ _} _.
Arguments tips {Id _ _} _.
Arguments lib {Id _ _} _.

(** [engine::Error]. *)
Inductive Error (Id : Type) :=
  | ParentMissing (id : Id)
  | OrphanMissing (id : Id)
  | InvalidSlot (id : Id).

Arguments ParentMissing {Id} id.
Arguments OrphanMissing {Id} id.
Arguments InvalidSlot {Id} id.

#[export] Instance Error_eq_dec `{EqDecision Id} : EqDecision (Error Id).
Proof. solve_decision. Defined.

(** The iteration order of the persistent hash set holding the tips (crate
    [rpds]): some enumeration of the elements, each once. *)
Class SetOrder (Id : Type) `{Countable Id} := {
  set_iter : gset Id → list Id;
  set_iter_perm X : set_iter X ≡ₚ elements X
}.

(** Enumerating in the order of the model's own sets is one such order. *)
Definition elements_order (Id : Type) `{Countable Id} : SetOrder Id :=
  {| set_iter := elements; set_iter_perm X := reflexivity _ |}.

Section BlockTree.
Context {Id : Type} `{Countable Id} {order : SetOrder Id}.

Implicit Types (t : Branches Id) (b c : Branch Id).

(** ** Operations *)

(** [Branches::from_lib]. *)
Definition from_lib (lib lib_parent : Id) (slot length : Z) (uncle_slots : list Z)
    : Branches Id :=
  mkBranches {[lib := mkBranch lib lib_parent slot length uncle_slots]} {[lib]} lib.

(** [Branches::apply_header]. *)
Definition apply_header t (header parent : Id) (slot : Z) (uncle_slots : list Z)
    : result (Error Id) (Branches Id) :=
  parent_branch ← ok_or (branches t !! parent) (ParentMissing parent);
  _ ← err_if (slot <? b_slot parent_branch) (InvalidSlot parent);
  length ← expect (checked_add u64_max (b_length parent_branch) 1);
  Ok (mkBranches
        (<[header := mkBranch header parent slot length uncle_slots]> (branches t))
        ({[header]} ∪ (tips t ∖ {[parent]}))
        (lib t)).

(** [Branches::branches]: the tips, in iteration order. *)
Definition tip_branches {E} t : result E (list (Branch Id)) :=
  mapM (λ id, expect (branches t !! id)) (set_iter (tips t)).

(** [Branches::parent]. *)
Definition parent t b : option (Branch Id) :=
  if decide (b_parent b = b_id b) then None else branches t !! b_parent b.

(** The fuel of the walks towards the root: one step per known block. *)
Definition walk_fuel t : nat := S (size (branches t)).

(** [while b1.length > b2.length { b1 = self.parent(b1)?; }]. *)
Fixpoint climb_to {E} (fuel : nat) t b1 (len : Z) : result E (option (Branch Id)) :=
  if b_length b1 >? len then
    match fuel with
    | O => Fault OutOfFuel
    | S fuel => match parent t b1 with
                | None => Ok None
                | Some p => climb_to fuel t p len
                end
    end
  else Ok (Some b1).

(** [while b1.id != b2.id { b1 = self.parent(b1)?; b2 = self.parent(b2)?; }]. *)
Fixpoint climb_both {E} (fuel : nat) t b1 b2 : result E (option (Branch Id)) :=
  if decide (b_id b1 = b_id b2) then Ok (Some b1)
  else match fuel with
       | O => Fault OutOfFuel
       | S fuel => match parent t b1, parent t b2 with
                   | Some p1, Some p2 => climb_both fuel t p1 p2
                   | _, _ => Ok None
                   end
       end.

(** [Branches::lca]. *)
Definition lca {E} t b1 b2 : result E (option (Branch Id)) :=
  o1 ← climb_to (walk_fuel t) t b1 (b_length b2);
  match o1 with
  | None => Ok None
  | Some b1 =>
      o2 ← climb_to (walk_fuel t) t b2 (b_length b1);
      match o2 with
      | None => Ok None
      | Some b2 => climb_both (walk_fuel t) t b1 b2
      end
  end.

(** [Branches::walk_back_before]. *)
Fixpoint walk_back_before_loop {E} (fuel : nat) t b (slot : Z) : result E (Branch Id) :=
  if b_slot b >? slot then
    match fuel with
    | O => Fault OutOfFuel
    | S fuel => match parent t b with
                | None => Ok b
                | Some p => walk_back_before_loop fuel t p slot
                end
    end
  else Ok b.

Definition walk_back_before {E} t b slot : result E (Branch Id) :=
  walk_back_before_loop (walk_fuel t) t b slot.

(** [Branches::walk_back_to_block], collected. *)
Fixpoint walk_back_to_block_loop {E} (fuel : nat) t (current : option (Branch Id))
    (target_exclusive : Id) : result E (list Id) :=
  match current with
  | None => Ok []
  | Some b =>
      if decide (b_id b = target_exclusive) then Ok []
      else match fuel with
           | O => Fault OutOfFuel
           | S fuel =>
               rest ← walk_back_to_block_loop fuel t (parent t b) target_exclusive;
               Ok (b_id b :: rest)
           end
  end.

Definition walk_back_to_block {E} t b target_exclusive : result E (list Id) :=
  walk_back_to_block_loop (walk_fuel t) t (Some b) target_exclusive.

(** The successors of [Branches::lib_to_tip_blocks], from the tip down. *)
Fixpoint tip_to_lib_blocks {E} (fuel : nat) t b : result E (list (Branch Id)) :=
  if decide (b_id b = lib t) then Ok [b]
  else match parent t b with
       | None => Ok [b]
       | Some p => match fuel with
                   | O => Fault OutOfFuel
                   | S fuel => rest ← tip_to_lib_blocks fuel t p; Ok (b :: rest)
                   end
       end.

(** [Branches::lib_to_tip_blocks]. *)
Definition lib_to_tip_blocks {E} t tip : result E (list (Branch Id)) :=
  blocks ← tip_to_lib_blocks (walk_fuel t) t tip;
  Ok (reverse blocks).

(** [Branches::ancestors_newer_than], collected. *)
Fixpoint ancestors_newer_than_loop {E} (fuel : nat) t (current : option (Branch Id))
    (oldest_slot : Z) : result E (list (Branch Id)) :=
  match current with
  | None => Ok []
  | Some b =>
      if b_slot b <=? oldest_slot then Ok []
      else match fuel with
           | O => Fault OutOfFuel
           | S fuel =>
               rest ← ancestors_newer_than_loop fuel t (parent t b) oldest_slot;
               Ok (b :: rest)
           end
  end.

Definition ancestors_newer_than {E} t b oldest_slot : result E (list (Branch Id)) :=
  ancestors_newer_than_loop (walk_fuel t) t (Some b) oldest_slot.

(** ** Well-formedness

    Blocks are stored under their own id; every block but the LIB has its
    parent in the tree, one shorter and not later; the LIB is the root; the
    tips are the blocks without a child. *)

Definition known t b : Prop := branches t !! b_id b = Some b.

Record wf_tree t : Prop := {
  wf_id : ∀ id b, branches t !! id = Some b → b_id b = id;
  wf_lib : is_Some (branches t !! lib t);
  wf_root : ∀ b, branches t !! lib t = Some b → parent t b = None;
  wf_parent : ∀ b, known t b → b_id b ≠ lib t →
    ∃ p, parent t b = Some p ∧ b_length b = b_length p + 1 ∧ b_slot p <= b_slot b;
  wf_length : ∀ b, known t b → in_u64 (b_length b);
  wf_slot : ∀ b, known t b → in_u64 (b_slot b);
  wf_tips : ∀ id, id ∈ tips t ↔
    is_Some (branches t !! id) ∧
    ∀ c, known t c → b_id c ≠ lib t → b_parent c ≠ id
}.

(** ** Ancestors *)

Fixpoint up t (n : nat) b : option (Branch Id) :=
  match n with
  | O => Some b
  | S n => p ← parent t b; up t n p
  end.

(** [c] is [b] or an ancestor of [b]. *)
Definition ancestor t c b : Prop := ∃ n, up t n b = Some c.

(** [c] is the lowest common ancestor of [b1] and [b2]. *)
Definition is_lca t b1 b2 c : Prop :=
  ancestor t c b1 ∧ ancestor t c b2 ∧
  ∀ a, ancestor t a b1 → ancestor t a b2 → ancestor t a c.

Lemma up_add t m n b : up t (m + n) b = up t m b ≫= up t n.
Proof.
  revert b; induction m as [|m IH]; intros b; [done|]. cbn.
  destruct (parent t b) as [p|]; cbn; [apply IH|done].
Qed.

Lemma ancestor_refl t b : ancestor t b b.
Proof. by exists 0%nat. Qed.

Lemma ancestor_trans t a b c : ancestor t a b → ancestor t b c → ancestor t a c.
Proof.
  intros [m Hm] [n Hn]. exists (n + m)%nat. by rewrite up_add, Hn.
Qed.

Lemma ancestor_parent t p b : parent t b = Some p → ancestor t p b.
Proof. intros Hp. exists 1%nat. cbn. by rewrite Hp. Qed.

Lemma ancestor_inv t a b :
  ancestor t a b → a = b ∨ ∃ p, parent t b = Some p ∧ ancestor t a p.
Proof.
  intros [[|n] Hn]; cbn in Hn; [left; congruence|right].
  destruct (parent t b) as [p|]; [|done]. exists p; split; [done|by exists n].
Qed.

Section wf.
Context (t : Branches Id) (WF : wf_tree t).

Lemma parent_known b p : parent t b = Some p → known t p ∧ b_id p = b_parent b ∧ b_id b ≠ b_id p.
Proof using WF.
  unfold parent, known. case_decide as Hd; [done|]. intros Hp.
  pose proof (wf_id t WF _ _ Hp) as E. rewrite E. naive_solver.
Qed.

Lemma parent_spec b p : known t b → parent t b = Some p →
  b_length b = b_length p + 1 ∧ b_slot p <= b_slot b ∧ b_id b ≠ lib t.
Proof using WF.
  intros Hb Hp. destruct (decide (b_id b = lib t)) as [E|NE].
  - unfold known in Hb. rewrite E in Hb. rewrite (wf_root t WF b Hb) in Hp. done.
  - destruct (wf_parent t WF b Hb NE) as (p' & Hp' & ? & ?). naive_solver.
Qed.

Lemma up_known n b c : known t b → up t n b = Some c →
  known t c ∧ b_length c = b_length b - Z.of_nat n ∧ b_slot c <= b_slot b.
Proof using WF.
  revert b; induction n as [|n IH]; cbn; intros b Hb Hc.
  - simplify_eq. repeat split; [done|lia|lia].
  - destruct (parent t b) as [p|] eqn:Hp; [|done].
    destruct (parent_known _ _ Hp) as [Hk _].
    destruct (parent_spec _ _ Hb Hp) as (? & ? & ?).
    destruct (IH p Hk Hc) as (? & ? & ?). repeat split; [done|lia|lia].
Qed.

Lemma ancestor_known a b : known t b → ancestor t a b →
  known t a ∧ b_length a <= b_length b ∧ b_slot a <= b_slot b.
Proof using WF.
  intros Hb [n Hn]. destruct (up_known _ _ _ Hb Hn) as (? & ? & ?). repeat split; [done|lia|lia].
Qed.

Lemma known_id_inj b c : known t b → known t c → b_id b = b_id c → b = c.
Proof using WF. unfold known. intros ? ? E. rewrite E in *. congruence. Qed.

Lemma lib_known : ∃ r, branches t !! lib t = Some r ∧ b_id r = lib t ∧ known t r.
Proof using WF.
  destruct (wf_lib t WF) as [r Hr]. exists r.
  pose proof (wf_id t WF _ _ Hr) as E. unfold known. rewrite E. done.
Qed.

(** Every block descends from the LIB. *)
Lemma lib_ancestor r b : branches t !! lib t = Some r → known t b → ancestor t r b.
Proof using WF.
  intros Hr. remember (Z.to_nat (b_length b)) as n eqn:En. revert b En.
  induction n as [|n IH]; intros b En Hb;
    (destruct (decide (b_id b = lib t)) as [E|NE];
      [unfold known in Hb; rewrite E, Hr in Hb; simplify_eq; apply ancestor_refl|]);
    destruct (wf_parent t WF b Hb NE) as (p & Hp & Hl & _);
    destruct (parent_known _ _ Hp) as [Hk _];
    pose proof (wf_length t WF _ Hk) as [? ?]; [lia|].
  eapply ancestor_trans; [apply (IH p); [lia|done]|by apply ancestor_parent].
Qed.

(** Ancestors of one block form a chain. *)
Lemma ancestor_linear a c b : known t b → ancestor t a b → ancestor t c b →
  b_length a <= b_length c → ancestor t a c.
Proof using WF.
  intros Hb [m Hm] [n Hn] Hle.
  destruct (up_known _ _ _ Hb Hm) as (_ & Ha & _).
  destruct (up_known _ _ _ Hb Hn) as (_ & Hc & _).
  assert (m = n + (m - n))%nat as E by lia.
  rewrite E, up_add, Hn in Hm. by exists (m - n)%nat.
Qed.

Lemma ancestor_same_length a b : known t b → ancestor t a b →
  b_length a = b_length b → a = b.
Proof using WF.
  intros Hb [n Hn] E. destruct (up_known _ _ _ Hb Hn) as (_ & Ha & _).
  assert (n = 0)%nat as -> by lia. by simplify_eq/=.
Qed.

Lemma ancestor_antisym a b : known t b → ancestor t a b → ancestor t b a → a = b.
Proof using WF.
  intros Hb Hab Hba. destruct (ancestor_known _ _ Hb Hab) as (Ha & ? & _).
  destruct (ancestor_known _ _ Ha Hba) as (_ & ? & _).
  apply ancestor_same_length; [done|done|lia].
Qed.

(** The ancestor of a given height. *)
Lemma ancestor_at r b h : branches t !! lib t = Some r → known t b →
  b_length r <= h <= b_length b → ∃ a, ancestor t a b ∧ b_length a = h.
Proof using WF.
  intros Hr Hb Hh. destruct (lib_ancestor r b Hr Hb) as [n Hn].
  destruct (up_known _ _ _ Hb Hn) as (_ & Hl & _).
  set (m := Z.to_nat (b_length b - h)).
  assert (n = m + (n - m))%nat as E by lia. rewrite E, up_add in Hn.
  destruct (up t m b) as [a|] eqn:Ha; [|done].
  exists a. split; [by exists m|]. destruct (up_known _ _ _ Hb Ha) as (_ & ? & _). lia.
Qed.

End wf.
End BlockTree.
