(* ===== verification/TreeWalks.v ===== *)
(** * Walks over the block tree

    The walks of [Branches] terminate on a well-formed tree within their fuel
    and compute what they name: [lca] the lowest common ancestor,
    [walk_back_before] the youngest ancestor not after a slot,
    [walk_back_to_block] and [lib_to_tip_blocks] the blocks of a chain
    segment. *)

From S2P Require Import Prelude BlockTree.

Open Scope Z_scope.

Section TreeWalks.
Context {Id : Type} `{Countable Id}.
Context (t : Branches Id) (WF : wf_tree t).

Implicit Types (b c : Branch Id).

(** ** The chain of a block, and the fuel bound *)

(** The first [n] blocks of the chain of [b], from [b] towards the root. *)
Fixpoint chain (n : nat) b : list (Branch Id) :=
  match n with
  | O => []
  | S n => b :: match parent t b with None => [] | Some p => chain n p end
  end.

Lemma chain_elem n b c : known t b → c ∈ chain n b →
  ancestor t c b ∧ b_length b - Z.of_nat n < b_length c <= b_length b.
Proof using WF.
  revert b; induction n as [|n IH]; intros b Hb; cbn; [by intros ?%not_elem_of_nil|].
  intros [->|Hin]%elem_of_cons; [split; [apply ancestor_refl|lia]|].
  destruct (parent t b) as [p|] eqn:Hp; [|by apply not_elem_of_nil in Hin].
  destruct (parent_known t WF b p Hp) as [Hk _].
  destruct (parent_spec t WF b p Hb Hp) as (? & _ & _).
  destruct (IH p Hk Hin) as [? ?]. split; [|lia].
  eapply ancestor_trans; [done|by apply ancestor_parent].
Qed.

Lemma chain_ids_NoDup n b : known t b → NoDup (b_id <$> chain n b).
Proof using WF.
  revert b; induction n as [|n IH]; intros b Hb; cbn; [constructor|].
  destruct (parent t b) as [p|] eqn:Hp; cbn; [|repeat constructor; by apply not_elem_of_nil].
  destruct (parent_known t WF b p Hp) as [Hk _].
  destruct (parent_spec t WF b p Hb Hp) as (? & _ & _).
  constructor; [|by apply IH].
  intros (c & Hc & Hin)%list_elem_of_fmap.
  destruct (chain_elem n p c Hk Hin) as [Hanc ?].
  destruct (ancestor_known t WF c p Hk Hanc) as (Hkc & _ & _).
  assert (b = c) by (by apply (known_id_inj t WF)). subst c. lia.
Qed.

Lemma chain_length n b c : up t n b = Some c → length (chain (S n) b) = S n.
Proof.
  revert b; induction n as [|n IH]; intros b Hup; cbn in *; [by destruct (parent t b)|].
  destruct (parent t b) as [p|]; [|done]. cbn in Hup. f_equal. by apply (IH p).
Qed.

Lemma up_bound n b c : known t b → up t n b = Some c → (n < size (branches t))%nat.
Proof using WF.
  intros Hb Hup.
  assert (list_to_set (b_id <$> chain (S n) b) ⊆ dom (branches t)) as Hsub.
  { intros id (a & -> & Hin)%elem_of_list_to_set%list_elem_of_fmap.
    destruct (chain_elem _ _ _ Hb Hin) as [Hanc _].
    destruct (ancestor_known t WF a b Hb Hanc) as (Ha & _ & _).
    apply elem_of_dom. by exists a. }
  apply subseteq_size in Hsub.
  rewrite size_list_to_set in Hsub by (by apply chain_ids_NoDup).
  rewrite length_fmap, (chain_length n b c Hup), size_dom in Hsub. lia.
Qed.

(** ** [lca] *)

Lemma climb_to_spec {E} fuel b a len : known t b → ancestor t a b →
  b_length a = Z.min len (b_length b) →
  b_length b - b_length a <= Z.of_nat fuel →
  climb_to (E:=E) fuel t b len = Ok (Some a).
Proof using WF.
  revert b; induction fuel as [|fuel IH]; intros b Hb Hanc Hlen Hf; cbn.
  - case_match; [lia|]. do 2 f_equal. symmetry. apply (ancestor_same_length t WF); [done|done|lia].
  - case_match; [|do 2 f_equal; symmetry; apply (ancestor_same_length t WF); [done|done|lia]].
    destruct (ancestor_inv t a b Hanc) as [->|(p & Hp & Hap)]; [lia|].
    rewrite Hp. destruct (parent_known t WF b p Hp) as [Hk _].
    destruct (parent_spec t WF b p Hb Hp) as (? & _ & _).
    apply IH; [done|done|lia|lia].
Qed.

Lemma climb_both_spec {E} fuel r b1 b2 :
  branches t !! lib t = Some r → known t b1 → known t b2 →
  b_length b1 = b_length b2 → b_length b1 - b_length r <= Z.of_nat fuel →
  ∃ c, climb_both (E:=E) fuel t b1 b2 = Ok (Some c) ∧ is_lca t b1 b2 c.
Proof using WF.
  intros Hr. revert b1 b2; induction fuel as [|fuel IH]; intros b1 b2 H1 H2 Hlen Hf; cbn;
    (case_decide as Hd;
      [assert (b1 = b2) as -> by (by apply (known_id_inj t WF));
       exists b2; repeat split; eauto using ancestor_refl|]);
    pose proof (lib_ancestor t WF r b1 Hr H1) as A1;
    pose proof (lib_ancestor t WF r b2 Hr H2) as A2;
    destruct (ancestor_known t WF r b1 H1 A1) as (_ & L1 & _).
  { destruct Hd. rewrite <- (ancestor_same_length t WF r b1), <- (ancestor_same_length t WF r b2);
      [done|done|done|lia|done|done|lia]. }
  destruct (ancestor_inv t r b1 A1) as [->|(p1 & Hp1 & _)].
  { destruct Hd. f_equal. apply (ancestor_same_length t WF); done. }
  destruct (ancestor_inv t r b2 A2) as [->|(p2 & Hp2 & _)].
  { destruct Hd. f_equal. symmetry. apply (ancestor_same_length t WF); done. }
  rewrite Hp1, Hp2.
  destruct (parent_known t WF b1 p1 Hp1) as [Hk1 _], (parent_known t WF b2 p2 Hp2) as [Hk2 _].
  destruct (parent_spec t WF b1 p1 H1 Hp1) as (? & _ & _).
  destruct (parent_spec t WF b2 p2 H2 Hp2) as (? & _ & _).
  destruct (IH p1 p2 Hk1 Hk2) as (c & Hc & Hc1 & Hc2 & Hmax); [lia|lia|].
  exists c. split; [done|]. repeat split.
  - eauto using ancestor_trans, ancestor_parent.
  - eauto using ancestor_trans, ancestor_parent.
  - intros a Ha1 Ha2.
    destruct (ancestor_inv t a b1 Ha1) as [->|(q1 & Hq1 & Hb1)].
    { destruct Hd. f_equal. by apply (ancestor_same_length t WF). }
    destruct (ancestor_inv t a b2 Ha2) as [->|(q2 & Hq2 & Hb2)].
    { destruct Hd. f_equal. symmetry. by apply (ancestor_same_length t WF). }
    simplify_eq. by apply Hmax.
Qed.

Lemma height_fuel r b : branches t !! lib t = Some r → known t b →
  0 <= b_length b - b_length r < Z.of_nat (size (branches t)).
Proof using WF.
  intros Hr Hb. destruct (lib_ancestor t WF r b Hr Hb) as [n Hn].
  destruct (up_known t WF n b r Hb Hn) as (_ & ? & _).
  pose proof (up_bound n b r Hb Hn). lia.
Qed.

(** [lca] finds the lowest common ancestor of two known blocks. *)
Lemma lca_spec {E} b1 b2 : known t b1 → known t b2 →
  ∃ c, lca (E:=E) t b1 b2 = Ok (Some c) ∧ is_lca t b1 b2 c.
Proof using WF.
  intros H1 H2. destruct (lib_known t WF) as (r & Hr & _ & Hkr).
  pose proof (height_fuel r b1 Hr H1) as F1. pose proof (height_fuel r b2 Hr H2) as F2.
  destruct (ancestor_at t WF r b1 (Z.min (b_length b1) (b_length b2)) Hr H1)
    as (a1 & Ha1 & L1); [lia|].
  destruct (ancestor_at t WF r b2 (Z.min (b_length b1) (b_length b2)) Hr H2)
    as (a2 & Ha2 & L2); [lia|].
  destruct (ancestor_known t WF a1 b1 H1 Ha1) as (K1 & _ & _).
  destruct (ancestor_known t WF a2 b2 H2 Ha2) as (K2 & _ & _).
  unfold lca, walk_fuel.
  rewrite (climb_to_spec _ b1 a1) by (done || (rewrite ?L1; lia)). cbn -[climb_to climb_both].
  rewrite (climb_to_spec _ b2 a2) by (done || (rewrite ?L2, ?L1; lia)). cbn -[climb_to climb_both].
  destruct (climb_both_spec (E:=E) (S (size (branches t))) r a1 a2)
    as (c & -> & Hc1 & Hc2 & Hmax); [done|done|done|lia|lia|].
  exists c; split; [done|]. repeat split; [eauto using ancestor_trans..|].
  intros a Hab1 Hab2. destruct (ancestor_known t WF a b1 H1 Hab1) as (_ & ? & _).
  destruct (ancestor_known t WF a b2 H2 Hab2) as (_ & ? & _).
  apply Hmax; [apply (ancestor_linear t WF a a1 b1)|apply (ancestor_linear t WF a a2 b2)]; done || lia.
Qed.

Lemma is_lca_unique b1 b2 c c' : known t b1 → is_lca t b1 b2 c → is_lca t b1 b2 c' → c = c'.
Proof using WF.
  intros Hb (H1 & H2 & H3) (H1' & H2' & H3').
  destruct (ancestor_known t WF c' b1 Hb H1') as (? & _ & _).
  apply (ancestor_antisym t WF); auto.
Qed.

(** Among three blocks, two of the three pairwise common ancestors coincide
    and the third is not lower in the tree. *)
Lemma lca_ultrametric b1 b2 b3 x y z : known t b1 → known t b2 → known t b3 →
  is_lca t b1 b2 x → is_lca t b2 b3 y → is_lca t b1 b3 z →
  (b_length x < b_length y → z = x) ∧ (b_length y < b_length x → z = y) ∧
  (x = y → b_length x <= b_length z) ∧ (b_length x = b_length y → x = y).
Proof using WF.
  intros K1 K2 K3 (X1 & X2 & X3) (Y1 & Y2 & Y3) (Z1 & Z2 & Z3).
  destruct (ancestor_known t WF x b2 K2 X2) as (Kx & _ & _).
  destruct (ancestor_known t WF y b2 K2 Y1) as (Ky & _ & _).
  destruct (ancestor_known t WF z b1 K1 Z1) as (Kz & _ & _).
  repeat split.
  - intros Hlt. assert (ancestor t x y) as Hxy by (apply (ancestor_linear t WF x y b2); done || lia).
    assert (ancestor t x z) as Hxz by (apply Z3; eauto using ancestor_trans).
    destruct (ancestor_known t WF x z Kz Hxz) as (_ & ? & _).
    symmetry. apply (ancestor_antisym t WF); [done|done|].
    destruct (Z.le_gt_cases (b_length z) (b_length y)).
    + apply X3; [done|]. eapply ancestor_trans; [|exact Y1].
      eapply (ancestor_linear t WF); [exact K3|done|done|lia].
    + exfalso. assert (ancestor t y z) as Hyz by (eapply (ancestor_linear t WF); [exact K3|done|done|lia]).
      assert (ancestor t y x) as Hyx by (apply X3; eauto using ancestor_trans).
      destruct (ancestor_known t WF y x Kx Hyx) as (_ & ? & _). lia.
  - intros Hlt. assert (ancestor t y x) as Hyx by (apply (ancestor_linear t WF y x b2); done || lia).
    assert (ancestor t y z) as Hyz by (apply Z3; eauto using ancestor_trans).
    symmetry. apply (ancestor_antisym t WF); [done|done|].
    destruct (ancestor_known t WF y z Kz Hyz) as (_ & ? & _).
    destruct (Z.le_gt_cases (b_length z) (b_length x)).
    + apply Y3; [|done]. eapply ancestor_trans; [|exact X2].
      eapply (ancestor_linear t WF); [exact K1|done|done|lia].
    + exfalso. assert (ancestor t x z) as Hxz by (eapply (ancestor_linear t WF); [exact K1|done|done|lia]).
      assert (ancestor t x y) as Hxy by (apply Y3; eauto using ancestor_trans).
      destruct (ancestor_known t WF x y Ky Hxy) as (_ & ? & _). lia.
  - intros ->. assert (ancestor t y z) as Hyz by (apply Z3; done).
    destruct (ancestor_known t WF y z Kz Hyz) as (_ & ? & _). lia.
  - intros E. assert (ancestor t x y) as Hxy by (eapply (ancestor_linear t WF); [exact K2|done|done|lia]).
    by apply (ancestor_same_length t WF).
Qed.

(** ** The other walks *)

(** [walk_back_before] stops at the youngest ancestor whose slot is not after
    [slot], or at the root. *)
Lemma walk_back_before_spec {E} b slot r : branches t !! lib t = Some r → known t b →
  ∃ a, walk_back_before (E:=E) t b slot = Ok a ∧ ancestor t a b ∧
    (b_slot a <= slot ∨ a = r) ∧
    (∀ c, ancestor t c b → b_slot c <= slot → ancestor t c a).
Proof using WF.
  intros Hr Hb. pose proof (height_fuel r b Hr Hb) as Hfuel.
  unfold walk_back_before. assert (b_length b - b_length r < Z.of_nat (walk_fuel t)) as Hf
    by (unfold walk_fuel; lia). clear Hfuel. revert b Hb Hf.
  induction (walk_fuel t) as [|fuel IH]; intros b Hb Hf; cbn;
    pose proof (lib_ancestor t WF r b Hr Hb) as Hanc;
    (case_match; [|exists b; repeat split; eauto using ancestor_refl; left; lia]).
  - exfalso. destruct (ancestor_known t WF r b Hb Hanc) as (_ & ? & _).
    lia.
  - destruct (parent t b) as [p|] eqn:Hp.
    + destruct (parent_known t WF b p Hp) as [Hk _].
      destruct (parent_spec t WF b p Hb Hp) as (? & ? & _).
      destruct (IH p Hk) as (a & -> & Ha & Hs & Hmax); [lia|].
      exists a. split; [done|]. split; [eauto using ancestor_trans, ancestor_parent|].
      split; [done|]. intros c Hc Hcs.
      destruct (ancestor_inv t c b Hc) as [->|(p' & Hp' & Hcp)]; [lia|].
      simplify_eq. auto.
    + exists b. repeat split; eauto using ancestor_refl. right.
      destruct (ancestor_inv t r b Hanc) as [->|(p' & Hp' & _)]; [done|congruence].
Qed.

(** Walking back to an ancestor yields the blocks above it. *)
Lemma walk_back_to_block_spec {E} b a : known t b → ancestor t a b →
  walk_back_to_block (E:=E) t b (b_id a)
  = Ok (b_id <$> chain (Z.to_nat (b_length b - b_length a)) b).
Proof using WF.
  intros Hb Ha. destruct (lib_known t WF) as (r & Hr & _ & _).
  pose proof (height_fuel r b Hr Hb) as Hfuel.
  destruct (ancestor_known t WF a b Hb Ha) as (Hka & _ & _).
  pose proof (height_fuel r a Hr Hka).
  unfold walk_back_to_block. assert (b_length b - b_length a < Z.of_nat (walk_fuel t)) as Hf
    by (unfold walk_fuel; lia). clear Hfuel. revert b Hb Ha Hf.
  induction (walk_fuel t) as [|fuel IH]; intros b Hb Ha Hf; cbn [walk_back_to_block_loop];
    destruct (ancestor_known t WF a b Hb Ha) as (_ & ? & _); [lia|].
  case_decide as Hd.
  - assert (b = a) as -> by (by apply (known_id_inj t WF)).
    by replace (b_length a - b_length a) with 0 by lia.
  - destruct (ancestor_inv t a b Ha) as [->|(p & Hp & Hap)]; [done|].
    destruct (parent_known t WF b p Hp) as [Hk _].
    destruct (parent_spec t WF b p Hb Hp) as (? & ? & _).
    destruct (ancestor_known t WF a p Hk Hap) as (_ & ? & _).
    replace (Z.to_nat (b_length b - b_length a)) with (S (Z.to_nat (b_length p - b_length a)))
      by lia.
    cbn [chain]. rewrite Hp. rewrite IH by (done || lia). done.
Qed.

Lemma chain_elem_conv n b c : known t b → ancestor t c b →
  b_length b - Z.of_nat n < b_length c → c ∈ chain n b.
Proof using WF.
  revert b. induction n as [|n IH]; intros b Hb Hc Hlt;
    destruct (ancestor_known t WF c b Hb Hc) as (_ & ? & _); [lia|].
  cbn. apply elem_of_cons.
  destruct (ancestor_inv t c b Hc) as [->|(p & Hp & Hcp)]; [by left|right].
  rewrite Hp. destruct (parent_known t WF b p Hp) as [Hk _].
  destruct (parent_spec t WF b p Hb Hp) as (? & ? & _). apply IH; [done|done|lia].
Qed.

Lemma chain_elem_iff b a c : known t b → ancestor t a b →
  c ∈ chain (Z.to_nat (b_length b - b_length a)) b ↔
  ancestor t c b ∧ b_length a < b_length c.
Proof using WF.
  intros Hb Ha. destruct (ancestor_known t WF a b Hb Ha) as (_ & ? & _). split.
  - intros Hin. destruct (chain_elem _ _ _ Hb Hin). split; [done|lia].
  - intros [Hc ?]. apply chain_elem_conv; [done|done|lia].
Qed.

Lemma tip_to_lib_blocks_spec {E} fuel b r : branches t !! lib t = Some r → known t b →
  b_length b - b_length r < Z.of_nat fuel →
  tip_to_lib_blocks (E:=E) fuel t b = Ok (chain (S (Z.to_nat (b_length b - b_length r))) b).
Proof using WF.
  intros Hr. revert b. induction fuel as [|fuel IH]; intros b Hb Hf; cbn [tip_to_lib_blocks];
    pose proof (height_fuel r b Hr Hb); [lia|].
  case_decide as Hd.
  - unfold known in Hb. rewrite Hd, Hr in Hb. simplify_eq.
    replace (b_length b - b_length b) with 0 by lia. cbn.
    by rewrite (wf_root t WF b Hr).
  - destruct (wf_parent t WF b Hb Hd) as (p & Hp & ? & _). rewrite Hp.
    destruct (parent_known t WF b p Hp) as [Hk _].
    pose proof (height_fuel r p Hr Hk).
    rewrite IH by (done || lia).
    replace (Z.to_nat (b_length b - b_length r)) with (S (Z.to_nat (b_length p - b_length r)))
      by lia.
    cbn [chain]. by rewrite Hp.
Qed.

Lemma lib_to_tip_blocks_spec {E} b r : branches t !! lib t = Some r → known t b →
  lib_to_tip_blocks (E:=E) t b
  = Ok (reverse (chain (S (Z.to_nat (b_length b - b_length r))) b)).
Proof using WF.
  intros Hr Hb. unfold lib_to_tip_blocks.
  rewrite (tip_to_lib_blocks_spec _ b r); [done|done|done|].
  pose proof (height_fuel r b Hr Hb). unfold walk_fuel. lia.
Qed.

Lemma lib_chain_elem_iff b r c : branches t !! lib t = Some r → known t b →
  c ∈ chain (S (Z.to_nat (b_length b - b_length r))) b ↔ ancestor t c b.
Proof using WF.
  intros Hr Hb. split; [intros Hin; by destruct (chain_elem _ _ _ Hb Hin)|].
  intros Hc. destruct (ancestor_known t WF c b Hb Hc) as (Hkc & _ & _).
  pose proof (height_fuel r c Hr Hkc). pose proof (height_fuel r b Hr Hb).
  apply chain_elem_conv; [done|done|lia].
Qed.

(** The walk over recent ancestors yields exactly the ancestors newer than the
    bound, newest first. *)
Lemma ancestors_newer_than_spec {E} b oldest : known t b →
  ∃ l, ancestors_newer_than (E:=E) t b oldest = Ok l ∧
    (∀ c, c ∈ l ↔ ancestor t c b ∧ oldest < b_slot c) ∧ NoDup l.
Proof using WF.
  intros Hb. destruct (lib_known t WF) as (r & Hr & _ & _).
  pose proof (height_fuel r b Hr Hb) as Hfuel.
  unfold ancestors_newer_than.
  assert (b_length b - b_length r + 1 < Z.of_nat (walk_fuel t)) as Hf
    by (unfold walk_fuel; lia). clear Hfuel. revert b Hb Hf.
  induction (walk_fuel t) as [|fuel IH]; intros b Hb Hf; cbn [ancestors_newer_than_loop];
    pose proof (height_fuel r b Hr Hb) as Hh; [lia|].
  case_match eqn:Hs.
  { exists []. split; [done|]. split; [|constructor]. intros c.
    rewrite elem_of_nil. split; [done|]. intros [Hc ?].
    destruct (ancestor_known t WF c b Hb Hc) as (_ & _ & ?). lia. }
  destruct (parent t b) as [p|] eqn:Hp.
  - destruct (parent_known t WF b p Hp) as [Hk _].
    destruct (parent_spec t WF b p Hb Hp) as (? & ? & _).
    destruct (IH p Hk) as (l & -> & Hl & ND); [lia|].
    exists (b :: l). split; [done|]. split.
    + intros c. rewrite elem_of_cons, Hl. split.
      * intros [->|[? ?]]; split; try lia; eauto using ancestor_refl, ancestor_trans, ancestor_parent.
      * intros [Hc ?]. destruct (ancestor_inv t c b Hc) as [->|(p' & ? & ?)]; [by left|].
        simplify_eq. by right.
    + constructor; [|done]. rewrite Hl. intros [Hbp _].
      destruct (ancestor_known t WF b p Hk Hbp) as (_ & ? & _). lia.
  - exists [b]. destruct fuel as [|fuel]; [lia|]. split; [done|]. split.
    + intros c. rewrite list_elem_of_singleton. split.
      * intros ->. split; [apply ancestor_refl|lia].
      * intros [Hc _]. destruct (ancestor_inv t c b Hc) as [->|(p & ? & _)]; [done|congruence].
    + repeat constructor. by apply not_elem_of_nil.
Qed.

End TreeWalks.
