(* ===== verification/Era.v ===== *)
(** * Eras: time/src/era.rs

    An era schedule resolved into slots and wall-clock time, and its queries:
    the era of a slot or an epoch, the epoch of a slot, the first slot of an
    epoch, the slot in progress at a time and the start of a slot. Times are
    nanoseconds. *)

From S2P Require Import Prelude.

Open Scope Z_scope.

(** The [time] crate, as far as the schedule uses it: converting a standard
    duration, and adding a duration to a date. Both either give the exact
    result or report that it does not fit. *)
Class TimeCrate := {
  duration_try_from : Z → option Z;
  duration_try_from_ok d d' : duration_try_from d = Some d' → d' = d;
  datetime_checked_add : Z → Z → option Z;
  datetime_checked_add_ok a d c : datetime_checked_add a d = Some c → c = a + d
}.

(** [std::time::Duration::MAX], in nanoseconds. *)
Definition duration_max_nanos : Z := u64_max * 1000000000 + 999999999.

(** An instance: seconds of a duration fit [i64], dates up to a bound. *)
Definition bounded_time (max : Z) : TimeCrate.
Proof.
  refine {| duration_try_from d :=
              if d <=? (2 ^ 63 - 1) * 1000000000 + 999999999 then Some d else None;
            datetime_checked_add a d := if a + d <=? max then Some (a + d) else None |}.
  - intros d d'. case_match; naive_solver.
  - intros a d c. case_match; naive_solver.
Defined.

(** The traits [SlotDuration] and [EpochLength] of an era's parameters. *)
Class SlotDuration (P : Type) := { slot_duration : P → Z }.
Class EpochLength (P : Type) := { epoch_length : P → Z }.

(** [EraTiming]: the parameters that only lay out time. *)
Record EraTiming := mkEraTiming { et_slot_duration : Z; et_epoch_length : Z }.

#[export] Instance EraTiming_slot_duration : SlotDuration EraTiming := {| slot_duration := et_slot_duration |}.
#[export] Instance EraTiming_epoch_length : EpochLength EraTiming := {| epoch_length := et_epoch_length |}.

Record EraEntryView (P : Type) := mkView {
  v_era : Z;
  v_first_epoch : Z;
  v_first_slot : Z;
  v_start_time : Z;
  v_parameters : P
}.

Record StoredEntry (P : Type) := mkEntry {
  e_first_slot : Z;
  e_start_time : Z;
  e_parameters : P
}.

(** The eras after genesis are a B-tree map: entries by ascending first epoch. *)
Record EraSchedule (P : Type) := mkSchedule {
  s_genesis : StoredEntry P;
  s_after_genesis : list (Z * StoredEntry P)
}.

Arguments mkView {P} _ _ _ _ _.
Arguments v_era {P} _.
Arguments v_first_epoch {P} _.
Arguments v_first_slot {P} _.
Arguments v_start_time {P} _.
Arguments v_parameters {P} _.
Arguments mkEntry {P} _ _ _.
Arguments e_first_slot {P} _.
Arguments e_start_time {P} _.
Arguments e_parameters {P} _.
Arguments mkSchedule {P} _ _.
Arguments s_genesis {P} _.
Arguments s_after_genesis {P} _.

Inductive ErasError := ErasOverflow (era : Z).

(** [StoredEntry::view]. *)
Definition view {P} (e : StoredEntry P) (era first_epoch : Z) : EraEntryView P :=
  mkView era first_epoch (e_first_slot e) (e_start_time e) (e_parameters e).

Section Queries.
Context {P : Type}.
Implicit Types (s : EraSchedule P) (v : EraEntryView P).

(** [EraSchedule::genesis]. *)
Definition genesis s : EraEntryView P := view (s_genesis s) 0 0.

(** [EraSchedule::eras_after_genesis]. *)
Definition eras_after_genesis s : list (Z * EraEntryView P) :=
  imap (λ index '(first_epoch, e), (first_epoch, view e (Z.of_nat index + 1) first_epoch))
       (s_after_genesis s).

(** [EraSchedule::iter]. *)
Definition eras s : list (EraEntryView P) := genesis s :: (snd <$> eras_after_genesis s).

(** [EraSchedule::get]. *)
Definition get_era s (era : Z) : option (EraEntryView P) := eras s !! Z.to_nat era.

Fixpoint take_while {A} (f : A → bool) (l : list A) : list A :=
  match l with
  | [] => []
  | x :: l => if f x then x :: take_while f l else []
  end.

(** [EraSchedule::last_started]. *)
Definition last_started s (condition : EraEntryView P → bool) : option (EraEntryView P) :=
  last (take_while condition (eras s)).

(** [EraSchedule::at_slot], [at_epoch]. *)
Definition at_slot {E} s (slot : Z) : result E (EraEntryView P) :=
  expect (last_started s (λ v, v_first_slot v <=? slot)).

Definition at_epoch {E} s (epoch : Z) : result E (EraEntryView P) :=
  expect (last_started s (λ v, v_first_epoch v <=? epoch)).

Definition elapsed_slots_since_era_start {E} s (slot : Z) : result E Z :=
  v ← at_slot s slot; strict_sub slot (v_first_slot v).

Definition elapsed_epochs_since_era_start {E} s (epoch : Z) : result E Z :=
  v ← at_epoch s epoch; strict_sub epoch (v_first_epoch v).

(** [EraSchedule::map]. *)
Definition map_era_values {Q} (v : EraEntryView P) (parameters : Q) : StoredEntry Q :=
  mkEntry (v_first_slot v) (v_start_time v) parameters.

Definition map_schedule {Q} (f : EraEntryView P → Q) s : EraSchedule Q :=
  mkSchedule (map_era_values (genesis s) (f (genesis s)))
    ((λ '(first_epoch, v), (first_epoch, map_era_values v (f v))) <$> eras_after_genesis s).

End Queries.

(** [BTreeMap::insert] on the ascending list of entries. *)
Fixpoint btree_insert {V} (k : Z) (x : V) (l : list (Z * V)) : list (Z * V) :=
  match l with
  | [] => [(k, x)]
  | (k', x') :: l' =>
      if k <? k' then (k, x) :: l
      else if k =? k' then (k, x) :: l'
      else (k', x') :: btree_insert k x l'
  end.

Section Timing.
Context {P : Type} `{!SlotDuration P} `{!EpochLength P} `{!TimeCrate}.
Implicit Types (s : EraSchedule P) (v : EraEntryView P).

(** [span]: [slots] slots of [slot_duration] each. *)
Definition span (duration slots : Z) : option Z :=
  nanos ← checked_mul u128_max duration slots;
  if nanos <=? duration_max_nanos then duration_try_from nanos else None.

(** [EraSchedule::next_era_start]. *)
Definition next_era_start v (next_era_first_epoch : Z) : option (Z * Z) :=
  epochs_in_era ← checked_sub next_era_first_epoch (v_first_epoch v);
  slots_in_era ← checked_mul u64_max epochs_in_era (epoch_length (v_parameters v));
  next_era_first_slot ← checked_add u64_max (v_first_slot v) slots_in_era;
  sp ← span (slot_duration (v_parameters v)) slots_in_era;
  next_era_start_time ← datetime_checked_add (v_start_time v) sp;
  Some (next_era_first_slot, next_era_start_time).

(** The loop of [EraSchedule::new]. *)
Fixpoint add_eras s (entries : list (Z * P)) : result ErasError (EraSchedule P) :=
  match entries with
  | [] => Ok s
  | (first_epoch, parameters) :: entries =>
      previous_era ← expect (last (eras s));
      era ← expect (checked_add u16_max (v_era previous_era) 1);
      start ← ok_or (next_era_start previous_era first_epoch) (ErasOverflow era);
      add_eras (mkSchedule (s_genesis s)
                  (btree_insert first_epoch (mkEntry start.1 start.2 parameters)
                     (s_after_genesis s)))
               entries
  end.

(** [EraSchedule::new]; the entries are those of a B-tree map, in key order. *)
Definition new_schedule (genesis_time : Z) (genesis : P) (after_genesis : list (Z * P))
    : result ErasError (EraSchedule P) :=
  add_eras (mkSchedule (mkEntry 0 genesis_time genesis) []) after_genesis.

(** [EraSchedule::starting_slot_for_epoch]. *)
Definition starting_slot_for_epoch {E} s (epoch : Z) : result E Z :=
  era_at_epoch ← at_epoch s epoch;
  elapsed_era_epochs ← elapsed_epochs_since_era_start s epoch;
  elapsed_era_slots ← strict_mul u64_max elapsed_era_epochs (epoch_length (v_parameters era_at_epoch));
  strict_add u64_max (v_first_slot era_at_epoch) elapsed_era_slots.

(** [EraSchedule::epoch_for_slot]. *)
Definition epoch_for_slot {E} s (slot : Z) : result E Z :=
  era_at_slot ← at_slot s slot;
  elapsed ← strict_sub slot (v_first_slot era_at_slot);
  epoch ← strict_add u64_max (v_first_epoch era_at_slot)
            (elapsed / epoch_length (v_parameters era_at_slot));
  if epoch <=? u32_max then Ok epoch else Fault Unwrap.

(** [EraSchedule::slot_at]. *)
Definition slot_at {E} s (time : Z) : result E (option Z) :=
  match last_started s (λ v, v_start_time v <=? time) with
  | None => Ok None
  | Some era_at_time =>
      let since_start := time - v_start_time era_at_time in
      if since_start <? 0 then Fault Unwrap
      else if slot_duration (v_parameters era_at_time) =? 0 then Fault Overflow
      else
        let elapsed := since_start / slot_duration (v_parameters era_at_time) in
        if elapsed <=? u64_max then
          slot ← strict_add u64_max (v_first_slot era_at_time) elapsed;
          Ok (Some slot)
        else Fault Unwrap
  end.

(** [EraSchedule::checked_time_of]. *)
Definition checked_time_of {E} s (slot : Z) : result E (option Z) :=
  era_at_slot ← at_slot s slot;
  slots_into_era ← elapsed_slots_since_era_start s slot;
  Ok (sp ← span (slot_duration (v_parameters era_at_slot)) slots_into_era;
      datetime_checked_add (v_start_time era_at_slot) sp).

(** [EraSchedule::time_of]. *)
Definition time_of {E} s (slot : Z) : result E Z :=
  o ← checked_time_of s slot; expect o.

End Timing.

Module EraExamples.

#[local] Existing Instance bounded_time.

Definition two_eras : result ErasError (EraSchedule EraTiming) :=
  new_schedule (H := bounded_time (10 ^ 30)) 1000 (mkEraTiming 10 100) [(3, mkEraTiming 5 40)].

Example two_eras_boundaries :
  (λ s, (v_first_slot <$> eras s, v_start_time <$> eras s)) <$> two_eras
  = Ok ([0; 300], [1000; 4000]).
Proof. vm_compute. reflexivity. Qed.

Example two_eras_epoch :
  (s ← two_eras; a ← epoch_for_slot s 299; b ← epoch_for_slot s 300; c ← epoch_for_slot s 340; Ok (a, b, c))
  = Ok (2, 3, 4).
Proof. vm_compute. reflexivity. Qed.

End EraExamples.
