(* ===== verification/EraFacts.v ===== *)
(** * Correctness of the era schedule

    A resolved schedule is well formed: eras start one after the other, each
    boundary measured in the previous era's epoch length and slot duration.
    On such a schedule the queries are total and inverse to each other. *)

From S2P Require Import Prelude Era.

Open Scope Z_scope.

#[local] Arguments eras : simpl never.

(** ** [take_while] and [last] *)

Lemma take_while_last {A} (f : A → bool) (l : list A) x :
  head l = Some x → f x = true →
  ∃ i y, last (take_while f l) = Some y ∧ l !! i = Some y ∧ f y = true ∧
    (∀ z, l !! S i = Some z → f z = false).
Proof.
  revert x; induction l as [|a l IH]; intros x Hx Hf; [done|].
  cbn in Hx; simplify_eq; cbn; rewrite Hf.
  destruct l as [|b l]; cbn in *.
  { exists 0%nat, x. repeat split; [done|]. by intros z. }
  destruct (f b) eqn:Hb.
  - destruct (IH b) as (i & y & Hl & Hi & Hy & Hn); [done|done|].
    exists (S i), y. repeat split; try done.
  - exists 0%nat, x. repeat split; [done..|]. intros z ?. by simplify_eq/=.
Qed.

Lemma take_while_last_unique {A} (f : A → bool) (l : list A) i y :
  l !! i = Some y → (∀ j z, (j <= i)%nat → l !! j = Some z → f z = true) →
  (∀ z, l !! S i = Some z → f z = false) →
  last (take_while f l) = Some y.
Proof.
  revert i; induction l as [|a l IH]; intros i Hi Hle Hn; [done|].
  cbn. rewrite (Hle 0%nat a) by (done || lia).
  destruct i as [|i]; cbn in Hi.
  - simplify_eq. destruct l as [|b l]; [done|]. cbn. by rewrite (Hn b).
  - assert (last (take_while f l) = Some y) as E.
    { apply (IH i Hi); [|done]. intros j z Hj Hz. apply (Hle (S j)); [lia|done]. }
    destruct (take_while f l); [done|]. exact E.
Qed.

Lemma btree_insert_last {V} k (x : V) l :
  (∀ k' x', (k', x') ∈ l → k' < k) → btree_insert k x l = l ++ [(k, x)].
Proof.
  induction l as [|[k' x'] l IH]; intros Hlt; [done|]. cbn.
  assert (k' < k) by (apply (Hlt k' x'), list_elem_of_here).
  case_match; [lia|]. case_match; [lia|]. f_equal. apply IH.
  intros. eapply Hlt, list_elem_of_further; eauto.
Qed.

Section Schedule.
Context {P : Type} `{!SlotDuration P} `{!EpochLength P} `{!TimeCrate}.
Implicit Types (s : EraSchedule P) (v w : EraEntryView P).

(** The era [w] follows [v]. *)
Record follows v w : Prop := {
  follows_era : v_era w = v_era v + 1;
  follows_epoch : v_first_epoch v < v_first_epoch w;
  follows_slot : v_first_slot w =
    v_first_slot v + (v_first_epoch w - v_first_epoch v) * epoch_length (v_parameters v);
  follows_time : v_start_time w =
    v_start_time v +
    slot_duration (v_parameters v) *
      ((v_first_epoch w - v_first_epoch v) * epoch_length (v_parameters v))
}.

Record wf_schedule s : Prop := {
  es_genesis : e_first_slot (s_genesis s) = 0;
  es_follows : ∀ i v w, eras s !! i = Some v → eras s !! S i = Some w → follows v w;
  es_length : ∀ v, v ∈ eras s → 0 < epoch_length (v_parameters v);
  es_duration : ∀ v, v ∈ eras s → 0 <= slot_duration (v_parameters v);
  es_epoch : ∀ v, v ∈ eras s → 0 <= v_first_epoch v <= u32_max
}.

Lemma eras_lookup_0 s : eras s !! 0%nat = Some (genesis s).
Proof. done. Qed.

Lemma follows_mono v w : follows v w → 0 < epoch_length (v_parameters v) →
  0 <= slot_duration (v_parameters v) →
  v_first_epoch v < v_first_epoch w ∧ v_first_slot v < v_first_slot w ∧
  v_start_time v <= v_start_time w.
Proof.
  intros [_ He Hs Ht] Hl Hd. rewrite Hs, Ht.
  assert (0 < (v_first_epoch w - v_first_epoch v) * epoch_length (v_parameters v)) by nia.
  repeat split; [done|lia|nia].
Qed.

Lemma eras_mono s i j v w : wf_schedule s → (i < j)%nat →
  eras s !! i = Some v → eras s !! j = Some w →
  v_first_epoch v < v_first_epoch w ∧ v_first_slot v < v_first_slot w ∧
  v_start_time v <= v_start_time w.
Proof.
  intros WF Hij Hi. revert w.
  assert (∀ k u w, eras s !! k = Some u → eras s !! S k = Some w →
    v_first_epoch u < v_first_epoch w ∧ v_first_slot u < v_first_slot w ∧
    v_start_time u <= v_start_time w) as Hstep.
  { intros k u w Hu Hw. pose proof (list_elem_of_lookup_2 _ _ _ Hu).
    eapply follows_mono; [eapply es_follows|eapply es_length|eapply es_duration]; done. }
  induction Hij as [|j Hij IH]; intros w Hj; [eauto|].
  destruct (lookup_lt_is_Some_2 (eras s) j) as [u Hu].
  { apply lookup_lt_Some in Hj. lia. }
  destruct (IH u Hu) as (? & ? & ?). destruct (Hstep j u w Hu Hj) as (? & ? & ?). lia.
Qed.

Lemma first_slot_nonneg s i v : wf_schedule s → eras s !! i = Some v → 0 <= v_first_slot v.
Proof.
  intros WF Hi. pose proof (es_genesis s WF) as Hg. destruct i as [|i].
  - rewrite eras_lookup_0 in Hi. simplify_eq. cbn. lia.
  - destruct (eras_mono s 0 (S i) (genesis s) v WF); [lia|done|done|]. cbn in *. lia.
Qed.

(** The [i]-th era is the one in force at a point of a monotone coordinate. *)
Lemma last_started_unique s (key : EraEntryView P → Z) x i v :
  wf_schedule s →
  (∀ j k u w, (j < k)%nat → eras s !! j = Some u → eras s !! k = Some w → key u <= key w) →
  eras s !! i = Some v → key v <= x → (∀ w, eras s !! S i = Some w → x < key w) →
  last_started s (λ v, key v <=? x) = Some v.
Proof.
  intros WF Hmono Hi Hle Hn. apply (take_while_last_unique _ _ i); [done| |].
  - intros j z Hj Hz. destruct (decide (j = i)) as [->|].
    + simplify_eq. lia.
    + pose proof (Hmono j i z v ltac:(lia) Hz Hi). lia.
  - intros z Hz. specialize (Hn z Hz). lia.
Qed.

Lemma at_slot_unique {E} s x i v : wf_schedule s → eras s !! i = Some v →
  v_first_slot v <= x → (∀ w, eras s !! S i = Some w → x < v_first_slot w) →
  at_slot (E:=E) s x = Ok v.
Proof.
  intros WF Hi Hle Hn. unfold at_slot. erewrite last_started_unique; [done|done| |done|done|done].
  intros j k u w Hjk Hu Hw. destruct (eras_mono s j k u w WF Hjk Hu Hw). lia.
Qed.

Lemma at_epoch_unique {E} s x i v : wf_schedule s → eras s !! i = Some v →
  v_first_epoch v <= x → (∀ w, eras s !! S i = Some w → x < v_first_epoch w) →
  at_epoch (E:=E) s x = Ok v.
Proof.
  intros WF Hi Hle Hn. unfold at_epoch. erewrite last_started_unique; [done|done| |done|done|done].
  intros j k u w Hjk Hu Hw. destruct (eras_mono s j k u w WF Hjk Hu Hw). lia.
Qed.

Lemma at_slot_spec {E} s x : wf_schedule s → 0 <= x →
  ∃ i v, at_slot (E:=E) s x = Ok v ∧ eras s !! i = Some v ∧ v_first_slot v <= x ∧
    (∀ w, eras s !! S i = Some w → x < v_first_slot w).
Proof.
  intros WF Hx.
  destruct (take_while_last (λ v, v_first_slot v <=? x) (eras s) (genesis s))
    as (i & v & Hl & Hi & Hv & Hn); [done|cbn; rewrite (es_genesis s WF); lia|].
  exists i, v. unfold at_slot, last_started. rewrite Hl.
  repeat split; [done|lia|]. intros w Hw. specialize (Hn w Hw). lia.
Qed.

Lemma at_epoch_spec {E} s x : wf_schedule s → 0 <= x →
  ∃ i v, at_epoch (E:=E) s x = Ok v ∧ eras s !! i = Some v ∧ v_first_epoch v <= x ∧
    (∀ w, eras s !! S i = Some w → x < v_first_epoch w).
Proof.
  intros WF Hx.
  destruct (take_while_last (λ v, v_first_epoch v <=? x) (eras s) (genesis s))
    as (i & v & Hl & Hi & Hv & Hn); [done|cbn; lia|].
  exists i, v. unfold at_epoch, last_started. rewrite Hl.
  repeat split; [done|lia|]. intros w Hw. specialize (Hn w Hw). lia.
Qed.

(** ** Queries *)

(** Closed forms of the two epoch queries. *)
Lemma starting_slot_ok {E} s epoch slot : wf_schedule s → 0 <= epoch →
  starting_slot_for_epoch (E:=E) s epoch = Ok slot →
  ∃ i v, eras s !! i = Some v ∧ v_first_epoch v <= epoch ∧
    (∀ w, eras s !! S i = Some w → epoch < v_first_epoch w) ∧
    slot = v_first_slot v + (epoch - v_first_epoch v) * epoch_length (v_parameters v) ∧
    slot <= u64_max.
Proof.
  intros WF He Hs. destruct (at_epoch_spec (E:=E) s epoch WF He) as (i & v & Hv & Hi & Hle & Hn).
  exists i, v. unfold starting_slot_for_epoch, elapsed_epochs_since_era_start in Hs.
  rewrite Hv in Hs. cbn in Hs.
  rewrite result_bind_ok in Hs. destruct Hs as (a & Ha & Hs).
  rewrite result_bind_ok in Hs. destruct Hs as (b & Hb & Hs).
  rewrite strict_sub_ok in Ha. rewrite strict_mul_ok in Hb. rewrite strict_add_ok in Hs.
  destruct Ha, Hb, Hs. subst. repeat split; done.
Qed.

Lemma starting_slot_in_era {E} s i v epoch slot : wf_schedule s → eras s !! i = Some v →
  v_first_epoch v <= epoch → (∀ w, eras s !! S i = Some w → epoch < v_first_epoch w) →
  starting_slot_for_epoch (E:=E) s epoch = Ok slot →
  slot = v_first_slot v + (epoch - v_first_epoch v) * epoch_length (v_parameters v).
Proof.
  intros WF Hi Hle Hn Hs. pose proof (at_epoch_unique (E:=E) s epoch i v WF Hi Hle Hn) as Hat.
  pose proof (es_epoch s WF v (list_elem_of_lookup_2 _ _ _ Hi)).
  unfold starting_slot_for_epoch, elapsed_epochs_since_era_start in Hs.
  rewrite Hat in Hs. cbn in Hs. inv_ok Hs. by subst.
Qed.

Lemma epoch_for_slot_ok {E} s slot epoch : wf_schedule s → 0 <= slot →
  epoch_for_slot (E:=E) s slot = Ok epoch →
  ∃ i v, eras s !! i = Some v ∧ v_first_slot v <= slot ∧
    (∀ w, eras s !! S i = Some w → slot < v_first_slot w) ∧
    epoch = v_first_epoch v + (slot - v_first_slot v) / epoch_length (v_parameters v) ∧
    epoch <= u32_max.
Proof.
  intros WF He Hs. destruct (at_slot_spec (E:=E) s slot WF He) as (i & v & Hv & Hi & Hle & Hn).
  exists i, v. unfold epoch_for_slot in Hs.
  rewrite Hv in Hs. cbn in Hs.
  rewrite result_bind_ok in Hs. destruct Hs as (a & Ha & Hs).
  rewrite result_bind_ok in Hs. destruct Hs as (b & Hb & Hs).
  rewrite strict_sub_ok in Ha. rewrite strict_add_ok in Hb.
  destruct Ha, Hb. case_match; [|done]. simplify_eq. repeat split; try done. lia.
Qed.

(** An era's epochs end where the next era's begin. *)
Lemma epoch_before_next s i v w slot : wf_schedule s → eras s !! i = Some v → eras s !! S i = Some w →
  v_first_slot v <= slot < v_first_slot w →
  v_first_epoch v + (slot - v_first_slot v) / epoch_length (v_parameters v) < v_first_epoch w.
Proof.
  intros WF Hi Hw Hs. pose proof (es_length s WF v (list_elem_of_lookup_2 _ _ _ Hi)) as Hlen.
  destruct (es_follows s WF i v w Hi Hw) as [_ ? Hfs _].
  assert ((slot - v_first_slot v) / epoch_length (v_parameters v) < v_first_epoch w - v_first_epoch v); [|lia].
  apply Z.div_lt_upper_bound; [done|]. lia.
Qed.

Lemma epoch_for_slot_mono {E} s a b ea eb : wf_schedule s → 0 <= a <= b →
  epoch_for_slot (E:=E) s a = Ok ea → epoch_for_slot (E:=E) s b = Ok eb → ea <= eb.
Proof.
  intros WF Hab Ha Hb. destruct (epoch_for_slot_ok s a ea WF ltac:(lia) Ha) as (i & v & Hi & Hv & Hvn & -> & _).
  destruct (epoch_for_slot_ok s b eb WF ltac:(lia) Hb) as (j & w & Hj & Hw & Hwn & -> & _).
  pose proof (es_length s WF v (list_elem_of_lookup_2 _ _ _ Hi)) as Hlen.
  pose proof (es_length s WF w (list_elem_of_lookup_2 _ _ _ Hj)) as Hlen'.
  assert (0 <= (b - v_first_slot w) / epoch_length (v_parameters w)) by (apply Z.div_pos; lia).
  destruct (Nat.lt_trichotomy i j) as [Hlt|[<-|Hgt]].
  - destruct (lookup_lt_is_Some_2 (eras s) (S i)) as [u Hu]; [apply lookup_lt_Some in Hj; lia|].
    pose proof (epoch_before_next s i v u a WF Hi Hu ltac:(split; [done|by apply Hvn])).
    assert (v_first_epoch u <= v_first_epoch w); [|lia]. destruct (decide (S i = j)) as [<-|]; [naive_solver lia|].
    destruct (eras_mono s (S i) j u w WF); [lia|done..|lia].
  - simplify_eq. apply Z.add_le_mono_l, Z.div_le_mono; lia.
  - destruct (lookup_lt_is_Some_2 (eras s) (S j)) as [u Hu]; [apply lookup_lt_Some in Hi; lia|]. specialize (Hwn u Hu).
    assert (v_first_slot u <= v_first_slot v); [|lia]. destruct (decide (S j = i)) as [<-|]; [naive_solver lia|].
    destruct (eras_mono s (S j) i u v WF); [lia|done..|lia].
Qed.

(** An epoch starts at or before each of its slots. *)
Lemma starting_slot_before {E F} s slot epoch a : wf_schedule s → 0 <= slot →
  epoch_for_slot (E:=F) s slot = Ok epoch → starting_slot_for_epoch (E:=E) s epoch = Ok a → a <= slot.
Proof.
  intros WF Hs He Hst. destruct (epoch_for_slot_ok s slot epoch WF Hs He) as (i & v & Hi & Hle & Hn & -> & _).
  pose proof (es_length s WF v (list_elem_of_lookup_2 _ _ _ Hi)) as Hlen.
  pose proof (Z.mul_div_le (slot - v_first_slot v) (epoch_length (v_parameters v)) Hlen).
  assert (0 <= (slot - v_first_slot v) / epoch_length (v_parameters v)) by (apply Z.div_pos; lia).
  apply (starting_slot_in_era s i v) in Hst as ->; [lia|done|done|lia|].
  intros w Hw. apply (epoch_before_next s i v w slot WF Hi Hw). split; [done|by apply Hn].
Qed.

(** ** Resolving a schedule *)

Lemma imap_snoc {A B} (f : nat → A → B) l x :
  imap f (l ++ [x]) = imap f l ++ [f (length l) x].
Proof. rewrite imap_app. cbn. by rewrite Nat.add_0_r. Qed.

Lemma eras_snoc g l k e :
  eras (mkSchedule g (l ++ [(k, e)]))
  = eras (mkSchedule g l) ++ [view e (Z.of_nat (length l) + 1) (P:=P) k].
Proof.
  unfold eras, eras_after_genesis; cbn [s_after_genesis s_genesis].
  rewrite imap_snoc, fmap_app. done.
Qed.

Lemma eras_last_era s : ∃ v, last (eras s) = Some v ∧
  v_era v = Z.of_nat (length (s_after_genesis s)).
Proof.
  destruct s as [g l]. destruct l as [|[k e] l _] using rev_ind; [by exists (view g 0 0)|].
  exists (view e (Z.of_nat (length l) + 1) k). rewrite eras_snoc, last_snoc. cbn.
  rewrite length_app. cbn. split; [done|lia].
Qed.

Lemma next_era_start_ok v k fs st :
  next_era_start v k = Some (fs, st) → v_first_epoch v < k →
  follows v (mkView (v_era v + 1) k fs st (v_parameters v)) ∧ fs <= u64_max.
Proof.
  unfold next_era_start, span. intros Hn Hk.
  destruct (checked_sub _ _) as [n|] eqn:E1; [|done]. cbn in Hn.
  destruct (checked_mul u64_max _ _) as [m|] eqn:E2; [|done]. cbn in Hn.
  destruct (checked_add _ _ _) as [f|] eqn:E3; [|done]. cbn in Hn.
  destruct (checked_mul u128_max _ _) as [d|] eqn:E4; [|done]. cbn in Hn.
  destruct (d <=? _) eqn:E5; [|done].
  destruct (duration_try_from d) as [d'|] eqn:E6; [|done]. cbn in Hn.
  destruct (datetime_checked_add _ _) as [c|] eqn:E7; [|done]. simplify_eq/=.
  apply checked_sub_Some in E1 as [-> ?]. apply checked_mul_Some in E2 as [-> ?].
  apply checked_add_Some in E3 as [-> ?]. apply checked_mul_Some in E4 as [-> ?].
  apply duration_try_from_ok in E6 as ->. apply datetime_checked_add_ok in E7 as ->.
  split; [by constructor|done].
Qed.

Definition good_params (p : P) : Prop := 0 < epoch_length p ∧ 0 <= slot_duration p.

Lemma wf_schedule_snoc g l k fs st p v :
  wf_schedule (mkSchedule g l) → last (eras (mkSchedule g l)) = Some v →
  next_era_start v k = Some (fs, st) → v_first_epoch v < k <= u32_max → good_params p →
  wf_schedule (mkSchedule g (l ++ [(k, mkEntry fs st p)])).
Proof.
  intros WF Hl Hn Hk [Hp1 Hp2]. set (s := mkSchedule g l) in *.
  set (w := view (mkEntry fs st p) (Z.of_nat (length l) + 1) k).
  destruct (next_era_start_ok v k fs st Hn) as [[F1 F2 F3 F4] _]; [lia|].
  assert (eras (mkSchedule g (l ++ [(k, mkEntry fs st p)])) = eras s ++ [w]) as E
    by apply eras_snoc.
  destruct (eras_last_era s) as (v' & Hv' & Hera). simplify_eq.
  pose proof (es_epoch s WF v (last_Some_elem_of _ _ Hl)).
  constructor; rewrite ?E.
  - apply (es_genesis s WF).
  - intros i a b Ha Hb. destruct (decide (S i < length (eras s))%nat) as [Hlt|Hge].
    { rewrite lookup_app_l in Ha, Hb by lia. eapply (es_follows s WF); eauto. }
    apply lookup_app_Some in Hb as [Hb|[Hlen Hb]]; [apply lookup_lt_Some in Hb; lia|].
    apply list_lookup_singleton_Some in Hb as [Hi <-].
    rewrite lookup_app_l in Ha by lia. rewrite last_lookup in Hl.
    assert (i = Nat.pred (length (eras s))) as -> by lia. simplify_eq.
    constructor; cbn in *; [rewrite Hera; done|done|done|done].
  - intros a [Ha|Ha%list_elem_of_singleton]%elem_of_app; [by apply (es_length s WF)|by subst].
  - intros a [Ha|Ha%list_elem_of_singleton]%elem_of_app; [by apply (es_duration s WF)|by subst].
  - intros a [Ha|Ha%list_elem_of_singleton]%elem_of_app; [by apply (es_epoch s WF)|subst].
    cbn. lia.
Qed.

Lemma last_eras_epoch s v : wf_schedule s → last (eras s) = Some v →
  ∀ k e, (k, e) ∈ s_after_genesis s → k <= v_first_epoch v.
Proof.
  intros WF Hl k e [i Hi]%list_elem_of_lookup.
  rewrite last_lookup in Hl.
  assert (eras s !! S i = Some (view e (Z.of_nat i + 1) k)) as Hv.
  { change ((snd <$> eras_after_genesis s) !! i = Some (view e (Z.of_nat i + 1) k)).
    unfold eras_after_genesis. by rewrite list_lookup_fmap, list_lookup_imap, Hi. }
  pose proof (lookup_lt_Some _ _ _ Hv).
  destruct (decide (S i = Nat.pred (length (eras s)))) as [E|NE].
  - rewrite E in Hv. simplify_eq. cbn. lia.
  - destruct (eras_mono s _ _ _ v WF (ltac:(lia) : (S i < Nat.pred (length (eras s)))%nat) Hv Hl).
    cbn in *. lia.
Qed.

Lemma add_eras_wf entries : ∀ s v s', wf_schedule s → last (eras s) = Some v →
  StronglySorted Z.lt (v_first_epoch v :: entries.*1) →
  Forall (λ k, k <= u32_max) entries.*1 → Forall good_params entries.*2 →
  add_eras s entries = Ok s' →
  wf_schedule s' ∧
  v_first_epoch <$> eras s' = (v_first_epoch <$> eras s) ++ entries.*1 ∧
  v_parameters <$> eras s' = (v_parameters <$> eras s) ++ entries.*2.
Proof.
  induction entries as [|[k p] entries IH]; intros s v s' WF Hl Hs Hk Hp Hadd; cbn in *.
  { simplify_eq. by rewrite !app_nil_r. }
  rewrite Hl in Hadd. cbn in Hadd.
  rewrite result_bind_ok in Hadd. destruct Hadd as (era & _ & Hadd).
  rewrite result_bind_ok in Hadd. destruct Hadd as ([fs st] & Hst & Hadd).
  rewrite ok_or_ok in Hst. cbn in Hadd.
  inversion_clear Hs as [|? ? Hs' Hlt]. inversion_clear Hlt as [|? ? Hvk Hrest].
  inversion_clear Hk as [|? ? Hk0 Hk']. inversion_clear Hp as [|? ? Hp0 Hp'].
  destruct s as [g l]. cbn in Hadd.
  rewrite btree_insert_last in Hadd.
  2:{ intros k' e Hin. pose proof (last_eras_epoch _ v WF Hl k' e Hin). lia. }
  pose proof (wf_schedule_snoc g l k fs st p v WF Hl Hst ltac:(lia) Hp0) as WF'.
  specialize (IH _ (view (mkEntry fs st p) (Z.of_nat (length l) + 1) k) s' WF').
  rewrite eras_snoc, last_snoc in IH.
  destruct IH as (WF'' & He & Hpar); [done|done|done|done|done|].
  split; [done|]. rewrite He, Hpar, !fmap_app, <- !app_assoc. done.
Qed.

End Schedule.

(** ** Theorems *)

Section Theorems.
Context {P : Type} `{!SlotDuration P} `{!EpochLength P} `{!TimeCrate}.
Implicit Types (s : EraSchedule P) (v w : EraEntryView P).

(** Resolving a schedule whose keys ascend gives a well-formed schedule,
    with the given first epochs and parameters, each boundary measured in the
    previous era's epoch length and slot duration. *)
Theorem new_schedule_wf genesis_time (g : P) (l : list (Z * P)) s :
  good_params g → Forall good_params l.*2 →
  StronglySorted Z.lt (0 :: l.*1) → Forall (λ k, k <= u32_max) l.*1 →
  new_schedule genesis_time g l = Ok s →
  wf_schedule s ∧ v_first_epoch <$> eras s = 0 :: l.*1 ∧ v_parameters <$> eras s = g :: l.*2.
Proof.
  intros [? ?] Hps Hs Hk Hnew.
  apply (add_eras_wf l (mkSchedule (mkEntry 0 genesis_time g) []) (view (mkEntry 0 genesis_time g) 0 0));
    try done.
  constructor; cbn; try done.
  all: intros v ->%list_elem_of_singleton; cbn; unfold u32_max; lia || done.
Qed.

(** The first slot of an epoch belongs to that epoch. *)
Theorem epoch_of_starting_slot {E} s epoch slot :
  wf_schedule s → in_u32 epoch →
  starting_slot_for_epoch (E:=E) s epoch = Ok slot →
  epoch_for_slot (E:=E) s slot = Ok epoch.
Proof.
  intros WF [He0 He1] Hs.
  destruct (starting_slot_ok s epoch slot WF He0 Hs) as (i & v & Hi & Hle & Hn & Hslot & Hmax).
  pose proof (es_length s WF v (list_elem_of_lookup_2 _ _ _ Hi)) as Hlen.
  assert (v_first_slot v <= slot) as Hge by nia.
  unfold epoch_for_slot. rewrite (at_slot_unique s slot i v WF Hi Hge).
  2:{ intros w Hw. destruct (es_follows s WF i v w Hi Hw) as [_ ? Hfs _].
      specialize (Hn w Hw). nia. }
  cbn. unfold strict_sub, checked_sub, strict_add, checked_add.
  rewrite (proj2 (Z.leb_le _ _) Hge). cbn.
  replace (slot - v_first_slot v) with ((epoch - v_first_epoch v) * epoch_length (v_parameters v)) by lia.
  rewrite Z.div_mul by lia. replace (v_first_epoch v + (epoch - v_first_epoch v)) with epoch by lia.
  rewrite (proj2 (Z.leb_le epoch u64_max)) by (unfold u32_max, u64_max in *; lia). cbn.
  by rewrite (proj2 (Z.leb_le epoch u32_max)) by lia.
Qed.

(** Epochs partition the slots: a slot is at or after the first slot of its
    epoch, and before the first slot of the next one. *)
Theorem slot_within_epoch {E} s slot epoch a :
  wf_schedule s → in_u64 slot →
  epoch_for_slot (E:=E) s slot = Ok epoch →
  (starting_slot_for_epoch (E:=E) s epoch = Ok a → a <= slot) ∧
  (starting_slot_for_epoch (E:=E) s (epoch + 1) = Ok a → slot < a).
Proof.
  intros WF [Hs0 Hs1] He.
  destruct (epoch_for_slot_ok s slot epoch WF Hs0 He) as (i & v & Hi & Hle & Hn & -> & Hmax).
  pose proof (es_length s WF v (list_elem_of_lookup_2 _ _ _ Hi)) as Hlen.
  pose proof (es_epoch s WF v (list_elem_of_lookup_2 _ _ _ Hi)) as Hep.
  set (q := (slot - v_first_slot v) / epoch_length (v_parameters v)) in *.
  assert (0 <= q) by (apply Z.div_pos; lia).
  assert (q * epoch_length (v_parameters v) <= slot - v_first_slot v
          < (q + 1) * epoch_length (v_parameters v)) as [Hq1 Hq2].
  { unfold q. pose proof (Z.mul_div_le (slot - v_first_slot v) (epoch_length (v_parameters v)) Hlen).
    pose proof (Z.mul_succ_div_gt (slot - v_first_slot v) (epoch_length (v_parameters v)) Hlen). lia. }
  assert (∀ w, eras s !! S i = Some w → v_first_epoch v + q < v_first_epoch w) as Hnext.
  { intros w Hw. specialize (Hn w Hw). destruct (es_follows s WF i v w Hi Hw) as [_ ? Hfs _]. nia. }
  split; intros Hst.
  - apply (starting_slot_in_era s i v) in Hst as ->; [nia|done|done|lia|done].
  - destruct (eras s !! S i) as [w|] eqn:Hw.
    + specialize (Hnext w eq_refl). specialize (Hn w eq_refl).
      destruct (decide (v_first_epoch v + q + 1 = v_first_epoch w)) as [Ew|].
      * rewrite Ew in Hst. apply (starting_slot_in_era s (S i) w) in Hst as ->; [nia|done|done|lia|].
        intros u Hu. destruct (eras_mono s (S i) (S (S i)) w u WF); done || lia.
      * apply (starting_slot_in_era s i v) in Hst as ->; [nia|done|done|lia|].
        intros w' ?. simplify_eq. lia.
    + apply (starting_slot_in_era s i v) in Hst as ->; [nia|done|done|lia|]. congruence.
Qed.

(** The slot in progress at the start of a slot is that slot. *)
Theorem slot_at_time_of {E} s slot tm :
  wf_schedule s → (∀ v, v ∈ eras s → 0 < slot_duration (v_parameters v)) → in_u64 slot →
  time_of (E:=E) s slot = Ok tm → slot_at (E:=E) s tm = Ok (Some slot).
Proof.
  intros WF Hpos [Hs0 Hs1] Ht.
  destruct (at_slot_spec (E:=E) s slot WF Hs0) as (i & v & Hv & Hi & Hle & Hn).
  specialize (Hpos v (list_elem_of_lookup_2 _ _ _ Hi)).
  pose proof (first_slot_nonneg s i v WF Hi).
  set (d := slot_duration (v_parameters v)) in *.
  assert (tm = v_start_time v + d * (slot - v_first_slot v)) as Etm.
  { unfold time_of, checked_time_of, elapsed_slots_since_era_start in Ht.
    rewrite Hv in Ht. cbn in Ht. rewrite result_bind_ok in Ht. destruct Ht as (o & Ho & Ht).
    apply expect_ok in Ht as ->. inv_ok Ho.
    destruct (span _ _) as [sp|] eqn:Hsp; [|done]. cbn in Ho.
    apply datetime_checked_add_ok in Ho as ->. unfold span in Hsp.
    destruct (checked_mul _ _ _) as [n|] eqn:Hm; [|done]. cbn in Hsp.
    apply checked_mul_Some in Hm as [-> _]. case_match; [|done].
    apply duration_try_from_ok in Hsp as ->. by subst. }
  unfold slot_at. rewrite (last_started_unique s v_start_time tm i v WF); [| |done|nia|].
  - fold d. replace (tm - v_start_time v) with ((slot - v_first_slot v) * d) by lia.
    rewrite (proj2 (Z.ltb_ge _ _)) by nia. rewrite (proj2 (Z.eqb_neq _ _)) by lia.
    rewrite Z.div_mul by lia. rewrite (proj2 (Z.leb_le _ _)) by lia.
    unfold strict_add, checked_add.
    replace (v_first_slot v + (slot - v_first_slot v)) with slot by lia.
    by rewrite (proj2 (Z.leb_le _ _)) by lia.
  - intros j k u w Hjk Hu Hw. destruct (eras_mono s j k u w WF Hjk Hu Hw). lia.
  - intros w Hw. specialize (Hn w Hw). destruct (es_follows s WF i v w Hi Hw) as [_ _ Hfs Hst].
    rewrite Hst. fold d. nia.
Qed.

End Theorems.

(** ** Eras of a mapped schedule, and from the first slot on *)

Lemma take_while_head {A} (f : A → bool) x l : f x = true →
  ∃ y, last (take_while f (x :: l)) = Some y ∧ y ∈ x :: l.
Proof.
  intros Hx. cbn. rewrite Hx. revert x Hx. induction l as [|z l IH]; intros x Hx; cbn.
  { exists x. split; [done|apply list_elem_of_here]. }
  destruct (f z) eqn:Hz; [|exists x; split; [done|apply list_elem_of_here]].
  destruct (IH z Hz) as (y & Hy & Hin). exists y.
  split; [by destruct (take_while f l)|]. by apply list_elem_of_further.
Qed.

Section MappedEras.
Context {P Q : Type} (f : EraEntryView P → Q).
Implicit Types (s : EraSchedule P) (v : EraEntryView P).

Definition map_view v : EraEntryView Q := mkView (v_era v) (v_first_epoch v) (v_first_slot v) (v_start_time v) (f v).

Lemma eras_map s : eras (map_schedule f s) = map_view <$> eras s.
Proof.
  unfold eras. rewrite fmap_cons. f_equal. rewrite <- list_fmap_compose. unfold eras_after_genesis. cbn [map_schedule s_after_genesis].
  apply list_eq. intros i. rewrite !list_lookup_fmap. unfold eras_after_genesis. rewrite !list_lookup_imap, list_lookup_fmap, list_lookup_imap.
  by destruct (s_after_genesis s !! i) as [[first_epoch e]|].
Qed.

Lemma take_while_map {A B} (g : A → B) (p : B → bool) (l : list A) : take_while p (g <$> l) = g <$> take_while (p ∘ g) l.
Proof. induction l as [|x l IH]; [done|]. rewrite fmap_cons. cbn. destruct (p (g x)); [by rewrite IH|done]. Qed.

Lemma at_slot_map {E F : Type} s slot v : at_slot (E:=E) s slot = Ok v → at_slot (E:=F) (map_schedule f s) slot = Ok (map_view v).
Proof.
  unfold at_slot, last_started. intros Hl%expect_ok. rewrite eras_map, take_while_map, fmap_last.
  change ((λ v0 : EraEntryView Q, v_first_slot v0 <=? slot) ∘ map_view) with (λ v0 : EraEntryView P, v_first_slot v0 <=? slot). by rewrite Hl.
Qed.

Lemma at_slot_from_genesis s slot : e_first_slot (s_genesis s) = 0 → 0 <= slot → ∃ v, v ∈ eras s ∧ ∀ E : Type, at_slot (E:=E) s slot = Ok v.
Proof.
  intros Hg Hs. destruct (take_while_head (λ v : EraEntryView P, v_first_slot v <=? slot) (genesis s) (snd <$> eras_after_genesis s))
    as (v & Hv & Hin); [cbn; lia|].
  exists v. split; [done|]. intros E. unfold at_slot, last_started.
  change (genesis s :: (eras_after_genesis s).*2) with (eras s) in Hv. by rewrite Hv.
Qed.

End MappedEras.

(** ** Witnesses *)

Module EraWitness.

#[local] Instance tc : TimeCrate := bounded_time (10 ^ 30).

Definition g : EraTiming := mkEraTiming 10 100.
Definition after : list (Z * EraTiming) := [(3, mkEraTiming 5 40)].
Definition sched : EraSchedule EraTiming :=
  mkSchedule (mkEntry 0 1000 g) [(3, mkEntry 300 4000 (mkEraTiming 5 40))].

Lemma sched_wf : wf_schedule sched.
Proof.
  refine (proj1 (add_eras_wf after (mkSchedule (mkEntry 0 1000 g) []) (view (mkEntry 0 1000 g) 0 0)
    sched _ _ _ _ _ _)).
  - constructor; cbn; try done.
    all: intros v ->%list_elem_of_singleton; cbn; unfold u32_max; lia || done.
  - done.
  - repeat constructor.
  - by repeat constructor.
  - by repeat constructor.
  - by vm_compute.
Qed.

Lemma new_schedule_wf_witness :
  new_schedule 1000 g after = Ok sched ∧ wf_schedule sched ∧
  v_first_epoch <$> eras sched = [0; 3] ∧ v_parameters <$> eras sched = [g; mkEraTiming 5 40].
Proof.
  split; [by vm_compute|].
  apply (new_schedule_wf 1000 g after sched); by (repeat constructor) || by vm_compute.
Defined.

Lemma epoch_of_starting_slot_witness :
  starting_slot_for_epoch (E:=ErasError) sched 4 = Ok 340 ∧
  epoch_for_slot (E:=ErasError) sched 340 = Ok 4.
Proof.
  split; [by vm_compute|].
  apply (epoch_of_starting_slot sched 4 340 sched_wf); by vm_compute.
Defined.

Lemma slot_within_epoch_witness :
  epoch_for_slot (E:=ErasError) sched 345 = Ok 4 ∧ 340 <= 345.
Proof.
  split; [by vm_compute|].
  apply (slot_within_epoch (E:=ErasError) sched 345 4 340 sched_wf); by vm_compute.
Defined.

Lemma slot_at_time_of_witness :
  time_of (E:=ErasError) sched 345 = Ok 4225 ∧
  slot_at (E:=ErasError) sched 4225 = Ok (Some 345).
Proof.
  split; [by vm_compute|].
  apply (slot_at_time_of sched 345 4225 sched_wf).
  - intros v [->|[->|Hv%not_elem_of_nil]%elem_of_cons]%elem_of_cons; cbn; [lia|lia|done].
  - by vm_compute.
  - by vm_compute.
Defined.

End EraWitness.
