(* ===== verification/EngineConfig.v ===== *)
(** * Engine configuration: consensus/cryptarchia-engine/src/config.rs and
    time.rs, with [NonNegativeRatio] of utils/src/math.rs

    The [f64] computations are IEEE binary64 arithmetic, with the Standard
    Library's executable specification of floats. *)

From Stdlib Require Import SpecFloat.
From S2P Require Import Prelude.

Open Scope Z_scope.

(** ** binary64 *)

Definition f64_of_Z (z : Z) : spec_float := binary_normalize 53 1024 z 0 false.
Definition f64_mul : spec_float → spec_float → spec_float := SFmul 53 1024.
Definition f64_div : spec_float → spec_float → spec_float := SFdiv 53 1024.

(** [x.floor() as u64]: the cast saturates and sends NaN to 0. *)
Definition f64_floor_u64 (x : spec_float) : Z :=
  match x with
  | S754_finite false m e => Z.min u64_max (if 0 <=? e then Zpos m * 2 ^ e else Zpos m / 2 ^ (- e))
  | S754_infinity false => u64_max
  | _ => 0
  end.

(** ** [NonNegativeRatio] *)

Record NonNegativeRatio := mkRatio { numerator : Z; denominator : Z }.

Definition as_f64 (r : NonNegativeRatio) : spec_float :=
  f64_div (f64_of_Z (numerator r)) (f64_of_Z (denominator r)).

(** [ProperFraction::new]. *)
Definition proper_fraction (num den : Z) : option NonNegativeRatio :=
  if (num =? 0) || (den <=? num) then None else Some (mkRatio num den).

(** ** [Config] *)

Record Config := mkConfig {
  security_param : Z;
  slot_activation_coeff : NonNegativeRatio;
  stake_inference_learning_rate : spec_float;
  uncle_reference_window_in_block : Z;
  max_uncles : Z
}.

(** [NonZero::new(n).expect(..)]. *)
Definition nonzero {E} (n : Z) : result E Z := if n =? 0 then Fault Unwrap else Ok n.

Definition average_slots_for_blocks {E} (num_blocks : Z) (f : NonNegativeRatio) : result E Z :=
  nonzero (f64_floor_u64 (f64_div (f64_of_Z num_blocks) (as_f64 f))).

Definition base_period_length {E} (security_param : Z) (f : NonNegativeRatio) : result E Z :=
  average_slots_for_blocks security_param f.

Definition genesis_density_window (security_param : Z) (f : NonNegativeRatio) : Z :=
  f64_floor_u64 (f64_div (f64_of_Z security_param) (f64_mul (f64_of_Z 4) (as_f64 f))).

(** [Config::s_gen]. *)
Definition s_gen {E} (c : Config) : result E Z :=
  nonzero (genesis_density_window (security_param c) (slot_activation_coeff c)).

(** [Config::slot_security_param]. *)
Definition slot_security_param {E} (c : Config) : result E Z :=
  base ← base_period_length (security_param c) (slot_activation_coeff c);
  Ok (saturating_mul u64_max base 3).

(** [Config::uncle_reference_window_in_slot]. *)
Definition uncle_reference_window_in_slot {E} (c : Config) : result E Z :=
  if uncle_reference_window_in_block c =? 0 then Ok 0
  else average_slots_for_blocks (uncle_reference_window_in_block c) (slot_activation_coeff c).

(** [max_allowed_uncle_reference_window_in_block]: widened to 64 bits. *)
Definition max_allowed_uncle_reference_window_in_block {E} (security_param : Z) : result E Z :=
  p ← strict_mul u64_max security_param 6;
  if p / 10 <=? u32_max then Ok (p / 10) else Fault Unwrap.

(** [expected_blocks_per_epoch]: widened to 128 bits, clamped to 64. *)
Definition expected_blocks_per_epoch {E} (epoch_length : Z) (f : NonNegativeRatio) : result E Z :=
  p ← strict_mul u128_max epoch_length (numerator f);
  let blocks := p / denominator f in
  nonzero (if blocks >? u64_max then u64_max else blocks).

(** ** [EpochConfig] *)

Record EpochConfig := mkEpochConfig {
  epoch_stake_distribution_stabilization : Z;
  epoch_period_nonce_buffer : Z;
  epoch_period_nonce_stabilization : Z
}.

Definition epoch_config_length (c : EpochConfig) (base_period_length : Z) : Z :=
  saturating_mul u64_max
    (saturating_add u64_max
       (saturating_add u64_max (epoch_stake_distribution_stabilization c)
          (epoch_period_nonce_buffer c))
       (epoch_period_nonce_stabilization c))
    base_period_length.

Definition epoch_config_epoch {E} (c : EpochConfig) (slot base_period_length : Z) : result E Z :=
  let epoch := slot / epoch_config_length c base_period_length in
  if epoch <=? u32_max then Ok epoch else Fault Unwrap.

Definition epoch_config_starting_slot {E} (c : EpochConfig) (epoch base_period_length : Z)
    : result E Z :=
  strict_mul u64_max epoch (epoch_config_length c base_period_length).

Definition epoch_config_last_slot {E} (c : EpochConfig) (epoch base_period_length : Z)
    : result E Z :=
  next ← strict_add u32_max epoch 1;
  p ← strict_mul u64_max next (epoch_config_length c base_period_length);
  strict_sub p 1.

(** ** Facts *)

Record wf_epoch_config (c : EpochConfig) : Prop := {
  wec_stake : 1 <= epoch_stake_distribution_stabilization c <= u8_max;
  wec_buffer : 1 <= epoch_period_nonce_buffer c <= u8_max;
  wec_nonce : 1 <= epoch_period_nonce_stabilization c <= u8_max
}.

Lemma epoch_config_length_pos c base : wf_epoch_config c → 1 <= base →
  3 <= epoch_config_length c base <= u64_max.
Proof.
  intros [[? ?] [? ?] [? ?]] ?.
  unfold epoch_config_length, saturating_mul, saturating_add, u64_max, u8_max in *. nia.
Qed.

(** The epoch layout of a configuration is consistent: the first and the
    last slot of an epoch are in that epoch, and the slot after the last one
    starts the next epoch. *)
Theorem epoch_config_layout {E} c base epoch first last :
  wf_epoch_config c → 1 <= base → in_u32 epoch →
  epoch_config_starting_slot (E:=E) c epoch base = Ok first →
  epoch_config_last_slot (E:=E) c epoch base = Ok last →
  first <= last ∧
  epoch_config_epoch (E:=E) c first base = Ok epoch ∧
  epoch_config_epoch (E:=E) c last base = Ok epoch ∧
  (epoch < u32_max → epoch_config_epoch (E:=E) c (last + 1) base = Ok (epoch + 1)).
Proof.
  intros WF Hb [He0 He1] Hf Hl. pose proof (epoch_config_length_pos c base WF Hb) as [Hlen _].
  unfold epoch_config_starting_slot in Hf. unfold epoch_config_last_slot in Hl.
  inv_ok Hf. inv_ok Hl. subst.
  unfold epoch_config_epoch. set (n := epoch_config_length c base) in *.
  rewrite Z.div_mul by lia.
  assert (((epoch + 1) * n - 1) / n = epoch) as -> by (symmetry; apply (Z.div_unique _ _ _ (n - 1)); lia).
  replace ((epoch + 1) * n - 1 + 1) with ((epoch + 1) * n) by lia. rewrite Z.div_mul by lia.
  split; [nia|]. rewrite (proj2 (Z.leb_le epoch u32_max)) by lia.
  do 2 (split; [done|]). intros. by rewrite (proj2 (Z.leb_le _ _)) by lia.
Qed.

(** The uncle reference window never exceeds the security parameter, and
    computing it neither overflows nor fails. *)
Theorem max_allowed_uncle_window_bound {E} k :
  1 <= k <= u32_max →
  ∃ w, max_allowed_uncle_reference_window_in_block (E:=E) k = Ok w ∧
    0 <= w <= k ∧ 10 * w <= 6 * k < 10 * (w + 1).
Proof.
  intros Hk. exists (k * 6 / 10).
  unfold max_allowed_uncle_reference_window_in_block, strict_mul, checked_mul.
  unfold u32_max, u64_max in *. rewrite (proj2 (Z.leb_le _ _)) by lia. cbn -[Z.div Z.mul].
  pose proof (Z.div_mod (k * 6) 10 ltac:(lia)). pose proof (Z.mod_pos_bound (k * 6) 10 ltac:(lia)).
  rewrite (proj2 (Z.leb_le _ _)) by lia. repeat split; lia.
Qed.

Module ConfigExamples.

(** The test configuration of the engine: [f] = 1/10. *)
Definition config_with (k : Z) : Config := mkConfig k (mkRatio 1 10) (f64_of_Z 1) 12 4.

Example s_gen_10 : s_gen (E:=Empty_set) (config_with 10) = Ok 25.
Proof. vm_compute. reflexivity. Qed.

Example base_period_10 : base_period_length (E:=Empty_set) 10 (mkRatio 1 10) = Ok 100.
Proof. vm_compute. reflexivity. Qed.

Example window_12 : uncle_reference_window_in_slot (E:=Empty_set) (config_with 1) = Ok 120.
Proof. vm_compute. reflexivity. Qed.

Lemma epoch_config_layout_witness :
  wf_epoch_config (mkEpochConfig 3 3 4) ∧
  epoch_config_epoch (E:=Empty_set) (mkEpochConfig 3 3 4) 2999 100 = Ok 2.
Proof.
  assert (wf_epoch_config (mkEpochConfig 3 3 4)) as WF by (by constructor).
  split; [done|].
  apply (epoch_config_layout (mkEpochConfig 3 3 4) 100 2 2000 2999 WF); by vm_compute.
Defined.

Lemma max_allowed_uncle_window_bound_witness :
  ∃ w, max_allowed_uncle_reference_window_in_block (E:=Empty_set) 2160 = Ok w ∧
    0 <= w <= 2160 ∧ 10 * w <= 6 * 2160 < 10 * (w + 1).
Proof. apply (max_allowed_uncle_window_bound 2160). by vm_compute. Defined.

End ConfigExamples.
