(* ===== verification/Engine.v ===== *)
(** * The consensus engine: [State] and [Cryptarchia] of
    consensus/cryptarchia-engine/src/lib.rs

    Fork choice ([maxvalid_bg] while bootstrapping, [maxvalid_mc] online), the
    latest immutable block, reception of a block, pruning, and the selection of
    uncles. Methods that take [&mut self] return the new state. At the end,
    small engines on which the theorems are run. *)

From S2P Require Import Prelude BlockTree Era EngineConfig.

Open Scope Z_scope.

Inductive State := Bootstrapping | Online.

#[export] Instance State_eq_dec : EqDecision State.
Proof. solve_decision. Defined.

Record Cryptarchia (Id : Type) `{Countable Id} := mkCryptarchia {
  local_chain : Branch Id;
  tree : Branches Id;
  era_schedule : EraSchedule Config;
  state : State
}.

Arguments mkCryptarchia {Id _ _} _ _ _ _.
Arguments local_chain {Id _ _} _.
Arguments tree {Id _ _} _.
Arguments era_schedule {Id _ _} _.
Arguments state {Id _ _} _.

Record PrunedBlocks (Id : Type) `{Countable Id} := mkPruned {
  stale_blocks : gset Id;
  immutable_blocks : gmap Z Id
}.

Arguments mkPruned {Id _ _} _ _.
Arguments stale_blocks {Id _ _} _.
Arguments immutable_blocks {Id _ _} _.

Record ReceiveBlockOutcome (Id : Type) `{Countable Id} := mkOutcome {
  pruned_blocks : PrunedBlocks Id;
  reorged_blocks : list Id;
  newly_canonical_blocks : list Id
}.

Arguments mkOutcome {Id _ _} _ _ _.
Arguments pruned_blocks {Id _ _} _.
Arguments reorged_blocks {Id _ _} _.
Arguments newly_canonical_blocks {Id _ _} _.

Record ForkDivergenceInfo (Id : Type) := mkFork { fork_tip : Branch Id; fork_lca : Branch Id }.

Arguments mkFork {Id} _ _.
Arguments fork_tip {Id} _.
Arguments fork_lca {Id} _.

(** A loop over a list whose body may fail. *)
Fixpoint foldM {E A B} (f : A → B → result E A) (a : A) (l : list B) : result E A :=
  match l with
  | [] => Ok a
  | x :: l => a' ← f a x; foldM f a' l
  end.

Section Engine.
Context {Id : Type} `{Countable Id} {order : SetOrder Id}.

Implicit Types (t : Branches Id) (b : Branch Id) (c : Cryptarchia Id).

(** ** Fork choice *)

(** The body of the loop of [maxvalid_bg]. *)
Definition bg_step {E} t (params_at : Z → result E (Z * Z)) (cmax chain : Branch Id)
    : result E (Branch Id) :=
  o ← lca t cmax chain;
  lowest_common_ancestor ← expect o;
  '(k, s_gen) ← params_at (b_slot lowest_common_ancestor);
  m ← strict_sub (b_length cmax) (b_length lowest_common_ancestor);
  if m <=? k then
    Ok (if b_length cmax <? b_length chain then chain else cmax)
  else
    density_slot ← strict_add u64_max (b_slot lowest_common_ancestor) s_gen;
    cmax_density ← walk_back_before t cmax density_slot;
    candidate_density ← walk_back_before t chain density_slot;
    Ok (if b_length cmax_density <? b_length candidate_density then chain else cmax).

Definition maxvalid_bg {E} (local : Branch Id) t (params_at : Z → result E (Z * Z))
    : result E (Branch Id) :=
  forks ← tip_branches t;
  foldM (bg_step t params_at) local forks.

(** The body of the loop of [maxvalid_mc]. *)
Definition mc_step {E} t (security_param_at_slot : Z → result E Z) (cmax chain : Branch Id)
    : result E (Branch Id) :=
  o ← lca t cmax chain;
  lowest_common_ancestor ← expect o;
  k ← security_param_at_slot (b_slot lowest_common_ancestor);
  m ← strict_sub (b_length cmax) (b_length lowest_common_ancestor);
  Ok (if (m <=? k) && (b_length cmax <? b_length chain) then chain else cmax).

Definition maxvalid_mc {E} (local : Branch Id) t (security_param_at_slot : Z → result E Z)
    : result E (Branch Id) :=
  forks ← tip_branches t;
  foldM (mc_step t security_param_at_slot) local forks.

(** The parameters of the era of a slot. *)
Definition bg_params_at {E} (s : EraSchedule Config) (slot : Z) : result E (Z * Z) :=
  era ← at_slot s slot;
  sg ← s_gen (v_parameters era);
  Ok (security_param (v_parameters era), sg).

Definition k_at {E} (s : EraSchedule Config) (slot : Z) : result E Z :=
  era ← at_slot s slot;
  Ok (security_param (v_parameters era)).

(** [State::fork_choice]. *)
Definition fork_choice {E} c : result E (Branch Id) :=
  match state c with
  | Bootstrapping => maxvalid_bg (local_chain c) (tree c) (bg_params_at (era_schedule c))
  | Online => maxvalid_mc (local_chain c) (tree c) (k_at (era_schedule c))
  end.

(** ** The latest immutable block *)

(** [Iterator::find] with a fallible predicate. *)
Fixpoint findM {E A} (f : A → result E bool) (l : list A) : result E (option A) :=
  match l with
  | [] => Ok None
  | x :: l => ok ← f x; if (ok : bool) then Ok (Some x) else findM f l
  end.

Definition is_block_within_the_k_of_its_era {E} (s : EraSchedule Config) (tip block : Branch Id)
    : result E bool :=
  k ← k_at s (b_slot block);
  Ok (saturating_sub (b_length tip) (b_length block) <=? k).

(** [State::lib]. *)
Definition state_lib {E} c : result E Id :=
  match state c with
  | Bootstrapping => Ok (lib (tree c))
  | Online =>
      blocks ← lib_to_tip_blocks (tree c) (local_chain c);
      o ← findM (is_block_within_the_k_of_its_era (era_schedule c) (local_chain c)) blocks;
      block ← expect o;
      Ok (b_id block)
  end.

(** ** Pruning *)

Definition set_tree c t : Cryptarchia Id :=
  mkCryptarchia (local_chain c) t (era_schedule c) (state c).

Definition lib_branch {E} c : result E (Branch Id) :=
  expect (branches (tree c) !! lib (tree c)).

(** [Cryptarchia::lib_depth]. *)
Definition lib_depth {E} c : result E Z :=
  b ← lib_branch c;
  expect (checked_sub (b_length (local_chain c)) (b_length b)).

(** [Cryptarchia::non_canonical_forks]. *)
Definition non_canonical_forks {E} c : result E (list (Branch Id)) :=
  forks ← tip_branches (tree c);
  Ok (filter (λ fork, b_id fork ≠ b_id (local_chain c)) forks).

Fixpoint prunable_among {E} t (local : Branch Id) (deepest_div_block : Z) (forks : list (Branch Id))
    : result E (list (ForkDivergenceInfo Id)) :=
  match forks with
  | [] => Ok []
  | fork :: forks =>
      o ← lca t local fork;
      l ← expect o;
      rest ← prunable_among t local deepest_div_block forks;
      Ok (if b_length l <? deepest_div_block then mkFork fork l :: rest else rest)
  end.

(** [Cryptarchia::prunable_forks]. *)
Definition prunable_forks {E} c (max_div_depth : Z) : result E (list (ForkDivergenceInfo Id)) :=
  match checked_sub (b_length (local_chain c)) max_div_depth with
  | None => Ok []
  | Some deepest_div_block =>
      forks ← non_canonical_forks c;
      prunable_among (tree c) (local_chain c) deepest_div_block forks
  end.

(** The loop of [Cryptarchia::prune_fork]: the remaining blocks and the ids of
    the removed ones, in order of removal. *)
Fixpoint prune_fork_loop {E} (fuel : nat) (bs : gmap Id (Branch Id)) (current stop : Id)
    : result E (gmap Id (Branch Id) * list Id) :=
  if decide (current = stop) then Ok (bs, [])
  else match bs !! current with
       | None => Ok (bs, [])
       | Some branch =>
           match fuel with
           | O => Fault OutOfFuel
           | S fuel =>
               '(bs', removed) ← prune_fork_loop fuel (delete current bs) (b_parent branch) stop;
               Ok (bs', b_id branch :: removed)
           end
       end.

(** [Cryptarchia::prune_fork]. *)
Definition prune_fork {E} t (info : ForkDivergenceInfo Id) : result E (Branches Id * list Id) :=
  let tips' := tips t ∖ {[b_id (fork_tip info)]} in
  '(bs, removed) ← prune_fork_loop (size (branches t)) (branches t)
                     (b_id (fork_tip info)) (b_id (fork_lca info));
  Ok (mkBranches bs tips' (lib t), removed).

Fixpoint prune_forks {E} t (infos : list (ForkDivergenceInfo Id)) : result E (Branches Id * list Id) :=
  match infos with
  | [] => Ok (t, [])
  | info :: infos =>
      '(t1, removed1) ← prune_fork t info;
      '(t2, removed2) ← prune_forks t1 infos;
      Ok (t2, removed1 ++ removed2)
  end.

(** [Cryptarchia::prune_stale_forks]. *)
Definition prune_stale_forks {E} c (max_div_depth : Z) : result E (Cryptarchia Id * list Id) :=
  forks ← prunable_forks c max_div_depth;
  '(t, removed) ← prune_forks (tree c) forks;
  Ok (set_tree c t, removed).

(** The loop of [Cryptarchia::prune_immutable_blocks]. *)
Fixpoint prune_immutable_loop {E} (fuel : nat) (bs : gmap Id (Branch Id)) (block : Id)
    : result E (gmap Id (Branch Id) * list (Z * Id)) :=
  match bs !! block with
  | None => Ok (bs, [])
  | Some b =>
      match fuel with
      | O => Fault OutOfFuel
      | S fuel =>
          '(bs', removed) ← prune_immutable_loop fuel (delete block bs) (b_parent b);
          Ok (bs', (b_slot b, b_id b) :: removed)
      end
  end.

(** [Cryptarchia::prune_immutable_blocks]. *)
Definition prune_immutable_blocks {E} c : result E (Cryptarchia Id * list (Z * Id)) :=
  l ← lib_branch c;
  '(bs, removed) ← prune_immutable_loop (size (branches (tree c))) (branches (tree c)) (b_parent l);
  Ok (set_tree c (mkBranches bs (tips (tree c)) (lib (tree c))), removed).

(** [Cryptarchia::update_lib]. *)
Definition update_lib {E} c : result E (Cryptarchia Id * PrunedBlocks Id) :=
  new_lib ← state_lib c;
  if decide (lib (tree c) = new_lib) then Ok (c, mkPruned ∅ ∅)
  else
    let c1 := set_tree c (mkBranches (branches (tree c)) (tips (tree c)) new_lib) in
    depth ← lib_depth c1;
    '(c2, stale) ← prune_stale_forks c1 depth;
    '(c3, immutable) ← prune_immutable_blocks c2;
    Ok (c3, mkPruned (list_to_set stale) (collect_map immutable)).

(** ** Transitions *)

(** [Cryptarchia::from_lib], [from_genesis]. *)
Definition cryptarchia_from_lib (id parent : Id) (s : EraSchedule Config) (st : State)
    (slot length : Z) (uncle_slots : list Z) : Cryptarchia Id :=
  mkCryptarchia (mkBranch id parent slot length uncle_slots)
    (from_lib id parent slot length uncle_slots) s st.

Definition from_genesis (genesis : Id) (s : EraSchedule Config) (st : State) : Cryptarchia Id :=
  cryptarchia_from_lib genesis genesis s st 0 0 [].

(** The blocks the switch from [old] to [new] abandons and adopts. *)
Definition canonical_change {E} t (old new : Branch Id) : result E (list Id * list Id) :=
  if decide (b_id new = b_id old) then Ok ([], [])
  else
    o ← lca t old new;
    l ← expect o;
    reorged ← walk_back_to_block t old (b_id l);
    adopted ← walk_back_to_block t new (b_id l);
    Ok (reorged, reverse adopted).

(** [Cryptarchia::receive_block_with_canonical_change]. *)
Definition receive_block_with_canonical_change c (id parent : Id) (slot : Z) (uncle_slots : list Z)
    : result (Error Id) (Cryptarchia Id * ReceiveBlockOutcome Id) :=
  t ← apply_header (tree c) id parent slot uncle_slots;
  let c1 := set_tree c t in
  new_local ← fork_choice c1;
  let c2 := mkCryptarchia new_local t (era_schedule c) (state c) in
  '(reorged, adopted) ← canonical_change t (local_chain c) new_local;
  '(c3, pruned) ← update_lib c2;
  Ok (c3, mkOutcome pruned reorged adopted).

(** [Cryptarchia::receive_block]. *)
Definition receive_block c (id parent : Id) (slot : Z) (uncle_slots : list Z)
    : result (Error Id) (Cryptarchia Id * (PrunedBlocks Id * list Id)) :=
  '(c', outcome) ← receive_block_with_canonical_change c id parent slot uncle_slots;
  Ok (c', (pruned_blocks outcome, reorged_blocks outcome)).

(** [Cryptarchia::online]. *)
Definition online {E} c : result E (Cryptarchia Id * PrunedBlocks Id) :=
  update_lib (mkCryptarchia (local_chain c) (tree c) (era_schedule c) Online).

(** [PrunedBlocks::all], [len], [extend]. *)
Definition pruned_all (p : PrunedBlocks Id) : gset Id :=
  stale_blocks p ∪ map_img (immutable_blocks p).

Definition pruned_len (p : PrunedBlocks Id) : nat :=
  (size (stale_blocks p) + size (immutable_blocks p))%nat.

Definition pruned_extend (p other : PrunedBlocks Id) : PrunedBlocks Id :=
  mkPruned (stale_blocks p ∪ stale_blocks other)
           (immutable_blocks other ∪ immutable_blocks p).

(** ** Uncles *)

(** [Cryptarchia::collect_chain_within_window]. *)
Fixpoint collect_chain_loop {E} (fuel : nat) t (window_start : Z) (ancestor : option (Branch Id))
    (ancestors : gmap Id Z) (occupied : gset Z) : result E (gmap Id Z * gset Z) :=
  match ancestor with
  | None => Ok (ancestors, occupied)
  | Some block =>
      if b_slot block <? window_start then Ok (ancestors, occupied)
      else match fuel with
           | O => Fault OutOfFuel
           | S fuel =>
               collect_chain_loop fuel t window_start (parent t block)
                 (<[b_id block := b_slot block]> ancestors)
                 (list_to_set (filter (λ u, window_start <= u) (b_uncle_slots block))
                  ∪ ({[b_slot block]} ∪ occupied))
           end
  end.

Definition collect_chain_within_window {E} c (parent : Branch Id) (window_start : Z)
    : result E (gmap Id Z * gset Z) :=
  collect_chain_loop (walk_fuel (tree c)) (tree c) window_start (Some parent) ∅ ∅.

(** The inner loop of [Cryptarchia::uncle_candidates]. *)
Fixpoint candidates_loop {E} (fuel : nat) t (slot window_start : Z) (ancestors : gmap Id Z)
    (occupied : gset Z) (current : option (Branch Id)) : result E (list (Z * Branch Id)) :=
  match current with
  | None => Ok []
  | Some block =>
      if (b_slot block <? window_start) || bool_decide (is_Some (ancestors !! b_id block))
      then Ok []
      else match fuel with
           | O => Fault OutOfFuel
           | S fuel =>
               rest ← candidates_loop fuel t slot window_start ancestors occupied (parent t block);
               Ok (match ancestors !! b_parent block with
                   | Some parent_slot =>
                       if (b_slot block <? slot) && bool_decide (b_slot block ∉ occupied)
                       then (parent_slot, block) :: rest else rest
                   | None => rest
                   end)
           end
  end.

(** [Cryptarchia::uncle_candidates]. *)
Definition uncle_candidates {E} c (slot window_start : Z) (ancestors : gmap Id Z)
    (occupied : gset Z) : result E (list (Z * Branch Id)) :=
  tips ← tip_branches (tree c);
  ls ← mapM (λ b, candidates_loop (walk_fuel (tree c)) (tree c) slot window_start ancestors occupied (Some b))
         tips;
  Ok (concat ls).

(** One uncle per slot: the first of each slot, in order. *)
Fixpoint first_per_slot (seen : gset Z) (l : list (Z * Branch Id)) : list (Branch Id) :=
  match l with
  | [] => []
  | (_, u) :: l =>
      if decide (b_slot u ∈ seen) then first_per_slot seen l
      else u :: first_per_slot ({[b_slot u]} ∪ seen) l
  end.

(** Sorting by the key [(parent_slot, slot, id)]: [sort_unstable_by_key] as
    insertion sort, for an order [id_le] on ids. *)
Definition uncle_key_le (id_le : Id → Id → bool) (x y : Z * Branch Id) : bool :=
  let '(px, ux) := x in let '(py, uy) := y in
  if px =? py then
    if b_slot ux =? b_slot uy then id_le (b_id ux) (b_id uy) else b_slot ux <? b_slot uy
  else px <? py.

Fixpoint insert_sorted {A} (le : A → A → bool) (x : A) (l : list A) : list A :=
  match l with
  | [] => [x]
  | y :: l' => if le x y then x :: l else y :: insert_sorted le x l'
  end.

Definition sort_by {A} (le : A → A → bool) (l : list A) : list A :=
  foldr (insert_sorted le) [] l.

(** [Cryptarchia::select_uncles]. *)
Definition select_uncles {E} (id_le : Id → Id → bool) c (parent : Branch Id) (slot : Z)
    : result E (list (Branch Id)) :=
  era ← at_slot (era_schedule c) slot;
  window ← uncle_reference_window_in_slot (v_parameters era);
  let window_start := saturating_sub slot window in
  '(ancestors, occupied_slots) ← collect_chain_within_window c parent window_start;
  candidates ← uncle_candidates c slot window_start ancestors occupied_slots;
  let candidates := filter (λ '(_, uncle), v_first_slot era <= b_slot uncle) candidates in
  let candidates := sort_by (uncle_key_le id_le) candidates in
  Ok (take (Z.to_nat (max_uncles (v_parameters era))) (first_per_slot ∅ candidates)).

End Engine.

(** * The engine on the scenarios of its unit tests

    Block ids are natural numbers; block [i] of a canonical chain is at slot
    [i]. Each example evaluates the model on a test of
    consensus/cryptarchia-engine/src/lib.rs. *)

Open Scope Z_scope.

#[local] Instance nat_order : SetOrder nat := elements_order nat.

Definition config_with (k : Z) : Config := mkConfig k (mkRatio 1 10) (f64_of_Z 1) 12 4.

Definition single_era (c : Config) : EraSchedule Config := mkSchedule (mkEntry 0 0 c) [].

(** Applies blocks [(id, parent, slot)] in order. *)
Fixpoint receive_all (c : Cryptarchia nat) (l : list (nat * nat * nat))
    : result (Error nat) (Cryptarchia nat) :=
  match l with
  | [] => Ok c
  | (id, parent, slot) :: l =>
      '(c', _) ← receive_block c id parent (Z.of_nat slot) []; receive_all c' l
  end.

(** [create_canonical_chain]. *)
Definition canonical (n : nat) (s : EraSchedule Config) : result (Error nat) (Cryptarchia nat) :=
  receive_all (from_genesis 0%nat s Bootstrapping)
    ((λ i, (i, Nat.pred i, i)) <$> seq 1 (Nat.pred n)).

(** [test_immutable_fork]. *)
Example immutable_fork :
  (c ← canonical 3 (single_era (config_with 1));
   '(c', p) ← online c;
   Ok (lib (tree c'), map_to_list (immutable_blocks p),
       receive_block c' 3%nat 0%nat 1 []))
  = Ok (1%nat, [(0, 0%nat)], Err (ParentMissing 0%nat)).
Proof. vm_compute. reflexivity. Qed.

(** [the_lib_keeps_the_k_of_its_own_era_when_the_next_era_lowers_it]. *)
Definition lowering : EraSchedule Config :=
  mkSchedule (mkEntry 0 0 (config_with 10)) [(1, mkEntry 50 50 (config_with 5))].

Example lib_of_lowered_era :
  (c ← canonical 50 lowering;
   '(c1, _) ← online c;
   c2 ← receive_all c1 ((λ i, (i, Nat.pred i, i)) <$> seq 50 10);
   c3 ← receive_all c2 [(60, 59, 60)]%nat;
   Ok (lib (tree c1), lib (tree c2), lib (tree c3)))
  = Ok (39, 49, 55)%nat.
Proof. vm_compute. reflexivity. Qed.

(** [pruning_forks_when_receive_block]. *)
Example prune_on_receive :
  (c ← canonical 10 (single_era (config_with 2));
   '(c1, _) ← online c;
   c2 ← receive_all c1 [(100, 7, 8); (101, 8, 9)]%nat;
   '(c3, (p, r)) ← receive_block c2 102%nat 9%nat 10 [];
   Ok (lib (tree c3), elements (stale_blocks p), map_to_list (immutable_blocks p), r))
  = Ok (8%nat, [100%nat], [(7, 7%nat)], []).
Proof. vm_compute. reflexivity. Qed.

(** [fork_choice_compares_chains_under_the_era_of_their_common_ancestor]. *)
Definition shrinking : EraSchedule Config :=
  mkSchedule (mkEntry 0 0 (config_with 10)) [(1, mkEntry 20 20 (config_with 2))].

Example fork_choice_era :
  (c ← canonical 25 shrinking;
   '(c1, _) ← online c;
   c2 ← receive_all c1 [(200, 21, 25); (201, 200, 26); (202, 201, 27); (203, 202, 28)]%nat;
   c3 ← receive_all c2 ((300, 15, 30)%nat ::
          ((λ i, ((300 + i)%nat, (299 + i)%nat, (30 + i)%nat)) <$> seq 1 9));
   Ok (b_id (local_chain c2), b_id (local_chain c3)))
  = Ok (24, 309)%nat.
Proof. vm_compute. reflexivity. Qed.

(** The example of the documentation of [select_uncles], with a window of 8
    slots: [u4, u6, u7] are selected. *)
Definition window_config : Config := mkConfig 100 (mkRatio 1 1) (f64_of_Z 1) 7 4.

Definition doc_uncles : result (Error nat) (list nat) :=
  c1 ← receive_all (from_genesis 0%nat (single_era window_config) Bootstrapping)
         [(1, 0, 1); (2, 1, 2)]%nat;
  '(c2, _) ← receive_block c1 3%nat 2%nat 4 [3];
  c3 ← receive_all c2 [(4, 3, 6); (11, 1, 2); (12, 2, 3); (13, 2, 4); (14, 2, 5);
         (15, 3, 5); (16, 3, 8); (17, 4, 7); (18, 17, 8); (19, 4, 9)]%nat;
  p ← expect (branches (tree c3) !! 4%nat);
  us ← select_uncles Nat.leb c3 p 9;
  Ok (map b_id us).

Example select_uncles_doc : doc_uncles = Ok [14; 16; 17]%nat.
Proof. vm_compute. reflexivity. Qed.
