(* ===== verification/ForkChoice.v ===== *)
(** * Fork choice and block reception on a well-formed tree

    Adding a header keeps the tree well formed; the online rule ([maxvalid_mc])
    never abandons more than the security parameter, ends on a chain no tip
    beats, and does not depend on the order in which the tips are visited. *)

From S2P Require Import Prelude Era EngineConfig BlockTree TreeWalks Engine.

Open Scope Z_scope.

Section AddHeader.
Context {Id : Type} `{Countable Id}.
Implicit Types (t : Branches Id) (b : Branch Id).

(** A header new to the tree, which is not the pruned parent of the root
    either: ids are hashes, so no header names a descendant as its parent. *)
Definition fresh t (header : Id) : Prop :=
  branches t !! header = None ∧ ∀ r, branches t !! lib t = Some r → b_parent r ≠ header.

(** The tree [t'] is [t] with the leaf [nb] on top of [p]. *)
Record extends t t' (p nb : Branch Id) : Prop := {
  ext_branches : branches t' = <[b_id nb := nb]> (branches t);
  ext_tips : tips t' = {[b_id nb]} ∪ (tips t ∖ {[b_id p]});
  ext_lib : lib t' = lib t;
  ext_fresh : fresh t (b_id nb);
  ext_parent : b_parent nb = b_id p;
  ext_known : known t p;
  ext_length : b_length nb = b_length p + 1;
  ext_slot : b_slot p <= b_slot nb
}.

Lemma apply_header_extends t t' header parent slot uncle_slots :
  wf_tree t → fresh t header → apply_header t header parent slot uncle_slots = Ok t' →
  ∃ p len, branches t !! parent = Some p ∧
    extends t t' p (mkBranch header parent slot len uncle_slots) ∧ len <= u64_max.
Proof.
  intros WF Hf Ha. unfold apply_header in Ha. inv_ok Ha.
  apply checked_add_Some in Hok1 as [-> ?].
  pose proof (wf_id t WF _ _ Hok) as Eid.
  exists a, (b_length a + 1). split; [done|]. split; [|done].
  constructor; cbn; try done; [by rewrite Eid|by unfold known; rewrite Eid|lia].
Qed.

Section extends.
Context t t' p nb (WF : wf_tree t) (X : extends t t' p nb).

Lemma ext_known_iff b : known t' b ↔ b = nb ∨ known t b.
Proof using WF X.
  unfold known. rewrite (ext_branches _ _ _ _ X). destruct (ext_fresh _ _ _ _ X) as [Hf _].
  destruct (decide (b_id b = b_id nb)) as [E|NE].
  - rewrite E, lookup_insert_eq. split; [naive_solver|]. intros [->|Hk]; [done|].
    congruence.
  - rewrite lookup_insert_ne by done. naive_solver.
Qed.

Lemma ext_parent_old b : known t b → parent t' b = parent t b.
Proof using WF X.
  intros Hb. unfold parent. case_decide; [done|]. rewrite (ext_branches _ _ _ _ X).
  apply lookup_insert_ne. intros E. destruct (ext_fresh _ _ _ _ X) as [Hf Hr].
  destruct (decide (b_id b = lib t)) as [El|NEl].
  - unfold known in Hb. rewrite El in Hb. by apply (Hr b Hb).
  - destruct (wf_parent t WF b Hb NEl) as (q & Hq & _).
    destruct (parent_known t WF b q Hq) as (Hkq & Eq & _). unfold known in Hkq. congruence.
Qed.

Lemma ext_parent_new : parent t' nb = Some p.
Proof using WF X.
  unfold parent. rewrite (ext_parent _ _ _ _ X), (ext_branches _ _ _ _ X).
  pose proof (ext_known _ _ _ _ X) as Hp. destruct (ext_fresh _ _ _ _ X) as [Hf _].
  assert (b_id p ≠ b_id nb) by (intros E; unfold known in Hp; congruence).
  rewrite decide_False by done. by rewrite lookup_insert_ne by done.
Qed.

Lemma ext_nb_not_known : ¬ known t nb.
Proof using X. intros Hk. destruct (ext_fresh _ _ _ _ X) as [Hf _]. unfold known in Hk. congruence. Qed.

Lemma ext_id_ne b : known t b → b_id b ≠ b_id nb.
Proof using X. intros Hk E. destruct (ext_fresh _ _ _ _ X) as [Hf _]. unfold known in Hk. congruence. Qed.

Lemma extends_wf : in_u64 (b_slot nb) → b_length nb <= u64_max → wf_tree t'.
Proof using WF X.
  intros Hslot Hlen. pose proof X as [Xb Xt Xl [Xf Xr] Xp Xk Xn Xs].
  assert (∀ b, known t' b → b = nb ∨ known t b) as HK by (intros b; apply ext_known_iff).
  constructor.
  - intros id b. rewrite Xb. destruct (decide (b_id nb = id)) as [<-|NE].
    + rewrite lookup_insert_eq. naive_solver.
    + rewrite lookup_insert_ne by done. apply (wf_id t WF).
  - rewrite Xb, Xl. destruct (wf_lib t WF) as [r Hr].
    rewrite lookup_insert_ne by (intros E; rewrite E in *; congruence). by exists r.
  - intros b. rewrite Xb, Xl. destruct (wf_lib t WF) as [r Hr].
    rewrite lookup_insert_ne by (intros E; rewrite E in *; congruence). intros Hb.
    pose proof (wf_id t WF _ _ Hb) as Eb.
    rewrite ext_parent_old by (unfold known; by rewrite Eb). by apply (wf_root t WF).
  - intros b Hb Hne. rewrite Xl in Hne. destruct (HK b Hb) as [->|Hk].
    + exists p. split; [apply ext_parent_new|]. split; [lia|done].
    + rewrite ext_parent_old by done. by apply (wf_parent t WF).
  - intros b Hb. destruct (HK b Hb) as [->|Hk]; [|by apply (wf_length t WF)].
    pose proof (wf_length t WF p Xk) as [? _]. split; lia.
  - intros b Hb. destruct (HK b Hb) as [->|Hk]; [done|by apply (wf_slot t WF)].
  - intros id. rewrite Xt, elem_of_union, elem_of_singleton, elem_of_difference, elem_of_singleton.
    rewrite (wf_tips t WF id), Xb, Xl. split.
    + intros [->|[[[b Hb] Hch] Hne]].
      * split; [rewrite lookup_insert_eq; by exists nb|]. intros c Hc Hcl Ec.
        destruct (HK c Hc) as [->|Hk].
        -- rewrite Xp in Ec. by apply (ext_id_ne p Xk).
        -- destruct (wf_parent t WF c Hk Hcl) as (q & Hq & _).
           destruct (parent_known t WF c q Hq) as (Hkq & Eq & _).
           apply (ext_id_ne q Hkq). congruence.
      * split; [destruct (decide (b_id nb = id)) as [<-|]; [congruence|];
                rewrite lookup_insert_ne by done; by exists b|].
        intros c Hc Hcl Ec. destruct (HK c Hc) as [->|Hk]; [congruence|].
        by apply (Hch c).
    + intros [[b Hb] Hch]. destruct (decide (id = b_id nb)) as [->|Hne]; [by left|right].
      rewrite lookup_insert_ne in Hb by done. split; [split; [by exists b|]|].
      * intros c Hc. apply Hch, ext_known_iff. by right.
      * intros ->. apply (Hch nb); [apply ext_known_iff; by left| |done].
        intros E. destruct (wf_lib t WF) as [r Hr]. congruence.
Qed.

(** Ancestors of the blocks of [t] are the same in [t']. *)
Lemma ext_ancestor a b : known t b → ancestor t' a b ↔ ancestor t a b.
Proof using WF X.
  intros Hb. unfold ancestor. split; intros [n Hn]; exists n; revert b Hb Hn;
    induction n as [|n IH]; intros b Hb; cbn; rewrite ?ext_parent_old by done; try done;
    destruct (parent t b) as [q|] eqn:Hq; cbn; try done; apply IH;
    by destruct (parent_known t WF b q Hq).
Qed.

Lemma ext_is_lca b c l : known t b → known t c → is_lca t' b c l ↔ is_lca t b c l.
Proof using WF X.
  intros Hb Hc. unfold is_lca. rewrite !ext_ancestor by done.
  split; intros (H1 & H2 & H3); repeat split; try done; intros a.
  - intros Ha1 Ha2. apply ext_ancestor; [by destruct (ancestor_known t WF l b Hb H1)|].
    apply H3; by apply ext_ancestor.
  - rewrite !ext_ancestor by done. intros Ha1 Ha2.
    apply ext_ancestor; [by destruct (ancestor_known t WF l b Hb H1)|]. by apply H3.
Qed.

End extends.
End AddHeader.

(** ** The tips *)

Lemma mapM_expect {E A B} (f : A → option B) (l : list A) :
  (∀ x, x ∈ l → is_Some (f x)) →
  ∃ l', mapM (M:=result E) (λ x, expect (f x)) l = Ok l' ∧ Forall2 (λ x y, f x = Some y) l l'.
Proof.
  induction l as [|x l IH]; intros Hl; [exists []; split; [done|constructor]|].
  destruct (Hl x (list_elem_of_here _ _)) as [y Hy].
  destruct IH as (l' & Hm & HF); [intros; apply Hl; by apply list_elem_of_further|].
  exists (y :: l'). cbn. rewrite Hy. cbn. rewrite Hm. split; [done|by constructor].
Qed.

Section Tips.
Context {Id : Type} `{Countable Id} {order : SetOrder Id}.
Implicit Types (t : Branches Id) (b : Branch Id).

Definition is_tip t b : Prop := known t b ∧ b_id b ∈ tips t.

Lemma tip_branches_spec {E} t : wf_tree t →
  ∃ l, tip_branches (E:=E) t = Ok l ∧ (∀ b, b ∈ l ↔ is_tip t b) ∧ NoDup l.
Proof.
  intros WF.
  assert (∀ id, id ∈ set_iter (tips t) ↔ id ∈ tips t) as Hiter.
  { intros id. rewrite (set_iter_perm (tips t)). apply elem_of_elements. }
  assert (NoDup (set_iter (tips t))) as HND by (rewrite set_iter_perm; apply NoDup_elements).
  destruct (mapM_expect (E:=E) (λ id, branches t !! id) (set_iter (tips t))) as (l & Hl & HF).
  { intros id Hid. apply (wf_tips t WF). by apply Hiter. }
  exists l. split; [done|].
  assert (b_id <$> l = set_iter (tips t)) as Eids.
  { clear Hl HND Hiter. induction HF as [|id b ids l Hb HF IH]; [done|].
    cbn. rewrite IH. by rewrite (wf_id t WF id b Hb). }
  split.
  - intros b. split.
    + intros [i Hi]%list_elem_of_lookup.
      destruct (Forall2_lookup_r _ _ _ _ _ HF Hi) as (id & Hid & Hb).
      pose proof (wf_id t WF id b Hb). subst id.
      split; [done|]. apply Hiter, list_elem_of_lookup. eauto.
    + intros [Hk [i Hi]%Hiter%list_elem_of_lookup].
      destruct (Forall2_lookup_l _ _ _ _ _ HF Hi) as (b' & Hb' & E').
      unfold known in Hk. simplify_eq. apply list_elem_of_lookup. eauto.
  - apply (NoDup_fmap_1 b_id). by rewrite Eids.
Qed.

(** ** The online rule *)

Section Online.
Context (t : Branches Id) (WF : wf_tree t) (k : Z → Z).

(** [chain] wins against [c]: it is longer and forks off not more than the
    security parameter of the fork's era below [c]. *)
Definition mc_better (c chain : Branch Id) : Prop :=
  ∃ l, is_lca t c chain l ∧ b_length c - b_length l <= k (b_slot l) ∧ b_length c < b_length chain.

Lemma mc_step_spec {E} (kf : Z → result E Z) c chain :
  (∀ slot, in_u64 slot → kf slot = Ok (k slot)) → known t c → known t chain →
  (mc_step t kf c chain = Ok chain ∧ mc_better c chain) ∨
  (mc_step t kf c chain = Ok c ∧ ¬ mc_better c chain).
Proof using WF.
  intros Hk Hc Hch. unfold mc_step.
  destruct (lca_spec (E:=E) t WF c chain Hc Hch) as (l & -> & Hl). cbn.
  destruct (ancestor_known t WF l c Hc (proj1 Hl)) as (Hkl & Hle & _).
  rewrite Hk by (by apply (wf_slot t WF)). cbn. unfold strict_sub, checked_sub.
  rewrite (proj2 (Z.leb_le _ _)) by done. cbn.
  destruct (_ && _) eqn:Hb; [left|right]; (split; [done|]).
  - exists l. split; [done|lia].
  - intros (l' & Hl' & ? & ?). rewrite (is_lca_unique t WF c chain l' l Hc Hl' Hl) in *. lia.
Qed.

Lemma mc_fold_ind {E} (kf : Z → result E Z) (Inv : Branch Id → list (Branch Id) → Prop)
    (F : Branch Id → Prop) :
  (∀ slot, in_u64 slot → kf slot = Ok (k slot)) → (∀ b, F b → known t b) →
  (∀ c done chain, known t c → F chain → Inv c done → mc_better c chain →
     Inv chain (chain :: done)) →
  (∀ c done chain, known t c → F chain → Inv c done → ¬ mc_better c chain →
     Inv c (chain :: done)) →
  ∀ forks c done, known t c → (∀ b, b ∈ forks → F b) → Inv c done →
  ∃ c', foldM (mc_step t kf) c forks = Ok c' ∧ known t c' ∧ Inv c' (reverse forks ++ done).
Proof using WF.
  intros Hk HF Htake Hkeep. induction forks as [|chain forks IH]; intros c dn Hc Hf HI; cbn [foldM].
  { exists c. done. }
  assert (F chain) as HFc by apply Hf, list_elem_of_here.
  assert (∀ b, b ∈ forks → F b) as Hf' by (intros; apply Hf; by apply list_elem_of_further).
  rewrite reverse_cons, <- app_assoc. cbn [app].
  destruct (mc_step_spec kf c chain Hk Hc (HF _ HFc)) as [[-> Hb]|[-> Hb]]; cbn; apply IH; eauto.
Qed.

(** The rule visits every tip, whatever the order. *)
Lemma maxvalid_mc_ind {E} (kf : Z → result E Z) (Inv : Branch Id → list (Branch Id) → Prop) local :
  (∀ slot, in_u64 slot → kf slot = Ok (k slot)) → known t local →
  Inv local [] →
  (∀ c done chain, known t c → is_tip t chain → Inv c done → mc_better c chain →
     Inv chain (chain :: done)) →
  (∀ c done chain, known t c → is_tip t chain → Inv c done → ¬ mc_better c chain →
     Inv c (chain :: done)) →
  ∃ c visited, maxvalid_mc local t kf = Ok c ∧ known t c ∧ Inv c visited ∧
    ∀ b, b ∈ visited ↔ is_tip t b.
Proof using WF.
  intros Hk Hl H0 Htake Hkeep. unfold maxvalid_mc.
  destruct (tip_branches_spec (E:=E) t WF) as (forks & -> & Hforks & _). cbn.
  destruct (mc_fold_ind kf Inv (is_tip t) Hk) with (forks := forks) (c := local) (done := @nil (Branch Id))
    as (c & Hc & Hkc & HI); try done.
  { by intros b [? _]. }
  { intros b. apply Hforks. }
  exists c, (reverse forks ++ []). do 3 (split; [done|]).
  intros b. rewrite app_nil_r, elem_of_reverse. apply Hforks.
Qed.

(** A switch of the local chain is a gain in length, and abandons at most [K]
    blocks of it. *)
Definition mc_reachable (K : Z) (local c : Branch Id) : Prop :=
  (c = local ∨ b_length local < b_length c) ∧
  ∃ l, is_lca t local c l ∧ b_length local - b_length l <= K.

Lemma mc_reachable_step K local c chain : (∀ slot, k slot <= K) → 
  known t local → known t c → known t chain →
  mc_reachable K local c → mc_better c chain → mc_reachable K local chain.
Proof using WF.
  intros HK Hlo Hc Hch [Hlen (x & Hx & Hxk)] (y & Hy & Hyk & Hlt).
  assert (b_length local <= b_length c) by (destruct Hlen; [subst|]; lia).
  split; [right; lia|].
  destruct (lca_spec (E:=Empty_set) t WF local chain Hlo Hch) as (z & _ & Hz).
  exists z. split; [done|].
  destruct (lca_ultrametric t WF local c chain x y z Hlo Hc Hch Hx Hy Hz) as (U1 & U2 & U3 & U4).
  specialize (HK (b_slot y)).
  destruct (Z.lt_trichotomy (b_length x) (b_length y)) as [?|[E|?]].
  - rewrite U1 by done. done.
  - pose proof (U3 (U4 E)). lia.
  - rewrite U2 by done. lia.
Qed.

(** One security parameter: a chain that does not beat [c] does not beat the
    chain that beats [c]. *)
Lemma not_better_trans K c c' d : (∀ slot, in_u64 slot → k slot = K) →
  known t c → known t c' → known t d →
  mc_better c c' → ¬ mc_better c d → ¬ mc_better c' d.
Proof using WF.
  intros HK Hc Hc' Hd (y & Hy & Hyk & Hlt) Hnb (z & Hz & Hzk & Hlt').
  destruct (lca_spec (E:=Empty_set) t WF c d Hc Hd) as (x & _ & Hx).
  apply Hnb. exists x. split; [done|]. split; [|lia].
  destruct (lca_ultrametric t WF c c' d y z x Hc Hc' Hd Hy Hz Hx) as (U1 & U2 & U3 & U4).
  assert (∀ l, ancestor t l c → k (b_slot l) = K) as HKc.
  { intros l Hl. apply HK, (wf_slot t WF). by destruct (ancestor_known t WF l c Hc Hl). }
  assert (∀ l, ancestor t l c' → k (b_slot l) = K) as HKc'.
  { intros l Hl. apply HK, (wf_slot t WF). by destruct (ancestor_known t WF l c' Hc' Hl). }
  rewrite (HKc x (proj1 Hx)). rewrite (HKc y (proj1 Hy)) in Hyk. rewrite (HKc' z (proj1 Hz)) in Hzk.
  destruct (Z.lt_trichotomy (b_length y) (b_length z)) as [?|[E|?]].
  - rewrite U1 by done. lia.
  - pose proof (U3 (U4 E)). lia.
  - rewrite U2 by done. lia.
Qed.

(** No tip beats the chain. *)
Definition mc_stable (c : Branch Id) : Prop := ∀ b, is_tip t b → ¬ mc_better c b.

Lemma not_better_refl c : ¬ mc_better c c.
Proof. intros (l & _ & _ & ?). lia. Qed.

End Online.
End Tips.

(** ** Theorems on the online rule *)

Section MaxvalidMc.
Context {Id : Type} `{Countable Id}.
Implicit Types (t : Branches Id) (b : Branch Id).

(** C16: online, fork choice returns the local chain or a longer tip, and
    abandons at most [K] blocks of the local chain, [K] bounding the security
    parameters of the eras. *)
Theorem mc_reorg_bounded {order : SetOrder Id} {E} t (kf : Z → result E Z) k K local :
  wf_tree t → known t local → (∀ slot, in_u64 slot → kf slot = Ok (k slot)) →
  (∀ slot, 0 <= k slot <= K) →
  ∃ c, maxvalid_mc local t kf = Ok c ∧
    (c = local ∨ is_tip t c ∧ b_length local < b_length c) ∧
    ∃ l, is_lca t local c l ∧ b_length local - b_length l <= K.
Proof.
  intros WF Hl Hk HK.
  destruct (maxvalid_mc_ind t WF k kf (λ c _, mc_reachable t K local c ∧ (c = local ∨ is_tip t c))
    local Hk Hl) as (c & vis & Hc & Hkc & [[Hlen Hlca] Htip] & _).
  - split; [|by left]. split; [by left|]. exists local. specialize (HK 0).
    split; [|lia]. repeat split; eauto using ancestor_refl.
  - intros c dn chain Hc Hch [HR _] Hb. split; [|by right].
    eapply mc_reachable_step; try done; [intros; apply HK|by destruct Hch].
  - by intros.
  - exists c. split; [done|]. split; [|done]. destruct Hlen, Htip; auto.
Qed.

Lemma maxvalid_mc_stable {order : SetOrder Id} {E} t (kf : Z → result E Z) K local c :
  wf_tree t → known t local → (∀ slot, in_u64 slot → kf slot = Ok K) →
  maxvalid_mc local t kf = Ok c → known t c ∧ mc_stable t (λ _, K) c.
Proof.
  intros WF Hl Hk Hmax.
  destruct (maxvalid_mc_ind t WF (λ _, K) kf
    (λ c done, ∀ b, b ∈ done → is_tip t b ∧ ¬ mc_better t (λ _, K) c b) local Hk Hl)
    as (c1 & vis & Hc1 & Hkc & HI & Hvis).
  { by intros b ?%not_elem_of_nil. }
  { intros c0 dn chain Hc0 [Hch Htp] HI Hb b [->|Hin]%elem_of_cons; [split; [done|apply not_better_refl]|].
    destruct (HI b Hin) as [Htb Hnb]. split; [done|].
    eapply (not_better_trans t WF _ K c0 chain b); try done. by destruct Htb. }
  { intros c0 dn chain Hc0 Hch HI Hb b [->|Hin]%elem_of_cons; [done|by apply HI]. }
  assert (c1 = c) as -> by congruence. split; [done|].
  intros b Hb. by apply HI, Hvis.
Qed.

(** Under one security parameter, the chain the rule selects is one that no
    tip beats: running it again changes nothing. *)
Theorem mc_result_stable {order : SetOrder Id} {E} t (kf : Z → result E Z) K local c :
  wf_tree t → known t local → (∀ slot, in_u64 slot → kf slot = Ok K) →
  maxvalid_mc local t kf = Ok c →
  mc_stable t (λ _, K) c ∧ maxvalid_mc c t kf = Ok c.
Proof.
  intros WF Hl Hk Hmax. destruct (maxvalid_mc_stable t kf K local c WF Hl Hk Hmax) as [Hkc Hst].
  split; [done|].
  destruct (maxvalid_mc_ind t WF (λ _, K) kf (λ c' _, c' = c) c Hk Hkc)
    as (c2 & ? & Hc2 & _ & -> & _); try done.
  intros c0 dn chain _ Hch -> Hb. by destruct (Hst chain Hch).
Qed.

Lemma ext_mc_better t t' p nb k b c : wf_tree t → extends t t' p nb → known t b → known t c →
  mc_better t' k b c ↔ mc_better t k b c.
Proof.
  intros WF X Hb Hc. unfold mc_better. split; intros (l & Hl & ?); exists l;
    (split; [|done]); by apply (ext_is_lca t t' p nb WF X b c l Hb Hc).
Qed.

Lemma ext_tip_old t t' p nb b : wf_tree t → extends t t' p nb → is_tip t' b → b ≠ nb → is_tip t b.
Proof.
  intros WF X [Hk Ht] Hne. apply (ext_known_iff t t' p nb WF X) in Hk as [->|Hk]; [done|].
  split; [done|]. rewrite (ext_tips _ _ _ _ X) in Ht.
  pose proof (ext_id_ne t t' p nb X b Hk). set_solver.
Qed.

Lemma ext_nb_tip t t' p nb : wf_tree t → extends t t' p nb → is_tip t' nb.
Proof.
  intros WF X. split; [apply (ext_known_iff t t' p nb WF X); by left|].
  rewrite (ext_tips _ _ _ _ X). set_solver.
Qed.

Lemma mc_after_extend {order : SetOrder Id} {E} t t' p nb (kf : Z → result E Z) K local :
  wf_tree t → wf_tree t' → extends t t' p nb → known t local → mc_stable t (λ _, K) local →
  (∀ slot, in_u64 slot → kf slot = Ok K) →
  (maxvalid_mc local t' kf = Ok local ∧ ¬ mc_better t' (λ _, K) local nb) ∨
  (maxvalid_mc local t' kf = Ok nb ∧ mc_better t' (λ _, K) local nb).
Proof.
  intros WF WF' X Hl Hst Hk.
  assert (known t' local) as Hl' by (apply (ext_known_iff t t' p nb WF X); by right).
  destruct (ext_nb_tip t t' p nb WF X) as [Hnb Hnbt].
  assert (∀ b, is_tip t' b → b ≠ nb → ¬ mc_better t' (λ _, K) local b) as Hold.
  { intros b Hb Hne. destruct (ext_tip_old t t' p nb b WF X Hb Hne) as [Hkb Htb].
    rewrite (ext_mc_better t t' p nb) by done. by apply Hst. }
  destruct (maxvalid_mc_ind t' WF' (λ _, K) kf
    (λ c done, (c = local ∧ (nb ∈ done → ¬ mc_better t' (λ _, K) local nb)) ∨
               (c = nb ∧ mc_better t' (λ _, K) local nb)) local Hk Hl')
    as (c & vis & -> & _ & HI & Hvis).
  - left. by split; [|intros ?%not_elem_of_nil].
  - intros c dn chain Hc Hch [[-> Hn]|[-> Hb']] Hb.
    + destruct (decide (chain = nb)) as [->|Hne]; [by right|]. by destruct (Hold chain Hch Hne).
    + destruct (decide (chain = nb)) as [->|Hne]; [by destruct (not_better_refl t' (λ _, K) nb)|].
      exfalso. revert Hb. apply (not_better_trans t' WF' (λ _, K) K local nb chain); try done.
      * by destruct Hch.
      * by apply Hold.
  - intros c dn chain Hc Hch [[-> Hn]|[-> Hb']] Hb; [left|by right].
    split; [done|]. intros [->|?]%elem_of_cons; auto.
  - destruct HI as [[-> Hn]|[-> Hb]]; [left|right]; (split; [done|]); [|done].
    apply Hn, Hvis. by split.
Qed.

(** When no tip beats the local chain and one block is added, the online
    rule does not depend on the order in which the tips are visited: it keeps
    the local chain or adopts the new block. *)
Theorem mc_order_independent {E} (o1 o2 : SetOrder Id) t t' p nb (kf : Z → result E Z) K local :
  wf_tree t → wf_tree t' → extends t t' p nb → known t local → mc_stable t (λ _, K) local →
  (∀ slot, in_u64 slot → kf slot = Ok K) →
  maxvalid_mc (order:=o1) local t' kf = maxvalid_mc (order:=o2) local t' kf ∧
  (maxvalid_mc (order:=o1) local t' kf = Ok local ∨ maxvalid_mc (order:=o1) local t' kf = Ok nb).
Proof.
  intros WF WF' X Hl Hst Hk.
  destruct (mc_after_extend (order:=o1) t t' p nb kf K local) as [[-> ?]|[-> ?]]; try done;
  destruct (mc_after_extend (order:=o2) t t' p nb kf K local) as [[-> ?]|[-> ?]]; try done; auto.
Qed.

End MaxvalidMc.
