(* ===== verification/Pruning.v ===== *)
(** * Pruning the block tree at a new LIB

    Moving the LIB up the local chain removes the stale forks and the blocks
    below it; what remains is exactly the subtree of the new LIB, and what is
    reported is exactly what was removed. *)

From S2P Require Import Prelude Era EngineConfig BlockTree TreeWalks Engine ForkChoice.

Open Scope Z_scope.

(** ** The walks only read the blocks *)

Section ReadOnly.
Context {Id : Type} `{Countable Id}.
Context (t u : Branches Id) (E : branches u = branches t).

Lemma parent_branches b : parent u b = parent t b.
Proof using E. unfold parent. by rewrite E. Qed.

Lemma climb_to_branches {Er} fuel b len : climb_to (E:=Er) fuel u b len = climb_to fuel t b len.
Proof using E.
  revert b; induction fuel as [|fuel IH]; intros b; cbn; rewrite ?parent_branches; [done|].
  case_match; [|done]. destruct (parent t b); auto.
Qed.

Lemma climb_both_branches {Er} fuel b c :
  climb_both (E:=Er) fuel u b c = climb_both fuel t b c.
Proof using E.
  revert b c; induction fuel as [|fuel IH]; intros b c; cbn; rewrite ?parent_branches; [done|].
  case_decide; [done|]. destruct (parent t b), (parent t c); auto.
Qed.

Lemma lca_branches {Er} b c : lca (E:=Er) u b c = lca t b c.
Proof using E.
  unfold lca, walk_fuel. rewrite E, climb_to_branches.
  destruct (climb_to _ t b _) as [[x|]|?|?]; cbn -[climb_to climb_both]; [|done..].
  rewrite climb_to_branches.
  destruct (climb_to _ t c _) as [[y|]|?|?]; cbn -[climb_to climb_both]; [|done..].
  apply climb_both_branches.
Qed.

Lemma tip_branches_branches {order : SetOrder Id} {Er} :
  tips u = tips t → tip_branches (E:=Er) u = tip_branches t.
Proof using E. intros Et. unfold tip_branches. by rewrite E, Et. Qed.

End ReadOnly.

Section Pruning.
Context {Id : Type} `{Countable Id}.
Context (t : Branches Id) (WF : wf_tree t).
Implicit Types (b : Branch Id) (bs : gmap Id (Branch Id)).

(** Every block is below some tip. *)
Lemma tip_above b : known t b → ∃ f, is_tip t f ∧ ancestor t b f.
Proof using WF.
  remember (Z.to_nat (u64_max - b_length b)) as n eqn:En. revert b En.
  induction n as [|n IH]; intros b En Hb;
    (destruct (decide (b_id b ∈ tips t)) as [Hin|Hout];
      [exists b; split; [by split|apply ancestor_refl]|]);
    (destruct (decide (map_Forall (λ _ c, ¬ (b_id c ≠ lib t ∧ b_parent c = b_id b)) (branches t)))
      as [Hall|Hex];
      [destruct Hout; apply (wf_tips t WF); split; [by exists b|];
       intros c Hc Hne Ep; by apply (Hall (b_id c) c Hc)|]);
    apply map_not_Forall in Hex as (id & c & Hc & Hex); try apply _;
    pose proof (wf_id t WF id c Hc) as Ec; subst id;
    destruct (dec_stable Hex) as [Hne Ep]; change (known t c) in Hc;
    destruct (wf_parent t WF c Hc Hne) as (q & Hq & Hlen & _);
    destruct (parent_known t WF c q Hq) as (Hkq & Eq & _);
    (assert (q = b) as -> by (apply (known_id_inj t WF); [done|done|congruence]));
    pose proof (wf_length t WF c Hc) as [_ Hmax]; [lia|].
  destruct (IH c) as (f & Hf & Hanc); [lia|done|].
  exists f. split; [done|]. eapply ancestor_trans; [by apply ancestor_parent|done].
Qed.

(** ** The subtree of a block *)

Section Subtree.
Context (L : Branch Id) (HL : known t L).

(** Neither above nor below [L]. *)
Definition stale b : Prop := ¬ ancestor t L b ∧ ¬ ancestor t b L.

Record subtree (u : Branches Id) : Prop := {
  sub_branches : ∀ id b, branches u !! id = Some b ↔ branches t !! id = Some b ∧ ancestor t L b;
  sub_tips : ∀ b, known t b → b_id b ∈ tips u ↔ b_id b ∈ tips t ∧ ancestor t L b;
  sub_tips_known : ∀ id, id ∈ tips u → is_Some (branches t !! id);
  sub_lib : lib u = b_id L
}.

Lemma sub_known u b : subtree u → known u b ↔ known t b ∧ ancestor t L b.
Proof. intros S. apply (sub_branches u S). Qed.

Lemma sub_parent u b p : subtree u → known t b → b_id b ≠ b_id L → ancestor t L b →
  parent t b = Some p → parent u b = Some p ∧ ancestor t L p.
Proof using WF HL.
  intros S Hb Hne Hanc Hp. destruct (parent_known t WF b p Hp) as (Hkp & Ep & Hnep).
  assert (ancestor t L p) as HLp.
  { destruct (ancestor_inv t L b Hanc) as [->|(q & Hq & ?)]; [done|]. by simplify_eq. }
  split; [|done]. unfold parent. rewrite decide_False by congruence.
  apply (sub_branches u S). by rewrite <- Ep.
Qed.

Lemma subtree_wf u : subtree u → wf_tree u.
Proof using WF HL.
  intros S. pose proof S as [Sb St Stk Sl]. constructor.
  - intros id b [Hb _]%Sb. by apply (wf_id t WF).
  - rewrite Sl. exists L. apply Sb. split; [done|apply ancestor_refl].
  - intros b. rewrite Sl. intros [Hb _]%Sb.
    assert (b = L) as -> by (unfold known in HL; congruence).
    unfold parent. case_decide as Hd; [done|].
    destruct (branches u !! b_parent L) as [q|] eqn:Hq; [|done]. apply Sb in Hq as [Hq Hanc].
    assert (parent t L = Some q) as Hp by (unfold parent; by rewrite decide_False).
    destruct (parent_spec t WF L q HL Hp) as (? & _ & _).
    destruct (parent_known t WF L q Hp) as [Hkq _].
    destruct (ancestor_known t WF L q Hkq Hanc) as (_ & ? & _). lia.
  - intros b [Hb Hanc]%(sub_known u b S) Hne. rewrite Sl in Hne.
    assert (b_id b ≠ lib t) as Hnl.
    { intros E. destruct (ancestor_inv t L b Hanc) as [->|(q & Hq & _)]; [done|].
      by destruct (parent_spec t WF b q Hb Hq) as (_ & _ & ?). }
    destruct (wf_parent t WF b Hb Hnl) as (p & Hp & ? & ?).
    destruct (sub_parent u b p S Hb Hne Hanc Hp). eauto.
  - intros b [Hb _]%(sub_known u b S). by apply (wf_length t WF).
  - intros b [Hb _]%(sub_known u b S). by apply (wf_slot t WF).
  - intros id. split.
    + intros Hin. destruct (Stk id Hin) as [b Hb]. pose proof (wf_id t WF id b Hb) as <-.
      apply St in Hin as [Hin Hanc]; [|done]. split; [exists b; by apply Sb|].
      intros c [Hc Hca]%(sub_known u c S) Hcl. rewrite Sl in Hcl.
      apply (wf_tips t WF (b_id b)); [done|done|]. intros E.
      destruct (ancestor_inv t L c Hca) as [->|(q & Hq & _)]; [done|].
      by destruct (parent_spec t WF c q Hc Hq) as (_ & _ & ?).
    + intros [[b [Hb Hanc]%Sb] Hch]. pose proof (wf_id t WF id b Hb) as <-.
      apply St; [done|]. split; [|done]. apply (wf_tips t WF). split; [by exists b|].
      intros c Hc Hcl Ep. destruct (wf_parent t WF c Hc Hcl) as (q & Hq & ? & _).
      destruct (parent_known t WF c q Hq) as (Hkq & Eq & _).
      assert (q = b) as -> by (apply (known_id_inj t WF); [done|done|congruence]).
      assert (ancestor t L c) by (eapply ancestor_trans; [done|by apply ancestor_parent]).
      apply (Hch c); [by apply (sub_known u c S)| |done]. rewrite Sl. intros E.
      assert (c = L) as -> by (by apply (known_id_inj t WF)).
      destruct (ancestor_known t WF L b Hb Hanc) as (_ & ? & _). lia.
Qed.

(** Ancestors within the subtree are the ancestors in the tree above [L]. *)
Lemma sub_ancestor u a b : subtree u → known u b → ancestor u a b ↔ ancestor t a b ∧ ancestor t L a.
Proof using WF HL.
  intros S Hb. pose proof (subtree_wf u S) as WFu. split.
  - intros [n Hn]. revert b Hb Hn. induction n as [|n IH]; intros b Hb Hn; cbn in Hn.
    + simplify_eq. split; [apply ancestor_refl|]. by apply (sub_known u a S).
    + destruct (parent u b) as [p|] eqn:Hp; [|done].
      destruct (parent_known u WFu b p Hp) as (Hkp & Ep & Hnep).
      destruct (IH p Hkp Hn) as [Hap HLa]. split; [|done].
      eapply ancestor_trans; [done|]. apply ancestor_parent.
      apply (sub_known u p S) in Hkp as [Hkp _].
      unfold parent. rewrite decide_False by congruence. rewrite <- Ep. done.
  - intros [[n Hn] HLa]. revert b Hb Hn. induction n as [|n IH]; intros b Hb Hn; cbn in Hn.
    + simplify_eq. apply ancestor_refl.
    + destruct (parent t b) as [p|] eqn:Hp; [|done].
      apply (sub_known u b S) in Hb as [Hb HLb].
      destruct (parent_known t WF b p Hp) as (Hkp & _ & _).
      destruct (parent_spec t WF b p Hb Hp) as (? & _ & _).
      assert (ancestor t L p) as HLp by (apply (ancestor_trans t L a p); [done|by exists n]).
      assert (b_id b ≠ b_id L).
      { intros E. assert (b = L) as -> by (by apply (known_id_inj t WF)).
        destruct (ancestor_known t WF L p Hkp HLp) as (_ & ? & _). lia. }
      destruct (sub_parent u b p S) as [Hpu _]; try done.
      eapply ancestor_trans; [apply IH; [by apply (sub_known u p S)|done]|by apply ancestor_parent].
Qed.

Lemma sub_is_lca u b c l : subtree u → known u b → known u c → is_lca u b c l ↔ is_lca t b c l.
Proof using WF HL.
  intros S Hb Hc. pose proof (subtree_wf u S) as WFu.
  destruct (proj1 (sub_known u b S) Hb) as [Hb1 Hb2].
  destruct (proj1 (sub_known u c S) Hc) as [Hc1 Hc2].
  unfold is_lca. rewrite (sub_ancestor u l b S Hb), (sub_ancestor u l c S Hc). split.
  - intros ([H1 HLl] & [H2 _] & H3). repeat split; try done. intros a Ha1 Ha2.
    destruct (ancestor_known t WF a b Hb1 Ha1) as (Hka & _ & _).
    destruct (ancestor_known t WF L b Hb1 Hb2) as (_ & _ & _).
    destruct (Z.le_gt_cases (b_length L) (b_length a)) as [Hle|Hgt].
    + assert (ancestor t L a) by (by apply (ancestor_linear t WF L a b)).
      assert (ancestor u a l) as Hal by (apply H3; by apply sub_ancestor).
      apply sub_ancestor in Hal as [? _]; [done|done|].
      apply (sub_known u l S). split; [|done]. by destruct (ancestor_known t WF l b Hb1 H1).
    + eapply ancestor_trans; [|exact HLl]. apply (ancestor_linear t WF a L b); [done..|lia].
  - intros (H1 & H2 & H3). assert (ancestor t L l) as HLl by (by apply H3).
    repeat split; try done. intros a [Ha1 HLa]%sub_ancestor [Ha2 _]%sub_ancestor; try done.
    apply sub_ancestor; [done| |].
    + apply (sub_known u l S). split; [|done]. by destruct (ancestor_known t WF l b Hb1 H1).
    + split; [|done]. by apply H3.
Qed.

(** ** The pruning loops *)

Section Loops.
Context (local : Branch Id) (Hlocal : known t local) (HLl : ancestor t L local).

(** On a fork that leaves the local chain below [L], the blocks above the
    divergence are the stale ones. *)
Lemma fork_stale f l b : known t f → is_lca t local f l → b_length l < b_length L →
  ancestor t b f → b_length l < b_length b ↔ stale b.
Proof using WF Hlocal HLl.
  intros Hf (Hl1 & Hl2 & Hl3) Hlt Hb. split.
  - intros Hlb. split; intros Hanc.
    + assert (ancestor t L l) as HLl' by (apply Hl3; [done|by eapply ancestor_trans]).
      destruct (ancestor_known t WF l f Hf Hl2) as (Hkl & _ & _).
      destruct (ancestor_known t WF L l Hkl HLl') as (_ & ? & _). lia.
    + assert (ancestor t b l) as Hbl by (apply Hl3; [by eapply ancestor_trans|done]).
      destruct (ancestor_known t WF l f Hf Hl2) as (Hkl & _ & _).
      destruct (ancestor_known t WF b l Hkl Hbl) as (_ & ? & _). lia.
  - intros [_ Hn]. destruct (Z.le_gt_cases (b_length b) (b_length l)) as [Hle|?]; [|lia].
    destruct Hn. assert (ancestor t b l) by (by apply (ancestor_linear t WF b l f)).
    eapply ancestor_trans; [done|]. apply (ancestor_linear t WF l L local); done || lia.
Qed.

(** The blocks of [bs] are blocks of the tree. *)
Definition within bs : Prop := ∀ id b, bs !! id = Some b → branches t !! id = Some b.

(** Once a block is gone, so are its stale ancestors. *)
Definition stale_closed bs : Prop := ∀ y z, known t y → bs !! b_id y = None →
  ancestor t z y → stale z → bs !! b_id z = None.

(** Pruning down from [x] turned [bs] into [bs'] and reported [removed]. *)
Definition pruned_from bs bs' (removed : list Id) x : Prop :=
  (∀ id b, bs' !! id = Some b ↔ bs !! id = Some b ∧ ¬ (stale b ∧ ancestor t b x)) ∧
  (∀ id, id ∈ removed ↔ is_Some (bs !! id) ∧ bs' !! id = None).

Lemma pruned_nothing bs x :
  (∀ id b, bs !! id = Some b → ¬ (stale b ∧ ancestor t b x)) → pruned_from bs bs [] x.
Proof.
  intros Hn. split; [naive_solver|]. intros id. rewrite elem_of_nil.
  split; [done|intros [[? ?] ?]; congruence].
Qed.

Lemma pruned_step bs bs' removed x p : within bs → bs !! b_id x = Some x → stale x →
  parent t x = Some p → pruned_from (delete (b_id x) bs) bs' removed p →
  pruned_from bs bs' (b_id x :: removed) x.
Proof using WF.
  intros Hin Hx Hst Hp [Hbs Hrm]. pose proof (ancestor_parent t p x Hp) as Hpx. split.
  - intros id b. rewrite Hbs, lookup_delete_Some. split.
    + intros [[Hne Hb] Hn]. split; [done|]. intros [Hsb Hbx]. apply Hn. split; [done|].
      destruct (ancestor_inv t b x Hbx) as [->|(q & Hq & ?)]; [|by simplify_eq].
      pose proof (wf_id t WF id x (Hin _ _ Hb)). congruence.
    + intros [Hb Hn]. split; [split; [|done]|].
      * intros <-. assert (b = x) as -> by congruence. destruct Hn. split; [done|apply ancestor_refl].
      * intros [Hsb Hbp]. apply Hn. split; [done|by eapply ancestor_trans].
  - intros id. rewrite elem_of_cons, Hrm. destruct (decide (id = b_id x)) as [->|Hne].
    + rewrite lookup_delete_eq. split; [|by left]. intros _. split; [by exists x|].
      destruct (bs' !! b_id x) as [y|] eqn:Hy; [|done].
      apply Hbs in Hy as [Hy _]. by rewrite lookup_delete_eq in Hy.
    + rewrite lookup_delete_ne by done. naive_solver.
Qed.

Lemma fork_stop f l : known t f → is_lca t local f l → b_length l < b_length L →
  ∀ b, ¬ (stale b ∧ ancestor t b l).
Proof using WF Hlocal HLl.
  intros Hf Hl Hlt b [Hst Hbl]. destruct Hl as (Hl1 & Hl2 & Hl3).
  destruct (ancestor_known t WF l f Hf Hl2) as (Hkl & _ & _).
  destruct (ancestor_known t WF b l Hkl Hbl) as (_ & ? & _).
  assert (b_length l < b_length b); [|lia].
  apply (fork_stale f l b Hf (conj Hl1 (conj Hl2 Hl3)) Hlt); [by eapply ancestor_trans|done].
Qed.

Lemma prune_fork_loop_spec {E} f l fuel : known t f → is_lca t local f l → b_length l < b_length L →
  ∀ bs x, known t x → ancestor t x f → ancestor t l x → within bs →
  (∀ y z, ancestor t y x → bs !! b_id y = None → ancestor t z y → stale z → bs !! b_id z = None) →
  (size bs <= fuel)%nat →
  ∃ bs' removed, prune_fork_loop (E:=E) fuel bs (b_id x) (b_id l) = Ok (bs', removed) ∧
    pruned_from bs bs' removed x.
Proof using WF Hlocal HLl.
  intros Hf Hl Hlt. destruct (ancestor_known t WF l f Hf (proj1 (proj2 Hl))) as (Hkl & _ & _).
  induction fuel as [|fuel IH]; intros bs x Hx Hxf Hlx Hin Hcl Hfuel; cbn;
    (case_decide as Hd;
      [rewrite (known_id_inj t WF x l Hx Hkl Hd); exists bs, []; split; [done|];
       apply pruned_nothing; intros ? b _; by apply (fork_stop f l)|]);
    (destruct (bs !! b_id x) as [x'|] eqn:Hbx;
      [|exists bs, []; split; [done|]; apply pruned_nothing; intros id b Hb [Hst Hax];
        pose proof (wf_id t WF id b (Hin _ _ Hb)); subst id;
        by rewrite (Hcl x b (ancestor_refl t x) Hbx Hax Hst) in Hb]).
  { apply Nat.le_0_r, map_size_empty_iff in Hfuel. by rewrite Hfuel, lookup_empty in Hbx. }
  assert (x' = x) as -> by (pose proof (Hin _ _ Hbx); unfold known in Hx; congruence).
  destruct (ancestor_inv t l x Hlx) as [->|(p & Hp & Hlp)]; [done|].
  destruct (parent_known t WF x p Hp) as (Hkp & Ep & _). rewrite <- Ep.
  destruct (parent_spec t WF x p Hx Hp) as (Hlen & _ & _).
  pose proof (ancestor_parent t p x Hp) as Hpx.
  destruct (IH (delete (b_id x) bs) p Hkp) as (bs' & rm & -> & HP).
  { by eapply ancestor_trans. }
  { done. }
  { intros id b [_ Hb]%lookup_delete_Some. by apply Hin. }
  { intros y z Hy. rewrite lookup_delete_ne.
    - intros Hyn Hz Hst. apply lookup_delete_None. right.
      eapply (Hcl y); try done. by eapply ancestor_trans.
    - intros E'. destruct (ancestor_known t WF y p Hkp Hy) as (Hky & ? & _).
      rewrite (known_id_inj t WF x y Hx Hky E') in *. lia. }
  { rewrite map_size_delete_Some by (by exists x). lia. }
  cbn. exists bs', (b_id x :: rm). split; [done|]. apply (pruned_step bs bs' rm x p); try done.
  apply (fork_stale f l x Hf Hl Hlt Hxf).
  destruct (ancestor_known t WF l p Hkp Hlp) as (_ & ? & _). lia.
Qed.

(** What [Cryptarchia::prune_forks] does to a list of prunable forks. *)
Definition prunable (info : ForkDivergenceInfo Id) : Prop :=
  known t (fork_tip info) ∧ is_lca t local (fork_tip info) (fork_lca info) ∧
  b_length (fork_lca info) < b_length L.

Lemma prune_fork_spec {E} u info : prunable info → within (branches u) → stale_closed (branches u) →
  ∃ u' removed, prune_fork (E:=E) u info = Ok (u', removed) ∧
    pruned_from (branches u) (branches u') removed (fork_tip info) ∧
    tips u' = tips u ∖ {[b_id (fork_tip info)]} ∧ lib u' = lib u ∧
    within (branches u') ∧ stale_closed (branches u').
Proof using WF Hlocal HLl.
  intros (Hf & Hl & Hlt) Hin Hcl. unfold prune_fork.
  destruct (prune_fork_loop_spec (E:=E) (fork_tip info) (fork_lca info) (size (branches u)) Hf Hl Hlt
    (branches u) (fork_tip info)) as (bs' & rm & -> & [Hbs Hrm]); try done.
  { apply ancestor_refl. }
  { by destruct Hl as (_ & ? & _). }
  { intros y z Hy. apply Hcl. by destruct (ancestor_known t WF y _ Hf Hy). }
  cbn. eexists _, rm. do 2 (split; [done|]). do 2 (split; [done|]). cbn. split.
  - intros id b [Hb _]%Hbs. by apply Hin.
  - intros y z Hy Hyn Hz Hst. destruct (bs' !! b_id z) as [z'|] eqn:Hz'; [|done].
    apply Hbs in Hz' as [Hz' Hn]. pose proof (Hin _ _ Hz') as Hz2.
    destruct (ancestor_known t WF z y Hy Hz) as (Hkz & _ & _).
    assert (z' = z) as -> by (unfold known in Hkz; congruence).
    destruct (branches u !! b_id y) as [y'|] eqn:Hy'.
    + assert (y' = y) as -> by (pose proof (Hin _ _ Hy'); unfold known in Hy; congruence).
      assert (¬ ¬ (stale y ∧ ancestor t y (fork_tip info))) as Hnn.
      { intros Hno. rewrite (proj2 (Hbs (b_id y) y)) in Hyn; done. }
      destruct Hnn. intros [_ Hay]. apply Hn. split; [done|by eapply ancestor_trans].
    + by rewrite (Hcl y z Hy Hy' Hz Hst) in Hz'.
Qed.

Lemma prune_forks_spec {E} infos : ∀ u, Forall prunable infos →
  within (branches u) → stale_closed (branches u) →
  ∃ u' removed, prune_forks (E:=E) u infos = Ok (u', removed) ∧
    (∀ id b, branches u' !! id = Some b ↔ branches u !! id = Some b ∧
       ∀ info, info ∈ infos → ¬ (stale b ∧ ancestor t b (fork_tip info))) ∧
    (∀ id, id ∈ removed ↔ is_Some (branches u !! id) ∧ branches u' !! id = None) ∧
    (∀ id, id ∈ tips u' ↔ id ∈ tips u ∧ ∀ info, info ∈ infos → id ≠ b_id (fork_tip info)) ∧
    lib u' = lib u.
Proof using WF Hlocal HLl.
  induction infos as [|info infos IH]; intros u Hp Hin Hcl.
  - exists u, []. split; [done|]. split; [|split; [|split; [|done]]].
    + intros id b. split; [|naive_solver]. intros ?. split; [done|]. by intros ? ?%not_elem_of_nil.
    + intros id. rewrite elem_of_nil. split; [done|intros [[? ?] ?]; congruence].
    + intros id. split; [|naive_solver]. intros ?. split; [done|]. by intros ? ?%not_elem_of_nil.
  - inversion_clear Hp as [|? ? Hp1 Hp2].
    destruct (prune_fork_spec (E:=E) u info Hp1 Hin Hcl) as (u1 & rm1 & Hok1 & [B1 R1] & T1 & L1 & W1 & C1).
    destruct (IH u1 Hp2 W1 C1) as (u2 & rm2 & Hok2 & B2 & R2 & T2 & L2).
    exists u2, (rm1 ++ rm2). cbn. rewrite Hok1. cbn. rewrite Hok2. cbn.
    split; [done|]. split; [|split; [|split; [|congruence]]].
    + intros id b. rewrite B2, B1. setoid_rewrite elem_of_cons. naive_solver.
    + intros id. rewrite elem_of_app, R1, R2.
      destruct (branches u2 !! id) as [b|] eqn:E2.
      * apply B2 in E2 as [E1 _]. pose proof (proj1 (proj1 (B1 id b) E1)). naive_solver.
      * destruct (branches u1 !! id) as [b|] eqn:E1; [pose proof (proj1 (proj1 (B1 id b) E1))|]; naive_solver.
    + intros id. rewrite T2, T1, elem_of_difference, elem_of_singleton.
      setoid_rewrite elem_of_cons. naive_solver.
Qed.

(** [Cryptarchia::prunable_forks] lists the forks that diverge below [L]. *)
Lemma prunable_among_spec {E} u forks : branches u = branches t →
  (∀ f, f ∈ forks → known t f) →
  ∃ infos, prunable_among (E:=E) u local (b_length L) forks = Ok infos ∧ Forall prunable infos ∧
    ∀ f, (∃ info, info ∈ infos ∧ fork_tip info = f) ↔
      f ∈ forks ∧ ∃ l, is_lca t local f l ∧ b_length l < b_length L.
Proof using WF Hlocal.
  intros Eu. induction forks as [|f forks IH]; intros Hf.
  { exists []. split; [done|]. split; [constructor|]. intros f. setoid_rewrite elem_of_nil. naive_solver. }
  destruct IH as (infos & Hi & Hp & Hx); [intros; apply Hf; by apply list_elem_of_further|].
  assert (known t f) as Hkf by apply Hf, list_elem_of_here.
  destruct (lca_spec (E:=E) t WF local f Hlocal Hkf) as (l & Hl & Hlca).
  cbn [prunable_among]. rewrite (lca_branches t u Eu), Hl. cbn. rewrite Hi. cbn.
  destruct (b_length l <? b_length L) eqn:Hlt.
  - exists (mkFork f l :: infos). split; [done|]. split; [constructor; [split; [done|split; [done|cbn; lia]]|done]|].
    intros g. setoid_rewrite elem_of_cons. split.
    + intros (info & [->|Hin] & <-); cbn; [split; [by left|exists l; split; [done|lia]]|].
      destruct (proj1 (Hx (fork_tip info))) as [? ?]; [by exists info|]. split; [by right|done].
    + intros [[->|Hin] Hex]; [exists (mkFork f l); split; [by left|done]|].
      destruct (proj2 (Hx g) (conj Hin Hex)) as (info & ? & ?). exists info. split; [by right|done].
  - exists infos. split; [done|]. split; [done|]. intros g. rewrite Hx, elem_of_cons.
    split; [naive_solver|]. intros [[->|Hin] (l' & Hl' & ?)]; [|naive_solver].
    rewrite (is_lca_unique t WF local f l' l Hlocal Hl' Hlca) in *. lia.
Qed.

(** The tips above a stale block are the tips of prunable forks. *)
Lemma stale_tip f b l : known t f → is_lca t local f l → ancestor t b f → stale b →
  b_length l < b_length L ∧ f ≠ local.
Proof using WF Hlocal HLl.
  intros Hf (Hl1 & Hl2 & Hl3) Hb [Hs1 Hs2]. split.
  - destruct (Z.lt_ge_cases (b_length l) (b_length L)) as [|Hge]; [done|exfalso].
    assert (ancestor t L l) by (by apply (ancestor_linear t WF L l local)).
    assert (ancestor t L f) by (by eapply ancestor_trans).
    destruct (Z.le_ge_cases (b_length L) (b_length b)) as [Hle|Hle].
    + apply Hs1. by apply (ancestor_linear t WF L b f).
    + apply Hs2. by apply (ancestor_linear t WF b L f).
  - intros ->. destruct (Z.le_ge_cases (b_length L) (b_length b)) as [Hle|Hle].
    + apply Hs1. by apply (ancestor_linear t WF L b local).
    + apply Hs2. by apply (ancestor_linear t WF b L local).
Qed.

(** [Cryptarchia::prune_immutable_blocks] removes the blocks below [y]. *)
Lemma prune_immutable_loop_spec {E} fuel : ∀ bs y, known t y → within bs →
  (∀ a, ancestor t a y → a ≠ y → bs !! b_id a = Some a) →
  (b_parent y = b_id y → bs !! b_id y = None) → (size bs <= fuel)%nat →
  ∃ bs' removed, prune_immutable_loop (E:=E) fuel bs (b_parent y) = Ok (bs', removed) ∧
    (∀ id b, bs' !! id = Some b ↔ bs !! id = Some b ∧ ¬ (ancestor t b y ∧ b ≠ y)) ∧
    (∀ s id, (s, id) ∈ removed ↔ ∃ b, ancestor t b y ∧ b ≠ y ∧ s = b_slot b ∧ id = b_id b).
Proof using WF.
  induction fuel as [|fuel IH]; intros bs y Hy Hin Hanc Hself Hfuel; cbn;
    (destruct (parent t y) as [p|] eqn:Hp;
     [|assert (bs !! b_parent y = None) as ->;
       [unfold parent in Hp; case_decide as Hd; [rewrite Hd; by apply Hself|];
        destruct (bs !! b_parent y) as [q|] eqn:Hq; [|done];
        apply Hin in Hq; congruence|];
       assert (∀ b, ancestor t b y → b = y) as Honly by
         (intros b Hb; destruct (ancestor_inv t b y Hb) as [->|(q & Hq & _)]; [done|congruence]);
       exists bs, []; split; [done|]; split; [naive_solver|];
       intros s id; rewrite elem_of_nil; naive_solver]);
    destruct (parent_known t WF y p Hp) as (Hkp & Ep & Hne);
    destruct (parent_spec t WF y p Hy Hp) as (Hlen & _ & _);
    pose proof (ancestor_parent t p y Hp) as Hpy;
    (assert (bs !! b_id p = Some p) as Hbp by (apply Hanc; [done|congruence]));
    rewrite <- Ep, Hbp.
  { apply Nat.le_0_r, map_size_empty_iff in Hfuel. by rewrite Hfuel, lookup_empty in Hbp. }
  assert (∀ a, ancestor t a y ∧ a ≠ y ↔ a = p ∨ ancestor t a p ∧ a ≠ p) as Hsplit.
  { intros a. split.
    - intros [Ha Hay]. destruct (ancestor_inv t a y Ha) as [->|(q & Hq & ?)]; [done|].
      simplify_eq. destruct (decide (a = p)); auto.
    - assert (∀ a, ancestor t a p → a ≠ y).
      { intros x Hx ->. destruct (ancestor_known t WF y p Hkp Hx) as (_ & ? & _). lia. }
      intros [->|[Ha Hap]]; [split; [done|congruence]|]. split; [by eapply ancestor_trans|auto]. }
  destruct (IH (delete (b_id p) bs) p Hkp) as (bs' & rm & -> & B & R).
  { intros id b [_ Hb]%lookup_delete_Some. by apply Hin. }
  { intros a Ha Hap. destruct (ancestor_known t WF a p Hkp Ha) as (Hka & _ & _).
    rewrite lookup_delete_ne by (intros Eid; apply Hap; by apply (known_id_inj t WF)).
    apply Hanc; apply Hsplit; by right. }
  { intros _. apply lookup_delete_eq. }
  { rewrite map_size_delete_Some by (by exists p). lia. }
  cbn. exists bs', ((b_slot p, b_id p) :: rm). split; [done|]. split.
  - intros id b. rewrite B, lookup_delete_Some, Hsplit. split.
    + intros [[Hid Hb] Hn]. split; [done|]. intros [->|?]; [|done].
      pose proof (wf_id t WF id p (Hin _ _ Hb)). congruence.
    + intros [Hb Hn]. split; [|naive_solver]. split; [|done]. intros <-. apply Hn. left. congruence.
  - intros s id. rewrite elem_of_cons, R. split.
    + intros [[= -> ->]|(b & ? & ? & ? & ?)]; [exists p|exists b]; naive_solver.
    + intros (b & Hb & Hby & -> & ->). destruct (proj1 (Hsplit b) (conj Hb Hby)) as [->|[? ?]]; naive_solver.
Qed.

End Loops.
End Subtree.
End Pruning.
