(* ===== verification/EngineInvariant.v ===== *)
(** * The engine invariant

    A well-formed tree, the local chain at one of its tips, and a usable era
    schedule are preserved by every transition of [Cryptarchia]; no transition
    panics; the LIB only moves up its own chain; pruning leaves exactly the
    descendants of the LIB. *)

From S2P Require Import Prelude Era EraFacts EngineConfig BlockTree TreeWalks Engine ForkChoice Pruning.

Open Scope Z_scope.

(** ** Era schedules the engine can use *)

Record wf_eras (s : EraSchedule Config) : Prop := {
  we_genesis : e_first_slot (s_genesis s) = 0;
  we_k : ∀ v, v ∈ eras s → 1 <= security_param (v_parameters v) <= u32_max
}.

(** The security parameter in force at a slot. *)
Definition k_of (s : EraSchedule Config) (slot : Z) : Z :=
  match k_at (E:=Empty_set) s slot with Ok k => k | _ => 0 end.

Lemma at_slot_total {E} s slot : wf_eras s → in_u64 slot →
  ∃ v, v ∈ eras s ∧ at_slot (E:=E) s slot = Ok v ∧
    k_at (E:=E) s slot = Ok (k_of s slot) ∧ k_of s slot = security_param (v_parameters v).
Proof.
  intros [Hg _] [Hs _]. destruct (at_slot_from_genesis s slot Hg Hs) as (v & Hin & Hv).
  exists v. split; [done|]. unfold k_of, k_at. by rewrite !Hv.
Qed.

Lemma k_at_of {E} s : wf_eras s → ∀ slot, in_u64 slot → k_at (E:=E) s slot = Ok (k_of s slot).
Proof. intros WF slot Hs. by destruct (at_slot_total (E:=E) s slot WF Hs) as (v & _ & _ & ? & _). Qed.

Lemma k_of_bounds s slot : wf_eras s → 0 <= k_of s slot <= u32_max.
Proof.
  intros WF. unfold k_of, k_at, at_slot.
  destruct (last_started s _) as [v|] eqn:Hv; cbn; [|unfold u32_max; lia].
  unfold last_started in Hv.
  assert (v ∈ eras s) as Hin.
  { apply last_Some_elem_of in Hv. revert Hv. generalize (eras s). intros l.
    induction l as [|x l IH]; cbn; [done|]. case_match; [|by intros ?%not_elem_of_nil].
    intros [->|?]%elem_of_cons; [apply list_elem_of_here|by apply list_elem_of_further, IH]. }
  pose proof (we_k s WF v Hin). lia.
Qed.

(** ** The latest immutable block *)

Lemma findM_spec {E A} (f : A → result E bool) (g : A → bool) l :
  (∀ x, x ∈ l → f x = Ok (g x)) →
  (∃ l1 x l2, l = l1 ++ x :: l2 ∧ g x = true ∧ (∀ y, y ∈ l1 → g y = false) ∧ findM f l = Ok (Some x))
  ∨ (∀ y, y ∈ l → g y = false) ∧ findM f l = Ok None.
Proof.
  induction l as [|x l IH]; intros Hf; cbn.
  { right. split; [by intros ? ?%not_elem_of_nil|done]. }
  rewrite (Hf x (list_elem_of_here _ _)). cbn. destruct (g x) eqn:Hx.
  { left. exists [], x, l. repeat split; try done. by intros ? ?%not_elem_of_nil. }
  destruct IH as [(l1 & y & l2 & -> & Hy & Hl1 & Hfind)|[Hn Hfind]].
  { intros y Hy. apply Hf. by apply list_elem_of_further. }
  - left. exists (x :: l1), y, l2. repeat split; try done. by intros z [->|?]%elem_of_cons; auto.
  - right. split; [|done]. by intros z [->|?]%elem_of_cons; auto.
Qed.

Section Invariant.
Context {Id : Type} `{Countable Id}.
Implicit Types (t : Branches Id) (b : Branch Id) (c : Cryptarchia Id).

Lemma chain_sorted t n b l1 x l2 : wf_tree t → known t b → chain t n b = l1 ++ x :: l2 →
  ∀ y, y ∈ l1 → b_length x < b_length y.
Proof.
  intros WF. revert b l1. induction n as [|n IH]; intros b l1 Hb Hc y Hy; cbn in Hc.
  { by destruct l1. }
  destruct l1 as [|z l1]; [by apply not_elem_of_nil in Hy|]. injection Hc as <- Hc.
  destruct (parent t b) as [p|] eqn:Hp; [|by destruct l1].
  destruct (parent_known t WF b p Hp) as [Hkp _].
  destruct (parent_spec t WF b p Hb Hp) as (? & _ & _).
  apply elem_of_cons in Hy as [->|Hy]; [|by eapply IH].
  assert (x ∈ chain t n p) as Hx by (rewrite Hc; apply elem_of_app; right; apply list_elem_of_here).
  destruct (chain_elem t WF n p x Hkp Hx). lia.
Qed.

(** The block the LIB rule selects below [local]. *)
Record is_lib t (k : Z → Z) (local L : Branch Id) : Prop := {
  il_ancestor : ancestor t L local;
  il_within : b_length local - b_length L <= k (b_slot L);
  il_deeper : ∀ a, ancestor t a L → a ≠ L → k (b_slot a) < b_length local - b_length a
}.

Lemma state_lib_online {E} c : wf_tree (tree c) → known (tree c) (local_chain c) →
  wf_eras (era_schedule c) → state c = Online →
  ∃ L, state_lib (E:=E) c = Ok (b_id L) ∧ known (tree c) L ∧
    is_lib (tree c) (k_of (era_schedule c)) (local_chain c) L.
Proof.
  intros WF Hl WE Hst. destruct (lib_known (tree c) WF) as (r & Hr & _ & _).
  unfold state_lib. rewrite Hst, (lib_to_tip_blocks_spec (tree c) WF _ r Hr Hl). cbn -[chain].
  set (n := S (Z.to_nat (b_length (local_chain c) - b_length r))).
  assert (∀ x, x ∈ chain (tree c) n (local_chain c) ↔ ancestor (tree c) x (local_chain c)) as Hch
    by (intros x; by apply (lib_chain_elem_iff (tree c) WF)).
  set (g := λ x : Branch Id, saturating_sub (b_length (local_chain c)) (b_length x)
                 <=? k_of (era_schedule c) (b_slot x)).
  assert (∀ x, ancestor (tree c) x (local_chain c) →
    is_block_within_the_k_of_its_era (E:=E) (era_schedule c) (local_chain c) x = Ok (g x)) as Hg.
  { intros x Hx. unfold is_block_within_the_k_of_its_era. rewrite k_at_of; [done|done|].
    apply (wf_slot _ WF). by destruct (ancestor_known _ WF x _ Hl Hx). }
  destruct (findM_spec (is_block_within_the_k_of_its_era (E:=E) (era_schedule c) (local_chain c)) g
    (reverse (chain (tree c) n (local_chain c)))) as [(l1 & L & l2 & El & HgL & Hl1 & ->)|[Hn _]].
  - intros x Hx. apply Hg, Hch. by apply elem_of_reverse.
  - assert (ancestor (tree c) L (local_chain c)) as HL.
    { apply Hch, elem_of_reverse. rewrite El. apply elem_of_app. right. apply list_elem_of_here. }
    destruct (ancestor_known _ WF L _ Hl HL) as (HkL & HleL & _).
    exists L. split; [done|]. split; [done|]. constructor; [done|unfold g, saturating_sub in HgL; lia|].
    intros a Ha Hne. destruct (ancestor_known _ WF a L HkL Ha) as (_ & Hlea & _).
    assert (a ∈ reverse (chain (tree c) n (local_chain c))) as Hin
      by (apply elem_of_reverse, Hch; by eapply ancestor_trans).
    rewrite El in Hin. apply elem_of_app in Hin as [Hin|[->|Hin]%elem_of_cons]; [|done|].
    + specialize (Hl1 a Hin). unfold g, saturating_sub in Hl1. lia.
    + exfalso. apply (f_equal reverse) in El. rewrite reverse_involutive, reverse_app, reverse_cons, <- app_assoc in El.
      pose proof (chain_sorted (tree c) n _ (reverse l2) L (reverse l1) WF Hl El a) as Hs.
      rewrite elem_of_reverse in Hs. specialize (Hs Hin). lia.
  - exfalso. specialize (Hn (local_chain c)). rewrite elem_of_reverse, Hch in Hn.
    specialize (Hn (ancestor_refl _ _)). unfold g, saturating_sub in Hn.
    pose proof (k_of_bounds (era_schedule c) (b_slot (local_chain c)) WE). lia.
Qed.

(** ** Pruning at a new LIB *)

Lemma set_tree_tree c t : tree (set_tree c t) = t.
Proof. done. Qed.

Lemma lca_above t L local f l : wf_tree t → known t local → known t f →
  ancestor t L local → is_lca t local f l → ancestor t L f ↔ b_length L <= b_length l.
Proof.
  intros WF Hl Hf HL (H1 & H2 & H3). split.
  - intros HLf. destruct (ancestor_known t WF l f Hf H2) as (Hkl & _ & _).
    by destruct (ancestor_known t WF L l Hkl (H3 L HL HLf)) as (_ & ? & _).
  - intros Hle. eapply ancestor_trans; [|exact H2]. by apply (ancestor_linear t WF L l local).
Qed.

Lemma stale_not_above t L b f : wf_tree t → known t f → stale t L b → ancestor t b f → ¬ ancestor t L f.
Proof.
  intros WF Hf [Hs1 Hs2] Hb HL. destruct (Z.le_ge_cases (b_length L) (b_length b)).
  - apply Hs1. by apply (ancestor_linear t WF L b f).
  - apply Hs2. by apply (ancestor_linear t WF b L f).
Qed.

(** The prunable forks are the tips that do not descend from [L]. *)
Lemma prunable_forks_spec {order : SetOrder Id} {E} c t L : wf_tree t →
  branches (tree c) = branches t → tips (tree c) = tips t →
  known t (local_chain c) → known t L → ancestor t L (local_chain c) →
  ∃ infos, prunable_forks (E:=E) c (b_length (local_chain c) - b_length L) = Ok infos ∧
    Forall (prunable t L (local_chain c)) infos ∧
    ∀ f, is_tip t f → (∃ info, info ∈ infos ∧ fork_tip info = f) ↔ ¬ ancestor t L f.
Proof.
  intros WF Eb Et Hl HL HLl. set (local := local_chain c) in *.
  pose proof (wf_length t WF L HL) as [? _].
  unfold prunable_forks, checked_sub. fold local. rewrite (proj2 (Z.leb_le _ _)) by lia.
  replace (b_length local - (b_length local - b_length L)) with (b_length L) by lia.
  unfold non_canonical_forks. rewrite (tip_branches_branches t (tree c) Eb Et).
  destruct (tip_branches_spec (E:=E) t WF) as (forks & -> & Hforks & _). cbn. fold local.
  set (noncan := filter (λ fork, b_id fork ≠ b_id local) forks).
  destruct (prunable_among_spec (E:=E) t WF L local Hl (tree c) noncan Eb) as (infos & -> & Hp & Hx).
  { intros f [_ Hf]%list_elem_of_filter. by apply Hforks in Hf as [? _]. }
  exists infos. split; [done|]. split; [done|]. intros f Hf. pose proof Hf as [Hkf _]. rewrite Hx. split.
  - intros [_ (l & Hlca & Hlt)]. rewrite (lca_above t L local f l) by done. lia.
  - intros Hn. destruct (lca_spec (E:=E) t WF local f Hl Hkf) as (l & _ & Hlca).
    rewrite (lca_above t L local f l) in Hn by done. split; [|exists l; split; [done|lia]].
    apply list_elem_of_filter. split; [|by apply Hforks]. intros Eid.
    assert (f = local) as -> by (by apply (known_id_inj t WF)).
    apply Hn. by apply (lca_above t L local local l).
Qed.

(** The remaining blocks after [prune_stale_forks]. *)
Lemma prune_stale_forks_spec {order : SetOrder Id} {E} c t L : wf_tree t →
  branches (tree c) = branches t → tips (tree c) = tips t →
  known t (local_chain c) → known t L → ancestor t L (local_chain c) →
  ∃ u removed, prune_stale_forks (E:=E) c (b_length (local_chain c) - b_length L)
      = Ok (set_tree c u, removed) ∧
    (∀ id b, branches u !! id = Some b ↔ branches t !! id = Some b ∧ ¬ stale t L b) ∧
    (∀ id, id ∈ removed ↔ is_Some (branches t !! id) ∧ branches u !! id = None) ∧
    (∀ b, known t b → b_id b ∈ tips u ↔ b_id b ∈ tips t ∧ ancestor t L b) ∧
    (∀ id, id ∈ tips u → id ∈ tips t) ∧ lib u = lib (tree c).
Proof.
  intros WF Eb Et Hl HL HLl. unfold prune_stale_forks.
  destruct (prunable_forks_spec (E:=E) c t L) as (infos & -> & Hp & Hx); try done. cbn.
  destruct (prune_forks_spec (E:=E) t WF L (local_chain c) Hl HLl infos (tree c))
    as (u & rm & -> & B & R & T & Elib).
  { done. }
  { intros id b. by rewrite Eb. }
  { intros y z Hy. rewrite Eb. unfold known in Hy. congruence. }
  cbn. exists u, rm. split; [done|]. rewrite Eb, Et in *.
  split; [|split; [done|split; [|split; [|done]]]].
  - intros id b. rewrite B. split; (intros [Hb Hn]; split; [done|]).
    + intros Hst. pose proof (wf_id t WF id b Hb). subst id.
      destruct (tip_above t WF b Hb) as (f & Hf & Hbf).
      destruct (proj2 (Hx f Hf)) as (info & Hin & Ef); [eapply stale_not_above; try done; by destruct Hf|].
      apply (Hn info Hin). by rewrite Ef.
    + by intros info Hin [Hst _].
  - intros b Hb. rewrite T. split; (intros [Hin Hn]; split; [done|]).
    + destruct (lca_spec (E:=E) t WF (local_chain c) b Hl Hb) as (l & _ & Hlca).
      rewrite (lca_above t L (local_chain c) b l) by done.
      destruct (Z.le_gt_cases (b_length L) (b_length l)) as [|Hgt]; [done|exfalso].
      destruct (proj2 (Hx b (conj Hb Hin))) as (info & Hinf & Ef); [|apply (Hn info Hinf); by rewrite Ef].
      rewrite (lca_above t L (local_chain c) b l) by done. lia.
    + intros info Hinf Eid. rewrite Forall_forall in Hp. destruct (Hp info Hinf) as (Hkf & _ & _).
      assert (fork_tip info = b) as Ef by (by apply (known_id_inj t WF)).
      apply (Hx b (conj Hb Hin)); [by exists info|done].
  - intros id. rewrite T. naive_solver.
Qed.

Lemma ancestor_dec t a b : wf_tree t → known t a → known t b → ancestor t a b ∨ ¬ ancestor t a b.
Proof.
  intros WF Ha Hb. destruct (lca_spec (E:=Empty_set) t WF a b Ha Hb) as (l & _ & Hl1 & Hl2 & Hl3).
  destruct (decide (l = a)) as [->|Hne]; [by left|right]. intros Hab. apply Hne.
  apply (ancestor_antisym t WF); [done|done|]. apply Hl3; [apply ancestor_refl|done].
Qed.

Lemma stale_dec t L b : wf_tree t → known t L → known t b → stale t L b ∨ ¬ stale t L b.
Proof.
  intros WF HL Hb. unfold stale.
  destruct (ancestor_dec t L b WF HL Hb), (ancestor_dec t b L WF Hb HL); tauto.
Qed.

(** What moving the LIB to [L] reports and leaves. *)
Record pruned_at t L (t' : Branches Id) (p : PrunedBlocks Id) : Prop := {
  pa_subtree : subtree t L t';
  pa_stale : ∀ id, id ∈ stale_blocks p ↔ ∃ b, branches t !! id = Some b ∧ stale t L b;
  pa_immutable : ∀ s id, immutable_blocks p !! s = Some id →
    ∃ b, ancestor t b L ∧ b ≠ L ∧ b_slot b = s ∧ b_id b = id;
  pa_immutable_all : ∀ b, ancestor t b L → b ≠ L →
    (∀ a, ancestor t a L → a ≠ L → b_slot a = b_slot b → a = b) →
    immutable_blocks p !! b_slot b = Some (b_id b)
}.

Lemma prune_immutable_spec {E} c t L : wf_tree t → known t L → b_id L ≠ lib t →
  (∀ id b, branches (tree c) !! id = Some b ↔ branches t !! id = Some b ∧ ¬ stale t L b) →
  lib (tree c) = b_id L →
  ∃ bs removed, prune_immutable_blocks (E:=E) c
      = Ok (set_tree c (mkBranches bs (tips (tree c)) (b_id L)), removed) ∧
    (∀ id b, bs !! id = Some b ↔ branches t !! id = Some b ∧ ancestor t L b) ∧
    (∀ s id, (s, id) ∈ removed ↔ ∃ b, ancestor t b L ∧ b ≠ L ∧ s = b_slot b ∧ id = b_id b).
Proof.
  intros WF HL Hne B Elib. unfold prune_immutable_blocks, lib_branch. rewrite Elib.
  assert (∀ a, ancestor t a L → branches (tree c) !! b_id a = Some a) as Hanc.
  { intros a Ha. apply B. destruct (ancestor_known t WF a L HL Ha) as (Hka & _ & _).
    split; [done|]. by intros [_ ?]. }
  rewrite (Hanc L (ancestor_refl t L)). cbn.
  destruct (prune_immutable_loop_spec (E:=E) t WF (size (branches (tree c))) (branches (tree c)) L HL)
    as (bs & rm & -> & Bs & Rm).
  { intros id b Hb. by apply B in Hb as [? _]. }
  { auto. }
  { intros Eself. destruct (wf_parent t WF L HL Hne) as (q & Hq & _).
    unfold parent in Hq. by rewrite decide_True in Hq. }
  { done. }
  cbn. exists bs, rm. split; [done|]. split; [|done].
  intros id b. rewrite Bs, B. split.
  - intros [[Hb Hst] Hn]. split; [done|]. pose proof (wf_id t WF id b Hb). subst id.
    destruct (ancestor_dec t L b WF HL Hb) as [?|Hn1]; [done|].
    destruct (ancestor_dec t b L WF Hb HL) as [Hn2|Hn2]; [|by destruct Hst].
    destruct Hn. split; [done|]. intros ->. by apply Hn1.
  - intros [Hb HLb]. pose proof (wf_id t WF id b Hb). subst id.
    split; [split; [done|by intros [? _]]|]. intros [Hba Hne'].
    apply Hne'. by apply (ancestor_antisym t WF).
Qed.

Record wf_engine c : Prop := {
  inv_tree : wf_tree (tree c);
  inv_local : is_tip (tree c) (local_chain c);
  inv_eras : wf_eras (era_schedule c)
}.

Lemma subtree_id t r : wf_tree t → branches t !! lib t = Some r → subtree t r t.
Proof.
  intros WF Hr. constructor.
  - intros id b. split; [|naive_solver]. intros Hb. split; [done|]. apply (lib_ancestor t WF); [done|].
    unfold known. by rewrite (wf_id t WF id b Hb).
  - intros b Hb. split; [|naive_solver]. intros ?. split; [done|]. by apply (lib_ancestor t WF).
  - intros id Hin. by apply (wf_tips t WF) in Hin as [? _].
  - by rewrite (wf_id t WF _ _ Hr).
Qed.

Lemma subtree_tip t L t' local : subtree t L t' → is_tip t local → ancestor t L local → is_tip t' local.
Proof.
  intros S [Hk Hin] HL. split; [by apply (sub_known t L t' local S)|]. by apply (sub_tips t L t' S).
Qed.

Lemma pruned_at_id t r : wf_tree t → branches t !! lib t = Some r → pruned_at t r t (mkPruned ∅ ∅).
Proof.
  intros WF Hr. constructor; cbn.
  - by apply subtree_id.
  - intros id. split; [set_solver|]. intros (b & Hb & [Hs _]). exfalso.
    apply Hs, (lib_ancestor t WF); [done|]. unfold known. by rewrite (wf_id t WF id b Hb).
  - done.
  - intros b Hb Hne _. destruct Hne.
    destruct (ancestor_inv t b r Hb) as [->|(p & Hp & _)]; [done|].
    by rewrite (wf_root t WF r Hr) in Hp.
Qed.

(** [update_lib] moves the LIB to the block its rule selects and prunes. *)
Lemma update_lib_spec {order : SetOrder Id} {E} c : wf_engine c →
  ∃ L c' p, update_lib (E:=E) c = Ok (c', p) ∧
    known (tree c) L ∧ ancestor (tree c) L (local_chain c) ∧
    match state c with
    | Bootstrapping => b_id L = lib (tree c)
    | Online => is_lib (tree c) (k_of (era_schedule c)) (local_chain c) L
    end ∧
    pruned_at (tree c) L (tree c') p ∧
    local_chain c' = local_chain c ∧ era_schedule c' = era_schedule c ∧ state c' = state c.
Proof.
  intros [WF [Hl Ht] WE]. set (t := tree c) in *.
  destruct (lib_known t WF) as (r & Hr & Er & Hkr).
  assert (∃ L, state_lib (E:=E) c = Ok (b_id L) ∧ known t L ∧ ancestor t L (local_chain c) ∧
    match state c with
    | Bootstrapping => b_id L = lib t
    | Online => is_lib t (k_of (era_schedule c)) (local_chain c) L
    end) as (L & HsL & HL & HLl & Hrule).
  { destruct (state c) eqn:Hst.
    - exists r. unfold state_lib. rewrite Hst. fold t. rewrite Er. do 2 (split; [done|]).
      split; [by apply (lib_ancestor t WF)|done].
    - destruct (state_lib_online (E:=E) c WF Hl WE Hst) as (L & ? & ? & HI).
      exists L. repeat split; try done; by destruct HI. }
  exists L. unfold update_lib. rewrite HsL. cbn. fold t. case_decide as Hd.
  { assert (L = r) as -> by (unfold known in HL; rewrite <- Hd, Hr in HL; congruence).
    exists c, (mkPruned ∅ ∅). do 4 (split; [done|]). split; [by apply pruned_at_id|done]. }
  set (c1 := set_tree c (mkBranches (branches t) (tips t) (b_id L))).
  destruct (ancestor_known t WF L _ Hl HLl) as (_ & Hle & _).
  assert (lib_depth (E:=E) c1 = Ok (b_length (local_chain c) - b_length L)) as ->.
  { unfold lib_depth, lib_branch, c1; cbn. unfold known in HL. rewrite HL. cbn.
    unfold checked_sub. by rewrite (proj2 (Z.leb_le _ _)) by lia. }
  cbn. destruct (prune_stale_forks_spec (E:=E) c1 t L) as (u & stl & Hok & B & R & T & Tin & Elib);
    try done.
  change (local_chain c1) with (local_chain c) in Hok. rewrite Hok. cbn.
  destruct (prune_immutable_spec (E:=E) (set_tree c1 u) t L) as (bs & imm & -> & Bs & Rm);
    [done|done|by intros E'; apply Hd|done|by rewrite set_tree_tree, Elib|].
  cbn. eexists _, _. split; [done|]. do 3 (split; [done|]). split; [|done].
  constructor; cbn.
  - constructor; cbn; [done|done| |done]. intros id Hin%Tin. by apply (wf_tips t WF) in Hin as [? _].
  - intros id. rewrite elem_of_list_to_set, R. split.
    + intros [[b Hb] Hn]. exists b. split; [done|].
      destruct (stale_dec t L b WF HL) as [?|Hst]; [unfold known; by rewrite (wf_id t WF id b Hb)|done|].
      by rewrite (proj2 (B id b) (conj Hb Hst)) in Hn.
    + intros (b & Hb & Hst). split; [by exists b|].
      destruct (branches u !! id) as [b'|] eqn:Hb'; [|done]. exfalso.
      apply B in Hb' as [Hb' Hn]. apply Hn. by simplify_eq.
  - intros s id Hin%collect_map_in. apply Rm in Hin as (b & ? & ? & -> & ->). eauto.
  - intros b Hb Hne Hu. apply collect_map_elem; [apply Rm; eauto|].
    intros id' (a & Ha & Han & Hs & ->)%Rm. by rewrite (Hu a Ha Han).
Qed.

End Invariant.
