(* ===== verification/EngineTheorems.v ===== *)
(** * Theorems on the engine's transitions

    Reception of a block and the switch to online never panic on a well-formed
    engine and keep it well formed; their outcome is characterised. *)

From S2P Require Import Prelude BlockTree TreeWalks Era EngineConfig Engine ForkChoice Pruning EngineInvariant.

Open Scope Z_scope.

#[local] Arguments lca : simpl never.
#[local] Arguments walk_back_before : simpl never.
#[local] Arguments walk_back_to_block : simpl never.
#[local] Arguments fork_choice : simpl never.
#[local] Arguments update_lib : simpl never.
#[local] Arguments canonical_change : simpl never.

(** ** Either fork choice rule selects a tip *)

Section ForkChoiceTip.
Context {Id : Type} `{Countable Id} {order : SetOrder Id}.
Implicit Types (t : Branches Id) (b c : Branch Id).

(** A step keeps the current chain or takes the candidate, and takes a child. *)
Definition selects {E} t (step : Branch Id → Branch Id → result E (Branch Id)) : Prop :=
  ∀ c chain, known t c → known t chain → ∃ c', step c chain = Ok c' ∧ (c' = c ∨ c' = chain) ∧
    (parent t chain = Some c → c' = chain).

Lemma fold_selects {E} t (step : Branch Id → Branch Id → result E (Branch Id)) forks : ∀ c,
  selects t step → known t c → (∀ b, b ∈ forks → known t b) →
  ∃ c', foldM step c forks = Ok c' ∧ (c' ∈ forks ∨ c' = c ∧ ∀ b, b ∈ forks → parent t b ≠ Some c).
Proof.
  induction forks as [|f forks IH]; intros c Hs Hc Hf; cbn [foldM].
  { exists c. split; [done|]. right. split; [done|]. by intros b ?%not_elem_of_nil. }
  assert (known t f) as Hkf by apply Hf, list_elem_of_here.
  assert (∀ b, b ∈ forks → known t b) as Hf' by (intros; apply Hf; by apply list_elem_of_further).
  destruct (Hs c f Hc Hkf) as (c1 & -> & Hor & Hch). cbn -[parent].
  setoid_rewrite elem_of_cons.
  destruct Hor as [->| ->].
  - destruct (IH c Hs Hc Hf') as (c' & -> & Hc'); exists c'; (split; [done|]).
    destruct Hc' as [Hin|[-> Hn]]; [by left; right|].
    destruct (decide (parent t f = Some c)) as [Hp|Hp]; [left; left; by apply Hch|].
    right. split; [done|]. by intros b [->|?]; auto.
  - destruct (IH f Hs Hkf Hf') as (c' & -> & Hc'); exists c'; (split; [done|]).
    left. destruct Hc' as [Hin|[-> _]]; auto.
Qed.

Lemma mc_selects {E} t (kf : Z → result E Z) k : wf_tree t →
  (∀ slot, in_u64 slot → kf slot = Ok (k slot)) → (∀ slot, 0 <= k slot) → selects t (mc_step t kf).
Proof.
  intros WF Hk Hk0 c chain Hc Hch.
  destruct (mc_step_spec t WF k kf c chain Hk Hc Hch) as [[-> _]|[-> Hn]]; eexists; (split; [done|]).
  - split; [by right|done].
  - split; [by left|]. intros Hp. destruct Hn. exists c.
    destruct (parent_spec t WF chain c Hch Hp) as (? & _ & _). specialize (Hk0 (b_slot c)).
    split; [|lia]. repeat split; eauto using ancestor_refl, ancestor_parent.
Qed.

(** The slots of the tree leave room for the density window of every era. *)
Definition slot_room (s : EraSchedule Config) (slot : Z) : Prop := ∀ v, v ∈ eras s →
  let w := genesis_density_window (security_param (v_parameters v))
             (slot_activation_coeff (v_parameters v)) in
  w ≠ 0 ∧ slot + w <= u64_max.

Lemma bg_params_total {E} s slot : wf_eras s → in_u64 slot → slot_room s slot →
  ∃ k g, bg_params_at (E:=E) s slot = Ok (k, g) ∧ 0 <= k ∧ slot + g <= u64_max.
Proof.
  intros WE Hs Hr. destruct (at_slot_total (E:=E) s slot WE Hs) as (v & Hv & Hat & _ & _).
  destruct (Hr v Hv) as [Hw Hroom]. pose proof (we_k s WE v Hv) as [? _].
  unfold bg_params_at. rewrite Hat. cbn. unfold s_gen, nonzero.
  rewrite (proj2 (Z.eqb_neq _ _)) by done. cbn. eexists _, _. split; [done|]. split; [lia|done].
Qed.

Lemma bg_selects {E} t s : wf_tree t → wf_eras s → (∀ b, known t b → slot_room s (b_slot b)) →
  selects t (bg_step (E:=E) t (bg_params_at s)).
Proof.
  intros WF WE Hroom c chain Hc Hch. unfold bg_step.
  destruct (lca_spec (E:=E) t WF c chain Hc Hch) as (l & -> & Hl). cbn -[bg_params_at].
  destruct (ancestor_known t WF l c Hc (proj1 Hl)) as (Hkl & Hle & _).
  destruct (bg_params_total (E:=E) s (b_slot l) WE (wf_slot t WF l Hkl) (Hroom l Hkl))
    as (k & g & -> & Hk & Hg). cbn.
  unfold strict_sub, checked_sub. rewrite (proj2 (Z.leb_le _ _)) by done. cbn.
  destruct (b_length c - b_length l <=? k) eqn:Hm.
  - eexists. split; [done|]. split; [case_match; auto|].
    intros Hp. destruct (parent_spec t WF chain c Hch Hp) as (? & _ & _). case_match; [done|lia].
  - unfold strict_add, checked_add. rewrite (proj2 (Z.leb_le _ _)) by done. cbn.
    destruct (lib_known t WF) as (r & Hr & _ & _).
    destruct (walk_back_before_spec (E:=E) t WF c (b_slot l + g) r Hr Hc) as (d1 & -> & _). cbn.
    destruct (walk_back_before_spec (E:=E) t WF chain (b_slot l + g) r Hr Hch) as (d2 & -> & _). cbn.
    eexists. split; [done|]. split; [case_match; auto|].
    intros Hp. assert (ancestor t c l) as Hcl.
    { destruct Hl as (_ & _ & Hl). apply Hl; [apply ancestor_refl|by apply ancestor_parent]. }
    destruct (ancestor_known t WF c l Hkl Hcl) as (_ & ? & _). lia.
Qed.

(** After a header was added, fork choice selects a tip. *)
Lemma fork_choice_tip {E} (c : Cryptarchia Id) t' p nb : wf_engine c → wf_tree t' → extends (tree c) t' p nb →
  (state c = Bootstrapping → ∀ b, known t' b → slot_room (era_schedule c) (b_slot b)) →
  ∃ local', fork_choice (E:=E) (set_tree c t') = Ok local' ∧ is_tip t' local'.
Proof.
  intros [WF [Hl Ht] WE] WF' X Hroom.
  assert (known t' (local_chain c)) as Hl' by (apply (ext_known_iff _ _ _ _ WF X); by right).
  destruct (tip_branches_spec (E:=E) t' WF') as (forks & Hforks & Htips & _).
  assert (∃ local', fork_choice (E:=E) (set_tree c t') = Ok local' ∧
    (local' ∈ forks ∨ local' = local_chain c ∧ ∀ b, b ∈ forks → parent t' b ≠ Some (local_chain c)))
    as (local' & Hfc & Hor).
  { unfold fork_choice, maxvalid_bg, maxvalid_mc. cbn [state set_tree tree local_chain era_schedule].
    destruct (state c); rewrite Hforks; apply (fold_selects t'); try done.
    - by apply bg_selects; auto.
    - intros b Hb. by apply Htips in Hb as [? _].
    - apply (mc_selects t' _ (k_of (era_schedule c))); [done|by apply k_at_of|].
      intros slot. by destruct (k_of_bounds (era_schedule c) slot WE).
    - intros b Hb. by apply Htips in Hb as [? _]. }
  exists local'. split; [done|]. destruct Hor as [Hin|[-> Hn]]; [by apply Htips|].
  split; [done|]. rewrite (ext_tips _ _ _ _ X). apply elem_of_union. right.
  apply elem_of_difference. split; [done|]. rewrite elem_of_singleton. intros Eid.
  apply (Hn nb); [apply Htips; by apply (ext_nb_tip _ _ p nb WF X)|].
  rewrite (ext_parent_new _ _ p nb WF X). f_equal.
  apply (known_id_inj _ WF); [by apply (ext_known _ _ _ _ X)|done|done].
Qed.

(** ** The canonical change *)

Lemma walk_back_elem {E} t b a l : wf_tree t → known t b → ancestor t a b →
  walk_back_to_block (E:=E) t b (b_id a) = Ok l →
  ∀ id, id ∈ l ↔ ∃ x, b_id x = id ∧ ancestor t x b ∧ ¬ ancestor t x a.
Proof.
  intros WF Hb Ha Hw id. rewrite (walk_back_to_block_spec t WF b a Hb Ha) in Hw. simplify_eq.
  destruct (ancestor_known t WF a b Hb Ha) as (Hka & _ & _).
  rewrite list_elem_of_fmap. setoid_rewrite (chain_elem_iff t WF b a); [|done|done].
  split; intros (x & Hid & Hx).
  - exists x. destruct Hx as [Hx Hlt]. repeat split; try done. intros Hxa.
    destruct (ancestor_known t WF x a Hka Hxa) as (_ & ? & _). lia.
  - exists x. destruct Hx as [Hx Hn]. repeat split; try done.
    destruct (Z.lt_ge_cases (b_length a) (b_length x)) as [|Hge]; [done|].
    destruct Hn. apply (ancestor_linear t WF x a b); done || lia.
Qed.

(** The reorged blocks are those of the old chain that are not on the new one,
    the newly canonical ones those of the new chain that are not on the old. *)
Lemma canonical_change_spec {E} t old new : wf_tree t → known t old → known t new →
  ∃ reorged adopted, canonical_change (E:=E) t old new = Ok (reorged, adopted) ∧
    (∀ id, id ∈ reorged ↔ ∃ x, b_id x = id ∧ ancestor t x old ∧ ¬ ancestor t x new) ∧
    (∀ id, id ∈ adopted ↔ ∃ x, b_id x = id ∧ ancestor t x new ∧ ¬ ancestor t x old).
Proof.
  intros WF Ho Hn. unfold canonical_change. case_decide as Hd.
  { rewrite (known_id_inj t WF new old Hn Ho Hd). exists [], []. split; [done|].
    setoid_rewrite elem_of_nil. naive_solver. }
  destruct (lca_spec (E:=E) t WF old new Ho Hn) as (l & -> & Hl1 & Hl2 & Hl3). cbn.
  rewrite !(walk_back_to_block_spec t WF) by done. cbn. eexists _, _. split; [done|].
  assert (∀ b, known t b → ancestor t l b → walk_back_to_block (E:=E) t b (b_id l)
    = Ok (b_id <$> chain t (Z.to_nat (b_length b - b_length l)) b)) as Hw
    by (intros; by apply (walk_back_to_block_spec t WF)).
  split; intros id; rewrite ?elem_of_reverse.
  - rewrite (walk_back_elem (E:=E) t old l _ WF Ho Hl1 (Hw _ Ho Hl1)).
    split; intros (x & Hid & Hx & Hnx); exists x; (do 2 (split; [done|])); intros Hx'; apply Hnx;
    [by apply Hl3|by eapply ancestor_trans].
  - rewrite (walk_back_elem (E:=E) t new l _ WF Hn Hl2 (Hw _ Hn Hl2)).
    split; intros (x & Hid & Hx & Hnx); exists x; (do 2 (split; [done|])); intros Hx'; apply Hnx;
    [by apply Hl3|by eapply ancestor_trans].
Qed.

End ForkChoiceTip.

(** ** Reception of a block *)

Section Receive.
Context {Id : Type} `{Countable Id}.
Implicit Types (t : Branches Id) (b : Branch Id) (c : Cryptarchia Id).

(** What a caller guarantees of a block: a new id, a machine-size slot, room
    for the density window while bootstrapping, and room for the height. *)
Record acceptable c (id : Id) (slot : Z) : Prop := {
  acc_fresh : fresh (tree c) id;
  acc_slot : in_u64 slot;
  acc_room : state c = Bootstrapping →
    slot_room (era_schedule c) slot ∧ ∀ b, known (tree c) b → slot_room (era_schedule c) (b_slot b);
  acc_height : ∀ b, known (tree c) b → b_length b < u64_max
}.

(** The course of a successful reception: the tree [t1] with the new block on
    [p], the selected chain, the new LIB [L]. *)
Record received {order : SetOrder Id} c id par slot uncles c' out
    (t1 : Branches Id) (p nb L : Branch Id) : Prop := {
  rc_header : apply_header (tree c) id par slot uncles = Ok t1;
  rc_extends : extends (tree c) t1 p nb;
  rc_new : b_id nb = id ∧ b_parent nb = par ∧ b_slot nb = slot ∧ b_uncle_slots nb = uncles;
  rc_wf : wf_tree t1;
  rc_choice : fork_choice (E:=Error Id) (set_tree c t1) = Ok (local_chain c');
  rc_tip : is_tip t1 (local_chain c');
  rc_lib : known t1 L ∧ ancestor t1 L (local_chain c');
  rc_rule : match state c with
            | Bootstrapping => b_id L = lib (tree c)
            | Online => is_lib t1 (k_of (era_schedule c)) (local_chain c') L
            end;
  rc_pruned : pruned_at t1 L (tree c') (pruned_blocks out);
  rc_change : canonical_change (E:=Error Id) t1 (local_chain c) (local_chain c')
              = Ok (reorged_blocks out, newly_canonical_blocks out);
  rc_same : era_schedule c' = era_schedule c ∧ state c' = state c
}.

Lemma receive_unfold {order : SetOrder Id} c id par slot uncles p :
  wf_engine c → acceptable c id slot → branches (tree c) !! par = Some p → b_slot p <= slot →
  ∃ c' out t1 nb L,
    receive_block_with_canonical_change c id par slot uncles = Ok (c', out) ∧
    received c id par slot uncles c' out t1 p nb L.
Proof.
  intros WE [Hfr Hslot Hroom Hht] Hp Hle. pose proof WE as [WF [Hl Ht] WEr].
  pose proof (wf_id _ WF _ _ Hp) as Ep.
  assert (known (tree c) p) as Hkp by (unfold known; by rewrite Ep).
  set (nb := mkBranch id par slot (b_length p + 1) uncles).
  set (t1 := mkBranches (<[id := nb]> (branches (tree c))) ({[id]} ∪ (tips (tree c) ∖ {[par]})) (lib (tree c))).
  assert (apply_header (tree c) id par slot uncles = Ok t1) as Hah.
  { unfold apply_header. rewrite Hp. cbn. rewrite (proj2 (Z.ltb_ge _ _)) by done. cbn.
    unfold checked_add. specialize (Hht p Hkp). by rewrite (proj2 (Z.leb_le _ _)) by lia. }
  assert (extends (tree c) t1 p nb) as X by (constructor; cbn; congruence || done || lia).
  assert (wf_tree t1) as WF1.
  { apply (extends_wf _ _ _ _ WF X); [done|]. specialize (Hht p Hkp). cbn. lia. }
  destruct (fork_choice_tip (E:=Error Id) c t1 p nb WE WF1 X) as (local' & Hfc & Htip).
  { intros Hb. destruct (Hroom Hb) as [? ?]. intros b [->|?]%(ext_known_iff _ _ _ _ WF X); auto. }
  pose proof Htip as [Hkl _].
  set (c2 := mkCryptarchia local' t1 (era_schedule c) (state c)).
  assert (wf_engine c2) as WE2 by (by constructor).
  destruct (canonical_change_spec (E:=Error Id) t1 (local_chain c) local' WF1) as (ro & ad & Hcc & _ & _).
  { apply (ext_known_iff _ _ _ _ WF X). by right. }
  { done. }
  destruct (update_lib_spec (E:=Error Id) c2 WE2) as (L & c' & pr & Hul & HkL & HaL & Hrule & Hpr & El & Ee & Es).
  exists c', (mkOutcome pr ro ad), t1, nb, L. split.
  - unfold receive_block_with_canonical_change. rewrite Hah. cbn. rewrite Hfc. cbn. rewrite Hcc. cbn.
    fold c2. by rewrite Hul.
  - cbn in El. constructor; cbn; rewrite ?El; done.
Qed.

Lemma received_wf {order : SetOrder Id} c id par slot uncles c' out t1 p nb L :
  wf_engine c → received c id par slot uncles c' out t1 p nb L → wf_engine c'.
Proof.
  intros WE [_ X _ WF1 _ Htip [HkL HaL] _ [S _ _ _] _ [Ee _]]. constructor.
  - by apply (subtree_wf t1 WF1 L HkL).
  - by apply (subtree_tip t1 L).
  - rewrite Ee. apply (inv_eras c WE).
Qed.

(** C9: on a well-formed engine, receiving a block that is not known yet, at a slot
    and a height that leave room below the maximum of their width ([acceptable]),
    never panics. It fails exactly when the parent is unknown or is in a later slot,
    and otherwise yields a well-formed engine. *)
Theorem receive_block_total {order : SetOrder Id} c id par slot uncles :
  wf_engine c → acceptable c id slot →
  match branches (tree c) !! par with
  | None => receive_block_with_canonical_change c id par slot uncles = Err (ParentMissing par)
  | Some p =>
      if decide (slot < b_slot p)
      then receive_block_with_canonical_change c id par slot uncles = Err (InvalidSlot par)
      else ∃ c' out, receive_block_with_canonical_change c id par slot uncles = Ok (c', out) ∧
             wf_engine c'
  end.
Proof.
  intros WE HA. destruct (branches (tree c) !! par) as [p|] eqn:Hp.
  - case_decide as Hd.
    + unfold receive_block_with_canonical_change, apply_header. rewrite Hp. cbn.
      by rewrite (proj2 (Z.ltb_lt _ _)) by done.
    + destruct (receive_unfold c id par slot uncles p WE HA Hp) as (c' & out & t1 & nb & L & Hok & HR); [lia|].
      exists c', out. split; [done|]. by eapply received_wf.
  - unfold receive_block_with_canonical_change, apply_header. by rewrite Hp.
Qed.

(** Every successful reception took the course [received] describes. *)
Lemma receive_inv {order : SetOrder Id} c id par slot uncles c' out :
  wf_engine c → acceptable c id slot →
  receive_block_with_canonical_change c id par slot uncles = Ok (c', out) →
  ∃ t1 p nb L, received c id par slot uncles c' out t1 p nb L.
Proof.
  intros WE HA Hok.
  destruct (branches (tree c) !! par) as [p|] eqn:Hp.
  2:{ unfold receive_block_with_canonical_change, apply_header in Hok. by rewrite Hp in Hok. }
  destruct (Z.lt_ge_cases slot (b_slot p)) as [Hlt|Hge].
  { unfold receive_block_with_canonical_change, apply_header in Hok. rewrite Hp in Hok. cbn in Hok.
    by rewrite (proj2 (Z.ltb_lt _ _)) in Hok. }
  destruct (receive_unfold c id par slot uncles p WE HA Hp Hge) as (c1 & out1 & t1 & nb & L & Hok1 & HR).
  rewrite Hok in Hok1. simplify_eq. eauto.
Qed.

Lemma receive_wf {order : SetOrder Id} c id par slot uncles c' out :
  wf_engine c → acceptable c id slot →
  receive_block_with_canonical_change c id par slot uncles = Ok (c', out) → wf_engine c'.
Proof.
  intros WE HA Hok. destruct (receive_inv c id par slot uncles c' out WE HA Hok) as (t1 & p & nb & L & HR).
  by eapply received_wf.
Qed.

(** C8: finality. A reception keeps the old LIB on the chain: it is an
    ancestor of the new LIB, which is an ancestor of the new local chain; online
    the new LIB is within the security parameter of its era from the tip, and
    everything below it is deeper than that. *)
Theorem receive_block_finality {order : SetOrder Id} c id par slot uncles c' out :
  wf_engine c → acceptable c id slot →
  receive_block_with_canonical_change c id par slot uncles = Ok (c', out) →
  ∃ t1 old new, apply_header (tree c) id par slot uncles = Ok t1 ∧
    branches (tree c) !! lib (tree c) = Some old ∧ branches (tree c') !! lib (tree c') = Some new ∧
    ancestor t1 old new ∧ ancestor t1 new (local_chain c') ∧
    (state c = Online → is_lib t1 (k_of (era_schedule c)) (local_chain c') new).
Proof.
  intros WE HA Hok.
  destruct (receive_inv c id par slot uncles c' out WE HA Hok)
    as (t1 & p & nb & L & [Hah X _ WF1 _ _ [HkL HaL] Hrule Hpr _ _]).
  pose proof (inv_tree c WE) as WF. destruct (lib_known (tree c) WF) as (r & Hr & Er & Hkr).
  exists t1, r, L. split; [done|]. split; [done|]. pose proof Hpr as [S _ _ _].
  split; [rewrite (sub_lib _ _ _ S); apply (sub_branches _ _ _ S); split; [done|apply ancestor_refl]|].
  split; [|split; [done|intros Hon; by rewrite Hon in Hrule]].
  apply (lib_ancestor t1 WF1); [|done]. rewrite (ext_lib _ _ _ _ X), <- Er.
  apply (ext_known_iff _ _ _ _ WF X). by right.
Qed.

(** Slots increase strictly along chains. *)
Definition strict_slots t : Prop := ∀ b q, known t b → parent t b = Some q → b_slot q < b_slot b.

Lemma strict_ancestor t x y : wf_tree t → strict_slots t → ancestor t x y → known t y → x ≠ y → b_slot x < b_slot y.
Proof.
  intros WF Hs [n Hn]. revert y Hn. induction n as [|n IH]; intros y Hn Hy Hxy; cbn in Hn; [congruence|].
  destruct (parent t y) as [q|] eqn:Hq; [|done]. cbn in Hn.
  pose proof (Hs y q Hy Hq). destruct (parent_known t WF y q Hq) as [Hkq _].
  destruct (decide (x = q)) as [->|]; [done|]. pose proof (IH q Hn Hkq). naive_solver lia.
Qed.

(** Then the immutable blocks that a pruning reports by slot are all there are. *)
Lemma pruned_immutable t L u p : wf_tree t → known t L → strict_slots t → pruned_at t L u p →
  ∀ s i, immutable_blocks p !! s = Some i ↔ ∃ b, ancestor t b L ∧ b ≠ L ∧ b_slot b = s ∧ b_id b = i.
Proof.
  intros WF HkL Hstrict [_ _ Him Hall] s i. split; [apply Him|]. intros (b & Hb & Hne & <- & <-). apply Hall; [done|done|].
  intros a Ha _ Hs. destruct (ancestor_known t WF a L HkL Ha) as (Hka & _ & _).
  destruct (ancestor_known t WF b L HkL Hb) as (Hkb & _ & _).
  destruct (decide (a = b)) as [->|Hab]; [done|exfalso].
  destruct (Z.le_ge_cases (b_length a) (b_length b)).
  - pose proof (strict_ancestor t a b WF Hstrict (ancestor_linear t WF a b L HkL Ha Hb ltac:(lia)) Hkb Hab). lia.
  - pose proof (strict_ancestor t b a WF Hstrict (ancestor_linear t WF b a L HkL Hb Ha ltac:(lia)) Hka ltac:(congruence)). lia.
Qed.

(** C10: the reception of a block that is not known yet, at a slot and a height that
    leave room ([acceptable]), prunes exactly. What remains is the subtree of the new
    LIB, and the stale blocks reported are the known blocks neither above nor below
    it. The immutable blocks reported by slot are blocks below it, each that is alone
    in its slot among them. The engine accepts a child in the slot of its parent, and
    of such blocks one is reported; when slots increase strictly along chains, as the
    ledger enforces, all blocks below the LIB are. *)
Theorem receive_block_prunes {order : SetOrder Id} c id par slot uncles c' out t1 L :
  wf_engine c → acceptable c id slot →
  apply_header (tree c) id par slot uncles = Ok t1 →
  receive_block_with_canonical_change c id par slot uncles = Ok (c', out) →
  branches (tree c') !! lib (tree c') = Some L →
  (∀ b, known (tree c') b ↔ known t1 b ∧ ancestor t1 L b) ∧
  (∀ i, i ∈ stale_blocks (pruned_blocks out) ↔
     ∃ b, branches t1 !! i = Some b ∧ ¬ ancestor t1 L b ∧ ¬ ancestor t1 b L) ∧
  (∀ s i, immutable_blocks (pruned_blocks out) !! s = Some i →
     ∃ b, ancestor t1 b L ∧ b ≠ L ∧ b_slot b = s ∧ b_id b = i) ∧
  (∀ b, ancestor t1 b L → b ≠ L → (∀ a, ancestor t1 a L → a ≠ L → b_slot a = b_slot b → a = b) →
     immutable_blocks (pruned_blocks out) !! b_slot b = Some (b_id b)) ∧
  (strict_slots t1 → ∀ s i, immutable_blocks (pruned_blocks out) !! s = Some i ↔
     ∃ b, ancestor t1 b L ∧ b ≠ L ∧ b_slot b = s ∧ b_id b = i).
Proof.
  intros WE HA Hah Hok HL.
  destruct (receive_inv c id par slot uncles c' out WE HA Hok)
    as (t1' & p & nb & L' & [Hah' X _ WF1 _ _ [HkL HaL] _ Hpr _ _]).
  assert (t1' = t1) as -> by congruence. pose proof Hpr as [S Hst Him Hall].
  assert (L' = L) as ->.
  { rewrite (sub_lib _ _ _ S) in HL. apply (sub_branches _ _ _ S) in HL as [HL _].
    unfold known in HkL. congruence. }
  split_and!; [intros b; by apply (sub_known _ _ _ _ S)|done..|]. intros Hstrict. by apply (pruned_immutable t1 L (tree c')).
Qed.

(** The canonical change a reception reports is the difference of the two
    chains: the reorged blocks are those of the old local chain off the new one,
    the newly canonical blocks those of the new local chain off the old one. *)
Theorem receive_block_canonical_change {order : SetOrder Id} c id par slot uncles c' out t1 :
  wf_engine c → acceptable c id slot →
  apply_header (tree c) id par slot uncles = Ok t1 →
  receive_block_with_canonical_change c id par slot uncles = Ok (c', out) →
  (∀ i, i ∈ reorged_blocks out ↔
     ∃ x, b_id x = i ∧ ancestor t1 x (local_chain c) ∧ ¬ ancestor t1 x (local_chain c')) ∧
  (∀ i, i ∈ newly_canonical_blocks out ↔
     ∃ x, b_id x = i ∧ ancestor t1 x (local_chain c') ∧ ¬ ancestor t1 x (local_chain c)).
Proof.
  intros WE HA Hah Hok. pose proof WE as [WF [Hl _] _].
  destruct (receive_inv c id par slot uncles c' out WE HA Hok)
    as (t1' & p & nb & L & [Hah' X _ WF1 _ [Hl' _] _ _ _ Hcc _]).
  assert (t1' = t1) as -> by congruence.
  destruct (canonical_change_spec (E:=Error Id) t1 (local_chain c) (local_chain c') WF1)
    as (ro & ad & Hcc' & Hro & Had).
  { apply (ext_known_iff _ _ _ _ WF X). by right. }
  { done. }
  rewrite Hcc in Hcc'. by simplify_eq.
Qed.

(** ** Stability of the online rule along receptions *)

Definition one_k c (K : Z) : Prop := ∀ v, v ∈ eras (era_schedule c) → security_param (v_parameters v) = K.

Lemma one_k_at {E} c K : wf_engine c → one_k c K →
  ∀ slot, in_u64 slot → k_at (E:=E) (era_schedule c) slot = Ok K.
Proof.
  intros [_ _ WE] HK slot Hs. destruct (at_slot_total (E:=E) (era_schedule c) slot WE Hs) as (v & Hv & _ & -> & ->).
  by rewrite (HK v Hv).
Qed.

Lemma sub_mc_stable t L t' k b : wf_tree t → known t L → subtree t L t' → known t' b →
  mc_stable t k b → mc_stable t' k b.
Proof.
  intros WF HL S Hb Hst f [Hkf Hf] (l & Hlca & Hlen).
  pose proof (proj1 (sub_known t L t' f S) Hkf) as [Hkf' _].
  apply (Hst f).
  - split; [done|]. by apply (sub_tips t L t' S) in Hf as [? _].
  - exists l. split; [|done]. by apply (sub_is_lca t WF L HL t' b f l S Hb Hkf).
Qed.

Lemma is_lib_unique t k local L1 L2 : wf_tree t → known t local →
  is_lib t k local L1 → is_lib t k local L2 → L1 = L2.
Proof.
  intros WF Hl [A1 W1 D1] [A2 W2 D2]. destruct (decide (L1 = L2)) as [|Hne]; [done|exfalso].
  destruct (Z.le_ge_cases (b_length L1) (b_length L2)) as [Hle|Hle].
  - assert (ancestor t L1 L2) as Ha by (by apply (ancestor_linear t WF L1 L2 local)).
    specialize (D2 L1 Ha Hne). lia.
  - assert (ancestor t L2 L1) as Ha by (by apply (ancestor_linear t WF L2 L1 local)).
    specialize (D1 L2 Ha ltac:(congruence)). lia.
Qed.

Lemma subtree_unique t L u1 u2 : wf_tree t → subtree t L u1 → subtree t L u2 → u1 = u2.
Proof.
  intros WF [B1 T1 K1 L1] [B2 T2 K2 L2]. destruct u1 as [bs1 ts1 l1], u2 as [bs2 ts2 l2]; cbn in *.
  f_equal; [| |congruence].
  - apply map_eq. intros i. apply option_eq. intros b. by rewrite B1, B2.
  - apply set_eq. intros i. split; intros Hi.
    + destruct (K1 i Hi) as [b Hb]. pose proof (wf_id t WF i b Hb) as <-. apply T2; [done|]. by apply T1.
    + destruct (K2 i Hi) as [b Hb]. pose proof (wf_id t WF i b Hb) as <-. apply T1; [done|]. by apply T2.
Qed.

(** Online and under one security parameter, a chain that no tip beats
    stays so through every reception, and the result of the reception does not
    depend on the order in which the node visits its tips. *)
Theorem receive_block_deterministic (o1 o2 : SetOrder Id) c id par slot uncles K c1 out1 c2 out2 :
  wf_engine c → acceptable c id slot → state c = Online → one_k c K →
  mc_stable (tree c) (λ _, K) (local_chain c) →
  receive_block_with_canonical_change (order:=o1) c id par slot uncles = Ok (c1, out1) →
  receive_block_with_canonical_change (order:=o2) c id par slot uncles = Ok (c2, out2) →
  c1 = c2 ∧ mc_stable (tree c1) (λ _, K) (local_chain c1) ∧
  reorged_blocks out1 = reorged_blocks out2 ∧
  newly_canonical_blocks out1 = newly_canonical_blocks out2 ∧
  stale_blocks (pruned_blocks out1) = stale_blocks (pruned_blocks out2).
Proof.
  intros WE HA Hon HK Hst H1 H2. pose proof WE as [WF [Hl _] WEr].
  destruct (receive_inv (order:=o1) c id par slot uncles c1 out1 WE HA H1)
    as (t1 & p & nb & L1 & [Ha1 X _ WF1 Hf1 Ht1 [HkL1 HaL1] Hr1 [S1 St1 _ _] Hc1 [Ee1 Es1]]).
  destruct (receive_inv (order:=o2) c id par slot uncles c2 out2 WE HA H2)
    as (t2 & p2 & nb2 & L2 & [Ha2 _ _ _ Hf2 Ht2 [HkL2 HaL2] Hr2 [S2 St2 _ _] Hc2 [Ee2 Es2]]).
  assert (t2 = t1) as -> by congruence. rewrite Hon in *.
  unfold fork_choice in Hf1, Hf2. cbn [state set_tree local_chain tree era_schedule] in Hf1, Hf2.
  rewrite Hon in Hf1, Hf2.
  pose proof (one_k_at (E:=Error Id) c K WE HK) as Hk.
  assert (local_chain c1 = local_chain c2) as El.
  { destruct (mc_after_extend (order:=o1) (tree c) t1 p nb (k_at (E:=Error Id) (era_schedule c)) K (local_chain c))
      as [[E1 ?]|[E1 ?]]; try done;
    destruct (mc_after_extend (order:=o2) (tree c) t1 p nb (k_at (E:=Error Id) (era_schedule c)) K (local_chain c))
      as [[E2 ?]|[E2 ?]]; congruence || done. }
  assert (known t1 (local_chain c)) as Hl1 by (apply (ext_known_iff _ _ _ _ WF X); by right).
  destruct (maxvalid_mc_stable (order:=o1) t1 _ K (local_chain c) _ WF1 Hl1 Hk Hf1) as [Hkl' Hst1].
  rewrite <- El in *. assert (L2 = L1) as -> by (by eapply is_lib_unique).
  assert (tree c1 = tree c2) as Et by (by eapply subtree_unique).
  split; [destruct c1, c2; cbn in *; congruence|].
  split; [eapply (sub_mc_stable t1 L1); try done; by apply (sub_known t1 L1)|].
  rewrite Hc1 in Hc2. simplify_eq. do 2 (split; [done|]).
  apply set_eq. intros i. by rewrite St1, St2.
Qed.

End Receive.

(** ** Reachable engines *)

Section Reachable.
Context {Id : Type} `{Countable Id} {order : SetOrder Id}.
Implicit Types (t : Branches Id) (b : Branch Id) (c : Cryptarchia Id).

(** The states a node goes through: from a LIB (genesis, or the one it stored),
    by receiving blocks and by going online. *)
Inductive reachable : Cryptarchia Id → Prop :=
  | reach_start id par s st slot length uncles :
      wf_eras s → in_u64 slot → in_u64 length →
      reachable (cryptarchia_from_lib id par s st slot length uncles)
  | reach_receive c id par slot uncles c' out :
      reachable c → acceptable c id slot →
      receive_block_with_canonical_change c id par slot uncles = Ok (c', out) → reachable c'
  | reach_online c c' p :
      reachable c → online (E:=Error Id) c = Ok (c', p) → reachable c'.

Lemma from_lib_wf (id par : Id) slot length uncles : in_u64 slot → in_u64 length →
  wf_tree (from_lib id par slot length uncles).
Proof.
  intros Hs Hl. set (r := mkBranch id par slot length uncles).
  assert (∀ i b, branches (from_lib id par slot length uncles) !! i = Some b → i = id ∧ b = r) as Hb
    by (intros i b Hi; unfold from_lib in Hi; cbn [branches] in Hi;
        by apply lookup_singleton_Some in Hi as [<- <-]).
  assert (branches (from_lib id par slot length uncles) !! id = Some r) as Hr by apply lookup_singleton_eq.
  constructor.
  - intros i b Hi. by destruct (Hb i b Hi) as [-> ->].
  - by exists r.
  - intros b Hi. destruct (Hb _ _ Hi) as [_ ->]. unfold parent. case_decide as Hd; [done|].
    destruct (branches _ !! b_parent r) as [q|] eqn:Hq; [|done].
    by destruct (Hb _ _ Hq) as [Hq' _].
  - intros b Hi. destruct (Hb _ _ Hi) as [_ ->]. done.
  - intros b Hi. by destruct (Hb _ _ Hi) as [_ ->].
  - intros b Hi. by destruct (Hb _ _ Hi) as [_ ->].
  - intros i. cbn. rewrite elem_of_singleton. split.
    + intros ->. split; [by exists r|]. intros b Hi. by destruct (Hb _ _ Hi) as [_ ->].
    + intros [[b Hi] _]. by destruct (Hb _ _ Hi).
Qed.

Lemma online_spec {E} c : wf_engine c → ∃ c' p L, online (E:=E) c = Ok (c', p) ∧ wf_engine c' ∧
  state c' = Online ∧ local_chain c' = local_chain c ∧
  is_lib (tree c) (k_of (era_schedule c)) (local_chain c) L ∧ pruned_at (tree c) L (tree c') p.
Proof.
  intros [WF Ht WE]. unfold online. set (c1 := mkCryptarchia _ _ _ Online).
  assert (wf_engine c1) as WE1 by (by constructor).
  destruct (update_lib_spec (E:=E) c1 WE1) as (L & c' & p & -> & HkL & HaL & HI & Hp & El & Ee & Es).
  exists c', p, L. split; [done|]. split; [|done].
  pose proof (pa_subtree _ _ _ _ Hp) as S. constructor; [|rewrite El|by rewrite Ee].
  - by apply (subtree_wf (tree c1) WF L HkL).
  - by apply (subtree_tip (tree c1) L).
Qed.

Lemma start_wf id par s st slot length uncles : wf_eras s → in_u64 slot → in_u64 length →
  wf_engine (cryptarchia_from_lib (Id:=Id) id par s st slot length uncles).
Proof.
  intros WE Hs Hl. constructor; [by apply from_lib_wf| |done].
  split; cbn; [apply lookup_singleton_eq|set_solver].
Qed.

(** C15: every reachable engine is well formed: the LIB is the root of the tree,
    heights grow by one and slots do not decrease along parents, the tips are
    the leaves, and the local chain ends at a tip. *)
Theorem reachable_wf c : reachable c → wf_engine c.
Proof.
  induction 1 as [id par s st slot length uncles WE Hs Hl|c id par slot uncles c' out _ IH HA Hok
                 |c c' p _ IH Hok].
  - by apply start_wf.
  - by eapply receive_wf.
  - destruct (online_spec (E:=Error Id) c IH) as (c1 & p1 & L & Hok1 & WE & _).
    rewrite Hok in Hok1. by simplify_eq.
Qed.

(** Going online never panics; it moves the LIB up the local chain to the
    block the online rule selects and leaves exactly its descendants. *)
Theorem online_total {E} c : wf_engine c →
  ∃ c' p L, online (E:=E) c = Ok (c', p) ∧ wf_engine c' ∧ state c' = Online ∧
    is_lib (tree c) (k_of (era_schedule c)) (local_chain c) L ∧ lib (tree c') = b_id L ∧
    (∀ b, known (tree c') b ↔ known (tree c) b ∧ ancestor (tree c) L b) ∧
    (∀ i, i ∈ stale_blocks p ↔
       ∃ b, branches (tree c) !! i = Some b ∧ ¬ ancestor (tree c) L b ∧ ¬ ancestor (tree c) b L).
Proof.
  intros WE. destruct (online_spec (E:=E) c WE) as (c' & p & L & Hok & WE' & Hon & _ & HI & [S Hst _ _]).
  exists c', p, L. do 4 (split; [done|]). split; [apply (sub_lib _ _ _ S)|].
  split; [intros b; by apply (sub_known _ _ _ _ S)|done].
Qed.

End Reachable.

(** ** The bootstrapping rule measures density *)

Section Density.
Context {Id : Type} `{Countable Id}.
Implicit Types (t : Branches Id) (b c : Branch Id).

(** The blocks of the chain of [x] above [l] with a slot up to [w]. *)
Definition density t (x l : Branch Id) (w : Z) : nat :=
  length (filter (λ b, b_slot b <= w) (chain t (Z.to_nat (b_length x - b_length l)) x)).

Lemma chain_full_length t x l : wf_tree t → known t x → ancestor t l x →
  Z.of_nat (length (chain t (Z.to_nat (b_length x - b_length l)) x)) = b_length x - b_length l.
Proof.
  intros WF Hx [[|n] Hn].
  - cbn in Hn. simplify_eq. by rewrite Z.sub_diag.
  - destruct (up_known t WF (S n) x l Hx Hn) as (_ & El & _).
    replace (Z.to_nat (b_length x - b_length l)) with (S n) by lia.
    replace (S n) with (n + 1)%nat in Hn by lia. rewrite up_add in Hn.
    destruct (up t n x) as [y|] eqn:Hy; [|done]. rewrite (chain_length t n x y Hy). lia.
Qed.

Lemma density_walk t x l d w : wf_tree t → known t x → ancestor t l x → b_slot l <= w →
  ancestor t d x → b_slot d <= w → (∀ a, ancestor t a x → b_slot a <= w → ancestor t a d) →
  Z.of_nat (density t x l w) = b_length d - b_length l.
Proof.
  intros WF Hx Hl Hw Hd Hdw Hmax. destruct (ancestor_known t WF d x Hx Hd) as (Hkd & _ & _).
  pose proof (Hmax l Hl Hw) as Hld.
  rewrite <- (chain_full_length t d l WF Hkd Hld). f_equal. unfold density.
  destruct Hd as [n Hn]. revert x Hx Hl Hn Hmax. induction n as [|n IH]; intros x Hx Hl Hn Hmax; cbn in Hn.
  - simplify_eq. f_equal. apply list_filter_all. rewrite Forall_forall. intros b Hb.
    apply (chain_elem_iff t WF d l b Hx Hl) in Hb as [Hb _].
    destruct (ancestor_known t WF b d Hx Hb) as (_ & _ & ?). lia.
  - destruct (parent t x) as [p|] eqn:Hp; [|done]. cbn in Hn.
    destruct (parent_known t WF x p Hp) as [Hkp _].
    destruct (parent_spec t WF x p Hx Hp) as (Hlen & _ & _).
    destruct (up_known t WF n p d Hkp Hn) as (_ & Ed & _).
    destruct (ancestor_known t WF l d Hkd Hld) as (_ & ? & _).
    assert (¬ b_slot x <= w).
    { intros Hle. destruct (ancestor_known t WF x d Hkd (Hmax x (ancestor_refl t x) Hle)) as (_ & ? & _). lia. }
    replace (Z.to_nat (b_length x - b_length l)) with (S (Z.to_nat (b_length p - b_length l))) by lia.
    cbn [chain]. rewrite Hp, filter_cons_False by done.
    apply IH; [done| |done|].
    + destruct (ancestor_inv t l x Hl) as [->|(q & ? & ?)]; [lia|by simplify_eq].
    + intros a Ha. apply Hmax. eapply ancestor_trans; [done|by apply ancestor_parent].
Qed.

(** While bootstrapping, a fork that leaves the current chain within the
    security parameter wins by length; a deeper one wins only by having more
    blocks than the current chain in the density window after the fork. *)
Theorem bg_step_density {E} t (params_at : Z → result E (Z * Z)) c fork l k s :
  wf_tree t → known t c → known t fork → is_lca t c fork l →
  params_at (b_slot l) = Ok (k, s) → 0 <= s → b_slot l + s <= u64_max →
  bg_step t params_at c fork =
    Ok (if decide (b_length c - b_length l <= k)
        then if decide (b_length c < b_length fork) then fork else c
        else if decide (density t c l (b_slot l + s) < density t fork l (b_slot l + s))%nat
             then fork else c).
Proof.
  intros WF Hc Hf Hl Hpar Hs Hroom. unfold bg_step.
  destruct (lca_spec (E:=E) t WF c fork Hc Hf) as (l' & -> & Hl'). cbn.
  rewrite (is_lca_unique t WF c fork l' l Hc Hl' Hl), Hpar. cbn.
  destruct Hl as (Hl1 & Hl2 & _). destruct (ancestor_known t WF l c Hc Hl1) as (Hkl & Hle & _).
  rewrite (proj2 (strict_sub_ok (E:=E) (b_length c) (b_length l) _)) by done.
  rewrite (proj2 (strict_add_ok (E:=E) u64_max (b_slot l) s _)) by done. cbn [mbind result_bind].
  assert (∀ x, known t x → ancestor t l x → ∃ d, walk_back_before (E:=E) t x (b_slot l + s) = Ok d ∧
    Z.of_nat (density t x l (b_slot l + s)) = b_length d - b_length l) as Hwalk.
  { intros x Hx Hlx. destruct (lib_known t WF) as (r & Hr & _).
    destruct (walk_back_before_spec (E:=E) t WF x (b_slot l + s) r Hr Hx) as (d & Hd & Hdx & Hor & Hmax).
    exists d. split; [done|]. apply density_walk; try done; [lia|]. destruct Hor as [? | ->]; [done|].
    pose proof (lib_ancestor t WF r l Hr Hkl) as Hrl.
    destruct (ancestor_known t WF r l Hkl Hrl) as (_ & _ & ?). lia. }
  destruct (Hwalk c Hc Hl1) as (d1 & -> & D1). cbn.
  destruct (Hwalk fork Hf Hl2) as (d2 & -> & D2). cbn.
  repeat case_decide; repeat case_match; done || lia.
Qed.

End Density.
