(* ===== verification/Uncles.v ===== *)
(** * Uncle selection

    The specification of [Cryptarchia::select_uncles] of
    consensus/cryptarchia-engine/src/lib.rs: which blocks are eligible as uncles
    of a new block, that only eligible blocks are selected, at most one per slot
    and within the era's maximum, and that no eligible slot is left out while
    there is room. *)

From S2P Require Import Prelude BlockTree TreeWalks Era EraFacts EngineConfig Engine ForkChoice Pruning EngineInvariant.

#[local] Open Scope Z_scope.

Section Uncles.
Context {Id : Type} `{Countable Id} {order : SetOrder Id}.
Context (t : Branches Id) (WF : wf_tree t) (par : Branch Id) (Hpar : known t par).
Implicit Types (b u a q : Branch Id).

(** The slots taken by the chain of [par] since [ws]. *)
Definition slot_taken (ws s : Z) : Prop :=
  ∃ a, ancestor t a par ∧ ws <= b_slot a ∧ (s = b_slot a ∨ s ∈ b_uncle_slots a).

(** [u] may be an uncle of a block on [par] at [slot], for a window starting at
    [ws] in an era starting at [first]. *)
Definition eligible (slot ws first : Z) u : Prop :=
  known t u ∧ ¬ ancestor t u par ∧ first <= b_slot u < slot ∧ ¬ slot_taken ws (b_slot u) ∧
  ∃ q, parent t u = Some q ∧ ancestor t q par ∧ ws <= b_slot q.

(** The chain still to be walked. *)
Definition ahead (o : option (Branch Id)) a : Prop :=
  match o with None => False | Some b => ancestor t a b end.

Lemma ahead_step b a : ancestor t a b ↔ a = b ∨ ahead (parent t b) a.
Proof.
  split.
  - intros Ha. destruct (ancestor_inv t a b Ha) as [->|(p & Hp & ?)]; [by left|]. right. by rewrite Hp.
  - intros [->|Ha]; [apply ancestor_refl|]. destruct (parent t b) as [p|] eqn:Hp; [|done].
    eapply ancestor_trans; [done|by apply ancestor_parent].
Qed.

Definition walk_room (r : Branch Id) (fuel : nat) (o : option (Branch Id)) : Prop :=
  match o with
  | None => True
  | Some b => known t b ∧ b_length b - b_length r + 1 < Z.of_nat fuel
  end.

Lemma walk_room_parent r fuel b : branches t !! lib t = Some r →
  walk_room r (S fuel) (Some b) → walk_room r fuel (parent t b).
Proof using WF.
  intros Hr [Hb Hf]. destruct (parent t b) as [p|] eqn:Hp; [|done].
  destruct (parent_known t WF b p Hp) as [Hk _].
  destruct (parent_spec t WF b p Hb Hp) as (? & _ & _). split; [done|lia].
Qed.

Lemma walk_room_start r b : branches t !! lib t = Some r → known t b →
  walk_room r (walk_fuel t) (Some b).
Proof using WF. intros Hr Hb. pose proof (height_fuel t WF r b Hr Hb). split; [done|]. unfold walk_fuel. lia. Qed.

Lemma collect_chain_loop_spec {E} ws fuel o anc occ r :
  branches t !! lib t = Some r → walk_room r fuel o →
  ∃ anc' occ', collect_chain_loop (E:=E) fuel t ws o anc occ = Ok (anc', occ') ∧
    (∀ i s, anc' !! i = Some s → anc !! i = Some s ∨
       ∃ a, ahead o a ∧ ws <= b_slot a ∧ b_id a = i ∧ b_slot a = s) ∧
    (∀ i, is_Some (anc !! i) → is_Some (anc' !! i)) ∧
    (∀ a, ahead o a → ws <= b_slot a → is_Some (anc' !! b_id a)) ∧
    (∀ s, s ∈ occ' ↔ s ∈ occ ∨ ∃ a, ahead o a ∧ ws <= b_slot a ∧
       (s = b_slot a ∨ s ∈ b_uncle_slots a ∧ ws <= s)).
Proof using WF.
  intros Hr. revert o anc occ. induction fuel as [|fuel IH]; intros [b|] anc occ Hroom;
    cbn [collect_chain_loop].
  2, 4: exists anc, occ; cbn [ahead]; split_and!; try done; auto; [];
        intros s; split; [by left|by intros [?|(? & ? & ?)]].
  { destruct Hroom as [Hb ?]. pose proof (height_fuel t WF r b Hr Hb). lia. }
  destruct (b_slot b <? ws) eqn:Hs.
  { destruct Hroom as [Hb _]. assert (∀ a, ahead (Some b) a → ¬ ws <= b_slot a) as Hno
      by (intros a Ha; destruct (ancestor_known t WF a b Hb Ha) as (_ & _ & ?); lia).
    exists anc, occ. split_and!; [done|by left|done|by intros a ? ?%Hno|].
    intros s. split; [by left|]. intros [?|(a & ?%Hno & ? & _)]; done. }
  destruct (IH (parent t b) (<[b_id b := b_slot b]> anc)
    (list_to_set (filter (λ v : Z, ws <= v) (b_uncle_slots b)) ∪ ({[b_slot b]} ∪ occ))
    (walk_room_parent r fuel b Hr Hroom)) as (anc' & occ' & -> & Hback & Hkeep & Hall & Hocc).
  exists anc', occ'. split; [done|]. cbn [ahead]. setoid_rewrite ahead_step.
  split; [|split; [|split]].
  - intros i s [Hi|(a & ? & ?)]%Hback; [|right; exists a; naive_solver].
    destruct (decide (i = b_id b)) as [->|NE]; [|left; by rewrite lookup_insert_ne in Hi].
    rewrite lookup_insert_eq in Hi. simplify_eq. right. exists b. naive_solver lia.
  - intros i Hi. apply Hkeep. destruct (decide (i = b_id b)) as [->|NE];
      [rewrite lookup_insert_eq|rewrite lookup_insert_ne by done]; eauto.
  - intros a [->|Ha] Has; [|by apply Hall]. apply Hkeep. rewrite lookup_insert_eq; eauto.
  - intros s. rewrite Hocc, !elem_of_union, elem_of_list_to_set, list_elem_of_filter, elem_of_singleton.
    split.
    + intros [[[? ?]|[->|?]]|(a & ? & ?)]; [right; exists b|right; exists b|by left|right; exists a];
        naive_solver lia.
    + intros [?|(a & [->|Ha] & Hw & Hor)]; [naive_solver|naive_solver|right; by exists a].
Qed.

(** The ancestors and the slots collected for the window are those of the chain. *)
Definition window_of (ws : Z) (anc : gmap Id Z) (occ : gset Z) : Prop :=
  (∀ i s, anc !! i = Some s ↔ ∃ a, ancestor t a par ∧ ws <= b_slot a ∧ b_id a = i ∧ b_slot a = s) ∧
  (∀ s, ws <= s → s ∈ occ ↔ slot_taken ws s).

Lemma collect_chain_spec {E} ws c : tree c = t →
  ∃ anc occ, collect_chain_within_window (E:=E) c par ws = Ok (anc, occ) ∧ window_of ws anc occ.
Proof using WF Hpar.
  intros Et. unfold collect_chain_within_window. rewrite Et.
  destruct (lib_known t WF) as (r & Hr & _).
  destruct (collect_chain_loop_spec (E:=E) ws (walk_fuel t) (Some par) ∅ ∅ r Hr
    (walk_room_start r par Hr Hpar)) as (anc & occ & Hok & Hback & _ & Hall & Hocc).
  exists anc, occ. split; [done|]. cbn in *. split.
  - intros i s. split; [by intros [?|?]%Hback|]. intros (a & Ha & Hs & <- & <-).
    destruct (Hall a Ha Hs) as [s Hi]. destruct (Hback _ _ Hi) as [?|(a' & Ha' & _ & E1 & <-)]; [done|].
    rewrite Hi. destruct (ancestor_known t WF a par Hpar Ha) as (Hk & _).
    destruct (ancestor_known t WF a' par Hpar Ha') as (Hk' & _).
    by rewrite (known_id_inj t WF a' a).
  - intros s Hs. rewrite Hocc. unfold slot_taken. set_solver.
Qed.

(** What the walk over the forks looks for. *)
Definition candidate (slot ws : Z) (anc : gmap Id Z) (occ : gset Z) (ps : Z) u : Prop :=
  ws <= b_slot u < slot ∧ anc !! b_id u = None ∧ anc !! b_parent u = Some ps ∧ b_slot u ∉ occ.

Lemma candidates_loop_spec {E} slot ws anc occ fuel o r : window_of ws anc occ →
  branches t !! lib t = Some r → walk_room r fuel o →
  ∃ l, candidates_loop (E:=E) fuel t slot ws anc occ o = Ok l ∧
    ∀ ps u, (ps, u) ∈ l ↔ ahead o u ∧ candidate slot ws anc occ ps u.
Proof using WF Hpar.
  intros [Hanc _] Hr. revert o. induction fuel as [|fuel IH]; intros [b|] Hroom; cbn [candidates_loop].
  2, 4: exists []; cbn [ahead]; split; [done|]; set_solver.
  { destruct Hroom as [Hb ?]. pose proof (height_fuel t WF r b Hr Hb). lia. }
  destruct ((b_slot b <? ws) || _) eqn:Hs.
  - exists []. split; [done|]. intros ps u. cbn [ahead]. split; [by intros ?%not_elem_of_nil|].
    intros [Hu (Hw & Hn & _)]. exfalso. destruct Hroom as [Hb _].
    destruct (ancestor_known t WF u b Hb Hu) as (_ & _ & ?). apply orb_true_iff in Hs as [Hs|Hs]; [lia|].
    apply bool_decide_eq_true_1 in Hs as [s (a & Ha & _ & Ea & _)%Hanc].
    destruct (ancestor_known t WF a par Hpar Ha) as (Hka & _).
    rewrite (known_id_inj t WF a b Hka Hb Ea) in Ha.
    assert (anc !! b_id u = Some (b_slot u)) by (apply Hanc; exists u; split; [by eapply ancestor_trans|]; split_and!; done || lia).
    congruence.
  - destruct (IH (parent t b) (walk_room_parent r fuel b Hr Hroom)) as (l & -> & Hl). cbn.
    apply orb_false_iff in Hs as [Hs1 Hs2%bool_decide_eq_false_1%eq_None_not_Some].
    eexists. split; [done|]. intros ps u. cbn [ahead]. rewrite ahead_step. unfold candidate in *.
    destruct (anc !! b_parent b) as [s|] eqn:Hps; [destruct (_ && _) eqn:Hc|].
    + apply andb_true_iff in Hc as [? ?%bool_decide_eq_true_1]. rewrite elem_of_cons, Hl. naive_solver lia.
    + apply andb_false_iff in Hc. rewrite bool_decide_eq_false in Hc. rewrite Hl. naive_solver lia.
    + rewrite Hl. naive_solver.
Qed.

Lemma uncle_candidates_spec {E} slot ws anc occ c : tree c = t → window_of ws anc occ →
  ∃ l, uncle_candidates (E:=E) c slot ws anc occ = Ok l ∧
    ∀ ps u, (ps, u) ∈ l ↔ known t u ∧ candidate slot ws anc occ ps u.
Proof using WF Hpar.
  intros Et HW. unfold uncle_candidates. rewrite Et.
  destruct (tip_branches_spec (E:=E) t WF) as (tips & -> & Htips & _). cbn [mbind result_bind].
  destruct (lib_known t WF) as (r & Hr & _).
  destruct (mapM_total (E:=E) (λ b, candidates_loop (walk_fuel t) t slot ws anc occ (Some b))
    (λ b l, ∀ ps u, (ps, u) ∈ l ↔ ancestor t u b ∧ candidate slot ws anc occ ps u) tips)
    as (ls & -> & HF).
  { intros b [Hb _]%Htips. apply (candidates_loop_spec slot ws anc occ _ (Some b) r HW Hr).
    by apply walk_room_start. }
  exists (concat ls). split; [done|]. intros ps u. rewrite list_elem_of_In, in_concat. split.
  - intros (l & Hl%list_elem_of_In & Hin%list_elem_of_In).
    apply list_elem_of_lookup in Hl as [i Hi].
    destruct (Forall2_lookup_r _ _ _ i l HF Hi) as (b & Hb & Hspec).
    destruct (proj1 (Hspec ps u) Hin) as [Ha HC]. split; [|done].
    apply list_elem_of_lookup_2, Htips in Hb as [Hb _]. by destruct (ancestor_known t WF u b Hb Ha).
  - intros [Hu HC]. destruct (tip_above t WF u Hu) as (f & Hf & Ha).
    apply Htips, list_elem_of_lookup in Hf as [i Hi].
    destruct (Forall2_lookup_l _ _ _ i f HF Hi) as (l & Hl & Hspec).
    exists l. rewrite <- !list_elem_of_In. split; [by eapply list_elem_of_lookup_2|by apply Hspec].
Qed.

Lemma candidate_eligible slot ws anc occ u first ps : window_of ws anc occ → known t u → first <= b_slot u →
  candidate slot ws anc occ ps u ↔
  eligible slot ws first u ∧ ∃ q, parent t u = Some q ∧ b_slot q = ps.
Proof using WF Hpar.
  intros [Hanc Hocc] Hu Hfirst. split.
  - intros (Hw & Hn & Hp & Ho). apply Hanc in Hp as (q & Hq & Hws & Eq & <-).
    destruct (ancestor_known t WF q par Hpar Hq) as (Hkq & _).
    assert (¬ ancestor t u par) as Hna.
    { intros Ha. assert (anc !! b_id u = Some (b_slot u)) by (apply Hanc; exists u; naive_solver). congruence. }
    assert (parent t u = Some q) as Hpq.
    { unfold parent. case_decide as Hd.
      - rewrite <- Eq in Hd. by rewrite (known_id_inj t WF q u) in Hq.
      - unfold known in Hkq. by rewrite <- Eq. }
    split; [|by exists q]. split_and!; [done|done|done|lia|by rewrite <- Hocc by lia|by exists q].
  - intros [(_ & Hna & [_ ?] & Ht & q & Hq & Haq & Hws) (q' & Hq' & <-)]. simplify_eq.
    destruct (parent_known t WF u q Hq) as (_ & Eq & _).
    destruct (parent_spec t WF u q Hu Hq) as (_ & ? & _).
    split_and!; [lia|done| |apply Hanc; exists q; naive_solver|rewrite Hocc by lia; done].
    apply eq_None_not_Some. intros [s (a & Ha & _ & Ea & _)%Hanc].
    destruct (ancestor_known t WF a par Hpar Ha) as (Hka & _).
    by rewrite (known_id_inj t WF a u) in Ha.
Qed.

End Uncles.

Section Selection.
Context {Id : Type}.
Implicit Types (l : list (Z * Branch Id)).

Lemma insert_sorted_perm {A} (le : A → A → bool) x (l : list A) : insert_sorted le x l ≡ₚ x :: l.
Proof. induction l as [|y l IH]; cbn; [done|]. case_match; [done|]. rewrite IH. constructor. Qed.

Lemma sort_by_perm {A} (le : A → A → bool) (l : list A) : sort_by le l ≡ₚ l.
Proof. induction l as [|x l IH]; cbn; [done|]. by rewrite insert_sorted_perm, IH. Qed.

Lemma sort_by_parent (id_le : Id → Id → bool) l :
  StronglySorted (λ x y, x.1 <= y.1) (sort_by (uncle_key_le id_le) l).
Proof.
  induction l as [|x l IH]; cbn; [constructor|]. fold (sort_by (uncle_key_le id_le) l).
  induction IH as [|y l' HS IH Hall]; cbn; [by repeat constructor|].
  destruct x as [px ux], y as [py uy]. cbn in *. destruct (px =? py) eqn:E.
  all: case_match; constructor.
  all: try (constructor; done); try done.
  - constructor; [cbn; lia|]. eapply Forall_impl; [done|]. cbn. intros; lia.
  - rewrite insert_sorted_perm. constructor; [cbn; lia|done].
  - constructor; [cbn; lia|]. eapply Forall_impl; [done|]. cbn. intros; lia.
  - rewrite insert_sorted_perm. constructor; [cbn; lia|done].
Qed.

Lemma first_per_slot_spec (seen : gset Z) l : StronglySorted (λ x y, x.1 <= y.1) l →
  NoDup (b_slot <$> first_per_slot seen l) ∧
  (∀ u, u ∈ first_per_slot seen l → b_slot u ∉ seen ∧ u ∈ l.*2) ∧
  (∀ ps u, (ps, u) ∈ l → b_slot u ∈ seen ∨
     ∃ ps' u', (ps', u') ∈ l ∧ u' ∈ first_per_slot seen l ∧ b_slot u' = b_slot u ∧ ps' <= ps).
Proof.
  intros HS. revert seen. induction HS as [|[p v] l HS IH Hall]; intros seen; cbn.
  { split_and!; [constructor|by intros u ?%not_elem_of_nil|by intros ps u ?%not_elem_of_nil]. }
  rewrite Forall_forall in Hall. case_decide as Hd.
  - destruct (IH seen) as (HN & Hin & Hc). split_and!; [done| |].
    + intros u Hu. destruct (Hin u Hu). split; [done|by constructor].
    + intros ps u [?|?]%elem_of_cons; [simplify_eq; by left|]. destruct (Hc ps u) as [?|(ps' & u' & ?)]; [done|by left|].
      right. exists ps', u'. rewrite elem_of_cons. naive_solver.
  - destruct (IH ({[b_slot v]} ∪ seen)) as (HN & Hin & Hc). split_and!.
    + constructor; [|done]. intros (u & Eu & Hu)%list_elem_of_fmap. destruct (Hin u Hu). set_solver.
    + intros u [->|Hu]%elem_of_cons; [split; [done|by constructor]|].
      destruct (Hin u Hu). split; [set_solver|by constructor].
    + intros ps u [?|Hu]%elem_of_cons.
      * simplify_eq. right. exists p, v. split_and!; [by constructor|by constructor|done|lia].
      * destruct (Hc ps u Hu) as [[Es|?]%elem_of_union|(ps' & u' & ? & ? & ?)]; [|by left|].
        -- right. exists p, v. apply elem_of_singleton in Es.
           split_and!; [by constructor|by constructor|done|exact (Hall _ Hu)].
        -- right. exists ps', u'. split_and!; [by constructor|by constructor|naive_solver|naive_solver].
Qed.

End Selection.

Section Select.
Context {Id : Type} `{Countable Id} {order : SetOrder Id}.
Implicit Types (u par : Branch Id).

Lemma take_short {A} (l : list A) n x : x ∈ l → x ∈ take n l ∨ length (take n l) = n.
Proof.
  intros Hx. rewrite length_take. destruct (decide (length l <= n)%nat) as [Hle|]; [left|right; lia].
  by rewrite take_ge.
Qed.

(** What is selected, and what is not. *)
Lemma select_uncles_fits {E} id_le (c : Cryptarchia Id) par slot era w :
  wf_tree (tree c) → known (tree c) par → at_slot (E:=E) (era_schedule c) slot = Ok era →
  uncle_reference_window_in_slot (E:=E) (v_parameters era) = Ok w →
  let fits := eligible (tree c) par slot (Z.max 0 (slot - w)) (v_first_slot era) in
  let max := Z.to_nat (max_uncles (v_parameters era)) in
  ∃ us, select_uncles (E:=E) id_le c par slot = Ok us ∧
    (length us ≤ max)%nat ∧ NoDup (b_slot <$> us) ∧ Forall fits us ∧
    ∀ u p, fits u → parent (tree c) u = Some p → length us = max ∨
      ∃ u' p', u' ∈ us ∧ b_slot u' = b_slot u ∧
        parent (tree c) u' = Some p' ∧ b_slot p' <= b_slot p.
Proof.
  intros WF Hpar Hera Hw fits max. unfold select_uncles. rewrite Hera. cbn [mbind result_bind].
  rewrite Hw. cbn [mbind result_bind]. change (saturating_sub slot w) with (Z.max 0 (slot - w)).
  set (ws := Z.max 0 (slot - w)).
  destruct (collect_chain_spec (E:=E) (tree c) WF par Hpar ws c eq_refl) as (anc & occ & -> & HW).
  cbn [mbind result_bind].
  destruct (uncle_candidates_spec (E:=E) (tree c) WF par Hpar slot ws anc occ c eq_refl HW)
    as (cands & -> & Hc). cbn [mbind result_bind]. fold max.
  set (l := sort_by _ _).
  assert (∀ ps u, (ps, u) ∈ l ↔ fits u ∧ ∃ p, parent (tree c) u = Some p ∧ b_slot p = ps) as Hl.
  { intros ps u. unfold l. rewrite sort_by_perm. rewrite (list_elem_of_filter _ _ (ps, u)), Hc. split.
    - intros (? & Hu & HC). by apply (candidate_eligible (tree c) WF par Hpar slot ws anc occ).
    - intros [Hf Hp]. pose proof Hf as (Hu & _ & [? _] & _). split_and!; [done|done|].
      by apply (candidate_eligible (tree c) WF par Hpar slot ws anc occ u (v_first_slot era) ps). }
  destruct (first_per_slot_spec (∅ : gset Z) l (sort_by_parent _ _)) as (HN & Hin & Hcov).
  eexists. split; [done|]. split_and!.
  - rewrite length_take. lia.
  - rewrite fmap_take. eapply sublist_NoDup; [done|apply sublist_take].
  - apply Forall_forall. intros u Hu. destruct (Hin u) as [_ Hu2]; [eapply elem_of_sublist; [done|apply sublist_take]|].
    by apply list_elem_of_fmap in Hu2 as ([ps v] & -> & [? _]%Hl).
  - intros u p Hu Hp. destruct (Hcov (b_slot p) u) as [?|(ps & u' & Hin' & Hu' & Es & Hle)];
      [apply Hl; eauto|set_solver|].
    destruct (take_short _ max u' Hu') as [Ht|Ht]; [right|by left].
    apply Hl in Hin' as (_ & p' & ? & <-). by exists u', p'.
Qed.

(** Selecting uncles never panics on a known parent. Every selected uncle
    is the first block of a fork off the parent's chain, of the era of the new
    block and before its slot, with a parent in the window and a slot that
    neither the chain nor its uncles occupy; slots are distinct, and there are
    at most as many as the era allows. Conversely, unless the maximum is
    reached, every eligible slot gets an uncle, the one with the oldest
    parent. *)
Theorem select_uncles_spec {E} id_le (c : Cryptarchia Id) par slot era w :
  wf_tree (tree c) → known (tree c) par → at_slot (E:=E) (era_schedule c) slot = Ok era →
  uncle_reference_window_in_slot (E:=E) (v_parameters era) = Ok w →
  let fits := eligible (tree c) par slot (Z.max 0 (slot - w)) (v_first_slot era) in
  let max := Z.to_nat (max_uncles (v_parameters era)) in
  ∃ us, select_uncles (E:=E) id_le c par slot = Ok us ∧
    (length us ≤ max)%nat ∧ NoDup (b_slot <$> us) ∧ Forall fits us ∧
    ∀ u p, fits u → parent (tree c) u = Some p → length us = max ∨
      ∃ u' p', u' ∈ us ∧ b_slot u' = b_slot u ∧
        parent (tree c) u' = Some p' ∧ b_slot p' <= b_slot p.
Proof. apply select_uncles_fits. Qed.

End Select.
