(* ===== verification/EngineWitness.v ===== *)
(** * Concrete engines for the theorems of the consensus engine

    An online node with security parameter 1 that knows the chain 0 - 1 - 2 and a
    fork 1 - 10, before and after it receives block 11 on the fork, and a
    bootstrapping tree with two forks. *)

From S2P Require Import Prelude BlockTree TreeWalks Era EraFacts EngineConfig Engine ForkChoice Pruning EngineInvariant EngineTheorems Uncles.

#[local] Open Scope Z_scope.

#[local] Instance witness_order : SetOrder nat := elements_order nat.

(** [acceptable] of an online engine, decided. *)
Definition acceptableb (c : Cryptarchia nat) (id : nat) (slot : Z) : bool :=
  bool_decide (state c = Online) && bool_decide (branches (tree c) !! id = None) &&
  match branches (tree c) !! lib (tree c) with
  | Some r => bool_decide (b_parent r ≠ id)
  | None => true
  end && (0 <=? slot) && (slot <=? u64_max) &&
  bool_decide (map_Forall (λ _ b, b_length b < u64_max) (branches (tree c))).

Lemma acceptableb_ok c id slot : acceptableb c id slot = true → acceptable c id slot.
Proof.
  unfold acceptableb. rewrite !andb_true_iff, !bool_decide_eq_true.
  intros (((((Hon & Hid) & Hroot) & H0) & H1) & Hlen). constructor.
  - split; [done|]. intros r Hr. rewrite Hr in Hroot. by apply bool_decide_eq_true in Hroot.
  - split; [by apply Z.leb_le|by apply Z.leb_le].
  - congruence.
  - intros b Hb. by apply (Hlen (b_id b)).
Qed.

Fixpoint run (c : Cryptarchia nat) (l : list (nat * nat * Z)) : option (Cryptarchia nat) :=
  match l with
  | [] => Some c
  | (id, par, slot) :: l =>
      if acceptableb c id slot then
        match receive_block_with_canonical_change c id par slot [] with
        | Ok (c', _) => run c' l
        | _ => None
        end
      else None
  end.

Lemma run_wf c l c' : wf_engine c → run c l = Some c' → wf_engine c'.
Proof.
  revert c. induction l as [|[[id par] slot] l IH]; intros c WE; cbn; [by intros [= <-]|].
  destruct (acceptableb c id slot) eqn:HA; [|done].
  destruct (receive_block_with_canonical_change _ _ _ _ _) as [[c1 out]| |] eqn:Hok; [|done|done].
  apply IH. eapply receive_wf; [done|by apply acceptableb_ok|done].
Qed.

Lemma run_reachable c l c' : reachable c → run c l = Some c' → reachable c'.
Proof.
  revert c. induction l as [|[[id par] slot] l IH]; intros c WE; cbn; [by intros [= <-]|].
  destruct (acceptableb c id slot) eqn:HA; [|done].
  destruct (receive_block_with_canonical_change _ _ _ _ _) as [[c1 out]| |] eqn:Hok; [|done|done].
  apply IH. eapply reach_receive; [done|by apply acceptableb_ok|done].
Qed.

Definition start : Cryptarchia nat := from_genesis 0%nat (single_era (config_with 1)) Online.

Definition forked_blocks : list (nat * nat * Z) := 
  [(1%nat, 0%nat, 1); (2%nat, 1%nat, 2); (10%nat, 1%nat, 3)].

Definition forked : Cryptarchia nat := default start (run start forked_blocks).

Definition after_reorg : Cryptarchia nat * ReceiveBlockOutcome nat :=
  match receive_block_with_canonical_change forked 11%nat 10%nat 4 [] with
  | Ok r => r
  | _ => (start, mkOutcome (mkPruned ∅ ∅) [] [])
  end.

Lemma single_era_wf k : 1 <= k <= u32_max → wf_eras (single_era (config_with k)).
Proof. intros Hk. constructor; [done|]. intros v [->|Hv]%elem_of_cons; [done|by apply not_elem_of_nil in Hv]. Qed.

Lemma start_engine_wf : wf_engine start.
Proof. by apply start_wf; [apply single_era_wf| |]. Qed.

Lemma forked_ok : wf_engine forked.
Proof. apply (run_wf start forked_blocks forked start_engine_wf). vm_compute. reflexivity. Qed.

Lemma forked_accepts : acceptable forked 11%nat 4.
Proof. apply acceptableb_ok. vm_compute. reflexivity. Qed.

Lemma reorg_ok : receive_block_with_canonical_change forked 11%nat 10%nat 4 [] = Ok after_reorg.
Proof. vm_compute. reflexivity. Qed.

Lemma reorg_pair : receive_block_with_canonical_change forked 11%nat 10%nat 4 []
  = Ok (after_reorg.1, after_reorg.2).
Proof. rewrite reorg_ok. destruct after_reorg. reflexivity. Qed.

Lemma receive_block_total_witness :
  ∃ c' out, receive_block_with_canonical_change forked 11%nat 10%nat 4 [] = Ok (c', out) ∧ wf_engine c'.
Proof. exact (receive_block_total forked 11%nat 10%nat 4 [] forked_ok forked_accepts). Defined.

Lemma receive_block_finality_witness :
  ∃ t1 old new, apply_header (tree forked) 11%nat 10%nat 4 [] = Ok t1 ∧ b_id old = 1%nat ∧ b_id new = 10%nat ∧
    ancestor t1 old new ∧ ancestor t1 new (local_chain after_reorg.1).
Proof.
  destruct (receive_block_finality forked 11%nat 10%nat 4 [] after_reorg.1 after_reorg.2 forked_ok forked_accepts)
    as (t1 & old & new & Ht & Ho & Hn & H1 & H2 & _).
  - exact reorg_pair.
  - exists t1, old, new. split; [exact Ht|]. vm_compute in Ho, Hn. injection Ho as <-. injection Hn as <-.
    split; [reflexivity|]. split; [reflexivity|]. split; [exact H1|exact H2].
Defined.

(** The tree in which the node prunes, with block 11. *)
Definition extended : Branches nat :=
  match apply_header (tree forked) 11%nat 10%nat 4 [] with Ok t => t | _ => tree start end.

Lemma extended_ok : apply_header (tree forked) 11%nat 10%nat 4 [] = Ok extended.
Proof. vm_compute. reflexivity. Qed.

(** Slots increase strictly towards the leaves, decided. *)
Definition strict_slotsb (t : Branches nat) : bool :=
  bool_decide (map_Forall (λ _ b,
    bool_decide (match parent t b with Some q => b_slot q <? b_slot b | None => true end = true))
    (branches t)).

Lemma strict_slotsb_ok t : strict_slotsb t = true →
  ∀ b q, known t b → parent t b = Some q → b_slot q < b_slot b.
Proof.
  intros HS%bool_decide_eq_true b q Hb Hq. specialize (HS (b_id b) b Hb). cbn in HS.
  rewrite Hq in HS. apply bool_decide_unpack in HS. lia.
Qed.

Lemma receive_block_prunes_witness :
  elements (stale_blocks (pruned_blocks after_reorg.2)) = [2%nat] ∧
  map_to_list (immutable_blocks (pruned_blocks after_reorg.2)) = [(1, 1%nat)] ∧
  ∃ L, branches (tree after_reorg.1) !! lib (tree after_reorg.1) = Some L ∧
    (∀ b, known (tree after_reorg.1) b ↔ known extended b ∧ ancestor extended L b) ∧
    ∀ s i, immutable_blocks (pruned_blocks after_reorg.2) !! s = Some i ↔ ∃ b, ancestor extended b L ∧ b ≠ L ∧ b_slot b = s ∧ b_id b = i.
Proof.
  split; [vm_compute; reflexivity|]. split; [vm_compute; reflexivity|].
  destruct (branches (tree after_reorg.1) !! lib (tree after_reorg.1)) as [L|] eqn:HL; [|vm_compute in HL; discriminate].
  exists L. split; [reflexivity|].
  destruct (receive_block_prunes forked 11%nat 10%nat 4 [] after_reorg.1 after_reorg.2 extended L forked_ok
    forked_accepts extended_ok reorg_pair HL) as (Hk & _ & _ & _ & Hi).
  split; [exact Hk|]. apply Hi. unfold strict_slots. apply strict_slotsb_ok. vm_compute. reflexivity.
Defined.

Lemma receive_block_canonical_change_witness :
  reorged_blocks after_reorg.2 = [2%nat] ∧ newly_canonical_blocks after_reorg.2 = [10%nat; 11%nat] ∧
  ∀ i, i ∈ newly_canonical_blocks after_reorg.2 ↔
    ∃ x, b_id x = i ∧ ancestor extended x (local_chain after_reorg.1) ∧
      ¬ ancestor extended x (local_chain forked).
Proof.
  split; [vm_compute; reflexivity|]. split; [vm_compute; reflexivity|].
  apply (receive_block_canonical_change forked 11%nat 10%nat 4 [] after_reorg.1 after_reorg.2 extended forked_ok
    forked_accepts extended_ok reorg_pair).
Defined.

Lemma one_k_forked : one_k forked 1.
Proof.
  intros v Hv. vm_compute in Hv. apply elem_of_cons in Hv as [->|Hv]; [done|by apply not_elem_of_nil in Hv].
Qed.

Lemma forked_stable : mc_stable (tree forked) (λ _, 1) (local_chain forked).
Proof.
  eapply (maxvalid_mc_stable (E:=Empty_set) (tree forked) (λ _, Ok 1) 1 (local_chain forked)).
  - apply forked_ok.
  - apply forked_ok.
  - done.
  - vm_compute. reflexivity.
Qed.

(** Another iteration order: the reverse. *)
Definition reverse_order : SetOrder nat.
Proof. exists (λ X, reverse (elements X)). intros X. by rewrite reverse_Permutation. Defined.

Lemma receive_block_deterministic_witness :
  receive_block_with_canonical_change (order:=reverse_order) forked 11%nat 10%nat 4 [] = Ok after_reorg ∧
  mc_stable (tree after_reorg.1) (λ _, 1) (local_chain after_reorg.1).
Proof.
  assert (receive_block_with_canonical_change (order:=reverse_order) forked 11%nat 10%nat 4 [] = Ok after_reorg)
    as Hr by (vm_compute; reflexivity).
  split; [exact Hr|].
  apply (receive_block_deterministic witness_order reverse_order forked 11%nat 10%nat 4 [] 1
    after_reorg.1 after_reorg.2 after_reorg.1 after_reorg.2).
  - exact forked_ok.
  - exact forked_accepts.
  - vm_compute. reflexivity.
  - exact one_k_forked.
  - exact forked_stable.
  - exact reorg_pair.
  - rewrite Hr. destruct after_reorg. reflexivity.
Defined.

Lemma reachable_wf_witness : reachable after_reorg.1 ∧ wf_engine after_reorg.1.
Proof.
  assert (reachable after_reorg.1) as HR.
  { apply (reach_receive forked 11%nat 10%nat 4 [] after_reorg.1 after_reorg.2); [|exact forked_accepts|exact reorg_pair].
    apply (run_reachable start forked_blocks); [|vm_compute; reflexivity].
    apply reach_start; [by apply single_era_wf|done|done]. }
  split; [exact HR|]. exact (reachable_wf after_reorg.1 HR).
Defined.

Lemma online_total_witness :
  ∃ c' p L, online (E:=Error nat) (mkCryptarchia (local_chain forked) (tree forked) (era_schedule forked) Bootstrapping)
    = Ok (c', p) ∧ wf_engine c' ∧ state c' = Online ∧ lib (tree c') = b_id L.
Proof.
  destruct (online_total (E:=Error nat)
    (mkCryptarchia (local_chain forked) (tree forked) (era_schedule forked) Bootstrapping))
    as (c' & p & L & H1 & H2 & H3 & _ & H4 & _).
  - destruct forked_ok as [? ? ?]. by constructor.
  - exists c', p, L. auto.
Defined.

Lemma extended_wf : wf_tree extended.
Proof.
  destruct (receive_inv forked 11%nat 10%nat 4 [] after_reorg.1 after_reorg.2 forked_ok forked_accepts reorg_pair)
    as (t1 & p & nb & L & [Hah _ _ WF1 _ _ _ _ _ _ _]).
  rewrite extended_ok in Hah. apply Ok_inj in Hah as ->. exact WF1.
Qed.

Definition block (i : nat) : Branch nat := default (local_chain forked) (branches extended !! i).

Lemma mc_reorg_bounded_witness :
  ∃ c, maxvalid_mc (E:=Empty_set) (block 2) extended (λ _, Ok 1) = Ok c ∧ b_id c = 11%nat ∧
    ∃ l, is_lca extended (block 2) c l ∧ b_length (block 2) - b_length l <= 1.
Proof.
  destruct (mc_reorg_bounded (E:=Empty_set) extended (λ _, Ok 1) (λ _, 1) 1 (block 2))
    as (c & Hc & _ & Hl).
  - exact extended_wf.
  - vm_compute. reflexivity.
  - reflexivity.
  - intros. lia.
  - exists c. split; [exact Hc|]. split; [|exact Hl]. vm_compute in Hc. injection Hc as <-. reflexivity.
Defined.

Lemma mc_result_stable_witness :
  mc_stable extended (λ _, 1) (block 11) ∧
  maxvalid_mc (E:=Empty_set) (block 11) extended (λ _, Ok 1) = Ok (block 11).
Proof.
  apply (mc_result_stable (E:=Empty_set) extended (λ _, Ok 1) 1 (block 2) (block 11)).
  - exact extended_wf.
  - vm_compute. reflexivity.
  - reflexivity.
  - vm_compute. reflexivity.
Defined.

Lemma mc_order_independent_witness :
  maxvalid_mc (order:=witness_order) (E:=Empty_set) (local_chain forked) extended (λ _, Ok 1)
  = maxvalid_mc (order:=reverse_order) (local_chain forked) extended (λ _, Ok 1).
Proof.
  destruct (receive_inv forked 11%nat 10%nat 4 [] after_reorg.1 after_reorg.2 forked_ok forked_accepts reorg_pair)
    as (t1 & p & nb & L & [Hah X _ WF1 _ _ _ _ _ _ _]).
  rewrite extended_ok in Hah. apply Ok_inj in Hah as Et. rewrite <- Et in X, WF1.
  apply (mc_order_independent witness_order reverse_order (tree forked) extended p nb (λ _, Ok 1) 1
    (local_chain forked)).
  - apply forked_ok.
  - exact WF1.
  - exact X.
  - apply forked_ok.
  - exact forked_stable.
  - reflexivity.
Defined.

(** With a security parameter of 0 and a window of 1 slot, the fork 10 - 11 has
    no block in the window after block 1, while block 2 is in it. *)
Lemma bg_step_density_witness :
  density extended (block 2) (block 1) 2 = 1%nat ∧ density extended (block 11) (block 1) 2 = 0%nat ∧
  bg_step (E:=Empty_set) extended (λ _, Ok (0, 1)) (block 2) (block 11) = Ok (block 2).
Proof.
  split; [vm_compute; reflexivity|]. split; [vm_compute; reflexivity|].
  etransitivity; [eapply (bg_step_density (E:=Empty_set) extended (λ _, Ok (0, 1)) (block 2) (block 11) (block 1) 0 1)|].
  - exact extended_wf.
  - vm_compute. reflexivity.
  - vm_compute. reflexivity.
  - destruct (lca_spec (E:=Empty_set) extended extended_wf (block 2) (block 11)) as (l & Hl & Hlca);
      [vm_compute; reflexivity|vm_compute; reflexivity|].
    vm_compute in Hl. injection Hl as <-. exact Hlca.
  - reflexivity.
  - lia.
  - vm_compute. discriminate.
  - vm_compute. reflexivity.
Defined.

(** Extending block 2 at slot 5, block 10 is the uncle of the node's tree. *)
Lemma select_uncles_spec_witness :
  ∃ us, select_uncles (E:=Empty_set) Nat.leb forked (local_chain forked) 5 = Ok us ∧
    b_id <$> us = [10%nat] ∧ Forall (eligible (tree forked) (local_chain forked) 5 0 0) us.
Proof.
  destruct (select_uncles_spec (E:=Empty_set) Nat.leb forked (local_chain forked) 5
    (genesis (era_schedule forked)) 120) as (us & Hok & _ & _ & HF & _).
  - apply forked_ok.
  - apply forked_ok.
  - vm_compute. reflexivity.
  - vm_compute. reflexivity.
  - exists us. split; [exact Hok|]. split; [|exact HF].
    vm_compute in Hok. injection Hok as <-. reflexivity.
Defined.
