(* ===== verification/Merkle.v ===== *)
(** * The dynamic Merkle tree

    merkle/dynamic-merkle/src/lib.rs: a persistent binary tree of fixed height
    that stores leaf hashes at positions, fills the lowest free position first
    and keeps fully empty subtrees collapsed. The hash is a class parameter, as
    the trait [MerkleHasher] is in the code. Positions and sizes are unbounded
    integers here: [size_bounds] of MerkleFacts.v keeps them within
    [2 ^ TREE_HEIGHT_EXCEPT_ROOT]. *)

From S2P Require Import Prelude.

#[local] Open Scope Z_scope.

Module DynamicMerkle.

(** The trait [MerkleHasher]. *)
Class MerkleHasher (Hash : Type) := {
  EMPTY_VALUE : Hash;
  compress : Hash → Hash → Hash
}.

Definition TREE_HEIGHT_EXCEPT_ROOT : nat := 32.

(** [Node]. *)
Inductive Node (Hash : Type) :=
  | Inner (left right : Node Hash) (value : Hash) (right_subtree_size left_subtree_size : Z) (height : nat)
  | EmptyNode (height : nat)
  | Leaf (value : Hash).

Arguments Inner {Hash} left right value right_subtree_size left_subtree_size height.
Arguments EmptyNode {Hash} height.
Arguments Leaf {Hash} value.

(** [MerkleNode]: a sibling on the path, with its side. *)
Inductive MerkleNode (Hash : Type) :=
  | LeftSibling (h : Hash)
  | RightSibling (h : Hash).

Arguments LeftSibling {Hash} h.
Arguments RightSibling {Hash} h.

Section Merkle.
Context {Hash : Type} `{MerkleHasher Hash}.
Implicit Types (n l r : Node Hash) (v : Hash) (index : Z).

(** The macro [empty_subtree_root]: the table of the roots of the empty subtrees,
    computed from the leaves up. *)
Fixpoint empty_roots (count : nat) (last : Hash) : list Hash :=
  match count with
  | O => [last]
  | S count => last :: empty_roots count (compress last last)
  end.

Definition empty_subtree_root {E} (height : nat) : result E Hash :=
  assert_ (height <=? TREE_HEIGHT_EXCEPT_ROOT)%nat;;
  expect (empty_roots TREE_HEIGHT_EXCEPT_ROOT EMPTY_VALUE !! height).

(** [Node::value]. *)
Definition value {E} n : result E Hash :=
  match n with
  | Inner _ _ v _ _ _ | Leaf v => Ok v
  | EmptyNode height => empty_subtree_root height
  end.

(** [hash]. *)
Definition hash {E} l r : result E Hash :=
  vl ← value l; vr ← value r; Ok (compress vl vr).

(** [Node::size]. *)
Definition size n : Z :=
  match n with
  | Inner _ _ _ right_subtree_size left_subtree_size _ => left_subtree_size + right_subtree_size
  | Leaf _ => 1
  | EmptyNode _ => 0
  end.

(** [Node::height]. *)
Definition height n : nat :=
  match n with
  | Inner _ _ _ _ _ height | EmptyNode height => height
  | Leaf _ => 0
  end.

(** [Node::capacity]: [1 << height]. *)
Definition capacity n : Z := Z.shiftl 1 (Z.of_nat (height n)).

(** [Node::first_empty_index]. *)
Fixpoint first_empty_index n : option Z :=
  match n with
  | Inner l r _ _ _ _ =>
      if size l <? capacity l then first_empty_index l
      else if size r <? capacity r then
        index ← first_empty_index r; Some (capacity l + index)
      else None
  | EmptyNode _ => Some 0
  | Leaf _ => None
  end.

(** [Node::new_inner]. *)
Definition new_inner {E} l r : result E (Node Hash) :=
  match l, r with
  | EmptyNode left_height, EmptyNode right_height =>
      assert_ (left_height =? right_height)%nat;;
      Ok (EmptyNode (left_height + 1))
  | _, _ =>
      assert_ (height l =? height r)%nat;;
      value ← hash l r;
      Ok (Inner l r value (size r) (size l) (height l + 1))
  end.

(** [Node::insert_or_modify] on [Node::Empty]: expands the empty subtree. *)
Fixpoint insert_or_modify_empty {E} (height : nat) index (f : Node Hash → result E (Node Hash))
    : result E (Node Hash) :=
  assert_ (index =? 0);;
  match height with
  | S height =>
      l ← insert_or_modify_empty height index f;
      new_inner l (EmptyNode height)
  | O => f (EmptyNode 0)
  end.

(** [Node::insert_or_modify]. *)
Fixpoint insert_or_modify {E} n index (f : Node Hash → result E (Node Hash)) : result E (Node Hash) :=
  match n with
  | Inner l r _ _ _ _ =>
      assert_ (index <? capacity n);;
      if index <? capacity l then
        l' ← insert_or_modify l index f;
        new_inner l' r
      else
        r' ← insert_or_modify r (index - capacity l) f;
        new_inner l r'
  | EmptyNode height => insert_or_modify_empty height index f
  | Leaf _ => assert_ (index =? 0);; f n
  end.

(** [Node::insert_at], [Node::remove_at] and [Node::update_at]. *)
Definition insert_at {E} n index v : result E (Node Hash) :=
  insert_or_modify n index (λ node, match node with EmptyNode _ => Ok (Leaf v) | _ => Fault Panic end).

Definition remove_at {E} n index : result E (Node Hash) :=
  insert_or_modify n index (λ node, match node with Leaf _ => Ok (EmptyNode 0) | _ => Fault Panic end).

Definition update_at {E} n index v : result E (Node Hash) :=
  insert_or_modify n index (λ node, match node with Leaf _ => Ok (Leaf v) | _ => Fault Panic end).

(** [Node::path]: [None] when the position is free. *)
Fixpoint path {E} n index : result E (option (list (MerkleNode Hash))) :=
  match n with
  | Inner l r _ _ _ _ =>
      assert_ (index <? capacity n);;
      if index <? capacity l then
        o ← path l index;
        match o with
        | None => Ok None
        | Some p =>
            if (TREE_HEIGHT_EXCEPT_ROOT <=? length p)%nat then Ok None
            else vr ← value r; Ok (Some (p ++ [RightSibling vr]))
        end
      else
        o ← path r (index - capacity l);
        match o with
        | None => Ok None
        | Some p =>
            if (TREE_HEIGHT_EXCEPT_ROOT <=? length p)%nat then Ok None
            else vl ← value l; Ok (Some (p ++ [LeftSibling vl]))
        end
  | Leaf _ => Ok (Some [])
  | EmptyNode _ => Ok None
  end.

(** [Node::rebuild_and_validate], with the messages of its errors. *)
Inductive RebuildError :=
  | EmptyTooHigh | DifferentHeights | TooHigh.

Fixpoint rebuild_and_validate n : result RebuildError (Node Hash) :=
  match n with
  | EmptyNode height =>
      err_if (TREE_HEIGHT_EXCEPT_ROOT <? height)%nat EmptyTooHigh;; Ok n
  | Leaf _ => Ok n
  | Inner l r _ _ _ _ =>
      l ← rebuild_and_validate l;
      r ← rebuild_and_validate r;
      err_if (negb (height l =? height r)%nat) DifferentHeights;;
      node ← new_inner l r;
      err_if (TREE_HEIGHT_EXCEPT_ROOT <? height node)%nat TooHigh;; Ok node
  end.

(** ** [DynamicMerkleTree], represented by its root node *)

(** [DynamicMerkleTree::default]. *)
Definition empty_tree : Node Hash := EmptyNode TREE_HEIGHT_EXCEPT_ROOT.

(** [DynamicMerkleTree::insert]. *)
Definition insert {E} n v : result E (Node Hash * Z) :=
  assert_ (size n <? capacity n);;
  index ← expect (first_empty_index n);
  root ← insert_at n index v;
  Ok (root, index).

(** [DynamicMerkleTree::remove] and [DynamicMerkleTree::update]. *)
Definition remove {E} n index : result E (Node Hash) :=
  assert_ (index <? capacity n);; remove_at n index.

Definition update {E} n index v : result E (Node Hash) :=
  assert_ (index <? capacity n);; update_at n index v.

(** [DynamicMerkleTree::root]. *)
Definition root {E} n : result E Hash :=
  match n with
  | Inner _ _ v _ _ _ => Ok v
  | Leaf _ => Fault Panic
  | EmptyNode _ => empty_subtree_root (height n)
  end.

(** [DynamicMerkleTree::path]: the path of a full-height tree has
    [TREE_HEIGHT_EXCEPT_ROOT] nodes, [try_into().ok()] drops any other. *)
Definition tree_path {E} n index : result E (option (list (MerkleNode Hash))) :=
  o ← path n index;
  Ok (match o with
      | Some p => if (length p =? TREE_HEIGHT_EXCEPT_ROOT)%nat then Some p else None
      | None => None
      end).

(** [DynamicMerkleTree::build_sparse_subtree]: the peekable iterator is the list
    of the entries l. *)
Fixpoint build_sparse_subtree {E} (height : nat) (items : list (Z * Hash)) (subtree_start : Z)
    : result E (Node Hash * list (Z * Hash)) :=
  match items with
  | [] => Ok (EmptyNode height, items)
  | (position, v) :: rest =>
      let subtree_capacity := Z.shiftl 1 (Z.of_nat height) in
      assert_ ((subtree_start <=? position) && (position - subtree_start <? subtree_capacity));;
      match height with
      | O => Ok (Leaf v, rest)
      | S height =>
          let midpoint := subtree_start + subtree_capacity / 2 in
          '(l, items) ←
            (if position <? midpoint then build_sparse_subtree height items subtree_start
             else Ok (EmptyNode height, items));
          '(r, items) ←
            (match items with
             | (position, _) :: _ =>
                 if position <? subtree_start + subtree_capacity
                 then build_sparse_subtree height items midpoint
                 else Ok (EmptyNode height, items)
             | [] => Ok (EmptyNode height, items)
             end);
          node ← new_inner l r;
          Ok (node, items)
      end
  end.

(** [DynamicMerkleTree::from_sorted_items]. *)
Definition from_sorted_items {E} (items : list (Z * Hash)) : result E (Node Hash) :=
  '(root, rest) ← build_sparse_subtree TREE_HEIGHT_EXCEPT_ROOT items 0;
  assert_ (match rest with [] => true | _ => false end);;
  Ok root.

(** The [Deserialize] of the tree, after the raw node has been read. *)
Definition deserialize_tree n : result (option RebuildError) (Node Hash) :=
  match rebuild_and_validate n with
  | Ok root =>
      if negb (height root =? TREE_HEIGHT_EXCEPT_ROOT)%nat
         || match root with Leaf _ => true | _ => false end
      then Err None else Ok root
  | Err e => Err (Some e)
  | Fault f => Fault f
  end.

End Merkle.

End DynamicMerkle.

(** A tree over integers with a toy hash. *)
Module MerkleExamples.
Import DynamicMerkle.

#[local] Instance toy_hasher : MerkleHasher Z :=
  {| EMPTY_VALUE := 0; compress l r := (31 * l + 17 * r + 7) mod 1000003 |}.

Example reuse_lowest_position :
  ('(t, i0) ← insert (E:=Empty_set) empty_tree 11;
   '(t, i1) ← insert t 12;
   '(t, i2) ← insert t 13;
   t ← remove t i1;
   '(t, i3) ← insert t 14;
   Ok [i0; i1; i2; i3; size t]) = Ok [0; 1; 2; 1; 3].
Proof. vm_compute. reflexivity. Qed.

End MerkleExamples.
