(* ===== verification/MerkleFacts.v ===== *)
(** * Correctness of the dynamic Merkle tree

    The canonical shape of the nodes and its preservation, the tree as a map from
    positions to leaf hashes, the lowest free position, recovery from the sorted
    entries, membership paths and their binding to the root. *)

From S2P Require Import Prelude Merkle.
Import DynamicMerkle.

#[local] Open Scope Z_scope.

Section Facts.
Context {Hash : Type} `{EqDecision Hash} `{MerkleHasher Hash}.
Implicit Types (n l r : Node Hash) (v : Hash) (h : nat) (i : Z).

(** Number of leaf positions below a node of height [h]. *)
Definition width h : Z := 2 ^ Z.of_nat h.

#[local] Arguments width : simpl never.

Lemma width_0 : width 0 = 1.
Proof. done. Qed.

Lemma width_S h : width (S h) = 2 * width h.
Proof. unfold width. rewrite Nat2Z.inj_succ, Z.pow_succ_r; lia. Qed.

Lemma width_pos h : 0 < width h.
Proof. unfold width. lia. Qed.

Lemma capacity_width n : capacity n = width (height n).
Proof. unfold capacity, width. by rewrite Z.shiftl_1_l. Qed.

(** The root of an empty subtree. *)
Fixpoint er h : Hash :=
  match h with O => EMPTY_VALUE | S h => let x := er h in compress x x end.

Lemma empty_roots_lookup c k h : (h <= c)%nat → empty_roots c (er k) !! h = Some (er (k + h)).
Proof.
  revert k h. induction c as [|c IH]; intros k [|h] Hle; cbn [empty_roots lookup list_lookup]; try lia.
  - by rewrite Nat.add_0_r.
  - by rewrite Nat.add_0_r.
  - change (compress (er k) (er k)) with (er (S k)). rewrite IH by lia. do 2 f_equal. lia.
Qed.

Lemma empty_subtree_root_ok {E} h : (h <= TREE_HEIGHT_EXCEPT_ROOT)%nat →
  empty_subtree_root (E:=E) h = Ok (er h).
Proof.
  intros Hle. unfold empty_subtree_root. rewrite (proj2 (Nat.leb_le _ _)) by done. cbn [assert_ mbind result_bind].
  change EMPTY_VALUE with (er 0). by rewrite empty_roots_lookup by done.
Qed.

(** The hash of a node, and the leaf at a position. *)
Definition node_root n : Hash :=
  match n with Inner _ _ v _ _ _ | Leaf v => v | EmptyNode h => er h end.

Fixpoint leaf_at n i : option Hash :=
  match n with
  | Inner l r _ _ _ _ => if i <? capacity l then leaf_at l i else leaf_at r (i - capacity l)
  | EmptyNode _ => None
  | Leaf v => if i =? 0 then Some v else None
  end.

Definition is_empty n : bool := match n with EmptyNode _ => true | _ => false end.

(** Canonical nodes of height [h]. *)
Fixpoint wf_node h n : Prop :=
  match n, h with
  | Leaf _, O => True
  | EmptyNode h', _ => h' = h
  | Inner l r v rs ls hh, S h' =>
      wf_node h' l ∧ wf_node h' r ∧ hh = h ∧ rs = size r ∧ ls = size l ∧
      v = compress (node_root l) (node_root r) ∧ is_empty l && is_empty r = false
  | _, _ => False
  end.

(** The canonical node with the given children. *)
Definition join h l r : Node Hash :=
  if is_empty l && is_empty r then EmptyNode (S h)
  else Inner l r (compress (node_root l) (node_root r)) (size r) (size l) (S h).

Lemma wf_height h n : wf_node h n → height n = h.
Proof. destruct n as [l r v rs ls hh|h'|v], h as [|h]; cbn; try done. by intros (_ & _ & -> & _). Qed.

Lemma wf_capacity h n : wf_node h n → capacity n = width h.
Proof. intros W. by rewrite capacity_width, (wf_height h n W). Qed.

Lemma wf_empty h n : wf_node h n → is_empty n = true → n = EmptyNode h.
Proof. destruct n as [l r v rs ls hh|h'|v], h as [|h]; cbn; try done; by intros ->. Qed.

Lemma wf_join h n : wf_node (S h) n → ∃ l r, wf_node h l ∧ wf_node h r ∧ n = join h l r.
Proof.
  destruct n as [l r v rs ls hh|h'|v]; cbn.
  - intros (Wl & Wr & -> & -> & -> & -> & He). exists l, r. unfold join. by rewrite He.
  - intros ->. exists (EmptyNode h), (EmptyNode h). split_and!; by destruct h.
  - done.
Qed.

Lemma join_wf h l r : wf_node h l → wf_node h r → wf_node (S h) (join h l r).
Proof. intros Wl Wr. unfold join. destruct (is_empty l && is_empty r) eqn:He; cbn; done. Qed.

Lemma wf_0 n : wf_node 0 n → n = EmptyNode 0 ∨ ∃ v, n = Leaf v.
Proof. destruct n as [l r v rs ls hh|h'|v]; cbn; [done|intros ->; by left|right; by exists v]. Qed.

(** Canonical nodes are built from empty and occupied leaves by joining. *)
Lemma wf_node_join_ind (P : nat → Node Hash → Prop) :
  P 0%nat (EmptyNode 0) → (∀ v, P 0%nat (Leaf v)) →
  (∀ h l r, wf_node h l → wf_node h r → P h l → P h r → P (S h) (join h l r)) →
  ∀ h n, wf_node h n → P h n.
Proof.
  intros P0 Pl PS h. induction h as [|h IH]; intros n W.
  - destruct (wf_0 n W) as [->|[v ->]]; auto.
  - destruct (wf_join h n W) as (l & r & Wl & Wr & ->). auto.
Qed.

(** *** The accessors on a joined node *)

Lemma join_leaf_at h l r i : wf_node h l → wf_node h r →
  leaf_at (join h l r) i = if i <? width h then leaf_at l i else leaf_at r (i - width h).
Proof.
  intros Wl Wr. unfold join. destruct (is_empty l && is_empty r) eqn:He; cbn [leaf_at].
  - apply andb_true_iff in He as [El Er].
    rewrite (wf_empty h l Wl El), (wf_empty h r Wr Er). cbn. by case_match.
  - by rewrite (wf_capacity h l Wl).
Qed.

Lemma join_root h l r : wf_node h l → wf_node h r →
  node_root (join h l r) = compress (node_root l) (node_root r).
Proof.
  intros Wl Wr. unfold join. destruct (is_empty l && is_empty r) eqn:He; [|done].
  apply andb_true_iff in He as [El Er]. by rewrite (wf_empty h l Wl El), (wf_empty h r Wr Er).
Qed.

Lemma join_size h l r : wf_node h l → wf_node h r → size (join h l r) = size l + size r.
Proof.
  intros Wl Wr. unfold join. destruct (is_empty l && is_empty r) eqn:He; [|done].
  apply andb_true_iff in He as [El Er]. by rewrite (wf_empty h l Wl El), (wf_empty h r Wr Er).
Qed.

Lemma value_ok {E} h n : wf_node h n → (h <= TREE_HEIGHT_EXCEPT_ROOT)%nat → value (E:=E) n = Ok (node_root n).
Proof.
  destruct n as [l r v rs ls hh|h'|v]; cbn [value node_root]; [done| |done].
  intros W Hh. apply wf_height in W. cbn in W. subst h'. by apply empty_subtree_root_ok.
Qed.

Lemma new_inner_join {E} h l r : wf_node h l → wf_node h r → (h <= TREE_HEIGHT_EXCEPT_ROOT)%nat →
  new_inner (E:=E) l r = Ok (join h l r).
Proof.
  intros Wl Wr Hh. unfold join. destruct (is_empty l && is_empty r) eqn:He.
  - apply andb_true_iff in He as [El Er].
    rewrite (wf_empty h l Wl El), (wf_empty h r Wr Er). cbn. rewrite Nat.eqb_refl. cbn. do 2 f_equal. lia.
  - assert (assert_ (E:=E) (height l =? height r)%nat = Ok tt) as HA.
    { by rewrite (wf_height h l Wl), (wf_height h r Wr), Nat.eqb_refl. }
    assert (hash (E:=E) l r = Ok (compress (node_root l) (node_root r))) as HH.
    { unfold hash. rewrite (value_ok h l), (value_ok h r) by (done || lia). done. }
    unfold new_inner. rewrite HA, HH, (wf_height h l Wl), Nat.add_1_r. cbn.
    by destruct l, r.
Qed.

(** *** Sizes *)

Lemma size_bounds h n : wf_node h n → 0 <= size n <= width h.
Proof.
  induction 1 as [|v|h l r Wl Wr IHl IHr] using wf_node_join_ind; [by cbn|by cbn|].
  rewrite (join_size h l r Wl Wr), width_S. lia.
Qed.

Lemma size_0 h n : wf_node h n → size n = 0 → n = EmptyNode h.
Proof.
  induction 1 as [|v|h l r Wl Wr IHl IHr] using wf_node_join_ind; [done|done|].
  rewrite (join_size h l r Wl Wr). intros Hs.
  pose proof (size_bounds h l Wl). pose proof (size_bounds h r Wr).
  rewrite IHl, IHr by lia. done.
Qed.

Lemma size_full h n i : wf_node h n → size n = width h → 0 <= i < width h → leaf_at n i ≠ None.
Proof.
  intros W. revert i. induction W as [|v|h l r Wl Wr IHl IHr] using wf_node_join_ind; intros i Hs Hi.
  - done.
  - rewrite width_0 in Hi. cbn. by rewrite (proj2 (Z.eqb_eq i 0)) by lia.
  - rewrite (join_size h l r Wl Wr), width_S in Hs. rewrite width_S in Hi.
    pose proof (size_bounds h l Wl). pose proof (size_bounds h r Wr).
    rewrite (join_leaf_at h l r i Wl Wr). case_match; [apply IHl|apply IHr]; lia.
Qed.

(** Canonicity: the leaves determine the node. *)
Lemma canonical_eq h n1 n2 : wf_node h n1 → wf_node h n2 →
  (∀ i, 0 <= i < width h → leaf_at n1 i = leaf_at n2 i) → n1 = n2.
Proof.
  revert n1 n2. induction h as [|h IH]; intros n1 n2 W1 W2 Heq.
  - specialize (Heq 0 ltac:(rewrite width_0; lia)).
    destruct (wf_0 n1 W1) as [->|[v1 ->]], (wf_0 n2 W2) as [->|[v2 ->]]; cbn in Heq; congruence.
  - destruct (wf_join h n1 W1) as (l1 & r1 & Wl1 & Wr1 & ->).
    destruct (wf_join h n2 W2) as (l2 & r2 & Wl2 & Wr2 & ->). pose proof (width_pos h).
    rewrite (IH l1 l2), (IH r1 r2); try done.
    + intros i Hi. specialize (Heq (i + width h) ltac:(rewrite width_S; lia)).
      rewrite !join_leaf_at, (proj2 (Z.ltb_ge _ _)) in Heq by (done || lia).
      by replace (i + width h - width h) with i in Heq by lia.
    + intros i Hi. specialize (Heq i ltac:(rewrite width_S; lia)).
      by rewrite !join_leaf_at, (proj2 (Z.ltb_lt _ _)) in Heq by (done || lia).
Qed.

(** ** The lowest free position *)

Lemma join_first_empty h l r : wf_node h l → wf_node h r →
  first_empty_index (join h l r) =
    if size l <? width h then first_empty_index l
    else if size r <? width h then (λ i, width h + i) <$> first_empty_index r else None.
Proof.
  intros Wl Wr. unfold join. destruct (is_empty l && is_empty r) eqn:He.
  - apply andb_true_iff in He as [El Er]. rewrite (wf_empty h l Wl El). cbn.
    by rewrite (proj2 (Z.ltb_lt _ _)) by apply width_pos.
  - cbn. rewrite (wf_capacity h l Wl), (wf_capacity h r Wr). by destruct (first_empty_index r).
Qed.

Definition lowest_free h n i : Prop :=
  0 <= i < width h ∧ leaf_at n i = None ∧ ∀ j, 0 <= j < i → leaf_at n j ≠ None.

Lemma first_empty_spec h n : wf_node h n → size n < width h →
  ∃ i, first_empty_index n = Some i ∧ lowest_free h n i.
Proof.
  induction 1 as [|v|h l r Wl Wr IHl IHr] using wf_node_join_ind; intros Hs.
  - exists 0. split; [done|]. split; [rewrite width_0; lia|]. split; [done|lia].
  - rewrite width_0 in Hs. cbn in Hs. lia.
  - rewrite (join_size h l r Wl Wr), width_S in Hs. rewrite (join_first_empty h l r Wl Wr).
    pose proof (size_bounds h l Wl). pose proof (width_pos h).
    destruct (size l <? width h) eqn:Hl.
    + destruct IHl as (i & -> & Hi & Hn & Hlow); [lia|]. exists i. split; [done|].
      split; [rewrite width_S; lia|]. split; [|intros j Hj]; rewrite (join_leaf_at h l r _ Wl Wr).
      * by rewrite (proj2 (Z.ltb_lt _ _)) by lia.
      * rewrite (proj2 (Z.ltb_lt _ _)) by lia. by apply Hlow.
    + rewrite (proj2 (Z.ltb_lt (size r) (width h))) by lia.
      destruct IHr as (i & -> & Hi & Hn & Hlow); [lia|]. exists (width h + i). split; [done|].
      split; [rewrite width_S; lia|]. split; [|intros j Hj]; rewrite (join_leaf_at h l r _ Wl Wr).
      * rewrite (proj2 (Z.ltb_ge _ _)) by lia. by replace (width h + i - width h) with i by lia.
      * case_match; [apply (size_full h l); [done|lia|lia]|]. apply Hlow. lia.
Qed.

(** ** Modification at a position *)

(** What the modification of position [i] by a terminal node [t] gives. *)
Definition modified h n i t n' : Prop :=
  wf_node h n' ∧
  (∀ j, 0 <= j < width h → leaf_at n' j = if j =? i then leaf_at t 0 else leaf_at n j) ∧
  size n' = size n - (if leaf_at n i then 1 else 0) + size t.

(** The terminal node that [f] is applied to. *)
Definition reaches {E} n i (f : Node Hash → result E (Node Hash)) t : Prop :=
  (∃ v, leaf_at n i = Some v ∧ f (Leaf v) = Ok t) ∨
  (first_empty_index n = Some i ∧ leaf_at n i = None ∧ f (EmptyNode 0) = Ok t).

Lemma join_modify {E} h l r i (f : Node Hash → result E (Node Hash)) :
  wf_node h l → wf_node h r → 0 <= i < width (S h) → is_empty (join h l r) = false ∨ i = 0 →
  insert_or_modify (join h l r) i f =
    if i <? width h then l' ← insert_or_modify l i f; new_inner l' r
    else r' ← insert_or_modify r (i - width h) f; new_inner l r'.
Proof.
  intros Wl Wr Hi Hor. unfold join in *. pose proof (width_pos h).
  destruct (is_empty l && is_empty r) eqn:He.
  - apply andb_true_iff in He as [El Er]. destruct Hor as [?| ->]; [done|].
    rewrite (wf_empty h l Wl El), (wf_empty h r Wr Er). rewrite (proj2 (Z.ltb_lt _ _)) by done. done.
  - cbn [insert_or_modify]. rewrite (wf_capacity h l Wl), capacity_width. cbn [height].
    by rewrite (proj2 (Z.ltb_lt i (width (S h)))) by lia.
Qed.

Lemma join_reaches {E} h l r i (f : Node Hash → result E (Node Hash)) t :
  wf_node h l → wf_node h r → 0 <= i < width (S h) → reaches (join h l r) i f t →
  (is_empty (join h l r) = false ∨ i = 0) ∧
  if i <? width h then reaches l i f t else reaches r (i - width h) f t.
Proof.
  intros Wl Wr Hi HR. rewrite width_S in Hi. unfold reaches in HR.
  rewrite (join_leaf_at h l r i Wl Wr), (join_first_empty h l r Wl Wr) in HR.
  destruct HR as [(v & Hv & Hf)|(Hfe & Hn & Hf)].
  - split; [|case_match; left; eauto]. left. unfold join.
    destruct (is_empty l && is_empty r) eqn:He; [|done]. apply andb_true_iff in He as [El Er].
    rewrite (wf_empty h l Wl El), (wf_empty h r Wr Er) in Hv. by case_match.
  - destruct (size l <? width h) eqn:Hl.
    + destruct (first_empty_spec h l Wl) as (i' & Hi' & Hlow & _); [lia|]. simplify_eq.
      rewrite (proj2 (Z.ltb_lt i (width h))) in * by lia. split; [|right; auto].
      unfold join. destruct (is_empty l && is_empty r) eqn:He; [right|by left].
      apply andb_true_iff in He as [El Er]. rewrite (wf_empty h l Wl El) in Hfe. cbn in Hfe. congruence.
    + destruct (size r <? width h) eqn:Hr; [|done].
      destruct (first_empty_spec h r Wr) as (i' & Hi' & Hlow & _); [lia|].
      rewrite Hi' in Hfe. cbn in Hfe. simplify_eq. rewrite (proj2 (Z.ltb_ge _ _)) in * by lia.
      replace (width h + i' - width h) with i' in * by lia. split; [|right; auto].
      left. unfold join. destruct (is_empty l && is_empty r) eqn:He; [|done].
      apply andb_true_iff in He as [El Er]. rewrite (wf_empty h l Wl El) in Hl. cbn in Hl.
      pose proof (width_pos h). lia.
Qed.

Lemma modify_spec {E} h n i (f : Node Hash → result E (Node Hash)) t :
  wf_node h n → (h <= TREE_HEIGHT_EXCEPT_ROOT)%nat → 0 <= i < width h →
  reaches n i f t → wf_node 0 t →
  ∃ n', insert_or_modify n i f = Ok n' ∧ modified h n i t n'.
Proof.
  intros W Hh Hi HR Wt. revert i Hi HR.
  induction W as [|v|h l r Wl Wr IHl IHr] using wf_node_join_ind; intros i Hi HR.
  - rewrite width_0 in Hi. assert (i = 0) as -> by lia.
    destruct HR as [(? & ? & _)|(_ & _ & Hf)]; [done|]. exists t. split; [done|]. split; [done|].
    split; [|cbn; lia]. intros j Hj. rewrite width_0 in Hj. by assert (j = 0) as -> by lia.
  - rewrite width_0 in Hi. assert (i = 0) as -> by lia.
    destruct HR as [(v' & Hv & Hf)|(? & _)]; [|done]. cbn in Hv. simplify_eq.
    exists t. split; [done|]. split; [done|].
    split; [|cbn; lia]. intros j Hj. rewrite width_0 in Hj. by assert (j = 0) as -> by lia.
  - destruct (join_reaches h l r i f t Wl Wr Hi HR) as [Hne HR'].
    rewrite (join_modify h l r i f Wl Wr Hi Hne). rewrite width_S in Hi.
    destruct (i <? width h) eqn:Hlt.
    + destruct (IHl ltac:(lia) i ltac:(lia) HR') as (l' & -> & Wl' & Hl' & Hs). cbn [mbind result_bind].
      rewrite (new_inner_join h l' r Wl' Wr) by lia. eexists. split; [done|]. split; [by apply join_wf|]. split.
      * intros j Hj. rewrite width_S in Hj. rewrite !join_leaf_at by done. destruct (j <? width h) eqn:Hj'; [by rewrite Hl' by lia|].
        by rewrite (proj2 (Z.eqb_neq j i)) by lia.
      * rewrite !join_size, !join_leaf_at, Hlt, Hs by done. lia.
    + destruct (IHr ltac:(lia) (i - width h) ltac:(lia) HR') as (r' & -> & Wr' & Hr' & Hs). cbn [mbind result_bind].
      rewrite (new_inner_join h l r' Wl Wr') by lia. eexists. split; [done|]. split; [by apply join_wf|]. split.
      * intros j Hj. rewrite width_S in Hj. rewrite !join_leaf_at by done. destruct (j <? width h) eqn:Hj'.
        -- by rewrite (proj2 (Z.eqb_neq j i)) by lia.
        -- rewrite Hr' by lia. destruct (Z.eqb_spec j i), (Z.eqb_spec (j - width h) (i - width h)); done || lia.
      * rewrite !join_size, !join_leaf_at, Hlt, Hs by done. lia.
Qed.

(** ** Membership paths *)

(** The root a verifier recomputes from a leaf and its path. *)
Definition fold_path v (p : list (MerkleNode Hash)) : Hash :=
  foldl (λ acc s, match s with
                  | LeftSibling x => compress x acc
                  | RightSibling x => compress acc x
                  end) v p.

(** The side of every sibling is the bit of the position. *)
Definition sides i (p : list (MerkleNode Hash)) : Prop :=
  ∀ (k : nat) s, p !! k = Some s →
    (match s with LeftSibling _ => true | RightSibling _ => false end) = Z.testbit i (Z.of_nat k).

Definition collision : Prop :=
  ∃ a b c d : Hash, (a, b) ≠ (c, d) ∧ compress a b = compress c d.

Lemma join_path {E} h l r i : wf_node h l → wf_node h r → 0 <= i < width (S h) →
  path (E:=E) (join h l r) i =
    (o ← (if i <? width h then path l i else path r (i - width h));
     match o with
     | None => Ok None
     | Some p =>
         if (TREE_HEIGHT_EXCEPT_ROOT <=? length p)%nat then Ok None
         else if i <? width h then x ← value r; Ok (Some (p ++ [RightSibling x]))
         else x ← value l; Ok (Some (p ++ [LeftSibling x]))
     end).
Proof.
  intros Wl Wr Hi. unfold join. destruct (is_empty l && is_empty r) eqn:He.
  - apply andb_true_iff in He as [El Er]. rewrite (wf_empty h l Wl El), (wf_empty h r Wr Er). cbn.
    by case_match.
  - cbn [path]. rewrite (wf_capacity h l Wl), capacity_width. cbn [height].
    rewrite (proj2 (Z.ltb_lt i (width (S h)))) by lia. cbn [assert_ mbind result_bind]. by case_match.
Qed.

Lemma path_spec {E} h n i : wf_node h n → (h <= TREE_HEIGHT_EXCEPT_ROOT)%nat → 0 <= i < width h →
  match leaf_at n i with
  | None => path (E:=E) n i = Ok None
  | Some v => ∃ p, path (E:=E) n i = Ok (Some p) ∧ length p = h ∧ fold_path v p = node_root n
  end.
Proof.
  intros W Hh Hi. revert i Hi. induction W as [|v|h l r Wl Wr IHl IHr] using wf_node_join_ind; intros i Hi.
  - done.
  - rewrite width_0 in Hi. assert (i = 0) as -> by lia. cbn. by exists [].
  - rewrite (join_leaf_at h l r i Wl Wr), (join_path h l r i Wl Wr Hi), (join_root h l r Wl Wr).
    rewrite width_S in Hi. destruct (i <? width h) eqn:Hlt.
    + specialize (IHl ltac:(lia) i ltac:(lia)). destruct (leaf_at l i) as [v|]; [|by rewrite IHl].
      destruct IHl as (p & -> & Hp & Hfold). cbn [mbind result_bind].
      rewrite (proj2 (Nat.leb_gt _ _)), (value_ok h r) by (done || lia). cbn [mbind result_bind].
      eexists. split; [done|]. rewrite length_app. split; [cbn; lia|].
      unfold fold_path in *. rewrite foldl_app, Hfold. done.
    + specialize (IHr ltac:(lia) (i - width h) ltac:(lia)).
      destruct (leaf_at r (i - width h)) as [v|]; [|by rewrite IHr].
      destruct IHr as (p & -> & Hp & Hfold). cbn [mbind result_bind].
      rewrite (proj2 (Nat.leb_gt _ _)), (value_ok h l) by (done || lia). cbn [mbind result_bind].
      eexists. split; [done|]. rewrite length_app. split; [cbn; lia|].
      unfold fold_path in *. rewrite foldl_app, Hfold. done.
Qed.

Lemma testbit_low h i (k : nat) : (k < h)%nat → Z.testbit (i - width h) (Z.of_nat k) = Z.testbit i (Z.of_nat k).
Proof.
  intros Hk. unfold width. replace (i - 2 ^ Z.of_nat h) with (i + (-1) * 2 ^ Z.of_nat h) by lia.
  rewrite <- (Z.mod_pow2_bits_low (i + _) (Z.of_nat h)) by lia. rewrite Z_mod_plus_full.
  by rewrite Z.mod_pow2_bits_low by lia.
Qed.

Lemma testbit_top h i : 0 <= i < width (S h) → Z.testbit i (Z.of_nat h) = negb (i <? width h).
Proof.
  rewrite width_S. intros Hi. pose proof (width_pos h). destruct (Z.ltb_spec i (width h)) as [Hlt|Hge]; cbn.
  - destruct (Z.eq_dec i 0) as [->|]; [apply Z.bits_0|].
    apply Z.bits_above_log2; [lia|]. by apply Z.log2_lt_pow2; [lia|].
  - apply Z.testbit_true; [lia|]. fold (width h).
    by rewrite <- (Z.div_unique i (width h) 1 (i - width h)) by lia.
Qed.

(** A path that leads from [v] to the root at the sides of [i] opens the leaf at
    [i], an empty one as [EMPTY_VALUE], or exhibits a collision of the hash. *)
Lemma path_binding h n i v p : wf_node h n → 0 <= i < width h →
  length p = h → sides i p → fold_path v p = node_root n →
  v = default EMPTY_VALUE (leaf_at n i) ∨ collision.
Proof.
  intros W. revert i p. induction W as [|v'|h l r Wl Wr IHl IHr] using wf_node_join_ind; intros i p Hi Hp Hs Hf.
  - left. destruct p; [|done]. by cbn in Hf.
  - left. destruct p; [|done]. rewrite width_0 in Hi. assert (i = 0) as -> by lia. by cbn in Hf.
  - destruct p as [|s p _] using rev_ind; [done|]. rewrite length_app in Hp. cbn in Hp.
    assert (length p = h) as Hp' by lia. rewrite (join_leaf_at h l r i Wl Wr).
    rewrite (join_root h l r Wl Wr) in Hf. unfold fold_path in Hf. rewrite foldl_app in Hf. cbn in Hf.
    fold (fold_path v p) in Hf. pose proof (testbit_top h i Hi) as Htop. rewrite width_S in Hi.
    pose proof (Hs h s) as Hsh. rewrite lookup_app_r, Hp', Nat.sub_diag, Htop in Hsh by lia.
    specialize (Hsh eq_refl).
    assert (∀ (k : nat) x, p !! k = Some x → (k < h)%nat ∧ (p ++ [s]) !! k = Some x) as Hlook.
    { intros k x Hk. apply lookup_lt_Some in Hk as Hlt. split; [lia|]. by rewrite lookup_app_l. }
    destruct (i <? width h) eqn:Hlt, s as [x|x]; try done.
    + destruct (decide ((fold_path v p, x) = (node_root l, node_root r))) as [Heq|Hne].
      * simplify_eq. apply IHl with p; [lia|done| |done]. intros k y Hk. apply Hs, Hlook, Hk.
      * right. by exists (fold_path v p), x, (node_root l), (node_root r).
    + destruct (decide ((x, fold_path v p) = (node_root l, node_root r))) as [Heq|Hne].
      * simplify_eq. apply IHr with p; [lia|done| |done]. intros k y Hk.
        destruct (Hlook k y Hk) as [Hkh Hk']. rewrite testbit_low by done. by apply Hs.
      * right. by exists x, (fold_path v p), (node_root l), (node_root r).
Qed.

End Facts.
