(* ===== verification/MerkleTheorems.v ===== *)
(** * Theorems of the dynamic Merkle tree

    Recovery from sorted entries, validation of deserialized nodes, and the
    contract of [DynamicMerkleTree]. *)

From S2P Require Import Prelude Merkle MerkleFacts.
Import DynamicMerkle.

#[local] Open Scope Z_scope.

#[local] Arguments width : simpl never.

(** Induction on a canonical node: two kinds of leaves, and joined nodes. *)
Ltac node_induction h n W := pattern h, n; revert h n W; apply wf_node_join_ind.

Section Entries.
Context {Hash : Type} `{EqDecision Hash} `{MerkleHasher Hash}.
Implicit Types (n l r : Node Hash) (v : Hash) (h : nat) (i : Z).

(** The occupied positions of a node, in order, from [start]. *)
Fixpoint entries n (start : Z) : list (Z * Hash) :=
  match n with
  | Inner l r _ _ _ _ => entries l start ++ entries r (start + capacity l)
  | EmptyNode _ => []
  | Leaf v => [(start, v)]
  end.

Lemma join_entries h l r start : wf_node h l → wf_node h r →
  entries (join h l r) start = entries l start ++ entries r (start + width h).
Proof.
  intros Wl Wr. unfold join. destruct (is_empty l && is_empty r) eqn:He; cbn [entries].
  - apply andb_true_iff in He as [El Er]. by rewrite (wf_empty h l Wl El), (wf_empty h r Wr Er).
  - by rewrite (wf_capacity h l Wl).
Qed.

Lemma entries_size h n start : wf_node h n → Z.of_nat (length (entries n start)) = size n.
Proof.
  intros W. revert start. node_induction h n W; [|intros v|intros h l r Wl Wr IHl IHr]; intros start; [done|done|].
  rewrite (join_entries h l r start Wl Wr), length_app, (join_size h l r Wl Wr), Nat2Z.inj_add, IHl, IHr. done.
Qed.

Lemma entries_elem h n start i v : wf_node h n →
  (i, v) ∈ entries n start ↔ start <= i < start + width h ∧ leaf_at n (i - start) = Some v.
Proof.
  intros W. revert start. node_induction h n W; [|intros v'|intros h l r Wl Wr IHl IHr]; intros start.
  - cbn. split; [by intros ?%not_elem_of_nil|by intros [_ ?]].
  - cbn. rewrite list_elem_of_singleton, width_0. split.
    + intros [= -> ->]. split; [lia|]. by rewrite Z.sub_diag.
    + intros [Hi Hv]. assert (i = start) as -> by lia. rewrite Z.sub_diag in Hv. cbn in Hv. by simplify_eq.
  - rewrite (join_entries h l r start Wl Wr), elem_of_app, IHl, IHr, (join_leaf_at h l r _ Wl Wr), width_S.
    pose proof (width_pos h). destruct (Z.ltb_spec (i - start) (width h)).
    + split; [intros [[? ?]|[? _]]; [split; [lia|done]|lia]|]. intros [? ?]. left. split; [lia|done].
    + replace (i - (start + width h)) with (i - start - width h) by lia.
      split; [intros [[? _]|[? ?]]; [lia|split; [lia|done]]|]. intros [? ?]. right. split; [lia|done].
Qed.

(** The entries come in strictly increasing positions. *)
Lemma entries_sorted h n start : wf_node h n →
  StronglySorted (λ x y, x.1 < y.1) (entries n start).
Proof.
  intros W. revert start. node_induction h n W; [|intros v|intros h l r Wl Wr IHl IHr]; intros start;
    [constructor|by repeat constructor|].
  rewrite (join_entries h l r start Wl Wr). apply StronglySorted_app_2; [|done|done].
  intros [i v] [j w] Hi Hj. apply (entries_elem h) in Hi as [? _], Hj as [? _]; [|done..]. cbn. lia.
Qed.

Lemma entries_nil h n start : wf_node h n → entries n start = [] → n = EmptyNode h.
Proof.
  intros W Hn. apply size_0; [done|]. by rewrite <- (entries_size h n start W), Hn.
Qed.

(** ** Recovery *)

(** The first entry of [rest], if any, is at [bound] or later. *)
Definition starts_after (bound : Z) (rest : list (Z * Hash)) : Prop :=
  match rest with [] => True | (i, _) :: _ => bound <= i end.

Lemma starts_after_app h n start rest : wf_node h n → starts_after (start + width h) rest →
  starts_after start (entries n start ++ rest).
Proof.
  intros W Hr. pose proof (width_pos h). destruct (entries n start) as [|[i v] items] eqn:Hit; cbn.
  - destruct rest as [|[i v] rest]; cbn in *; [done|lia].
  - assert ((i, v) ∈ entries n start) as Hin by (rewrite Hit; by constructor).
    apply (entries_elem h) in Hin as [? _]; [lia|done].
Qed.

(** One half of [build_sparse_subtree]: a subtree is built only if the next entry
    is below [bound], the end of the half. *)
Lemma build_half {E} h n start rest : wf_node h n →
  starts_after (start + width h) rest →
  (entries n start ≠ [] ∨ rest = [] →
   build_sparse_subtree (E:=E) h (entries n start ++ rest) start = Ok (n, rest)) →
  match entries n start ++ rest with
  | (i, _) :: _ =>
      if i <? start + width h then build_sparse_subtree (E:=E) h (entries n start ++ rest) start
      else Ok (EmptyNode h, entries n start ++ rest)
  | [] => Ok (EmptyNode h, entries n start ++ rest)
  end = Ok (n, rest).
Proof.
  intros W Hr IH. destruct (entries n start) as [|[i v] items] eqn:Hit; cbn [app].
  - rewrite (entries_nil h n start W Hit). destruct rest as [|[i v] rest]; [done|].
    cbn in Hr. by rewrite (proj2 (Z.ltb_ge _ _)) by lia.
  - assert ((i, v) ∈ entries n start) as Hin by (rewrite Hit; by constructor).
    apply (entries_elem h) in Hin as [? _]; [|done].
    rewrite (proj2 (Z.ltb_lt _ _)) by lia. apply IH. by left.
Qed.

Lemma build_entries {E} h n start rest : wf_node h n → (h <= TREE_HEIGHT_EXCEPT_ROOT)%nat →
  starts_after (start + width h) rest → entries n start ≠ [] ∨ rest = [] →
  build_sparse_subtree (E:=E) h (entries n start ++ rest) start = Ok (n, rest).
Proof.
  intros W. revert start rest. node_induction h n W; [|intros v|intros h l r Wl Wr IHl IHr]; intros start rest Hh Hr Hor.
  - destruct Hor as [?| ->]; [done|]. done.
  - cbn -[Z.shiftl]. by rewrite Z.leb_refl, Z.sub_diag.
  - pose proof (width_pos h). rewrite (join_entries h l r start Wl Wr) in *.
    assert (Z.shiftl 1 (Z.of_nat (S h)) = width (S h)) as Ecap by (by rewrite Z.shiftl_1_l).
    assert (width (S h) / 2 = width h) as Ehalf by (rewrite width_S, Z.mul_comm; by apply Z.div_mul).
    assert (starts_after (start + width h + width h) rest) as Hr'
      by (rewrite width_S in Hr; by replace (start + width h + width h) with (start + 2 * width h) by lia).
    pose proof (build_half (E:=E) h l start (entries r (start + width h) ++ rest) Wl
      (starts_after_app h r _ rest Wr Hr')) as HL.
    pose proof (build_half (E:=E) h r (start + width h) rest Wr Hr') as HR.
    replace (start + width h + width h) with (start + width (S h)) in HR by (rewrite width_S; lia).
    rewrite <- app_assoc.
    destruct (entries l start ++ entries r (start + width h) ++ rest) as [|[i v] items] eqn:Hit.
    { apply app_nil in Hit as [Hl [Hr2 ->]%app_nil].
      by rewrite (entries_nil h l start Wl Hl), (entries_nil h r _ Wr Hr2). }
    assert (start <= i < start + width (S h)) as Hi.
    { apply (entries_elem (S h) (join h l r) start i v (join_wf h l r Wl Wr)).
      rewrite join_entries by done. rewrite app_assoc in Hit.
      destruct (entries l start ++ entries r (start + width h)) as [|e es]; cbn in Hit.
      - destruct Hor as [?| ->]; done.
      - simplify_eq. by constructor. }
    cbn [build_sparse_subtree]. rewrite Ecap, Ehalf.
    rewrite (proj2 (Z.leb_le start i)), (proj2 (Z.ltb_lt (i - start) _)) by lia.
    cbn [andb assert_ mbind result_bind]. rewrite HL. 2:{ intros HO. rewrite <- Hit. apply IHl; [lia| |done]. by apply (starts_after_app h r). }
    cbn [mbind result_bind]. rewrite HR; [|intros HO; apply IHr; [lia|done|done]].
    cbn [mbind result_bind]. by rewrite (new_inner_join h l r Wl Wr) by lia.
Qed.

Lemma sorted_split (items : list (Z * Hash)) (mid : Z) : StronglySorted (λ x y, x.1 < y.1) items →
  ∃ l1 l2 : list (Z * Hash), items = l1 ++ l2 ∧ Forall (λ x, x.1 < mid) l1 ∧ Forall (λ x, mid <= x.1) l2 ∧
    StronglySorted (λ x y, x.1 < y.1) l1 ∧ StronglySorted (λ x y, x.1 < y.1) l2.
Proof.
  induction 1 as [|x items HS (l1 & l2 & -> & H1 & H2 & S1 & S2) Hx]; [exists [], []; repeat constructor|].
  destruct (Z.lt_ge_cases x.1 mid).
  - exists (x :: l1), l2. apply Forall_app in Hx as [? _]. split_and!; [done|by constructor|done|by constructor|done].
  - exists [], (x :: l1 ++ l2). split_and!; [done|constructor| |constructor|by constructor].
    constructor; [lia|]. eapply Forall_impl; [done|]. cbn. intros; lia.
Qed.

(** Every strictly increasing list of entries in range is that of a node. *)
Lemma entries_exist h start items : StronglySorted (λ x y, x.1 < y.1) items →
  Forall (λ x, start <= x.1 < start + width h) items → ∃ n, wf_node h n ∧ entries n start = items.
Proof.
  revert start items. induction h as [|h IH]; intros start items HS HF.
  - destruct HS as [|[i v] items HS Hx]; [by exists (EmptyNode 0)|].
    apply Forall_cons in HF as [Hi HF]. rewrite width_0 in *. cbn in Hi. assert (i = start) as -> by lia.
    destruct items as [|[j w] items]; [by exists (Leaf v)|].
    apply Forall_cons in HF as [? _], Hx as [? _]. cbn in *. lia.
  - destruct (sorted_split items (start + width h) HS) as (l1 & l2 & -> & H1 & H2 & S1 & S2).
    rewrite Forall_app, width_S in HF. destruct HF as [F1 F2].
    destruct (IH start l1) as (l & Wl & <-); [done| |].
    { rewrite Forall_forall in *. intros x Hx. specialize (H1 x Hx). specialize (F1 x Hx). cbn in *. lia. }
    destruct (IH (start + width h) l2) as (r & Wr & <-); [done| |].
    { rewrite Forall_forall in *. intros x Hx. specialize (H2 x Hx). specialize (F2 x Hx). cbn in *. lia. }
    exists (join h l r). split; [by apply join_wf|by apply join_entries].
Qed.

(** ** Deserialized nodes *)

Lemma rebuild_wf n n' : rebuild_and_validate n = Ok n' →
  wf_node (height n') n' ∧ (height n' <= TREE_HEIGHT_EXCEPT_ROOT)%nat.
Proof.
  revert n'. induction n as [l IHl r IHr v rs ls hh|h|v]; intros n'; cbn [rebuild_and_validate].
  - intros Hok. apply result_bind_ok in Hok as (l' & Hl & Hok). apply result_bind_ok in Hok as (r' & Hr & Hok).
    apply result_bind_ok in Hok as ([] & Hh & Hok). apply result_bind_ok in Hok as (m & Hm & Hok).
    apply result_bind_ok in Hok as ([] & Hb & [= <-]). apply err_if_ok in Hh, Hb.
    destruct (IHl l' Hl) as [Wl Bl], (IHr r' Hr) as [Wr Br].
    apply negb_false_iff, Nat.eqb_eq in Hh. rewrite <- Hh in Wr. apply Nat.ltb_ge in Hb.
    rewrite (new_inner_join (height l') l' r' Wl Wr Bl) in Hm. apply Ok_inj in Hm as <-.
    split; [|done]. rewrite (wf_height (S (height l')) (join (height l') l' r')); by apply join_wf.
  - intros Hok. apply result_bind_ok in Hok as ([] & Hb & [= <-]). apply err_if_ok, Nat.ltb_ge in Hb.
    split; [by destruct h|done].
  - intros [= <-]. split; [done|]. cbn. lia.
Qed.

Lemma rebuild_id h n : wf_node h n → (h <= TREE_HEIGHT_EXCEPT_ROOT)%nat → rebuild_and_validate n = Ok n.
Proof.
  intros W. node_induction h n W; [done|done|]. intros h l r Wl Wr IHl IHr Hh.
  unfold join. destruct (is_empty l && is_empty r) eqn:He; cbn [rebuild_and_validate].
  - by rewrite (proj2 (Nat.ltb_ge _ _)) by lia.
  - rewrite IHl, IHr by lia. cbn [mbind result_bind].
    rewrite (wf_height h l Wl), (wf_height h r Wr), Nat.eqb_refl. cbn [negb err_if mbind result_bind].
    rewrite (new_inner_join h l r Wl Wr) by lia. cbn [mbind result_bind]. unfold join. rewrite He.
    cbn [height]. by rewrite (proj2 (Nat.ltb_ge _ _)) by lia.
Qed.

(** ** The reference root: the hash of the complete tree *)

Fixpoint full_root h (leaf : Z → option Hash) : Hash :=
  match h with
  | O => default EMPTY_VALUE (leaf 0)
  | S h => compress (full_root h leaf) (full_root h (λ i, leaf (i + width h)))
  end.

Lemma full_root_ext h f g : (∀ i, 0 <= i < width h → f i = g i) → full_root h f = full_root h g.
Proof.
  revert f g. induction h as [|h IH]; intros f g Hfg; cbn; [by rewrite Hfg by (rewrite width_0; lia)|].
  pose proof (width_pos h). f_equal; apply IH; intros i Hi; apply Hfg; rewrite width_S; lia.
Qed.

Lemma node_root_full h n : wf_node h n → node_root n = full_root h (leaf_at n).
Proof.
  intros W. node_induction h n W; [done|done|]. intros h l r Wl Wr IHl IHr. cbn.
  rewrite (join_root h l r Wl Wr), IHl, IHr. pose proof (width_pos h). f_equal; apply full_root_ext; intros i Hi.
  - rewrite (join_leaf_at h l r i Wl Wr). by rewrite (proj2 (Z.ltb_lt _ _)) by lia.
  - rewrite (join_leaf_at h l r _ Wl Wr). rewrite (proj2 (Z.ltb_ge _ _)) by lia. f_equal. lia.
Qed.

End Entries.

(** ** The contract of [DynamicMerkleTree] *)

Section Contract.
Context {Hash : Type} `{EqDecision Hash} `{MerkleHasher Hash}.
Implicit Types (n : Node Hash) (v : Hash) (i : Z).

(** The roots of trees: canonical nodes of the full height. *)
Notation wf_root := (wf_node TREE_HEIGHT_EXCEPT_ROOT).

Notation tree_capacity := (width TREE_HEIGHT_EXCEPT_ROOT).

Lemma empty_tree_wf : wf_root empty_tree.
Proof. done. Qed.

Lemma insert_ok {E} h n v : wf_node h n → (h <= TREE_HEIGHT_EXCEPT_ROOT)%nat → size n < width h →
  ∃ n' i, insert (E:=E) n v = Ok (n', i) ∧ lowest_free h n i ∧ wf_node h n' ∧ size n' = size n + 1 ∧
    ∀ j, 0 <= j < width h → leaf_at n' j = if j =? i then Some v else leaf_at n j.
Proof.
  intros W Hh Hs. unfold insert. rewrite (wf_capacity h n W), (proj2 (Z.ltb_lt _ _)) by done.
  cbn [assert_ mbind result_bind].
  destruct (first_empty_spec h n W Hs) as (i & Hi & Hlow). rewrite Hi. cbn [expect mbind result_bind].
  pose proof Hlow as (Hr & Hn & _).
  destruct (modify_spec (E:=E) h n i (λ node, match node with EmptyNode _ => Ok (Leaf v) | _ => Fault Panic end)
    (Leaf v) W Hh Hr) as (n' & Hn' & W' & Hl & Hsz); [right; auto|done|].
  unfold insert_at. rewrite Hn'. exists n', i. rewrite Hn in Hsz. cbn in Hsz. do 3 (split; [done|]). split; [lia|done].
Qed.

Lemma remove_ok {E} h n i v : wf_node h n → (h <= TREE_HEIGHT_EXCEPT_ROOT)%nat → 0 <= i < width h →
  leaf_at n i = Some v →
  ∃ n', remove (E:=E) n i = Ok n' ∧ wf_node h n' ∧ size n' = size n - 1 ∧
    ∀ j, 0 <= j < width h → leaf_at n' j = if j =? i then None else leaf_at n j.
Proof.
  intros W Hh Hi Hv. unfold remove. rewrite (wf_capacity h n W), (proj2 (Z.ltb_lt _ _)) by lia.
  cbn [assert_ mbind result_bind].
  destruct (modify_spec (E:=E) h n i (λ node, match node with Leaf _ => Ok (EmptyNode 0) | _ => Fault Panic end)
    (EmptyNode 0) W Hh Hi) as (n' & Hn' & W' & Hl & Hsz); [left; eauto|done|].
  exists n'. rewrite Hv in Hsz. cbn in Hsz. do 2 (split; [done|]). split; [lia|done].
Qed.

Lemma update_ok {E} h n i v w : wf_node h n → (h <= TREE_HEIGHT_EXCEPT_ROOT)%nat → 0 <= i < width h →
  leaf_at n i = Some v →
  ∃ n', update (E:=E) n i w = Ok n' ∧ wf_node h n' ∧ size n' = size n ∧
    ∀ j, 0 <= j < width h → leaf_at n' j = if j =? i then Some w else leaf_at n j.
Proof.
  intros W Hh Hi Hv. unfold update. rewrite (wf_capacity h n W), (proj2 (Z.ltb_lt _ _)) by lia.
  cbn [assert_ mbind result_bind].
  destruct (modify_spec (E:=E) h n i (λ node, match node with Leaf _ => Ok (Leaf w) | _ => Fault Panic end)
    (Leaf w) W Hh Hi) as (n' & Hn' & W' & Hl & Hsz); [left; eauto|done|].
  exists n'. rewrite Hv in Hsz. cbn in Hsz. do 2 (split; [done|]). split; [lia|done].
Qed.

(** Inserting takes the lowest free position and changes nothing else; it
    panics only on a full tree. *)
Theorem tree_insert_spec {E} n v : wf_root n →
  if decide (size n < tree_capacity) then
    ∃ n' i, insert (E:=E) n v = Ok (n', i) ∧ lowest_free TREE_HEIGHT_EXCEPT_ROOT n i ∧ wf_root n' ∧
      size n' = size n + 1 ∧
      ∀ j, 0 <= j < tree_capacity → leaf_at n' j = if j =? i then Some v else leaf_at n j
  else insert (E:=E) n v = Fault Panic.
Proof.
  intros W. case_decide as Hs; [exact (insert_ok TREE_HEIGHT_EXCEPT_ROOT n v W (le_n _) Hs)|].
  unfold insert. rewrite (wf_capacity _ n W). by rewrite (proj2 (Z.ltb_ge _ _)) by lia.
Qed.

(** Removing and updating change exactly the given occupied position. *)
Theorem tree_remove_update_spec {E} n i v w : wf_root n → 0 <= i < tree_capacity → leaf_at n i = Some v →
  (∃ n', remove (E:=E) n i = Ok n' ∧ wf_root n' ∧ size n' = size n - 1 ∧
     ∀ j, 0 <= j < tree_capacity → leaf_at n' j = if j =? i then None else leaf_at n j) ∧
  (∃ n', update (E:=E) n i w = Ok n' ∧ wf_root n' ∧ size n' = size n ∧
     ∀ j, 0 <= j < tree_capacity → leaf_at n' j = if j =? i then Some w else leaf_at n j).
Proof.
  intros W Hi Hv. split.
  - exact (remove_ok TREE_HEIGHT_EXCEPT_ROOT n i v W (le_n _) Hi Hv).
  - exact (update_ok TREE_HEIGHT_EXCEPT_ROOT n i v w W (le_n _) Hi Hv).
Qed.

Lemma root_ok {E} n : wf_root n → root (E:=E) n = Ok (node_root n).
Proof.
  destruct n as [l r v rs ls hh|h|v]; [done| |done]. intros W. apply wf_height in W as E1. cbn in E1. subst h.
  cbn [root node_root height]. by apply empty_subtree_root_ok.
Qed.

(** The root of the collapsed tree is that of the complete tree with
    [EMPTY_VALUE] at every free position. *)
Theorem tree_root_full {E} n : wf_root n →
  root (E:=E) n = Ok (full_root TREE_HEIGHT_EXCEPT_ROOT (leaf_at n)).
Proof. intros W. rewrite (root_ok n W). f_equal. by apply node_root_full. Qed.

(** The path of an occupied position has one sibling per level and leads
    from its leaf to the root; a free position has no path. *)
Theorem tree_path_spec {E} n i : wf_root n → 0 <= i < tree_capacity →
  match leaf_at n i with
  | None => tree_path (E:=E) n i = Ok None
  | Some v => ∃ p, tree_path (E:=E) n i = Ok (Some p) ∧ length p = TREE_HEIGHT_EXCEPT_ROOT ∧
                root (E:=E) n = Ok (fold_path v p)
  end.
Proof.
  intros W Hi. pose proof (path_spec (E:=E) _ n i W ltac:(done) Hi) as Hp. unfold tree_path.
  destruct (leaf_at n i) as [v|]; [|by rewrite Hp]. destruct Hp as (p & -> & Hlen & Hfold).
  exists p. cbn [mbind result_bind]. rewrite Hlen, Nat.eqb_refl. split; [done|]. split; [done|].
  by rewrite (root_ok n W), Hfold.
Qed.

(** Binding. A value and a path that lead to the root of the tree at a
    position are the leaf of the tree there, an empty one being [EMPTY_VALUE],
    unless they exhibit a collision of the hash. *)
Theorem tree_path_binding {E} n i v p : wf_root n → 0 <= i < tree_capacity →
  length p = TREE_HEIGHT_EXCEPT_ROOT → sides i p → root (E:=E) n = Ok (fold_path v p) →
  v = default EMPTY_VALUE (leaf_at n i) ∨ collision.
Proof.
  intros W Hi Hp Hs Hr. rewrite (root_ok n W) in Hr. apply Ok_inj in Hr.
  by apply (path_binding TREE_HEIGHT_EXCEPT_ROOT n i v p).
Qed.

Lemma from_entries {E} n : wf_root n → from_sorted_items (E:=E) (entries n 0) = Ok n.
Proof.
  intros W. unfold from_sorted_items.
  pose proof (build_entries (E:=E) _ n 0 [] W ltac:(done) I ltac:(by right)) as Hb.
  rewrite app_nil_r in Hb. by rewrite Hb.
Qed.

Lemma from_sorted_ok {E} items : StronglySorted (λ x y, x.1 < y.1) items →
  Forall (λ x, 0 <= x.1 < tree_capacity) items →
  ∃ n, from_sorted_items (E:=E) items = Ok n ∧ wf_root n ∧
    ∀ i v, 0 <= i < tree_capacity → leaf_at n i = Some v ↔ (i, v) ∈ items.
Proof.
  intros HS HF. destruct (entries_exist TREE_HEIGHT_EXCEPT_ROOT 0 items HS) as (n & W & <-).
  { by rewrite Z.add_0_l. }
  exists n. split; [by apply from_entries|]. split; [done|].
  intros i v Hi. rewrite (entries_elem _ n 0 i v W), Z.sub_0_r, Z.add_0_l.
  split; [intros ?; split; assumption|intros [_ ?]; assumption].
Qed.

(** Recovery. A strictly increasing list of entries within the capacity
    rebuilds the tree that holds exactly them, the one any sequence of
    operations with that content ends in. *)
Theorem from_sorted_items_spec {E} items : StronglySorted (λ x y, x.1 < y.1) items →
  Forall (λ x, 0 <= x.1 < tree_capacity) items →
  ∃ n, from_sorted_items (E:=E) items = Ok n ∧ wf_root n ∧
    (∀ i v, 0 <= i < tree_capacity → leaf_at n i = Some v ↔ (i, v) ∈ items) ∧
    ∀ m, wf_root m → (∀ i, 0 <= i < tree_capacity → leaf_at m i = leaf_at n i) → m = n.
Proof.
  intros HS HF. destruct (from_sorted_ok (E:=E) items HS HF) as (n & Hok & W & Hl).
  exists n. split; [done|]. split; [done|]. split; [exact Hl|].
  intros m Wm Heq. exact (canonical_eq TREE_HEIGHT_EXCEPT_ROOT m n Wm W Heq).
Qed.

(** Whatever node was serialized, a tree that deserializes is well formed,
    and a well-formed tree deserializes to itself. *)
Theorem deserialize_tree_spec n :
  (∀ n', deserialize_tree n = Ok n' → wf_root n') ∧ (wf_root n → deserialize_tree n = Ok n).
Proof.
  unfold deserialize_tree. split.
  - intros n'. destruct (rebuild_and_validate n) as [m| |] eqn:Hm; [|done|done].
    destruct (rebuild_wf n m Hm) as [W _]. destruct (Nat.eqb_spec (height m) TREE_HEIGHT_EXCEPT_ROOT) as [Eh|]; [|done].
    cbn [negb orb]. rewrite Eh in W. intros Hok. destruct m; by simplify_eq.
  - intros W. rewrite (rebuild_id _ n W) by done. rewrite (wf_height _ n W), Nat.eqb_refl. by destruct n.
Qed.

End Contract.
