(* ===== verification/MerkleStore.v ===== *)
(** * The keyed Merkle store

    [MerkleTree] of merkle/tree/src/lib.rs: items by key, each with the position
    of its leaf in a dynamic Merkle tree; its compressed form and the recovery
    from it; and [UtxoTree] of merkle/utxotree/src/lib.rs, the store whose leaf
    is the key. The last section states what the store promises its clients as a
    class, and the store is shown to keep it. At the end, the theorems of the
    trees and the store applied to concrete trees. *)

From stdpp Require Import sorting.
From S2P Require Import Prelude Merkle MerkleFacts MerkleTheorems.

Import DynamicMerkle.

#[local] Open Scope Z_scope.

#[local] Arguments width : simpl never.

(** [BTreeMap] iteration: by increasing key. *)
Definition key_le {A} (x y : Z * A) : Prop := x.1 <= y.1.

#[export] Instance key_le_dec {A} (x y : Z * A) : Decision (key_le x y).
Proof. unfold key_le. apply _. Defined.

Definition btree_iter {A} (m : gmap Z A) : list (Z * A) := merge_sort key_le (map_to_list m).

Module KeyedTree.

(** The trait [LeafExtractor]. *)
Class LeafExtractor (Key Item Hash : Type) := { leaf : Key → Item → Hash }.

(** [Error::NotFound]. *)
Inductive StoreError := NotFound.

Inductive RecoveryError :=
  | PositionOutOfBounds (position capacity : Z)
  | DuplicateKey (position : Z).

(** [MerkleTree]. *)
Record MerkleTree (Key Item Hash : Type) `{Countable Key} := mkTree {
  merkle : Node Hash;
  items : gmap Key (Item * Z)
}.

Arguments mkTree {Key Item Hash _ _} merkle items.
Arguments merkle {Key Item Hash _ _} _.
Arguments items {Key Item Hash _ _} _.

(** [CompressedMerkleTree]: a [BTreeMap] from positions. *)
Record CompressedMerkleTree (Key Item : Type) := mkCompressed { c_items : gmap Z (Key * Item) }.

Arguments mkCompressed {Key Item} c_items.
Arguments c_items {Key Item} _.

Section Store.
Context {Key Item Hash : Type} `{Countable Key} `{MerkleHasher Hash} `{LeafExtractor Key Item Hash}.
Implicit Types (t : MerkleTree Key Item Hash) (key : Key) (item : Item).

Definition new : MerkleTree Key Item Hash := mkTree empty_tree ∅.

Definition store_size t : Z := size (merkle t).

Definition store_root {E} t : result E Hash := root (merkle t).

Definition contains t key : bool := bool_decide (is_Some (items t !! key)).

Definition get t key : option Item := fst <$> items t !! key.

Definition store_path {E} t key : result E (option (list (MerkleNode Hash))) :=
  match items t !! key with
  | Some (_, pos) => tree_path (merkle t) pos
  | None => Ok None
  end.

(** [MerkleTree::insert]: also when the key is present. *)
Definition store_insert {E} t key item : result E (MerkleTree Key Item Hash * Z) :=
  '(m, pos) ← insert (merkle t) (leaf key item);
  Ok (mkTree m (<[key := (item, pos)]> (items t)), pos).

Definition store_update t key item : result StoreError (MerkleTree Key Item Hash) :=
  '(_, pos) ← ok_or (items t !! key) NotFound;
  m ← update (merkle t) pos (leaf key item);
  Ok (mkTree m (<[key := (item, pos)]> (items t))).

Definition store_remove t key : result StoreError (MerkleTree Key Item Hash * Item) :=
  '(item, pos) ← ok_or (items t !! key) NotFound;
  m ← remove (merkle t) pos;
  Ok (mkTree m (delete key (items t)), item).

(** [MerkleTree::compressed]: positions are distinct, so the order in which the
    hash map is visited does not matter. *)
Definition compressed t : CompressedMerkleTree Key Item :=
  mkCompressed (collect_map ((λ '(k, (v, pos)), (pos, (k, v))) <$> map_to_list (items t))).

(** [FromIterator]. *)
Fixpoint from_iter {E} t (l : list (Key * Item)) : result E (MerkleTree Key Item Hash) :=
  match l with
  | [] => Ok t
  | (key, item) :: l => '(t, _) ← store_insert t key item; from_iter t l
  end.

(** The checks of [TryFrom<CompressedMerkleTree>], in the order of positions. *)
Fixpoint check_entries (keys : gset Key) (l : list (Z * (Key * Item))) : result RecoveryError unit :=
  match l with
  | [] => Ok tt
  | (position, (key, _)) :: l =>
      let capacity := Z.shiftl 1 (Z.of_nat TREE_HEIGHT_EXCEPT_ROOT) in
      err_if (capacity <=? position) (PositionOutOfBounds position capacity);;
      err_if (bool_decide (key ∈ keys)) (DuplicateKey position);;
      check_entries ({[key]} ∪ keys) l
  end.

(** The positions and the leaves of the entries, in order. *)
Definition sorted_leaves (c : CompressedMerkleTree Key Item) : list (Z * Hash) :=
  (λ '(pos, (key, item)), (pos, leaf key item)) <$> btree_iter (c_items c).

(** [TryFrom<CompressedMerkleTree> for MerkleTree]. *)
Definition recover (c : CompressedMerkleTree Key Item) : result RecoveryError (MerkleTree Key Item Hash) :=
  let l := btree_iter (c_items c) in
  check_entries ∅ l;;
  m ← from_sorted_items (sorted_leaves c);
  Ok (mkTree m (collect_map ((λ '(pos, (key, item)), (key, (item, pos))) <$> l))).

(** ** The invariant *)

Record wf_store t : Prop := {
  ws_node : wf_node TREE_HEIGHT_EXCEPT_ROOT (merkle t);
  ws_leaf : ∀ key item pos, items t !! key = Some (item, pos) →
    0 <= pos < width TREE_HEIGHT_EXCEPT_ROOT ∧ leaf_at (merkle t) pos = Some (leaf key item);
  ws_item : ∀ pos v, 0 <= pos < width TREE_HEIGHT_EXCEPT_ROOT → leaf_at (merkle t) pos = Some v →
    ∃ key item, items t !! key = Some (item, pos);
  ws_inj : ∀ k1 k2 i1 i2 pos, items t !! k1 = Some (i1, pos) → items t !! k2 = Some (i2, pos) → k1 = k2
}.

Lemma new_wf : wf_store new.
Proof. constructor; [done|done|done|done]. Qed.

Lemma store_insert_ok {E} t key item : wf_store t → items t !! key = None →
  store_size t < width TREE_HEIGHT_EXCEPT_ROOT →
  ∃ t' pos, store_insert (E:=E) t key item = Ok (t', pos) ∧ wf_store t' ∧
    lowest_free TREE_HEIGHT_EXCEPT_ROOT (merkle t) pos ∧ store_size t' = store_size t + 1 ∧
    items t' = <[key := (item, pos)]> (items t).
Proof.
  intros [W Hl Hi Hinj] Hk Hs. unfold store_insert.
  destruct (insert_ok (E:=E) TREE_HEIGHT_EXCEPT_ROOT (merkle t) (leaf key item) W (le_n _) Hs)
    as (m & pos & -> & Hlow & W' & Hsz & Hat). cbn [mbind result_bind].
  exists (mkTree m (<[key := (item, pos)]> (items t))), pos. split; [done|].
  destruct Hlow as (Hr & Hn & Hmin). split; [|by split; [split|]]. constructor; cbn [merkle items].
  - exact W'.
  - intros k i p. rewrite lookup_insert_Some. intros [[<- [= <- <-]]|[Hne Hki]].
    + split; [done|]. by rewrite Hat, Z.eqb_refl by done.
    + destruct (Hl k i p Hki) as [Hp Hv]. split; [done|]. rewrite Hat by done.
      destruct (Z.eqb_spec p pos) as [->|]; congruence.
  - intros p v Hp. rewrite Hat by done. destruct (Z.eqb_spec p pos) as [->|Hne].
    + intros _. exists key, item. by rewrite lookup_insert_eq.
    + intros Hv. destruct (Hi p v Hp Hv) as (k & i & Hki). exists k, i.
      rewrite lookup_insert_ne; [done|]. congruence.
  - intros k1 k2 i1 i2 p. rewrite !lookup_insert_Some.
    intros [[<- H1']|[Hn1 H1']] [[<- H2']|[Hn2 H2']]; simplify_eq; [done| | |by eapply Hinj].
    + destruct (Hl _ _ _ H2') as [_ ?]. congruence.
    + destruct (Hl _ _ _ H1') as [_ ?]. congruence.
Qed.

Lemma store_remove_ok t key item pos : wf_store t → items t !! key = Some (item, pos) →
  ∃ t', store_remove t key = Ok (t', item) ∧ wf_store t' ∧ store_size t' = store_size t - 1 ∧
    items t' = delete key (items t).
Proof.
  intros [W Hl Hi Hinj] Hk. destruct (Hl key item pos Hk) as [Hp Hv]. unfold store_remove. rewrite Hk.
  cbn [ok_or mbind result_bind].
  destruct (remove_ok (E:=StoreError) TREE_HEIGHT_EXCEPT_ROOT (merkle t) pos _ W (le_n _) Hp Hv)
    as (m & -> & W' & Hsz & Hat). cbn [mbind result_bind].
  exists (mkTree m (delete key (items t))). split; [done|]. split; [|done]. constructor; cbn [merkle items].
  - exact W'.
  - intros k i p. rewrite lookup_delete_Some. intros [Hne Hki]. destruct (Hl k i p Hki) as [Hp' Hv'].
    split; [done|]. rewrite Hat by done. destruct (Z.eqb_spec p pos) as [->|]; [|done].
    by destruct Hne; eapply Hinj.
  - intros p v Hp'. rewrite Hat by done. destruct (Z.eqb_spec p pos) as [->|Hne]; [done|]. intros Hv'.
    destruct (Hi p v Hp' Hv') as (k & i & Hki). exists k, i. rewrite lookup_delete_ne; [done|]. congruence.
  - intros k1 k2 i1 i2 p. rewrite !lookup_delete_Some. intros [_ ?] [_ ?]. by eapply Hinj.
Qed.

Lemma store_update_ok t key item0 item pos : wf_store t → items t !! key = Some (item0, pos) →
  ∃ t', store_update t key item = Ok t' ∧ wf_store t' ∧ store_size t' = store_size t ∧
    items t' = <[key := (item, pos)]> (items t).
Proof.
  intros [W Hl Hi Hinj] Hk. destruct (Hl key item0 pos Hk) as [Hp Hv]. unfold store_update. rewrite Hk.
  cbn [ok_or mbind result_bind].
  destruct (update_ok (E:=StoreError) TREE_HEIGHT_EXCEPT_ROOT (merkle t) pos _ (leaf key item) W (le_n _) Hp Hv)
    as (m & -> & W' & Hsz & Hat). cbn [mbind result_bind].
  exists (mkTree m (<[key := (item, pos)]> (items t))). split; [done|]. split; [|done]. constructor; cbn [merkle items].
  - exact W'.
  - intros k i p. rewrite lookup_insert_Some. intros [[<- [= <- <-]]|[Hne Hki]].
    + split; [done|]. by rewrite Hat, Z.eqb_refl by done.
    + destruct (Hl k i p Hki) as [Hp' Hv']. split; [done|]. rewrite Hat by done.
      destruct (Z.eqb_spec p pos) as [->|]; [|done]. by destruct Hne; eapply Hinj.
  - intros p v Hp'. rewrite Hat by done. destruct (Z.eqb_spec p pos) as [->|Hne].
    + intros _. exists key, item. by rewrite lookup_insert_eq.
    + intros Hv'. destruct (Hi p v Hp' Hv') as (k & i & Hki). exists k, i. rewrite lookup_insert_ne; [done|]. congruence.
  - intros k1 k2 i1 i2 p. rewrite !lookup_insert_Some.
    intros [[<- H1']|[Hn1 H1']] [[<- H2']|[Hn2 H2']]; simplify_eq; [done|by eapply Hinj|by eapply Hinj|by eapply Hinj].
Qed.

(** ** The compressed form *)

Lemma btree_iter_elem {A} (c : gmap Z A) i x : (i, x) ∈ btree_iter c ↔ c !! i = Some x.
Proof. unfold btree_iter. rewrite merge_sort_Permutation. apply elem_of_map_to_list. Qed.

Lemma btree_iter_sorted {A} (c : gmap Z A) : StronglySorted (λ x y, x.1 < y.1) (btree_iter c).
Proof.
  assert (NoDup (btree_iter c).*1) as HN
    by (unfold btree_iter; rewrite merge_sort_Permutation; apply NoDup_fst_map_to_list).
  assert (StronglySorted key_le (btree_iter c)) as HS.
  { apply StronglySorted_merge_sort; [intros x y z; unfold key_le; lia|intros x y; unfold key_le; lia]. }
  induction HS as [|x l HS IH Hx]; [constructor|]. cbn in HN. apply NoDup_cons in HN as [Hni HN].
  constructor; [by apply IH|]. rewrite Forall_forall in *. intros y Hy. specialize (Hx y Hy). unfold key_le in Hx.
  destruct (Z.eq_dec x.1 y.1) as [Eq|]; [|lia]. destruct Hni. rewrite Eq. by apply list_elem_of_fmap_2.
Qed.

Lemma compressed_lookup t pos k v : wf_store t →
  c_items (compressed t) !! pos = Some (k, v) ↔ items t !! k = Some (v, pos).
Proof.
  intros [_ _ _ Hinj]. cbn [compressed c_items]. rewrite collect_map_lookup.
  - rewrite list_elem_of_fmap. split.
    + intros ([k' [v' p']] & [= -> -> ->] & Hin). by apply elem_of_map_to_list.
    + intros Hk. exists (k, (v, pos)). split; [done|]. by apply elem_of_map_to_list.
  - intros p [k1 v1] [k2 v2].
    intros ([ka [va pa]] & E1 & Hi1%elem_of_map_to_list)%list_elem_of_fmap
      ([kb [vb pb]] & E2 & Hi2%elem_of_map_to_list)%list_elem_of_fmap.
    simplify_eq/=. pose proof (Hinj _ _ _ _ _ Hi1 Hi2) as ->. congruence.
Qed.

Lemma check_entries_ok (keys : gset Key) (l : list (Z * (Key * Item))) :
  check_entries keys l = Ok tt ↔
  Forall (λ x, x.1 < width TREE_HEIGHT_EXCEPT_ROOT) l ∧ NoDup ((λ x, x.2.1) <$> l) ∧
  (∀ x, x ∈ l → x.2.1 ∉ keys).
Proof.
  assert (Z.shiftl 1 (Z.of_nat TREE_HEIGHT_EXCEPT_ROOT) = width TREE_HEIGHT_EXCEPT_ROOT) as Ecap
    by (by rewrite Z.shiftl_1_l).
  revert keys. induction l as [|[pos [k v]] l IH]; intros keys; cbn [check_entries].
  - split; [intros _; split_and!; [constructor|constructor|by intros ? ?%not_elem_of_nil]|done].
  - rewrite Ecap. destruct (Z.leb_spec (width TREE_HEIGHT_EXCEPT_ROOT) pos) as [Hp|Hp]; cbn [err_if mbind result_bind].
    + split; [done|]. intros [HF _]. apply Forall_cons in HF as [? _]. cbn in *. lia.
    + destruct (bool_decide_reflect (k ∈ keys)) as [Hk|Hk]; cbn [err_if mbind result_bind].
      * split; [done|]. intros (_ & _ & Hx). specialize (Hx (pos, (k, v)) (list_elem_of_here _ _)). by cbn in Hx.
      * rewrite IH, Forall_cons, fmap_cons, NoDup_cons. cbn [fst snd]. setoid_rewrite elem_of_cons.
        setoid_rewrite elem_of_union. setoid_rewrite elem_of_singleton. rewrite list_elem_of_fmap. naive_solver.
Qed.

Lemma check_no_fault (keys : gset Key) (l : list (Z * (Key * Item))) f : check_entries keys l ≠ Fault f.
Proof.
  revert keys. induction l as [|[pos [k v]] l IH]; intros keys; cbn [check_entries]; [done|].
  destruct (_ <=? pos); cbn [err_if mbind result_bind]; [done|].
  destruct (bool_decide _); cbn [err_if mbind result_bind]; [done|apply IH].
Qed.

(** The items determine a well-formed store. *)
Lemma wf_store_ext t1 t2 : wf_store t1 → wf_store t2 → items t1 = items t2 → t1 = t2.
Proof.
  intros [W1 L1 I1 _] [W2 L2 I2 _] Eq. destruct t1 as [m1 i1], t2 as [m2 i2]. cbn [merkle items] in *. subst i2. f_equal.
  apply (canonical_eq TREE_HEIGHT_EXCEPT_ROOT); [exact W1|exact W2|]. intros i Hi. apply option_eq. intros v. split; intros Hv.
  - destruct (I1 i v Hi Hv) as (k & it & Hk). destruct (L1 k it i Hk) as [_ E1], (L2 k it i Hk) as [_ E2]. congruence.
  - destruct (I2 i v Hi Hv) as (k & it & Hk). destruct (L1 k it i Hk) as [_ E1], (L2 k it i Hk) as [_ E2]. congruence.
Qed.

(** The positions of a compressed tree, machine integers, within the capacity
    and with distinct keys. *)
Definition recoverable (c : CompressedMerkleTree Key Item) : Prop :=
  (∀ pos x, c_items c !! pos = Some x → pos < width TREE_HEIGHT_EXCEPT_ROOT) ∧
  (∀ p1 p2 k x1 x2, c_items c !! p1 = Some (k, x1) → c_items c !! p2 = Some (k, x2) → p1 = p2).

Lemma recoverable_check c :
  check_entries ∅ (btree_iter (c_items c)) = Ok tt ↔ recoverable c.
Proof.
  rewrite check_entries_ok, Forall_forall. split.
  - intros (Hp & HN & _). split.
    + intros pos x Hx. by apply (Hp (pos, x)), btree_iter_elem.
    + intros p1 p2 k x1 x2 E1%btree_iter_elem E2%btree_iter_elem.
      apply list_elem_of_lookup in E1 as [i1 E1], E2 as [i2 E2].
      assert (i1 = i2) as -> by (eapply NoDup_lookup; [exact HN| |]; rewrite list_lookup_fmap, ?E1, ?E2; done).
      congruence.
  - intros [Hp Hk]. split_and!.
    + intros [pos x] Hx%btree_iter_elem. by apply (Hp pos x).
    + apply NoDup_fmap_2_strong.
      * intros [p1 [k1 x1]] [p2 [k2 x2]] E1%btree_iter_elem E2%btree_iter_elem. cbn. intros ->.
        assert (p1 = p2) as -> by (by eapply Hk). congruence.
      * unfold btree_iter. rewrite merge_sort_Permutation. apply NoDup_map_to_list.
    + set_solver.
Qed.

Lemma recover_merkle {E} c : (∀ pos x, c_items c !! pos = Some x → 0 <= pos) → recoverable c →
  ∃ m, from_sorted_items (E:=E) (sorted_leaves c) = Ok m ∧ wf_node TREE_HEIGHT_EXCEPT_ROOT m ∧
    ∀ i v, 0 <= i < width TREE_HEIGHT_EXCEPT_ROOT →
      leaf_at m i = Some v ↔ ∃ k x, c_items c !! i = Some (k, x) ∧ v = leaf k x.
Proof.
  intros Hpos [Hlt _]. destruct (from_sorted_ok (E:=E) (sorted_leaves c)) as (m & Hm & W & Hl).
  - unfold sorted_leaves. pose proof (btree_iter_sorted (c_items c)) as HS.
    induction HS as [|[p [k x]] l' HS IH Hx]; cbn; constructor; [done|].
    apply Forall_fmap. eapply Forall_impl; [exact Hx|]. by intros [p' [k' x']].
  - apply Forall_fmap, Forall_forall. intros [p [k x]] Hin%btree_iter_elem. cbn. split; [eauto|]. by eapply Hlt.
  - exists m. split; [exact Hm|]. split; [exact W|]. intros i v Hi. rewrite (Hl i v Hi).
    unfold sorted_leaves. rewrite list_elem_of_fmap. split.
    + intros ([p [k x]] & [= -> ->] & Hin%btree_iter_elem). eauto.
    + intros (k & x & Hc & ->). exists (i, (k, x)). split; [done|]. by apply btree_iter_elem.
Qed.

Lemma recover_items c k v pos : recoverable c →
  collect_map ((λ '(pos, (key, item)), (key, (item, pos))) <$> btree_iter (c_items c)) !! k = Some (v, pos) ↔
  c_items c !! pos = Some (k, v).
Proof.
  intros [_ Hkey]. rewrite collect_map_lookup, list_elem_of_fmap.
  - split; [intros ([p [k' x]] & [= -> -> ->] & Hin); by apply btree_iter_elem|].
    intros Hc. exists (pos, (k, v)). split; [done|]. by apply btree_iter_elem.
  - intros k' [x1 p1] [x2 p2]. rewrite !list_elem_of_fmap.
    intros ([q1 [j1 y1]] & [= -> -> ->] & E1%btree_iter_elem) ([q2 [j2 y2]] & [= -> -> ->] & E2%btree_iter_elem).
    assert (q1 = q2) as -> by (by eapply Hkey). congruence.
Qed.

Lemma recovered_wf c m : (∀ pos x, c_items c !! pos = Some x → 0 <= pos) → recoverable c →
  wf_node TREE_HEIGHT_EXCEPT_ROOT m →
  (∀ i v, 0 <= i < width TREE_HEIGHT_EXCEPT_ROOT →
     leaf_at m i = Some v ↔ ∃ k x, c_items c !! i = Some (k, x) ∧ v = leaf k x) →
  wf_store (mkTree m (collect_map ((λ '(pos, (key, item)), (key, (item, pos))) <$> btree_iter (c_items c)))).
Proof.
  intros Hpos HR W Hl. pose proof HR as [Hlt _]. pose proof (λ k v pos, recover_items c k v pos HR) as Hit.
  constructor; cbn [merkle items]; try setoid_rewrite Hit; [exact W| | |].
  - intros k x p Hc. assert (0 <= p < width TREE_HEIGHT_EXCEPT_ROOT) as Hp by (split; [eauto|by eapply Hlt]).
    split; [exact Hp|]. apply (Hl p); [exact Hp|]. eauto.
  - intros p v Hp Hv. apply (Hl p v Hp) in Hv as (k & x & Hc & _). eauto.
  - intros k1 k2 x1 x2 p E1 E2. congruence.
Qed.

Lemma recover_ok c : (∀ pos x, c_items c !! pos = Some x → 0 <= pos) → recoverable c →
  ∃ t, recover c = Ok t ∧ wf_store t ∧
    ∀ k v pos, items t !! k = Some (v, pos) ↔ c_items c !! pos = Some (k, v).
Proof.
  intros Hpos HR. destruct (recover_merkle (E:=RecoveryError) c Hpos HR) as (m & Hm & W & Hl).
  exists (mkTree m (collect_map ((λ '(pos, (key, item)), (key, (item, pos))) <$> btree_iter (c_items c)))).
  split; [|split; [by apply recovered_wf|intros k v pos; by apply recover_items]].
  unfold recover. apply result_bind_ok. exists tt. split; [by apply recoverable_check|].
  apply result_bind_ok. exists m. split; [exact Hm|reflexivity].
Qed.

Lemma compressed_recoverable t : wf_store t →
  (∀ pos x, c_items (compressed t) !! pos = Some x → 0 <= pos) ∧ recoverable (compressed t).
Proof.
  intros WS. split; [|split].
  - intros pos [k v] Hc. apply compressed_lookup in Hc; [|done]. apply (ws_leaf t WS) in Hc as [? _]. lia.
  - intros pos [k v] Hc. apply compressed_lookup in Hc; [|done]. apply (ws_leaf t WS) in Hc as [? _]. lia.
  - intros p1 p2 k x1 x2 E1 E2. apply compressed_lookup in E1, E2; [|done..]. congruence.
Qed.

Lemma store_size_items t : wf_store t → store_size t = Z.of_nat (base.size (items t)).
Proof.
  intros [W Hl Hi Hinj]. unfold store_size. rewrite <- (entries_size _ (merkle t) 0 W).
  rewrite <- length_map_to_list, <- (length_fmap fst (entries (merkle t) 0)).
  rewrite <- (length_fmap (λ x, x.2.2) (map_to_list (items t))). f_equal. apply Permutation_length, NoDup_Permutation.
  - pose proof (entries_sorted _ (merkle t) 0 W) as HS.
    induction HS as [|x l HS IH Hx]; cbn; constructor; [|done].
    intros (y & Ey & Hy)%list_elem_of_fmap. rewrite Forall_forall in Hx. specialize (Hx y Hy). cbn in Hx. lia.
  - apply NoDup_fmap_2_strong; [|apply NoDup_map_to_list].
    intros [k1 [i1 p1]] [k2 [i2 p2]] E1%elem_of_map_to_list E2%elem_of_map_to_list. cbn. intros ->.
    pose proof (Hinj _ _ _ _ _ E1 E2) as ->. congruence.
  - intros p. rewrite !list_elem_of_fmap. split.
    + intros ([q v] & -> & Hin). apply (entries_elem _ _ _ _ _ W) in Hin as [Hr Hv].
      rewrite Z.add_0_l in Hr. rewrite Z.sub_0_r in Hv. destruct (Hi q v Hr Hv) as (k & it & Hk).
      exists (k, (it, q)). split; [done|]. by apply elem_of_map_to_list.
    + intros ([k [it q]] & -> & Hin%elem_of_map_to_list). destruct (Hl k it q Hin) as [Hr Hv].
      exists (q, leaf k it). split; [done|]. apply (entries_elem _ _ _ _ _ W). rewrite Z.add_0_l, Z.sub_0_r. by split.
Qed.

(** The operations of the store keep its invariant and act on the items as
    on a map: inserting a new key, updating and removing a present one. *)
Theorem store_operations {E} t key item : wf_store t →
  match items t !! key with
  | None =>
      (store_size t < width TREE_HEIGHT_EXCEPT_ROOT → ∃ t' pos, store_insert (E:=E) t key item = Ok (t', pos) ∧
         wf_store t' ∧ items t' = <[key := (item, pos)]> (items t)) ∧
      store_remove t key = Err NotFound ∧ store_update t key item = Err NotFound
  | Some (item0, pos) =>
      (∃ t', store_remove t key = Ok (t', item0) ∧ wf_store t' ∧ items t' = delete key (items t)) ∧
      (∃ t', store_update t key item = Ok t' ∧ wf_store t' ∧ items t' = <[key := (item, pos)]> (items t))
  end.
Proof.
  intros WS. destruct (items t !! key) as [[item0 pos]|] eqn:Hk.
  - split.
    + destruct (store_remove_ok t key item0 pos WS Hk) as (t' & ? & ? & _ & ?). eauto.
    + destruct (store_update_ok t key item0 item pos WS Hk) as (t' & ? & ? & _ & ?). eauto.
  - split; [|unfold store_remove, store_update; by rewrite Hk]. intros Hs.
    destruct (store_insert_ok (E:=E) t key item WS Hk Hs) as (t' & pos & ? & ? & _ & _ & ?). eauto.
Qed.

(** The compressed form determines the store: recovering from it gives the
    store back, Merkle tree included. *)
Theorem recover_compressed t : wf_store t → recover (compressed t) = Ok t.
Proof.
  intros WS. destruct (compressed_recoverable t WS) as [Hpos HR].
  destruct (recover_ok (compressed t) Hpos HR) as (t' & -> & WS' & Hit). f_equal.
  apply wf_store_ext; [done|done|]. apply map_eq. intros k. apply option_eq. intros [v pos].
  by rewrite Hit, compressed_lookup.
Qed.

(** Recovery from any compressed form with machine-size positions never
    panics. It succeeds exactly when the positions are within the capacity and
    the keys are distinct, and then yields a well-formed store with that
    compressed form. *)
Theorem recover_spec c : (∀ pos x, c_items c !! pos = Some x → 0 <= pos) →
  (recoverable c ∧ ∃ t, recover c = Ok t ∧ wf_store t ∧ compressed t = c) ∨
  (¬ recoverable c ∧ ∃ e, recover c = Err e).
Proof.
  intros Hpos. destruct (check_entries ∅ (btree_iter (c_items c))) as [[]|e|f] eqn:Hck.
  - left. apply recoverable_check in Hck. split; [done|].
    destruct (recover_ok c Hpos Hck) as (t & ? & WS & Hit). exists t. split_and!; [done|done|].
    pose proof (λ p k v, compressed_lookup t p k v WS) as Hc. destruct (compressed t) as [m], c as [m0].
    cbn [c_items] in *. f_equal. apply map_eq. intros p. apply option_eq. intros [k v]. by rewrite Hc, Hit.
  - right. split; [intros HR%recoverable_check; congruence|]. exists e. unfold recover. by rewrite Hck.
  - by destruct (check_no_fault ∅ (btree_iter (c_items c)) f).
Qed.

(** C40: Inserting a present key gives it a second leaf. The old leaf stays
    committed in the Merkle tree while no item refers to it, so the store no
    longer is the one recovered from its compressed form. *)
Theorem insert_present_key {E} t key item0 pos0 item : wf_store t → items t !! key = Some (item0, pos0) →
  store_size t < width TREE_HEIGHT_EXCEPT_ROOT →
  ∃ t' pos, store_insert (E:=E) t key item = Ok (t', pos) ∧ pos ≠ pos0 ∧
    leaf_at (merkle t') pos0 = Some (leaf key item0) ∧ (∀ k i, items t' !! k ≠ Some (i, pos0)) ∧
    ¬ wf_store t'.
Proof.
  intros WS Hk Hs. pose proof WS as [W Hl Hi Hinj]. destruct (Hl key item0 pos0 Hk) as [Hp Hv]. unfold store_insert.
  destruct (insert_ok (E:=E) TREE_HEIGHT_EXCEPT_ROOT (merkle t) (leaf key item) W (le_n _) Hs)
    as (m & pos & -> & (Hr & Hn & _) & W' & _ & Hat). cbn [mbind result_bind].
  assert (pos ≠ pos0) as Hne by congruence.
  assert (leaf_at m pos0 = Some (leaf key item0)) as Hold.
  { rewrite Hat by done. by rewrite (proj2 (Z.eqb_neq pos0 pos)) by congruence. }
  assert (∀ k i, (<[key := (item, pos)]> (items t)) !! k ≠ Some (i, pos0)) as Hno.
  { intros k i. rewrite lookup_insert_Some. intros [[_ ?]|[Hk' Hki]]; [congruence|]. by destruct Hk'; eapply Hinj. }
  exists (mkTree m (<[key := (item, pos)]> (items t))), pos. split_and!; [done|done|done|exact Hno|].
  intros [_ _ Hi' _]. destruct (Hi' pos0 _ Hp Hold) as (k & i & Hki). by apply (Hno k i).
Qed.

End Store.

End KeyedTree.

(** ** What the store promises its clients *)

(** The operations the ledger uses of [UtxoTree]. A removal maps the error of the
    store to the caller's. *)
Class KeyedStoreOps (T K V : Type) := {
  ks_empty : T;
  ks_get : T → K → option V;
  ks_insert : ∀ {E}, T → K → V → result E T;
  ks_remove : ∀ {E}, E → T → K → result E (T * V);
  ks_items : T → list V;
  ks_root : ∀ {E}, T → result E K
}.

(** The contract: behind an invariant the store is a finite map of bounded size. *)
Class KeyedStore (T K V : Type) `{Countable K, !KeyedStoreOps T K V} := {
  ks_ok : T → Prop;
  ks_view : T → gmap K V;
  ks_capacity : Z;
  ks_empty_ok : ks_ok ks_empty ∧ ks_view ks_empty = ∅;
  ks_get_view t k : ks_ok t → ks_get t k = ks_view t !! k;
  ks_insert_ok {E} t k v : ks_ok t → ks_view t !! k = None → Z.of_nat (base.size (ks_view t)) < ks_capacity →
    ∃ t', ks_insert (E:=E) t k v = Ok t' ∧ ks_ok t' ∧ ks_view t' = <[k := v]> (ks_view t);
  ks_remove_ok {E} (e : E) t k v : ks_ok t → ks_view t !! k = Some v →
    ∃ t', ks_remove e t k = Ok (t', v) ∧ ks_ok t' ∧ ks_view t' = delete k (ks_view t);
  ks_remove_missing {E} (e : E) t k : ks_ok t → ks_view t !! k = None → ks_remove e t k = Err e;
  ks_items_view t : ks_ok t → ks_items t = (map_to_list (ks_view t)).*2;
  ks_root_ok {E} t : ks_ok t → ∃ r, ks_root (E:=E) t = Ok r
}.

(** [UtxoTree]: the store whose leaf is the key. *)
Module UtxoTree.
Import KeyedTree.

#[export] Instance UtxoLeaf {Fr Item : Type} : LeafExtractor Fr Item Fr := {| leaf key _ := key |}.

Section Utxo.
Context {Fr Item : Type} `{Countable Fr} `{MerkleHasher Fr}.

#[export] Instance utxo_tree_ops : KeyedStoreOps (MerkleTree Fr Item Fr) Fr Item := {|
  ks_empty := new;
  ks_get := get;
  ks_insert E t key item := '(t', _) ← store_insert t key item; Ok t';
  ks_remove E e t key := match store_remove t key with
                         | Ok r => Ok r
                         | Err _ => Err e
                         | Fault f => Fault f
                         end;
  ks_items t := (map_to_list (fst <$> items t)).*2;
  ks_root E t := store_root t
|}.

#[export] Program Instance utxo_tree_store : KeyedStore (MerkleTree Fr Item Fr) Fr Item := {|
  ks_ok := wf_store;
  ks_view t := fst <$> items t;
  ks_capacity := width TREE_HEIGHT_EXCEPT_ROOT
|}.
Next Obligation. split; [apply new_wf|apply fmap_empty]. Qed.
Next Obligation. intros t k _. cbn. unfold get. by rewrite lookup_fmap. Qed.
Next Obligation.
  intros E t k v WS Hk Hs. cbv beta in *. rewrite lookup_fmap, fmap_None in Hk. rewrite map_size_fmap in Hs.
  destruct (store_insert_ok (E:=E) t k v WS Hk) as (t' & pos & Hok & WS' & _ & _ & Hit).
  { by rewrite store_size_items. }
  exists t'. cbn [ks_insert utxo_tree_ops]. split; [apply result_bind_ok; by exists (t', pos)|].
  split; [done|]. by rewrite Hit, fmap_insert.
Qed.
Next Obligation.
  intros E e t k v WS Hk. cbv beta in *. rewrite lookup_fmap, fmap_Some in Hk. destruct Hk as ([v' pos] & Hk & ->).
  destruct (store_remove_ok t k v' pos WS Hk) as (t' & Hok & WS' & _ & Hit).
  exists t'. cbn [ks_remove utxo_tree_ops fst]. rewrite Hok. split; [done|]. split; [done|]. by rewrite Hit, fmap_delete.
Qed.
Next Obligation.
  intros E e t k _ Hk. cbv beta in *. rewrite lookup_fmap, fmap_None in Hk. cbn. unfold store_remove. by rewrite Hk.
Qed.
Next Obligation. done. Qed.
Next Obligation. intros E t WS. exists (node_root (merkle t)). apply root_ok, WS. Qed.

End Utxo.

End UtxoTree.

(** * Concrete trees and stores for the theorems of the Merkle components

    Trees over integers with a toy hash: three leaves, the middle one removed and
    inserted again. *)

Import DynamicMerkle KeyedTree UtxoTree.

#[local] Open Scope Z_scope.

#[local] Instance sum_hasher : MerkleHasher Z :=
  {| EMPTY_VALUE := 0; compress l r := (31 * l + 17 * r + 7) mod 1000003 |}.

#[local] Arguments width : simpl never.

Definition three : Node Z :=
  match ('(t, _) ← insert (E:=Empty_set) empty_tree 11; '(t, _) ← insert t 12; '(t, _) ← insert t 13; Ok t) with
  | Ok t => t
  | _ => empty_tree
  end.

Lemma three_wf : wf_node TREE_HEIGHT_EXCEPT_ROOT three.
Proof. vm_compute. repeat split. Qed.

Lemma in_capacity i : (0 <=? i) && (i <? 4294967296) = true → 0 <= i < width TREE_HEIGHT_EXCEPT_ROOT.
Proof. change (width TREE_HEIGHT_EXCEPT_ROOT) with 4294967296. lia. Qed.

Lemma tree_insert_spec_witness :
  ∃ n' i, insert (E:=Empty_set) three 14 = Ok (n', i) ∧ i = 3 ∧ size n' = 4.
Proof.
  pose proof (tree_insert_spec (E:=Empty_set) three 14 three_wf) as Hs.
  destruct (decide _) as [_|Hn]; [|exfalso; apply Hn; vm_compute; reflexivity].
  destruct Hs as (n' & i & Hok & _ & _ & Hsz & _). exists n', i. split; [exact Hok|].
  split; [vm_compute in Hok; injection Hok as _ <-; reflexivity|].
  rewrite Hsz. vm_compute. reflexivity.
Defined.

Lemma tree_remove_update_spec_witness :
  leaf_at three 1 = Some 12 ∧ ∃ n', remove (E:=Empty_set) three 1 = Ok n' ∧ size n' = 2.
Proof.
  split; [vm_compute; reflexivity|].
  destruct (tree_remove_update_spec (E:=Empty_set) three 1 12 20 three_wf) as [(n' & Hok & _ & Hsz & _) _].
  - by apply in_capacity.
  - vm_compute. reflexivity.
  - exists n'. split; [exact Hok|]. rewrite Hsz. vm_compute. reflexivity.
Defined.

Lemma tree_root_full_witness :
  root (E:=Empty_set) empty_tree = Ok (full_root TREE_HEIGHT_EXCEPT_ROOT (leaf_at (empty_tree (Hash:=Z)))).
Proof. exact (tree_root_full (E:=Empty_set) empty_tree empty_tree_wf). Defined.

Lemma tree_path_spec_witness :
  ∃ p, tree_path (E:=Empty_set) three 2 = Ok (Some p) ∧ root (E:=Empty_set) three = Ok (fold_path 13 p).
Proof.
  pose proof (tree_path_spec (E:=Empty_set) three 2 three_wf) as Hp.
  replace (leaf_at three 2) with (Some 13) in Hp by (vm_compute; reflexivity).
  destruct Hp as (p & H1 & _ & H2); [by apply in_capacity|]. exists p. split; [exact H1|exact H2].
Defined.

Definition path_of (i : Z) : list (MerkleNode Z) :=
  match tree_path (E:=Empty_set) three i with Ok (Some p) => p | _ => [] end.

(** The sides of a path, decided. *)
Definition sidesb (i : Z) (p : list (MerkleNode Z)) : bool :=
  forallb (λ '(k, s), Bool.eqb (match s with LeftSibling _ => true | RightSibling _ => false end)
                        (Z.testbit i (Z.of_nat k)))
    (imap pair p).

Lemma sidesb_ok i p : sidesb i p = true → sides i p.
Proof.
  intros Hs k s Hk. unfold sidesb in Hs. rewrite forallb_forall in Hs. apply Bool.eqb_prop.
  apply (Hs (k, s)). apply list_elem_of_In, (list_elem_of_lookup_2 _ k). by rewrite list_lookup_imap, Hk.
Qed.

Lemma tree_path_binding_witness :
  root (E:=Empty_set) three = Ok (fold_path 13 (path_of 2)) ∧
  (13 = default EMPTY_VALUE (leaf_at three 2) ∨ collision).
Proof.
  assert (root (E:=Empty_set) three = Ok (fold_path 13 (path_of 2))) as Hr by (vm_compute; reflexivity).
  split; [exact Hr|].
  apply (tree_path_binding (E:=Empty_set) three 2 13 (path_of 2) three_wf).
  - by apply in_capacity.
  - vm_compute. reflexivity.
  - apply sidesb_ok. vm_compute. reflexivity.
  - exact Hr.
Defined.

Lemma from_sorted_items_spec_witness :
  ∃ n, from_sorted_items (E:=Empty_set) [(0, 11); (5, 12)] = Ok n ∧ wf_node TREE_HEIGHT_EXCEPT_ROOT n.
Proof.
  destruct (from_sorted_items_spec (E:=Empty_set) [(0, 11); (5, 12)]) as (n & Hok & W & _).
  - by repeat constructor.
  - repeat constructor; by apply in_capacity.
  - exists n. split; [exact Hok|exact W].
Defined.

(** ** A store of three notes *)

Definition notes : MerkleTree Z string Z :=
  match from_iter (E:=Empty_set) new [(11, "a"); (12, "b"); (13, "c")]%string with Ok t => t | _ => new end.

Lemma from_iter_wf {E} (t t' : MerkleTree Z string Z) l :
  wf_store t → NoDup (l.*1) → (∀ k, k ∈ l.*1 → items t !! k = None) →
  store_size t + Z.of_nat (length l) <= width TREE_HEIGHT_EXCEPT_ROOT →
  from_iter (E:=E) t l = Ok t' → wf_store t'.
Proof.
  revert t. induction l as [|[k v] l IH]; intros t WS HN Hk Hs; cbn [from_iter]; [intros Hok; by apply Ok_inj in Hok as <-|].
  cbn in HN, Hk, Hs. apply NoDup_cons in HN as [Hni HN].
  destruct (store_insert_ok (E:=E) t k v WS) as (t1 & pos & Hok & WS1 & _ & Hsz & Hit);
    [apply Hk; by constructor|lia|].
  intros Hrun. apply result_bind_ok in Hrun as ([t2 p2] & Hok2 & Hrun). rewrite Hok in Hok2.
  injection Hok2 as <- <-. apply (IH t1); [done|done| |lia|done].
  intros k' Hk'. rewrite Hit, lookup_insert_ne; [apply Hk; by constructor|]. by intros ->.
Qed.

Lemma notes_wf : wf_store notes.
Proof.
  apply (from_iter_wf (E:=Empty_set) new notes [(11, "a"); (12, "b"); (13, "c")]%string).
  - apply new_wf.
  - by apply (bool_decide_unpack _); vm_compute.
  - done.
  - vm_compute. discriminate.
  - vm_compute. reflexivity.
Qed.

Lemma store_operations_witness :
  ∃ t', store_remove notes 12 = Ok (t', "b"%string) ∧ wf_store t' ∧ items t' = delete 12 (items notes).
Proof.
  pose proof (store_operations (E:=Empty_set) notes 12 "b"%string notes_wf) as Hs.
  replace (items notes !! 12) with (Some ("b"%string, 1)) in Hs by (vm_compute; reflexivity).
  destruct Hs as [Hr _]. exact Hr.
Defined.

Lemma recover_compressed_witness : recover (compressed notes) = Ok notes.
Proof. exact (recover_compressed notes notes_wf). Defined.

Lemma recover_spec_witness :
  let c := mkCompressed {[ 3 := (11, "a"%string) ]} in
  (recoverable c ∧ ∃ t : MerkleTree Z string Z, recover c = Ok t ∧ wf_store t ∧ compressed t = c) ∨
  (¬ recoverable c ∧ ∃ e, recover (Hash:=Z) c = Err e).
Proof.
  intros c. apply (recover_spec c). intros pos x Hx. cbn in Hx. apply lookup_singleton_Some in Hx as [<- _]. lia.
Defined.

Lemma insert_present_key_witness :
  ∃ t' pos, store_insert (E:=Empty_set) notes 12 "z"%string = Ok (t', pos) ∧ pos ≠ 1 ∧ ¬ wf_store t'.
Proof.
  destruct (insert_present_key (E:=Empty_set) notes 12 "b"%string 1 "z"%string notes_wf)
    as (t' & pos & H1 & H2 & _ & _ & H3).
  - vm_compute. reflexivity.
  - vm_compute. reflexivity.
  - exists t', pos. split; [exact H1|]. split; [exact H2|exact H3].
Defined.
