(* ===== verification/Mmr.v ===== *)
(** * The Merkle mountain range

    mmr/src/lib.rs and mmr/src/path.rs: an append-only tree that keeps only the
    roots of its complete subtrees, and membership paths that are updated as
    leaves are pushed. Field elements and their compression are the parameters
    of [MerkleHasher]. *)

From S2P Require Import Prelude Merkle.
Import DynamicMerkle.

#[local] Open Scope Z_scope.

Module MountainRange.

(** [ACCEPTABLE_MAX_HEIGHT]. *)
Definition ACCEPTABLE_MAX_HEIGHT : nat := 33.

(** [Root], on the stack of an MMR. *)
Record Root (Hash : Type) := mkRoot { r_root : Hash; r_height : nat }.

Arguments mkRoot {Hash} r_root r_height.
Arguments r_root {Hash} _.
Arguments r_height {Hash} _.

(** [MerklePath]. *)
Record MerklePath (Hash : Type) := mkPath { leaf_index : Z; siblings : list Hash }.

Arguments mkPath {Hash} leaf_index siblings.
Arguments leaf_index {Hash} _.
Arguments siblings {Hash} _.

Inductive MerklePathError :=
  | InvalidSiblingCount (expected actual : Z)
  | LeafIndexOutOfRange (leaf_index leaf_count : Z).

Inductive PushWithPathsError :=
  | MmrFull
  | InvalidTrackedPath (e : MerklePathError).

(** [is_left_child], [are_siblings_at] and [sibling_height]. *)
Definition is_left_child (leaf : Z) (height : nat) : bool :=
  Z.land (Z.shiftr leaf (Z.of_nat height - 1)) 1 =? 0.

Definition are_siblings_at (a b : Z) (height : nat) : bool :=
  Z.shiftr a (Z.of_nat height - 1) =? Z.lxor (Z.shiftr b (Z.of_nat height - 1)) 1.

Definition sibling_height (a b : Z) : nat :=
  let x := Z.lxor a b in if x =? 0 then 0%nat else Z.to_nat (Z.log2 x + 1).

Section Mmr.
Context {Hash : Type} `{MerkleHasher Hash}.
Context (MAX_HEIGHT : nat).
Implicit Types (roots : list (Root Hash)) (paths : list (MerklePath Hash)) (path new_path : MerklePath Hash).

(** [assert_acceptable_height]. *)
Definition assert_acceptable_height {E} (max_height : nat) : result E unit :=
  assert_ ((1 <=? max_height) && (max_height <=? ACCEPTABLE_MAX_HEIGHT))%nat.

(** [empty_subtree_root]: leaves are at height one. *)
Definition empty_root_at {E} (height : nat) : result E Hash :=
  assert_acceptable_height height;;
  expect (empty_roots (ACCEPTABLE_MAX_HEIGHT - 1) EMPTY_VALUE !! (height - 1)%nat).

(** [MerkleMountainRange::new], represented by its stack, top first. *)
Definition new_mmr {E} : result E (list (Root Hash)) := assert_acceptable_height MAX_HEIGHT;; Ok [].

(** [MerkleMountainRange::num_leaves] and [MerkleMountainRange::len]. *)
Definition num_leaves (height : nat) : Z := Z.shiftl 1 (Z.of_nat height - 1).

Definition mmr_len roots : Z := foldr (λ r acc, num_leaves (r_height r) + acc) 0 roots.

Definition is_full roots : bool :=
  match roots with r :: _ => (r_height r =? MAX_HEIGHT)%nat | [] => false end.

(** The merge loop of [MerkleMountainRange::push]. *)
Fixpoint push_loop {E} (last_root : Root Hash) roots : result E (list (Root Hash)) :=
  match roots with
  | root :: rest =>
      if (r_height last_root =? r_height root)%nat then
        let last_root :=
          mkRoot (compress (r_root root) (r_root last_root)) (r_height last_root + 1) in
        assert_ (r_height last_root <=? MAX_HEIGHT)%nat;;
        push_loop last_root rest
      else Ok (last_root :: roots)
  | [] => Ok [last_root]
  end.

(** [MerkleMountainRange::push]. *)
Definition push roots (elem : Hash) : result PushWithPathsError (list (Root Hash)) :=
  err_if (is_full roots) MmrFull;;
  push_loop (mkRoot elem 1) roots.

(** Assignment to [path.siblings[index]]. *)
Definition set_sibling {E} path (index : nat) (v : Hash) : result E (MerklePath Hash) :=
  if (index <? length (siblings path))%nat
  then Ok (mkPath (leaf_index path) (<[index := v]> (siblings path)))
  else Fault Unwrap.

(** [MerklePath::validate_for_height] and [MerklePath::validate_leaf_index]. *)
Definition validate_for_height path (max_height : nat) : result MerklePathError unit :=
  assert_acceptable_height max_height;;
  let expected := (max_height - 1)%nat in
  let actual := length (siblings path) in
  err_if (negb (actual =? expected)%nat) (InvalidSiblingCount (Z.of_nat expected) (Z.of_nat actual)).

Definition validate_leaf_index path (leaf_count : Z) : result MerklePathError unit :=
  err_if (leaf_count <=? leaf_index path) (LeafIndexOutOfRange (leaf_index path) leaf_count).

(** [MerklePath::root] and [MerklePath::verify]. *)
Fixpoint path_root_loop (index : Z) (height : nat) (current : Hash) (l : list Hash) : Hash :=
  match l with
  | [] => current
  | sibling :: l =>
      path_root_loop index (S height)
        (if is_left_child index height then compress current sibling else compress sibling current) l
  end.

Definition path_root path (leaf : Hash) : Hash := path_root_loop (leaf_index path) 1 leaf (siblings path).

Definition verify `{EqDecision Hash} path (leaf expected_root : Hash) : bool :=
  bool_decide (path_root path leaf = expected_root).

(** [update_paths_at_merge]. *)
Definition update_paths_at_merge {E} (right_ left_ : Root Hash) paths new_path
    : result E (list (MerklePath Hash) * MerklePath Hash) :=
  assert_ (r_height left_ =? r_height right_)%nat;;
  let height := r_height right_ in
  paths ← mapM (λ path,
    if are_siblings_at (leaf_index new_path) (leaf_index path) height
    then set_sibling path (height - 1) (r_root right_) else Ok path) paths;
  new_path ← set_sibling new_path (height - 1) (r_root left_);
  Ok (paths, new_path).

(** The merge loop of [MerkleMountainRange::push_with_paths]. *)
Fixpoint merge_loop {E} (last_root : Root Hash) roots paths new_path
    : result E (Root Hash * list (Root Hash) * list (MerklePath Hash) * MerklePath Hash) :=
  match roots with
  | root :: rest =>
      if (r_height last_root =? r_height root)%nat then
        '(paths, new_path) ← update_paths_at_merge last_root root paths new_path;
        let last_root :=
          mkRoot (compress (r_root root) (r_root last_root)) (r_height last_root + 1) in
        assert_ (r_height last_root <=? MAX_HEIGHT)%nat;;
        merge_loop last_root rest paths new_path
      else Ok (last_root, roots, paths, new_path)
  | [] => Ok (last_root, [], paths, new_path)
  end.

(** The first loop of [update_paths_above_merge], for [count] heights from
    [height]: the hashes of the subtree of the new leaf, and its path. *)
Fixpoint above_loop {E} (count height : nat) (subtree_hash : Hash) (remaining_peaks : list (Root Hash)) new_path
    : result E (list Hash * MerklePath Hash) :=
  match count with
  | O => Ok ([], new_path)
  | S count =>
      if is_left_child (leaf_index new_path) height then
        empty ← empty_root_at height;
        new_path ← set_sibling new_path (height - 1) empty;
        '(hashes, new_path) ← above_loop count (S height) (compress subtree_hash empty) remaining_peaks new_path;
        Ok (subtree_hash :: hashes, new_path)
      else
        match remaining_peaks with
        | [] => Fault Unwrap
        | l :: remaining_peaks =>
            new_path ← set_sibling new_path (height - 1) (r_root l);
            '(hashes, new_path) ←
              above_loop count (S height) (compress (r_root l) subtree_hash) remaining_peaks new_path;
            Ok (subtree_hash :: hashes, new_path)
        end
  end.

(** [update_paths_above_merge]. *)
Definition update_paths_above_merge {E} (merged_root : Root Hash) (remaining_peaks : list (Root Hash)) paths new_path
    : result E (list (MerklePath Hash) * MerklePath Hash) :=
  let merged_height := r_height merged_root in
  '(hashes, new_path) ←
    above_loop (MAX_HEIGHT - merged_height) merged_height (r_root merged_root) remaining_peaks new_path;
  paths ← mapM (λ path,
    let h := sibling_height (leaf_index new_path) (leaf_index path) in
    if ((merged_height <=? h) && (h <? MAX_HEIGHT))%nat
    then v ← expect (hashes !! (h - merged_height)%nat); set_sibling path (h - 1) v
    else Ok path) paths;
  Ok (paths, new_path).

Fixpoint validate_paths paths (leaf_count : Z) : result PushWithPathsError unit :=
  match paths with
  | [] => Ok tt
  | path :: paths =>
      match (validate_for_height path MAX_HEIGHT;; validate_leaf_index path leaf_count) with
      | Ok _ => validate_paths paths leaf_count
      | Err e => Err (InvalidTrackedPath e)
      | Fault f => Fault f
      end
  end.

(** [MerkleMountainRange::push_with_paths]: the stack, the updated paths, and the
    path of the pushed leaf. *)
Definition push_with_paths roots (elem : Hash) paths
    : result PushWithPathsError (list (Root Hash) * list (MerklePath Hash) * MerklePath Hash) :=
  err_if (is_full roots) MmrFull;;
  validate_paths paths (mmr_len roots);;
  empties ← mapM empty_root_at (seq 1 (MAX_HEIGHT - 1));
  let new_path := mkPath (mmr_len roots) empties in
  '(last_root, roots, paths, new_path) ← merge_loop (mkRoot elem 1) roots paths new_path;
  '(paths, new_path) ← update_paths_above_merge last_root roots paths new_path;
  Ok (last_root :: roots, paths, new_path).

(** Padding on the right with [count] empty subtrees, from [height]. *)
Fixpoint pad {E} (count height : nat) (root : Hash) : result E Hash :=
  match count with
  | O => Ok root
  | S count => empty ← empty_root_at height; pad count (S height) (compress root empty)
  end.

Fixpoint frontier_loop {E} (root : Hash) (height : nat) roots : result E (Hash * nat) :=
  match roots with
  | [] => Ok (root, height)
  | last :: roots =>
      root ← pad (r_height last - height) height root;
      frontier_loop (compress (r_root last) root) (Nat.max height (r_height last) + 1) roots
  end.

(** [MerkleMountainRange::frontier_root]. *)
Definition frontier_root {E} roots : result E Hash :=
  match roots with
  | [] => empty_root_at MAX_HEIGHT
  | last :: roots =>
      '(root, height) ← frontier_loop (r_root last) (r_height last) roots;
      assert_ (height <=? MAX_HEIGHT)%nat;;
      pad (MAX_HEIGHT - height) height root
  end.

End Mmr.

End MountainRange.
