(* ===== verification/MmrFacts.v ===== *)
(** * Correctness of the Merkle mountain range

    The stack holds the roots of the complete subtrees at the set bits of the
    number of leaves; the frontier root is that of the tree padded with empty
    leaves; and every tracked path stays the path of its leaf in that tree. The
    second part follows the paths of tracked leaves through insertions. *)

From S2P Require Import Prelude Merkle MerkleFacts Mmr.

Import DynamicMerkle MountainRange.

#[local] Open Scope Z_scope.

#[local] Arguments width : simpl never.

(** ** Blocks of leaves *)

Lemma div_width_S n j : n / width (S j) = n / width j / 2.
Proof. rewrite width_S, Z.mul_comm. pose proof (width_pos j). by rewrite Z.div_div by lia. Qed.

Lemma div_width_0 n : n / width 0 = n.
Proof. rewrite width_0. apply Z.div_1_r. Qed.

Lemma block_iff i j b : i / width j = b ↔ b * width j <= i < (b + 1) * width j.
Proof.
  pose proof (width_pos j). split.
  - intros <-. pose proof (Z.div_mod i (width j) ltac:(lia)). pose proof (Z.mod_pos_bound i (width j) ltac:(lia)). lia.
  - intros Hb. symmetry. apply (Z.div_unique i (width j) b (i - b * width j)); lia.
Qed.

Lemma div2_cases m : m = 2 * (m / 2) + (if Z.odd m then 1 else 0).
Proof. rewrite <- Z.div2_div. apply Z.div2_odd. Qed.

(** Adding one to [n] carries past level [j] exactly if that bit is set. *)
Lemma carry n j : (n + 1) / width j = n / width j + 1 → Z.odd (n / width j) = true →
  (n + 1) / width (S j) = n / width (S j) + 1.
Proof.
  intros Hc Ho. rewrite !div_width_S, Hc. pose proof (div2_cases (n / width j)) as Hd. rewrite Ho in Hd.
  symmetry. apply (Z.div_unique _ 2 (n / width j / 2 + 1) 0); lia.
Qed.

Lemma no_carry n j : (n + 1) / width j = n / width j + 1 → Z.odd (n / width j) = false →
  ∀ l, (j < l)%nat → (n + 1) / width l = n / width l.
Proof.
  intros Hc Ho l. induction l as [|l IH]; intros Hl; [lia|]. rewrite !div_width_S.
  destruct (decide (j = l)) as [->|]; [|rewrite IH by lia; done].
  rewrite Hc. pose proof (div2_cases (n / width l)) as Hd. rewrite Ho in Hd.
  symmetry. apply (Z.div_unique _ 2 (n / width l / 2) 1); lia.
Qed.

Section Blocks.
Context {Hash : Type} `{MerkleHasher Hash}.
Implicit Types (f g : Z → Hash) (j : nat) (n b i : Z).

(** The root of the [b]-th subtree of level [j], over the leaves [f]. *)
Fixpoint sub f j b : Hash :=
  match j with
  | O => f b
  | S j => compress (sub f j (2 * b)) (sub f j (2 * b + 1))
  end.

Lemma sub_ext f g j b : (∀ i, i / width j = b → f i = g i) → sub f j b = sub g j b.
Proof.
  revert b. induction j as [|j IH]; intros b Hfg; cbn.
  - apply Hfg, div_width_0.
  - f_equal; apply IH; intros i Hi; apply Hfg; rewrite div_width_S, Hi.
    + rewrite Z.mul_comm. by apply Z.div_mul.
    + symmetry. apply (Z.div_unique _ 2 b 1); lia.
Qed.

Lemma sub_const j b : sub (λ _, EMPTY_VALUE) j b = er j.
Proof. revert b. induction j as [|j IH]; intros b; cbn; [done|]. by rewrite !IH. Qed.

(** The leaves with one more at [n]. *)
Definition snoc f n (x : Hash) : Z → Hash := λ i, if i =? n then x else f i.

Lemma sub_snoc f n x j b : n / width j ≠ b → sub (snoc f n x) j b = sub f j b.
Proof.
  intros Hne. apply sub_ext. intros i Hi. unfold snoc. destruct (Z.eqb_spec i n) as [->|]; [done|reflexivity].
Qed.

Lemma sub_beyond f n j b : (∀ i, n <= i → f i = EMPTY_VALUE) → n <= b * width j → sub f j b = er j.
Proof.
  intros Hf Hb. rewrite <- (sub_const j b). apply sub_ext. intros i Hi%block_iff. apply Hf. lia.
Qed.

(** ** The stack *)

(** The roots at the set bits of [n], for [count] levels from [j]. *)
Fixpoint peaks f n j (count : nat) : list (Root Hash) :=
  match count with
  | O => []
  | S count =>
      if Z.odd (n / width j)
      then mkRoot (sub f j (n / width j - 1)) (S j) :: peaks f n (S j) count
      else peaks f n (S j) count
  end.

Lemma peaks_ext f g n m j count :
  (∀ l, (j <= l < j + count)%nat → n / width l = m / width l ∧
     (Z.odd (n / width l) = true → sub f l (n / width l - 1) = sub g l (n / width l - 1))) →
  peaks f n j count = peaks g m j count.
Proof.
  revert j. induction count as [|count IH]; intros j Hl; cbn; [done|].
  destruct (Hl j ltac:(lia)) as [<- Hs].
  rewrite (IH (S j)) by (intros l ?; apply Hl; lia). destruct (Z.odd _); [|done]. by rewrite Hs.
Qed.

Lemma peaks_0 f j count : peaks f 0 j count = [].
Proof.
  revert j. induction count as [|count IH]; intros j; cbn [peaks]; [done|].
  rewrite Z.div_0_l by (pose proof (width_pos j); lia). apply IH.
Qed.

Lemma peaks_height f n j count r : r ∈ peaks f n j count → (j < r_height r <= j + count)%nat.
Proof.
  revert j. induction count as [|count IH]; intros j; cbn; [by intros ?%not_elem_of_nil|].
  destruct (Z.odd _); [rewrite elem_of_cons; intros [->|Hr]; [cbn; lia|]|intros Hr]; specialize (IH _ Hr); lia.
Qed.

Lemma mmr_len_peaks f n j count : 0 <= n →
  n / width j < width count → mmr_len (peaks f n j count) = n / width j * width j.
Proof.
  intros Hn. revert j. induction count as [|count IH]; intros j Hlt; cbn [peaks].
  - rewrite width_0 in Hlt. pose proof (width_pos j). pose proof (Z.div_pos n (width j) Hn ltac:(lia)).
    cbn. nia.
  - pose proof (div2_cases (n / width j)) as Hd. rewrite <- div_width_S in Hd. rewrite width_S in Hlt.
    assert (n / width (S j) < width count) as Hlt' by (destruct (Z.odd (n / width j)); lia).
    specialize (IH (S j) Hlt'). set (q := n / width (S j)) in *. rewrite width_S in IH.
    destruct (Z.odd (n / width j)); cbn [mmr_len foldr]; fold (mmr_len (peaks f n (S j) count)); rewrite IH.
    + unfold num_leaves. cbn [r_height]. replace (Z.of_nat (S j) - 1) with (Z.of_nat j) by lia.
      rewrite Z.shiftl_1_l. fold (width j). nia.
    + nia.
Qed.

(** The merged root of the new leaf's subtree. *)
Lemma merge_root f n x j : Z.odd (n / width j) = true →
  compress (sub f j (n / width j - 1)) (sub (snoc f n x) j (n / width j))
  = sub (snoc f n x) (S j) (n / width (S j)).
Proof.
  intros Ho. cbn [sub]. pose proof (div2_cases (n / width j)) as Hd. rewrite Ho, <- div_width_S in Hd.
  rewrite <- (sub_snoc f n x j (n / width j - 1)) by lia. f_equal; f_equal; lia.
Qed.

Lemma empty_root_at_ok {E} h : (1 <= h <= ACCEPTABLE_MAX_HEIGHT)%nat →
  empty_root_at (E:=E) h = Ok (er (h - 1)).
Proof.
  intros Hh. unfold empty_root_at, assert_acceptable_height.
  rewrite !(proj2 (Nat.leb_le _ _)) by lia. cbn [andb assert_ mbind result_bind].
  apply expect_ok. change EMPTY_VALUE with (er 0). apply (empty_roots_lookup _ 0). lia.
Qed.

End Blocks.

Section Push.
Context {Hash : Type} `{MerkleHasher Hash}.
Context (MAX : nat) (Hmax : (1 <= MAX <= ACCEPTABLE_MAX_HEIGHT)%nat).
Implicit Types (f : Z → Hash) (j : nat) (n i : Z).

Notation capacity := (width (MAX - 1)).

Lemma odd_level n j : 0 <= n < capacity → Z.odd (n / width j) = true → (S j + 1 <= MAX)%nat.
Proof.
  intros Hn Ho. destruct (decide (S j + 1 <= MAX)%nat) as [|Hgt]; [done|].
  assert (width (MAX - 1) <= width j) by (unfold width; apply Z.pow_le_mono_r; lia).
  rewrite Z.div_small in Ho by lia. done.
Qed.

Lemma push_loop_peaks {E} f n x j count : 0 <= n < capacity →
  (n + 1) / width j = n / width j + 1 → (j + count = MAX)%nat → (1 <= count)%nat →
  push_loop (E:=E) MAX (mkRoot (sub (snoc f n x) j (n / width j)) (S j)) (peaks f n j count)
  = Ok (peaks (snoc f n x) (n + 1) j count).
Proof.
  intros Hn. revert j. induction count as [|count IH]; intros j Hc Hj Hpos; [lia|]. cbn [peaks].
  pose proof (div2_cases (n / width j)) as Hd.
  destruct (Z.odd (n / width j)) eqn:Ho.
  - pose proof (odd_level n j Hn Ho). cbn [push_loop r_height r_root]. rewrite Nat.eqb_refl.
    rewrite (proj2 (Nat.leb_le _ _)) by lia. cbn [assert_ mbind result_bind].
    rewrite (merge_root f n x j Ho), Nat.add_1_r, IH; [|by apply carry|lia|lia].
    rewrite Hc. replace (Z.odd (n / width j + 1)) with false; [done|].
    symmetry. rewrite Hd, <- Z.add_assoc. change (1 + 1) with (2 * 1). rewrite <- Z.mul_add_distr_l.
    by rewrite Z.odd_mul.
  - rewrite Hc, Z.odd_add, Ho. cbn [xorb]. replace (n / width j + 1 - 1) with (n / width j) by lia.
    assert (peaks (snoc f n x) (n + 1) (S j) count = peaks f n (S j) count) as ->.
    { apply peaks_ext. intros l Hl. rewrite (no_carry n j Hc Ho) by lia. split; [done|].
      intros _. apply sub_snoc. lia. }
    destruct (peaks f n (S j) count) as [|r rs] eqn:Hp; cbn [push_loop]; [done|].
    assert (r ∈ peaks f n (S j) count) as Hr by (rewrite Hp; by constructor). apply peaks_height in Hr.
    cbn [r_height]. by rewrite (proj2 (Nat.eqb_neq _ _)) by lia.
Qed.

End Push.

(** ** The frontier root *)

Section Frontier.
Context {Hash : Type} `{MerkleHasher Hash}.
Context (MAX : nat) (Hmax : (1 <= MAX <= ACCEPTABLE_MAX_HEIGHT)%nat).
Implicit Types (f : Z → Hash) (j l : nat) (n m : Z) (rs : list (Root Hash)).

Notation capacity := (width (MAX - 1)).

(** The stack of [m + 1] leaves: the subtree that ends at leaf [m], below the
    left siblings of its ancestors. *)
Lemma peaks_first f m j count : 0 <= m →
  (m + 1) / width j = m / width j + 1 → m / width j < width (count - 1) → (1 <= count)%nat →
  ∃ l, (j <= l < j + count)%nat ∧
    peaks f (m + 1) j count
    = mkRoot (sub f l (m / width l)) (S l) :: peaks f m l (j + count - l).
Proof.
  intros Hm. revert j. induction count as [|count IH]; intros j Hc Hlt Hpos; [lia|].
  pose proof (div2_cases (m / width j)) as Hd. cbn [peaks].
  pose proof (Z.div_pos m (width j) Hm (width_pos j)).
  rewrite Hc. destruct (Z.odd (m / width j)) eqn:Ho.
  - replace (Z.odd (m / width j + 1)) with false.
    2:{ symmetry. rewrite Z.odd_add, Ho. done. }
    destruct count as [|count]; [cbn in Hlt; rewrite width_0 in Hlt; lia|].
    destruct (IH (S j)) as (l & Hl & ->); [by apply carry| |lia|].
    + rewrite div_width_S. cbn in Hlt |- *. rewrite Nat.sub_0_r, width_S in *. lia.
    + exists l. split; [lia|]. do 3 f_equal; lia.
  - rewrite Z.odd_add, Ho. cbn [xorb]. exists j. split; [lia|].
    replace (m / width j + 1 - 1) with (m / width j) by lia. f_equal.
    replace (j + S count - j)%nat with (S count) by lia. cbn [peaks]. rewrite Ho.
    apply peaks_ext. intros l Hl. rewrite (no_carry m j Hc Ho) by lia. done.
Qed.

(** The rest of [frontier_root], from a root of height [height]. *)
Definition frontier_from {E} (root : Hash) (height : nat) rs : result E Hash :=
  '(root, height) ← frontier_loop root height rs;
  assert_ (height <=? MAX)%nat;;
  pad (MAX - height) height root.

Lemma frontier_skip {E} root l rs : (S (S l) <= MAX)%nat →
  (∀ r, r ∈ rs → (S (S l) <= r_height r)%nat) →
  frontier_from (E:=E) root (S l) rs = frontier_from (compress root (er l)) (S (S l)) rs.
Proof.
  intros Hl Hrs. unfold frontier_from. destruct rs as [|r rs]; cbn [frontier_loop mbind result_bind].
  - rewrite !(proj2 (Nat.leb_le _ _)) by lia. cbn [assert_ mbind result_bind].
    replace (MAX - S l)%nat with (S (MAX - S (S l))) by lia. cbn [pad].
    rewrite empty_root_at_ok by lia. cbn [mbind result_bind]. by rewrite Nat.sub_succ, Nat.sub_0_r.
  - pose proof (Hrs r ltac:(by constructor)) as Hr.
    replace (r_height r - S l)%nat with (S (r_height r - S (S l))) by lia. cbn [pad].
    rewrite empty_root_at_ok by lia. cbn [mbind result_bind]. rewrite Nat.sub_succ, Nat.sub_0_r.
    by rewrite !Nat.max_r by lia.
Qed.

Lemma frontier_from_peaks {E} f m l count : 0 <= m < capacity →
  (∀ i, m < i → f i = EMPTY_VALUE) → (l + count = MAX)%nat → (1 <= count)%nat →
  frontier_from (E:=E) (sub f l (m / width l)) (S l) (peaks f m l count) = Ok (sub f (MAX - 1) 0).
Proof.
  intros Hm Hf. revert l. induction count as [|count IH]; intros l Hl Hpos; [lia|].
  destruct (decide (count = 0)%nat) as [->|Hc].
  - assert (l = (MAX - 1)%nat) as -> by lia. cbn [peaks]. rewrite Z.div_small by lia. cbn [Z.odd].
    unfold frontier_from. cbn [frontier_loop mbind result_bind].
    rewrite (proj2 (Nat.leb_le _ _)) by lia. cbn [assert_ mbind result_bind].
    by replace (MAX - S (MAX - 1))%nat with 0%nat by lia.
  - cbn [peaks]. pose proof (div2_cases (m / width l)) as Hd. rewrite <- div_width_S in Hd.
    specialize (IH (S l) ltac:(lia) ltac:(lia)). cbn [sub] in IH.
    destruct (Z.odd (m / width l)).
    + rewrite <- IH. unfold frontier_from. cbn [frontier_loop r_height r_root].
      rewrite Nat.sub_diag. cbn [pad mbind result_bind]. rewrite Nat.max_id, Nat.add_1_r.
      do 3 f_equal; f_equal; lia.
    + rewrite frontier_skip; [|lia|]; [|intros r Hr%peaks_height; lia].
      rewrite <- IH. f_equal. f_equal; [f_equal; lia|].
      symmetry. apply sub_beyond with (m + 1); [intros; apply Hf; lia|].
      pose proof (proj1 (block_iff m l _) eq_refl). rewrite Hd in *. lia.
Qed.

Lemma frontier_root_peaks {E} f n : 0 <= n <= capacity → (∀ i, n <= i → f i = EMPTY_VALUE) →
  frontier_root (E:=E) MAX (peaks f n 0 MAX) = Ok (sub f (MAX - 1) 0).
Proof.
  intros Hn Hf. destruct (decide (n = 0)) as [->|].
  - rewrite peaks_0.
    cbn [frontier_root]. rewrite empty_root_at_ok by lia.
    by rewrite (sub_beyond f 0) by (done || lia).
  - destruct (peaks_first f (n - 1) 0 MAX) as (l & Hl & Hp); [lia|rewrite !div_width_0; lia|rewrite div_width_0; lia|lia|].
    rewrite Z.sub_add in Hp. rewrite Hp. cbn [frontier_root r_root r_height].
    apply frontier_from_peaks; [lia|intros; apply Hf; lia|lia|lia].
Qed.

End Frontier.

(** * Tracked paths of the Merkle mountain range

    [push_with_paths] turns the siblings of every tracked leaf into those of the
    tree with the pushed leaf, first at the merged heights and then above them. *)

Import DynamicMerkle MountainRange.

#[local] Open Scope Z_scope.

#[local] Arguments width : simpl never.

(** ** Positions *)

Lemma lxor_1 b : Z.lxor b 1 = if Z.odd b then b - 1 else b + 1.
Proof.
  assert (∀ q, Z.lxor (2 * q) 1 = 2 * q + 1) as He.
  { intros q. symmetry. apply Z.add_nocarry_lxor. change 1 with (Z.ones 1). rewrite Z.land_ones by lia.
    rewrite Z.mul_comm. apply Z.mod_mul. done. }
  pose proof (div2_cases b) as Hd. destruct (Z.odd b).
  - rewrite Hd at 1. rewrite <- He, Z.lxor_assoc, Z.lxor_nilpotent, Z.lxor_0_r. lia.
  - rewrite Z.add_0_r in Hd. rewrite Hd at 1. rewrite He. lia.
Qed.

Lemma shiftr_level i j : Z.shiftr i (Z.of_nat (S j) - 1) = i / width j.
Proof. replace (Z.of_nat (S j) - 1) with (Z.of_nat j) by lia. apply Z.shiftr_div_pow2. lia. Qed.

Lemma is_left_child_odd i j : is_left_child i (S j) = negb (Z.odd (i / width j)).
Proof.
  unfold is_left_child. rewrite shiftr_level. change 1 with (Z.ones 1) at 1. rewrite Z.land_ones by lia.
  change (2 ^ 1) with 2. rewrite Zmod_odd. by destruct (Z.odd _).
Qed.

Lemma are_siblings_at_iff n i j : are_siblings_at n i (S j) = true ↔ n / width j = Z.lxor (i / width j) 1.
Proof. unfold are_siblings_at. rewrite !shiftr_level. apply Z.eqb_eq. Qed.

(** The one height at which two distinct leaves are below siblings. *)
Lemma sibling_height_iff n i l : 0 <= n → 0 <= i → n ≠ i →
  sibling_height n i = S l ↔ n / width l = Z.lxor (i / width l) 1.
Proof.
  intros Hn Hi Hne. unfold sibling_height.
  assert (0 <= Z.lxor n i) by (apply Z.lxor_nonneg; lia).
  assert (Z.lxor n i ≠ 0) as Hx by (by rewrite Z.lxor_eq_0_iff).
  rewrite (proj2 (Z.eqb_neq _ _) Hx). pose proof (Z.log2_nonneg (Z.lxor n i)).
  transitivity (Z.lxor n i / width l = 1).
  - split; intros Hl.
    + apply block_iff. pose proof (Z.log2_spec (Z.lxor n i) ltac:(lia)) as Hs.
      replace (Z.log2 (Z.lxor n i)) with (Z.of_nat l) in Hs by lia.
      rewrite Z.pow_succ_r in Hs by lia. fold (width l) in Hs. lia.
    + apply block_iff in Hl. rewrite (Z.log2_unique _ (Z.of_nat l)); [lia|lia|].
      rewrite Z.pow_succ_r by lia. fold (width l). lia.
  - unfold width. rewrite <- !Z.shiftr_div_pow2, Z.shiftr_lxor by lia. split; intros Hx1.
    + by rewrite <- Hx1, Z.lxor_comm, Z.lxor_assoc, Z.lxor_nilpotent, Z.lxor_0_r.
    + rewrite Hx1. by rewrite (Z.lxor_comm _ 1), Z.lxor_assoc, Z.lxor_nilpotent.
Qed.

(** Two leaves of a tree with [width k] leaves are siblings within its levels. *)
Lemma sibling_height_le n i k : 0 <= n < width k → 0 <= i < width k → (sibling_height n i <= k)%nat.
Proof.
  intros Hn Hi. unfold sibling_height. destruct (Z.eqb_spec (Z.lxor n i) 0) as [|Hx]; [lia|].
  assert (0 <= Z.lxor n i) by (apply Z.lxor_nonneg; lia).
  assert (Z.log2 (Z.lxor n i) < Z.of_nat k) as Hlt; [|lia].
  destruct (decide (k = 0%nat)) as [->|]; [rewrite width_0 in *; by replace n with 0 in * by lia; replace i with 0 in * by lia|].
  pose proof (Z.log2_lxor n i ltac:(lia) ltac:(lia)).
  assert (∀ m, 0 <= m < width k → Z.log2 m < Z.of_nat k) as Hl.
  { intros m Hm. destruct (decide (m = 0)) as [->|]; [cbn; lia|]. apply Z.log2_lt_pow2; [lia|apply Hm]. }
  pose proof (Hl n Hn). pose proof (Hl i Hi). lia.
Qed.

Section Paths.
Context {Hash : Type} `{MerkleHasher Hash}.
Context (MAX : nat) (Hmax : (1 <= MAX <= ACCEPTABLE_MAX_HEIGHT)%nat).
Implicit Types (f : Z → Hash) (g : nat → Hash) (j l : nat) (n i : Z) (idx : list Z).

Notation capacity := (width (MAX - 1)).

Definition path_of i g : MerklePath Hash := mkPath i (g <$> seq 0 (MAX - 1)).

Lemma path_of_ext i g1 g2 : (∀ l, (l < MAX - 1)%nat → g1 l = g2 l) → path_of i g1 = path_of i g2.
Proof.
  intros Hg. unfold path_of. f_equal. apply list_fmap_ext. intros k l Hl.
  apply lookup_seq in Hl as [-> Hl]. by apply Hg.
Qed.

Lemma set_sibling_of {E} i g j v : (j < MAX - 1)%nat →
  set_sibling (E:=E) (path_of i g) j v = Ok (path_of i (λ l, if decide (l = j) then v else g l)).
Proof.
  intros Hj. unfold set_sibling, path_of. cbn [siblings leaf_index].
  rewrite length_fmap, length_seq, (proj2 (Nat.ltb_lt _ _)) by lia. do 2 f_equal.
  apply list_eq. intros k. destruct (decide (k = j)) as [->|Hk].
  - rewrite list_lookup_insert_eq by (rewrite length_fmap, length_seq; lia).
    rewrite list_lookup_fmap, (proj2 (lookup_seq 0 (MAX - 1) j j)) by lia. cbn. by destruct (decide (j = j)).
  - rewrite list_lookup_insert_ne by done. rewrite !list_lookup_fmap.
    destruct (seq 0 (MAX - 1) !! k) as [l|] eqn:Hl; [|done]. apply lookup_seq in Hl as [-> Hl]. cbn.
    destruct (decide _); [lia|done].
Qed.

(** The siblings of leaf [i] in the tree of the leaves [f]. *)
Definition sibs f i l : Hash := sub f l (Z.lxor (i / width l) 1).

(** A path made of these siblings leads from its leaf to the root. *)
Lemma path_root_of f i : 0 <= i < capacity → path_root (path_of i (sibs f i)) (f i) = sub f (MAX - 1) 0.
Proof.
  intros Hi. unfold path_root, path_of. cbn [leaf_index siblings].
  enough (∀ count j, path_root_loop i (S j) (sub f j (i / width j)) (sibs f i <$> seq j count)
    = sub f (j + count) (i / width (j + count))) as Hp.
  { pose proof (Hp (MAX - 1)%nat 0%nat) as H0. cbn [sub] in H0. rewrite div_width_0 in H0. rewrite H0.
    cbn. by rewrite Z.div_small by lia. }
  induction count as [|count IH]; intros j; cbn [seq fmap list_fmap path_root_loop]; [by rewrite Nat.add_0_r|].
  replace (j + S count)%nat with (S j + count)%nat by lia. rewrite <- IH. f_equal.
  rewrite is_left_child_odd. unfold sibs. rewrite lxor_1.
  pose proof (div2_cases (i / width j)) as Hd. rewrite <- div_width_S in Hd. cbn [sub].
  destruct (Z.odd (i / width j)); cbn [negb]; f_equal; f_equal; lia.
Qed.

End Paths.

(** ** Pushing with tracked paths *)

Lemma mapM_fmap_ok {E A B C} (F : B → result E C) (P : A → B) (Q : A → C) (l : list A) :
  (∀ a, a ∈ l → F (P a) = Ok (Q a)) → mapM F (P <$> l) = Ok (Q <$> l).
Proof.
  induction l as [|a l IH]; intros HF; [done|]. cbn. rewrite HF by constructor. cbn.
  rewrite IH by (intros; apply HF; by constructor). done.
Qed.

Section PushPaths.
Context {Hash : Type} `{MerkleHasher Hash}.
Context (MAX : nat) (Hmax : (1 <= MAX <= ACCEPTABLE_MAX_HEIGHT)%nat).
Context (f : Z → Hash) (n : Z) (x : Hash).
Context (Hn : 0 <= n < width (MAX - 1)) (Hf : ∀ i, n <= i → f i = EMPTY_VALUE).
Implicit Types (j l : nat) (i : Z) (idx : list Z).

Notation f' := (snoc f n x).
Notation path_of := (path_of MAX).

(** The tracked paths and the new one once the levels below [j] are updated. *)
Definition tracked j i l : Hash := sub (if (l <? j)%nat then f' else f) l (Z.lxor (i / width l) 1).
Definition tracked_paths j idx : list (MerklePath Hash) := (λ i, path_of i (tracked j i)) <$> idx.
Definition fresh_path j : MerklePath Hash :=
  path_of n (λ l, if (l <? j)%nat then sibs f' n l else er l).

Lemma tracked_other j i l : n / width l ≠ Z.lxor (i / width l) 1 → tracked j i l = sibs f' i l.
Proof. intros Hne. unfold tracked, sibs. destruct (l <? j)%nat; [done|]. by rewrite sub_snoc. Qed.

Lemma fresh_step {E} j v : (j < MAX - 1)%nat → v = sibs f' n j →
  set_sibling (E:=E) (fresh_path j) j v = Ok (fresh_path (S j)).
Proof.
  intros Hj ->. unfold fresh_path. rewrite set_sibling_of by done. f_equal. apply path_of_ext. intros l Hl.
  destruct (decide (l = j)) as [->|]; [by rewrite (proj2 (Nat.ltb_lt _ _)) by lia|].
  destruct (Nat.ltb_spec l j), (Nat.ltb_spec l (S j)); (done || lia).
Qed.

Lemma update_at_merge {E} j idx : (j < MAX - 1)%nat → Z.odd (n / width j) = true →
  update_paths_at_merge (E:=E) (mkRoot (sub f' j (n / width j)) (S j)) (mkRoot (sub f j (n / width j - 1)) (S j))
    (tracked_paths j idx) (fresh_path j)
  = Ok (tracked_paths (S j) idx, fresh_path (S j)).
Proof.
  intros Hj Ho. unfold update_paths_at_merge. cbn [r_height r_root]. rewrite Nat.eqb_refl.
  cbn [assert_ mbind result_bind]. rewrite Nat.sub_succ, Nat.sub_0_r.
  unfold tracked_paths at 1. rewrite (mapM_fmap_ok _ _ (λ i, path_of i (tracked (S j) i))).
  { cbn [mbind result_bind]. rewrite fresh_step; [done|done|].
    unfold sibs. rewrite lxor_1, Ho. by rewrite sub_snoc by lia. }
  intros i _. cbn [leaf_index fresh_path MmrFacts.path_of].
  destruct (are_siblings_at n i (S j)) eqn:Hs.
  - apply are_siblings_at_iff in Hs. rewrite set_sibling_of by done. f_equal. apply path_of_ext. intros l Hl.
    unfold tracked. destruct (decide (l = j)) as [->|].
    + rewrite (proj2 (Nat.ltb_lt j (S j))) by lia. by rewrite Hs.
    + destruct (Nat.ltb_spec l j), (Nat.ltb_spec l (S j)); (done || lia).
  - f_equal. apply path_of_ext. intros l Hl. destruct (decide (l = j)) as [->|].
    + assert (n / width j ≠ Z.lxor (i / width j) 1) by (rewrite <- are_siblings_at_iff, Hs; done).
      by rewrite !tracked_other.
    + unfold tracked. destruct (Nat.ltb_spec l j), (Nat.ltb_spec l (S j)); (done || lia).
Qed.

Lemma merge_loop_spec {E} j count idx : (j + count = MAX)%nat → (1 <= count)%nat →
  ∃ l, (j <= l < MAX)%nat ∧ Z.odd (n / width l) = false ∧
    merge_loop (E:=E) MAX (mkRoot (sub f' j (n / width j)) (S j)) (peaks f n j count)
      (tracked_paths j idx) (fresh_path j)
    = Ok (mkRoot (sub f' l (n / width l)) (S l), peaks f n l (MAX - l), tracked_paths l idx, fresh_path l).
Proof.
  revert j. induction count as [|count IH]; intros j Hj Hpos; [lia|]. cbn [peaks].
  destruct (Z.odd (n / width j)) eqn:Ho.
  - pose proof (odd_level MAX Hmax n j Hn Ho). cbn [merge_loop r_height r_root]. rewrite Nat.eqb_refl.
    rewrite update_at_merge by (done || lia). cbn [mbind result_bind].
    rewrite (proj2 (Nat.leb_le _ _)) by lia. cbn [assert_ mbind result_bind].
    rewrite (merge_root f n x j Ho), Nat.add_1_r.
    destruct (IH (S j)) as (l & Hl & Hol & Heq); [lia|lia|]. exists l. split; [lia|done].
  - exists j. split; [lia|]. split; [done|]. replace (MAX - j)%nat with (S count) by lia. cbn [peaks]. rewrite Ho.
    destruct (peaks f n (S j) count) as [|r rs] eqn:Hp; cbn [merge_loop]; [done|].
    assert (r ∈ peaks f n (S j) count) as Hr by (rewrite Hp; by constructor). apply peaks_height in Hr.
    cbn [r_height]. by rewrite (proj2 (Nat.eqb_neq _ _)) by lia.
Qed.

Lemma above_loop_spec {E} count l : (l + count = MAX - 1)%nat →
  above_loop (E:=E) count (S l) (sub f' l (n / width l)) (peaks f n l (S count)) (fresh_path l)
  = Ok ((λ k, sub f' k (n / width k)) <$> seq l count, fresh_path (MAX - 1)).
Proof.
  revert l. induction count as [|count IH]; intros l Hl; cbn [above_loop].
  { replace (MAX - 1)%nat with l by lia. done. }
  change (leaf_index (fresh_path l)) with n. rewrite is_left_child_odd, Nat.sub_succ, Nat.sub_0_r.
  pose proof (div2_cases (n / width l)) as Hd.
  remember (S count) as c eqn:Hc. cbn [peaks]. destruct (Z.odd (n / width l)) eqn:Ho; cbn [negb].
  - rewrite fresh_step; [|lia|]; cbn [r_root mbind result_bind].
    2:{ unfold sibs. rewrite lxor_1, Ho. by rewrite sub_snoc by lia. }
    rewrite merge_root by done. subst c. rewrite IH by lia. done.
  - rewrite empty_root_at_ok by lia. rewrite Nat.sub_succ, Nat.sub_0_r.
    assert (er l = sub f' l (n / width l + 1)) as He.
    { symmetry. apply sub_beyond with (n + 1).
      - intros i Hi. unfold snoc. destruct (Z.eqb_spec i n); [lia|]. apply Hf. lia.
      - pose proof (proj1 (block_iff n l _) eq_refl). lia. }
    cbn [mbind result_bind]. rewrite fresh_step; [|lia|by unfold sibs; rewrite lxor_1, Ho].
    assert (compress (sub f' l (n / width l)) (er l) = sub f' (S l) (n / width (S l))) as ->.
    { rewrite He. cbn [sub]. rewrite div_width_S. f_equal; f_equal; lia. }
    cbn [mbind result_bind]. subst c. rewrite IH by lia. done.
Qed.

Lemma update_above_spec {E} l idx : (l < MAX)%nat → Forall (λ i, 0 <= i < n) idx →
  update_paths_above_merge (E:=E) MAX (mkRoot (sub f' l (n / width l)) (S l)) (peaks f n l (MAX - l))
    (tracked_paths l idx) (fresh_path l)
  = Ok ((λ i, path_of i (sibs f' i)) <$> idx, path_of n (sibs f' n)).
Proof.
  intros Hl Hidx. unfold update_paths_above_merge. cbn [r_height r_root].
  replace (MAX - l)%nat with (S (MAX - S l)) by lia.
  rewrite above_loop_spec by lia. cbn [mbind result_bind].
  unfold tracked_paths. rewrite (mapM_fmap_ok _ _ (λ i, path_of i (sibs f' i))).
  { cbn [mbind result_bind]. do 2 f_equal. apply path_of_ext. intros k Hk.
    by rewrite (proj2 (Nat.ltb_lt _ _)) by lia. }
  intros i Hi. rewrite Forall_forall in Hidx. specialize (Hidx i Hi).
  change (leaf_index (fresh_path (MAX - 1))) with n. cbn [leaf_index MmrFacts.path_of].
  pose proof (sibling_height_le n i (MAX - 1) Hn ltac:(lia)) as Hh.
  pose proof (λ k, sibling_height_iff n i k ltac:(lia) ltac:(lia) ltac:(lia)) as Hs.
  destruct (sibling_height n i) as [|h] eqn:Hsh.
  { cbn. f_equal. apply path_of_ext. intros k Hk. apply tracked_other. rewrite <- Hs. lia. }
  rewrite (proj2 (Nat.ltb_lt (S h) MAX)), andb_true_r by lia.
  destruct (Nat.leb_spec (S l) (S h)) as [Hle|Hlt].
  - rewrite list_lookup_fmap, (proj2 (lookup_seq l (MAX - S l) (S h - S l) h)) by lia.
    cbn [fmap option_fmap option_map expect mbind result_bind]. rewrite Nat.sub_succ, Nat.sub_0_r.
    rewrite set_sibling_of by lia. f_equal. apply path_of_ext. intros k Hk.
    destruct (decide (k = h)) as [->|].
    + unfold sibs. f_equal. by apply Hs.
    + apply tracked_other. rewrite <- Hs. lia.
  - f_equal. apply path_of_ext. intros k Hk. unfold tracked.
    destruct (Nat.ltb_spec k l); [done|]. unfold sibs. rewrite sub_snoc; [done|]. rewrite <- Hs. lia.
Qed.

End PushPaths.
