(* ===== verification/MmrTheorems.v ===== *)
(** * The contract of the Merkle mountain range

    The range of the leaves [xs] stands for the tree of height [MAX_HEIGHT]
    whose first leaves are [xs] and whose others are empty: pushing appends, the
    frontier root is the root of that tree, and tracked paths are its membership
    paths. At the end, the theorems applied to a concrete range. *)

From S2P Require Import Prelude Merkle MerkleFacts MerkleTheorems Mmr MmrFacts.

Import DynamicMerkle MountainRange.

#[local] Open Scope Z_scope.

#[local] Arguments width : simpl never.

Section Contract.
Context {Hash : Type} `{MerkleHasher Hash}.
Implicit Types (MAX : nat) (xs : list Hash) (x v : Hash) (roots : list (Root Hash)) (p : MerklePath Hash).

(** The leaf at a position, and the value it is hashed as. *)
Definition leaf_fn xs (i : Z) : option Hash := if i <? 0 then None else xs !! Z.to_nat i.
Definition leaves xs (i : Z) : Hash := default EMPTY_VALUE (leaf_fn xs i).

(** The stack of a range with the leaves [xs], and a path of one of them. *)
Definition represents MAX roots xs : Prop :=
  Z.of_nat (length xs) <= width (MAX - 1) ∧ roots = peaks (leaves xs) (Z.of_nat (length xs)) 0 MAX.

Definition tracks MAX xs p : Prop :=
  0 <= leaf_index p < Z.of_nat (length xs) ∧ p = path_of MAX (leaf_index p) (sibs (leaves xs) (leaf_index p)).

Lemma leaves_snoc xs x i : leaves (xs ++ [x]) i = snoc (leaves xs) (Z.of_nat (length xs)) x i.
Proof.
  unfold leaves, leaf_fn, snoc. destruct (Z.ltb_spec i 0).
  { by rewrite (proj2 (Z.eqb_neq _ _)) by lia. }
  destruct (Z.eqb_spec i (Z.of_nat (length xs))) as [->|Hne].
  - by rewrite Nat2Z.id, lookup_app_r, Nat.sub_diag by lia.
  - destruct (decide (Z.to_nat i < length xs)%nat); [by rewrite lookup_app_l by lia|].
    rewrite !lookup_ge_None_2; [done|lia|rewrite length_app; cbn; lia].
Qed.

Lemma leaves_beyond xs i : Z.of_nat (length xs) <= i → leaves xs i = EMPTY_VALUE.
Proof.
  intros Hi. unfold leaves, leaf_fn. destruct (i <? 0); [done|]. by rewrite lookup_ge_None_2 by lia.
Qed.

Lemma peaks_leaves_snoc xs x n j count :
  peaks (snoc (leaves xs) (Z.of_nat (length xs)) x) n j count = peaks (leaves (xs ++ [x])) n j count.
Proof. apply peaks_ext. intros l _. split; [done|]. intros _. apply sub_ext. intros i _. by rewrite leaves_snoc. Qed.

Lemma sibs_leaves_snoc xs x i l :
  sibs (snoc (leaves xs) (Z.of_nat (length xs)) x) i l = sibs (leaves (xs ++ [x])) i l.
Proof. apply sub_ext. intros k _. by rewrite leaves_snoc. Qed.

(** [sub] is the reference root of the tree shifted to its block. *)
Lemma sub_full_root (g : Z → option Hash) j b :
  sub (λ i, default EMPTY_VALUE (g i)) j b = full_root j (λ i, g (b * width j + i)).
Proof.
  revert b. induction j as [|j IH]; intros b; cbn.
  - rewrite width_0. do 2 f_equal. lia.
  - rewrite !IH, width_S. f_equal; apply full_root_ext; intros i _; f_equal; lia.
Qed.

Lemma is_full_iff MAX f n : (1 <= MAX <= ACCEPTABLE_MAX_HEIGHT)%nat → 0 <= n <= width (MAX - 1) →
  is_full MAX (peaks f n 0 MAX) = bool_decide (n = width (MAX - 1)).
Proof.
  intros HM Hn. enough (∀ count j, (j + count = MAX)%nat → (1 <= count)%nat →
    is_full MAX (peaks f n j count) = bool_decide (n = width (MAX - 1))) as Hc by (apply Hc; lia).
  induction count as [|count IH]; intros j Hj Hpos; [lia|]. cbn [peaks].
  destruct (Z.odd (n / width j)) eqn:Ho; cbn [is_full r_height].
  - destruct (decide (n = width (MAX - 1))) as [->|Hne].
    + rewrite bool_decide_true by done. apply Nat.eqb_eq.
      destruct (decide (j = (MAX - 1)%nat)); [lia|]. exfalso.
      replace (MAX - 1)%nat with (S (MAX - 2 - j) + j)%nat in Ho by lia.
      unfold width in Ho. rewrite Nat2Z.inj_add, Z.pow_add_r in Ho by lia.
      rewrite Z.div_mul in Ho by (pose proof (width_pos j); unfold width in *; lia).
      change (2 ^ Z.of_nat (S (MAX - 2 - j))) with (width (S (MAX - 2 - j))) in Ho.
      by rewrite width_S, Z.odd_mul in Ho.
    + rewrite bool_decide_false by done. apply Nat.eqb_neq.
      pose proof (odd_level MAX HM n j ltac:(lia) Ho). lia.
  - destruct (decide (1 <= count)%nat); [apply IH; lia|]. assert (count = 0)%nat as -> by lia.
    cbn. symmetry. apply bool_decide_false. intros ->. replace (MAX - 1)%nat with j in Ho by lia.
    by rewrite Z.div_same in Ho by (pose proof (width_pos j); lia).
Qed.

Lemma represents_len MAX roots xs : (1 <= MAX)%nat → represents MAX roots xs → mmr_len roots = Z.of_nat (length xs).
Proof.
  intros HM [Hle ->]. assert (width MAX = 2 * width (MAX - 1)) as HS.
  { replace MAX with (S (MAX - 1)) at 1 by lia. apply width_S. }
  rewrite mmr_len_peaks; rewrite ?width_0, ?Z.div_1_r; pose proof (width_pos (MAX - 1)); lia.
Qed.

Lemma push_represents MAX roots xs x : (1 <= MAX <= ACCEPTABLE_MAX_HEIGHT)%nat → represents MAX roots xs →
  Z.of_nat (length xs) < width (MAX - 1) → ∃ roots', push MAX roots x = Ok roots' ∧ represents MAX roots' (xs ++ [x]).
Proof.
  intros HM [Hle ->] Hlt. unfold push. rewrite is_full_iff by lia. rewrite bool_decide_false by lia.
  cbn [err_if mbind result_bind].
  pose proof (push_loop_peaks (E:=PushWithPathsError) MAX HM (leaves xs) (Z.of_nat (length xs)) x 0 MAX ltac:(lia)) as Hp.
  cbn [sub] in Hp. rewrite !div_width_0 in Hp. unfold snoc at 1 in Hp. rewrite Z.eqb_refl in Hp.
  rewrite Hp by lia. eexists. split; [done|]. rewrite peaks_leaves_snoc.
  unfold represents. rewrite length_app, Nat2Z.inj_add. cbn. split; [lia|done].
Qed.

(** Starting from the empty range, a push appends a leaf; it fails exactly
    when all [2 ^ (MAX_HEIGHT - 1)] positions are taken, and [len] counts the
    leaves. *)
Theorem push_spec MAX roots xs x : (1 <= MAX <= ACCEPTABLE_MAX_HEIGHT)%nat → represents MAX roots xs →
  new_mmr (Hash:=Hash) (E:=PushWithPathsError) MAX = Ok [] ∧ represents MAX [] [] ∧
  mmr_len roots = Z.of_nat (length xs) ∧
  if decide (mmr_len roots < width (MAX - 1))
  then ∃ roots', push MAX roots x = Ok roots' ∧ represents MAX roots' (xs ++ [x])
  else push MAX roots x = Err MmrFull.
Proof.
  intros HM Hr. pose proof (represents_len MAX roots xs ltac:(lia) Hr) as Hlen. split_and!; [| |done|].
  - unfold new_mmr, assert_acceptable_height. by rewrite !(proj2 (Nat.leb_le _ _)) by lia.
  - split; [cbn; pose proof (width_pos (MAX - 1)); lia|]. by rewrite peaks_0.
  - rewrite Hlen. case_decide; [by apply push_represents|]. destruct Hr as [Hle ->].
    unfold push. rewrite is_full_iff by lia. by rewrite bool_decide_true by lia.
Qed.

Lemma frontier_root_represents {E} MAX roots xs : (1 <= MAX <= ACCEPTABLE_MAX_HEIGHT)%nat → represents MAX roots xs →
  frontier_root (E:=E) MAX roots = Ok (full_root (MAX - 1) (leaf_fn xs)).
Proof.
  intros HM [Hle ->]. rewrite frontier_root_peaks; [|done|lia|apply leaves_beyond].
  f_equal. unfold leaves. rewrite sub_full_root. by apply full_root_ext.
Qed.

(** The frontier root is the root of the complete tree of height
    [MAX_HEIGHT] over the pushed leaves, with [EMPTY_VALUE] at the positions not
    yet taken: the root the dynamic tree has for the same leaves. *)
Theorem frontier_root_spec {E} MAX roots xs : (1 <= MAX <= ACCEPTABLE_MAX_HEIGHT)%nat → represents MAX roots xs →
  frontier_root (E:=E) MAX roots = Ok (full_root (MAX - 1) (leaf_fn xs)).
Proof. apply frontier_root_represents. Qed.

(** ** Paths *)

Lemma validate_paths_ok MAX xs ps : (1 <= MAX <= ACCEPTABLE_MAX_HEIGHT)%nat → Forall (tracks MAX xs) ps →
  validate_paths MAX ps (Z.of_nat (length xs)) = Ok tt.
Proof.
  intros HM. induction 1 as [|p ps [Hi Hp] _ IH]; [done|]. cbn [validate_paths].
  unfold validate_for_height, assert_acceptable_height, validate_leaf_index.
  rewrite !(proj2 (Nat.leb_le _ _)) by lia. cbn [andb assert_ mbind result_bind].
  rewrite Hp at 1. cbn [siblings path_of]. rewrite length_fmap, length_seq, Nat.eqb_refl.
  cbn [negb err_if mbind result_bind]. by rewrite (proj2 (Z.leb_gt _ _)) by lia.
Qed.

Lemma empties_ok {E} MAX n : (1 <= MAX <= ACCEPTABLE_MAX_HEIGHT)%nat →
  mapM (empty_root_at (E:=E)) (seq 1 (MAX - 1)) = Ok (siblings (path_of MAX n er)).
Proof.
  intros HM. rewrite <- (fmap_S_seq 0 (MAX - 1)). cbn [siblings path_of]. apply mapM_fmap_ok. intros j Hj.
  apply elem_of_seq in Hj. rewrite empty_root_at_ok by lia. by rewrite Nat.sub_succ, Nat.sub_0_r.
Qed.

(** The loop that also updates paths merges the same roots. *)
Lemma merge_loop_push {E} MAX last roots ps np last' roots' ps' np' :
  merge_loop (E:=E) MAX last roots ps np = Ok (last', roots', ps', np') →
  push_loop (E:=E) MAX last roots = Ok (last' :: roots').
Proof.
  revert last ps np. induction roots as [|r rs IH]; intros last ps np; cbn [merge_loop push_loop].
  - by intros [= -> -> _ _].
  - destruct (_ =? _)%nat; [|by intros [= -> -> _ _]].
    destruct (update_paths_at_merge _ _ _ _) as [[ps1 np1]| |]; cbn [mbind result_bind]; try done.
    destruct (_ <=? _)%nat; cbn [assert_ mbind result_bind]; [apply IH|done].
Qed.

(** Pushing with tracked paths appends the leaf as [push] does, turns every
    tracked path of the old tree into the path of its leaf in the new one, and
    returns the path of the pushed leaf. *)
Theorem push_with_paths_spec MAX roots xs x ps : (1 <= MAX <= ACCEPTABLE_MAX_HEIGHT)%nat →
  represents MAX roots xs → Z.of_nat (length xs) < width (MAX - 1) → Forall (tracks MAX xs) ps →
  ∃ roots' ps' p', push_with_paths MAX roots x ps = Ok (roots', ps', p') ∧
    push MAX roots x = Ok roots' ∧ represents MAX roots' (xs ++ [x]) ∧
    leaf_index p' = Z.of_nat (length xs) ∧ Forall (tracks MAX (xs ++ [x])) (p' :: ps') ∧
    leaf_index <$> ps' = leaf_index <$> ps.
Proof.
  intros HM Hr Hlt Hps. destruct (push_represents MAX roots xs x HM Hr Hlt) as (roots' & Hpush & Hr').
  pose proof (Nat2Z.is_nonneg (length xs)).
  set (n := Z.of_nat (length xs)) in *. assert (roots = peaks (leaves xs) n 0 MAX) as Hroots by apply Hr.
  set (idx := leaf_index <$> ps).
  assert (Forall (λ i, 0 <= i < n) idx) as Hidx.
  { apply Forall_fmap. eapply Forall_impl; [exact Hps|]. by intros p [? _]. }
  assert (ps = tracked_paths MAX (leaves xs) n x 0 idx) as Ht.
  { subst idx. unfold tracked_paths. clear -Hps. induction Hps as [|p ps [_ Hp] _ IH]; [done|].
    cbn. f_equal; [|exact IH]. rewrite Hp at 1. by apply path_of_ext. }
  destruct (merge_loop_spec (E:=PushWithPathsError) MAX HM (leaves xs) n x ltac:(lia) 0 MAX idx)
    as (l & Hl & Ho & Hm); [lia|lia|].
  cbn [sub] in Hm. rewrite !div_width_0 in Hm. unfold snoc at 1 in Hm. rewrite Z.eqb_refl in Hm.
  pose proof Hpush as Hpl. unfold push in Hpl. rewrite Hroots, is_full_iff in Hpl by lia.
  rewrite bool_decide_false in Hpl by lia. cbn [err_if mbind result_bind] in Hpl.
  rewrite (merge_loop_push _ _ _ _ _ _ _ _ _ Hm) in Hpl. apply Ok_inj in Hpl.
  exists roots'. eexists _, _. split; [|split; [done|split; [done|]]].
  - unfold push_with_paths. rewrite (represents_len MAX roots xs ltac:(lia) Hr).
    rewrite (validate_paths_ok MAX xs ps HM Hps). fold n. rewrite (empties_ok MAX n HM).
    rewrite Hroots, is_full_iff by lia. rewrite bool_decide_false by lia.
    cbn [err_if mbind result_bind].
    change (mkPath n (siblings (path_of MAX n er))) with (fresh_path MAX (leaves xs) n x 0).
    rewrite Ht, Hm. cbn [mbind result_bind].
    rewrite (update_above_spec MAX HM (leaves xs) n x) by (done || lia || apply leaves_beyond).
    cbn [mbind result_bind]. by rewrite Hpl.
  - split; [done|]. unfold tracks. rewrite length_app, Nat2Z.inj_add. split.
    + constructor; [|apply Forall_fmap; eapply Forall_impl; [exact Hidx|]; intros i Hi]; cbn [compose leaf_index path_of];
        (split; [fold n; cbn [length]; cbn beta in *; lia|apply path_of_ext; intros; apply sibs_leaves_snoc]).
    + rewrite <- list_fmap_compose. by apply list_fmap_id.
Qed.

Lemma path_root_loop_inj `{EqDecision Hash} index height a b l : path_root_loop index height a l = path_root_loop index height b l →
  a = b ∨ collision (Hash:=Hash).
Proof.
  revert height a b. induction l as [|s l IH]; intros height a b; cbn [path_root_loop]; [by left|].
  intros [Heq|?]%IH; [|by right].
  destruct (decide (a = b)); [by left|]. right.
  destruct (is_left_child _ _); [exists a, s, b, s|exists s, a, s, b]; (split; [congruence|done]).
Qed.

(** A tracked path verifies its leaf against the frontier root, and no other
    value unless the hash has a collision. *)
Theorem tracked_path_verifies `{EqDecision Hash} {E} MAX roots xs p v r : (1 <= MAX <= ACCEPTABLE_MAX_HEIGHT)%nat →
  represents MAX roots xs → tracks MAX xs p → xs !! Z.to_nat (leaf_index p) = Some v →
  frontier_root (E:=E) MAX roots = Ok r →
  verify p v r = true ∧ ∀ v', verify p v' r = true → v' = v ∨ collision (Hash:=Hash).
Proof.
  intros HM [Hle ->] [Hi Hp] Hv Hr. rewrite frontier_root_peaks in Hr; [|done|lia|apply leaves_beyond].
  apply Ok_inj in Hr. pose proof (path_root_of MAX HM (leaves xs) (leaf_index p) ltac:(lia)) as Hroot.
  rewrite <- Hp, Hr in Hroot. unfold leaves, leaf_fn in Hroot.
  rewrite (proj2 (Z.ltb_ge _ _)) in Hroot by lia. rewrite Hv in Hroot. cbn in Hroot.
  unfold verify. rewrite bool_decide_true by done. split; [done|].
  intros v' Hv'%bool_decide_eq_true. rewrite <- Hroot in Hv'. by apply path_root_loop_inj in Hv'.
Qed.

End Contract.

(** * A small mountain range for its theorems

    A range of height four with three leaves, pushed with their paths. *)

Import DynamicMerkle MountainRange.

#[local] Open Scope Z_scope.

#[local] Instance toy_hasher : MerkleHasher Z :=
  {| EMPTY_VALUE := 0; compress l r := (31 * l + 17 * r + 7) mod 1000003 |}.

(** The range after pushing the leaves, and the paths of all of them. *)
Definition pushed (xs : list Z) : list (Root Z) * list (MerklePath Z) :=
  foldl (λ '(roots, ps) x,
    match push_with_paths 4 roots x ps with
    | Ok (roots, ps, p) => (roots, ps ++ [p])
    | _ => (roots, ps)
    end) ([], []) xs.

Definition range3 : list (Root Z) := fst (pushed [5; 6; 7]).
Definition paths3 : list (MerklePath Z) := snd (pushed [5; 6; 7]).

Lemma range3_ok : represents 4 range3 [5; 6; 7].
Proof. split; vm_compute; [discriminate|reflexivity]. Qed.

Lemma paths3_ok : Forall (tracks 4 [5; 6; 7]) paths3.
Proof.
  let v := eval vm_compute in paths3 in change paths3 with v.
  repeat constructor; cbn [leaf_index length]; (lia || (vm_compute; reflexivity)).
Qed.

Lemma push_spec_witness :
  mmr_len range3 = 3 ∧ ∃ roots, push 4 range3 8 = Ok roots ∧ represents 4 roots [5; 6; 7; 8].
Proof.
  destruct (push_spec 4 range3 [5; 6; 7] 8) as (_ & _ & Hl & Hp); [by vm_compute; lia|exact range3_ok|].
  split; [exact Hl|]. rewrite Hl in Hp. exact Hp.
Defined.

Lemma frontier_root_spec_witness :
  frontier_root (E:=Empty_set) 4 range3 = Ok (full_root 3 (leaf_fn [5; 6; 7])).
Proof. apply (frontier_root_spec 4 range3 [5; 6; 7]); [vm_compute; lia|exact range3_ok]. Defined.

Lemma push_with_paths_spec_witness :
  ∃ roots ps p, push_with_paths 4 range3 8 paths3 = Ok (roots, ps, p) ∧
    represents 4 roots [5; 6; 7; 8] ∧ Forall (tracks 4 [5; 6; 7; 8]) (p :: ps) ∧ length ps = 3%nat.
Proof.
  destruct (push_with_paths_spec 4 range3 [5; 6; 7] 8 paths3) as (roots & ps & p & Hok & _ & Hr & _ & Ht & Hi).
  - vm_compute; lia.
  - exact range3_ok.
  - vm_compute; reflexivity.
  - exact paths3_ok.
  - exists roots, ps, p. split; [exact Hok|]. split; [exact Hr|]. split; [exact Ht|].
    rewrite <- (length_fmap leaf_index), Hi. vm_compute. reflexivity.
Defined.

Lemma tracked_path_verifies_witness :
  ∃ p r, paths3 !! 1%nat = Some p ∧ frontier_root (E:=Empty_set) 4 range3 = Ok r ∧ verify p 6 r = true.
Proof.
  destruct (paths3 !! 1%nat) as [p|] eqn:Hp; [|discriminate].
  destruct (frontier_root (E:=Empty_set) 4 range3) as [r| |] eqn:Hr; [|discriminate..].
  exists p, r. split; [reflexivity|]. split; [reflexivity|].
  apply (tracked_path_verifies (E:=Empty_set) 4 range3 [5; 6; 7] p 6 r); [vm_compute; lia|exact range3_ok| | |exact Hr].
  - eapply Forall_lookup_1; [exact paths3_ok|exact Hp].
  - vm_compute in Hp. injection Hp as <-. reflexivity.
Defined.
