(* ===== verification/Codec.v ===== *)
(** * The canonical binary codec

    binary-codec/src/canonical: every codec as a record of its operations, the
    combinators for integers, field elements, arrays and bounded collections,
    and what the derive macros generate for structs. Bytes are [Byte.byte]; a
    [Context] is the first type parameter of a codec. The [type_name] of an
    error is a diagnostic and left out. [Bounded] at the end has the bounds of
    the collections of utils/src/bounded. *)

From Stdlib Require Export Strings.Byte.
From S2P Require Import Prelude.

#[local] Open Scope Z_scope.

Module Canonical.

(** [usize] of a 64-bit target. *)
Definition usize_max : Z := u64_max.

(** [DecodeError]. *)
Inductive DecodeError :=
  | UnexpectedEnd (needed : Z)
  | InputRemaining (remaining : Z)
  | InvalidValue (message : string)
  | UnknownDiscriminant (discriminant : Z)
  | LengthOutOfBounds (len min max : Z)
  | ZeroLengthElement (max limit : Z)
  | DuplicateItem (index : Z)
  | OutOfOrderItem (index : Z)
  | Custom (message : string).

(** [ZERO_LENGTH_ELEMENT_MAX]. *)
Definition ZERO_LENGTH_ELEMENT_MAX : Z := 1024.

(** [BinaryEncode] and [BinaryDecode] of one type: [encode] gives the bytes that
    [encode_into] appends. *)
Record Codec (C T : Type) := mkCodec {
  encoded_length : ∀ {E}, T → result E Z;
  encode : ∀ {E}, T → result E (list byte);
  decode : list byte → C → result DecodeError (list byte * T)
}.

Arguments mkCodec {C T} encoded_length encode decode.
Arguments encoded_length {C T} _ {E} _.
Arguments encode {C T} _ {E} _.
Arguments decode {C T} _ _ _.

(** [BinaryDecode::decode_all]. *)
Definition decode_all {C T} (cd : Codec C T) (input : list byte) (context : C) : result DecodeError T :=
  '(rest, v) ← decode cd input context;
  match rest with
  | [] => Ok v
  | _ => Err (InputRemaining (Z.of_nat (length rest)))
  end.

(** [take]. *)
Definition take_bytes (input : list byte) (n : nat) : result DecodeError (list byte * list byte) :=
  if (n <=? length input)%nat then Ok (take n input, drop n input)
  else Err (UnexpectedEnd (saturating_sub (Z.of_nat n) (Z.of_nat (length input)))).

(** ** Integers *)

Definition byte_val (b : byte) : Z := Z.of_N (Byte.to_N b).
Definition byte_of (z : Z) : byte := default x00 (Byte.of_N (Z.to_N z)).

(** [to_le_bytes] and [from_le_bytes] at a width of [w] bytes. *)
Fixpoint to_le_bytes (w : nat) (z : Z) : list byte :=
  match w with
  | O => []
  | S w => byte_of (z mod 256) :: to_le_bytes w (z / 256)
  end.

Fixpoint from_le_bytes (l : list byte) : Z :=
  match l with
  | [] => 0
  | b :: l => byte_val b + 256 * from_le_bytes l
  end.

(** [impl_le_integer!], for the integer of [w] bytes. *)
Definition le_integer (w : nat) : Codec unit Z := mkCodec
  (λ E _, Ok (Z.of_nat w))
  (λ E z, Ok (to_le_bytes w z))
  (λ input _, '(head, rest) ← take_bytes input w; Ok (rest, from_le_bytes head)).

Definition u8_codec := le_integer 1.
Definition u16_codec := le_integer 2.
Definition u32_codec := le_integer 4.
Definition u64_codec := le_integer 8.
Definition u128_codec := le_integer 16.

(** [impl_non_zero!]. *)
Definition non_zero (cd : Codec unit Z) : Codec unit Z := mkCodec
  (λ E z, encoded_length cd z)
  (λ E z, encode cd z)
  (λ input context,
    '(rest, value) ← decode cd input context;
    if value =? 0 then Err (InvalidValue "zero") else Ok (rest, value)).

Definition bool_codec : Codec unit bool := mkCodec
  (λ E _, Ok 1)
  (λ E (b : bool), Ok [byte_of (if b then 1 else 0)])
  (λ input context,
    '(rest, b) ← decode u8_codec input context;
    if b =? 0 then Ok (rest, false)
    else if b =? 1 then Ok (rest, true)
    else Err (InvalidValue "a bool byte must be 0 or 1")).

(** ** Field elements *)

(** [Fr::MODULUS], the scalar field of BN254; [Fr] is an integer below it. *)
Definition fr_modulus : Z :=
  21888242871839275222246405745257275088548364400416034343698204186575808495617.

(** [fr_to_bytes] and [fr_from_bytes]. *)
Definition fr_to_bytes (fr : Z) : list byte := to_le_bytes 32 fr.
Definition fr_from_bytes (bytes : list byte) : option Z :=
  let n := from_le_bytes bytes in if fr_modulus <=? n then None else Some n.

Definition fr_codec : Codec unit Z := mkCodec
  (λ E _, Ok 32)
  (λ E fr, Ok (fr_to_bytes fr))
  (λ input _,
    '(head, rest) ← take_bytes input 32;
    match fr_from_bytes head with
    | Some value => Ok (rest, value)
    | None => Err (InvalidValue "not a canonical field element")
    end).

(** ** Sequences *)

(** The items one after the other; [sum] of the lengths panics on overflow. *)
Fixpoint encode_items {C T E} (cd : Codec C T) (l : list T) : result E (list byte) :=
  match l with
  | [] => Ok []
  | x :: l => b ← encode cd x; bs ← encode_items cd l; Ok (b ++ bs)
  end.

Definition items_length {C T E} (cd : Codec C T) (l : list T) : result E Z :=
  foldl (λ acc x, sum ← acc; n ← encoded_length cd x; strict_add usize_max sum n) (Ok 0) l.

(** [[T; N]]: no prefix. *)
Fixpoint decode_array {C T} (cd : Codec C T) (count : nat) (input : list byte) (context : C)
    : result DecodeError (list byte * list T) :=
  match count with
  | O => Ok (input, [])
  | S count =>
      '(next, item) ← decode cd input context;
      '(rest, items) ← decode_array cd count next context;
      Ok (rest, item :: items)
  end.

Definition array_codec {C T} (N : nat) (cd : Codec C T) : Codec C (list T) := mkCodec
  (λ E l, items_length cd l)
  (λ E l, encode_items cd l)
  (λ input context, decode_array cd N input context).

(** ** Length prefixes *)

Inductive NOfBytes := One | Two | Four.

(** [length_prefix_width]; a [MAX_LENGTH] above [u32::MAX] does not compile. *)
Definition length_prefix_width (MAX_LENGTH : Z) : NOfBytes :=
  if MAX_LENGTH <=? u8_max then One else if MAX_LENGTH <=? u16_max then Two else Four.

Definition length_prefix_len (MAX_LENGTH : Z) : nat :=
  match length_prefix_width MAX_LENGTH with One => 1 | Two => 2 | Four => 4 end.

Definition encode_length_prefix {E} (MAX_LENGTH actual_length : Z) : result E (list byte) :=
  match length_prefix_width MAX_LENGTH with
  | One => if actual_length <=? u8_max then encode u8_codec actual_length else Fault Unwrap
  | Two => if actual_length <=? u16_max then encode u16_codec actual_length else Fault Unwrap
  | Four => if actual_length <=? u32_max then encode u32_codec actual_length else Fault Unwrap
  end.

Definition decode_length_prefix (MAX_LENGTH : Z) (input : list byte) : result DecodeError (list byte * Z) :=
  match length_prefix_width MAX_LENGTH with
  | One => decode u8_codec input tt
  | Two => decode u16_codec input tt
  | Four => decode u32_codec input tt
  end.

Definition decode_bounded_length (MIN MAX : Z) (input : list byte) : result DecodeError (list byte * Z) :=
  '(rest, len) ← decode_length_prefix MAX input;
  if (len <? MIN) || (MAX <? len) then Err (LengthOutOfBounds len MIN MAX) else Ok (rest, len).

(** ** Bounded collections *)

(** The items of a [BoundedVec]: an item that consumes nothing is refused when
    [max] is large. *)
Fixpoint decode_vec_loop {C T} (cd : Codec C T) (max : Z) (count : nat) (rest : list byte) (context : C)
    : result DecodeError (list byte * list T) :=
  match count with
  | O => Ok (rest, [])
  | S count =>
      '(next, item) ← decode cd rest context;
      if (length next =? length rest)%nat && (ZERO_LENGTH_ELEMENT_MAX <? max)
      then Err (ZeroLengthElement max ZERO_LENGTH_ELEMENT_MAX)
      else
        '(rest, items) ← decode_vec_loop cd max count next context;
        Ok (rest, item :: items)
  end.

(** The length of a prefixed collection: [checked_add(..).expect(..)]. *)
Definition with_prefix_length {E} (MAX entries : Z) : result E Z :=
  expect (checked_add usize_max (Z.of_nat (length_prefix_len MAX)) entries).

Definition bounded_vec {C T} (MIN MAX : Z) (cd : Codec C T) : Codec C (list T) := mkCodec
  (λ E l, n ← items_length cd l; with_prefix_length MAX n)
  (λ E l, p ← encode_length_prefix MAX (Z.of_nat (length l)); bs ← encode_items cd l; Ok (p ++ bs))
  (λ input context,
    '(rest, len) ← decode_bounded_length MIN MAX input;
    decode_vec_loop cd MAX (Z.to_nat len) rest context).

(** [BoundedOrderedSet]: the elements in insertion order, none repeated. *)
Fixpoint decode_ordered_set_loop {C T} `{EqDecision T} (cd : Codec C T) (count : nat) (index : Z)
    (rest : list byte) (set : list T) (context : C) : result DecodeError (list byte * list T) :=
  match count with
  | O => Ok (rest, set)
  | S count =>
      '(next, element) ← decode cd rest context;
      if bool_decide (element ∈ set) then Err (DuplicateItem index)
      else decode_ordered_set_loop cd count (index + 1) next (set ++ [element]) context
  end.

Definition bounded_ordered_set {C T} `{EqDecision T} (MIN MAX : Z) (cd : Codec C T) : Codec C (list T) := mkCodec
  (λ E l, n ← items_length cd l; with_prefix_length MAX n)
  (λ E l, p ← encode_length_prefix MAX (Z.of_nat (length l)); bs ← encode_items cd l; Ok (p ++ bs))
  (λ input context,
    '(rest, len) ← decode_bounded_length MIN MAX input;
    decode_ordered_set_loop cd (Z.to_nat len) 0 rest [] context).

(** [BoundedOrderedMap]: each key followed by its value, no key repeated. *)
Fixpoint encode_entries {C1 C2 K V E} (ck : Codec C1 K) (cv : Codec C2 V) (l : list (K * V)) : result E (list byte) :=
  match l with
  | [] => Ok []
  | (k, v) :: l => bk ← encode ck k; bv ← encode cv v; bs ← encode_entries ck cv l; Ok (bk ++ bv ++ bs)
  end.

Definition entries_length {C1 C2 K V E} (ck : Codec C1 K) (cv : Codec C2 V) (l : list (K * V)) : result E Z :=
  foldl (λ acc '(k, v), sum ← acc; nk ← encoded_length ck k; nv ← encoded_length cv v;
                        n ← strict_add usize_max nk nv; strict_add usize_max sum n) (Ok 0) l.

Fixpoint decode_ordered_map_loop {C1 C2 K V} `{EqDecision K} (ck : Codec C1 K) (cv : Codec C2 V)
    (count : nat) (index : Z) (rest : list byte) (map : list (K * V)) (context : C1 * C2)
    : result DecodeError (list byte * list (K * V)) :=
  match count with
  | O => Ok (rest, map)
  | S count =>
      '(after_key, key) ← decode ck rest context.1;
      if bool_decide (key ∈ map.*1) then Err (DuplicateItem index)
      else
        '(next, value) ← decode cv after_key context.2;
        decode_ordered_map_loop ck cv count (index + 1) next (map ++ [(key, value)]) context
  end.

Definition bounded_ordered_map {C1 C2 K V} `{EqDecision K} (MIN MAX : Z) (ck : Codec C1 K) (cv : Codec C2 V)
    : Codec (C1 * C2) (list (K * V)) := mkCodec
  (λ E l, n ← entries_length ck cv l; with_prefix_length MAX n)
  (λ E l, p ← encode_length_prefix MAX (Z.of_nat (length l)); bs ← encode_entries ck cv l; Ok (p ++ bs))
  (λ input context,
    '(rest, len) ← decode_bounded_length MIN MAX input;
    decode_ordered_map_loop ck cv (Z.to_nat len) 0 rest [] context).

(** [check_key_order] of the B-tree collections, whose contents are listed in the
    order of the keys. *)
Definition check_key_order {K} (cmp : K → K → comparison) (last : option K) (key : K) (index : Z)
    : result DecodeError unit :=
  match (λ l, cmp key l) <$> last with
  | None | Some Gt => Ok tt
  | Some Eq => Err (DuplicateItem index)
  | Some Lt => Err (OutOfOrderItem index)
  end.

Fixpoint decode_set_loop {C T} (cmp : T → T → comparison) (cd : Codec C T) (count : nat) (index : Z)
    (rest : list byte) (set : list T) (context : C) : result DecodeError (list byte * list T) :=
  match count with
  | O => Ok (rest, set)
  | S count =>
      '(next, element) ← decode cd rest context;
      check_key_order cmp (last set) element index;;
      decode_set_loop cmp cd count (index + 1) next (set ++ [element]) context
  end.

Definition bounded_btree_set {C T} (cmp : T → T → comparison) (MIN MAX : Z) (cd : Codec C T) : Codec C (list T) := mkCodec
  (λ E l, n ← items_length cd l; with_prefix_length MAX n)
  (λ E l, p ← encode_length_prefix MAX (Z.of_nat (length l)); bs ← encode_items cd l; Ok (p ++ bs))
  (λ input context,
    '(rest, len) ← decode_bounded_length MIN MAX input;
    decode_set_loop cmp cd (Z.to_nat len) 0 rest [] context).

Fixpoint decode_map_loop {C1 C2 K V} (cmp : K → K → comparison) (ck : Codec C1 K) (cv : Codec C2 V)
    (count : nat) (index : Z) (rest : list byte) (map : list (K * V)) (context : C1 * C2)
    : result DecodeError (list byte * list (K * V)) :=
  match count with
  | O => Ok (rest, map)
  | S count =>
      '(after_key, key) ← decode ck rest context.1;
      check_key_order cmp (fst <$> last map) key index;;
      '(next, value) ← decode cv after_key context.2;
      decode_map_loop cmp ck cv count (index + 1) next (map ++ [(key, value)]) context
  end.

Definition bounded_btree_map {C1 C2 K V} (cmp : K → K → comparison) (MIN MAX : Z) (ck : Codec C1 K) (cv : Codec C2 V)
    : Codec (C1 * C2) (list (K * V)) := mkCodec
  (λ E l, n ← entries_length ck cv l; with_prefix_length MAX n)
  (λ E l, p ← encode_length_prefix MAX (Z.of_nat (length l)); bs ← encode_entries ck cv l; Ok (p ++ bs))
  (λ input context,
    '(rest, len) ← decode_bounded_length MIN MAX input;
    decode_map_loop cmp ck cv (Z.to_nat len) 0 rest [] context).

(** [RuntimeBoundedVec]: the length takes the width, [w] bytes, of the type of the
    maximum, and the context gives the maximum. *)
Definition runtime_bounded_vec {C T} (MIN : Z) (w : nat) (cd : Codec C T) : Codec (Z * C) (list T) := mkCodec
  (λ E l, n ← items_length cd l; expect (checked_add usize_max (Z.of_nat w) n))
  (λ E l,
    p ← (if Z.of_nat (length l) <? 256 ^ Z.of_nat w then encode (le_integer w) (Z.of_nat (length l))
         else Fault Panic);
    bs ← encode_items cd l; Ok (p ++ bs))
  (λ input '(max, context),
    '(rest, len) ← decode (le_integer w) input tt;
    if (len <? MIN) || (max <? len) then Err (LengthOutOfBounds len MIN max)
    else decode_vec_loop cd max (Z.to_nat len) rest context).

(** ** Structs: what the derive macros generate *)

(** Two fields in order; the context is passed to each. *)
Definition field_pair {C A B} (ca : Codec C A) (cb : Codec C B) : Codec C (A * B) := mkCodec
  (λ E '(a, b), na ← encoded_length ca a; nb ← encoded_length cb b; strict_add usize_max na nb)
  (λ E '(a, b), ba ← encode ca a; bb ← encode cb b; Ok (ba ++ bb))
  (λ input context,
    '(input, a) ← decode ca input context;
    '(input, b) ← decode cb input context;
    Ok (input, (a, b))).

(** A field that is decoded under its own part of the context. *)
Definition at_context {C D T} (g : C → D) (cd : Codec D T) : Codec C T := mkCodec
  (λ E v, encoded_length cd v) (λ E v, encode cd v) (λ input context, decode cd input (g context)).

(** The struct as the tuple of its fields. *)
Definition struct_codec {C R T} (fields : T → R) (build : R → T) (cd : Codec C R) : Codec C T := mkCodec
  (λ E v, encoded_length cd (fields v))
  (λ E v, encode cd (fields v))
  (λ input context, '(rest, raw) ← decode cd input context; Ok (rest, build raw)).

(** [#[decode(try_from = ..)]]. *)
Definition try_from_codec {C R T} (fields : T → R) (build : R → option T) (cd : Codec C R) : Codec C T := mkCodec
  (λ E v, encoded_length cd (fields v))
  (λ E v, encode cd (fields v))
  (λ input context,
    '(rest, raw) ← decode cd input context;
    match build raw with
    | Some v => Ok (rest, v)
    | None => Err (InvalidValue "its conversion from the decoded value failed")
    end).

End Canonical.

(** * Bounded collections

    utils/src/bounded: the error of the collections that hold a number of items
    within bounds, and the checks of the constructors and pushes the program uses.
    A collection is the list it wraps. *)

Import Canonical.

#[local] Open Scope Z_scope.

Module Bounded.

(** [BoundedError]. *)
Inductive BoundedError :=
  | EmptyInput
  | TooFewItems (count min : Z)
  | TooManyItems (count max : Z)
  | IndexOutOfBounds (index len : Z)
  | CapacityOutOfBounds (min max capacity : Z)
  | DuplicateItem (index : Z).

(** [UpperRuntimeBoundedVec::try_new]: the minimum is zero. *)
Definition runtime_try_new {A : Type} (l : list A) (max : Z) : result BoundedError (list A) :=
  let len := Z.of_nat (length l) in
  err_if (max <? len) (TooManyItems len max);;
  Ok l.

(** [UpperBoundedVec::try_push] and [UpperBoundedOrderedSet::try_push]. *)
Definition vec_push {A : Type} (max : Z) (l : list A) (x : A) : result BoundedError (list A) :=
  let len := Z.of_nat (length l) in
  err_if (max <=? len) (TooManyItems (len + 1) max);;
  Ok (l ++ [x]).

Definition set_push {A : Type} `{EqDecision A} (max : Z) (l : list A) (x : A) : result BoundedError (list A) :=
  let len := Z.of_nat (length l) in
  err_if (max <=? len) (TooManyItems (saturating_add usize_max len 1) max);;
  err_if (bool_decide (x ∈ l)) (DuplicateItem len);;
  Ok (l ++ [x]).

End Bounded.
