(* ===== verification/CodecLaws.v ===== *)
(** * Laws of the canonical codec

    [CanonicalCodec] is the contract every codec of the repository is written to:
    a valid value encodes, its bytes decode back to it, whatever decodes is the
    one encoding of a valid value, and decoding never panics. Each combinator
    preserves it, so that the contract of a composite is found by resolution. *)

From S2P Require Import Prelude Codec.
Import Canonical.

#[local] Open Scope Z_scope.

Class CanonicalCodec {C T} (cd : Codec C T) := {
  valid : C → T → Prop;
  bytes : T → list byte;
  encode_ok {E} c v : valid c v → encode cd (E:=E) v = Ok (bytes v);
  encoded_length_ok {E} c v : valid c v → Z.of_nat (length (bytes v)) <= usize_max →
    encoded_length cd (E:=E) v = Ok (Z.of_nat (length (bytes v)));
  decode_encode c v rest : valid c v → decode cd (bytes v ++ rest) c = Ok (rest, v);
  decode_sound c input rest v : decode cd input c = Ok (rest, v) → valid c v ∧ input = bytes v ++ rest;
  decode_no_fault c input f : decode cd input c ≠ Fault f
}.

Arguments valid {C T} cd {_} _ _.
Arguments bytes {C T} cd {_} _.

(** Take apart a hypothesis saying that a sequence of decoders returned. *)
Ltac inv_decode H :=
  repeat (let x := fresh "x" in apply result_bind_ok in H as ([? x] & ? & H); cbn beta iota in H).

Lemma bind_no_fault {E A B} (m : result E A) (k : A → result E B) f :
  m ≠ Fault f → (∀ a, m = Ok a → k a ≠ Fault f) → (m ≫= k) ≠ Fault f.
Proof. destruct m; cbn; [|congruence..]. intros _ Hk. by apply Hk. Qed.

(** ** Bytes and integers *)

Lemma byte_val_range b : 0 <= byte_val b < 256.
Proof. unfold byte_val. pose proof (Byte.to_N_bounded b). lia. Qed.

Lemma byte_of_val b : byte_of (byte_val b) = b.
Proof. unfold byte_of, byte_val. by rewrite N2Z.id, Byte.of_to_N. Qed.

Lemma byte_val_of z : 0 <= z < 256 → byte_val (byte_of z) = z.
Proof.
  intros Hz. unfold byte_of, byte_val. destruct (Byte.of_N (Z.to_N z)) as [b|] eqn:Hb; cbn.
  - apply Byte.to_of_N in Hb. rewrite Hb. lia.
  - apply Byte.of_N_None_iff in Hb. lia.
Qed.

Lemma to_le_bytes_length w z : length (to_le_bytes w z) = w.
Proof. revert z. induction w as [|w IH]; intros z; cbn; [done|]. by rewrite IH. Qed.

Lemma from_to_le_bytes w z : 0 <= z < 256 ^ Z.of_nat w → from_le_bytes (to_le_bytes w z) = z.
Proof.
  revert z. induction w as [|w IH]; intros z Hz; cbn [to_le_bytes from_le_bytes].
  - change (256 ^ Z.of_nat 0) with 1 in Hz. lia.
  - rewrite Nat2Z.inj_succ, Z.pow_succ_r in Hz by lia.
    pose proof (Z.mod_pos_bound z 256 ltac:(lia)). rewrite byte_val_of by lia.
    rewrite IH; [pose proof (Z.div_mod z 256 ltac:(lia)); lia|].
    split; [apply Z.div_pos; lia|apply Z.div_lt_upper_bound; lia].
Qed.

Lemma from_le_bytes_range l : 0 <= from_le_bytes l < 256 ^ Z.of_nat (length l).
Proof.
  induction l as [|b l IH]; cbn [from_le_bytes length]; [cbn; lia|].
  rewrite Nat2Z.inj_succ, Z.pow_succ_r by lia. pose proof (byte_val_range b). lia.
Qed.

Lemma to_from_le_bytes l : to_le_bytes (length l) (from_le_bytes l) = l.
Proof.
  induction l as [|b l IH]; cbn [from_le_bytes length to_le_bytes]; [done|].
  pose proof (byte_val_range b).
  replace ((byte_val b + 256 * from_le_bytes l) mod 256) with (byte_val b).
  2:{ rewrite Z.mul_comm, Z.mod_add by lia. symmetry. apply Z.mod_small. lia. }
  replace ((byte_val b + 256 * from_le_bytes l) / 256) with (from_le_bytes l).
  2:{ rewrite Z.mul_comm, Z.div_add by lia. rewrite Z.div_small; lia. }
  by rewrite byte_of_val, IH.
Qed.

Lemma take_bytes_app l rest n : length l = n → take_bytes (l ++ rest) n = Ok (l, rest).
Proof.
  intros <-. unfold take_bytes. rewrite length_app, (proj2 (Nat.leb_le _ _)) by lia.
  by rewrite take_app_length, drop_app_length.
Qed.

Lemma take_bytes_ok input n head rest : take_bytes input n = Ok (head, rest) → input = head ++ rest ∧ length head = n.
Proof.
  unfold take_bytes. destruct (Nat.leb_spec n (length input)); [|done]. intros [= <- <-].
  rewrite take_drop, length_take. split; [done|lia].
Qed.

Lemma take_bytes_no_fault input n f : take_bytes input n ≠ Fault f.
Proof. unfold take_bytes. by case_match. Qed.

#[export] Program Instance le_integer_canonical w : CanonicalCodec (le_integer w) := {|
  valid _ z := 0 <= z < 256 ^ Z.of_nat w;
  bytes z := to_le_bytes w z
|}.
Next Obligation. done. Qed.
Next Obligation. intros w E c v _ _. cbn. by rewrite to_le_bytes_length. Qed.
Next Obligation.
  intros w c v rest Hv. cbn. rewrite take_bytes_app by apply to_le_bytes_length. cbn. by rewrite from_to_le_bytes.
Qed.
Next Obligation.
  intros w c input rest v Hd. cbn in Hd. inv_decode Hd. injection Hd as <- <-.
  apply take_bytes_ok in H as [-> <-]. split; [apply from_le_bytes_range|]. by rewrite to_from_le_bytes.
Qed.
Next Obligation.
  intros w c input f. cbn. apply bind_no_fault; [apply take_bytes_no_fault|]. by intros [].
Qed.

Lemma le_decode w z rest : 0 <= z < 256 ^ Z.of_nat w →
  decode (le_integer w) (to_le_bytes w z ++ rest) tt = Ok (rest, z).
Proof. exact (decode_encode (cd:=le_integer w) tt z rest). Qed.

Lemma le_decode_sound w input rest z : decode (le_integer w) input tt = Ok (rest, z) →
  0 <= z < 256 ^ Z.of_nat w ∧ input = to_le_bytes w z ++ rest.
Proof. exact (decode_sound (cd:=le_integer w) tt input rest z). Qed.

#[export] Program Instance non_zero_canonical (cd : Codec unit Z) `{!CanonicalCodec cd} : CanonicalCodec (non_zero cd) := {|
  valid c z := valid cd c z ∧ z ≠ 0;
  bytes z := bytes cd z
|}.
Next Obligation. intros cd H E c v [Hv _]. exact (encode_ok c v Hv). Qed.
Next Obligation. intros cd H E c v [Hv _]. exact (encoded_length_ok c v Hv). Qed.
Next Obligation.
  intros cd H c v rest [Hv Hz]. cbn. rewrite decode_encode by done. cbn. by rewrite (proj2 (Z.eqb_neq _ _)).
Qed.
Next Obligation.
  intros cd H c input rest v Hd. cbn in Hd. inv_decode Hd. destruct (Z.eqb_spec x 0); [done|].
  injection Hd as <- <-. by apply decode_sound in H0 as [? ->].
Qed.
Next Obligation.
  intros cd H c input f. cbn. apply bind_no_fault; [apply decode_no_fault|]. intros [r z] _. by destruct (z =? 0).
Qed.

#[export] Program Instance bool_canonical : CanonicalCodec bool_codec := {|
  valid _ _ := True;
  bytes b := to_le_bytes 1 (if b : bool then 1 else 0)
|}.
Next Obligation. intros E c [|] _; done. Qed.
Next Obligation. intros E c [|] _; done. Qed.
Next Obligation. intros c [|] rest _; done. Qed.
Next Obligation.
  intros c input rest v Hd. cbn [decode bool_codec] in Hd. inv_decode Hd.
  apply (decode_sound (cd:=u8_codec)) in H as [_ ->]. split; [done|].
  destruct (Z.eqb_spec x 0) as [Hx|]; [rewrite Hx; by injection Hd as <- <-|].
  destruct (Z.eqb_spec x 1) as [Hx|]; [rewrite Hx; by injection Hd as <- <-|done].
Qed.
Next Obligation.
  intros c input f. cbn [decode bool_codec]. apply bind_no_fault; [apply decode_no_fault|].
  intros [r z] _. by repeat case_match.
Qed.

#[export] Program Instance fr_canonical : CanonicalCodec fr_codec := {|
  valid _ z := 0 <= z < fr_modulus;
  bytes z := fr_to_bytes z
|}.
Next Obligation. done. Qed.
Next Obligation. done. Qed.
Next Obligation.
  intros c v rest Hv. cbn beta in Hv. cbn [decode fr_codec]. rewrite take_bytes_app by apply to_le_bytes_length.
  cbn [mbind result_bind]. unfold fr_from_bytes, fr_to_bytes. rewrite from_to_le_bytes.
  - by rewrite (proj2 (Z.leb_gt _ _)) by lia.
  - assert (fr_modulus < 256 ^ Z.of_nat 32) by done. lia.
Qed.
Next Obligation.
  intros c input rest v Hd. cbn [decode fr_codec] in Hd. inv_decode Hd.
  apply take_bytes_ok in H as [-> Hl]. revert Hd. unfold fr_from_bytes.
  pose proof (from_le_bytes_range l). destruct (Z.leb_spec fr_modulus (from_le_bytes l)); [done|].
  intros [= <- <-]. split; [lia|]. unfold fr_to_bytes. rewrite <- Hl. by rewrite to_from_le_bytes.
Qed.
Next Obligation.
  intros c input f. cbn [decode fr_codec]. apply bind_no_fault; [apply take_bytes_no_fault|].
  intros [h r] _. by destruct (fr_from_bytes h).
Qed.

(** ** Sequences of items *)

Section Items.
Context {C T : Type} (cd : Codec C T) `{!CanonicalCodec cd}.
Implicit Types (l : list T) (c : C) (input rest : list byte).

Definition all_bytes l : list byte := concat (bytes cd <$> l).

Lemma encode_items_ok {E} c l : Forall (valid cd c) l → encode_items cd (E:=E) l = Ok (all_bytes l).
Proof. induction 1 as [|x l Hx _ IH]; [done|]. cbn. rewrite (encode_ok c x Hx). cbn. by rewrite IH. Qed.

Lemma items_length_ok {E} c l : Forall (valid cd c) l → Z.of_nat (length (all_bytes l)) <= usize_max →
  items_length cd (E:=E) l = Ok (Z.of_nat (length (all_bytes l))).
Proof.
  intros Hl Hmax. unfold items_length.
  enough (∀ acc, 0 <= acc → acc + Z.of_nat (length (all_bytes l)) <= usize_max →
    foldl (λ acc x, sum ← acc; n ← encoded_length cd x; strict_add usize_max sum n) (Ok acc) l
    = Ok (E:=E) (acc + Z.of_nat (length (all_bytes l)))) as Hg by (by apply (Hg 0)).
  clear Hmax. induction Hl as [|x l Hx _ IH]; intros acc H0 Hmax; [by rewrite Z.add_0_r|].
  unfold all_bytes in *. cbn [fmap list_fmap concat] in *. rewrite length_app, Nat2Z.inj_add in *.
  cbn [foldl mbind result_bind]. rewrite (encoded_length_ok c x Hx) by lia. cbn [mbind result_bind].
  replace (strict_add _ _ _) with (Ok (E:=E) (acc + Z.of_nat (length (bytes cd x)))).
  - rewrite IH by lia. f_equal. lia.
  - symmetry. apply strict_add_ok. lia.
Qed.

Lemma decode_array_encode c l rest : Forall (valid cd c) l →
  decode_array cd (length l) (all_bytes l ++ rest) c = Ok (rest, l).
Proof.
  induction 1 as [|x l Hx _ IH]; [done|]. unfold all_bytes. cbn [fmap list_fmap concat decode_array length].
  rewrite <- app_assoc, (decode_encode c x _ Hx). cbn [mbind result_bind]. fold (all_bytes l). by rewrite IH.
Qed.

Lemma decode_array_sound c n input rest l : decode_array cd n input c = Ok (rest, l) →
  length l = n ∧ Forall (valid cd c) l ∧ input = all_bytes l ++ rest.
Proof.
  revert input l. induction n as [|n IH]; intros input l Hd; cbn [decode_array] in Hd; [by injection Hd as -> <-|].
  apply result_bind_ok in Hd as ([next x] & Hx & Hd). cbn beta iota in Hd.
  apply result_bind_ok in Hd as ([r xs] & Hxs & Hd). injection Hd as <- <-.
  apply decode_sound in Hx as [Hv ->]. apply IH in Hxs as (<- & HF & ->).
  unfold all_bytes. cbn. rewrite <- app_assoc. auto.
Qed.

Lemma decode_array_no_fault c n input f : decode_array cd n input c ≠ Fault f.
Proof.
  revert input. induction n as [|n IH]; intros input; cbn [decode_array]; [done|].
  apply bind_no_fault; [apply decode_no_fault|]. intros [next x] _.
  apply bind_no_fault; [apply IH|]. by intros [].
Qed.

(** *** The loops of the collections: an array and a check of its items *)

Definition consuming (max : Z) l : Prop := max <= ZERO_LENGTH_ELEMENT_MAX ∨ Forall (λ x, bytes cd x ≠ []) l.

Lemma vec_step max (x : T) rest : (length rest =? length (bytes cd x ++ rest))%nat && (ZERO_LENGTH_ELEMENT_MAX <? max) = false
  ↔ consuming max [x].
Proof.
  unfold consuming. rewrite length_app, Forall_singleton, <- length_zero_iff_nil.
  destruct (Nat.eqb_spec (length rest) (length (bytes cd x) + length rest)), (Z.ltb_spec ZERO_LENGTH_ELEMENT_MAX max); cbn; lia.
Qed.

Lemma consuming_cons max x l : consuming max (x :: l) ↔ consuming max [x] ∧ consuming max l.
Proof. unfold consuming. rewrite Forall_cons, Forall_singleton. tauto. Qed.

Lemma vec_loop_ok max n input c rest l :
  decode_vec_loop cd max n input c = Ok (rest, l) ↔ decode_array cd n input c = Ok (rest, l) ∧ consuming max l.
Proof.
  revert input l. induction n as [|n IH]; intros input l; cbn [decode_vec_loop decode_array].
  { split; [intros [= -> <-]; split; [done|by right]|by intros [? _]]. }
  rewrite !result_bind_ok. split.
  - intros ([next x] & Hx & Hd). pose proof (decode_sound _ _ _ _ Hx) as [_ ->].
    destruct (_ && _) eqn:Hz in Hd; [done|]. apply vec_step in Hz.
    apply result_bind_ok in Hd as ([r xs] & Hxs & Hd). injection Hd as -> <-. apply IH in Hxs as [Ha Hc].
    rewrite consuming_cons. split; [|done]. exists (next, x). split; [done|]. by rewrite Ha.
  - intros (([next x] & Hx & Hd) & Hc). pose proof (decode_sound _ _ _ _ Hx) as [_ ->].
    apply result_bind_ok in Hd as ([r xs] & Hxs & Hd). injection Hd as -> <-. apply consuming_cons in Hc as [Hc1 Hc2].
    exists (next, x). split; [done|]. cbn beta iota. apply vec_step with (rest := next) in Hc1. rewrite Hc1.
    by rewrite (proj2 (IH _ _) (conj Hxs Hc2)).
Qed.

Lemma vec_loop_no_fault max n input c f : decode_vec_loop cd max n input c ≠ Fault f.
Proof.
  revert input. induction n as [|n IH]; intros input; cbn [decode_vec_loop]; [done|].
  apply bind_no_fault; [apply decode_no_fault|]. intros [next x] _. destruct (_ && _); [done|].
  apply bind_no_fault; [apply IH|]. by intros [].
Qed.

(** A loop that accumulates the items and checks each against those before it. *)
Lemma checked_loop_ok (P : list T → Prop)
    (loop : nat → Z → list byte → list T → C → result DecodeError (list byte * list T)) :
  (∀ acc xs, P (acc ++ xs) → P acc) →
  (∀ index input acc c, loop 0%nat index input acc c = Ok (input, acc)) →
  (∀ n index input acc c r, P acc → loop (S n) index input acc c = Ok r ↔
     ∃ next x, decode cd input c = Ok (next, x) ∧ P (acc ++ [x]) ∧ loop n (index + 1) next (acc ++ [x]) c = Ok r) →
  ∀ n index input acc c rest l, P acc →
    loop n index input acc c = Ok (rest, l) ↔
    ∃ xs, decode_array cd n input c = Ok (rest, xs) ∧ l = acc ++ xs ∧ P l.
Proof.
  intros Hpre H0 HS n. induction n as [|n IH]; intros index input acc c rest l Hacc; cbn [decode_array].
  { rewrite H0. split; [intros [= -> <-]; exists []; by rewrite app_nil_r|intros (xs & [= -> <-] & -> & _); by rewrite app_nil_r]. }
  rewrite HS by done. setoid_rewrite result_bind_ok. split.
  - intros (next & x & Hx & HP & Hd). apply IH in Hd as (xs & Ha & -> & Hl); [|done].
    exists (x :: xs). rewrite <- app_assoc in *. split; [|done]. exists (next, x). split; [done|]. by rewrite Ha.
  - intros (xs & ([next x] & Hx & Hd) & -> & Hl). apply result_bind_ok in Hd as ([r ys] & Hys & Hd).
    injection Hd as -> <-. replace (acc ++ x :: ys) with ((acc ++ [x]) ++ ys) in * by (by rewrite <- app_assoc).
    pose proof (Hpre _ _ Hl) as HP. exists next, x. split; [done|]. split; [done|]. apply IH; [done|]. by exists ys.
Qed.

Lemma NoDup_snoc {A} (l : list A) x : NoDup l → NoDup (l ++ [x]) ↔ x ∉ l.
Proof.
  intros Hl. rewrite NoDup_app. split; [intros (_ & Hd & _) Hin; by apply (Hd x Hin); constructor|].
  intros Hx. split; [done|]. split; [set_solver|apply NoDup_singleton].
Qed.

Lemma ordered_set_loop_ok `{EqDecision T} n index input set c rest l : NoDup set →
  decode_ordered_set_loop cd n index input set c = Ok (rest, l) ↔
  ∃ xs, decode_array cd n input c = Ok (rest, xs) ∧ l = set ++ xs ∧ NoDup l.
Proof.
  apply (checked_loop_ok NoDup (λ n index input set c, decode_ordered_set_loop cd n index input set c)); [|done|].
  - intros acc xs Hnd. by apply NoDup_app in Hnd as (? & _ & _).
  - clear. intros n index input acc c r Hacc. cbn [decode_ordered_set_loop]. rewrite result_bind_ok. split.
    + intros ([next x] & Hx & Hd). destruct (bool_decide _) eqn:Hin in Hd; [done|].
      apply bool_decide_eq_false in Hin. exists next, x. rewrite NoDup_snoc by done. auto.
    + intros (next & x & Hx & Hnd & Hd). exists (next, x). split; [done|]. apply NoDup_snoc in Hnd; [|done].
      by rewrite bool_decide_false.
Qed.

Lemma ordered_set_loop_no_fault `{EqDecision T} n index input set c f :
  decode_ordered_set_loop cd n index input set c ≠ Fault f.
Proof.
  revert index input set. induction n as [|n IH]; intros index input set; cbn [decode_ordered_set_loop]; [done|].
  apply bind_no_fault; [apply decode_no_fault|]. intros [next x] _. destruct (bool_decide _); [done|]. apply IH.
Qed.

(** *** B-tree sets: each element comes after the one before it *)

Definition ascending {K} (cmp : K → K → comparison) (ks : list K) : Prop :=
  ∀ i x y, ks !! i = Some x → ks !! S i = Some y → cmp y x = Gt.

Lemma ascending_prefix {K} (cmp : K → K → comparison) ks ks' : ascending cmp (ks ++ ks') → ascending cmp ks.
Proof. intros Ha i x y Hx Hy. apply (Ha i); by apply lookup_app_l_Some. Qed.

Lemma ascending_snoc {K} (cmp : K → K → comparison) ks k index : ascending cmp ks →
  ascending cmp (ks ++ [k]) ↔ check_key_order cmp (last ks) k index = Ok tt.
Proof.
  intros Ha. unfold check_key_order. destruct ks as [|z ks _] using rev_ind; cbn.
  { split; [done|]. intros _ [|i] x y; [|done]. done. }
  rewrite last_snoc. cbn [fmap option_fmap option_map].
  assert ((ks ++ [z]) !! length ks = Some z) as Hz by (by rewrite lookup_app_r, Nat.sub_diag by lia).
  assert (((ks ++ [z]) ++ [k]) !! S (length ks) = Some k) as Hk.
  { rewrite lookup_app_r by (rewrite length_app; cbn; lia). by rewrite length_app, Nat.add_1_r, Nat.sub_diag. }
  split.
  - intros Has. by rewrite (Has (length ks) z k (lookup_app_l_Some _ _ _ _ Hz) Hk).
  - destruct (cmp k z) eqn:Hc; try done. intros _ i x y Hx Hy.
    destruct (decide (i = length ks)) as [->|Hi].
    + rewrite (lookup_app_l_Some _ _ _ _ Hz) in Hx. rewrite Hk in Hy. by simplify_eq.
    + apply (Ha i); [|]; [rewrite lookup_app_l in Hx|rewrite lookup_app_l in Hy]; try done; rewrite length_app; cbn;
        apply lookup_lt_Some in Hy; rewrite !length_app in Hy; cbn in Hy; lia.
Qed.

Lemma set_loop_ok cmp n index input set c rest l : ascending cmp set →
  decode_set_loop cmp cd n index input set c = Ok (rest, l) ↔
  ∃ xs, decode_array cd n input c = Ok (rest, xs) ∧ l = set ++ xs ∧ ascending cmp l.
Proof.
  apply (checked_loop_ok (ascending cmp) (λ n index input set c, decode_set_loop cmp cd n index input set c)); [|done|].
  - apply ascending_prefix.
  - clear. intros n index input acc c r Hacc. cbn [decode_set_loop]. rewrite result_bind_ok. split.
    + intros ([next x] & Hx & Hd). apply result_bind_ok in Hd as ([] & Hck & Hd).
      exists next, x. rewrite ascending_snoc by done. eauto.
    + intros (next & x & Hx & Has & Hd). exists (next, x). split; [done|].
      apply (ascending_snoc cmp acc x index Hacc) in Has. by rewrite Has.
Qed.

Lemma set_loop_no_fault cmp n index input set c f : decode_set_loop cmp cd n index input set c ≠ Fault f.
Proof.
  revert index input set. induction n as [|n IH]; intros index input set; cbn [decode_set_loop]; [done|].
  apply bind_no_fault; [apply decode_no_fault|]. intros [next x] _. apply bind_no_fault; [|intros [] _; apply IH].
  unfold check_key_order. by repeat case_match.
Qed.

End Items.

(** ** Structs *)

#[export] Program Instance field_pair_canonical {C A B} (ca : Codec C A) (cb : Codec C B)
    `{!CanonicalCodec ca, !CanonicalCodec cb} : CanonicalCodec (field_pair ca cb) := {|
  valid c ab := valid ca c ab.1 ∧ valid cb c ab.2;
  bytes ab := bytes ca ab.1 ++ bytes cb ab.2
|}.
Next Obligation. intros C A B ca cb ?? E c [a b] [Ha Hb]. cbn. by rewrite (encode_ok c a Ha); cbn; rewrite (encode_ok c b Hb). Qed.
Next Obligation.
  intros C A B ca cb ?? E c [a b] [Ha Hb] Hle. cbn in *. rewrite length_app, Nat2Z.inj_add in *.
  rewrite (encoded_length_ok c a Ha) by lia. cbn. rewrite (encoded_length_ok c b Hb) by lia. cbn. by apply strict_add_ok.
Qed.
Next Obligation.
  intros C A B ca cb ?? c [a b] rest [Ha Hb]. cbn. rewrite <- app_assoc, (decode_encode c a _ Ha). cbn.
  by rewrite (decode_encode c b _ Hb).
Qed.
Next Obligation.
  intros C A B ca cb ?? c input rest [a b] Hd. cbn in Hd. apply result_bind_ok in Hd as ([r a'] & Ha & Hd).
  apply result_bind_ok in Hd as ([r' b'] & Hb & Hd). injection Hd as <- <- <-.
  apply decode_sound in Ha as [Ha ->]. apply decode_sound in Hb as [Hb ->]. cbn. by rewrite <- app_assoc.
Qed.
Next Obligation.
  intros C A B ca cb ?? c input f. cbn. apply bind_no_fault; [apply decode_no_fault|]. intros [] _.
  apply bind_no_fault; [apply decode_no_fault|]. by intros [].
Qed.

#[export] Program Instance at_context_canonical {C D T} (g : C → D) (cd : Codec D T) `{!CanonicalCodec cd} :
    CanonicalCodec (at_context g cd) := {|
  valid c v := valid cd (g c) v;
  bytes v := bytes cd v
|}.
Next Obligation. intros C D T g cd ? E c v Hv. exact (encode_ok (g c) v Hv). Qed.
Next Obligation. intros C D T g cd ? E c v Hv. exact (encoded_length_ok (g c) v Hv). Qed.
Next Obligation. intros C D T g cd ? c v rest Hv. exact (decode_encode (g c) v rest Hv). Qed.
Next Obligation. intros C D T g cd ? c input rest v Hd. exact (decode_sound (g c) input rest v Hd). Qed.
Next Obligation. intros C D T g cd ? c input f. exact (decode_no_fault (g c) input f). Qed.

(** A struct is its tuple of fields if building it is the inverse of reading them. *)
Class FieldsOf {R T} (fields : T → R) (build : R → T) := {
  build_fields v : build (fields v) = v;
  fields_build r : fields (build r) = r
}.

#[export] Program Instance struct_canonical {C R T} (fields : T → R) (build : R → T) (cd : Codec C R)
    `{!FieldsOf fields build, !CanonicalCodec cd} : CanonicalCodec (struct_codec fields build cd) := {|
  valid c v := valid cd c (fields v);
  bytes v := bytes cd (fields v)
|}.
Next Obligation. intros C R T fields build cd ?? E c v Hv. exact (encode_ok c _ Hv). Qed.
Next Obligation. intros C R T fields build cd ?? E c v Hv. exact (encoded_length_ok c _ Hv). Qed.
Next Obligation.
  intros C R T fields build cd ?? c v rest Hv. cbn. rewrite (decode_encode c _ _ Hv). cbn.
  by rewrite (build_fields (fields:=fields) (build:=build)).
Qed.
Next Obligation.
  intros C R T fields build cd ?? c input rest v Hd. cbn in Hd. apply result_bind_ok in Hd as ([r raw] & Hr & Hd).
  injection Hd as <- <-. apply decode_sound in Hr.
  by rewrite (fields_build (fields:=fields) (build:=build)).
Qed.
Next Obligation.
  intros C R T fields build cd ?? c input f. cbn. apply bind_no_fault; [apply decode_no_fault|]. by intros [].
Qed.

(** The same for a conversion that can fail. *)
Program Definition try_from_canonical_on {C R T} (fields : T → R) (build : R → option T) (ok : T → Prop) (cd : Codec C R)
    (cc : CanonicalCodec cd) (build_ok : ∀ v, ok v → build (fields v) = Some v)
    (fields_ok : ∀ c r v, valid cd c r → build r = Some v → ok v ∧ fields v = r) :
    CanonicalCodec (try_from_codec fields build cd) := {|
  valid c v := ok v ∧ valid cd c (fields v);
  bytes v := bytes cd (fields v)
|}.
Next Obligation. intros C R T fields build ok cd ??? E c v [_ Hv]. exact (encode_ok c _ Hv). Qed.
Next Obligation. intros C R T fields build ok cd ??? E c v [_ Hv]. exact (encoded_length_ok c _ Hv). Qed.
Next Obligation.
  intros C R T fields build ok cd ? Hb ? c v rest [Hok Hv]. cbn. rewrite (decode_encode c _ _ Hv). cbn.
  by rewrite Hb.
Qed.
Next Obligation.
  intros C R T fields build ok cd ?? Hf c input rest v Hd. cbn in Hd. apply result_bind_ok in Hd as ([r raw] & Hr & Hd).
  destruct (build raw) as [v'|] eqn:Hb; [|done]. injection Hd as <- <-. apply decode_sound in Hr as [Hr ->].
  apply (Hf c) in Hb as [? <-]; done.
Qed.
Next Obligation.
  intros C R T fields build ok cd ??? c input f. cbn. apply bind_no_fault; [apply decode_no_fault|].
  intros [r raw] _. by destruct (build raw).
Qed.

Class PartialFieldsOf {R T} (fields : T → R) (build : R → option T) (ok : T → Prop) := {
  build_fields_ok v : ok v → build (fields v) = Some v;
  fields_build_ok r v : build r = Some v → ok v ∧ fields v = r
}.

#[export] Instance try_from_canonical {C R T} (fields : T → R) (build : R → option T) ok (cd : Codec C R)
    `{!PartialFieldsOf fields build ok, !CanonicalCodec cd} : CanonicalCodec (try_from_codec fields build cd) :=
  try_from_canonical_on fields build ok cd _ build_fields_ok (λ _ r v _, fields_build_ok r v).

(** ** Prefixed collections *)

(** [MAX] has a length prefix: the assertion of [length_prefix_width]. *)
Class EncodableMax (MAX : Z) := encodable_max : (MAX <=? u32_max) = true.
#[export] Hint Extern 0 (EncodableMax _) => exact eq_refl : typeclass_instances.

Lemma prefix_width MAX `{!EncodableMax MAX} : MAX < 256 ^ Z.of_nat (length_prefix_len MAX).
Proof.
  pose proof (encodable_max (MAX:=MAX)) as Hm. unfold length_prefix_len, length_prefix_width.
  destruct (Z.leb_spec MAX u8_max); [cbn; unfold u8_max in *; lia|].
  destruct (Z.leb_spec MAX u16_max); [cbn; unfold u16_max in *; lia|].
  apply Z.leb_le in Hm. cbn. unfold u32_max in *. lia.
Qed.

Lemma encode_length_prefix_ok {E} MAX len `{!EncodableMax MAX} : len <= MAX →
  encode_length_prefix (E:=E) MAX len = Ok (to_le_bytes (length_prefix_len MAX) len).
Proof.
  intros Hlen. pose proof (prefix_width MAX) as Hw. revert Hw. unfold encode_length_prefix, length_prefix_len.
  destruct (length_prefix_width MAX); intros Hw; cbn in Hw; rewrite (proj2 (Z.leb_le _ _)); try done;
    unfold u8_max, u16_max, u32_max; lia.
Qed.

Lemma decode_length_prefix_eq MAX input :
  decode_length_prefix MAX input = decode (le_integer (length_prefix_len MAX)) input tt.
Proof. unfold decode_length_prefix, length_prefix_len. by destruct (length_prefix_width MAX). Qed.

Lemma bounded_length_ok MIN MAX input rest len :
  decode_bounded_length MIN MAX input = Ok (rest, len) ↔
  decode (le_integer (length_prefix_len MAX)) input tt = Ok (rest, len) ∧ MIN <= len <= MAX.
Proof.
  unfold decode_bounded_length. rewrite decode_length_prefix_eq, result_bind_ok. split.
  - intros ([r n] & Hd & Hb). destruct (Z.ltb_spec n MIN), (Z.ltb_spec MAX n); try done. injection Hb as <- <-. auto.
  - intros [Hd Hb]. exists (rest, len). split; [done|]. by rewrite !(proj2 (Z.ltb_ge _ _)) by lia.
Qed.

(** A collection is a prefix and its items, decoded by a loop that accepts the
    arrays satisfying [P]. *)
Section Prefixed.
Context {C T : Type} (cd : Codec C T) `{!CanonicalCodec cd} (MIN MAX : Z) `{!EncodableMax MAX}.
Context (loop : nat → list byte → C → result DecodeError (list byte * list T)) (P : list T → Prop).
Context (loop_ok : ∀ n input c rest l,
  loop n input c = Ok (rest, l) ↔ decode_array cd n input c = Ok (rest, l) ∧ P l).
Context (loop_no_fault : ∀ n input c f, loop n input c ≠ Fault f).

Definition prefixed_codec : Codec C (list T) := mkCodec
  (λ E l, n ← items_length cd l; with_prefix_length MAX n)
  (λ E l, p ← encode_length_prefix MAX (Z.of_nat (length l)); bs ← encode_items cd l; Ok (p ++ bs))
  (λ input context, '(rest, len) ← decode_bounded_length MIN MAX input; loop (Z.to_nat len) rest context).

Program Definition prefixed_canonical : CanonicalCodec prefixed_codec := {|
  valid c l := MIN <= Z.of_nat (length l) <= MAX ∧ Forall (valid cd c) l ∧ P l;
  bytes l := to_le_bytes (length_prefix_len MAX) (Z.of_nat (length l)) ++ all_bytes cd l
|}.
Next Obligation.
  intros E c l (Hb & Hl & _). cbn [encode prefixed_codec]. rewrite (encode_length_prefix_ok MAX) by (done || lia).
  cbn [mbind result_bind]. by rewrite (encode_items_ok cd c l Hl).
Qed.
Next Obligation.
  intros E c l (Hb & Hl & _) Hle. cbn [encoded_length prefixed_codec]. rewrite length_app, to_le_bytes_length in *.
  rewrite (items_length_ok cd c l Hl) by lia. cbn [mbind result_bind]. apply expect_ok, checked_add_Some. lia.
Qed.
Next Obligation.
  intros c l rest (Hb & Hl & HP). cbn [decode prefixed_codec]. apply result_bind_ok.
  exists (all_bytes cd l ++ rest, Z.of_nat (length l)). split.
  - apply bounded_length_ok. split; [|done]. rewrite <- app_assoc.
    apply le_decode. pose proof (prefix_width MAX). lia.
  - rewrite Nat2Z.id. apply loop_ok. split; [by apply decode_array_encode|done].
Qed.
Next Obligation.
  intros c input rest l Hd. cbn [decode prefixed_codec] in Hd. apply result_bind_ok in Hd as ([r len] & Hlen & Hd).
  apply bounded_length_ok in Hlen as [Hlen Hb]. apply le_decode_sound in Hlen as [Hr ->].
  apply loop_ok in Hd as [Ha HP]. apply (decode_array_sound cd) in Ha as (Hn & Hl & ->).
  assert (Z.of_nat (length l) = len) as -> by lia. rewrite <- app_assoc. auto.
Qed.
Next Obligation.
  intros c input f. cbn [decode prefixed_codec]. apply bind_no_fault.
  - unfold decode_bounded_length. rewrite decode_length_prefix_eq. apply bind_no_fault; [apply decode_no_fault|].
    intros [? n] _. by destruct (_ || _).
  - intros [r len] _. apply loop_no_fault.
Qed.

End Prefixed.

(** [BoundedVec] and [BoundedOrderedSet]. *)
#[export] Instance bounded_vec_canonical {C T} (cd : Codec C T) MIN MAX `{!CanonicalCodec cd, !EncodableMax MAX} :
    CanonicalCodec (bounded_vec MIN MAX cd) :=
  prefixed_canonical cd MIN MAX (decode_vec_loop cd MAX) (consuming cd MAX)
    (λ n input c rest l, vec_loop_ok cd MAX n input c rest l) (vec_loop_no_fault cd MAX).

#[export] Program Instance bounded_ordered_set_canonical {C T} `{EqDecision T} (cd : Codec C T) MIN MAX
    `{!CanonicalCodec cd, !EncodableMax MAX} : CanonicalCodec (bounded_ordered_set MIN MAX cd) :=
  prefixed_canonical cd MIN MAX (λ n input c, decode_ordered_set_loop cd n 0 input [] c) NoDup _ _.
Next Obligation.
  intros. cbn beta. rewrite ordered_set_loop_ok by (done || constructor). split.
  - by intros (xs & Ha & -> & Hnd).
  - intros [Ha Hnd]. by exists l.
Qed.
Next Obligation. intros. by apply ordered_set_loop_no_fault. Qed.

#[export] Program Instance array_canonical {C T} N (cd : Codec C T) `{!CanonicalCodec cd} : CanonicalCodec (array_codec N cd) := {|
  valid c l := length l = N ∧ Forall (valid cd c) l;
  bytes l := all_bytes cd l
|}.
Next Obligation. intros C T N cd ? E c l [_ Hl]. exact (encode_items_ok cd c l Hl). Qed.
Next Obligation. intros C T N cd ? E c l [_ Hl]. exact (items_length_ok cd c l Hl). Qed.
Next Obligation. intros C T N cd ? c l rest [<- Hl]. exact (decode_array_encode cd c l rest Hl). Qed.
Next Obligation. intros C T N cd ? c input rest l Hd. apply (decode_array_sound cd) in Hd as (? & ? & ?); done. Qed.
Next Obligation. intros C T N cd ? c input f. by apply decode_array_no_fault. Qed.

#[export] Program Instance runtime_bounded_vec_canonical {C T} MIN w (cd : Codec C T) `{!CanonicalCodec cd} :
    CanonicalCodec (runtime_bounded_vec MIN w cd) := {|
  valid mc l := MIN <= Z.of_nat (length l) <= mc.1 ∧ Z.of_nat (length l) < 256 ^ Z.of_nat w ∧
    Forall (valid cd mc.2) l ∧ consuming cd mc.1 l;
  bytes l := to_le_bytes w (Z.of_nat (length l)) ++ all_bytes cd l
|}.
Next Obligation.
  intros C T MIN w cd ? E [max c] l (_ & Hw & Hl & _). cbn [encode runtime_bounded_vec].
  rewrite (proj2 (Z.ltb_lt _ _)) by lia. cbn [encode le_integer mbind result_bind].
  by rewrite (encode_items_ok cd c l Hl).
Qed.
Next Obligation.
  intros C T MIN w cd ? E [max c] l (_ & Hw & Hl & _) Hle. cbn [encoded_length runtime_bounded_vec].
  rewrite length_app, to_le_bytes_length in *. rewrite (items_length_ok cd c l Hl) by lia.
  cbn [mbind result_bind]. apply expect_ok, checked_add_Some. lia.
Qed.
Next Obligation.
  intros C T MIN w cd ? [max c] l rest (Hb & Hw & Hl & Hc). cbn [fst snd] in *. cbn [decode runtime_bounded_vec].
  rewrite <- app_assoc. rewrite le_decode by lia. cbn [mbind result_bind].
  rewrite !(proj2 (Z.ltb_ge _ _)) by lia. cbn [orb]. rewrite Nat2Z.id. apply (vec_loop_ok cd).
  split; [by apply decode_array_encode|done].
Qed.
Next Obligation.
  intros C T MIN w cd ? [max c] input rest l Hd. cbn [decode runtime_bounded_vec] in Hd.
  apply result_bind_ok in Hd as ([r len] & Hlen & Hd). apply le_decode_sound in Hlen as [Hr ->].
  destruct (Z.ltb_spec len MIN), (Z.ltb_spec max len); try done. cbn [orb] in Hd.
  apply (vec_loop_ok cd) in Hd as [Ha Hc]. apply (decode_array_sound cd) in Ha as (Hn & Hl & ->).
  assert (Z.of_nat (length l) = len) as -> by lia. rewrite <- app_assoc.
  cbn [fst snd]. split_and!; (done || lia).
Qed.
Next Obligation.
  intros C T MIN w cd ? [max c] input f. cbn [decode runtime_bounded_vec]. apply bind_no_fault; [apply (decode_no_fault (cd:=le_integer w))|].
  intros [r len] _. destruct (_ || _); [done|]. by apply vec_loop_no_fault.
Qed.

#[export] Program Instance bounded_btree_set_canonical {C T} cmp MIN MAX (cd : Codec C T)
    `{!CanonicalCodec cd, !EncodableMax MAX} : CanonicalCodec (bounded_btree_set cmp MIN MAX cd) :=
  prefixed_canonical cd MIN MAX (λ n input c, decode_set_loop cmp cd n 0 input [] c) (ascending cmp) _ _.
Next Obligation.
  intros. cbn beta. rewrite (set_loop_ok cd) by (by intros []). split.
  - by intros (xs & Ha & -> & Hnd).
  - intros [Ha Hnd]. by exists l.
Qed.
Next Obligation. intros. by apply set_loop_no_fault. Qed.

(** ** Maps: sequences of entries *)

Section Entries.
Context {C1 C2 K V : Type} (ck : Codec C1 K) (cv : Codec C2 V) `{!CanonicalCodec ck, !CanonicalCodec cv}.
Implicit Types (c : C1 * C2) (l : list (K * V)).

Definition entry_codec : Codec (C1 * C2) (K * V) := field_pair (at_context fst ck) (at_context snd cv).

Lemma encode_entries_eq {E} l : encode_entries ck cv (E:=E) l = encode_items entry_codec l.
Proof.
  induction l as [|[k v] l IH]; cbn; [done|]. rewrite IH. destruct (encode ck k); cbn; [|done..].
  destruct (encode cv v); cbn; [|done..]. destruct (encode_items entry_codec l); cbn; [|done..]. by rewrite app_assoc.
Qed.

Lemma entries_length_eq {E} l : entries_length ck cv (E:=E) l = items_length entry_codec l.
Proof.
  unfold entries_length, items_length. generalize (Ok (E:=E) 0). induction l as [|[k v] l IH]; intros acc; cbn [foldl]; [done|].
  rewrite <- IH. f_equal. destruct acc as [sum| |]; cbn; [|done..].
  destruct (encoded_length ck k); cbn; [|done..]. by destruct (encoded_length cv v).
Qed.

Lemma ordered_map_loop_ok `{EqDecision K} n index input map c rest l : NoDup map.*1 →
  decode_ordered_map_loop ck cv n index input map c = Ok (rest, l) ↔
  ∃ xs, decode_array entry_codec n input c = Ok (rest, xs) ∧ l = map ++ xs ∧ NoDup l.*1.
Proof.
  apply (checked_loop_ok entry_codec (λ l, NoDup l.*1)
    (λ n index input map c, decode_ordered_map_loop ck cv n index input map c)); [|done|].
  - intros acc xs. rewrite fmap_app. intros Hnd. by apply NoDup_app in Hnd as (? & _ & _).
  - clear. intros n index input acc c r Hacc. cbn [decode_ordered_map_loop]. rewrite result_bind_ok. split.
    + intros ([ak k] & Hk & Hd). destruct (bool_decide _) eqn:Hin in Hd; [done|].
      apply bool_decide_eq_false in Hin. apply result_bind_ok in Hd as ([next v] & Hv & Hd).
      exists next, (k, v). rewrite fmap_app. cbn [fmap list_fmap fst]. rewrite NoDup_snoc by done.
      split; [|done]. cbn. rewrite Hk. cbn. by rewrite Hv.
    + intros (next & [k v] & Hx & Hnd & Hd). cbn in Hx. apply result_bind_ok in Hx as ([ak k'] & Hk & Hx).
      apply result_bind_ok in Hx as ([r' v'] & Hv & Hx). injection Hx as -> -> ->.
      rewrite fmap_app in Hnd. apply NoDup_snoc in Hnd; [|done].
      exists (ak, k). split; [done|]. cbn beta iota. rewrite bool_decide_false by done. by rewrite Hv.
Qed.

Lemma ordered_map_loop_no_fault `{EqDecision K} n index input map c f :
  decode_ordered_map_loop ck cv n index input map c ≠ Fault f.
Proof.
  revert index input map. induction n as [|n IH]; intros index input map; cbn [decode_ordered_map_loop]; [done|].
  apply bind_no_fault; [apply decode_no_fault|]. intros [ak k] _. destruct (bool_decide _); [done|].
  apply bind_no_fault; [apply decode_no_fault|]. intros [next v] _. apply IH.
Qed.

Lemma map_loop_ok cmp n index input map c rest l : ascending cmp map.*1 →
  decode_map_loop cmp ck cv n index input map c = Ok (rest, l) ↔
  ∃ xs, decode_array entry_codec n input c = Ok (rest, xs) ∧ l = map ++ xs ∧ ascending cmp l.*1.
Proof.
  apply (checked_loop_ok entry_codec (λ l, ascending cmp l.*1)
    (λ n index input map c, decode_map_loop cmp ck cv n index input map c)); [|done|].
  - intros acc xs. rewrite fmap_app. apply ascending_prefix.
  - clear. intros n index input acc c r Hacc. cbn [decode_map_loop]. rewrite result_bind_ok, <- fmap_last. split.
    + intros ([ak k] & Hk & Hd). apply result_bind_ok in Hd as ([] & Hck & Hd).
      apply result_bind_ok in Hd as ([next v] & Hv & Hd).
      exists next, (k, v). rewrite fmap_app. cbn [fmap list_fmap fst]. rewrite ascending_snoc by done.
      split; [|eauto]. cbn. rewrite Hk. cbn. by rewrite Hv.
    + intros (next & [k v] & Hx & Has & Hd). cbn in Hx. apply result_bind_ok in Hx as ([ak k'] & Hk & Hx).
      apply result_bind_ok in Hx as ([r' v'] & Hv & Hx). injection Hx as -> -> ->.
      rewrite fmap_app in Has. apply (ascending_snoc cmp _ k index Hacc) in Has.
      exists (ak, k). split; [done|]. cbn beta iota. rewrite Has. cbn [mbind result_bind]. by rewrite Hv.
Qed.

Lemma map_loop_no_fault cmp n index input map c f : decode_map_loop cmp ck cv n index input map c ≠ Fault f.
Proof.
  revert index input map. induction n as [|n IH]; intros index input map; cbn [decode_map_loop]; [done|].
  apply bind_no_fault; [apply decode_no_fault|]. intros [ak k] _.
  apply bind_no_fault; [unfold check_key_order; by repeat case_match|]. intros [] _.
  apply bind_no_fault; [apply decode_no_fault|]. intros [next v] _. apply IH.
Qed.

End Entries.

(** Codecs that agree on every operation satisfy the same laws. *)
Program Definition canonical_ext {C T} (cd cd' : Codec C T) (cc : CanonicalCodec cd)
    (He : ∀ E v, encode cd' (E:=E) v = encode cd v)
    (Hl : ∀ E v, encoded_length cd' (E:=E) v = encoded_length cd v)
    (Hd : ∀ input c, decode cd' input c = decode cd input c) : CanonicalCodec cd' := {|
  valid := valid cd; bytes := bytes cd
|}.
Next Obligation. intros. rewrite He. by apply (encode_ok c). Qed.
Next Obligation. intros. rewrite Hl. by apply (encoded_length_ok c). Qed.
Next Obligation. intros. rewrite Hd. by apply decode_encode. Qed.
Next Obligation. intros C T cd cd' cc He Hl Hd c input rest v Hdec. rewrite Hd in Hdec. by apply decode_sound. Qed.
Next Obligation. intros. rewrite Hd. apply decode_no_fault. Qed.

#[export] Program Instance bounded_ordered_map_canonical {C1 C2 K V} `{EqDecision K} MIN MAX (ck : Codec C1 K) (cv : Codec C2 V)
    `{!CanonicalCodec ck, !CanonicalCodec cv, !EncodableMax MAX} : CanonicalCodec (bounded_ordered_map MIN MAX ck cv) :=
  canonical_ext _ _ (prefixed_canonical (entry_codec ck cv) MIN MAX
    (λ n input c, decode_ordered_map_loop ck cv n 0 input [] c) (λ l, NoDup l.*1) _ _) _ _ _.
Next Obligation.
  intros. cbn beta. rewrite (ordered_map_loop_ok ck cv) by constructor. split.
  - by intros (xs & Ha & -> & Hnd).
  - intros [Ha Hnd]. by exists l.
Qed.
Next Obligation. intros. by apply ordered_map_loop_no_fault. Qed.
Next Obligation. intros. cbn. by rewrite encode_entries_eq. Qed.
Next Obligation. intros. cbn. by rewrite entries_length_eq. Qed.
Next Obligation. done. Qed.

#[export] Program Instance bounded_btree_map_canonical {C1 C2 K V} cmp MIN MAX (ck : Codec C1 K) (cv : Codec C2 V)
    `{!CanonicalCodec ck, !CanonicalCodec cv, !EncodableMax MAX} : CanonicalCodec (bounded_btree_map cmp MIN MAX ck cv) :=
  canonical_ext _ _ (prefixed_canonical (entry_codec ck cv) MIN MAX
    (λ n input c, decode_map_loop cmp ck cv n 0 input [] c) (λ l, ascending cmp l.*1) _ _) _ _ _.
Next Obligation.
  intros. cbn beta. rewrite (map_loop_ok ck cv) by (by intros []). split.
  - by intros (xs & Ha & -> & Hnd).
  - intros [Ha Hnd]. by exists l.
Qed.
Next Obligation. intros. by apply map_loop_no_fault. Qed.
Next Obligation. intros. cbn. by rewrite encode_entries_eq. Qed.
Next Obligation. intros. cbn. by rewrite entries_length_eq. Qed.
Next Obligation. done. Qed.

Lemma decode_all_encode {C T} (cd : Codec C T) `{!CanonicalCodec cd} c v : valid cd c v →
  decode_all cd (bytes cd v) c = Ok v.
Proof.
  intros Hv. unfold decode_all. rewrite <- (app_nil_r (bytes cd v)), (decode_encode c v [] Hv). done.
Qed.

Lemma decode_all_sound {C T} (cd : Codec C T) `{!CanonicalCodec cd} c input v :
  decode_all cd input c = Ok v → valid cd c v ∧ input = bytes cd v.
Proof.
  unfold decode_all. intros Hd. apply result_bind_ok in Hd as ([rest v'] & Hv & Hd). destruct rest; [|done].
  injection Hd as ->. apply decode_sound in Hv. by rewrite app_nil_r in Hv.
Qed.
