(* ===== verification/Ops.v ===== *)
(** * Mantle operations and their wire format

    core/src/mantle/ops, core/src/mantle/ledger.rs and core/src/sdp: the eleven
    operations as records, and the codec of each one, put together from the
    combinators of Codec.v the way the derive macros and the hand-written
    [BinaryDecode] implementations do. A fixed-size byte array is a list of its
    bytes; a field element is a [Z] below the modulus. *)

From S2P Require Import Prelude Codec.

#[local] Open Scope Z_scope.

Module Ops.
Import Canonical.

(** ** Third-party code *)

(** [ed25519_dalek]: whether [VerifyingKey::from_bytes] accepts the bytes and
    whether the key is of small order. A [VerifyingKey] keeps the bytes it was
    built from, so a key is its 32 bytes. *)
Class Ed25519Crate := {
  vk_valid : list byte → bool;
  vk_is_weak : list byte → bool;
}.

(** [multiaddr]: the protocols of an address. A [Multiaddr] keeps the bytes it
    was parsed from. *)
Inductive Protocol :=
  | Ip4 (octets : list byte)
  | Ip6 (octets : list byte)
  | Tcp (port : Z)
  | Udp (port : Z)
  | P2p
  | OtherProtocol.

Class MultiaddrCrate := {
  multiaddr_parse : list byte → option (list Protocol)
}.

(** ** Data *)

(** [u8] as the element of a byte array. *)
Definition byte_codec : Codec unit byte := mkCodec
  (λ E _, Ok 1)
  (λ E b, Ok [b])
  (λ input context, '(rest, v) ← decode u8_codec input context; Ok (rest, byte_of v)).

Definition bytes32 : Codec unit (list byte) := array_codec 32 byte_codec.

Definition Hash := list byte.
Definition ChannelId := list byte.
Definition MsgId := list byte.
Definition DeclarationId := list byte.
Definition Ed25519Key := list byte.
Definition Locator := list byte.
Definition NoteId := Z.
Definition ZkPublicKey := Z.

(** [MsgId::root]. *)
Definition root : MsgId := replicate 32 x00.

Record Note := mkNote { value : Z; pk : ZkPublicKey }.

Definition MAX_TRANSACTION_INPUTS : Z := u8_max.
Definition MAX_TRANSACTION_OUTPUTS : Z := u8_max.
Definition CHANNEL_MAX_KEYS : Z := u16_max.
Definition MAX_LOCATOR_BYTE_SIZE : Z := 329.
Definition MAX_DECLARATION_LOCATOR_COUNT : Z := 8.
Definition PROOF_OF_QUOTA_SIZE : nat := 160.

Record TransferOp := mkTransfer { t_inputs : list NoteId; t_outputs : list Note }.

Record DepositOp := mkDeposit {
  d_channel_id : ChannelId; d_inputs : list NoteId; d_metadata : list byte }.

Record ChannelWithdrawOp := mkChannelWithdraw { w_channel_id : ChannelId; w_inputs : list NoteId }.

Record ChannelTransferOp := mkChannelTransfer {
  ct_channel_id : ChannelId; ct_inputs : list NoteId; ct_outputs : list Note }.

Record InscriptionOp := mkInscription {
  i_channel_id : ChannelId; i_inscription : list byte; i_parent : MsgId; i_signer : Ed25519Key }.

Record ChannelConfigOp := mkChannelConfig {
  c_channel : ChannelId; c_parent : MsgId; c_keys : list Ed25519Key;
  c_posting_timeframe : Z; c_posting_timeout : Z;
  c_configuration_threshold : Z; c_transfer_threshold : Z }.

(** [ServiceType], without the variant of the tests. *)
Inductive ServiceType := BlendNetwork.

Record Nonce := mkNonce { lifecycle_epoch : Z; sequence : Z }.

Record DeclarationMessage := mkDeclarationMessage {
  dm_service_type : ServiceType; dm_locators : list Locator; dm_provider_id : Ed25519Key;
  dm_zk_id : ZkPublicKey; dm_service_note_id : NoteId }.

Record WithdrawMessage := mkWithdrawMessage { wm_declaration_id : DeclarationId; wm_nonce : Nonce }.

(** The circuit proof inside is the bytes of its three points. *)
Record ProofOfQuota := mkProofOfQuota { key_nullifier : Z; quota_proof : list byte }.

Record ActivityProof := mkActivityProof {
  ap_epoch : Z; ap_signing_key : Ed25519Key; ap_proof_of_quota : ProofOfQuota;
  ap_selection_randomness : Z }.

Inductive ActivityMetadata := Blend (proof : ActivityProof).

Record ActiveMessage := mkActiveMessage {
  am_declaration_id : DeclarationId; am_nonce : Nonce; am_metadata : ActivityMetadata }.

Record LeaderClaimOp := mkLeaderClaim {
  lc_rewards_root : Z; lc_voucher_nullifier : Z; lc_pk : ZkPublicKey }.

Record ClaimPowRewardOp := mkClaimPowReward {
  cp_epoch_nonce : Z; cp_block_hash : Hash; cp_public_key : ZkPublicKey }.

Inductive Op :=
  | ChannelInscribe (op : InscriptionOp)
  | ChannelConfig (op : ChannelConfigOp)
  | ChannelDeposit (op : DepositOp)
  | ChannelWithdraw (op : ChannelWithdrawOp)
  | ChannelTransfer (op : ChannelTransferOp)
  | SDPDeclare (op : DeclarationMessage)
  | SDPWithdraw (op : WithdrawMessage)
  | SDPActive (op : ActiveMessage)
  | LeaderClaim (op : LeaderClaimOp)
  | Transfer (op : TransferOp)
  | ClaimPowReward (op : ClaimPowRewardOp).

#[export] Instance note_eq_dec : EqDecision Note.
Proof. solve_decision. Defined.
#[export] Instance service_type_eq_dec : EqDecision ServiceType.
Proof. solve_decision. Defined.
#[export] Instance byte_eq_decision : EqDecision byte := Byte.byte_eq_dec.

#[export] Instance byte_countable : Countable byte := inj_countable Byte.to_N Byte.of_N Byte.of_to_N.

(** ** Codecs of the parts *)

(** [Inputs] and [Outputs]. *)
Definition inputs_codec : Codec unit (list NoteId) := bounded_ordered_set 0 MAX_TRANSACTION_INPUTS fr_codec.

Definition note_fields (n : Note) := (value n, pk n).
Definition note_build '(v, k) := mkNote v k.
Definition note_codec : Codec unit Note := struct_codec note_fields note_build (field_pair u64_codec fr_codec).

Definition outputs_codec : Codec unit (list Note) := bounded_vec 0 MAX_TRANSACTION_OUTPUTS note_codec.

(** [UpperRuntimeBoundedVec<u8, u32>], under the maximum of the context. *)
Definition data_codec : Codec Z (list byte) := at_context (λ max, (max, tt)) (runtime_bounded_vec 0 4 byte_codec).

Section Keys.
Context `{Ed25519Crate}.

Definition unverified_key_try_from (b : list byte) : option Ed25519Key := if vk_valid b then Some b else None.
Definition unverified_key_codec : Codec unit Ed25519Key := try_from_codec id unverified_key_try_from bytes32.

Definition public_key_try_from (k : Ed25519Key) : option Ed25519Key := if vk_is_weak k then None else Some k.
Definition public_key_codec : Codec unit Ed25519Key := try_from_codec id public_key_try_from unverified_key_codec.

End Keys.

(** [Locator::try_from]. *)
Definition protocol_rejected (p : Protocol) : bool :=
  match p with
  | Ip4 octets | Ip6 octets => forallb (λ b, byte_val b =? 0) octets
  | Tcp port | Udp port => port =? 0
  | P2p => true
  | OtherProtocol => false
  end.

Definition locator_try_from `{MultiaddrCrate} (b : list byte) : option Locator :=
  match multiaddr_parse b with
  | None => None
  | Some protocols =>
      if MAX_LOCATOR_BYTE_SIZE <? Z.of_nat (length b) then None
      else if existsb protocol_rejected protocols then None else Some b
  end.

Definition locator_codec `{MultiaddrCrate} : Codec unit Locator :=
  try_from_codec id locator_try_from (bounded_vec 0 MAX_LOCATOR_BYTE_SIZE byte_codec).

Definition service_type_to_u8 (s : ServiceType) : Z := match s with BlendNetwork => 0 end.
Definition service_type_from_repr (z : Z) : option ServiceType := if z =? 0 then Some BlendNetwork else None.
Definition service_type_codec : Codec unit ServiceType :=
  try_from_codec service_type_to_u8 service_type_from_repr u8_codec.

(** [Nonce::packed_u64] and [from_packed_u64]: the epoch in the high 32 bits. *)
Definition packed_u64 (n : Nonce) : Z := Z.lor (Z.shiftl (lifecycle_epoch n) 32) (sequence n).
Definition from_packed_u64 (packed : Z) : Nonce :=
  mkNonce (Z.shiftr packed 32) (Z.land packed u32_max).
Definition nonce_codec : Codec unit Nonce := mkCodec
  (λ E n, encoded_length u64_codec (packed_u64 n))
  (λ E n, encode u64_codec (packed_u64 n))
  (λ input context, '(rest, raw) ← decode u64_codec input context; Ok (rest, from_packed_u64 raw)).

(** [Nonce::checked_next]. *)
Definition checked_next (n : Nonce) : option Nonce :=
  if sequence n =? u32_max then None else Some (mkNonce (lifecycle_epoch n) (sequence n + 1)).

Definition quota_to_bytes (q : ProofOfQuota) : list byte := fr_to_bytes (key_nullifier q) ++ quota_proof q.
Definition quota_try_from (b : list byte) : option ProofOfQuota :=
  n ← fr_from_bytes (take 32 b); Some (mkProofOfQuota n (drop 32 b)).
Definition quota_codec : Codec unit ProofOfQuota :=
  try_from_codec quota_to_bytes quota_try_from (array_codec PROOF_OF_QUOTA_SIZE byte_codec).

Definition selection_codec : Codec unit Z := try_from_codec fr_to_bytes fr_from_bytes bytes32.

(** ** Codecs of the operations *)

Definition transfer_fields (o : TransferOp) := (t_inputs o, t_outputs o).
Definition transfer_build '(i, o) := mkTransfer i o.
Definition transfer_codec : Codec unit TransferOp :=
  struct_codec transfer_fields transfer_build (field_pair inputs_codec outputs_codec).

Definition deposit_fields (o : DepositOp) := (d_channel_id o, (d_inputs o, d_metadata o)).
Definition deposit_build '(c, (i, m)) := mkDeposit c i m.
Definition deposit_codec : Codec Z DepositOp :=
  struct_codec deposit_fields deposit_build
    (field_pair (at_context (λ _, tt) bytes32) (field_pair (at_context (λ _, tt) inputs_codec) data_codec)).

Definition channel_withdraw_fields (o : ChannelWithdrawOp) := (w_channel_id o, w_inputs o).
Definition channel_withdraw_build '(c, i) := mkChannelWithdraw c i.
Definition channel_withdraw_codec : Codec unit ChannelWithdrawOp :=
  struct_codec channel_withdraw_fields channel_withdraw_build (field_pair bytes32 inputs_codec).

Definition channel_transfer_fields (o : ChannelTransferOp) := (ct_channel_id o, (ct_inputs o, ct_outputs o)).
Definition channel_transfer_build '(c, (i, o)) := mkChannelTransfer c i o.
Definition channel_transfer_codec : Codec unit ChannelTransferOp :=
  struct_codec channel_transfer_fields channel_transfer_build
    (field_pair bytes32 (field_pair inputs_codec outputs_codec)).

Definition leader_claim_fields (o : LeaderClaimOp) := (lc_rewards_root o, (lc_voucher_nullifier o, lc_pk o)).
Definition leader_claim_build '(r, (v, k)) := mkLeaderClaim r v k.
Definition leader_claim_codec : Codec unit LeaderClaimOp :=
  struct_codec leader_claim_fields leader_claim_build (field_pair fr_codec (field_pair fr_codec fr_codec)).

Definition claim_pow_fields (o : ClaimPowRewardOp) := (cp_epoch_nonce o, (cp_block_hash o, cp_public_key o)).
Definition claim_pow_build '(n, (h, k)) := mkClaimPowReward n h k.
Definition claim_pow_codec : Codec unit ClaimPowRewardOp :=
  struct_codec claim_pow_fields claim_pow_build (field_pair fr_codec (field_pair bytes32 fr_codec)).

Definition withdraw_fields (o : WithdrawMessage) := (wm_declaration_id o, wm_nonce o).
Definition withdraw_build '(d, n) := mkWithdrawMessage d n.
Definition withdraw_codec : Codec unit WithdrawMessage :=
  struct_codec withdraw_fields withdraw_build (field_pair bytes32 nonce_codec).

Section KeyedOps.
Context `{Ed25519Crate}.

Definition inscription_fields (o : InscriptionOp) :=
  (i_channel_id o, (i_inscription o, (i_parent o, i_signer o))).
Definition inscription_build '(c, (i, (p, s))) := mkInscription c i p s.
Definition inscription_codec : Codec Z InscriptionOp :=
  struct_codec inscription_fields inscription_build
    (field_pair (at_context (λ _, tt) bytes32) (field_pair data_codec
      (field_pair (at_context (λ _, tt) bytes32) (at_context (λ _, tt) unverified_key_codec)))).

(** [ChannelConfigOp::new], through [TryFrom<ChannelConfigFields>]. *)
Definition channel_config_fields (o : ChannelConfigOp) :=
  (c_channel o, (c_parent o, (c_keys o, (c_posting_timeframe o, (c_posting_timeout o,
    (c_configuration_threshold o, c_transfer_threshold o)))))).
Definition channel_config_new '(c, (p, (ks, (tf, (tout, (ct, tr)))))) : option ChannelConfigOp :=
  if Z.of_nat (length ks) <? ct then None else Some (mkChannelConfig c p ks tf tout ct tr).
Definition channel_config_codec : Codec unit ChannelConfigOp :=
  try_from_codec channel_config_fields channel_config_new
    (field_pair bytes32 (field_pair bytes32 (field_pair (bounded_vec 1 CHANNEL_MAX_KEYS public_key_codec)
      (field_pair u32_codec (field_pair u32_codec (field_pair (non_zero u16_codec) (non_zero u16_codec))))))).

Definition activity_proof_fields (p : ActivityProof) :=
  (ap_epoch p, (ap_signing_key p, (ap_proof_of_quota p, ap_selection_randomness p))).
Definition activity_proof_build '(e, (k, (q, s))) := mkActivityProof e k q s.
Definition activity_proof_codec : Codec unit ActivityProof :=
  struct_codec activity_proof_fields activity_proof_build
    (field_pair u32_codec (field_pair public_key_codec (field_pair quota_codec selection_codec))).

Definition ACTIVE_METADATA_BLEND_TYPE : Z := 1.

Definition activity_metadata_codec : Codec unit ActivityMetadata := mkCodec
  (λ E '(Blend proof), n ← encoded_length u8_codec ACTIVE_METADATA_BLEND_TYPE;
                       m ← encoded_length activity_proof_codec proof; strict_add usize_max n m)
  (λ E '(Blend proof), b ← encode u8_codec ACTIVE_METADATA_BLEND_TYPE;
                       bs ← encode activity_proof_codec proof; Ok (b ++ bs))
  (λ input context,
    '(input, metadata_type) ← decode u8_codec input tt;
    if metadata_type =? ACTIVE_METADATA_BLEND_TYPE then
      '(input, proof) ← decode activity_proof_codec input tt; Ok (input, Blend proof)
    else Err (UnknownDiscriminant metadata_type)).

Definition active_fields (o : ActiveMessage) := (am_declaration_id o, (am_nonce o, am_metadata o)).
Definition active_build '(d, (n, m)) := mkActiveMessage d n m.
Definition active_codec : Codec unit ActiveMessage :=
  struct_codec active_fields active_build (field_pair bytes32 (field_pair nonce_codec activity_metadata_codec)).

Context `{MultiaddrCrate}.

Definition declaration_fields (o : DeclarationMessage) :=
  (dm_service_type o, (dm_locators o, (dm_provider_id o, (dm_zk_id o, dm_service_note_id o)))).
Definition declaration_build '(s, (l, (p, (z, n)))) := mkDeclarationMessage s l p z n.
Definition declaration_codec : Codec unit DeclarationMessage :=
  struct_codec declaration_fields declaration_build
    (field_pair service_type_codec (field_pair (bounded_ordered_set 1 MAX_DECLARATION_LOCATOR_COUNT locator_codec)
      (field_pair public_key_codec (field_pair fr_codec fr_codec)))).

(** ** [Op]: the code of the operation, then its payload *)

(** [OpRef::code], from the [CODE] of each operation. *)
Definition op_code (op : Op) : Z :=
  match op with
  | ChannelInscribe _ => 0x11
  | ChannelConfig _ => 0x10
  | ChannelDeposit _ => 0x12
  | ChannelWithdraw _ => 0x13
  | ChannelTransfer _ => 0x14
  | SDPDeclare _ => 0x20
  | SDPWithdraw _ => 0x21
  | SDPActive _ => 0x22
  | LeaderClaim _ => 0x30
  | Transfer _ => 0x00
  | ClaimPowReward _ => 0x40
  end.

Definition op_payload_length {E} (op : Op) : result E Z :=
  match op with
  | ChannelInscribe op => encoded_length inscription_codec op
  | ChannelConfig op => encoded_length channel_config_codec op
  | ChannelDeposit op => encoded_length deposit_codec op
  | ChannelWithdraw op => encoded_length channel_withdraw_codec op
  | ChannelTransfer op => encoded_length channel_transfer_codec op
  | SDPDeclare op => encoded_length declaration_codec op
  | SDPWithdraw op => encoded_length withdraw_codec op
  | SDPActive op => encoded_length active_codec op
  | LeaderClaim op => encoded_length leader_claim_codec op
  | Transfer op => encoded_length transfer_codec op
  | ClaimPowReward op => encoded_length claim_pow_codec op
  end.

Definition op_payload {E} (op : Op) : result E (list byte) :=
  match op with
  | ChannelInscribe op => encode inscription_codec op
  | ChannelConfig op => encode channel_config_codec op
  | ChannelDeposit op => encode deposit_codec op
  | ChannelWithdraw op => encode channel_withdraw_codec op
  | ChannelTransfer op => encode channel_transfer_codec op
  | SDPDeclare op => encode declaration_codec op
  | SDPWithdraw op => encode withdraw_codec op
  | SDPActive op => encode active_codec op
  | LeaderClaim op => encode leader_claim_codec op
  | Transfer op => encode transfer_codec op
  | ClaimPowReward op => encode claim_pow_codec op
  end.

(** [.map(|(rest, op)| (rest, Self::Variant(op)))]. *)
Definition map_op {T} (f : T → Op) (r : result DecodeError (list byte * T)) : result DecodeError (list byte * Op) :=
  '(rest, op) ← r; Ok (rest, f op).

Definition decode_payload (opcode : Z) (input : list byte) (max_op_data_size : Z) : result DecodeError (list byte * Op) :=
  if opcode =? 0x11 then map_op ChannelInscribe (decode inscription_codec input max_op_data_size)
  else if opcode =? 0x10 then map_op ChannelConfig (decode channel_config_codec input tt)
  else if opcode =? 0x12 then map_op ChannelDeposit (decode deposit_codec input max_op_data_size)
  else if opcode =? 0x13 then map_op ChannelWithdraw (decode channel_withdraw_codec input tt)
  else if opcode =? 0x14 then map_op ChannelTransfer (decode channel_transfer_codec input tt)
  else if opcode =? 0x20 then map_op SDPDeclare (decode declaration_codec input tt)
  else if opcode =? 0x21 then map_op SDPWithdraw (decode withdraw_codec input tt)
  else if opcode =? 0x22 then map_op SDPActive (decode active_codec input tt)
  else if opcode =? 0x30 then map_op LeaderClaim (decode leader_claim_codec input tt)
  else if opcode =? 0x00 then map_op Transfer (decode transfer_codec input tt)
  else if opcode =? 0x40 then map_op ClaimPowReward (decode claim_pow_codec input tt)
  else Err (UnknownDiscriminant opcode).

Definition op_codec : Codec Z Op := mkCodec
  (λ E op, n ← encoded_length u8_codec (op_code op); payload ← op_payload_length op;
           expect (checked_add usize_max n payload))
  (λ E op, b ← encode u8_codec (op_code op); bs ← op_payload op; Ok (b ++ bs))
  (λ input max_op_data_size,
    '(input, opcode) ← decode u8_codec input tt;
    decode_payload opcode input max_op_data_size).

End KeyedOps.

End Ops.
