(* ===== verification/OpsCodec.v ===== *)
(** * The wire format of Mantle operations is canonical

    Well-formed operations, the [CanonicalCodec] instance of every codec of
    Ops.v, whose valid values are the well-formed ones, and the theorems on
    [Op]: it round-trips, every accepted byte string is the one encoding of a
    well-formed operation, and decoding never panics. [OpsWitness] at the end
    applies the theorems to concrete operations. *)

From Stdlib Require Import Ascii.
From S2P Require Import Prelude Codec CodecLaws Ops.

Import Canonical Ops.

#[local] Open Scope Z_scope.

Module OpsCodec.

(** ** Well-formed values *)

Definition in_fr (z : Z) : Prop := 0 <= z < fr_modulus.

Definition inputs_wf (l : list NoteId) : Prop :=
  Z.of_nat (length l) <= MAX_TRANSACTION_INPUTS ∧ NoDup l ∧ Forall in_fr l.

Definition note_wf (n : Note) : Prop := in_u64 (value n) ∧ in_fr (pk n).

Definition outputs_wf (l : list Note) : Prop :=
  Z.of_nat (length l) <= MAX_TRANSACTION_OUTPUTS ∧ Forall note_wf l.

(** The data of an inscription or a deposit under the maximum of the era. *)
Definition data_wf (max : Z) (l : list byte) : Prop := Z.of_nat (length l) <= Z.min max u32_max.

Definition nonce_wf (n : Nonce) : Prop := in_u32 (lifecycle_epoch n) ∧ in_u32 (sequence n).

Definition blend_proof (m : ActivityMetadata) : ActivityProof := match m with Blend p => p end.

Definition quota_wf (q : ProofOfQuota) : Prop := in_fr (key_nullifier q) ∧ length (quota_proof q) = 128%nat.

Section Wf.
Context `{Ed25519Crate, MultiaddrCrate}.

Definition unverified_key_wf (k : Ed25519Key) : Prop := length k = 32%nat ∧ vk_valid k = true.
Definition public_key_wf (k : Ed25519Key) : Prop := unverified_key_wf k ∧ vk_is_weak k = false.

Definition locator_wf (l : Locator) : Prop :=
  Z.of_nat (length l) <= MAX_LOCATOR_BYTE_SIZE ∧
  ∃ protocols, multiaddr_parse l = Some protocols ∧ Forall (λ p, protocol_rejected p = false) protocols.

Definition locators_wf (l : list Locator) : Prop :=
  1 <= Z.of_nat (length l) <= MAX_DECLARATION_LOCATOR_COUNT ∧ NoDup l ∧ Forall locator_wf l.

Definition channel_config_wf (o : ChannelConfigOp) : Prop :=
  length (c_channel o) = 32%nat ∧ length (c_parent o) = 32%nat ∧
  1 <= Z.of_nat (length (c_keys o)) <= CHANNEL_MAX_KEYS ∧ Forall public_key_wf (c_keys o) ∧
  in_u32 (c_posting_timeframe o) ∧ in_u32 (c_posting_timeout o) ∧
  1 <= c_configuration_threshold o <= Z.of_nat (length (c_keys o)) ∧
  1 <= c_transfer_threshold o <= u16_max.

Definition activity_proof_wf (p : ActivityProof) : Prop :=
  in_u32 (ap_epoch p) ∧ public_key_wf (ap_signing_key p) ∧ quota_wf (ap_proof_of_quota p) ∧
  in_fr (ap_selection_randomness p).

(** An operation the wire format can carry when at most [max] bytes of data are
    allowed. *)
Definition op_wf (max : Z) (op : Op) : Prop :=
  match op with
  | ChannelInscribe o => length (i_channel_id o) = 32%nat ∧ data_wf max (i_inscription o) ∧
      length (i_parent o) = 32%nat ∧ unverified_key_wf (i_signer o)
  | ChannelConfig o => channel_config_wf o
  | ChannelDeposit o => length (d_channel_id o) = 32%nat ∧ inputs_wf (d_inputs o) ∧ data_wf max (d_metadata o)
  | ChannelWithdraw o => length (w_channel_id o) = 32%nat ∧ inputs_wf (w_inputs o)
  | ChannelTransfer o => length (ct_channel_id o) = 32%nat ∧ inputs_wf (ct_inputs o) ∧ outputs_wf (ct_outputs o)
  | SDPDeclare o => locators_wf (dm_locators o) ∧ public_key_wf (dm_provider_id o) ∧
      in_fr (dm_zk_id o) ∧ in_fr (dm_service_note_id o)
  | SDPWithdraw o => length (wm_declaration_id o) = 32%nat ∧ nonce_wf (wm_nonce o)
  | SDPActive o => length (am_declaration_id o) = 32%nat ∧ nonce_wf (am_nonce o) ∧
      activity_proof_wf (blend_proof (am_metadata o))
  | LeaderClaim o => in_fr (lc_rewards_root o) ∧ in_fr (lc_voucher_nullifier o) ∧ in_fr (lc_pk o)
  | Transfer o => inputs_wf (t_inputs o) ∧ outputs_wf (t_outputs o)
  | ClaimPowReward o => in_fr (cp_epoch_nonce o) ∧ length (cp_block_hash o) = 32%nat ∧ in_fr (cp_public_key o)
  end.

End Wf.

(** ** Instances *)

(** A codec is canonical for any equivalent reading of its valid values. *)
Program Definition revalidate {C T} (cd : Codec C T) (cc : CanonicalCodec cd) (P : C → T → Prop)
    (HP : ∀ c v, valid cd c v ↔ P c v) : CanonicalCodec cd := {| valid := P; bytes := bytes cd |}.
Next Obligation. intros. apply (encode_ok c). by apply HP. Qed.
Next Obligation. intros. apply (encoded_length_ok c); [by apply HP|done]. Qed.
Next Obligation. intros. apply decode_encode. by apply HP. Qed.
Next Obligation. intros C T cd cc P HP c input rest v Hd. apply decode_sound in Hd. by rewrite <- HP. Qed.
Next Obligation. intros. apply decode_no_fault. Qed.

#[export] Program Instance byte_canonical : CanonicalCodec byte_codec := {|
  valid _ _ := True; bytes b := [b]
|}.
Next Obligation. done. Qed.
Next Obligation. done. Qed.
Next Obligation.
  intros c b rest _. cbn [decode byte_codec app]. unfold u8_codec. cbn. by rewrite Z.add_0_r, byte_of_val.
Qed.
Next Obligation.
  intros [] input rest b Hd. cbn [decode byte_codec] in Hd. apply result_bind_ok in Hd as ([r z] & Hz & Hd).
  injection Hd as <- <-. apply le_decode_sound in Hz as [Hz ->]. split; [done|].
  cbn [to_le_bytes app]. rewrite Z.mod_small by (cbn in Hz; lia). done.
Qed.
Next Obligation.
  intros [] input f. cbn [decode byte_codec]. apply bind_no_fault; [apply (decode_no_fault (cd:=u8_codec))|].
  by intros [].
Qed.

Lemma byte_valid_all (l : list byte) : Forall (valid byte_codec tt) l.
Proof. by apply Forall_forall. Qed.

Lemma array_valid_bytes n (l : list byte) : valid (array_codec n byte_codec) tt l ↔ length l = n.
Proof. cbn. pose proof (byte_valid_all l). tauto. Qed.

#[export] Instance bytes32_canonical : CanonicalCodec bytes32 :=
  revalidate _ (array_canonical 32 byte_codec) (λ _ l, length l = 32%nat) (λ 'tt, array_valid_bytes 32).
#[export] Typeclasses Opaque byte_codec bytes32.

Lemma consuming_nonempty {C T} (cd : Codec C T) `{!CanonicalCodec cd} max l :
  (∀ x, bytes cd x ≠ []) → consuming cd max l.
Proof. intros Hne. right. by apply Forall_forall. Qed.

Lemma byte_consuming max l : consuming byte_codec max l.
Proof. by apply consuming_nonempty. Qed.

Lemma inputs_valid c l : valid inputs_codec c l ↔ inputs_wf l.
Proof. unfold inputs_codec, inputs_wf. cbn [valid bounded_ordered_set_canonical prefixed_canonical fr_canonical]. unfold in_fr. naive_solver lia. Qed.

#[export] Instance inputs_canonical : CanonicalCodec inputs_codec := revalidate _ _ (λ _, inputs_wf) inputs_valid.
#[export] Typeclasses Opaque inputs_codec.

#[export] Instance note_fields_of : FieldsOf note_fields note_build.
Proof. split; [by intros []|by intros []]. Qed.

Lemma note_valid c n : valid note_codec c n ↔ note_wf n.
Proof. destruct n as [v k]. unfold note_wf, in_u64, in_fr, u64_max. cbn. change (Z.pow_pos 256 8) with 18446744073709551616. lia. Qed.

#[export] Instance note_canonical : CanonicalCodec note_codec := revalidate _ _ (λ _, note_wf) note_valid.
#[export] Typeclasses Opaque note_codec.

Lemma outputs_valid c l : valid outputs_codec c l ↔ outputs_wf l.
Proof.
  unfold outputs_codec, outputs_wf. cbn [valid bounded_vec_canonical prefixed_canonical note_canonical revalidate].
  assert (consuming note_codec MAX_TRANSACTION_OUTPUTS l) by (by left). naive_solver lia.
Qed.

#[export] Instance outputs_canonical : CanonicalCodec outputs_codec := revalidate _ _ (λ _, outputs_wf) outputs_valid.
#[export] Typeclasses Opaque outputs_codec.

Lemma data_valid max l : valid data_codec max l ↔ data_wf max l.
Proof.
  unfold data_codec, data_wf. cbn [valid at_context_canonical runtime_bounded_vec_canonical fst snd].
  pose proof (byte_valid_all l). pose proof (byte_consuming max l).
  change (256 ^ Z.of_nat 4) with (u32_max + 1). rewrite Z.min_glb_iff. naive_solver lia.
Qed.

#[export] Instance data_canonical : CanonicalCodec data_codec := revalidate _ _ data_wf data_valid.
#[export] Typeclasses Opaque data_codec.

Lemma land_disjoint e q : in_u32 q → Z.land (Z.shiftl e 32) q = 0.
Proof.
  intros Hq. unfold in_u32, u32_max in *. apply Z.bits_inj'. intros n Hn. rewrite Z.land_spec, Z.bits_0.
  destruct (Z.lt_ge_cases n 32); [by rewrite Z.shiftl_spec_low|].
  rewrite <- (Z.mod_small q (2 ^ 32)) by lia. by rewrite Z.mod_pow2_bits_high, andb_false_r by lia.
Qed.

Lemma nonce_pack n : in_u32 (sequence n) → packed_u64 n = lifecycle_epoch n * 4294967296 + sequence n.
Proof.
  intros Hq. unfold packed_u64. pose proof (Z.add_lor_land (Z.shiftl (lifecycle_epoch n) 32) (sequence n)) as Ha.
  rewrite land_disjoint in Ha by done. rewrite Z.shiftl_mul_pow2 in * by lia. lia.
Qed.

Lemma nonce_unpack packed : from_packed_u64 packed = mkNonce (packed / 4294967296) (packed mod 4294967296).
Proof.
  unfold from_packed_u64. rewrite Z.shiftr_div_pow2 by lia. change u32_max with (Z.ones 32). by rewrite Z.land_ones.
Qed.

#[export] Program Instance nonce_canonical : CanonicalCodec nonce_codec := {|
  valid _ := nonce_wf; bytes n := to_le_bytes 8 (packed_u64 n)
|}.
Next Obligation. done. Qed.
Next Obligation. done. Qed.
Next Obligation.
  intros [] [e q] rest [He Hq]. cbn [lifecycle_epoch sequence] in *. cbn [decode nonce_codec].
  unfold u64_codec. rewrite nonce_pack by done. cbn [lifecycle_epoch sequence].
  unfold in_u32, u32_max in *. rewrite le_decode by (cbn; lia). cbn [mbind result_bind].
  rewrite nonce_unpack. by rewrite Z.div_add_l, Z.div_small, Z.add_0_r, Z.add_comm, Z_mod_plus_full, Z.mod_small by lia.
Qed.
Next Obligation.
  intros [] input rest n Hd. cbn [decode nonce_codec] in Hd. apply result_bind_ok in Hd as ([r z] & Hz & Hd).
  injection Hd as <- <-. apply le_decode_sound in Hz as [Hz ->].
  change (256 ^ Z.of_nat 8) with 18446744073709551616 in Hz. rewrite nonce_unpack.
  assert (nonce_wf (mkNonce (z / 4294967296) (z mod 4294967296))) as Hwf.
  { unfold nonce_wf, in_u32, u32_max. cbn [lifecycle_epoch sequence]. pose proof (Z.mod_pos_bound z 4294967296).
    assert (z / 4294967296 < 4294967296) by (apply Z.div_lt_upper_bound; lia).
    assert (0 <= z / 4294967296) by (apply Z.div_pos; lia). lia. }
  split; [done|]. rewrite nonce_pack by apply Hwf. cbn [lifecycle_epoch sequence].
  by rewrite Z.mul_comm, <- Z_div_mod_eq_full.
Qed.
Next Obligation.
  intros [] input f. cbn [decode nonce_codec]. apply bind_no_fault; [apply (decode_no_fault (cd:=u64_codec))|].
  by intros [].
Qed.

#[export] Typeclasses Opaque nonce_codec.

Lemma fr_bytes_some b n : length b = 32%nat → fr_from_bytes b = Some n ↔ in_fr n ∧ fr_to_bytes n = b.
Proof.
  intros Hb. unfold fr_from_bytes, fr_to_bytes, in_fr. pose proof (from_le_bytes_range b) as Hr.
  destruct (Z.leb_spec fr_modulus (from_le_bytes b)) as [Hle|Hlt]; split.
  - done.
  - intros [Hn <-]. rewrite from_to_le_bytes in Hle by (cbn; unfold fr_modulus in *; lia). lia.
  - intros [= <-]. split; [lia|]. rewrite <- Hb. apply to_from_le_bytes.
  - intros [Hn <-]. by rewrite from_to_le_bytes by (cbn; unfold fr_modulus in *; lia).
Qed.


Lemma selection_fields_ok (c : unit) b n : valid bytes32 c b → fr_from_bytes b = Some n → in_fr n ∧ fr_to_bytes n = b.
Proof. intros Hb. by apply fr_bytes_some. Qed.

Lemma selection_build_ok n : in_fr n → fr_from_bytes (fr_to_bytes n) = Some n.
Proof. intros Hn. apply fr_bytes_some; [apply to_le_bytes_length|done]. Qed.

Lemma selection_valid (cc : CanonicalCodec selection_codec := try_from_canonical_on _ _ in_fr bytes32 _ selection_build_ok selection_fields_ok)
    c n : valid selection_codec c n ↔ in_fr n.
Proof.
  unfold cc. cbn [valid try_from_canonical_on bytes32_canonical revalidate]. unfold fr_to_bytes.
  rewrite to_le_bytes_length. tauto.
Qed.

#[export] Instance selection_canonical : CanonicalCodec selection_codec := revalidate _ _ (λ _, in_fr) selection_valid.
#[export] Typeclasses Opaque selection_codec.

Lemma quota_fields_ok (c : unit) b q : valid (array_codec PROOF_OF_QUOTA_SIZE byte_codec) c b →
  quota_try_from b = Some q → quota_wf q ∧ quota_to_bytes q = b.
Proof.
  destruct c. rewrite array_valid_bytes. intros Hb. unfold quota_try_from, quota_wf, quota_to_bytes.
  destruct (fr_from_bytes (take 32 b)) as [n|] eqn:Hn; [|done]. intros [= <-]. cbn [key_nullifier quota_proof].
  apply fr_bytes_some in Hn as [? ->]; [|rewrite length_take, Hb; done].
  rewrite length_drop, Hb, take_drop. done.
Qed.

Lemma quota_build_ok q : quota_wf q → quota_try_from (quota_to_bytes q) = Some q.
Proof.
  intros [Hn Hp]. destruct q as [n p]. unfold quota_try_from, quota_to_bytes. cbn [key_nullifier quota_proof] in *.
  assert (length (fr_to_bytes n) = 32%nat) as Hl by apply to_le_bytes_length.
  rewrite take_app_length' by done. rewrite drop_app_length' by done. by rewrite selection_build_ok.
Qed.

Lemma quota_valid (cc : CanonicalCodec quota_codec := try_from_canonical_on _ _ quota_wf _ _ quota_build_ok quota_fields_ok)
    c q : valid quota_codec c q ↔ quota_wf q.
Proof.
  destruct c. unfold cc. cbn [valid try_from_canonical_on]. rewrite array_valid_bytes. unfold quota_wf, quota_to_bytes.
  rewrite length_app. unfold fr_to_bytes. rewrite to_le_bytes_length. unfold PROOF_OF_QUOTA_SIZE.
  split; [tauto|]. intros [? ->]. done.
Qed.

#[export] Instance quota_canonical : CanonicalCodec quota_codec := revalidate _ _ (λ _, quota_wf) quota_valid.
#[export] Typeclasses Opaque quota_codec.

#[export] Instance service_type_fields : PartialFieldsOf service_type_to_u8 service_type_from_repr (λ _, True).
Proof.
  split; [by intros []|]. intros r []. unfold service_type_from_repr. destruct (Z.eqb_spec r 0); [|done]. by subst.
Qed.

Lemma service_type_valid c s : valid service_type_codec c s ↔ True.
Proof. destruct s. cbn. lia. Qed.

#[export] Instance service_type_canonical : CanonicalCodec service_type_codec :=
  revalidate _ _ (λ _ _, True) service_type_valid.
#[export] Typeclasses Opaque service_type_codec.

Section Instances.
Context `{Ed25519Crate}.

#[export] Instance unverified_key_fields : PartialFieldsOf id unverified_key_try_from (λ k, vk_valid k = true).
Proof. unfold unverified_key_try_from. split; [intros v Hv; cbn; by rewrite Hv|]. intros r v. case_match; naive_solver. Qed.

Lemma unverified_key_valid c k : valid unverified_key_codec c k ↔ unverified_key_wf k.
Proof. unfold unverified_key_wf. cbn. tauto. Qed.

#[export] Instance unverified_key_canonical : CanonicalCodec unverified_key_codec :=
  revalidate _ _ (λ _, unverified_key_wf) unverified_key_valid.
#[export] Typeclasses Opaque unverified_key_codec.

#[export] Instance public_key_fields : PartialFieldsOf id public_key_try_from (λ k, vk_is_weak k = false).
Proof. unfold public_key_try_from. split; [intros v Hv; cbn; by rewrite Hv|]. intros r v. case_match; naive_solver. Qed.

Lemma public_key_valid c k : valid public_key_codec c k ↔ public_key_wf k.
Proof. unfold public_key_wf. cbn. tauto. Qed.

#[export] Instance public_key_canonical : CanonicalCodec public_key_codec :=
  revalidate _ _ (λ _, public_key_wf) public_key_valid.
#[export] Typeclasses Opaque public_key_codec.

#[export] Instance transfer_fields_of : FieldsOf transfer_fields transfer_build.
Proof. split; by intros []. Qed.
#[export] Instance channel_withdraw_fields_of : FieldsOf channel_withdraw_fields channel_withdraw_build.
Proof. split; by intros []. Qed.
#[export] Instance withdraw_fields_of : FieldsOf withdraw_fields withdraw_build.
Proof. split; by intros []. Qed.
#[export] Instance deposit_fields_of : FieldsOf deposit_fields deposit_build.
Proof. split; [by intros []|by intros [? []]]. Qed.
#[export] Instance channel_transfer_fields_of : FieldsOf channel_transfer_fields channel_transfer_build.
Proof. split; [by intros []|by intros [? []]]. Qed.
#[export] Instance leader_claim_fields_of : FieldsOf leader_claim_fields leader_claim_build.
Proof. split; [by intros []|by intros [? []]]. Qed.
#[export] Instance claim_pow_fields_of : FieldsOf claim_pow_fields claim_pow_build.
Proof. split; [by intros []|by intros [? []]]. Qed.
#[export] Instance active_fields_of : FieldsOf active_fields active_build.
Proof. split; [by intros []|by intros [? []]]. Qed.
#[export] Instance inscription_fields_of : FieldsOf inscription_fields inscription_build.
Proof. split; [by intros []|by intros [? [? []]]]. Qed.
#[export] Instance activity_proof_fields_of : FieldsOf activity_proof_fields activity_proof_build.
Proof. split; [by intros []|by intros [? [? []]]]. Qed.
#[export] Instance declaration_fields_of : FieldsOf declaration_fields declaration_build.
Proof. split; [by intros []|by intros [? [? [? []]]]]. Qed.

Lemma activity_proof_valid c p : valid activity_proof_codec c p ↔ activity_proof_wf p.
Proof.
  destruct p. unfold activity_proof_wf, in_u32, u32_max, activity_proof_codec.
  cbn [valid struct_canonical field_pair_canonical activity_proof_fields fst snd public_key_canonical quota_canonical
    selection_canonical revalidate le_integer_canonical ap_epoch ap_signing_key ap_proof_of_quota ap_selection_randomness].
  change (256 ^ Z.of_nat 4) with 4294967296. split; intros (? & ? & ? & ?); split_and!; (done || lia).
Qed.

#[export] Instance activity_proof_canonical : CanonicalCodec activity_proof_codec :=
  revalidate _ _ (λ _, activity_proof_wf) activity_proof_valid.
#[export] Typeclasses Opaque activity_proof_codec.

#[export] Program Instance activity_metadata_canonical : CanonicalCodec activity_metadata_codec := {|
  valid _ m := activity_proof_wf (blend_proof m);
  bytes m := byte_of 1 :: bytes activity_proof_codec (blend_proof m)
|}.
Next Obligation.
  intros E [] [p] Hp. change (valid activity_proof_codec tt p) in Hp. cbn [encode activity_metadata_codec].
  by rewrite (encode_ok tt p Hp).
Qed.
Next Obligation.
  intros E [] [p] Hp Hle. change (valid activity_proof_codec tt p) in Hp. cbn [encoded_length activity_metadata_codec]. cbn [length blend_proof] in *.
  rewrite (encoded_length_ok tt p Hp) by lia. cbn [mbind result_bind encoded_length u8_codec le_integer].
  apply strict_add_ok. lia.
Qed.
Next Obligation.
  intros [] [p] rest Hp. change (valid activity_proof_codec tt p) in Hp. cbn [decode activity_metadata_codec app].
  change (byte_of 1 :: ?l) with (to_le_bytes 1 1 ++ l). unfold u8_codec. rewrite le_decode by done.
  change (1 =? ACTIVE_METADATA_BLEND_TYPE) with true. cbn [mbind result_bind blend_proof].
  by rewrite (decode_encode tt p rest Hp).
Qed.
Next Obligation.
  intros [] input rest m Hd. cbn [decode activity_metadata_codec] in Hd. apply result_bind_ok in Hd as ([r z] & Hz & Hd).
  apply le_decode_sound in Hz as [_ ->]. unfold ACTIVE_METADATA_BLEND_TYPE in Hd. destruct (Z.eqb_spec z 1) as [Hz|]; [|done]. rewrite Hz.
  apply result_bind_ok in Hd as ([r' p] & Hp & Hd). injection Hd as <- <-. by apply decode_sound in Hp as [? ->].
Qed.
Next Obligation.
  intros [] input f. cbn [decode activity_metadata_codec]. apply bind_no_fault; [apply (decode_no_fault (cd:=u8_codec))|].
  intros [r z] _. case_match; [|done]. apply bind_no_fault; [apply decode_no_fault|]. by intros [].
Qed.
#[export] Typeclasses Opaque activity_metadata_codec.

#[export] Instance channel_config_fields_of : PartialFieldsOf channel_config_fields channel_config_new
  (λ o, c_configuration_threshold o <= Z.of_nat (length (c_keys o))).
Proof.
  split.
  - intros [] Hk. cbn in *. by rewrite (proj2 (Z.ltb_ge _ _)).
  - intros (c & p & ks & tf & tout & ct & tr) v. cbn. destruct (Z.ltb_spec (Z.of_nat (length ks)) ct); [done|].
    by intros [= <-].
Qed.

Lemma public_key_consuming max l : Forall public_key_wf l → consuming public_key_codec max l.
Proof.
  intros Hl. right. eapply Forall_impl; [exact Hl|]. intros k [[Hk _] _] Hb. cbn in Hb.
  unfold all_bytes in Hb. by destruct k.
Qed.

Lemma channel_config_valid c o : valid channel_config_codec c o ↔ channel_config_wf o.
Proof.
  destruct c, o as [ch p ks tf tout ct tr].
  unfold channel_config_wf, in_u32, u32_max, u16_max, channel_config_codec, channel_config_fields.
  cbn [valid try_from_canonical try_from_canonical_on field_pair_canonical fst snd bounded_vec_canonical prefixed_canonical
    revalidate bytes32_canonical public_key_canonical le_integer_canonical non_zero_canonical c_channel c_parent c_keys
    c_posting_timeframe c_posting_timeout c_configuration_threshold c_transfer_threshold].
  change (256 ^ Z.of_nat 4) with 4294967296. change (256 ^ Z.of_nat 2) with 65536. unfold CHANNEL_MAX_KEYS, u16_max.
  pose proof (public_key_consuming 65535 ks). split.
  - intros (? & ? & ? & (? & ? & ?) & ? & ? & ? & ?). split_and!; (done || lia).
  - intros (? & ? & ? & ? & ? & ? & ? & ?). split_and!; (auto || lia).
Qed.

#[export] Instance channel_config_canonical : CanonicalCodec channel_config_codec :=
  revalidate _ _ (λ _, channel_config_wf) channel_config_valid.

Context `{MultiaddrCrate}.

#[export] Instance locator_fields_of : PartialFieldsOf id locator_try_from locator_wf.
Proof.
  unfold locator_try_from, locator_wf. split.
  - intros v (Hlen & ps & Hps & Hok). cbn. rewrite Hps, (proj2 (Z.ltb_ge _ _)) by done.
    destruct (existsb _ ps) eqn:He; [|done]. apply existsb_exists in He as (q & Hq & Hr).
    rewrite Forall_forall in Hok. rewrite Hok in Hr; [done|]. by apply list_elem_of_In.
  - intros r v. destruct (multiaddr_parse r) as [ps|] eqn:Hps; [|done].
    destruct (Z.ltb_spec MAX_LOCATOR_BYTE_SIZE (Z.of_nat (length r))); [done|].
    destruct (existsb protocol_rejected ps) eqn:He; [done|]. intros [= <-]. split; [|done]. split; [done|].
    exists ps. split; [done|]. apply Forall_forall. intros q Hq. apply not_true_iff_false. intros Hr.
    apply not_true_iff_false in He. apply He, existsb_exists. exists q. by rewrite <- list_elem_of_In.
Qed.

Lemma locator_valid c l : valid locator_codec c l ↔ locator_wf l.
Proof.
  destruct c. unfold locator_codec. cbn [valid try_from_canonical try_from_canonical_on bounded_vec_canonical prefixed_canonical id].
  split; [tauto|]. intros Hl. pose proof (byte_valid_all l). pose proof (byte_consuming MAX_LOCATOR_BYTE_SIZE l).
  destruct Hl as [Hl ?]. split_and!; (done || lia).
Qed.

#[export] Instance locator_canonical : CanonicalCodec locator_codec := revalidate _ _ (λ _, locator_wf) locator_valid.
#[export] Typeclasses Opaque locator_codec.

(** ** [Op] *)

#[export] Instance inscription_canonical : CanonicalCodec inscription_codec := _.
#[export] Instance deposit_canonical : CanonicalCodec deposit_codec := _.
#[export] Instance channel_withdraw_canonical : CanonicalCodec channel_withdraw_codec := _.
#[export] Instance channel_transfer_canonical : CanonicalCodec channel_transfer_codec := _.
#[export] Instance declaration_canonical : CanonicalCodec declaration_codec := _.
#[export] Instance withdraw_canonical : CanonicalCodec withdraw_codec := _.
#[export] Instance active_canonical : CanonicalCodec active_codec := _.
#[export] Instance leader_claim_canonical : CanonicalCodec leader_claim_codec := _.
#[export] Instance transfer_canonical : CanonicalCodec transfer_codec := _.
#[export] Instance claim_pow_canonical : CanonicalCodec claim_pow_codec := _.

Definition payload_valid (max : Z) (op : Op) : Prop :=
  match op with
  | ChannelInscribe op => valid inscription_codec max op
  | ChannelConfig op => valid channel_config_codec tt op
  | ChannelDeposit op => valid deposit_codec max op
  | ChannelWithdraw op => valid channel_withdraw_codec tt op
  | ChannelTransfer op => valid channel_transfer_codec tt op
  | SDPDeclare op => valid declaration_codec tt op
  | SDPWithdraw op => valid withdraw_codec tt op
  | SDPActive op => valid active_codec tt op
  | LeaderClaim op => valid leader_claim_codec tt op
  | Transfer op => valid transfer_codec tt op
  | ClaimPowReward op => valid claim_pow_codec tt op
  end.

Definition payload_bytes (op : Op) : list byte :=
  match op with
  | ChannelInscribe op => bytes inscription_codec op
  | ChannelConfig op => bytes channel_config_codec op
  | ChannelDeposit op => bytes deposit_codec op
  | ChannelWithdraw op => bytes channel_withdraw_codec op
  | ChannelTransfer op => bytes channel_transfer_codec op
  | SDPDeclare op => bytes declaration_codec op
  | SDPWithdraw op => bytes withdraw_codec op
  | SDPActive op => bytes active_codec op
  | LeaderClaim op => bytes leader_claim_codec op
  | Transfer op => bytes transfer_codec op
  | ClaimPowReward op => bytes claim_pow_codec op
  end.

Lemma payload_valid_wf max op : payload_valid max op ↔ op_wf max op.
Proof.
  destruct op as [[]|[]|[]|[]|[]|[[]]|[]|[]|[]|[]|[]]; cbn [payload_valid op_wf]; unfold locators_wf; cbn; unfold in_fr; tauto.
Qed.

Lemma op_payload_ok {E} max op : payload_valid max op → op_payload (E:=E) op = Ok (payload_bytes op).
Proof. destruct op; cbn [payload_valid op_payload payload_bytes]; apply encode_ok. Qed.

Lemma op_payload_length_ok {E} max op : payload_valid max op → Z.of_nat (length (payload_bytes op)) <= usize_max →
  op_payload_length (E:=E) op = Ok (Z.of_nat (length (payload_bytes op))).
Proof. destruct op; cbn [payload_valid op_payload_length payload_bytes]; apply encoded_length_ok. Qed.

Lemma decode_payload_encode max op rest : payload_valid max op →
  decode_payload (op_code op) (payload_bytes op ++ rest) max = Ok (rest, op).
Proof.
  destruct op; cbn [payload_valid op_code payload_bytes]; intros Hv; unfold decode_payload; cbn [Z.eqb Pos.eqb];
    by rewrite (decode_encode _ _ _ Hv).
Qed.

Lemma map_op_sound {C T} (cd : Codec C T) `{!CanonicalCodec cd} (f : T → Op) c input rest op :
  map_op f (decode cd input c) = Ok (rest, op) → ∃ v, op = f v ∧ valid cd c v ∧ input = bytes cd v ++ rest.
Proof.
  unfold map_op. intros Hd. apply result_bind_ok in Hd as ([r v] & Hv & Hd). injection Hd as <- <-.
  apply decode_sound in Hv. eauto.
Qed.

Lemma map_op_no_fault {C T} (cd : Codec C T) `{!CanonicalCodec cd} (g : T → Op) c input f :
  map_op g (decode cd input c) ≠ Fault f.
Proof. unfold map_op. apply bind_no_fault; [apply decode_no_fault|]. by intros []. Qed.

Lemma decode_payload_sound code max input rest op : decode_payload code input max = Ok (rest, op) →
  code = op_code op ∧ payload_valid max op ∧ input = payload_bytes op ++ rest.
Proof.
  unfold decode_payload. intros Hd.
  repeat match type of Hd with (if ?x =? ?n then _ else _) = _ =>
    destruct (Z.eqb_spec x n); [apply (map_op_sound _) in Hd as (v & -> & Hv & ->); auto|]
  end. done.
Qed.

Lemma decode_payload_no_fault code max input f : decode_payload code input max ≠ Fault f.
Proof. unfold decode_payload. repeat (destruct (_ =? _); [apply (map_op_no_fault _)|]). done. Qed.

Lemma op_code_range op : 0 <= op_code op < 256.
Proof. destruct op; cbn; lia. Qed.

#[export] Program Instance op_canonical : CanonicalCodec op_codec := {|
  valid := op_wf; bytes op := to_le_bytes 1 (op_code op) ++ payload_bytes op
|}.
Next Obligation.
  intros E max op Hv%payload_valid_wf. cbn [encode op_codec]. unfold u8_codec. cbn [encode le_integer mbind result_bind].
  by rewrite (op_payload_ok max op Hv).
Qed.
Next Obligation.
  intros E max op Hv%payload_valid_wf Hle. cbn [encoded_length op_codec]. unfold u8_codec.
  cbn beta in *. rewrite length_app, to_le_bytes_length in Hle |- *. cbn [encoded_length le_integer mbind result_bind].
  rewrite (op_payload_length_ok max op Hv) by lia. cbn [mbind result_bind]. apply expect_ok, checked_add_Some. lia.
Qed.
Next Obligation.
  intros max op rest Hv%payload_valid_wf. cbn [decode op_codec]. unfold u8_codec. rewrite <- app_assoc.
  rewrite le_decode by apply op_code_range. cbn [mbind result_bind]. by apply decode_payload_encode.
Qed.
Next Obligation.
  intros max input rest op Hd. cbn [decode op_codec] in Hd. apply result_bind_ok in Hd as ([r z] & Hz & Hd).
  apply le_decode_sound in Hz as [_ ->]. apply decode_payload_sound in Hd as (-> & Hv%payload_valid_wf & ->).
  by rewrite <- app_assoc.
Qed.
Next Obligation.
  intros max input f. cbn [decode op_codec]. apply bind_no_fault; [apply (decode_no_fault (cd:=u8_codec))|].
  intros [r z] _. apply decode_payload_no_fault.
Qed.

(** A well-formed operation, encoded and followed by anything, decodes to
    itself and leaves the rest; the announced length is that of the bytes. *)
Theorem op_roundtrip {E} max op : op_wf max op → ∃ bs,
  encode op_codec (E:=E) op = Ok bs ∧
  (Z.of_nat (length bs) <= usize_max → encoded_length op_codec (E:=E) op = Ok (Z.of_nat (length bs))) ∧
  ∀ rest, decode op_codec (bs ++ rest) max = Ok (rest, op).
Proof.
  intros Hwf. exists (bytes op_codec op). split; [by apply (encode_ok max)|].
  split; [by apply (encoded_length_ok max)|]. intros rest. by apply decode_encode.
Qed.

(** Decoding an operation never panics, whatever the input, and what it
    accepts is a well-formed operation whose one encoding is the consumed bytes:
    no two byte strings carry the same operation. *)
Theorem op_decode_canonical {E} max input :
  match decode op_codec input max with
  | Ok (rest, op) => op_wf max op ∧ ∃ bs, encode op_codec (E:=E) op = Ok bs ∧ input = bs ++ rest
  | Err _ => True
  | Fault _ => False
  end.
Proof.
  destruct (decode op_codec input max) as [[rest op]|e|f] eqn:Hd; [|done|by apply decode_no_fault in Hd].
  apply decode_sound in Hd as [Hv Hi]. split; [done|]. exists (bytes op_codec op). split; [by apply (encode_ok max)|done].
Qed.

End Instances.

(** A B-tree map is accepted exactly when the bytes are the encoding of its
    entries and these are within the bounds and in strictly ascending key order;
    so a map has one accepted encoding. *)
Theorem btree_map_canonical {C1 C2 K V E} cmp MIN MAX (ck : Codec C1 K) (cv : Codec C2 V)
    `{!CanonicalCodec ck, !CanonicalCodec cv, !EncodableMax MAX} input c l :
  decode_all (bounded_btree_map cmp MIN MAX ck cv) input c = Ok l ↔
  MIN <= Z.of_nat (length l) <= MAX ∧ ascending cmp l.*1 ∧
  Forall (λ kv, valid ck c.1 kv.1 ∧ valid cv c.2 kv.2) l ∧
  encode (bounded_btree_map cmp MIN MAX ck cv) (E:=E) l = Ok input.
Proof.
  assert (valid (bounded_btree_map cmp MIN MAX ck cv) c l ↔ MIN <= Z.of_nat (length l) <= MAX ∧ ascending cmp l.*1 ∧
    Forall (λ kv, valid ck c.1 kv.1 ∧ valid cv c.2 kv.2) l) as Hval by (cbn; tauto).
  split.
  - intros Hd. apply (decode_all_sound (bounded_btree_map cmp MIN MAX ck cv)) in Hd as [Hv ->]. pose proof (proj1 Hval Hv). split_and!; [tauto..|].
    by apply (encode_ok c).
  - intros (Hb & Ha & Hf & He). assert (valid (bounded_btree_map cmp MIN MAX ck cv) c l) as Hv by tauto.
    rewrite (encode_ok c l Hv) in He. apply Ok_inj in He as <-. by apply (decode_all_encode (bounded_btree_map cmp MIN MAX ck cv)).
Qed.

End OpsCodec.

(** * Operations on the wire: the repository's vectors, and the codec theorems at
    concrete operations

    The examples are the fixtures of core/src/mantle/fixtures/ops. *)

Import Canonical Ops OpsCodec.

#[local] Open Scope Z_scope.

Module OpsWitness.

(** A key is a byte string that does not start with 0xff, weak if all its bytes
    are zero; an address is any byte string of two bytes, read as a TCP port. *)
#[local] Instance toy_ed25519 : Ed25519Crate := {|
  vk_valid k := match k with b :: _ => negb (byte_val b =? 255) | [] => false end;
  vk_is_weak k := forallb (λ b, byte_val b =? 0) k
|}.

#[local] Instance toy_multiaddr : MultiaddrCrate := {|
  multiaddr_parse b := match b with [lo; hi] => Some [Tcp (from_le_bytes b)] | _ => None end
|}.

(** Bytes written in hexadecimal. *)
Definition nibble (a : ascii) : N :=
  let n := N_of_ascii a in if (n <? 97)%N then (n - 48)%N else (n - 87)%N.

Fixpoint hex (s : string) : list byte :=
  match s with
  | String a (String b s) => default x00 (Byte.of_N (16 * nibble a + nibble b)) :: hex s
  | _ => []
  end.

(** A payload encodes to the bytes and decodes from them. *)
Definition fixture {C T} (cd : Codec C T) (c : C) (v : T) (s : string) : Prop :=
  encode cd (E:=DecodeError) v = Ok (hex s) ∧ decode_all cd (hex s) c = Ok v.

Example transfer_fixtures :
  fixture transfer_codec tt (mkTransfer [] []) "0000" ∧
  fixture transfer_codec tt (mkTransfer [1] [])
    "01010000000000000000000000000000000000000000000000000000000000000000" ∧
  fixture transfer_codec tt (mkTransfer [] [mkNote 0 0])
    "000100000000000000000000000000000000000000000000000000000000000000000000000000000000" ∧
  fixture transfer_codec tt (mkTransfer [0] [mkNote 0 1])
    "0100000000000000000000000000000000000000000000000000000000000000000100000000000000000100000000000000000000000000000000000000000000000000000000000000".
Proof. split_and!; split; vm_compute; reflexivity. Qed.

Example channel_config_fixture :
  fixture channel_config_codec tt (mkChannelConfig root root [replicate 32 x01] 0 0 1 1)
    "0000000000000000000000000000000000000000000000000000000000000000000000000000000000000000000000000000000000000000000000000000000001000101010101010101010101010101010101010101010101010101010101010101000000000000000001000100".
Proof. split; vm_compute; reflexivity. Qed.

Example inscription_fixture :
  fixture inscription_codec u32_max (mkInscription root (hex "67656e65736973") root root)
    "00000000000000000000000000000000000000000000000000000000000000000700000067656e6573697300000000000000000000000000000000000000000000000000000000000000000000000000000000000000000000000000000000000000000000000000000000".
Proof. split; vm_compute; reflexivity. Qed.

Example channel_fixtures :
  fixture deposit_codec u32_max (mkDeposit root [] [])
    "00000000000000000000000000000000000000000000000000000000000000000000000000" ∧
  fixture channel_withdraw_codec tt (mkChannelWithdraw root [])
    "000000000000000000000000000000000000000000000000000000000000000000" ∧
  fixture channel_transfer_codec tt (mkChannelTransfer root [] [])
    "00000000000000000000000000000000000000000000000000000000000000000000".
Proof. split_and!; split; vm_compute; reflexivity. Qed.

Example claim_fixtures :
  fixture leader_claim_codec tt (mkLeaderClaim 0 1 0)
    "000000000000000000000000000000000000000000000000000000000000000001000000000000000000000000000000000000000000000000000000000000000000000000000000000000000000000000000000000000000000000000000000" ∧
  fixture claim_pow_codec tt (mkClaimPowReward 0 (replicate 32 x01) 2)
    "000000000000000000000000000000000000000000000000000000000000000001010101010101010101010101010101010101010101010101010101010101010200000000000000000000000000000000000000000000000000000000000000".
Proof. split_and!; split; vm_compute; reflexivity. Qed.

Definition config_op : Op := ChannelConfig (mkChannelConfig root root [replicate 32 x01] 7 9 1 2).

Lemma op_roundtrip_witness : op_wf 1024 config_op ∧ ∃ bs,
  encode op_codec (E:=DecodeError) config_op = Ok bs ∧
  (Z.of_nat (length bs) <= usize_max →
    encoded_length op_codec (E:=DecodeError) config_op = Ok (Z.of_nat (length bs))) ∧
  ∀ rest, decode op_codec (bs ++ rest) 1024 = Ok (rest, config_op).
Proof.
  assert (op_wf 1024 config_op) as Hwf.
  { unfold config_op, op_wf, channel_config_wf, in_u32, u32_max, u16_max, CHANNEL_MAX_KEYS, u16_max. cbn.
    split_and!; try lia; repeat constructor. }
  split; [exact Hwf|]. exact (op_roundtrip 1024 config_op Hwf).
Defined.

(** Keys are bytes, values are [u16]s. *)
Definition small_map : list (Z * Z) := [(1, 500); (7, 2)].

Lemma btree_map_canonical_witness :
  decode_all (bounded_btree_map Z.compare 0 3 u8_codec u16_codec) (hex "0201f401070200") (tt, tt) = Ok small_map ∧
  encode (bounded_btree_map Z.compare 0 3 u8_codec u16_codec) (E:=DecodeError) small_map = Ok (hex "0201f401070200").
Proof.
  assert (decode_all (bounded_btree_map Z.compare 0 3 u8_codec u16_codec) (hex "0201f401070200") (tt, tt) = Ok small_map) as Hd
    by reflexivity.
  split; [exact Hd|].
  exact (proj2 (proj2 (proj2 (proj1 (btree_map_canonical Z.compare 0 3 u8_codec u16_codec
    (hex "0201f401070200") (tt, tt) small_map) Hd)))).
Defined.

End OpsWitness.
