(* ===== verification/Channels.v ===== *)
(** * Channels

    core/src/mantle/channel_notes.rs and core/src/mantle/channel.rs: the notes
    owned by channels, the state of a channel, and the rotation of the
    sequencers that may post to it. The last section shows that the rotation
    always names an accredited key and that the next boundary is exact. *)

From S2P Require Import Prelude Ops.

#[local] Open Scope Z_scope.

Module Channels.
Import Ops.

(** ** Channel notes *)

(** [channel_notes::Error]. *)
Inductive ChannelNotesError :=
  | NotInChannel (note_id : NoteId)
  | NotAChannelNoteOf (note_id : NoteId) (channel_id : ChannelId)
  | AlreadyAChannelNote (note_id : NoteId) (channel_id : ChannelId).

(** [ChannelNotes]. *)
Notation ChannelNotes := (gmap NoteId ChannelId) (only parsing).

(** [ChannelNotes::contains] and [is_a_channel]. *)
Definition channel_notes_contains (c : ChannelNotes) (id : NoteId) : bool := bool_decide (is_Some (c !! id)).

Definition is_a_channel (c : ChannelNotes) (note_id : NoteId) (channel_id : ChannelId) : bool :=
  bool_decide (c !! note_id = Some channel_id).

Definition into_channel (c : ChannelNotes) (note_id : NoteId) (channel_id : ChannelId)
    : result ChannelNotesError ChannelNotes :=
  match c !! note_id with
  | Some channel => Err (AlreadyAChannelNote note_id channel)
  | None => Ok (<[note_id := channel_id]> c)
  end.

Definition into_bedrock (c : ChannelNotes) (note_id : NoteId) (channel_id : ChannelId)
    : result ChannelNotesError ChannelNotes :=
  match c !! note_id with
  | Some channel =>
      if bool_decide (channel = channel_id) then Ok (delete note_id c)
      else Err (NotAChannelNoteOf note_id channel_id)
  | None => Err (NotInChannel note_id)
  end.

(** ** State *)

Record ChannelState := mkChannel {
  accredited_keys : list Ed25519Key;
  configuration_threshold : Z;
  tip_message : MsgId;
  config_tip_hash : MsgId;
  tip_slot : Z;
  tip_sequencer : Z;
  tip_sequencer_starting_slot : Z;
  posting_timeframe : Z;
  posting_timeout : Z;
  transfer_threshold : Z
}.

Record Channels := mkChannels { channels : gmap ChannelId ChannelState; channel_notes : ChannelNotes }.

Definition DEFAULT_TRANSFER_THRESHOLD : Z := 1.

(** [Channels::new]. *)
Definition new_channels : Channels := mkChannels ∅ ∅.

(** [ThresholdSource for Channels]. *)
Definition configuration_threshold_of (c : Channels) (id : ChannelId) : Z :=
  from_option configuration_threshold 0 (channels c !! id).

Definition transfer_threshold_of (c : Channels) (id : ChannelId) : Z :=
  from_option transfer_threshold 0 (channels c !! id).

Definition is_channel_note (c : Channels) (note_id : NoteId) : bool :=
  channel_notes_contains (channel_notes c) note_id.

Definition is_channel_note_of (c : Channels) (note_id : NoteId) (channel_id : ChannelId) : bool :=
  is_a_channel (channel_notes c) note_id channel_id.

Definition register_channel_note (c : Channels) (note_id : NoteId) (channel_id : ChannelId)
    : result ChannelNotesError Channels :=
  n ← into_channel (channel_notes c) note_id channel_id; Ok (mkChannels (channels c) n).

Definition unregister_channel_note (c : Channels) (note_id : NoteId) (channel_id : ChannelId)
    : result ChannelNotesError Channels :=
  n ← into_bedrock (channel_notes c) note_id channel_id; Ok (mkChannels (channels c) n).

(** ** Sequencing *)

(** [ChannelState::round_robin]: the sequencer whose turn it is at a slot, and
    the slot its turn started at. The timeout rotation comes first. *)
Definition round_robin {E} (c : ChannelState) (block_slot : Z) : result E (Z * Z) :=
  let elapsed_slot_since_last_tip := saturating_sub block_slot (tip_slot c) in
  let tip_sequencer_duration := saturating_sub block_slot (tip_sequencer_starting_slot c) in
  let num_sequencers := Z.of_nat (length (accredited_keys c)) in
  let is_timed_out := (posting_timeout c <=? elapsed_slot_since_last_tip) && negb (posting_timeout c =? 0) in
  let sequencers_timed_out := checked_div elapsed_slot_since_last_tip (posting_timeout c) in
  let timeframe_elapsed := checked_div tip_sequencer_duration (posting_timeframe c) in
  let by_timeout := if is_timed_out then sequencers_timed_out else None in
  index ← match match by_timeout with Some n => Some n | None => timeframe_elapsed end with
          | Some turns => s ← strict_add u64_max (tip_sequencer c) turns; i ← rem_ s num_sequencers; Ok (i mod 65536)
          | None => Ok (tip_sequencer c)
          end;
  starting_slot ← match by_timeout with
                  | Some n => d ← strict_mul u64_max n (posting_timeout c); strict_add u64_max (tip_slot c) d
                  | None => match timeframe_elapsed with
                            | Some n => d ← strict_mul u64_max n (posting_timeframe c);
                                        strict_add u64_max (tip_sequencer_starting_slot c) d
                            | None => Ok (tip_sequencer_starting_slot c)
                            end
                  end;
  Ok (index, starting_slot).

(** The closure of [next_round_robin_boundary]. *)
Definition next_on_grid (current anchor period : Z) : option Z :=
  if period =? 0 then None
  else
    let periods_elapsed := saturating_sub current anchor / period in
    n ← checked_add u64_max periods_elapsed 1;
    d ← checked_mul u64_max n period;
    checked_add u64_max anchor d.

(** [Iterator::min] of the two optional candidates. *)
Definition option_min (a b : option Z) : option Z :=
  match a, b with
  | Some x, Some y => Some (Z.min x y)
  | Some x, None => Some x
  | None, o => o
  end.

(** [ChannelState::next_round_robin_boundary]. *)
Definition next_round_robin_boundary (c : ChannelState) (slot : Z) : option Z :=
  let by_timeout := next_on_grid slot (tip_slot c) (posting_timeout c) in
  let timed_out := negb (posting_timeout c =? 0) &&
                   (posting_timeout c <=? saturating_sub slot (tip_slot c)) in
  if timed_out then by_timeout
  else option_min (next_on_grid slot (tip_sequencer_starting_slot c) (posting_timeframe c)) by_timeout.

(** ** Well-formed channels *)

(** What every reachable channel satisfies at the slots it has seen. *)
Record channel_wf (now : Z) (c : ChannelState) : Prop := {
  cw_keys : 0 < Z.of_nat (length (accredited_keys c)) <= u16_max;
  cw_sequencer : 0 <= tip_sequencer c < Z.of_nat (length (accredited_keys c));
  cw_start : 0 <= tip_sequencer_starting_slot c <= tip_slot c;
  cw_tip : tip_slot c <= now;
  cw_timeframe : in_u32 (posting_timeframe c);
  cw_timeout : in_u32 (posting_timeout c)
}.

Lemma channel_wf_mono now now' c : channel_wf now c → now <= now' → channel_wf now' c.
Proof. intros [] ?. constructor; [done|done|done|lia|done|done]. Qed.

(** The rotation, in closed form: the period in force, the slot it counts from
    and the turns elapsed. *)
Definition timed_out (c : ChannelState) (slot : Z) : Prop :=
  posting_timeout c ≠ 0 ∧ posting_timeout c <= slot - tip_slot c.

(** Slots below this leave room for the turn counter to be added to an index. *)
Definition slot_bound : Z := u64_max - u16_max.

Lemma div_bounds a b : 0 <= a → 0 < b → 0 <= a / b ∧ b * (a / b) <= a < b * (a / b) + b.
Proof.
  intros Ha Hb. pose proof (Z.div_mod a b ltac:(lia)). pose proof (Z.mod_pos_bound a b Hb).
  pose proof (Z.div_pos a b Ha Hb). lia.
Qed.

(** The turn after [n] periods of length [p] counted from [start]. *)
Definition turn (c : ChannelState) (n start p : Z) : Z * Z :=
  ((tip_sequencer c + n) mod Z.of_nat (length (accredited_keys c)), start + n * p).

Lemma index_ok {E} c now n : channel_wf now c → 0 <= n <= slot_bound →
  (s ← strict_add u64_max (tip_sequencer c) n; i ← rem_ s (Z.of_nat (length (accredited_keys c))); Ok (i mod 65536))
  = Ok (E:=E) ((tip_sequencer c + n) mod Z.of_nat (length (accredited_keys c))).
Proof.
  intros [Hk Hs _ _ _ _] Hn. unfold slot_bound, u64_max, u16_max in *.
  unfold strict_add, checked_add, rem_. rewrite (proj2 (Z.leb_le _ _)) by (unfold u64_max; lia).
  cbn [mbind result_bind]. rewrite (proj2 (Z.eqb_neq _ _)) by lia. cbn [mbind result_bind].
  rewrite (Z.mod_small _ 65536); [done|].
  pose proof (Z.mod_pos_bound (tip_sequencer c + n) (Z.of_nat (length (accredited_keys c))) ltac:(lia)). lia.
Qed.

Lemma start_ok {E} anchor n p : 0 <= n → 0 <= p → 0 <= anchor → anchor + n * p <= u64_max →
  (d ← strict_mul u64_max n p; strict_add u64_max anchor d) = Ok (E:=E) (anchor + n * p).
Proof.
  intros. unfold strict_mul, checked_mul, strict_add, checked_add.
  rewrite (proj2 (Z.leb_le (n * p) _)) by nia. cbn [mbind result_bind].
  by rewrite (proj2 (Z.leb_le _ _)) by lia.
Qed.

Ltac wf_bounds H := pose proof (cw_keys _ _ H); pose proof (cw_sequencer _ _ H); pose proof (cw_start _ _ H);
  pose proof (cw_tip _ _ H); pose proof (cw_timeframe _ _ H); pose proof (cw_timeout _ _ H);
  unfold in_u32, slot_bound, u64_max, u32_max, u16_max in *.

Ltac slot_lia := unfold in_u32, slot_bound, u64_max, u32_max, u16_max in *; lia.

Lemma timed_out_test c slot : 0 <= slot - tip_slot c →
  (posting_timeout c <=? saturating_sub slot (tip_slot c)) && negb (posting_timeout c =? 0)
  = bool_decide (timed_out c slot).
Proof.
  intros Hs. unfold saturating_sub, timed_out. rewrite Z.max_r by lia.
  destruct (Z.leb_spec (posting_timeout c) (slot - tip_slot c)), (Z.eqb_spec (posting_timeout c) 0);
    case_bool_decide; naive_solver lia.
Qed.

(** The three regimes of the rotation. *)
Lemma round_robin_timeout {E} c now slot : channel_wf now c → now <= slot <= slot_bound → timed_out c slot →
  round_robin (E:=E) c slot
  = Ok (turn c ((slot - tip_slot c) / posting_timeout c) (tip_slot c) (posting_timeout c)).
Proof.
  intros Hwf Hs Hto. wf_bounds Hwf. pose proof (proj1 Hto).
  pose proof (div_bounds (slot - tip_slot c) (posting_timeout c) ltac:(lia) ltac:(lia)).
  unfold round_robin. rewrite timed_out_test, bool_decide_true by (done || lia).
  unfold saturating_sub, checked_div. rewrite Z.max_r, (proj2 (Z.eqb_neq (posting_timeout c) 0)) by lia.
  rewrite (index_ok c now) by (done || unfold slot_bound, u64_max, u16_max; nia).
  cbn [mbind result_bind]. by rewrite start_ok by (unfold u64_max; nia).
Qed.

Lemma round_robin_timeframe {E} c now slot : channel_wf now c → now <= slot <= slot_bound → ¬ timed_out c slot →
  posting_timeframe c ≠ 0 →
  round_robin (E:=E) c slot
  = Ok (turn c ((slot - tip_sequencer_starting_slot c) / posting_timeframe c) (tip_sequencer_starting_slot c)
          (posting_timeframe c)).
Proof.
  intros Hwf Hs Hto Hnz. wf_bounds Hwf.
  pose proof (div_bounds (slot - tip_sequencer_starting_slot c) (posting_timeframe c) ltac:(lia) ltac:(lia)).
  unfold round_robin. rewrite timed_out_test, bool_decide_false by (done || lia).
  unfold saturating_sub, checked_div. rewrite !Z.max_r, (proj2 (Z.eqb_neq (posting_timeframe c) 0)) by lia.
  rewrite (index_ok c now) by (done || unfold slot_bound, u64_max, u16_max; nia).
  cbn [mbind result_bind]. by rewrite start_ok by (unfold u64_max; nia).
Qed.

Lemma round_robin_fixed {E} c now slot : channel_wf now c → now <= slot <= slot_bound → ¬ timed_out c slot →
  posting_timeframe c = 0 →
  round_robin (E:=E) c slot = Ok (tip_sequencer c, tip_sequencer_starting_slot c).
Proof.
  intros Hwf Hs Hto Hz. wf_bounds Hwf. unfold round_robin.
  rewrite timed_out_test, bool_decide_false, Hz by (done || lia). done.
Qed.

(** ** The grid *)

Lemma next_on_grid_spec current anchor period :
  0 <= anchor <= current → current <= slot_bound → in_u32 period →
  match next_on_grid current anchor period with
  | Some b => period ≠ 0 ∧ b = anchor + ((current - anchor) / period + 1) * period ∧ current < b
  | None => period = 0 ∨ slot_bound < anchor + ((current - anchor) / period + 1) * period
  end.
Proof.
  intros Ha Hc Hp. unfold in_u32, slot_bound, u64_max, u16_max, u32_max in *.
  unfold next_on_grid, saturating_sub. destruct (Z.eqb_spec period 0) as [->|Hnz]; [by left|].
  rewrite Z.max_r by lia. pose proof (div_bounds (current - anchor) period ltac:(lia) ltac:(lia)).
  set (q := (current - anchor) / period) in *. unfold checked_add, checked_mul.
  rewrite (proj2 (Z.leb_le (q + 1) _)) by (unfold u64_max; nia). cbn [mbind option_bind].
  destruct (Z.leb_spec ((q + 1) * period) u64_max); cbn [mbind option_bind];
    [|right; unfold u64_max in *; lia].
  destruct (Z.leb_spec (anchor + (q + 1) * period) u64_max);
    [|right; unfold u64_max in *; lia].
  split; [done|]. split; [done|]. nia.
Qed.

Lemma grid_same current anchor period s :
  0 < period → anchor <= current <= s → s < anchor + ((current - anchor) / period + 1) * period →
  (s - anchor) / period = (current - anchor) / period.
Proof.
  intros. pose proof (div_bounds (current - anchor) period ltac:(lia) ltac:(lia)).
  symmetry. apply (Z.div_unique _ _ _ (s - anchor - period * ((current - anchor) / period))); nia.
Qed.

Lemma grid_next anchor period q : 0 < period → (anchor + q * period - anchor) / period = q.
Proof. intros. replace (anchor + q * period - anchor) with (q * period) by lia. by rewrite Z.div_mul by lia. Qed.

(** A turn is that of an accredited key, and starts on its own slot. *)
Lemma turn_range c now n start p : channel_wf now c → 0 <= (turn c n start p).1 < Z.of_nat (length (accredited_keys c)).
Proof. intros Hwf. pose proof (cw_keys _ _ Hwf). apply Z.mod_pos_bound. lia. Qed.

(** What is said of the rotation up to an optional boundary. *)
Definition stable_until {E} (c : ChannelState) (slot : Z) (t : Z * Z) (boundary : option Z) : Prop :=
  match boundary with
  | Some b => slot < b ∧ (∀ s, slot <= s < b → s <= slot_bound → round_robin (E:=E) c s = Ok t) ∧
              (b <= slot_bound → ∃ j, round_robin (E:=E) c b = Ok (j, b))
  | None => ∀ s, slot <= s <= slot_bound → round_robin (E:=E) c s = Ok t
  end.

Lemma timed_out_mono c slot s : timed_out c slot → slot <= s → timed_out c s.
Proof. intros [? ?] ?. split; [done|lia]. Qed.

#[local] Hint Extern 1 (_ <= _ <= slot_bound) => slot_lia : rotation.
#[local] Hint Extern 1 (timed_out _ _) => eapply timed_out_mono; [eassumption|slot_lia] : rotation.

Lemma stable_timeout {E} c now slot : channel_wf now c → now <= slot <= slot_bound → timed_out c slot →
  stable_until (E:=E) c slot (turn c ((slot - tip_slot c) / posting_timeout c) (tip_slot c) (posting_timeout c))
    (next_on_grid slot (tip_slot c) (posting_timeout c)).
Proof.
  intros Hwf Hs Hto. pose proof (proj1 Hto) as Hnz. wf_bounds Hwf.
  pose proof (next_on_grid_spec slot (tip_slot c) (posting_timeout c) ltac:(lia) ltac:(slot_lia)
    (cw_timeout _ _ Hwf)) as G.
  destruct (next_on_grid _ _ _) as [b|].
  - destruct G as (_ & -> & Hb). split; [done|]. split.
    + intros s Hs1 Hs2. rewrite (round_robin_timeout c now) by auto with rotation.
      by rewrite (grid_same slot) by lia.
    + intros Hb2. eexists. rewrite (round_robin_timeout c now) by auto with rotation.
      by rewrite grid_next by lia.
  - intros s Hs1. destruct G as [?|G]; [done|].
    rewrite (round_robin_timeout c now) by auto with rotation. by rewrite (grid_same slot) by slot_lia.
Qed.

(** Before the timeout kicks in the turn is that of the timeframe grid, if any. *)
Definition quiet_turn (c : ChannelState) (slot : Z) : Z * Z :=
  if posting_timeframe c =? 0 then (tip_sequencer c, tip_sequencer_starting_slot c)
  else turn c ((slot - tip_sequencer_starting_slot c) / posting_timeframe c) (tip_sequencer_starting_slot c)
         (posting_timeframe c).

Lemma round_robin_quiet {E} c now slot : channel_wf now c → now <= slot <= slot_bound → ¬ timed_out c slot →
  round_robin (E:=E) c slot = Ok (quiet_turn c slot).
Proof.
  intros Hwf Hs Hto. unfold quiet_turn. destruct (Z.eqb_spec (posting_timeframe c) 0).
  - by apply (round_robin_fixed c now).
  - by apply (round_robin_timeframe c now).
Qed.

Lemma quiet_turn_range c now slot : channel_wf now c → now <= slot <= slot_bound →
  0 <= (quiet_turn c slot).1 < Z.of_nat (length (accredited_keys c)) ∧ (quiet_turn c slot).2 <= slot.
Proof.
  intros Hwf Hs. wf_bounds Hwf. unfold quiet_turn. destruct (Z.eqb_spec (posting_timeframe c) 0); cbn [fst snd].
  - lia.
  - split; [by apply (turn_range c now)|].
    pose proof (div_bounds (slot - tip_sequencer_starting_slot c) (posting_timeframe c) ltac:(lia) ltac:(lia)).
    unfold turn. cbn [snd]. lia.
Qed.

Lemma quiet_turn_same c now slot s : channel_wf now c → now <= slot <= s →
  (posting_timeframe c ≠ 0 → s < tip_sequencer_starting_slot c +
     ((slot - tip_sequencer_starting_slot c) / posting_timeframe c + 1) * posting_timeframe c) →
  quiet_turn c s = quiet_turn c slot.
Proof.
  intros Hwf Hs Hlt. wf_bounds Hwf. unfold quiet_turn. destruct (Z.eqb_spec (posting_timeframe c) 0); [done|].
  by rewrite (grid_same slot) by (lia || auto).
Qed.

(** The slot the timeout kicks in at. *)
Lemma kick_spec c now slot : channel_wf now c → now <= slot <= slot_bound → ¬ timed_out c slot →
  match next_on_grid slot (tip_slot c) (posting_timeout c) with
  | Some k => k = tip_slot c + posting_timeout c ∧ posting_timeout c ≠ 0 ∧ slot < k
  | None => posting_timeout c = 0 ∨ slot_bound < tip_slot c + posting_timeout c
  end.
Proof.
  intros Hwf Hs Hto. wf_bounds Hwf. unfold timed_out in Hto.
  pose proof (next_on_grid_spec slot (tip_slot c) (posting_timeout c) ltac:(lia) ltac:(slot_lia)
    (cw_timeout _ _ Hwf)) as G.
  destruct (Z.eq_dec (posting_timeout c) 0) as [Hz|Hnz].
  - rewrite Hz in *. by left.
  - assert (slot - tip_slot c < posting_timeout c) by
      (destruct (Z.lt_ge_cases (slot - tip_slot c) (posting_timeout c)); [done|by destruct Hto; split; [|lia]]).
    assert ((slot - tip_slot c) / posting_timeout c = 0) as Hq by (apply Z.div_small; lia).
    rewrite Hq in G. destruct (next_on_grid _ _ _) as [k|].
    + destruct G as (_ & -> & ?). split; [lia|]. split; [done|lia].
    + right. destruct G as [?|?]; [done|slot_lia].
Qed.

Lemma timed_out_kick c s : timed_out c s ↔ posting_timeout c ≠ 0 ∧ tip_slot c + posting_timeout c <= s.
Proof. unfold timed_out. intuition lia. Qed.

Lemma starts_at {E} c now b : channel_wf now c → now <= b <= slot_bound →
  (posting_timeout c ≠ 0 ∧ b = tip_slot c + posting_timeout c) ∨
  (¬ timed_out c b ∧ posting_timeframe c ≠ 0 ∧
   ∃ q, b = tip_sequencer_starting_slot c + q * posting_timeframe c) →
  ∃ j, round_robin (E:=E) c b = Ok (j, b).
Proof.
  intros Hwf Hb [[Hnz ->]|(Hto & Hnz & q & ->)]; wf_bounds Hwf.
  - eexists. rewrite (round_robin_timeout c now); [|done|slot_lia|by apply timed_out_kick].
    replace (tip_slot c + posting_timeout c) with (tip_slot c + 1 * posting_timeout c) at 1 by lia.
    unfold turn. rewrite grid_next by lia. do 2 f_equal. lia.
  - eexists. rewrite (round_robin_timeframe c now) by (done || slot_lia).
    unfold turn. by rewrite grid_next by lia.
Qed.

Lemma stable_quiet {E} c now slot : channel_wf now c → now <= slot <= slot_bound → ¬ timed_out c slot →
  stable_until (E:=E) c slot (quiet_turn c slot)
    (option_min (next_on_grid slot (tip_sequencer_starting_slot c) (posting_timeframe c))
                (next_on_grid slot (tip_slot c) (posting_timeout c))).
Proof.
  intros Hwf Hs Hto. wf_bounds Hwf.
  pose proof (kick_spec c now slot Hwf ltac:(slot_lia) Hto) as K.
  pose proof (next_on_grid_spec slot (tip_sequencer_starting_slot c) (posting_timeframe c) ltac:(lia)
    ltac:(slot_lia) (cw_timeframe _ _ Hwf)) as G.
  assert (∀ s, slot <= s <= slot_bound → ¬ timed_out c s →
    (posting_timeframe c ≠ 0 → s < tip_sequencer_starting_slot c +
       ((slot - tip_sequencer_starting_slot c) / posting_timeframe c + 1) * posting_timeframe c) →
    round_robin (E:=E) c s = Ok (quiet_turn c slot)) as same.
  { intros s Hs1 Hs2 Hs3. rewrite (round_robin_quiet c now) by (done || slot_lia).
    by rewrite (quiet_turn_same c now slot s) by (done || slot_lia). }
  destruct (next_on_grid slot (tip_sequencer_starting_slot c) _) as [f|],
    (next_on_grid slot (tip_slot c) _) as [k|]; cbn [option_min stable_until].
  - destruct G as (Hf & Hfb & ?), K as (-> & Hk & ?). split; [lia|]. split.
    + intros s Hs1 Hs2. apply same; [slot_lia|rewrite timed_out_kick; lia|lia].
    + intros Hb. apply (starts_at c now); [done|slot_lia|].
      destruct (Z.le_gt_cases (tip_slot c + posting_timeout c) f); [left; lia|right].
      rewrite Z.min_l by lia. rewrite timed_out_kick. split; [lia|]. split; [done|by eexists].
  - destruct G as (Hf & Hfb & ?). split; [lia|].
    assert (∀ s, s <= slot_bound → ¬ timed_out c s) as Hq by (intros s; rewrite timed_out_kick; slot_lia).
    split; [intros s Hs1 Hs2; apply same; [slot_lia|auto|lia]|].
    intros Hb. apply (starts_at c now); [done|slot_lia|]. right. split; [auto|]. split; [done|by eexists].
  - destruct K as (-> & Hk & ?). split; [lia|]. split.
    + intros s Hs1 Hs2. apply same; [slot_lia|rewrite timed_out_kick; lia|slot_lia].
    + intros Hb. apply (starts_at c now); [done|slot_lia|]. by left.
  - intros s Hs1. apply same; [slot_lia|rewrite timed_out_kick; slot_lia|slot_lia].
Qed.

#[export] Instance timed_out_dec c slot : Decision (timed_out c slot).
Proof. unfold timed_out. apply _. Defined.

Lemma boundary_regimes c now slot : channel_wf now c → now <= slot →
  next_round_robin_boundary c slot
  = if decide (timed_out c slot) then next_on_grid slot (tip_slot c) (posting_timeout c)
    else option_min (next_on_grid slot (tip_sequencer_starting_slot c) (posting_timeframe c))
           (next_on_grid slot (tip_slot c) (posting_timeout c)).
Proof.
  intros Hwf Hs. pose proof (cw_tip _ _ Hwf). unfold next_round_robin_boundary.
  rewrite andb_comm, timed_out_test by lia. by rewrite <- decide_bool_decide.
Qed.

(** The rotation of a well-formed channel names an accredited key and a slot
    that has passed. *)
Lemma round_robin_range {E} c now slot : channel_wf now c → now <= slot <= slot_bound →
  ∃ index start, round_robin (E:=E) c slot = Ok (index, start) ∧
    0 <= index < Z.of_nat (length (accredited_keys c)) ∧ 0 <= start <= slot.
Proof.
  intros Hwf Hs. wf_bounds Hwf. destruct (decide (timed_out c slot)) as [Hto|Hto].
  - set (t := turn c ((slot - tip_slot c) / posting_timeout c) (tip_slot c) (posting_timeout c)). exists t.1, t.2.
    split; [by apply (round_robin_timeout c now)|]. split; [by eapply (turn_range c now)|]. unfold t, turn. cbn [snd].
    pose proof (proj1 Hto). pose proof (div_bounds (slot - tip_slot c) (posting_timeout c) ltac:(lia) ltac:(lia)). nia.
  - destruct (quiet_turn_range c now slot Hwf Hs). exists (quiet_turn c slot).1, (quiet_turn c slot).2.
    rewrite <- surjective_pairing. split; [by apply (round_robin_quiet c now)|]. split; [done|]. split; [|done].
    unfold quiet_turn. destruct (Z.eqb_spec (posting_timeframe c) 0); cbn [snd turn]; [lia|].
    pose proof (div_bounds (slot - tip_sequencer_starting_slot c) (posting_timeframe c) ltac:(lia) ltac:(lia)). nia.
Qed.

(** The rotation of a well-formed channel never fails: it names an accredited
    key and a turn that has started; the turn stays the same until the next
    boundary, forever if there is none, and a new turn starts exactly there. *)
Theorem round_robin_turns {E} c now slot : channel_wf now c → now <= slot <= slot_bound →
  ∃ index start, round_robin (E:=E) c slot = Ok (index, start) ∧
    0 <= index < Z.of_nat (length (accredited_keys c)) ∧ start <= slot ∧
    stable_until (E:=E) c slot (index, start) (next_round_robin_boundary c slot).
Proof.
  intros Hwf Hs. rewrite (boundary_regimes c now) by (done || lia). destruct (decide (timed_out c slot)) as [Hto|Hto].
  - pose proof (stable_timeout (E:=E) c now slot Hwf Hs Hto) as St.
    exists (turn c ((slot - tip_slot c) / posting_timeout c) (tip_slot c) (posting_timeout c)).1.
    eexists. split; [by apply (round_robin_timeout c now)|].
    split; [by apply (turn_range c now)|]. split; [|exact St]. wf_bounds Hwf. pose proof (proj1 Hto).
    pose proof (div_bounds (slot - tip_slot c) (posting_timeout c) ltac:(lia) ltac:(lia)). lia.
  - pose proof (stable_quiet (E:=E) c now slot Hwf Hs Hto) as St.
    destruct (quiet_turn_range c now slot Hwf Hs). exists (quiet_turn c slot).1, (quiet_turn c slot).2.
    rewrite <- surjective_pairing. split; [by apply (round_robin_quiet c now)|done].
Qed.

End Channels.
