(* ===== verification/Utxos.v ===== *)
(** * Notes, unspent outputs and hashes

    The hashes of core/src/crypto.rs and zk/poseidon2, the identifiers of
    operations and notes, the outputs of an operation (core/src/mantle/ledger.rs)
    and the events of core/src/events/mod.rs. The set of unspent notes is any
    keyed store: the proofs are against the contract of [KeyedStore], which the
    UTXO tree keeps. *)

From S2P Require Import Prelude MerkleStore Codec Ops.

#[local] Open Scope Z_scope.

Module Utxos.
Import Canonical Ops.

(** ** Third-party hashes *)

(** [blake2::Blake2b<U32>]. *)
Class Blake2Crate := { blake2b_256 : list byte → list byte }.

(** [jf_poseidon2]: the permutation of three field elements. *)
Class Poseidon2Crate := { permute : Z * Z * Z → Z * Z * Z }.

Definition ascii_bytes (s : string) : list byte := String.list_byte_of_string s.

(** ** [Poseidon2Hasher] *)

Section Poseidon.
Context `{Poseidon2Crate}.

Definition update_one (state : Z * Z * Z) (input : Z) : Z * Z * Z :=
  let '(a, b, c) := state in permute ((a + input) mod fr_modulus, b, c).

(** [Poseidon2Hasher::digest]: the inputs, then the padding. *)
Definition zk_digest (inputs : list Z) : Z :=
  let '(a, _, _) := update_one (foldl update_one (0, 0, 0) inputs) 1 in a.

(** [Poseidon2Hasher::compress]. *)
Definition zk_compress (x y : Z) : Z :=
  let '(a, _, _) := permute ((0 + x) mod fr_modulus, (0 + y) mod fr_modulus, 0) in a.

(** [fr_from_mod_bytes] and [Fr::from_le_bytes_mod_order]. *)
Definition fr_from_mod_bytes (bytes : list byte) : Z := from_le_bytes bytes mod fr_modulus.

(** ** [Utxo] *)

Record Utxo := mkUtxo { op_id : Hash; output_index : Z; note : Note }.

Definition NOTE_ID_V1 : Z := from_le_bytes (ascii_bytes "NOTE_ID_V1").

(** [Utxo::id]; an index and a value are below the modulus. *)
Definition utxo_id (u : Utxo) : NoteId :=
  zk_digest [NOTE_ID_V1; fr_from_mod_bytes (op_id u); output_index u; value (note u); pk (note u)].

End Poseidon.

#[export] Instance utxo_eq_dec : EqDecision Utxo.
Proof. solve_decision. Defined.

(** ** [OpId] *)

Definition OPERATION_ID_V1 : list byte := ascii_bytes "OPERATION_ID_V1".

(** [OpId::op_id], from the canonical bytes of the operation. *)
Definition op_id_of `{Blake2Crate} {E C T} (codec : Codec C T) (op : T) : result E Hash :=
  op_bytes ← encode codec op; Ok (blake2b_256 (OPERATION_ID_V1 ++ op_bytes)).

(** [InscriptionOp::id] and [ChannelConfigOp::id]. *)
Definition msg_id_of `{Blake2Crate} {E C T} (codec : Codec C T) (op : T) : result E MsgId :=
  op_bytes ← encode codec op; Ok (blake2b_256 op_bytes).

(** ** [Outputs] *)

Inductive OutputsError := ZeroValueNote | OutputsOverflow | OutputsBounded.

(** [Outputs::utxos]. *)
Definition utxos_of (id : Hash) (outputs : list Note) : list Utxo :=
  imap (λ index n, mkUtxo id (Z.of_nat index) n) outputs.

(** [Outputs::try_new]. *)
Definition outputs_try_new (notes : list Note) : result OutputsError (list Note) :=
  if Z.of_nat (length notes) <=? MAX_TRANSACTION_OUTPUTS then Ok notes else Err OutputsBounded.

(** [Outputs::validate]. *)
Fixpoint outputs_validate (outputs : list Note) : result OutputsError unit :=
  match outputs with
  | [] => Ok tt
  | n :: outputs => err_if (value n =? 0) ZeroValueNote;; outputs_validate outputs
  end.

(** [Outputs::amount]. *)
Fixpoint outputs_amount_from (amount : Z) (outputs : list Note) : result OutputsError Z :=
  match outputs with
  | [] => Ok amount
  | output :: outputs =>
      amount ← ok_or (checked_add u64_max amount (value output)) OutputsOverflow;
      outputs_amount_from amount outputs
  end.

Definition outputs_amount (outputs : list Note) : result OutputsError Z := outputs_amount_from 0 outputs.

Section Store.
Context {T : Type} `{!KeyedStoreOps T NoteId Utxo} `{Poseidon2Crate}.

(** The loop of [Outputs::execute], and of the reward notes of a header. *)
Fixpoint insert_utxos {E} (utxos : T) (l : list Utxo) : result E T :=
  match l with
  | [] => Ok utxos
  | u :: l => utxos ← ks_insert utxos (utxo_id u) u; insert_utxos utxos l
  end.

End Store.

(** ** Events *)

Definition TxHash := list byte.

(** [DepositNote]. *)
Record DepositNote := mkDepositNote { dn_note_id : NoteId; dn_value : Z; dn_pk : ZkPublicKey }.

Inductive TxEventPayload :=
  | DepositEvent (channel_id : ChannelId) (amount : Z) (metadata : list byte) (notes : list DepositNote)
  | LeaderRewardClaimed (voucher_nullifier : Z) (utxo : Utxo)
  | PoWRewardClaimed (pow_nullifier : Z) (utxo : Utxo).

Record TxEvent := mkTxEvent { te_tx_hash : TxHash; te_op_id : Hash; te_payload : TxEventPayload }.

Inductive HeaderEvent :=
  | SdpNoteUnlocked (note_id : NoteId) (service_type : ServiceType) (declaration_id : DeclarationId)
  | SdpRewardDistributed (service_type : ServiceType) (utxo : Utxo).

(** ** The value of a set of notes *)

(** The sum of a function over the entries of a map. *)
Definition map_sum {K A} `{Countable K} (f : A → Z) (m : gmap K A) : Z := map_fold (λ _ x acc, f x + acc) 0 m.

Section MapSum.
Context {K A : Type} `{Countable K} (f : A → Z).
Implicit Types (m : gmap K A).

Lemma map_sum_empty : map_sum f (∅ : gmap K A) = 0.
Proof. apply map_fold_empty. Qed.

Lemma map_sum_insert m k x : m !! k = None → map_sum f (<[k := x]> m) = f x + map_sum f m.
Proof. intros. unfold map_sum. rewrite map_fold_insert_L; [done|intros; lia|done]. Qed.

Lemma map_sum_delete m k x : m !! k = Some x → map_sum f (delete k m) = map_sum f m - f x.
Proof.
  intros Hk. rewrite <- (insert_delete_id m k x Hk) at 2. rewrite map_sum_insert by apply lookup_delete_eq. lia.
Qed.

Lemma map_sum_nonneg m : (∀ k x, m !! k = Some x → 0 <= f x) → 0 <= map_sum f m.
Proof.
  induction m as [|k x m Hk IH] using map_ind; intros Hf.
  - by rewrite map_sum_empty.
  - rewrite map_sum_insert by done. assert (0 <= f x) by (apply (Hf k); apply lookup_insert_eq).
    assert (0 <= map_sum f m); [|lia]. apply IH. intros k' x' Hk'. apply (Hf k').
    rewrite lookup_insert_ne; [done|congruence].
Qed.

End MapSum.

(** The value of an unspent output, of a list of notes and of a store. *)
Definition utxo_value (u : Utxo) : Z := value (note u).
Definition notes_value (l : list Note) : Z := foldr (λ n acc, value n + acc) 0 l.

Definition note_ok (n : Note) : Prop := in_u64 (value n).

Lemma notes_value_nonneg l : Forall note_ok l → 0 <= notes_value l.
Proof. unfold notes_value. induction 1 as [|n l [? ?] _ IH]; cbn [foldr]; [done|lia]. Qed.

(** The running sum is exact, or the first overflow ends it. *)
Lemma outputs_amount_from_sum a l : Forall note_ok l → a <= u64_max →
  outputs_amount_from a l
  = if a + notes_value l <=? u64_max then Ok (a + notes_value l) else Err OutputsOverflow.
Proof.
  intros Hl. revert a. induction Hl as [|n l [Hn _] Hl IH]; intros a Ha; cbn [outputs_amount_from notes_value foldr].
  - rewrite Z.add_0_r. by rewrite (proj2 (Z.leb_le _ _)).
  - fold (notes_value l). pose proof (notes_value_nonneg l Hl). unfold checked_add.
    destruct (Z.leb_spec (a + value n) u64_max); cbn [ok_or mbind result_bind].
    + rewrite IH by done. by rewrite Z.add_assoc.
    + by rewrite (proj2 (Z.leb_gt _ _)) by lia.
Qed.

Lemma outputs_amount_sum l : Forall note_ok l →
  outputs_amount l = if notes_value l <=? u64_max then Ok (notes_value l) else Err OutputsOverflow.
Proof. intros Hl. unfold outputs_amount. by rewrite (outputs_amount_from_sum 0 l). Qed.

Lemma outputs_validate_ok l : outputs_validate l = Ok tt ↔ Forall (λ n, value n ≠ 0) l.
Proof.
  induction l as [|n l IH]; cbn [outputs_validate]; [by split|]. rewrite Forall_cons, <- IH.
  destruct (Z.eqb_spec (value n) 0); cbn; naive_solver.
Qed.

(** ** Inserting fresh notes *)

Section Insert.
Context {T : Type} `{!KeyedStoreOps T NoteId Utxo, !KeyedStore T NoteId Utxo} `{Poseidon2Crate}.
Implicit Types (t : T) (l : list Utxo).

(** The new identifiers are distinct, none is in the store, and the store has
    room for them. *)
Record insertable t l : Prop := {
  ins_nodup : NoDup (utxo_id <$> l);
  ins_fresh : ∀ u, u ∈ l → ks_view t !! utxo_id u = None;
  ins_room : Z.of_nat (size (ks_view t)) + Z.of_nat (length l) <= ks_capacity
}.

(** The entries a list of outputs adds. *)
Definition utxo_map l : gmap NoteId Utxo := list_to_map ((λ u, (utxo_id u, u)) <$> l).

Lemma utxo_map_cons u l : utxo_map (u :: l) = <[utxo_id u := u]> (utxo_map l).
Proof. done. Qed.

Lemma utxo_map_lookup l id u : NoDup (utxo_id <$> l) →
  utxo_map l !! id = Some u ↔ u ∈ l ∧ id = utxo_id u.
Proof.
  intros Hnd. unfold utxo_map. rewrite <- elem_of_list_to_map.
  - rewrite list_elem_of_fmap. naive_solver.
  - rewrite <- list_fmap_compose. exact Hnd.
Qed.

Lemma insert_utxos_ok {E} t l : ks_ok t → insertable t l →
  ∃ t', insert_utxos (E:=E) t l = Ok t' ∧ ks_ok t' ∧ ks_view t' = utxo_map l ∪ ks_view t.
Proof.
  revert t. induction l as [|u l IH]; intros t Ht [Hnd Hf Hr]; cbn [insert_utxos].
  - exists t. split; [done|]. split; [done|]. unfold utxo_map. cbn. by rewrite map_empty_union.
  - cbn [length fmap list_fmap] in *. apply NoDup_cons in Hnd as [Hu Hnd].
    destruct (ks_insert_ok (E:=E) t (utxo_id u) u Ht (Hf u ltac:(by constructor)) ltac:(lia))
      as (t1 & -> & Ht1 & Hv). cbn [mbind result_bind].
    destruct (IH t1 Ht1) as (t' & -> & Ht' & Hv').
    { constructor; [done| |].
      - intros u' Hu'. rewrite Hv, lookup_insert_ne; [apply Hf; by constructor|].
        intros Heq. apply Hu. rewrite Heq. apply list_elem_of_fmap. by exists u'.
      - rewrite Hv, map_size_insert_None by (apply Hf; by constructor). lia. }
    exists t'. split; [done|]. split; [done|]. rewrite Hv', Hv, utxo_map_cons.
    rewrite <- insert_union_l, insert_union_r; [done|].
    destruct (utxo_map l !! utxo_id u) as [u'|] eqn:Hu'; [|done].
    apply utxo_map_lookup in Hu' as [Hin Heq]; [|done]. destruct Hu. rewrite Heq. apply list_elem_of_fmap. by exists u'.
Qed.

(** Fresh notes add their value. *)
Lemma utxo_map_disjoint t l : insertable t l → utxo_map l ##ₘ ks_view t.
Proof.
  intros [Hnd Hf _]. apply map_disjoint_spec. intros id u u' Hu Hu'.
  apply utxo_map_lookup in Hu as [Hin ->]; [|done]. by rewrite Hf in Hu'.
Qed.

Definition utxos_value l : Z := foldr (λ u acc, utxo_value u + acc) 0 l.

Lemma utxo_map_sum t l : insertable t l →
  map_sum utxo_value (utxo_map l ∪ ks_view t) = utxos_value l + map_sum utxo_value (ks_view t).
Proof.
  intros [Hnd Hf _]. induction l as [|u l IH]; cbn [utxos_value foldr].
  - unfold utxo_map. cbn. by rewrite map_empty_union.
  - cbn [fmap list_fmap] in Hnd. apply NoDup_cons in Hnd as [Hu Hnd].
    rewrite utxo_map_cons, <- insert_union_l, map_sum_insert.
    + rewrite IH; [unfold utxos_value; lia|done|]. intros u' Hu'. apply Hf. by constructor.
    + apply lookup_union_None. split; [|apply Hf; by constructor].
      destruct (utxo_map l !! utxo_id u) as [u'|] eqn:Hu'; [|done].
      apply utxo_map_lookup in Hu' as [Hin Heq]; [|done]. destruct Hu. rewrite Heq. apply list_elem_of_fmap. by exists u'.
Qed.

End Insert.

Lemma utxos_of_note id outputs : note <$> utxos_of id outputs = outputs.
Proof.
  unfold utxos_of. rewrite fmap_imap. apply list_eq. intros i. rewrite list_lookup_imap.
  by destruct (outputs !! i).
Qed.

Lemma utxos_of_value id outputs : utxos_value (utxos_of id outputs) = notes_value outputs.
Proof.
  rewrite <- (utxos_of_note id outputs) at 2. induction (utxos_of id outputs) as [|u l IH]; [done|].
  unfold utxos_value, notes_value in *. cbn [foldr fmap list_fmap]. by rewrite IH.
Qed.

Lemma utxos_of_length id outputs : length (utxos_of id outputs) = length outputs.
Proof. apply length_imap. Qed.

End Utxos.
