(* ===== verification/ServiceNotes.v ===== *)
(** * Declarations and service notes

    core/src/sdp/mod.rs and core/src/sdp/service_notes.rs: the declarations of
    service providers, the notes locked as their collateral, and the removal of
    the declarations whose withdrawal took effect. *)

From stdpp Require Import sorting.
From S2P Require Import Prelude Codec Ops Utxos.

#[local] Open Scope Z_scope.

Module ServiceNotes.
Import Canonical Ops Utxos.

#[export] Instance service_type_countable : Countable ServiceType.
Proof. refine (inj_countable' (λ _, tt) (λ _, BlendNetwork) _). by intros []. Defined.

(** ** Declarations *)

Notation ProviderId := Ed25519Key.

Record MinStake := mkMinStake { threshold : Z; ms_timestamp : Z }.

(** [ServiceParameters]. *)
Record ServiceParameters := mkServiceParameters { inactivity_period : Z; sp_epoch : Z }.

Definition SNAPSHOT_FINALIZATION_DELAY : Z := 2.

(** [InactivityPeriod::new]. *)
Definition inactivity_period_new (period : Z) : option Z :=
  if period <? SNAPSHOT_FINALIZATION_DELAY then None else Some period.

Record Declaration := mkDeclaration {
  service_type : ServiceType;
  provider_id : ProviderId;
  service_note_id : NoteId;
  locators : list Locator;
  zk_id : ZkPublicKey;
  created : Z;
  active : Z;
  withdraw_at : option Z;
  nonce : Nonce
}.

Definition declaration_id_preimage (s : ServiceType) (zk : ZkPublicKey) : list byte :=
  byte_of (service_type_to_u8 s) :: fr_to_bytes zk.

Section Hash.
Context `{Blake2Crate}.

(** [DeclarationId::derive]. *)
Definition derive (s : ServiceType) (zk : ZkPublicKey) : DeclarationId := blake2b_256 (declaration_id_preimage s zk).

(** [Declaration::id] and [DeclarationMessage::id]. *)
Definition declaration_id (d : Declaration) : DeclarationId := derive (service_type d) (zk_id d).
Definition message_id (msg : DeclarationMessage) : DeclarationId := derive (dm_service_type msg) (dm_zk_id msg).

(** [Declaration::new]. *)
Definition declaration_new {E} (epoch : Z) (msg : DeclarationMessage) : result E Declaration :=
  active ← strict_add u32_max epoch SNAPSHOT_FINALIZATION_DELAY;
  Ok (mkDeclaration (dm_service_type msg) (dm_provider_id msg) (dm_service_note_id msg) (dm_locators msg)
        (dm_zk_id msg) epoch active None (mkNonce epoch 0)).

End Hash.

(** [Declarations] and [ProviderIndex]: the maps of one service. *)
Notation Declarations := (gmap DeclarationId Declaration).
Notation ProviderIndex := (gmap ProviderId DeclarationId).

(** ** Service notes *)

(** [service_notes::Error]. *)
Inductive ServiceNotesError :=
  | NoteDoesNotExist (note_id : NoteId)
  | NoteInsufficientValue (note_id : NoteId) (v : Z)
  | NoteAlreadyUsedForService (note_id : NoteId) (s : ServiceType)
  | NoteNotUsedForService (note_id : NoteId) (s : ServiceType)
  | NotAServiceNote (note_id : NoteId).

Record ServiceNote := mkServiceNote { sn_note : Note; sn_services : gmap ServiceType DeclarationId }.

Notation ServiceNotes := (gmap NoteId ServiceNote).

(** [ServiceNotes::get] and [contains]. *)
Definition sn_get (s : ServiceNotes) (id : NoteId) : option Note := sn_note <$> s !! id.
Definition sn_contains (s : ServiceNotes) (id : NoteId) : bool := bool_decide (is_Some (s !! id)).

Definition lock (s : ServiceNotes) (min_stake : MinStake) (st : ServiceType) (id : DeclarationId) (n : Note)
    (note_id : NoteId) : result ServiceNotesError ServiceNotes :=
  if value n <? threshold min_stake then Err (NoteInsufficientValue note_id (value n))
  else
    match s !! note_id with
    | Some service_note =>
        if bool_decide (is_Some (sn_services service_note !! st)) then Err (NoteAlreadyUsedForService note_id st)
        else Ok (<[note_id := mkServiceNote (sn_note service_note) (<[st := id]> (sn_services service_note))]> s)
    | None => Ok (<[note_id := mkServiceNote n {[st := id]}]> s)
    end.

Definition is_used_for_service (s : ServiceNotes) (note_id : NoteId) (st : ServiceType) : bool :=
  match s !! note_id with
  | Some service_note => bool_decide (is_Some (sn_services service_note !! st))
  | None => false
  end.

Definition is_used_by_declaration (s : ServiceNotes) (note_id : NoteId) (st : ServiceType) (id : DeclarationId) : bool :=
  bool_decide ((service_note ← s !! note_id; sn_services service_note !! st) = Some id).

Definition unlock (s : ServiceNotes) (st : ServiceType) (id : DeclarationId) (note_id : NoteId)
    : result ServiceNotesError (ServiceNotes * Note) :=
  match s !! note_id with
  | Some n =>
      if bool_decide (sn_services n !! st = Some id) then
        let services := delete st (sn_services n) in
        Ok (if bool_decide (services = ∅) then delete note_id s
            else <[note_id := mkServiceNote (sn_note n) services]> s, sn_note n)
      else Err (NoteNotUsedForService note_id st)
  | None => Err (NotAServiceNote note_id)
  end.

(** ** Removing withdrawn declarations *)

(** The order of a [RedBlackTreeMap] keyed by byte arrays. *)
Fixpoint bytes_leb (a b : list byte) : bool :=
  match a, b with
  | [], _ => true
  | _ :: _, [] => false
  | x :: a, y :: b => (byte_val x <? byte_val y) || ((byte_val x =? byte_val y) && bytes_leb a b)
  end.

Definition entry_le {A} (x y : list byte * A) : Prop := bytes_leb x.1 y.1 = true.

#[export] Instance entry_le_dec {A} (x y : list byte * A) : Decision (entry_le x y).
Proof. unfold entry_le. apply _. Defined.

Definition ordered_entries {A} (m : gmap (list byte) A) : list (list byte * A) := merge_sort entry_le (map_to_list m).

(** The declarations whose withdrawal took effect before [epoch]. *)
Definition withdrawn (epoch : Z) (d : Declaration) : bool :=
  match withdraw_at d with Some w => negb (epoch <=? w) | None => false end.

(** The registry of a service, with the notes shared by all of them. *)
Record Registry := mkRegistry { declarations : Declarations; provider_index : ProviderIndex; service_notes : ServiceNotes }.

Fixpoint remove_loop {E} (r : Registry) (events : list HeaderEvent) (to_remove : list (DeclarationId * Declaration))
    : result E (Registry * list HeaderEvent) :=
  match to_remove with
  | [] => Ok (r, events)
  | (id, d) :: to_remove =>
      notes ← match unlock (service_notes r) (service_type d) id (service_note_id d) with
              | Ok (notes, _) => Ok notes
              | Err _ => Fault Unwrap
              | Fault f => Fault f
              end;
      let events := if sn_contains notes (service_note_id d) then events
                    else events ++ [SdpNoteUnlocked (service_note_id d) (service_type d) id] in
      remove_loop (mkRegistry (delete id (declarations r)) (delete (provider_id d) (provider_index r)) notes)
        events to_remove
  end.

Definition to_remove (epoch : Z) (ds : Declarations) : list (DeclarationId * Declaration) :=
  filter (λ p, withdrawn epoch p.2 = true) (ordered_entries ds).

(** [remove_withdrawn_declarations]. *)
Definition remove_withdrawn_declarations {E} (r : Registry) (epoch : Z) : result E (Registry * list HeaderEvent) :=
  remove_loop r [] (to_remove epoch (declarations r)).

End ServiceNotes.
