(* ===== verification/Inputs.v ===== *)
(** * The inputs of an operation

    [Inputs] of core/src/mantle/ledger.rs: what makes a list of notes spendable,
    their removal from the ledger, their sum and their keys; and the public
    inputs of a signature by those keys (kms/keys/src/keys/zk). *)

From S2P Require Import Prelude MerkleStore Codec Ops Utxos Channels ServiceNotes.

#[local] Open Scope Z_scope.

Module Inputs.
Import Canonical Ops Utxos Channels ServiceNotes.

Inductive InputsError :=
  | InexistingNote (id : NoteId)
  | ServiceNoteInput (id : NoteId)
  | ChannelNoteInput (id : NoteId)
  | NotAChannelNote (id : NoteId)
  | EmptyInputs
  | DoubleSpend
  | InputsOverflow
  | InputsBounded.

(** [Inputs::preverify]. *)
Definition inputs_preverify (inputs : list NoteId) : result InputsError unit :=
  err_if (bool_decide (inputs = [])) EmptyInputs.

(** [Inputs::validate_uniqueness]: as many distinct identifiers as identifiers. *)
Definition validate_uniqueness (inputs : list NoteId) : result InputsError unit :=
  err_if (negb (Nat.eqb (size (list_to_set inputs : gset NoteId)) (length inputs))) DoubleSpend.

Section Store.
Context {T : Type} `{!KeyedStoreOps T NoteId Utxo}.

Fixpoint validate_not_in_service_and_present (inputs : list NoteId) (service_notes : ServiceNotes) (utxos : T)
    : result InputsError unit :=
  match inputs with
  | [] => Ok tt
  | input :: inputs =>
      err_if (sn_contains service_notes input) (ServiceNoteInput input);;
      err_if (negb (bool_decide (is_Some (ks_get utxos input)))) (InexistingNote input);;
      validate_not_in_service_and_present inputs service_notes utxos
  end.

Fixpoint none_in_channel (inputs : list NoteId) (c : Channels) : result InputsError unit :=
  match inputs with
  | [] => Ok tt
  | input :: inputs => err_if (is_channel_note c input) (ChannelNoteInput input);; none_in_channel inputs c
  end.

Fixpoint all_in_channel (inputs : list NoteId) (c : Channels) (channel_id : ChannelId) : result InputsError unit :=
  match inputs with
  | [] => Ok tt
  | input :: inputs =>
      err_if (negb (is_channel_note_of c input channel_id)) (NotAChannelNote input);;
      all_in_channel inputs c channel_id
  end.

(** [Inputs::validate_not_in_channel]. *)
Definition validate_not_in_channel (inputs : list NoteId) (service_notes : ServiceNotes) (c : Channels) (utxos : T)
    : result InputsError unit :=
  validate_uniqueness inputs;;
  validate_not_in_service_and_present inputs service_notes utxos;;
  none_in_channel inputs c.

(** [Inputs::validate_in_channel]. *)
Definition validate_in_channel (inputs : list NoteId) (service_notes : ServiceNotes) (c : Channels)
    (channel_id : ChannelId) (utxos : T) : result InputsError unit :=
  validate_uniqueness inputs;;
  validate_not_in_service_and_present inputs service_notes utxos;;
  all_in_channel inputs c channel_id.

(** [Inputs::execute]. *)
Fixpoint inputs_execute (inputs : list NoteId) (utxos : T) : result InputsError T :=
  match inputs with
  | [] => Ok utxos
  | input :: inputs => '(utxos, _) ← ks_remove (InexistingNote input) utxos input; inputs_execute inputs utxos
  end.

(** [Inputs::amount]. *)
Fixpoint inputs_amount_from (amount : Z) (inputs : list NoteId) (utxos : T) : result InputsError Z :=
  match inputs with
  | [] => Ok amount
  | input :: inputs =>
      u ← ok_or (ks_get utxos input) (InexistingNote input);
      amount ← ok_or (checked_add u64_max amount (value (note u))) InputsOverflow;
      inputs_amount_from amount inputs utxos
  end.

Definition inputs_amount (inputs : list NoteId) (utxos : T) : result InputsError Z := inputs_amount_from 0 inputs utxos.

(** [Inputs::get_pk]. *)
Fixpoint get_pk (inputs : list NoteId) (utxos : T) : result InputsError (list ZkPublicKey) :=
  match inputs with
  | [] => Ok []
  | input :: inputs =>
      u ← ok_or (ks_get utxos input) (InexistingNote input);
      pks ← get_pk inputs utxos;
      Ok (pk (note u) :: pks)
  end.

End Store.

(** ** Public inputs of a [ZkSignature] *)

Definition MAX_ZK_SIGNING_KEYS : nat := 32.

Definition KDF : Z := from_le_bytes (ascii_bytes "KDF").

Section Keys.
Context `{Poseidon2Crate}.

(** [SecretKey::to_public_key]. *)
Definition to_public_key (secret : Z) : ZkPublicKey := zk_compress KDF secret.

Record ZkSignVerifierInputs := mkZkSignInputs { zs_public_keys : list ZkPublicKey; zs_msg : Z }.

(** [inputs_from_pks]: [None] when there are too many keys, otherwise the keys
    padded with that of the zero secret. *)
Definition inputs_from_pks (msg : Z) (pks : list ZkPublicKey) : option ZkSignVerifierInputs :=
  if Nat.ltb MAX_ZK_SIGNING_KEYS (length pks) then None
  else Some (mkZkSignInputs (pks ++ replicate (MAX_ZK_SIGNING_KEYS - length pks) (to_public_key 0)) msg).

End Keys.

(** ** Facts *)

Lemma list_to_set_size_le (l : list NoteId) : (size (list_to_set l : gset NoteId) ≤ length l)%nat.
Proof.
  induction l as [|x l IH]; [done|]. cbn [list_to_set length]. rewrite size_union_alt, size_singleton.
  pose proof (subseteq_size (list_to_set l ∖ {[x]}) (list_to_set l : gset NoteId) ltac:(set_solver)). lia.
Qed.

Lemma validate_uniqueness_ok inputs : validate_uniqueness inputs = Ok tt ↔ NoDup inputs.
Proof.
  unfold validate_uniqueness. rewrite err_if_ok, negb_false_iff, Nat.eqb_eq. split.
  - intros Hs. induction inputs as [|x l IH]; [constructor|]. cbn [list_to_set length] in Hs.
    pose proof (list_to_set_size_le l). destruct (decide (x ∈ l)) as [Hin|Hin].
    + exfalso. assert ({[x]} ∪ list_to_set l = (list_to_set l : gset NoteId)) as Heq by set_solver.
      rewrite Heq in Hs. lia.
    + constructor; [done|]. apply IH. rewrite size_union, size_singleton in Hs by set_solver. lia.
  - intros Hnd. by rewrite size_list_to_set.
Qed.

Lemma inputs_preverify_ok inputs : inputs_preverify inputs = Ok tt ↔ inputs ≠ [].
Proof. unfold inputs_preverify. by rewrite err_if_ok, bool_decide_eq_false. Qed.

Section StoreFacts.
Context {T : Type} `{!KeyedStoreOps T NoteId Utxo, !KeyedStore T NoteId Utxo}.
Implicit Types (utxos : T) (inputs : list NoteId) (c : Channels) (s : ServiceNotes).

Definition present utxos inputs : Prop := ∀ i, i ∈ inputs → is_Some (ks_view utxos !! i).

Lemma present_cons utxos i inputs : present utxos (i :: inputs) ↔ is_Some (ks_view utxos !! i) ∧ present utxos inputs.
Proof. unfold present. setoid_rewrite elem_of_cons. naive_solver. Qed.

Lemma sn_contains_false s i : sn_contains s i = false ↔ s !! i = None.
Proof. unfold sn_contains. by rewrite bool_decide_eq_false, <- eq_None_not_Some. Qed.

Lemma not_in_service_ok inputs s utxos : ks_ok utxos →
  validate_not_in_service_and_present inputs s utxos = Ok tt ↔
  (∀ i, i ∈ inputs → s !! i = None) ∧ present utxos inputs.
Proof.
  intros Hok. induction inputs as [|i inputs IH]; cbn [validate_not_in_service_and_present].
  - split; [|done]. intros _. split; intros i Hi; by apply not_elem_of_nil in Hi.
  - rewrite present_cons, <- (ks_get_view utxos i) by done. setoid_rewrite elem_of_cons.
    destruct (sn_contains s i) eqn:Hc; cbn [err_if mbind result_bind].
    + split; [done|]. intros [H _]. specialize (H i (or_introl eq_refl)). apply sn_contains_false in H. congruence.
    + apply sn_contains_false in Hc. case_bool_decide as Hp; cbn [negb err_if mbind result_bind].
      * rewrite IH. naive_solver.
      * naive_solver.
Qed.

Lemma none_in_channel_ok inputs c : none_in_channel inputs c = Ok tt ↔ ∀ i, i ∈ inputs → channel_notes c !! i = None.
Proof.
  induction inputs as [|i inputs IH]; cbn [none_in_channel].
  - split; [|done]. intros _ i Hi. by apply not_elem_of_nil in Hi.
  - setoid_rewrite elem_of_cons. unfold is_channel_note, channel_notes_contains.
    case_bool_decide as Hc; cbn [err_if mbind result_bind]; [split; [done|]|].
    + intros H. rewrite (H i) in Hc by by left. by destruct Hc.
    + apply eq_None_not_Some in Hc. rewrite IH. naive_solver.
Qed.

Lemma all_in_channel_ok inputs c id :
  all_in_channel inputs c id = Ok tt ↔ ∀ i, i ∈ inputs → channel_notes c !! i = Some id.
Proof.
  induction inputs as [|i inputs IH]; cbn [all_in_channel].
  - split; [|done]. intros _ i Hi. by apply not_elem_of_nil in Hi.
  - setoid_rewrite elem_of_cons. unfold is_channel_note_of, is_a_channel.
    case_bool_decide as Hc; cbn [negb err_if mbind result_bind]; [rewrite IH; naive_solver|naive_solver].
Qed.

(** A note is spendable as a regular note. *)
Theorem validate_not_in_channel_ok inputs s c utxos : ks_ok utxos →
  validate_not_in_channel inputs s c utxos = Ok tt ↔
  NoDup inputs ∧ ∀ i, i ∈ inputs → is_Some (ks_view utxos !! i) ∧ s !! i = None ∧ channel_notes c !! i = None.
Proof.
  intros Hok. unfold validate_not_in_channel. rewrite result_bind_ok. setoid_rewrite result_bind_ok.
  rewrite <- validate_uniqueness_ok. split.
  - intros ([] & Hu & [] & Hs & Hc). apply not_in_service_ok in Hs as [? ?]; [|done].
    rewrite none_in_channel_ok in Hc. auto.
  - intros [Hu H]. exists tt. split; [done|]. exists tt. rewrite not_in_service_ok, none_in_channel_ok by done.
    unfold present. naive_solver.
Qed.

(** A note is spendable as a note of a channel. *)
Lemma validate_in_channel_ok inputs s c id utxos : ks_ok utxos →
  validate_in_channel inputs s c id utxos = Ok tt ↔
  NoDup inputs ∧ ∀ i, i ∈ inputs → is_Some (ks_view utxos !! i) ∧ s !! i = None ∧ channel_notes c !! i = Some id.
Proof.
  intros Hok. unfold validate_in_channel. rewrite result_bind_ok. setoid_rewrite result_bind_ok.
  rewrite <- validate_uniqueness_ok. split.
  - intros ([] & Hu & [] & Hs & Hc). apply not_in_service_ok in Hs as [? ?]; [|done].
    rewrite all_in_channel_ok in Hc. auto.
  - intros [Hu H]. exists tt. split; [done|]. exists tt. rewrite not_in_service_ok, all_in_channel_ok by done.
    unfold present. naive_solver.
Qed.

(** ** Removal and sum *)

Definition removed (m : gmap NoteId Utxo) inputs : gmap NoteId Utxo := foldr delete m inputs.

Definition inputs_value (m : gmap NoteId Utxo) inputs : Z :=
  foldr (λ i acc, from_option utxo_value 0 (m !! i) + acc) 0 inputs.

Lemma inputs_value_delete m i inputs : i ∉ inputs → inputs_value (delete i m) inputs = inputs_value m inputs.
Proof.
  unfold inputs_value. induction inputs as [|j inputs IH]; [done|]. intros [Hne Hi]%not_elem_of_cons. cbn [foldr].
  by rewrite IH, lookup_delete_ne by done.
Qed.

Lemma removed_delete m i inputs : removed (delete i m) inputs = delete i (removed m inputs).
Proof. unfold removed. induction inputs as [|j inputs IH]; [done|]. cbn [foldr]. by rewrite IH, delete_delete. Qed.

Lemma lookup_removed m inputs i : removed m inputs !! i = if bool_decide (i ∈ inputs) then None else m !! i.
Proof.
  unfold removed. induction inputs as [|j inputs IH]; cbn [foldr].
  - rewrite bool_decide_false; [done|apply not_elem_of_nil].
  - rewrite lookup_delete, IH. destruct (decide (j = i)) as [->|Hne].
    + rewrite bool_decide_true; [done|constructor].
    + repeat case_bool_decide; set_solver.
Qed.

Lemma inputs_execute_ok inputs utxos : ks_ok utxos → NoDup inputs → present utxos inputs →
  ∃ utxos', inputs_execute inputs utxos = Ok utxos' ∧ ks_ok utxos' ∧
    ks_view utxos' = removed (ks_view utxos) inputs ∧
    map_sum utxo_value (ks_view utxos') = map_sum utxo_value (ks_view utxos) - inputs_value (ks_view utxos) inputs.
Proof.
  intros Hok Hnd. revert utxos Hok. induction Hnd as [|i inputs Hi Hnd IH]; intros utxos Hok Hp; cbn [inputs_execute].
  - exists utxos. split; [done|]. split; [done|]. split; [done|]. cbn. lia.
  - apply present_cons in Hp as [[u Hu] Hp].
    destruct (ks_remove_ok (InexistingNote i) utxos i u Hok Hu) as (t' & -> & Hok' & Hv). cbn [mbind result_bind].
    destruct (IH t' Hok') as (t'' & -> & Hok'' & Hv'' & Hs).
    { intros j Hj. rewrite Hv, lookup_delete_ne by set_solver. by apply Hp. }
    exists t''. split; [done|]. split; [done|]. rewrite Hv in Hv'', Hs. split.
    + rewrite Hv'', removed_delete. done.
    + rewrite Hs, (map_sum_delete _ _ _ u Hu), inputs_value_delete by done.
      unfold inputs_value. cbn [foldr]. rewrite Hu. cbn [from_option]. lia.
Qed.

Definition utxos_u64 utxos : Prop := ∀ i u, ks_view utxos !! i = Some u → note_ok (note u).

Lemma inputs_value_nonneg inputs utxos : utxos_u64 utxos → 0 <= inputs_value (ks_view utxos) inputs.
Proof.
  intros Hu. unfold inputs_value. induction inputs as [|i inputs IH]; [done|]. cbn [foldr].
  destruct (ks_view utxos !! i) as [u|] eqn:Hi; cbn [from_option]; [|lia].
  destruct (Hu i u Hi) as [? _]. assert (0 <= utxo_value u) by done. lia.
Qed.

Lemma inputs_amount_from_sum a inputs utxos : ks_ok utxos → utxos_u64 utxos → present utxos inputs → a <= u64_max →
  inputs_amount_from a inputs utxos
  = if a + inputs_value (ks_view utxos) inputs <=? u64_max then Ok (a + inputs_value (ks_view utxos) inputs)
    else Err InputsOverflow.
Proof.
  intros Hok Hu. revert a. induction inputs as [|i inputs IH]; intros a Hp Ha; cbn [inputs_amount_from].
  - cbn. rewrite Z.add_0_r. by rewrite (proj2 (Z.leb_le _ _)).
  - apply present_cons in Hp as [[u Hi] Hp]. rewrite ks_get_view, Hi by done. cbn [ok_or mbind result_bind].
    assert (inputs_value (ks_view utxos) (i :: inputs) = value (note u) + inputs_value (ks_view utxos) inputs) as ->.
    { unfold inputs_value. cbn [foldr]. by rewrite Hi. }
    pose proof (inputs_value_nonneg inputs utxos Hu). destruct (Hu i u Hi) as [? _]. unfold checked_add.
    destruct (Z.leb_spec (a + value (note u)) u64_max); cbn [ok_or mbind result_bind].
    + rewrite IH by done. by rewrite Z.add_assoc.
    + by rewrite (proj2 (Z.leb_gt _ _)) by lia.
Qed.

(** The amount of present inputs is their value, unless it overflows. *)
Lemma inputs_amount_sum inputs utxos : ks_ok utxos → utxos_u64 utxos → present utxos inputs →
  inputs_amount inputs utxos
  = if inputs_value (ks_view utxos) inputs <=? u64_max then Ok (inputs_value (ks_view utxos) inputs) else Err InputsOverflow.
Proof. intros. unfold inputs_amount. by rewrite (inputs_amount_from_sum 0) by done. Qed.

End StoreFacts.

End Inputs.
