(* ===== verification/ChannelOps.v ===== *)
(** * Channel operations

    core/src/mantle/ops/channel: what each channel operation checks before it is
    signed into a block (preverification), against the ledger (verification),
    and what it does (execution). *)

From S2P Require Import Prelude MerkleStore Codec Ops Utxos Channels ServiceNotes Inputs.

#[local] Open Scope Z_scope.

Module ChannelOps.
Import Canonical Ops Utxos Channels ServiceNotes Inputs.

(** ** Third-party code and shared data *)

(** [ed25519_dalek]: [VerifyingKey::verify_strict] of a key, a message and a
    signature. *)
Class Ed25519Verify := { verify_strict : Ed25519Key → list byte → list byte → bool }.

(** [TxHashView]: the hash of a transaction and its field element. *)
Definition as_fr (tx_hash : TxHash) : Z := fr_from_mod_bytes tx_hash.

(** [ChannelMultiSigProof]: the code keeps an ordered map from key indices to
    signatures, here the list of its entries. That the indices are ascending, so that
    there is one signature per index, is part of [proof_wf], which decoding ensures. *)
Definition ChannelMultiSigProof := list (Z * list byte).

(** The points of a Groth16 proof are its bytes. *)
Definition ZkSignature := list byte.

(** [DeferredZkSig]. *)
Definition DeferredZkSig : Type := ZkSignature * ZkSignVerifierInputs.

(** [channel::Error]. *)
Inductive ChannelError :=
  | InvalidParent (channel_id : ChannelId) (parent actual : MsgId)
  | UnauthorizedSigner (channel_id : ChannelId) (signer : Ed25519Key)
  | InvalidSigner
  | InvalidSignature
  | InvalidSignatureIndex (channel_id : ChannelId) (sequencers index : Z)
  | ChannelNotFound (channel_id : ChannelId)
  | InvalidChannelConfig
  | UnbalancedTransfer
  | ChannelNotesErr (e : ChannelNotesError)
  | ChannelInputsErr (e : InputsError)
  | ChannelOutputsErr (e : OutputsError)
  | ThresholdUnmet (channel_id : ChannelId) (required actual : Z).

(** The part of [VerificationError] the multi-signature check raises. *)
Inductive MultiSigError :=
  | MultiSigChannelNotFound (channel_id : ChannelId)
  | KeyNotFound (channel_id : ChannelId) (key_index : Z)
  | NotEnoughSignatures (op_index actual required : Z)
  | InvalidSignatureAt (op_index signature_index : Z).

Section ChannelOps.
Context {T : Type} `{!KeyedStoreOps T NoteId Utxo}.
Context `{Poseidon2Crate} `{Blake2Crate} `{Ed25519Crate} `{Ed25519Verify}.
Implicit Types (c : Channels) (utxos : T) (tx_hash : TxHash).

(** ** Inscriptions *)

Definition inscription_preverify (op : InscriptionOp) (proof : list byte) tx_hash : result ChannelError unit :=
  err_if (vk_is_weak (i_signer op)) InvalidSigner;;
  err_if (negb (verify_strict (i_signer op) tx_hash proof)) InvalidSignature.

Definition inscription_verify (op : InscriptionOp) c (block_slot : Z) : result ChannelError unit :=
  match channels c !! i_channel_id op with
  | Some channel =>
      err_if (negb (bool_decide (i_parent op = tip_message channel)))
        (InvalidParent (i_channel_id op) (i_parent op) (tip_message channel));;
      '(index, _) ← round_robin channel block_slot;
      key ← expect (accredited_keys channel !! Z.to_nat index);
      err_if (negb (bool_decide (i_signer op = key))) (UnauthorizedSigner (i_channel_id op) (i_signer op))
  | None =>
      err_if (negb (bool_decide (i_parent op = root))) (InvalidParent (i_channel_id op) (i_parent op) root)
  end.

(** The channel an inscription creates. *)
Definition inscribed_channel (op : InscriptionOp) (block_slot : Z) : ChannelState :=
  mkChannel [i_signer op] 1 root root block_slot 0 block_slot 0 0 DEFAULT_TRANSFER_THRESHOLD.

Definition inscription_execute {E} (op : InscriptionOp) c (block_slot : Z) : result E Channels :=
  let channel := default (inscribed_channel op block_slot) (channels c !! i_channel_id op) in
  '(new_sequencer, new_starting_slot) ← round_robin channel block_slot;
  id ← msg_id_of inscription_codec op;
  Ok (mkChannels
        (<[i_channel_id op := mkChannel (accredited_keys channel) (configuration_threshold channel) id
             (config_tip_hash channel) block_slot new_sequencer new_starting_slot (posting_timeframe channel)
             (posting_timeout channel) (transfer_threshold channel)]> (channels c))
        (channel_notes c)).

(** ** Configurations *)

Fixpoint config_signatures (op : ChannelConfigOp) (channel : ChannelState) tx_hash (signatures : ChannelMultiSigProof)
    : result ChannelError unit :=
  match signatures with
  | [] => Ok tt
  | (index, signature) :: signatures =>
      key ← ok_or (accredited_keys channel !! Z.to_nat index)
              (InvalidSignatureIndex (c_channel op) (Z.of_nat (length (accredited_keys channel))) index);
      err_if (negb (verify_strict key tx_hash signature)) InvalidSignature;;
      config_signatures op channel tx_hash signatures
  end.

Definition config_verify (op : ChannelConfigOp) (proof : ChannelMultiSigProof) c tx_hash : result ChannelError unit :=
  let actual := Z.of_nat (length proof) in
  match channels c !! c_channel op with
  | Some channel =>
      err_if (negb (bool_decide (c_parent op = config_tip_hash channel)))
        (InvalidParent (c_channel op) (c_parent op) (config_tip_hash channel));;
      err_if (negb (actual =? configuration_threshold channel))
        (ThresholdUnmet (c_channel op) (configuration_threshold channel) actual);;
      config_signatures op channel tx_hash proof
  | None =>
      err_if (negb (bool_decide (c_parent op = root))) (InvalidParent (c_channel op) (c_parent op) root);;
      err_if (negb (bool_decide (proof = []))) (ThresholdUnmet (c_channel op) 0 actual)
  end.

Definition config_execute {E} (op : ChannelConfigOp) c (block_slot : Z) : result E Channels :=
  id ← msg_id_of channel_config_codec op;
  let message := from_option tip_message root (channels c !! c_channel op) in
  Ok (mkChannels
        (<[c_channel op := mkChannel (c_keys op) (c_configuration_threshold op) message id block_slot 0 block_slot
             (c_posting_timeframe op) (c_posting_timeout op) (c_transfer_threshold op)]> (channels c))
        (channel_notes c)).

(** ** Deposits *)

Definition deposit_preverify (op : DepositOp) : result ChannelError unit :=
  map_err ChannelInputsErr (inputs_preverify (d_inputs op)).

Definition deposit_verify (op : DepositOp) (proof : ZkSignature) c (service_notes : ServiceNotes) utxos tx_hash
    : result ChannelError DeferredZkSig :=
  err_if (negb (bool_decide (is_Some (channels c !! d_channel_id op)))) (ChannelNotFound (d_channel_id op));;
  map_err ChannelInputsErr (validate_not_in_channel (d_inputs op) service_notes c utxos);;
  public_keys ← map_err ChannelInputsErr (get_pk (d_inputs op) utxos);
  inputs ← ok_or (inputs_from_pks (as_fr tx_hash) public_keys) InvalidSignature;
  Ok (proof, inputs).

(** [DepositOp::outputs]: the notes of the inputs, re-created in the channel. *)
Definition deposit_outputs (op : DepositOp) utxos : result ChannelError (list Note) :=
  notes ← mapM (λ id, u ← ok_or (ks_get utxos id) (ChannelInputsErr (InexistingNote id)); Ok (note u)) (d_inputs op);
  map_err ChannelOutputsErr (outputs_try_new notes).

Fixpoint deposit_register c (channel_id : ChannelId) (notes : list DepositNote) (l : list Utxo)
    : result ChannelError (Channels * list DepositNote) :=
  match l with
  | [] => Ok (c, notes)
  | u :: l =>
      c ← map_err ChannelNotesErr (register_channel_note c (utxo_id u) channel_id);
      err_if (MAX_TRANSACTION_INPUTS <=? Z.of_nat (length notes)) (ChannelInputsErr InputsBounded);;
      deposit_register c channel_id (notes ++ [mkDepositNote (utxo_id u) (value (note u)) (pk (note u))]) l
  end.

Definition deposit_execute (op : DepositOp) c utxos tx_hash : result ChannelError ((Channels * T) * list TxEvent) :=
  amount_deposited ← map_err ChannelInputsErr (inputs_amount (d_inputs op) utxos);
  outputs ← deposit_outputs op utxos;
  utxos ← map_err ChannelInputsErr (inputs_execute (d_inputs op) utxos);
  id ← op_id_of deposit_codec op;
  utxos ← insert_utxos utxos (utxos_of id outputs);
  '(c, notes) ← deposit_register c (d_channel_id op) [] (utxos_of id outputs);
  Ok ((c, utxos), [mkTxEvent tx_hash id (DepositEvent (d_channel_id op) amount_deposited (d_metadata op) notes)]).

(** ** The keys of a channel *)

Section MultiSig.
Context (get_channel_transfer_threshold : ChannelId → result MultiSigError Z).
Context (get_key_from_channel_at_index : ChannelId → Z → result MultiSigError Ed25519Key).

Fixpoint multi_sig_loop (channel_id : ChannelId) (tx_hash_bytes : list byte) (op_index entry_index : Z)
    (signatures : ChannelMultiSigProof) : result MultiSigError unit :=
  match signatures with
  | [] => Ok tt
  | (key_index, signature) :: signatures =>
      public_key ← get_key_from_channel_at_index channel_id key_index;
      err_if (negb (verify_strict public_key tx_hash_bytes signature)) (InvalidSignatureAt op_index entry_index);;
      multi_sig_loop channel_id tx_hash_bytes op_index (entry_index + 1) signatures
  end.

Definition verify_channel_multi_sig (channel_id : ChannelId) (proof : ChannelMultiSigProof) (tx_hash_bytes : list byte)
    (op_index : Z) : result MultiSigError unit :=
  transfer_threshold ← get_channel_transfer_threshold channel_id;
  let signatures_len := Z.of_nat (length proof) in
  err_if (negb (signatures_len =? transfer_threshold)) (NotEnoughSignatures op_index signatures_len transfer_threshold);;
  multi_sig_loop channel_id tx_hash_bytes op_index 0 proof.

(** The signature loop of a withdrawal and of a channel transfer. *)
Fixpoint channel_signatures (channel : ChannelState) tx_hash (signatures : ChannelMultiSigProof) : result ChannelError unit :=
  match signatures with
  | [] => Ok tt
  | (index, signature) :: signatures =>
      key ← ok_or (accredited_keys channel !! Z.to_nat index) InvalidSignature;
      err_if (negb (verify_strict key tx_hash signature)) InvalidSignature;;
      channel_signatures channel tx_hash signatures
  end.

(** ** Withdrawals *)

Definition channel_withdraw_preverify (op : ChannelWithdrawOp) : result ChannelError unit :=
  map_err ChannelInputsErr (inputs_preverify (w_inputs op)).

Definition withdraw_verify (op : ChannelWithdrawOp) (proof : ChannelMultiSigProof) c (service_notes : ServiceNotes) utxos
    tx_hash (op_index : Z) : result ChannelError unit :=
  map_err (λ _, InvalidSignature) (verify_channel_multi_sig (w_channel_id op) proof tx_hash op_index);;
  channel ← ok_or (channels c !! w_channel_id op) (ChannelNotFound (w_channel_id op));
  map_err ChannelInputsErr (validate_in_channel (w_inputs op) service_notes c (w_channel_id op) utxos);;
  err_if (negb (Z.of_nat (length proof) =? transfer_threshold channel))
    (ThresholdUnmet (w_channel_id op) (transfer_threshold channel) (Z.of_nat (length proof)));;
  channel_signatures channel tx_hash proof.

Fixpoint unregister_all c (channel_id : ChannelId) (inputs : list NoteId) : result ChannelError Channels :=
  match inputs with
  | [] => Ok c
  | note_id :: inputs =>
      c ← map_err ChannelNotesErr (unregister_channel_note c note_id channel_id);
      unregister_all c channel_id inputs
  end.

Definition withdraw_execute (op : ChannelWithdrawOp) c : result ChannelError Channels :=
  unregister_all c (w_channel_id op) (w_inputs op).

(** ** Channel transfers *)

Definition channel_transfer_preverify (op : ChannelTransferOp) : result ChannelError unit :=
  map_err ChannelInputsErr (inputs_preverify (ct_inputs op));;
  map_err ChannelOutputsErr (outputs_validate (ct_outputs op)).

Definition channel_transfer_verify (op : ChannelTransferOp) (proof : ChannelMultiSigProof) c
    (service_notes : ServiceNotes) utxos tx_hash (op_index : Z) : result ChannelError unit :=
  map_err (λ _, InvalidSignature) (verify_channel_multi_sig (ct_channel_id op) proof tx_hash op_index);;
  channel ← ok_or (channels c !! ct_channel_id op) (ChannelNotFound (ct_channel_id op));
  map_err ChannelInputsErr (validate_in_channel (ct_inputs op) service_notes c (ct_channel_id op) utxos);;
  input_amount ← map_err ChannelInputsErr (inputs_amount (ct_inputs op) utxos);
  output_amount ← map_err ChannelOutputsErr (outputs_amount (ct_outputs op));
  err_if (negb (input_amount =? output_amount)) UnbalancedTransfer;;
  err_if (negb (Z.of_nat (length proof) =? transfer_threshold channel))
    (ThresholdUnmet (ct_channel_id op) (transfer_threshold channel) (Z.of_nat (length proof)));;
  channel_signatures channel tx_hash proof.

Fixpoint register_all c (channel_id : ChannelId) (l : list Utxo) : result ChannelError Channels :=
  match l with
  | [] => Ok c
  | u :: l =>
      c ← map_err ChannelNotesErr (register_channel_note c (utxo_id u) channel_id);
      register_all c channel_id l
  end.

Definition channel_transfer_execute (op : ChannelTransferOp) c utxos : result ChannelError (Channels * T) :=
  utxos ← map_err ChannelInputsErr (inputs_execute (ct_inputs op) utxos);
  c ← unregister_all c (ct_channel_id op) (ct_inputs op);
  id ← op_id_of channel_transfer_codec op;
  utxos ← insert_utxos utxos (utxos_of id (ct_outputs op));
  c ← register_all c (ct_channel_id op) (utxos_of id (ct_outputs op));
  Ok (c, utxos).

End MultiSig.

End ChannelOps.

End ChannelOps.
