(* ===== verification/SignedTx.v ===== *)
(** * Signed transactions and their wire format

    core/src/mantle/ops (op_proof.rs, op_proof_ref.rs, signed_op.rs) and
    core/src/mantle/transactions/tx_list: the proof each operation carries, the
    pairing of operations and proofs, the columnar encoding of a signed
    transaction, its hash and its storage size. The encoding is canonical, and
    the hash covers everything but the proofs. *)

From S2P Require Import Prelude Codec CodecLaws Ops OpsCodec Utxos Inputs Channels ServiceNotes ChannelOps.

#[local] Open Scope Z_scope.

Module SignedTx.
Import Canonical Ops OpsCodec Utxos ChannelOps.

(** ** Proofs *)

Definition Ed25519Signature := list byte.

(** [ZkAndEd25519Proof]. *)
Record ZkAndEd25519Proof := mkZkAndEd { zk_sig : ZkSignature; ed25519_sig : Ed25519Signature }.

(** [OpProof]. *)
Inductive OpProof :=
  | Ed25519Sig (proof : Ed25519Signature)
  | ZkSig (proof : ZkSignature)
  | ZkAndEd25519Sigs (proof : ZkAndEd25519Proof)
  | PoC (proof : list byte)
  | ChannelMultiSig (proof : ChannelMultiSigProof)
  | NoOpProof.

Definition SIGNATURE_SIZE : nat := 64.
Definition COMPRESSED_PROOF_SIZE : nat := 128.
Definition MAX_SIGNATURES : Z := u16_max.

(** The codec of each kind of proof. *)
Definition signature_codec : Codec unit Ed25519Signature := array_codec SIGNATURE_SIZE byte_codec.
Definition groth16_codec : Codec unit (list byte) := array_codec COMPRESSED_PROOF_SIZE byte_codec.

Definition zk_and_ed_fields (p : ZkAndEd25519Proof) := (zk_sig p, ed25519_sig p).
Definition zk_and_ed_build '(z, e) := mkZkAndEd z e.
Definition zk_and_ed_codec : Codec unit ZkAndEd25519Proof :=
  struct_codec zk_and_ed_fields zk_and_ed_build (field_pair groth16_codec signature_codec).

Definition multi_sig_codec : Codec unit ChannelMultiSigProof :=
  at_context (λ _, (tt, tt)) (bounded_btree_map Z.compare 0 MAX_SIGNATURES u16_codec signature_codec).

(** [OpProofRef::encoded_length] and [encode_into]: no tag. *)
Definition proof_length {E} (p : OpProof) : result E Z :=
  match p with
  | Ed25519Sig p => encoded_length signature_codec p
  | ZkSig p => encoded_length groth16_codec p
  | ZkAndEd25519Sigs p => encoded_length zk_and_ed_codec p
  | PoC p => encoded_length groth16_codec p
  | ChannelMultiSig p => encoded_length multi_sig_codec p
  | NoOpProof => Ok 0
  end.

Definition proof_encode {E} (p : OpProof) : result E (list byte) :=
  match p with
  | Ed25519Sig p => encode signature_codec p
  | ZkSig p => encode groth16_codec p
  | ZkAndEd25519Sigs p => encode zk_and_ed_codec p
  | PoC p => encode groth16_codec p
  | ChannelMultiSig p => encode multi_sig_codec p
  | NoOpProof => Ok []
  end.

(** [decode_proof_for]. *)
Definition decode_proof_for {T} (codec : Codec unit T) (f : T → OpProof) (input : list byte)
    : result DecodeError (list byte * OpProof) :=
  '(rest, proof) ← decode codec input tt; Ok (rest, f proof).

(** [OpProof::decode_for_op]: the kind is that of the operation. *)
Definition decode_for_op (input : list byte) (op : Op) : result DecodeError (list byte * OpProof) :=
  match op with
  | ChannelInscribe _ => decode_proof_for signature_codec Ed25519Sig input
  | ChannelConfig _ => decode_proof_for multi_sig_codec ChannelMultiSig input
  | ChannelDeposit _ => decode_proof_for groth16_codec ZkSig input
  | ChannelWithdraw _ => decode_proof_for multi_sig_codec ChannelMultiSig input
  | ChannelTransfer _ => decode_proof_for multi_sig_codec ChannelMultiSig input
  | SDPDeclare _ => decode_proof_for zk_and_ed_codec ZkAndEd25519Sigs input
  | SDPWithdraw _ => decode_proof_for groth16_codec ZkSig input
  | SDPActive _ => decode_proof_for groth16_codec ZkSig input
  | LeaderClaim _ => decode_proof_for groth16_codec PoC input
  | Transfer _ => decode_proof_for groth16_codec ZkSig input
  | ClaimPowReward _ => Ok (input, NoOpProof)
  end.

(** ** [SignedOp] *)

Inductive SignedOp :=
  | SignedInscribe (op : InscriptionOp) (proof : Ed25519Signature)
  | SignedConfig (op : ChannelConfigOp) (proof : ChannelMultiSigProof)
  | SignedDeposit (op : DepositOp) (proof : ZkSignature)
  | SignedWithdraw (op : ChannelWithdrawOp) (proof : ChannelMultiSigProof)
  | SignedChannelTransfer (op : ChannelTransferOp) (proof : ChannelMultiSigProof)
  | SignedSDPDeclare (op : DeclarationMessage) (proof : ZkAndEd25519Proof)
  | SignedSDPWithdraw (op : WithdrawMessage) (proof : ZkSignature)
  | SignedSDPActive (op : ActiveMessage) (proof : ZkSignature)
  | SignedLeaderClaim (op : LeaderClaimOp) (proof : list byte)
  | SignedTransfer (op : TransferOp) (proof : ZkSignature)
  | SignedClaimPow (op : ClaimPowRewardOp).

(** [SignedOp::operation] and [SignedOp::proof]. *)
Definition operation (s : SignedOp) : Op :=
  match s with
  | SignedInscribe op _ => ChannelInscribe op
  | SignedConfig op _ => ChannelConfig op
  | SignedDeposit op _ => ChannelDeposit op
  | SignedWithdraw op _ => ChannelWithdraw op
  | SignedChannelTransfer op _ => ChannelTransfer op
  | SignedSDPDeclare op _ => SDPDeclare op
  | SignedSDPWithdraw op _ => SDPWithdraw op
  | SignedSDPActive op _ => SDPActive op
  | SignedLeaderClaim op _ => LeaderClaim op
  | SignedTransfer op _ => Transfer op
  | SignedClaimPow op => ClaimPowReward op
  end.

Definition proof_of (s : SignedOp) : OpProof :=
  match s with
  | SignedInscribe _ p => Ed25519Sig p
  | SignedConfig _ p => ChannelMultiSig p
  | SignedDeposit _ p => ZkSig p
  | SignedWithdraw _ p => ChannelMultiSig p
  | SignedChannelTransfer _ p => ChannelMultiSig p
  | SignedSDPDeclare _ p => ZkAndEd25519Sigs p
  | SignedSDPWithdraw _ p => ZkSig p
  | SignedSDPActive _ p => ZkSig p
  | SignedLeaderClaim _ p => PoC p
  | SignedTransfer _ p => ZkSig p
  | SignedClaimPow _ => NoOpProof
  end.

(** [TryFrom<(Op, OpProof)> for SignedOp]. *)
Definition signed_op_try_from (op : Op) (p : OpProof) : option SignedOp :=
  match op, p with
  | ChannelInscribe op, Ed25519Sig p => Some (SignedInscribe op p)
  | ChannelConfig op, ChannelMultiSig p => Some (SignedConfig op p)
  | ChannelDeposit op, ZkSig p => Some (SignedDeposit op p)
  | ChannelWithdraw op, ChannelMultiSig p => Some (SignedWithdraw op p)
  | ChannelTransfer op, ChannelMultiSig p => Some (SignedChannelTransfer op p)
  | SDPDeclare op, ZkAndEd25519Sigs p => Some (SignedSDPDeclare op p)
  | SDPWithdraw op, ZkSig p => Some (SignedSDPWithdraw op p)
  | SDPActive op, ZkSig p => Some (SignedSDPActive op p)
  | LeaderClaim op, PoC p => Some (SignedLeaderClaim op p)
  | Transfer op, ZkSig p => Some (SignedTransfer op p)
  | ClaimPowReward op, NoOpProof => Some (SignedClaimPow op)
  | _, _ => None
  end.

(** ** [SignedOps] *)

Definition MAX_OPS_PER_TX : Z := u8_max.

(** [Ops] and [SignedOps]. *)
Record TxOps := mkTxOps { to_fork_digest : Hash; to_ops : list Op }.
Record SignedOps := mkSignedOps { fork_digest : Hash; signed_ops : list SignedOp }.

Inductive SignedOpsError :=
  | LengthMismatch (operations proofs : Z)
  | OpProofMismatch (index : Z) (operation : Op) (actual_proof : OpProof)
  | SignedOpsBounded.

(** The pairing loop of [SignedOps::from_parts]. *)
Fixpoint pair_ops (index : Z) (ops : list Op) (proofs : list OpProof) : result SignedOpsError (list SignedOp) :=
  match ops, proofs with
  | op :: ops, proof :: proofs =>
      s ← ok_or (signed_op_try_from op proof) (OpProofMismatch index op proof);
      rest ← pair_ops (index + 1) ops proofs;
      Ok (s :: rest)
  | _, _ => Ok []
  end.

(** [SignedOps::from_parts]. *)
Definition from_parts (ops : TxOps) (op_proofs : list OpProof) : result SignedOpsError SignedOps :=
  err_if (negb (length (to_ops ops) =? length op_proofs)%nat)
    (LengthMismatch (Z.of_nat (length (to_ops ops))) (Z.of_nat (length op_proofs)));;
  signed ← pair_ops 0 (to_ops ops) op_proofs;
  err_if (MAX_OPS_PER_TX <? Z.of_nat (length signed)) SignedOpsBounded;;
  Ok (mkSignedOps (to_fork_digest ops) signed).

(** [SignedOps::op_refs]. *)
Definition op_refs (t : SignedOps) : TxOps := mkTxOps (fork_digest t) (operation <$> signed_ops t).

Section Codecs.
Context `{Ed25519Crate} `{MultiaddrCrate}.

(** The codec of [Ops], which [OpRefs] shares. *)
Definition tx_ops_fields (o : TxOps) := (to_fork_digest o, to_ops o).
Definition tx_ops_build '(f, l) := mkTxOps f l.
Definition tx_ops_codec : Codec Z TxOps :=
  struct_codec tx_ops_fields tx_ops_build
    (field_pair (at_context (λ _, tt) bytes32) (bounded_vec 0 MAX_OPS_PER_TX op_codec)).

(** [OpProofs::decode_with_ops]. *)
Fixpoint decode_proofs (input : list byte) (ops : list Op) : result DecodeError (list byte * list OpProof) :=
  match ops with
  | [] => Ok (input, [])
  | op :: ops =>
      '(rest, op_proof) ← decode_for_op input op;
      '(rest, op_proofs) ← decode_proofs rest ops;
      Ok (rest, op_proof :: op_proofs)
  end.

Definition decode_with_ops (input : list byte) (ops : list Op) : result DecodeError (list byte * list OpProof) :=
  '(rest, op_proofs) ← decode_proofs input ops;
  err_if (MAX_OPS_PER_TX <? Z.of_nat (length op_proofs)) (Custom "Failed to decode OpProofs");;
  Ok (rest, op_proofs).

Fixpoint proofs_encode {E} (l : list OpProof) : result E (list byte) :=
  match l with
  | [] => Ok []
  | p :: l => b ← proof_encode p; bs ← proofs_encode l; Ok (b ++ bs)
  end.

Definition proofs_length {E} (l : list OpProof) : result E Z :=
  foldl (λ acc p, sum ← acc; n ← proof_length p; strict_add usize_max sum n) (Ok 0) l.

(** [BinaryEncode] and [BinaryDecode] of [SignedOps]. *)
Definition signed_ops_codec : Codec Z SignedOps := mkCodec
  (λ E t, n ← encoded_length tx_ops_codec (op_refs t);
          m ← proofs_length (proof_of <$> signed_ops t);
          strict_add usize_max n m)
  (λ E t, b ← encode tx_ops_codec (op_refs t); bs ← proofs_encode (proof_of <$> signed_ops t); Ok (b ++ bs))
  (λ input max_op_data_size,
    '(remaining_input, ops) ← decode tx_ops_codec input max_op_data_size;
    '(remaining_input, proofs) ← decode_with_ops remaining_input (to_ops ops);
    t ← map_err (λ _, Custom "Failed to construct SignedOps") (from_parts ops proofs);
    Ok (remaining_input, t)).

(** [SignedOps::storage_size]. *)
Definition storage_size {E} (t : SignedOps) : result E Z := encoded_length signed_ops_codec t.

Definition MANTLE_TX_HASH_V1 : list byte := ascii_bytes "MANTLE_TXHASH_V1".

(** [OpRefs::as_signing] and [tx_hasher]. *)
Definition as_signing {E} (t : SignedOps) : result E (list byte) :=
  b ← encode tx_ops_codec (op_refs t); Ok (MANTLE_TX_HASH_V1 ++ b).

Definition tx_hasher `{Blake2Crate} {E} (t : SignedOps) : result E TxHash :=
  b ← as_signing t; Ok (blake2b_256 b).

End Codecs.

(** ** Laws *)

(** A proof is well-formed when its parts have their sizes and the signatures of
    a channel are listed by ascending key index. *)
Definition proof_wf (p : OpProof) : Prop :=
  match p with
  | Ed25519Sig p => length p = SIGNATURE_SIZE
  | ZkSig p | PoC p => length p = COMPRESSED_PROOF_SIZE
  | ZkAndEd25519Sigs p => length (zk_sig p) = COMPRESSED_PROOF_SIZE ∧ length (ed25519_sig p) = SIGNATURE_SIZE
  | ChannelMultiSig p => Z.of_nat (length p) <= MAX_SIGNATURES ∧ ascending Z.compare p.*1 ∧
      Forall (λ e, in_u16 e.1 ∧ length e.2 = SIGNATURE_SIZE) p
  | NoOpProof => True
  end.

#[export] Instance signature_canonical : CanonicalCodec signature_codec :=
  revalidate _ (array_canonical _ byte_codec) (λ _ l, length l = SIGNATURE_SIZE) (λ 'tt, array_valid_bytes _).
#[export] Instance groth16_canonical : CanonicalCodec groth16_codec :=
  revalidate _ (array_canonical _ byte_codec) (λ _ l, length l = COMPRESSED_PROOF_SIZE) (λ 'tt, array_valid_bytes _).
#[export] Typeclasses Opaque signature_codec groth16_codec.

#[export] Instance zk_and_ed_fields_of : FieldsOf zk_and_ed_fields zk_and_ed_build.
Proof. split; by intros []. Qed.
#[export] Instance zk_and_ed_canonical : CanonicalCodec zk_and_ed_codec := _.
#[export] Instance multi_sig_canonical : CanonicalCodec multi_sig_codec := _.
#[export] Typeclasses Opaque zk_and_ed_codec multi_sig_codec.

Definition proof_bytes (p : OpProof) : list byte :=
  match p with
  | Ed25519Sig p => bytes signature_codec p
  | ZkSig p | PoC p => bytes groth16_codec p
  | ZkAndEd25519Sigs p => bytes zk_and_ed_codec p
  | ChannelMultiSig p => bytes multi_sig_codec p
  | NoOpProof => []
  end.

Lemma multi_sig_valid c p : valid multi_sig_codec c p ↔ proof_wf (ChannelMultiSig p).
Proof.
  unfold multi_sig_codec, proof_wf. cbn [valid multi_sig_canonical at_context_canonical bounded_btree_map_canonical
    canonical_ext prefixed_canonical entry_codec field_pair_canonical signature_canonical revalidate].
  assert (∀ e : Z * list byte, (valid u16_codec tt e.1 ∧ length e.2 = SIGNATURE_SIZE) ↔ in_u16 e.1 ∧ length e.2 = SIGNATURE_SIZE) as He.
  { intros e. unfold in_u16, u16_max. cbn. lia. }
  split.
  - intros ([_ ?] & HF & ?). split_and!; [done..|]. eapply Forall_impl; [exact HF|]. intros e. apply He.
  - intros (? & ? & HF). split_and!; [lia|done| |done]. eapply Forall_impl; [exact HF|]. intros e. apply He.
Qed.

(** Each kind of proof through its codec. *)
Lemma proof_encode_ok {E} p : proof_wf p → proof_encode (E:=E) p = Ok (proof_bytes p).
Proof.
  destruct p; cbn [proof_encode proof_bytes]; intros Hp; [by apply (encode_ok tt)..|apply (encode_ok tt)|done].
  by apply multi_sig_valid.
Qed.

Lemma proof_length_ok {E} p : proof_wf p → Z.of_nat (length (proof_bytes p)) <= usize_max →
  proof_length (E:=E) p = Ok (Z.of_nat (length (proof_bytes p))).
Proof.
  destruct p; cbn [proof_length proof_bytes]; intros Hp; [by apply (encoded_length_ok tt)..|apply (encoded_length_ok tt)|done].
  by apply multi_sig_valid.
Qed.

(** The proof of a signed operation is of the kind that is read for it. *)
Lemma decode_for_op_encode s rest : proof_wf (proof_of s) →
  decode_for_op (proof_bytes (proof_of s) ++ rest) (operation s) = Ok (rest, proof_of s).
Proof.
  destruct s; cbn [operation proof_of proof_bytes decode_for_op]; unfold decode_proof_for; intros Hp; [..|done];
    (rewrite decode_encode; [done|]); [done|by apply multi_sig_valid|done|by apply multi_sig_valid|by apply multi_sig_valid|done..].
Qed.

Lemma decode_proof_for_sound {T} (cd : Codec unit T) `{!CanonicalCodec cd} (f : T → OpProof) input rest p :
  decode_proof_for cd f input = Ok (rest, p) → ∃ v, p = f v ∧ valid cd tt v ∧ input = bytes cd v ++ rest.
Proof.
  unfold decode_proof_for. intros Hd. apply result_bind_ok in Hd as ([r v] & Hv & Hd). injection Hd as <- <-.
  apply decode_sound in Hv. eauto.
Qed.

Lemma decode_for_op_sound op input rest p : decode_for_op input op = Ok (rest, p) →
  ∃ s, signed_op_try_from op p = Some s ∧ proof_wf p ∧ input = proof_bytes p ++ rest.
Proof.
  destruct op; cbn [decode_for_op]; intros Hd; [apply (decode_proof_for_sound _) in Hd as (v & -> & Hv & ->)..|injection Hd as -> <-];
    eexists; (split; [done|]); (split; [|done]); first [done|exact Hv|exact (proj1 (multi_sig_valid _ _) Hv)].
Qed.

Lemma decode_for_op_no_fault op input f : decode_for_op input op ≠ Fault f.
Proof.
  destruct op; cbn [decode_for_op]; [unfold decode_proof_for..|done];
    (apply bind_no_fault; [apply decode_no_fault|by intros []]).
Qed.

(** Pairing is the inverse of reading the parts. *)
Lemma signed_op_try_from_Some op p s : signed_op_try_from op p = Some s ↔ operation s = op ∧ proof_of s = p.
Proof. split; [destruct op, p; cbn; intros [= <-]; done|]. intros [<- <-]. by destruct s. Qed.

Lemma pair_ops_ok l : ∀ index, pair_ops index (operation <$> l) (proof_of <$> l) = Ok l.
Proof.
  induction l as [|s l IH]; intros index; [done|]. rewrite !fmap_cons. cbn [pair_ops].
  rewrite (proj2 (signed_op_try_from_Some _ _ s)) by done. cbn [ok_or mbind result_bind]. by rewrite IH.
Qed.

Lemma pair_ops_sound ops : ∀ index proofs l, length ops = length proofs → pair_ops index ops proofs = Ok l →
  operation <$> l = ops ∧ proof_of <$> l = proofs.
Proof.
  induction ops as [|op ops IH]; intros index [|p proofs] l Hlen Hp; cbn [pair_ops] in Hp; [|done|done|].
  - by injection Hp as <-.
  - apply result_bind_ok in Hp as (s & Hs & Hp). destruct (signed_op_try_from op p) as [s'|] eqn:Ht; [|done].
    injection Hs as ->. apply result_bind_ok in Hp as (rest & Hr & Hp). injection Hp as <-.
    apply signed_op_try_from_Some in Ht as [<- <-]. apply IH in Hr as [<- <-]; [done|cbn in Hlen; lia].
Qed.

Definition all_proof_bytes (l : list OpProof) : list byte := concat (proof_bytes <$> l).

Lemma proofs_encode_ok {E} l : Forall proof_wf l → proofs_encode (E:=E) l = Ok (all_proof_bytes l).
Proof.
  induction 1 as [|p l Hp _ IH]; [done|]. cbn [proofs_encode]. rewrite (proof_encode_ok p Hp). cbn [mbind result_bind].
  by rewrite IH.
Qed.

Lemma proofs_length_ok {E} l : Forall proof_wf l → Z.of_nat (length (all_proof_bytes l)) <= usize_max →
  proofs_length (E:=E) l = Ok (Z.of_nat (length (all_proof_bytes l))).
Proof.
  intros Hl Hmax. unfold proofs_length.
  enough (∀ acc, 0 <= acc → acc + Z.of_nat (length (all_proof_bytes l)) <= usize_max →
    foldl (λ acc p, sum ← acc; n ← proof_length p; strict_add usize_max sum n) (Ok acc) l
    = Ok (E:=E) (acc + Z.of_nat (length (all_proof_bytes l)))) as Hg by (by apply (Hg 0)).
  clear Hmax. induction Hl as [|p l Hp _ IH]; intros acc H0 Hmax; [by rewrite Z.add_0_r|].
  unfold all_proof_bytes in *. rewrite fmap_cons in *. cbn [concat] in *. rewrite length_app, Nat2Z.inj_add in *.
  cbn [foldl mbind result_bind]. rewrite (proof_length_ok p Hp) by lia. cbn [mbind result_bind].
  rewrite strict_add_in by lia. rewrite IH by lia. f_equal. lia.
Qed.

Lemma decode_proofs_encode l rest : Forall (λ s, proof_wf (proof_of s)) l →
  decode_proofs (all_proof_bytes (proof_of <$> l) ++ rest) (operation <$> l) = Ok (rest, proof_of <$> l).
Proof.
  induction 1 as [|s l Hs _ IH]; [done|]. unfold all_proof_bytes. rewrite !fmap_cons. cbn [concat decode_proofs].
  rewrite <- app_assoc, (decode_for_op_encode s _ Hs). cbn [mbind result_bind]. fold (all_proof_bytes (proof_of <$> l)).
  by rewrite IH.
Qed.

Lemma decode_proofs_sound ops : ∀ input rest proofs, decode_proofs input ops = Ok (rest, proofs) →
  length ops = length proofs ∧ Forall proof_wf proofs ∧ input = all_proof_bytes proofs ++ rest ∧
  ∀ index, ∃ l, pair_ops index ops proofs = Ok l.
Proof.
  induction ops as [|op ops IH]; intros input rest proofs Hd; cbn [decode_proofs] in Hd.
  - injection Hd as -> <-. split_and!; [done..|]. by exists [].
  - apply result_bind_ok in Hd as ([r p] & Hp & Hd). apply result_bind_ok in Hd as ([r' ps] & Hps & Hd).
    injection Hd as <- <-. apply decode_for_op_sound in Hp as (s & Hs & Hwf & ->). apply IH in Hps as (Hlen & HF & -> & Hl).
    split_and!; [cbn; lia|by constructor|unfold all_proof_bytes; rewrite fmap_cons; cbn [concat]; by rewrite app_assoc|].
    intros index. destruct (Hl (index + 1)) as [l Hpl]. exists (s :: l). cbn [pair_ops]. by rewrite Hs; cbn; rewrite Hpl.
Qed.

Lemma decode_proofs_no_fault ops f : ∀ input, decode_proofs input ops ≠ Fault f.
Proof.
  induction ops as [|op ops IH]; intros input; cbn [decode_proofs]; [done|].
  apply bind_no_fault; [apply decode_for_op_no_fault|]. intros [r p] _. apply bind_no_fault; [apply IH|by intros []].
Qed.

Section TxLaws.
Context `{Ed25519Crate} `{MultiaddrCrate}.

(** A transaction within its bounds, of well-formed operations and proofs. *)
Definition signed_ops_wf (max : Z) (t : SignedOps) : Prop :=
  length (fork_digest t) = 32%nat ∧ Z.of_nat (length (signed_ops t)) <= MAX_OPS_PER_TX ∧
  Forall (λ s, op_wf max (operation s)) (signed_ops t) ∧ Forall (λ s, proof_wf (proof_of s)) (signed_ops t).

#[export] Instance tx_ops_fields_of : FieldsOf tx_ops_fields tx_ops_build.
Proof. split; by intros []. Qed.
#[export] Instance tx_ops_canonical : CanonicalCodec tx_ops_codec := _.

Lemma tx_ops_valid max o : valid tx_ops_codec max o ↔
  length (to_fork_digest o) = 32%nat ∧ Z.of_nat (length (to_ops o)) <= MAX_OPS_PER_TX ∧ Forall (op_wf max) (to_ops o).
Proof.
  unfold tx_ops_codec. cbn [valid tx_ops_canonical struct_canonical field_pair_canonical at_context_canonical bytes32_canonical
    revalidate bounded_vec_canonical prefixed_canonical op_canonical tx_ops_fields fst snd].
  split; [intros (? & [_ ?] & ? & _); done|]. intros (? & ? & ?). split_and!; [done|lia|done|done|by left].
Qed.

Lemma op_refs_valid max t : signed_ops_wf max t → valid tx_ops_codec max (op_refs t).
Proof.
  intros (Hf & Hlen & Ho & _). apply tx_ops_valid. unfold op_refs. cbn [to_fork_digest to_ops].
  rewrite length_fmap. split_and!; [done..|]. by apply Forall_fmap.
Qed.

#[export] Program Instance signed_ops_canonical : CanonicalCodec signed_ops_codec := {|
  valid := signed_ops_wf;
  bytes t := bytes tx_ops_codec (op_refs t) ++ all_proof_bytes (proof_of <$> signed_ops t)
|}.
Next Obligation.
  intros E max t Hwf. pose proof Hwf as (_ & _ & _ & Hp). cbn [encode signed_ops_codec].
  rewrite (encode_ok max _ (op_refs_valid max t Hwf)). cbn [mbind result_bind].
  by rewrite proofs_encode_ok by by apply Forall_fmap.
Qed.
Next Obligation.
  intros E max t Hwf Hle. pose proof Hwf as (_ & _ & _ & Hp). cbn [encoded_length signed_ops_codec]. cbn beta in *.
  rewrite length_app, Nat2Z.inj_add in *. rewrite (encoded_length_ok max _ (op_refs_valid max t Hwf)) by lia.
  cbn [mbind result_bind]. rewrite proofs_length_ok by (lia || by apply Forall_fmap). cbn [mbind result_bind].
  by apply strict_add_ok.
Qed.
Next Obligation.
  intros max t rest Hwf. pose proof Hwf as (_ & Hlen & _ & Hp). cbn [decode signed_ops_codec].
  rewrite <- app_assoc, (decode_encode max _ _ (op_refs_valid max t Hwf)). cbn [mbind result_bind].
  unfold decode_with_ops. cbn [op_refs to_ops]. rewrite decode_proofs_encode by done. cbn [mbind result_bind].
  rewrite length_fmap, (proj2 (Z.ltb_ge _ _)) by done. cbn [err_if mbind result_bind].
  unfold from_parts, op_refs. cbn [to_ops to_fork_digest]. rewrite !length_fmap, Nat.eqb_refl. cbn [negb err_if mbind result_bind].
  rewrite pair_ops_ok. cbn [mbind result_bind]. rewrite (proj2 (Z.ltb_ge _ _)) by done. cbn. by destruct t.
Qed.
Next Obligation.
  intros max input rest t Hd. cbn [decode signed_ops_codec] in Hd.
  apply result_bind_ok in Hd as ([r ops] & Ho & Hd). apply result_bind_ok in Hd as ([r' proofs] & Hps & Hd).
  apply result_bind_ok in Hd as (t' & Ht & Hd). injection Hd as <- <-. apply map_err_ok in Ht.
  apply decode_sound in Ho as [(Hf & Hlen & Hops)%tx_ops_valid ->].
  unfold decode_with_ops in Hps. apply result_bind_ok in Hps as ([r2 ps] & Hps & Hd).
  apply result_bind_ok in Hd as ([] & _ & Hd). injection Hd as <- <-.
  apply decode_proofs_sound in Hps as (_ & HF & -> & _). unfold from_parts in Ht.
  apply result_bind_ok in Ht as ([] & Hl & Ht). apply err_if_ok, negb_false_iff, Nat.eqb_eq in Hl.
  apply result_bind_ok in Ht as (l & Hl' & Ht). apply result_bind_ok in Ht as ([] & _ & Ht). injection Ht as <-.
  apply pair_ops_sound in Hl' as [Ho Hp]; [|done]. destruct ops as [fd ol]. cbn [to_ops to_fork_digest] in *. subst.
  unfold signed_ops_wf, op_refs. cbn [fork_digest signed_ops]. rewrite length_fmap in Hlen. rewrite Forall_fmap in Hops. rewrite Forall_fmap in HF.
  split; [done|]. by rewrite <- app_assoc.
Qed.
Next Obligation.
  intros max input f. cbn [decode signed_ops_codec]. apply bind_no_fault; [apply decode_no_fault|]. intros [r ops] _.
  apply bind_no_fault.
  - unfold decode_with_ops. apply bind_no_fault; [apply decode_proofs_no_fault|]. intros [? ?] _. by destruct (_ <? _).
  - intros [r' ps] Hps. unfold decode_with_ops in Hps. apply result_bind_ok in Hps as ([r2 ps'] & Hps & Hd).
    apply result_bind_ok in Hd as ([] & _ & Hd). injection Hd as -> ->.
    apply decode_proofs_sound in Hps as (_ & _ & _ & Hl). destruct (Hl 0) as [l Hpl]. unfold from_parts. rewrite Hpl.
    destruct (negb _); [done|]. cbn [err_if mbind result_bind]. by destruct (_ <? _).
Qed.

(** C37: Decoding a signed transaction never panics, whatever the input, and
    what it accepts is a well-formed transaction whose one encoding is the
    consumed bytes: no two byte strings carry the same transaction, so a third
    party cannot alter the bytes of one and keep it valid as the same one. *)
Theorem signed_tx_canonical {E} max input :
  match decode signed_ops_codec input max with
  | Ok (rest, t) => signed_ops_wf max t ∧ ∃ bs, encode signed_ops_codec (E:=E) t = Ok bs ∧ input = bs ++ rest
  | Err _ => True
  | Fault _ => False
  end.
Proof.
  destruct (decode signed_ops_codec input max) as [[rest t]|e|f] eqn:Hd; [|done|by apply decode_no_fault in Hd].
  apply decode_sound in Hd as [Hv Hi]. split; [done|]. exists (bytes signed_ops_codec t). split; [by apply (encode_ok max)|done].
Qed.

(** A well-formed signed transaction, encoded and followed by anything,
    decodes to itself and leaves the rest, and its storage size is the number of
    its bytes. *)
Theorem signed_tx_roundtrip {E} max t : signed_ops_wf max t → ∃ bs,
  encode signed_ops_codec (E:=E) t = Ok bs ∧
  (Z.of_nat (length bs) <= usize_max → storage_size (E:=E) t = Ok (Z.of_nat (length bs))) ∧
  ∀ rest, decode signed_ops_codec (bs ++ rest) max = Ok (rest, t).
Proof.
  intros Hwf. exists (bytes signed_ops_codec t). split; [by apply (encode_ok max)|].
  split; [by apply (encoded_length_ok max)|]. intros rest. by apply decode_encode.
Qed.

Lemma as_signing_ok {E} max t : signed_ops_wf max t →
  as_signing (E:=E) t = Ok (MANTLE_TX_HASH_V1 ++ bytes tx_ops_codec (op_refs t)).
Proof. intros Hwf. unfold as_signing. by rewrite (encode_ok max _ (op_refs_valid max t Hwf)). Qed.

(** The payload that is hashed and signed is that of the fork digest and
    the operations and of nothing else: two well-formed transactions have the
    same one exactly when these agree, whatever their proofs. *)
Theorem signing_payload_injective {E} max t1 t2 : signed_ops_wf max t1 → signed_ops_wf max t2 →
  as_signing (E:=E) t1 = as_signing t2 ↔ fork_digest t1 = fork_digest t2 ∧
    operation <$> signed_ops t1 = operation <$> signed_ops t2.
Proof.
  intros H1 H2. rewrite (as_signing_ok max t1 H1), (as_signing_ok max t2 H2). split.
  - intros Heq%Ok_inj%(app_inv_head MANTLE_TX_HASH_V1).
    pose proof (decode_encode max _ [] (op_refs_valid max t1 H1)) as Hd1.
    pose proof (decode_encode max _ [] (op_refs_valid max t2 H2)) as Hd2.
    rewrite Heq, Hd2 in Hd1. apply Ok_inj in Hd1. injection Hd1 as -> ->. done.
  - unfold op_refs. by intros [-> ->].
Qed.

End TxLaws.

End SignedTx.
