(* ===== verification/SdpOps.v ===== *)
(** * Service declarations: operations and ledger

    core/src/mantle/ops/sdp and ledger/src/mantle/sdp/mod.rs: the declare, active
    and withdraw operations, and the ledger of the services, which applies them
    and, at the start of an epoch, distributes rewards and removes the
    declarations whose withdrawal took effect. What a service computes its
    rewards with is the trait [Rewards] of ledger/src/mantle/sdp/rewards. *)

From S2P Require Import Prelude MerkleStore Codec Ops Utxos Channels ServiceNotes Inputs ChannelOps.

#[local] Open Scope Z_scope.

Module SdpOps.
Import Canonical Ops Utxos Channels ServiceNotes Inputs ChannelOps.

(** [EpochState] of ledger/src/cryptarchia/mod.rs. *)
Record EpochState (T : Type) := mkEpochState {
  es_epoch : Z;
  es_nonce : Z;
  blend_pow_difficulty : Z;
  es_utxos : T;
  total_stake : Z;
  lottery_0 : Z;
  lottery_1 : Z;
  active_declarations_of : gmap ServiceType Declarations
}.

Arguments mkEpochState {T} _ _ _ _ _ _ _ _.
Arguments es_epoch {T} _.
Arguments es_nonce {T} _.
Arguments blend_pow_difficulty {T} _.
Arguments es_utxos {T} _.
Arguments total_stake {T} _.
Arguments lottery_0 {T} _.
Arguments lottery_1 {T} _.
Arguments active_declarations_of {T} _.

(** ** Errors *)

Inductive SdpError :=
  | SdpInexistingNote (id : NoteId)
  | SdpChannelNote (id : NoteId)
  | InvalidZkSignature
  | InvalidEddsaSignature
  | DuplicateDeclaration (id : DeclarationId)
  | DuplicateProviderId (st : ServiceType) (p : ProviderId)
  | SdpNoteInsufficientValue (id : NoteId) (v : Z)
  | SdpNoteAlreadyUsedForService (id : NoteId) (st : ServiceType)
  | UnexpectedError
  | SdpDeclarationNotFound (id : DeclarationId)
  | DeclarationIdMismatch (operation supplied : DeclarationId)
  | SdpServiceNotFound (st : ServiceType)
  | DeclarationWithdrawn (id : DeclarationId) (at_epoch : Z)
  | InvalidNonceLifecycle (nonce_epoch created_epoch : Z)
  | InvalidNonceSequence (nonce_sequence declaration_sequence : Z)
  | SdpNotAServiceNote (id : NoteId)
  | SdpNoteNotUsedForService (id : NoteId) (st : ServiceType).

(** [rewards::Error]. *)
Inductive RewardsError :=
  | TargetEpochNotSet
  | InvalidEpoch (expected got : Z)
  | InvalidOpinionLength (expected got : Z)
  | DuplicateActiveMessage (epoch : Z) (p : ProviderId)
  | InvalidProofType
  | InvalidProof
  | HammingDistanceTooLarge
  | UnknownProvider (p : ProviderId).

(** The errors of the ledger of services that its operations raise. *)
Inductive SdpLedgerError :=
  | DeclarationNotFound (id : DeclarationId)
  | ServiceNotFound (st : ServiceType)
  | EpochParamsNotFound (st : ServiceType)
  | ServiceParamsNotFound (st : ServiceType)
  | RewardsErr (e : RewardsError)
  | SdpOpErr (e : SdpError).

(** ** Operations *)

(** [validate_nonce]. *)
Definition validate_nonce (candidate : Nonce) (d : Declaration) : result SdpError unit :=
  err_if (negb (lifecycle_epoch candidate =? created d)) (InvalidNonceLifecycle (lifecycle_epoch candidate) (created d));;
  err_if (sequence candidate <=? sequence (nonce d)) (InvalidNonceSequence (sequence candidate) (sequence (nonce d))).

Section Ops.
Context {T : Type} `{!KeyedStoreOps T NoteId Utxo}.
Context `{Poseidon2Crate} `{Blake2Crate} `{Ed25519Verify}.
Implicit Types (utxos : T) (tx_hash : TxHash) (ds : Declarations).

(** [validate_declaration_id]. *)
Definition validate_declaration_id (id : DeclarationId) (d : Declaration) : result SdpError unit :=
  err_if (negb (bool_decide (id = declaration_id d))) (DeclarationIdMismatch id (declaration_id d)).

(** [DeclarationMessage::preverify]. *)
Definition declare_preverify (op : DeclarationMessage) (ed25519_sig : list byte) tx_hash : result SdpError unit :=
  err_if (negb (verify_strict (dm_provider_id op) tx_hash ed25519_sig)) InvalidEddsaSignature.

(** [SDPDeclareValidationExt::validate]. *)
Definition declare_validate (op : DeclarationMessage) (n : Note) (c : Channels) ds (provider_index : ProviderIndex)
    (notes : ServiceNotes) (min_stake : MinStake) : result SdpError unit :=
  err_if (bool_decide (is_Some (ds !! message_id op))) (DuplicateDeclaration (message_id op));;
  err_if (bool_decide (is_Some (provider_index !! dm_provider_id op)))
    (DuplicateProviderId (dm_service_type op) (dm_provider_id op));;
  err_if (is_channel_note c (dm_service_note_id op)) (SdpChannelNote (dm_service_note_id op));;
  err_if (value n <? threshold min_stake) (SdpNoteInsufficientValue (dm_service_note_id op) (value n));;
  err_if (is_used_for_service notes (dm_service_note_id op) (dm_service_type op))
    (SdpNoteAlreadyUsedForService (dm_service_note_id op) (dm_service_type op)).

(** [verify] of [SDPDeclareOp]. *)
Definition declare_verify (op : DeclarationMessage) (zk_sig : ZkSignature) utxos (c : Channels) (notes : ServiceNotes)
    tx_hash ds (provider_index : ProviderIndex) (min_stake : MinStake) : result SdpError DeferredZkSig :=
  u ← ok_or (ks_get utxos (dm_service_note_id op)) (SdpInexistingNote (dm_service_note_id op));
  inputs ← ok_or (inputs_from_pks (as_fr tx_hash) [pk (note u); dm_zk_id op]) InvalidZkSignature;
  declare_validate op (note u) c ds provider_index notes min_stake;;
  Ok (zk_sig, inputs).

(** [SDPDeclareValidationExt::execute]. *)
Definition declare_execute (op : DeclarationMessage) utxos (epoch : Z) (r : Registry) (min_stake : MinStake)
    : result SdpError Registry :=
  let id := message_id op in
  d ← declaration_new epoch op;
  u ← expect (ks_get utxos (dm_service_note_id op));
  notes ← map_err (λ _, UnexpectedError)
            (lock (service_notes r) min_stake (dm_service_type op) id (note u) (dm_service_note_id op));
  Ok (mkRegistry (<[id := d]> (declarations r)) (<[dm_provider_id op := id]> (provider_index r)) notes).

(** [verify] and [execute] of [SDPActiveOp]. *)
Definition active_verify (op : ActiveMessage) (proof : ZkSignature) (d : Declaration) tx_hash (epoch : Z)
    : result SdpError DeferredZkSig :=
  validate_declaration_id (am_declaration_id op) d;;
  match withdraw_at d with
  | Some w => err_if (w <? epoch) (DeclarationWithdrawn (am_declaration_id op) w)
  | None => Ok tt
  end;;
  validate_nonce (am_nonce op) d;;
  inputs ← ok_or (inputs_from_pks (as_fr tx_hash) [zk_id d]) InvalidZkSignature;
  Ok (proof, inputs).

Definition active_execute {E} (op : ActiveMessage) (epoch : Z) ds : result E Declarations :=
  d ← expect (ds !! am_declaration_id op);
  Ok (<[am_declaration_id op :=
        mkDeclaration (service_type d) (provider_id d) (service_note_id d) (locators d) (zk_id d) (created d)
          epoch (withdraw_at d) (am_nonce op)]> ds).

(** [verify] and [execute] of [SDPWithdrawOp]. *)
Definition sdp_withdraw_verify (op : WithdrawMessage) (proof : ZkSignature) (d : Declaration) (notes : ServiceNotes) tx_hash
    : result SdpError DeferredZkSig :=
  validate_declaration_id (wm_declaration_id op) d;;
  match withdraw_at d with
  | Some w => Err (DeclarationWithdrawn (wm_declaration_id op) w)
  | None => Ok tt
  end;;
  n ← ok_or (sn_get notes (service_note_id d)) (SdpNotAServiceNote (service_note_id d));
  err_if (negb (is_used_by_declaration notes (service_note_id d) (service_type d) (wm_declaration_id op)))
    (SdpNoteNotUsedForService (service_note_id d) (service_type d));;
  validate_nonce (wm_nonce op) d;;
  inputs ← ok_or (inputs_from_pks (as_fr tx_hash) [pk n; zk_id d]) InvalidZkSignature;
  Ok (proof, inputs).

Definition sdp_withdraw_execute {E} (op : WithdrawMessage) ds (epoch : Z) : result E Declarations :=
  d ← expect (ds !! wm_declaration_id op);
  w ← strict_add u32_max epoch SNAPSHOT_FINALIZATION_DELAY;
  Ok (<[wm_declaration_id op :=
        mkDeclaration (service_type d) (provider_id d) (service_note_id d) (locators d) (zk_id d) (created d)
          (active d) (Some w) (wm_nonce op)]> ds).

End Ops.

(** ** The ledger of services *)

(** The trait [Rewards]. *)
Class Rewards (T R Params : Type) := {
  rw_update_active : R → ProviderId → ActivityMetadata → result RewardsError R;
  rw_update_epoch : ∀ {E}, R → EpochState T → EpochState T → ServiceParameters → Params → Params →
    result E (R * list Utxo);
  rw_add_income : ∀ {E}, R → Z → result E R
}.

(** The declarations of an epoch, each of another provider. *)
Definition distinct_providers (ds : Declarations) : Prop := ∀ id1 d1 id2 d2,
  ds !! id1 = Some d1 → ds !! id2 = Some d2 → provider_id d1 = provider_id d2 → id1 = id2.

Definition epoch_declarations_ok {T} (es : EpochState T) : Prop := ∀ st ds,
  active_declarations_of es !! st = Some ds → distinct_providers ds.

(** What the ledger relies on: the income a service holds back grows by what it
    receives, and an epoch pays out at most what it held. *)
Class RewardsLaws (T R Params : Type) `{!Rewards T R Params} := {
  rw_ok : R → Prop;
  rw_income : R → Z;
  rw_income_nonneg r : rw_ok r → 0 <= rw_income r;
  rw_update_active_ok r p m : rw_ok r →
    match rw_update_active r p m with
    | Ok r' => rw_ok r' ∧ rw_income r' = rw_income r
    | Err _ => True
    | Fault _ => False
    end;
  rw_add_income_ok {E} r income : rw_ok r → 0 <= income → rw_income r + income <= u64_max →
    ∃ r', rw_add_income (E:=E) r income = Ok r' ∧ rw_ok r' ∧ rw_income r' = rw_income r + income;
  rw_update_epoch_ok {E} r last_epoch_state epoch_state sp lp p r' utxos : rw_ok r → epoch_declarations_ok last_epoch_state →
    rw_update_epoch (E:=E) r last_epoch_state epoch_state sp lp p = Ok (r', utxos) →
    rw_ok r' ∧ rw_income r' + utxos_value utxos <= rw_income r ∧ Forall (λ u, note_ok (note u)) utxos
}.

(** [ServiceState], the payload of the only [Service]. *)
Record Service (R : Type) := mkService {
  s_service_type : ServiceType;
  s_declarations : Declarations;
  s_provider_index : ProviderIndex;
  s_rewards : R
}.

Arguments mkService {R} _ _ _ _.
Arguments s_service_type {R} _.
Arguments s_declarations {R} _.
Arguments s_provider_index {R} _.
Arguments s_rewards {R} _.

(** [sdp::Config]. *)
Record SdpConfig (Params : Type) := mkSdpConfig {
  service_params : gmap ServiceType ServiceParameters;
  service_rewards_params : Params;
  min_stake : MinStake
}.

Arguments mkSdpConfig {Params} _ _ _.
Arguments service_params {Params} _.
Arguments service_rewards_params {Params} _.
Arguments min_stake {Params} _.

Record SdpLedger (R : Type) := mkSdp {
  services : gmap ServiceType (Service R);
  sdp_service_notes : ServiceNotes;
  sdp_epoch : Z
}.

Arguments mkSdp {R} _ _ _.
Arguments services {R} _.
Arguments sdp_service_notes {R} _.
Arguments sdp_epoch {R} _.

(** [HeaderEffect]. *)
Record HeaderEffect := mkHeaderEffect { reward_utxos : list Utxo; he_events : list HeaderEvent }.

(** [is_active]. *)
Definition is_active {E} (d : Declaration) (current_epoch : Z) (config : ServiceParameters) : result E bool :=
  last ← strict_add u32_max (active d) (inactivity_period config);
  Ok ((current_epoch <=? last) && match withdraw_at d with Some w => current_epoch <? w | None => true end).

(** The entries of a map that a fallible test keeps. *)
Fixpoint filter_entries {E A} (f : A → result E bool) (l : list (DeclarationId * A)) : result E (list (DeclarationId * A)) :=
  match l with
  | [] => Ok []
  | (id, d) :: l => keep ← f d; rest ← filter_entries f l; Ok (if keep : bool then (id, d) :: rest else rest)
  end.

Section Ledger.
Context {T R Params : Type} `{!KeyedStoreOps T NoteId Utxo} `{!Rewards T R Params}.
Context `{Poseidon2Crate} `{Blake2Crate}.
Implicit Types (s : SdpLedger R) (utxos : T) (config : SdpConfig Params).

(** [SdpLedger::new] with [with_blend_service]. *)
Definition sdp_new (epoch : Z) (rewards : R) : SdpLedger R :=
  mkSdp {[BlendNetwork := mkService BlendNetwork ∅ ∅ rewards]} ∅ epoch.

(** [SdpLedger::get_declaration]. *)
Definition get_declaration s (id : DeclarationId) : option Declaration :=
  foldr (λ p acc, match s_declarations p.2 !! id with Some d => Some d | None => acc end) None
    (map_to_list (services s)).

(** [SdpLedger::get_service]. *)
Definition find_service s (id : DeclarationId) : option ServiceType :=
  foldr (λ p acc, if bool_decide (is_Some (s_declarations p.2 !! id)) then Some p.1 else acc) None
    (map_to_list (services s)).

Definition get_service s (id : DeclarationId) config : result SdpLedgerError (ServiceType * ServiceParameters) :=
  service ← ok_or (find_service s id) (DeclarationNotFound id);
  params ← ok_or (service_params config !! service) (ServiceParamsNotFound service);
  Ok (service, params).

(** [SdpLedger::get_declarations_by_service] and [get_provider_index_by_service]. *)
Definition get_declarations_by_service s (st : ServiceType) : option Declarations := s_declarations <$> services s !! st.
Definition get_provider_index_by_service s (st : ServiceType) : option ProviderIndex := s_provider_index <$> services s !! st.

(** The registry a service shares with the ledger, and putting it back. *)
Definition registry_of s (v : Service R) : Registry := mkRegistry (s_declarations v) (s_provider_index v) (sdp_service_notes s).

Definition with_registry s (st : ServiceType) (v : Service R) (r : Registry) : SdpLedger R :=
  mkSdp (<[st := mkService (s_service_type v) (declarations r) (provider_index r) (s_rewards v)]> (services s))
    (service_notes r) (sdp_epoch s).

(** [SdpLedger::try_apply_sdp_declaration], and the genesis one, which differs
    in what was checked before. *)
Definition try_apply_sdp_declaration s utxos (op : DeclarationMessage) config : result SdpLedgerError (SdpLedger R) :=
  v ← ok_or (services s !! dm_service_type op) (ServiceNotFound (dm_service_type op));
  r ← map_err SdpOpErr (declare_execute op utxos (sdp_epoch s) (registry_of s v) (min_stake config));
  Ok (with_registry s (dm_service_type op) v r).

(** [SdpLedger::apply_active_msg]. *)
Definition apply_active_msg s (op : ActiveMessage) config : result SdpLedgerError (SdpLedger R) :=
  '(service, _) ← get_service s (am_declaration_id op) config;
  v ← ok_or (services s !! service) (ServiceNotFound service);
  ds ← active_execute op (sdp_epoch s) (s_declarations v);
  d ← expect (ds !! am_declaration_id op);
  rewards ← map_err RewardsErr (rw_update_active (T:=T) (Params:=Params) (s_rewards v) (provider_id d) (am_metadata op));
  Ok (mkSdp (<[service := mkService (s_service_type v) ds (s_provider_index v) rewards]> (services s))
        (sdp_service_notes s) (sdp_epoch s)).

(** [SdpLedger::apply_withdrawn_msg]. *)
Definition apply_withdrawn_msg s (op : WithdrawMessage) config : result SdpLedgerError (SdpLedger R) :=
  '(service, _) ← get_service s (wm_declaration_id op) config;
  v ← ok_or (services s !! service) (ServiceNotFound service);
  ds ← sdp_withdraw_execute op (s_declarations v) (sdp_epoch s);
  Ok (mkSdp (<[service := mkService (s_service_type v) ds (s_provider_index v) (s_rewards v)]> (services s))
        (sdp_service_notes s) (sdp_epoch s)).

(** [SdpLedger::add_blend_income]. *)
Definition add_blend_income {E} s (income : Z) : result E (SdpLedger R) :=
  match services s !! BlendNetwork with
  | Some v =>
      rewards ← rw_add_income (T:=T) (Params:=Params) (s_rewards v) income;
      Ok (mkSdp (<[BlendNetwork := mkService (s_service_type v) (s_declarations v) (s_provider_index v) rewards]>
                   (services s)) (sdp_service_notes s) (sdp_epoch s))
  | None => Ok s
  end.

(** [SdpLedger::active_declarations]. *)
Definition active_declarations {E} s (epoch : Z) (params : gmap ServiceType ServiceParameters)
    : result E (gmap ServiceType Declarations) :=
  foldr (λ (p : ServiceType * Service R) acc,
    acc ← acc;
    match params !! p.1 with
    | None => Ok acc
    | Some ps =>
        entries ← filter_entries (λ d, is_active d epoch ps) (ordered_entries (s_declarations p.2));
        Ok (match entries with [] => acc | _ => <[p.1 := list_to_map entries]> acc end)
    end) (Ok ∅) (map_to_list (services s)).

(** [ServiceState::try_apply_header]. *)
Definition service_apply_header {E} (v : Service R) (last_epoch_state epoch_state : EpochState T) (notes : ServiceNotes)
    (params : ServiceParameters) (last_rewards_params rewards_params : Params)
    : result E ((Service R * ServiceNotes) * list Utxo * list HeaderEvent) :=
  if es_epoch last_epoch_state <? es_epoch epoch_state then
    '(rewards, utxos) ← rw_update_epoch (s_rewards v) last_epoch_state epoch_state params last_rewards_params rewards_params;
    let events := SdpRewardDistributed (s_service_type v) <$> utxos in
    '(r, unlocked) ← remove_withdrawn_declarations (mkRegistry (s_declarations v) (s_provider_index v) notes)
                       (es_epoch epoch_state);
    Ok ((mkService (s_service_type v) (declarations r) (provider_index r) rewards, service_notes r), utxos,
        events ++ unlocked)
  else Ok ((v, notes), [], []).

(** [SdpLedger::try_apply_header]: over the services, threading the notes. *)
Fixpoint services_apply_header (last_config config : SdpConfig Params) (last_epoch_state epoch_state : EpochState T)
    (acc : gmap ServiceType (Service R) * ServiceNotes) (utxos : list Utxo) (events : list HeaderEvent)
    (l : list (ServiceType * Service R))
    : result SdpLedgerError ((gmap ServiceType (Service R) * ServiceNotes) * list Utxo * list HeaderEvent) :=
  match l with
  | [] => Ok (acc, utxos, events)
  | (st, v) :: l =>
      params ← ok_or (service_params config !! st) (EpochParamsNotFound st);
      '((v', notes), u, e) ← service_apply_header v last_epoch_state epoch_state acc.2 params
                               (service_rewards_params last_config) (service_rewards_params config);
      services_apply_header last_config config last_epoch_state epoch_state (<[st := v']> acc.1, notes)
        (utxos ++ u) (events ++ e) l
  end.

Definition sdp_apply_header s (last_config config : SdpConfig Params) (last_epoch_state epoch_state : EpochState T)
    : result SdpLedgerError (SdpLedger R * HeaderEffect) :=
  '((services, notes), utxos, events) ← services_apply_header last_config config last_epoch_state epoch_state
      (∅, sdp_service_notes s) [] [] (map_to_list (services s));
  Ok (mkSdp services notes (es_epoch epoch_state), mkHeaderEffect utxos events).

(** [SdpLedger::from_genesis]: each declaration verified, then applied. *)
Fixpoint sdp_from_genesis s utxos (c : Channels) config (ops : list DeclarationMessage) : result SdpLedgerError (SdpLedger R) :=
  match ops with
  | [] => Ok s
  | op :: ops =>
      v ← ok_or (services s !! dm_service_type op) (ServiceNotFound (dm_service_type op));
      u ← ok_or (ks_get utxos (dm_service_note_id op)) (SdpOpErr (SdpInexistingNote (dm_service_note_id op)));
      map_err SdpOpErr (declare_validate op (note u) c (s_declarations v) (s_provider_index v) (sdp_service_notes s)
                          (min_stake config));;
      s ← try_apply_sdp_declaration s utxos op config;
      sdp_from_genesis s utxos c config ops
  end.

End Ledger.

End SdpOps.
