(* ===== verification/SdpTheorems.v ===== *)
(** * The registry of service declarations

    The invariant that ties the declarations of a service, its index of
    providers and the notes locked as collateral; every operation keeps it, and
    under it the removal of withdrawn declarations never panics. Along a run the
    nonces of the accepted messages never repeat, also across the removal and
    the renewal of a declaration. The first module, [SdpFacts], has the lemmas;
    [SdpTheorems] the invariant and the theorems. *)

From stdpp Require Import sorting.
From S2P Require Import Prelude MerkleStore Codec Ops Channels Utxos ServiceNotes Inputs ChannelOps SdpOps.

#[local] Open Scope Z_scope.

Module SdpFacts.
Import Canonical Ops Utxos Channels ServiceNotes Inputs ChannelOps SdpOps.

#[export] Instance declaration_inhabited : Inhabited Declaration :=
  populate (mkDeclaration BlendNetwork [] 0 [] 0 0 0 None (mkNonce 0 0)).

(** ** Ordered entries *)

Lemma ordered_entries_perm {A} (m : gmap (list byte) A) : ordered_entries m ≡ₚ map_to_list m.
Proof. apply merge_sort_Permutation. Qed.

Lemma elem_of_ordered_entries {A} (m : gmap (list byte) A) k x : (k, x) ∈ ordered_entries m ↔ m !! k = Some x.
Proof. by rewrite ordered_entries_perm, elem_of_map_to_list. Qed.

Lemma NoDup_ordered_entries {A} (m : gmap (list byte) A) : NoDup (ordered_entries m).*1.
Proof. rewrite ordered_entries_perm. apply NoDup_fst_map_to_list. Qed.

Lemma NoDup_fst_filter {A B} (P : A * B → Prop) `{∀ x, Decision (P x)} (l : list (A * B)) :
  NoDup l.*1 → NoDup (filter P l).*1.
Proof.
  induction l as [|[a b] l IH]; [done|]. rewrite fmap_cons. intros [Hn Hl]%NoDup_cons.
  rewrite filter_cons. case_decide; [|by apply IH]. rewrite fmap_cons. apply NoDup_cons. split; [|by apply IH].
  rewrite list_elem_of_fmap. intros (y & Hy & Hin). apply Hn. rewrite Hy.
  apply list_elem_of_filter in Hin as [_ Hin]. apply list_elem_of_fmap. by exists y.
Qed.

Section Registry.
Context `{Blake2Crate}.
Implicit Types (r : Registry) (d : Declaration) (st : ServiceType).

(** The note of a declaration is bound to it. *)
Definition bound (notes : ServiceNotes) st (id : DeclarationId) d : Prop :=
  ∃ sn, notes !! service_note_id d = Some sn ∧ sn_services sn !! st = Some id.

Record registry_ok st r : Prop := {
  ro_decl : ∀ id d, declarations r !! id = Some d →
    service_type d = st ∧ declaration_id d = id ∧ provider_index r !! provider_id d = Some id ∧
    bound (service_notes r) st id d;
  ro_index : ∀ p id, provider_index r !! p = Some id → ∃ d, declarations r !! id = Some d ∧ provider_id d = p;
  ro_notes : ∀ nid sn, service_notes r !! nid = Some sn →
    sn_services sn ≠ ∅ ∧
    ∀ id, sn_services sn !! st = Some id → ∃ d, declarations r !! id = Some d ∧ service_note_id d = nid
}.

Lemma registry_ok_empty st : registry_ok st (mkRegistry ∅ ∅ ∅).
Proof. split; cbn; intros * Hl; by apply lookup_empty_Some in Hl. Qed.

Lemma registry_distinct st r ds : registry_ok st r → ds ⊆ declarations r → distinct_providers ds.
Proof.
  intros [Hd _ _] Hsub id1 d1 id2 d2 H1 H2 Hp. eapply lookup_weaken in H1, H2; [|done..].
  destruct (Hd _ _ H1) as (_ & _ & Hi1 & _). destruct (Hd _ _ H2) as (_ & _ & Hi2 & _). rewrite Hp in Hi1. congruence.
Qed.

(** A declaration changed in what the registry does not index. *)
Definition same_declaration d d' : Prop :=
  service_type d' = service_type d ∧ provider_id d' = provider_id d ∧ service_note_id d' = service_note_id d ∧
  zk_id d' = zk_id d.

Lemma registry_ok_update st r id d d' : registry_ok st r → declarations r !! id = Some d → same_declaration d d' →
  registry_ok st (mkRegistry (<[id := d']> (declarations r)) (provider_index r) (service_notes r)).
Proof.
  intros [H1 H2 H3] Hd (E1 & E2 & E3 & E4). split; cbn.
  - intros id0 d0. rewrite lookup_insert_Some. intros [[<- <-]|[_ Hd0]]; [|by apply H1].
    destruct (H1 _ _ Hd) as (? & ? & ? & sn & ? & ?).
    unfold declaration_id, bound in *. rewrite E1, E2, E3, E4. eauto 10.
  - intros p id0 Hp. destruct (H2 _ _ Hp) as (d0 & Hd0 & Hpr).
    destruct (decide (id0 = id)) as [->|]; [exists d'|exists d0]; simplify_map_eq; [|done].
    split; [done|congruence].
  - intros nid sn Hn. destruct (H3 _ _ Hn) as [Hne Hb]. split; [done|]. intros id0 Hid0.
    destruct (Hb _ Hid0) as (d0 & Hd0 & Hnid).
    destruct (decide (id0 = id)) as [->|]; [exists d'|exists d0]; simplify_map_eq; [|done].
    split; [done|congruence].
Qed.

(** ** Locking and unlocking *)

Lemma lock_ok s ms st id n nid s' : lock s ms st id n nid = Ok s' →
  threshold ms <= value n ∧ is_used_for_service s nid st = false ∧
  s' = <[nid := match s !! nid with
                | Some sn => mkServiceNote (sn_note sn) (<[st := id]> (sn_services sn))
                | None => mkServiceNote n {[st := id]}
                end]> s.
Proof.
  unfold lock, is_used_for_service. intros Hl. inv_ok Hl; (split; [apply Z.ltb_ge in Hm; lia|]); split_match.
Qed.

Lemma lock_total s ms st id n nid : threshold ms <= value n → is_used_for_service s nid st = false →
  ∃ s', lock (s : ServiceNotes) ms st id n nid = Ok s'.
Proof.
  unfold lock, is_used_for_service. intros Hv Hu. rewrite (proj2 (Z.ltb_ge _ _)); [|lia].
  destruct (s !! nid) as [sn|]; [rewrite Hu|]; eauto.
Qed.

Lemma declare_registry_ok st r notes' op n ms epoch d :
  registry_ok st r → dm_service_type op = st → declaration_new (E:=SdpError) epoch op = Ok d →
  declarations r !! message_id op = None → provider_index r !! dm_provider_id op = None →
  lock (service_notes r) ms st (message_id op) n (dm_service_note_id op) = Ok notes' →
  registry_ok st (mkRegistry (<[message_id op := d]> (declarations r))
    (<[dm_provider_id op := message_id op]> (provider_index r)) notes').
Proof.
  intros [H1 H2 H3] <- Hnew Hfresh Hprov (_ & Hu & ->)%lock_ok. unfold declaration_new in Hnew. inv_ok Hnew.
  set (nid := dm_service_note_id op) in *. unfold is_used_for_service in Hu. split; cbn.
  - intros id0 d0. rewrite lookup_insert_Some. intros [[<- <-]|[Hne Hd0]].
    + cbn. split_and!; [done..|by simplify_map_eq|]. unfold bound. cbn. fold nid. rewrite lookup_insert_eq.
      destruct (service_notes r !! nid); eexists; (split; [done|]); cbn; by simplify_map_eq.
    + destruct (H1 _ _ Hd0) as (Hs & Hid & Hpi & sn & Hsn & Hb). split_and!; [done..| |].
      * rewrite lookup_insert_ne; [done|]. congruence.
      * unfold bound. destruct (decide (service_note_id d0 = nid)) as [Heq|Hn].
        -- rewrite Heq, lookup_insert_eq. exfalso. rewrite Heq in Hsn. rewrite Hsn, Hb in Hu.
           by rewrite bool_decide_eq_true_2 in Hu.
        -- rewrite lookup_insert_ne; [|done]. eauto.
  - intros p id0. rewrite lookup_insert_Some. intros [[<- <-]|[Hne Hp]].
    + eexists. rewrite lookup_insert_eq. done.
    + destruct (H2 _ _ Hp) as (d0 & Hd0 & Hpr). exists d0. rewrite lookup_insert_ne; [done|]. congruence.
  - intros nid0 sn0. rewrite lookup_insert_Some. intros [[<- <-]|[Hne Hn0]].
    + split; [destruct (service_notes r !! nid); cbn; apply insert_non_empty|]. intros id0 Hid0.
      assert (id0 = message_id op) as ->.
      { destruct (service_notes r !! nid); cbn in Hid0; simplify_map_eq; done. }
      eexists. rewrite lookup_insert_eq. done.
    + destruct (H3 _ _ Hn0) as [Hne0 Hb0]. split; [done|]. intros id0 Hid0.
      destruct (Hb0 _ Hid0) as (d0 & Hd0 & Hnid). exists d0. rewrite lookup_insert_ne; [done|]. congruence.
Qed.

Lemma unlock_bound notes st id d : bound notes st id d →
  ∃ sn, notes !! service_note_id d = Some sn ∧ sn_services sn !! st = Some id ∧
    unlock notes st id (service_note_id d) =
      Ok (if bool_decide (delete st (sn_services sn) = ∅) then delete (service_note_id d) notes
          else <[service_note_id d := mkServiceNote (sn_note sn) (delete st (sn_services sn))]> notes, sn_note sn).
Proof.
  intros (sn & Hsn & Hb). exists sn. split_and!; [done..|]. unfold unlock. rewrite Hsn.
  by rewrite bool_decide_eq_true_2.
Qed.

(** The notes after an unlocking. *)
Definition unlocked (notes : ServiceNotes) st (sn : ServiceNote) (nid : NoteId) : ServiceNotes :=
  if bool_decide (delete st (sn_services sn) = ∅) then delete nid notes
  else <[nid := mkServiceNote (sn_note sn) (delete st (sn_services sn))]> notes.

Lemma unlocked_lookup notes st sn nid nid' sn' : unlocked notes st sn nid !! nid' = Some sn' →
  (nid' ≠ nid ∧ notes !! nid' = Some sn') ∨
  (nid' = nid ∧ sn' = mkServiceNote (sn_note sn) (delete st (sn_services sn)) ∧ delete st (sn_services sn) ≠ ∅).
Proof.
  unfold unlocked. case_bool_decide as He.
  - rewrite lookup_delete_Some. naive_solver.
  - rewrite lookup_insert_Some. naive_solver.
Qed.

Lemma unlocked_lookup_ne notes st sn nid nid' : nid' ≠ nid → unlocked notes st sn nid !! nid' = notes !! nid'.
Proof. unfold unlocked. case_bool_decide; intros; by simplify_map_eq. Qed.

(** A removed declaration leaves a consistent registry. *)
Lemma remove_registry_ok st r id d sn : registry_ok st r → declarations r !! id = Some d →
  service_notes r !! service_note_id d = Some sn → sn_services sn !! st = Some id →
  registry_ok st (mkRegistry (delete id (declarations r)) (delete (provider_id d) (provider_index r))
    (unlocked (service_notes r) st sn (service_note_id d))).
Proof.
  intros [H1 H2 H3] Hd Hsn Hb. split; cbn.
  - intros id0 d0 [Hne Hd0]%lookup_delete_Some. destruct (H1 _ _ Hd0) as (Hs & Hid & Hpi & sn0 & Hsn0 & Hb0).
    destruct (H1 _ _ Hd) as (_ & _ & Hpi' & _). split_and!; [done..| |].
    + rewrite lookup_delete_ne; [done|]. congruence.
    + exists sn0. split; [|done]. rewrite unlocked_lookup_ne; [done|]. congruence.
  - intros p id0 [Hne Hp]%lookup_delete_Some. destruct (H2 _ _ Hp) as (d0 & Hd0 & Hpr). exists d0.
    rewrite lookup_delete_ne; [done|]. congruence.
  - intros nid sn0 [[Hne Hn]|(-> & -> & Hne)]%unlocked_lookup.
    + destruct (H3 _ _ Hn) as [Hne0 Hb0]. split; [done|]. intros id0 Hid0.
      destruct (Hb0 _ Hid0) as (d0 & Hd0 & Hnid). exists d0. rewrite lookup_delete_ne; [done|]. congruence.
    + split; [done|]. cbn. intros id0 [? ?]%lookup_delete_Some. done.
Qed.

(** ** Removing withdrawn declarations *)

(** The declarations that stay. *)
Definition kept (l : list (DeclarationId * Declaration)) (ds : Declarations) : Declarations :=
  foldl (λ ds p, delete p.1 ds) ds l.

Lemma remove_loop_ok {E} st l : ∀ r events, registry_ok st r → NoDup l.*1 →
  (∀ id d, (id, d) ∈ l → declarations r !! id = Some d) →
  ∃ r' events', remove_loop (E:=E) r events l = Ok (r', events') ∧ registry_ok st r' ∧
    declarations r' = kept l (declarations r) ∧
    (∀ nid sn, service_notes r' !! nid = Some sn → ∃ sn0, service_notes r !! nid = Some sn0 ∧ sn_note sn0 = sn_note sn).
Proof.
  induction l as [|[id d] l IH]; intros r events Hr Hnd Hin.
  { exists r, events. split_and!; [done..|]. eauto. }
  cbn in Hnd. apply NoDup_cons in Hnd as [Hid Hnd].
  assert (declarations r !! id = Some d) as Hd by (apply Hin; left).
  destruct (ro_decl _ _ Hr _ _ Hd) as (<- & _ & _ & Hb).
  destruct (unlock_bound _ _ _ _ Hb) as (sn & Hsn & Hs & Hu).
  cbn [remove_loop]. rewrite Hu. cbn [mbind result_bind].
  match goal with |- context [remove_loop ?r0 ?e0 l] => destruct (IH r0 e0) as (r' & ev & Hrun & Hok & Hds & Hn) end.
  - by apply (remove_registry_ok _ r id d sn).
  - done.
  - intros id0 d0 Hl. cbn. rewrite lookup_delete_ne; [apply Hin; by right|]. intros <-. apply Hid.
    apply list_elem_of_fmap. by exists (id, d0).
  - exists r', ev. split_and!; [done..|]. intros nid sn' Hsn'. destruct (Hn _ _ Hsn') as (sn0 & Hsn0 & <-).
    cbn in Hsn0. apply unlocked_lookup in Hsn0 as [[_ ?]|(-> & -> & _)]; eauto.
Qed.

Lemma kept_lookup l ds id d : kept l ds !! id = Some d ↔ ds !! id = Some d ∧ id ∉ l.*1.
Proof.
  revert ds. induction l as [|[id' d'] l IH]; intros ds.
  - split; [|by intros [? _]]. intros. split; [done|]. apply not_elem_of_nil.
  - change (kept ((id', d') :: l) ds) with (kept l (delete id' ds)). rewrite fmap_cons. cbn [fst].
    rewrite IH, lookup_delete_Some, not_elem_of_cons. naive_solver.
Qed.

Lemma to_remove_in epoch ds id d : (id, d) ∈ to_remove epoch ds ↔ ds !! id = Some d ∧ withdrawn epoch d = true.
Proof. unfold to_remove. rewrite list_elem_of_filter, elem_of_ordered_entries. naive_solver. Qed.

Lemma kept_to_remove epoch ds id d :
  kept (to_remove epoch ds) ds !! id = Some d ↔ ds !! id = Some d ∧ withdrawn epoch d = false.
Proof.
  rewrite kept_lookup. split; intros [Hd Hn]; (split; [done|]).
  - apply not_true_iff_false. intros Hw. apply Hn. apply list_elem_of_fmap. exists (id, d).
    split; [done|]. by apply to_remove_in.
  - intros ([id' d'] & -> & [Hd' Hw]%to_remove_in)%list_elem_of_fmap. cbn in *. congruence.
Qed.

Lemma remove_withdrawn_ok {E} st r epoch : registry_ok st r →
  ∃ r' events, remove_withdrawn_declarations (E:=E) r epoch = Ok (r', events) ∧ registry_ok st r' ∧
    (∀ id d, declarations r' !! id = Some d ↔ declarations r !! id = Some d ∧ withdrawn epoch d = false) ∧
    (∀ nid sn, service_notes r' !! nid = Some sn → ∃ sn0, service_notes r !! nid = Some sn0 ∧ sn_note sn0 = sn_note sn).
Proof.
  intros Hr. destruct (remove_loop_ok (E:=E) st (to_remove epoch (declarations r)) r []) as (r' & ev & Hrun & Hok & Hds & Hn).
  - done.
  - apply NoDup_fst_filter, NoDup_ordered_entries.
  - intros id d Hin. by apply to_remove_in in Hin as [? _].
  - exists r', ev. split_and!; [done..| |done]. intros id d. rewrite Hds. apply kept_to_remove.
Qed.

End Registry.

End SdpFacts.

(** * Runs of the ledger of services

    A run applies verified declarations, activity messages and withdrawals, and
    headers that may start an epoch. The registry stays consistent along it, no
    header panics, and no activity or withdrawal message is accepted twice. *)

#[local] Open Scope Z_scope.

Module SdpTheorems.
Import Canonical Ops Utxos Channels ServiceNotes Inputs ChannelOps SdpOps SdpFacts.

Section Runs.
Context {T R Params : Type} `{!KeyedStoreOps T NoteId Utxo} `{!Rewards T R Params}.
Context `{Poseidon2Crate} `{Blake2Crate}.
Implicit Types (s : SdpLedger R) (utxos : T) (config : SdpConfig Params).

(** An accepted message: the declaration it names and its nonce. *)
Notation Log := (list (DeclarationId * Nonce)).

Inductive sdp_run : SdpLedger R → Log → Prop :=
  | run_new epoch rewards : sdp_run (sdp_new epoch rewards) []
  | run_declare s log v utxos u c config op s' :
      sdp_run s log → services s !! dm_service_type op = Some v → ks_get utxos (dm_service_note_id op) = Some u →
      declare_validate op (note u) c (s_declarations v) (s_provider_index v) (sdp_service_notes s) (min_stake config)
        = Ok tt →
      try_apply_sdp_declaration s utxos op config = Ok s' → sdp_run s' log
  | run_active s log d proof tx_hash out config op s' :
      sdp_run s log → get_declaration s (am_declaration_id op) = Some d →
      active_verify op proof d tx_hash (sdp_epoch s) = Ok out →
      apply_active_msg s op config = Ok s' → sdp_run s' ((am_declaration_id op, am_nonce op) :: log)
  | run_withdraw s log d proof tx_hash out config op s' :
      sdp_run s log → get_declaration s (wm_declaration_id op) = Some d →
      sdp_withdraw_verify op proof d (sdp_service_notes s) tx_hash = Ok out →
      apply_withdrawn_msg s op config = Ok s' → sdp_run s' ((wm_declaration_id op, wm_nonce op) :: log)
  | run_income s log income s' :
      sdp_run s log → add_blend_income (E:=SdpLedgerError) s income = Ok s' → sdp_run s' log
  | run_header s log last_config config last_epoch_state epoch_state s' effect :
      sdp_run s log → es_epoch last_epoch_state = sdp_epoch s → sdp_epoch s <= es_epoch epoch_state →
      sdp_apply_header s last_config config last_epoch_state epoch_state = Ok (s', effect) → sdp_run s' log.

(** ** The invariant *)

Definition declaration_ok (epoch : Z) (d : Declaration) : Prop :=
  created d <= epoch ∧ lifecycle_epoch (nonce d) = created d ∧
  match withdraw_at d with Some w => created d + SNAPSHOT_FINALIZATION_DELAY <= w | None => True end.

Record sdp_ok_with s (v : Service R) : Prop := {
  so_services : services s = {[BlendNetwork := v]};
  so_type : s_service_type v = BlendNetwork;
  so_registry : registry_ok BlendNetwork (registry_of s v);
  so_decl : ∀ id d, s_declarations v !! id = Some d → declaration_ok (sdp_epoch s) d
}.

Definition sdp_ok s : Prop := ∃ v, sdp_ok_with s v.

(** The active declarations are declarations, under their identifiers. *)
Lemma filter_entries_sub {E A} (f : A → result E bool) l out : filter_entries f l = Ok out → out `sublist_of` l.
Proof.
  revert out. induction l as [|[id d] l IH]; intros out Hf; cbn [filter_entries] in Hf; [by injection Hf as <-|].
  peel Hf as keep Hk. peel Hf as rest Hr. injection Hf as <-. specialize (IH _ Hr). destruct keep; by constructor.
Qed.

Lemma active_declarations_sub {E} s v epoch params m st ds : services s = {[BlendNetwork := v]} →
  active_declarations (E:=E) s epoch params = Ok m → m !! st = Some ds → ds ⊆ s_declarations v.
Proof.
  unfold active_declarations. intros -> Ha Hm. rewrite map_to_list_singleton in Ha. cbn [foldr mbind result_bind] in Ha.
  destruct (params !! _) as [ps|]; [|injection Ha as <-; by apply lookup_empty_Some in Hm].
  peel Ha as entries He. apply Ok_inj in Ha. subst m. apply filter_entries_sub in He.
  destruct entries as [|e entries]; [by apply lookup_empty_Some in Hm|]. apply lookup_insert_Some in Hm as [[_ <-]|[_ Hm]]; [|by apply lookup_empty_Some in Hm].
  apply map_subseteq_spec. intros id d Hid. apply elem_of_list_to_map_2 in Hid. cbn in He.
  eapply sublist_subseteq in Hid; [|exact He]. by apply elem_of_ordered_entries.
Qed.

Lemma active_declarations_distinct {E} s v epoch params m st ds : sdp_ok_with s v →
  active_declarations (E:=E) s epoch params = Ok m → m !! st = Some ds → distinct_providers ds.
Proof.
  intros [Hs _ Hr _] Ha Hm. eapply (registry_distinct _ _ _ Hr). by eapply active_declarations_sub.
Qed.

(** What the state says of an accepted message: it is spent. *)
Definition spent s (v : Service R) (m : DeclarationId * Nonce) : Prop :=
  match s_declarations v !! m.1 with
  | Some d => lifecycle_epoch m.2 < created d ∨
              (lifecycle_epoch m.2 = created d ∧ sequence m.2 <= sequence (nonce d))
  | None => lifecycle_epoch m.2 < sdp_epoch s
  end.

Lemma sdp_new_ok epoch rewards : sdp_ok (sdp_new epoch rewards).
Proof.
  eexists. split; [done..|apply registry_ok_empty|]. cbn. intros id d Hl. by apply lookup_empty_Some in Hl.
Qed.

Lemma get_declaration_blend s v id : services s = {[BlendNetwork := v]} → get_declaration s id = s_declarations v !! id.
Proof. unfold get_declaration. intros ->. rewrite map_to_list_singleton. cbn. by destruct (s_declarations v !! id). Qed.

Lemma get_service_blend s v id config st p : services s = {[BlendNetwork := v]} →
  get_service s id config = Ok (st, p) → ∃ d, s_declarations v !! id = Some d.
Proof.
  unfold get_service, find_service. intros ->. rewrite map_to_list_singleton. cbn. intros Hg. inv_ok Hg.
  case_bool_decide as Hd; [|done]. exact Hd.
Qed.

Lemma service_lookup s v (st : ServiceType) : services s = {[BlendNetwork := v]} → services s !! st = Some v.
Proof. intros ->. destruct st. by rewrite lookup_singleton_eq. Qed.

Lemma service_insert s v v' (st : ServiceType) : services s = {[BlendNetwork := v]} →
  <[st := v']> (services s) = {[BlendNetwork := v']}.
Proof. intros ->. destruct st. apply insert_singleton_eq. Qed.

(** ** Steps *)

Lemma declare_validate_ok op n c ds pi notes ms : declare_validate op n c ds pi notes ms = Ok tt →
  ds !! message_id op = None ∧ pi !! dm_provider_id op = None ∧
  is_channel_note c (dm_service_note_id op) = false ∧ threshold ms <= value n ∧
  is_used_for_service notes (dm_service_note_id op) (dm_service_type op) = false.
Proof.
  unfold declare_validate. intros Hv. inv_ok Hv. rewrite bool_decide_eq_false in *. rewrite <- !eq_None_not_Some in *.
  split_and!; try done. apply Z.ltb_ge in Hok2. lia.
Qed.

Lemma validate_nonce_ok n d t : validate_nonce n d = Ok t →
  lifecycle_epoch n = created d ∧ sequence (nonce d) < sequence n.
Proof.
  unfold validate_nonce. intros Hv. inv_ok Hv. apply negb_false_iff, Z.eqb_eq in Hok. apply Z.leb_gt in Hv. done.
Qed.

Lemma declare_step s v utxos u c config op s' : sdp_ok_with s v → ks_get utxos (dm_service_note_id op) = Some u →
  declare_validate op (note u) c (s_declarations v) (s_provider_index v) (sdp_service_notes s) (min_stake config) = Ok tt →
  try_apply_sdp_declaration s utxos op config = Ok s' →
  ∃ v' d, sdp_ok_with s' v' ∧ sdp_epoch s' = sdp_epoch s ∧ created d = sdp_epoch s ∧
    s_declarations v !! message_id op = None ∧ s_declarations v' = <[message_id op := d]> (s_declarations v) ∧
    sdp_service_notes s' = <[dm_service_note_id op :=
      match sdp_service_notes s !! dm_service_note_id op with
      | Some sn => mkServiceNote (sn_note sn) (<[dm_service_type op := message_id op]> (sn_services sn))
      | None => mkServiceNote (note u) {[dm_service_type op := message_id op]}
      end]> (sdp_service_notes s) ∧ s_rewards v' = s_rewards v.
Proof.
  intros [Hsv Hty Hreg Hdec] Hu (Hf & Hp & _ & _ & _)%declare_validate_ok Happ.
  unfold try_apply_sdp_declaration in Happ. rewrite (service_lookup _ _ _ Hsv) in Happ. unfold declare_execute in Happ.
  inv_ok Happ. injection Hok as <-. rewrite Hu in Hok2. injection Hok2 as <-.
  eexists _, a1. split; [split|].
  - cbn. by eapply service_insert.
  - done.
  - cbn. assert (dm_service_type op = BlendNetwork) as Hst by (by destruct (dm_service_type op)).
    rewrite Hst in Hok3. by eapply (declare_registry_ok _ (registry_of s v)).
  - cbn. intros id d. unfold declaration_new in Hok1. inv_ok Hok1. rewrite lookup_insert_Some.
    intros [[_ <-]|[_ Hd]]; [|by eapply Hdec]. by unfold declaration_ok; cbn.
  - apply lock_ok in Hok3 as (_ & _ & ->). unfold declaration_new in Hok1. inv_ok Hok1. done.
Qed.

Lemma validate_declaration_id_ok id d : validate_declaration_id id d = Ok tt → id = declaration_id d.
Proof. unfold validate_declaration_id. intros Hv. inv_ok Hv. by rewrite negb_false_iff, bool_decide_eq_true in Hv. Qed.

Lemma active_verify_ok op proof d tx_hash epoch out : active_verify op proof d tx_hash epoch = Ok out →
  am_declaration_id op = declaration_id d ∧ lifecycle_epoch (am_nonce op) = created d ∧
  sequence (nonce d) < sequence (am_nonce op) ∧ ∀ w, withdraw_at d = Some w → epoch <= w.
Proof.
  unfold active_verify. intros Hv. rewrite !result_bind_ok in Hv. destruct Hv as ([] & Hid & Hv).
  rewrite result_bind_ok in Hv. destruct Hv as ([] & Hw & Hv). inv_ok Hv.
  apply validate_nonce_ok in Hok as [? ?]. apply validate_declaration_id_ok in Hid.
  split_and!; [done..|]. intros w Hw'. rewrite Hw' in Hw. apply err_if_ok, Z.ltb_ge in Hw. lia.
Qed.

Lemma withdraw_verify_ok op proof d notes tx_hash out : sdp_withdraw_verify op proof d notes tx_hash = Ok out →
  wm_declaration_id op = declaration_id d ∧ withdraw_at d = None ∧
  is_used_by_declaration notes (service_note_id d) (service_type d) (wm_declaration_id op) = true ∧
  lifecycle_epoch (wm_nonce op) = created d ∧ sequence (nonce d) < sequence (wm_nonce op).
Proof.
  unfold sdp_withdraw_verify. intros Hv. rewrite !result_bind_ok in Hv. destruct Hv as ([] & Hid & Hv).
  rewrite result_bind_ok in Hv. destruct Hv as ([] & Hw & Hv). inv_ok Hv.
  apply validate_nonce_ok in Hok1 as [? ?]. apply validate_declaration_id_ok in Hid.
  apply negb_false_iff in Hok0. destruct (withdraw_at d); done.
Qed.

Lemma active_step s v d proof tx_hash out config op s' : sdp_ok_with s v →
  get_declaration s (am_declaration_id op) = Some d → active_verify op proof d tx_hash (sdp_epoch s) = Ok out →
  apply_active_msg s op config = Ok s' →
  ∃ v' d', sdp_ok_with s' v' ∧ sdp_epoch s' = sdp_epoch s ∧ sdp_service_notes s' = sdp_service_notes s ∧
    s_declarations v !! am_declaration_id op = Some d ∧ s_declarations v' = <[am_declaration_id op := d']> (s_declarations v) ∧
    created d' = created d ∧ nonce d' = am_nonce op ∧
    lifecycle_epoch (am_nonce op) = created d ∧ sequence (nonce d) < sequence (am_nonce op) ∧
    ∃ p, rw_update_active (s_rewards v) p (am_metadata op) = Ok (s_rewards v').
Proof.
  intros [Hsv Hty Hreg Hdec]. rewrite (get_declaration_blend _ _ _ Hsv). intros Hd Hver Happ.
  apply active_verify_ok in Hver as (_ & Hl & Hseq & _).
  unfold apply_active_msg in Happ. inv_ok Happ. rewrite (service_lookup _ _ _ Hsv) in Hok0. injection Hok0 as <-.
  unfold active_execute in Hok1. inv_ok Hok1. rewrite Hd in Hok0. injection Hok0 as <-.
  eexists _, _. split; [split|].
  - cbn. by eapply service_insert.
  - done.
  - cbn. by eapply (registry_ok_update _ (registry_of s v)).
  - cbn. intros id d0. rewrite lookup_insert_Some. intros [[_ <-]|[_ Hd0]]; [|by eapply Hdec].
    destruct (Hdec _ _ Hd) as (? & ? & ?). done.
  - cbn. split_and!; [done..|]. by eexists.
Qed.

Lemma withdraw_step s v d proof tx_hash out config op s' : sdp_ok_with s v →
  get_declaration s (wm_declaration_id op) = Some d →
  sdp_withdraw_verify op proof d (sdp_service_notes s) tx_hash = Ok out →
  apply_withdrawn_msg s op config = Ok s' →
  ∃ v' d', sdp_ok_with s' v' ∧ sdp_epoch s' = sdp_epoch s ∧ sdp_service_notes s' = sdp_service_notes s ∧
    s_declarations v !! wm_declaration_id op = Some d ∧ s_declarations v' = <[wm_declaration_id op := d']> (s_declarations v) ∧
    created d' = created d ∧ nonce d' = wm_nonce op ∧
    lifecycle_epoch (wm_nonce op) = created d ∧ sequence (nonce d) < sequence (wm_nonce op) ∧ s_rewards v' = s_rewards v.
Proof.
  intros [Hsv Hty Hreg Hdec]. rewrite (get_declaration_blend _ _ _ Hsv). intros Hd Hver Happ.
  apply withdraw_verify_ok in Hver as (_ & _ & _ & Hl & Hseq).
  unfold apply_withdrawn_msg in Happ. inv_ok Happ. rewrite (service_lookup _ _ _ Hsv) in Hok0. injection Hok0 as <-.
  unfold sdp_withdraw_execute in Hok1. inv_ok Hok1. rewrite Hd in Hok0. injection Hok0 as <-.
  eexists _, _. split; [split|].
  - cbn. by eapply service_insert.
  - done.
  - cbn. by eapply (registry_ok_update _ (registry_of s v)).
  - cbn. intros id d0. rewrite lookup_insert_Some. intros [[_ <-]|[_ Hd0]]; [|by eapply Hdec].
    destruct (Hdec _ _ Hd) as (? & ? & ?). unfold declaration_ok; cbn. split_and!; [done..|lia].
  - done.
Qed.

Lemma income_step {E} s v income s' : sdp_ok_with s v → add_blend_income (E:=E) s income = Ok s' →
  ∃ v', sdp_ok_with s' v' ∧ sdp_epoch s' = sdp_epoch s ∧ s_declarations v' = s_declarations v ∧
    sdp_service_notes s' = sdp_service_notes s ∧ rw_add_income (E:=E) (s_rewards v) income = Ok (s_rewards v').
Proof.
  intros [Hsv Hty Hreg Hdec]. unfold add_blend_income. rewrite (service_lookup _ _ _ Hsv). intros Ha. inv_ok Ha.
  eexists. split; [split|]; [by eapply service_insert|done..].
Qed.

(** What a header does to the service, once its rewards are computed. *)
Lemma service_header_ok {E} s v last_es es params lp p out : sdp_ok_with s v →
  (es_epoch last_es < es_epoch es → rw_update_epoch (E:=E) (s_rewards v) last_es es params lp p = Ok out) →
  ∃ v' notes' rutxos events,
    service_apply_header (E:=E) v last_es es (sdp_service_notes s) params lp p = Ok ((v', notes'), rutxos, events) ∧
    s_service_type v' = BlendNetwork ∧ registry_ok BlendNetwork (mkRegistry (s_declarations v') (s_provider_index v') notes') ∧
    (∀ id d, s_declarations v' !! id = Some d ↔
      s_declarations v !! id = Some d ∧ ¬ (es_epoch last_es < es_epoch es ∧ withdrawn (es_epoch es) d = true)) ∧
    (∀ nid sn, notes' !! nid = Some sn → ∃ sn0, sdp_service_notes s !! nid = Some sn0 ∧ sn_note sn0 = sn_note sn) ∧
    rutxos = (if es_epoch last_es <? es_epoch es then out.2 else []) ∧
    s_rewards v' = (if es_epoch last_es <? es_epoch es then out.1 else s_rewards v).
Proof.
  intros [Hsv Hty Hreg Hdec] Hout. unfold service_apply_header. destruct (Z.ltb_spec (es_epoch last_es) (es_epoch es)) as [Hlt|Hge].
  - rewrite (Hout Hlt). destruct out as [rewards rutxos]. cbn [mbind result_bind].
    destruct (remove_withdrawn_ok (E:=E) _ _ (es_epoch es) Hreg) as (r' & ev & Hrun & Hok & Hds & Hn).
    unfold registry_of in Hrun. rewrite Hrun. cbn [mbind result_bind]. eexists _, _, _, _.
    split; [done|]. cbn. split_and!; [done|by destruct r'| |done..].
    intros id d. rewrite Hds. cbn. destruct (withdrawn (es_epoch es) d); naive_solver.
  - eexists _, _, _, _. split; [done|]. split_and!; [done..| |eauto|done|done].
    intros id d. split; [|tauto]. intros Hd. split; [done|]. lia.
Qed.

Lemma header_total s v last_config config last_es es params : sdp_ok_with s v →
  service_params config !! BlendNetwork = Some params →
  (∃ out, rw_update_epoch (E:=SdpLedgerError) (s_rewards v) last_es es params (service_rewards_params last_config)
     (service_rewards_params config) = Ok out) →
  ∃ s' effect, sdp_apply_header s last_config config last_es es = Ok (s', effect).
Proof.
  intros Hok Hp (out & Hout). destruct (service_header_ok _ _ _ _ _ _ _ _ Hok (λ _, Hout)) as (v' & n' & u & e & Hrun & _).
  destruct Hok as [Hsv _ _ _]. unfold sdp_apply_header. rewrite Hsv, map_to_list_singleton. cbn [services_apply_header].
  rewrite Hp. cbn [ok_or mbind result_bind snd]. rewrite Hrun. cbn. eauto.
Qed.

Lemma service_header_rewards {E} v last_es es notes params lp p out :
  service_apply_header (E:=E) v last_es es notes params lp p = Ok out →
  ∃ o, es_epoch last_es < es_epoch es → rw_update_epoch (E:=E) (s_rewards v) last_es es params lp p = Ok o.
Proof.
  unfold service_apply_header. destruct (Z.ltb_spec (es_epoch last_es) (es_epoch es)) as [|Hge]; intros Hrun.
  - rewrite result_bind_ok in Hrun. destruct Hrun as (o & Ho & _). by exists o.
  - exists (s_rewards v, []). lia.
Qed.

Lemma header_step s v last_config config last_es es s' effect : sdp_ok_with s v →
  es_epoch last_es = sdp_epoch s → sdp_epoch s <= es_epoch es →
  sdp_apply_header s last_config config last_es es = Ok (s', effect) →
  ∃ v', sdp_ok_with s' v' ∧ sdp_epoch s' = es_epoch es ∧
    (∀ id d, s_declarations v' !! id = Some d ↔
      s_declarations v !! id = Some d ∧ ¬ (sdp_epoch s < es_epoch es ∧ withdrawn (es_epoch es) d = true)) ∧
    (∀ nid sn, sdp_service_notes s' !! nid = Some sn →
       ∃ sn0, sdp_service_notes s !! nid = Some sn0 ∧ sn_note sn0 = sn_note sn) ∧
    (s_rewards v' = s_rewards v ∧ reward_utxos effect = [] ∨
     ∃ params, rw_update_epoch (E:=SdpLedgerError) (s_rewards v) last_es es params (service_rewards_params last_config)
       (service_rewards_params config) = Ok (s_rewards v', reward_utxos effect)).
Proof.
  intros Hok He Hle. pose proof Hok as [Hsv _ _ Hdec]. unfold sdp_apply_header.
  rewrite Hsv, map_to_list_singleton. cbn [services_apply_header snd fst].
  destruct (service_params config !! BlendNetwork) as [params|]; [|done]. cbn [ok_or mbind result_bind snd].
  destruct (service_apply_header _ _ _ _ _ _ _) as [out|?|?] eqn:Hrun; [|done..].
  destruct (service_header_rewards _ _ _ _ _ _ _ _ Hrun) as (o & Ho).
  destruct (service_header_ok _ _ _ _ _ _ _ _ Hok Ho) as (v' & n' & u & e & Hrun' & Hty' & Hreg' & Hds' & Hn' & Hu & Hr).
  rewrite Hrun in Hrun'. injection Hrun' as ->. cbn. intros [= <- <-]. exists v'. rewrite He in Hds'.
  split; [split|]; [by rewrite insert_empty|done..| |].
  - cbn. intros id d (Hd & _)%Hds'. destruct (Hdec _ _ Hd) as (? & ? & ?). split_and!; [lia|done..].
  - split_and!; [done..|]. cbn. destruct (Z.ltb_spec (es_epoch last_es) (es_epoch es)) as [Hlt|]; [right|by left].
    exists params. rewrite (Ho Hlt), Hu, Hr. by destruct o.
Qed.

(** ** Spent messages *)

Lemma spent_declare s v s' v' id d m : sdp_epoch s' = sdp_epoch s → created d = sdp_epoch s →
  s_declarations v !! id = None → s_declarations v' = <[id := d]> (s_declarations v) → spent s v m → spent s' v' m.
Proof.
  unfold spent. intros He Hc Hn ->. rewrite He. destruct (decide (m.1 = id)) as [->|].
  - rewrite Hn, lookup_insert_eq. lia.
  - by rewrite lookup_insert_ne.
Qed.

Lemma spent_message s v s' v' id n d d' log :
  sdp_epoch s' = sdp_epoch s → s_declarations v !! id = Some d → s_declarations v' = <[id := d']> (s_declarations v) →
  created d' = created d → nonce d' = n → lifecycle_epoch n = created d → sequence (nonce d) < sequence n →
  Forall (spent s v) log → NoDup log → Forall (spent s' v') ((id, n) :: log) ∧ NoDup ((id, n) :: log).
Proof.
  intros He Hd Hd' Hc Hn Hl Hs Hsp Hnd. split.
  - constructor.
    + unfold spent. cbn. rewrite Hd', lookup_insert_eq, Hc, Hn. lia.
    + eapply Forall_impl; [exact Hsp|]. intros m. unfold spent. rewrite Hd', He.
      destruct (decide (m.1 = id)) as [->|]; [rewrite Hd, lookup_insert_eq, Hc, Hn; lia|by rewrite lookup_insert_ne].
  - constructor; [|done]. intros Hin. rewrite Forall_forall in Hsp. specialize (Hsp _ Hin).
    unfold spent in Hsp. cbn in Hsp. rewrite Hd in Hsp. lia.
Qed.

Lemma spent_header s v s' v' epoch m : sdp_ok_with s v → sdp_epoch s' = epoch → sdp_epoch s <= epoch →
  (∀ id d, s_declarations v' !! id = Some d ↔
    s_declarations v !! id = Some d ∧ ¬ (sdp_epoch s < epoch ∧ withdrawn epoch d = true)) →
  spent s v m → spent s' v' m.
Proof.
  intros [_ _ _ Hdec] <- Hle Hds. unfold spent. destruct (s_declarations v !! m.1) as [d|] eqn:Hd.
  - destruct (s_declarations v' !! m.1) as [d'|] eqn:Hd'; [apply Hds in Hd' as [? _]; naive_solver|].
    intros Hsp. destruct (decide (sdp_epoch s < sdp_epoch s' ∧ withdrawn (sdp_epoch s') d = true)) as [[_ Hw]|Hn].
    + destruct (Hdec _ _ Hd) as (_ & _ & Hw'). unfold withdrawn, SNAPSHOT_FINALIZATION_DELAY in *.
      destruct (withdraw_at d) as [w|]; [|done]. lia.
    + rewrite (proj2 (Hds m.1 d)) in Hd'; done.
  - destruct (s_declarations v' !! m.1) as [d'|] eqn:Hd'; [apply Hds in Hd' as [? _]; naive_solver|]. lia.
Qed.

Lemma sdp_run_inv s log : sdp_run s log → ∃ v, sdp_ok_with s v ∧ Forall (spent s v) log ∧ NoDup log.
Proof.
  induction 1 as [epoch rewards|s log v utxos u c config op s' _ (v0 & Hok & Hsp & Hnd) Hv Hu Hval Happ|
    s log d proof tx_hash out config op s' _ (v & Hok & Hsp & Hnd) Hd Hver Happ|
    s log d proof tx_hash out config op s' _ (v & Hok & Hsp & Hnd) Hd Hver Happ|
    s log income s' _ (v & Hok & Hsp & Hnd) Happ|
    s log lc config last_es es s' effect _ (v & Hok & Hsp & Hnd) He Hle Happ].
  - destruct (sdp_new_ok epoch rewards) as [v Hok]. exists v. split_and!; [done|constructor..].
  - rewrite (service_lookup _ _ _ (so_services _ _ Hok)) in Hv. injection Hv as <-.
    destruct (declare_step _ _ _ _ _ _ _ _ Hok Hu Hval Happ) as (v' & d & Hok' & He & Hc & Hn & Hds & _).
    exists v'. split_and!; [done| |done]. eapply Forall_impl; [exact Hsp|]. intros m. by eapply spent_declare.
  - destruct (active_step _ _ _ _ _ _ _ _ _ Hok Hd Hver Happ) as (v' & d' & Hok' & He & _ & Hd' & Hds & Hc & Hn & Hl & Hs & _).
    exists v'. split; [done|]. by eapply spent_message.
  - destruct (withdraw_step _ _ _ _ _ _ _ _ _ Hok Hd Hver Happ) as (v' & d' & Hok' & He & _ & Hd' & Hds & Hc & Hn & Hl & Hs & _).
    exists v'. split; [done|]. by eapply spent_message.
  - destruct (income_step _ _ _ _ Hok Happ) as (v' & Hok' & He & Hds & _ & _). exists v'. split_and!; [done| |done].
    eapply Forall_impl; [exact Hsp|]. intros m. unfold spent. by rewrite He, Hds.
  - destruct (header_step _ _ _ _ _ _ _ _ Hok He Hle Happ) as (v' & Hok' & He' & Hds & _). exists v'.
    split_and!; [done| |done]. eapply Forall_impl; [exact Hsp|]. intros m. by eapply spent_header.
Qed.

(** C29: no activity or withdrawal message is accepted twice along a run of the
    ledger of services: the pairs of declaration and nonce are all different,
    even where a declaration was removed and declared again in between. *)
Theorem sdp_no_replay s log : sdp_run s log → NoDup log.
Proof. intros (v & _ & _ & Hnd)%sdp_run_inv. done. Qed.

(** Along a run the declarations, the provider index and the locked notes
    agree, so a header whose rewards can be computed and whose service has
    parameters never panics: it keeps exactly the declarations whose withdrawal
    has not taken effect. *)
Theorem sdp_header_total s log v last_config config last_es es params out : sdp_run s log →
  services s !! BlendNetwork = Some v → es_epoch last_es = sdp_epoch s → sdp_epoch s <= es_epoch es →
  service_params config !! BlendNetwork = Some params →
  rw_update_epoch (E:=SdpLedgerError) (s_rewards v) last_es es params (service_rewards_params last_config)
    (service_rewards_params config) = Ok out →
  ∃ s' v' effect, sdp_apply_header s last_config config last_es es = Ok (s', effect) ∧
    services s' !! BlendNetwork = Some v' ∧ registry_ok BlendNetwork (registry_of s' v') ∧
    (∀ id d, s_declarations v' !! id = Some d ↔
      s_declarations v !! id = Some d ∧ ¬ (sdp_epoch s < es_epoch es ∧ withdrawn (es_epoch es) d = true)).
Proof.
  intros (v0 & Hok & _)%sdp_run_inv Hv He Hle Hp Hout.
  rewrite (service_lookup _ _ _ (so_services _ _ Hok)) in Hv. injection Hv as <-.
  destruct (header_total s v0 last_config config last_es es params) as (s' & eff & Hrun); [done..|eauto|].
  destruct (header_step _ _ _ _ _ _ _ _ Hok He Hle Hrun) as (v' & Hok' & _ & Hds & _).
  exists s', v', eff. split_and!; [done|by apply service_lookup, so_services|apply Hok'|done].
Qed.



End Runs.

End SdpTheorems.
