(* ===== verification/LedgerConfig.v ===== *)
(** * The ledger's configuration: ledger/src/config.rs

    The parameters of an era and what is derived from them: the payout rate of
    the reward PoW, the bounds of its target, the split of the collected fees,
    and a block's rewards. With [ModulusShift] of zk/groth16 and the gas types
    of core/src/mantle/gas.rs. *)

From S2P Require Import Prelude Era EngineConfig Codec Ops Utxos ServiceNotes SdpOps.

#[local] Open Scope Z_scope.

Module LedgerConfig.
Import Canonical Ops Utxos ServiceNotes SdpOps.

(** ** Fractions of the scalar field *)

(** [ModulusShift]: [p / 2^n] for [n] in [1, 253]. *)
Definition MODULUS_SHIFT_MAX : Z := 253.

Definition modulus_shift_try_new (shift : Z) : option Z :=
  if (1 <=? shift) && (shift <=? MODULUS_SHIFT_MAX) then Some shift else None.

Definition fr_of_shift (shift : Z) : Z := Z.shiftr fr_modulus shift.

(** [fr_from_biguint_saturating]. *)
Definition fr_from_biguint_saturating (value : Z) : Z := Z.min value (fr_modulus - 1).

(** ** Gas *)

(** [GasProfile]. *)
Record GasProfile := mkGasProfile {
  g_transfer : Z;
  g_channel_config : Z;
  g_channel_inscribe : Z;
  g_channel_deposit : Z;
  g_channel_withdraw : Z;
  g_channel_transfer : Z;
  g_sdp_declare : Z;
  g_sdp_withdraw : Z;
  g_sdp_active : Z;
  g_leader_claim : Z;
  g_claim_pow_reward : Z
}.

Inductive GasOverflow := gas_overflow.

(** [Gas::checked_add], [Gas::checked_mul], [GasCost::calculate]. *)
Definition gas_add (a b : Z) : result GasOverflow Z := ok_or (checked_add u64_max a b) gas_overflow.
Definition gas_mul (a b : Z) : result GasOverflow Z := ok_or (checked_mul u64_max a b) gas_overflow.
Definition gas_cost (gas price : Z) : result GasOverflow Z := ok_or (checked_mul u64_max gas price) gas_overflow.
Definition cost_add (a b : Z) : result GasOverflow Z := ok_or (checked_add u64_max a b) gas_overflow.

(** ** PoW *)

Record RewardPoWConfig := mkRewardPoW {
  minimum_difficulty : Z;
  rp_ema_smoothing_factor : Z;
  rp_ema_smoothing_precision : Z;
  target_claims_per_block : Z;
  rate_num : Z;
  rate_den : Z;
  target_claim_per_block : Z;
  pow_share : Z;
  share_den : Z;
  slot_window : Z
}.

Inductive RewardPoWConfigError :=
  | EmaSmoothingFactorNotBelowPrecision (factor precision : Z)
  | ClaimRateScaleOverflow (rate_den target_claim_per_block : Z)
  | PowShareExceedsDenominator (pow_share share_den : Z)
  | TargetCapNotAboveFloor (minimum_difficulty floor : Z).

Section RewardPoW.
Implicit Types c : RewardPoWConfig.

Definition checked_reward_target_floor c : result RewardPoWConfigError Z :=
  let error := EmaSmoothingFactorNotBelowPrecision (rp_ema_smoothing_factor c) (rp_ema_smoothing_precision c) in
  divisor ← ok_or (d ← checked_sub (rp_ema_smoothing_precision c) (rp_ema_smoothing_factor c);
                   if d =? 0 then None else Some d) error;
  nonzero (Z.max (div_ceil (rp_ema_smoothing_factor c) divisor) 1).

Definition reward_target_floor {E} c : result E Z :=
  match checked_reward_target_floor c with Ok n => Ok n | Err _ => Fault Unwrap | Fault f => Fault f end.

Definition checked_claim_rate_scale c : result RewardPoWConfigError Z :=
  product ← ok_or (checked_mul u64_max (rate_den c) (target_claim_per_block c))
              (ClaimRateScaleOverflow (rate_den c) (target_claim_per_block c));
  nonzero product.

Definition claim_rate_scale {E} c : result E Z :=
  match checked_claim_rate_scale c with Ok n => Ok n | Err _ => Fault Unwrap | Fault f => Fault f end.

(** [RewardPoWConfig::validate]. *)
Definition reward_pow_validate c : result RewardPoWConfigError unit :=
  err_if (rp_ema_smoothing_precision c <=? rp_ema_smoothing_factor c)
    (EmaSmoothingFactorNotBelowPrecision (rp_ema_smoothing_factor c) (rp_ema_smoothing_precision c));;
  err_if (share_den c <? pow_share c) (PowShareExceedsDenominator (pow_share c) (share_den c));;
  floor ← checked_reward_target_floor c;
  err_if (fr_of_shift (minimum_difficulty c) <=? floor) (TargetCapNotAboveFloor (minimum_difficulty c) floor);;
  checked_claim_rate_scale c;;
  Ok tt.

(** [RewardPoWConfig::pow_fee_share]. *)
Definition pow_fee_share {E} c (collected_fees : Z) : result E Z :=
  assert_ (pow_share c <=? share_den c);;
  p ← strict_mul u128_max collected_fees (pow_share c);
  share ← div_ p (share_den c);
  expect (if share <=? u64_max then Some share else None).

End RewardPoW.

(** [BlendPoWConfig]. *)
Record BlendPoWConfig := mkBlendPoW {
  base_difficulty : Z;
  target_transactions_per_block : Z;
  max_step : Z;
  damping_num : Z;
  damping_den_offset : Z
}.

Definition damping_exponent {E} (c : BlendPoWConfig) : result E (Z * Z) :=
  den ← strict_add u32_max (damping_num c) (damping_den_offset c);
  den ← nonzero den;
  Ok (damping_num c, den).

(** ** Markets and block rewards *)

(** [MaxGasPerBlock]. *)
Definition max_gas_new (gas : Z) : option Z := if 2 <=? gas then Some gas else None.
Definition gas_target (max_gas_per_block : Z) : Z := max_gas_per_block / 2.

Record ExecutionMarketConfig := mkExecutionMarket {
  max_gas_per_block : Z;
  fee_adjustment_rate : NonNegativeRatio;
  em_ema_smoothing_factor : NonNegativeRatio
}.

Record StorageMarketConfig := mkStorageMarket {
  max_adjustment_factor : NonNegativeRatio;
  sm_ema_smoothing_factor : NonNegativeRatio
}.

Record BlockRewardsConfig := mkBlockRewards {
  stake_target : Z;
  emission_factor_scale : Z;
  fee_average_numerator : Z;
  max_emission_per_block : NonNegativeRatio;
  blend_share : NonNegativeRatio
}.

(** [BlockRewardsConfig::new]. *)
Definition block_rewards_new (stake_target emission_factor_scale fee_average_numerator : Z)
    (max_emission_per_block blend_share : NonNegativeRatio) : option BlockRewardsConfig :=
  bound ← checked_mul u128_max (denominator max_emission_per_block) emission_factor_scale;
  bound ← checked_mul u128_max bound (denominator blend_share);
  if bound <=? u128_max / u64_max
  then Some (mkBlockRewards stake_target emission_factor_scale fee_average_numerator max_emission_per_block blend_share)
  else None.

(** One share of a block's reward. *)
Definition reward_share {E} (reward_numerator numerator denominator : Z) : result E Z :=
  p ← strict_mul u128_max reward_numerator numerator;
  q ← div_ p denominator;
  expect (if q <=? u64_max then Some q else None).

(** [BlockRewardsConfig::rewards]. *)
Definition block_rewards {E} (c : BlockRewardsConfig) (pooled_fees block_fee total_stake : Z) : result E (Z * Z) :=
  let scale := emission_factor_scale c in
  let emission_weight :=
    Z.min (saturating_sub
             (saturating_add u128_max (stake_target c) (saturating_mul u128_max (fee_average_numerator c) pooled_fees))
             total_stake) scale in
  let emission_denominator := denominator (max_emission_per_block c) in
  emission ← strict_mul u128_max (numerator (max_emission_per_block c)) emission_weight;
  rest ← strict_sub scale emission_weight;
  pooled ← strict_mul u128_max emission_denominator rest;
  pooled ← strict_mul u128_max pooled block_fee;
  reward_numerator ← strict_add u128_max emission pooled;
  let blend_numerator := numerator (blend_share c) in
  let share_denominator := denominator (blend_share c) in
  let denominator := saturating_mul u128_max (saturating_mul u128_max emission_denominator scale) share_denominator in
  blend ← reward_share reward_numerator blend_numerator denominator;
  leader_numerator ← strict_sub share_denominator blend_numerator;
  leader ← reward_share reward_numerator leader_numerator denominator;
  Ok (blend, leader).

(** ** The configuration of an era *)

Record Config (Params : Type) := mkConfig {
  epoch_config : EpochConfig;
  consensus_config : EngineConfig.Config;
  max_transactions : Z;
  max_transactions_size : Z;
  max_op_data_size : Z;
  sdp_config : SdpConfig Params;
  blend_pow : BlendPoWConfig;
  reward_pow : RewardPoWConfig;
  accepted_fork_digests : list (list byte);
  execution_market : ExecutionMarketConfig;
  storage_market : StorageMarketConfig;
  block_rewards_config : BlockRewardsConfig;
  gas_profile : GasProfile
}.

Arguments mkConfig {Params}.
Arguments epoch_config {Params} _.
Arguments consensus_config {Params} _.
Arguments max_transactions {Params} _.
Arguments max_transactions_size {Params} _.
Arguments max_op_data_size {Params} _.
Arguments sdp_config {Params} _.
Arguments blend_pow {Params} _.
Arguments reward_pow {Params} _.
Arguments accepted_fork_digests {Params} _.
Arguments execution_market {Params} _.
Arguments storage_market {Params} _.
Arguments block_rewards_config {Params} _.
Arguments gas_profile {Params} _.

Section Config.
Context {Params : Type}.
Implicit Types (c : Config Params) (s : EraSchedule (Config Params)).

Definition config_base_period {E} c : result E Z :=
  base_period_length (security_param (consensus_config c)) (slot_activation_coeff (consensus_config c)).

(** [Config::epoch_length], then [EpochLength] for [Config], which panics on
    an epoch of no slots. *)
Definition config_epoch_length {E} c : result E Z :=
  base ← config_base_period c;
  Ok (epoch_config_length (epoch_config c) base).

#[export] Instance config_epoch_length_instance : EpochLength (Config Params) :=
  {| epoch_length c := match config_epoch_length (E:=False) c with Ok n => n | _ => 0 end |}.

(** [Config::expected_blocks_per_epoch] and [claim_rate_denominator]. *)
Definition config_expected_blocks {E} c : result E Z :=
  len ← config_epoch_length c;
  expected_blocks_per_epoch len (slot_activation_coeff (consensus_config c)).

Definition claim_rate_denominator {E} c : result E Z :=
  configured ← claim_rate_scale (reward_pow c);
  blocks ← config_expected_blocks c;
  denominator ← strict_mul u128_max configured blocks;
  nonzero denominator.

(** [Config::nonce_contribution_period] and [Config::next_epoch_snapshot]. *)
Definition nonce_contribution_period {E} c : result E Z :=
  base ← config_base_period c;
  phases ← strict_add u64_max (epoch_period_nonce_buffer (epoch_config c))
             (epoch_stake_distribution_stabilization (epoch_config c));
  strict_mul u64_max base phases.

Definition total_stake_inference_period {E} c : result E Z := nonce_contribution_period c.

Definition next_epoch_snapshot {E} c (first_slot : Z) : result E Z :=
  period ← nonce_contribution_period c;
  strict_add u64_max first_slot period.

(** [config_for_slot], [config_for_epoch], [pow_slot_windows]. *)
Definition config_for_slot {E} s (slot : Z) : result E (Config Params) := v ← at_slot s slot; Ok (v_parameters v).
Definition config_for_epoch {E} s (epoch : Z) : result E (Config Params) := v ← at_epoch s epoch; Ok (v_parameters v).

Definition pow_slot_windows s : EraSchedule Z := map_schedule (λ era, slot_window (reward_pow (v_parameters era))) s.

(** [nonce_snapshot] and [stake_distribution_snapshot] of a non-genesis epoch. *)
Definition nonce_snapshot {E} s (epoch : Z) : result E Z :=
  previous ← strict_sub epoch 1;
  c ← config_for_epoch s previous;
  start ← starting_slot_for_epoch s previous;
  next_epoch_snapshot c start.

Definition stake_distribution_snapshot {E} s (epoch : Z) : result E Z :=
  previous ← strict_sub epoch 1;
  starting_slot_for_epoch s previous.

End Config.

End LedgerConfig.
