(* ===== verification/ClaimOps.v ===== *)
(** * Transfers and claims

    core/src/mantle/ops/{transfer,leader_claim,pow}.rs: the transfer of regular
    notes, the claim of a leader's reward and the claim of a proof-of-work
    reward, with their checks and effects. *)

From S2P Require Import Prelude Era MerkleStore Codec Ops Utxos Channels ServiceNotes Inputs ChannelOps.

#[local] Open Scope Z_scope.

Module ClaimOps.
Import Canonical Ops Utxos Channels ServiceNotes Inputs ChannelOps.

(** [lb_poc]: the verification of a proof of claim against its public inputs,
    the nullifier, the root and the transaction. *)
Class PoCVerify := { poc_verify : list byte → Z * Z * Z → bool }.

(** [TransferError]. *)
Inductive TransferError :=
  | TransferInputs (e : InputsError)
  | TransferOutputs (e : OutputsError)
  | BalanceOverflow
  | TransferInvalidProof.

(** [LeaderClaimError]. *)
Inductive LeaderClaimError := DuplicatedVoucherNullifier | VouchersRootMismatch | InvalidPoC.

(** [ClaimPowRewardError]. *)
Inductive ClaimPowRewardError :=
  | InsufficientPoolBalance (pool reward : Z)
  | EmptyRewards
  | MismatchEpochNonce (claim : Z) (accepted : Z * Z)
  | InvalidPoWRewardTicket
  | DoubleClaimed
  | OutOfWindowSlot (slot current_slot : Z)
  | MissingBlock (block_id : Hash).

(** [DeferredLeaderClaim]: the proof and its public inputs. *)
Definition DeferredLeaderClaim : Type := list byte * (Z * Z * Z).

(** The bounds of an [i128]. *)
Definition i128_checked (z : Z) : option Z := if (- 2 ^ 127 <=? z) && (z <? 2 ^ 127) then Some z else None.

Section Ops.
Context {T : Type} `{!KeyedStoreOps T NoteId Utxo}.
Context `{Poseidon2Crate} `{Blake2Crate} `{PoCVerify}.
Implicit Types (c : Channels) (utxos : T) (tx_hash : TxHash).

(** ** Transfers *)

(** [TransferOp::balance]. *)
Definition transfer_balance (op : TransferOp) utxos : result TransferError Z :=
  input_amount ← map_err TransferInputs (inputs_amount (t_inputs op) utxos);
  output_amount ← map_err TransferOutputs (outputs_amount (t_outputs op));
  balance ← ok_or (i128_checked (0 + input_amount)) BalanceOverflow;
  ok_or (i128_checked (balance - output_amount)) BalanceOverflow.

Definition transfer_preverify (op : TransferOp) : result TransferError unit :=
  map_err TransferInputs (inputs_preverify (t_inputs op));;
  map_err TransferOutputs (outputs_validate (t_outputs op)).

Definition transfer_verify (op : TransferOp) (proof : ZkSignature) (service_notes : ServiceNotes) c utxos tx_hash
    : result TransferError DeferredZkSig :=
  map_err TransferInputs (validate_not_in_channel (t_inputs op) service_notes c utxos);;
  pks ← map_err TransferInputs (get_pk (t_inputs op) utxos);
  inputs ← ok_or (inputs_from_pks (as_fr tx_hash) pks) TransferInvalidProof;
  Ok (proof, inputs).

Definition transfer_execute (op : TransferOp) utxos : result TransferError T :=
  utxos ← map_err TransferInputs (inputs_execute (t_inputs op) utxos);
  id ← op_id_of transfer_codec op;
  insert_utxos utxos (utxos_of id (t_outputs op)).

(** ** Leader claims *)

Definition leader_claim_preverify (op : LeaderClaimOp) (proof : list byte) tx_hash : result LeaderClaimError unit :=
  if poc_verify proof (lc_voucher_nullifier op, lc_rewards_root op, as_fr tx_hash) then Ok tt else Err InvalidPoC.

Definition leader_claim_verify (op : LeaderClaimOp) (proof : list byte) (nullifiers : gset Z) (claimable_vouchers_root : Z)
    tx_hash : result LeaderClaimError DeferredLeaderClaim :=
  err_if (bool_decide (lc_voucher_nullifier op ∈ nullifiers)) DuplicatedVoucherNullifier;;
  err_if (negb (claimable_vouchers_root =? lc_rewards_root op)) VouchersRootMismatch;;
  Ok (proof, (lc_voucher_nullifier op, claimable_vouchers_root, as_fr tx_hash)).

(** [LeaderClaimOp::utxo]. *)
Definition leader_claim_utxo {E} (op : LeaderClaimOp) (amount : Z) : result E Utxo :=
  id ← op_id_of leader_claim_codec op;
  Ok (mkUtxo id 0 (mkNote amount (lc_pk op))).

(** [LeaderClaimExecutionContext]. *)
Record LeaderClaimContext := mkLeaderClaimContext {
  lcc_nullifiers : gset Z;
  lcc_reward_amount : Z;
  lcc_claimable_rewards : Z;
  lcc_utxos : T
}.

Definition leader_claim_execute {E} (op : LeaderClaimOp) (ctx : LeaderClaimContext) tx_hash
    : result E (LeaderClaimContext * list TxEvent) :=
  utxo ← leader_claim_utxo op (lcc_reward_amount ctx);
  utxos ← ks_insert (lcc_utxos ctx) (utxo_id utxo) utxo;
  claimable ← strict_sub (lcc_claimable_rewards ctx) (lcc_reward_amount ctx);
  Ok (mkLeaderClaimContext ({[lc_voucher_nullifier op]} ∪ lcc_nullifiers ctx) (lcc_reward_amount ctx) claimable utxos,
      [mkTxEvent tx_hash (op_id utxo) (LeaderRewardClaimed (lc_voucher_nullifier op) utxo)]).

(** ** Proof-of-work claims *)

(** [ClaimPowRewardOp::get_puzzle_ticket]. *)
Definition get_puzzle_ticket (op : ClaimPowRewardOp) : Z :=
  zk_digest [cp_public_key op; fr_from_mod_bytes (cp_block_hash op); cp_epoch_nonce op].

(** [ClaimPoWRewardVerificationContext]. *)
Record PowVerificationContext := mkPowVerification {
  pv_current_block_slot : Z;
  pv_reward_difficulty : Z;
  pv_pow_nullifiers : gmap Z Z;
  pv_epoch_pow_reward : Z;
  pv_epoch_reward_pool : Z;
  pv_current_epoch_nonce : Z;
  pv_previous_epoch_nonce : Z;
  pv_blocks_slot : gmap Hash Z;
  pv_slot_windows : EraSchedule Z
}.

Implicit Types ctx : PowVerificationContext.

Definition validate_enough_funds_in_pool ctx : result ClaimPowRewardError unit :=
  err_if (pv_epoch_reward_pool ctx <? pv_epoch_pow_reward ctx)
    (InsufficientPoolBalance (pv_epoch_reward_pool ctx) (pv_epoch_pow_reward ctx)).

Definition are_pow_reward_enabled ctx : result ClaimPowRewardError unit :=
  err_if (pv_epoch_pow_reward ctx =? 0) EmptyRewards;;
  validate_enough_funds_in_pool ctx.

(** [ClaimPoWRewardVerificationContext::accept_claim]. *)
Definition accept_claim ctx (block_id : Hash) : result ClaimPowRewardError unit :=
  block_slot ← ok_or (pv_blocks_slot ctx !! block_id) (MissingBlock block_id);
  v ← at_slot (pv_slot_windows ctx) block_slot;
  slot_gap ← ok_or (checked_sub (pv_current_block_slot ctx) block_slot)
               (OutOfWindowSlot block_slot (pv_current_block_slot ctx));
  err_if (v_parameters v <? slot_gap) (OutOfWindowSlot block_slot (pv_current_block_slot ctx)).

Definition validate_epoch_nonce ctx (claim_epoch_nonce : Z) : result ClaimPowRewardError unit :=
  err_if (negb (claim_epoch_nonce =? pv_current_epoch_nonce ctx) && negb (claim_epoch_nonce =? pv_previous_epoch_nonce ctx))
    (MismatchEpochNonce claim_epoch_nonce (pv_previous_epoch_nonce ctx, pv_current_epoch_nonce ctx)).

Definition validate_difficulty_reward ctx (puzzle_ticket : Z) : result ClaimPowRewardError unit :=
  err_if (pv_reward_difficulty ctx <=? puzzle_ticket) InvalidPoWRewardTicket.

Definition validate_double_claiming ctx (puzzle_ticket : Z) : result ClaimPowRewardError unit :=
  err_if (bool_decide (is_Some (pv_pow_nullifiers ctx !! puzzle_ticket))) DoubleClaimed.

Definition pow_claim_verify (op : ClaimPowRewardOp) ctx : result ClaimPowRewardError unit :=
  are_pow_reward_enabled ctx;;
  validate_epoch_nonce ctx (cp_epoch_nonce op);;
  accept_claim ctx (cp_block_hash op);;
  validate_difficulty_reward ctx (get_puzzle_ticket op);;
  validate_double_claiming ctx (get_puzzle_ticket op).

(** [ClaimPoWRewardExecutionContext]. *)
Record PowExecutionContext := mkPowExecution {
  pe_reward_pool : Z;
  pe_epoch_reward : Z;
  pe_nullifiers : gmap Z Z;
  pe_utxos : T;
  pe_block_slots : gmap Hash Z
}.

Definition pow_claim_execute {E} (op : ClaimPowRewardOp) (x : PowExecutionContext) tx_hash
    : result E (PowExecutionContext * list TxEvent) :=
  slot ← expect (pe_block_slots x !! cp_block_hash op);
  let nullifier := get_puzzle_ticket op in
  id ← op_id_of claim_pow_codec op;
  let utxo := mkUtxo id 0 (mkNote (pe_epoch_reward x) (cp_public_key op)) in
  utxos ← ks_insert (pe_utxos x) (utxo_id utxo) utxo;
  reward_pool ← expect (checked_sub (pe_reward_pool x) (pe_epoch_reward x));
  Ok (mkPowExecution reward_pool (pe_epoch_reward x) (<[nullifier := slot]> (pe_nullifiers x)) utxos (pe_block_slots x),
      [mkTxEvent tx_hash id (PoWRewardClaimed nullifier utxo)]).

End Ops.

Arguments LeaderClaimContext : clear implicits.
Arguments PowExecutionContext : clear implicits.

End ClaimOps.
