(* ===== verification/TxVerification.v ===== *)
(** * Verification of a transaction's operations

    core/src/mantle/ops/signed_op.rs: what a signed operation is checked for
    before it enters a block and against the ledger; core/src/mantle/batch.rs:
    the proofs that are deferred to a batch; [OpRef::execution_gas]. The ledger
    is seen through the trait [OperationVerificationHelper]. *)

From S2P Require Import Prelude Era MerkleStore Codec Ops Utxos Channels ServiceNotes Inputs ChannelOps SignedTx SdpOps LedgerConfig ClaimOps.

#[local] Open Scope Z_scope.

Module TxVerification.
Import Canonical Ops Utxos Channels ServiceNotes Inputs ChannelOps SignedTx SdpOps LedgerConfig ClaimOps.

(** [VerificationError]; the multi-signature errors are [MultiSigError]. *)
Inductive VerificationError :=
  | MultiSigErr (e : MultiSigError)
  | ChannelVerificationError (e : ChannelError)
  | TransferVerificationError (e : TransferError)
  | SDPVerificationError (e : SdpError)
  | LeaderClaimVerificationError (e : LeaderClaimError)
  | ClaimPowVerificationError (e : ClaimPowRewardError).

(** The trait [OperationVerificationHelper]. *)
Record OperationVerificationHelper (T : Type) := mkHelper {
  h_channels : Channels;
  h_service_notes : ServiceNotes;
  h_utxos : T;
  h_declarations_by_service : ServiceType → result VerificationError Declarations;
  h_provider_index_by_service : ServiceType → result VerificationError ProviderIndex;
  h_declaration_by_id : DeclarationId → result VerificationError Declaration;
  h_min_stake : result VerificationError MinStake;
  h_epoch : Z;
  h_block_slot : Z;
  h_nullifiers : gset Z;
  h_claimable_vouchers_root : Z;
  h_transfer_threshold : ChannelId → result MultiSigError Z;
  h_key_at_index : ChannelId → Z → result MultiSigError Ed25519Key;
  h_pow_reward_difficulty : Z;
  h_pow_nullifiers : gmap Z Z;
  h_epoch_pow_reward : Z;
  h_pow_reward_pool : Z;
  h_current_epoch_nonce : Z;
  h_previous_epoch_nonce : Z;
  h_blocks_slot : gmap Hash Z;
  h_pow_slot_windows : EraSchedule Z
}.

Arguments mkHelper {T}.
Arguments h_channels {T} _.
Arguments h_service_notes {T} _.
Arguments h_utxos {T} _.
Arguments h_declarations_by_service {T} _ _.
Arguments h_provider_index_by_service {T} _ _.
Arguments h_declaration_by_id {T} _ _.
Arguments h_min_stake {T} _.
Arguments h_epoch {T} _.
Arguments h_block_slot {T} _.
Arguments h_nullifiers {T} _.
Arguments h_claimable_vouchers_root {T} _.
Arguments h_transfer_threshold {T} _ _.
Arguments h_key_at_index {T} _ _ _.
Arguments h_pow_reward_difficulty {T} _.
Arguments h_pow_nullifiers {T} _.
Arguments h_epoch_pow_reward {T} _.
Arguments h_pow_reward_pool {T} _.
Arguments h_current_epoch_nonce {T} _.
Arguments h_previous_epoch_nonce {T} _.
Arguments h_blocks_slot {T} _.
Arguments h_pow_slot_windows {T} _.

(** ** Deferred proofs: core/src/mantle/batch.rs *)

Record DeferredProofs := mkDeferred { zk_sigs : list DeferredZkSig; leader_claims : list DeferredLeaderClaim }.

Definition deferred_new : DeferredProofs := mkDeferred [] [].

(** [defer_into] of each kind of proof. *)
Definition defer_zk_sig (p : DeferredZkSig) (d : DeferredProofs) : DeferredProofs :=
  mkDeferred (zk_sigs d ++ [p]) (leader_claims d).
Definition defer_leader_claim (p : DeferredLeaderClaim) (d : DeferredProofs) : DeferredProofs :=
  mkDeferred (zk_sigs d) (leader_claims d ++ [p]).

(** [DeferredProofs::extend]. *)
Definition deferred_extend (d other : DeferredProofs) : DeferredProofs :=
  mkDeferred (zk_sigs d ++ zk_sigs other) (leader_claims d ++ leader_claims other).

Inductive BatchError :=
  | InvalidZkSignatures
  | MalformedZkSignature
  | InvalidLeaderClaimProofs
  | MalformedLeaderClaimProof.

(** [lb_zksign::batch_verify] and [lb_poc::batch_verify]: a verdict, or no
    verdict on a malformed proof. *)
Class BatchVerify := {
  zksign_batch_verify : list DeferredZkSig → option bool;
  poc_batch_verify : list DeferredLeaderClaim → option bool
}.

Section Batch.
Context `{BatchVerify}.

Definition verify_zk_sigs (proofs : list DeferredZkSig) : result BatchError unit :=
  match proofs with
  | [] => Ok tt
  | _ => match zksign_batch_verify proofs with
         | Some true => Ok tt
         | Some false => Err InvalidZkSignatures
         | None => Err MalformedZkSignature
         end
  end.

Definition verify_leader_claims (proofs : list DeferredLeaderClaim) : result BatchError unit :=
  match proofs with
  | [] => Ok tt
  | _ => match poc_batch_verify proofs with
         | Some true => Ok tt
         | Some false => Err InvalidLeaderClaimProofs
         | None => Err MalformedLeaderClaimProof
         end
  end.

(** [DeferredProofs::verify]. *)
Definition deferred_verify (d : DeferredProofs) : result BatchError unit :=
  verify_zk_sigs (zk_sigs d);; verify_leader_claims (leader_claims d).

End Batch.

(** ** [SignedOp] *)

Section Verify.
Context {T : Type} `{!KeyedStoreOps T NoteId Utxo}.
Context `{Poseidon2Crate} `{Blake2Crate} `{Ed25519Crate} `{Ed25519Verify} `{PoCVerify}.
Implicit Types (tx_hash : TxHash) (h : OperationVerificationHelper T) (d : DeferredProofs).

(** [SignedOp::into_preverified]; what the operations without a case of their
    own check is nothing. *)
Definition into_preverified (s : SignedOp) tx_hash : result VerificationError unit :=
  match s with
  | SignedInscribe op proof => map_err ChannelVerificationError (inscription_preverify op proof tx_hash)
  | SignedConfig _ _ => Ok tt
  | SignedDeposit op _ => map_err ChannelVerificationError (deposit_preverify op)
  | SignedWithdraw op _ => map_err ChannelVerificationError (channel_withdraw_preverify op)
  | SignedChannelTransfer op _ => map_err ChannelVerificationError (channel_transfer_preverify op)
  | SignedSDPDeclare op proof => map_err SDPVerificationError (declare_preverify op (ed25519_sig proof) tx_hash)
  | SignedSDPWithdraw _ _ => Ok tt
  | SignedSDPActive _ _ => Ok tt
  | SignedLeaderClaim op proof => map_err LeaderClaimVerificationError (leader_claim_preverify op proof tx_hash)
  | SignedTransfer op _ => map_err TransferVerificationError (transfer_preverify op)
  | SignedClaimPow _ => Ok tt
  end.

(** [SignedOps::preverify]. *)
Fixpoint preverify_ops (l : list SignedOp) tx_hash : result VerificationError unit :=
  match l with
  | [] => Ok tt
  | s :: l => into_preverified s tx_hash;; preverify_ops l tx_hash
  end.

(** The context of a proof-of-work claim. *)
Definition pow_verification h : PowVerificationContext :=
  mkPowVerification (h_block_slot h) (h_pow_reward_difficulty h) (h_pow_nullifiers h) (h_epoch_pow_reward h)
    (h_pow_reward_pool h) (h_current_epoch_nonce h) (h_previous_epoch_nonce h) (h_blocks_slot h) (h_pow_slot_windows h).

(** [SignedOp::into_verified]: the batch with the operation's deferred proof. *)
Definition into_verified (s : SignedOp) (op_index : Z) tx_hash h d : result VerificationError DeferredProofs :=
  match s with
  | SignedInscribe op _ =>
      map_err ChannelVerificationError (inscription_verify op (h_channels h) (h_block_slot h));; Ok d
  | SignedConfig op proof =>
      map_err ChannelVerificationError (config_verify op proof (h_channels h) tx_hash);; Ok d
  | SignedDeposit op proof =>
      p ← map_err ChannelVerificationError
            (deposit_verify op proof (h_channels h) (h_service_notes h) (h_utxos h) tx_hash);
      Ok (defer_zk_sig p d)
  | SignedWithdraw op proof =>
      map_err ChannelVerificationError
        (withdraw_verify (h_transfer_threshold h) (h_key_at_index h) op proof (h_channels h) (h_service_notes h)
           (h_utxos h) tx_hash op_index);; Ok d
  | SignedChannelTransfer op proof =>
      map_err ChannelVerificationError
        (channel_transfer_verify (h_transfer_threshold h) (h_key_at_index h) op proof (h_channels h) (h_service_notes h)
           (h_utxos h) tx_hash op_index);; Ok d
  | SignedSDPDeclare op proof =>
      declarations ← h_declarations_by_service h (dm_service_type op);
      provider_index ← h_provider_index_by_service h (dm_service_type op);
      min_stake ← h_min_stake h;
      p ← map_err SDPVerificationError
            (declare_verify op (zk_sig proof) (h_utxos h) (h_channels h) (h_service_notes h) tx_hash declarations
               provider_index min_stake);
      Ok (defer_zk_sig p d)
  | SignedSDPWithdraw op proof =>
      declaration ← h_declaration_by_id h (wm_declaration_id op);
      p ← map_err SDPVerificationError (sdp_withdraw_verify op proof declaration (h_service_notes h) tx_hash);
      Ok (defer_zk_sig p d)
  | SignedSDPActive op proof =>
      declaration ← h_declaration_by_id h (am_declaration_id op);
      p ← map_err SDPVerificationError (active_verify op proof declaration tx_hash (h_epoch h));
      Ok (defer_zk_sig p d)
  | SignedLeaderClaim op proof =>
      p ← map_err LeaderClaimVerificationError
            (leader_claim_verify op proof (h_nullifiers h) (h_claimable_vouchers_root h) tx_hash);
      Ok (defer_leader_claim p d)
  | SignedTransfer op proof =>
      p ← map_err TransferVerificationError
            (transfer_verify op proof (h_service_notes h) (h_channels h) (h_utxos h) tx_hash);
      Ok (defer_zk_sig p d)
  | SignedClaimPow op => map_err ClaimPowVerificationError (pow_claim_verify op (pow_verification h));; Ok d
  end.

End Verify.

(** The trait [ThresholdSource], and its implementation for the channels. *)
Class ThresholdSource (S : Type) := {
  source_configuration_threshold : S → ChannelId → Z;
  source_transfer_threshold : S → ChannelId → Z
}.

#[export] Instance channels_thresholds : ThresholdSource Channels := {|
  source_configuration_threshold := configuration_threshold_of;
  source_transfer_threshold := transfer_threshold_of
|}.

(** [OpRef::execution_gas], priced against the thresholds of the channels. *)
Definition execution_gas {Src : Type} `{!ThresholdSource Src} (op : Op) (profile : GasProfile) (c : Src) : result GasOverflow Z :=
  match op with
  | ChannelInscribe _ => Ok (g_channel_inscribe profile)
  | ChannelConfig op => gas_mul (g_channel_config profile) (source_configuration_threshold c (c_channel op))
  | ChannelDeposit _ => Ok (g_channel_deposit profile)
  | ChannelWithdraw op => gas_mul (g_channel_withdraw profile) (source_transfer_threshold c (w_channel_id op))
  | ChannelTransfer op => gas_mul (g_channel_transfer profile) (source_transfer_threshold c (ct_channel_id op))
  | SDPDeclare _ => Ok (g_sdp_declare profile)
  | SDPWithdraw _ => Ok (g_sdp_withdraw profile)
  | SDPActive _ => Ok (g_sdp_active profile)
  | LeaderClaim _ => Ok (g_leader_claim profile)
  | Transfer _ => Ok (g_transfer profile)
  | ClaimPowReward _ => Ok (g_claim_pow_reward profile)
  end.

End TxVerification.
