(* ===== verification/NoteFacts.v ===== *)
(** * Notes under the operations

    The invariant that ties the unspent notes to the channels and to the
    services, and what each operation on notes does to it: a verified operation
    whose new identifiers are fresh executes, keeps the invariant and conserves
    value. *)

From S2P Require Import Prelude MerkleStore Codec CodecLaws Ops OpsCodec Utxos Channels ServiceNotes Inputs ChannelOps ClaimOps.

#[local] Open Scope Z_scope.

Module NoteFacts.
Import Canonical Ops OpsCodec Utxos Channels ServiceNotes Inputs ChannelOps ClaimOps.

Section Notes.
Context {T : Type} `{!KeyedStoreOps T NoteId Utxo, !KeyedStore T NoteId Utxo} `{Poseidon2Crate} `{Blake2Crate}.
Context `{Ed25519Crate} `{MultiaddrCrate}.
Implicit Types (utxos : T) (c : Channels) (sn : ServiceNotes) (inputs : list NoteId) (l : list Utxo).

(** Every note is under its identifier; the notes of channels and of services
    are unspent, those of a channel belong to an existing one, and no note is
    both. *)
Record notes_ok utxos c sn : Prop := {
  no_store : ks_ok utxos;
  no_key : ∀ id u, ks_view utxos !! id = Some u → utxo_id u = id ∧ note_ok (note u);
  no_channel : ∀ id ch, channel_notes c !! id = Some ch →
    is_Some (ks_view utxos !! id) ∧ is_Some (channels c !! ch) ∧ sn !! id = None;
  no_service : ∀ id n, sn !! id = Some n → ∃ u, ks_view utxos !! id = Some u ∧ note u = sn_note n
}.

(** The value of the unspent notes. *)
Definition notes_total utxos : Z := map_sum utxo_value (ks_view utxos).

Lemma notes_u64 utxos c sn : notes_ok utxos c sn → utxos_u64 utxos.
Proof. intros Hn i u Hu. by destruct (no_key _ _ _ Hn i u Hu). Qed.

Lemma notes_total_nonneg utxos c sn : notes_ok utxos c sn → 0 <= notes_total utxos.
Proof. intros Hn. apply map_sum_nonneg. intros k u Hu. by apply (notes_u64 _ _ _ Hn) in Hu as [? _]. Qed.

(** ** Spending and creating *)

Lemma insertable_removed utxos utxos' inputs l : insertable utxos l → ks_view utxos' = removed (ks_view utxos) inputs →
  insertable utxos' l.
Proof.
  intros [Hnd Hf Hr] Hv. split; [done| |].
  - intros u Hu. rewrite Hv, lookup_removed. case_bool_decide; [done|by apply Hf].
  - rewrite Hv. assert (base.size (removed (ks_view utxos) inputs) ≤ base.size (ks_view utxos))%nat; [|lia].
    apply map_subseteq_size. apply map_subseteq_spec. intros i x. rewrite lookup_removed. by case_bool_decide.
Qed.

(** What the store is after spending [inputs] and creating [l]. *)
Record spent_created utxos inputs l utxos' : Prop := {
  sc_ok : ks_ok utxos';
  sc_view : ∀ id u, ks_view utxos' !! id = Some u ↔
    (u ∈ l ∧ id = utxo_id u) ∨ (id ∉ inputs ∧ ks_view utxos !! id = Some u);
  sc_total : notes_total utxos' = notes_total utxos - inputs_value (ks_view utxos) inputs + utxos_value l
}.

Lemma spend_create {E} utxos inputs l : ks_ok utxos → NoDup inputs → present utxos inputs → insertable utxos l →
  ∃ utxos1 utxos2, inputs_execute inputs utxos = Ok utxos1 ∧ insert_utxos (E:=E) utxos1 l = Ok utxos2 ∧
    spent_created utxos inputs l utxos2.
Proof.
  intros Hok Hnd Hp Hi. destruct (inputs_execute_ok inputs utxos Hok Hnd Hp) as (u1 & He1 & Hok1 & Hv1 & Hs1).
  pose proof (insertable_removed utxos u1 inputs l Hi Hv1) as Hi1.
  destruct (insert_utxos_ok (E:=E) u1 l Hok1 Hi1) as (u2 & He2 & Hok2 & Hv2). exists u1, u2. split_and!; [done..|].
  pose proof (utxo_map_disjoint u1 l Hi1) as Hd. split; [done| |].
  - intros id u. rewrite Hv2, lookup_union_Some, utxo_map_lookup, Hv1, lookup_removed by (done || apply Hi).
    case_bool_decide; naive_solver.
  - unfold notes_total. rewrite Hv2, (utxo_map_sum u1 l Hi1), Hs1. lia.
Qed.

Lemma spend_none {E} utxos l : ks_ok utxos → insertable utxos l →
  ∃ utxos', insert_utxos (E:=E) utxos l = Ok utxos' ∧ spent_created utxos [] l utxos'.
Proof.
  intros Hok Hi. destruct (spend_create (E:=E) utxos [] l Hok) as (u1 & u2 & He1 & He2 & Hsc); [constructor| |done|].
  - intros i Hi'. by apply not_elem_of_nil in Hi'.
  - injection He1 as <-. eauto.
Qed.

(** The invariant after a spend, for channels that follow it. *)
Lemma notes_ok_spent utxos c sn inputs l utxos' c' : notes_ok utxos c sn → spent_created utxos inputs l utxos' →
  insertable utxos l → Forall (λ u, note_ok (note u)) l → (∀ i, i ∈ inputs → sn !! i = None) →
  (∀ id ch, channel_notes c' !! id = Some ch →
     is_Some (channels c' !! ch) ∧ ((∃ u, u ∈ l ∧ id = utxo_id u) ∨ (id ∉ inputs ∧ is_Some (channel_notes c !! id)))) →
  notes_ok utxos' c' sn.
Proof.
  intros [Hs Hk Hc Hn] [Hok Hv _] [_ Hf _] Hl Hi Hch. split; [done| | |].
  - intros id u [[Hu ->]|[_ Hu]]%Hv; [|by apply Hk]. rewrite Forall_forall in Hl. auto.
  - intros id ch Hid. destruct (Hch id ch Hid) as [Hex [(u & Hu & ->)|[Hni [ch' Hid']]]]; split_and!.
    + exists u. apply Hv. by left.
    + done.
    + destruct (sn !! utxo_id u) as [n|] eqn:Hsn; [|done]. destruct (Hn _ _ Hsn) as (u' & Hu' & _).
      by rewrite Hf in Hu'.
    + destruct (Hc _ _ Hid') as ([u Hu] & _ & _). exists u. apply Hv. by right.
    + done.
    + by destruct (Hc _ _ Hid') as (_ & _ & ?).
  - intros id n Hsn. destruct (Hn _ _ Hsn) as (u & Hu & Hnote). exists u. split; [|done]. apply Hv. right. split; [|done].
    intros Hin. by rewrite Hi in Hsn.
Qed.

(** ** Channel notes *)

Lemma channel_notes_fresh utxos c sn l u : notes_ok utxos c sn → insertable utxos l → u ∈ l → channel_notes c !! utxo_id u = None.
Proof.
  intros Hn [_ Hf _] Hu. destruct (channel_notes c !! utxo_id u) as [ch|] eqn:Hc; [|done].
  destruct (no_channel _ _ _ Hn _ _ Hc) as ([u' Hu'] & _). by rewrite Hf in Hu'.
Qed.

(** The channel notes with those of [l] added to [ch]. *)
Definition registered (ch : ChannelId) l c c' : Prop :=
  channels c' = channels c ∧ ∀ id x, channel_notes c' !! id = Some x ↔
    (∃ u, u ∈ l ∧ id = utxo_id u ∧ x = ch) ∨ channel_notes c !! id = Some x.

Lemma register_step ch u l c c' : NoDup (utxo_id <$> u :: l) →
  registered ch l (mkChannels (channels c) (<[utxo_id u := ch]> (channel_notes c))) c' →
  channel_notes c !! utxo_id u = None → registered ch (u :: l) c c'.
Proof.
  rewrite fmap_cons. intros [Hu Hnd]%NoDup_cons [Hch Hr] Hn. split; [done|]. intros id x. rewrite Hr.
  cbn [channel_notes]. rewrite lookup_insert_Some. setoid_rewrite elem_of_cons. split.
  - intros [(u' & ? & -> & ->)|[[<- <-]|[? ?]]]; [left; eauto..|by right].
  - intros [(u' & [->|?] & -> & ->)|Hx]; [by right; left|left; eauto|]. right. right. split; [congruence|done].
Qed.

Lemma register_all_ok c ch l : NoDup (utxo_id <$> l) → (∀ u, u ∈ l → channel_notes c !! utxo_id u = None) →
  ∃ c', register_all c ch l = Ok c' ∧ registered ch l c c'.
Proof.
  revert c. induction l as [|u l IH]; intros c Hnd Hf; cbn [register_all].
  - exists c. split; [done|]. split; [done|]. intros id x. split; [by right|]. intros [(u & Hu & _)|?]; [|done].
    by apply not_elem_of_nil in Hu.
  - unfold register_channel_note, into_channel. rewrite Hf by constructor. cbn [map_err mbind result_bind].
    pose proof Hnd as Hnd'. rewrite fmap_cons in Hnd'. apply NoDup_cons in Hnd' as [Hu Hnd'].
    destruct (IH (mkChannels (channels c) (<[utxo_id u := ch]> (channel_notes c)))) as (c' & Hr & Hc'); [done| |].
    + intros u' Hu'. cbn. rewrite lookup_insert_ne; [apply Hf; by constructor|]. intros Heq. apply Hu. rewrite Heq.
      apply list_elem_of_fmap. eauto.
    + exists c'. split; [done|]. apply register_step; [done..|]. apply Hf. constructor.
Qed.

(** A deposit registers the same notes, and records each. *)
Definition deposit_notes l : list DepositNote := (λ u, mkDepositNote (utxo_id u) (value (note u)) (pk (note u))) <$> l.

Lemma deposit_register_ok c ch l : ∀ notes, NoDup (utxo_id <$> l) → (∀ u, u ∈ l → channel_notes c !! utxo_id u = None) →
  Z.of_nat (length notes) + Z.of_nat (length l) <= MAX_TRANSACTION_INPUTS →
  ∃ c', deposit_register c ch notes l = Ok (c', notes ++ deposit_notes l) ∧ registered ch l c c'.
Proof.
  revert c. induction l as [|u l IH]; intros c notes Hnd Hf Hlen; cbn [deposit_register].
  - exists c. rewrite app_nil_r. split; [done|]. split; [done|]. intros id x. split; [by right|].
    intros [(u & Hu & _)|?]; [|done]. by apply not_elem_of_nil in Hu.
  - unfold register_channel_note, into_channel. rewrite Hf by constructor. cbn [map_err mbind result_bind length] in *.
    rewrite (proj2 (Z.leb_gt _ _)) by lia. cbn [err_if mbind result_bind].
    pose proof Hnd as Hnd'. rewrite fmap_cons in Hnd'. apply NoDup_cons in Hnd' as [Hu Hnd'].
    destruct (IH (mkChannels (channels c) (<[utxo_id u := ch]> (channel_notes c)))
                (notes ++ [mkDepositNote (utxo_id u) (value (note u)) (pk (note u))])) as (c' & Hr & Hc'); [done| | |].
    + intros u' Hu'. cbn. rewrite lookup_insert_ne; [apply Hf; by constructor|]. intros Heq. apply Hu. rewrite Heq.
      apply list_elem_of_fmap. eauto.
    + rewrite length_app. cbn [length]. lia.
    + exists c'. rewrite Hr. split; [unfold deposit_notes; by rewrite fmap_cons, <- app_assoc|].
      apply register_step; [done..|]. apply Hf. constructor.
Qed.

(** The channel notes without [inputs]. *)
Definition unregistered inputs c c' : Prop :=
  channels c' = channels c ∧ ∀ id x, channel_notes c' !! id = Some x ↔ id ∉ inputs ∧ channel_notes c !! id = Some x.

Lemma unregister_all_ok ch inputs : ∀ c, NoDup inputs → (∀ i, i ∈ inputs → channel_notes c !! i = Some ch) →
  ∃ c', unregister_all c ch inputs = Ok c' ∧ unregistered inputs c c'.
Proof.
  induction inputs as [|i inputs IH]; intros c Hnd Hin; cbn [unregister_all].
  - exists c. split; [done|]. split; [done|]. intros id x. split; [|tauto]. split; [apply not_elem_of_nil|done].
  - apply NoDup_cons in Hnd as [Hi Hnd]. unfold unregister_channel_note, into_bedrock. rewrite Hin by constructor.
    rewrite bool_decide_true by done. cbn [map_err mbind result_bind].
    destruct (IH (mkChannels (channels c) (delete i (channel_notes c)))) as (c' & Hr & Hch & Hc'); [done| |].
    + intros j Hj. cbn. rewrite lookup_delete_ne by set_solver. apply Hin. by constructor.
    + exists c'. split; [done|]. split; [done|]. intros id x. rewrite Hc'. cbn [channel_notes].
      rewrite lookup_delete_Some, not_elem_of_cons. naive_solver.
Qed.

(** ** Operations on notes *)

(** [OpId] of a well-formed operation, from its payload. *)
Definition op_digest (op : Op) : Hash := blake2b_256 (OPERATION_ID_V1 ++ payload_bytes op).

Lemma op_id_ok {E C V} (cd : Codec C V) `{!CanonicalCodec cd} ctx v : valid cd ctx v →
  op_id_of (E:=E) cd v = Ok (blake2b_256 (OPERATION_ID_V1 ++ bytes cd v)).
Proof. intros Hv. unfold op_id_of. by rewrite (encode_ok ctx v Hv). Qed.

Lemma utxos_notes_ok id outputs : Forall note_ok outputs → Forall (λ u, note_ok (note u)) (utxos_of id outputs).
Proof. intros Ho. apply (Forall_fmap note note_ok). by rewrite utxos_of_note. Qed.

Lemma outputs_notes_ok id outputs : outputs_wf outputs → Forall (λ u, note_ok (note u)) (utxos_of id outputs).
Proof. intros [_ Ho]. apply utxos_notes_ok. eapply Forall_impl; [exact Ho|]. by intros n [? _]. Qed.

(** The notes of [inputs], in order. *)
Definition input_notes utxos inputs : list Note := omap (λ i, note <$> ks_view utxos !! i) inputs.

Lemma input_notes_value utxos inputs : notes_value (input_notes utxos inputs) = inputs_value (ks_view utxos) inputs.
Proof.
  unfold input_notes, notes_value, inputs_value. induction inputs as [|i inputs IH]; [done|]. cbn [omap list_omap foldr].
  destruct (ks_view utxos !! i) as [u|]; cbn [fmap option_fmap option_map foldr from_option]; by rewrite IH.
Qed.

Lemma input_notes_length utxos inputs : present utxos inputs → length (input_notes utxos inputs) = length inputs.
Proof.
  unfold input_notes. induction inputs as [|i inputs IH]; [done|]. intros [[u Hu] Hp]%present_cons.
  cbn [omap list_omap]. rewrite Hu. cbn [fmap option_fmap option_map length]. by rewrite IH.
Qed.

Lemma input_notes_ok utxos inputs : utxos_u64 utxos → Forall note_ok (input_notes utxos inputs).
Proof.
  intros Hu. apply Forall_forall. unfold input_notes. intros n (i & _ & Hn)%list_elem_of_omap.
  apply fmap_Some in Hn as (u & Hi & ->). by eapply Hu.
Qed.

Lemma deposit_outputs_ok op utxos : ks_ok utxos → present utxos (d_inputs op) → inputs_wf (d_inputs op) →
  deposit_outputs op utxos = Ok (input_notes utxos (d_inputs op)).
Proof.
  intros Hok Hp [Hlen _]. unfold deposit_outputs.
  assert (mapM (λ id, u ← ok_or (ks_get utxos id) (ChannelInputsErr (InexistingNote id)); Ok (note u)) (d_inputs op)
    = Ok (input_notes utxos (d_inputs op))) as ->.
  { clear Hlen. induction (d_inputs op) as [|i inputs IH]; [done|]. apply present_cons in Hp as [[u Hu] Hp].
    cbn [mapM]. rewrite ks_get_view, Hu by done. cbn [ok_or mbind result_bind]. rewrite IH by done.
    unfold input_notes. cbn [omap list_omap]. by rewrite Hu. }
  cbn [mbind result_bind]. unfold outputs_try_new. rewrite input_notes_length by done.
  unfold MAX_TRANSACTION_INPUTS, MAX_TRANSACTION_OUTPUTS in *. by rewrite (proj2 (Z.leb_le _ _)) by lia.
Qed.

Context `{PoCVerify}.

Lemma transfer_verify_ok op proof sn c utxos tx_hash p : ks_ok utxos →
  transfer_verify op proof sn c utxos tx_hash = Ok p →
  NoDup (t_inputs op) ∧ ∀ i, i ∈ t_inputs op → is_Some (ks_view utxos !! i) ∧ sn !! i = None ∧ channel_notes c !! i = None.
Proof.
  intros Hok Hv. unfold transfer_verify in Hv. rewrite result_bind_ok in Hv. destruct Hv as ([] & Hv & _).
  apply map_err_ok in Hv. by apply validate_not_in_channel_ok in Hv.
Qed.

(** What the inputs of an operation bring and its outputs take. *)
Definition transfer_excess (op : TransferOp) utxos : Z :=
  inputs_value (ks_view utxos) (t_inputs op) - notes_value (t_outputs op).

Lemma transfer_balance_ok op utxos : ks_ok utxos → utxos_u64 utxos → present utxos (t_inputs op) → outputs_wf (t_outputs op) →
  transfer_balance op utxos = Ok (transfer_excess op utxos) ∨
  transfer_balance op utxos = Err (TransferInputs InputsOverflow) ∨ transfer_balance op utxos = Err (TransferOutputs OutputsOverflow).
Proof.
  intros Hok Hu Hp [_ Ho]. assert (Forall note_ok (t_outputs op)) as Ho'.
  { eapply Forall_impl; [exact Ho|]. by intros n [? _]. }
  pose proof (inputs_value_nonneg (t_inputs op) utxos Hu). pose proof (notes_value_nonneg _ Ho').
  unfold transfer_balance. rewrite inputs_amount_sum, outputs_amount_sum by done.
  destruct (Z.leb_spec (inputs_value (ks_view utxos) (t_inputs op)) u64_max); cbn [map_err mbind result_bind]; [|by right; left].
  destruct (Z.leb_spec (notes_value (t_outputs op)) u64_max); cbn [map_err mbind result_bind]; [|by right; right].
  left. unfold i128_checked, u64_max in *. rewrite Z.add_0_l.
  rewrite (proj2 (Z.leb_le _ _)), (proj2 (Z.ltb_lt _ _)) by lia. cbn [andb ok_or mbind result_bind].
  by rewrite (proj2 (Z.leb_le _ _)), (proj2 (Z.ltb_lt _ _)) by lia.
Qed.

(** A verified transfer spends its inputs and creates its outputs. *)
Lemma transfer_run max op utxos c sn : notes_ok utxos c sn → op_wf max (Transfer op) → NoDup (t_inputs op) →
  (∀ i, i ∈ t_inputs op → is_Some (ks_view utxos !! i) ∧ sn !! i = None ∧ channel_notes c !! i = None) →
  insertable utxos (utxos_of (op_digest (Transfer op)) (t_outputs op)) →
  ∃ utxos', transfer_execute op utxos = Ok utxos' ∧
    spent_created utxos (t_inputs op) (utxos_of (op_digest (Transfer op)) (t_outputs op)) utxos'.
Proof.
  intros Hn Hwf Hnd Hin Hf. set (l := utxos_of _ _) in *.
  destruct (spend_create (E:=TransferError) utxos (t_inputs op) l (no_store _ _ _ Hn) Hnd) as (u1 & u2 & He1 & He2 & Hsc);
    [intros i Hi; by apply Hin|done|].
  unfold transfer_execute. rewrite He1. cbn [map_err mbind result_bind].
  rewrite (op_id_ok transfer_codec tt) by by apply (payload_valid_wf max (Transfer op)).
  cbn [mbind result_bind]. change (blake2b_256 _) with (op_digest (Transfer op)). fold l. rewrite He2. eauto.
Qed.

Lemma transfer_ok max op utxos c sn : notes_ok utxos c sn → op_wf max (Transfer op) → NoDup (t_inputs op) →
  (∀ i, i ∈ t_inputs op → is_Some (ks_view utxos !! i) ∧ sn !! i = None ∧ channel_notes c !! i = None) →
  insertable utxos (utxos_of (op_digest (Transfer op)) (t_outputs op)) →
  ∃ utxos', transfer_execute op utxos = Ok utxos' ∧ notes_ok utxos' c sn ∧
    notes_total utxos' + transfer_excess op utxos = notes_total utxos.
Proof.
  intros Hn Hwf Hnd Hin Hf. destruct (transfer_run max op utxos c sn) as (u2 & -> & Hsc); [done..|].
  eexists. split; [done|]. split.
  - eapply notes_ok_spent; [done..|by apply outputs_notes_ok, Hwf|intros i Hi; by apply Hin|].
    intros id ch Hc. destruct (no_channel _ _ _ Hn _ _ Hc) as (_ & ? & _). split; [done|]. right. split; [|done].
    intros Hi. destruct (Hin _ Hi) as (_ & _ & ?). congruence.
  - rewrite (sc_total _ _ _ _ Hsc). unfold transfer_excess. rewrite utxos_of_value. lia.
Qed.

(** A note for a claim. *)
Lemma claim_note_run {E} utxos u : ks_ok utxos → insertable utxos [u] →
  ∃ utxos', ks_insert (E:=E) utxos (utxo_id u) u = Ok utxos' ∧ spent_created utxos [] [u] utxos'.
Proof.
  intros Hok Hf. destruct (spend_none (E:=E) utxos [u] Hok Hf) as (u' & He & Hsc).
  cbn [insert_utxos] in He. rewrite result_bind_ok in He. destruct He as (u1 & He & [= ->]). eauto.
Qed.

Lemma claim_note_ok {E} utxos c sn u : notes_ok utxos c sn → note_ok (note u) → insertable utxos [u] →
  ∃ utxos', ks_insert (E:=E) utxos (utxo_id u) u = Ok utxos' ∧ notes_ok utxos' c sn ∧
    notes_total utxos' = notes_total utxos + utxo_value u.
Proof.
  intros Hn Hu Hf. destruct (claim_note_run (E:=E) utxos u (no_store _ _ _ Hn) Hf) as (u' & He & Hsc). exists u'. split_and!; [done| |].
  - eapply notes_ok_spent; [done..|by apply Forall_singleton|intros i Hi; by apply not_elem_of_nil in Hi|].
    intros id ch Hc. destruct (no_channel _ _ _ Hn _ _ Hc) as (_ & ? & _). split; [done|]. right. split; [apply not_elem_of_nil|done].
  - rewrite (sc_total _ _ _ _ Hsc). cbn. lia.
Qed.

(** ** Operations on channel notes *)

Lemma deposit_verify_ok op proof c sn utxos tx_hash p : ks_ok utxos → deposit_verify op proof c sn utxos tx_hash = Ok p →
  is_Some (channels c !! d_channel_id op) ∧ NoDup (d_inputs op) ∧
  ∀ i, i ∈ d_inputs op → is_Some (ks_view utxos !! i) ∧ sn !! i = None ∧ channel_notes c !! i = None.
Proof.
  intros Hok Hv. unfold deposit_verify in Hv. rewrite !result_bind_ok in Hv. destruct Hv as ([] & Hc & Hv).
  rewrite result_bind_ok in Hv. destruct Hv as ([] & Hv & _). apply err_if_ok, negb_false_iff, bool_decide_eq_true in Hc.
  apply map_err_ok in Hv. apply validate_not_in_channel_ok in Hv as [? ?]; done.
Qed.

(** The channels after a deposit: as before, with the notes of [l] in [ch]. *)
Lemma notes_ok_registered utxos c sn inputs ch l utxos' c' : notes_ok utxos c sn → spent_created utxos inputs l utxos' →
  insertable utxos l → Forall (λ u, note_ok (note u)) l → (∀ i, i ∈ inputs → sn !! i = None) →
  (∀ i, i ∈ inputs → channel_notes c !! i = None) → is_Some (channels c !! ch) → registered ch l c c' → notes_ok utxos' c' sn.
Proof.
  intros Hn Hsc Hf Hl Hsn Hic Hch [Hcc Hr]. eapply notes_ok_spent; [done..|]. intros id x Hx. rewrite Hcc.
  apply Hr in Hx as [(u & Hu & -> & ->)|Hx]; [split; [done|]; left; by exists u|].
  destruct (no_channel _ _ _ Hn _ _ Hx) as (_ & ? & _). split; [done|]. right. split; [|done].
  intros Hi. by rewrite Hic in Hx.
Qed.

(** A verified deposit spends its inputs and creates them again in the channel. *)
Lemma deposit_run max op utxos c sn tx_hash : notes_ok utxos c sn → op_wf max (ChannelDeposit op) → NoDup (d_inputs op) →
  (∀ i, i ∈ d_inputs op → is_Some (ks_view utxos !! i) ∧ sn !! i = None ∧ channel_notes c !! i = None) →
  let l := utxos_of (op_digest (ChannelDeposit op)) (input_notes utxos (d_inputs op)) in
  insertable utxos l →
  deposit_execute op c utxos tx_hash = Err (ChannelInputsErr InputsOverflow) ∨
  ∃ c' utxos' payload, deposit_execute op c utxos tx_hash = Ok ((c', utxos'), [mkTxEvent tx_hash (op_digest (ChannelDeposit op)) payload]) ∧
    spent_created utxos (d_inputs op) l utxos' ∧ registered (d_channel_id op) l c c'.
Proof.
  intros Hn Hwf Hnd Hin l Hf. pose proof (no_store _ _ _ Hn) as Hok.
  assert (present utxos (d_inputs op)) as Hp by (intros i Hi; by apply Hin).
  destruct (spend_create (E:=ChannelError) utxos (d_inputs op) l Hok Hnd Hp Hf) as (u1 & u2 & He1 & He2 & Hsc).
  unfold deposit_execute. rewrite inputs_amount_sum by (done || by eapply notes_u64).
  destruct (_ <=? u64_max); cbn [map_err mbind result_bind]; [right|by left].
  rewrite deposit_outputs_ok by (done || apply Hwf). rewrite He1. cbn [map_err mbind result_bind].
  rewrite (op_id_ok deposit_codec max) by by apply (payload_valid_wf max (ChannelDeposit op)).
  cbn [mbind result_bind]. change (blake2b_256 _) with (op_digest (ChannelDeposit op)). fold l. rewrite He2.
  destruct (deposit_register_ok c (d_channel_id op) l []) as (c' & Hr & Hreg); [apply Hf| | |].
  - intros u Hu. by eapply channel_notes_fresh.
  - unfold l. rewrite utxos_of_length, input_notes_length by done. apply Hwf.
  - cbn [mbind result_bind]. rewrite Hr. cbn [mbind result_bind]. eexists _, _, _. split; [done|]. done.
Qed.

Lemma deposit_ok max op utxos c sn tx_hash : notes_ok utxos c sn → op_wf max (ChannelDeposit op) → is_Some (channels c !! d_channel_id op) →
  NoDup (d_inputs op) →
  (∀ i, i ∈ d_inputs op → is_Some (ks_view utxos !! i) ∧ sn !! i = None ∧ channel_notes c !! i = None) →
  insertable utxos (utxos_of (op_digest (ChannelDeposit op)) (input_notes utxos (d_inputs op))) →
  deposit_execute op c utxos tx_hash = Err (ChannelInputsErr InputsOverflow) ∨
  ∃ c' utxos' events, deposit_execute op c utxos tx_hash = Ok ((c', utxos'), events) ∧ notes_ok utxos' c' sn ∧
    channels c' = channels c ∧ notes_total utxos' = notes_total utxos.
Proof.
  intros Hn Hwf Hch Hnd Hin Hf.
  destruct (deposit_run max op utxos c sn tx_hash) as [->|(c' & u2 & ev & -> & Hsc & Hreg)]; [done..|by left|right].
  eexists _, _, _. split; [done|]. split_and!.
  - eapply notes_ok_registered; [done..| | | |done|done].
    + apply utxos_notes_ok, input_notes_ok. by eapply notes_u64.
    + intros i Hi. by apply Hin.
    + intros i Hi. by apply Hin.
  - apply Hreg.
  - rewrite (sc_total _ _ _ _ Hsc), utxos_of_value, input_notes_value. lia.
Qed.

Lemma withdraw_ok op utxos c sn : notes_ok utxos c sn → NoDup (w_inputs op) →
  (∀ i, i ∈ w_inputs op → channel_notes c !! i = Some (w_channel_id op)) →
  ∃ c', withdraw_execute op c = Ok c' ∧ notes_ok utxos c' sn ∧ channels c' = channels c.
Proof.
  intros [Hs Hk Hc Hn] Hnd Hin. destruct (unregister_all_ok (w_channel_id op) (w_inputs op) c Hnd Hin) as (c' & He & Hcc & Hu).
  exists c'. split_and!; [done| |done]. split; [done..| |done]. intros id ch Hid. apply Hu in Hid as [_ Hid]. rewrite Hcc. by apply Hc.
Qed.

(** A verified channel transfer moves notes within the channel. *)
Lemma channel_transfer_run max op utxos c sn : notes_ok utxos c sn → op_wf max (ChannelTransfer op) → NoDup (ct_inputs op) →
  (∀ i, i ∈ ct_inputs op → is_Some (ks_view utxos !! i) ∧ sn !! i = None ∧ channel_notes c !! i = Some (ct_channel_id op)) →
  let l := utxos_of (op_digest (ChannelTransfer op)) (ct_outputs op) in
  insertable utxos l →
  ∃ c1 c' utxos', channel_transfer_execute op c utxos = Ok (c', utxos') ∧ spent_created utxos (ct_inputs op) l utxos' ∧
    unregistered (ct_inputs op) c c1 ∧ registered (ct_channel_id op) l c1 c'.
Proof.
  intros Hn Hwf Hnd Hin l Hf. pose proof (no_store _ _ _ Hn) as Hok.
  assert (present utxos (ct_inputs op)) as Hp by (intros i Hi; by apply Hin).
  destruct (spend_create (E:=ChannelError) utxos (ct_inputs op) l Hok Hnd Hp Hf) as (u1 & u2 & He1 & He2 & Hsc).
  destruct (unregister_all_ok (ct_channel_id op) (ct_inputs op) c Hnd) as (c1 & Hu1 & Hcc1 & Hc1); [intros i Hi; by apply Hin|].
  destruct (register_all_ok c1 (ct_channel_id op) l) as (c2 & Hr2 & Hreg); [apply Hf| |].
  { intros u Hu. apply eq_None_not_Some. intros [x [_ Hx]%Hc1].
    by rewrite (channel_notes_fresh _ _ _ _ _ Hn Hf Hu) in Hx. }
  unfold channel_transfer_execute. rewrite He1. cbn [map_err mbind result_bind]. rewrite Hu1. cbn [mbind result_bind].
  rewrite (op_id_ok channel_transfer_codec tt) by by apply (payload_valid_wf max (ChannelTransfer op)).
  cbn [mbind result_bind]. change (blake2b_256 _) with (op_digest (ChannelTransfer op)). fold l. rewrite He2.
  cbn [mbind result_bind]. rewrite Hr2. cbn [mbind result_bind]. eexists _, _, _. split; [done|]. done.
Qed.

Lemma channel_transfer_ok max op utxos c sn : notes_ok utxos c sn → op_wf max (ChannelTransfer op) →
  is_Some (channels c !! ct_channel_id op) → NoDup (ct_inputs op) →
  (∀ i, i ∈ ct_inputs op → is_Some (ks_view utxos !! i) ∧ sn !! i = None ∧ channel_notes c !! i = Some (ct_channel_id op)) →
  insertable utxos (utxos_of (op_digest (ChannelTransfer op)) (ct_outputs op)) →
  ∃ c' utxos', channel_transfer_execute op c utxos = Ok (c', utxos') ∧ notes_ok utxos' c' sn ∧ channels c' = channels c ∧
    notes_total utxos' = notes_total utxos - inputs_value (ks_view utxos) (ct_inputs op) + notes_value (ct_outputs op).
Proof.
  intros Hn Hwf Hch Hnd Hin Hf.
  destruct (channel_transfer_run max op utxos c sn) as (c1 & c2 & u2 & -> & Hsc & [Hcc1 Hc1] & [Hcc2 Hc2]); [done..|].
  eexists _, _. split; [done|]. split_and!.
  - eapply notes_ok_spent; [done..|by apply outputs_notes_ok, Hwf|intros i Hi; by apply Hin|].
    intros id x Hx. rewrite Hcc2, Hcc1. apply Hc2 in Hx as [(u & Hu & -> & ->)|[Hni Hx]%Hc1].
    + split; [done|]. left. by exists u.
    + destruct (no_channel _ _ _ Hn _ _ Hx) as (_ & ? & _). split; [done|]. by right.
  - by rewrite Hcc2.
  - rewrite (sc_total _ _ _ _ Hsc), utxos_of_value. lia.
Qed.

End Notes.

End NoteFacts.
