(* ===== verification/Leaders.v ===== *)
(** * Leader rewards: ledger/src/mantle/leader.rs

    The vouchers of block leaders, the rewards collected for them, and what a
    claim pays. The rewards of an epoch become claimable at its end, for the
    vouchers of the blocks up to then. *)

From S2P Require Import Prelude Merkle MerkleFacts MerkleTheorems Mmr MmrFacts MmrTheorems MerkleStore Codec Ops Channels Utxos ServiceNotes Inputs ChannelOps ClaimOps.
Import DynamicMerkle MountainRange.

#[local] Open Scope Z_scope.
#[local] Arguments full_root : simpl never.

Module Leaders.
Import Canonical Ops Utxos.

(** The trees over field elements hash with [ZkHasher]. *)
#[export] Instance zk_merkle_hasher `{Poseidon2Crate} : MerkleHasher Z := {| EMPTY_VALUE := 0; compress := zk_compress |}.

(** [VouchersSnapshot] and [LeaderState]. *)
Record VouchersSnapshot := mkSnapshot { vs_root : Z; vs_count : Z }.

Record LeaderState := mkLeaders {
  l_epoch : Z;
  vouchers_snapshot : VouchersSnapshot;
  nfs : gset Z;
  claimable_rewards : Z;
  pending_rewards : Z;
  vouchers : list (Root Z)
}.

Inductive LeaderError := LeaderInvalidEpoch (current incoming : Z).

Section Leaders.
Context `{Poseidon2Crate}.
Implicit Types l : LeaderState.

(** [LeaderState::new]. *)
Definition leaders_new : LeaderState := mkLeaders 0 (mkSnapshot 0 0) ∅ 0 0 [].

(** [LeaderState::add_pending_rewards]. *)
Definition add_pending_rewards {E} l (rewards : Z) : result E LeaderState :=
  pending ← strict_add u64_max (pending_rewards l) rewards;
  Ok (mkLeaders (l_epoch l) (vouchers_snapshot l) (nfs l) (claimable_rewards l) pending (vouchers l)).

(** [LeaderState::add_voucher]. *)
Definition add_voucher {E} l (voucher_cm : Z) : result E LeaderState :=
  roots ← match push ACCEPTABLE_MAX_HEIGHT (vouchers l) voucher_cm with
          | Ok roots => Ok roots
          | Err _ => Fault Unwrap
          | Fault f => Fault f
          end;
  Ok (mkLeaders (l_epoch l) (vouchers_snapshot l) (nfs l) (claimable_rewards l) (pending_rewards l) roots).

(** [LeaderState::snapshot_vouchers]. *)
Definition snapshot_vouchers {E} l : result E LeaderState :=
  root ← frontier_root ACCEPTABLE_MAX_HEIGHT (vouchers l);
  count ← expect (if mmr_len (vouchers l) <=? u64_max then Some (mmr_len (vouchers l)) else None);
  Ok (mkLeaders (l_epoch l) (mkSnapshot root count) (nfs l) (claimable_rewards l) (pending_rewards l) (vouchers l)).

(** [LeaderState::update_claimable_rewards]. *)
Definition update_claimable_rewards {E} l : result E LeaderState :=
  claimable ← strict_add u64_max (claimable_rewards l) (pending_rewards l);
  Ok (mkLeaders (l_epoch l) (vouchers_snapshot l) (nfs l) claimable 0 (vouchers l)).

(** [LeaderState::update_epoch_state] and [try_apply_header]. *)
Definition update_epoch_state l (epoch : Z) : result LeaderError LeaderState :=
  match epoch ?= l_epoch l with
  | Eq => Ok l
  | Lt => Err (LeaderInvalidEpoch (l_epoch l) epoch)
  | Gt =>
      l ← snapshot_vouchers l;
      l ← update_claimable_rewards l;
      Ok (mkLeaders epoch (vouchers_snapshot l) (nfs l) (claimable_rewards l) (pending_rewards l) (vouchers l))
  end.

Definition leaders_apply_header l (epoch voucher_cm : Z) : result LeaderError LeaderState :=
  l ← update_epoch_state l epoch;
  add_voucher l voucher_cm.

(** [LeaderState::reward_amount]. *)
Definition reward_amount l : Z :=
  let n_unclaimed_vouchers := saturating_sub (vs_count (vouchers_snapshot l)) (Z.of_nat (base.size (nfs l))) in
  default 0 (checked_div (claimable_rewards l) n_unclaimed_vouchers).

(** [update_nullifiers] and [update_rewards], after a claim. *)
Definition with_claim l (nullifiers : gset Z) (claimable : Z) : LeaderState :=
  mkLeaders (l_epoch l) (vouchers_snapshot l) nullifiers claimable (pending_rewards l) (vouchers l).

(** ** Headers *)

(** The vouchers are those of the blocks so far, and the amounts are within
    their width. *)
Record leaders_ok (xs : list Z) l : Prop := {
  lo_vouchers : represents ACCEPTABLE_MAX_HEIGHT (vouchers l) xs;
  lo_claimable : 0 <= claimable_rewards l;
  lo_pending : 0 <= pending_rewards l;
  lo_sum : claimable_rewards l + pending_rewards l <= u64_max
}.

Lemma leaders_new_ok : leaders_ok [] leaders_new.
Proof. split; [|cbn; unfold u64_max; lia..]. split; [by apply Z.lt_le_incl, width_pos|]. by rewrite peaks_0. Qed.

Lemma width_32 : width (ACCEPTABLE_MAX_HEIGHT - 1) = 2 ^ 32.
Proof. reflexivity. Qed.

(** The state after a header in [epoch]: at the start of an epoch the vouchers
    so far are snapshotted and the pending rewards become claimable. *)
Definition header_snapshot (xs : list Z) l (epoch : Z) : VouchersSnapshot :=
  if l_epoch l <? epoch then mkSnapshot (full_root (ACCEPTABLE_MAX_HEIGHT - 1) (leaf_fn xs)) (Z.of_nat (length xs))
  else vouchers_snapshot l.

Lemma push_vouchers xs roots v : represents ACCEPTABLE_MAX_HEIGHT roots xs → Z.of_nat (length xs) < 2 ^ 32 →
  ∃ roots', push ACCEPTABLE_MAX_HEIGHT roots v = Ok roots' ∧ represents ACCEPTABLE_MAX_HEIGHT roots' (xs ++ [v]).
Proof. intros Hr Hlt. apply push_represents; [unfold ACCEPTABLE_MAX_HEIGHT; lia|done|by rewrite width_32]. Qed.

Lemma snapshot_vouchers_ok {E} xs l : leaders_ok xs l →
  snapshot_vouchers (E:=E) l = Ok (mkLeaders (l_epoch l)
    (mkSnapshot (full_root (ACCEPTABLE_MAX_HEIGHT - 1) (leaf_fn xs)) (Z.of_nat (length xs)))
    (nfs l) (claimable_rewards l) (pending_rewards l) (vouchers l)).
Proof.
  intros [Hr _ _ _]. unfold snapshot_vouchers.
  rewrite (frontier_root_represents _ _ xs); [|unfold ACCEPTABLE_MAX_HEIGHT; lia|done].
  rewrite (represents_len ACCEPTABLE_MAX_HEIGHT _ xs); [|unfold ACCEPTABLE_MAX_HEIGHT; lia|done]. cbn [mbind result_bind].
  destruct Hr as [Hlen _]. rewrite width_32 in Hlen. by rewrite (proj2 (Z.leb_le _ _)) by (unfold u64_max; lia).
Qed.

Lemma leaders_header xs l epoch v : leaders_ok xs l → Z.of_nat (length xs) < 2 ^ 32 → l_epoch l <= epoch →
  ∃ l', leaders_apply_header l epoch v = Ok l' ∧ leaders_ok (xs ++ [v]) l' ∧ l_epoch l' = epoch ∧ nfs l' = nfs l ∧
    vouchers_snapshot l' = header_snapshot xs l epoch ∧
    claimable_rewards l' = claimable_rewards l + (if l_epoch l <? epoch then pending_rewards l else 0) ∧
    pending_rewards l' = (if l_epoch l <? epoch then 0 else pending_rewards l).
Proof.
  intros Hok Hlen Hle. pose proof Hok as [Hr Hc Hp Hs]. destruct (push_vouchers xs (vouchers l) v Hr Hlen) as (roots' & Hpush & Hr').
  unfold leaders_apply_header, update_epoch_state, header_snapshot.
  destruct (Z.compare_spec epoch (l_epoch l)) as [->|Hlt|Hgt]; [|lia|].
  - rewrite Z.ltb_irrefl. cbn [mbind result_bind]. unfold add_voucher. rewrite Hpush. cbn.
    eexists. split; [done|]. split_and!; [split; cbn; done || lia|cbn; done || lia..].
  - rewrite (proj2 (Z.ltb_lt _ _)) by done. rewrite (snapshot_vouchers_ok xs) by done. cbn [mbind result_bind].
    unfold update_claimable_rewards. cbn [claimable_rewards pending_rewards].
    rewrite strict_add_in by lia. cbn [mbind result_bind]. unfold add_voucher. cbn [vouchers].
    rewrite Hpush. cbn [mbind result_bind]. eexists. split; [reflexivity|]. split_and!; [split; cbn; done || lia|cbn; done || lia..].
Qed.

(** ** Claims *)

(** A claim pays the reward of the moment ([claim_executes] below: it is what the
    operation does to the leader state); a run of claims, with what each paid. *)
Definition claim {E} l (nf : Z) : result E (LeaderState * Z) :=
  let reward := reward_amount l in
  claimable ← strict_sub (claimable_rewards l) reward;
  Ok (with_claim l ({[nf]} ∪ nfs l) claimable, reward).

Fixpoint claims {E} l (ks : list Z) : result E (LeaderState * list Z) :=
  match ks with
  | [] => Ok (l, [])
  | nf :: ks => '(l, reward) ← claim l nf; '(l, rewards) ← claims l ks; Ok (l, reward :: rewards)
  end.

Definition unclaimed l : Z := vs_count (vouchers_snapshot l) - Z.of_nat (base.size (nfs l)).

Lemma reward_amount_unclaimed l : 0 < unclaimed l → reward_amount l = claimable_rewards l / unclaimed l.
Proof.
  unfold reward_amount, unclaimed, saturating_sub. intros Hu. rewrite Z.max_r by lia.
  unfold checked_div. by rewrite (proj2 (Z.eqb_neq _ _)) by lia.
Qed.

Lemma reward_amount_bounds l : 0 <= claimable_rewards l → 0 <= reward_amount l <= claimable_rewards l.
Proof.
  intros Hc. unfold reward_amount. set (n := saturating_sub _ _). assert (0 <= n) as Hn by (unfold n, saturating_sub; lia).
  unfold checked_div. destruct (Z.eqb_spec n 0); cbn; [lia|]. split; [apply Z.div_pos; lia|].
  apply Z.div_le_upper_bound; [lia|]. nia.
Qed.

Lemma claim_ok {E} l nf : 0 <= claimable_rewards l →
  claim (E:=E) l nf = Ok (with_claim l ({[nf]} ∪ nfs l) (claimable_rewards l - reward_amount l), reward_amount l).
Proof. intros Hc. unfold claim. pose proof (reward_amount_bounds l Hc). by rewrite strict_sub_in by lia. Qed.

Lemma unclaimed_claim l nf c : nf ∉ nfs l → unclaimed (with_claim l ({[nf]} ∪ nfs l) c) = unclaimed l - 1.
Proof. intros Hnf. unfold unclaimed, with_claim. cbn. rewrite size_union, size_singleton by set_solver. lia. Qed.

(** One payment keeps the pool between [q] and [q + 1] per unclaimed voucher. *)
Lemma claim_fair q C n r : 0 < n → q * n <= C <= (q + 1) * n → r = C / n →
  q <= r <= q + 1 ∧ q * (n - 1) <= C - r <= (q + 1) * (n - 1).
Proof.
  intros Hn HC ->. pose proof (Z.div_mod C n ltac:(lia)). pose proof (Z.mod_pos_bound C n Hn). nia.
Qed.

Lemma claims_fair {E} q ks : ∀ l, NoDup ks → (∀ k, k ∈ ks → k ∉ nfs l) → 0 <= q → Z.of_nat (length ks) <= unclaimed l →
  q * unclaimed l <= claimable_rewards l <= (q + 1) * unclaimed l →
  ∃ l' rewards, claims (E:=E) l ks = Ok (l', rewards) ∧ length rewards = length ks ∧ Forall (λ r, q <= r <= q + 1) rewards ∧
    claimable_rewards l' + foldr Z.add 0 rewards = claimable_rewards l ∧ unclaimed l' = unclaimed l - Z.of_nat (length ks) ∧
    q * unclaimed l' <= claimable_rewards l' <= (q + 1) * unclaimed l'.
Proof.
  induction ks as [|nf ks IH]; intros l Hnd Hfresh Hq Hlen HC; cbn [claims].
  { exists l, []. split_and!; try done; cbn; lia. }
  apply NoDup_cons in Hnd as [Hnf Hnd]. cbn [length] in *.
  assert (0 < unclaimed l) as Hn by lia. rewrite claim_ok by nia. cbn [mbind result_bind].
  destruct (claim_fair q _ _ _ Hn HC (reward_amount_unclaimed l Hn)) as [Hr HC'].
  assert (nf ∉ nfs l) as Hnf' by (apply Hfresh; left).
  destruct (IH (with_claim l ({[nf]} ∪ nfs l) (claimable_rewards l - reward_amount l))) as (l' & rs & -> & Hl & HF & Hsum & Hun & HC'').
  - done.
  - cbn. set_solver.
  - done.
  - rewrite unclaimed_claim by done. lia.
  - by rewrite unclaimed_claim.
  - cbn [mbind result_bind]. exists l', (reward_amount l :: rs). rewrite unclaimed_claim in Hun by done.
    split_and!; [done|cbn; lia|by constructor|cbn in *; lia|lia|lia..].
Qed.

(** C33: the claims of an epoch are paid fairly: whatever the order, each pays
    the pool divided by the unclaimed vouchers of the snapshot, rounded down, or
    one unit more; what they pay comes out of the pool, which never underflows
    and is empty once every voucher is claimed. *)
Theorem leader_claims_fair {E} l ks : 0 <= claimable_rewards l → NoDup ks → (∀ k, k ∈ ks → k ∉ nfs l) →
  Z.of_nat (length ks) <= unclaimed l → 0 < unclaimed l →
  ∃ l' rewards, claims (E:=E) l ks = Ok (l', rewards) ∧ length rewards = length ks ∧
    Forall (λ r, claimable_rewards l / unclaimed l <= r <= claimable_rewards l / unclaimed l + 1) rewards ∧
    claimable_rewards l' + foldr Z.add 0 rewards = claimable_rewards l ∧ 0 <= claimable_rewards l' ∧
    (Z.of_nat (length ks) = unclaimed l → claimable_rewards l' = 0).
Proof.
  intros Hc Hnd Hf Hlen Hn. set (q := claimable_rewards l / unclaimed l).
  assert (0 <= q) as Hq by (apply Z.div_pos; lia).
  destruct (claims_fair (E:=E) q ks l) as (l' & rs & Hrun & Hl & HF & Hsum & Hun & HC); [done..| |].
  - pose proof (Z.div_mod (claimable_rewards l) (unclaimed l) ltac:(lia)) as Hd.
    pose proof (Z.mod_pos_bound (claimable_rewards l) (unclaimed l) Hn). fold q in Hd. nia.
  - exists l', rs. split_and!; [done..|nia|]. intros Heq. nia.
Qed.

End Leaders.

(** The execution of the operation on the leader state, as the ledger runs it, is a
    claim, and its event and its note are of the reward the claim pays. *)
Lemma claim_executes {T E} `{!KeyedStoreOps T NoteId Utxo} `{Poseidon2Crate} `{Blake2Crate} (l : LeaderState) (op : LeaderClaimOp) (utxos : T) tx_hash r events :
  ClaimOps.leader_claim_execute (E:=E) op (ClaimOps.mkLeaderClaimContext (nfs l) (reward_amount l) (claimable_rewards l) utxos) tx_hash = Ok (r, events) →
  claim (E:=E) l (lc_voucher_nullifier op) = Ok (with_claim l (ClaimOps.lcc_nullifiers r) (ClaimOps.lcc_claimable_rewards r), reward_amount l) ∧
  ∃ u, events = [mkTxEvent tx_hash (op_id u) (LeaderRewardClaimed (lc_voucher_nullifier op) u)] ∧ value (note u) = reward_amount l ∧
    ks_insert utxos (utxo_id u) u = Ok (E:=E) (ClaimOps.lcc_utxos r).
Proof.
  unfold ClaimOps.leader_claim_execute, ClaimOps.leader_claim_utxo. cbn [ClaimOps.lcc_reward_amount ClaimOps.lcc_utxos ClaimOps.lcc_claimable_rewards ClaimOps.lcc_nullifiers].
  intros Hx. peel Hx as u Hu. peel Hu as id Hid. injection Hu as <-. peel Hx as us Hus. peel Hx as c Hc. injection Hx as <- <-. unfold claim. rewrite Hc. cbn [mbind result_bind].
  split; [done|]. exists (mkUtxo id 0 (mkNote (reward_amount l) (lc_pk op))). split_and!; [done|done|exact Hus].
Qed.

End Leaders.
