(* ===== verification/Pow.v ===== *)
(** * Proof-of-work state: ledger/src/mantle/pow

    The pool that funds proof-of-work rewards, the reward of an epoch, the
    difficulty a ticket must beat and its retargeting after every block, the
    spent tickets kept while their anchor block may still be claimed against,
    and the per-epoch transaction load from which the difficulty of entering the
    Blend network is retargeted. *)

From S2P Require Import Prelude Era EngineConfig Codec Ops Utxos ServiceNotes SdpOps LedgerConfig ClaimOps.

#[local] Open Scope Z_scope.

Module Pow.
Import Canonical Ops Utxos SdpOps LedgerConfig ClaimOps.

(** [num_bigint]: [BigUint::nth_root], the floor of the exact root. *)
Class BigUintCrate := { nth_root : Z → Z → Z }.

(** ** Transaction density: tx_density.rs *)

Record EpochTotals := mkTotals { et_blocks : Z; et_txs : Z }.
Record TxDensity := mkTxDensity { current_epoch : EpochTotals; last_closed_epoch : option EpochTotals }.

(** [ClosedEpochLoad]. *)
Record ClosedEpochLoad := mkLoad { load_transactions : Z; load_blocks : Z }.

(** [EpochTotals::record_block] and [TxDensity::record_block]. *)
Definition totals_record {E} (t : EpochTotals) (txs_in_block : Z) : result E EpochTotals :=
  blocks ← expect (checked_add u64_max (et_blocks t) 1);
  txs ← expect (checked_add u64_max (et_txs t) txs_in_block);
  Ok (mkTotals blocks txs).

Definition density_record {E} (d : TxDensity) (txs_in_block : Z) : result E TxDensity :=
  t ← totals_record (current_epoch d) txs_in_block;
  Ok (mkTxDensity t (last_closed_epoch d)).

(** [TxDensity::close_epoch]. *)
Definition close_epoch (d : TxDensity) : TxDensity := mkTxDensity (mkTotals 0 0) (Some (current_epoch d)).

Definition last_closed_epoch_load (d : TxDensity) : option ClosedEpochLoad :=
  (λ t, mkLoad (et_txs t) (et_blocks t)) <$> last_closed_epoch d.

(** ** Difficulties *)

(** [compute_new_reward_difficulty]. *)
Definition compute_new_reward_difficulty {E} (claims_accepted_in_block current_block_reward_target : Z)
    (c : RewardPoWConfig) : result E Z :=
  observation_weight ← expect (checked_sub (rp_ema_smoothing_precision c) (rp_ema_smoothing_factor c));
  let demand_estimate_numerator :=
    Z.max (observation_weight * claims_accepted_in_block + rp_ema_smoothing_factor c * target_claims_per_block c) 1 in
  let demand_estimate_denominator := current_block_reward_target * rp_ema_smoothing_precision c in
  new_target ← div_ (target_claims_per_block c * demand_estimate_denominator) demand_estimate_numerator;
  target_floor ← reward_target_floor c;
  let genesis_target := fr_of_shift (minimum_difficulty c) in
  Ok (Z.min (Z.max new_target target_floor) genesis_target mod fr_modulus).

(** [Ord::clamp], which panics on an empty interval. *)
Definition clamp {E} (x low high : Z) : result E Z :=
  assert_ (low <=? high);;
  Ok (if x <? low then low else if high <? x then high else x).

(** [compute_epoch_blend_difficulty]. *)
Definition compute_epoch_blend_difficulty `{BigUintCrate} {E} (load : ClosedEpochLoad) (previous_difficulty : Z)
    (c : BlendPoWConfig) : result E Z :=
  low ← div_ previous_difficulty (max_step c);
  let high := previous_difficulty * max_step c in
  if load_transactions load =? 0 then Ok (fr_from_biguint_saturating high)
  else
    let numerator := load_transactions load in
    let denominator := target_transactions_per_block c * load_blocks load in
    '(a, b) ← damping_exponent c;
    let base := fr_of_shift (base_difficulty c) in
    radicand ← div_ (base ^ b * denominator ^ a) (numerator ^ a);
    target ← clamp (nth_root radicand b) low high;
    Ok (fr_from_biguint_saturating target).

(** ** [PowState] *)

Record RewardPowState := mkRewardPow {
  reward_pool : Z;
  epoch_reward : Z;
  reward_difficulty : Z;
  refill_rewards : Z;
  nullifiers : gmap Z Z;
  block_slots : gmap Hash Z
}.

Record PowState := mkPow { ps_reward : RewardPowState; ps_tx_density : TxDensity }.

Inductive PowRewardPoolOverflow := pow_reward_pool_overflow.

Section State.
Context {T Params : Type}.
Implicit Types (p : PowState) (c : Config Params) (windows : EraSchedule Z).

(** [compute_epoch_pow_reward]. *)
Definition compute_epoch_pow_reward {E} (pow_reward_pool : Z) c : result E Z :=
  product ← strict_mul u128_max pow_reward_pool (rate_num (reward_pow c));
  denominator ← claim_rate_denominator c;
  reward ← div_ product denominator;
  Ok (Z.min reward u64_max).

(** [PowState::from_reward_pool_and_config]. *)
Definition from_reward_pool_and_config {E} (pow_reward_pool : Z) c : result E PowState :=
  reward ← compute_epoch_pow_reward pow_reward_pool c;
  Ok (mkPow (mkRewardPow pow_reward_pool reward (fr_of_shift (minimum_difficulty (reward_pow c))) 0 ∅ ∅)
        (mkTxDensity (mkTotals 0 0) None)).

(** [PowState::update_from_claim_execution_result]. *)
Definition update_from_claim_execution_result p (new_nullifiers : gmap Z Z) (new_pool : Z) : PowState :=
  let r := ps_reward p in
  mkPow (mkRewardPow new_pool (epoch_reward r) (reward_difficulty r) (refill_rewards r) new_nullifiers (block_slots r))
    (ps_tx_density p).

(** [PowState::add_rewards_to_pool]. *)
Definition add_rewards_to_pool p c : result PowRewardPoolOverflow PowState :=
  let r := ps_reward p in
  pool ← ok_or (checked_add u64_max (reward_pool r) (refill_rewards r)) pow_reward_pool_overflow;
  reward ← compute_epoch_pow_reward pool c;
  Ok (mkPow (mkRewardPow pool reward (reward_difficulty r) 0 (nullifiers r) (block_slots r)) (ps_tx_density p)).

(** [PowState::add_reward_refill_rewards]. *)
Definition add_reward_refill_rewards p (reward : Z) : result PowRewardPoolOverflow PowState :=
  let r := ps_reward p in
  refill ← ok_or (checked_add u64_max (refill_rewards r) reward) pow_reward_pool_overflow;
  Ok (mkPow (mkRewardPow (reward_pool r) (epoch_reward r) (reward_difficulty r) refill (nullifiers r) (block_slots r))
        (ps_tx_density p)).

(** [PowState::update_difficulty]. *)
Definition update_difficulty {E} p (claims_in_block : Z) (c : RewardPoWConfig) : result E PowState :=
  let r := ps_reward p in
  difficulty ← compute_new_reward_difficulty claims_in_block (reward_difficulty r) c;
  Ok (mkPow (mkRewardPow (reward_pool r) (epoch_reward r) difficulty (refill_rewards r) (nullifiers r) (block_slots r))
        (ps_tx_density p)).

(** [is_within_slot_window]. *)
Definition is_within_slot_window {E} (anchor_slot current : Z) windows : result E bool :=
  v ← at_slot windows anchor_slot;
  Ok (saturating_sub current anchor_slot <=? v_parameters v).

(** The entries whose anchor slot is within its window. *)
Definition prune {E K} `{Countable K} (m : gmap K Z) (current : Z) windows : result E (gmap K Z) :=
  foldr (λ (e : K * Z) acc, acc ← acc; keep ← is_within_slot_window e.2 current windows;
           Ok (if keep : bool then <[e.1 := e.2]> acc else acc)) (Ok ∅) (map_to_list m).

(** [prune_seen_block_slots] and [prune_nullifiers_by_slots], after
    [add_seen_block_slots]: [LedgerState::add_seen_block] of the Mantle ledger. *)
Definition add_seen_block {E} p (block_hash : Hash) (slot : Z) windows : result E PowState :=
  let r := ps_reward p in
  slots ← prune (<[block_hash := slot]> (block_slots r)) slot windows;
  nfs ← prune (nullifiers r) slot windows;
  Ok (mkPow (mkRewardPow (reward_pool r) (epoch_reward r) (reward_difficulty r) (refill_rewards r) nfs slots)
        (ps_tx_density p)).

(** [PowState::record_block_txs]. *)
Definition record_block_txs {E} p (txs_in_block : Z) : result E PowState :=
  d ← density_record (ps_tx_density p) txs_in_block;
  Ok (mkPow (ps_reward p) d).

(** [PowState::try_apply_header]. *)
Definition pow_apply_header p (previous_epoch next_epoch : EpochState T) c : result PowRewardPoolOverflow PowState :=
  if es_epoch next_epoch <=? es_epoch previous_epoch then Ok p
  else
    p ← add_rewards_to_pool p c;
    Ok (mkPow (ps_reward p)
          (Nat.iter (Z.to_nat (es_epoch next_epoch - es_epoch previous_epoch)) close_epoch (ps_tx_density p))).

End State.

End Pow.
