(* ===== verification/PowTheorems.v ===== *)
(** * The proof-of-work controllers

    Under a validated configuration the reward target stays between its floor
    and the genesis target, moves against the claims of the block, and without
    claims climbs back to the genesis target; the Blend difficulty moves at most
    by its step; and no claim is paid twice although spent tickets are pruned.
    The first module, [PowFacts], is about difficulties and pools; [PowTheorems]
    about tickets. *)

From S2P Require Import Prelude Era EraFacts EngineConfig MerkleStore Codec Ops Channels Utxos ServiceNotes Inputs ChannelOps SdpOps LedgerConfig ClaimOps Pow.

#[local] Open Scope Z_scope.

Module PowFacts.
Import Canonical Ops Utxos SdpOps LedgerConfig ClaimOps Pow.

(** ** Validated configurations *)

(** The widths of the fields and the non-zero ones. *)
Record reward_pow_typed (c : RewardPoWConfig) : Prop := {
  rt_shift : 1 <= minimum_difficulty c <= MODULUS_SHIFT_MAX;
  rt_factor : 0 <= rp_ema_smoothing_factor c;
  rt_precision : 1 <= rp_ema_smoothing_precision c;
  rt_claims : 0 <= target_claims_per_block c;
  rt_rate_den : 1 <= rate_den c;
  rt_claim : 1 <= target_claim_per_block c;
  rt_share : 0 <= pow_share c;
  rt_share_den : 1 <= share_den c
}.

Definition target_floor (c : RewardPoWConfig) : Z :=
  Z.max (div_ceil (rp_ema_smoothing_factor c) (rp_ema_smoothing_precision c - rp_ema_smoothing_factor c)) 1.

Definition genesis_target (c : RewardPoWConfig) : Z := fr_of_shift (minimum_difficulty c).

Lemma checked_floor_ok c : rp_ema_smoothing_factor c < rp_ema_smoothing_precision c →
  checked_reward_target_floor c = Ok (target_floor c).
Proof.
  intros Hlt. unfold checked_reward_target_floor, checked_sub. rewrite (proj2 (Z.leb_le _ _)) by lia.
  cbn [mbind option_bind]. rewrite (proj2 (Z.eqb_neq _ _)) by lia. cbn [ok_or mbind result_bind].
  fold (target_floor c). unfold nonzero. rewrite (proj2 (Z.eqb_neq _ _)); [done|]. unfold target_floor. lia.
Qed.

Lemma reward_pow_validate_ok c : reward_pow_typed c → reward_pow_validate c = Ok tt ↔
  rp_ema_smoothing_factor c < rp_ema_smoothing_precision c ∧ pow_share c <= share_den c ∧
  target_floor c < genesis_target c ∧ rate_den c * target_claim_per_block c <= u64_max.
Proof.
  intros [_ _ _ _ Hrd Hcl _ _]. unfold reward_pow_validate, genesis_target.
  destruct (Z.leb_spec (rp_ema_smoothing_precision c) (rp_ema_smoothing_factor c)); cbn [err_if mbind result_bind]; [naive_solver lia|].
  destruct (Z.ltb_spec (share_den c) (pow_share c)); cbn [err_if mbind result_bind]; [naive_solver lia|].
  rewrite checked_floor_ok by done. cbn [mbind result_bind].
  destruct (Z.leb_spec (fr_of_shift (minimum_difficulty c)) (target_floor c)); cbn [err_if mbind result_bind]; [naive_solver lia|].
  unfold checked_claim_rate_scale, checked_mul.
  destruct (Z.leb_spec (rate_den c * target_claim_per_block c) u64_max); cbn [ok_or mbind result_bind]; [|naive_solver lia].
  unfold nonzero. rewrite (proj2 (Z.eqb_neq _ _)) by nia. naive_solver.
Qed.

Lemma genesis_target_bounds c : reward_pow_typed c → 0 <= genesis_target c < fr_modulus.
Proof.
  intros [Hs _ _ _ _ _ _ _]. unfold genesis_target, fr_of_shift. rewrite Z.shiftr_div_pow2 by lia.
  assert (2 <= 2 ^ minimum_difficulty c) as H2.
  { change 2 with (2 ^ 1) at 1. apply Z.pow_le_mono_r; lia. }
  split; [apply Z.div_pos; [done|lia]|]. apply Z.div_lt; [done|lia].
Qed.

(** ** The reward target *)

(** The target before it is kept within its bounds. *)
Definition raw_target (c : RewardPoWConfig) (claims current : Z) : Z :=
  target_claims_per_block c * (current * rp_ema_smoothing_precision c) /
  Z.max ((rp_ema_smoothing_precision c - rp_ema_smoothing_factor c) * claims +
         rp_ema_smoothing_factor c * target_claims_per_block c) 1.

Lemma new_difficulty_ok {E} c claims current : reward_pow_typed c → reward_pow_validate c = Ok tt → 
  compute_new_reward_difficulty (E:=E) claims current c =
    Ok (Z.min (Z.max (raw_target c claims current) (target_floor c)) (genesis_target c)).
Proof.
  intros Ht Hv. pose proof (genesis_target_bounds c Ht). apply reward_pow_validate_ok in Hv as (Hlt & _ & Hfloor & _); [|done].
  unfold compute_new_reward_difficulty, checked_sub. rewrite (proj2 (Z.leb_le _ _)) by lia. cbn [expect mbind result_bind].
  rewrite div_in by lia. cbn [mbind result_bind]. unfold reward_target_floor. rewrite checked_floor_ok by done.
  cbn [mbind result_bind]. fold (raw_target c claims current). fold (genesis_target c). f_equal. apply Z.mod_small.
  unfold target_floor in *. lia.
Qed.

Section RawTarget.
Context (c : RewardPoWConfig) (Ht : reward_pow_typed c).
Context (Hlt : rp_ema_smoothing_factor c < rp_ema_smoothing_precision c).
Implicit Types claims current : Z.

Lemma raw_target_rises claims current : 0 < target_claims_per_block c → 0 <= claims <= target_claims_per_block c →
  0 <= current → current <= raw_target c claims current.
Proof.
  destruct Ht. intros HT Hc Hcur. unfold raw_target. apply Z.div_le_lower_bound; [lia|].
  set (P := rp_ema_smoothing_precision c) in *. set (F := rp_ema_smoothing_factor c) in *.
  set (TT := target_claims_per_block c) in *.
  assert (Z.max ((P - F) * claims + F * TT) 1 <= P * TT) by nia. nia.
Qed.

Lemma raw_target_falls claims current : target_claims_per_block c <= claims →
  0 <= current → raw_target c claims current <= current.
Proof.
  destruct Ht. intros Hc Hcur. unfold raw_target. apply Z.div_le_upper_bound; [lia|].
  set (P := rp_ema_smoothing_precision c) in *. set (F := rp_ema_smoothing_factor c) in *.
  set (TT := target_claims_per_block c) in *.
  assert (P * TT <= Z.max ((P - F) * claims + F * TT) 1) by nia. nia.
Qed.

(** Without claims, a target at or above the floor strictly rises. *)
Lemma raw_target_recovers current : 0 < target_claims_per_block c → 0 < rp_ema_smoothing_factor c →
  target_floor c <= current → current + 1 <= raw_target c 0 current.
Proof.
  destruct Ht. intros HT HF Hcur. unfold target_floor in Hcur. unfold raw_target.
  set (P := rp_ema_smoothing_precision c) in *. set (F := rp_ema_smoothing_factor c) in *.
  set (TT := target_claims_per_block c) in *. pose proof (div_ceil_spec F (P - F) ltac:(lia)) as Hd.
  rewrite Z.mul_0_r, Z.max_l by nia. apply Z.div_le_lower_bound; [nia|]. cbn [Z.add].
  assert (F <= (P - F) * current) by nia. nia.
Qed.

End RawTarget.

(** Under a validated configuration the reward target never leaves the
    interval from its floor to the genesis target; it is unchanged by a block
    with exactly the targeted claims, hardened by more and eased by fewer. *)
Theorem reward_target_controller {E} c claims current : reward_pow_typed c → reward_pow_validate c = Ok tt →
  target_floor c <= current <= genesis_target c → 0 <= claims →
  ∃ next, compute_new_reward_difficulty (E:=E) claims current c = Ok next ∧
    target_floor c <= next <= genesis_target c ∧
    (target_claims_per_block c <= claims → next <= current) ∧
    (0 < target_claims_per_block c → claims <= target_claims_per_block c → current <= next).
Proof.
  intros Ht Hv Hcur Hcl. exists (Z.min (Z.max (raw_target c claims current) (target_floor c)) (genesis_target c)).
  split; [by apply new_difficulty_ok|]. apply reward_pow_validate_ok in Hv as (Hlt & _ & Hfl & _); [|done].
  assert (1 <= target_floor c) by (unfold target_floor; lia). split_and!; [lia..| |].
  - intros Hge. pose proof (raw_target_falls c Ht Hlt claims current Hge ltac:(lia)). lia.
  - intros HT Hle. pose proof (raw_target_rises c Ht Hlt claims current HT ltac:(lia) ltac:(lia)). lia.
Qed.

(** The target after [n] blocks without claims. *)
Fixpoint idle_blocks {E} (n : nat) (current : Z) (c : RewardPoWConfig) : result E Z :=
  match n with
  | O => Ok current
  | S n => next ← compute_new_reward_difficulty 0 current c; idle_blocks n next c
  end.

(** Claims staying away, the reward target comes back to the genesis
    target after at most as many blocks as it is below it, from any target it
    can have reached. *)
Theorem reward_target_recovers {E} c current : reward_pow_typed c → reward_pow_validate c = Ok tt →
  0 < target_claims_per_block c → 0 < rp_ema_smoothing_factor c →
  target_floor c <= current <= genesis_target c →
  ∃ n, Z.of_nat n <= genesis_target c - current ∧ idle_blocks (E:=E) n current c = Ok (genesis_target c).
Proof.
  intros Ht Hv HT HF [Hfl Hge]. pose proof (proj1 (reward_pow_validate_ok c Ht) Hv) as (Hlt & _ & Hcap & _).
  remember (Z.to_nat (genesis_target c - current)) as k eqn:Hk.
  revert current Hfl Hge Hk. induction (lt_wf k) as [k _ IH]. intros current Hfl Hge ->.
  destruct (decide (current = genesis_target c)) as [->|Hne]; [exists 0%nat; split; [lia|done]|].
  pose proof (raw_target_recovers c Ht Hlt current HT HF Hfl) as Hrise.
  set (next := Z.min (Z.max (raw_target c 0 current) (target_floor c)) (genesis_target c)).
  destruct (IH (Z.to_nat (genesis_target c - next))) with (current := next) as (n & Hn & Hrun); [lia..|].
  exists (S n). split; [lia|]. cbn [idle_blocks]. rewrite new_difficulty_ok by done. exact Hrun.
Qed.

(** ** The Blend difficulty *)

(** The documented behaviour of [BigUint::nth_root]: the floor of the root. *)
Class BigUintLaws `{BigUintCrate} : Prop := {
  nth_root_floor : ∀ x n, 0 <= x → 0 < n → 0 <= nth_root x n ∧ nth_root x n ^ n <= x < (nth_root x n + 1) ^ n
}.

Section Blend.
Context `{BigUintLaws}.
Implicit Types c : BlendPoWConfig.

Lemma nth_root_unique x n r : 0 < n → 0 <= r → r ^ n <= x < (r + 1) ^ n → nth_root x n = r.
Proof.
  intros Hn Hr Hx. assert (0 <= r ^ n) by (apply Z.pow_nonneg; lia).
  destruct (nth_root_floor x n ltac:(lia) Hn) as (Ha0 & Ha1 & Ha2).
  destruct (Z.lt_trichotomy (nth_root x n) r) as [Hlt|[?|Hgt]]; [|done|].
  - assert ((nth_root x n + 1) ^ n <= r ^ n) by (apply Z.pow_le_mono_l; lia). lia.
  - assert ((r + 1) ^ n <= (nth_root x n) ^ n) by (apply Z.pow_le_mono_l; lia). lia.
Qed.

Lemma nth_root_mono x y n : 0 <= x <= y → 0 < n → nth_root x n <= nth_root y n.
Proof.
  intros Hxy Hn. destruct (nth_root_floor x n ltac:(lia) Hn) as (Ha0 & Ha1 & Ha2).
  destruct (nth_root_floor y n ltac:(lia) Hn) as (Hb0 & Hb1 & Hb2).
  destruct (Z.le_gt_cases (nth_root x n) (nth_root y n)) as [|Hgt]; [done|].
  assert ((nth_root y n + 1) ^ n <= (nth_root x n) ^ n) by (apply Z.pow_le_mono_l; lia). lia.
Qed.

Record blend_pow_typed c : Prop := {
  bt_shift : 1 <= base_difficulty c <= MODULUS_SHIFT_MAX;
  bt_target : 1 <= target_transactions_per_block c;
  bt_step : 1 <= max_step c;
  bt_num : 1 <= damping_num c;
  bt_den : 0 <= damping_den_offset c;
  bt_sum : damping_num c + damping_den_offset c <= u32_max
}.

(** The difficulty of a load with transactions. *)
Definition blend_target c (txs blocks previous : Z) : Z :=
  let a := damping_num c in
  let b := damping_num c + damping_den_offset c in
  let x := nth_root (fr_of_shift (base_difficulty c) ^ b * (target_transactions_per_block c * blocks) ^ a / txs ^ a) b in
  Z.max (previous / max_step c) (Z.min x (previous * max_step c)).

Lemma clamp_ok {E} x low high : low <= high → clamp (E:=E) x low high = Ok (Z.max low (Z.min x high)).
Proof.
  intros Hle. unfold clamp. rewrite (proj2 (Z.leb_le _ _)) by done. cbn [assert_ mbind result_bind]. f_equal.
  destruct (Z.ltb_spec x low); [lia|]. destruct (Z.ltb_spec high x); lia.
Qed.

Lemma step_interval c previous : blend_pow_typed c → 0 <= previous →
  0 <= previous / max_step c <= previous ∧ previous <= previous * max_step c.
Proof.
  intros [_ _ Hs _ _ _] Hp. split; [split; [apply Z.div_pos; lia|apply Z.div_le_upper_bound; nia]|nia].
Qed.

Lemma blend_difficulty_ok {E} c txs blocks previous : blend_pow_typed c → 0 <= previous → 0 <= txs →
  compute_epoch_blend_difficulty (E:=E) (mkLoad txs blocks) previous c =
    Ok (Z.min (if txs =? 0 then previous * max_step c else blend_target c txs blocks previous) (fr_modulus - 1)).
Proof.
  intros Ht Hp Htx. pose proof (step_interval c previous Ht Hp). destruct Ht as [_ _ Hs Hn Hd Hsum].
  unfold compute_epoch_blend_difficulty. rewrite div_in by lia. cbn [mbind result_bind load_transactions load_blocks].
  destruct (Z.eqb_spec txs 0) as [->|Hne]; [done|]. unfold damping_exponent, nonzero.
  rewrite strict_add_in by done. cbn [mbind result_bind]. rewrite (proj2 (Z.eqb_neq _ _)) by lia. cbn [mbind result_bind].
  rewrite div_in; [|apply Z.pow_nonzero; lia]. cbn [mbind result_bind]. rewrite clamp_ok by lia. done.
Qed.

(** An epoch changes the difficulty of entering the Blend network at most by
    the configured step, down or up, and within the field; a heavier load never
    eases it; and the base difficulty is kept at exactly the reference load. *)
Theorem blend_difficulty_tracks_load {E} c txs txs' blocks previous : blend_pow_typed c → 0 <= blocks →
  0 <= previous < fr_modulus → 0 <= txs <= txs' →
  ∃ d d', compute_epoch_blend_difficulty (E:=E) (mkLoad txs blocks) previous c = Ok d ∧
    compute_epoch_blend_difficulty (E:=E) (mkLoad txs' blocks) previous c = Ok d' ∧
    previous / max_step c <= d <= Z.min (previous * max_step c) (fr_modulus - 1) ∧ d' <= d ∧
    (0 < txs → txs = target_transactions_per_block c * blocks → previous = fr_of_shift (base_difficulty c) → d = previous).
Proof.
  intros Ht Hb Hp Htx. pose proof (step_interval c previous Ht ltac:(lia)) as Hi.
  rewrite !blend_difficulty_ok by (done || lia). do 2 eexists. split; [done|]. split; [done|].
  destruct Ht as [Hsh HTT Hs Hn Hd Hsum]. set (b := damping_num c + damping_den_offset c).
  set (base := fr_of_shift (base_difficulty c)).
  assert (0 <= base) as Hbase by (unfold base, fr_of_shift; by apply Z.shiftr_nonneg).
  split_and!.
  - destruct (Z.eqb_spec txs 0); unfold blend_target; lia.
  - destruct (Z.eqb_spec txs 0); unfold blend_target; lia.
  - destruct (Z.eqb_spec txs' 0) as [->|Hne']; [replace txs with 0 by lia; done|].
    destruct (Z.eqb_spec txs 0) as [->|Hne]; [unfold blend_target; lia|]. unfold blend_target. fold b base.
    set (N := base ^ b * (target_transactions_per_block c * blocks) ^ damping_num c).
    assert (0 <= N) by (unfold N; apply Z.mul_nonneg_nonneg; apply Z.pow_nonneg; nia).
    assert (0 < txs ^ damping_num c) by (apply Z.pow_pos_nonneg; lia).
    assert (nth_root (N / txs' ^ damping_num c) b <= nth_root (N / txs ^ damping_num c) b); [|lia].
    apply nth_root_mono; [|lia]. split; [apply Z.div_pos; [done|apply Z.pow_pos_nonneg; lia]|].
    apply Z.div_le_compat_l; [done|]. split; [done|]. apply Z.pow_le_mono_l. lia.
  - intros Hpos Href ->. rewrite (proj2 (Z.eqb_neq _ _)) by lia. unfold blend_target. fold b base.
    rewrite <- Href, Z.div_mul by (apply Z.pow_nonzero; lia).
    rewrite (nth_root_unique (base ^ b) b base); [|lia|done|split; [lia|apply Z.pow_lt_mono_l; lia]].
    fold base in Hp, Hi. lia.
Qed.

End Blend.

End PowFacts.

(** * Proof-of-work claims along a chain

    Spent tickets are forgotten once the window of their anchor block closes.
    A run records blocks, in the order of their slots, and pays verified claims;
    along it no ticket is paid twice for the same anchor block. *)

#[local] Open Scope Z_scope.

Module PowTheorems.
Import Canonical Ops Utxos SdpOps LedgerConfig ClaimOps Pow.

Section Prune.
Context {K : Type} `{Countable K}.
Implicit Types (m : gmap K Z) (windows : EraSchedule Z).

Lemma prune_list {E} windows current (l : list (K * Z)) m : NoDup l.*1 →
  foldr (λ (e : K * Z) acc, acc ← acc; keep ← is_within_slot_window e.2 current windows;
           Ok (if keep : bool then <[e.1 := e.2]> acc else acc)) (Ok ∅) l = Ok (E:=E) m →
  ∀ k s, m !! k = Some s ↔ (k, s) ∈ l ∧ is_within_slot_window (E:=E) s current windows = Ok true.
Proof.
  revert m. induction l as [|[k' s'] l IH]; intros m Hnd Hrun k s.
  { cbn in Hrun. injection Hrun as <-. rewrite lookup_empty. split; [done|]. intros [Hin _]. by apply not_elem_of_nil in Hin. }
  rewrite fmap_cons in Hnd. apply NoDup_cons in Hnd as [Hk' Hnd]. cbn [foldr fst snd] in Hrun.
  rewrite result_bind_ok in Hrun. destruct Hrun as (m0 & Hm0 & Hrun). specialize (IH m0 Hnd Hm0).
  rewrite result_bind_ok in Hrun. destruct Hrun as (keep & Hkeep & Hrun). injection Hrun as <-.
  assert (Hin : ∀ s, (k', s) ∉ l) by (intros s0 Hl; apply Hk'; apply list_elem_of_fmap; by exists (k', s0)).
  rewrite elem_of_cons. destruct keep.
  - rewrite lookup_insert_Some, IH. naive_solver.
  - rewrite IH. split; [naive_solver|]. intros [[[= -> ->]|Hl] Hw]; [congruence|done].
Qed.

Lemma prune_ok {E} windows current m m' : prune (E:=E) m current windows = Ok m' →
  ∀ k s, m' !! k = Some s ↔ m !! k = Some s ∧ is_within_slot_window (E:=E) s current windows = Ok true.
Proof.
  unfold prune. intros Hrun k s. rewrite (prune_list _ _ _ _ (NoDup_fst_map_to_list m) Hrun).
  by rewrite elem_of_map_to_list.
Qed.

End Prune.

(** A window that closed stays closed. *)
Lemma window_closed {E} windows s current current' : current <= current' →
  is_within_slot_window (E:=E) s current' windows = Ok true → is_within_slot_window (E:=E) s current windows = Ok true.
Proof.
  unfold is_within_slot_window, saturating_sub. intros Hle Hw. inv_ok Hw. rewrite Hok. cbn [mbind result_bind].
  f_equal. apply Z.leb_le in Hw. apply Z.leb_le. lia.
Qed.

Section Run.
Context {T : Type} `{!KeyedStoreOps T NoteId Utxo} `{Poseidon2Crate} `{Blake2Crate} (windows : EraSchedule Z).
Implicit Types (p : PowState) (op : ClaimPowRewardOp).

(** What a claim in the block at [slot] is verified against. *)
Definition pow_context p (slot current_nonce previous_nonce : Z) : PowVerificationContext :=
  let r := ps_reward p in
  mkPowVerification slot (reward_difficulty r) (nullifiers r) (epoch_reward r) (reward_pool r) current_nonce previous_nonce
    (block_slots r) windows.

(** What it is executed on, and leaves, as the ledger does for the operation. *)
Definition pow_execution p (utxos : T) : PowExecutionContext T :=
  let r := ps_reward p in mkPowExecution (reward_pool r) (epoch_reward r) (nullifiers r) utxos (block_slots r).

Lemma execute_records {E} op p (utxos : T) tx_hash x events : pow_claim_execute (E:=E) op (pow_execution p utxos) tx_hash = Ok (x, events) →
  ∃ slot, block_slots (ps_reward p) !! cp_block_hash op = Some slot ∧ pe_nullifiers x = <[get_puzzle_ticket op := slot]> (nullifiers (ps_reward p)).
Proof.
  unfold pow_claim_execute. intros Hx. peel Hx as slot Hs. peel Hx as id Hid. peel Hx as u Hu. peel Hx as pool Hp. injection Hx as <- <-. apply expect_ok in Hs. by exists slot.
Qed.

(** The claims paid, each by its anchor block and its ticket; the blocks seen so
    far; and the slot of the last one. *)
Inductive pow_run : PowState → gmap Hash Z → Z → list (Hash * Z) → Prop :=
  | run_start p : nullifiers (ps_reward p) = ∅ → block_slots (ps_reward p) = ∅ → pow_run p ∅ 0 []
  | run_block p seen current log hash slot p' :
      pow_run p seen current log → seen !! hash = None → current <= slot →
      add_seen_block (E:=False) p hash slot windows = Ok p' → pow_run p' (<[hash := slot]> seen) slot log
  | run_claim p seen current log op current_nonce previous_nonce (utxos : T) tx_hash x events :
      pow_run p seen current log → pow_claim_verify op (pow_context p current current_nonce previous_nonce) = Ok tt →
      pow_claim_execute (E:=False) op (pow_execution p utxos) tx_hash = Ok (x, events) →
      pow_run (update_from_claim_execution_result p (pe_nullifiers x) (pe_reward_pool x))
        seen current ((cp_block_hash op, get_puzzle_ticket op) :: log)
  | run_other p seen current log p' :
      pow_run p seen current log → nullifiers (ps_reward p') = nullifiers (ps_reward p) →
      block_slots (ps_reward p') = block_slots (ps_reward p) → pow_run p' seen current log.

(** A paid claim is remembered, or its window closed. *)
Definition paid p (seen : gmap Hash Z) (current : Z) (e : Hash * Z) : Prop :=
  ∃ s, seen !! e.1 = Some s ∧
    (nullifiers (ps_reward p) !! e.2 = Some s ∨ is_within_slot_window (E:=False) s current windows ≠ Ok true).

Record pow_inv p seen current (log : list (Hash * Z)) : Prop := {
  pi_slots : ∀ h s, block_slots (ps_reward p) !! h = Some s → seen !! h = Some s;
  pi_paid : Forall (paid p seen current) log;
  pi_nodup : NoDup log
}.

Lemma pow_claim_verify_ok op ctx : pow_claim_verify op ctx = Ok tt →
  pv_pow_nullifiers ctx !! get_puzzle_ticket op = None ∧ 0 <> pv_epoch_pow_reward ctx ∧
  pv_epoch_pow_reward ctx <= pv_epoch_reward_pool ctx ∧
  ∃ s, pv_blocks_slot ctx !! cp_block_hash op = Some s ∧ s <= pv_current_block_slot ctx ∧
    is_within_slot_window (E:=False) s (pv_current_block_slot ctx) (pv_slot_windows ctx) = Ok true.
Proof.
  unfold pow_claim_verify. intros Hv. inv_ok Hv. unfold are_pow_reward_enabled, validate_enough_funds_in_pool in Hok.
  inv_ok Hok. apply Z.eqb_neq in Hok3. apply Z.ltb_ge in Hok.
  unfold validate_double_claiming in Hv. inv_ok Hv. rewrite bool_decide_eq_false, <- eq_None_not_Some in Hv.
  split_and!; [done|lia|lia|]. unfold accept_claim in Hok1. inv_ok Hok1. unfold at_slot in Hok5. apply expect_ok in Hok5.
  exists a. split; [done|]. apply checked_sub_Some in Hok6 as [-> Hle]. apply Z.ltb_ge in Hok1. split; [done|].
  unfold is_within_slot_window, at_slot. rewrite Hok5. cbn [expect mbind result_bind]. f_equal. apply Z.leb_le.
  unfold saturating_sub. lia.
Qed.

Lemma pow_run_inv p seen current log : pow_run p seen current log → pow_inv p seen current log.
Proof.
  induction 1 as [p Hn Hb|p seen current log hash slot p' _ [Hs Hp Hnd] Hfresh Hle Hadd|
    p seen current log op cn pn utxos tx_hash x events _ [Hs Hp Hnd] Hver Hexec|p seen current log p' _ [Hs Hp Hnd] Hn Hb].
  - split; [|constructor..]. intros h s. by rewrite Hb, lookup_empty.
  - unfold add_seen_block in Hadd. inv_ok Hadd. cbn. split; cbn; [| |done].
    + intros h s. rewrite (prune_ok _ _ _ _ Hok). rewrite !lookup_insert_Some.
      intros [[[-> ->]|[Hne Hh]] _]; [by left|right; split; [done|by apply Hs]].
    + eapply Forall_impl; [exact Hp|]. intros e (s & He & Hpaid). exists s.
      split; [rewrite lookup_insert_ne; congruence|]. cbn.
      destruct (is_within_slot_window (E:=False) s slot windows) as [[]| |] eqn:Hw; [|by right..].
      left. apply (prune_ok _ _ _ _ Hok0). split; [|done]. destruct Hpaid as [?|Hno]; [done|].
      exfalso. apply Hno. by eapply window_closed.
  - apply execute_records in Hexec as (slot & Hslot & ->). apply pow_claim_verify_ok in Hver as (Hnone & _ & _ & s & Hs' & _ & Hw). cbn in *.
    rewrite Hslot in Hs'. injection Hs' as <-. apply Hs in Hslot. split; cbn; [done| |].
    + constructor; [exists slot; split; [done|]; left; cbn; by rewrite lookup_insert_eq|].
      eapply Forall_impl; [exact Hp|]. intros e (s & He & Hpaid). exists s. split; [done|]. cbn.
      destruct Hpaid as [Hin|?]; [left|by right]. rewrite lookup_insert_ne; [done|]. congruence.
    + constructor; [|done]. intros Hin. rewrite Forall_forall in Hp. destruct (Hp _ Hin) as (s & He & [Hnf|Hno]); cbn in *.
      * congruence.
      * rewrite Hslot in He. injection He as <-. done.
  - split; [by rewrite Hb| |done]. eapply Forall_impl; [exact Hp|]. intros e (s & He & Hpaid). exists s.
    by rewrite Hn.
Qed.

(** C30: no proof-of-work ticket is paid twice for the same anchor block. Along any run
    of recorded blocks and of claims that are verified and executed, the execution
    records the ticket with the slot of the anchor; although recording a block drops
    the tickets whose window has closed, this never makes one claimable again. *)
Theorem pow_no_double_claim p seen current log : pow_run p seen current log → NoDup log.
Proof. intros [_ _ Hnd]%pow_run_inv. done. Qed.

End Run.

End PowTheorems.
