(* ===== verification/Markets.v ===== *)
(** * Markets and inference

    Of ledger/src/cryptarchia: the execution base fee and the storage price
    (mod.rs), the inference of the total stake (stake.rs) from the block density
    of an epoch (block_density.rs), and the lottery values of a stake
    (zk/proofs/pol/src/lottery.rs). *)

From Stdlib Require Import SpecFloat.
From S2P Require Import Prelude Era EngineConfig Codec Ops SdpOps LedgerConfig ClaimOps.

#[local] Open Scope Z_scope.

Module Markets.
Import Canonical Ops SdpOps LedgerConfig ClaimOps.

(** [x as Value]: the low 64 bits. *)
Definition as_u64 (x : Z) : Z := x mod 2 ^ 64.

(** ** The execution market *)

(** [LedgerState::update_execution_market]: the new average and base fee. *)
Definition update_execution_market {E} (average_execution_gas execution_base_fee block_execution_gas_consumed : Z)
    (market : ExecutionMarketConfig) : result E (Z * Z) :=
  let q_numerator := numerator (em_ema_smoothing_factor market) in
  let q_denominator := denominator (em_ema_smoothing_factor market) in
  q_rest ← strict_sub q_denominator q_numerator;
  fresh ← strict_mul u128_max q_rest block_execution_gas_consumed;
  kept ← strict_mul u128_max q_numerator average_execution_gas;
  avg_numerator ← strict_add u128_max fresh kept;
  average ← div_ avg_numerator q_denominator;
  let new_average_execution_gas := as_u64 average in
  let phi_numerator := numerator (fee_adjustment_rate market) in
  let phi_denominator := denominator (fee_adjustment_rate market) in
  let target := gas_target (max_gas_per_block market) in
  phi_rest ← strict_sub phi_denominator phi_numerator;
  base ← strict_mul u128_max phi_rest target;
  adjusted ← strict_mul u128_max phi_numerator new_average_execution_gas;
  factor ← strict_add u128_max base adjusted;
  fee_numerator ← strict_mul u128_max execution_base_fee factor;
  fee_denominator ← strict_mul u128_max phi_denominator target;
  assert_ (negb (fee_denominator =? 0));;
  Ok (new_average_execution_gas, as_u64 (div_ceil fee_numerator fee_denominator)).

(** ** The storage market *)

(** [update_storage_market]: the new price and moving average. *)
Definition update_storage_market {E} (storage_gas_price storage_gas_consumed_in_epoch storage_gas_ema : Z)
    (market : StorageMarketConfig) : result E (Z * Z) :=
  let beta_numerator := numerator (sm_ema_smoothing_factor market) in
  let beta_denominator := denominator (sm_ema_smoothing_factor market) in
  fresh ← strict_mul u128_max beta_numerator storage_gas_consumed_in_epoch;
  beta_rest ← strict_sub beta_denominator beta_numerator;
  kept ← strict_mul u128_max beta_rest storage_gas_ema;
  sum ← strict_add u128_max fresh kept;
  ema ← div_ sum beta_denominator;
  let new_ema := as_u64 ema in
  if new_ema =? 0 then Ok (storage_gas_price, new_ema)
  else
    let alpha_numerator := numerator (max_adjustment_factor market) in
    let alpha_denominator := denominator (max_adjustment_factor market) in
    clamp_down ← strict_sub alpha_denominator alpha_numerator;
    clamp_up ← strict_add u128_max alpha_denominator alpha_numerator;
    comparator ← strict_mul u128_max alpha_denominator storage_gas_consumed_in_epoch;
    low ← strict_mul u128_max clamp_down new_ema;
    if comparator <=? low then
      p ← strict_mul u128_max storage_gas_price clamp_down;
      Ok (as_u64 (div_ceil p alpha_denominator), new_ema)
    else
      high ← strict_mul u128_max clamp_up new_ema;
      if high <=? comparator then
        p ← strict_mul u128_max storage_gas_price clamp_up;
        Ok (as_u64 (div_ceil p alpha_denominator), new_ema)
      else
        p ← strict_mul u128_max storage_gas_price storage_gas_consumed_in_epoch;
        Ok (as_u64 (div_ceil p new_ema), new_ema).

(** ** Stake inference *)

Definition STAKE_INFERENCE_PRECISION : Z := 1000.

(** [x.trunc() as i128]: the cast saturates and sends NaN to 0. *)
Definition f64_trunc_i128 (x : spec_float) : Z :=
  match x with
  | S754_finite s m e =>
      let v := if 0 <=? e then Zpos m * 2 ^ e else Zpos m / 2 ^ (- e) in
      if s then Z.max (- 2 ^ 127) (- v) else Z.min (2 ^ 127 - 1) v
  | S754_infinity s => if s then - 2 ^ 127 else 2 ^ 127 - 1
  | _ => 0
  end.

(** An [i128] operation, which panics out of range. *)
Definition i128_op {E} (z : Z) : result E Z :=
  match i128_checked z with Some z => Ok z | None => Fault Overflow end.

Definition i128_div {E} (a b : Z) : result E Z := if b =? 0 then Fault Panic else i128_op (Z.quot a b).

Record StakeInference := mkInference {
  learning_rate : spec_float;
  slot_activation_coefficient : spec_float;
  inference_period : Z
}.

(** [StakeInference::total_stake_inference], from the truncated parameters. *)
Definition infer_stake {E} (learning_rate_with_precision slot_activation_coefficient_with_precision period
    total_stake_estimate measured_block_density : Z) : result E Z :=
  total ← i128_op (total_stake_estimate * STAKE_INFERENCE_PRECISION);
  measured ← i128_op (measured_block_density * STAKE_INFERENCE_PRECISION);
  expected ← i128_op (period * slot_activation_coefficient_with_precision);
  difference ← i128_op (expected - measured);
  product ← i128_op (total * difference);
  error ← i128_div product expected;
  weighted ← i128_op (learning_rate_with_precision * error);
  correction ← i128_div weighted STAKE_INFERENCE_PRECISION;
  corrected ← i128_op (total - correction);
  estimate ← i128_div corrected STAKE_INFERENCE_PRECISION;
  let estimate := Z.max estimate 1 in
  expect (if estimate <=? u64_max then Some estimate else None).

Definition total_stake_inference {E} (i : StakeInference) (total_stake_estimate measured_block_density : Z) : result E Z :=
  infer_stake (f64_floor_u64 (f64_mul (learning_rate i) (f64_of_Z STAKE_INFERENCE_PRECISION)))
    (f64_trunc_i128 (f64_mul (slot_activation_coefficient i) (f64_of_Z STAKE_INFERENCE_PRECISION)))
    (inference_period i) total_stake_estimate measured_block_density.

Section Eras.
Context {Params : Type}.
Implicit Types (eras : EraSchedule (Config Params)) (c : Config Params).

(** [StakeInference::after_epoch]. *)
Definition after_epoch {E} eras (epoch : Z) : result E StakeInference :=
  measured ← config_for_epoch eras epoch;
  next ← strict_add u32_max epoch 1;
  inferred ← config_for_epoch eras next;
  period ← total_stake_inference_period measured;
  Ok (mkInference (stake_inference_learning_rate (consensus_config inferred))
        (as_f64 (slot_activation_coeff (consensus_config measured))) period).

(** ** Block density *)

(** [BlockDensity]: the period, and the slots occupied within it. *)
Record BlockDensity := mkDensity { period_start : Z; period_end : Z; occupied_slots : gset Z }.

Definition of_epoch_starting_at {E} (first_slot : Z) c : result E BlockDensity :=
  snapshot ← next_epoch_snapshot c first_slot;
  period ← total_stake_inference_period c;
  Ok (mkDensity (saturating_sub snapshot period) (saturating_sub snapshot 1) ∅).

Definition density_new {E} (epoch : Z) eras : result E BlockDensity :=
  start ← starting_slot_for_epoch eras epoch;
  c ← config_for_epoch eras epoch;
  of_epoch_starting_at start c.

Definition in_period (d : BlockDensity) (slot : Z) : bool := (period_start d <=? slot) && (slot <=? period_end d).

(** [BlockDensity::mark_occupied_slots]. *)
Definition mark_occupied_slots (d : BlockDensity) (block_slot : Z) (uncle_slots : list Z) : BlockDensity :=
  if in_period d block_slot then
    mkDensity (period_start d) (period_end d)
      (foldl (λ acc s, if in_period d s then {[s]} ∪ acc else acc) ({[block_slot]} ∪ occupied_slots d) uncle_slots)
  else d.

Definition current_block_density (d : BlockDensity) : Z := Z.of_nat (size (occupied_slots d)).

End Eras.

(** ** Lottery values *)

(** [LotteryConstants::new]: the approximation constants of a slot activation
    coefficient, computed with [astro_float]. *)
Class LotteryCrate := { t0_constant : NonNegativeRatio → Z; t1_constant : NonNegativeRatio → Z }.

(** [LotteryConstants::compute_lottery_values]. *)
Definition compute_lottery_values `{LotteryCrate} {E} (f : NonNegativeRatio) (total_stake : Z) : result E (Z * Z) :=
  lottery_0 ← div_ (t0_constant f) total_stake;
  q ← div_ (t1_constant f) (total_stake ^ 2);
  lottery_1 ← expect (checked_sub fr_modulus q);
  Ok (lottery_0 mod fr_modulus, lottery_1 mod fr_modulus).

End Markets.
