(* ===== verification/MarketFacts.v ===== *)
(** * What the markets guarantee

    The fees and prices follow usage against their target, move by bounded
    steps and never reach zero; a block's rewards are covered by its emission
    and its fee; the inferred stake follows the measured density. None of the
    computations overflows within the stated bounds. *)

From Stdlib Require Import SpecFloat.
From S2P Require Import Prelude Era EngineConfig Codec Ops SdpOps LedgerConfig ClaimOps Markets.

#[local] Open Scope Z_scope.

Module MarketFacts.
Import Canonical Ops SdpOps LedgerConfig ClaimOps Markets.

(** A [ProperFraction]. *)
Definition proper (r : NonNegativeRatio) : Prop := 0 < numerator r < denominator r ∧ denominator r <= u32_max.

Lemma as_u64_small x : 0 <= x <= u64_max → as_u64 x = x.
Proof. intros Hx. unfold as_u64. apply Z.mod_small. unfold u64_max in Hx. lia. Qed.

(** A weighted average lies between its terms. *)
Lemma weighted_average p d a b : 0 <= p <= d → 0 < d →
  Z.min a b <= ((d - p) * a + p * b) / d <= Z.max a b.
Proof.
  intros Hp Hd. split; [apply Z.div_le_lower_bound; nia|].
  apply Z.lt_succ_r, Z.div_lt_upper_bound; [lia|]. nia.
Qed.

Lemma div_ceil_bounds a b lo hi : 0 < b → b * lo <= a <= b * hi → lo <= div_ceil a b <= hi.
Proof. intros Hb [Hl Hh]. pose proof (div_ceil_spec a b Hb). nia. Qed.

(** ** The execution market *)

Record execution_market_ok (m : ExecutionMarketConfig) : Prop := {
  eo_max : 2 <= max_gas_per_block m <= u64_max;
  eo_phi : proper (fee_adjustment_rate m);
  eo_q : proper (em_ema_smoothing_factor m)
}.

Lemma gas_target_bounds m : execution_market_ok m →
  1 <= gas_target (max_gas_per_block m) ∧ 2 * gas_target (max_gas_per_block m) <= max_gas_per_block m
    <= 2 * gas_target (max_gas_per_block m) + 1.
Proof.
  intros [[H2 _] _ _]. unfold gas_target. pose proof (Z.div_mod (max_gas_per_block m) 2 ltac:(lia)).
  pose proof (Z.mod_pos_bound (max_gas_per_block m) 2 ltac:(lia)). lia.
Qed.

(** The average after a block, and the numerator of the base fee over
    [phi_denominator * target]. *)
Definition next_average (m : ExecutionMarketConfig) (average gas : Z) : Z :=
  let q := em_ema_smoothing_factor m in
  ((denominator q - numerator q) * gas + numerator q * average) / denominator q.

Definition fee_factor (m : ExecutionMarketConfig) (average : Z) : Z :=
  let phi := fee_adjustment_rate m in
  (denominator phi - numerator phi) * gas_target (max_gas_per_block m) + numerator phi * average.

Definition fee_scale (m : ExecutionMarketConfig) : Z :=
  denominator (fee_adjustment_rate m) * gas_target (max_gas_per_block m).

Lemma next_average_bounds m average gas : execution_market_ok m →
  Z.min gas average <= next_average m average gas <= Z.max gas average.
Proof. intros [_ _ [Hq _]]. unfold next_average. apply weighted_average; lia. Qed.

(** A sufficient bound: neither the product nor the new fee overflows. *)
Definition fee_fits (m : ExecutionMarketConfig) (fee average : Z) : Prop :=
  fee * fee_factor m average <= u128_max ∧ fee * fee_factor m average <= u64_max * fee_scale m.

(** The update panics exactly when the product for the new base fee leaves its 128
    bits, and is otherwise cut to 64 bits. *)
Lemma execution_market_total {E} m average fee gas : execution_market_ok m →
  0 <= average <= u64_max → 0 <= gas <= u64_max → 0 <= fee →
  let product := fee * fee_factor m (next_average m average gas) in
  update_execution_market (E:=E) average fee gas m =
    if product <=? u128_max then Ok (next_average m average gas, as_u64 (div_ceil product (fee_scale m))) else Fault Overflow.
Proof.
  intros Hm Ha Hg Hf. pose proof (next_average_bounds m average gas Hm) as Hb.
  pose proof (gas_target_bounds m Hm) as Ht. destruct Hm as [Hmax [Hphi Hphid] [Hq Hqd]].
  unfold update_execution_market. set (avg := next_average m average gas) in *. cbv zeta.
  unfold u64_max, u32_max in *. do 5 strict_step ltac:(unfold u128_max; nia).
  change (((denominator (em_ema_smoothing_factor m) - numerator (em_ema_smoothing_factor m)) * gas +
    numerator (em_ema_smoothing_factor m) * average) / denominator (em_ema_smoothing_factor m)) with avg.
  rewrite (as_u64_small avg) by (unfold u64_max; lia).
  do 4 strict_step ltac:(unfold u128_max; nia). fold (fee_factor m avg). 
  assert (strict_mul (E:=E) u128_max fee (fee_factor m avg) = if fee * fee_factor m avg <=? u128_max then Ok (fee * fee_factor m avg) else Fault Overflow) as ->
    by (unfold strict_mul, checked_mul; by destruct (_ <=? _)).
  destruct (Z.leb_spec (fee * fee_factor m avg) u128_max); [|done]. cbn [mbind result_bind]. strict_step ltac:(unfold u128_max; nia). fold (fee_scale m).
  assert (0 < fee_scale m) as Hs by (unfold fee_scale; nia).
  rewrite (proj2 (Z.eqb_neq _ _)) by lia. done.
Qed.

Lemma execution_market_run {E} m average fee gas : execution_market_ok m →
  0 <= average <= u64_max → 0 <= gas <= u64_max → 0 <= fee → fee_fits m fee (next_average m average gas) →
  update_execution_market (E:=E) average fee gas m =
    Ok (next_average m average gas, div_ceil (fee * fee_factor m (next_average m average gas)) (fee_scale m)).
Proof.
  intros Hm Ha Hg Hf [Hu128 Hu64]. rewrite execution_market_total by done. cbv zeta. rewrite (proj2 (Z.leb_le _ _) Hu128). do 2 f_equal. apply as_u64_small.
  pose proof (next_average_bounds m average gas Hm) as Hb. pose proof (gas_target_bounds m Hm) as Ht. destruct Hm as [_ [Hphi _] _].
  assert (0 < fee_scale m) as Hs by (unfold fee_scale; nia). assert (0 <= fee_factor m (next_average m average gas)) by (unfold fee_factor; nia).
  apply div_ceil_bounds; [done|]. nia.
Qed.

(** The base fee falls under the target, rises above it, and stays within the
    adjustment rate and above zero. *)
Lemma base_fee_follows m average fee : execution_market_ok m → 0 <= average → 1 <= fee →
  let next := div_ceil (fee * fee_factor m average) (fee_scale m) in
  let target := gas_target (max_gas_per_block m) in
  let phi := fee_adjustment_rate m in
  1 <= next ∧ (average <= target → next <= fee) ∧ (target <= average → fee <= next) ∧
  (denominator phi - numerator phi) * fee <= denominator phi * next ∧
  (average <= 2 * target → denominator phi * (next - 1) < (denominator phi + numerator phi) * fee).
Proof.
  intros Hm Ha Hf next target phi. pose proof (gas_target_bounds m Hm) as Ht. destruct Hm as [_ [Hphi _] _].
  fold phi target in Hphi, Ht |- *. assert (0 < fee_scale m) as Hs by (unfold fee_scale; fold phi target; nia).
  pose proof (div_ceil_spec (fee * fee_factor m average) (fee_scale m) Hs) as Hc. fold next in Hc.
  unfold fee_factor, fee_scale in Hc, Hs. fold phi target in Hc, Hs.
  set (n := numerator phi) in *. set (d := denominator phi) in *.
  assert (0 < (d - n) * target) by nia.
  split_and!.
  - nia.
  - intros Hle. assert (fee * ((d - n) * target + n * average) <= d * target * fee) by nia. nia.
  - intros Hle. assert (d * target * fee <= fee * ((d - n) * target + n * average)) by nia. nia.
  - assert (fee * ((d - n) * target) <= d * target * next) by nia. nia.
  - intros Hle. assert (d * target * (next - 1) < fee * ((d + n) * target)) by nia. nia.
Qed.

(** The execution base fee: within the bounds of the block's gas the update
    never overflows; the average stays between its inputs; the fee never reaches
    zero, falls when the average is under the target and rises when it is over,
    by at most the adjustment rate, rounded up. *)
Theorem execution_market_spec {E} m average fee gas : execution_market_ok m →
  0 <= average <= u64_max → 0 <= gas <= u64_max → 1 <= fee → fee_fits m fee (next_average m average gas) →
  ∃ average' fee', update_execution_market (E:=E) average fee gas m = Ok (average', fee') ∧
    Z.min gas average <= average' <= Z.max gas average ∧ 1 <= fee' ∧
    (average' <= gas_target (max_gas_per_block m) → fee' <= fee) ∧
    (gas_target (max_gas_per_block m) <= average' → fee <= fee') ∧
    (denominator (fee_adjustment_rate m) - numerator (fee_adjustment_rate m)) * fee
      <= denominator (fee_adjustment_rate m) * fee' ∧
    (average' <= 2 * gas_target (max_gas_per_block m) → denominator (fee_adjustment_rate m) * (fee' - 1) <
       (denominator (fee_adjustment_rate m) + numerator (fee_adjustment_rate m)) * fee).
Proof.
  intros Hm Ha Hg Hf Hfit. pose proof (next_average_bounds m average gas Hm).
  rewrite execution_market_run by (done || lia). do 2 eexists. split; [done|]. split; [done|].
  by apply base_fee_follows; [|lia|].
Qed.

(** ** The storage market *)

Record storage_market_ok (m : StorageMarketConfig) : Prop := {
  so_alpha : proper (max_adjustment_factor m);
  so_beta : proper (sm_ema_smoothing_factor m)
}.

Definition next_ema (m : StorageMarketConfig) (consumed ema : Z) : Z :=
  let b := sm_ema_smoothing_factor m in
  (numerator b * consumed + (denominator b - numerator b) * ema) / denominator b.

Lemma next_ema_bounds m consumed ema : storage_market_ok m →
  Z.min consumed ema <= next_ema m consumed ema <= Z.max consumed ema.
Proof.
  intros [_ [Hb _]]. unfold next_ema. rewrite Z.add_comm. rewrite (Z.min_comm consumed), (Z.max_comm consumed).
  apply weighted_average; lia.
Qed.

(** The price of an epoch of [consumed] storage gas against the average [ema]. *)
Definition next_price (m : StorageMarketConfig) (price consumed ema : Z) : Z :=
  let a := max_adjustment_factor m in
  if ema =? 0 then price
  else if denominator a * consumed <=? (denominator a - numerator a) * ema
  then div_ceil (price * (denominator a - numerator a)) (denominator a)
  else if (denominator a + numerator a) * ema <=? denominator a * consumed
  then div_ceil (price * (denominator a + numerator a)) (denominator a)
  else div_ceil (price * consumed) ema.

Lemma next_price_bounds m price consumed ema : storage_market_ok m → 1 <= price → 0 <= consumed → 0 <= ema →
  let a := max_adjustment_factor m in
  let next := next_price m price consumed ema in
  1 <= next ∧ (denominator a - numerator a) * price <= denominator a * next ∧
  denominator a * (next - 1) < (denominator a + numerator a) * price ∧
  (0 < ema → (consumed <= ema → next <= price) ∧ (ema <= consumed → price <= next)).
Proof.
  intros [[Ha _] _] Hp Hc He a next. fold a in Ha. set (n := numerator a) in *. set (d := denominator a) in *.
  unfold next, next_price. fold a n d. destruct (Z.eqb_spec ema 0) as [->|Hne]; [split_and!; nia|].
  destruct (Z.leb_spec (d * consumed) ((d - n) * ema)).
  { pose proof (div_ceil_spec (price * (d - n)) d ltac:(lia)). split_and!; [nia..|]. intros _. split; intros; nia. }
  destruct (Z.leb_spec ((d + n) * ema) (d * consumed)).
  { pose proof (div_ceil_spec (price * (d + n)) d ltac:(lia)). split_and!; [nia..|]. intros _. split; intros; nia. }
  pose proof (div_ceil_spec (price * consumed) ema ltac:(lia)) as Hd. set (x := div_ceil (price * consumed) ema) in *.
  assert (0 < consumed) by nia. split_and!; [nia| | |].
  - assert (ema * ((d - n) * price) <= ema * (d * x)) by nia. nia.
  - assert (ema * (d * (x - 1)) < ema * ((d + n) * price)) by nia. nia.
  - intros _. split; intros; nia.
Qed.

Lemma storage_market_run {E} m price consumed ema : storage_market_ok m → 1 <= price <= u64_max →
  0 <= consumed <= u64_max → 0 <= ema <= u64_max →
  (denominator (max_adjustment_factor m) + numerator (max_adjustment_factor m)) * price
    <= denominator (max_adjustment_factor m) * u64_max →
  update_storage_market (E:=E) price consumed ema m =
    Ok (next_price m price consumed (next_ema m consumed ema), next_ema m consumed ema).
Proof.
  intros Hm Hp Hc He Hfit. pose proof (next_ema_bounds m consumed ema Hm) as Hb. set (t := next_ema m consumed ema) in *.
  pose proof (next_price_bounds m price consumed t Hm ltac:(lia) ltac:(lia) ltac:(lia)) as (H1 & _ & Hup & _).
  destruct Hm as [[Ha Had] [Hbeta Hbd]]. unfold update_storage_market.
  set (a := max_adjustment_factor m) in *. set (b := sm_ema_smoothing_factor m) in *.
  unfold u64_max, u32_max, u128_max in *. do 5 strict_step nia.
  change ((numerator b * consumed + (denominator b - numerator b) * ema) / denominator b) with t.
  rewrite (as_u64_small t) by (unfold u64_max; lia).
  assert (next_price m price consumed t <= 18446744073709551615) as Hle by nia.
  unfold next_price in *. fold a in H1, Hle |- *. destruct (Z.eqb_spec t 0) as [->|Hne]; [done|].
  do 4 strict_step nia. destruct (Z.leb_spec (denominator a * consumed) ((denominator a - numerator a) * t)).
  { strict_step nia. by rewrite as_u64_small by (unfold u64_max; lia). }
  strict_step nia. destruct (Z.leb_spec ((denominator a + numerator a) * t) (denominator a * consumed));
    strict_step nia; by rewrite as_u64_small by (unfold u64_max; lia).
Qed.

(** The storage price: an epoch moves it at most by the adjustment factor,
    rounded up, never to zero; it falls when the epoch used at most the moving
    average and rises when it used at least that, and it is held while the
    average is zero. *)
Theorem storage_market_spec {E} m price consumed ema : storage_market_ok m → 1 <= price <= u64_max →
  0 <= consumed <= u64_max → 0 <= ema <= u64_max →
  (denominator (max_adjustment_factor m) + numerator (max_adjustment_factor m)) * price
    <= denominator (max_adjustment_factor m) * u64_max →
  ∃ price' ema', update_storage_market (E:=E) price consumed ema m = Ok (price', ema') ∧
    Z.min consumed ema <= ema' <= Z.max consumed ema ∧ 1 <= price' ∧ (ema' = 0 → price' = price) ∧
    (denominator (max_adjustment_factor m) - numerator (max_adjustment_factor m)) * price
      <= denominator (max_adjustment_factor m) * price' ∧
    denominator (max_adjustment_factor m) * (price' - 1)
      < (denominator (max_adjustment_factor m) + numerator (max_adjustment_factor m)) * price ∧
    (0 < ema' → (consumed <= ema' → price' <= price) ∧ (ema' <= consumed → price <= price')).
Proof.
  intros Hm Hp Hc He Hfit. pose proof (next_ema_bounds m consumed ema Hm) as Hb.
  rewrite storage_market_run by done. do 2 eexists. split; [done|]. split; [done|].
  destruct (next_price_bounds m price consumed (next_ema m consumed ema) Hm) as (H1 & H2 & H3 & H4); [lia..|].
  split_and!; try done. intros ->. done.
Qed.

(** ** Block rewards *)

Record block_rewards_typed (c : BlockRewardsConfig) : Prop := {
  bo_stake : 0 <= stake_target c <= u64_max;
  bo_scale : 1 <= emission_factor_scale c <= u64_max;
  bo_fee : 0 <= fee_average_numerator c <= u64_max;
  bo_emission : 0 <= numerator (max_emission_per_block c) <= u32_max;
  bo_emission_den : 1 <= denominator (max_emission_per_block c) <= u32_max;
  bo_share : proper (blend_share c);
  bo_bound : denominator (max_emission_per_block c) * emission_factor_scale c * denominator (blend_share c)
             <= u128_max / u64_max
}.

(** What [BlockRewardsConfig::new] accepts. *)
Lemma block_rewards_new_bound st sc fa em sh c : block_rewards_new st sc fa em sh = Some c →
  denominator (max_emission_per_block c) * emission_factor_scale c * denominator (blend_share c) <= u128_max / u64_max.
Proof.
  unfold block_rewards_new. intros Hn. apply bind_Some in Hn as (b1 & Hb1 & Hn). apply bind_Some in Hn as (b2 & Hb2 & Hn).
  apply checked_mul_Some in Hb1 as [-> _]. apply checked_mul_Some in Hb2 as [-> _].
  destruct (Z.leb_spec (denominator em * sc * denominator sh) (u128_max / u64_max)); [|done]. by injection Hn as <-.
Qed.

Definition emission_weight (c : BlockRewardsConfig) (pooled_fees total_stake : Z) : Z :=
  Z.min (saturating_sub
           (saturating_add u128_max (stake_target c) (saturating_mul u128_max (fee_average_numerator c) pooled_fees))
           total_stake) (emission_factor_scale c).

Definition reward_numerator (c : BlockRewardsConfig) (w fee : Z) : Z :=
  numerator (max_emission_per_block c) * w + denominator (max_emission_per_block c) * (emission_factor_scale c - w) * fee.

Definition reward_denominator (c : BlockRewardsConfig) : Z :=
  denominator (max_emission_per_block c) * emission_factor_scale c * denominator (blend_share c).

Lemma emission_weight_bounds c pooled stake : block_rewards_typed c → 0 <= emission_weight c pooled stake <= emission_factor_scale c.
Proof. intros [_ Hs _ _ _ _ _]. unfold emission_weight, saturating_sub. lia. Qed.

(** The reward is a mean of the full emission and the fee. *)
Lemma reward_numerator_bounds c w fee : block_rewards_typed c → 0 <= w <= emission_factor_scale c → 0 <= fee →
  let top := Z.max (numerator (max_emission_per_block c)) (denominator (max_emission_per_block c) * fee) in
  0 <= reward_numerator c w fee <= emission_factor_scale c * top.
Proof.
  intros [_ Hs _ Hn Hd _ _] Hw Hf top. unfold reward_numerator. fold top.
  set (n := numerator _) in *. set (d := denominator _) in *. set (s := emission_factor_scale c) in *.
  assert (n <= top ∧ d * fee <= top) as [Hnt Hdt] by (unfold top; fold n d; lia).
  assert (n * w <= top * w) by nia. assert (d * fee * (s - w) <= top * (s - w)) by nia. nia.
Qed.

Lemma reward_top_fits c fee : block_rewards_typed c → 0 <= fee <= u64_max →
  let top := Z.max (numerator (max_emission_per_block c)) (denominator (max_emission_per_block c) * fee) in
  emission_factor_scale c * top * denominator (blend_share c) <= u128_max.
Proof.
  intros [_ Hs _ Hn Hd [Hsh _] Hb] Hf top. unfold top.
  set (n := numerator (max_emission_per_block c)) in *. set (d := denominator (max_emission_per_block c)) in *.
  set (s := emission_factor_scale c) in *. set (sd := denominator (blend_share c)) in *.
  change (u128_max / u64_max) with 18446744073709551617 in Hb. unfold u32_max, u64_max, u128_max in *.
  assert (0 < sd) by lia. assert (s * sd <= 18446744073709551617) by nia.
  destruct (Z.max_spec n (d * fee)) as [[_ ->]|[_ ->]]; [|nia].
  replace (s * (d * fee) * sd) with (d * s * sd * fee) by ring. nia.
Qed.

Lemma reward_share_ok {E} c w fee k : block_rewards_typed c → 0 <= w <= emission_factor_scale c → 0 <= fee <= u64_max →
  0 <= k <= denominator (blend_share c) →
  reward_share (E:=E) (reward_numerator c w fee) k (reward_denominator c) =
    Ok (reward_numerator c w fee * k / reward_denominator c).
Proof.
  intros Hc Hw Hf Hk. pose proof (reward_numerator_bounds c w fee Hc Hw ltac:(lia)) as Hr.
  pose proof (reward_top_fits c fee Hc Hf) as Ht. destruct Hc as [_ Hs _ Hn Hd [Hsh _] _]. cbn zeta in *.
  set (top := Z.max _ _) in *. assert (0 <= top <= denominator (max_emission_per_block c) * u64_max) as Htop.
  { unfold top, u32_max, u64_max in *. nia. }
  set (rn := reward_numerator c w fee) in *. set (sd := denominator (blend_share c)) in *.
  set (s := emission_factor_scale c) in *. set (d := denominator (max_emission_per_block c)) in *.
  assert (rn * k <= s * top * sd) as Hrk by nia. unfold reward_share. strict_step lia.
  assert (0 < reward_denominator c) as Hden by (unfold reward_denominator; fold d s sd; repeat apply Z.mul_pos_pos; lia). strict_step lia.
  rewrite (proj2 (Z.leb_le _ _)); [done|]. apply Z.div_le_upper_bound; [done|]. unfold reward_denominator. fold d s sd.
  transitivity (s * sd * top); [lia|]. transitivity (s * sd * (d * u64_max)); [|lia].
  apply Z.mul_le_mono_nonneg_l; [apply Z.mul_nonneg_nonneg; lia|lia].
Qed.

Lemma block_rewards_run {E} c pooled fee stake : block_rewards_typed c → 0 <= fee <= u64_max →
  let w := emission_weight c pooled stake in
  block_rewards (E:=E) c pooled fee stake =
    Ok (reward_numerator c w fee * numerator (blend_share c) / reward_denominator c,
        reward_numerator c w fee * (denominator (blend_share c) - numerator (blend_share c)) / reward_denominator c).
Proof.
  intros Hc Hf w. pose proof (emission_weight_bounds c pooled stake Hc) as Hw. fold w in Hw.
  pose proof (reward_top_fits c fee Hc Hf) as Ht. pose proof (reward_numerator_bounds c w fee Hc Hw ltac:(lia)) as Hr.
  unfold block_rewards. fold (emission_weight c pooled stake). fold w. cbn zeta in *.
  pose proof Hc as [_ Hs _ Hn Hd [Hsh Hsd] Hb]. set (top := Z.max _ _) in *.
  change (u128_max / u64_max) with 18446744073709551617 in Hb.
  set (sd := denominator (blend_share c)) in *.
  set (s := emission_factor_scale c) in *. set (d := denominator (max_emission_per_block c)) in *.
  set (n := numerator (max_emission_per_block c)) in *.
  assert (s * top <= u128_max) by nia. assert (d * s <= 18446744073709551617) by nia.
  assert (d * (s - w) <= 18446744073709551617) by nia.
  unfold reward_numerator in Hr. fold n d s in Hr.
  assert (0 <= n * w) by nia. assert (0 <= d * (s - w) * fee) by nia.
  strict_step lia. strict_step lia. strict_step ltac:(unfold u128_max; lia). strict_step lia. strict_step lia.
  assert (saturating_mul u128_max (saturating_mul u128_max d s) sd = reward_denominator c) as ->.
  { unfold saturating_mul. rewrite (Z.min_r _ (d * s)) by (unfold u128_max; lia).
    rewrite Z.min_r by (unfold u128_max; lia). done. }
  change (n * w + d * (s - w) * fee) with (reward_numerator c w fee).
  rewrite reward_share_ok by (done || lia). cbn [mbind result_bind]. strict_step lia.
  rewrite reward_share_ok by (done || lia). done.
Qed.

Lemma block_rewards_bound {E} c pooled fee stake : block_rewards_typed c → 0 <= fee <= u64_max →
  let w := emission_weight c pooled stake in
  ∃ blend leader, block_rewards (E:=E) c pooled fee stake = Ok (blend, leader) ∧ 0 <= blend ∧ 0 <= leader ∧
    0 <= w <= emission_factor_scale c ∧
    denominator (max_emission_per_block c) * emission_factor_scale c * (blend + leader) <= reward_numerator c w fee.
Proof.
  intros Hc Hf w. pose proof (emission_weight_bounds c pooled stake Hc) as Hw. fold w in Hw.
  pose proof (reward_numerator_bounds c w fee Hc Hw ltac:(lia)) as Hr. rewrite block_rewards_run by done. fold w.
  do 2 eexists. split; [done|]. pose proof Hc as [_ Hs _ _ Hd [Hsh _] _]. cbn zeta in Hr.
  fold (reward_numerator c w fee). set (rn := reward_numerator c w fee) in *. set (D := reward_denominator c).
  set (k := numerator (blend_share c)) in *. set (sd := denominator (blend_share c)) in *.
  assert (0 < D) as HD by (unfold D, reward_denominator; fold sd; repeat apply Z.mul_pos_pos; lia).
  pose proof (Z.mul_div_le (rn * k) D HD). pose proof (Z.mul_div_le (rn * (sd - k)) D HD).
  assert (0 <= rn * k / D) by (apply Z.div_pos; nia). assert (0 <= rn * (sd - k) / D) by (apply Z.div_pos; nia).
  set (x := rn * k / D) in *. set (y := rn * (sd - k) / D) in *. split_and!; try lia.
  apply (Z.mul_le_mono_pos_l _ _ sd); [lia|]. transitivity (D * x + D * y); [unfold D, reward_denominator; fold sd; lia|]. lia.
Qed.

(** The rewards exceed the fee by at most a full emission. *)
Lemma block_rewards_emission {E} c pooled fee stake : block_rewards_typed c → 0 <= fee <= u64_max →
  ∃ blend leader, block_rewards (E:=E) c pooled fee stake = Ok (blend, leader) ∧ 0 <= blend ∧ 0 <= leader ∧
    denominator (max_emission_per_block c) * (blend + leader - fee) <= numerator (max_emission_per_block c).
Proof.
  intros Hc Hf. destruct (block_rewards_bound (E:=E) c pooled fee stake Hc Hf) as (x & y & Hrun & Hx & Hy & Hw & Hsum).
  exists x, y. split_and!; [done..|]. destruct Hc as [_ Hs _ Hn Hd _ _]. unfold reward_numerator in Hsum.
  set (w := emission_weight c pooled stake) in *. set (s := emission_factor_scale c) in *.
  set (d := denominator (max_emission_per_block c)) in *. set (n := numerator (max_emission_per_block c)) in *.
  apply (Z.mul_le_mono_pos_l _ _ s); [lia|]. assert (n * w <= n * s) by nia. assert (d * (s - w) * fee <= d * s * fee) by nia. lia.
Qed.

(** A block's rewards: for a configuration its constructor accepts, no fee
    makes the computation overflow; the Blend nodes and the leader together
    receive at most the mean of a full emission and the block's fee, and the fee
    alone once the stake is so large that the emission has no weight. *)
Theorem block_rewards_spec {E} c pooled fee stake : block_rewards_typed c → 0 <= fee <= u64_max →
  let w := emission_weight c pooled stake in
  ∃ blend leader, block_rewards (E:=E) c pooled fee stake = Ok (blend, leader) ∧ 0 <= blend ∧ 0 <= leader ∧
    0 <= w <= emission_factor_scale c ∧
    denominator (max_emission_per_block c) * emission_factor_scale c * (blend + leader) <=
      numerator (max_emission_per_block c) * w +
      denominator (max_emission_per_block c) * (emission_factor_scale c - w) * fee ∧
    (w = 0 → blend + leader <= fee).
Proof.
  intros Hc Hf w. destruct (block_rewards_bound (E:=E) c pooled fee stake Hc Hf) as (x & y & Hrun & Hx & Hy & Hw & Hsum).
  exists x, y. split_and!; try done; try lia. intros Hw0. fold w in Hsum. unfold reward_numerator in Hsum. rewrite Hw0 in Hsum.
  destruct Hc as [_ Hs _ _ Hd _ _]. set (e := denominator (max_emission_per_block c) * emission_factor_scale c) in *.
  assert (0 < e) by (unfold e; nia). apply (Z.mul_le_mono_pos_l _ _ e); [done|]. unfold e in *. lia.
Qed.

(** ** Stake inference *)

Lemma i128_op_in {E} z : - 2 ^ 127 <= z < 2 ^ 127 → i128_op (E:=E) z = Ok z.
Proof.
  intros Hz. unfold i128_op, i128_checked. rewrite (proj2 (Z.leb_le _ _)), (proj2 (Z.ltb_lt _ _)) by lia. done.
Qed.

(** A division that rounds towards zero. *)
Lemma quot_spec a b : 0 < b →
  (0 <= a → 0 <= Z.quot a b ∧ b * Z.quot a b <= a) ∧ (a <= 0 → Z.quot a b <= 0 ∧ a <= b * Z.quot a b).
Proof.
  intros Hb. split; intros Ha.
  - rewrite Z.quot_div_nonneg by lia. pose proof (Z.mul_div_le a b Hb). pose proof (Z.div_pos a b Ha Hb). lia.
  - replace (Z.quot a b) with (- (- a / b)).
    + pose proof (Z.mul_div_le (- a) b Hb). pose proof (Z.div_pos (- a) b ltac:(lia) Hb). lia.
    + rewrite <- (Z.opp_involutive a) at 2. rewrite Z.quot_opp_l by lia. by rewrite Z.quot_div_nonneg by lia.
Qed.

Lemma quot_abs a b : 0 < b → Z.abs (Z.quot a b) <= Z.abs a.
Proof. intros Hb. destruct (quot_spec a b Hb) as [Hp Hn]. destruct (Z.le_ge_cases 0 a) as [H|H]; [apply Hp in H|apply Hn in H]; nia. Qed.

Lemma i128_div_in {E} a b : 0 < b → - 2 ^ 127 < a < 2 ^ 127 → i128_div (E:=E) a b = Ok (Z.quot a b).
Proof.
  intros Hb Ha. unfold i128_div. rewrite (proj2 (Z.eqb_neq _ _)) by lia. apply i128_op_in.
  pose proof (quot_abs a b Hb). lia.
Qed.

(** The correction of an estimate of [T] by a density [D] against [X] expected. *)
Definition stake_correction (L T X D : Z) : Z :=
  Z.quot (L * Z.quot (T * STAKE_INFERENCE_PRECISION * (X - D * STAKE_INFERENCE_PRECISION)) X) STAKE_INFERENCE_PRECISION.

Lemma stake_correction_spec L T X D : 0 <= L → 0 <= T → 0 < X → 0 <= D →
  (D * 1000 <= X → 0 <= stake_correction L T X D) ∧
  (X <= D * 1000 → stake_correction L T X D <= 0 ∧ - (X * stake_correction L T X D) <= L * T * (D * 1000)).
Proof.
  intros HL HT HX HD. unfold stake_correction, STAKE_INFERENCE_PRECISION.
  set (p := T * 1000 * (X - D * 1000)). set (e := Z.quot p X).
  destruct (quot_spec p X HX) as [Hp Hn]. fold e in Hp, Hn. destruct (quot_spec (L * e) 1000 ltac:(lia)) as [Hp' Hn'].
  split; intros Hle.
  - assert (0 <= p) as Hp0 by (unfold p; nia). destruct (Hp Hp0). assert (0 <= L * e) as He0 by nia. apply Hp' in He0. lia.
  - assert (p <= 0) as Hp0 by (unfold p; nia). destruct (Hn Hp0). assert (L * e <= 0) as He0 by nia.
    destruct (Hn' He0) as [Hc Hc']. split; [done|]. set (k := Z.quot (L * e) 1000) in *.
    assert (L * (X * e) <= X * (1000 * k)) by nia. assert (L * p <= L * (X * e)) by nia.
    assert (- (L * p) <= L * (T * 1000 * (D * 1000))) by (unfold p; nia). lia.
Qed.

Lemma stake_correction_abs L T X D : 0 <= L → 0 <= T → 0 < X → 0 <= D →
  Z.abs (stake_correction L T X D) <= L * (T * 1000 * Z.max X (D * 1000)).
Proof.
  intros HL HT HX HD. unfold stake_correction, STAKE_INFERENCE_PRECISION.
  set (p := T * 1000 * (X - D * 1000)). pose proof (quot_abs p X HX). set (e := Z.quot p X) in *.
  pose proof (quot_abs (L * e) 1000 ltac:(lia)) as Hw. assert (Z.abs p <= T * 1000 * Z.max X (D * 1000)) by (unfold p; nia).
  rewrite Z.abs_mul, (Z.abs_eq L) in Hw by lia.
  assert (L * Z.abs e <= L * (T * 1000 * Z.max X (D * 1000))) by (apply Z.mul_le_mono_nonneg_l; lia). lia.
Qed.

Lemma stake_estimate_bounds L T X D : 0 <= L → 1 <= T → 0 < X → 0 <= D →
  T * (1000 * X + L * (D * 1000)) <= u64_max * (1000 * X) →
  let T' := Z.max (Z.quot (T * 1000 - stake_correction L T X D) 1000) 1 in
  1 <= T' <= u64_max ∧ (D * 1000 <= X → T' <= T) ∧ (X <= D * 1000 → T <= T').
Proof.
  intros HL HT HX HD Hres T'. pose proof (stake_correction_spec L T X D HL ltac:(lia) HX HD) as [Hdown Hup].
  unfold T'. set (k := stake_correction L T X D) in *.
  destruct (quot_spec (T * 1000 - k) 1000 ltac:(lia)) as [Hq Hq']. set (q := Z.quot (T * 1000 - k) 1000) in *.
  assert (T <= u64_max) by nia. assert (D * 1000 <= X → q <= T) as Hlow.
  { intros Hle%Hdown. destruct (Z.le_ge_cases 0 (T * 1000 - k)) as [Hs|Hs]; [apply Hq in Hs|apply Hq' in Hs]; lia. }
  assert (X <= D * 1000 → T <= q <= u64_max) as Hhigh.
  { intros Hge. destruct (Hup Hge) as [Hk HXk]. destruct Hq as [_ Hq]; [lia|]. split.
    - unfold q. apply Z.quot_le_lower_bound; lia.
    - apply (Z.mul_le_mono_pos_l _ _ (1000 * X)); [lia|]. nia. }
  destruct (Z.le_ge_cases (D * 1000) X); split_and!; intros; lia.
Qed.

Lemma infer_stake_run {E} L f period T D : 0 <= L → 0 < period * f → 1 <= T → 0 <= D →
  T * 1000 * Z.max (period * f) (D * 1000) * (L + 1) < 2 ^ 127 →
  T * (1000 * (period * f) + L * (D * 1000)) <= u64_max * (1000 * (period * f)) →
  infer_stake (E:=E) L f period T D =
    Ok (Z.max (Z.quot (T * 1000 - stake_correction L T (period * f) D) 1000) 1).
Proof.
  intros HL HX HT HD Hfit Hres. set (X := period * f) in *. set (M := Z.max X (D * 1000)) in *.
  pose proof (stake_correction_abs L T X D HL ltac:(lia) HX HD) as Habs. fold M in Habs.
  pose proof (stake_correction_spec L T X D HL ltac:(lia) HX HD) as [Hdown Hup].
  assert (1 <= M) by lia. assert (0 <= T * 1000 * M * L) by nia.
  assert (T * 1000 <= T * 1000 * M) by nia. assert (M <= T * 1000 * M) by nia.
  unfold infer_stake, STAKE_INFERENCE_PRECISION. fold X.
  rewrite (i128_op_in (T * 1000)) by lia. cbn [mbind result_bind].
  rewrite (i128_op_in (D * 1000)) by lia. cbn [mbind result_bind].
  rewrite (i128_op_in X) by lia. cbn [mbind result_bind].
  rewrite (i128_op_in (X - D * 1000)) by lia. cbn [mbind result_bind].
  set (p := T * 1000 * (X - D * 1000)). assert (Z.abs p <= T * 1000 * M) by (unfold p; nia).
  rewrite (i128_op_in p) by lia. cbn [mbind result_bind]. rewrite i128_div_in by lia. cbn [mbind result_bind].
  pose proof (quot_abs p X HX). assert (Z.abs (L * Z.quot p X) <= L * (T * 1000 * M)) by (rewrite Z.abs_mul, (Z.abs_eq L) by lia; apply Z.mul_le_mono_nonneg_l; lia).
  rewrite (i128_op_in (L * _)) by lia. cbn [mbind result_bind]. rewrite i128_div_in by lia. cbn [mbind result_bind].
  fold (stake_correction L T X D). set (k := stake_correction L T X D) in *.
  rewrite (i128_op_in (T * 1000 - k)) by lia. cbn [mbind result_bind]. rewrite i128_div_in by lia. cbn [mbind result_bind].
  rewrite (proj2 (Z.leb_le _ _)); [done|]. apply (stake_estimate_bounds L T X D); done || lia.
Qed.

(** The inference of the total stake: within the stated bounds it neither
    overflows nor divides by zero; the estimate is at least one, unchanged by the
    expected density, lowered by a lower one and raised by a higher one. *)
Theorem stake_inference_spec {E} L f period T D : 0 <= L → 0 < period * f → 1 <= T → 0 <= D →
  T * 1000 * Z.max (period * f) (D * 1000) * (L + 1) < 2 ^ 127 →
  T * (1000 * (period * f) + L * (D * 1000)) <= u64_max * (1000 * (period * f)) →
  ∃ T', infer_stake (E:=E) L f period T D = Ok T' ∧ 1 <= T' <= u64_max ∧
    (D * STAKE_INFERENCE_PRECISION <= period * f → T' <= T) ∧ (period * f <= D * STAKE_INFERENCE_PRECISION → T <= T').
Proof.
  intros HL HX HT HD Hfit Hres. eexists. split; [by apply infer_stake_run|]. unfold STAKE_INFERENCE_PRECISION.
  by apply stake_estimate_bounds.
Qed.

End MarketFacts.
