(* ===== verification/Cryptarchia.v ===== *)
(** * The consensus ledger: ledger/src/cryptarchia/mod.rs

    The notes, the nonce, the snapshots an epoch's lottery runs on, the rolling
    fee window and the gas markets of a block's ledger state; the epoch
    transition, the leadership check and the header of a block. *)

From S2P Require Import Prelude Era EngineConfig MerkleStore Codec Ops Utxos Channels ServiceNotes Inputs ChannelOps SignedTx SdpOps LedgerConfig ClaimOps TxVerification Leaders Pow Markets.

#[local] Open Scope Z_scope.

Module Cryptarchia.
Import Canonical Ops Utxos Channels ServiceNotes Inputs ChannelOps SdpOps LedgerConfig ClaimOps TxVerification Leaders Pow Markets.

(** ** Errors *)

(** [mantle::Error]. *)
Inductive MantleError :=
  | MantleChannel (e : ChannelError)
  | MantleLeader (e : LeaderError)
  | MantleSdp (e : SdpLedgerError)
  | MantleTransfer (e : TransferError)
  | MantlePowRewardPool (e : PowRewardPoolOverflow).

(** [LedgerError], the variants the ledger raises. *)
Inductive LedgerError (Id : Type) :=
  | InvalidSlot (parent block : Z)
  | ParentNotFound (id : Id)
  | InvalidLeaderProof
  | InsufficientBalance
  | LedgerBalanceOverflow
  | LedgerGasOverflow
  | Mantle (e : MantleError)
  | InputInGenesis (id : NoteId)
  | TooMuchTransactionExecutionGas (gas limit : Z)
  | TooMuchExecutionGas (gas limit : Z)
  | TooManyTransactions (max : Z)
  | TransactionsTooLarge (size max : Z)
  | OpDataTooLarge (size max : Z)
  | LedgerVerification (e : VerificationError)
  | UnacceptedForkDigest (d : Hash).

Arguments InvalidSlot {Id} _ _.
Arguments ParentNotFound {Id} _.
Arguments InvalidLeaderProof {Id}.
Arguments InsufficientBalance {Id}.
Arguments LedgerBalanceOverflow {Id}.
Arguments LedgerGasOverflow {Id}.
Arguments Mantle {Id} _.
Arguments InputInGenesis {Id} _.
Arguments TooMuchTransactionExecutionGas {Id} _ _.
Arguments TooMuchExecutionGas {Id} _ _.
Arguments TooManyTransactions {Id} _.
Arguments TransactionsTooLarge {Id} _ _.
Arguments OpDataTooLarge {Id} _ _.
Arguments LedgerVerification {Id} _.
Arguments UnacceptedForkDigest {Id} _.

(** ** Leadership *)

(** [LeaderPublic]. *)
Record LeaderPublic := mkLeaderPublic {
  lpub_slot : Z;
  lpub_epoch_nonce : Z;
  lpub_lottery_0 : Z;
  lpub_lottery_1 : Z;
  lpub_aged_root : Z;
  lpub_latest_root : Z
}.

(** The trait [LeaderProof]. *)
Class LeaderProof (P : Type) := {
  lp_verify : P → LeaderPublic → bool;
  lp_entropy : P → Z;
  lp_voucher_cm : P → Z
}.

(** ** State *)

Definition WINDOW_SIZE : nat := 120.

Record Cryptarchia (T : Type) := mkCryptarchia {
  cl_utxos : T;
  cl_nonce : Z;
  cl_previous_epoch_nonce : Z;
  cl_slot : Z;
  cl_next_epoch_state : EpochState T;
  cl_epoch_state : EpochState T;
  cl_block_density : BlockDensity;
  cl_fee_window : list Z;
  cl_average_execution_gas : Z;
  cl_execution_base_fee : Z;
  cl_storage_gas_ema : Z;
  cl_storage_gas_price : Z;
  cl_storage_gas_consumed : Z
}.

Arguments mkCryptarchia {T}.
Arguments cl_utxos {T} _.
Arguments cl_nonce {T} _.
Arguments cl_previous_epoch_nonce {T} _.
Arguments cl_slot {T} _.
Arguments cl_next_epoch_state {T} _.
Arguments cl_epoch_state {T} _.
Arguments cl_block_density {T} _.
Arguments cl_fee_window {T} _.
Arguments cl_average_execution_gas {T} _.
Arguments cl_execution_base_fee {T} _.
Arguments cl_storage_gas_ema {T} _.
Arguments cl_storage_gas_price {T} _.
Arguments cl_storage_gas_consumed {T} _.

Definition EPOCH_NONCE_V1 : Z := from_le_bytes (ascii_bytes "EPOCH_NONCE_V1").
Definition GENESIS_STORAGE_GAS_PRICE : Z := 1.
Definition GENESIS_EXECUTION_GAS_PRICE : Z := 1.

Section Cryptarchia.
Context {T R Params P Id : Type} `{!KeyedStoreOps T NoteId Utxo}.
Context `{Poseidon2Crate} `{Blake2Crate} `{BigUintCrate} `{LotteryCrate} `{!LeaderProof P}.
Implicit Types (l : Cryptarchia T) (sdp : SdpLedger R) (pow : PowState) (eras : EraSchedule (Config Params)).

(** [LedgerState::update_utxos]. *)
Definition update_utxos l (utxos : T) : Cryptarchia T :=
  mkCryptarchia utxos (cl_nonce l) (cl_previous_epoch_nonce l) (cl_slot l) (cl_next_epoch_state l) (cl_epoch_state l)
    (cl_block_density l) (cl_fee_window l) (cl_average_execution_gas l) (cl_execution_base_fee l) (cl_storage_gas_ema l)
    (cl_storage_gas_price l) (cl_storage_gas_consumed l).

(** ** The epoch transition *)

(** [EpochState::update_from_ledger]. *)
Definition update_from_ledger {E} (es : EpochState T) l sdp pow eras : result E (EpochState T) :=
  config ← config_for_epoch eras (es_epoch es);
  assert_ (negb (es_epoch es =? 0));;
  nonce_snapshot_slot ← nonce_snapshot eras (es_epoch es);
  '(nonce, difficulty) ←
    (if cl_slot l <? nonce_snapshot_slot then
       d ← match last_closed_epoch_load (ps_tx_density pow) with
           | None => Ok (blend_pow_difficulty (cl_epoch_state l))
           | Some load => compute_epoch_blend_difficulty load (blend_pow_difficulty (cl_epoch_state l)) (blend_pow config)
           end;
       Ok (cl_nonce l, d)
     else Ok (es_nonce es, blend_pow_difficulty es));
  stake_snapshot_slot ← stake_distribution_snapshot eras (es_epoch es);
  '(utxos, declarations) ←
    (if cl_slot l <? stake_snapshot_slot then
       ds ← active_declarations sdp (es_epoch es) (service_params (sdp_config config));
       Ok (cl_utxos l, ds)
     else Ok (es_utxos es, active_declarations_of es));
  Ok (mkEpochState (es_epoch es) nonce difficulty utxos (total_stake es) (lottery_0 es) (lottery_1 es) declarations).

(** The stake inferred over [n] epochs without blocks. *)
Fixpoint infer_skipped {E} eras (n : nat) (skipped_epoch stake : Z) : result E Z :=
  match n with
  | O => Ok stake
  | S n =>
      i ← after_epoch eras skipped_epoch;
      stake ← total_stake_inference i stake 0;
      infer_skipped eras n (skipped_epoch + 1) stake
  end.

(** The storage market over [n] epochs without blocks. *)
Fixpoint storage_skipped {E} eras (n : nat) (skipped_epoch price ema : Z) : result E (Z * Z) :=
  match n with
  | O => Ok (price, ema)
  | S n =>
      c ← config_for_epoch eras skipped_epoch;
      '(price, ema) ← update_storage_market price 0 ema (storage_market c);
      storage_skipped eras n (skipped_epoch + 1) price ema
  end.

(** The lottery values of [lottery_constants] of an era. *)
Definition lottery_values {E} (c : Config Params) (stake : Z) : result E (Z * Z) :=
  compute_lottery_values (slot_activation_coeff (consensus_config c)) stake.

(** The snapshot taken now for [epoch], with the stake just inferred. *)
Definition snapshot_now {E} l sdp eras (epoch difficulty stake lottery_0 lottery_1 : Z) : result E (EpochState T) :=
  c ← config_for_epoch eras epoch;
  ds ← active_declarations sdp epoch (service_params (sdp_config c));
  Ok (mkEpochState epoch (cl_nonce l) difficulty (cl_utxos l) stake lottery_0 lottery_1 ds).

(** [LedgerState::update_epoch_state]. *)
Definition update_epoch_state l (slot : Z) sdp pow eras : result (LedgerError Id) (Cryptarchia T) :=
  if slot <=? cl_slot l then Err (InvalidSlot (cl_slot l) slot)
  else
    current_epoch ← epoch_for_slot eras (cl_slot l);
    new_epoch ← epoch_for_slot eras slot;
    next_epoch_state ← update_from_ledger (cl_next_epoch_state l) l sdp pow eras;
    if current_epoch =? new_epoch then
      Ok (mkCryptarchia (cl_utxos l) (cl_nonce l) (cl_previous_epoch_nonce l) slot next_epoch_state (cl_epoch_state l)
            (cl_block_density l) (cl_fee_window l) (cl_average_execution_gas l) (cl_execution_base_fee l)
            (cl_storage_gas_ema l) (cl_storage_gas_price l) (cl_storage_gas_consumed l))
    else
      following ← strict_add u32_max current_epoch 1;
      inference ← after_epoch eras current_epoch;
      stake ← total_stake_inference inference (total_stake (cl_epoch_state l)) (current_block_density (cl_block_density l));
      current_config ← config_for_epoch eras current_epoch;
      if new_epoch =? following then
        new_config ← config_for_epoch eras new_epoch;
        '(l0, l1) ← lottery_values new_config stake;
        density ← density_new new_epoch eras;
        let epoch_state :=
          mkEpochState (es_epoch next_epoch_state) (es_nonce next_epoch_state) (blend_pow_difficulty next_epoch_state)
            (es_utxos next_epoch_state) stake l0 l1 (active_declarations_of next_epoch_state) in
        next_epoch ← strict_add u32_max new_epoch 1;
        next ← snapshot_now l sdp eras next_epoch (blend_pow_difficulty epoch_state) stake l0 l1;
        '(price, ema) ← update_storage_market (cl_storage_gas_price l) (cl_storage_gas_consumed l) (cl_storage_gas_ema l)
                          (storage_market current_config);
        Ok (mkCryptarchia (cl_utxos l) (cl_nonce l) (es_nonce (cl_epoch_state l)) slot next epoch_state density
              (cl_fee_window l) (cl_average_execution_gas l) (cl_execution_base_fee l) ema price 0)
      else
        let skipped := Z.to_nat (new_epoch - es_epoch next_epoch_state) in
        stake ← infer_skipped eras skipped (es_epoch next_epoch_state) stake;
        new_config ← config_for_epoch eras new_epoch;
        '(l0, l1) ← lottery_values new_config stake;
        '(price, ema) ← update_storage_market (cl_storage_gas_price l) (cl_storage_gas_consumed l) (cl_storage_gas_ema l)
                          (storage_market current_config);
        '(price, ema) ← storage_skipped eras skipped (es_epoch next_epoch_state) price ema;
        density ← density_new new_epoch eras;
        epoch_state ← snapshot_now l sdp eras new_epoch (blend_pow_difficulty (cl_epoch_state l)) stake l0 l1;
        next_epoch ← strict_add u32_max new_epoch 1;
        next ← snapshot_now l sdp eras next_epoch (blend_pow_difficulty epoch_state) stake l0 l1;
        Ok (mkCryptarchia (cl_utxos l) (cl_nonce l) (cl_nonce l) slot next epoch_state density
              (cl_fee_window l) (cl_average_execution_gas l) (cl_execution_base_fee l) ema price 0).

(** ** Headers *)

(** [LedgerState::try_apply_proof]. *)
Definition try_apply_proof l (slot : Z) (proof : P) eras : result (LedgerError Id) (Cryptarchia T) :=
  epoch ← epoch_for_slot eras slot;
  assert_ (epoch =? es_epoch (cl_epoch_state l));;
  aged ← ks_root (es_utxos (cl_epoch_state l));
  latest ← ks_root (cl_utxos l);
  let es := cl_epoch_state l in
  if lp_verify proof (mkLeaderPublic slot (es_nonce es) (lottery_0 es) (lottery_1 es) aged latest) then Ok l
  else Err InvalidLeaderProof.

(** [update_epoch_state_and_apply_proof] and [verify_proof_of_leadership]. *)
Definition update_epoch_state_and_apply_proof l (slot : Z) (proof : P) sdp pow eras : result (LedgerError Id) (Cryptarchia T) :=
  l ← update_epoch_state l slot sdp pow eras;
  try_apply_proof l slot proof eras.

Definition verify_proof_of_leadership l (slot : Z) (proof : P) sdp pow eras : result (LedgerError Id) unit :=
  update_epoch_state_and_apply_proof l slot proof sdp pow eras;; Ok tt.

(** [LedgerState::update_nonce]. *)
Definition update_nonce l (contrib slot : Z) : Cryptarchia T :=
  mkCryptarchia (cl_utxos l) (zk_digest [EPOCH_NONCE_V1; cl_nonce l; contrib; slot]) (cl_previous_epoch_nonce l) (cl_slot l)
    (cl_next_epoch_state l) (cl_epoch_state l) (cl_block_density l) (cl_fee_window l) (cl_average_execution_gas l)
    (cl_execution_base_fee l) (cl_storage_gas_ema l) (cl_storage_gas_price l) (cl_storage_gas_consumed l).

(** [LedgerState::mark_occupied_slots]. *)
Definition mark_slots l (slot : Z) (uncle_slots : list Z) : Cryptarchia T :=
  mkCryptarchia (cl_utxos l) (cl_nonce l) (cl_previous_epoch_nonce l) (cl_slot l) (cl_next_epoch_state l) (cl_epoch_state l)
    (mark_occupied_slots (cl_block_density l) slot uncle_slots) (cl_fee_window l) (cl_average_execution_gas l)
    (cl_execution_base_fee l) (cl_storage_gas_ema l) (cl_storage_gas_price l) (cl_storage_gas_consumed l).

(** [LedgerState::try_apply_header]. *)
Definition cryptarchia_apply_header l (slot : Z) (proof : P) (uncle_slots : list Z) sdp pow eras
    : result (LedgerError Id) (Cryptarchia T) :=
  l ← update_epoch_state_and_apply_proof l slot proof sdp pow eras;
  Ok (mark_slots (update_nonce l (lp_entropy proof) slot) slot uncle_slots).

(** [LedgerState::epoch_state_for_slot]. *)
Definition epoch_state_for_slot l (slot : Z) sdp pow eras : result (LedgerError Id) (EpochState T) :=
  l ← update_epoch_state l slot sdp pow eras; Ok (cl_epoch_state l).

(** ** Transfers, fees and markets *)

(** [LedgerState::try_apply_transfer]: the new state and the balance. *)
Definition try_apply_transfer l (op : TransferOp) : result (LedgerError Id) (Cryptarchia T * Z) :=
  balance ← map_err (Mantle ∘ MantleTransfer) (transfer_balance op (cl_utxos l));
  utxos ← map_err (Mantle ∘ MantleTransfer) (transfer_execute op (cl_utxos l));
  Ok (update_utxos l utxos, balance).

(** [update_fee_window], [get_fee_from_index], [get_summed_fees]: an index out of
    range panics. *)
Definition update_fee_window {E} l (index : nat) (total_fee : Z) : result E (Cryptarchia T) :=
  assert_ (Nat.ltb index (length (cl_fee_window l)));;
  Ok (mkCryptarchia (cl_utxos l) (cl_nonce l) (cl_previous_epoch_nonce l) (cl_slot l) (cl_next_epoch_state l)
        (cl_epoch_state l) (cl_block_density l) (<[index := total_fee]> (cl_fee_window l)) (cl_average_execution_gas l)
        (cl_execution_base_fee l) (cl_storage_gas_ema l) (cl_storage_gas_price l) (cl_storage_gas_consumed l)).

Definition get_fee_from_index {E} l (index : nat) : result E Z := expect (cl_fee_window l !! index).

Definition get_summed_fees {E} l : result E Z :=
  foldl (λ acc fee, sum ← acc; strict_add u128_max sum fee) (Ok 0) (cl_fee_window l).

(** [LedgerState::update_execution_market] and [add_storage_gas_consumed]. *)
Definition apply_execution_market {E} l (gas : Z) (market : ExecutionMarketConfig) : result E (Cryptarchia T) :=
  '(average, fee) ← update_execution_market (cl_average_execution_gas l) (cl_execution_base_fee l) gas market;
  Ok (mkCryptarchia (cl_utxos l) (cl_nonce l) (cl_previous_epoch_nonce l) (cl_slot l) (cl_next_epoch_state l)
        (cl_epoch_state l) (cl_block_density l) (cl_fee_window l) average fee (cl_storage_gas_ema l)
        (cl_storage_gas_price l) (cl_storage_gas_consumed l)).

Definition add_storage_gas_consumed l (storage_gas : Z) : result GasOverflow (Cryptarchia T) :=
  gas ← gas_add (cl_storage_gas_consumed l) storage_gas;
  Ok (mkCryptarchia (cl_utxos l) (cl_nonce l) (cl_previous_epoch_nonce l) (cl_slot l) (cl_next_epoch_state l)
        (cl_epoch_state l) (cl_block_density l) (cl_fee_window l) (cl_average_execution_gas l) (cl_execution_base_fee l)
        (cl_storage_gas_ema l) (cl_storage_gas_price l) gas).

(** ** Genesis *)

(** The stake of the notes whose key takes part in consensus. *)
Fixpoint sum_stake {E} (excluded : gset ZkPublicKey) (l : list Utxo) (acc : Z) : result E Z :=
  match l with
  | [] => Ok acc
  | u :: l =>
      if bool_decide (pk (note u) ∈ excluded) then sum_stake excluded l acc
      else acc ← strict_add u64_max acc (value (note u)); sum_stake excluded l acc
  end.

(** [LedgerState::from_utxos]. *)
Definition cryptarchia_from_utxos {E} (utxos : list Utxo) (c : Config Params) (excluded : gset ZkPublicKey) (nonce : Z)
    : result E (Cryptarchia T) :=
  tree ← insert_utxos ks_empty utxos;
  sum ← sum_stake excluded (ks_items tree) 0;
  let stake := Z.max sum 1 in
  '(l0, l1) ← lottery_values c stake;
  density ← of_epoch_starting_at 0 c;
  let snapshot epoch := mkEpochState epoch nonce (fr_of_shift (base_difficulty (blend_pow c))) tree stake l0 l1 ∅ in
  Ok (mkCryptarchia tree nonce nonce 0 (snapshot 1) (snapshot 0) density (replicate WINDOW_SIZE 0) 0
        GENESIS_EXECUTION_GAS_PRICE 0 GENESIS_STORAGE_GAS_PRICE 0).

(** [LedgerState::from_genesis_tx]. *)
Definition cryptarchia_from_genesis (op : TransferOp) (c : Config Params) (excluded : gset ZkPublicKey) (nonce : Z)
    : result (LedgerError Id) (Cryptarchia T) :=
  match t_inputs op with
  | first_input :: _ => Err (InputInGenesis first_input)
  | [] => id ← op_id_of transfer_codec op; cryptarchia_from_utxos (utxos_of id (t_outputs op)) c excluded nonce
  end.

(** [LedgerState::with_genesis_sdp]. *)
Definition with_genesis_sdp {E} l sdp (c : Config Params) : result E (Cryptarchia T) :=
  let with_active (es : EpochState T) :=
    ds ← active_declarations sdp (es_epoch es) (service_params (sdp_config c));
    Ok (mkEpochState (es_epoch es) (es_nonce es) (blend_pow_difficulty es) (es_utxos es) (total_stake es) (lottery_0 es)
          (lottery_1 es) ds) in
  epoch_state ← with_active (cl_epoch_state l);
  next_epoch_state ← with_active (cl_next_epoch_state l);
  Ok (mkCryptarchia (cl_utxos l) (cl_nonce l) (cl_previous_epoch_nonce l) (cl_slot l) next_epoch_state epoch_state
        (cl_block_density l) (cl_fee_window l) (cl_average_execution_gas l) (cl_execution_base_fee l)
        (cl_storage_gas_ema l) (cl_storage_gas_price l) (cl_storage_gas_consumed l)).

End Cryptarchia.

End Cryptarchia.
