(* ===== verification/ConsensusFacts.v ===== *)
(** * Epochs of the consensus ledger

    The state of a block's epoch is that of its slot, the next one is prepared
    beside it; what a lottery of an epoch runs on is fixed long before: the stake
    at the start of the previous epoch, the nonce at its snapshot. *)

From S2P Require Import Prelude Era EraFacts EngineConfig MerkleStore Codec Ops Utxos Channels ServiceNotes Inputs ChannelOps SignedTx SdpOps LedgerConfig ClaimOps TxVerification Leaders Pow Markets Cryptarchia.

#[local] Open Scope Z_scope.

Module ConsensusFacts.
Import Canonical Ops Utxos Channels ServiceNotes Inputs ChannelOps SdpOps LedgerConfig ClaimOps TxVerification Leaders Pow Markets Cryptarchia.

(** ** Computations that either return or panic *)

Definition infallible {E A} (r : result E A) : Prop := match r with Err _ => False | _ => True end.

Lemma infallible_bind {E A B} (r : result E A) (k : A → result E B) : infallible r → (∀ a, infallible (k a)) → infallible (r ≫= k).
Proof. destruct r; cbn; [|done..]. auto. Qed.

Lemma infallible_expect {E A} (o : option A) : infallible (expect (E:=E) o).
Proof. by destruct o. Qed.

Lemma infallible_assert {E} b : infallible (assert_ (E:=E) b).
Proof. by destruct b. Qed.

(** Go through the steps of a computation, opening [defs]. *)
Ltac infallible :=
  repeat first
    [ progress intros
    | lazymatch goal with
      | |- infallible (Ok _) => exact I
      | |- infallible (Fault _) => exact I
      | |- infallible (expect _) => apply infallible_expect
      | |- infallible (assert_ _) => apply infallible_assert
      | |- infallible (_ ≫= _) => apply infallible_bind
      | |- infallible (match ?x with _ => _ end) => destruct x
      | |- infallible (strict_add _ _ _) => unfold strict_add
      | |- infallible (strict_sub _ _) => unfold strict_sub
      | |- infallible (strict_mul _ _ _) => unfold strict_mul
      | |- infallible (div_ _ _) => unfold div_
      | |- infallible (i128_op _) => unfold i128_op
      | |- infallible (i128_div _ _) => unfold i128_div
      | |- infallible (nonzero _) => unfold nonzero
      end
    | solve [auto with infallible] ].

Create HintDb infallible.

Section Infallible.
Context {Params : Type}.
Implicit Types (eras : EraSchedule (Config Params)).

Lemma config_for_epoch_infallible {E} eras epoch : infallible (config_for_epoch (E:=E) eras epoch).
Proof. unfold config_for_epoch, at_epoch. infallible. Qed.

Lemma starting_slot_infallible {E} eras epoch : infallible (starting_slot_for_epoch (E:=E) eras epoch).
Proof. unfold starting_slot_for_epoch, elapsed_epochs_since_era_start, at_epoch. infallible. Qed.

Lemma epoch_for_slot_infallible {E} eras slot : infallible (epoch_for_slot (E:=E) eras slot).
Proof. unfold epoch_for_slot, at_slot. infallible. Qed.

Lemma contribution_period_infallible {E} (c : Config Params) : infallible (nonce_contribution_period (E:=E) c).
Proof.
  unfold nonce_contribution_period, config_base_period, base_period_length, average_slots_for_blocks. infallible.
Qed.

Lemma update_storage_market_infallible {E} price consumed ema m : infallible (update_storage_market (E:=E) price consumed ema m).
Proof. unfold update_storage_market. infallible. Qed.

Lemma infer_stake_infallible {E} lr f period stake density : infallible (infer_stake (E:=E) lr f period stake density).
Proof. unfold infer_stake. infallible. Qed.

End Infallible.

#[export] Hint Resolve config_for_epoch_infallible starting_slot_infallible epoch_for_slot_infallible contribution_period_infallible
  update_storage_market_infallible infer_stake_infallible : infallible.

Section Epochs.
Context {T R Params P Id : Type} `{!KeyedStoreOps T NoteId Utxo, !KeyedStore T NoteId Utxo}.
Context `{!SlotDuration (Config Params)}.
Context `{Poseidon2Crate} `{Blake2Crate} `{BigUintCrate} `{LotteryCrate} `{!LeaderProof P}.
Implicit Types (l : Cryptarchia T) (sdp : SdpLedger R) (pow : PowState) (eras : EraSchedule (Config Params)).

Notation ledger_result := (result (LedgerError Id)).

(** The epoch state is that of the slot, the next one is that of the next epoch. *)
Record epochs_ok eras l : Prop := {
  eo_slot : 0 <= cl_slot l;
  eo_epoch : epoch_for_slot (E:=LedgerError Id) eras (cl_slot l) = Ok (es_epoch (cl_epoch_state l));
  eo_next : es_epoch (cl_next_epoch_state l) = es_epoch (cl_epoch_state l) + 1;
  eo_roots : ks_ok (cl_utxos l) ∧ ks_ok (es_utxos (cl_epoch_state l)) ∧ ks_ok (es_utxos (cl_next_epoch_state l))
}.

Lemma update_from_ledger_ok {E} es l sdp pow eras es' : update_from_ledger (E:=E) es l sdp pow eras = Ok es' →
  es_epoch es' = es_epoch es ∧ (es_utxos es' = es_utxos es ∨ es_utxos es' = cl_utxos l).
Proof.
  unfold update_from_ledger. intros Hu. peel Hu as c _.
  peel Hu as [] _. peel Hu as n _.
  peel Hu as [nonce d] _. peel Hu as st _.
  peel Hu as [u ds] Hx. injection Hu as <-. cbn. split; [done|].
  destruct (_ <? _); inv_ok Hx; simplify_eq; auto.
Qed.

Lemma snapshot_now_from {E} l sdp eras epoch difficulty stake x0 x1 es :
  snapshot_now (E:=E) l sdp eras epoch difficulty stake x0 x1 = Ok es → es_utxos es = cl_utxos l ∧ es_nonce es = cl_nonce l.
Proof. unfold snapshot_now. intros Hs. peel Hs as c Hc. peel Hs as ds Hd. by injection Hs as <-. Qed.

Lemma snapshot_now_ok {E} l sdp eras epoch difficulty stake x0 x1 es :
  snapshot_now (E:=E) l sdp eras epoch difficulty stake x0 x1 = Ok es → es_epoch es = epoch ∧ es_utxos es = cl_utxos l.
Proof. unfold snapshot_now. intros Hs. inv_ok Hs. done. Qed.

(** *** The declarations of the epochs *)

Definition declarations_ok l : Prop :=
  epoch_declarations_ok (cl_epoch_state l) ∧ epoch_declarations_ok (cl_next_epoch_state l).

Section Declarations.
Context (sdp : SdpLedger R).
Hypothesis sdp_distinct : ∀ E epoch params m st ds, active_declarations (E:=E) sdp epoch params = Ok m → m !! st = Some ds → distinct_providers ds.

Lemma update_from_ledger_declarations {E} es l pow eras es' : epoch_declarations_ok es →
  update_from_ledger (E:=E) es l sdp pow eras = Ok es' → epoch_declarations_ok es'.
Proof.
  unfold update_from_ledger. intros Hes Hu. peel Hu as c _. peel Hu as [] _. peel Hu as n _. peel Hu as [nonce d] _. peel Hu as st _.
  peel Hu as [u ds] Hx. injection Hu as <-. unfold epoch_declarations_ok. cbn. destruct (_ <? _).
  - peel Hx as ds' Hds. injection Hx as <- <-. intros st' ds'' Hl. by eapply sdp_distinct.
  - injection Hx as <- <-. exact Hes.
Qed.

Lemma snapshot_now_declarations {E} l eras epoch difficulty stake x0 x1 es :
  snapshot_now (E:=E) l sdp eras epoch difficulty stake x0 x1 = Ok es → epoch_declarations_ok es.
Proof.
  unfold snapshot_now. intros Hs. peel Hs as c _. peel Hs as ds Hds. injection Hs as <-. intros st ds' Hl. by eapply sdp_distinct.
Qed.

Lemma update_epoch_state_declarations l slot pow eras l' : declarations_ok l →
  update_epoch_state (Id:=Id) l slot sdp pow eras = Ok l' → declarations_ok l'.
Proof.
  intros [Hd1 Hd2] Hup. unfold update_epoch_state in Hup. destruct (_ <=? _); [done|]. peel Hup as e He. peel Hup as e' He'. peel Hup as nx Hnx.
  apply update_from_ledger_declarations in Hnx; [|done].
  destruct (_ =? _); [by injection Hup as <-|]. peel Hup as f Hf. peel Hup as inf Hi. peel Hup as st Hst. peel Hup as cc Hcc.
  destruct (_ =? _).
  - peel Hup as nc Hnc. peel Hup as [x0 x1] Hl. peel Hup as de Hde. peel Hup as ne Hne. peel Hup as nxt Hnxt. peel Hup as [pr em] Hpr.
    apply snapshot_now_declarations in Hnxt. by injection Hup as <-.
  - peel Hup as sk Hsk. peel Hup as nc Hnc. peel Hup as [x0 x1] Hl. peel Hup as [pr em] Hpr. peel Hup as [pr' em'] Hpr'. peel Hup as de Hde.
    peel Hup as es Hes. peel Hup as ne Hne. peel Hup as nxt Hnxt. apply snapshot_now_declarations in Hes, Hnxt. by injection Hup as <-.
Qed.

End Declarations.

(** *** Errors of the transition *)

Lemma filter_entries_infallible {E A} (f : A → result E bool) ds : (∀ d, infallible (f d)) → infallible (filter_entries f ds).
Proof. intros Hf. induction ds as [|[id d] ds IH]; cbn [filter_entries]; infallible. Qed.

Lemma active_declarations_infallible {E} sdp epoch params : infallible (active_declarations (E:=E) sdp epoch params).
Proof.
  unfold active_declarations. induction (map_to_list (services sdp)) as [|p l IH]; cbn [foldr]; infallible.
  apply filter_entries_infallible. intros d. unfold is_active. infallible.
Qed.

Lemma stake_inference_infallible {E} i stake density : infallible (total_stake_inference (E:=E) i stake density).
Proof. apply infer_stake_infallible. Qed.

Lemma after_epoch_infallible {E} eras epoch : infallible (after_epoch (E:=E) eras epoch).
Proof. unfold after_epoch, total_stake_inference_period. infallible. Qed.

Lemma density_new_infallible {E} epoch eras : infallible (density_new (E:=E) epoch eras).
Proof. unfold density_new, of_epoch_starting_at, next_epoch_snapshot, total_stake_inference_period. infallible. Qed.

Lemma lottery_values_infallible {E} (c : Config Params) stake : infallible (lottery_values (E:=E) c stake).
Proof. unfold lottery_values, compute_lottery_values. infallible. Qed.

Lemma blend_difficulty_infallible {E} load previous c : infallible (compute_epoch_blend_difficulty (E:=E) load previous c).
Proof. unfold compute_epoch_blend_difficulty, damping_exponent, clamp. infallible. Qed.

#[local] Hint Resolve active_declarations_infallible stake_inference_infallible after_epoch_infallible density_new_infallible
  lottery_values_infallible blend_difficulty_infallible : infallible.

Lemma infer_skipped_infallible {E} eras n : ∀ epoch stake, infallible (infer_skipped (E:=E) eras n epoch stake).
Proof. induction n as [|n IH]; intros epoch stake; cbn [infer_skipped]; infallible. Qed.

Lemma storage_skipped_infallible {E} eras n : ∀ epoch price ema, infallible (storage_skipped (E:=E) eras n epoch price ema).
Proof. induction n as [|n IH]; intros epoch price ema; cbn [storage_skipped]; infallible. Qed.

Lemma snapshot_now_infallible {E} l sdp eras epoch d st x0 x1 : infallible (snapshot_now (E:=E) l sdp eras epoch d st x0 x1).
Proof. unfold snapshot_now. infallible. Qed.

Lemma update_from_ledger_infallible {E} es l sdp pow eras : infallible (update_from_ledger (E:=E) es l sdp pow eras).
Proof. unfold update_from_ledger, nonce_snapshot, next_epoch_snapshot, stake_distribution_snapshot. infallible. Qed.

#[local] Hint Resolve infer_skipped_infallible storage_skipped_infallible snapshot_now_infallible update_from_ledger_infallible : infallible.

(** The only error of the transition is a slot that is not after the last. *)
Lemma update_epoch_state_err l slot sdp pow eras e : update_epoch_state (Id:=Id) l slot sdp pow eras = Err e →
  slot <= cl_slot l ∧ e = InvalidSlot (cl_slot l) slot.
Proof.
  unfold update_epoch_state. destruct (Z.leb_spec slot (cl_slot l)); [by intros [= <-]|].
  intros Herr. exfalso. match type of Herr with ?r = _ => assert (infallible r) as Hi end; [|by rewrite Herr in Hi].
  clear Herr. infallible.
Qed.

(** What a header does to the epochs. *)
Lemma update_epoch_state_ok l slot sdp pow eras l' : epochs_ok eras l →
  update_epoch_state (Id:=Id) l slot sdp pow eras = Ok l' →
  epochs_ok eras l' ∧ cl_slot l < slot ∧ cl_slot l' = slot ∧ cl_utxos l' = cl_utxos l ∧ cl_nonce l' = cl_nonce l ∧
  cl_fee_window l' = cl_fee_window l.
Proof.
  intros [Hs He Hn (Hu & Hue & Hun)] Hup. unfold update_epoch_state in Hup. destruct (Z.leb_spec slot (cl_slot l)) as [|Hlt]; [done|].
  rewrite He in Hup. cbn [mbind result_bind] in Hup. peel Hup as e Hslot.
  peel Hup as nx Hnx. apply update_from_ledger_ok in Hnx as [Hnx Hnu].
  assert (ks_ok (es_utxos nx)) as Hok by (by destruct Hnu as [-> | ->]).
  destruct (Z.eqb_spec (es_epoch (cl_epoch_state l)) e) as [Heq|Hne].
  { injection Hup as <-. split_and!; cbn; [split; cbn; [lia|congruence|congruence|done]|done..]. }
  peel Hup as following Hf. apply strict_add_ok in Hf as [-> _].
  peel Hup as inf _. peel Hup as stake _.
  peel Hup as cc _.
  destruct (Z.eqb_spec e (es_epoch (cl_epoch_state l) + 1)) as [Hfol|Hskip].
  - peel Hup as nc _. peel Hup as [l0 l1] _.
    peel Hup as de _. peel Hup as ne Hne'.
    apply strict_add_ok in Hne' as [-> _]. peel Hup as nxt Hnxt.
    peel Hup as [pr em] _. apply snapshot_now_ok in Hnxt as [Hn1 Hn2]. injection Hup as <-.
    split_and!; cbn; [split; cbn; [lia|congruence|congruence|by rewrite Hn2]|done..].
  - peel Hup as sk _. peel Hup as nc _.
    peel Hup as [l0 l1] _. peel Hup as [pr em] _.
    peel Hup as [pr' em'] _. peel Hup as de _.
    peel Hup as es Hes. peel Hup as ne Hne'.
    apply strict_add_ok in Hne' as [-> _]. peel Hup as nxt Hnxt.
    apply snapshot_now_ok in Hnxt as [Hn1 Hn2]. apply snapshot_now_ok in Hes as [He1 He2]. injection Hup as <-.
    split_and!; cbn; [split; cbn; [lia|congruence|congruence|by rewrite Hn2, He2]|done..].
Qed.

(** Prices stay unsigned over a transition. *)
Lemma storage_market_nonneg {E} price consumed ema m price' ema' : 0 <= price →
  update_storage_market (E:=E) price consumed ema m = Ok (price', ema') → 0 <= price'.
Proof.
  intros Hp Hu. unfold update_storage_market in Hu. inv_ok Hu; simplify_eq; try done; apply Z.mod_pos_bound; lia.
Qed.

Lemma storage_skipped_nonneg {E} eras n : ∀ epoch price ema price' ema', 0 <= price →
  storage_skipped (E:=E) eras n epoch price ema = Ok (price', ema') → 0 <= price'.
Proof.
  induction n as [|n IH]; intros epoch price ema price' ema' Hp Hs; cbn [storage_skipped] in Hs; [by injection Hs as <- <-|].
  peel Hs as c Hc. peel Hs as [p1 e1] Hu. apply storage_market_nonneg in Hu; [|done]. by eapply IH.
Qed.

Lemma update_epoch_state_market l slot sdp pow eras l' : 0 <= cl_storage_gas_price l → 0 <= cl_storage_gas_consumed l →
  update_epoch_state (Id:=Id) l slot sdp pow eras = Ok l' →
  0 <= cl_storage_gas_price l' ∧ 0 <= cl_storage_gas_consumed l' ∧ cl_average_execution_gas l' = cl_average_execution_gas l ∧
  cl_execution_base_fee l' = cl_execution_base_fee l.
Proof.
  intros Hp Hc Hup. unfold update_epoch_state in Hup. destruct (_ <=? _); [done|]. peel Hup as e He. peel Hup as e' He'. peel Hup as nx Hnx.
  destruct (_ =? _); [by injection Hup as <-|]. peel Hup as f Hf. peel Hup as inf Hi. peel Hup as st Hst. peel Hup as cc Hcc.
  destruct (_ =? _).
  - peel Hup as nc Hnc. peel Hup as [x0 x1] Hl. peel Hup as de Hde. peel Hup as ne Hne. peel Hup as nxt Hnxt. peel Hup as [pr em] Hpr.
    apply storage_market_nonneg in Hpr; [|done]. by injection Hup as <-.
  - peel Hup as sk Hsk. peel Hup as nc Hnc. peel Hup as [x0 x1] Hl. peel Hup as [pr em] Hpr. apply storage_market_nonneg in Hpr; [|done].
    peel Hup as [pr' em'] Hpr'. apply storage_skipped_nonneg in Hpr'; [|done]. peel Hup as de Hde. peel Hup as es Hes. peel Hup as ne Hne.
    peel Hup as nxt Hnxt. by injection Hup as <-.
Qed.

(** The snapshots of the next epoch, once their slot is past. *)
Lemma update_from_ledger_frozen {E} es l sdp pow eras es' start ns : update_from_ledger (E:=E) es l sdp pow eras = Ok es' →
  stake_distribution_snapshot (E:=E) eras (es_epoch es) = Ok start → nonce_snapshot (E:=E) eras (es_epoch es) = Ok ns →
  (start <= cl_slot l → es_utxos es' = es_utxos es ∧ active_declarations_of es' = active_declarations_of es) ∧
  (ns <= cl_slot l → es_nonce es' = es_nonce es ∧ blend_pow_difficulty es' = blend_pow_difficulty es).
Proof.
  unfold update_from_ledger. intros Hu Hst Hns. peel Hu as c Hc. peel Hu as [] Ha. rewrite Hns in Hu. cbn [mbind result_bind] in Hu.
  peel Hu as [nonce d] Hn. rewrite Hst in Hu. cbn [mbind result_bind] in Hu. peel Hu as [u ds] Hx. injection Hu as <-. cbn.
  split; intros Hle.
  - rewrite (proj2 (Z.ltb_ge _ _)) in Hx by done. by injection Hx as <- <-.
  - rewrite (proj2 (Z.ltb_ge _ _)) in Hn by done. by injection Hn as <- <-.
Qed.

Lemma update_from_ledger_snapshots {E} es l sdp pow eras es' : update_from_ledger (E:=E) es l sdp pow eras = Ok es' →
  ∃ start ns, stake_distribution_snapshot (E:=E) eras (es_epoch es) = Ok start ∧ nonce_snapshot (E:=E) eras (es_epoch es) = Ok ns.
Proof.
  unfold update_from_ledger. intros Hu. peel Hu as c Hc. peel Hu as [] Ha. peel Hu as ns Hns. peel Hu as [nonce d] Hn.
  peel Hu as st Hst. eauto.
Qed.

(** The slot of the nonce snapshot of the next epoch is past. *)
Definition nonce_fixed eras l : Prop :=
  ∃ ns, nonce_snapshot (E:=LedgerError Id) eras (es_epoch (cl_next_epoch_state l)) = Ok ns ∧ ns <= cl_slot l.

(** What the blocks of an epoch leave of the epoch states. *)
Record frozen eras l l' : Prop := {
  fr_epoch : cl_epoch_state l' = cl_epoch_state l;
  fr_slot : cl_slot l <= cl_slot l';
  fr_next : es_epoch (cl_next_epoch_state l') = es_epoch (cl_next_epoch_state l);
  fr_stake : es_utxos (cl_next_epoch_state l') = es_utxos (cl_next_epoch_state l);
  fr_declarations : active_declarations_of (cl_next_epoch_state l') = active_declarations_of (cl_next_epoch_state l);
  fr_nonce : nonce_fixed eras l → es_nonce (cl_next_epoch_state l') = es_nonce (cl_next_epoch_state l)
}.

(** The next epoch state before it is used or stored, from a block of its
    predecessor. *)
Lemma next_frozen l l1 sdp pow eras nx : wf_schedule eras → epochs_ok eras l1 → frozen eras l l1 →
  update_from_ledger (E:=LedgerError Id) (cl_next_epoch_state l1) l1 sdp pow eras = Ok nx →
  es_epoch nx = es_epoch (cl_next_epoch_state l) ∧ es_utxos nx = es_utxos (cl_next_epoch_state l) ∧
  active_declarations_of nx = active_declarations_of (cl_next_epoch_state l) ∧
  (nonce_fixed eras l → es_nonce nx = es_nonce (cl_next_epoch_state l)).
Proof.
  intros WF [Hs He Hn _] [Hf1 Hf2 Hf3 Hf4 Hf5 Hf6] Hu.
  destruct (update_from_ledger_snapshots _ _ _ _ _ _ Hu) as (start & ns & Hst & Hns).
  destruct (update_from_ledger_frozen _ _ _ _ _ _ start ns Hu Hst Hns) as [Hfs Hfn].
  apply update_from_ledger_ok in Hu as [Hep _]. assert (start <= cl_slot l1) as Hle.
  { unfold stake_distribution_snapshot in Hst. rewrite Hn in Hst. peel Hst as p Hp. apply strict_sub_ok in Hp as [-> _].
    replace (es_epoch (cl_epoch_state l1) + 1 - 1) with (es_epoch (cl_epoch_state l1)) in Hst by lia.
    by eapply (starting_slot_before eras). }
  destruct (Hfs Hle) as [-> ->]. split_and!; [congruence|done..|]. intros Hfix. pose proof Hfix as (ns' & Hns' & Hle').
  rewrite Hf3, Hns' in Hns. injection Hns as <-. destruct (Hfn ltac:(lia)) as [-> _]. by apply Hf6.
Qed.

(** Within an epoch a header keeps the epoch state and stores the next one. *)
Lemma update_same_epoch l slot sdp pow eras l' e : update_epoch_state (Id:=Id) l slot sdp pow eras = Ok l' →
  epoch_for_slot (E:=LedgerError Id) eras (cl_slot l) = Ok e → epoch_for_slot (E:=LedgerError Id) eras slot = Ok e →
  cl_epoch_state l' = cl_epoch_state l ∧
  update_from_ledger (E:=LedgerError Id) (cl_next_epoch_state l) l sdp pow eras = Ok (cl_next_epoch_state l').
Proof.
  unfold update_epoch_state. intros Hup He He'. destruct (_ <=? _); [done|]. rewrite He, He' in Hup. cbn [mbind result_bind] in Hup.
  peel Hup as nx Hnx. rewrite Z.eqb_refl in Hup. injection Hup as <-. done.
Qed.

(** The first header of the next epoch takes up the state prepared for it. *)
Lemma update_next_epoch l slot sdp pow eras l' e : update_epoch_state (Id:=Id) l slot sdp pow eras = Ok l' →
  epoch_for_slot (E:=LedgerError Id) eras (cl_slot l) = Ok e → epoch_for_slot (E:=LedgerError Id) eras slot = Ok (e + 1) →
  ∃ nx, update_from_ledger (E:=LedgerError Id) (cl_next_epoch_state l) l sdp pow eras = Ok nx ∧
    es_utxos (cl_epoch_state l') = es_utxos nx ∧ es_nonce (cl_epoch_state l') = es_nonce nx ∧
    active_declarations_of (cl_epoch_state l') = active_declarations_of nx ∧
    blend_pow_difficulty (cl_epoch_state l') = blend_pow_difficulty nx ∧
    es_utxos (cl_next_epoch_state l') = cl_utxos l ∧ cl_previous_epoch_nonce l' = es_nonce (cl_epoch_state l).
Proof.
  unfold update_epoch_state. intros Hup He He'. destruct (_ <=? _); [done|]. rewrite He, He' in Hup. cbn [mbind result_bind] in Hup.
  peel Hup as nx Hnx. rewrite (proj2 (Z.eqb_neq _ _)) in Hup by lia. peel Hup as f Hf. apply strict_add_ok in Hf as [-> _].
  peel Hup as inf Hi. peel Hup as st Hst. peel Hup as cc Hcc. rewrite Z.eqb_refl in Hup. peel Hup as nc Hnc. peel Hup as [x0 x1] Hl.
  peel Hup as de Hde. peel Hup as ne Hne. peel Hup as nxt Hnxt. peel Hup as [pr em] Hp. apply snapshot_now_ok in Hnxt as [_ Hu].
  injection Hup as <-. exists nx. cbn. split_and!; done.
Qed.

(** The first header of any later epoch takes the next snapshots from its parent, and
    after skipped epochs its own too. *)
Lemma update_new_epoch l slot sdp pow eras l' e e' : update_epoch_state (Id:=Id) l slot sdp pow eras = Ok l' →
  epoch_for_slot (E:=LedgerError Id) eras (cl_slot l) = Ok e → epoch_for_slot (E:=LedgerError Id) eras slot = Ok e' → e ≠ e' →
  es_utxos (cl_next_epoch_state l') = cl_utxos l ∧ es_nonce (cl_next_epoch_state l') = cl_nonce l ∧
  (e' ≠ e + 1 → es_utxos (cl_epoch_state l') = cl_utxos l ∧ es_nonce (cl_epoch_state l') = cl_nonce l).
Proof.
  unfold update_epoch_state. intros Hup He He' Hne. destruct (_ <=? _); [done|]. rewrite He, He' in Hup. cbn [mbind result_bind] in Hup.
  peel Hup as nx Hnx. rewrite (proj2 (Z.eqb_neq _ _)) in Hup by lia. peel Hup as f Hf. apply strict_add_ok in Hf as [-> _].
  peel Hup as inf Hi. peel Hup as st Hst. peel Hup as cc Hcc. destruct (Z.eqb_spec e' (e + 1)) as [->|Hskip].
  - peel Hup as nc Hnc. peel Hup as [x0 x1] Hl. peel Hup as de Hde. peel Hup as ne' Hne'. peel Hup as nxt Hnxt. peel Hup as [pr em] Hp.
    apply snapshot_now_from in Hnxt as [Hu Hn]. injection Hup as <-. cbn. split_and!; [done..|lia].
  - peel Hup as sk Hsk. peel Hup as nc Hnc. peel Hup as [x0 x1] Hl. peel Hup as [pr em] Hpr. peel Hup as [pr' em'] Hpr'. peel Hup as de Hde. peel Hup as es Hes.
    peel Hup as ne' Hne'. peel Hup as nxt Hnxt. apply snapshot_now_from in Hnxt as [Hu Hn], Hes as [Hu' Hn']. injection Hup as <-. cbn. by split_and!.
Qed.

(** ** Headers *)

(** The values of the proof check cannot be computed wrongly: the epoch state is
    that of the slot, and the roots exist. *)
Lemma try_apply_proof_verdict l proof eras : epochs_ok eras l →
  ∃ aged latest, try_apply_proof (Id:=Id) l (cl_slot l) proof eras =
    if lp_verify proof (mkLeaderPublic (cl_slot l) (es_nonce (cl_epoch_state l)) (lottery_0 (cl_epoch_state l))
                          (lottery_1 (cl_epoch_state l)) aged latest)
    then Ok l else Err InvalidLeaderProof.
Proof.
  intros [_ He _ (Hu & Hue & _)]. unfold try_apply_proof. rewrite He. cbn [mbind result_bind]. rewrite Z.eqb_refl. cbn [assert_ mbind result_bind].
  destruct (ks_root_ok (E:=LedgerError Id) _ Hue) as (aged & Ha). destruct (ks_root_ok (E:=LedgerError Id) _ Hu) as (latest & Hb).
  exists aged, latest. unfold NoteId in Ha, Hb. by rewrite Ha, Hb.
Qed.

(** The header as a whole. *)
Lemma apply_header_ok l slot proof uncles sdp pow eras l' : epochs_ok eras l →
  cryptarchia_apply_header (Id:=Id) l slot proof uncles sdp pow eras = Ok l' →
  ∃ l1, update_epoch_state (Id:=Id) l slot sdp pow eras = Ok l1 ∧ epochs_ok eras l' ∧ cl_slot l < slot ∧ cl_slot l' = slot ∧
    cl_utxos l' = cl_utxos l ∧ cl_epoch_state l' = cl_epoch_state l1 ∧ cl_next_epoch_state l' = cl_next_epoch_state l1 ∧
    cl_fee_window l' = cl_fee_window l ∧ cl_nonce l' = zk_digest [EPOCH_NONCE_V1; cl_nonce l; lp_entropy proof; slot] ∧
    cl_storage_gas_price l' = cl_storage_gas_price l1 ∧ cl_storage_gas_consumed l' = cl_storage_gas_consumed l1 ∧
    cl_average_execution_gas l' = cl_average_execution_gas l1 ∧ cl_execution_base_fee l' = cl_execution_base_fee l1.
Proof.
  intros Hok Hh. unfold cryptarchia_apply_header, update_epoch_state_and_apply_proof in Hh. peel Hh as l2 Hl2. injection Hh as <-.
  peel Hl2 as l1 Hl1. exists l1. destruct (update_epoch_state_ok _ _ _ _ _ _ Hok Hl1) as (Hok1 & Hlt & Hs & Hu & Hn & Hf).
  assert (l2 = l1) as ->.
  { destruct (try_apply_proof_verdict l1 proof eras Hok1) as (a & b & Hv). rewrite Hs in Hv. rewrite Hv in Hl2.
    destruct (lp_verify _ _); [by injection Hl2|done]. }
  split; [done|]. destruct Hok1. split_and!; cbn; try done; by rewrite Hn.
Qed.

(** A header keeps the epoch states in step with the slot: it is refused
    exactly for a slot that does not advance or a proof that does not verify;
    accepted, it moves to its slot and to the epoch of that slot, never back; the
    assertion of the proof check cannot fail, so a panic is one of the arithmetic
    of the epoch transition. *)
Theorem header_epochs l slot proof uncles sdp pow eras : wf_schedule eras → epochs_ok eras l →
  match cryptarchia_apply_header (Id:=Id) l slot proof uncles sdp pow eras with
  | Ok l' => cl_slot l < slot ∧ cl_slot l' = slot ∧ epochs_ok eras l' ∧ cl_utxos l' = cl_utxos l ∧
      es_epoch (cl_epoch_state l) <= es_epoch (cl_epoch_state l')
  | Err e => slot <= cl_slot l ∧ e = InvalidSlot (cl_slot l) slot ∨ cl_slot l < slot ∧ e = InvalidLeaderProof
  | Fault f => cl_slot l < slot ∧ update_epoch_state (Id:=Id) l slot sdp pow eras = Fault f
  end.
Proof.
  intros WF Hok. destruct (cryptarchia_apply_header _ _ _ _ _ _ _) as [l'|e|f] eqn:Hh.
  - destruct (apply_header_ok _ _ _ _ _ _ _ _ Hok Hh) as (lu & _ & Hok' & Hlt & Hs & Hu & _). split_and!; [done..|].
    pose proof (eo_epoch _ _ Hok) as He. pose proof (eo_epoch _ _ Hok') as He'. pose proof (eo_slot _ _ Hok).
    eapply (epoch_for_slot_mono eras); [done| |done..]. lia.
  - unfold cryptarchia_apply_header, update_epoch_state_and_apply_proof in Hh.
    destruct (update_epoch_state _ _ _ _ _) as [lu|e'|f'] eqn:Hup; cbn [mbind result_bind] in Hh; [|left|done].
    + right. destruct (update_epoch_state_ok _ _ _ _ _ _ Hok Hup) as (Hok1 & Hlt & Hs & _). split; [done|].
      destruct (try_apply_proof_verdict lu proof eras Hok1) as (a & b & Hv). rewrite Hs in Hv. rewrite Hv in Hh.
      destruct (lp_verify _ _); [done|]. by injection Hh as <-.
    + injection Hh as <-. by apply update_epoch_state_err in Hup.
  - unfold cryptarchia_apply_header, update_epoch_state_and_apply_proof in Hh.
    destruct (update_epoch_state _ _ _ _ _) as [lu|e'|f'] eqn:Hup; cbn [mbind result_bind] in Hh; [|done|].
    + destruct (update_epoch_state_ok _ _ _ _ _ _ Hok Hup) as (Hok1 & Hlt & Hs & _).
      destruct (try_apply_proof_verdict lu proof eras Hok1) as (a & b & Hv). rewrite Hs in Hv. rewrite Hv in Hh.
      by destruct (lp_verify _ _).
    + injection Hh as <-. split; [|done]. unfold update_epoch_state in Hup. destruct (Z.leb_spec slot (cl_slot l)); [done|lia].
Qed.

(** ** Runs within an epoch *)

(** What the transactions of a block leave unchanged. *)
Record same_epochs l l' : Prop := {
  sa_slot : cl_slot l' = cl_slot l;
  sa_nonce : cl_nonce l' = cl_nonce l;
  sa_epoch : cl_epoch_state l' = cl_epoch_state l;
  sa_next : cl_next_epoch_state l' = cl_next_epoch_state l;
  sa_store : ks_ok (cl_utxos l')
}.

Lemma declarations_ok_same l l' : declarations_ok l → same_epochs l l' → declarations_ok l'.
Proof. intros Hd [_ _ He Hn _]. unfold declarations_ok. by rewrite He, Hn. Qed.

(** Headers of the epoch of [l], each followed by its transactions. *)
Inductive epoch_run eras l : Cryptarchia T → Prop :=
  | run_start : epoch_run eras l l
  | run_header l1 slot proof uncles sdp pow l2 :
      epoch_run eras l l1 → cryptarchia_apply_header (Id:=Id) l1 slot proof uncles sdp pow eras = Ok l2 →
      es_epoch (cl_epoch_state l2) = es_epoch (cl_epoch_state l1) → epoch_run eras l l2
  | run_contents l1 l2 : epoch_run eras l l1 → same_epochs l1 l2 → epoch_run eras l l2.

Lemma epochs_ok_same eras l l' : epochs_ok eras l → same_epochs l l' → epochs_ok eras l'.
Proof. intros [? ? ? (? & ? & ?)] [Hs Hn He Hnx ?]. split; rewrite ?Hs, ?He, ?Hnx; done. Qed.

Lemma header_same_epoch l l1 slot proof uncles sdp pow eras l2 : wf_schedule eras → epochs_ok eras l1 → frozen eras l l1 →
  cryptarchia_apply_header (Id:=Id) l1 slot proof uncles sdp pow eras = Ok l2 →
  es_epoch (cl_epoch_state l2) = es_epoch (cl_epoch_state l1) → epochs_ok eras l2 ∧ frozen eras l l2.
Proof.
  intros WF Hok Hf Hh Heq. destruct (apply_header_ok _ _ _ _ _ _ _ _ Hok Hh) as (lu & Hup & Hok2 & Hlt & Hs & _ & He & Hn & _).
  split; [done|]. pose proof (eo_epoch _ _ Hok) as He1. pose proof (eo_epoch _ _ Hok2) as He2. rewrite Hs, Heq in He2.
  destruct (update_same_epoch _ _ _ _ _ _ _ Hup He1 He2) as [Hsame Hnx].
  destruct (next_frozen l l1 sdp pow eras _ WF Hok Hf Hnx) as (? & ? & ? & Hno). destruct Hf.
  split; rewrite ?He, ?Hn, ?Hs; try done; [congruence|lia].
Qed.

Lemma epoch_run_frozen eras l l' : wf_schedule eras → epochs_ok eras l → epoch_run eras l l' → epochs_ok eras l' ∧ frozen eras l l'.
Proof.
  intros WF Hok. induction 1 as [|l1 slot proof uncles sdp pow l2 _ [Hok1 Hf1] Hh He|l1 l2 _ [Hok1 Hf1] Hs].
  - split; [done|]. split; done || lia.
  - by eapply header_same_epoch.
  - split; [by eapply epochs_ok_same|]. destruct Hs as [Hs _ He Hn _]. destruct Hf1. split; rewrite ?Hs, ?He, ?Hn; done.
Qed.

(** The first header of the next epoch, after a run within an epoch. *)
Lemma next_epoch_frozen eras l l1 slot proof uncles sdp pow l2 : wf_schedule eras → epochs_ok eras l → epoch_run eras l l1 →
  cryptarchia_apply_header (Id:=Id) l1 slot proof uncles sdp pow eras = Ok l2 →
  es_epoch (cl_epoch_state l2) = es_epoch (cl_epoch_state l1) + 1 →
  es_utxos (cl_epoch_state l2) = es_utxos (cl_next_epoch_state l) ∧
  active_declarations_of (cl_epoch_state l2) = active_declarations_of (cl_next_epoch_state l) ∧
  (nonce_fixed eras l → es_nonce (cl_epoch_state l2) = es_nonce (cl_next_epoch_state l)).
Proof.
  intros WF Hok Hrun Hh Heq. destruct (epoch_run_frozen eras l l1 WF Hok Hrun) as [Hok1 Hf].
  destruct (apply_header_ok _ _ _ _ _ _ _ _ Hok1 Hh) as (lu & Hup & Hok2 & Hlt & Hs & _ & He & Hn & _).
  pose proof (eo_epoch _ _ Hok1) as He1. pose proof (eo_epoch _ _ Hok2) as He2. rewrite Hs, Heq in He2.
  destruct (update_next_epoch _ _ _ _ _ _ _ Hup He1 He2) as (nx & Hnx & Hu & Hno & Hd & _).
  destruct (next_frozen l l1 sdp pow eras nx WF Hok1 Hf Hnx) as (_ & Hu' & Hd' & Hn').
  rewrite He. split_and!; [congruence..|]. intros Hle. specialize (Hn' Hle). congruence.
Qed.

(** A header after a run within an epoch, and the epochs it is between. *)
Lemma header_epoch_change eras l l1 slot proof uncles sdp pow l2 : wf_schedule eras → epochs_ok eras l → epoch_run eras l l1 →
  cryptarchia_apply_header (Id:=Id) l1 slot proof uncles sdp pow eras = Ok l2 → es_epoch (cl_epoch_state l2) ≠ es_epoch (cl_epoch_state l1) →
  epochs_ok eras l1 ∧ epochs_ok eras l2 ∧ es_utxos (cl_next_epoch_state l2) = cl_utxos l1 ∧ es_nonce (cl_next_epoch_state l2) = cl_nonce l1 ∧
  (es_epoch (cl_epoch_state l2) ≠ es_epoch (cl_epoch_state l1) + 1 → es_utxos (cl_epoch_state l2) = cl_utxos l1 ∧ es_nonce (cl_epoch_state l2) = cl_nonce l1).
Proof.
  intros WF Hok Hrun Hh Hne. destruct (epoch_run_frozen eras l l1 WF Hok Hrun) as [Hok1 _].
  destruct (apply_header_ok _ _ _ _ _ _ _ _ Hok1 Hh) as (lu & Hup & Hok2 & Hlt & Hs & _ & Hce & Hcn & _).
  pose proof (eo_epoch _ _ Hok1) as He1. pose proof (eo_epoch _ _ Hok2) as He2. rewrite Hs in He2.
  destruct (update_new_epoch _ _ _ _ _ _ _ _ Hup He1 He2 (not_eq_sym Hne)) as (Hu & Hn & Hsk). rewrite <- Hcn in Hu, Hn. rewrite <- Hce in Hsk. done.
Qed.

(** C23: the stake an epoch's lottery runs on is the set of notes as the epoch before it
    began, and does not change within the epoch. [l0] is the state before the first
    block of the epoch of [l1], and [l2] follows the first block of a later epoch: the
    aged notes are those of [l0] when this is the following epoch, whatever the blocks
    in between did, and those of [l1] when epochs without blocks were skipped. *)
Theorem stake_snapshot_frozen eras l0 slot0 proof0 uncles0 sdp0 pow0 l l1 slot proof uncles sdp pow l2 :
  wf_schedule eras → epochs_ok eras l0 →
  cryptarchia_apply_header (Id:=Id) l0 slot0 proof0 uncles0 sdp0 pow0 eras = Ok l →
  es_epoch (cl_epoch_state l) ≠ es_epoch (cl_epoch_state l0) → epoch_run eras l l1 →
  cryptarchia_apply_header (Id:=Id) l1 slot proof uncles sdp pow eras = Ok l2 →
  es_epoch (cl_epoch_state l2) ≠ es_epoch (cl_epoch_state l1) →
  es_utxos (cl_epoch_state l2) = cl_utxos (if es_epoch (cl_epoch_state l2) =? es_epoch (cl_epoch_state l1) + 1 then l0 else l1) ∧
  ∀ l3, epoch_run eras l2 l3 → cl_epoch_state l3 = cl_epoch_state l2.
Proof.
  intros WF Hok0 Hh0 He0 Hrun Hh He. destruct (header_epoch_change eras l0 l0 slot0 proof0 uncles0 sdp0 pow0 l WF Hok0 (run_start _ _) Hh0 He0) as (_ & Hok & Hu & _).
  destruct (header_epoch_change eras l l1 slot proof uncles sdp pow l2 WF Hok Hrun Hh He) as (Hok1 & Hok2 & _ & _ & Hsk). split.
  - destruct (Z.eqb_spec (es_epoch (cl_epoch_state l2)) (es_epoch (cl_epoch_state l1) + 1)) as [Heq|Hn]; [|by apply Hsk].
    destruct (next_epoch_frozen eras l l1 slot proof uncles sdp pow l2 WF Hok Hrun Hh Heq) as [-> _]. done.
  - intros l3 Hr. by destruct (epoch_run_frozen eras l2 l3 WF Hok2 Hr) as [_ []].
Qed.

Lemma nonce_taken {E} es l sdp pow eras es' ns : update_from_ledger (E:=E) es l sdp pow eras = Ok es' → nonce_snapshot (E:=E) eras (es_epoch es) = Ok ns →
  cl_slot l < ns → es_nonce es' = cl_nonce l.
Proof.
  intros Hnx Hns Hlt. unfold update_from_ledger in Hnx. peel Hnx as c Hc. peel Hnx as [] Ha. rewrite Hns in Hnx. cbn [mbind result_bind] in Hnx.
  rewrite (proj2 (Z.ltb_lt _ _) Hlt) in Hnx. peel Hnx as [n d] Hd. peel Hd as x Hx. injection Hd as <- <-. peel Hnx as st Hst.
  peel Hnx as [u ds] Hud. apply Ok_inj in Hnx. by rewrite <- Hnx.
Qed.

(** The nonce of the next epoch, prepared by the first block from the snapshot slot on,
    in the epoch of its parent or in a later one. *)
Lemma nonce_prepared eras l ns slot proof uncles sdp pow l' : epochs_ok eras l → cryptarchia_apply_header (Id:=Id) l slot proof uncles sdp pow eras = Ok l' →
  nonce_snapshot (E:=LedgerError Id) eras (es_epoch (cl_epoch_state l') + 1) = Ok ns → cl_slot l < ns <= slot →
  es_nonce (cl_next_epoch_state l') = cl_nonce l ∧ nonce_fixed eras l'.
Proof.
  intros Hok Hh Hns [Hlt Hge]. destruct (apply_header_ok _ _ _ _ _ _ _ _ Hok Hh) as (lu & Hup & Hok' & _ & Hs & _ & Hce & Hcn & _).
  assert (nonce_fixed eras l') as Hfix by (exists ns; rewrite (eo_next _ _ Hok'), Hs; done). split; [|done].
  pose proof (eo_epoch _ _ Hok) as Hep. pose proof (eo_epoch _ _ Hok') as Hep'. rewrite Hs in Hep'. rewrite Hcn.
  destruct (decide (es_epoch (cl_epoch_state l) = es_epoch (cl_epoch_state l'))) as [Heq|Hne].
  - rewrite <- Heq in Hep', Hns. destruct (update_same_epoch _ _ _ _ _ _ _ Hup Hep Hep') as [_ Hnx]. eapply nonce_taken; [exact Hnx| |done]. by rewrite (eo_next _ _ Hok).
  - by destruct (update_new_epoch _ _ _ _ _ _ _ _ Hup Hep Hep' Hne) as (_ & -> & _).
Qed.

(** C24: the nonce of an epoch is that of the last block before the snapshot slot, which
    lies in the epoch before it: no block from that slot on contributes to it. [l1] is
    the last state before the new epoch, [l'] an earlier one of the same epoch and [l]
    its parent, of this epoch or another. When [l'] is the first block from the slot
    on, the nonce is that of [l]; when there is none, or the epoch before was skipped,
    it is that of [l1]. Within the epoch it does not change. *)
Theorem nonce_snapshot_frozen eras l ns slot proof uncles sdp pow l' l1 slot' proof' uncles' sdp' pow' l2 :
  wf_schedule eras → epochs_ok eras l → cryptarchia_apply_header (Id:=Id) l slot proof uncles sdp pow eras = Ok l' →
  nonce_snapshot (E:=LedgerError Id) eras (es_epoch (cl_epoch_state l') + 1) = Ok ns → epoch_run eras l' l1 →
  cryptarchia_apply_header (Id:=Id) l1 slot' proof' uncles' sdp' pow' eras = Ok l2 →
  es_epoch (cl_epoch_state l2) ≠ es_epoch (cl_epoch_state l1) →
  (es_epoch (cl_epoch_state l2) = es_epoch (cl_epoch_state l1) + 1 → cl_slot l < ns <= slot → es_nonce (cl_epoch_state l2) = cl_nonce l) ∧
  (es_epoch (cl_epoch_state l2) = es_epoch (cl_epoch_state l1) + 1 → cl_slot l1 < ns → es_nonce (cl_epoch_state l2) = cl_nonce l1) ∧
  (es_epoch (cl_epoch_state l2) ≠ es_epoch (cl_epoch_state l1) + 1 → es_nonce (cl_epoch_state l2) = cl_nonce l1) ∧
  ∀ l3, epoch_run eras l2 l3 → cl_epoch_state l3 = cl_epoch_state l2.
Proof.
  intros WF Hok Hh Hns Hrun Hh2 Hne. destruct (apply_header_ok _ _ _ _ _ _ _ _ Hok Hh) as (_ & _ & Hok' & _).
  destruct (header_epoch_change eras l' l1 slot' proof' uncles' sdp' pow' l2 WF Hok' Hrun Hh2 Hne) as (Hok1 & Hok2 & _ & _ & Hsk). split_and!.
  - intros He2 Hb. destruct (nonce_prepared eras l ns slot proof uncles sdp pow l' Hok Hh Hns Hb) as [Hn Hfix].
    destruct (next_epoch_frozen eras l' l1 slot' proof' uncles' sdp' pow' l2 WF Hok' Hrun Hh2 He2) as (_ & _ & ->); done.
  - intros He2 Hlt. destruct (epoch_run_frozen eras l' l1 WF Hok' Hrun) as [_ [Hce _ _ _ _ _]].
    destruct (apply_header_ok _ _ _ _ _ _ _ _ Hok1 Hh2) as (lu & Hup & _ & _ & Hs & _ & Hce2 & _). pose proof (eo_epoch _ _ Hok1) as Hep. pose proof (eo_epoch _ _ Hok2) as Hep2.
    rewrite Hs, He2 in Hep2. destruct (update_next_epoch _ _ _ _ _ _ _ Hup Hep Hep2) as (nx & Hnx & _ & Hno & _). rewrite Hce2, Hno.
    eapply nonce_taken; [exact Hnx| |done]. by rewrite (eo_next _ _ Hok1), Hce.
  - intros Hn. by apply Hsk.
  - intros l3 Hr. by destruct (epoch_run_frozen eras l2 l3 WF Hok2 Hr) as [_ []].
Qed.

End Epochs.

End ConsensusFacts.
