(* ===== verification/Ledger.v ===== *)
(** * The ledger: ledger/src/lib.rs and ledger/src/mantle/mod.rs

    The state of a block is the consensus ledger, the Mantle ledger and the block
    number. A block is applied header first, then its transactions: each
    operation is verified against the state its predecessors left, priced, and
    executed; fees become the rewards of the block. The ledger keeps one state
    per block. *)

From S2P Require Import Prelude Era EngineConfig MerkleStore Codec Ops Utxos Channels ServiceNotes Inputs ChannelOps SignedTx SdpOps LedgerConfig ClaimOps TxVerification Leaders Pow Markets Cryptarchia.

#[local] Open Scope Z_scope.

Module Ledger.
Import Canonical Ops Utxos Channels ServiceNotes Inputs ChannelOps SignedTx SdpOps LedgerConfig ClaimOps TxVerification Leaders Pow Markets Cryptarchia.

(** ** The Mantle ledger *)

Record MantleLedger (R : Type) := mkMantle {
  m_channels : Channels;
  m_sdp : SdpLedger R;
  m_leaders : LeaderState;
  m_pow : PowState
}.

Arguments mkMantle {R}.
Arguments m_channels {R} _.
Arguments m_sdp {R} _.
Arguments m_leaders {R} _.
Arguments m_pow {R} _.

(** [blend::Rewards::new], from the parameters and the genesis epoch. *)
Class NewRewards (T R Params : Type) := { rw_new : ∀ {E}, Params → EpochState T → result E R }.

(** A new service has collected nothing. *)
Class NewRewardsLaws (T R Params : Type) `{!Rewards T R Params, !RewardsLaws T R Params, !NewRewards T R Params} : Prop := {
  rw_new_ok {E : Type} params es r : rw_new (E:=E) params es = Ok r → rw_ok r ∧ rw_income r = 0
}.

(** [LedgerState]. *)
Record LedgerState (T R : Type) := mkLedger {
  block_number : Z;
  cryptarchia_ledger : Cryptarchia T;
  mantle_ledger : MantleLedger R
}.

Arguments mkLedger {T R}.
Arguments block_number {T R} _.
Arguments cryptarchia_ledger {T R} _.
Arguments mantle_ledger {T R} _.

(** The conversion of the identifier of a block into its hash. *)
Class IntoBlockHash (Id : Type) := { into_block_hash : Id → Hash }.

(** [GasAndFees]. *)
Record GasAndFees := mkGasAndFees { gf_execution_gas : Z; gf_storage_gas : Z; gf_fee_burned : Z; gf_fee_tip : Z }.

Definition gas_and_fees_default : GasAndFees := mkGasAndFees 0 0 0 0.

(** [GasCost::checked_sub]. *)
Definition cost_sub (a b : Z) : result GasOverflow Z := ok_or (checked_sub a b) gas_overflow.

(** [Event]. *)
Inductive Event := EventHeader (e : HeaderEvent) | EventTx (e : TxEvent).

(** The number of proof-of-work claims among the events of a block. *)
Definition is_pow_claim (e : TxEvent) : bool := match te_payload e with PoWRewardClaimed _ _ => true | _ => false end.
Definition pow_claims (l : list TxEvent) : Z := Z.of_nat (length (filter is_pow_claim l)).

Section Mantle.
Context {T R Params : Type} `{!KeyedStoreOps T NoteId Utxo} `{!Rewards T R Params} `{!NewRewards T R Params}.
Context `{Poseidon2Crate} `{Blake2Crate} `{Ed25519Crate}.
Implicit Types (m : MantleLedger R) (c : Config Params) (eras : EraSchedule (Config Params)).

(** [LedgerState::new] of the Mantle ledger. *)
Definition mantle_new {E} c (pow_reward_pool : Z) (es : EpochState T) : result E (MantleLedger R) :=
  rewards ← rw_new (service_rewards_params (sdp_config c)) es;
  pow ← from_reward_pool_and_config pow_reward_pool c;
  Ok (mkMantle new_channels (sdp_new (es_epoch es) rewards) leaders_new pow).

(** [Channels::from_genesis]. *)
Definition channels_from_genesis {E} (op : InscriptionOp) : result E Channels := inscription_execute op new_channels 0.

(** [LedgerState::from_genesis_tx] of the Mantle ledger. *)
Definition mantle_from_genesis (inscription : InscriptionOp) (declarations : list DeclarationMessage) c (pow_reward_pool : Z)
    (utxos : T) (es : EpochState T) : result MantleError (MantleLedger R) :=
  channels ← channels_from_genesis inscription;
  rewards ← rw_new (service_rewards_params (sdp_config c)) es;
  sdp ← map_err MantleSdp
          (sdp_from_genesis (sdp_new (es_epoch es) rewards) utxos channels (sdp_config c) declarations);
  pow ← from_reward_pool_and_config pow_reward_pool c;
  Ok (mkMantle channels sdp leaders_new pow).

(** [LedgerState::try_apply_header] of the Mantle ledger. *)
Definition mantle_apply_header m (last_epoch_state epoch_state : EpochState T) (voucher : Z) eras
    : result MantleError (MantleLedger R * HeaderEffect) :=
  last_config ← config_for_epoch eras (es_epoch last_epoch_state);
  config ← config_for_epoch eras (es_epoch epoch_state);
  leaders ← map_err MantleLeader (leaders_apply_header (m_leaders m) (es_epoch epoch_state) voucher);
  '(sdp, effect) ← map_err MantleSdp
      (sdp_apply_header (m_sdp m) (sdp_config last_config) (sdp_config config) last_epoch_state epoch_state);
  pow ← map_err MantlePowRewardPool (pow_apply_header (m_pow m) last_epoch_state epoch_state config);
  Ok (mkMantle (m_channels m) sdp leaders pow, effect).

(** [LedgerState::add_seen_block] of the Mantle ledger. *)
Definition mantle_add_seen_block {E} m (block_hash : Hash) (slot : Z) eras : result E (MantleLedger R) :=
  pow ← add_seen_block (m_pow m) block_hash slot (pow_slot_windows eras);
  Ok (mkMantle (m_channels m) (m_sdp m) (m_leaders m) pow).

(** [LedgerState::update_channels]. *)
Definition update_channels m (c : Channels) : MantleLedger R := mkMantle c (m_sdp m) (m_leaders m) (m_pow m).

Definition with_sdp m (s : SdpLedger R) : MantleLedger R := mkMantle (m_channels m) s (m_leaders m) (m_pow m).

(** [MantleOperationVerificationHelper]: ledger/src/mantle/helpers.rs. *)
Definition helper_of m (l : Cryptarchia T) eras : OperationVerificationHelper T :=
  mkHelper (m_channels m) (sdp_service_notes (m_sdp m)) (cl_utxos l)
    (λ st, ok_or (get_declarations_by_service (m_sdp m) st) (SDPVerificationError (SdpServiceNotFound st)))
    (λ st, ok_or (get_provider_index_by_service (m_sdp m) st) (SDPVerificationError (SdpServiceNotFound st)))
    (λ id, ok_or (get_declaration (m_sdp m) id) (SDPVerificationError (SdpDeclarationNotFound id)))
    (c ← config_for_slot eras (cl_slot l); Ok (min_stake (sdp_config c)))
    (l_epoch (m_leaders m)) (cl_slot l) (nfs (m_leaders m)) (vs_root (vouchers_snapshot (m_leaders m)))
    (λ id, ch ← ok_or (channels (m_channels m) !! id) (MultiSigChannelNotFound id); Ok (transfer_threshold ch))
    (λ id index,
       ch ← ok_or (channels (m_channels m) !! id) (MultiSigChannelNotFound id);
       ok_or (accredited_keys ch !! Z.to_nat index) (KeyNotFound id index))
    (reward_difficulty (ps_reward (m_pow m))) (nullifiers (ps_reward (m_pow m))) (epoch_reward (ps_reward (m_pow m)))
    (reward_pool (ps_reward (m_pow m))) (es_nonce (cl_epoch_state l)) (cl_previous_epoch_nonce l)
    (block_slots (ps_reward (m_pow m))) (pow_slot_windows eras).

End Mantle.

Section Ledger.
Context {T R Params P Id : Type} `{!KeyedStoreOps T NoteId Utxo} `{!Rewards T R Params} `{!NewRewards T R Params}.
Context `{Poseidon2Crate} `{Blake2Crate} `{Ed25519Crate} `{MultiaddrCrate} `{Ed25519Verify} `{PoCVerify}.
Context `{BigUintCrate} `{LotteryCrate} `{!LeaderProof P} `{BatchVerify}.
Implicit Types (s : LedgerState T R) (c : Config Params) (eras : EraSchedule (Config Params)) (tx_hash : TxHash).

Notation ledger_result := (result (LedgerError Id)).

(** Conversions into [LedgerError]. *)
Definition gas_err {A} (r : result GasOverflow A) : ledger_result A := map_err (λ _, LedgerGasOverflow) r.
Definition channel_err {A} (r : result ChannelError A) : ledger_result A := map_err (Mantle ∘ MantleChannel) r.
Definition sdp_err {A} (r : result SdpLedgerError A) : ledger_result A := map_err (Mantle ∘ MantleSdp) r.

(** [GasAndFees::checked_add]. *)
Definition gas_and_fees_add (a tx : GasAndFees) (max_gas : Z) : ledger_result GasAndFees :=
  err_if (max_gas <? gf_execution_gas tx) (TooMuchTransactionExecutionGas (gf_execution_gas tx) max_gas);;
  execution_gas ← gas_err (gas_add (gf_execution_gas a) (gf_execution_gas tx));
  err_if (max_gas <? execution_gas) (TooMuchExecutionGas execution_gas max_gas);;
  storage_gas ← gas_err (gas_add (gf_storage_gas a) (gf_storage_gas tx));
  fee_burned ← gas_err (cost_add (gf_fee_burned a) (gf_fee_burned tx));
  fee_tip ← gas_err (cost_add (gf_fee_tip a) (gf_fee_tip tx));
  Ok (mkGasAndFees execution_gas storage_gas fee_burned fee_tip).

(** ** Operations *)

(** [check_op_data_size]. *)
Definition check_op_data_size (size : Z) c : ledger_result unit :=
  err_if (max_op_data_size c <? size) (OpDataTooLarge size (max_op_data_size c)).

Definition with_mantle s (m : MantleLedger R) : LedgerState T R := mkLedger (block_number s) (cryptarchia_ledger s) m.
Definition with_utxos s (utxos : T) : LedgerState T R :=
  mkLedger (block_number s) (update_utxos (cryptarchia_ledger s) utxos) (mantle_ledger s).

(** [LedgerState::try_apply_op]: the state, the balance and the events. *)
Definition try_apply_op s (op : SignedOp) c tx_hash (balance : Z) (tx_events : list TxEvent)
    : ledger_result (LedgerState T R * Z * list TxEvent) :=
  let m := mantle_ledger s in
  let utxos := cl_utxos (cryptarchia_ledger s) in
  match op with
  | SignedInscribe op _ =>
      check_op_data_size (Z.of_nat (length (i_inscription op))) c;;
      channels ← inscription_execute op (m_channels m) (cl_slot (cryptarchia_ledger s));
      Ok (with_mantle s (update_channels m channels), balance, tx_events)
  | SignedConfig op _ =>
      channels ← config_execute op (m_channels m) (cl_slot (cryptarchia_ledger s));
      Ok (with_mantle s (update_channels m channels), balance, tx_events)
  | SignedDeposit op _ =>
      check_op_data_size (Z.of_nat (length (d_metadata op))) c;;
      '((channels, utxos), events) ← channel_err (deposit_execute op (m_channels m) utxos tx_hash);
      Ok (with_utxos (with_mantle s (update_channels m channels)) utxos, balance, tx_events ++ events)
  | SignedWithdraw op _ =>
      channels ← channel_err (withdraw_execute op (m_channels m));
      Ok (with_mantle s (update_channels m channels), balance, tx_events)
  | SignedChannelTransfer op _ =>
      '(channels, utxos) ← channel_err (channel_transfer_execute op (m_channels m) utxos);
      Ok (with_utxos (with_mantle s (update_channels m channels)) utxos, balance, tx_events)
  | SignedSDPDeclare op _ =>
      sdp ← sdp_err (try_apply_sdp_declaration (m_sdp m) utxos op (sdp_config c));
      Ok (with_mantle s (with_sdp m sdp), balance, tx_events)
  | SignedSDPActive op _ =>
      sdp ← sdp_err (apply_active_msg (T:=T) (m_sdp m) op (sdp_config c));
      Ok (with_mantle s (with_sdp m sdp), balance, tx_events)
  | SignedSDPWithdraw op _ =>
      sdp ← sdp_err (apply_withdrawn_msg (m_sdp m) op (sdp_config c));
      Ok (with_mantle s (with_sdp m sdp), balance, tx_events)
  | SignedLeaderClaim op _ =>
      let l := m_leaders m in
      '(r, events) ← leader_claim_execute op
          (mkLeaderClaimContext (nfs l) (reward_amount l) (claimable_rewards l) utxos) tx_hash;
      let l := with_claim l (lcc_nullifiers r) (lcc_claimable_rewards r) in
      Ok (with_utxos (with_mantle s (mkMantle (m_channels m) (m_sdp m) l (m_pow m))) (lcc_utxos r), balance,
          tx_events ++ events)
  | SignedTransfer op _ =>
      '(l, transfer_balance) ← try_apply_transfer (cryptarchia_ledger s) op;
      balance ← ok_or (i128_checked (balance + transfer_balance)) LedgerBalanceOverflow;
      Ok (mkLedger (block_number s) l m, balance, tx_events)
  | SignedClaimPow op =>
      let p := ps_reward (m_pow m) in
      '(r, events) ← pow_claim_execute op
          (mkPowExecution (reward_pool p) (epoch_reward p) (nullifiers p) utxos (block_slots p)) tx_hash;
      let pow := update_from_claim_execution_result (m_pow m) (pe_nullifiers r) (pe_reward_pool r) in
      Ok (with_utxos (with_mantle s (mkMantle (m_channels m) (m_sdp m) (m_leaders m) pow)) (pe_utxos r), balance,
          tx_events ++ events)
  end.

(** The loop of [try_apply_tx_operations]: verify, price, execute. *)
Fixpoint apply_ops s eras c tx_hash (index balance execution_gas : Z) (tx_events : list TxEvent) (deferred : DeferredProofs)
    (ops : list SignedOp) : ledger_result (LedgerState T R * Z * Z * list TxEvent * DeferredProofs) :=
  match ops with
  | [] => Ok (s, balance, execution_gas, tx_events, deferred)
  | op :: ops =>
      deferred ← map_err LedgerVerification
          (into_verified op index tx_hash (helper_of (mantle_ledger s) (cryptarchia_ledger s) eras) deferred);
      gas ← gas_err (TxVerification.execution_gas (operation op) (gas_profile c) (m_channels (mantle_ledger s)));
      execution_gas ← gas_err (gas_add execution_gas gas);
      '(s, balance, tx_events) ← try_apply_op s op c tx_hash balance tx_events;
      apply_ops s eras c tx_hash (index + 1) balance execution_gas tx_events deferred ops
  end.

(** [LedgerState::try_apply_tx_operations]. *)
Definition try_apply_tx_operations s eras (tx : SignedOps)
    : ledger_result (LedgerState T R * Z * Z * list TxEvent * DeferredProofs) :=
  c ← config_for_slot eras (cl_slot (cryptarchia_ledger s));
  err_if (negb (bool_decide (fork_digest tx ∈ accepted_fork_digests c))) (UnacceptedForkDigest (fork_digest tx));;
  tx_hash ← tx_hasher tx;
  apply_ops s eras c tx_hash 0 0 0 [] deferred_new (signed_ops tx).

(** [LedgerState::try_apply_transaction]. *)
Definition try_apply_transaction s eras (tx : SignedOps)
    : ledger_result (LedgerState T R * GasAndFees * list TxEvent * DeferredProofs) :=
  '(s, balance, execution_gas, events, deferred) ← try_apply_tx_operations s eras tx;
  storage_gas ← storage_size tx;
  execution_base_fees ← gas_err (gas_cost execution_gas (cl_execution_base_fee (cryptarchia_ledger s)));
  permanent_storage_fees ← gas_err (gas_cost storage_gas (cl_storage_gas_price (cryptarchia_ledger s)));
  total_gas_cost ← gas_err (cost_add execution_base_fees permanent_storage_fees);
  err_if (balance <? total_gas_cost) InsufficientBalance;;
  fee_tip ← gas_err (cost_sub (as_u64 balance) total_gas_cost);
  Ok (s, mkGasAndFees execution_gas storage_gas total_gas_cost fee_tip, events, deferred).

(** ** Blocks *)

(** The loop of [try_apply_block_contents]. *)
Fixpoint apply_txs s eras c (index transactions_size : Z) (gas_and_fees : GasAndFees) (tx_events : list TxEvent)
    (deferred_proofs : DeferredProofs) (txs : list SignedOps)
    : ledger_result (LedgerState T R * GasAndFees * list TxEvent * DeferredProofs) :=
  match txs with
  | [] => Ok (s, gas_and_fees, tx_events, deferred_proofs)
  | tx :: txs =>
      err_if (max_transactions c <=? index) (TooManyTransactions (max_transactions c));;
      size ← storage_size tx;
      let transactions_size := saturating_add usize_max transactions_size size in
      err_if (max_transactions_size c <? transactions_size)
        (TransactionsTooLarge transactions_size (max_transactions_size c));;
      '(s, tx_gas_and_fees, events, deferred) ← try_apply_transaction s eras tx;
      gas_and_fees ← gas_and_fees_add gas_and_fees tx_gas_and_fees (max_gas_per_block (execution_market c));
      apply_txs s eras c (index + 1) transactions_size gas_and_fees (tx_events ++ events)
        (deferred_extend deferred_proofs deferred) txs
  end.

(** [LedgerState::compute_block_rewards]. *)
Definition compute_block_rewards s (total_fee_burned total_fee_tip : Z) c : ledger_result (LedgerState T R) :=
  let window_index := Z.to_nat (block_number s mod Z.of_nat WINDOW_SIZE) in
  pow_refill ← pow_fee_share (reward_pow c) total_fee_burned;
  pooled ← gas_err (cost_sub total_fee_burned pow_refill);
  l ← update_fee_window (cryptarchia_ledger s) window_index pooled;
  summed_fees ← get_summed_fees l;
  block_fee ← get_fee_from_index l window_index;
  '(blend_reward, leader_reward) ← block_rewards (block_rewards_config c) summed_fees block_fee
                                     (total_stake (cl_epoch_state l));
  leader_reward ← gas_err (cost_add leader_reward total_fee_tip);
  let m := mantle_ledger s in
  leaders ← add_pending_rewards (m_leaders m) leader_reward;
  sdp ← add_blend_income (T:=T) (Params:=Params) (m_sdp m) blend_reward;
  pow ← map_err (Mantle ∘ MantlePowRewardPool) (add_reward_refill_rewards (m_pow m) pow_refill);
  Ok (mkLedger (block_number s) l (mkMantle (m_channels m) sdp leaders pow)).

(** [LedgerState::update_execution_market] and [add_storage_gas_consumed]. *)
Definition ledger_execution_market {E} s (gas : Z) (market : ExecutionMarketConfig) : result E (LedgerState T R) :=
  l ← apply_execution_market (cryptarchia_ledger s) gas market;
  Ok (mkLedger (block_number s) l (mantle_ledger s)).

Definition ledger_storage_gas s (storage_gas : Z) : ledger_result (LedgerState T R) :=
  l ← gas_err (add_storage_gas_consumed (cryptarchia_ledger s) storage_gas);
  Ok (mkLedger (block_number s) l (mantle_ledger s)).

(** [LedgerState::try_apply_block_contents]. *)
Definition try_apply_block_contents s eras (txs : list SignedOps)
    : ledger_result (LedgerState T R * list TxEvent * DeferredProofs) :=
  c ← config_for_slot eras (cl_slot (cryptarchia_ledger s));
  '(s, gas_and_fees, tx_events, deferred_proofs) ← apply_txs s eras c 0 0 gas_and_fees_default [] deferred_new txs;
  s ← compute_block_rewards s (gf_fee_burned gas_and_fees) (gf_fee_tip gas_and_fees) c;
  s ← ledger_execution_market s (gf_execution_gas gas_and_fees) (execution_market c);
  s ← ledger_storage_gas s (gf_storage_gas gas_and_fees);
  Ok (s, tx_events, deferred_proofs).

(** [LedgerState::try_apply_header]. *)
Definition try_apply_header s (slot : Z) (proof : P) (uncle_slots : list Z) eras
    : ledger_result (LedgerState T R * list HeaderEvent) :=
  let last_epoch_state := cl_epoch_state (cryptarchia_ledger s) in
  l ← cryptarchia_apply_header (cryptarchia_ledger s) slot proof uncle_slots (m_sdp (mantle_ledger s))
        (m_pow (mantle_ledger s)) eras;
  '(m, effect) ← map_err Mantle
      (mantle_apply_header (mantle_ledger s) last_epoch_state (cl_epoch_state l) (lp_voucher_cm proof) eras);
  utxos ← insert_utxos (cl_utxos l) (reward_utxos effect);
  number ← expect (checked_add u64_max (block_number s) 1);
  Ok (mkLedger number (update_utxos l utxos) m, he_events effect).

Context `{!IntoBlockHash Id}.

(** [LedgerState::update_pow_reward_difficulty]. *)
Definition update_pow_reward_difficulty {E} s (claims_in_block : Z) c : result E (LedgerState T R) :=
  let m := mantle_ledger s in
  pow ← update_difficulty (m_pow m) claims_in_block (reward_pow c);
  Ok (with_mantle s (mkMantle (m_channels m) (m_sdp m) (m_leaders m) pow)).

(** [LedgerState::try_update]. *)
Definition try_update s (block_id : Id) (slot : Z) (proof : P) (uncle_slots : list Z) (txs : list SignedOps) eras
    : ledger_result (LedgerState T R * list Event * DeferredProofs) :=
  '(s, header_events) ← try_apply_header s slot proof uncle_slots eras;
  m ← mantle_add_seen_block (mantle_ledger s) (into_block_hash block_id) slot eras;
  '(s, tx_events, deferred_proofs) ← try_apply_block_contents (with_mantle s m) eras txs;
  let m := mantle_ledger s in
  pow ← record_block_txs (m_pow m) (Z.min (Z.of_nat (length txs)) u64_max);
  c ← config_for_slot eras slot;
  s ← update_pow_reward_difficulty (with_mantle s (mkMantle (m_channels m) (m_sdp m) (m_leaders m) pow))
        (pow_claims tx_events) c;
  Ok (s, (EventHeader <$> header_events) ++ (EventTx <$> tx_events), deferred_proofs).

(** ** Genesis *)

(** [LedgerState::from_utxos]. *)
Definition ledger_from_utxos {E} (utxos : list Utxo) c (pow_reward_pool : Z) (excluded : gset ZkPublicKey)
    : result E (LedgerState T R) :=
  l ← cryptarchia_from_utxos utxos c excluded 0;
  m ← mantle_new c pow_reward_pool (cl_epoch_state l);
  l ← with_genesis_sdp l (m_sdp m) c;
  Ok (mkLedger 0 l m).

(** [LedgerState::from_genesis_tx], from the parts of the genesis transaction. *)
Definition ledger_from_genesis (transfer : TransferOp) (inscription : InscriptionOp) (declarations : list DeclarationMessage)
    (epoch_nonce pow_reward_pool : Z) (excluded : gset ZkPublicKey) c : ledger_result (LedgerState T R) :=
  l ← cryptarchia_from_genesis transfer c excluded epoch_nonce;
  m ← map_err Mantle (mantle_from_genesis inscription declarations c pow_reward_pool (cl_utxos l) (cl_epoch_state l));
  l ← with_genesis_sdp l (m_sdp m) c;
  Ok (mkLedger 0 l m).

(** ** The states of the blocks *)

Context `{Countable Id}.

(** [Ledger]. *)
Record BlockLedger := mkBlockLedger { states : gmap Id (LedgerState T R); era_schedule : EraSchedule (Config Params) }.

(** [PreparedUpdate] and [BatchVerifiedUpdate]. *)
Record PreparedUpdate := mkPrepared {
  pu_id : Id; pu_state : LedgerState T R; pu_events : list Event; pu_deferred_proofs : DeferredProofs
}.
Record BatchVerifiedUpdate := mkVerified { bv_id : Id; bv_state : LedgerState T R; bv_events : list Event }.

(** [Ledger::new]. *)
Definition block_ledger_new {E} (id : Id) s eras : result E BlockLedger :=
  m ← mantle_add_seen_block (mantle_ledger s) (into_block_hash id) (cl_slot (cryptarchia_ledger s)) eras;
  Ok (mkBlockLedger {[id := with_mantle s m]} eras).

(** [Ledger::prepare_update]. *)
Definition prepare_update (b : BlockLedger) (id parent_id : Id) (slot : Z) (proof : P) (uncle_slots : list Z)
    (txs : list SignedOps) : ledger_result PreparedUpdate :=
  parent_state ← ok_or (states b !! parent_id) (ParentNotFound parent_id);
  '(s, events, deferred) ← try_update parent_state id slot proof uncle_slots txs (era_schedule b);
  Ok (mkPrepared id s events deferred).

(** [PreparedUpdate::verify_batch_proofs]. *)
Definition verify_batch_proofs (u : PreparedUpdate) : result BatchError BatchVerifiedUpdate :=
  deferred_verify (pu_deferred_proofs u);;
  Ok (mkVerified (pu_id u) (pu_state u) (pu_events u)).

(** [Ledger::commit_update]. *)
Definition commit_update (b : BlockLedger) (u : BatchVerifiedUpdate) : BlockLedger * list Event :=
  (mkBlockLedger (<[bv_id u := bv_state u]> (states b)) (era_schedule b), bv_events u).

(** [Ledger::prune_state_at]. *)
Definition prune_state_at (b : BlockLedger) (block : Id) : BlockLedger * bool :=
  (mkBlockLedger (delete block (states b)) (era_schedule b), bool_decide (is_Some (states b !! block))).

End Ledger.

End Ledger.
