(* ===== verification/BlendRewards.v ===== *)
(** * The rewards of the Blend service: ledger/src/mantle/sdp/rewards

    Income is collected over an epoch; at its end the epoch becomes the target,
    for which providers submit activity proofs during the next one; at the end of
    that, the income of the target is shared among those who submitted, twice for
    those whose token was closest to the randomness. The evaluation of a token is
    that of blend/message/src/reward, the quota that of core/src/blend, the tree
    of keys that of blend/crypto/src/merkle.rs. Circuit proofs, the tree of the
    crate [rs_merkle_tree], the hashes, [bincode] and [log2] are parameters. *)

From Stdlib Require Import SpecFloat.
From stdpp Require Import sorting.
From S2P Require Import Prelude EngineConfig MerkleStore Codec Ops Utxos Channels ServiceNotes Inputs ChannelOps SdpOps Ledger.

#[local] Open Scope Z_scope.

Module BlendRewards.
Import Canonical Ops Utxos Channels ServiceNotes Inputs ChannelOps SdpOps Ledger.

(** [r.expect(..)] of a [Result]. *)
Definition unwrap {E F A} (r : result F A) : result E A :=
  match r with Ok a => Ok a | Err _ => Fault Unwrap | Fault f => Fault f end.

(** ** Quotas *)

(** [Quota]: an integer of 20 bits. *)
Definition QUOTA_BITS : Z := 20.
Definition QUOTA_MAX : Z := Z.shiftr u64_max (64 - QUOTA_BITS).

Record CircuitIntegerOutOfRange := mkOutOfRange { oor_value : Z; oor_bits : Z }.

(** [CircuitInteger::try_new]. *)
Definition quota_try_new (value : Z) : result CircuitIntegerOutOfRange Z :=
  if value <=? QUOTA_MAX then Ok value else Err (mkOutOfRange value QUOTA_BITS).

(** [x.ceil() as u64]: the cast saturates and sends NaN to 0. *)
Definition f64_ceil_u64 (x : spec_float) : Z :=
  match x with
  | S754_finite false m e => Z.min u64_max (if 0 <=? e then Zpos m * 2 ^ e else - (Zneg m / 2 ^ (- e)))
  | S754_infinity false => u64_max
  | _ => 0
  end.

Definition f64_add : spec_float → spec_float → spec_float := SFadd 53 1024.

Record RewardsParameters := mkRewardsParameters {
  rounds_per_epoch : Z;
  message_frequency_per_round : spec_float;
  cover_replication_factor : Z;
  num_blend_layers : Z;
  data_replication_factor : Z;
  minimum_network_size : Z;
  activity_threshold_sensitivity : Z
}.

(** [core_quota] of core/src/blend. *)
Definition core_quota (p : RewardsParameters) (membership_size : Z) : result CircuitIntegerOutOfRange Z :=
  let expected_number_of_epoch_messages := f64_mul (f64_of_Z (rounds_per_epoch p)) (message_frequency_per_round p) in
  let blending_operations_per_message :=
    f64_mul (f64_of_Z (num_blend_layers p)) (f64_add (f64_of_Z 1) (f64_of_Z (cover_replication_factor p))) in
  quota ← nonzero (f64_ceil_u64 (f64_div (f64_mul expected_number_of_epoch_messages blending_operations_per_message)
                                    (f64_of_Z membership_size)));
  quota_try_new quota.

(** ** Tokens *)

(** [f64::log2], of the platform. *)
Class F64Log2 := { f64_log2 : spec_float → spec_float }.

(** [FiniteF64::try_from] and [NonNegativeF64::try_from]. *)
Definition is_finite (x : spec_float) : bool :=
  match x with S754_zero _ | S754_finite _ _ _ => true | _ => false end.
Definition is_non_negative (x : spec_float) : bool := SFleb (f64_of_Z 0) x.

(** [FiniteF64::MAX_REPRESENTABLE_U64]. *)
Definition MAX_REPRESENTABLE_U64 : Z := 2 ^ 53 - 1.

(** [F64Ge1::try_from] of a float, through the wrappers it is made of. *)
Definition f64_ge1 (x : spec_float) : option spec_float :=
  if is_finite x && is_non_negative x && negb (SFeqb x (f64_of_Z 0)) && SFleb (f64_of_Z 1) x then Some x else None.

(** [F64Ge1::try_from] of an integer. *)
Definition f64_ge1_of_u64 (value : Z) : option spec_float :=
  if MAX_REPRESENTABLE_U64 <? value then None else f64_ge1 (f64_of_Z value).

(** [reward::Error]. *)
Inductive TokenError := TotalCoreQuotaTooLarge (quota : Z) | NetworkSizeTooLarge (size : Z).

Section Evaluation.
Context `{F64Log2}.

(** [F64Ge1::log2]: neither infinite, nor NaN, nor negative. *)
Definition ge1_log2 {E : Type} (x : spec_float) : result E spec_float :=
  let l := f64_log2 x in
  assert_ (is_finite l);; assert_ (is_non_negative l);; Ok l.

(** [token_count_bit_len]. *)
Definition token_count_bit_len (node_core_quota num_core_nodes : Z) : result TokenError Z :=
  total ← ok_or (checked_mul u64_max node_core_quota num_core_nodes) (TotalCoreQuotaTooLarge u64_max);
  err_if (MAX_REPRESENTABLE_U64 <? total) (TotalCoreQuotaTooLarge total);;
  x ← expect (f64_ge1 (f64_add (f64_of_Z total) (f64_of_Z 1)));
  l ← ge1_log2 x;
  Ok (f64_ceil_u64 l).

(** [activity_threshold] of epoch.rs over that of activity.rs. *)
Definition activity_threshold_of (token_count_bit_len network_size_bit_len sensitivity : Z) : Z :=
  saturating_sub (saturating_sub token_count_bit_len network_size_bit_len) sensitivity.

Definition activity_threshold (token_count_bit_len num_core_nodes sensitivity : Z) : result TokenError Z :=
  n ← ok_or (checked_add u64_max num_core_nodes 1) (NetworkSizeTooLarge num_core_nodes);
  x ← ok_or (f64_ge1_of_u64 n) (NetworkSizeTooLarge num_core_nodes);
  l ← ge1_log2 x;
  Ok (activity_threshold_of token_count_bit_len (f64_ceil_u64 l) sensitivity).

(** [BlendingTokenEvaluation]. *)
Record BlendingTokenEvaluation := mkEvaluation { token_count_byte_len : Z; evaluation_threshold : Z }.

Definition evaluation_new (node_core_quota num_core_nodes sensitivity : Z) : result TokenError BlendingTokenEvaluation :=
  bit_len ← token_count_bit_len node_core_quota num_core_nodes;
  threshold ← activity_threshold bit_len num_core_nodes sensitivity;
  Ok (mkEvaluation (div_ceil bit_len 8) threshold).

(** [RewardsParameters::core_quota_and_token_evaluation]. *)
Definition core_quota_and_token_evaluation (p : RewardsParameters) (num_core_nodes : Z)
    : result TokenError (Z * BlendingTokenEvaluation) :=
  quota ← unwrap (core_quota p num_core_nodes);
  evaluation ← evaluation_new quota num_core_nodes (activity_threshold_sensitivity p);
  Ok (quota, evaluation).

End Evaluation.

(** [BlendingToken]; the verified proofs are wrappers of the proofs. *)
Record BlendingToken := mkToken { tk_signing_key : Ed25519Key; tk_quota : ProofOfQuota; tk_selection : Z }.

(** [bincode], and [Blake2bVar] of the crate [blake2] with its largest output. *)
Class BincodeCrate := { token_bytes : BlendingToken → list byte; service_type_bytes : ServiceType → list byte }.
Class Blake2VarCrate := { blake2b_max_output : Z; blake2b_var : Z → list byte → list byte }.

(** [Blake2bVar] fills the output it is asked for; its largest is that of BLAKE2b. *)
Class Blake2VarLaws `{Blake2VarCrate} : Prop := {
  blake2b_max_64 : blake2b_max_output = 64;
  blake2b_var_length size input : 0 <= size <= blake2b_max_output → Z.of_nat (length (blake2b_var size input)) = size
}.

(** [HammingDistance::new]: the bits that differ, over the shorter slice. *)
Fixpoint count_ones (w : nat) (z : Z) : Z :=
  match w with O => 0 | S w => z mod 2 + count_ones w (z / 2) end.

Fixpoint hamming_distance_new {E : Type} (a b : list byte) : result E Z :=
  match a, b with
  | x :: a, y :: b =>
      rest ← hamming_distance_new a b;
      strict_add u64_max (count_ones 8 (Z.lxor (byte_val x) (byte_val y))) rest
  | _, _ => Ok 0
  end.

Section Distance.
Context `{BincodeCrate} `{Blake2VarCrate}.

(** [hash] of token.rs. *)
Definition token_hash (input : list byte) (output_size : Z) : list byte := blake2b_var (Z.min output_size blake2b_max_output) input.

(** [BlendingToken::hamming_distance]. *)
Definition hamming_distance {E : Type} (t : BlendingToken) (byte_len : Z) (next_epoch_randomness : Z) : result E Z :=
  hamming_distance_new (token_hash (token_bytes t) byte_len) (token_hash (fr_to_bytes next_epoch_randomness) byte_len).

(** [BlendingTokenEvaluation::evaluate]. *)
Definition evaluate {E : Type} (v : BlendingTokenEvaluation) (t : BlendingToken) (next_epoch_randomness : Z) : result E (option Z) :=
  distance ← hamming_distance t (token_count_byte_len v) next_epoch_randomness;
  Ok (if distance <=? evaluation_threshold v then Some distance else None).

End Distance.

(** ** Proofs *)

Record CoreInputs := mkCoreInputs { zk_root : Z; ci_quota : Z }.
Record LeaderInputs := mkLeaderInputs {
  pol_ledger_aged : Z; pol_epoch_nonce : Z; message_quota : Z; li_lottery_0 : Z; li_lottery_1 : Z
}.
Record PowInputs := mkPowInputs { pow_blend_difficulty : Z; pow_quota : Z }.
Record VerificationInputs := mkVerificationInputs { vi_core : CoreInputs; vi_leader : LeaderInputs; vi_pow : PowInputs }.
Record SelectionInputs := mkSelectionInputs { expected_node_index : Z; total_membership_size : Z; si_key_nullifier : Z }.

(** The trait [ProofsVerifier]. *)
Class ProofsVerifier (V : Type) := {
  verifier_new : VerificationInputs → V;
  verify_proof_of_quota : V → ProofOfQuota → Ed25519Key → option ProofOfQuota;
  verify_proof_of_selection : V → Z → SelectionInputs → option Z
}.

(** [ActivityProof::verify_and_build]: the token of the proof. *)
Definition verify_and_build `{ProofsVerifier V} (proof : ActivityProof) (verifier : V) (node_index membership_size : Z)
    : option BlendingToken :=
  quota ← verify_proof_of_quota verifier (ap_proof_of_quota proof) (ap_signing_key proof);
  selection ← verify_proof_of_selection verifier (ap_selection_randomness proof)
                (mkSelectionInputs node_index membership_size (key_nullifier (ap_proof_of_quota proof)));
  Some (mkToken (ap_signing_key proof) quota selection).

(** [rs_merkle_tree]: the root over the leaves. *)
Class MembershipTree := { membership_root : list Z → Z }.

Definition CORE_MERKLE_TREE_HEIGHT : Z := 20.
Definition TOTAL_MERKLE_LEAVES : Z := Z.shiftl 1 CORE_MERKLE_TREE_HEIGHT.

Inductive MembershipError := EmptyKeySet | TooManyKeys | DuplicateKey.

(** [MerkleTree::new_from_ordered] and its root. *)
Definition tree_from_ordered `{MembershipTree} (keys : list ZkPublicKey) : result MembershipError Z :=
  err_if (bool_decide (keys = [])) EmptyKeySet;;
  err_if (TOTAL_MERKLE_LEAVES <? Z.of_nat (length keys)) TooManyKeys;;
  err_if (negb (Nat.eqb (size (list_to_set keys : gset Z)) (length keys))) DuplicateKey;;
  Ok (membership_root keys).

(** [sort_nodes_and_build_merkle_tree]: [sort_by_key] on the zk keys. *)
Definition by_key {A} (x y : A * ZkPublicKey) : Prop := x.2 <= y.2.
#[export] Instance by_key_dec {A} : RelDecision (by_key (A:=A)).
Proof. intros x y. unfold by_key. apply _. Defined.

Definition sort_nodes_and_build_merkle_tree `{MembershipTree} {A} (nodes : list (A * ZkPublicKey))
    : result MembershipError (list (A * ZkPublicKey) * Z) :=
  let nodes := merge_sort by_key nodes in
  root ← tree_from_ordered nodes.*2;
  Ok (nodes, root).

(** ** The epochs *)

Record CurrentEpochState := mkCurrent { cs_epoch : Z; epoch_randomness : Z; leader_input : LeaderInputs; pow_input : PowInputs }.

(** [CurrentEpochTracker]. *)
Record CurrentEpochTracker := mkCurrentTracker { ct_epoch_income : Z }.

(** [TargetEpochState]. *)
Record TargetEpochState (V : Type) := mkTarget {
  ts_epoch : Z;
  providers : gmap ProviderId (ZkPublicKey * Z);
  ts_minimum_network_size : Z;
  token_evaluation : BlendingTokenEvaluation;
  proof_verifier : V;
  ts_epoch_income : Z
}.

Arguments mkTarget {V}.
Arguments ts_epoch {V} _.
Arguments providers {V} _.
Arguments ts_minimum_network_size {V} _.
Arguments token_evaluation {V} _.
Arguments proof_verifier {V} _.
Arguments ts_epoch_income {V} _.

Record MinHammingDistance := mkMinDistance { min_distance : Z; closest : gset ProviderId }.

(** [TargetEpochTracker]. *)
Record TargetEpochTracker := mkTargetTracker {
  submitted_proofs : gmap ProviderId (ZkPublicKey * Z);
  min_hamming_distance : MinHammingDistance
}.

(** [Rewards]. *)
Inductive BlendRewards (V : Type) :=
  | WithoutTargetEpoch (current_epoch_state : CurrentEpochState) (current_epoch_tracker : CurrentEpochTracker)
  | WithTargetEpoch (target_epoch_state : TargetEpochState V) (target_epoch_tracker : TargetEpochTracker)
      (current_epoch_state : CurrentEpochState) (current_epoch_tracker : CurrentEpochTracker).

Arguments WithoutTargetEpoch {V}.
Arguments WithTargetEpoch {V}.

(** [MinHammingDistance::new] and [with_update]. *)
Definition min_distance_new : MinHammingDistance := mkMinDistance u64_max ∅.

Definition with_update (d : MinHammingDistance) (distance : Z) (provider : ProviderId) : MinHammingDistance :=
  match distance ?= min_distance d with
  | Lt => mkMinDistance distance {[provider]}
  | Eq => mkMinDistance distance ({[provider]} ∪ closest d)
  | Gt => d
  end.

(** [TargetEpochTracker::new] and [insert]. *)
Definition target_tracker_new : TargetEpochTracker := mkTargetTracker ∅ min_distance_new.

Definition target_tracker_insert (t : TargetEpochTracker) (provider : ProviderId) (epoch : Z) (zk_id : ZkPublicKey) (distance : Z)
    : result RewardsError TargetEpochTracker :=
  err_if (bool_decide (is_Some (submitted_proofs t !! provider))) (DuplicateActiveMessage epoch provider);;
  Ok (mkTargetTracker (<[provider := (zk_id, distance)]> (submitted_proofs t)) (with_update (min_hamming_distance t) distance provider)).

(** [CurrentEpochTracker::add_block_rewards]. *)
Definition add_block_rewards {E : Type} (t : CurrentEpochTracker) (block_rewards : Z) : result E CurrentEpochTracker :=
  income ← strict_add u64_max (ct_epoch_income t) block_rewards; Ok (mkCurrentTracker income).

Section Rewards.
Context {T V : Type} `{!KeyedStoreOps T NoteId Utxo} `{Blake2Crate} `{F64Log2} `{BincodeCrate} `{Blake2VarCrate}.
Context `{!ProofsVerifier V} `{MembershipTree}.
Implicit Types (p : RewardsParameters) (es : EpochState T) (r : BlendRewards V) (ts : TargetEpochState V).

(** [RewardsParameters::encapsulations_per_message], [leader_inputs], [pow_inputs]. *)
Definition encapsulations_per_message {E : Type} p : result E Z :=
  replicated ← strict_mul u64_max (num_blend_layers p) (data_replication_factor p);
  total ← strict_add u64_max (num_blend_layers p) replicated;
  unwrap (quota_try_new total).

Definition leader_inputs {E : Type} p es : result E LeaderInputs :=
  aged ← ks_root (es_utxos es);
  quota ← encapsulations_per_message p;
  Ok (mkLeaderInputs aged (es_nonce es) quota (lottery_0 es) (lottery_1 es)).

Definition pow_inputs {E : Type} p es : result E PowInputs :=
  quota ← unwrap (quota_try_new (num_blend_layers p));
  Ok (mkPowInputs (blend_pow_difficulty es) quota).

(** [CurrentEpochState::new]. *)
Definition current_epoch_state_new {E : Type} es p : result E CurrentEpochState :=
  leader ← leader_inputs p es;
  pow ← pow_inputs p es;
  Ok (mkCurrent (es_epoch es) (es_nonce es) leader pow).

(** [CurrentEpochTracker::providers_and_zk_root]. *)
Definition providers_and_zk_root {E : Type} (ds : Declarations) : result E (gmap ProviderId (ZkPublicKey * Z) * Z) :=
  '(nodes, root) ← unwrap (sort_nodes_and_build_merkle_tree ((λ x, (provider_id x.2, zk_id x.2)) <$> ordered_entries ds));
  Ok (foldl (λ m x, <[x.1 := x.2]> m) ∅ (imap (λ i x, (x.1, (x.2, Z.of_nat i))) nodes), root).

(** [CurrentEpochTrackerOutput]. *)
Inductive CurrentEpochTrackerOutput :=
  | OutputWithTarget (target_epoch_state : TargetEpochState V) (current_epoch_state : CurrentEpochState)
      (current_epoch_tracker : CurrentEpochTracker)
  | OutputWithoutTarget (current_epoch_state : CurrentEpochState) (current_epoch_tracker : CurrentEpochTracker).

(** [CurrentEpochTracker::finalize]. *)
Definition current_finalize {E : Type} (t : CurrentEpochTracker) (current : CurrentEpochState) (last_epoch_state next_epoch_state : EpochState T)
    (target_settings settings : RewardsParameters) : result E CurrentEpochTrackerOutput :=
  assert_ (es_epoch last_epoch_state =? cs_epoch current);;
  assert_ (es_epoch last_epoch_state <? es_epoch next_epoch_state);;
  following ← strict_add u32_max (es_epoch last_epoch_state) 1;
  let without := cs ← current_epoch_state_new next_epoch_state settings; Ok (OutputWithoutTarget cs (mkCurrentTracker 0)) in
  if following <? es_epoch next_epoch_state then without
  else
    let maybe_declarations := active_declarations_of last_epoch_state !! BlendNetwork in
    let declaration_count := match maybe_declarations with Some ds => Z.of_nat (size ds) | None => 0 end in
    if declaration_count <? minimum_network_size target_settings then without
    else
      ds ← expect maybe_declarations;
      '(providers, root) ← providers_and_zk_root ds;
      '(quota, evaluation) ← unwrap (core_quota_and_token_evaluation target_settings (Z.of_nat (size providers)));
      let verifier := verifier_new (mkVerificationInputs (mkCoreInputs root quota) (leader_input current) (pow_input current)) in
      cs ← current_epoch_state_new next_epoch_state settings;
      Ok (OutputWithTarget
            (mkTarget (es_epoch last_epoch_state) providers (minimum_network_size target_settings) evaluation verifier
               (ct_epoch_income t))
            cs (mkCurrentTracker 0)).

(** [TargetEpochState::verify_proof]. *)
Definition verify_proof ts (provider : ProviderId) (proof : ActivityProof) (current : CurrentEpochState)
    : result RewardsError (ZkPublicKey * Z) :=
  err_if (negb (ap_epoch proof =? ts_epoch ts)) (InvalidEpoch (ts_epoch ts) (ap_epoch proof));;
  let num_providers := Z.of_nat (size (providers ts)) in
  assert_ (ts_minimum_network_size ts <=? num_providers);;
  '(zk_id, index) ← ok_or (providers ts !! provider) (UnknownProvider provider);
  token ← ok_or (verify_and_build proof (proof_verifier ts) index num_providers) InvalidProof;
  evaluation ← evaluate (token_evaluation ts) token (epoch_randomness current);
  distance ← ok_or evaluation HammingDistanceTooLarge;
  Ok (zk_id, distance).

(** [create_reward_op_id]. *)
Definition create_reward_op_id (epoch : Z) (st : ServiceType) : Hash := blake2b_256 (service_type_bytes st ++ to_le_bytes 4 epoch).

(** [distribute_rewards]. *)
Definition by_zk_id (x y : ZkPublicKey * Z) : Prop := x.1 <= y.1.
#[export] Instance by_zk_id_dec : RelDecision by_zk_id.
Proof. intros x y. unfold by_zk_id. apply _. Defined.

Definition distribute_rewards (rewards : gmap ZkPublicKey Z) (epoch : Z) (st : ServiceType) : list Utxo :=
  let sorted_rewards := merge_sort by_zk_id (filter (λ x, 0 < x.2) (map_to_list rewards)) in
  utxos_of (create_reward_op_id epoch st) ((λ x, mkNote x.2 x.1) <$> sorted_rewards).

(** The loop of [TargetEpochTracker::finalize]. *)
Fixpoint reward_providers {E : Type} (base_reward : Z) (premium : gset ProviderId) (rewards : gmap ZkPublicKey Z)
    (l : list (ProviderId * (ZkPublicKey * Z))) : result E (gmap ZkPublicKey Z) :=
  match l with
  | [] => Ok rewards
  | (provider, (zk_id, _)) :: l =>
      reward ← (if bool_decide (provider ∈ premium) then strict_mul u64_max base_reward 2 else Ok base_reward);
      reward_providers base_reward premium (<[zk_id := reward]> rewards) l
  end.

(** [TargetEpochTracker::finalize]. *)
Definition target_finalize {E : Type} (t : TargetEpochTracker) ts : result E (TargetEpochTracker * list Utxo) :=
  if bool_decide (submitted_proofs t = ∅) then Ok (target_tracker_new, [])
  else
    let premium_providers := closest (min_hamming_distance t) in
    shares ← strict_add u64_max (Z.of_nat (size (submitted_proofs t))) (Z.of_nat (size premium_providers));
    base_reward ← div_ (ts_epoch_income ts) shares;
    rewards ← reward_providers base_reward premium_providers ∅ (map_to_list (submitted_proofs t));
    Ok (target_tracker_new, distribute_rewards rewards (ts_epoch ts) BlendNetwork).

(** [Rewards::from_current_epoch_tracker_output]. *)
Definition from_output (o : CurrentEpochTrackerOutput) (t : TargetEpochTracker) : BlendRewards V :=
  match o with
  | OutputWithTarget ts cs ct => WithTargetEpoch ts t cs ct
  | OutputWithoutTarget cs ct => WithoutTargetEpoch cs ct
  end.

(** ** The trait [Rewards] *)

Definition blend_update_active r (provider : ProviderId) (metadata : ActivityMetadata) : result RewardsError (BlendRewards V) :=
  match r with
  | WithoutTargetEpoch _ _ => Err TargetEpochNotSet
  | WithTargetEpoch ts t cs ct =>
      let '(Blend proof) := metadata in
      '(zk_id, distance) ← verify_proof ts provider proof cs;
      t ← target_tracker_insert t provider (ts_epoch ts) zk_id distance;
      Ok (WithTargetEpoch ts t cs ct)
  end.

Definition blend_update_epoch {E : Type} r (last_epoch_state next_epoch_state : EpochState T) (config : ServiceParameters)
    (last_params params : RewardsParameters) : result E (BlendRewards V * list Utxo) :=
  match r with
  | WithoutTargetEpoch cs ct =>
      o ← current_finalize ct cs last_epoch_state next_epoch_state last_params params;
      Ok (from_output o target_tracker_new, [])
  | WithTargetEpoch ts t cs ct =>
      '(t, rewards) ← target_finalize t ts;
      o ← current_finalize ct cs last_epoch_state next_epoch_state last_params params;
      Ok (from_output o t, rewards)
  end.

Definition blend_add_income {E : Type} r (income : Z) : result E (BlendRewards V) :=
  match r with
  | WithoutTargetEpoch cs ct => ct ← add_block_rewards ct income; Ok (WithoutTargetEpoch cs ct)
  | WithTargetEpoch ts t cs ct => ct ← add_block_rewards ct income; Ok (WithTargetEpoch ts t cs ct)
  end.

(** [Rewards::new]. *)
Definition blend_new {E : Type} (settings : RewardsParameters) es : result E (BlendRewards V) :=
  cs ← current_epoch_state_new es settings;
  Ok (WithoutTargetEpoch cs (mkCurrentTracker 0)).

#[export] Instance blend_rewards : Rewards T (BlendRewards V) RewardsParameters := {|
  rw_update_active := blend_update_active;
  rw_update_epoch := @blend_update_epoch;
  rw_add_income := @blend_add_income
|}.

#[export] Instance blend_new_rewards : NewRewards T (BlendRewards V) RewardsParameters := {| rw_new := @blend_new |}.

End Rewards.

End BlendRewards.
