(* ===== verification/BlendFacts.v ===== *)
(** * The Blend service pays out what it collected

    The income of a target epoch is shared among the providers that submitted a
    proof, one note each, in double for the closest; what is paid never exceeds
    the income, and less than one unit per share is kept. This discharges what
    the ledger relies on of a service. *)

From Stdlib Require Import SpecFloat.
From stdpp Require Import sorting.
From S2P Require Import Prelude EngineConfig MerkleStore Codec Ops Channels Utxos ServiceNotes Inputs ChannelOps SdpOps SdpTheorems Ledger BlendRewards.

#[local] Open Scope Z_scope.

Module BlendFacts.
Import Canonical Ops Utxos Channels ServiceNotes Inputs ChannelOps SdpOps SdpFacts Ledger BlendRewards.

Lemma unwrap_ok {E F A} (r : result F A) a : unwrap (E:=E) r = Ok a → r = Ok a.
Proof. by destruct r; cbn; [intros [= ->]|..]. Qed.

(** ** Distances *)

Lemma count_ones_bound w : ∀ z, 0 <= count_ones w z <= Z.of_nat w.
Proof.
  induction w as [|w IH]; intros z; cbn [count_ones]; [lia|]. pose proof (IH (z / 2)). pose proof (Z.mod_pos_bound z 2). lia.
Qed.

Lemma hamming_ok {E : Type} (a b : list byte) : Z.of_nat (length a) <= 64 →
  ∃ d, hamming_distance_new (E:=E) a b = Ok d ∧ 0 <= d <= 8 * Z.of_nat (length a).
Proof.
  revert b. induction a as [|x a IH]; intros [|y b] Ha; cbn [hamming_distance_new length] in *; [exists 0; split; [done|lia]..|].
  destruct (IH b ltac:(lia)) as (d & -> & Hd). cbn [mbind result_bind].
  pose proof (count_ones_bound 8 (Z.lxor (byte_val x) (byte_val y))) as Hc.
  rewrite strict_add_in by (unfold u64_max; lia). eexists. split; [done|lia].
Qed.

Section Distance.
Context `{BincodeCrate} `{Blake2VarCrate, !Blake2VarLaws}.

Lemma evaluate_ok {E : Type} v t randomness : 0 <= token_count_byte_len v →
  ∃ o, evaluate (E:=E) v t randomness = Ok o ∧ ∀ d, o = Some d → 0 <= d <= 512.
Proof.
  intros Hv. unfold evaluate, hamming_distance.
  assert (Z.of_nat (length (token_hash (token_bytes t) (token_count_byte_len v))) <= 64) as Hl.
  { unfold token_hash. rewrite blake2b_var_length; rewrite blake2b_max_64; lia. }
  destruct (hamming_ok (E:=E) _ (token_hash (fr_to_bytes randomness) (token_count_byte_len v)) Hl) as (d & -> & Hd).
  cbn [mbind result_bind]. eexists. split; [done|]. destruct (_ <=? _); [|done]. intros ? [= <-]. lia.
Qed.

End Distance.

(** ** Sums of notes *)

#[export] Instance notes_value_proper : Proper ((≡ₚ) ==> (=)) notes_value.
Proof. unfold notes_value. intros l k Hp. induction Hp; cbn [foldr]; lia. Qed.

(** The note of an entry of the rewards. *)
Definition reward_note (x : ZkPublicKey * Z) : Note := mkNote x.2 x.1.

Lemma positive_notes_value (l : list (ZkPublicKey * Z)) : Forall (λ x, 0 <= x.2) l →
  notes_value (reward_note <$> filter (λ x, 0 < x.2) l) = notes_value (reward_note <$> l).
Proof.
  induction 1 as [|x l Hx _ IH]; [done|]. rewrite filter_cons. unfold notes_value in *.
  case_decide; cbn [fmap list_fmap foldr reward_note value]; lia.
Qed.

(** ** The shares of the providers *)

Section Shares.
Context (base : Z) (premium : gset ProviderId).
Notation entry := (ProviderId * (ZkPublicKey * Z))%type.

Definition share (p : ProviderId) : Z := if bool_decide (p ∈ premium) then base * 2 else base.

Definition reward_entry (x : entry) : ZkPublicKey * Z := (x.2.1, share x.1).

Lemma reward_providers_ok {E : Type} (l : list entry) : 0 <= base → base * 2 <= u64_max → NoDup ((λ x : entry, x.2.1) <$> l) →
  ∀ m, (∀ x, x ∈ l → m !! x.2.1 = None) →
  ∃ m', reward_providers (E:=E) base premium m l = Ok m' ∧ map_to_list m' ≡ₚ (reward_entry <$> l) ++ map_to_list m.
Proof.
  intros Hb Hmax. induction l as [|[p [zk d]] l IH]; intros Hnd m Hm; cbn [reward_providers]; [by exists m|].
  cbn [fmap list_fmap] in Hnd. apply NoDup_cons in Hnd as [Hzk Hnd].
  assert ((if bool_decide (p ∈ premium) then strict_mul u64_max base 2 else Ok base) = Ok (E:=E) (share p)) as ->.
  { unfold share. case_bool_decide; [|done]. by rewrite strict_mul_in by lia. }
  cbn [mbind result_bind]. destruct (IH Hnd (<[zk := share p]> m)) as (m' & -> & Hp).
  { intros x Hx. rewrite lookup_insert_ne; [apply Hm; by constructor|]. intros Heq. apply Hzk. cbn. rewrite Heq.
    apply list_elem_of_fmap. by exists x. }
  exists m'. split; [done|]. rewrite Hp, map_to_list_insert by (apply (Hm (p, (zk, d))); constructor).
  cbn [fmap list_fmap reward_entry fst snd app]. symmetry. apply Permutation_middle.
Qed.

Lemma shares_value (l : list entry) :
  notes_value (reward_note <$> (reward_entry <$> l)) = base * Z.of_nat (length l + length (filter (λ x : entry, x.1 ∈ premium) l)).
Proof.
  induction l as [|x l IH]; [cbn; lia|]. rewrite filter_cons. unfold notes_value in *. cbn [fmap list_fmap foldr reward_note reward_entry value fst snd].
  rewrite IH. unfold share. case_bool_decide; case_decide; done || (cbn [length]; lia).
Qed.

End Shares.

(** ** The invariant *)

Section Rewards.
Context {T V : Type} `{!KeyedStoreOps T NoteId Utxo} `{Blake2Crate} `{F64Log2} `{BincodeCrate} `{Blake2VarCrate, !Blake2VarLaws}.
Context `{!ProofsVerifier V} `{MembershipTree}.
Implicit Types (ts : TargetEpochState V) (t : TargetEpochTracker) (es : EpochState T) (r : BlendRewards V).

(** The closest providers are those at the smallest distance submitted. *)
Record tracker_ok t : Prop := {
  tr_distance : ∀ p x, submitted_proofs t !! p = Some x → min_distance (min_hamming_distance t) <= x.2 <= u64_max;
  tr_closest : ∀ p, p ∈ closest (min_hamming_distance t) ↔
    ∃ x, submitted_proofs t !! p = Some x ∧ x.2 = min_distance (min_hamming_distance t);
  tr_none : closest (min_hamming_distance t) = ∅ → min_distance (min_hamming_distance t) = u64_max;
  tr_max : min_distance (min_hamming_distance t) <= u64_max
}.

(** A target epoch: enough providers, of distinct keys, among them those that submitted. *)
Record target_ok ts t : Prop := {
  to_income : 0 <= ts_epoch_income ts <= u64_max;
  to_size : ts_minimum_network_size ts <= Z.of_nat (size (providers ts));
  to_leaves : Z.of_nat (size (providers ts)) <= TOTAL_MERKLE_LEAVES;
  to_keys : ∀ p1 p2 x1 x2, providers ts !! p1 = Some x1 → providers ts !! p2 = Some x2 → x1.1 = x2.1 → p1 = p2;
  to_submitted : ∀ p x, submitted_proofs t !! p = Some x → ∃ i, providers ts !! p = Some (x.1, i);
  to_evaluation : 0 <= token_count_byte_len (token_evaluation ts);
  to_tracker : tracker_ok t
}.

Definition rewards_ok r : Prop :=
  match r with
  | WithoutTargetEpoch _ ct => 0 <= ct_epoch_income ct <= u64_max
  | WithTargetEpoch ts t _ ct => target_ok ts t ∧ 0 <= ct_epoch_income ct <= u64_max
  end.

Definition rewards_income r : Z :=
  match r with
  | WithoutTargetEpoch _ ct => ct_epoch_income ct
  | WithTargetEpoch ts _ _ ct => ts_epoch_income ts + ct_epoch_income ct
  end.

Lemma tracker_new_ok : tracker_ok target_tracker_new.
Proof.
  split; cbn; [intros p x Hx; by apply lookup_empty_Some in Hx| |done|unfold u64_max; lia].
  intros p. split; [set_solver|]. intros (x & Hx & _). by apply lookup_empty_Some in Hx.
Qed.

Lemma tracker_insert_ok t p epoch zk d t' : tracker_ok t → d <= u64_max → target_tracker_insert t p epoch zk d = Ok t' →
  tracker_ok t' ∧ submitted_proofs t !! p = None ∧ submitted_proofs t' = <[p := (zk, d)]> (submitted_proofs t).
Proof.
  intros [Hd Hc Hs Hm] Hmax Hi. unfold target_tracker_insert in Hi. peel Hi as [] Hn. apply err_if_ok, bool_decide_eq_false in Hn.
  apply eq_None_not_Some in Hn. injection Hi as <-. split; [|done]. unfold with_update. destruct (Z.compare_spec d (min_distance (min_hamming_distance t))) as [Heq|Hlt|Hgt].
  - split; cbn; [| |set_solver|done].
    + intros q x. rewrite lookup_insert_Some. intros [[_ <-]|[_ Hx]]; [cbn; lia|rewrite Heq; by apply (Hd q)].
    + intros q. rewrite elem_of_union, elem_of_singleton, Hc, Heq. setoid_rewrite lookup_insert_Some. destruct (decide (q = p)) as [->|Hne]; [|naive_solver].
      split; [intros _; exists (zk, d); naive_solver|by left].
  - split; cbn; [| |set_solver|done].
    + intros q x. rewrite lookup_insert_Some. intros [[_ <-]|[_ Hx]]; [cbn; lia|]. destruct (Hd q x Hx). lia.
    + intros q. rewrite elem_of_singleton. setoid_rewrite lookup_insert_Some. split; [intros ->; exists (zk, d); naive_solver|].
      intros (x & [[-> _]|[_ Hx]] & Hxd); [done|]. destruct (Hd q x Hx). lia.
  - split; cbn; [| |done|done].
    + intros q x. rewrite lookup_insert_Some. intros [[_ <-]|[_ Hx]]; [cbn; lia|by apply (Hd q)].
    + intros q. rewrite Hc. setoid_rewrite lookup_insert_Some. split.
      * intros (x & Hx & Hxd). exists x. split; [|done]. right. split; [|done]. intros ->. congruence.
      * intros (x & [[-> <-]|[_ Hx]] & Hxd); [cbn in Hxd; lia|by exists x].
Qed.

Lemma closest_some t p x : tracker_ok t → submitted_proofs t !! p = Some x → closest (min_hamming_distance t) ≠ ∅.
Proof.
  intros [Hd Hc Hn Hm] Hx Hemp. destruct (Hd p x Hx). assert (p ∈ closest (min_hamming_distance t)); [|set_solver].
  apply Hc. exists x. split; [done|]. rewrite (Hn Hemp) in *. lia.
Qed.

(** The premium shares are the closest providers. *)
Lemma premium_count t : tracker_ok t →
  length (filter (λ x : ProviderId * (ZkPublicKey * Z), x.1 ∈ closest (min_hamming_distance t)) (map_to_list (submitted_proofs t)))
    = size (closest (min_hamming_distance t)).
Proof.
  intros [_ Hc _ _]. set (l := filter _ _). assert (l.*1 ≡ₚ elements (closest (min_hamming_distance t))) as Hp.
  { apply NoDup_Permutation; [apply NoDup_fst_filter, NoDup_fst_map_to_list|apply NoDup_elements|]. intros q.
    rewrite elem_of_elements, list_elem_of_fmap. unfold l. setoid_rewrite list_elem_of_filter. split.
    - intros ([q' x] & -> & Hq & _). done.
    - intros Hq. pose proof Hq as (x & Hx & _)%Hc. exists (q, x). split; [done|]. split; [done|]. by apply elem_of_map_to_list. }
  rewrite <- (length_fmap fst l). rewrite Hp. done.
Qed.

(** The zk keys of those that submitted are distinct. *)
Lemma submitted_keys ts t : target_ok ts t → NoDup ((λ x : ProviderId * (ZkPublicKey * Z), x.2.1) <$> map_to_list (submitted_proofs t)).
Proof.
  intros Hok. apply NoDup_fmap_2_strong; [|apply NoDup_map_to_list]. intros [p1 x1] [p2 x2] Hs1%elem_of_map_to_list Hs2%elem_of_map_to_list Heq.
  destruct (to_submitted _ _ Hok _ _ Hs1) as (i1 & Hp1). destruct (to_submitted _ _ Hok _ _ Hs2) as (i2 & Hp2).
  assert (p1 = p2) as <- by (by eapply to_keys). congruence.
Qed.

Lemma submitted_size ts t : target_ok ts t →
  (size (closest (min_hamming_distance t)) <= size (submitted_proofs t) <= size (providers ts))%nat.
Proof.
  intros Hok. split.
  - rewrite <- size_dom. apply subseteq_size. intros p Hp. apply (tr_closest _ (to_tracker _ _ Hok)) in Hp as (x & Hx & _). by eapply elem_of_dom_2.
  - rewrite <- !size_dom. apply subseteq_size. intros p [x Hx]%elem_of_dom. destruct (to_submitted _ _ Hok _ _ Hx) as (i & Hp). by eapply elem_of_dom_2.
Qed.

(** ** The payout *)

(** The income of a target epoch is divided into one share per proof, and one
    more per closest provider. *)
Definition shares t : Z := Z.of_nat (size (submitted_proofs t)) + Z.of_nat (size (closest (min_hamming_distance t))).

Record paid ts t (utxos : list Utxo) : Prop := {
  pd_notes : (note <$> utxos) ≡ₚ
    reward_note <$> filter (λ x, 0 < x.2) (reward_entry (ts_epoch_income ts / shares t) (closest (min_hamming_distance t)) <$> map_to_list (submitted_proofs t));
  pd_sorted : Sorted (λ u1 u2, pk (note u1) <= pk (note u2)) utxos;
  pd_total : utxos_value utxos = ts_epoch_income ts / shares t * shares t
}.

Lemma Sorted_fmap_note (l : list (ZkPublicKey * Z)) id : Sorted by_zk_id l →
  Sorted (λ u1 u2, pk (note u1) <= pk (note u2)) (utxos_of id (reward_note <$> l)).
Proof.
  unfold utxos_of. intros Hs. generalize 0%nat as k. assert (∀ k, Sorted (λ u1 u2, pk (note u1) <= pk (note u2)) (imap (λ i n, mkUtxo id (Z.of_nat (k + i)) n) (reward_note <$> l))) as Hg; [|intros _; apply (Hg 0%nat)].
  induction Hs as [|x l Hs IH Hhd]; intros k; cbn [fmap list_fmap imap]; [constructor|]. constructor.
  - specialize (IH (S k)). erewrite imap_ext; [exact IH|]. intros i y _. cbn. by rewrite Nat.add_succ_r.
  - destruct Hhd; cbn; constructor. done.
Qed.

Lemma target_finalize_ok {E : Type} ts t : target_ok ts t → submitted_proofs t ≠ ∅ →
  ∃ utxos, target_finalize (E:=E) t ts = Ok (target_tracker_new, utxos) ∧ paid ts t utxos.
Proof.
  intros Hok Hne. pose proof (submitted_size ts t Hok) as [Hs1 Hs2]. pose proof (to_leaves _ _ Hok) as Hl. change TOTAL_MERKLE_LEAVES with 1048576 in Hl.
  apply map_choose in Hne as (p & x & Hx). pose proof (closest_some t p x (to_tracker _ _ Hok) Hx) as Hc.
  assert (size (closest (min_hamming_distance t)) ≠ 0)%nat as Hc0 by (by rewrite size_empty_iff, leibniz_equiv_iff).
  unfold target_finalize. rewrite bool_decide_eq_false_2; [|intros Hemp; rewrite Hemp in Hx; by apply lookup_empty_Some in Hx].
  rewrite strict_add_in by (unfold u64_max; lia). cbn [mbind result_bind]. fold (shares t).
  assert (2 <= shares t) as Hsh by (unfold shares; lia). rewrite div_in by lia. cbn [mbind result_bind].
  pose proof (to_income _ _ Hok) as [Hi0 Hi1]. set (base := ts_epoch_income ts / shares t).
  assert (0 <= base ∧ base * shares t <= ts_epoch_income ts) as [Hb0 Hb1].
  { subst base. split; [apply Z.div_pos; lia|]. rewrite Z.mul_comm. apply Z.mul_div_le. lia. }
  destruct (reward_providers_ok (E:=E) base (closest (min_hamming_distance t)) (map_to_list (submitted_proofs t)) Hb0 ltac:(nia)
    (submitted_keys ts t Hok) ∅ ltac:(intros; apply lookup_empty)) as (m & -> & Hm). rewrite map_to_list_empty, app_nil_r in Hm.
  cbn [mbind result_bind]. eexists. split; [done|]. unfold distribute_rewards. fold reward_note. split.
  - rewrite utxos_of_note. rewrite merge_sort_Permutation, Hm. done.
  - apply Sorted_fmap_note. apply Sorted_merge_sort. intros a b. unfold by_zk_id. lia.
  - rewrite utxos_of_value, merge_sort_Permutation, Hm, positive_notes_value, shares_value, (premium_count t (to_tracker _ _ Hok)).
    + fold base. rewrite length_map_to_list. unfold shares. lia.
    + apply Forall_fmap, Forall_forall. intros y _. cbn. unfold share. case_bool_decide; lia.
Qed.

(** ** The providers of an epoch *)

Lemma size_keys (keys : list Z) : (size (list_to_set keys : gset Z) <= length keys)%nat.
Proof.
  induction keys as [|k keys IH]; [done|]. cbn [list_to_set length]. rewrite size_union_alt, size_singleton.
  assert (size ((list_to_set keys : gset Z) ∖ {[k]}) <= size (list_to_set keys : gset Z))%nat; [apply subseteq_size; set_solver|lia].
Qed.

Lemma tree_from_ordered_ok keys root : tree_from_ordered keys = Ok root →
  NoDup keys ∧ Z.of_nat (length keys) <= TOTAL_MERKLE_LEAVES.
Proof.
  unfold tree_from_ordered. intros Ht. peel Ht as [] _. peel Ht as [] Hl. apply err_if_ok, Z.ltb_ge in Hl.
  peel Ht as [] Hd. apply err_if_ok, negb_false_iff, Nat.eqb_eq in Hd. split; [|done]. clear Ht Hl.
  induction keys as [|k keys IH]; [constructor|]. change (size ({[k]} ∪ list_to_set keys : gset Z) = S (length keys)) in Hd.
  pose proof (size_keys keys) as Hle.
  destruct (decide (k ∈ keys)) as [Hk|Hk].
  - rewrite subseteq_union_1_L in Hd by (apply singleton_subseteq_l; by apply elem_of_list_to_set).
    unfold ZkPublicKey in *. lia.
  - constructor; [done|]. apply IH. rewrite size_union, size_singleton in Hd; [unfold ZkPublicKey in *; lia|]. apply disjoint_singleton_l. by rewrite elem_of_list_to_set.
Qed.

Lemma foldl_insert {A} (l : list (ProviderId * A)) : NoDup l.*1 → ∀ m : gmap ProviderId A,
  foldl (λ m x, <[x.1 := x.2]> m) m l = list_to_map l ∪ m.
Proof.
  induction l as [|[p a] l IH]; intros Hnd m; cbn [foldl]; [by rewrite list_to_map_nil, map_empty_union|].
  apply NoDup_cons in Hnd as [Hp Hnd]. rewrite IH by done. cbn [fst snd]. rewrite list_to_map_cons, <- insert_union_l, insert_union_r; [done|].
  by apply not_elem_of_list_to_map_1.
Qed.

Lemma providers_ok {E : Type} (ds : Declarations) ps root : distinct_providers ds → providers_and_zk_root (E:=E) ds = Ok (ps, root) →
  size ps = size ds ∧ Z.of_nat (size ps) <= TOTAL_MERKLE_LEAVES ∧
  ∀ p1 p2 x1 x2, ps !! p1 = Some x1 → ps !! p2 = Some x2 → x1.1 = x2.1 → p1 = p2.
Proof.
  intros Hds Hp. unfold providers_and_zk_root in Hp. peel Hp as [nodes root'] Hn. apply unwrap_ok in Hn. injection Hp as <- <-.
  unfold sort_nodes_and_build_merkle_tree in Hn. peel Hn as r Hr. injection Hn as Hnodes <-. rewrite Hnodes in Hr.
  apply tree_from_ordered_ok in Hr as [Hkeys Hlen].
  assert (nodes ≡ₚ (λ x : DeclarationId * Declaration, (provider_id x.2, zk_id x.2)) <$> map_to_list ds) as Hperm.
  { rewrite <- Hnodes, merge_sort_Permutation. by rewrite ordered_entries_perm. }
  assert (NoDup nodes.*1) as Hnd.
  { rewrite Hperm, <- list_fmap_compose. apply NoDup_fmap_2_strong; [|apply NoDup_map_to_list].
    intros [i1 d1] [i2 d2] Hd1%elem_of_map_to_list Hd2%elem_of_map_to_list Heq. assert (i1 = i2) as <- by (by eapply Hds). congruence. }
  set (l := imap _ nodes). assert (l.*1 = nodes.*1) as Hl1.
  { apply list_eq. intros i. unfold l. rewrite !list_lookup_fmap, list_lookup_imap. by destruct (nodes !! i). }
  rewrite foldl_insert, (right_id_L ∅ (∪)) by (by rewrite Hl1).
  assert (size (list_to_map l : gmap ProviderId (ZkPublicKey * Z)) = length nodes) as Hsize.
  { rewrite <- length_map_to_list, map_to_list_to_map by (by rewrite Hl1). unfold l. apply length_imap. }
  rewrite length_fmap in Hlen. rewrite Hsize. split_and!; [by rewrite Hperm, length_fmap, length_map_to_list|done|].
  intros p1 p2 x1 x2 Hx1%elem_of_list_to_map_2 Hx2%elem_of_list_to_map_2 Heq. unfold l in Hx1, Hx2.
  apply elem_of_lookup_imap in Hx1 as (i1 & [q1 z1] & [= -> ->] & Hi1). apply elem_of_lookup_imap in Hx2 as (i2 & [q2 z2] & [= -> ->] & Hi2).
  cbn in Heq. subst z2. assert (i1 = i2) as <-; [|congruence].
  eapply (NoDup_lookup nodes.*2); [done|by rewrite list_lookup_fmap, Hi1|by rewrite list_lookup_fmap, Hi2].
Qed.

Lemma ceil_nonneg x : 0 <= f64_ceil_u64 x.
Proof.
  unfold f64_ceil_u64. destruct x as [s|[]| |[] m e]; try (unfold u64_max; lia). apply Z.min_glb; [unfold u64_max; lia|].
  destruct (Z.leb_spec 0 e); [apply Z.mul_nonneg_nonneg; [lia|apply Z.pow_nonneg; lia]|].
  assert (Z.neg m / 2 ^ (- e) <= 0); [|lia]. apply Z.div_le_upper_bound; [apply Z.pow_pos_nonneg; lia|lia].
Qed.

Lemma evaluation_new_ok quota n sensitivity v : evaluation_new quota n sensitivity = Ok v → 0 <= token_count_byte_len v.
Proof.
  unfold evaluation_new, token_count_bit_len. intros Hv. peel Hv as bits Hb. peel Hv as th Hth. injection Hv as <-. cbn.
  peel Hb as total Ht. peel Hb as [] He. peel Hb as x Hx. peel Hb as l Hl. injection Hb as <-. pose proof (ceil_nonneg l).
  unfold div_ceil. pose proof (Z.div_pos (f64_ceil_u64 l) 8). destruct (_ =? _); lia.
Qed.

(** ** What the ledger relies on *)

Lemma current_finalize_ok {E : Type} ct cs les es lp p o : 0 <= ct_epoch_income ct <= u64_max → epoch_declarations_ok les →
  current_finalize (E:=E) ct cs les es lp p = Ok o →
  rewards_ok (from_output o target_tracker_new) ∧ rewards_income (from_output o target_tracker_new) <= ct_epoch_income ct.
Proof.
  intros Hct Hds Hf. unfold current_finalize in Hf. peel Hf as [] _. peel Hf as [] _. peel Hf as f _.
  destruct (_ <? _); [peel Hf as c _; injection Hf as <-; cbn; unfold u64_max; lia|].
  destruct (Z.ltb_spec (match active_declarations_of les !! BlendNetwork with Some ds => Z.of_nat (size ds) | None => 0 end) (minimum_network_size lp)) as [_|Hmin];
    [peel Hf as c _; injection Hf as <-; cbn; unfold u64_max; lia|].
  peel Hf as ds Hd. apply expect_ok in Hd. rewrite Hd in Hmin. peel Hf as [ps root] Hps. peel Hf as [q ev] Hev. peel Hf as c _. injection Hf as <-.
  apply providers_ok in Hps as (Hsize & Hleaves & Hkeys); [|by eapply Hds]. apply unwrap_ok in Hev. unfold core_quota_and_token_evaluation in Hev.
  peel Hev as q' _. peel Hev as ev' Hev'. injection Hev as -> ->. apply evaluation_new_ok in Hev'. cbn. split; [|lia].
  split; [|unfold u64_max; lia]. split; cbn; [done|lia|done|done| |done|apply tracker_new_ok].
  intros p' x Hx. by apply lookup_empty_Some in Hx.
Qed.

Lemma verify_proof_ok ts t provider proof cs : target_ok ts t →
  match verify_proof ts provider proof cs with
  | Ok (zk, d) => (∃ i, providers ts !! provider = Some (zk, i)) ∧ 0 <= d <= 512
  | Err _ => True
  | Fault _ => False
  end.
Proof.
  intros Hok. unfold verify_proof. destruct (negb _); [done|]. cbn [err_if mbind result_bind].
  rewrite (proj2 (Z.leb_le _ _)) by apply Hok. cbn [assert_ mbind result_bind].
  destruct (providers ts !! provider) as [[zk i]|] eqn:Hp; [|done]. cbn [ok_or mbind result_bind].
  destruct (verify_and_build _ _ _ _) as [token|]; [|done]. cbn [ok_or mbind result_bind].
  destruct (evaluate_ok (E:=RewardsError) (token_evaluation ts) token (epoch_randomness cs) (to_evaluation _ _ Hok)) as (o & -> & Ho).
  cbn [mbind result_bind]. destruct o as [d|]; [|done]. cbn. split; [by exists i|by apply Ho].
Qed.

Lemma update_active_ok r p m : rewards_ok r →
  match blend_update_active r p m with
  | Ok r' => rewards_ok r' ∧ rewards_income r' = rewards_income r
  | Err _ => True
  | Fault _ => False
  end.
Proof.
  destruct r as [cs ct|ts t cs ct]; [done|]. intros [Hok Hct]. destruct m as [proof]. cbn [blend_update_active].
  pose proof (verify_proof_ok ts t p proof cs Hok) as Hv. destruct (verify_proof ts p proof cs) as [[zk d]|e|f]; [|done..].
  destruct Hv as [[i Hp] Hd]. cbn [mbind result_bind].
  destruct (target_tracker_insert t p (ts_epoch ts) zk d) as [t'|e|f] eqn:Hi; cbn [mbind result_bind]; [|done|].
  - apply tracker_insert_ok in Hi as (Ht' & _ & Hs); [|apply Hok|unfold u64_max; lia]. split; [|done]. split; [|done].
    destruct Hok. split; try done. intros q x. rewrite Hs, lookup_insert_Some. intros [[<- <-]|[_ Hx]]; [by exists i|by apply to_submitted0].
  - unfold target_tracker_insert in Hi. by destruct (bool_decide _).
Qed.

Lemma paid_notes ts t utxos : target_ok ts t → paid ts t utxos → 0 < shares t →
  utxos_value utxos <= ts_epoch_income ts < utxos_value utxos + shares t ∧ Forall (λ u, note_ok (note u)) utxos.
Proof.
  intros Hok [Hn _ Ht] Hs. pose proof (Z.div_mod (ts_epoch_income ts) (shares t)). pose proof (Z.mod_pos_bound (ts_epoch_income ts) (shares t)).
  split; [lia|]. pose proof (to_income _ _ Hok) as [Hi0 Hi1]. set (base := ts_epoch_income ts / shares t) in *.
  apply (Forall_fmap note note_ok). rewrite Hn. apply Forall_fmap, Forall_forall. intros x [Hpos Hx]%list_elem_of_filter.
  apply list_elem_of_fmap in Hx as (y & -> & Hy). unfold note_ok, in_u64. cbn in *. split; [lia|]. unfold share in *.
  destruct y as [p x]. apply elem_of_map_to_list in Hy. assert (0 <= base) by (apply Z.div_pos; lia).
  case_bool_decide as Hp; [|nia]. assert (2 <= shares t); [|nia]. unfold shares.
  assert (submitted_proofs t ≠ ∅) as Hne by (intros Hemp; rewrite Hemp in Hy; by apply lookup_empty_Some in Hy).
  apply map_size_non_empty_iff in Hne. assert (size (closest (min_hamming_distance t)) ≠ 0%nat); [|cbn in *; lia].
  rewrite size_empty_iff, leibniz_equiv_iff. set_solver.
Qed.

#[export] Program Instance blend_rewards_laws : RewardsLaws T (BlendRewards V) RewardsParameters := {|
  rw_ok := rewards_ok; rw_income := rewards_income
|}.
Next Obligation. intros [cs ct|ts t cs ct]; cbn; [lia|]. intros [Hok ?]. pose proof (to_income _ _ Hok). lia. Qed.
Next Obligation. apply update_active_ok. Qed.
Next Obligation.
  intros E [cs ct|ts t cs ct] income; cbn; [intros Hct Hi Hmax|intros [Hok Hct] Hi Hmax; pose proof (to_income _ _ Hok)];
    unfold add_block_rewards; rewrite strict_add_in by lia; cbn; eexists; (split; [done|]); cbn; [lia|split; [split; [done|lia]|lia]].
Qed.
Next Obligation.
  intros E [cs ct|ts t cs ct] les es sp lp p r' utxos; cbn [rewards_ok rw_update_epoch blend_rewards blend_update_epoch].
  - intros Hct Hds Hu. peel Hu as o Ho. injection Hu as <- <-. apply current_finalize_ok in Ho as [? ?]; [|done..]. cbn. split_and!; [done|cbn in *; lia|constructor].
  - intros [Hok Hct] Hds Hu. peel Hu as [t' rewards] Ht. peel Hu as o Ho. injection Hu as <- <-.
    assert (t' = target_tracker_new ∧ utxos_value rewards <= ts_epoch_income ts ∧ Forall (λ u, note_ok (note u)) rewards) as (-> & Hv & Hn).
    { destruct (decide (submitted_proofs t = ∅)) as [Hemp|Hne].
      - unfold target_finalize in Ht. rewrite bool_decide_eq_true_2 in Ht by done. injection Ht as <- <-. cbn. split_and!; [done|apply Hok|constructor].
      - destruct (target_finalize_ok (E:=E) ts t Hok Hne) as (us & Hus & Hpaid). rewrite Hus in Ht. injection Ht as <- <-.
        destruct (paid_notes _ _ _ Hok Hpaid) as [[? ?] ?]; [|done]. apply map_size_non_empty_iff in Hne. unfold shares. lia. }
    apply current_finalize_ok in Ho as [? ?]; [|done..]. split_and!; [done|cbn; lia|done].
Qed.

#[export] Instance blend_new_rewards_laws : NewRewardsLaws T (BlendRewards V) RewardsParameters.
Proof.
  split. intros E params es r Hnew. cbn in Hnew. unfold blend_new in Hnew. peel Hnew as cs Hcs. injection Hnew as <-. cbn. unfold u64_max. lia.
Qed.

(** C32: the payout of a target epoch: the notes are exactly one share of the income
    for each provider that submitted a proof, two for the providers at the
    smallest distance, keyed by their zk keys, which are distinct, in the order
    of the keys; together they are the income but for less than one unit per
    share. *)
Theorem blend_payout {E : Type} ts t : target_ok ts t → submitted_proofs t ≠ ∅ →
  ∃ utxos, target_finalize (E:=E) t ts = Ok (target_tracker_new, utxos) ∧
    utxos_value utxos <= ts_epoch_income ts < utxos_value utxos + shares t ∧
    Sorted (λ u1 u2, pk (note u1) <= pk (note u2)) utxos ∧ NoDup ((λ u, pk (note u)) <$> utxos) ∧
    ∀ n, n ∈ note <$> utxos ↔ 0 < value n ∧ ∃ p d, submitted_proofs t !! p = Some (pk n, d) ∧
      value n = ts_epoch_income ts / shares t * (if d =? min_distance (min_hamming_distance t) then 2 else 1).
Proof.
  intros Hok Hne. destruct (target_finalize_ok (E:=E) ts t Hok Hne) as (utxos & Hf & Hpaid). exists utxos. split; [done|].
  assert (0 < shares t) as Hs by (apply map_size_non_empty_iff in Hne; unfold shares; lia).
  destruct (paid_notes _ _ _ Hok Hpaid Hs) as [Hv _]. destruct Hpaid as [Hn Hsort _]. split_and!; [lia..|done| |].
  - rewrite (list_fmap_compose note pk), Hn, <- list_fmap_compose.
    apply NoDup_fst_filter. rewrite <- list_fmap_compose. by eapply submitted_keys.
  - intros n. rewrite Hn, list_elem_of_fmap. setoid_rewrite list_elem_of_filter. setoid_rewrite list_elem_of_fmap. split.
    + intros (x & -> & Hpos & ([p [zk d]] & -> & Hp%elem_of_map_to_list)). cbn in *. split; [done|]. exists p, d. split; [done|].
      unfold share. pose proof (tr_closest _ (to_tracker _ _ Hok) p) as Hc.
      destruct (Z.eqb_spec d (min_distance (min_hamming_distance t))) as [Hd|Hd].
      * rewrite bool_decide_eq_true_2; [done|]. apply Hc. by exists (zk, d).
      * rewrite bool_decide_eq_false_2, Z.mul_1_r; [done|]. intros (x & Hx & Hxd)%Hc. rewrite Hp in Hx. by injection Hx as <-.
    + intros (Hpos & p & d & Hp & Hval). exists (pk n, value n). split; [by destruct n|]. split; [done|]. exists (p, (pk n, d)).
      split; [|by apply elem_of_map_to_list]. unfold reward_entry, share. cbn. f_equal. rewrite Hval. pose proof (tr_closest _ (to_tracker _ _ Hok) p) as Hc.
      destruct (Z.eqb_spec d (min_distance (min_hamming_distance t))) as [Hd|Hd].
      * rewrite bool_decide_eq_true_2; [done|]. apply Hc. by exists (pk n, d).
      * rewrite bool_decide_eq_false_2, Z.mul_1_r; [done|]. intros (x & Hx & Hxd)%Hc. rewrite Hp in Hx. by injection Hx as <-.
Qed.

(** ** Runs of the service *)

(** The states of a service, with what it has collected and paid out. *)
Inductive blend_run : BlendRewards V → Z → Z → Prop :=
  | blend_start p es r : blend_new (E:=RewardsError) p es = Ok r → blend_run r 0 0
  | blend_income r collected paid income r' : blend_run r collected paid → 0 <= income →
      blend_add_income (E:=RewardsError) r income = Ok r' → blend_run r' (collected + income) paid
  | blend_active r collected paid p m r' : blend_run r collected paid → blend_update_active r p m = Ok r' → blend_run r' collected paid
  | blend_epoch r collected paid les es sp lp p r' utxos : blend_run r collected paid → epoch_declarations_ok les →
      blend_update_epoch (E:=RewardsError) r les es sp lp p = Ok (r', utxos) → blend_run r' collected (paid + utxos_value utxos).

Lemma blend_run_ok r collected paid : blend_run r collected paid → rewards_ok r ∧ paid + rewards_income r <= collected.
Proof.
  induction 1 as [p es r Hnew|r c pd income r' _ [Hok Hle] Hi Hadd|r c pd p m r' _ [Hok Hle] Hact|r c pd les es sp lp p r' utxos _ [Hok Hle] Hds Hep].
  - unfold blend_new in Hnew. peel Hnew as cs Hcs. injection Hnew as <-. cbn. unfold u64_max. lia.
  - destruct r as [cs ct|ts t cs ct]; cbn in Hadd; peel Hadd as ct' Hct; injection Hadd as <-; unfold add_block_rewards in Hct;
      peel Hct as n Hn; injection Hct as <-; apply strict_add_ok in Hn as [-> ?]; cbn in *; [lia|]. destruct Hok as [? ?]. split; [split; [done|cbn; lia]|lia].
  - pose proof (update_active_ok r p m Hok) as Hu. rewrite Hact in Hu. destruct Hu as [? ->]. done.
  - apply (rw_update_epoch_ok (RewardsLaws:=blend_rewards_laws)) in Hep as (? & Hr & _); [|done..]. split; [done|].
    change (rewards_income r' + utxos_value utxos <= rewards_income r) in Hr. lia.
Qed.

(** C31: a service never pays more than it collected: over any run, what it has
    paid out and what it still holds is covered by its income; and no activity
    message makes it panic. *)
Theorem blend_solvent r collected paid : blend_run r collected paid →
  paid + rewards_income r <= collected ∧ 0 <= rewards_income r ∧
  ∀ p m, (∃ r', blend_update_active r p m = Ok r') ∨ (∃ e, blend_update_active r p m = Err e).
Proof.
  intros Hrun. apply blend_run_ok in Hrun as [Hok Hle]. split_and!; [done|by apply (rw_income_nonneg (RewardsLaws:=blend_rewards_laws))|].
  intros p m. pose proof (update_active_ok r p m Hok) as Hu. destruct (blend_update_active r p m) as [r'|e|f]; [left|right|done]; by eexists.
Qed.

End Rewards.

End BlendFacts.
