(* ===== verification/LedgerInvariant.v ===== *)
(** * Who may act on a channel

    What the verification of channel operations amounts to: the turn of the
    sequencer for an inscription, the accredited signatures for a configuration,
    a withdrawal and a channel transfer. The first module, [ChannelFacts], is
    about channels; [LedgerInvariant] about the whole ledger. *)

From S2P Require Import Prelude Era EngineConfig MerkleStore Codec CodecLaws Ops OpsCodec Channels Utxos ServiceNotes Inputs ChannelOps SignedTx SdpOps SdpTheorems LedgerConfig ClaimOps TxVerification NoteFacts Leaders Pow PowTheorems Markets Cryptarchia Ledger.

#[local] Open Scope Z_scope.

Module ChannelFacts.
Import Canonical Ops OpsCodec Utxos Channels ServiceNotes Inputs ChannelOps SignedTx SdpOps LedgerConfig ClaimOps TxVerification Leaders Pow Markets Cryptarchia Ledger.

Section Signatures.
Context `{Ed25519Verify}.
Implicit Types (ch : ChannelState) (proof : ChannelMultiSigProof) (tx_hash : TxHash).

(** Every signature of the proof is by the key it names. *)
Definition signed_by ch tx_hash proof : Prop :=
  Forall (λ e, ∃ key, accredited_keys ch !! Z.to_nat e.1 = Some key ∧ verify_strict key tx_hash e.2 = true) proof.

Lemma some_key_ok (key : Ed25519Key) (f : Ed25519Key → bool) : (∃ k, Some key = Some k ∧ f k = true) ↔ f key = true.
Proof. split; [by intros (k & [= <-] & ?)|by exists key]. Qed.

Lemma channel_signatures_ok ch tx_hash proof : channel_signatures ch tx_hash proof = Ok tt ↔ signed_by ch tx_hash proof.
Proof.
  unfold signed_by. induction proof as [|[i sig] proof IH]; cbn [channel_signatures]; [by split|].
  rewrite Forall_cons, <- IH. cbn [fst snd]. destruct (accredited_keys ch !! Z.to_nat i) as [key|]; cbn [ok_or mbind result_bind].
  - rewrite (some_key_ok key (λ k, verify_strict k tx_hash sig)). destruct (verify_strict key tx_hash sig); cbn [negb err_if mbind result_bind]; intuition congruence.
  - split; [done|]. by intros [(key & ? & _) _].
Qed.

Lemma config_signatures_ok op ch tx_hash proof : config_signatures op ch tx_hash proof = Ok tt ↔ signed_by ch tx_hash proof.
Proof.
  unfold signed_by. induction proof as [|[i sig] proof IH]; cbn [config_signatures]; [by split|].
  rewrite Forall_cons, <- IH. cbn [fst snd]. destruct (accredited_keys ch !! Z.to_nat i) as [key|]; cbn [ok_or mbind result_bind].
  - rewrite (some_key_ok key (λ k, verify_strict k tx_hash sig)). destruct (verify_strict key tx_hash sig); cbn [negb err_if mbind result_bind]; intuition congruence.
  - split; [done|]. by intros [(key & ? & _) _].
Qed.

(** The keys a channel ledger looks up. *)
Definition threshold_in (c : Channels) (id : ChannelId) : result MultiSigError Z :=
  ch ← ok_or (channels c !! id) (MultiSigChannelNotFound id); Ok (transfer_threshold ch).
Definition key_in (c : Channels) (id : ChannelId) (index : Z) : result MultiSigError Ed25519Key :=
  ch ← ok_or (channels c !! id) (MultiSigChannelNotFound id); ok_or (accredited_keys ch !! Z.to_nat index) (KeyNotFound id index).

Lemma multi_sig_loop_ok c id ch tx_hash op_index proof : channels c !! id = Some ch → ∀ entry,
  multi_sig_loop (key_in c) id tx_hash op_index entry proof = Ok tt ↔ signed_by ch tx_hash proof.
Proof.
  intros Hch. unfold signed_by. induction proof as [|[i sig] proof IH]; intros entry; cbn [multi_sig_loop]; [by split|].
  rewrite Forall_cons, <- (IH (entry + 1)). cbn [fst snd].
  assert (key_in c id i = ok_or (accredited_keys ch !! Z.to_nat i) (KeyNotFound id i)) as -> by (unfold key_in; by rewrite Hch).
  destruct (accredited_keys ch !! Z.to_nat i) as [key|]; cbn [ok_or mbind result_bind].
  - rewrite (some_key_ok key (λ k, verify_strict k tx_hash sig)). destruct (verify_strict key tx_hash sig); cbn [negb err_if mbind result_bind]; intuition congruence.
  - split; [done|]. by intros [(key & ? & _) _].
Qed.

(** The proof carries as many signatures as the channel asks for a transfer. *)
Record spend_authorized (c : Channels) (id : ChannelId) ch tx_hash proof : Prop := {
  sa_channel : channels c !! id = Some ch;
  sa_threshold : Z.of_nat (length proof) = transfer_threshold ch;
  sa_signed : signed_by ch tx_hash proof
}.

Lemma multi_sig_ok c id tx_hash proof op_index :
  verify_channel_multi_sig (threshold_in c) (key_in c) id proof tx_hash op_index = Ok tt ↔
  ∃ ch, spend_authorized c id ch tx_hash proof.
Proof.
  unfold verify_channel_multi_sig, threshold_in at 1. destruct (channels c !! id) as [ch|] eqn:Hch; cbn [ok_or mbind result_bind].
  - destruct (Z.eqb_spec (Z.of_nat (length proof)) (transfer_threshold ch)); cbn [negb err_if mbind result_bind].
    + rewrite (multi_sig_loop_ok c id ch) by done. split; [by exists ch|]. intros (ch' & [Hc' _ ?]). congruence.
    + split; [done|]. intros (ch' & [Hc' ? _]). congruence.
  - split; [done|]. intros (ch' & [Hc' _ _]). congruence.
Qed.

Section Store.
Context {T : Type} `{!KeyedStoreOps T NoteId Utxo, !KeyedStore T NoteId Utxo} `{Poseidon2Crate} `{Blake2Crate}.
Implicit Types (utxos : T) (c : Channels) (sn : ServiceNotes).

(** The inputs are distinct unspent notes of the channel, locked by no service. *)
Definition channel_inputs utxos c sn (id : ChannelId) (inputs : list NoteId) : Prop :=
  NoDup inputs ∧ ∀ i, i ∈ inputs → is_Some (ks_view utxos !! i) ∧ sn !! i = None ∧ channel_notes c !! i = Some id.

Lemma withdraw_verify_iff op proof c sn utxos tx_hash op_index : ks_ok utxos →
  withdraw_verify (threshold_in c) (key_in c) op proof c sn utxos tx_hash op_index = Ok tt ↔
  (∃ ch, spend_authorized c (w_channel_id op) ch tx_hash proof) ∧ channel_inputs utxos c sn (w_channel_id op) (w_inputs op).
Proof.
  intros Hok. unfold channel_inputs. rewrite <- (validate_in_channel_ok (w_inputs op) sn c (w_channel_id op) utxos Hok).
  unfold withdraw_verify. setoid_rewrite <- (multi_sig_ok c (w_channel_id op) tx_hash proof op_index).
  destruct (verify_channel_multi_sig _ _ _ _ _ _) as [[]|e|f] eqn:Hm; cbn [map_err mbind result_bind]; [|naive_solver..].
  apply multi_sig_ok in Hm as (ch & [Hch Hth Hs]). rewrite Hch. cbn [ok_or mbind result_bind].
  destruct (validate_in_channel _ _ _ _ _) as [[]|e|f]; cbn [map_err mbind result_bind]; [|naive_solver..].
  rewrite (proj2 (Z.eqb_eq _ _) Hth). cbn [negb err_if mbind result_bind]. rewrite channel_signatures_ok. naive_solver.
Qed.

Lemma channel_transfer_verify_iff op proof c sn utxos tx_hash op_index : ks_ok utxos → utxos_u64 utxos →
  Forall note_ok (ct_outputs op) →
  channel_transfer_verify (threshold_in c) (key_in c) op proof c sn utxos tx_hash op_index = Ok tt ↔
  (∃ ch, spend_authorized c (ct_channel_id op) ch tx_hash proof) ∧
  channel_inputs utxos c sn (ct_channel_id op) (ct_inputs op) ∧
  inputs_value (ks_view utxos) (ct_inputs op) = notes_value (ct_outputs op) ∧ notes_value (ct_outputs op) <= u64_max.
Proof.
  intros Hok Hu Ho. unfold channel_inputs. rewrite <- (validate_in_channel_ok (ct_inputs op) sn c (ct_channel_id op) utxos Hok).
  unfold channel_transfer_verify. setoid_rewrite <- (multi_sig_ok c (ct_channel_id op) tx_hash proof op_index).
  destruct (verify_channel_multi_sig _ _ _ _ _ _) as [[]|e|f] eqn:Hm; cbn [map_err mbind result_bind]; [|naive_solver..].
  apply multi_sig_ok in Hm as (ch & [Hch Hth Hs]). rewrite Hch. cbn [ok_or mbind result_bind].
  destruct (validate_in_channel _ _ _ _ _) as [[]|e|f] eqn:Hin; cbn [map_err mbind result_bind]; [|naive_solver..].
  apply validate_in_channel_ok in Hin as [_ Hin]; [|done].
  rewrite inputs_amount_sum, outputs_amount_sum by (done || intros i Hi; by apply Hin).
  destruct (Z.leb_spec (inputs_value (ks_view utxos) (ct_inputs op)) u64_max); cbn [map_err mbind result_bind]; [|naive_solver lia].
  destruct (Z.leb_spec (notes_value (ct_outputs op)) u64_max); cbn [map_err mbind result_bind]; [|naive_solver lia].
  destruct (Z.eqb_spec (inputs_value (ks_view utxos) (ct_inputs op)) (notes_value (ct_outputs op))); cbn [negb err_if mbind result_bind]; [|naive_solver].
  rewrite (proj2 (Z.eqb_eq _ _) Hth). cbn [negb err_if mbind result_bind]. rewrite channel_signatures_ok. naive_solver.
Qed.

End Store.

End Signatures.

End ChannelFacts.

(** * The invariant of the ledger

    What every reachable ledger state satisfies, its total supply, and that a
    verified operation executes without a panic, keeps the invariant and
    conserves the supply: what leaves the notes is in a pool or in the balance of
    the transaction. *)

#[local] Open Scope Z_scope.

Module LedgerInvariant.
Import Canonical Ops OpsCodec Utxos Channels ServiceNotes Inputs ChannelOps SignedTx SdpOps SdpFacts SdpTheorems LedgerConfig ClaimOps TxVerification NoteFacts Leaders Pow PowTheorems Markets Cryptarchia Ledger ChannelFacts.

Section Invariant.
Context {T R Params P Id : Type} `{!KeyedStoreOps T NoteId Utxo, !KeyedStore T NoteId Utxo}.
Context `{!Rewards T R Params, !RewardsLaws T R Params}.
Context `{Poseidon2Crate} `{Blake2Crate} `{Ed25519Crate} `{MultiaddrCrate} `{Ed25519Verify} `{PoCVerify}.
Implicit Types (s : LedgerState T R) (m : MantleLedger R) (c : Config Params) (eras : EraSchedule (Config Params)) (tx_hash : TxHash).

Notation utxos_of_state s := (cl_utxos (cryptarchia_ledger s)).

(** ** Supply *)

(** The income the Blend service holds back. *)
Definition blend_income (sdp : SdpLedger R) : Z := from_option (λ v, rw_income (s_rewards v)) 0 (services sdp !! BlendNetwork).

(** The pools of leaders, of proof of work and of the Blend service. *)
Definition pools m : Z :=
  claimable_rewards (m_leaders m) + pending_rewards (m_leaders m) +
  (reward_pool (ps_reward (m_pow m)) + refill_rewards (ps_reward (m_pow m))) + blend_income (m_sdp m).

Definition supply s : Z := notes_total (utxos_of_state s) + pools (mantle_ledger s).

(** ** Invariant *)

Record pow_ok (p : PowState) : Prop := {
  po_pool : 0 <= reward_pool (ps_reward p) <= u64_max;
  po_refill : 0 <= refill_rewards (ps_reward p);
  po_reward : 0 <= epoch_reward (ps_reward p) <= u64_max;
  po_slots : ∀ h slot, block_slots (ps_reward p) !! h = Some slot → 0 <= slot
}.

(** A channel of the ledger is well-formed, and neither its configuration nor its
    notes can be touched without a signature. *)
Definition channel_ok (now : Z) (ch : ChannelState) : Prop :=
  channel_wf now ch ∧ 1 <= configuration_threshold ch ∧ 1 <= transfer_threshold ch.

Definition channels_wf (now : Z) (cs : Channels) : Prop := ∀ id ch, channels cs !! id = Some ch → channel_ok now ch.

Record mantle_ok (utxos : T) (now number : Z) m : Prop := {
  mo_notes : notes_ok utxos (m_channels m) (sdp_service_notes (m_sdp m));
  mo_channels : channels_wf now (m_channels m);
  mo_sdp : ∃ v, sdp_ok_with (m_sdp m) v ∧ rw_ok (s_rewards v);
  mo_leaders : ∃ xs, leaders_ok xs (m_leaders m) ∧ Z.of_nat (length xs) = number;
  mo_pow : pow_ok (m_pow m);
  mo_epoch : l_epoch (m_leaders m) = sdp_epoch (m_sdp m)
}.

Definition ledger_ok s : Prop := 
  mantle_ok (utxos_of_state s) (cl_slot (cryptarchia_ledger s)) (block_number s) (mantle_ledger s).

Lemma blend_income_with sdp v : sdp_ok_with sdp v → blend_income sdp = rw_income (s_rewards v).
Proof. intros [Hs _ _ _]. unfold blend_income. by rewrite Hs, lookup_singleton_eq. Qed.

(** The pools never hold a debt, so each is bounded by the supply. *)
Lemma pools_nonneg utxos now number m : mantle_ok utxos now number m →
  0 <= claimable_rewards (m_leaders m) ∧ 0 <= pending_rewards (m_leaders m) ∧ 0 <= reward_pool (ps_reward (m_pow m)) ∧
  0 <= refill_rewards (ps_reward (m_pow m)) ∧ 0 <= blend_income (m_sdp m).
Proof.
  intros [_ _ (v & Hv & Hr) (xs & [_ ? ? _] & _) [? ? ? _] _]. rewrite (blend_income_with _ v Hv).
  pose proof (rw_income_nonneg _ Hr). lia.
Qed.

(** ** Freshness *)

(** The notes an operation creates. *)
Definition op_notes s (op : SignedOp) : list Utxo :=
  let m := mantle_ledger s in
  let id := op_digest (operation op) in
  match op with
  | SignedDeposit op _ => utxos_of id (input_notes (utxos_of_state s) (d_inputs op))
  | SignedChannelTransfer op _ => utxos_of id (ct_outputs op)
  | SignedLeaderClaim op _ => [mkUtxo id 0 (mkNote (reward_amount (m_leaders m)) (lc_pk op))]
  | SignedTransfer op _ => utxos_of id (t_outputs op)
  | SignedClaimPow op => [mkUtxo id 0 (mkNote (epoch_reward (ps_reward (m_pow m))) (cp_public_key op))]
  | _ => []
  end.

(** The hashes of these notes collide neither with each other nor with an unspent
    note, and the tree has room for them. *)
Definition op_fresh s op : Prop := insertable (utxos_of_state s) (op_notes s op).

(** ** Operations on channels *)

Lemma msg_id_ok {E C V} (cd : Codec C V) `{!CanonicalCodec cd} ctx v : valid cd ctx v →
  msg_id_of (E:=E) cd v = Ok (blake2b_256 (bytes cd v)).
Proof. intros Hv. unfold msg_id_of. by rewrite (encode_ok ctx v Hv). Qed.

Lemma inscribed_channel_ok op now : 0 <= now → channel_ok now (inscribed_channel op now).
Proof. intros. split; [|done]. split; cbn; unfold u16_max, in_u32, u32_max; lia. Qed.

Lemma channels_wf_insert now cs id ch notes : channels_wf now cs → channel_ok now ch →
  channels_wf now (mkChannels (<[id := ch]> (channels cs)) notes).
Proof. intros Hcs Hch id' ch'. cbn. rewrite lookup_insert_Some. intros [[_ <-]|[_ ?]]; [done|by eapply Hcs]. Qed.

Lemma notes_ok_insert_channel utxos cs sn id ch : notes_ok utxos cs sn →
  notes_ok utxos (mkChannels (<[id := ch]> (channels cs)) (channel_notes cs)) sn.
Proof.
  intros [Hs Hk Hc Hn]. split; [done..| |done]. intros i x Hi. destruct (Hc i x Hi) as (? & ? & ?). split_and!; [done| |done].
  cbn. rewrite lookup_insert_is_Some'. by right.
Qed.

Lemma inscription_ok {E} max op cs now : op_wf max (ChannelInscribe op) → channels_wf now cs → 0 <= now <= slot_bound →
  ∃ ch, inscription_execute (E:=E) op cs now = Ok (mkChannels (<[i_channel_id op := ch]> (channels cs)) (channel_notes cs)) ∧
    channel_ok now ch.
Proof.
  intros Hwf Hcs Hnow. unfold inscription_execute.
  set (ch := default (inscribed_channel op now) (channels cs !! i_channel_id op)).
  assert (channel_ok now ch) as [Hch Hth].
  { unfold ch. destruct (channels cs !! i_channel_id op) as [x|] eqn:Hx; cbn; [by eapply Hcs|apply inscribed_channel_ok; lia]. }
  destruct (round_robin_range (E:=E) ch now now Hch ltac:(lia)) as (i & st & -> & Hi & Hst). cbn [mbind result_bind].
  rewrite (msg_id_ok inscription_codec max) by by apply (payload_valid_wf max (ChannelInscribe op)). cbn [mbind result_bind].
  eexists. split; [done|]. split; [|done]. destruct Hch. split; cbn; done || lia.
Qed.

Lemma config_ok {E} max op cs now : op_wf max (ChannelConfig op) → 0 <= now →
  ∃ ch, config_execute (E:=E) op cs now = Ok (mkChannels (<[c_channel op := ch]> (channels cs)) (channel_notes cs)) ∧
    channel_ok now ch.
Proof.
  intros Hwf Hnow. unfold config_execute.
  rewrite (msg_id_ok channel_config_codec tt) by by apply (payload_valid_wf max (ChannelConfig op)). cbn [mbind result_bind].
  eexists. split; [done|]. destruct Hwf as (_ & _ & Hk & _ & Htf & Hto & Hct & Htt). unfold CHANNEL_MAX_KEYS in Hk.
  split; [split; cbn; done || lia|cbn; lia].
Qed.

(** ** Outcomes *)

Notation ledger_result := (result (LedgerError Id)).

(** What is left to fail when a verified operation executes: its data is larger
    than its era allows, a sum overflows, or the service refuses the activity. *)
Definition late_error (e : LedgerError Id) : Prop :=
  match e with
  | OpDataTooLarge _ _ | LedgerBalanceOverflow => True
  | Mantle (MantleChannel (ChannelInputsErr InputsOverflow)) => True
  | Mantle (MantleTransfer (TransferInputs InputsOverflow)) | Mantle (MantleTransfer (TransferOutputs OutputsOverflow)) => True
  | Mantle (MantleSdp (ServiceParamsNotFound _)) | Mantle (MantleSdp (RewardsErr _)) => True
  | _ => False
  end.

(** The state after an operation: only the notes of the consensus ledger change,
    the epoch stays, and what the supply lost is in the balance. *)
Record op_applied s (balance : Z) s' (balance' : Z) : Prop := {
  oa_ok : ledger_ok s';
  oa_supply : supply s' + balance' = supply s + balance;
  oa_number : block_number s' = block_number s;
  oa_consensus : cryptarchia_ledger s' = update_utxos (cryptarchia_ledger s) (utxos_of_state s');
  oa_epoch : sdp_epoch (m_sdp (mantle_ledger s')) = sdp_epoch (m_sdp (mantle_ledger s));
  oa_vouchers : vouchers (m_leaders (mantle_ledger s')) = vouchers (m_leaders (mantle_ledger s))
}.

Definition op_outcome s (balance : Z) (out : ledger_result (LedgerState T R * Z * list TxEvent)) : Prop :=
  match out with
  | Ok (s', balance', _) => op_applied s balance s' balance'
  | Err e => late_error e
  | Fault _ => False
  end.

Lemma with_channels_applied s balance cs utxos : ledger_ok s → channels_wf (cl_slot (cryptarchia_ledger s)) cs →
  notes_ok utxos cs (sdp_service_notes (m_sdp (mantle_ledger s))) → notes_total utxos = notes_total (utxos_of_state s) →
  op_applied s balance (with_utxos (with_mantle s (update_channels (mantle_ledger s) cs)) utxos) balance.
Proof.
  intros [_ _ ? ? ? ?] Hcs Hn Ht. split; [by split|unfold supply; cbn; by rewrite Ht|done..].
Qed.

Lemma update_utxos_id (l : Cryptarchia T) : update_utxos l (cl_utxos l) = l.
Proof. by destruct l. Qed.

Lemma with_utxos_id s : with_utxos s (utxos_of_state s) = s.
Proof. destruct s. unfold with_utxos. cbn. by rewrite update_utxos_id. Qed.

Lemma channel_state_applied s balance cs : ledger_ok s → channels_wf (cl_slot (cryptarchia_ledger s)) cs →
  notes_ok (utxos_of_state s) cs (sdp_service_notes (m_sdp (mantle_ledger s))) →
  op_applied s balance (with_mantle s (update_channels (mantle_ledger s) cs)) balance.
Proof.
  intros Hok Hcs Hn. pose proof (with_channels_applied s balance cs (utxos_of_state s) Hok Hcs Hn eq_refl) as Ha.
  assert (with_utxos (with_mantle s (update_channels (mantle_ledger s) cs)) (utxos_of_state s)
    = with_mantle s (update_channels (mantle_ledger s) cs)) as Heq by (exact (with_utxos_id (with_mantle s _))).
  by rewrite Heq in Ha.
Qed.

(** ** Operations on services *)

Lemma config_for_slot_any {E1 E2} eras slot c : config_for_slot (E:=E1) eras slot = Ok c → config_for_slot (E:=E2) eras slot = Ok c.
Proof. unfold config_for_slot, at_slot. intros Hc. inv_ok Hc. by rewrite Hok. Qed.

(** The locked notes after a declaration. *)
Lemma notes_ok_lock utxos cs sn nid u n' : notes_ok utxos cs sn → ks_view utxos !! nid = Some u → channel_notes cs !! nid = None →
  sn_note n' = from_option sn_note (note u) (sn !! nid) → notes_ok utxos cs (<[nid := n']> sn).
Proof.
  intros [Hs Hk Hc Hn] Hu Hch Hn'. split; [done..| |].
  - intros id ch Hid. destruct (Hc _ _ Hid) as (? & ? & ?). split_and!; [done..|]. by rewrite lookup_insert_ne by congruence.
  - intros id n. rewrite lookup_insert_Some. intros [[<- <-]|[_ Hid]]; [|by apply Hn]. exists u. split; [done|].
    rewrite Hn'. destruct (sn !! nid) as [x|] eqn:Hx; [|done]. destruct (Hn _ _ Hx) as (u' & Hu' & ?). cbn. congruence.
Qed.

Lemma declaration_new_ok {E} epoch op : 0 <= epoch → epoch + SNAPSHOT_FINALIZATION_DELAY <= u32_max →
  ∃ d, declaration_new (E:=E) epoch op = Ok d.
Proof. intros. unfold declaration_new. rewrite strict_add_in by (unfold SNAPSHOT_FINALIZATION_DELAY in *; lia). by eexists. Qed.

Lemma declare_total (sdp : SdpLedger R) v utxos u cs (config : SdpConfig Params) op : sdp_ok_with sdp v →
  0 <= sdp_epoch sdp → sdp_epoch sdp + SNAPSHOT_FINALIZATION_DELAY <= u32_max →
  ks_get utxos (dm_service_note_id op) = Some u →
  declare_validate op (note u) cs (s_declarations v) (s_provider_index v) (sdp_service_notes sdp) (min_stake config) = Ok tt →
  ∃ sdp', try_apply_sdp_declaration sdp utxos op config = Ok sdp'.
Proof.
  intros [Hsv _ _ _] Hpos Hep Hu (_ & _ & _ & Hth & Hused)%declare_validate_ok. unfold try_apply_sdp_declaration, declare_execute.
  rewrite (service_lookup _ _ _ Hsv). cbn [ok_or mbind result_bind].
  destruct (declaration_new_ok (E:=SdpError) (sdp_epoch sdp) op Hpos Hep) as (dd & ->). cbn [mbind result_bind]. rewrite Hu.
  cbn [expect mbind result_bind].
  destruct (lock_total (service_notes (registry_of sdp v)) (min_stake config) (dm_service_type op) (message_id op) (note u)
    (dm_service_note_id op) Hth Hused) as (sn' & ->). by eexists.
Qed.

Lemma find_service_blend (sdp : SdpLedger R) v id dd : services sdp = {[BlendNetwork := v]} → s_declarations v !! id = Some dd →
  find_service sdp id = Some BlendNetwork.
Proof.
  intros Hs Hd. unfold find_service. rewrite Hs, map_to_list_singleton. cbn. by rewrite bool_decide_true by by eexists.
Qed.

(** What a message on an existing declaration can fail with. *)
Definition sdp_late_error (e : SdpLedgerError) : Prop :=
  match e with ServiceParamsNotFound _ | RewardsErr _ => True | _ => False end.

Lemma active_outcome (sdp : SdpLedger R) v dd op (config : SdpConfig Params) : services sdp = {[BlendNetwork := v]} →
  s_declarations v !! am_declaration_id op = Some dd → rw_ok (s_rewards v) →
  match apply_active_msg (T:=T) sdp op config with Ok _ => True | Err e => sdp_late_error e | Fault _ => False end.
Proof.
  intros Hs Hd Hr. unfold apply_active_msg, get_service. rewrite (find_service_blend _ _ _ _ Hs Hd). cbn [ok_or mbind result_bind].
  destruct (service_params config !! BlendNetwork); cbn [ok_or mbind result_bind]; [|done].
  rewrite (service_lookup _ _ _ Hs). cbn [ok_or mbind result_bind]. unfold active_execute. rewrite Hd. cbn [expect mbind result_bind].
  rewrite lookup_insert_eq. cbn [expect mbind result_bind].
  pose proof (λ p, rw_update_active_ok (T:=T) (Params:=Params) (s_rewards v) p (am_metadata op) Hr) as Hl.
  match goal with |- context [rw_update_active _ ?p _] => specialize (Hl p) end.
  destruct (rw_update_active _ _ _); cbn [map_err mbind result_bind]; done.
Qed.

Lemma withdraw_outcome (sdp : SdpLedger R) v dd op (config : SdpConfig Params) : services sdp = {[BlendNetwork := v]} →
  s_declarations v !! wm_declaration_id op = Some dd →
  0 <= sdp_epoch sdp → sdp_epoch sdp + SNAPSHOT_FINALIZATION_DELAY <= u32_max →
  match apply_withdrawn_msg sdp op config with Ok _ => True | Err e => sdp_late_error e | Fault _ => False end.
Proof.
  intros Hs Hd Hpos Hep. unfold apply_withdrawn_msg, get_service. rewrite (find_service_blend _ _ _ _ Hs Hd). cbn [ok_or mbind result_bind].
  destruct (service_params config !! BlendNetwork); cbn [ok_or mbind result_bind]; [|done].
  rewrite (service_lookup _ _ _ Hs). cbn [ok_or mbind result_bind]. unfold sdp_withdraw_execute. rewrite Hd. cbn [expect mbind result_bind].
  by rewrite strict_add_in by (unfold SNAPSHOT_FINALIZATION_DELAY in *; lia).
Qed.

(** A change of the services that keeps the epoch. *)
Lemma sdp_applied s balance sdp v : ledger_ok s → sdp_ok_with sdp v → rw_ok (s_rewards v) →
  rw_income (s_rewards v) = blend_income (m_sdp (mantle_ledger s)) → sdp_epoch sdp = sdp_epoch (m_sdp (mantle_ledger s)) →
  notes_ok (utxos_of_state s) (m_channels (mantle_ledger s)) (sdp_service_notes sdp) →
  op_applied s balance (with_mantle s (with_sdp (mantle_ledger s) sdp)) balance.
Proof.
  intros [_ ? _ ? ? Hep] Hv Hr Hi He Hn. split; cbn [with_mantle mantle_ledger cryptarchia_ledger block_number with_sdp m_sdp m_leaders].
  - split; [done..|by exists v|done|done|]. cbn. by rewrite He.
  - unfold supply, pools. cbn. rewrite (blend_income_with sdp v Hv), Hi. done.
  - done.
  - by rewrite update_utxos_id.
  - done.
  - done.
Qed.

Section Step.
Variables (max : Z) (s : LedgerState T R) (eras : EraSchedule (Config Params)) (c : Config Params) (tx_hash : TxHash).
Variables (index balance : Z) (events : list TxEvent) (d d' : DeferredProofs).
Hypothesis (Hok : ledger_ok s) (Hslot : 0 <= cl_slot (cryptarchia_ledger s) <= slot_bound).
Hypothesis (Hconfig : config_for_slot (E:=LedgerError Id) eras (cl_slot (cryptarchia_ledger s)) = Ok c).
Hypothesis (Hepoch : 0 <= sdp_epoch (m_sdp (mantle_ledger s))).
Hypothesis (Hepoch_max : sdp_epoch (m_sdp (mantle_ledger s)) + SNAPSHOT_FINALIZATION_DELAY <= u32_max).

Notation verified op := (into_verified op index tx_hash (helper_of (mantle_ledger s) (cryptarchia_ledger s) eras) d = Ok d').
Notation step op := (try_apply_op (Id:=Id) s op c tx_hash balance events).

Lemma step_inscribe op proof : op_wf max (ChannelInscribe op) → op_outcome s balance (step (SignedInscribe op proof)).
Proof.
  intros Hwf. cbn [try_apply_op]. unfold check_op_data_size. destruct (_ <? _); cbn [err_if mbind result_bind]; [done|].
  pose proof Hok as [Hn Hcs _ _ _ _].
  destruct (inscription_ok (E:=LedgerError Id) max op (m_channels (mantle_ledger s)) _ Hwf Hcs Hslot) as (ch & -> & Hch).
  cbn [mbind result_bind op_outcome]. apply channel_state_applied; [done|by apply channels_wf_insert|by apply notes_ok_insert_channel].
Qed.

Lemma step_config op proof : op_wf max (ChannelConfig op) → op_outcome s balance (step (SignedConfig op proof)).
Proof.
  intros Hwf. cbn [try_apply_op]. pose proof Hok as [Hn Hcs _ _ _ _].
  destruct (config_ok (E:=LedgerError Id) max op (m_channels (mantle_ledger s)) (cl_slot (cryptarchia_ledger s)) Hwf) as (ch & -> & Hch); [lia|].
  cbn [mbind result_bind op_outcome]. apply channel_state_applied; [done|by apply channels_wf_insert|by apply notes_ok_insert_channel].
Qed.

Lemma step_deposit op proof : op_wf max (ChannelDeposit op) → op_fresh s (SignedDeposit op proof) →
  verified (SignedDeposit op proof) → op_outcome s balance (step (SignedDeposit op proof)).
Proof.
  intros Hwf Hf Hv. pose proof Hok as [Hn Hcs _ _ _ _]. cbn [into_verified helper_of h_channels h_service_notes h_utxos] in Hv.
  rewrite result_bind_ok in Hv. destruct Hv as (p & Hv & _). apply map_err_ok in Hv.
  apply deposit_verify_ok in Hv as (Hch & Hnd & Hin); [|apply Hn].
  cbn [try_apply_op]. unfold check_op_data_size. destruct (_ <? _); cbn [err_if mbind result_bind]; [done|].
  destruct (deposit_ok max op _ _ _ tx_hash Hn Hwf Hch Hnd Hin Hf) as [->|(cs & utxos & ev & -> & Hn' & Hcc & Ht)]; [done|].
  cbn [channel_err map_err mbind result_bind op_outcome]. apply with_channels_applied; [done| |done..].
  intros id ch. rewrite Hcc. apply Hcs.
Qed.

Lemma step_withdraw op proof : verified (SignedWithdraw op proof) → op_outcome s balance (step (SignedWithdraw op proof)).
Proof.
  intros Hv. pose proof Hok as [Hn Hcs _ _ _ _]. cbn [into_verified] in Hv. rewrite result_bind_ok in Hv.
  destruct Hv as ([] & Hv & _). apply map_err_ok, withdraw_verify_iff in Hv as [_ [Hnd Hin]]; [|apply Hn].
  cbn [try_apply_op]. destruct (withdraw_ok op _ _ _ Hn Hnd) as (cs & -> & Hn' & Hcc); [intros i Hi; by apply Hin|].
  cbn [channel_err map_err mbind result_bind op_outcome]. apply channel_state_applied; [done| |done].
  intros id ch. rewrite Hcc. apply Hcs.
Qed.

Lemma step_channel_transfer op proof : op_wf max (ChannelTransfer op) → op_fresh s (SignedChannelTransfer op proof) →
  verified (SignedChannelTransfer op proof) → op_outcome s balance (step (SignedChannelTransfer op proof)).
Proof.
  intros Hwf Hf Hv. pose proof Hok as [Hn Hcs _ _ _ _]. cbn [into_verified] in Hv. rewrite result_bind_ok in Hv.
  destruct Hv as ([] & Hv & _). apply map_err_ok, channel_transfer_verify_iff in Hv as ((ch & [Hch _ _]) & [Hnd Hin] & Hbal & _);
    [|apply Hn|by eapply notes_u64|eapply Forall_impl; [apply Hwf|by intros n [? _]]].
  cbn [try_apply_op]. destruct (channel_transfer_ok max op _ _ _ Hn Hwf ltac:(by exists ch) Hnd Hin Hf)
    as (cs & utxos & -> & Hn' & Hcc & Ht).
  cbn [channel_err map_err mbind result_bind op_outcome].
  apply with_channels_applied; [done| |done|cbn [helper_of h_utxos] in Hbal; lia]. intros id x. rewrite Hcc. apply Hcs.
Qed.

Lemma step_transfer op proof : op_wf max (Transfer op) → op_fresh s (SignedTransfer op proof) →
  verified (SignedTransfer op proof) → op_outcome s balance (step (SignedTransfer op proof)).
Proof.
  intros Hwf Hf Hv. pose proof Hok as [Hn ? ? ? ? ?]. cbn [into_verified] in Hv. rewrite result_bind_ok in Hv.
  destruct Hv as (p & Hv & _). apply map_err_ok, transfer_verify_ok in Hv as [Hnd Hin]; [|apply Hn].
  cbn [try_apply_op]. unfold try_apply_transfer.
  destruct (transfer_balance_ok op (utxos_of_state s)) as [->|[->| ->]]; [apply Hn|by eapply notes_u64| |apply Hwf| |done..].
  { intros i Hi. by apply Hin. }
  cbn [map_err mbind result_bind].
  destruct (transfer_ok max op _ _ _ Hn Hwf Hnd Hin Hf) as (utxos & -> & Hn' & Ht). cbn [map_err mbind result_bind].
  destruct (i128_checked _) as [z|] eqn:Hz; cbn [ok_or mbind result_bind op_outcome]; [|done].
  unfold i128_checked in Hz. destruct (_ && _); [|done]. injection Hz as <-.
  split; [by split|unfold supply; cbn; lia|done..].
Qed.

Lemma step_leader_claim op proof : op_wf max (LeaderClaim op) → op_fresh s (SignedLeaderClaim op proof) →
  op_outcome s balance (step (SignedLeaderClaim op proof)).
Proof.
  intros Hwf Hf. pose proof Hok as [Hn ? ? (xs & [Hv Hc Hp Hs] & Hlen) ? ?]. cbn [try_apply_op]. unfold leader_claim_execute, leader_claim_utxo.
  rewrite (op_id_ok leader_claim_codec tt) by by apply (payload_valid_wf max (LeaderClaim op)).
  pose proof (reward_amount_bounds _ Hc) as Hr.
  change (blake2b_256 _) with (op_digest (LeaderClaim op)). cbn [mbind result_bind lcc_reward_amount lcc_utxos].
  set (u := mkUtxo _ _ _). destruct (claim_note_ok (E:=LedgerError Id) (utxos_of_state s) _ _ u Hn) as (utxos & -> & Hn' & Ht); [|exact Hf|].
  { split; cbn; lia. }
  cbn [mbind result_bind lcc_claimable_rewards]. rewrite strict_sub_in by lia. cbn [mbind result_bind op_outcome].
  split; [|unfold supply, pools; cbn; rewrite Ht; cbn; lia|done..]. split; [done..| |done|done]. exists xs. split; [|done]. split; cbn; done || lia.
Qed.

Lemma step_claim_pow op : op_wf max (ClaimPowReward op) → op_fresh s (SignedClaimPow op) →
  verified (SignedClaimPow op) → op_outcome s balance (step (SignedClaimPow op)).
Proof.
  intros Hwf Hf Hv. pose proof Hok as [Hn ? ? ? [Hp Hq Hr Hb] ?]. cbn [into_verified] in Hv. rewrite result_bind_ok in Hv.
  destruct Hv as ([] & Hv & _). apply map_err_ok, pow_claim_verify_ok in Hv as (_ & _ & Hle & slot & Hblock & _ & _).
  cbn [try_apply_op]. unfold pow_claim_execute. cbn in Hblock, Hle. cbn [pe_block_slots]. rewrite Hblock. cbn [expect mbind result_bind].
  rewrite (op_id_ok claim_pow_codec tt) by by apply (payload_valid_wf max (ClaimPowReward op)).
  change (blake2b_256 _) with (op_digest (ClaimPowReward op)). cbn [mbind result_bind pe_epoch_reward pe_utxos].
  set (u := mkUtxo _ _ _). destruct (claim_note_ok (E:=LedgerError Id) (utxos_of_state s) _ _ u Hn) as (utxos & -> & Hn' & Ht); [|exact Hf|].
  { split; cbn; lia. }
  cbn [mbind result_bind pe_reward_pool]. unfold checked_sub. rewrite (proj2 (Z.leb_le _ _)) by lia.
  cbn [expect mbind result_bind op_outcome].
  split; [|unfold supply, pools; cbn; rewrite Ht; cbn; lia|done..]. split; [done..| |done]. split; cbn; done || lia.
Qed.

Lemma step_declare op proof : verified (SignedSDPDeclare op proof) → op_outcome s balance (step (SignedSDPDeclare op proof)).
Proof.
  intros Hv. pose proof Hok as [Hn ? (v & Hsdp & Hr) ? ? ?]. pose proof (so_services _ _ Hsdp) as Hsv. cbn [into_verified] in Hv.
  cbn [helper_of h_declarations_by_service h_provider_index_by_service h_min_stake h_utxos h_channels h_service_notes] in Hv.
  unfold get_declarations_by_service, get_provider_index_by_service in Hv. rewrite (service_lookup _ _ _ Hsv) in Hv.
  cbn [fmap option_fmap option_map ok_or mbind result_bind] in Hv.
  rewrite (config_for_slot_any _ _ _ Hconfig) in Hv. cbn [mbind result_bind] in Hv. unfold declare_verify in Hv. inv_ok Hv.
  rewrite ks_get_view in Hok1 by apply Hn. cbn [try_apply_op].
  destruct (declare_total (m_sdp (mantle_ledger s)) v (utxos_of_state s) a0 (m_channels (mantle_ledger s)) (sdp_config c) op)
    as (sdp' & Hd); [done..|by rewrite ks_get_view by apply Hn|by destruct a2|].
  rewrite Hd. cbn [sdp_err map_err mbind result_bind op_outcome]. destruct a2.
  pose proof (declare_validate_ok _ _ _ _ _ _ _ Hok3) as (_ & _ & Hch & _ & _).
  eapply declare_step in Hd as (v' & dd & Hok' & He & _ & _ & _ & Hsn & Hrw); [|done|by rewrite ks_get_view by apply Hn|done].
  eapply sdp_applied; [done..|by rewrite Hrw|by rewrite Hrw, (blend_income_with _ v)|done|]. rewrite Hsn.
  unfold is_channel_note, channel_notes_contains in Hch. apply bool_decide_eq_false, eq_None_not_Some in Hch.
  eapply notes_ok_lock; [done..|]. by destruct (sdp_service_notes _ !! _).
Qed.

Lemma step_active op proof : verified (SignedSDPActive op proof) → op_outcome s balance (step (SignedSDPActive op proof)).
Proof.
  intros Hv. pose proof Hok as [Hn ? (v & Hsdp & Hr) ? ? Hep]. pose proof (so_services _ _ Hsdp) as Hsv. cbn [into_verified] in Hv.
  cbn [helper_of h_declaration_by_id h_epoch] in Hv. inv_ok Hv. rewrite Hep in Hok1. cbn [try_apply_op].
  pose proof Hok0 as Hd. rewrite (get_declaration_blend _ _ _ Hsv) in Hd.
  pose proof (active_outcome _ v _ op (sdp_config c) Hsv Hd Hr) as Ho.
  destruct (apply_active_msg (T:=T) (m_sdp (mantle_ledger s)) op (sdp_config c)) as [sdp'|e|f] eqn:Ha; [|by destruct e|done].
  cbn [sdp_err map_err mbind result_bind op_outcome].
  eapply active_step in Ha as (v' & dd & Hok' & He & Hsn & _ & _ & _ & _ & _ & _ & p & Hrw); [|done..].
  pose proof (rw_update_active_ok (T:=T) (Params:=Params) (s_rewards v) p (am_metadata op) Hr) as Hl. rewrite Hrw in Hl. destruct Hl as [? Hi].
  eapply sdp_applied; [done..|by rewrite Hi, (blend_income_with _ v)|done|by rewrite Hsn].
Qed.

Lemma step_sdp_withdraw op proof : verified (SignedSDPWithdraw op proof) → op_outcome s balance (step (SignedSDPWithdraw op proof)).
Proof.
  intros Hv. pose proof Hok as [Hn ? (v & Hsdp & Hr) ? ? Hep]. pose proof (so_services _ _ Hsdp) as Hsv. cbn [into_verified] in Hv.
  cbn [helper_of h_declaration_by_id h_service_notes] in Hv. inv_ok Hv. cbn [try_apply_op].
  pose proof Hok0 as Hd. rewrite (get_declaration_blend _ _ _ Hsv) in Hd.
  pose proof (withdraw_outcome _ v _ op (sdp_config c) Hsv Hd Hepoch Hepoch_max) as Ho.
  destruct (apply_withdrawn_msg (m_sdp (mantle_ledger s)) op (sdp_config c)) as [sdp'|e|f] eqn:Ha; [|by destruct e|done].
  cbn [sdp_err map_err mbind result_bind op_outcome].
  eapply withdraw_step in Ha as (v' & dd & Hok' & He & Hsn & _ & _ & _ & _ & _ & _ & Hrw); [|done..].
  eapply sdp_applied; [done..|by rewrite Hrw|by rewrite Hrw, (blend_income_with _ v)|done|by rewrite Hsn].
Qed.

(** A verified operation executes: no panic, and only a late error. *)
Lemma op_step op : op_wf max (operation op) → op_fresh s op → verified op → op_outcome s balance (step op).
Proof.
  destruct op; cbn [operation]; intros Hwf Hf Hv.
  - by apply step_inscribe.
  - by apply step_config.
  - by apply step_deposit.
  - by apply step_withdraw.
  - by apply step_channel_transfer.
  - by apply step_declare.
  - by apply step_sdp_withdraw.
  - by apply step_active.
  - by apply step_leader_claim.
  - by apply step_transfer.
  - by apply step_claim_pow.
Qed.

End Step.

End Invariant.

End LedgerInvariant.
