(* ===== verification/TxTheorems.v ===== *)
(** * Verification of operations

    Checking a signed operation against a reachable ledger state returns a
    verdict: the indices and the arithmetic of the checks stay in range. What it
    accepts on a channel is what the keys of the channel authorized. The first
    module, [LedgerVerify], is about the checks of operations; [TxTheorems]
    about the execution of transactions. *)

From S2P Require Import Prelude Era EngineConfig MerkleStore Codec CodecLaws Ops OpsCodec Channels Utxos ServiceNotes Inputs ChannelOps SignedTx SdpOps SdpTheorems LedgerConfig ClaimOps TxVerification NoteFacts Leaders Pow Markets MarketFacts Cryptarchia Ledger LedgerInvariant.

#[local] Open Scope Z_scope.

Module LedgerVerify.
Import Canonical Ops OpsCodec Utxos Channels ServiceNotes Inputs ChannelOps SignedTx SdpOps LedgerConfig ClaimOps TxVerification NoteFacts Leaders Pow Cryptarchia Ledger ChannelFacts LedgerInvariant.

(** ** Computations that return a verdict *)

Definition no_fault {E A} (r : result E A) : Prop := match r with Fault _ => False | _ => True end.

Lemma no_fault_bind {E A B} (r : result E A) (k : A → result E B) : no_fault r → (∀ a, r = Ok a → no_fault (k a)) → no_fault (r ≫= k).
Proof. destruct r; cbn; [|done..]. intros _ Hk. by apply Hk. Qed.

Lemma no_fault_map_err {E F A} (f : E → F) (r : result E A) : no_fault r → no_fault (map_err f r).
Proof. by destruct r. Qed.

Lemma no_fault_err_if {E} b (e : E) : no_fault (err_if b e).
Proof. by destruct b. Qed.

Lemma no_fault_ok_or {E A} (o : option A) (e : E) : no_fault (ok_or o e).
Proof. by destruct o. Qed.

Lemma verdict_map_err {E F A} (f : E → F) (r : result E unit) (x : A) : (map_err f r;; Ok x) = Ok x ↔ r = Ok tt.
Proof. destruct r as [[]|e|g]; cbn; split; done. Qed.

Create HintDb verdict.
#[export] Hint Resolve no_fault_map_err no_fault_err_if no_fault_ok_or : verdict.
#[export] Hint Extern 1 (no_fault (Ok _)) => exact I : verdict.
#[export] Hint Extern 1 (no_fault (Err _)) => exact I : verdict.

(** Go through the checks of a goal. *)
Ltac verdict :=
  repeat first
    [ progress intros
    | lazymatch goal with
      | |- no_fault (_ ≫= _) => apply no_fault_bind
      | |- no_fault (map_err _ _) => apply no_fault_map_err
      | |- no_fault (match ?x with _ => _ end) => destruct x
      end ];
  auto with verdict.

Section Checks.
Context {T : Type} `{!KeyedStoreOps T NoteId Utxo} `{Poseidon2Crate} `{Ed25519Verify}.
Implicit Types (utxos : T).

Lemma service_and_present_verdict inputs sn utxos : no_fault (validate_not_in_service_and_present inputs sn utxos).
Proof. induction inputs; cbn; verdict. Qed.
Lemma none_in_channel_verdict inputs c : no_fault (none_in_channel inputs c).
Proof. induction inputs; cbn; verdict. Qed.
Lemma all_in_channel_verdict inputs c id : no_fault (all_in_channel inputs c id).
Proof. induction inputs; cbn; verdict. Qed.
Lemma get_pk_verdict inputs utxos : no_fault (get_pk inputs utxos).
Proof. induction inputs; cbn; verdict. Qed.
Lemma inputs_amount_verdict inputs utxos a : no_fault (inputs_amount_from a inputs utxos).
Proof. revert a. induction inputs; cbn; verdict. Qed.
Lemma outputs_amount_verdict outputs a : no_fault (outputs_amount_from a outputs).
Proof. revert a. induction outputs; cbn; verdict. Qed.
Lemma config_signatures_verdict op ch tx_hash proof : no_fault (config_signatures op ch tx_hash proof).
Proof. induction proof as [|[]]; cbn; verdict. Qed.
Lemma channel_signatures_verdict ch tx_hash proof : no_fault (channel_signatures ch tx_hash proof).
Proof. induction proof as [|[]]; cbn; verdict. Qed.

Lemma multi_sig_loop_verdict key id tx_hash op_index proof : (∀ id i, no_fault (key id i)) →
  ∀ entry, no_fault (multi_sig_loop key id tx_hash op_index entry proof).
Proof. intros Hk. induction proof as [|[k sig] proof IH]; intros entry; cbn [multi_sig_loop]; verdict. Qed.

Lemma multi_sig_verdict threshold key id proof tx_hash op_index : (∀ id, no_fault (threshold id)) → (∀ id i, no_fault (key id i)) →
  no_fault (verify_channel_multi_sig threshold key id proof tx_hash op_index).
Proof. intros Ht Hk. unfold verify_channel_multi_sig. verdict. by apply multi_sig_loop_verdict. Qed.

End Checks.

#[export] Hint Resolve service_and_present_verdict none_in_channel_verdict all_in_channel_verdict get_pk_verdict
  inputs_amount_verdict outputs_amount_verdict config_signatures_verdict channel_signatures_verdict multi_sig_verdict : verdict.

Section Verify.
Context {T R Params : Type} `{!KeyedStoreOps T NoteId Utxo, !KeyedStore T NoteId Utxo}.
Context `{!Rewards T R Params, !RewardsLaws T R Params}.
Context `{Poseidon2Crate} `{Blake2Crate} `{Ed25519Crate} `{Ed25519Verify} `{PoCVerify}.
Implicit Types (s : LedgerState T R) (eras : EraSchedule (Config Params)).

(** A schedule resolves every slot from its genesis on. *)
Lemma slot_era_total {E Q} (s : EraSchedule Q) slot : e_first_slot (s_genesis s) = 0 → 0 <= slot → ∃ v, at_slot (E:=E) s slot = Ok v.
Proof.
  intros Hg Hs. unfold at_slot, last_started, eras. cbn [take_while genesis view v_first_slot]. rewrite Hg, (proj2 (Z.leb_le _ _) Hs).
  destruct (last (_ :: _)) as [v|] eqn:Hl; [by exists v|]. by apply last_None in Hl.
Qed.

Lemma inscription_verdict op cs now : channels_wf now cs → now <= slot_bound → no_fault (inscription_verify op cs now).
Proof.
  intros Hcs Hnow. unfold inscription_verify. destruct (channels cs !! i_channel_id op) as [ch|] eqn:Hch; [|verdict].
  apply no_fault_bind; [verdict|]. intros [] _.
  destruct (round_robin_range (E:=ChannelError) ch now now (proj1 (Hcs _ _ Hch)) ltac:(lia)) as (i & st & -> & Hi & _). cbn [mbind result_bind].
  destruct (accredited_keys ch !! Z.to_nat i) as [key|] eqn:Hkey; cbn [expect mbind result_bind]; [verdict|].
  apply lookup_ge_None in Hkey. lia.
Qed.

Lemma pow_claim_verdict op ctx : e_first_slot (s_genesis (pv_slot_windows ctx)) = 0 →
  (∀ h slot, pv_blocks_slot ctx !! h = Some slot → 0 <= slot) → no_fault (pow_claim_verify op ctx).
Proof.
  intros Hg Hb. unfold pow_claim_verify, are_pow_reward_enabled, validate_enough_funds_in_pool, validate_epoch_nonce,
    validate_difficulty_reward, validate_double_claiming, accept_claim.
  apply no_fault_bind; [verdict|intros _ _]. apply no_fault_bind; [verdict|intros _ _].
  apply no_fault_bind; [|verdict]. destruct (pv_blocks_slot ctx !! cp_block_hash op) as [slot|] eqn:Hs; [|done].
  cbn [ok_or mbind result_bind]. destruct (slot_era_total (E:=ClaimPowRewardError) (pv_slot_windows ctx) slot Hg (Hb _ _ Hs)) as (v & ->).
  cbn [mbind result_bind]. verdict.
Qed.

Lemma verification_no_fault s eras op index tx_hash d : ledger_ok s → e_first_slot (s_genesis eras) = 0 →
  0 <= cl_slot (cryptarchia_ledger s) <= slot_bound →
  no_fault (into_verified op index tx_hash (helper_of (mantle_ledger s) (cryptarchia_ledger s) eras) d).
Proof.
  intros Hok Hg Hslot.
  pose proof Hok as [_ Hcs _ _ Hpow _].
  destruct op as [op p|op p|op p|op p|op p|op p|op p|op p|op p|op p|op]; cbn [into_verified];
    cbn [helper_of h_channels h_service_notes h_utxos h_declarations_by_service h_provider_index_by_service h_declaration_by_id
      h_min_stake h_epoch h_block_slot h_nullifiers h_claimable_vouchers_root h_transfer_threshold h_key_at_index].
  - apply no_fault_bind; [|done]. apply no_fault_map_err, inscription_verdict; [done|lia].
  - unfold config_verify. verdict.
  - unfold deposit_verify, validate_not_in_channel, validate_uniqueness. verdict.
  - unfold withdraw_verify, validate_in_channel, validate_uniqueness. verdict. apply multi_sig_verdict; verdict.
  - unfold channel_transfer_verify, validate_in_channel, validate_uniqueness, inputs_amount, outputs_amount. verdict.
    apply multi_sig_verdict; verdict.
  - unfold declare_verify, declare_validate. verdict. unfold config_for_slot.
    destruct (slot_era_total (E:=VerificationError) eras (cl_slot (cryptarchia_ledger s)) Hg ltac:(lia)) as (v & ->). verdict.
  - unfold sdp_withdraw_verify, validate_declaration_id, validate_nonce. verdict.
  - unfold active_verify, validate_declaration_id, validate_nonce. verdict.
  - unfold leader_claim_verify. verdict.
  - unfold transfer_verify, validate_not_in_channel, validate_uniqueness. verdict.
  - apply no_fault_bind; [|done]. apply no_fault_map_err, pow_claim_verdict; [done|]. apply (po_slots _ Hpow).
Qed.

(** C34: checking a signed operation against a reachable state always returns a
    verdict: no panic of the checks, whatever the operation holds. *)
Theorem verification_total s eras op index tx_hash d : ledger_ok s → e_first_slot (s_genesis eras) = 0 →
  0 <= cl_slot (cryptarchia_ledger s) <= slot_bound →
  (∃ d', into_verified op index tx_hash (helper_of (mantle_ledger s) (cryptarchia_ledger s) eras) d = Ok d') ∨
  (∃ e, into_verified op index tx_hash (helper_of (mantle_ledger s) (cryptarchia_ledger s) eras) d = Err e).
Proof.
  intros Hok Hg Hs. pose proof (verification_no_fault s eras op index tx_hash d Hok Hg Hs) as Hv.
  destruct (into_verified _ _ _ _ _) as [d'|e|f]; [left; by eexists|right; by eexists|done].
Qed.

(** ** Authorization *)

Lemma inscription_verify_iff op cs now : inscription_verify op cs now = Ok tt ↔
  match channels cs !! i_channel_id op with
  | Some ch => i_parent op = tip_message ch ∧
      ∃ index start, round_robin (E:=ChannelError) ch now = Ok (index, start) ∧ accredited_keys ch !! Z.to_nat index = Some (i_signer op)
  | None => i_parent op = root
  end.
Proof.
  unfold inscription_verify. destruct (channels cs !! i_channel_id op) as [ch|].
  - case_bool_decide as Hp; cbn [negb err_if mbind result_bind]; [|naive_solver].
    destruct (round_robin ch now) as [[i st]|e|f]; cbn [mbind result_bind]; [|naive_solver..].
    destruct (accredited_keys ch !! Z.to_nat i) as [key|] eqn:Hk; cbn [expect mbind result_bind]; [|naive_solver].
    case_bool_decide as Hs; cbn [negb err_if]; naive_solver.
  - case_bool_decide; cbn [negb err_if]; naive_solver.
Qed.

Lemma ascending_NoDup (l : list Z) : ascending Z.compare l → NoDup l.
Proof.
  intros Ha. apply NoDup_alt. assert (∀ d i x y, l !! i = Some x → l !! (i + S d)%nat = Some y → x < y) as Hlt.
  { induction d as [|d IH]; intros i x y Hx Hy.
    - rewrite Nat.add_1_r in Hy. apply Z.compare_gt_iff. by eapply Ha.
    - destruct (lookup_lt_is_Some_2 l (i + S d)%nat) as [z Hz]; [apply lookup_lt_Some in Hy; lia|]. specialize (IH i x z Hx Hz).
      rewrite <- Nat.add_succ_comm in Hy. assert (z < y); [|lia]. apply Z.compare_gt_iff, (Ha (i + S d)%nat z y Hz). by rewrite <- Hy, <- Nat.add_succ_r, Nat.add_succ_comm. }
  intros i j x Hi Hj. destruct (Nat.lt_trichotomy i j) as [Hij|[Hij|Hij]]; [|done|].
  - specialize (Hlt (j - i - 1)%nat i x x Hi). replace (i + S (j - i - 1))%nat with j in Hlt by lia. specialize (Hlt Hj). lia.
  - specialize (Hlt (i - j - 1)%nat j x x Hj). replace (j + S (i - j - 1))%nat with i in Hlt by lia. specialize (Hlt Hi). lia.
Qed.

(** The signatures of a proof are by key index, and no two have the same one. *)
Definition by_distinct_keys (proof : ChannelMultiSigProof) : Prop := NoDup proof.*1 ∧ Forall (λ e, 0 <= e.1) proof.

Lemma proof_distinct proof : proof_wf (ChannelMultiSig proof) → by_distinct_keys proof.
Proof. intros (_ & Ha & HF). split; [by apply ascending_NoDup|]. eapply Forall_impl; [exact HF|]. by intros e [[? _] _]. Qed.

Lemma config_verify_iff op proof (cs : Channels) tx_hash : config_verify op proof cs tx_hash = Ok tt ↔
  match channels cs !! c_channel op with
  | Some ch => c_parent op = config_tip_hash ch ∧ Z.of_nat (length proof) = configuration_threshold ch ∧ signed_by ch tx_hash proof
  | None => c_parent op = root ∧ proof = []
  end.
Proof.
  unfold config_verify. destruct (channels cs !! c_channel op) as [ch|].
  - case_bool_decide as Hp; cbn [negb err_if mbind result_bind]; [|naive_solver].
    destruct (Z.eqb_spec (Z.of_nat (length proof)) (configuration_threshold ch)); cbn [negb err_if mbind result_bind]; [|naive_solver]. rewrite config_signatures_ok. naive_solver.
  - destruct (decide (c_parent op = root)) as [Hp|Hp]; [rewrite (bool_decide_true (c_parent op = root)) by done|rewrite (bool_decide_false (c_parent op = root)) by done];
      cbn [negb err_if mbind result_bind]; [|split; [done|by intros [? _]]].
    destruct proof; cbn; split; naive_solver.
Qed.

(** C22: who may act on a channel: an inscription is accepted exactly from the
    sequencer whose turn it is, on the tip of the channel; a proof whose signatures
    are, as in the map the code keeps them in, one for each key index, configures a
    channel exactly with as many signatures, of distinct indices, as it asks for, on its
    last configuration, and takes notes out exactly with as many as it asks for that,
    never none, and only notes of that channel that no service holds; a channel
    transfer also creates exactly what it consumes. *)
Theorem channel_operations_authorized s eras index tx_hash d : ledger_ok s →
  let m := mantle_ledger s in
  let cs := m_channels m in
  let utxos := cl_utxos (cryptarchia_ledger s) in
  let locked := sdp_service_notes (m_sdp m) in
  let accepted op := into_verified op index tx_hash (helper_of m (cryptarchia_ledger s) eras) d = Ok d in
  (∀ op proof, accepted (SignedInscribe op proof) ↔
     match channels cs !! i_channel_id op with
     | Some ch => i_parent op = tip_message ch ∧
         ∃ turn start, round_robin (E:=ChannelError) ch (cl_slot (cryptarchia_ledger s)) = Ok (turn, start) ∧
           accredited_keys ch !! Z.to_nat turn = Some (i_signer op)
     | None => i_parent op = root
     end) ∧
  (∀ op proof, proof_wf (ChannelMultiSig proof) → accepted (SignedConfig op proof) ↔
     match channels cs !! c_channel op with
     | Some ch => c_parent op = config_tip_hash ch ∧ Z.of_nat (length proof) = configuration_threshold ch ∧ signed_by ch tx_hash proof ∧ by_distinct_keys proof
     | None => c_parent op = root ∧ proof = []
     end) ∧
  (∀ op proof, proof_wf (ChannelMultiSig proof) → accepted (SignedWithdraw op proof) ↔
     (∃ ch, spend_authorized cs (w_channel_id op) ch tx_hash proof ∧ by_distinct_keys proof) ∧ channel_inputs utxos cs locked (w_channel_id op) (w_inputs op)) ∧
  (∀ op proof, proof_wf (ChannelMultiSig proof) → Forall note_ok (ct_outputs op) → accepted (SignedChannelTransfer op proof) ↔
     (∃ ch, spend_authorized cs (ct_channel_id op) ch tx_hash proof ∧ by_distinct_keys proof) ∧ channel_inputs utxos cs locked (ct_channel_id op) (ct_inputs op) ∧
     inputs_value (ks_view utxos) (ct_inputs op) = notes_value (ct_outputs op) ∧ notes_value (ct_outputs op) <= u64_max) ∧
  (∀ id ch proof, spend_authorized cs id ch tx_hash proof → proof ≠ []).
Proof.
  intros Hok m cs utxos locked accepted. pose proof Hok as [Hn Hcs _ _ _ _]. split_and!.
  - intros op proof. rewrite <- inscription_verify_iff. unfold accepted. cbn [into_verified]. apply verdict_map_err.
  - intros op proof Hp%proof_distinct. transitivity (config_verify op proof cs tx_hash = Ok tt).
    + unfold accepted. cbn [into_verified]. apply verdict_map_err.
    + rewrite config_verify_iff. case_match; naive_solver.
  - intros op proof Hp%proof_distinct. transitivity ((∃ ch, spend_authorized cs (w_channel_id op) ch tx_hash proof) ∧ channel_inputs utxos cs locked (w_channel_id op) (w_inputs op)); [|naive_solver].
    rewrite <- (withdraw_verify_iff op proof cs locked utxos tx_hash index) by apply Hn.
    unfold accepted. cbn [into_verified]. apply verdict_map_err.
  - intros op proof Hp%proof_distinct Ho. transitivity ((∃ ch, spend_authorized cs (ct_channel_id op) ch tx_hash proof) ∧ channel_inputs utxos cs locked (ct_channel_id op) (ct_inputs op) ∧
      inputs_value (ks_view utxos) (ct_inputs op) = notes_value (ct_outputs op) ∧ notes_value (ct_outputs op) <= u64_max); [|naive_solver].
    rewrite <- (channel_transfer_verify_iff op proof cs locked utxos tx_hash index);
      [|apply Hn|by eapply notes_u64|done]. unfold accepted. cbn [into_verified]. apply verdict_map_err.
  - intros id ch proof [Hch Hth _] ->. destruct (Hcs _ _ Hch) as (_ & _ & ?). cbn in Hth. lia.
Qed.

End Verify.

End LedgerVerify.

(** * Transactions conserve value

    The operations of a transaction, run in order, keep the invariant of the
    ledger; what they take out of the supply is the balance, which the fees
    consume to the last unit. *)

#[local] Open Scope Z_scope.

Module TxTheorems.
Import Canonical Ops OpsCodec Utxos Channels ServiceNotes Inputs ChannelOps SignedTx SdpOps LedgerConfig ClaimOps TxVerification NoteFacts Leaders Pow Markets MarketFacts Cryptarchia Ledger LedgerInvariant LedgerVerify.

(** ** Outcomes *)

(** A computation returns a value with [Q], or an error with [F]; it never panics. *)
Definition outcome {E A} (Q : A → Prop) (F : E → Prop) (r : result E A) : Prop :=
  match r with Ok a => Q a | Err e => F e | Fault _ => False end.

Lemma outcome_bind {E A B} (Q : A → Prop) (Q' : B → Prop) (F : E → Prop) r (k : A → result E B) :
  outcome Q F r → (∀ a, Q a → r = Ok a → outcome Q' F (k a)) → outcome Q' F (r ≫= k).
Proof. destruct r; cbn; [|done..]. intros HQ Hk. by apply Hk. Qed.

Lemma outcome_impl {E A} (Q Q' : A → Prop) (F F' : E → Prop) r :
  outcome Q F r → (∀ a, Q a → Q' a) → (∀ e, F e → F' e) → outcome Q' F' r.
Proof. destruct r; cbn; auto. Qed.

Lemma outcome_ok_or {E A} (Q : A → Prop) (F : E → Prop) o e : (∀ a, o = Some a → Q a) → F e → outcome Q F (ok_or o e).
Proof. destruct o; cbn; auto. Qed.

Lemma outcome_err_if {E} (F : E → Prop) b e : F e → outcome (λ _, b = false) F (err_if b e).
Proof. by destruct b. Qed.

Lemma outcome_map_err {E F A} (Q : A → Prop) (G : F → Prop) (f : E → F) r : outcome Q (λ e, G (f e)) r → outcome Q G (map_err f r).
Proof. by destruct r. Qed.

Section Transactions.
Context {T R Params Id : Type} `{!KeyedStoreOps T NoteId Utxo, !KeyedStore T NoteId Utxo}.
Context `{!Rewards T R Params, !RewardsLaws T R Params}.
Context `{Poseidon2Crate} `{Blake2Crate} `{Ed25519Crate} `{MultiaddrCrate} `{Ed25519Verify} `{PoCVerify}.
Context (eras : EraSchedule (Config Params)) (max : Z).
Hypothesis eras_genesis : e_first_slot (s_genesis eras) = 0.
Implicit Types (s : LedgerState T R) (c : Config Params) (tx_hash : TxHash) (tx : SignedOps).

Notation slot_of s := (cl_slot (cryptarchia_ledger s)).
Notation epoch_of s := (sdp_epoch (m_sdp (mantle_ledger s))).

(** The states at which the arithmetic of operations is in range. *)
Record in_range s : Prop := {
  ir_slot : 0 <= slot_of s <= slot_bound;
  ir_epoch : 0 <= epoch_of s;
  ir_epoch_max : epoch_of s + SNAPSHOT_FINALIZATION_DELAY <= u32_max
}.

(** Applied operations compose. *)
Lemma op_applied_refl s balance : ledger_ok s → op_applied s balance s balance.
Proof. intros Hok. split; [done|done|done| |done|done]. by rewrite update_utxos_id. Qed.

Lemma op_applied_trans s b s1 b1 s2 b2 : op_applied s b s1 b1 → op_applied s1 b1 s2 b2 → op_applied s b s2 b2.
Proof. intros [_ ? ? Hc ? ?] [? ? ? Hc2 ? ?]. split; [done|lia|congruence| |congruence|congruence]. rewrite Hc2, Hc. done. Qed.

Lemma op_applied_slot s b s' b' : op_applied s b s' b' → slot_of s' = slot_of s.
Proof. intros Ha. by rewrite (oa_consensus _ _ _ _ Ha). Qed.

Lemma op_applied_range s b s' b' : op_applied s b s' b' → in_range s → in_range s'.
Proof.
  intros Ha [? ? ?]. pose proof (op_applied_slot _ _ _ _ Ha) as Hs. destruct Ha as [_ _ _ _ He _]. split; by rewrite ?Hs, ?He.
Qed.

(** ** Freshness along a run *)

(** The hypothesis on hashes: each verified operation creates fresh notes. *)
Fixpoint ops_fresh s c tx_hash (index : Z) (ops : list SignedOp) : Prop :=
  match ops with
  | [] => True
  | op :: ops => ∀ d d', into_verified op index tx_hash (helper_of (mantle_ledger s) (cryptarchia_ledger s) eras) d = Ok d' →
      op_fresh s op ∧ ∀ balance events s' balance' events',
        try_apply_op (Id:=Id) s op c tx_hash balance events = Ok (s', balance', events') → ops_fresh s' c tx_hash (index + 1) ops
  end.

Definition tx_fresh s tx : Prop := ∀ c tx_hash, config_for_slot (E:=LedgerError Id) eras (slot_of s) = Ok c →
  tx_hasher (E:=LedgerError Id) tx = Ok tx_hash → ops_fresh s c tx_hash 0 (signed_ops tx).

(** ** Operations *)

Definition run_error (e : LedgerError Id) : Prop :=
  match e with LedgerVerification _ | LedgerGasOverflow => True | _ => late_error e end.

Lemma late_run_error e : late_error e → run_error e.
Proof. by destruct e. Qed.

Lemma gas_outcome {A} (Q : A → Prop) (F : LedgerError Id → Prop) (o : option A) : (∀ a, o = Some a → Q a) → F LedgerGasOverflow →
  outcome Q F (gas_err (ok_or o gas_overflow)).
Proof. destruct o; cbn; auto. Qed.

(** The costs of a profile, which are unsigned. *)
Definition profile_ok (p : GasProfile) : Prop :=
  Forall (λ g, 0 <= g) [g_transfer p; g_channel_config p; g_channel_inscribe p; g_channel_deposit p; g_channel_withdraw p;
    g_channel_transfer p; g_sdp_declare p; g_sdp_withdraw p; g_sdp_active p; g_leader_claim p; g_claim_pow_reward p].

Lemma thresholds_nonneg now cs id : channels_wf now cs → 0 <= configuration_threshold_of cs id ∧ 0 <= transfer_threshold_of cs id.
Proof.
  intros Hcs. unfold configuration_threshold_of, transfer_threshold_of.
  destruct (channels cs !! id) as [ch|] eqn:Hch; cbn; [|done]. destruct (Hcs _ _ Hch) as (_ & ? & ?). lia.
Qed.

Lemma execution_gas_outcome op profile now cs : profile_ok profile → channels_wf now cs →
  outcome (λ g, 0 <= g) run_error (gas_err (TxVerification.execution_gas op profile cs)).
Proof.
  intros Hp Hcs. unfold profile_ok in Hp. repeat (apply Forall_cons in Hp as [? Hp]).
  destruct op; cbn [TxVerification.execution_gas gas_err map_err outcome]; try done; unfold gas_mul; (apply gas_outcome; [|done]);
    intros g [-> _]%checked_mul_Some; apply Z.mul_nonneg_nonneg; try done; by eapply thresholds_nonneg.
Qed.

Lemma ops_run c tx_hash ops : profile_ok (gas_profile c) → ∀ s index balance gas events d, ledger_ok s → in_range s → 0 <= gas →
  config_for_slot (E:=LedgerError Id) eras (slot_of s) = Ok c → Forall (λ op, op_wf max (operation op)) ops →
  ops_fresh s c tx_hash index ops →
  outcome (λ '(s', balance', gas', _, _), op_applied s balance s' balance' ∧ 0 <= gas') run_error
    (apply_ops (Id:=Id) s eras c tx_hash index balance gas events d ops).
Proof.
  intros Hprof. induction ops as [|op ops IH]; intros s index balance gas events d Hok Hr Hgas Hc Hwf Hf; cbn [apply_ops].
  { split; [by apply op_applied_refl|done]. }
  apply Forall_cons in Hwf as [Hop Hwf]. pose proof Hr as [Hslot Hep Hepm].
  eapply (outcome_bind (λ d', into_verified op index tx_hash (helper_of (mantle_ledger s) (cryptarchia_ledger s) eras) d = Ok d')).
  { pose proof (verification_no_fault s eras op index tx_hash d Hok eras_genesis Hslot) as Hv.
    by destruct (into_verified _ _ _ _ _) as [d'|e|f]. }
  intros d' Hv _. destruct (Hf d d' Hv) as [Hfresh Hnext].
  eapply outcome_bind; [eapply execution_gas_outcome; [done|apply Hok]|cbv beta; intros g Hg _].
  eapply (outcome_bind (λ gas', 0 <= gas')); [apply gas_outcome; [intros ? [-> _]%checked_add_Some; lia|done]|cbv beta; intros gas' Hgas' _].
  pose proof (op_step max s eras c tx_hash index balance events d d' Hok Hslot Hc Hep Hepm op Hop Hfresh Hv) as Hstep.
  destruct (try_apply_op s op c tx_hash balance events) as [[[s1 b1] e1]|e|f] eqn:Happ; [|by apply late_run_error|done].
  cbn [mbind result_bind]. cbn [op_outcome] in Hstep. pose proof (op_applied_slot _ _ _ _ Hstep) as Hcons.
  eapply outcome_impl; [apply (IH s1 (index + 1) b1); [apply Hstep|by eapply op_applied_range|done|by rewrite Hcons|done|by eapply Hnext]| |done].
  intros [[[[s2 b2] g2] e2] d2] [Ha ?]. split; [by eapply op_applied_trans|done].
Qed.

(** ** Transactions *)

Definition tx_size tx : Z := Z.of_nat (length (bytes signed_ops_codec tx)).

Definition tx_wf tx : Prop := signed_ops_wf max tx ∧ tx_size tx <= usize_max.

Lemma storage_size_ok {E} tx : tx_wf tx → storage_size (E:=E) tx = Ok (tx_size tx).
Proof. intros [Hwf Hle]. by apply (encoded_length_ok max tx). Qed.

Definition tx_error (e : LedgerError Id) : Prop :=
  match e with UnacceptedForkDigest _ | InsufficientBalance => True | _ => run_error e end.

Lemma run_tx_error e : run_error e → tx_error e.
Proof. by destruct e. Qed.

Lemma supply_nonneg s : ledger_ok s → 0 <= supply s.
Proof.
  intros Hok. unfold supply, pools. pose proof (pools_nonneg _ _ _ _ Hok) as (? & ? & ? & ? & ?).
  pose proof (notes_total_nonneg _ _ _ (mo_notes _ _ _ _ Hok)). lia.
Qed.

(** The gas prices of a state. *)
Notation base_fee s := (cl_execution_base_fee (cryptarchia_ledger s)).
Notation storage_price s := (cl_storage_gas_price (cryptarchia_ledger s)).

Record tx_applied s tx s' (g : GasAndFees) : Prop := {
  ta_ops : op_applied s 0 s' (gf_fee_burned g + gf_fee_tip g);
  ta_burned : gf_fee_burned g = gf_execution_gas g * base_fee s + gf_storage_gas g * storage_price s;
  ta_storage : gf_storage_gas g = tx_size tx;
  ta_gas : 0 <= gf_execution_gas g;
  ta_tip : 0 <= gf_fee_tip g
}.

Lemma config_total s : in_range s → ∃ c, config_for_slot (E:=LedgerError Id) eras (slot_of s) = Ok c.
Proof.
  intros [Hs _ _]. unfold config_for_slot.
  destruct (slot_era_total (E:=LedgerError Id) eras (slot_of s) eras_genesis ltac:(lia)) as (v & ->). by eexists.
Qed.

Lemma tx_operations_run s tx : ledger_ok s → in_range s → tx_wf tx → tx_fresh s tx →
  (∀ c, config_for_slot (E:=LedgerError Id) eras (slot_of s) = Ok c → profile_ok (gas_profile c)) →
  outcome (λ '(s', balance, gas, _, _), op_applied s 0 s' balance ∧ 0 <= gas) tx_error (try_apply_tx_operations (Id:=Id) s eras tx).
Proof.
  intros Hok Hr [Hwf _] Hf Hp. unfold try_apply_tx_operations. destruct (config_total s Hr) as [c Hc]. rewrite Hc. cbn [mbind result_bind].
  eapply outcome_bind; [by apply outcome_err_if|intros [] _ _].
  assert (tx_hasher (E:=LedgerError Id) tx = Ok (blake2b_256 (MANTLE_TX_HASH_V1 ++ bytes tx_ops_codec (op_refs tx)))) as Hh.
  { unfold tx_hasher. by rewrite (as_signing_ok max tx Hwf). }
  rewrite Hh. cbn [mbind result_bind]. eapply outcome_impl; [eapply ops_run; [by apply Hp|done..|apply Hwf|by apply Hf]|done|apply run_tx_error].
Qed.

Lemma tx_run s tx : ledger_ok s → in_range s → supply s <= u64_max → 0 <= base_fee s → 0 <= storage_price s → tx_wf tx → tx_fresh s tx →
  (∀ c, config_for_slot (E:=LedgerError Id) eras (slot_of s) = Ok c → profile_ok (gas_profile c)) →
  outcome (λ '(s', g, _, _), tx_applied s tx s' g) tx_error (try_apply_transaction (Id:=Id) s eras tx).
Proof.
  intros Hok Hr Hsup Hbf Hsp Hwf Hf Hp. unfold try_apply_transaction. eapply outcome_bind; [by apply tx_operations_run|].
  intros [[[[s1 balance] gas] ev] d] [Ha Hgas] _. rewrite (storage_size_ok tx Hwf). cbn [mbind result_bind].
  assert (base_fee s1 = base_fee s ∧ storage_price s1 = storage_price s) as [Hb1 Hb2] by (by rewrite (oa_consensus _ _ _ _ Ha)).
  rewrite Hb1, Hb2. eapply (outcome_bind (λ f, f = gas * base_fee s)); [apply gas_outcome; [by intros ? [-> _]%checked_mul_Some|done]|].
  intros ? -> _. eapply (outcome_bind (λ f, f = tx_size tx * storage_price s)); [apply gas_outcome; [by intros ? [-> _]%checked_mul_Some|done]|].
  intros ? -> _. eapply (outcome_bind (λ f, f = gas * base_fee s + tx_size tx * storage_price s));
    [apply gas_outcome; [by intros ? [-> _]%checked_add_Some|done]|]. intros total Ht _.
  eapply outcome_bind; [by apply outcome_err_if|cbv beta; intros [] Hge%Z.ltb_ge _].
  assert (0 <= total) by (rewrite Ht; unfold tx_size; nia). pose proof (supply_nonneg s1 (oa_ok _ _ _ _ Ha)) as Hs1.
  pose proof (oa_supply _ _ _ _ Ha) as Hsum. rewrite as_u64_small by lia.
  eapply (outcome_bind (λ tip, tip = balance - total)); [apply gas_outcome; [by intros ? [-> _]%checked_sub_Some|done]|].
  intros ? -> _. split; cbn; [|done..|lia]. by replace (total + (balance - total)) with balance by lia.
Qed.

(** C5: a transaction conserves value: applied to a reachable state it never
    panics; when it succeeds, the supply of notes and pools has lost exactly the
    fees, burned and tip, the burned part being the priced gas; when it fails it
    is for a check, an overflow, or a balance below the price. *)
Theorem transaction_conserves s tx : ledger_ok s → in_range s → supply s <= u64_max → 0 <= base_fee s → 0 <= storage_price s →
  tx_wf tx → tx_fresh s tx →
  (∀ c, config_for_slot (E:=LedgerError Id) eras (slot_of s) = Ok c → profile_ok (gas_profile c)) →
  match try_apply_transaction (Id:=Id) s eras tx with
  | Ok (s', g, _, _) => ledger_ok s' ∧ supply s' + gf_fee_burned g + gf_fee_tip g = supply s ∧ 0 <= gf_fee_tip g ∧
      gf_fee_burned g = gf_execution_gas g * base_fee s + gf_storage_gas g * storage_price s
  | Err e => tx_error e
  | Fault _ => False
  end.
Proof.
  intros Hok Hr Hsup Hbf Hsp Hwf Hf Hp. pose proof (tx_run s tx Hok Hr Hsup Hbf Hsp Hwf Hf Hp) as Ho.
  destruct (try_apply_transaction _ _ _) as [[[[s' g] ev] d]|e|f]; [|done..]. destruct Ho as [[? Hs _ _ _ _] ? _ _ ?].
  split_and!; [done|lia|done|done].
Qed.

(** The rejection for fees: with operations that apply and prices that do not
    overflow, a transaction is refused for its balance exactly when what its
    inputs leave over does not pay the execution and storage gas, and is
    accepted, with the rest as the tip, in every other case. *)
Theorem insufficient_balance s tx s1 balance gas events d : ledger_ok s → in_range s → supply s <= u64_max →
  0 <= base_fee s → 0 <= storage_price s → tx_wf tx → tx_fresh s tx →
  (∀ c, config_for_slot (E:=LedgerError Id) eras (slot_of s) = Ok c → profile_ok (gas_profile c)) →
  try_apply_tx_operations (Id:=Id) s eras tx = Ok (s1, balance, gas, events, d) →
  let cost := gas * base_fee s + tx_size tx * storage_price s in
  cost <= u64_max →
  try_apply_transaction (Id:=Id) s eras tx =
    if balance <? cost then Err InsufficientBalance
    else Ok (s1, mkGasAndFees gas (tx_size tx) cost (balance - cost), events, d).
Proof.
  intros Hok Hr Hsup Hbf Hsp Hwf Hf Hp Hops cost Hmax. pose proof (tx_operations_run s tx Hok Hr Hwf Hf Hp) as Ho.
  rewrite Hops in Ho. destruct Ho as [Ha Hgas]. unfold try_apply_transaction. rewrite Hops. cbn [mbind result_bind].
  rewrite (storage_size_ok tx Hwf). cbn [mbind result_bind].
  assert (base_fee s1 = base_fee s ∧ storage_price s1 = storage_price s) as [-> ->] by (by rewrite (oa_consensus _ _ _ _ Ha)).
  assert (0 <= gas * base_fee s ∧ 0 <= tx_size tx * storage_price s) as [? ?] by (unfold tx_size; nia).
  pose proof (supply_nonneg s1 (oa_ok _ _ _ _ Ha)) as Hs1. pose proof (oa_supply _ _ _ _ Ha) as Hsum.
  assert (∀ a b, 0 <= a * b <= u64_max → gas_cost a b = Ok (a * b)) as Hmul.
  { intros a b ?. unfold gas_cost, checked_mul. by rewrite (proj2 (Z.leb_le _ _)) by lia. }
  rewrite !Hmul by (subst cost; lia). cbn [gas_err map_err mbind result_bind]. unfold cost_add, checked_add. rewrite (proj2 (Z.leb_le _ _)) by (subst cost; lia).
  cbn [ok_or gas_err map_err mbind result_bind]. fold cost. destruct (Z.ltb_spec balance cost); [done|].
  cbn [err_if mbind result_bind]. rewrite as_u64_small by (subst cost; lia).
  unfold cost_sub, checked_sub. rewrite (proj2 (Z.leb_le _ _)) by lia. done.
Qed.

End Transactions.

End TxTheorems.
