(* ===== verification/BlockTheorems.v ===== *)
(** * Blocks: limits, rewards and inflation

    The transactions of a block stay within the limits of its era; its rewards
    are paid from its fees and a bounded emission, so the supply of a chain grows
    by at most the maximal emission of each of its blocks. *)

From S2P Require Import Prelude Era EraFacts EngineConfig MerkleStore Codec CodecLaws Ops OpsCodec Channels Utxos ServiceNotes Inputs ChannelOps SignedTx SdpOps SdpTheorems LedgerConfig ClaimOps TxVerification NoteFacts Leaders Pow PowTheorems Markets MarketFacts Cryptarchia ConsensusFacts Ledger LedgerInvariant TxTheorems.

#[local] Open Scope Z_scope.

Module BlockTheorems.
Import Canonical Ops OpsCodec Utxos Channels ServiceNotes Inputs ChannelOps SignedTx SdpOps SdpFacts SdpTheorems LedgerConfig ClaimOps TxVerification NoteFacts Leaders Pow PowFacts PowTheorems Markets MarketFacts Cryptarchia ConsensusFacts Ledger LedgerInvariant LedgerVerify TxTheorems.

Section Blocks.
Context {T R Params P Id : Type} `{!KeyedStoreOps T NoteId Utxo, !KeyedStore T NoteId Utxo}.
Context `{!Rewards T R Params, !RewardsLaws T R Params}.
Context `{Poseidon2Crate} `{Blake2Crate} `{Ed25519Crate} `{MultiaddrCrate} `{Ed25519Verify} `{PoCVerify}.
Context `{BigUintCrate} `{LotteryCrate} `{!LeaderProof P}.
Context (eras : EraSchedule (Config Params)) (max : Z).
Hypothesis eras_genesis : e_first_slot (s_genesis eras) = 0.
Implicit Types (s : LedgerState T R) (c : Config Params) (tx : SignedOps) (g : GasAndFees).

Notation slot_of s := (cl_slot (cryptarchia_ledger s)).
Notation base_fee s := (cl_execution_base_fee (cryptarchia_ledger s)).
Notation storage_price s := (cl_storage_gas_price (cryptarchia_ledger s)).
Notation run_tx := (try_apply_transaction (Id:=Id)).

(** ** The loop over the transactions *)

Fixpoint txs_fresh s (txs : list SignedOps) : Prop :=
  match txs with
  | [] => True
  | tx :: txs => tx_fresh (Id:=Id) eras s tx ∧ ∀ s' g ev d, run_tx s eras tx = Ok (s', g, ev, d) → txs_fresh s' txs
  end.

Definition block_error (e : LedgerError Id) : Prop :=
  match e with
  | TooManyTransactions _ | TransactionsTooLarge _ _ | TooMuchTransactionExecutionGas _ _ | TooMuchExecutionGas _ _ => True
  | _ => tx_error e
  end.

Lemma tx_block_error e : tx_error e → block_error e.
Proof. by destruct e. Qed.

Record gas_ok g : Prop := {
  go_execution : 0 <= gf_execution_gas g;
  go_storage : 0 <= gf_storage_gas g;
  go_burned : 0 <= gf_fee_burned g <= u64_max;
  go_tip : 0 <= gf_fee_tip g <= u64_max
}.

Definition fees g : Z := gf_fee_burned g + gf_fee_tip g.

(** After some transactions: the fees collected are what the supply lost, and the
    limits hold. *)
Record txs_applied s c g s' g' : Prop := {
  xa_ops : op_applied s (fees g) s' (fees g');
  xa_gas : gas_ok g';
  xa_limit : gf_execution_gas g <= max_gas_per_block (execution_market c) → gf_execution_gas g' <= max_gas_per_block (execution_market c)
}.

Lemma gas_and_fees_add_outcome a b max_gas : gas_ok a → gas_ok b →
  outcome (λ g, gas_ok g ∧ fees g = fees a + fees b ∧ gf_execution_gas g <= max_gas) block_error (gas_and_fees_add (Id:=Id) a b max_gas).
Proof.
  intros [? ? ? ?] [? ? ? ?]. unfold gas_and_fees_add. eapply outcome_bind; [by apply outcome_err_if|intros [] _ _].
  eapply (outcome_bind (λ x, x = gf_execution_gas a + gf_execution_gas b)); [apply gas_outcome; [by intros ? [-> _]%checked_add_Some|done]|].
  intros ? -> _. eapply outcome_bind; [by apply outcome_err_if|cbv beta; intros [] Hle%Z.ltb_ge _].
  eapply (outcome_bind (λ x, x = gf_storage_gas a + gf_storage_gas b)); [apply gas_outcome; [by intros ? [-> _]%checked_add_Some|done]|].
  intros ? -> _. eapply (outcome_bind (λ x, x = gf_fee_burned a + gf_fee_burned b ∧ x <= u64_max));
    [apply gas_outcome; [by intros ? [-> ?]%checked_add_Some|done]|]. intros ? [-> ?] _.
  eapply (outcome_bind (λ x, x = gf_fee_tip a + gf_fee_tip b ∧ x <= u64_max));
    [apply gas_outcome; [by intros ? [-> ?]%checked_add_Some|done]|]. intros ? [-> ?] _.
  unfold fees. cbn. split; [split; cbn; lia|]. lia.
Qed.

Lemma tx_applied_gas s tx s' g : ledger_ok s → supply s <= u64_max → 0 <= base_fee s → 0 <= storage_price s → tx_applied s tx s' g → gas_ok g.
Proof.
  intros Hok Hsup Hb Hp [[Hok' Hs _ _ _ _] Hburn Hst Hg Ht]. pose proof (supply_nonneg s' Hok').
  assert (0 <= gf_storage_gas g) by (rewrite Hst; unfold tx_size; lia). assert (0 <= gf_fee_burned g) by nia. split; lia.
Qed.

Lemma txs_run c txs : ∀ s index size g ev d, ledger_ok s → in_range s → supply s + fees g <= u64_max → gas_ok g → 0 <= base_fee s →
  0 <= storage_price s → config_for_slot (E:=LedgerError Id) eras (slot_of s) = Ok c → profile_ok (gas_profile c) →
  Forall (tx_wf max) txs → txs_fresh s txs →
  outcome (λ '(s', g', _, _), txs_applied s c g s' g') block_error (apply_txs (Id:=Id) s eras c index size g ev d txs).
Proof.
  induction txs as [|tx txs IH]; intros s index size g ev d Hok Hr Hsup Hg Hb Hp Hc Hprof Hwf Hf; cbn [apply_txs].
  { split; [by apply op_applied_refl|done|done]. }
  apply Forall_cons in Hwf as [Htx Hwf]. destruct Hf as [Hf Hfs]. pose proof Hg as [? ? ? ?]. unfold fees in Hsup.
  eapply outcome_bind; [by apply outcome_err_if|intros [] _ _]. rewrite (storage_size_ok max tx Htx).
  cbn [mbind result_bind]. eapply outcome_bind; [by apply outcome_err_if|intros [] _ _].
  eapply outcome_bind.
  { eapply outcome_impl; [apply (tx_run eras max eras_genesis s tx); [done..|lia|done|done|done|done|]|intros a Ha; exact Ha|apply tx_block_error].
    intros c' Hc'. congruence. }
  intros [[[s1 g1] ev1] d1] Ha Hrun. pose proof (tx_applied_gas s tx s1 g1 Hok ltac:(lia) Hb Hp Ha) as Hg1.
  eapply outcome_bind; [by apply gas_and_fees_add_outcome|]. intros g2 (Hg2 & Hsum & Hlim) _.
  pose proof (ta_ops _ _ _ _ Ha) as Hops. pose proof (op_applied_slot _ _ _ _ Hops) as Hslot.
  assert (base_fee s1 = base_fee s ∧ storage_price s1 = storage_price s) as [Hb1 Hb2] by (by rewrite (oa_consensus _ _ _ _ Hops)).
  pose proof (oa_supply _ _ _ _ Hops) as Hs1. unfold fees in *.
  eapply outcome_impl; [apply (IH s1)|intros [[[s2 g3] ev3] d3] [Ha2 Hg3 Hl3]|done].
  - apply Hops.
  - by eapply op_applied_range.
  - unfold fees. lia.
  - done.
  - by rewrite Hb1.
  - by rewrite Hb2.
  - by rewrite Hslot.
  - done.
  - done.
  - by eapply Hfs.
  - split; [|done|intros _; by apply Hl3]. eapply op_applied_trans; [|exact Ha2].
    destruct Hops. split; [done|unfold fees; lia|done..].
Qed.

(** ** Rewards of a block *)

(** A configuration its constructors accept. *)
Record config_ok c : Prop := {
  ck_profile : profile_ok (gas_profile c);
  ck_pow : reward_pow_typed (reward_pow c);
  ck_pow_valid : reward_pow_validate (reward_pow c) = Ok tt;
  ck_share : share_den (reward_pow c) <= u64_max;
  ck_rewards : block_rewards_typed (block_rewards_config c);
  ck_market : execution_market_ok (execution_market c);
  ck_rate : 0 <= rate_num (reward_pow c);
  ck_activation : 0 <= numerator (slot_activation_coeff (consensus_config c)) ∧ 0 < denominator (slot_activation_coeff (consensus_config c));
  ck_phases : 0 <= epoch_stake_distribution_stabilization (epoch_config c) ∧ 0 <= epoch_period_nonce_buffer (epoch_config c) ∧
    0 <= epoch_period_nonce_stabilization (epoch_config c)
}.

(** The fees and prices of the consensus ledger are within their width. *)
Record market_ok (l : Cryptarchia T) : Prop := {
  mk_window : length (cl_fee_window l) = WINDOW_SIZE;
  mk_fees : Forall in_u64 (cl_fee_window l);
  mk_average : 0 <= cl_average_execution_gas l <= u64_max;
  mk_base_fee : 1 <= cl_execution_base_fee l;
  mk_price : 0 <= cl_storage_gas_price l;
  mk_consumed : 0 <= cl_storage_gas_consumed l
}.

Lemma pow_fee_share_ok {E} c burned : config_ok c → 0 <= burned <= u64_max →
  ∃ share, pow_fee_share (E:=E) (reward_pow c) burned = Ok share ∧ 0 <= share <= burned.
Proof.
  intros [_ Ht Hv Hden _ _ _ _ _] Hb. pose proof (proj1 (reward_pow_validate_ok _ Ht) Hv) as (_ & Hle & _). destruct Ht as [_ _ _ _ _ _ Hs Hsd].
  unfold pow_fee_share. rewrite (proj2 (Z.leb_le _ _) Hle). cbn [assert_ mbind result_bind].
  rewrite strict_mul_in by (unfold u64_max, u128_max in *; nia). cbn [mbind result_bind]. rewrite div_in by lia. cbn [mbind result_bind].
  assert (0 <= burned * pow_share (reward_pow c) / share_den (reward_pow c) <= burned) as Hd.
  { split; [apply Z.div_pos; nia|]. apply Z.div_le_upper_bound; [lia|]. nia. }
  rewrite (proj2 (Z.leb_le _ _)) by lia. eexists. split; [done|]. done.
Qed.

Lemma summed_fees_ok {E} (w : list Z) : Forall in_u64 w → ∀ acc, 0 <= acc → acc + Z.of_nat (length w) * u64_max <= u128_max →
  ∃ sum, foldl (λ acc fee, sum ← acc; strict_add u128_max sum fee) (Ok (E:=E) acc) w = Ok sum.
Proof.
  induction 1 as [|f w [Hf0 Hf] _ IH]; intros acc Ha Hmax; cbn [foldl length] in *; [by eexists|]. cbn [mbind result_bind].
  unfold u64_max in *. rewrite strict_add_in by lia. apply IH; lia.
Qed.

(** The emission of a block, in whole units. *)
Definition emission_within c (m : Z) : Prop :=
  0 <= m ∧ numerator (max_emission_per_block (block_rewards_config c)) <= m * denominator (max_emission_per_block (block_rewards_config c)).

Lemma block_rewards_within {E} c pooled fee stake m : config_ok c → emission_within c m → 0 <= fee <= u64_max →
  ∃ blend leader, block_rewards (E:=E) (block_rewards_config c) pooled fee stake = Ok (blend, leader) ∧ 0 <= blend ∧ 0 <= leader ∧
    blend + leader <= fee + m.
Proof.
  intros [_ _ _ _ Hc _ _ _ _] [Hm0 Hm] Hf. destruct (block_rewards_emission (E:=E) _ pooled fee stake Hc Hf) as (x & y & Hrun & Hx & Hy & Hle).
  exists x, y. split_and!; [done..|]. destruct Hc as [_ _ _ _ Hd _ _].
  set (d := denominator (max_emission_per_block (block_rewards_config c))) in *. assert (d * (x + y - fee) <= d * m) by lia.
  assert (x + y - fee <= m) by (apply (Z.mul_le_mono_pos_l _ _ d); lia). lia.
Qed.

(** The fee window after a block: the fees of the block are at its index. *)
Lemma fee_window_ok {E} (l : Cryptarchia T) index fee : market_ok l → ks_ok (cl_utxos l) → (index < WINDOW_SIZE)%nat → in_u64 fee →
  ∃ l' sum, update_fee_window (E:=E) l index fee = Ok l' ∧ get_summed_fees (E:=E) l' = Ok sum ∧ get_fee_from_index (E:=E) l' index = Ok fee ∧
    market_ok l' ∧ same_epochs l l' ∧ cl_utxos l' = cl_utxos l ∧ cl_execution_base_fee l' = cl_execution_base_fee l ∧
    cl_average_execution_gas l' = cl_average_execution_gas l.
Proof.
  intros [Hlen Hfees ? ? ? ?] Hok Hi Hf. unfold update_fee_window. rewrite Hlen, (proj2 (Nat.ltb_lt _ _) Hi). cbn [assert_ mbind result_bind].
  assert (Forall in_u64 (<[index := fee]> (cl_fee_window l))) as Hw by (by apply Forall_insert).
  destruct (summed_fees_ok (E:=E) _ Hw 0) as (sum & Hsum); [done| |].
  { rewrite length_insert, Hlen. change (Z.of_nat WINDOW_SIZE) with 120. unfold u64_max, u128_max. lia. }
  eexists _, sum. split; [done|]. split; [exact Hsum|]. split.
  { unfold get_fee_from_index. cbn [cl_fee_window]. by rewrite list_lookup_insert_eq by (by rewrite Hlen). }
  split_and!; [split; cbn; done || by rewrite length_insert|by split|done..].
Qed.

(** The pools after the rewards of a block. *)
Lemma add_pending_ok {E} xs (l : LeaderState) amount : leaders_ok xs l → 0 <= amount →
  claimable_rewards l + pending_rewards l + amount <= u64_max →
  ∃ l', add_pending_rewards (E:=E) l amount = Ok l' ∧ leaders_ok xs l' ∧ claimable_rewards l' = claimable_rewards l ∧
    pending_rewards l' = pending_rewards l + amount ∧ l_epoch l' = l_epoch l ∧ vouchers l' = vouchers l.
Proof.
  intros [Hv Hc Hp Hs] Ha Hmax. unfold add_pending_rewards. rewrite strict_add_in by lia. cbn [mbind result_bind].
  eexists. split; [done|]. split_and!; [split; cbn; done || lia|done..].
Qed.

Lemma add_income_ok {E} (sdp : SdpLedger R) v amount : sdp_ok_with sdp v → rw_ok (s_rewards v) → 0 <= amount →
  blend_income sdp + amount <= u64_max →
  ∃ sdp' v', add_blend_income (T:=T) (Params:=Params) (E:=E) sdp amount = Ok sdp' ∧ sdp_ok_with sdp' v' ∧ rw_ok (s_rewards v') ∧
    blend_income sdp' = blend_income sdp + amount ∧ sdp_epoch sdp' = sdp_epoch sdp ∧ sdp_service_notes sdp' = sdp_service_notes sdp.
Proof.
  intros Hv Hr Ha Hmax. rewrite (blend_income_with _ _ Hv) in *. destruct (rw_add_income_ok (E:=E) _ _ Hr Ha Hmax) as (r' & Hr' & Hok' & Hi).
  assert (∃ sdp', add_blend_income (T:=T) (Params:=Params) (E:=E) sdp amount = Ok sdp') as [sdp' Hrun].
  { unfold add_blend_income. rewrite (service_lookup _ _ _ (so_services _ _ Hv)), Hr'. by eexists. }
  destruct (income_step _ _ _ _ Hv Hrun) as (v' & Hv' & He & _ & Hn & Hrw). rewrite Hr' in Hrw. injection Hrw as Hrw.
  exists sdp', v'. rewrite (blend_income_with _ _ Hv'), <- Hrw. done.
Qed.

Lemma add_refill_ok (p : PowState) amount : pow_ok p → 0 <= amount → refill_rewards (ps_reward p) + amount <= u64_max →
  ∃ p', add_reward_refill_rewards p amount = Ok p' ∧ pow_ok p' ∧ reward_pool (ps_reward p') = reward_pool (ps_reward p) ∧
    refill_rewards (ps_reward p') = refill_rewards (ps_reward p) + amount.
Proof.
  intros [? ? ? ?] Ha Hmax. unfold add_reward_refill_rewards, checked_add. rewrite (proj2 (Z.leb_le _ _) Hmax). cbn [ok_or mbind result_bind].
  eexists. split; [done|]. split; [split; cbn; done || lia|done].
Qed.

(** ** The rewards, as a whole *)

(** What the end of a block changes: pools and prices, not the notes. *)
Record block_closed s s' : Prop := {
  bc_ok : ledger_ok s';
  bc_market : market_ok (cryptarchia_ledger s');
  bc_epochs : same_epochs (cryptarchia_ledger s) (cryptarchia_ledger s');
  bc_utxos : cl_utxos (cryptarchia_ledger s') = cl_utxos (cryptarchia_ledger s);
  bc_number : block_number s' = block_number s;
  bc_epoch : sdp_epoch (m_sdp (mantle_ledger s')) = sdp_epoch (m_sdp (mantle_ledger s))
}.

Lemma rewards_run s burned tip c m : ledger_ok s → market_ok (cryptarchia_ledger s) → config_ok c → emission_within c m →
  0 <= burned <= u64_max → 0 <= tip → supply s + burned + tip + m <= u64_max →
  ∃ s', compute_block_rewards (Id:=Id) s burned tip c = Ok s' ∧ block_closed s s' ∧ supply s + tip <= supply s' <= supply s + burned + tip + m ∧
    cl_execution_base_fee (cryptarchia_ledger s') = base_fee s ∧
    cl_average_execution_gas (cryptarchia_ledger s') = cl_average_execution_gas (cryptarchia_ledger s).
Proof.
  intros Hok Hmk Hc Hm Hb Ht Hmax. pose proof Hok as [Hn Hcs (v & Hv & Hr) (xs & Hl & Hlen) Hp Hep].
  pose proof (pools_nonneg _ _ _ _ Hok) as (? & ? & ? & ? & ?). pose proof (notes_total_nonneg _ _ _ Hn). unfold supply, pools in Hmax.
  unfold compute_block_rewards. destruct (pow_fee_share_ok (E:=LedgerError Id) c burned Hc Hb) as (share & -> & Hshare). cbn [mbind result_bind].
  unfold cost_sub, checked_sub. rewrite (proj2 (Z.leb_le _ _)) by lia. cbn [ok_or gas_err map_err mbind result_bind].
  set (i := Z.to_nat _). assert (i < WINDOW_SIZE)%nat as Hi.
  { unfold i. change WINDOW_SIZE with 120%nat. pose proof (Z.mod_pos_bound (block_number s) (Z.of_nat 120) ltac:(lia)). lia. }
  destruct (fee_window_ok (E:=LedgerError Id) (cryptarchia_ledger s) i (burned - share) Hmk (no_store _ _ _ Hn) Hi) as (l' & sum & -> & Hsum & Hfee & Hmk' & Hse & Hu & Hbf & Havg);
    [split; lia|]. cbn [mbind result_bind]. rewrite Hsum. cbn [mbind result_bind]. rewrite Hfee. cbn [mbind result_bind].
  destruct (block_rewards_within (E:=LedgerError Id) c sum (burned - share) (total_stake (cl_epoch_state l')) m Hc Hm ltac:(lia)) as (bl & ld & -> & Hbl & Hld & Hsm).
  cbn [mbind result_bind]. destruct Hm as [Hm0 _].
  unfold cost_add, checked_add. rewrite (proj2 (Z.leb_le _ _)) by lia. cbn [ok_or gas_err map_err mbind result_bind].
  destruct (add_pending_ok (E:=LedgerError Id) xs (m_leaders (mantle_ledger s)) (ld + tip) Hl ltac:(lia) ltac:(lia)) as (ls & -> & Hls & Hcl & Hpe & Hle & Hvo).
  cbn [mbind result_bind].
  destruct (add_income_ok (E:=LedgerError Id) (m_sdp (mantle_ledger s)) v bl Hv Hr Hbl ltac:(lia)) as (sdp & v' & -> & Hv' & Hr' & Hbi & Hse' & Hsn).
  cbn [mbind result_bind].
  destruct (add_refill_ok (m_pow (mantle_ledger s)) share Hp ltac:(lia) ltac:(lia)) as (pow & -> & Hpow & Hrp & Hrf).
  cbn [map_err mbind result_bind]. eexists. split; [done|]. split_and!; [split|..]; cbn.
  - split; cbn; [by rewrite Hu, Hsn|by rewrite (sa_slot _ _ Hse)|by exists v'|by exists xs|done|congruence].
  - done.
  - done.
  - done.
  - done.
  - done.
  - unfold supply, pools. cbn. rewrite Hu, Hcl, Hpe, Hrp, Hrf, Hbi. lia.
  - unfold supply, pools. cbn. rewrite Hu, Hcl, Hpe, Hrp, Hrf, Hbi. lia.
  - done.
  - done.
Qed.

(** ** Block contents *)

Lemma same_epochs_trans (l l1 l2 : Cryptarchia T) : same_epochs l l1 → same_epochs l1 l2 → same_epochs l l2.
Proof. intros [? ? ? ? _] [? ? ? ? ?]. split; congruence. Qed.

Lemma op_applied_epochs s b s' b' : op_applied s b s' b' → same_epochs (cryptarchia_ledger s) (cryptarchia_ledger s').
Proof.
  intros Ha. pose proof (no_store _ _ _ (mo_notes _ _ _ _ (oa_ok _ _ _ _ Ha))) as Hok. split; [..|done]; by rewrite (oa_consensus _ _ _ _ Ha).
Qed.

Lemma op_applied_market s b s' b' : op_applied s b s' b' → market_ok (cryptarchia_ledger s) → market_ok (cryptarchia_ledger s').
Proof. intros Ha [? ? ? ? ? ?]. rewrite (oa_consensus _ _ _ _ Ha). by split. Qed.

(** The next base fee can be computed, whatever the gas of the block. *)
Definition fee_room c (l : Cryptarchia T) : Prop := ∀ gas, 0 <= gas <= max_gas_per_block (execution_market c) →
  fee_fits (execution_market c) (cl_execution_base_fee l) (next_average (execution_market c) (cl_average_execution_gas l) gas).

(** The next base fee can not be computed: the product leaves its 128 bits. *)
Definition fee_overflow c (l : Cryptarchia T) : Prop := ∃ gas, 0 <= gas <= max_gas_per_block (execution_market c) ∧
  u128_max < cl_execution_base_fee l * fee_factor (execution_market c) (next_average (execution_market c) (cl_average_execution_gas l) gas).

Lemma fee_room_fits c l : fee_room c l → ¬ fee_overflow c l.
Proof. intros Hr (gas & Hg & Ho). destruct (Hr gas Hg). lia. Qed.

(** An outcome that may be a panic, under a condition. *)
Definition outcome_or {E A} (Q : A → Prop) (F : E → Prop) (G : Prop) (r : result E A) : Prop :=
  match r with Ok a => Q a | Err e => F e | Fault _ => G end.

Lemma outcome_or_bind {E A B} (Q : A → Prop) (Q' : B → Prop) (F : E → Prop) (G : Prop) r (k : A → result E B) :
  outcome_or Q F G r → (∀ a, Q a → outcome_or Q' F G (k a)) → outcome_or Q' F G (r ≫= k).
Proof. destruct r; cbn; [|done..]. intros HQ Hk. by apply Hk. Qed.

Lemma outcome_weaken {E A} (Q : A → Prop) (F : E → Prop) (G : Prop) r : outcome Q F r → outcome_or Q F G r.
Proof. by destruct r. Qed.

Lemma outcome_or_panic {E A} (Q : A → Prop) (F : E → Prop) (G G' : Prop) r : (G → G') → outcome_or Q F G r → outcome_or Q F G' r.
Proof. by destruct r. Qed.

(** What the updates of the markets leave alone. *)
Record steady s s' : Prop := {
  sd_ok : ledger_ok s';
  sd_epochs : same_epochs (cryptarchia_ledger s) (cryptarchia_ledger s');
  sd_number : block_number s' = block_number s;
  sd_epoch : sdp_epoch (m_sdp (mantle_ledger s')) = sdp_epoch (m_sdp (mantle_ledger s));
  sd_supply : supply s' = supply s
}.

Lemma execution_market_step s gas c : ledger_ok s → market_ok (cryptarchia_ledger s) → config_ok c → 0 <= gas <= max_gas_per_block (execution_market c) →
  outcome_or (λ s', steady s s' ∧ 0 <= cl_storage_gas_consumed (cryptarchia_ledger s') ∧ (fee_room c (cryptarchia_ledger s) → market_ok (cryptarchia_ledger s')))
    (block_error : LedgerError Id → Prop) (fee_overflow c (cryptarchia_ledger s)) (ledger_execution_market s gas (execution_market c)).
Proof.
  intros Hok [? ? Ha Hb ? ?] [_ _ _ _ _ Hm _ _ _] Hg. unfold ledger_execution_market, apply_execution_market.
  assert (0 <= gas <= u64_max) as Hg' by (pose proof (eo_max _ Hm); lia).
  rewrite execution_market_total by (done || lia). cbv zeta.
  pose proof (next_average_bounds (execution_market c) (cl_average_execution_gas (cryptarchia_ledger s)) gas Hm) as Hna.
  destruct (Z.leb_spec (cl_execution_base_fee (cryptarchia_ledger s) * fee_factor (execution_market c) (next_average (execution_market c) (cl_average_execution_gas (cryptarchia_ledger s)) gas)) u128_max)
    as [Hle|Hgt]; [|exists gas; by split]. cbn [mbind result_bind outcome_or].
  split; [split; [done|by split; try apply Hok|done..]|]. split; [done|]. intros Hroom.
  assert (0 <= cl_execution_base_fee (cryptarchia_ledger s)) as Hb0 by lia. pose proof (execution_market_run (E:=Empty_set) _ _ _ _ Hm Ha Hg' Hb0 (Hroom gas Hg)) as Hrun. rewrite execution_market_total in Hrun by (done || lia). cbv zeta in Hrun.
  rewrite (proj2 (Z.leb_le _ _) Hle) in Hrun. injection Hrun as Hrun.
  set (average := next_average _ _ _) in *. pose proof (base_fee_follows (execution_market c) average _ Hm ltac:(lia) Hb) as (Hb' & _).
  split; cbn; try (done || lia).
Qed.

Lemma storage_gas_step s gas : ledger_ok s → 0 <= cl_storage_gas_consumed (cryptarchia_ledger s) → 0 <= gas →
  outcome (λ s', steady s s' ∧ (market_ok (cryptarchia_ledger s) → market_ok (cryptarchia_ledger s'))) block_error (ledger_storage_gas (Id:=Id) s gas).
Proof.
  intros Hok Hc Hg. unfold ledger_storage_gas, add_storage_gas_consumed, gas_add, checked_add.
  destruct (_ <=? _); cbn [ok_or gas_err map_err mbind result_bind outcome]; [|done].
  split; [split; [done|by split; try apply Hok|done..]|]. intros [? ? ? ? ? ?]. split; cbn; done || lia.
Qed.

Lemma block_closed_trans s s1 s2 : block_closed s s1 → block_closed s1 s2 → block_closed s s2.
Proof. intros [_ _ ? ? ? ?] [? ? ? ? ? ?]. split; [done|done|by eapply same_epochs_trans|congruence..]. Qed.

(** The state after the contents of a block. *)
Record contents_applied s s' : Prop := {
  ca_ok : ledger_ok s';
  ca_market : market_ok (cryptarchia_ledger s');
  ca_epochs : same_epochs (cryptarchia_ledger s) (cryptarchia_ledger s');
  ca_number : block_number s' = block_number s;
  ca_epoch : sdp_epoch (m_sdp (mantle_ledger s')) = sdp_epoch (m_sdp (mantle_ledger s))
}.

(** The contents of a block on every path: the only panic is that of the base fee. *)
Lemma contents_outcome s txs c m : ledger_ok s → in_range s → market_ok (cryptarchia_ledger s) →
  config_for_slot (E:=LedgerError Id) eras (slot_of s) = Ok c → config_ok c → emission_within c m →
  supply s + m <= u64_max → Forall (tx_wf max) txs → txs_fresh s txs →
  outcome_or (λ '(s', _, _), (fee_room c (cryptarchia_ledger s) → contents_applied s s') ∧ ledger_ok s' ∧ supply s' <= supply s + m) block_error
    (fee_overflow c (cryptarchia_ledger s)) (try_apply_block_contents (Id:=Id) s eras txs).
Proof.
  intros Hok Hr Hmk Hc Hck Hm Hmax Hwf Hf. unfold try_apply_block_contents. rewrite Hc. cbn [mbind result_bind].
  pose proof (mk_base_fee _ Hmk). pose proof (mk_price _ Hmk). pose proof Hm as [Hm0 _].
  eapply outcome_or_bind; [apply outcome_weaken, (txs_run c txs s); try done; try (split; cbn; unfold u64_max; lia); [unfold fees; cbn; lia|lia|apply Hck]|].
  intros [[[s1 g] ev] d] [Ha [? ? ? ?] Hl]. pose proof (oa_supply _ _ _ _ Ha) as Hs1. unfold fees in Hs1. cbn in Hs1.
  destruct (rewards_run s1 (gf_fee_burned g) (gf_fee_tip g) c m) as (s2 & -> & Hc2 & Hs2 & Hb2 & Ha2); try done; try lia;
    [apply Ha|by eapply op_applied_market|]. cbn [mbind result_bind].
  assert (0 <= gf_execution_gas g <= max_gas_per_block (execution_market c)) as Hgas.
  { split; [done|]. apply Hl. cbn. pose proof (eo_max _ (ck_market _ Hck)). lia. }
  assert (cl_execution_base_fee (cryptarchia_ledger s2) = base_fee s ∧ cl_average_execution_gas (cryptarchia_ledger s2) = cl_average_execution_gas (cryptarchia_ledger s))
    as [Eb Ea] by (rewrite Hb2, Ha2, (oa_consensus _ _ _ _ Ha); done).
  assert (fee_overflow c (cryptarchia_ledger s2) → fee_overflow c (cryptarchia_ledger s)) as Hov by (unfold fee_overflow; by rewrite Eb, Ea).
  assert (fee_room c (cryptarchia_ledger s) → fee_room c (cryptarchia_ledger s2)) as Hro by (unfold fee_room; by rewrite Eb, Ea).
  pose proof (execution_market_step s2 (gf_execution_gas g) c (bc_ok _ _ Hc2) (bc_market _ _ Hc2) Hck Hgas) as Hstep.
  eapply outcome_or_bind; [by eapply outcome_or_panic, Hstep|]. cbv beta. intros s3 ([? He3 Hn3 Hp3 Hs3] & Hcons & Hm3).
  eapply outcome_or_bind; [apply outcome_weaken, (storage_gas_step s3); done|]. intros s4 [[? He4 Hn4 Hp4 Hs4] Hm4]. cbn [outcome_or].
  destruct Hc2 as [_ _ He2 _ Hn2 Hp2]. pose proof (oa_number _ _ _ _ Ha). pose proof (oa_epoch _ _ _ _ Ha).
  split_and!; [|done|lia]. intros Hroom. split; [done|by apply Hm4, Hm3, Hro| |congruence|congruence].
  eapply same_epochs_trans; [by eapply op_applied_epochs|]. eapply same_epochs_trans; [exact He2|]. by eapply same_epochs_trans.
Qed.

Lemma contents_run s txs c m : ledger_ok s → in_range s → market_ok (cryptarchia_ledger s) →
  config_for_slot (E:=LedgerError Id) eras (slot_of s) = Ok c → config_ok c → emission_within c m → fee_room c (cryptarchia_ledger s) →
  supply s + m <= u64_max → Forall (tx_wf max) txs → txs_fresh s txs →
  outcome (λ '(s', _, _), contents_applied s s' ∧ supply s' <= supply s + m) block_error (try_apply_block_contents (Id:=Id) s eras txs).
Proof.
  intros Hok Hr Hmk Hc Hck Hm Hroom Hmax Hwf Hf. pose proof (contents_outcome s txs c m Hok Hr Hmk Hc Hck Hm Hmax Hwf Hf) as Ho.
  destruct (try_apply_block_contents _ _ _) as [[[s' ev] d]|e|f]; cbn in *; [|done|by apply (fee_room_fits c (cryptarchia_ledger s))]. destruct Ho as (Ha & _ & ?). split; [by apply Ha|done].
Qed.

(** ** Headers *)

Lemma f64_floor_nonneg x : 0 <= f64_floor_u64 x.
Proof.
  unfold f64_floor_u64. destruct x as [| | |[] m e]; try (unfold u64_max; lia); [by destruct s|].
  apply Z.min_glb; [unfold u64_max; lia|]. destruct (Z.leb_spec 0 e); [apply Z.mul_nonneg_nonneg; [lia|apply Z.pow_nonneg; lia]|].
  apply Z.div_pos; [lia|]. apply Z.pow_pos_nonneg; lia.
Qed.

Lemma nonzero_ok {E} n m : nonzero (E:=E) n = Ok m → m = n ∧ n ≠ 0.
Proof. unfold nonzero. destruct (Z.eqb_spec n 0); [done|]. by intros [= <-]. Qed.

Lemma claim_rate_pos {E} c d : config_ok c → claim_rate_denominator (E:=E) c = Ok d → 0 < d.
Proof.
  intros [_ [_ _ _ _ Hrd Htc _ _] _ _ _ _ _ [Hn Hd] (Hp1 & Hp2 & Hp3)] Hc. unfold claim_rate_denominator in Hc. peel Hc as cfg Hcfg.
  assert (0 <= cfg) as H1'.
  { unfold claim_rate_scale, checked_claim_rate_scale in Hcfg. unfold checked_mul in Hcfg. destruct (_ <=? _); cbn in Hcfg; [|done].
    destruct (nonzero (rate_den (reward_pow c) * target_claim_per_block (reward_pow c))) as [x| |] eqn:Hx; [|done..].
    apply nonzero_ok in Hx as [-> _]. injection Hcfg as <-. nia. }
  peel Hc as blocks Hbl. assert (0 <= blocks) as H2'.
  { unfold config_expected_blocks, config_epoch_length, expected_blocks_per_epoch in Hbl. peel Hbl as len Hlen. peel Hlen as base Hbase.
    unfold config_base_period, base_period_length, average_slots_for_blocks in Hbase. apply nonzero_ok in Hbase as [-> _].
    apply Ok_inj in Hlen. subst len. peel Hbl as p Hp. apply strict_mul_ok in Hp as [-> _]. apply nonzero_ok in Hbl as [-> _].
    pose proof (f64_floor_nonneg (f64_div (f64_of_Z (security_param (consensus_config c))) (as_f64 (slot_activation_coeff (consensus_config c))))) as Hfl.
    assert (0 <= epoch_config_length (epoch_config c) (f64_floor_u64 (f64_div (f64_of_Z (security_param (consensus_config c))) (as_f64 (slot_activation_coeff (consensus_config c)))))) as Hlen.
    { unfold epoch_config_length, saturating_mul, saturating_add. apply Z.min_glb; [unfold u64_max; lia|].
      apply Z.mul_nonneg_nonneg; [|done]. unfold u64_max. lia. }
    set (b := _ / _). assert (0 <= b) by (apply Z.div_pos; nia). destruct (b >? u64_max); [unfold u64_max; lia|done]. }
  peel Hc as dd Hdd. apply strict_mul_ok in Hdd as [-> _]. apply nonzero_ok in Hc as [-> Hnz]. nia.
Qed.

Lemma epoch_pow_reward_ok {E} c pool r : config_ok c → 0 <= pool → compute_epoch_pow_reward (E:=E) pool c = Ok r → 0 <= r <= u64_max.
Proof.
  intros Hc Hp Hr. pose proof (ck_rate _ Hc). unfold compute_epoch_pow_reward in Hr. peel Hr as prod Hprod. apply strict_mul_ok in Hprod as [-> _].
  peel Hr as den Hden. apply claim_rate_pos in Hden; [|done]. peel Hr as q Hq. apply div_ok in Hq as [-> _]. injection Hr as <-.
  assert (0 <= pool * rate_num (reward_pow c) / den) by (apply Z.div_pos; nia). unfold u64_max. lia.
Qed.

Lemma pow_header_ok p (les es : EpochState T) c p' : pow_ok p → config_ok c → pow_apply_header p les es c = Ok p' →
  pow_ok p' ∧ reward_pool (ps_reward p') + refill_rewards (ps_reward p') = reward_pool (ps_reward p) + refill_rewards (ps_reward p).
Proof.
  intros [Hp Hf Hr Hs] Hc Ha. unfold pow_apply_header in Ha. destruct (_ <=? _); [injection Ha as <-; split; [by split|done]|].
  peel Ha as p1 Hp1. injection Ha as <-. unfold add_rewards_to_pool in Hp1. peel Hp1 as pool Hpool. apply ok_or_ok, checked_add_Some in Hpool as [-> Hle].
  peel Hp1 as r Hrew. apply epoch_pow_reward_ok in Hrew; [|done|lia]. injection Hp1 as <-. cbn. split; [split; cbn; done || lia|lia].
Qed.

(** The new notes of a header are fresh. *)
Definition header_fresh s slot (proof : P) uncles : Prop := ∀ l m effect,
  cryptarchia_apply_header (Id:=Id) (cryptarchia_ledger s) slot proof uncles (m_sdp (mantle_ledger s)) (m_pow (mantle_ledger s)) eras = Ok l →
  mantle_apply_header (mantle_ledger s) (cl_epoch_state (cryptarchia_ledger s)) (cl_epoch_state l) (lp_voucher_cm proof) eras = Ok (m, effect) →
  insertable (cl_utxos l) (reward_utxos effect).

(** The whole state of a reachable block. *)
Record chain_ok s : Prop := {
  ch_ledger : ledger_ok s;
  ch_market : market_ok (cryptarchia_ledger s);
  ch_epochs : epochs_ok (Id:=Id) eras (cryptarchia_ledger s);
  ch_epoch : es_epoch (cl_epoch_state (cryptarchia_ledger s)) = sdp_epoch (m_sdp (mantle_ledger s));
  ch_number : 0 <= block_number s;
  ch_declarations : declarations_ok (cryptarchia_ledger s)
}.

(** Every configuration the ledger reads is that of an era. *)
Lemma last_take_while {A} (f : A → bool) (l : list A) x : last (take_while f l) = Some x → x ∈ l.
Proof.
  revert x. induction l as [|a l IH]; intros x; cbn [take_while]; [done|]. destruct (f a); [|done]. rewrite last_cons.
  destruct (last (take_while f l)) as [y|] eqn:Hl; intros [= <-]; [right; by apply IH|left].
Qed.

Lemma config_for_epoch_in {E} epoch c : config_for_epoch (E:=E) eras epoch = Ok c → ∃ v, v ∈ Era.eras eras ∧ v_parameters v = c.
Proof.
  unfold config_for_epoch, at_epoch. intros Hc. peel Hc as v Hv. injection Hc as <-. apply expect_ok in Hv. exists v.
  split; [by eapply last_take_while|done].
Qed.

Lemma config_for_slot_in {E} slot c : config_for_slot (E:=E) eras slot = Ok c → ∃ v, v ∈ Era.eras eras ∧ v_parameters v = c.
Proof.
  unfold config_for_slot, at_slot. intros Hc. peel Hc as v Hv. injection Hc as <-. apply expect_ok in Hv. exists v.
  split; [by eapply last_take_while|done].
Qed.

(** Locks that only disappear, and notes that only appear. *)
Lemma notes_ok_unlock utxos cs sn (sn' : ServiceNotes) : notes_ok utxos cs sn →
  (∀ nid n, sn' !! nid = Some n → ∃ n0, sn !! nid = Some n0 ∧ sn_note n0 = sn_note n) → notes_ok utxos cs sn'.
Proof.
  intros [Hs Hk Hc Hn] Hsub. split; [done|done| |].
  - intros id ch Hid. destruct (Hc _ _ Hid) as (? & ? & Hno). split_and!; [done..|].
    destruct (sn' !! id) as [n|] eqn:Hid'; [|done]. destruct (Hsub _ _ Hid') as (n0 & ? & _). congruence.
  - intros id n Hid. destruct (Hsub _ _ Hid) as (n0 & Hn0 & <-). by apply Hn.
Qed.

Lemma notes_ok_created {E} utxos cs sn l : notes_ok utxos cs sn → insertable utxos l → Forall (λ u, note_ok (note u)) l →
  ∃ utxos', insert_utxos (E:=E) utxos l = Ok utxos' ∧ notes_ok utxos' cs sn ∧ notes_total utxos' = notes_total utxos + utxos_value l.
Proof.
  intros Hn Hi Hl. destruct (spend_none (E:=E) utxos l (no_store _ _ _ Hn) Hi) as (u' & Hu' & Hsc). exists u'. split; [done|]. split.
  - eapply notes_ok_spent; [done..|intros i Hi'; by apply not_elem_of_nil in Hi'|].
    intros id ch Hc. destruct (no_channel _ _ _ Hn _ _ Hc) as (_ & ? & _). split; [done|]. right. split; [apply not_elem_of_nil|done].
  - rewrite (sc_total _ _ _ _ Hsc). cbn. lia.
Qed.

Context `{!SlotDuration (Config Params)}.
Hypothesis eras_wf : wf_schedule eras.
Hypothesis eras_ok : ∀ v, v ∈ Era.eras eras → config_ok (v_parameters v).

(** What a header does to the Mantle ledger. *)
Lemma mantle_header_run utxos slot slot' number m les es voucher m' effect : mantle_ok utxos slot number m → slot <= slot' → number < 2 ^ 32 →
  es_epoch les = sdp_epoch (m_sdp m) → es_epoch les <= es_epoch es → epoch_declarations_ok les →
  mantle_apply_header (T:=T) m les es voucher eras = Ok (m', effect) →
  mantle_ok utxos slot' (number + 1) m' ∧ sdp_epoch (m_sdp m') = es_epoch es ∧
  pools m' + utxos_value (reward_utxos effect) <= pools m ∧ Forall (λ u, note_ok (note u)) (reward_utxos effect).
Proof.
  intros [Hn Hcs (v & Hv & Hr) (xs & Hl & Hlen) Hp Hep] Hslot Hnum He Hle Hds Ha. unfold mantle_apply_header in Ha.
  peel Ha as lc Hlc. peel Ha as c Hc. apply config_for_epoch_in in Hc as (era & Hera & <-).
  destruct (leaders_header xs (m_leaders m) (es_epoch es) voucher Hl ltac:(lia) ltac:(lia)) as (ls & Hls & Hls' & Hle' & _ & _ & Hcl & Hpe).
  rewrite Hls in Ha. cbn [map_err mbind result_bind] in Ha. peel Ha as [sdp eff] Hsdp. apply map_err_ok in Hsdp.
  eapply header_step in Hsdp as (v' & Hv' & He' & _ & Hsn & Hrw); [|exact Hv|exact He|lia].
  peel Ha as pow Hpow. apply map_err_ok in Hpow. apply pow_header_ok in Hpow as [Hpow Hpools]; [|done|by apply eras_ok].
  injection Ha as <- <-. unfold pools. cbn.
  assert (rw_ok (s_rewards v') ∧ rw_income (s_rewards v') + utxos_value (reward_utxos eff) <= rw_income (s_rewards v) ∧
    Forall (λ u, note_ok (note u)) (reward_utxos eff)) as (Hr' & Hinc & Hnotes).
  { destruct Hrw as [[-> ->]|[params Hrw]]; [split_and!; [done|cbn; lia|constructor]|by eapply rw_update_epoch_ok]. }
  split_and!; [|done| |done].
  - split; cbn; [by eapply notes_ok_unlock| |by exists v'| |done|congruence].
    + intros id ch Hch. destruct (Hcs _ _ Hch) as (? & ? & ?). split; [by eapply channel_wf_mono|done].
    + exists (xs ++ [voucher]). split; [done|]. rewrite length_app. cbn. lia.
  - rewrite (blend_income_with _ _ Hv), (blend_income_with _ _ Hv'), Hcl, Hpe. destruct (_ <? _); lia.
Qed.

Lemma header_run s slot proof uncles s' ev : chain_ok s → block_number s < 2 ^ 32 → header_fresh s slot proof uncles →
  try_apply_header (Id:=Id) s slot proof uncles eras = Ok (s', ev) →
  chain_ok s' ∧ slot_of s < slot ∧ slot_of s' = slot ∧ block_number s' = block_number s + 1 ∧ supply s' <= supply s.
Proof.
  intros [Hok Hmk Hepo Hep Hnum0 Hdecl] Hnum Hf Ha. unfold try_apply_header in Ha. peel Ha as l Hl. peel Ha as [m effect] Hm. apply map_err_ok in Hm.
  specialize (Hf l m effect Hl Hm).
  pose proof (apply_header_ok _ _ _ _ _ _ _ _ Hepo Hl) as (lu & Hup & Hepo' & Hlt & Hs & Hu & Hce & Hcn & Hw & _ & Hp1 & Hp2 & Hp3 & Hp4).
  assert (es_epoch (cl_epoch_state (cryptarchia_ledger s)) <= es_epoch (cl_epoch_state l)) as Hmono.
  { pose proof (eo_slot _ _ Hepo). eapply (epoch_for_slot_mono eras); [done| |apply Hepo|apply Hepo']. lia. }
  destruct (mantle_header_run (cl_utxos (cryptarchia_ledger s)) (slot_of s) slot (block_number s) _ _ _ _ m effect Hok ltac:(lia) Hnum Hep Hmono (proj1 Hdecl) Hm) as (Hmo & Hme & Hpools & Hnotes).
  peel Ha as utxos Hins. peel Ha as number Hnumber. apply expect_ok, checked_add_Some in Hnumber as [-> _]. injection Ha as <- <-.
  rewrite Hu in Hins, Hf. destruct (notes_ok_created (E:=LedgerError Id) _ _ _ _ (mo_notes _ _ _ _ Hmo) Hf Hnotes) as (u' & Hu' & Hn' & Ht).
  rewrite Hins in Hu'. injection Hu' as <-. unfold supply. cbn. split_and!; [|done|done|done|lia]. split; cbn.
  - destruct Hmo. split; cbn; [done|by rewrite Hs|done..].
  - destruct Hmk. apply update_epoch_state_market in Hup as (? & ? & ? & ?); [|done..].
    split; cbn; rewrite ?Hw, ?Hp1, ?Hp2, ?Hp3, ?Hp4; try done; congruence.
  - destruct Hepo' as [? ? ? (? & ? & ?)]. split; cbn; try done. split; [apply Hn'|done].
  - done.
  - lia.
  - destruct (mo_sdp _ _ _ _ Hok) as (v & Hv & _). unfold declarations_ok. cbn. rewrite Hce, Hcn.
    eapply update_epoch_state_declarations; [|done|exact Hup]. intros E epoch params mm st ds. by eapply active_declarations_distinct.
Qed.

(** ** The chain *)

Context `{!IntoBlockHash Id}.

(** Pools and invariant are untouched by a change of the proof-of-work book-keeping. *)
Lemma chain_ok_pow s p : chain_ok s → pow_ok p →
  reward_pool (ps_reward p) + refill_rewards (ps_reward p) =
    reward_pool (ps_reward (m_pow (mantle_ledger s))) + refill_rewards (ps_reward (m_pow (mantle_ledger s))) →
  let m := mantle_ledger s in
  let s' := with_mantle s (mkMantle (m_channels m) (m_sdp m) (m_leaders m) p) in chain_ok s' ∧ supply s' = supply s.
Proof.
  intros [[] ? ? ? ? ?] Hp Hpools m s'. split; [|unfold s', m, supply, pools; cbn; lia]. split; [split; done|done..].
Qed.

Lemma add_seen_ok {E} p hash slot windows p' : pow_ok p → 0 <= slot → add_seen_block (E:=E) p hash slot windows = Ok p' →
  pow_ok p' ∧ reward_pool (ps_reward p') = reward_pool (ps_reward p) ∧ refill_rewards (ps_reward p') = refill_rewards (ps_reward p).
Proof.
  intros [? ? ? Hs] Hslot Ha. unfold add_seen_block in Ha. peel Ha as slots Hslots. peel Ha as nfs Hnfs. injection Ha as <-. cbn.
  split; [|done]. split; cbn; [done..|]. intros h sl Hsl. apply (prune_ok _ _ _ _ Hslots) in Hsl as [Hsl _].
  apply lookup_insert_Some in Hsl as [[_ <-]|[_ Hsl]]; [done|by eapply Hs].
Qed.

(** What the hashes, the prices and the widths of a block must allow. *)
Record block_assumptions s (id : Id) slot (proof : P) uncles txs : Prop := {
  ba_header : header_fresh s slot proof uncles;
  ba_txs : ∀ s1 ev m, try_apply_header (Id:=Id) s slot proof uncles eras = Ok (s1, ev) →
    mantle_add_seen_block (E:=LedgerError Id) (mantle_ledger s1) (into_block_hash id) slot eras = Ok m → txs_fresh (with_mantle s1 m) txs;
  ba_prices : ∀ s1 ev c, try_apply_header (Id:=Id) s slot proof uncles eras = Ok (s1, ev) →
    config_for_slot (E:=LedgerError Id) eras slot = Ok c → fee_room c (cryptarchia_ledger s1);
  ba_wf : Forall (tx_wf max) txs;
  ba_slot : slot <= slot_bound;
  ba_epoch : ∀ e, epoch_for_slot (E:=LedgerError Id) eras slot = Ok e → 0 <= e ∧ e + SNAPSHOT_FINALIZATION_DELAY <= u32_max
}.

Lemma update_run s id slot proof uncles txs s' ev d m : chain_ok s → block_number s < 2 ^ 32 → block_assumptions s id slot proof uncles txs →
  (∀ v, v ∈ Era.eras eras → emission_within (v_parameters v) m) → supply s + m <= u64_max →
  try_update (Id:=Id) s id slot proof uncles txs eras = Ok (s', ev, d) →
  chain_ok s' ∧ block_number s' = block_number s + 1 ∧ supply s' <= supply s + m.
Proof.
  intros Hok Hnum [Hh Hft Hpr Hwf Hsb Heb] Hem Hmax Hu. unfold try_update in Hu. peel Hu as [s1 hev] Hs1.
  destruct (header_run _ _ _ _ _ _ Hok Hnum Hh Hs1) as (Hok1 & Hlt & Hslot & Hnum1 & Hsup1). peel Hu as mm Hmm.
  pose proof (eo_slot _ _ (ch_epochs _ Hok)) as Hpos. pose proof Hmm as Hmm'. unfold mantle_add_seen_block in Hmm'. peel Hmm' as pow Hpow. injection Hmm' as Hmm'.
  apply add_seen_ok in Hpow as (Hpok & Hp1 & Hp2); [|apply Hok1|lia].
  destruct (chain_ok_pow s1 pow Hok1 Hpok ltac:(lia)) as [Hok2 Hsup2]. cbn zeta in *. rewrite Hmm' in Hok2, Hsup2. set (s2 := with_mantle s1 mm) in *.
  assert (cryptarchia_ledger s2 = cryptarchia_ledger s1) as Hc2 by done.
  peel Hu as [[s3 tev] dp] Hs3. assert (in_range s2) as Hr2.
  { pose proof (eo_epoch _ _ (ch_epochs _ Hok2)) as He. rewrite Hc2, Hslot in He. destruct (Heb _ He) as [? ?].
    split; rewrite ?Hc2, <- ?(ch_epoch _ Hok2), ?Hc2; try done. lia. }
  destruct (config_total (Id:=Id) eras eras_genesis s2 Hr2) as [c Hc]. pose proof (config_for_slot_in _ _ Hc) as (era & Hera & <-).
  pose proof (contents_run s2 txs _ m (ch_ledger _ Hok2) Hr2 (ch_market _ Hok2) Hc (eras_ok _ Hera) (Hem _ Hera)) as Hcon.
  rewrite Hs3 in Hcon. destruct Hcon as [[Hk3 Hm3 He3 Hn3 Hep3] Hsup3]; [|lia|done|by eapply Hft|].
  { rewrite Hc2 in Hc |- *. eapply (Hpr s1 hev); [exact Hs1|]. by rewrite <- Hslot. }
  peel Hu as pow2 Hpow2. peel Hu as c2 Hcfg. peel Hu as s4 Hs4. injection Hu as <- _ _.
  assert (chain_ok s3) as Hok3.
  { destruct Hok2 as [_ _ Hepo2 Hep2 Hn2 Hd2].
    split; [done|done|by eapply epochs_ok_same|rewrite (sa_epoch _ _ He3); congruence|congruence|by eapply declarations_ok_same]. }
  unfold record_block_txs in Hpow2. peel Hpow2 as dd Hdd. injection Hpow2 as <-. unfold update_pow_reward_difficulty in Hs4.
  peel Hs4 as pow3 Hpow3. injection Hs4 as <-. unfold update_difficulty in Hpow3. peel Hpow3 as diff Hdiff. injection Hpow3 as <-. cbn in *.
  pose proof (mo_pow _ _ _ _ (ch_ledger _ Hok3)) as [? ? ? ?].
  match goal with |- chain_ok (with_mantle _ (mkMantle _ _ _ ?p)) ∧ _ => destruct (chain_ok_pow s3 p Hok3) as [Hok4 Hsup4]; [by split|done|] end.
  cbn zeta in *. split_and!; [exact Hok4|cbn; lia|]. unfold with_mantle in *. cbn in *. rewrite Hsup4. lia.
Qed.

(** The states of a chain of blocks that extend one another. *)
Inductive chain s0 : nat → LedgerState T R → Prop :=
  | chain_start : chain s0 0 s0
  | chain_block n s id slot proof uncles txs s' ev d :
      chain s0 n s → block_assumptions s id slot proof uncles txs →
      try_update (Id:=Id) s id slot proof uncles txs eras = Ok (s', ev, d) → chain s0 (S n) s'.

Lemma chain_run s0 m n s : chain_ok s0 → (∀ v, v ∈ Era.eras eras → emission_within (v_parameters v) m) → 0 <= m →
  chain s0 n s → block_number s0 + Z.of_nat n <= 2 ^ 32 → supply s0 + Z.of_nat n * m <= u64_max →
  chain_ok s ∧ block_number s = block_number s0 + Z.of_nat n ∧ supply s <= supply s0 + Z.of_nat n * m.
Proof.
  intros Hok Hem Hm. induction 1 as [|n s id slot proof uncles txs s' ev d _ IH Hba Hrun]; intros Hn Hmax; [split_and!; [done|lia..]|].
  destruct IH as (Hok1 & Hnum & Hsup); [lia|lia|].
  destruct (update_run s id slot proof uncles txs s' ev d m Hok1 ltac:(lia) Hba Hem ltac:(lia) Hrun) as (Hok2 & Hnum2 & Hsup2).
  split_and!; [done|lia..].
Qed.

(** C1: inflation is bounded: along any chain of blocks the supply, of the
    unspent notes and of the pools that will be paid out, exceeds that of its
    first state by at most the maximal emission of each block; every state on
    the way satisfies the invariant of the ledger. *)
Theorem supply_bounded s0 m n s : chain_ok s0 → (∀ v, v ∈ Era.eras eras → emission_within (v_parameters v) m) → 0 <= m →
  chain s0 n s → block_number s0 + Z.of_nat n <= 2 ^ 32 → supply s0 + Z.of_nat n * m <= u64_max →
  ledger_ok s ∧ supply s <= supply s0 + Z.of_nat n * m.
Proof. intros. destruct (chain_run s0 m n s) as ([] & _ & ?); done. Qed.

(** C6: the contents of a block are safe: whatever the transactions, the state that
    follows keeps the invariant and has created at most the emission of the block, or
    the block is refused for one of its limits or one of its transactions. The only
    panic is that of the base fee, whose product with the weights of the gas may leave
    its 128 bits; it is excluded as long as the fee has room, in which case the
    prices stay in their range too. *)
Theorem block_contents_safe s txs c m : ledger_ok s → in_range s → market_ok (cryptarchia_ledger s) →
  config_for_slot (E:=LedgerError Id) eras (slot_of s) = Ok c → config_ok c → emission_within c m →
  supply s + m <= u64_max → Forall (tx_wf max) txs → txs_fresh s txs →
  match try_apply_block_contents (Id:=Id) s eras txs with
  | Ok (s', _, _) => ledger_ok s' ∧ supply s' <= supply s + m ∧ (fee_room c (cryptarchia_ledger s) → market_ok (cryptarchia_ledger s'))
  | Err e => block_error e
  | Fault _ => fee_overflow c (cryptarchia_ledger s) ∧ ¬ fee_room c (cryptarchia_ledger s)
  end.
Proof.
  intros Hok Hr Hmk Hc Hck Hm Hmax Hwf Hf. pose proof (contents_outcome s txs c m Hok Hr Hmk Hc Hck Hm Hmax Hwf Hf) as Ho.
  destruct (try_apply_block_contents _ _ _) as [[[s' ev] d]|e|f]; cbn in *; [|done|split; [done|]; intros Hroom; by apply (fee_room_fits c (cryptarchia_ledger s))].
  destruct Ho as (Ha & ? & ?). split_and!; [done..|]. intros Hroom. by destruct (Ha Hroom).
Qed.

(** ** The ledger of all blocks *)

Context `{Countable Id} `{BatchVerify}.
Implicit Types (b : BlockLedger (T:=T) (R:=R) (Params:=Params) (Id:=Id)).

(** A ledger grows by verified blocks on a stored parent, and is pruned. *)
Inductive ledger_run s0 : BlockLedger (T:=T) (R:=R) (Params:=Params) (Id:=Id) → Prop :=
  | run_new id b : block_ledger_new (E:=LedgerError Id) id s0 eras = Ok b → ledger_run s0 b
  | run_commit b id parent_id parent slot proof uncles txs u v b' events :
      ledger_run s0 b → states b !! parent_id = Some parent → block_assumptions parent id slot proof uncles txs →
      prepare_update b id parent_id slot proof uncles txs = Ok u → verify_batch_proofs u = Ok v →
      commit_update b v = (b', events) → ledger_run s0 b'
  | run_prune b id b' found : ledger_run s0 b → prune_state_at b id = (b', found) → ledger_run s0 b'.

(** The first state, with its own block recorded. *)
Definition genesis_state s0 s1 : Prop := ∃ id m,
  mantle_add_seen_block (E:=LedgerError Id) (mantle_ledger s0) (into_block_hash id) (slot_of s0) eras = Ok m ∧ s1 = with_mantle s0 m.

Lemma ledger_run_states s0 b : ledger_run s0 b → era_schedule b = eras ∧
  ∀ id s, states b !! id = Some s → ∃ s1 n, genesis_state s0 s1 ∧ chain s1 n s.
Proof.
  induction 1 as [id b Hnew|b id pid parent slot proof uncles txs u v b' events _ [He IH] Hp Hba Hu Hv Hc|b id b' found _ [He IH] Hp].
  - unfold block_ledger_new in Hnew. peel Hnew as m Hm. injection Hnew as <-. split; [done|]. cbn. intros id' s.
    rewrite lookup_singleton_Some. intros [_ <-]. eexists _, 0%nat. split; [by exists id, m|constructor].
  - unfold prepare_update in Hu. rewrite Hp, He in Hu. cbn [ok_or mbind result_bind] in Hu. peel Hu as [[s ev] df] Hrun. injection Hu as <-.
    unfold verify_batch_proofs in Hv. peel Hv as [] Hver. injection Hv as <-. unfold commit_update in Hc. injection Hc as <- _. cbn.
    split; [done|]. intros id' s'. rewrite lookup_insert_Some. intros [[_ <-]|[_ Hs]]; [|by eapply IH].
    destruct (IH _ _ Hp) as (s1 & n & Hg & Hchain). exists s1, (S n). split; [done|]. by eapply chain_block.
  - unfold prune_state_at in Hp. injection Hp as <- _. cbn. split; [done|]. intros id' s [_ Hs]%lookup_delete_Some. by eapply IH.
Qed.

(** C2: every state the ledger stores, across forks and prunings, is that of a
    chain of blocks from the first state; it satisfies the invariant, and its
    supply is bounded by the emission of that chain. *)
Theorem ledger_states_reachable s0 b id s m : chain_ok s0 → (∀ v, v ∈ Era.eras eras → emission_within (v_parameters v) m) → 0 <= m →
  ledger_run s0 b → states b !! id = Some s →
  ∃ s1 n, genesis_state s0 s1 ∧ chain s1 n s ∧
    (block_number s0 + Z.of_nat n <= 2 ^ 32 → supply s0 + Z.of_nat n * m <= u64_max → ledger_ok s ∧ supply s <= supply s0 + Z.of_nat n * m).
Proof.
  intros Hok Hem Hm Hrun Hs. destruct (ledger_run_states s0 b Hrun) as [_ Hst]. destruct (Hst _ _ Hs) as (s1 & n & Hg & Hchain).
  exists s1, n. split_and!; [done..|]. intros Hn Hmax. destruct Hg as (gid & mm & Hmm & ->).
  unfold mantle_add_seen_block in Hmm. peel Hmm as pow Hpow. injection Hmm as <-.
  apply add_seen_ok in Hpow as (Hp & Hp1 & Hp2); [|apply Hok|apply (eo_slot _ _ (ch_epochs _ Hok))].
  destruct (chain_ok_pow s0 pow Hok Hp ltac:(lia)) as [Hok1 Hsup1]. cbn zeta in *.
  destruct (chain_run _ m n s Hok1 Hem Hm Hchain) as ([? _ _ _ _ _] & _ & Hsup); [done|lia|]. rewrite Hsup1 in Hsup. done.
Qed.

End Blocks.

(** ** Limits *)

Section Limits.
Context {T R Params Id : Type} `{!KeyedStoreOps T NoteId Utxo} `{!Rewards T R Params}.
Context `{Poseidon2Crate} `{Blake2Crate} `{Ed25519Crate} `{MultiaddrCrate} `{Ed25519Verify} `{PoCVerify}.
Implicit Types (s : LedgerState T R) (c : Config Params) (eras : EraSchedule (Config Params)).

Definition sizes (txs : list SignedOps) : Z := foldr (λ tx acc, tx_size tx + acc) 0 txs.

Lemma sizes_nonneg txs : 0 <= sizes txs.
Proof. induction txs as [|tx txs IH]; [done|]. cbn [sizes foldr]. fold (sizes txs). unfold tx_size. lia. Qed.

Lemma gas_and_fees_add_ok a g limit r : gas_and_fees_add (Id:=Id) a g limit = Ok r →
  gf_execution_gas g <= limit ∧ gf_execution_gas r = gf_execution_gas a + gf_execution_gas g ∧ gf_execution_gas r <= limit.
Proof.
  unfold gas_and_fees_add. intros Ha. peel Ha as [] H1'. apply err_if_ok, Z.ltb_ge in H1'. peel Ha as x Hx. unfold gas_err, gas_add in Hx.
  apply map_err_ok, ok_or_ok, checked_add_Some in Hx as [-> _]. peel Ha as [] H2'. apply err_if_ok, Z.ltb_ge in H2'.
  peel Ha as y Hy. peel Ha as z Hz. peel Ha as w Hw. injection Ha as <-. done.
Qed.

Lemma limits_run eras c max txs : ∀ s index size g ev d s' g' ev' d', Forall (tx_wf max) txs → 0 <= size <= usize_max → 0 <= index →
  apply_txs (Id:=Id) s eras c index size g ev d txs = Ok (s', g', ev', d') →
  (txs ≠ [] → index + Z.of_nat (length txs) <= max_transactions c) ∧
  (txs ≠ [] → Z.min (size + sizes txs) usize_max <= max_transactions_size c) ∧
  (txs ≠ [] → gf_execution_gas g' <= max_gas_per_block (execution_market c)).
Proof.
  induction txs as [|tx txs IH]; intros s index size g ev d s' g' ev' d' Hwf Hs Hi Ha; cbn [apply_txs] in Ha; [done|].
  apply Forall_cons in Hwf as [Htx Hwf]. peel Ha as [] Hmax. apply err_if_ok, Z.leb_gt in Hmax. peel Ha as sz Hsz.
  rewrite (storage_size_ok max tx Htx) in Hsz. apply Ok_inj in Hsz. subst sz.
  assert (0 <= tx_size tx) by (unfold tx_size; lia). peel Ha as [] Hsize. apply err_if_ok, Z.ltb_ge in Hsize. unfold saturating_add in *.
  peel Ha as [[[s1 g1] ev1] d1] Htxr. peel Ha as g2 Hg2. apply gas_and_fees_add_ok in Hg2 as (_ & _ & Hg2).
  pose proof (sizes_nonneg txs).
  pose proof Ha as Ha0. eapply IH in Ha as (Hl & Hz & Hg); [|done|unfold usize_max, u64_max in *; lia|lia].
  destruct txs as [|tx' txs]; cbn [length sizes foldr] in *; [cbn [apply_txs] in Ha0; injection Ha0 as _ <- _ _; split_and!; intros _; lia|].
  split_and!; intros _; [specialize (Hl ltac:(done)); lia|specialize (Hz ltac:(done)); lia|by apply Hg].
Qed.

(** The transactions of an accepted block are within the limits of its era:
    their number, their total size and the execution gas they consume. *)
Theorem block_limits s eras c max txs s' g ev d : Forall (tx_wf max) txs → txs ≠ [] →
  apply_txs (Id:=Id) s eras c 0 0 gas_and_fees_default [] deferred_new txs = Ok (s', g, ev, d) →
  Z.of_nat (length txs) <= max_transactions c ∧ Z.min (sizes txs) usize_max <= max_transactions_size c ∧
  gf_execution_gas g <= max_gas_per_block (execution_market c).
Proof.
  intros Hwf Hne Ha. eapply limits_run in Ha as (Hl & Hz & Hg); [|done|unfold usize_max, u64_max; lia|lia]. auto.
Qed.

End Limits.

End BlockTheorems.
