(* ===== verification/GenesisTheorems.v ===== *)
(** * The first state of a chain

    The state a genesis transaction yields satisfies the invariant that blocks
    keep: its notes, channels, declarations, pools and epochs are consistent. *)

From S2P Require Import Prelude Era EraFacts EngineConfig MerkleStore Codec CodecLaws Ops OpsCodec Channels Utxos ServiceNotes Inputs ChannelOps SignedTx SdpOps SdpTheorems LedgerConfig ClaimOps TxVerification NoteFacts Leaders Pow PowTheorems Markets MarketFacts Cryptarchia ConsensusFacts Ledger LedgerInvariant TxTheorems BlockTheorems.

#[local] Open Scope Z_scope.

Module GenesisTheorems.
Import Canonical Ops OpsCodec Utxos Channels ServiceNotes Inputs ChannelOps SignedTx SdpOps SdpFacts SdpTheorems LedgerConfig ClaimOps TxVerification NoteFacts Leaders Pow PowFacts PowTheorems Markets MarketFacts Cryptarchia ConsensusFacts Ledger LedgerInvariant LedgerVerify TxTheorems BlockTheorems.

Section Genesis.
Context {T R Params P Id : Type} `{!KeyedStoreOps T NoteId Utxo, !KeyedStore T NoteId Utxo}.
Context `{!Rewards T R Params, !RewardsLaws T R Params, !NewRewards T R Params, !NewRewardsLaws T R Params}.
Context `{Poseidon2Crate} `{Blake2Crate} `{Ed25519Crate} `{MultiaddrCrate} `{LotteryCrate} `{!SlotDuration (Config Params)}.
Implicit Types (s : LedgerState T R) (c : Config Params) (eras : EraSchedule (Config Params)) (sdp : SdpLedger R) (l : Cryptarchia T).

(** ** Notes and epochs *)

Lemma first_epoch {E} eras : wf_schedule eras → epoch_for_slot (E:=E) eras 0 = Ok 0.
Proof.
  intros WF. unfold epoch_for_slot. rewrite (at_slot_unique eras 0 0 (genesis eras) WF (eras_lookup_0 eras)).
  - cbn [mbind result_bind]. unfold genesis, view. cbn. rewrite (es_genesis _ WF). unfold strict_sub. cbn.
    rewrite Zdiv_0_l. unfold strict_add, u64_max. cbn. done.
  - cbn. by rewrite (es_genesis _ WF).
  - intros w Hw. destruct (eras_mono eras 0 1 (genesis eras) w WF ltac:(lia) (eras_lookup_0 eras) Hw) as [_ Hlt].
    cbn in Hlt. rewrite (es_genesis _ WF) in Hlt. lia.
Qed.

(** What the first consensus state has. *)
Record genesis_consensus (utxos : list Utxo) l : Prop := {
  gc_notes : notes_ok (cl_utxos l) new_channels ∅;
  gc_total : notes_total (cl_utxos l) = utxos_value utxos;
  gc_slot : cl_slot l = 0;
  gc_epoch : es_epoch (cl_epoch_state l) = 0 ∧ es_epoch (cl_next_epoch_state l) = 1;
  gc_utxos : es_utxos (cl_epoch_state l) = cl_utxos l ∧ es_utxos (cl_next_epoch_state l) = cl_utxos l;
  gc_market : market_ok l
}.

Lemma genesis_notes_ok {E} utxos tree : insertable (ks_empty (T:=T)) utxos → Forall (λ u, note_ok (note u)) utxos →
  insert_utxos (E:=E) ks_empty utxos = Ok tree → notes_ok tree new_channels ∅ ∧ notes_total tree = utxos_value utxos.
Proof.
  intros Hi Hn Hr. destruct ks_empty_ok as [Hok Hv].
  assert (notes_ok (ks_empty (T:=T)) new_channels ∅) as Hempty.
  { split; [done|..]; intros id x Hx; [rewrite Hv in Hx|..]; cbn in Hx; by rewrite lookup_empty in Hx. }
  destruct (notes_ok_created (E:=E) _ _ _ _ Hempty Hi Hn) as (t & Ht & Hok' & Htot). rewrite Hr in Ht. injection Ht as <-.
  split; [done|]. rewrite Htot. unfold notes_total. rewrite Hv, map_sum_empty. done.
Qed.

Lemma from_utxos_ok {E} utxos c excluded nonce l : insertable (ks_empty (T:=T)) utxos → Forall (λ u, note_ok (note u)) utxos →
  cryptarchia_from_utxos (E:=E) utxos c excluded nonce = Ok l → genesis_consensus utxos l.
Proof.
  intros Hi Hn Hl. unfold cryptarchia_from_utxos in Hl. peel Hl as tree Htree. peel Hl as sum _. peel Hl as [l0 l1] _. peel Hl as density _.
  injection Hl as <-. destruct (genesis_notes_ok _ _ Hi Hn Htree) as [Hok Ht]. split; cbn; try done.
  split; cbn; [done| |unfold u64_max, GENESIS_EXECUTION_GAS_PRICE, GENESIS_STORAGE_GAS_PRICE; lia..]. apply (Forall_replicate in_u64 WINDOW_SIZE 0). split; unfold u64_max; lia.
Qed.

(** ** Declarations *)

Lemma sdp_genesis_ok utxos cs (config : SdpConfig Params) ops : ∀ sdp v sdp', sdp_ok_with sdp v → notes_ok utxos cs (sdp_service_notes sdp) →
  sdp_from_genesis sdp utxos cs config ops = Ok sdp' →
  ∃ v', sdp_ok_with sdp' v' ∧ s_rewards v' = s_rewards v ∧ notes_ok utxos cs (sdp_service_notes sdp') ∧ sdp_epoch sdp' = sdp_epoch sdp.
Proof.
  induction ops as [|op ops IH]; intros sdp v sdp' Hv Hn Hs; cbn [sdp_from_genesis] in Hs; [injection Hs as <-; by exists v|].
  peel Hs as w Hw. apply ok_or_ok in Hw. rewrite (service_lookup _ _ _ (so_services _ _ Hv)) in Hw. injection Hw as <-.
  peel Hs as u Hu. apply ok_or_ok in Hu. peel Hs as [] Hval. apply map_err_ok in Hval. peel Hs as sdp1 Hd.
  pose proof (declare_validate_ok _ _ _ _ _ _ _ Hval) as (_ & _ & Hch & _ & _).
  destruct (declare_step _ _ _ _ _ _ _ _ Hv Hu Hval Hd) as (v1 & d & Hv1 & He & _ & _ & _ & Hsn & Hrw).
  assert (notes_ok utxos cs (sdp_service_notes sdp1)) as Hn1.
  { rewrite Hsn. rewrite ks_get_view in Hu by apply Hn. unfold is_channel_note, channel_notes_contains in Hch.
    apply bool_decide_eq_false, eq_None_not_Some in Hch. eapply notes_ok_lock; [done..|]. by destruct (sdp_service_notes _ !! _). }
  destruct (IH _ _ _ Hv1 Hn1 Hs) as (v' & ? & ? & ? & ?). exists v'. split_and!; [done|congruence|done|congruence].
Qed.

(** ** The state *)

Lemma genesis_pow_ok {E} pool c p : BlockTheorems.config_ok c → 0 <= pool <= u64_max → from_reward_pool_and_config (E:=E) pool c = Ok p →
  pow_ok p ∧ reward_pool (ps_reward p) + refill_rewards (ps_reward p) = pool.
Proof.
  intros Hc Hp Hr. unfold from_reward_pool_and_config in Hr. peel Hr as r Hrew. apply epoch_pow_reward_ok in Hrew; [|done|lia].
  injection Hr as <-. cbn. split; [|lia]. split; cbn; [done..|]. intros h slot Hl. by apply lookup_empty_Some in Hl.
Qed.

(** The consensus state once the declarations of the genesis are known. *)
Lemma genesis_chain_ok {E} eras utxos l cs sdp v pow c l' : wf_schedule eras → genesis_consensus utxos l →
  channels_wf 0 cs → sdp_ok_with sdp v → rw_ok (s_rewards v) → notes_ok (cl_utxos l) cs (sdp_service_notes sdp) → sdp_epoch sdp = 0 →
  pow_ok pow → with_genesis_sdp (E:=E) l sdp c = Ok l' →
  let s := mkLedger 0 l' (mkMantle cs sdp leaders_new pow) in
  chain_ok (Id:=Id) eras s ∧ supply s = utxos_value utxos + reward_pool (ps_reward pow) + refill_rewards (ps_reward pow) + rw_income (s_rewards v).
Proof.
  intros WF [Hn Ht Hs [He1 He2] [Hu1 Hu2] Hm] Hcs Hv Hr Hn' Hep Hp Hl s. unfold with_genesis_sdp in Hl. peel Hl as es1 Hes1. peel Hl as es2 Hes2.
  peel Hes1 as ds1 Hds1. peel Hes2 as ds2 Hds2. injection Hes1 as <-. injection Hes2 as <-. injection Hl as <-.
  assert (ks_ok (cl_utxos l)) as Hks by apply Hn. split; [split; cbn|].
  - split; cbn; [done|by rewrite Hs|by exists v| |done|by rewrite Hep].
    exists []. split; [apply leaders_new_ok|done].
  - by destruct Hm.
  - split; cbn; rewrite ?Hs, ?He1, ?He2, ?Hu1, ?Hu2; [done|by apply first_epoch|done|done].
  - by rewrite He1, Hep.
  - done.
  - split; intros st ds Hd; cbn in Hd; [exact (active_declarations_distinct _ _ _ _ _ _ _ Hv Hds1 Hd)|exact (active_declarations_distinct _ _ _ _ _ _ _ Hv Hds2 Hd)].
  - unfold supply, pools, s. cbn. rewrite (blend_income_with _ _ Hv), Ht. lia.
Qed.

Lemma genesis_run eras max transfer inscription declarations nonce pool excluded c s :
  wf_schedule eras → BlockTheorems.config_ok c → 0 <= pool <= u64_max → op_wf max (Transfer transfer) → op_wf max (ChannelInscribe inscription) →
  insertable (ks_empty (T:=T)) (utxos_of (op_digest (Transfer transfer)) (t_outputs transfer)) →
  ledger_from_genesis (Id:=Id) transfer inscription declarations nonce pool excluded c = Ok s →
  chain_ok (Id:=Id) eras s ∧ supply s = notes_value (t_outputs transfer) + pool.
Proof.
  intros WF Hc Hpool Hwf Hwi Hi Hg. unfold ledger_from_genesis in Hg. peel Hg as l Hl.
  unfold cryptarchia_from_genesis in Hl. destruct (t_inputs transfer); [|done]. peel Hl as id Hid.
  rewrite (op_id_ok transfer_codec tt) in Hid by by apply (payload_valid_wf max (Transfer transfer)).
  change (blake2b_256 _) with (op_digest (Transfer transfer)) in Hid. injection Hid as <-.
  pose proof (from_utxos_ok _ _ _ _ _ Hi ltac:(by apply outputs_notes_ok; destruct Hwf) Hl) as Hgc.
  peel Hg as m Hm. apply map_err_ok in Hm. unfold mantle_from_genesis in Hm. peel Hm as cs Hcs. peel Hm as rewards Hrw.
  apply rw_new_ok in Hrw as [Hrok Hr0]. peel Hm as sdp Hsdp. apply map_err_ok in Hsdp. peel Hm as pow Hpow. injection Hm as <-.
  apply genesis_pow_ok in Hpow as [Hpok Hps]; [|done..]. unfold channels_from_genesis in Hcs.
  assert (channels_wf 0 new_channels) as Hnew by (intros i x Hx; cbn in Hx; by rewrite lookup_empty in Hx).
  destruct (inscription_ok (E:=MantleError) max inscription new_channels 0 Hwi Hnew ltac:(done)) as (ch & Hch & Hchok).
  rewrite Hch in Hcs. injection Hcs as <-.
  eapply (sdp_genesis_ok _ _ _ _ _ (mkService BlendNetwork ∅ ∅ rewards)) in Hsdp as (v & Hv & Hvr & Hvn & Hve).
  2: { split; [done..|apply registry_ok_empty|]. cbn. intros i d Hx. by rewrite lookup_empty in Hx. }
  2: { apply (notes_ok_insert_channel _ new_channels), Hgc. }
  peel Hg as l' Hl'. injection Hg as <-. cbn in Hvr. rewrite <- Hvr in Hrok, Hr0.
  destruct (genesis_chain_ok (E:=LedgerError Id) eras _ _ _ sdp v pow c l' WF Hgc (channels_wf_insert 0 new_channels _ _ _ Hnew Hchok) Hv Hrok Hvn) as [Hok Hsup]; [|done|done|].
  { rewrite Hve. apply Hgc. }
  split; [exact Hok|]. rewrite utxos_of_value in Hsup. etransitivity; [exact Hsup|]. lia.
Qed.

(** C4: an accepted genesis transaction yields a state with the invariant of the
    ledger, so every chain that starts from it keeps it; its supply is the value
    of its notes and of the proof-of-work pool. *)
Theorem genesis_reachable eras max transfer inscription declarations nonce pool excluded c s :
  wf_schedule eras → BlockTheorems.config_ok c → 0 <= pool <= u64_max → op_wf max (Transfer transfer) → op_wf max (ChannelInscribe inscription) →
  insertable (ks_empty (T:=T)) (utxos_of (op_digest (Transfer transfer)) (t_outputs transfer)) →
  ledger_from_genesis (Id:=Id) transfer inscription declarations nonce pool excluded c = Ok s →
  chain_ok (Id:=Id) eras s ∧ supply s = notes_value (t_outputs transfer) + pool.
Proof. apply genesis_run. Qed.

End Genesis.

End GenesisTheorems.
