(* ===== verification/LedgerExamples.v ===== *)
(** * A concrete ledger

    Toy hashes and proofs, the Merkle store of the ledger and the rewards of the
    Blend service: a genesis with two notes and a channel, and a block that
    carries a transfer. *)

From Stdlib Require Import SpecFloat.
From S2P Require Import Prelude Era EraFacts EngineConfig Merkle MerkleStore Codec CodecLaws Ops OpsCodec Channels Utxos ServiceNotes Inputs ChannelOps SignedTx SdpOps SdpTheorems LedgerConfig ClaimOps TxVerification NoteFacts Leaders Pow PowTheorems Markets MarketFacts Cryptarchia ConsensusFacts Ledger BlendRewards BlendFacts LedgerInvariant TxTheorems BlockTheorems GenesisTheorems.

#[local] Open Scope Z_scope.

Module LedgerExamples.
Import Canonical Ops OpsCodec Utxos Channels ServiceNotes Inputs ChannelOps SignedTx SdpOps SdpFacts SdpTheorems LedgerConfig ClaimOps TxVerification NoteFacts Leaders Pow PowFacts PowTheorems Markets MarketFacts Cryptarchia ConsensusFacts Ledger LedgerInvariant LedgerVerify TxTheorems BlockTheorems GenesisTheorems BlendRewards BlendFacts.
Import DynamicMerkle(MerkleHasher(..), EMPTY_VALUE, compress) KeyedTree(MerkleTree) UtxoTree.

(** ** Third-party code *)

#[export] Instance toy_hasher : MerkleHasher Z := {| EMPTY_VALUE := 0; compress l r := (31 * l + 17 * r + 7) mod 1000003 |}.
#[export] Instance toy_poseidon : Poseidon2Crate := {| permute '(a, b, c) := ((a + 3 * b + 5 * c + 1) mod 1000003, (7 * a + b + c) mod 1000003, c) |}.
#[export] Instance toy_blake2 : Blake2Crate := {| blake2b_256 l := to_le_bytes 32 (foldl (λ acc b, (acc * 257 + byte_val b + 1) mod 1000003) 5 l) |}.
#[export] Instance toy_ed25519 : Ed25519Crate := {|
  vk_valid k := match k with b :: _ => negb (byte_val b =? 255) | [] => false end;
  vk_is_weak k := forallb (λ b, byte_val b =? 0) k
|}.
#[export] Instance toy_multiaddr : MultiaddrCrate := {|
  multiaddr_parse b := match b with [lo; hi] => Some [Tcp (from_le_bytes b)] | _ => None end
|}.
#[export] Instance toy_signatures : Ed25519Verify := {| verify_strict key msg sig := bool_decide (sig = key ++ key) |}.
#[export] Instance toy_poc : PoCVerify := {| poc_verify _ _ := true |}.
#[export] Instance toy_batch : BatchVerify := {| zksign_batch_verify _ := Some true; poc_batch_verify _ := Some true |}.
#[export] Instance toy_lottery : LotteryCrate := {| t0_constant _ := 1000; t1_constant _ := 1000 |}.
#[export] Instance toy_leader : LeaderProof Z := {| lp_verify proof _ := 0 <? proof; lp_entropy proof := proof; lp_voucher_cm proof := proof |}.
#[export] Instance toy_block_hash : IntoBlockHash Z := {| into_block_hash id := to_le_bytes 32 id |}.
#[export] Instance toy_log2 : F64Log2 := {| f64_log2 x := f64_of_Z (Z.log2_up (f64_floor_u64 x)) |}.
#[export] Instance toy_bincode : BincodeCrate := {| token_bytes t := tk_signing_key t; service_type_bytes _ := [x00] |}.
#[export] Instance toy_blake2_var : Blake2VarCrate := {|
  blake2b_max_output := 64; blake2b_var size input := take (Z.to_nat size) (input ++ replicate (Z.to_nat size) x00)
|}.
#[export] Instance toy_blake2_var_laws : Blake2VarLaws.
Proof. split; [done|]. cbn. intros size input Hs. rewrite length_take, length_app, length_replicate. lia. Qed.
#[export] Instance toy_verifier : ProofsVerifier unit := {|
  verifier_new _ := tt; verify_proof_of_quota _ q _ := Some q; verify_proof_of_selection _ s _ := Some s
|}.
#[export] Instance toy_membership : MembershipTree := {| membership_root l := foldl (λ acc k, (acc * 31 + k) mod 1000003) 1 l |}.

(** The integer root, bit by bit from the highest. *)
Fixpoint root_bits (x n : Z) (bits : nat) (r : Z) : Z :=
  match bits with
  | O => r
  | S bits => root_bits x n bits (if (r + 2 ^ Z.of_nat bits) ^ n <=? x then r + 2 ^ Z.of_nat bits else r)
  end.

Lemma root_bits_floor x n : ∀ bits r, 0 <= r → r ^ n <= x < (r + 2 ^ Z.of_nat bits) ^ n →
  0 <= root_bits x n bits r ∧ root_bits x n bits r ^ n <= x < (root_bits x n bits r + 1) ^ n.
Proof.
  induction bits as [|bits IH]; intros r Hr Hx; cbn [root_bits]; [done|].
  rewrite Nat2Z.inj_succ, Z.pow_succ_r in Hx by lia. pose proof (Z.pow_nonneg 2 (Z.of_nat bits)).
  destruct (Z.leb_spec ((r + 2 ^ Z.of_nat bits) ^ n) x); apply IH; try lia.
  split; [done|]. replace (r + 2 ^ Z.of_nat bits + 2 ^ Z.of_nat bits) with (r + 2 * 2 ^ Z.of_nat bits) by lia. apply Hx.
Qed.

#[export] Instance toy_roots : BigUintCrate := {| nth_root x n := root_bits x n (Z.to_nat (Z.log2 x) + 1) 0 |}.
#[export] Instance toy_roots_laws : BigUintLaws.
Proof.
  split. cbn. intros x n Hx Hn. apply root_bits_floor; [done|]. rewrite Z.pow_0_l by done. split; [done|]. cbn [Z.add].
  pose proof (Z.log2_nonneg x). rewrite Nat2Z.inj_add, Z2Nat.id by done.
  apply Z.lt_le_trans with (2 ^ (Z.log2 x + 1)); [destruct (decide (x = 0)) as [->|]; [done|apply Z.log2_spec; lia]|].
  rewrite <- (Z.pow_1_r (2 ^ _)) at 1. apply Z.pow_le_mono_r; [apply Z.pow_pos_nonneg; lia|lia].
Qed.

Notation Tree := (MerkleTree Z Utxo Z).
Notation Service := (BlendRewards unit).
Notation Params := RewardsParameters.
#[export] Instance one_second : SlotDuration (LedgerConfig.Config Params) := {| slot_duration _ := 1 |}.

(** ** The configuration *)

Definition zk_key : Z := 42.
Definition signer : list byte := replicate 32 x01.
Definition digest : list byte := replicate 32 x07.

Definition rewards_params : RewardsParameters := mkRewardsParameters 20 (f64_of_Z 1) 0 3 0 1 1.

Definition config : LedgerConfig.Config Params := mkConfig (mkEpochConfig 3 3 4)
  (EngineConfig.mkConfig 2 (mkRatio 1 1) (f64_of_Z 1) 1 1) 10 100000 1000
  (mkSdpConfig {[BlendNetwork := mkServiceParameters 3 0]} rewards_params (mkMinStake 100 0))
  (mkBlendPoW 10 5 2 1 1) (mkRewardPoW 10 1 10 1 1 100 1 1 10 50) [digest]
  (mkExecutionMarket 1000 (mkRatio 1 8) (mkRatio 1 2)) (mkStorageMarket (mkRatio 1 8) (mkRatio 1 2))
  (mkBlockRewards 100 10 1 (mkRatio 5 1) (mkRatio 1 2)) (mkGasProfile 5 5 5 5 5 5 5 5 5 5 5).

Definition eras : EraSchedule (LedgerConfig.Config Params) := mkSchedule (mkEntry 0 0 config) [].

(** ** The genesis *)

Definition genesis_transfer : TransferOp := mkTransfer [] [mkNote 10000 zk_key; mkNote 500 zk_key].
Definition genesis_inscription : InscriptionOp := mkInscription root [x01; x02] root signer.

Definition genesis_result := ledger_from_genesis (T:=Tree) (R:=Service) (Id:=Z) genesis_transfer genesis_inscription [] 7 1000 ∅ config.

#[local] Strategy expand [genesis_result].

(** The value of a computation that returns. *)
Definition force {E A} (r : result E A) : is_ok r = true → A :=
  match r with Ok a => λ _, a | Err _ | Fault _ => λ H, match Bool.diff_false_true H with end end.

Lemma force_ok {E A} (r : result E A) (H : is_ok r = true) : r = Ok (force r H).
Proof. destruct r; [done|discriminate..]. Qed.

Lemma genesis_computes : is_ok genesis_result = true.
Proof. vm_compute. reflexivity. Qed.

Definition state0 : LedgerState Tree Service := force genesis_result genesis_computes.

(** ** A block *)

Definition first_note : Z := utxo_id (mkUtxo (op_digest (Transfer genesis_transfer)) 0 (mkNote 10000 zk_key)).
Definition transfer_op : TransferOp := mkTransfer [first_note] [mkNote 9000 zk_key].
Definition transfer_tx : SignedOps := mkSignedOps digest [SignedTransfer transfer_op (replicate 128 x01)].

Definition update_result := try_update (T:=Tree) (R:=Service) (P:=Z) (Id:=Z) state0 1 1 5 [] [transfer_tx] eras.

#[local] Strategy expand [update_result].

(** ** The hypotheses of the theorems, at this ledger *)

Ltac by_compute := lazymatch goal with
  | |- _ <= _ => apply Z.leb_le; vm_compute; reflexivity
  | |- _ < _ => apply Z.ltb_lt; vm_compute; reflexivity
  | |- _ = _ => vm_compute; reflexivity
  end.

Lemma eras_wf : wf_schedule eras.
Proof.
  split; [done|intros [|i] v w Hv Hw; done|..]; intros v ->%list_elem_of_singleton.
  - apply Z.ltb_lt. vm_compute. reflexivity.
  - apply Z.leb_le. vm_compute. reflexivity.
  - cbn. unfold u32_max. lia.
Qed.

Lemma config_valid : BlockTheorems.config_ok config.
Proof.
  split; [| |vm_compute; reflexivity|..]; try (cbn; unfold u64_max; lia).
  - repeat (constructor; [cbn; lia|]). constructor.
  - split; cbn; unfold MODULUS_SHIFT_MAX; lia.
  - split; [cbn; unfold u64_max, u32_max; lia..|unfold proper, u32_max; cbn; lia|apply Z.leb_le; vm_compute; reflexivity].
  - split; [cbn; unfold u64_max; lia|unfold proper, u32_max; cbn; lia..].
Qed.

Lemma eras_valid v : v ∈ Era.eras eras → BlockTheorems.config_ok (v_parameters v).
Proof. intros ->%list_elem_of_singleton. exact config_valid. Qed.

(** Fresh notes, as a computation. *)
Definition insertable_b (t : Tree) (l : list Utxo) : bool :=
  bool_decide (NoDup (utxo_id <$> l)) && forallb (λ u, bool_decide (ks_view t !! utxo_id u = None)) l &&
  (Z.of_nat (size (ks_view t)) + Z.of_nat (length l) <=? ks_capacity (T:=Tree)).

Lemma insertable_b_ok t l : insertable_b t l = true → insertable t l.
Proof.
  unfold insertable_b. rewrite !andb_true_iff. intros [[Hn Hf] Hr]. split; [by apply bool_decide_eq_true in Hn| |by apply Z.leb_le].
  intros u Hu. rewrite forallb_forall in Hf. apply list_elem_of_In in Hu. specialize (Hf u Hu). by apply bool_decide_eq_true in Hf.
Qed.

Lemma note_wf_b n : (0 <=? value n) && (value n <=? u64_max) && (0 <=? pk n) && (pk n <? fr_modulus) = true → note_wf n.
Proof. unfold note_wf, in_u64, in_fr. rewrite !andb_true_iff. lia. Qed.

Lemma genesis_ops_wf : op_wf 1024 (Transfer genesis_transfer) ∧ op_wf 1024 (ChannelInscribe genesis_inscription).
Proof.
  split; cbn [op_wf].
  - split; split; [by_compute|split; constructor|by_compute|]. repeat (constructor; [apply note_wf_b; by_compute|]). constructor.
  - split_and!; [done|unfold data_wf; by_compute|done|split; done].
Qed.

Lemma genesis_notes_fresh : insertable (ks_empty (T:=Tree)) (utxos_of (op_digest (Transfer genesis_transfer)) (t_outputs genesis_transfer)).
Proof. apply insertable_b_ok. by_compute. Qed.

Lemma state0_genesis : genesis_result = Ok state0.
Proof. exact (force_ok genesis_result genesis_computes). Qed.

Lemma state0_ok : chain_ok (Id:=Z) eras state0 ∧ supply state0 = notes_value (t_outputs genesis_transfer) + 1000.
Proof.
  destruct genesis_ops_wf as [Ht Hi]. assert (0 <= 1000 <= u64_max) as Hp by (unfold u64_max; lia).
  pose proof state0_genesis as Hs. unfold genesis_result in Hs.
  pose proof (genesis_run (T:=Tree) (R:=Service) (Params:=Params) (Id:=Z) eras 1024 genesis_transfer genesis_inscription [] 7 1000 ∅ config state0
    eras_wf config_valid Hp Ht Hi genesis_notes_fresh) as Hg. exact (Hg Hs).
Qed.

(** A transaction of one operation needs its notes to be fresh. *)
Lemma single_fresh s op : op_fresh s op → tx_fresh (Id:=Z) eras s (mkSignedOps digest [op]).
Proof. intros Hf c h _ _ d d' _. split; [done|]. done. Qed.

Lemma transfer_fresh s : insertable_b (cl_utxos (cryptarchia_ledger s)) (op_notes s (SignedTransfer transfer_op (replicate 128 x01))) = true →
  tx_fresh (Id:=Z) eras s transfer_tx.
Proof. intros Hi. apply single_fresh. by apply insertable_b_ok. Qed.

Lemma transfer_tx_wf : tx_wf 1024 transfer_tx.
Proof.
  split; [|by_compute]. split_and!; [done|by_compute| |].
  - constructor; [|constructor]. cbn [operation op_wf]. split; split; [by_compute| |by_compute|].
    + split; [by apply NoDup_singleton|]. constructor; [|constructor]. split; by_compute.
    + constructor; [apply note_wf_b; by_compute|constructor].
  - constructor; [done|constructor].
Qed.

Lemma room l : cl_execution_base_fee l = 1 → 0 <= cl_average_execution_gas l <= 1000 → fee_room config (l : Cryptarchia Tree).
Proof.
  intros Hb Ha gas Hg. cbn in Hg. pose proof (next_average_bounds (execution_market config) (cl_average_execution_gas l) gas (ck_market _ config_valid)) as Hn.
  rewrite Hb. set (a := next_average _ _ _) in *. clearbody a.
  unfold fee_fits, fee_factor, fee_scale, u64_max, u128_max, gas_target. cbn. change (1000 / 2) with 500. lia.
Qed.

(** The notes a header creates, checked against its own state. *)
Definition header_fresh_b (s : LedgerState Tree Service) (slot proof : Z) : bool :=
  match (l ← cryptarchia_apply_header (Id:=Z) (P:=Z) (cryptarchia_ledger s) slot proof [] (m_sdp (mantle_ledger s)) (m_pow (mantle_ledger s)) eras;
         '(m, e) ← map_err (Mantle (Id:=Z)) (mantle_apply_header (mantle_ledger s) (cl_epoch_state (cryptarchia_ledger s)) (cl_epoch_state l) proof eras);
         Ok (insertable_b (cl_utxos l) (reward_utxos e))) with Ok b => b | _ => true end.

Lemma header_fresh_b_ok s slot proof : header_fresh_b s slot proof = true → header_fresh (Id:=Z) eras s slot proof [].
Proof.
  unfold header_fresh_b. intros Hb l m effect Hl Hm. cbn [lp_voucher_cm toy_leader] in Hm. rewrite Hl in Hb. cbn [mbind result_bind] in Hb.
  rewrite Hm in Hb. by apply insertable_b_ok.
Qed.

(** The prices after a header. *)
Definition header_prices_b (s : LedgerState Tree Service) (slot proof : Z) : bool :=
  match try_apply_header (Id:=Z) (P:=Z) s slot proof [] eras with
  | Ok (s, _) => (cl_execution_base_fee (cryptarchia_ledger s) =? 1) && (0 <=? cl_average_execution_gas (cryptarchia_ledger s)) &&
      (cl_average_execution_gas (cryptarchia_ledger s) <=? 1000)
  | _ => true
  end.

Lemma config_at slot c : config_for_slot (E:=LedgerError Z) eras slot = Ok c → c = config.
Proof. unfold config_for_slot, at_slot, last_started. cbn. destruct (0 <=? slot); cbn; [by intros [= <-]|done]. Qed.

Lemma header_room s slot proof s' ev c : header_prices_b s slot proof = true → try_apply_header (Id:=Z) (P:=Z) s slot proof [] eras = Ok (s', ev) →
  config_for_slot (E:=LedgerError Z) eras slot = Ok c → fee_room c (cryptarchia_ledger s').
Proof.
  unfold header_prices_b. intros Hb Hs ->%config_at. rewrite Hs in Hb. rewrite !andb_true_iff in Hb. destruct Hb as [[? ?] ?]. apply room; lia.
Qed.

Lemma epoch_of_slot_1 : epoch_for_slot (E:=LedgerError Z) eras 1 = Ok 0.
Proof. vm_compute. reflexivity. Qed.

(** The notes of the transfer, against the state after the header of its block. *)
Definition txs_fresh_b (s : LedgerState Tree Service) : bool :=
  match ('(s, _) ← try_apply_header (Id:=Z) (P:=Z) s 1 5 [] eras;
         m ← mantle_add_seen_block (mantle_ledger s) (into_block_hash (1 : Z)) 1 eras;
         Ok (insertable_b (cl_utxos (cryptarchia_ledger (with_mantle s m)))
               (op_notes (with_mantle s m) (SignedTransfer transfer_op (replicate 128 x01))))) with Ok b => b | _ => true end.

Lemma txs_fresh_b_ok s s' ev m : txs_fresh_b s = true → try_apply_header (Id:=Z) (P:=Z) s 1 5 [] eras = Ok (s', ev) →
  mantle_add_seen_block (E:=LedgerError Z) (mantle_ledger s') (into_block_hash (1 : Z)) 1 eras = Ok m →
  tx_fresh (Id:=Z) eras (with_mantle s' m) transfer_tx.
Proof. unfold txs_fresh_b. intros Hb Hs Hm. rewrite Hs in Hb. cbn [mbind result_bind] in Hb. rewrite Hm in Hb. by apply transfer_fresh. Qed.

Definition block_ok_b (s : LedgerState Tree Service) : bool := header_fresh_b s 1 5 && header_prices_b s 1 5 && txs_fresh_b s.

Lemma block_ok s : block_ok_b s = true → block_assumptions (Id:=Z) eras 1024 s 1 1 5 [] [transfer_tx].
Proof.
  unfold block_ok_b. rewrite !andb_true_iff. intros [[Hh Hp] Ht]. split.
  - by apply header_fresh_b_ok.
  - intros s' ev m Hs Hm. split; [by eapply txs_fresh_b_ok|done].
  - intros s' ev c. by apply header_room.
  - constructor; [exact transfer_tx_wf|constructor].
  - by_compute.
  - intros e. rewrite epoch_of_slot_1. intros [= <-]. split; by_compute.
Qed.

Lemma state0_block_ok : block_ok_b state0 = true.
Proof. vm_compute. reflexivity. Qed.

Lemma update_computes : is_ok update_result = true.
Proof. vm_compute. reflexivity. Qed.

Definition state1 : LedgerState Tree Service := (force update_result update_computes).1.1.

Lemma chain1 : chain (P:=Z) (Id:=Z) eras 1024 state0 1 state1.
Proof.
  destruct (force update_result update_computes) as [[s ev] d] eqn:Hf. unfold state1. rewrite Hf.
  eapply (chain_block _ _ _ 0 state0 1 1 5 [] [transfer_tx]); [constructor|exact (block_ok _ state0_block_ok)|]. pose proof (force_ok update_result update_computes) as Hu. rewrite Hf in Hu. exact Hu.
Qed.

Lemma emission_5 v : v ∈ Era.eras eras → emission_within (v_parameters v) 5.
Proof. intros ->%list_elem_of_singleton. split; cbn; lia. Qed.

End LedgerExamples.
