(* ===== verification/LedgerWitness.v ===== *)
(** * The theorems of the components at concrete values

    Each lemma applies one theorem to a small instance of its component, with
    the third-party code of the example ledger. The first module,
    [ComponentWitness], is about the parts of the ledger; [LedgerWitness] about
    the whole. *)

From S2P Require Import Prelude Era EraFacts EngineConfig Merkle MerkleStore Codec CodecLaws Ops OpsCodec Channels Utxos ServiceNotes Inputs ChannelOps SignedTx SdpOps SdpTheorems LedgerConfig ClaimOps TxVerification NoteFacts Leaders Pow PowTheorems Markets MarketFacts Cryptarchia ConsensusFacts Ledger BlendRewards BlendFacts LedgerInvariant TxTheorems BlockTheorems GenesisTheorems LedgerExamples.

#[local] Open Scope Z_scope.

Module ComponentWitness.
Import Canonical Ops OpsCodec Utxos Channels ServiceNotes Inputs ChannelOps SignedTx SdpOps SdpFacts SdpTheorems LedgerConfig ClaimOps Leaders Pow PowFacts PowTheorems Markets MarketFacts Cryptarchia Ledger LedgerExamples.
Import DynamicMerkle(MerkleHasher(..), EMPTY_VALUE, compress) KeyedTree(MerkleTree) UtxoTree.

(** ** Channels *)

(** Two sequencers, turns of thirty slots, a timeout of ten. *)
Definition two_sequencers : ChannelState :=
  mkChannel [signer; digest] 1 root root 100 1 80 30 10 1.

Lemma two_sequencers_wf : channel_wf 104 two_sequencers.
Proof. split; cbn; unfold in_u32, u32_max, u16_max; lia. Qed.

Lemma round_robin_turns_witness : ∃ index start, round_robin (E:=Empty_set) two_sequencers 105 = Ok (index, start) ∧
  0 <= index < 2 ∧ start <= 105 ∧
  stable_until (E:=Empty_set) two_sequencers 105 (index, start) (next_round_robin_boundary two_sequencers 105).
Proof. apply (round_robin_turns two_sequencers 104 105 two_sequencers_wf). split; by_compute. Defined.

(** ** Transactions *)

Lemma signed_tx_roundtrip_witness : ∃ bs, encode signed_ops_codec (E:=Empty_set) transfer_tx = Ok bs ∧
  ∀ rest, decode signed_ops_codec (bs ++ rest) 1024 = Ok (rest, transfer_tx).
Proof.
  destruct (signed_tx_roundtrip (E:=Empty_set) 1024 transfer_tx) as (bs & He & _ & Hd); [apply transfer_tx_wf|].
  by exists bs.
Defined.

(** The transfer and the transaction without operations sign different bytes. *)
Lemma signing_payload_injective_witness :
  as_signing (E:=Empty_set) transfer_tx ≠ as_signing (mkSignedOps digest []).
Proof.
  rewrite (signing_payload_injective 1024 transfer_tx (mkSignedOps digest [])); [intros [_ Hops]; discriminate|apply transfer_tx_wf|].
  split_and!; [done|done|constructor|constructor].
Defined.

(** ** Leaders *)

Definition three_vouchers : LeaderState := mkLeaders 2 (mkSnapshot 5 3) ∅ 10 0 [].

Lemma leader_claims_fair_witness : ∃ l' rewards, claims (E:=Empty_set) three_vouchers [7; 8; 9] = Ok (l', rewards) ∧
  length rewards = 3%nat ∧ Forall (λ r, 3 <= r <= 4) rewards ∧ claimable_rewards l' = 0.
Proof.
  destruct (leader_claims_fair (E:=Empty_set) three_vouchers [7; 8; 9]) as (l' & rs & Hc & Hl & HF & _ & _ & Hz).
  - cbn. lia.
  - apply (bool_decide_unpack _). vm_compute. exact I.
  - intros k _. apply not_elem_of_empty.
  - vm_compute. discriminate.
  - vm_compute. reflexivity.
  - exists l', rs. split_and!; [exact Hc|exact Hl|exact HF|by apply Hz].
Defined.

(** ** Proof of work *)

Definition reward_config : RewardPoWConfig := reward_pow config.

Lemma reward_config_ok : reward_pow_typed reward_config ∧ reward_pow_validate reward_config = Ok tt.
Proof. split; [split; cbn; unfold MODULUS_SHIFT_MAX; lia|vm_compute; reflexivity]. Qed.

Lemma target_floor_1 : target_floor reward_config = 1.
Proof. vm_compute. reflexivity. Qed.

Lemma genesis_target_large : 1000 <= genesis_target reward_config.
Proof. apply Z.leb_le. vm_compute. reflexivity. Qed.

Lemma reward_target_controller_witness : ∃ next, compute_new_reward_difficulty (E:=Empty_set) 3 1000 reward_config = Ok next ∧
  1 <= next <= 1000.
Proof.
  destruct reward_config_ok as [Ht Hv]. pose proof genesis_target_large. pose proof target_floor_1 as Hf.
  destruct (reward_target_controller (E:=Empty_set) reward_config 3 1000 Ht Hv) as (next & Hn & Hb & Hd & _); [lia..|].
  exists next. split; [exact Hn|]. cbn in Hd. lia.
Defined.

Lemma reward_target_recovers_witness : ∃ n, idle_blocks (E:=Empty_set) n 1000 reward_config = Ok (genesis_target reward_config).
Proof.
  destruct reward_config_ok as [Ht Hv]. pose proof genesis_target_large. pose proof target_floor_1 as Hf.
  destruct (reward_target_recovers (E:=Empty_set) reward_config 1000 Ht Hv) as (n & _ & Hn); [cbn; lia|cbn; lia|lia|].
  exists n. exact Hn.
Defined.

(** Two blocks of five transactions are the target; one more makes it harder. *)
Lemma blend_difficulty_tracks_load_witness : ∃ d d',
  compute_epoch_blend_difficulty (E:=Empty_set) (mkLoad 10 2) (fr_of_shift 10) (blend_pow config) = Ok d ∧
  compute_epoch_blend_difficulty (E:=Empty_set) (mkLoad 11 2) (fr_of_shift 10) (blend_pow config) = Ok d' ∧
  d = fr_of_shift 10 ∧ d' <= d.
Proof.
  destruct (blend_difficulty_tracks_load (E:=Empty_set) (blend_pow config) 10 11 2 (fr_of_shift 10)) as (d & d' & Hd & Hd' & _ & Hle & Heq).
  - split; cbn; unfold MODULUS_SHIFT_MAX, u32_max; lia.
  - lia.
  - split; [apply Z.leb_le|apply Z.ltb_lt]; vm_compute; reflexivity.
  - lia.
  - exists d, d'. split_and!; [exact Hd|exact Hd'|by apply Heq|exact Hle].
Defined.

(** A block at slot five and a claim on it; and a block after the window of the first
    one, which drops the ticket, with a claim on it. *)
Definition windows : EraSchedule Z := mkSchedule (mkEntry 0 0 50) [].
Definition block_5 : Hash := replicate 32 x05.
Definition block_100 : Hash := replicate 32 x64.
Definition claim_on (block : Hash) : ClaimPowRewardOp := mkClaimPowReward 7 block 1.
Definition pow0 : PowState := mkPow (mkRewardPow 1000 10 500000 0 ∅ ∅) (mkTxDensity (mkTotals 0 0) None).
Notation executed p op := (pow_claim_execute (T:=Tree) (E:=False) op (pow_execution p ks_empty) digest).
Definition paid_to (p : PowState) (x : PowExecutionContext Tree) : PowState := update_from_claim_execution_result p (pe_nullifiers x) (pe_reward_pool x).

Notation seen_5 := (add_seen_block (E:=False) pow0 block_5 5 windows).
Lemma seen_5_computes : is_ok seen_5 = true.
Proof. vm_compute. reflexivity. Qed.
Definition pow1 : PowState := force seen_5 seen_5_computes.
Lemma claim_5_computes : is_ok (executed pow1 (claim_on block_5)) = true.
Proof. vm_compute. reflexivity. Qed.
Definition claim_5 := force (executed pow1 (claim_on block_5)) claim_5_computes.
Definition pow2 : PowState := paid_to pow1 claim_5.1.
Notation seen_100 := (add_seen_block (E:=False) pow2 block_100 100 windows).
Lemma seen_100_computes : is_ok seen_100 = true.
Proof. vm_compute. reflexivity. Qed.
Definition pow3 : PowState := force seen_100 seen_100_computes.
Lemma claim_100_computes : is_ok (executed pow3 (claim_on block_100)) = true.
Proof. vm_compute. reflexivity. Qed.
Definition claim_100 := force (executed pow3 (claim_on block_100)) claim_100_computes.

Lemma claims_verify : pow_claim_verify (claim_on block_5) (pow_context windows pow1 5 7 3) = Ok tt ∧
  pow_claim_verify (claim_on block_100) (pow_context windows pow3 100 7 3) = Ok tt.
Proof. split; vm_compute; reflexivity. Qed.

Lemma force_claim op p H : executed p op = Ok ((force (executed p op) H).1, (force (executed p op) H).2).
Proof. rewrite <- surjective_pairing. exact (force_ok (executed p op) H). Qed.

Lemma pow_no_double_claim_witness : nullifiers (ps_reward pow2) ≠ ∅ ∧ nullifiers (ps_reward pow3) = ∅ ∧
  NoDup [(block_100, get_puzzle_ticket (claim_on block_100)); (block_5, get_puzzle_ticket (claim_on block_5))].
Proof.
  split; [vm_compute; discriminate|]. split; [vm_compute; reflexivity|]. destruct claims_verify as [Hv1 Hv2].
  apply (pow_no_double_claim (T:=Tree) windows (paid_to pow3 claim_100.1) (<[block_100 := 100]> (<[block_5 := 5]> ∅)) 100).
  apply (run_claim windows pow3 _ _ _ (claim_on block_100) 7 3 ks_empty digest claim_100.1 claim_100.2); [|exact Hv2|exact (force_claim _ _ _)].
  apply (run_block windows pow2 (<[block_5 := 5]> ∅) 5 _ block_100 100 pow3); [|vm_compute; reflexivity|lia|exact (force_ok seen_100 seen_100_computes)].
  apply (run_claim windows pow1 _ _ _ (claim_on block_5) 7 3 ks_empty digest claim_5.1 claim_5.2); [|exact Hv1|exact (force_claim _ _ _)].
  apply (run_block windows pow0 ∅ 0 [] block_5 5 pow1); [by apply PowTheorems.run_start|done|done|exact (force_ok seen_5 seen_5_computes)].
Defined.

(** ** Markets *)

Lemma execution_market_spec_witness : ∃ average' fee', update_execution_market (E:=Empty_set) 600 80 900 (execution_market config) = Ok (average', fee') ∧
  600 <= average' <= 900 ∧ 80 <= fee'.
Proof.
  destruct (execution_market_spec (E:=Empty_set) (execution_market config) 600 80 900) as (a & f & Hu & Ha & _ & _ & Hup & _).
  - split; [cbn; unfold u64_max; lia|unfold proper, u32_max; cbn; lia..].
  - unfold u64_max. lia.
  - unfold u64_max. lia.
  - lia.
  - split; by_compute.
  - exists a, f. split; [exact Hu|]. split; [lia|]. apply Hup. change (gas_target _) with 500. lia.
Defined.

Lemma storage_market_spec_witness : ∃ price' ema', update_storage_market (E:=Empty_set) 80 900 600 (storage_market config) = Ok (price', ema') ∧
  600 <= ema' <= 900 ∧ 80 <= price'.
Proof.
  destruct (storage_market_spec (E:=Empty_set) (storage_market config) 80 900 600) as (p & e & Hu & He & _ & _ & _ & _ & Hup).
  - split; unfold proper, u32_max; cbn; lia.
  - unfold u64_max. lia.
  - unfold u64_max. lia.
  - unfold u64_max. lia.
  - by_compute.
  - exists p, e. split; [exact Hu|]. split; [lia|]. apply Hup; lia.
Defined.

Lemma block_rewards_spec_witness : ∃ blend leader, block_rewards (E:=Empty_set) (block_rewards_config config) 20 30 200 = Ok (blend, leader) ∧
  0 <= blend ∧ 0 <= leader.
Proof.
  destruct (block_rewards_spec (E:=Empty_set) (block_rewards_config config) 20 30 200) as (b & l & Hr & Hb & Hl & _).
  - split; [cbn; unfold u64_max, u32_max; lia..|unfold proper, u32_max; cbn; lia|by_compute].
  - unfold u64_max. lia.
  - exists b, l. split_and!; [exact Hr|exact Hb|exact Hl].
Defined.

(** Fewer blocks than expected lower the estimate. *)
Lemma stake_inference_spec_witness : ∃ T', infer_stake (E:=Empty_set) 500 100 1000 10000 50 = Ok T' ∧ 1 <= T' <= 10000.
Proof.
  destruct (stake_inference_spec (E:=Empty_set) 500 100 1000 10000 50) as (T' & Hi & Hb & Hd & _); [lia..|by_compute|by_compute|].
  exists T'. split; [exact Hi|]. split; [lia|]. by apply Hd.
Defined.

(** ** Services *)

(** Rewards that accept every proof. *)
#[local] Instance accepting : Rewards Tree unit unit := {|
  rw_update_active _ _ _ := Ok tt; rw_update_epoch E _ _ _ _ _ _ := Ok (tt, []); rw_add_income E _ _ := Ok tt
|}.

Definition sdp_config : SdpConfig unit := mkSdpConfig {[BlendNetwork := mkServiceParameters 3 0]} tt (mkMinStake 100 0).
Definition store0 : Tree := cl_utxos (cryptarchia_ledger state0).
Definition declaration : DeclarationMessage := mkDeclarationMessage BlendNetwork [] signer zk_key first_note.
Definition activity (n : Z) : ActiveMessage :=
  mkActiveMessage (message_id declaration) (mkNonce 0 n) (Blend (mkActivityProof 0 signer (mkProofOfQuota 0 []) 0)).

(** A declaration, then two messages of activity. *)
Definition services0 : SdpLedger unit := sdp_new 0 tt.
Definition declared := try_apply_sdp_declaration services0 store0 declaration sdp_config.
Lemma declared_computes : is_ok declared = true.
Proof. vm_compute. reflexivity. Qed.
Definition services1 : SdpLedger unit := force declared declared_computes.
Definition activated1 := apply_active_msg (T:=Tree) services1 (activity 1) sdp_config.
Lemma activated1_computes : is_ok activated1 = true.
Proof. vm_compute. reflexivity. Qed.
Definition services2 : SdpLedger unit := force activated1 activated1_computes.
Definition activated2 := apply_active_msg (T:=Tree) services2 (activity 2) sdp_config.
Lemma activated2_computes : is_ok activated2 = true.
Proof. vm_compute. reflexivity. Qed.
Definition services3 : SdpLedger unit := force activated2 activated2_computes.

(** The checks of a message of activity, as a computation. *)
Definition active_accepted (s : SdpLedger unit) (op : ActiveMessage) : bool :=
  match get_declaration s (am_declaration_id op) with
  | Some d => is_ok (active_verify op [] d digest (sdp_epoch s))
  | None => false
  end.

Lemma active_accepted_ok s op : active_accepted s op = true →
  ∃ d out, get_declaration s (am_declaration_id op) = Some d ∧ active_verify op [] d digest (sdp_epoch s) = Ok out.
Proof.
  unfold active_accepted. destruct (get_declaration _ _) as [d|]; [|done]. intros Hok. exists d, (force _ Hok).
  split; [done|apply force_ok].
Qed.

Lemma accepted_1 : active_accepted services1 (activity 1) = true.
Proof. vm_compute. reflexivity. Qed.
Lemma accepted_2 : active_accepted services2 (activity 2) = true.
Proof. vm_compute. reflexivity. Qed.

Definition declaration_accepted (utxos : Tree) (op : DeclarationMessage) : bool :=
  match ks_get utxos (dm_service_note_id op) with
  | Some u => is_ok (declare_validate op (note u) (mkChannels ∅ ∅) ∅ ∅ ∅ (min_stake sdp_config))
  | None => false
  end.

Lemma declaration_accepted_ok utxos op : declaration_accepted utxos op = true → ∃ u, ks_get utxos (dm_service_note_id op) = Some u ∧
  declare_validate op (note u) (mkChannels ∅ ∅) ∅ ∅ ∅ (min_stake sdp_config) = Ok tt.
Proof.
  unfold declaration_accepted. destruct (ks_get _ _) as [u|]; [|done]. intros Hok. exists u. split; [done|].
  rewrite (force_ok _ Hok). by destruct (force _ Hok).
Qed.

Lemma accepted_0 : declaration_accepted store0 declaration = true.
Proof. vm_compute. reflexivity. Qed.

Lemma sdp_no_replay_witness : NoDup [(message_id declaration, mkNonce 0 2); (message_id declaration, mkNonce 0 1)].
Proof.
  destruct (active_accepted_ok _ _ accepted_1) as (d1 & o1 & Hd1 & Hv1), (active_accepted_ok _ _ accepted_2) as (d2 & o2 & Hd2 & Hv2).
  destruct (declaration_accepted_ok _ _ accepted_0) as (u & Hu & Hv).
  apply (sdp_no_replay (T:=Tree) (Params:=unit) services3).
  eapply (run_active _ _ d2 _ _ o2 sdp_config (activity 2) services3); [|exact Hd2|exact Hv2|exact (force_ok activated2 activated2_computes)].
  eapply (run_active _ _ d1 _ _ o1 sdp_config (activity 1) services2); [|exact Hd1|exact Hv1|exact (force_ok activated1 activated1_computes)].
  eapply (run_declare services0 [] (mkService BlendNetwork ∅ ∅ tt) store0 u (mkChannels ∅ ∅) sdp_config declaration services1);
    [constructor|reflexivity|exact Hu|exact Hv|exact (force_ok declared declared_computes)].
Defined.

End ComponentWitness.

(** * The theorems of the ledger at the example ledger

    Each lemma applies one theorem to the ledger of [LedgerExamples]. *)

#[local] Open Scope Z_scope.

Module LedgerWitness.
Import Canonical Ops OpsCodec Utxos Channels ServiceNotes Inputs ChannelOps SignedTx SdpOps SdpFacts SdpTheorems LedgerConfig ClaimOps TxVerification NoteFacts Leaders Pow PowFacts PowTheorems Markets MarketFacts Cryptarchia ConsensusFacts Ledger LedgerInvariant LedgerVerify TxTheorems BlockTheorems GenesisTheorems BlendRewards BlendFacts LedgerExamples.
Import DynamicMerkle(MerkleHasher(..), EMPTY_VALUE, compress) KeyedTree(MerkleTree) UtxoTree.

(** ** Chains *)

Lemma state0_chain : chain_ok (Id:=Z) eras state0.
Proof. apply state0_ok. Qed.

Lemma state0_supply : supply state0 = 11500.
Proof. rewrite (proj2 state0_ok). reflexivity. Qed.

Lemma state0_number : block_number state0 = 0.
Proof. vm_compute. reflexivity. Qed.

Lemma supply_bounded_witness : ledger_ok state1 ∧ supply state1 <= 11505.
Proof.
  pose proof state0_supply as Hs. pose proof state0_number as Hn.
  destruct (supply_bounded (T:=Tree) (R:=Service) (P:=Z) (Id:=Z) eras 1024 eq_refl eras_wf eras_valid state0 5 1 state1 state0_chain emission_5)
    as [Hok Hle]; [lia|exact chain1|rewrite Hn; lia|rewrite Hs; unfold u64_max; lia|].
  split; [exact Hok|]. rewrite Hs in Hle. exact Hle.
Defined.

(** ** The ledger of all blocks *)

(** The state of the first block. *)
Definition parent_result : result (LedgerError Z) (LedgerState Tree Service) :=
  m ← mantle_add_seen_block (mantle_ledger state0) (into_block_hash (0 : Z)) (cl_slot (cryptarchia_ledger state0)) eras;
  Ok (with_mantle state0 m).
Lemma parent_computes : is_ok parent_result = true.
Proof. vm_compute. reflexivity. Qed.
Definition parent0 : LedgerState Tree Service := force parent_result parent_computes.

Definition child_result := try_update (T:=Tree) (R:=Service) (P:=Z) (Id:=Z) parent0 1 1 5 [] [transfer_tx] eras.
Lemma child_computes : is_ok child_result = true.
Proof. vm_compute. reflexivity. Qed.
Definition child := force child_result child_computes.

Notation Blocks := (BlockLedger (T:=Tree) (R:=Service) (Params:=Params) (Id:=Z)).
Definition blocks0 : Blocks := mkBlockLedger {[0 := parent0]} eras.
Definition blocks1 : Blocks := mkBlockLedger (<[1 := child.1.1]> {[0 := parent0]}) eras.

Lemma new_of_parent (s s1 : LedgerState Tree Service) (id : Z) :
  (m ← mantle_add_seen_block (E:=LedgerError Z) (mantle_ledger s) (into_block_hash id) (cl_slot (cryptarchia_ledger s)) eras;
   Ok (with_mantle s m)) = Ok s1 → block_ledger_new (E:=LedgerError Z) id s eras = Ok (mkBlockLedger {[id := s1]} eras).
Proof. unfold block_ledger_new. intros Hs. peel Hs as m Hm. injection Hs as <-. by rewrite Hm. Qed.

Lemma batch_accepted d : deferred_verify d = Ok tt.
Proof. destruct d as [[|] [|]]; reflexivity. Qed.

Lemma commit_child (b : Blocks) s0 parent id pid slot proof txs r :
  ledger_run (P:=Z) eras 1024 s0 b → era_schedule b = eras → states b !! pid = Some parent →
  block_assumptions (Id:=Z) eras 1024 parent id slot proof [] txs →
  try_update (Id:=Z) (P:=Z) parent id slot proof [] txs eras = Ok r →
  ledger_run (P:=Z) eras 1024 s0 (mkBlockLedger (<[id := r.1.1]> (states b)) eras).
Proof.
  intros Hrun He Hp Hba Hu. destruct r as [[s ev] d].
  apply (run_commit _ _ _ b id pid parent slot proof [] txs (mkPrepared id s ev d) (mkVerified id s ev) _ ev); try done.
  - unfold prepare_update. rewrite Hp, He. cbn [ok_or mbind result_bind]. by rewrite Hu.
  - unfold verify_batch_proofs. by rewrite batch_accepted.
  - unfold commit_update. by rewrite He.
Qed.

Lemma parent0_block_ok : block_ok_b parent0 = true.
Proof. vm_compute. reflexivity. Qed.

Lemma blocks1_run : ledger_run (P:=Z) (Id:=Z) eras 1024 state0 blocks1.
Proof.
  apply (commit_child blocks0 state0 parent0 1 0 1 5 [transfer_tx] child); [|done|apply lookup_singleton_eq|exact (block_ok _ parent0_block_ok)|].
  - apply (run_new _ _ _ 0). apply new_of_parent. exact (force_ok parent_result parent_computes).
  - exact (force_ok child_result child_computes).
Qed.

Lemma ledger_states_reachable_witness : ∃ s s1 n, states blocks1 !! 1 = Some s ∧
  genesis_state (Id:=Z) eras state0 s1 ∧ chain (P:=Z) (Id:=Z) eras 1024 s1 n s.
Proof.
  destruct (ledger_states_reachable (T:=Tree) (R:=Service) (P:=Z) (Id:=Z) eras 1024 eq_refl eras_wf eras_valid state0 blocks1 1 child.1.1 5
    state0_chain emission_5) as (s1 & n & Hg & Hc & _); [lia|exact blocks1_run|apply lookup_insert_eq|].
  exists child.1.1, s1, n. split; [apply lookup_insert_eq|]. split; [exact Hg|exact Hc].
Defined.

(** ** Transactions *)

Lemma state0_slot : cl_slot (cryptarchia_ledger state0) = 0.
Proof. vm_compute. reflexivity. Qed.

Lemma state0_epoch : sdp_epoch (m_sdp (mantle_ledger state0)) = 0.
Proof. vm_compute. reflexivity. Qed.

Lemma state0_range : in_range state0.
Proof. split; rewrite ?state0_slot, ?state0_epoch; [split|..]; by_compute. Qed.

Lemma state0_fits : supply state0 <= u64_max.
Proof. rewrite state0_supply. by_compute. Qed.

Lemma state0_fee : cl_execution_base_fee (cryptarchia_ledger state0) = 1.
Proof. vm_compute. reflexivity. Qed.

Lemma state0_price : cl_storage_gas_price (cryptarchia_ledger state0) = 1.
Proof. vm_compute. reflexivity. Qed.

Lemma transfer_fresh_0 : tx_fresh (Id:=Z) eras state0 transfer_tx.
Proof. apply transfer_fresh. vm_compute. reflexivity. Qed.

Lemma profiles c : config_for_slot (E:=LedgerError Z) eras (cl_slot (cryptarchia_ledger state0)) = Ok c → profile_ok (gas_profile c).
Proof. intros ->%config_at. apply config_valid. Qed.

Notation tx_result := (try_apply_transaction (T:=Tree) (R:=Service) (Id:=Z) state0 eras transfer_tx).
Lemma tx_computes : is_ok tx_result = true.
Proof. vm_compute. reflexivity. Qed.

Lemma transaction_conserves_witness : ∃ s' g ev d, tx_result = Ok (s', g, ev, d) ∧
  ledger_ok s' ∧ supply s' + gf_fee_burned g + gf_fee_tip g = supply state0.
Proof.
  pose proof (transaction_conserves (T:=Tree) (R:=Service) (Id:=Z) eras 1024 eq_refl state0 transfer_tx (ch_ledger _ _ state0_chain)
    state0_range state0_fits) as Hc.
  rewrite state0_fee, state0_price in Hc.
  specialize (Hc ltac:(lia) ltac:(lia) transfer_tx_wf transfer_fresh_0 profiles). pose proof tx_computes as Hr.
  destruct tx_result as [[[[s' g] ev] d]|e|f]; [|discriminate..]. destruct Hc as (Hok & Hs & _).
  exists s', g, ev, d. split; [reflexivity|]. split; [exact Hok|exact Hs].
Defined.

(** The operations of the transfer, without its fees. *)
Notation ops_result := (try_apply_tx_operations (T:=Tree) (R:=Service) (Id:=Z) state0 eras transfer_tx).
Lemma ops_compute : is_ok ops_result = true.
Proof. vm_compute. reflexivity. Qed.
Definition ops_done := force ops_result ops_compute.
Lemma ops_gas : ops_done.1.1.2 = 5.
Proof. vm_compute. reflexivity. Qed.

Lemma insufficient_balance_witness : ∃ s1 balance gas ev d, ops_result = Ok (s1, balance, gas, ev, d) ∧
  tx_result = if balance <? gas * 1 + tx_size transfer_tx * 1 then Err InsufficientBalance
              else Ok (s1, mkGasAndFees gas (tx_size transfer_tx) (gas * 1 + tx_size transfer_tx * 1)
                             (balance - (gas * 1 + tx_size transfer_tx * 1)), ev, d).
Proof.
  assert (ops_result = Ok ops_done) as Ho by exact (force_ok ops_result ops_compute). pose proof ops_gas as Hg.
  destruct ops_done as [[[[s1 balance] gas] ev] d]. exists s1, balance, gas, ev, d. split; [exact Ho|].
  pose proof (insufficient_balance (T:=Tree) (R:=Service) (Id:=Z) eras 1024 eq_refl state0 transfer_tx s1 balance gas ev d
    (ch_ledger _ _ state0_chain) state0_range state0_fits) as Hc.
  rewrite state0_fee, state0_price in Hc. apply (Hc ltac:(lia) ltac:(lia) transfer_tx_wf transfer_fresh_0 profiles Ho).
  cbn in Hg. rewrite Hg. by_compute.
Defined.

(** ** Blocks *)

Notation contents_result := (try_apply_block_contents (T:=Tree) (R:=Service) (Id:=Z) state0 eras [transfer_tx]).
Lemma contents_compute : is_ok contents_result = true.
Proof. vm_compute. reflexivity. Qed.

Lemma state0_average : cl_average_execution_gas (cryptarchia_ledger state0) = 0.
Proof. vm_compute. reflexivity. Qed.

Lemma state0_config : config_for_slot (E:=LedgerError Z) eras (cl_slot (cryptarchia_ledger state0)) = Ok config.
Proof. rewrite state0_slot. vm_compute. reflexivity. Qed.

Lemma block_contents_safe_witness : ∃ s' ev d, contents_result = Ok (s', ev, d) ∧ ledger_ok s' ∧ supply s' <= 11505 ∧ market_ok (cryptarchia_ledger s').
Proof.
  pose proof (block_contents_safe (T:=Tree) (R:=Service) (Id:=Z) eras 1024 eq_refl state0 [transfer_tx] config 5 (ch_ledger _ _ state0_chain)
    state0_range (ch_market _ _ state0_chain) state0_config config_valid) as Hc.
  assert (emission_within config 5) as He by (split; cbn; lia).
  assert (fee_room config (cryptarchia_ledger state0)) as Hroom
    by (apply room; [exact state0_fee|rewrite state0_average; lia]).
  rewrite state0_supply in Hc. specialize (Hc He ltac:(by_compute) (Forall_cons_2 _ _ _ transfer_tx_wf (Forall_nil_2 _))).
  specialize (Hc (conj transfer_fresh_0 (λ _ _ _ _ _, I))). pose proof contents_compute as Hr.
  destruct contents_result as [[[s' ev] d]|e|f]; [|discriminate..]. destruct Hc as (Hok & Hs & Hm). exists s', ev, d. split; [reflexivity|].
  split; [exact Hok|]. split; [exact Hs|exact (Hm Hroom)].
Defined.

Notation txs_result := (apply_txs (T:=Tree) (R:=Service) (Id:=Z) state0 eras config 0 0 gas_and_fees_default [] deferred_new [transfer_tx]).
Lemma txs_compute : is_ok txs_result = true.
Proof. vm_compute. reflexivity. Qed.

Lemma block_limits_witness : ∃ s' g ev d, txs_result = Ok (s', g, ev, d) ∧ gf_execution_gas g <= 1000.
Proof.
  assert (txs_result = Ok (force txs_result txs_compute)) as Hr by exact (force_ok txs_result txs_compute).
  destruct (force txs_result txs_compute) as [[[s' g] ev] d]. exists s', g, ev, d. split; [exact Hr|].
  apply (block_limits (T:=Tree) (R:=Service) (Id:=Z) state0 eras config 1024 [transfer_tx] s' g ev d
    (Forall_cons_2 _ _ _ transfer_tx_wf (Forall_nil_2 _))); [discriminate|exact Hr].
Defined.

(** ** Verification *)

Notation helper0 := (helper_of (mantle_ledger state0) (cryptarchia_ledger state0) eras).

Lemma verification_total_witness :
  (∃ d', into_verified (SignedTransfer transfer_op (replicate 128 x01)) 0 digest helper0 deferred_new = Ok d') ∨
  (∃ e, into_verified (SignedTransfer transfer_op (replicate 128 x01)) 0 digest helper0 deferred_new = Err e).
Proof.
  apply (verification_total (T:=Tree) (R:=Service) state0 eras); [exact (ch_ledger _ _ state0_chain)|reflexivity|].
  rewrite state0_slot. split; by_compute.
Defined.

Definition other_channel : ChannelId := replicate 32 x09.

Lemma unknown_channel : channels (m_channels (mantle_ledger state0)) !! other_channel = None.
Proof. vm_compute. reflexivity. Qed.

(** An inscription on an unknown channel has to start it. *)
Lemma channel_operations_authorized_witness :
  into_verified (SignedInscribe (mkInscription other_channel [] digest signer) []) 0 digest helper0 deferred_new ≠ Ok deferred_new.
Proof.
  destruct (channel_operations_authorized (T:=Tree) (R:=Service) state0 eras 0 digest deferred_new (ch_ledger _ _ state0_chain)) as [Hi _].
  rewrite Hi. cbn [i_channel_id i_parent]. rewrite unknown_channel. discriminate.
Defined.

(** ** Genesis *)

#[local] Strategy expand [genesis_result].

Lemma genesis_reachable_witness : chain_ok (Id:=Z) eras state0 ∧ supply state0 = notes_value (t_outputs genesis_transfer) + 1000.
Proof.
  destruct genesis_ops_wf as [Ht Hi]. assert (0 <= 1000 <= u64_max) as Hp by (unfold u64_max; lia).
  pose proof state0_genesis as Hs. unfold genesis_result in Hs.
  pose proof (genesis_reachable (T:=Tree) (R:=Service) (Params:=Params) (Id:=Z) eras 1024 genesis_transfer genesis_inscription [] 7 1000 ∅ config state0
    eras_wf config_valid Hp Ht Hi genesis_notes_fresh) as Hg. exact (Hg Hs).
Defined.

(** ** Epochs *)

Definition ledger0 : Cryptarchia Tree := cryptarchia_ledger state0.
Definition sdp0 : SdpLedger Service := m_sdp (mantle_ledger state0).
Definition pow0 : PowState := m_pow (mantle_ledger state0).

Notation header_at l slot proof := (cryptarchia_apply_header (T:=Tree) (R:=Service) (Id:=Z) (P:=Z) l slot proof [] sdp0 pow0 eras).

Lemma at_13_computes : is_ok (header_at ledger0 13 5) = true.
Proof. vm_compute. reflexivity. Qed.
Definition ledger13 : Cryptarchia Tree := force (header_at ledger0 13 5) at_13_computes.
Lemma at_20_computes : is_ok (header_at ledger13 20 6) = true.
Proof. vm_compute. reflexivity. Qed.
Definition ledger20 : Cryptarchia Tree := force (header_at ledger13 20 6) at_20_computes.
Lemma sparse_20_computes : is_ok (header_at ledger0 20 6) = true.
Proof. vm_compute. reflexivity. Qed.
Definition sparse20 : Cryptarchia Tree := force (header_at ledger0 20 6) sparse_20_computes.
Lemma sparse_40_computes : is_ok (header_at sparse20 40 7) = true.
Proof. vm_compute. reflexivity. Qed.
Definition sparse40 : Cryptarchia Tree := force (header_at sparse20 40 7) sparse_40_computes.

Lemma sparse_60_computes : is_ok (header_at sparse20 60 7) = true.
Proof. vm_compute. reflexivity. Qed.
Definition sparse60 : Cryptarchia Tree := force (header_at sparse20 60 7) sparse_60_computes.

Lemma ledger0_epochs : epochs_ok (Id:=Z) eras ledger0.
Proof. exact (ch_epochs _ _ state0_chain). Qed.

Lemma epoch_20 : es_epoch (cl_epoch_state ledger20) = es_epoch (cl_epoch_state ledger13) + 1.
Proof. vm_compute. reflexivity. Qed.
Lemma sparse_epoch_20 : es_epoch (cl_epoch_state sparse20) = es_epoch (cl_epoch_state ledger0) + 1.
Proof. vm_compute. reflexivity. Qed.
Lemma sparse_epoch_40 : es_epoch (cl_epoch_state sparse40) = es_epoch (cl_epoch_state sparse20) + 1.
Proof. vm_compute. reflexivity. Qed.

Lemma sparse_epoch_60 : es_epoch (cl_epoch_state sparse60) = es_epoch (cl_epoch_state sparse20) + 2.
Proof. vm_compute. reflexivity. Qed.

Lemma header_epochs_witness : epochs_ok (Id:=Z) eras ledger13 ∧ cl_slot ledger13 = 13.
Proof.
  pose proof (header_epochs (T:=Tree) (R:=Service) (P:=Z) (Id:=Z) ledger0 13 5 [] sdp0 pow0 eras eras_wf ledger0_epochs) as Hc.
  assert (cryptarchia_apply_header (Id:=Z) ledger0 13 5 [] sdp0 pow0 eras = Ok ledger13) as Hr by exact (force_ok _ at_13_computes).
  rewrite Hr in Hc. destruct Hc as (_ & Hs & He & _). split; [exact He|exact Hs].
Defined.

Lemma sparse_new_20 : es_epoch (cl_epoch_state sparse20) ≠ es_epoch (cl_epoch_state ledger0).
Proof. rewrite sparse_epoch_20. lia. Qed.
Lemma sparse_new_40 : es_epoch (cl_epoch_state sparse40) ≠ es_epoch (cl_epoch_state sparse20).
Proof. rewrite sparse_epoch_40. lia. Qed.
Lemma sparse_new_60 : es_epoch (cl_epoch_state sparse60) ≠ es_epoch (cl_epoch_state sparse20).
Proof. rewrite sparse_epoch_60. lia. Qed.
Lemma new_20 : es_epoch (cl_epoch_state ledger20) ≠ es_epoch (cl_epoch_state ledger13).
Proof. rewrite epoch_20. lia. Qed.

(** The next epoch, and the one after it with no block in between. *)
Lemma stake_snapshot_frozen_witness : es_utxos (cl_epoch_state sparse40) = cl_utxos ledger0 ∧ es_utxos (cl_epoch_state sparse60) = cl_utxos sparse20.
Proof.
  pose proof (λ slot proof l2, stake_snapshot_frozen (T:=Tree) (R:=Service) (P:=Z) (Id:=Z) eras ledger0 20 6 [] sdp0 pow0 sparse20 sparse20 slot proof [] sdp0 pow0 l2
    eras_wf ledger0_epochs (force_ok _ sparse_20_computes) sparse_new_20 (ConsensusFacts.run_start _ _)) as Hf. split.
  - destruct (Hf 40 7 sparse40 (force_ok _ sparse_40_computes) sparse_new_40) as [Hu _]. rewrite sparse_epoch_40, Z.eqb_refl in Hu. exact Hu.
  - destruct (Hf 60 7 sparse60 (force_ok _ sparse_60_computes) sparse_new_60) as [Hu _]. rewrite sparse_epoch_60, (proj2 (Z.eqb_neq _ _)) in Hu by lia. exact Hu.
Defined.

Lemma snapshot_slot : nonce_snapshot (E:=LedgerError Z) eras (es_epoch (cl_epoch_state ledger13) + 1) = Ok 12.
Proof. vm_compute. reflexivity. Qed.
Lemma sparse_snapshot_slot : nonce_snapshot (E:=LedgerError Z) eras (es_epoch (cl_epoch_state sparse20) + 1) = Ok 32.
Proof. vm_compute. reflexivity. Qed.
Lemma sparse_slot : cl_slot sparse20 = 20.
Proof. vm_compute. reflexivity. Qed.

(** A block after the snapshot slot, no such block, and a skipped epoch. *)
Lemma nonce_snapshot_frozen_witness : es_nonce (cl_epoch_state ledger20) = cl_nonce ledger0 ∧
  es_nonce (cl_epoch_state sparse40) = cl_nonce sparse20 ∧ es_nonce (cl_epoch_state sparse60) = cl_nonce sparse20.
Proof.
  pose proof (λ slot proof l2, nonce_snapshot_frozen (T:=Tree) (R:=Service) (P:=Z) (Id:=Z) eras ledger0 32 20 6 [] sdp0 pow0 sparse20 sparse20 slot proof [] sdp0 pow0 l2
    eras_wf ledger0_epochs (force_ok _ sparse_20_computes) sparse_snapshot_slot (ConsensusFacts.run_start _ _)) as Hf. split_and!.
  - destruct (nonce_snapshot_frozen (T:=Tree) (R:=Service) (P:=Z) (Id:=Z) eras ledger0 12 13 5 [] sdp0 pow0 ledger13 ledger13 20 6 [] sdp0 pow0 ledger20
      eras_wf ledger0_epochs (force_ok _ at_13_computes) snapshot_slot (ConsensusFacts.run_start _ _) (force_ok _ at_20_computes) new_20) as [Hn _].
    apply (Hn epoch_20). unfold ledger0. rewrite state0_slot. lia.
  - destruct (Hf 40 7 sparse40 (force_ok _ sparse_40_computes) sparse_new_40) as (_ & Hn & _). apply (Hn sparse_epoch_40). rewrite sparse_slot. lia.
  - destruct (Hf 60 7 sparse60 (force_ok _ sparse_60_computes) sparse_new_60) as (_ & _ & Hn & _). apply Hn. rewrite sparse_epoch_60. lia.
Defined.

(** ** Rewards of the Blend service *)

Definition provider1 : ProviderId := replicate 32 x01.
Definition provider2 : ProviderId := replicate 32 x02.
Definition declared_by (p : ProviderId) (zk : Z) : Declaration := mkDeclaration BlendNetwork p 1 [] zk 0 0 None (mkNonce 0 0).
Definition declarations : Declarations := {[ replicate 32 x11 := declared_by provider1 10; replicate 32 x12 := declared_by provider2 20 ]}.
Definition epoch_state_at (epoch : Z) : EpochState Tree :=
  mkEpochState epoch 7 1000 (cl_utxos ledger0) 10000 1000 1000 {[BlendNetwork := declarations]}.
Definition activity1 : ActivityMetadata := Blend (mkActivityProof 0 signer (mkProofOfQuota 3 []) 4).
Definition service_params : ServiceParameters := mkServiceParameters 3 0.

Definition rewards0 := blend_new (T:=Tree) (V:=unit) (E:=RewardsError) rewards_params (epoch_state_at 0).
Lemma rewards0_computes : is_ok rewards0 = true.
Proof. vm_compute. reflexivity. Qed.
Definition rewards1 := blend_add_income (E:=RewardsError) (force rewards0 rewards0_computes) 100.
Lemma rewards1_computes : is_ok rewards1 = true.
Proof. vm_compute. reflexivity. Qed.
Definition rewards2 := blend_update_epoch (E:=RewardsError) (force rewards1 rewards1_computes) (epoch_state_at 0) (epoch_state_at 1)
  service_params rewards_params rewards_params.
Lemma rewards2_computes : is_ok rewards2 = true.
Proof. vm_compute. reflexivity. Qed.
Definition rewards3 := blend_update_active (force rewards2 rewards2_computes).1 provider1 activity1.
Lemma rewards3_computes : is_ok rewards3 = true.
Proof. vm_compute. reflexivity. Qed.
Definition rewards4 := blend_update_epoch (E:=RewardsError) (force rewards3 rewards3_computes) (epoch_state_at 1) (epoch_state_at 2)
  service_params rewards_params rewards_params.
Lemma rewards4_computes : is_ok rewards4 = true.
Proof. vm_compute. reflexivity. Qed.

Lemma epoch_state_declarations epoch : epoch_declarations_ok (epoch_state_at epoch).
Proof.
  intros st ds. cbn. rewrite lookup_singleton_Some. intros [_ <-] id1 d1 id2 d2.
  rewrite !lookup_insert_Some, ?lookup_singleton_Some, ?lookup_empty. unfold declared_by. naive_solver.
Qed.

#[local] Strategy expand [rewards0 rewards1 rewards2 rewards3 rewards4].

Notation run r := (blend_run (T:=Tree) (V:=unit) r).

Lemma run_epoch r collected paid n m r' : run r collected paid →
  blend_update_epoch (T:=Tree) (E:=RewardsError) r (epoch_state_at n) (epoch_state_at m) service_params rewards_params rewards_params = Ok r' →
  run r'.1 collected (paid + utxos_value r'.2).
Proof.
  destruct r' as [r' utxos]. intros Hr He. eapply blend_epoch; [exact Hr| |exact He]. apply epoch_state_declarations.
Qed.

Lemma rewards3_run : run (force rewards3 rewards3_computes) (0 + 100) (0 + utxos_value (force rewards2 rewards2_computes).2).
Proof.
  eapply blend_active; [|exact (force_ok rewards3 rewards3_computes)].
  apply (run_epoch (force rewards1 rewards1_computes) (0 + 100) 0 0 1 (force rewards2 rewards2_computes)); [|exact (force_ok rewards2 rewards2_computes)].
  eapply blend_income; [|lia|exact (force_ok rewards1 rewards1_computes)].
  eapply blend_start. exact (force_ok rewards0 rewards0_computes).
Qed.

(** Two epochs of the service: the first collects, the second pays. *)
Lemma blend_solvent_witness :
  utxos_value (force rewards2 rewards2_computes).2 + utxos_value (force rewards4 rewards4_computes).2 +
    rewards_income (force rewards4 rewards4_computes).1 <= 100.
Proof.
  pose proof (run_epoch _ _ _ 1 2 (force rewards4 rewards4_computes) rewards3_run (force_ok rewards4 rewards4_computes)) as Hrun.
  destruct (blend_solvent (T:=Tree) (V:=unit) _ _ _ Hrun) as [Hle _]. rewrite Z.add_0_l in Hle. exact Hle.
Defined.

Definition submitted (r : Service) : bool :=
  match r with WithTargetEpoch _ t _ _ => bool_decide (submitted_proofs t ≠ ∅) | WithoutTargetEpoch _ _ => false end.
Lemma rewards3_submitted : submitted (force rewards3 rewards3_computes) = true.
Proof. vm_compute. reflexivity. Qed.

Lemma blend_payout_witness : ∃ ts t cs ct utxos, force rewards3 rewards3_computes = WithTargetEpoch ts t cs ct ∧
  target_finalize (E:=RewardsError) t ts = Ok (target_tracker_new, utxos) ∧
  utxos_value utxos <= ts_epoch_income ts < utxos_value utxos + shares t.
Proof.
  pose proof (proj1 (blend_run_ok _ _ _ rewards3_run)) as Hok. pose proof rewards3_submitted as Hs.
  destruct (force rewards3 rewards3_computes) as [|ts t cs ct]; [discriminate|]. destruct Hok as [Ht _].
  apply bool_decide_eq_true in Hs. exists ts, t, cs, ct.
  destruct (blend_payout (E:=RewardsError) ts t Ht Hs) as (utxos & Hf & Hv & _). exists utxos. split; [reflexivity|]. split; [exact Hf|exact Hv].
Defined.

End LedgerWitness.
