(* ===== verification/Wallet.v ===== *)
(** * The wallet: wallet/src/lib.rs and wallet/src/voucher.rs

    A wallet follows the notes of its keys and the vouchers of its blocks without
    the ledger: it starts from the ledger state of one block, and from then on
    replays what each block did, as told by its transactions and its events. It
    keeps one state per block. *)

From S2P Require Import Prelude MerkleStore Mmr Codec Ops Channels Utxos ServiceNotes Inputs ChannelOps SignedTx SdpOps LedgerConfig ClaimOps TxVerification Leaders Pow Markets Cryptarchia Ledger.
Import MountainRange.

#[local] Open Scope Z_scope.

Module Wallet.
Import Canonical Bounded Ops Utxos Channels ServiceNotes Inputs ChannelOps SignedTx SdpOps LedgerConfig ClaimOps TxVerification Leaders Pow Markets Cryptarchia Ledger.

(** ** Known vouchers: wallet/src/voucher.rs *)

Record Vouchers (VoucherId : Type) := mkVouchers {
  v_vouchers : gmap Z VoucherId;
  v_voucher_nullifiers : gmap Z Z
}.

Arguments mkVouchers {VoucherId} _ _.
Arguments v_vouchers {VoucherId} _.
Arguments v_voucher_nullifiers {VoucherId} _.

Section Vouchers.
Context {VoucherId : Type}.
Implicit Types v : Vouchers VoucherId.

Definition vouchers_insert v (cm nf : Z) (id : VoucherId) : Vouchers VoucherId :=
  mkVouchers (<[cm := id]> (v_vouchers v)) (<[nf := cm]> (v_voucher_nullifiers v)).

Definition vouchers_get v (cm : Z) : option VoucherId := v_vouchers v !! cm.

Definition get_by_nullifier v (nf : Z) : option VoucherId :=
  cm ← v_voucher_nullifiers v !! nf; vouchers_get v cm.

Definition remove_by_nullifier v (nf : Z) : Vouchers VoucherId * option VoucherId :=
  match v_voucher_nullifiers v !! nf with
  | None => (v, None)
  | Some cm => (mkVouchers (delete cm (v_vouchers v)) (delete nf (v_voucher_nullifiers v)), v_vouchers v !! cm)
  end.

End Vouchers.

(** ** What a block means to a wallet *)

Inductive HeaderOp := Unlock (id : NoteId) | SdpReward (u : Utxo).

(** [From<&HeaderEvent> for HeaderOp]. *)
Definition header_op (e : HeaderEvent) : HeaderOp :=
  match e with
  | SdpNoteUnlocked note_id _ _ => Unlock note_id
  | SdpRewardDistributed _ utxo => SdpReward utxo
  end.

Inductive WalletOp :=
  | WalletTransfer (op : TransferOp)
  | WalletLock (id : NoteId)
  | WalletLeaderClaim (u : Utxo)
  | WalletClaimPoW (u : Utxo)
  | WalletDeposit (op : DepositOp)
  | WalletChannelTransfer (op : ChannelTransferOp)
  | WalletWithdraw (op : ChannelWithdrawOp).

(** [WalletTx] is its operations. *)
Record WalletBlock (Id : Type) := mkWalletBlock {
  wb_id : Id;
  wb_parent : Id;
  wb_epoch : Z;
  wb_voucher_cm : Z;
  wb_header_ops : list HeaderOp;
  wb_txs : list (list WalletOp)
}.

Arguments mkWalletBlock {Id} _ _ _ _ _ _.
Arguments wb_id {Id} _.
Arguments wb_parent {Id} _.
Arguments wb_epoch {Id} _.
Arguments wb_voucher_cm {Id} _.
Arguments wb_header_ops {Id} _.
Arguments wb_txs {Id} _.

(** [WalletBlock::spent_note_ids]. *)
Definition op_spent (op : WalletOp) : list NoteId :=
  match op with
  | WalletTransfer op => t_inputs op
  | WalletDeposit op => d_inputs op
  | WalletChannelTransfer op => ct_inputs op
  | WalletLock id => [id]
  | WalletWithdraw _ | WalletLeaderClaim _ | WalletClaimPoW _ => []
  end.

Definition spent_note_ids {Id} (b : WalletBlock Id) : gset NoteId := list_to_set (concat (wb_txs b) ≫= op_spent).

(** [WalletError]; the error of the transaction builder is [B], which the
    source keeps as its text. *)
Inductive WalletError (Id B : Type) :=
  | UnknownBlock (id : Id)
  | InsufficientFunds (available : Z)
  | WalletGasOverflow (e : GasOverflow)
  | WalletTxBuilder (e : B)
  | WalletBounded (e : BoundedError)
  | WalletInputs (e : InputsError)
  | WalletOutputs (e : OutputsError)
  | InvalidVoucherPath (e : MerklePathError)
  | VoucherMmrFull.

Arguments UnknownBlock {Id B} _.
Arguments InsufficientFunds {Id B} _.
Arguments WalletGasOverflow {Id B} _.
Arguments WalletTxBuilder {Id B} _.
Arguments WalletBounded {Id B} _.
Arguments WalletInputs {Id B} _.
Arguments WalletOutputs {Id B} _.
Arguments InvalidVoucherPath {Id B} _.
Arguments VoucherMmrFull {Id B}.

(** The events of the transactions, by transaction and by operation. *)
Notation OpEvents := (gmap Hash TxEventPayload).
Notation TxEvents := (gmap TxHash OpEvents).

(** [group_events]. *)
Definition group_event (acc : list HeaderEvent * TxEvents) (e : Event) : list HeaderEvent * TxEvents :=
  match e with
  | EventTx e =>
      (acc.1, <[te_tx_hash e := <[te_op_id e := te_payload e]> (default ∅ (acc.2 !! te_tx_hash e))]> acc.2)
  | EventHeader e => (acc.1 ++ [e], acc.2)
  end.

Definition group_events (events : list Event) : list HeaderEvent * TxEvents := foldl group_event ([], ∅) events.

Section Blocks.
Context `{Poseidon2Crate} `{Blake2Crate} `{Ed25519Crate} `{MultiaddrCrate}.

(** [op_id_ref]. *)
Definition op_id_ref {E : Type} (op : Op) : result E (option Hash) :=
  match op with
  | LeaderClaim o => id ← op_id_of leader_claim_codec o; Ok (Some id)
  | ChannelWithdraw o => id ← op_id_of channel_withdraw_codec o; Ok (Some id)
  | ChannelDeposit o => id ← op_id_of deposit_codec o; Ok (Some id)
  | Transfer o => id ← op_id_of transfer_codec o; Ok (Some id)
  | _ => Ok None
  end.

(** [transform_op]. *)
Definition transform_op {E : Type} (op : Op) (event : option TxEventPayload) : result E (option WalletOp) :=
  match op with
  | Transfer op => Ok (Some (WalletTransfer op))
  | ChannelDeposit op => Ok (Some (WalletDeposit op))
  | ChannelTransfer op => Ok (Some (WalletChannelTransfer op))
  | ChannelWithdraw op => Ok (Some (WalletWithdraw op))
  | SDPDeclare op => Ok (Some (WalletLock (dm_service_note_id op)))
  | LeaderClaim _ =>
      event ← expect event;
      match event with
      | LeaderRewardClaimed _ utxo => Ok (Some (WalletLeaderClaim utxo))
      | DepositEvent _ _ _ _ => Fault Panic
      | PoWRewardClaimed _ utxo => Ok (Some (WalletClaimPoW utxo))
      end
  | ClaimPowReward _ => Ok None
  | ChannelInscribe _ | ChannelConfig _ | SDPWithdraw _ | SDPActive _ => Ok None
  end.

(** The closures of [transform_txs]: each operation takes its event out. *)
Fixpoint transform_ops {E : Type} (events_by_op : OpEvents) (ops : list Op) : result E (list WalletOp) :=
  match ops with
  | [] => Ok []
  | op :: ops =>
      id ← op_id_ref op;
      let event := id ≫= λ id, events_by_op !! id in
      let events_by_op := match id with Some id => delete id events_by_op | None => events_by_op end in
      wallet_op ← transform_op op event;
      rest ← transform_ops events_by_op ops;
      Ok (match wallet_op with Some w => w :: rest | None => rest end)
  end.

Fixpoint transform_txs {E : Type} (events_by_tx : TxEvents) (txs : list SignedOps) : result E (list (list WalletOp)) :=
  match txs with
  | [] => Ok []
  | tx :: txs =>
      tx_hash ← tx_hasher tx;
      ops ← transform_ops (default ∅ (events_by_tx !! tx_hash)) (to_ops (op_refs tx));
      rest ← transform_txs (delete tx_hash events_by_tx) txs;
      Ok (ops :: rest)
  end.

(** [WalletBlock::from_block], from the parts of the block. *)
Definition from_block {E Id : Type} (id parent : Id) (voucher_cm : Z) (txs : list SignedOps) (epoch : Z) (events : list Event)
    : result E (WalletBlock Id) :=
  let '(header_events, tx_events) := group_events events in
  txs ← transform_txs tx_events txs;
  Ok (mkWalletBlock id parent epoch voucher_cm (header_op <$> header_events) txs).

End Blocks.

(** ** The notes of a wallet *)

(** The maps [apply_block] updates. *)
Record Notes := mkNotes {
  utxos : gmap NoteId Utxo;
  pk_index : gmap ZkPublicKey (gset NoteId);
  w_service_notes : gset NoteId;
  w_channel_notes : gset NoteId
}.

(** [VoucherPaths]. *)
Notation VoucherPaths := (gmap Z (MerklePath Z)).

(** [WalletState]: the notes, then the vouchers. *)
Record WalletState := mkWalletState {
  notes : Notes;
  w_epoch : Z;
  w_vouchers : list (Root Z);
  voucher_paths : VoucherPaths;
  voucher_paths_snapshot : VoucherPaths
}.

Definition index_add (index : gmap ZkPublicKey (gset NoteId)) (pk : ZkPublicKey) (id : NoteId) : gmap ZkPublicKey (gset NoteId) :=
  <[pk := {[id]} ∪ default ∅ (index !! pk)]> index.

Definition no_notes : Notes := mkNotes ∅ ∅ ∅ ∅.

Section State.
Context {KeyId : Type} `{Poseidon2Crate} `{Blake2Crate} `{Ed25519Crate} `{MultiaddrCrate}.
Implicit Types (keys : gmap ZkPublicKey KeyId) (n : Notes) (u : Utxo).

Definition mark_channel n (id : NoteId) : Notes := mkNotes (utxos n) (pk_index n) (w_service_notes n) ({[id]} ∪ w_channel_notes n).
Definition unmark_channel n (id : NoteId) : Notes := mkNotes (utxos n) (pk_index n) (w_service_notes n) (w_channel_notes n ∖ {[id]}).
Definition mark_service n (id : NoteId) : Notes := mkNotes (utxos n) (pk_index n) ({[id]} ∪ w_service_notes n) (w_channel_notes n).
Definition unmark_service n (id : NoteId) : Notes := mkNotes (utxos n) (pk_index n) (w_service_notes n ∖ {[id]}) (w_channel_notes n).

(** [insert_utxo_if_owned]: the notes, and whether it was inserted. *)
Definition insert_utxo_if_owned keys n u : Notes * bool :=
  if bool_decide (is_Some (keys !! pk (note u))) then
    (mkNotes (<[utxo_id u := u]> (utxos n)) (index_add (pk_index n) (pk (note u)) (utxo_id u))
       (w_service_notes n) (w_channel_notes n), true)
  else (n, false).

(** [remove_spent_utxo]. *)
Definition remove_spent_utxo n (spent_id : NoteId) : Notes :=
  match utxos n !! spent_id with
  | None => n
  | Some u =>
      let index :=
        match pk_index n !! pk (note u) with
        | None => pk_index n
        | Some note_set =>
            let updated_set := note_set ∖ {[spent_id]} in
            if bool_decide (updated_set = ∅) then delete (pk (note u)) (pk_index n)
            else <[pk (note u) := updated_set]> (pk_index n)
        end in
      mkNotes (delete spent_id (utxos n)) index (w_service_notes n) (w_channel_notes n)
  end.

(** The notes an operation creates: for a key of the wallet, and for a channel. *)
Definition insert_note keys n u : Notes := (insert_utxo_if_owned keys n u).1.
Definition insert_channel_note keys n u : Notes :=
  let '(n, inserted) := insert_utxo_if_owned keys n u in if inserted then mark_channel n (utxo_id u) else n.

Definition apply_header_op keys n (op : HeaderOp) : Notes :=
  match op with
  | Unlock id => unmark_service n id
  | SdpReward u => insert_note keys n u
  end.

(** The loop of a deposit, from [output_index]. *)
Fixpoint deposit_inputs {E : Type} keys (op : DepositOp) (output_index : nat) (inputs : list NoteId) n : result E Notes :=
  match inputs with
  | [] => Ok n
  | input :: inputs =>
      let old := utxos n !! input in
      let n := remove_spent_utxo n input in
      n ← match old with
          | None => Ok n
          | Some old =>
              id ← op_id_of deposit_codec op;
              Ok (insert_channel_note keys n (mkUtxo id (Z.of_nat output_index) (note old)))
          end;
      deposit_inputs keys op (S output_index) inputs n
  end.

(** One operation of [apply_block]. *)
Definition apply_wallet_op {E : Type} keys n (op : WalletOp) : result E Notes :=
  match op with
  | WalletTransfer op =>
      let n := foldl remove_spent_utxo n (t_inputs op) in
      id ← op_id_of transfer_codec op;
      Ok (foldl (insert_note keys) n (utxos_of id (t_outputs op)))
  | WalletDeposit op => deposit_inputs keys op 0 (d_inputs op) n
  | WalletChannelTransfer op =>
      let n := foldl (λ n id, unmark_channel (remove_spent_utxo n id) id) n (ct_inputs op) in
      id ← op_id_of channel_transfer_codec op;
      Ok (foldl (insert_channel_note keys) n (utxos_of id (ct_outputs op)))
  | WalletWithdraw op => Ok (foldl unmark_channel n (w_inputs op))
  | WalletLock id => Ok (if bool_decide (is_Some (utxos n !! id)) then mark_service n id else n)
  | WalletLeaderClaim u | WalletClaimPoW u => Ok (insert_note keys n u)
  end.

Fixpoint apply_wallet_ops {E : Type} keys n (ops : list WalletOp) : result E Notes :=
  match ops with
  | [] => Ok n
  | op :: ops => n ← apply_wallet_op keys n op; apply_wallet_ops keys n ops
  end.

Fixpoint apply_wallet_txs {E : Type} keys n (txs : list (list WalletOp)) : result E Notes :=
  match txs with
  | [] => Ok n
  | ops :: txs => n ← apply_wallet_ops keys n ops; apply_wallet_txs keys n txs
  end.

(** The notes after a block: the header first, then the transactions. *)
Definition apply_notes {E Id : Type} keys n (b : WalletBlock Id) : result E Notes :=
  apply_wallet_txs keys (foldl (apply_header_op keys) n (wb_header_ops b)) (wb_txs b).

(** ** Vouchers *)

Context {VoucherId Id B : Type}.
Implicit Types (known : Vouchers VoucherId) (w : WalletState) (b : WalletBlock Id).

Definition is_known known (cm : Z) : bool := bool_decide (is_Some (vouchers_get known cm)).

(** [WalletState::apply_voucher]: the range, the tracked paths, and their
    snapshot. The paths are visited in the order of the map; every path is
    updated on its own, so the order decides at most which error is returned. *)
Definition apply_voucher w known b : result (WalletError Id B) (list (Root Z) * VoucherPaths * VoucherPaths) :=
  let snapshot := if w_epoch w <? wb_epoch b then voucher_paths w else voucher_paths_snapshot w in
  let tracked := filter (λ p : Z * MerklePath Z, is_known known p.1) (map_to_list (voucher_paths w)) in
  '(vouchers, paths, new_path) ←
    map_err (λ e, match e with MmrFull => VoucherMmrFull | InvalidTrackedPath e => InvalidVoucherPath e end)
      (push_with_paths ACCEPTABLE_MAX_HEIGHT (w_vouchers w) (wb_voucher_cm b) tracked.*2);
  let voucher_paths := collect_map (zip tracked.*1 paths) in
  let voucher_paths := if is_known known (wb_voucher_cm b) then <[wb_voucher_cm b := new_path]> voucher_paths else voucher_paths in
  Ok (vouchers, voucher_paths, snapshot).

(** [WalletState::apply_block]. *)
Definition state_apply_block w keys known b : result (WalletError Id B) WalletState :=
  notes ← apply_notes keys (notes w) b;
  '(vouchers, voucher_paths, voucher_paths_snapshot) ← apply_voucher w known b;
  Ok (mkWalletState notes (wb_epoch b) vouchers voucher_paths voucher_paths_snapshot).

(** ** Reading *)

(** [WalletState::utxos_owned_by_pks]. *)
Definition utxos_owned_by_pks {E : Type} n (pks : list ZkPublicKey) : result E (list Utxo) :=
  mapM (λ id, expect (utxos n !! id)) (pks ≫= λ pk, elements (default ∅ (pk_index n !! pk))).

(** [WalletBalance] and [WalletState::balance]. *)
Record WalletBalance := mkBalance { b_balance : Z; b_notes : gmap NoteId Z }.

Fixpoint balance_loop {E : Type} n (balance : WalletBalance) (ids : list NoteId) : result E WalletBalance :=
  match ids with
  | [] => Ok balance
  | id :: ids =>
      balance ← (if bool_decide (id ∈ w_channel_notes n) then Ok balance
                 else
                   u ← expect (utxos n !! id);
                   total ← strict_add u64_max (b_balance balance) (value (note u));
                   Ok (mkBalance total (<[id := value (note u)]> (b_notes balance))));
      balance_loop n balance ids
  end.

Definition state_balance {E : Type} n (pk : ZkPublicKey) : result E (option WalletBalance) :=
  match pk_index n !! pk with
  | None => Ok None
  | Some ids => balance ← balance_loop n (mkBalance 0 ∅) (elements ids); Ok (Some balance)
  end.

End State.

(** ** From a ledger state *)

Section FromLedger.
Context {T R KeyId : Type} `{!KeyedStoreOps T NoteId Utxo} `{Poseidon2Crate}.
Implicit Types (keys : gmap ZkPublicKey KeyId) (s : LedgerState T R).

(** The body of the loop of [WalletState::from_ledger]. *)
Definition add_ledger_utxo keys (service_notes : ServiceNotes) (cs : Channels) (n : Notes) (u : Utxo) : Notes :=
  if bool_decide (is_Some (keys !! pk (note u))) then
    let id := utxo_id u in
    mkNotes (<[id := u]> (utxos n)) (index_add (pk_index n) (pk (note u)) id)
      (if sn_contains service_notes id then {[id]} ∪ w_service_notes n else w_service_notes n)
      (if is_channel_note cs id then {[id]} ∪ w_channel_notes n else w_channel_notes n)
  else n.

Definition notes_from_ledger keys s : Notes :=
  foldl (add_ledger_utxo keys (sdp_service_notes (m_sdp (mantle_ledger s))) (m_channels (mantle_ledger s))) no_notes
    (ks_items (cl_utxos (cryptarchia_ledger s))).

(** [WalletState::from_ledger]. *)
Definition from_ledger keys s : WalletState :=
  mkWalletState (notes_from_ledger keys s) (es_epoch (cl_epoch_state (cryptarchia_ledger s)))
    (vouchers (m_leaders (mantle_ledger s))) ∅ ∅.

End FromLedger.

(** ** The wallet *)

Record WalletStore (KeyId VoucherId Id : Type) `{Countable Id} := mkWallet {
  known_keys : gmap ZkPublicKey KeyId;
  known_vouchers : Vouchers VoucherId;
  wallet_states : gmap Id WalletState
}.

Arguments mkWallet {KeyId VoucherId Id _ _} _ _ _.
Arguments known_keys {KeyId VoucherId Id _ _} _.
Arguments known_vouchers {KeyId VoucherId Id _ _} _.
Arguments wallet_states {KeyId VoucherId Id _ _} _.

Section Wallet.
Context {T R KeyId VoucherId Id B : Type} `{Countable Id} `{!KeyedStoreOps T NoteId Utxo}.
Context `{Poseidon2Crate} `{Blake2Crate} `{Ed25519Crate} `{MultiaddrCrate}.
Implicit Types (w : WalletStore KeyId VoucherId Id) (b : WalletBlock Id).

(** [Wallet::from_lib_ledger_state] and [from_lib_wallet_state]. *)
Definition from_lib_wallet_state (keys : list (ZkPublicKey * KeyId)) (known : Vouchers VoucherId) (lib : Id)
    (state : WalletState) : WalletStore KeyId VoucherId Id :=
  mkWallet (collect_map keys) known {[lib := state]}.

Definition from_lib_ledger_state (keys : list (ZkPublicKey * KeyId)) (known : Vouchers VoucherId) (lib : Id)
    (ledger : LedgerState T R) : WalletStore KeyId VoucherId Id :=
  mkWallet (collect_map keys) known {[lib := from_ledger (collect_map keys) ledger]}.

(** [Wallet::add_known_voucher]. *)
Definition add_known_voucher w (cm nf : Z) (id : VoucherId) : WalletStore KeyId VoucherId Id :=
  mkWallet (known_keys w) (vouchers_insert (known_vouchers w) cm nf id) (wallet_states w).

(** [Wallet::wallet_state_at]. *)
Definition wallet_state_at w (tip : Id) : result (WalletError Id B) WalletState :=
  ok_or (wallet_states w !! tip) (UnknownBlock tip).

Definition has_processed_block w (block_id : Id) : bool := bool_decide (is_Some (wallet_states w !! block_id)).

(** [Wallet::apply_block]. *)
Definition wallet_apply_block w b : result (WalletError Id B) (WalletStore KeyId VoucherId Id) :=
  if bool_decide (is_Some (wallet_states w !! wb_id b)) then Ok w
  else
    parent ← wallet_state_at w (wb_parent b);
    state ← state_apply_block parent (known_keys w) (known_vouchers w) b;
    Ok (mkWallet (known_keys w) (known_vouchers w) (<[wb_id b := state]> (wallet_states w))).

(** [Wallet::voucher_path_snapshot]. *)
Definition voucher_path_snapshot w (tip : Id) (cm : Z) : result (WalletError Id B) (option (MerklePath Z)) :=
  state ← wallet_state_at w tip;
  Ok (voucher_paths_snapshot state !! cm).

(** [Wallet::balance]. *)
Definition wallet_balance w (tip : Id) (pk : ZkPublicKey) : result (WalletError Id B) (option WalletBalance) :=
  state ← wallet_state_at w tip;
  state_balance (notes state) pk.

(** [Wallet::prune_states]. *)
Definition prune_states w (pruned_blocks : list Id) : WalletStore KeyId VoucherId Id :=
  mkWallet (known_keys w) (known_vouchers w) (foldl (λ states id, delete id states) (wallet_states w) pruned_blocks).

(** [Wallet::prune_vouchers]. *)
Definition prune_vouchers w (nullifiers : list Z) : WalletStore KeyId VoucherId Id :=
  mkWallet (known_keys w) (foldl (λ known nf, (remove_by_nullifier known nf).1) (known_vouchers w) nullifiers) (wallet_states w).

End Wallet.

End Wallet.
