(* ===== verification/WalletFacts.v ===== *)
(** * Notes of a wallet

    What it means for the notes of a wallet to follow a set of unspent notes, of
    which some are in services and some in channels, and that each step of the
    wallet follows the matching step on that set. *)

From S2P Require Import Prelude MerkleStore Mmr Codec CodecLaws Ops OpsCodec Utxos Channels ServiceNotes Inputs ChannelOps SignedTx SdpOps LedgerConfig ClaimOps TxVerification NoteFacts Leaders Pow Markets Cryptarchia Ledger LedgerInvariant Wallet.
Import MountainRange.

#[local] Open Scope Z_scope.

Module WalletFacts.
Import Canonical Ops OpsCodec Utxos Channels ServiceNotes Inputs ChannelOps SignedTx SdpOps LedgerConfig ClaimOps TxVerification NoteFacts Leaders Pow Markets Cryptarchia Ledger LedgerInvariant Wallet.

Section Follows.
Context {KeyId : Type} `{Poseidon2Crate} `{Blake2Crate} `{Ed25519Crate} `{MultiaddrCrate}.
Context (keys : gmap ZkPublicKey KeyId).
Implicit Types (n : Notes) (u : Utxo) (id : NoteId) (l : list Utxo) (U : NoteId → Utxo → Prop) (S C : NoteId → Prop).

Definition owned u : Prop := is_Some (keys !! pk (note u)).

(** The notes of the wallet are those of [U] its keys own; the index has the keys
    with notes; the marks are those of [S] and [C]. *)
Record follows U S C n : Prop := {
  fo_utxos : ∀ id u, utxos n !! id = Some u ↔ U id u ∧ owned u;
  fo_index : ∀ p id, id ∈ default ∅ (pk_index n !! p) ↔ ∃ u, utxos n !! id = Some u ∧ pk (note u) = p;
  fo_nonempty : ∀ p ids, pk_index n !! p = Some ids → ids ≠ ∅;
  fo_service : ∀ id, id ∈ w_service_notes n ↔ S id ∧ is_Some (utxos n !! id);
  fo_channel : ∀ id, id ∈ w_channel_notes n ↔ C id ∧ is_Some (utxos n !! id)
}.

Lemma follows_ext U S C U' S' C' n : follows U S C n → (∀ id u, U id u ↔ U' id u) → (∀ id, S id ↔ S' id) → (∀ id, C id ↔ C' id) →
  follows U' S' C' n.
Proof.
  intros [Hu Hi He Hs Hc] HU HS HC. split; [|done|done|..].
  - intros id u. by rewrite Hu, HU.
  - intros id. by rewrite Hs, HS.
  - intros id. by rewrite Hc, HC.
Qed.

(** The maps of the wallet are determined by what it follows. *)
Lemma follows_unique U S C n n' : follows U S C n → follows U S C n' → n = n'.
Proof.
  intros [Hu Hi He Hs Hc] [Hu' Hi' He' Hs' Hc']. assert (utxos n = utxos n') as Heq.
  { apply map_eq. intros id. apply option_eq. intros u. by rewrite Hu, Hu'. }
  destruct n as [us ix sv ch], n' as [us' ix' sv' ch']. cbn in *. subst us'. f_equal.
  - apply map_eq. intros p. assert (default ∅ (ix !! p) = default ∅ (ix' !! p)) as Hd.
    { apply set_eq. intros id. by rewrite Hi, Hi'. }
    destruct (ix !! p) as [a|] eqn:Ha, (ix' !! p) as [b|] eqn:Hb; cbn in Hd; [by rewrite Hd| | |done].
    + by destruct (He _ _ Ha).
    + by destruct (He' _ _ Hb).
  - apply set_eq. intros id. by rewrite Hs, Hs'.
  - apply set_eq. intros id. by rewrite Hc, Hc'.
Qed.

Lemma follows_empty U S C : (∀ id u, ¬ U id u) → follows U S C no_notes.
Proof.
  intros HU. split; cbn.
  - intros id u. rewrite lookup_empty. naive_solver.
  - intros p id. rewrite lookup_empty. setoid_rewrite lookup_empty. set_solver.
  - intros p ids. by rewrite lookup_empty.
  - intros id. rewrite lookup_empty. split; [set_solver|]. by intros [_ [? ?]].
  - intros id. rewrite lookup_empty. split; [set_solver|]. by intros [_ [? ?]].
Qed.

(** ** Single notes *)

(** The index after a note is added or removed. *)
Lemma index_add_spec n u : (∀ p id, id ∈ default ∅ (pk_index n !! p) ↔ ∃ u, utxos n !! id = Some u ∧ pk (note u) = p) →
  utxos n !! utxo_id u = None → ∀ p id,
  id ∈ default ∅ (index_add (pk_index n) (pk (note u)) (utxo_id u) !! p) ↔
    ∃ u', <[utxo_id u := u]> (utxos n) !! id = Some u' ∧ pk (note u') = p.
Proof.
  intros Hi Hn p id. unfold index_add. setoid_rewrite lookup_insert_Some.
  destruct (decide (p = pk (note u))) as [->|Hne].
  - rewrite lookup_insert_eq. cbn. rewrite elem_of_union, elem_of_singleton, Hi. split.
    + intros [->|(u' & Hu' & Hp)]; [exists u; auto|]. exists u'. split; [|done]. right. split; [|done]. congruence.
    + intros (u' & [[<- _]|[_ ?]] & ?); [by left|right; eauto].
  - rewrite lookup_insert_ne by done. rewrite Hi. split.
    + intros (u' & Hu' & Hp). exists u'. split; [|done]. right. split; [congruence|done].
    + intros (u' & [[<- <-]|[_ ?]] & ?); [congruence|eauto].
Qed.

Lemma follows_add U S C n u sv ch : follows U S C n → (∀ u', ¬ U (utxo_id u) u') → owned u →
  (∀ id, id ∈ sv ↔ S id ∧ is_Some (<[utxo_id u := u]> (utxos n) !! id)) →
  (∀ id, id ∈ ch ↔ C id ∧ is_Some (<[utxo_id u := u]> (utxos n) !! id)) →
  follows (λ id u', (u' = u ∧ id = utxo_id u) ∨ U id u') S C
    (mkNotes (<[utxo_id u := u]> (utxos n)) (index_add (pk_index n) (pk (note u)) (utxo_id u)) sv ch).
Proof.
  intros [Hu Hi He Hs Hc] Hf Ho Hsv Hch. assert (utxos n !! utxo_id u = None) as Hn.
  { apply eq_None_not_Some. intros [u' [? _]%Hu]. by eapply Hf. }
  split; cbn [utxos pk_index w_service_notes w_channel_notes]; [| |  |done|done].
  - intros id u'. rewrite lookup_insert_Some, Hu. split.
    + intros [[<- <-]|[_ [? ?]]]; [split; [left|]; done|split; [right|]; done].
    + intros [[[-> ->]|HU] Ho']; [by left|right]. split; [|done]. intros <-. by eapply Hf.
  - by apply index_add_spec.
  - intros p ids. unfold index_add. intros [[_ <-]|[_ ?]]%lookup_insert_Some; [set_solver|by eapply He].
Qed.

Lemma follows_insert U S C n u : follows U S C n → (∀ u', ¬ U (utxo_id u) u') → ¬ S (utxo_id u) → ¬ C (utxo_id u) →
  follows (λ id u', (u' = u ∧ id = utxo_id u) ∨ U id u') S C (insert_note keys n u).
Proof.
  intros Hf HU HS HC. unfold insert_note, insert_utxo_if_owned. case_bool_decide as Ho; cbn [fst].
  - pose proof Hf as [_ _ _ Hs Hc]. apply follows_add; [done..| |]; intros id; rewrite ?Hs, ?Hc, lookup_insert_is_Some'; split; try tauto.
    + intros [? [<-|?]]; [done|tauto].
    + intros [? [<-|?]]; [done|tauto].
  - destruct Hf as [Hu Hi He Hs Hc]. split; [|done..]. intros id u'. rewrite Hu. split; [tauto|].
    intros [[[-> _]|?] Ho']; [by destruct Ho|done].
Qed.

Lemma follows_insert_channel U S C n u : follows U S C n → (∀ u', ¬ U (utxo_id u) u') → ¬ S (utxo_id u) →
  follows (λ id u', (u' = u ∧ id = utxo_id u) ∨ U id u') S (λ id, id = utxo_id u ∨ C id) (insert_channel_note keys n u).
Proof.
  intros Hf HU HS. unfold insert_channel_note, insert_utxo_if_owned. case_bool_decide as Ho.
  - pose proof Hf as [Hu _ _ Hs Hc]. assert (utxos n !! utxo_id u = None) as Hn.
    { apply eq_None_not_Some. intros [u' [? _]%Hu]. by eapply HU. }
    assert (follows U S (λ id, id = utxo_id u ∨ C id) n) as Hf'.
    { destruct Hf as [? ? ? ? _]. split; [done..|]. intros id. rewrite Hc. split; [tauto|]. intros [[->|?] Hx]; [|done].
      rewrite Hn in Hx. by destruct Hx. }
    unfold mark_channel. cbn. apply follows_add; [done..| |]; intros id.
    + rewrite Hs, lookup_insert_is_Some'. split; [tauto|]. intros [? [<-|?]]; [done|tauto].
    + rewrite elem_of_union, elem_of_singleton, Hc, lookup_insert_is_Some'. split; [|intuition congruence].
      intros [->|[? ?]]; [split; left; done|tauto].
  - destruct Hf as [Hu Hi He Hs Hc]. split; [|done..|].
    + intros id u'. rewrite Hu. split; [tauto|]. intros [[[-> _]|?] Ho']; [by destruct Ho|done].
    + intros id. rewrite Hc. split; [tauto|]. intros [[->|?] [u' Hx]]; [|split; [done|by exists u']].
      apply Hu in Hx as [? _]. by destruct (HU u').
Qed.

Lemma follows_remove U S C n id : follows U S C n → ¬ S id → ¬ C id →
  follows (λ id' u, id' ≠ id ∧ U id' u) S C (remove_spent_utxo n id).
Proof.
  intros Hf HS HC. pose proof Hf as [Hu Hi He Hs Hc]. unfold remove_spent_utxo. destruct (utxos n !! id) as [u|] eqn:Hid.
  2:{ split; [|done..]. intros id' u. rewrite Hu. split; [|tauto]. intros [? ?]. split; [|done]. split; [|done]. intros ->.
      assert (utxos n !! id = Some u) as Hx by (by apply Hu). congruence. }
  assert (∀ id', is_Some (delete id (utxos n) !! id') ↔ id' ≠ id ∧ is_Some (utxos n !! id')) as Hdel.
  { intros id'. unfold is_Some. setoid_rewrite lookup_delete_Some. naive_solver. }
  split; cbn [utxos pk_index w_service_notes w_channel_notes].
  - intros id' u'. rewrite lookup_delete_Some, Hu. naive_solver.
  - intros p id'. setoid_rewrite lookup_delete_Some. destruct (pk_index n !! pk (note u)) as [set|] eqn:Hset.
    2:{ exfalso. assert (id ∈ default ∅ (pk_index n !! pk (note u))) as Hx by (apply Hi; eauto). rewrite Hset in Hx. set_solver. }
    assert (∀ x, x ∈ default ∅ ((if bool_decide (set ∖ {[id]} = ∅) then delete (pk (note u)) (pk_index n)
      else <[pk (note u) := set ∖ {[id]}]> (pk_index n)) !! p) ↔ x ∈ default ∅ (pk_index n !! p) ∧ x ≠ id) as ->.
    { intros x. destruct (decide (p = pk (note u))) as [->|Hp].
      - rewrite Hset. cbn. case_bool_decide as Hemp; [rewrite lookup_delete_eq|rewrite lookup_insert_eq]; cbn; set_solver.
      - case_bool_decide; [rewrite lookup_delete_ne|rewrite lookup_insert_ne]; try done; (split; [|tauto]); intros Hx; (split; [done|]);
          intros ->; apply Hi in Hx as (u' & ? & ?); congruence. }
    rewrite Hi. naive_solver.
  - intros p ids. destruct (pk_index n !! pk (note u)) as [set|] eqn:Hset; [|apply He]. case_bool_decide as Hemp.
    + intros [_ ?]%lookup_delete_Some. by eapply He.
    + intros [[_ <-]|[_ ?]]%lookup_insert_Some; [done|by eapply He].
  - intros id'. rewrite Hs, Hdel. split; [|tauto]. intros [? ?]. split; [done|]. split; [congruence|done].
  - intros id'. rewrite Hc, Hdel. split; [|tauto]. intros [? ?]. split; [done|]. split; [congruence|done].
Qed.

(** ** Marks *)

Lemma follows_unmark_channel U S C n id : follows U S C n → follows U S (λ id', id' ≠ id ∧ C id') (unmark_channel n id).
Proof. intros [Hu Hi He Hs Hc]. split; [done..|]. intros id'. cbn. rewrite elem_of_difference, Hc. set_solver. Qed.

Lemma follows_unmark_service U S C n id : follows U S C n → follows U (λ id', id' ≠ id ∧ S id') C (unmark_service n id).
Proof. intros [Hu Hi He Hs Hc]. split; [done..| |done]. intros id'. cbn. rewrite elem_of_difference, Hs. set_solver. Qed.

Lemma follows_lock U S C n id : follows U S C n →
  follows U (λ id', id' = id ∨ S id') C (if bool_decide (is_Some (utxos n !! id)) then mark_service n id else n).
Proof.
  intros [Hu Hi He Hs Hc]. case_bool_decide as Hid.
  - split; [done..| |done]. intros id'. cbn. rewrite elem_of_union, elem_of_singleton, Hs. intuition congruence.
  - split; [done..| |done]. intros id'. rewrite Hs. split; [tauto|]. intros [[->|?] ?]; done.
Qed.

(** ** Lists of notes *)

Lemma follows_remove_all U S C inputs : ∀ n, follows U S C n → (∀ i, i ∈ inputs → ¬ S i ∧ ¬ C i) →
  follows (λ id u, id ∉ inputs ∧ U id u) S C (foldl remove_spent_utxo n inputs).
Proof.
  revert U. induction inputs as [|i inputs IH]; intros U n Hf Hin; cbn [foldl].
  - eapply follows_ext; [done|..]; [|done..]. intros id u. split; [|tauto]. split; [apply not_elem_of_nil|done].
  - destruct (Hin i) as [? ?]; [by left|]. eapply follows_ext; [apply IH; [by apply follows_remove|]|..]; [|intros id u; cbn|done..].
    + intros j Hj. apply Hin. by right.
    + rewrite not_elem_of_cons. tauto.
Qed.

Lemma follows_unmark_all U S C inputs : ∀ n, follows U S C n →
  follows U S (λ id, id ∉ inputs ∧ C id) (foldl unmark_channel n inputs).
Proof.
  revert C. induction inputs as [|i inputs IH]; intros C n Hf; cbn [foldl].
  - eapply follows_ext; [done|..]; [done..|]. intros id. split; [|tauto]. split; [apply not_elem_of_nil|done].
  - eapply follows_ext; [apply IH, follows_unmark_channel, Hf|..]; [done..|]. intros id. cbn. rewrite not_elem_of_cons. tauto.
Qed.

Lemma follows_release U S C inputs : ∀ n, follows U S C n → (∀ i, i ∈ inputs → ¬ S i) →
  follows (λ id u, id ∉ inputs ∧ U id u) S (λ id, id ∉ inputs ∧ C id)
    (foldl (λ n id, unmark_channel (remove_spent_utxo n id) id) n inputs).
Proof.
  revert U C. induction inputs as [|i inputs IH]; intros U C n Hf Hin; cbn [foldl].
  - eapply follows_ext; [done|..]; [|done|]; intros; (split; [|tauto]); (split; [apply not_elem_of_nil|done]).
  - eapply follows_ext; [apply IH|..].
    + eapply follows_ext with (C:=λ id, id ≠ i ∧ C id) (C':=λ id, id ≠ i ∧ C id); [|reflexivity..|reflexivity].
      assert (∀ m, remove_spent_utxo (unmark_channel m i) i = unmark_channel (remove_spent_utxo m i) i) as Hcomm.
      { intros m. unfold remove_spent_utxo. cbn. by destruct (utxos m !! i). }
      rewrite <- Hcomm. apply follows_remove; [by apply follows_unmark_channel|apply Hin; by left|]. cbn. tauto.
    + intros j Hj. apply Hin. by right.
    + intros id u. cbn. rewrite not_elem_of_cons. tauto.
    + done.
    + intros id. cbn. rewrite not_elem_of_cons. tauto.
Qed.

(** The notes of [l] are new. *)
Definition fresh_for U S C l : Prop :=
  NoDup (utxo_id <$> l) ∧ ∀ u, u ∈ l → (∀ u', ¬ U (utxo_id u) u') ∧ ¬ S (utxo_id u) ∧ ¬ C (utxo_id u).

Lemma fresh_for_cons U S C u l : fresh_for U S C (u :: l) →
  (∀ u', ¬ U (utxo_id u) u') ∧ ¬ S (utxo_id u) ∧ ¬ C (utxo_id u) ∧
  fresh_for (λ id u', (u' = u ∧ id = utxo_id u) ∨ U id u') S C l ∧
  fresh_for (λ id u', (u' = u ∧ id = utxo_id u) ∨ U id u') S (λ id, id = utxo_id u ∨ C id) l.
Proof.
  intros [[Hu Hnd]%NoDup_cons Hin]. destruct (Hin u) as (? & ? & ?); [by left|]. split_and!; [done..| |].
  all: split; [done|]; intros u' Hu'; destruct (Hin u') as (HU & HS & HC); [by right|].
  all: assert (utxo_id u' ≠ utxo_id u) by (intros Heq; apply Hu; rewrite <- Heq; apply list_elem_of_fmap; eauto).
  all: split_and!; [|tauto|tauto]; intros v [[_ ?]|?]; [done|by eapply HU].
Qed.

Lemma fresh_for_mono U S C U' S' C' l : fresh_for U S C l → (∀ id u, U' id u → U id u) → (∀ id, S' id → S id) →
  (∀ id, C' id → C id) → fresh_for U' S' C' l.
Proof. intros [Hnd Hin] HU HS HC. split; [done|]. intros u Hu. destruct (Hin u Hu) as (? & ? & ?). naive_solver. Qed.

Lemma follows_insert_all U S C l : ∀ n, follows U S C n → fresh_for U S C l →
  follows (λ id u, (u ∈ l ∧ id = utxo_id u) ∨ U id u) S C (foldl (insert_note keys) n l).
Proof.
  revert U. induction l as [|u l IH]; intros U n Hf Hfr; cbn [foldl].
  - eapply follows_ext; [done|..]; [|done..]. intros id u. split; [tauto|]. intros [[Hx _]|?]; [|done]. by apply not_elem_of_nil in Hx.
  - apply fresh_for_cons in Hfr as (HU & HS & HC & Hfr & _). eapply follows_ext; [apply IH; [by apply follows_insert|done]|..]; [|done..].
    intros id u'. cbn. rewrite elem_of_cons. naive_solver.
Qed.

Lemma follows_insert_channel_all U S C l : ∀ n, follows U S C n → fresh_for U S C l →
  follows (λ id u, (u ∈ l ∧ id = utxo_id u) ∨ U id u) S (λ id, (∃ u, u ∈ l ∧ id = utxo_id u) ∨ C id)
    (foldl (insert_channel_note keys) n l).
Proof.
  revert U C. induction l as [|u l IH]; intros U C n Hf Hfr; cbn [foldl].
  - eapply follows_ext; [done|..]; [|done|]; intros; setoid_rewrite elem_of_nil; naive_solver.
  - apply fresh_for_cons in Hfr as (HU & HS & HC & _ & Hfr). eapply follows_ext; [apply IH; [by apply follows_insert_channel|done]|..].
    + intros id u'. cbn. rewrite elem_of_cons. naive_solver.
    + done.
    + intros id. cbn. setoid_rewrite elem_of_cons. naive_solver.
Qed.

(** ** Deposits *)

Lemma Forall2_impl_in {A B} (P Q : A → B → Prop) (l : list A) (k : list B) : Forall2 P l k → (∀ x y, x ∈ l → P x y → Q x y) → Forall2 Q l k.
Proof.
  induction 1 as [|x y l k Hxy _ IH]; intros Himp; constructor; [apply Himp; [left|done]|]. apply IH. intros. apply Himp; [by right|done].
Qed.

Definition utxos_from (op : Hash) (k : nat) (ns : list Note) : list Utxo := imap (λ j nt, mkUtxo op (Z.of_nat (k + j)) nt) ns.

Lemma utxos_from_cons op k nt ns : utxos_from op k (nt :: ns) = mkUtxo op (Z.of_nat k) nt :: utxos_from op (Datatypes.S k) ns.
Proof.
  unfold utxos_from. cbn [imap]. rewrite Nat.add_0_r. f_equal. apply imap_ext. intros j x _. cbn. do 2 f_equal. lia.
Qed.

(** The note of an input. *)
Definition note_at U id (nt : Note) : Prop := (∃ u, U id u) ∧ ∀ u, U id u → note u = nt.

(** One input of a deposit, known to the wallet or not. *)
Lemma deposit_step {E : Type} U S C n op k i nt dig : op_id_of (E:=E) deposit_codec op = Ok dig → follows U S C n → note_at U i nt →
  ¬ S i → ¬ C i → ∀ u, u = mkUtxo dig (Z.of_nat k) nt → (∀ u', ¬ U (utxo_id u) u') → ¬ S (utxo_id u) → ¬ C (utxo_id u) →
  ∃ n', (match utxos n !! i with
         | None => Ok (remove_spent_utxo n i)
         | Some old => id ← op_id_of (E:=E) deposit_codec op;
             Ok (insert_channel_note keys (remove_spent_utxo n i) (mkUtxo id (Z.of_nat k) (note old)))
         end) = Ok n' ∧
    follows (λ id u', (u' = u ∧ id = utxo_id u) ∨ (id ≠ i ∧ U id u')) S (λ id, id = utxo_id u ∨ C id) n'.
Proof.
  intros Hid Hf [[u0 Hu0] Hnote] HSi HCi u Hu HU HS HC. pose proof (follows_remove U S C n i Hf HSi HCi) as Hr.
  pose proof (follows_insert_channel _ _ _ _ u Hr) as Hins. cbn in Hins.
  exists (insert_channel_note keys (remove_spent_utxo n i) u). split; [|apply Hins; [intros u' [_ ?]; by eapply HU|done]].
  destruct (utxos n !! i) as [old|] eqn:Hold.
  - apply (fo_utxos _ _ _ _ Hf) in Hold as [Hold _]. rewrite Hid. cbn [mbind result_bind]. by rewrite (Hnote _ Hold), Hu.
  - unfold insert_channel_note, insert_utxo_if_owned. case_bool_decide as Ho; [|done]. exfalso.
    assert (utxos n !! i = Some u0) as Hx; [|congruence]. apply (fo_utxos _ _ _ _ Hf). split; [done|].
    unfold owned. rewrite (Hnote _ Hu0). by rewrite Hu in Ho.
Qed.

Lemma follows_deposit {E : Type} S op dig inputs : op_id_of (E:=E) deposit_codec op = Ok dig → ∀ ns k U C n, follows U S C n →
  Forall2 (note_at U) inputs ns → NoDup inputs → (∀ i, i ∈ inputs → ¬ S i ∧ ¬ C i) → fresh_for U S C (utxos_from dig k ns) →
  ∃ n', deposit_inputs (E:=E) keys op k inputs n = Ok n' ∧
    follows (λ id u, (u ∈ utxos_from dig k ns ∧ id = utxo_id u) ∨ (id ∉ inputs ∧ U id u)) S
      (λ id, (∃ u, u ∈ utxos_from dig k ns ∧ id = utxo_id u) ∨ C id) n'.
Proof.
  intros Hid. induction inputs as [|i inputs IH]; intros ns k U C n Hf Hns Hnd Hin Hfr; inversion Hns as [|? nt ? ns' Hi Hns']; subst.
  { exists n. split; [done|]. eapply follows_ext; [done|..]; [|done|]; intros; unfold utxos_from; cbn; setoid_rewrite elem_of_nil; naive_solver. }
  apply NoDup_cons in Hnd as [Hni Hnd]. rewrite utxos_from_cons in *. set (u := mkUtxo dig (Z.of_nat k) nt) in *.
  apply fresh_for_cons in Hfr as (HU & HS & HC & _ & Hfr). destruct (Hin i) as [HSi HCi]; [by left|].
  assert (utxo_id u ∉ inputs) as Hout.
  { intros [m Hm]%list_elem_of_lookup. destruct (Forall2_lookup_l _ _ _ _ _ Hns' Hm) as (? & _ & [[u' Hu'] _]). by eapply HU. }
  destruct (deposit_step U S C n op k i nt dig Hid Hf Hi HSi HCi u eq_refl HU HS HC) as (n1 & Hn1 & Hf1).
  cbn [deposit_inputs]. rewrite Hn1. cbn [mbind result_bind].
  destruct (IH ns' (Datatypes.S k) _ _ n1 Hf1) as (n' & Hrun & Hf').
  - eapply Forall2_impl_in; [exact Hns'|]. intros j nt' Hj [[u' Hu'] Hall]. assert (j ≠ i) by (by intros ->). split.
    + exists u'. by right.
    + intros u'' [[-> ->]|[_ ?]]; [|by apply Hall]. by destruct (HU u').
  - done.
  - intros j Hj. destruct (Hin j) as [? ?]; [by right|]. split; [done|]. intros [->|?]; [|done]. by apply Hout.
  - eapply fresh_for_mono; [exact Hfr|..]; [|done..]. intros id u' [?|[_ ?]]; auto.
  - exists n'. split; [done|]. eapply follows_ext; [exact Hf'|..]; [|done|].
    + intros id u'. cbn. rewrite elem_of_cons, not_elem_of_cons. split; [naive_solver|].
      intros [[[->|?] ->]|[[? ?] ?]]; [|by left; split|right; tauto]. right. split; [exact Hout|]. by left.
    + intros id. cbn. setoid_rewrite elem_of_cons. naive_solver.
Qed.

(** ** Headers *)

(** The notes the events of a header reward with, and the ones they unlock. *)
Definition rewarded (e : HeaderEvent) : option Utxo := match e with SdpRewardDistributed _ u => Some u | _ => None end.
Definition unlocked_note (e : HeaderEvent) : option NoteId := match e with SdpNoteUnlocked id _ _ => Some id | _ => None end.

Lemma follows_header U S C events : ∀ n, follows U S C n → fresh_for U S C (omap rewarded events) →
  follows (λ id u, (u ∈ omap rewarded events ∧ id = utxo_id u) ∨ U id u) (λ id, S id ∧ id ∉ omap unlocked_note events) C
    (foldl (apply_header_op keys) n (header_op <$> events)).
Proof.
  revert U S. induction events as [|[id st d|st u] events IH]; intros U S n Hf Hfr; cbn [fmap list_fmap foldl apply_header_op header_op].
  - eapply follows_ext; [done|..]; [| |done]; intros; cbn; rewrite elem_of_nil; tauto.
  - eapply follows_ext; [apply IH; [by apply follows_unmark_service|]|..].
    + eapply fresh_for_mono; [exact Hfr|..]; [done|tauto|done].
    + done.
    + intros id'. cbn. rewrite not_elem_of_cons. tauto.
    + done.
  - apply fresh_for_cons in Hfr as (HU & HS & HC & Hfr & _). eapply follows_ext; [apply IH; [by apply follows_insert|done]|..]; [|done..].
    intros id u'. cbn. rewrite elem_of_cons. naive_solver.
Qed.

End Follows.

(** ** Ledger states *)

Section Ledger.
Context {T R KeyId : Type} `{!KeyedStoreOps T NoteId Utxo, !KeyedStore T NoteId Utxo}.
Context `{Poseidon2Crate} `{Blake2Crate} `{Ed25519Crate} `{MultiaddrCrate}.
Implicit Types (keys : gmap ZkPublicKey KeyId) (s : LedgerState T R).

(** The notes follow those of the parts of a ledger state. *)
Definition follows_notes keys (t : T) (cs : Channels) (sn : ServiceNotes) (n : Notes) : Prop :=
  follows keys (λ id u, ks_view t !! id = Some u) (λ id, is_Some (sn !! id)) (λ id, is_Some (channel_notes cs !! id)) n.

Definition follows_state keys s (n : Notes) : Prop :=
  follows_notes keys (cl_utxos (cryptarchia_ledger s)) (m_channels (mantle_ledger s)) (sdp_service_notes (m_sdp (mantle_ledger s))) n.

Lemma add_ledger_utxos keys (sn : ServiceNotes) cs l : ∀ U n,
  follows keys U (λ id, is_Some (sn !! id)) (λ id, is_Some (channel_notes cs !! id)) n →
  NoDup (utxo_id <$> l) → (∀ u u', u ∈ l → ¬ U (utxo_id u) u') →
  follows keys (λ id u, (u ∈ l ∧ id = utxo_id u) ∨ U id u) (λ id, is_Some (sn !! id)) (λ id, is_Some (channel_notes cs !! id))
    (foldl (add_ledger_utxo keys sn cs) n l).
Proof.
  induction l as [|u l IH]; intros U n Hf Hnd Hfr; cbn [foldl].
  - eapply follows_ext; [done|..]; [|done..]. intros id u. rewrite elem_of_nil. tauto.
  - rewrite fmap_cons in Hnd. apply NoDup_cons in Hnd as [Hu Hnd].
    assert (follows keys (λ id u', (u' = u ∧ id = utxo_id u) ∨ U id u') (λ id, is_Some (sn !! id)) (λ id, is_Some (channel_notes cs !! id))
      (add_ledger_utxo keys sn cs n u)) as Hf'.
    { unfold add_ledger_utxo. case_bool_decide as Ho.
      - pose proof Hf as [_ _ _ Hs Hc]. apply follows_add; [done|intros u'; apply Hfr; left|done|..]; intros id; rewrite lookup_insert_is_Some'.
        + unfold sn_contains. case_bool_decide; [rewrite elem_of_union, elem_of_singleton|]; rewrite Hs; intuition congruence.
        + unfold is_channel_note, channel_notes_contains. case_bool_decide; [rewrite elem_of_union, elem_of_singleton|]; rewrite Hc; intuition congruence.
      - destruct Hf as [Hus Hi He Hs Hc]. split; [|done..]. intros id u'. rewrite Hus. split; [tauto|].
        intros [[[-> _]|?] Ho']; [by destruct Ho|done]. }
    eapply follows_ext; [apply (IH _ _ Hf' Hnd)|..]; [| |done..].
    + intros u' v Hu' [[-> Heq]|?]; [|eapply Hfr; [by right|done]]. apply Hu. rewrite <- Heq. apply list_elem_of_fmap. eauto.
    + intros id u'. cbn. rewrite elem_of_cons. naive_solver.
Qed.

Lemma keyed_items (m : gmap NoteId Utxo) : (∀ id u, m !! id = Some u → utxo_id u = id) →
  utxo_id <$> (map_to_list m).*2 = (map_to_list m).*1.
Proof.
  intros Hk. rewrite <- list_fmap_compose. apply list_fmap_ext. intros i [id u] Hi. cbn. apply Hk, elem_of_map_to_list.
  by apply list_elem_of_lookup_2 in Hi.
Qed.

(** A wallet started from a ledger state follows it. *)
Lemma from_ledger_follows keys s :
  notes_ok (cl_utxos (cryptarchia_ledger s)) (m_channels (mantle_ledger s)) (sdp_service_notes (m_sdp (mantle_ledger s))) →
  follows_state keys s (notes_from_ledger keys s).
Proof.
  intros [Hok Hkey _ _]. unfold follows_state, follows_notes, notes_from_ledger. rewrite ks_items_view by done.
  set (m := ks_view _) in *. assert (∀ id u, m !! id = Some u → utxo_id u = id) as Hk by (intros id u Hu; by destruct (Hkey id u Hu)).
  eapply follows_ext; [apply (add_ledger_utxos keys _ _ _ (λ _ _, False))|..]; [| | |intros id u; cbn|done..].
  - apply follows_empty. tauto.
  - rewrite keyed_items by done. apply NoDup_fst_map_to_list.
  - tauto.
  - rewrite list_elem_of_fmap. split.
    + intros [[([id' u'] & -> & Hin) ->]|[]]. apply elem_of_map_to_list in Hin. cbn. by rewrite (Hk _ _ Hin).
    + intros Hu. left. split; [|symmetry; by apply Hk]. exists (id, u). split; [done|]. by apply elem_of_map_to_list.
Qed.

(** ** Balance *)

(** The sum over part of the notes is within the whole. *)
Lemma inputs_value_total (t : T) ids : ks_ok t → (∀ i u, ks_view t !! i = Some u → note_ok (note u)) → NoDup ids → present t ids →
  inputs_value (ks_view t) ids <= notes_total t.
Proof.
  intros Hok Hu Hnd Hp. destruct (inputs_execute_ok ids t Hok Hnd Hp) as (t' & _ & _ & Hv & Hs). unfold notes_total.
  assert (0 <= map_sum utxo_value (ks_view t')); [|lia]. apply map_sum_nonneg. intros k u. rewrite Hv, lookup_removed.
  case_bool_decide; [done|]. intros Hk. by destruct (Hu _ _ Hk).
Qed.

Lemma balance_loop_ok {E : Type} (n : Notes) ids : NoDup ids → (∀ i u, utxos n !! i = Some u → 0 <= utxo_value u) → ∀ b,
  (∀ id, id ∈ ids → is_Some (utxos n !! id) ∧ b_notes b !! id = None) → b_balance b = map_sum id (b_notes b) →
  b_balance b + inputs_value (utxos n) ids <= u64_max →
  ∃ b', balance_loop (E:=E) n b ids = Ok b' ∧ b_balance b' = map_sum id (b_notes b') ∧
    ∀ i v, b_notes b' !! i = Some v ↔
      b_notes b !! i = Some v ∨ (i ∈ ids ∧ i ∉ w_channel_notes n ∧ ∃ u, utxos n !! i = Some u ∧ v = value (note u)).
Proof.
  intros Hnd Hpos. induction Hnd as [|i ids Hi Hnd IH]; intros b Hin Hb Hmax; cbn [balance_loop].
  { exists b. split_and!; [done..|]. intros i v. rewrite elem_of_nil. tauto. }
  destruct (Hin i) as [[u Hu] Hno]; [by left|]. pose proof (Hpos _ _ Hu) as Hpu.
  assert (0 <= inputs_value (utxos n) ids) as Hrest.
  { clear -Hpos. unfold inputs_value. induction ids as [|j ids IH]; [done|]. cbn [foldr].
    destruct (utxos n !! j) as [u|] eqn:Hj; cbn [from_option]; [pose proof (Hpos _ _ Hj)|]; lia. }
  unfold inputs_value in Hmax. cbn [foldr] in Hmax. rewrite Hu in Hmax. cbn [from_option] in Hmax. fold (inputs_value (utxos n) ids) in Hmax.
  case_bool_decide as Hch; cbn [mbind result_bind].
  - destruct (IH b) as (b' & Hrun & Hs & Hl); [intros j Hj; apply Hin; by right|done|lia|]. exists b'. split_and!; [done..|].
    intros j v. rewrite Hl, elem_of_cons. naive_solver.
  - rewrite Hu. cbn [expect mbind result_bind]. unfold utxo_value in *. rewrite strict_add_in by lia. cbn [mbind result_bind].
    destruct (IH (mkBalance (b_balance b + value (note u)) (<[i := value (note u)]> (b_notes b)))) as (b' & Hrun & Hs & Hl); cbn in *.
    + intros j Hj. destruct (Hin j) as [? ?]; [by right|]. split; [done|]. rewrite lookup_insert_ne; [done|]. congruence.
    + rewrite map_sum_insert by done. cbn. lia.
    + lia.
    + exists b'. split_and!; [done..|]. intros j v. rewrite Hl, elem_of_cons, lookup_insert_Some. naive_solver.
Qed.

(** The notes of a key outside of channels. *)
Definition spendable s (p : ZkPublicKey) : gmap NoteId Z :=
  (λ u, value (note u)) <$> filter (λ '(i, u), pk (note u) = p ∧ channel_notes (m_channels (mantle_ledger s)) !! i = None)
    (ks_view (cl_utxos (cryptarchia_ledger s))).


End Ledger.

End WalletFacts.
