(* ===== verification/WalletMirror.v ===== *)
(** * The wallet mirrors the ledger

    The transactions and the events of an accepted block, turned into the
    operations of the wallet, take the notes of the wallet from those of the
    ledger state before the block to those of the state after it; the tracked
    paths of vouchers stay those of the range of vouchers, and their snapshot
    verifies against the root the ledger checks claims with. *)

From S2P Require Import Prelude Era EraFacts EngineConfig Merkle MerkleFacts MerkleTheorems MerkleStore Mmr MmrFacts MmrTheorems Codec CodecLaws Ops OpsCodec Channels Utxos ServiceNotes Inputs ChannelOps SignedTx SdpOps SdpTheorems LedgerConfig ClaimOps TxVerification NoteFacts Leaders Pow PowTheorems Markets MarketFacts Cryptarchia ConsensusFacts Ledger LedgerInvariant TxTheorems BlockTheorems Wallet WalletFacts.
Import MountainRange.

#[local] Open Scope Z_scope.

Module WalletMirror.
Import Canonical Ops OpsCodec Utxos Channels ServiceNotes Inputs ChannelOps SignedTx SdpOps SdpFacts SdpTheorems LedgerConfig ClaimOps TxVerification NoteFacts Leaders Pow PowFacts PowTheorems Markets MarketFacts Cryptarchia ConsensusFacts Ledger ChannelFacts LedgerInvariant LedgerVerify TxTheorems BlockTheorems Wallet WalletFacts.

Section Ops.
Context {T R Params KeyId Id : Type} `{!KeyedStoreOps T NoteId Utxo, !KeyedStore T NoteId Utxo}.
Context `{!Rewards T R Params, !RewardsLaws T R Params}.
Context `{Poseidon2Crate} `{Blake2Crate} `{Ed25519Crate} `{MultiaddrCrate} `{Ed25519Verify} `{PoCVerify}.
Context (keys : gmap ZkPublicKey KeyId).
Implicit Types (s : LedgerState T R) (n : Notes) (tx_hash : TxHash).

Notation utxos_of_state s := (cl_utxos (cryptarchia_ledger s)).

(** ** Operations *)

(** The operations the wallet looks up events for, and those that emit them. *)
Definition tracked_id (op : Op) : option Hash :=
  match op with
  | LeaderClaim _ | ChannelWithdraw _ | ChannelDeposit _ | Transfer _ => Some (op_digest op)
  | _ => None
  end.

Definition event_id (op : Op) : option Hash :=
  match op with ClaimPowReward _ => Some (op_digest op) | _ => tracked_id op end.

Lemma op_id_ref_ok {E : Type} max (op : Op) : op_wf max op → op_id_ref (E:=E) op = Ok (tracked_id op).
Proof.
  intros Hwf. destruct op as [o|o|o|o|o|o|o|o|o|o|o]; cbn [op_id_ref tracked_id]; try done.
  - rewrite (op_id_ok deposit_codec max) by by apply (payload_valid_wf max (ChannelDeposit o)). done.
  - rewrite (op_id_ok channel_withdraw_codec tt) by by apply (payload_valid_wf max (ChannelWithdraw o)). done.
  - rewrite (op_id_ok transfer_codec tt) by by apply (payload_valid_wf max (Transfer o)). done.
Qed.

(** The wallet does not follow rewards of proof of work. *)
Definition pow_unowned (op : SignedOp) : Prop := match op with SignedClaimPow o => keys !! cp_public_key o = None | _ => True end.

(** What one operation adds to the events, and what the wallet makes of it. *)
Definition op_mirrored s (op : SignedOp) tx_hash (events : list TxEvent) s' (events' : list TxEvent) : Prop :=
  ∃ new wallet_op, events' = events ++ new ∧ Forall (λ e, te_tx_hash e = tx_hash) new ∧
    (te_op_id <$> new) `sublist_of` omap event_id [operation op] ∧
    (∀ (E : Type) event, (∀ e, is_Some (tracked_id (operation op)) → e ∈ new → event = Some (te_payload e)) →
       transform_op (E:=E) (operation op) event = Ok wallet_op) ∧
    ∀ (E : Type) n, follows_state keys s n → ∃ n',
      (match wallet_op with Some w => apply_wallet_op (E:=E) keys n w | None => Ok n end) = Ok n' ∧ follows_state keys s' n'.

(** New notes are neither in a service nor in a channel. *)
Lemma insertable_fresh t cs sn l : notes_ok t cs sn → insertable t l →
  fresh_for (λ id u, ks_view t !! id = Some u) (λ id, is_Some (sn !! id)) (λ id, is_Some (channel_notes cs !! id)) l.
Proof.
  intros Hn Hi. split; [apply Hi|]. intros u Hu. pose proof (ins_fresh _ _ Hi u Hu) as Hf. split_and!.
  - intros u' Hu'. congruence.
  - intros [x Hx]. destruct (no_service _ _ _ Hn _ _ Hx) as (? & ? & _). congruence.
  - intros [x Hx]. destruct (no_channel _ _ _ Hn _ _ Hx) as ([? ?] & _). congruence.
Qed.

(** An operation the wallet ignores, and that leaves the notes alone. *)
Lemma mirrored_ignored s op tx_hash events s' : (∀ (E : Type) event, transform_op (E:=E) (operation op) event = Ok None) →
  (∀ n, follows_state keys s n → follows_state keys s' n) → op_mirrored s op tx_hash events s' events.
Proof.
  intros Ht Hf. exists [], None. rewrite app_nil_r. split_and!; [done|constructor|apply sublist_nil_l|intros; apply Ht|].
  intros E n Hn. exists n. split; [done|by apply Hf].
Qed.

Section Step.
Variables (max : Z) (s : LedgerState T R) (eras : EraSchedule (Config Params)) (c : Config Params) (tx_hash : TxHash).
Variables (index balance : Z) (events : list TxEvent) (d d' : DeferredProofs).
Hypothesis (Hok : ledger_ok s).

Notation verified op := (into_verified op index tx_hash (helper_of (mantle_ledger s) (cryptarchia_ledger s) eras) d = Ok d').
Notation step op := (try_apply_op (Id:=Id) s op c tx_hash balance events).
Notation mirrored op out := (∀ s' b' ev', out = Ok (s', b', ev') → op_mirrored s op tx_hash events s' ev').

Lemma mirror_transfer op proof : op_wf max (Transfer op) → op_fresh s (SignedTransfer op proof) →
  verified (SignedTransfer op proof) → mirrored (SignedTransfer op proof) (step (SignedTransfer op proof)).
Proof.
  intros Hwf Hf Hv s' b' ev' Hrun. pose proof Hok as [Hn _ _ _ _ _]. cbn [into_verified] in Hv. rewrite result_bind_ok in Hv.
  destruct Hv as (p & Hv & _). apply map_err_ok, transfer_verify_ok in Hv as [Hnd Hin]; [|apply Hn].
  destruct (transfer_run max op _ _ _ Hn Hwf Hnd Hin Hf) as (t' & Hex & Hsc).
  cbn [try_apply_op] in Hrun. peel Hrun as [l tb] Hl. unfold try_apply_transfer in Hl. peel Hl as tb' Htb.
  rewrite Hex in Hl. cbn [map_err mbind result_bind] in Hl. injection Hl as <- <-. peel Hrun as b Hb. injection Hrun as <- <- <-.
  exists [], (Some (WalletTransfer op)). rewrite app_nil_r.
  split_and!; [done|constructor|apply sublist_nil_l|done|]. intros E n Hfo. cbn [apply_wallet_op].
  rewrite (op_id_ok transfer_codec tt) by by apply (payload_valid_wf max (Transfer op)). eexists. split; [done|].
  change (blake2b_256 _) with (op_digest (Transfer op)). eapply follows_ext; [apply follows_insert_all|..].
  - apply follows_remove_all; [exact Hfo|]. intros i Hi. destruct (Hin i Hi) as (_ & Hs & Hc). rewrite <- !eq_None_not_Some. done.
  - eapply fresh_for_mono; [by eapply insertable_fresh|..]; [|done..]. by intros id u [_ ?].
  - intros id u. cbn. rewrite (sc_view _ _ _ _ Hsc). done.
  - done.
  - done.
Qed.

(** The notes of the inputs of a deposit. *)
Lemma input_notes_at t inputs : present t inputs → Forall2 (note_at (λ id u, ks_view t !! id = Some u)) inputs (input_notes t inputs).
Proof.
  unfold input_notes. induction inputs as [|i inputs IH]; [constructor|]. intros [[u Hu] Hp]%present_cons. cbn [omap list_omap].
  rewrite Hu. cbn [fmap option_fmap option_map]. constructor; [|by apply IH]. split; [eauto|]. intros u' Hu'. congruence.
Qed.

Lemma mirror_deposit op proof : op_wf max (ChannelDeposit op) → op_fresh s (SignedDeposit op proof) →
  verified (SignedDeposit op proof) → mirrored (SignedDeposit op proof) (step (SignedDeposit op proof)).
Proof.
  intros Hwf Hf Hv s' b' ev' Hrun. pose proof Hok as [Hn _ _ _ _ _]. cbn [into_verified helper_of h_channels h_service_notes h_utxos] in Hv.
  rewrite result_bind_ok in Hv. destruct Hv as (p & Hv & _). apply map_err_ok, deposit_verify_ok in Hv as (_ & Hnd & Hin); [|apply Hn].
  cbn [try_apply_op] in Hrun. peel Hrun as [] _.
  destruct (deposit_run max op _ _ _ tx_hash Hn Hwf Hnd Hin Hf) as [Hex|(cs & t' & payload & Hex & Hsc & [_ Hreg])]; rewrite Hex in Hrun; [done|].
  cbn [channel_err map_err mbind result_bind] in Hrun. injection Hrun as <- <- <-.
  eexists [_], (Some (WalletDeposit op)). split_and!; [done|by apply Forall_singleton|cbn; done|done|]. intros E n Hfo. cbn [apply_wallet_op].
  assert (op_id_of (E:=E) deposit_codec op = Ok (op_digest (ChannelDeposit op))) as Hid
    by (by rewrite (op_id_ok deposit_codec max) by by apply (payload_valid_wf max (ChannelDeposit op))).
  destruct (follows_deposit keys _ op _ (d_inputs op) Hid (input_notes (utxos_of_state s) (d_inputs op)) 0 _ _ n Hfo) as (n' & -> & Hfo').
  - apply input_notes_at. intros i Hi. by apply Hin.
  - done.
  - intros i Hi. destruct (Hin i Hi) as (_ & Hs & Hc). by rewrite <- !eq_None_not_Some.
  - by apply insertable_fresh.
  - exists n'. split; [done|]. eapply follows_ext; [exact Hfo'|..]; [|done|].
    + intros id u. cbn. by rewrite (sc_view _ _ _ _ Hsc).
    + intros id. cbn. split; [intros [(u & Hu & ->)|[x Hx]]; eexists; apply Hreg; [left; eauto|by right]|].
      intros [x [(u & ? & ? & _)|?]%Hreg]; [left; eauto|right; eauto].
Qed.

Lemma mirror_withdraw op proof : verified (SignedWithdraw op proof) → mirrored (SignedWithdraw op proof) (step (SignedWithdraw op proof)).
Proof.
  intros Hv s' b' ev' Hrun. pose proof Hok as [Hn _ _ _ _ _]. cbn [into_verified] in Hv. rewrite result_bind_ok in Hv.
  destruct Hv as ([] & Hv & _). apply map_err_ok, withdraw_verify_iff in Hv as [_ [Hnd Hin]]; [|apply Hn].
  destruct (unregister_all_ok (w_channel_id op) (w_inputs op) (m_channels (mantle_ledger s)) Hnd) as (cs & Hex & [_ Hun]);
    [intros i Hi; by apply Hin|]. cbn [try_apply_op] in Hrun. unfold withdraw_execute in Hrun. rewrite Hex in Hrun.
  cbn [channel_err map_err mbind result_bind] in Hrun. injection Hrun as <- <- <-.
  exists [], (Some (WalletWithdraw op)). rewrite app_nil_r. split_and!; [done|constructor|apply sublist_nil_l|done|].
  intros E n Hfo. eexists. split; [done|]. eapply follows_ext; [apply follows_unmark_all, Hfo|..]; [done..|].
  intros id. cbn. split; [intros [? [x Hx]]; exists x; by apply Hun|]. intros [x [? ?]%Hun]. split; [done|by exists x].
Qed.

Lemma mirror_channel_transfer op proof : op_wf max (ChannelTransfer op) → op_fresh s (SignedChannelTransfer op proof) →
  verified (SignedChannelTransfer op proof) → mirrored (SignedChannelTransfer op proof) (step (SignedChannelTransfer op proof)).
Proof.
  intros Hwf Hf Hv s' b' ev' Hrun. pose proof Hok as [Hn _ _ _ _ _]. cbn [into_verified] in Hv. rewrite result_bind_ok in Hv.
  destruct Hv as ([] & Hv & _). apply map_err_ok, channel_transfer_verify_iff in Hv as (_ & [Hnd Hin] & _ & _);
    [|apply Hn|by eapply notes_u64|eapply Forall_impl; [apply Hwf|by intros nt [? _]]].
  destruct (channel_transfer_run max op _ _ _ Hn Hwf Hnd Hin Hf) as (c1 & cs & t' & Hex & Hsc & [_ Hun] & [_ Hreg]).
  cbn [try_apply_op] in Hrun. rewrite Hex in Hrun. cbn [channel_err map_err mbind result_bind] in Hrun. injection Hrun as <- <- <-.
  exists [], (Some (WalletChannelTransfer op)). rewrite app_nil_r. split_and!; [done|constructor|apply sublist_nil_l|done|].
  intros E n Hfo. cbn [apply_wallet_op].
  rewrite (op_id_ok channel_transfer_codec tt) by by apply (payload_valid_wf max (ChannelTransfer op)). eexists. split; [done|].
  change (blake2b_256 _) with (op_digest (ChannelTransfer op)). eapply follows_ext; [apply follows_insert_channel_all|..].
  - apply follows_release; [exact Hfo|]. intros i Hi. destruct (Hin i Hi) as (_ & Hs & _). by rewrite <- eq_None_not_Some.
  - eapply fresh_for_mono; [by eapply insertable_fresh|..]; [by intros id u [_ ?]|done|by intros id [_ ?]].
  - intros id u. cbn. by rewrite (sc_view _ _ _ _ Hsc).
  - done.
  - intros id. cbn. split.
    + intros [(u & Hu & ->)|[Hni [x Hx]]]; eexists; apply Hreg; [left; eauto|right]. by apply Hun.
    + intros [x [(u & ? & ? & _)|[? ?]%Hun]%Hreg]; [left; eauto|right; eauto].
Qed.

(** A claim pays a note the wallet learns from its event. *)
Lemma follows_claim u t' : insertable (utxos_of_state s) [u] → spent_created (utxos_of_state s) [] [u] t' → ∀ n,
  follows_state keys s n → follows_notes keys t' (m_channels (mantle_ledger s)) (sdp_service_notes (m_sdp (mantle_ledger s))) (insert_note keys n u).
Proof.
  intros Hi Hsc n Hfo. pose proof Hok as [Hn _ _ _ _ _]. destruct (insertable_fresh _ _ _ _ Hn Hi) as [_ Hfr].
  destruct (Hfr u) as (HU & HS & HC); [by left|]. eapply follows_ext; [by apply follows_insert|..]; [|done..].
  intros id u'. cbn. rewrite (sc_view _ _ _ _ Hsc), list_elem_of_singleton. pose proof (not_elem_of_nil id). naive_solver.
Qed.

Lemma mirror_leader_claim op proof : op_wf max (LeaderClaim op) → op_fresh s (SignedLeaderClaim op proof) →
  mirrored (SignedLeaderClaim op proof) (step (SignedLeaderClaim op proof)).
Proof.
  intros Hwf Hf s' b' ev' Hrun. pose proof Hok as [Hn _ _ _ _ _]. cbn [try_apply_op] in Hrun. unfold leader_claim_execute, leader_claim_utxo in Hrun.
  rewrite (op_id_ok leader_claim_codec tt) in Hrun by by apply (payload_valid_wf max (LeaderClaim op)).
  change (blake2b_256 _) with (op_digest (LeaderClaim op)) in Hrun. cbn [mbind result_bind lcc_reward_amount lcc_utxos] in Hrun.
  set (u := mkUtxo _ _ _) in Hrun. destruct (claim_note_run (E:=LedgerError Id) (utxos_of_state s) u (no_store _ _ _ Hn) Hf) as (t' & Hins & Hsc).
  rewrite Hins in Hrun. cbn [mbind result_bind] in Hrun. peel Hrun as [r ev] Hr. peel Hr as cl Hcl. injection Hr as <- <-. injection Hrun as <- <- <-.
  eexists [_], (Some (WalletLeaderClaim u)). split_and!; [done|by apply Forall_singleton|done| |].
  - intros E event He. rewrite (He _ ltac:(by eexists) ltac:(by left)). done.
  - intros E n Hfo. eexists. split; [done|]. by apply follows_claim.
Qed.

Lemma mirror_claim_pow op : op_wf max (ClaimPowReward op) → op_fresh s (SignedClaimPow op) → pow_unowned (SignedClaimPow op) →
  mirrored (SignedClaimPow op) (step (SignedClaimPow op)).
Proof.
  intros Hwf Hf Hpow s' b' ev' Hrun. pose proof Hok as [Hn _ _ _ _ _]. cbn [try_apply_op] in Hrun. unfold pow_claim_execute in Hrun.
  rewrite (op_id_ok claim_pow_codec tt) in Hrun by by apply (payload_valid_wf max (ClaimPowReward op)).
  change (blake2b_256 _) with (op_digest (ClaimPowReward op)) in Hrun. peel Hrun as [r ev] Hr. peel Hr as slot Hslot.
  cbn [mbind result_bind pe_epoch_reward pe_utxos] in Hr. set (u := mkUtxo _ _ _) in Hr.
  destruct (claim_note_run (E:=LedgerError Id) (utxos_of_state s) u (no_store _ _ _ Hn) Hf) as (t' & Hins & Hsc).
  rewrite Hins in Hr. cbn [mbind result_bind] in Hr. peel Hr as pool Hpool. injection Hr as <- <-. injection Hrun as <- <- <-.
  eexists [_], None. split_and!; [done|by apply Forall_singleton|done|done|].
  intros E n Hfo. eexists. split; [done|]. pose proof (follows_claim u t' Hf Hsc n Hfo) as Hu.
  unfold insert_note, insert_utxo_if_owned in Hu. rewrite bool_decide_false in Hu; [done|]. cbn. cbn in Hpow. rewrite Hpow. by apply is_Some_None.
Qed.

Lemma mirror_declare op proof : mirrored (SignedSDPDeclare op proof) (step (SignedSDPDeclare op proof)).
Proof.
  intros s' b' ev' Hrun. cbn [try_apply_op] in Hrun. peel Hrun as sdp Hsdp. injection Hrun as <- <- <-.
  unfold try_apply_sdp_declaration, declare_execute in Hsdp. apply map_err_ok in Hsdp. peel Hsdp as v Hv. peel Hsdp as r Hr. injection Hsdp as <-.
  apply map_err_ok in Hr. peel Hr as dd Hd. peel Hr as u Hu. peel Hr as sn Hsn. injection Hr as <-. apply map_err_ok, lock_ok in Hsn as (_ & _ & ->).
  exists [], (Some (WalletLock (dm_service_note_id op))). rewrite app_nil_r. split_and!; [done|constructor|apply sublist_nil_l|done|].
  intros E n Hfo. eexists. split; [done|]. eapply follows_ext; [apply follows_lock, Hfo|..]; [done| |done].
  intros id. cbn. rewrite lookup_insert_is_Some'. naive_solver.
Qed.

(** The operations that leave notes alone. *)
Lemma mirror_inscribe op proof : mirrored (SignedInscribe op proof) (step (SignedInscribe op proof)).
Proof.
  intros s' b' ev' Hrun. cbn [try_apply_op] in Hrun. peel Hrun as [] _. peel Hrun as cs Hcs. injection Hrun as <- <- <-.
  apply mirrored_ignored; [done|]. intros n Hfo. unfold inscription_execute in Hcs. peel Hcs as [i st] _. peel Hcs as tip _. by injection Hcs as <-.
Qed.

Lemma mirror_config op proof : mirrored (SignedConfig op proof) (step (SignedConfig op proof)).
Proof.
  intros s' b' ev' Hrun. cbn [try_apply_op] in Hrun. peel Hrun as cs Hcs. injection Hrun as <- <- <-.
  apply mirrored_ignored; [done|]. intros n Hfo. unfold config_execute in Hcs. peel Hcs as tip _. by injection Hcs as <-.
Qed.

Lemma mirror_active op proof : mirrored (SignedSDPActive op proof) (step (SignedSDPActive op proof)).
Proof.
  intros s' b' ev' Hrun. cbn [try_apply_op] in Hrun. peel Hrun as sdp Hsdp. injection Hrun as <- <- <-.
  apply mirrored_ignored; [done|]. intros n Hfo. unfold apply_active_msg in Hsdp. apply map_err_ok in Hsdp. peel Hsdp as [st ?] _.
  peel Hsdp as v _. peel Hsdp as ds _. peel Hsdp as dd _. peel Hsdp as r _. by injection Hsdp as <-.
Qed.

Lemma mirror_sdp_withdraw op proof : mirrored (SignedSDPWithdraw op proof) (step (SignedSDPWithdraw op proof)).
Proof.
  intros s' b' ev' Hrun. cbn [try_apply_op] in Hrun. peel Hrun as sdp Hsdp. injection Hrun as <- <- <-.
  apply mirrored_ignored; [done|]. intros n Hfo. unfold apply_withdrawn_msg in Hsdp. apply map_err_ok in Hsdp. peel Hsdp as [st ?] _.
  peel Hsdp as v _. peel Hsdp as ds _. by injection Hsdp as <-.
Qed.

(** Every verified operation that executes is mirrored. *)
Lemma op_mirror op : op_wf max (operation op) → op_fresh s op → verified op → pow_unowned op → mirrored op (step op).
Proof.
  destruct op; cbn [operation]; intros Hwf Hf Hv Hp.
  - apply mirror_inscribe.
  - apply mirror_config.
  - by apply mirror_deposit.
  - by apply mirror_withdraw.
  - by apply mirror_channel_transfer.
  - apply mirror_declare.
  - apply mirror_sdp_withdraw.
  - apply mirror_active.
  - by apply mirror_leader_claim.
  - by apply mirror_transfer.
  - by apply mirror_claim_pow.
Qed.

End Step.

(** ** Transactions *)

Context (eras : EraSchedule (Config Params)) (max : Z).
Hypothesis eras_genesis : e_first_slot (s_genesis eras) = 0.

Notation slot_of s := (cl_slot (cryptarchia_ledger s)).

Definition event_ids (ops : list SignedOp) : list Hash := omap event_id (operation <$> ops).

(** The operations of the wallet for [ops], and what they do to its notes. *)
Definition wallet_runs s s' (wallet_ops : list WalletOp) : Prop := ∀ (E : Type) n, follows_state keys s n →
  ∃ n', apply_wallet_ops (E:=E) keys n wallet_ops = Ok n' ∧ follows_state keys s' n'.

Definition ops_mirrored s (ops : list SignedOp) tx_hash (events : list TxEvent) s' (events' : list TxEvent) : Prop :=
  ∃ new, events' = events ++ new ∧ Forall (λ e, te_tx_hash e = tx_hash) new ∧ (te_op_id <$> new) `sublist_of` event_ids ops ∧
    ∀ m : OpEvents, (∀ e, e ∈ new → m !! te_op_id e = Some (te_payload e)) → NoDup (event_ids ops) →
      ∃ wallet_ops, (∀ E : Type, transform_ops (E:=E) m (operation <$> ops) = Ok wallet_ops) ∧ wallet_runs s s' wallet_ops.

Lemma event_ids_cons op ops : event_ids (op :: ops) = omap event_id [operation op] ++ event_ids ops.
Proof. unfold event_ids. cbn [fmap list_fmap]. by rewrite <- omap_app. Qed.

Lemma tracked_event (op : Op) id : tracked_id op = Some id → omap event_id [op] = [id].
Proof. intros Hid. cbn. replace (event_id op) with (Some id); [done|]. by destruct op. Qed.

Lemma ops_mirrored_cons s op ops tx_hash ev s1 ev1 s2 ev2 : op_wf max (operation op) → op_mirrored s op tx_hash ev s1 ev1 →
  ops_mirrored s1 ops tx_hash ev1 s2 ev2 → ops_mirrored s (op :: ops) tx_hash ev s2 ev2.
Proof.
  intros Hwf (new1 & w & -> & Hh1 & Hs1 & Ht & Hf1) (new2 & -> & Hh2 & Hs2 & Hm). exists (new1 ++ new2). rewrite app_assoc, fmap_app, event_ids_cons.
  split_and!; [done|by apply Forall_app|by apply sublist_app|]. intros m Hev (Hnd1 & Hdis & Hnd2)%NoDup_app.
  set (id := tracked_id (operation op)). destruct (Hm (match id with Some id => delete id m | None => m end)) as (ws & Hws & Hrun); [|done|].
  { intros e He. assert (m !! te_op_id e = Some (te_payload e)) as Hl by (apply Hev, elem_of_app; by right).
    destruct id as [i|] eqn:Hid; [|done]. rewrite lookup_delete_ne; [done|]. intros ->. apply (Hdis (te_op_id e)).
    - rewrite (tracked_event _ _ Hid). by left.
    - eapply elem_of_sublist; [|exact Hs2]. apply list_elem_of_fmap. eauto. }
  exists (match w with Some w => w :: ws | None => ws end). split.
  - intros E. cbn [fmap list_fmap transform_ops]. rewrite (op_id_ref_ok max) by done. cbn [mbind result_bind]. fold id.
    rewrite Ht; [cbn [mbind result_bind]; by rewrite Hws|]. intros e [i Hi] He.
    assert (te_op_id e = i) as Heq.
    { apply list_elem_of_singleton. rewrite <- (tracked_event _ _ Hi). eapply elem_of_sublist; [|exact Hs1]. apply list_elem_of_fmap. eauto. }
    unfold id. rewrite Hi. cbn. rewrite <- Heq. apply Hev, elem_of_app. by left.
  - intros E n Hn. destruct (Hf1 E n Hn) as (n1 & Hn1 & Hfo1). destruct (Hrun E n1 Hfo1) as (n2 & Hn2 & Hfo2). exists n2. split; [|done].
    destruct w as [w|]; cbn [apply_wallet_ops]; [rewrite Hn1; cbn [mbind result_bind]; done|]. injection Hn1 as <-. done.
Qed.

Lemma ops_mirror c tx_hash ops : ∀ s index balance gas events d s' balance' gas' events' d', ledger_ok s → in_range s →
  config_for_slot (E:=LedgerError Id) eras (slot_of s) = Ok c → Forall (λ op, op_wf max (operation op)) ops → Forall pow_unowned ops →
  ops_fresh (Id:=Id) eras s c tx_hash index ops →
  apply_ops (Id:=Id) s eras c tx_hash index balance gas events d ops = Ok (s', balance', gas', events', d') →
  ops_mirrored s ops tx_hash events s' events'.
Proof.
  induction ops as [|op ops IH]; intros s index balance gas events d s' b' g' ev' d' Hok Hr Hc Hwf Hpow Hf Hrun; cbn [apply_ops] in Hrun.
  { injection Hrun as <- <- <- <- <-. exists []. rewrite app_nil_r. split_and!; [done|constructor|done|]. intros m _ _. exists [].
    split; [done|]. intros E n Hn. by exists n. }
  apply Forall_cons in Hwf as [Hop Hwf]. apply Forall_cons in Hpow as [Hp Hpow]. pose proof Hr as [Hslot Hep Hepm].
  peel Hrun as d1 Hv. apply map_err_ok in Hv. destruct (Hf d d1 Hv) as [Hfresh Hnext]. peel Hrun as g1 Hg1. peel Hrun as g2 Hg2.
  peel Hrun as [[s1 b1] ev1] Happ.
  pose proof (op_step max s eras c tx_hash index balance events d d1 Hok Hslot Hc Hep Hepm op Hop Hfresh Hv) as Hstep.
  rewrite Happ in Hstep. cbn [op_outcome] in Hstep. pose proof (op_applied_slot _ _ _ _ Hstep) as Hcons.
  eapply ops_mirrored_cons; [done|eapply op_mirror; eauto|]. eapply IH; [apply Hstep|by eapply op_applied_range|by rewrite Hcons|done..|by eapply Hnext|done].
Qed.

Implicit Types (tx : SignedOps) (txs : list SignedOps).

(** The hash of a well-formed transaction. *)
Definition tx_digest tx : TxHash := blake2b_256 (MANTLE_TX_HASH_V1 ++ bytes tx_ops_codec (op_refs tx)).

Lemma tx_hasher_ok {E : Type} tx : tx_wf max tx → tx_hasher (E:=E) tx = Ok (tx_digest tx).
Proof. intros [Hwf _]. unfold tx_hasher. by rewrite (as_signing_ok max tx Hwf). Qed.

Lemma transaction_operations s tx s' g events d : try_apply_transaction (Id:=Id) s eras tx = Ok (s', g, events, d) →
  ∃ balance gas, try_apply_tx_operations (Id:=Id) s eras tx = Ok (s', balance, gas, events, d).
Proof.
  intros Hrun. unfold try_apply_transaction in Hrun. peel Hrun as [[[[s1 b] gas] ev] df] Hops.
  peel Hrun as sg _. peel Hrun as ef _. peel Hrun as sf _. peel Hrun as tc _. peel Hrun as [] _. peel Hrun as tip _. injection Hrun as <- _ <- <-. eauto.
Qed.

Lemma transaction_mirror s tx s' g events d : ledger_ok s → in_range s → tx_wf max tx → tx_fresh (Id:=Id) eras s tx →
  Forall pow_unowned (signed_ops tx) → try_apply_transaction (Id:=Id) s eras tx = Ok (s', g, events, d) →
  ops_mirrored s (signed_ops tx) (tx_digest tx) [] s' events.
Proof.
  intros Hok Hr Hwf Hf Hpow (b & gas & Hops)%transaction_operations.
  unfold try_apply_tx_operations in Hops. peel Hops as c Hc. peel Hops as [] _. peel Hops as h Hh.
  pose proof (tx_hasher_ok (E:=LedgerError Id) tx Hwf) as Hh'. rewrite Hh in Hh'. injection Hh' as ->.
  eapply ops_mirror; [done..|apply Hwf|done|by apply Hf|done].
Qed.

(** ** Blocks *)

Definition block_runs s s' (wallet_txs : list (list WalletOp)) : Prop := ∀ (E : Type) n, follows_state keys s n →
  ∃ n', apply_wallet_txs (E:=E) keys n wallet_txs = Ok n' ∧ follows_state keys s' n'.

(** The events are in the map of the events. *)
Definition grouped (m : TxEvents) (events : list TxEvent) : Prop := ∀ e, e ∈ events →
  default ∅ (m !! te_tx_hash e) !! te_op_id e = Some (te_payload e).

(** No two operations of a transaction that emit events have the same identifier,
    and no two transactions the same hash. *)
Definition distinct_ids txs : Prop := NoDup (tx_digest <$> txs) ∧ Forall (λ tx, NoDup (event_ids (signed_ops tx))) txs.

Definition event_key (e : TxEvent) : TxHash * Hash := (te_tx_hash e, te_op_id e).

Definition txs_mirrored s txs (events : list TxEvent) s' (events' : list TxEvent) : Prop :=
  ∃ new, events' = events ++ new ∧ Forall (λ e, te_tx_hash e ∈ tx_digest <$> txs) new ∧
    (distinct_ids txs → NoDup (event_key <$> new)) ∧
    ∀ m : TxEvents, grouped m new → distinct_ids txs →
      ∃ wallet_txs, (∀ E : Type, transform_txs (E:=E) m txs = Ok wallet_txs) ∧ block_runs s s' wallet_txs.

Lemma NoDup_event_keys tx_hash (new : list TxEvent) : Forall (λ e, te_tx_hash e = tx_hash) new → NoDup (te_op_id <$> new) → NoDup (event_key <$> new).
Proof.
  intros Hh Hnd. replace (event_key <$> new) with (pair tx_hash <$> (te_op_id <$> new)).
  - apply NoDup_fmap_2; [|done]. by intros x y [= ->].
  - rewrite <- list_fmap_compose. apply list_fmap_ext. intros i e He. rewrite Forall_lookup in Hh. cbn. unfold event_key. by rewrite (Hh _ _ He).
Qed.

Lemma txs_mirrored_cons s tx txs ev s1 ev1 s2 ev2 : tx_wf max tx → ops_mirrored s (signed_ops tx) (tx_digest tx) [] s1 ev1 →
  txs_mirrored s1 txs (ev ++ ev1) s2 ev2 → txs_mirrored s (tx :: txs) ev s2 ev2.
Proof.
  intros Hwf (new1 & -> & Hh1 & Hs1 & Hm1) (new2 & -> & Hh2 & Hnd2 & Hm2). exists (new1 ++ new2). cbn [app]. rewrite app_assoc. split; [done|].
  assert (∀ e, e ∈ new2 → tx_digest tx ∉ tx_digest <$> txs → te_tx_hash e ≠ tx_digest tx) as Hne.
  { intros e He Hn Heq. rewrite Forall_forall in Hh2. specialize (Hh2 e He). by rewrite Heq in Hh2. }
  split_and!.
  - apply Forall_app. split; eapply Forall_impl; [exact Hh1| |exact Hh2|]; intros e He; cbn in *; [rewrite He; by left|by right].
  - intros [[Htx Hnd]%NoDup_cons [Hids Hall]%Forall_cons]. rewrite fmap_app. apply NoDup_app. split_and!.
    + eapply NoDup_event_keys; [done|]. by eapply sublist_NoDup.
    + intros k (e1 & -> & He1)%list_elem_of_fmap (e2 & Heq & He2)%list_elem_of_fmap. injection Heq as Heq _.
      apply (Hne e2 He2 Htx). rewrite <- Heq. rewrite Forall_forall in Hh1. by apply Hh1.
    + by apply Hnd2.
  - intros m Hg [[Htx Hnd]%NoDup_cons [Hids Hall]%Forall_cons].
    destruct (Hm1 (default ∅ (m !! tx_digest tx))) as (ws & Hws & Hrun1); [|done|].
    { intros e He. rewrite Forall_forall in Hh1. rewrite <- (Hh1 e He). apply Hg, elem_of_app. by left. }
    destruct (Hm2 (delete (tx_digest tx) m)) as (wtxs & Hwtxs & Hrun2); [|done|].
    { intros e He. rewrite lookup_delete_ne; [apply Hg, elem_of_app; by right|]. intros Heq. by apply (Hne e He Htx). }
    exists (ws :: wtxs). split.
    + intros E. cbn [transform_txs]. rewrite (tx_hasher_ok tx Hwf). cbn [mbind result_bind op_refs to_ops]. rewrite Hws. cbn [mbind result_bind].
      by rewrite Hwtxs.
    + intros E n Hn. destruct (Hrun1 E n Hn) as (n1 & Hn1 & Hfo1). destruct (Hrun2 E n1 Hfo1) as (n2 & Hn2 & Hfo2). exists n2.
      split; [|done]. cbn [apply_wallet_txs]. by rewrite Hn1.
Qed.

Lemma txs_mirror c txs : ∀ s index size g events d s' g' events' d', ledger_ok s → in_range s →
  config_for_slot (E:=LedgerError Id) eras (slot_of s) = Ok c → profile_ok (gas_profile c) → Forall (tx_wf max) txs →
  txs_fresh (Id:=Id) eras s txs → Forall (λ tx, Forall pow_unowned (signed_ops tx)) txs →
  apply_txs (Id:=Id) s eras c index size g events d txs = Ok (s', g', events', d') → txs_mirrored s txs events s' events'.
Proof.
  induction txs as [|tx txs IH]; intros s index size g events d s' g' ev' d' Hok Hr Hc Hprof Hwf Hf Hpow Hrun; cbn [apply_txs] in Hrun.
  { injection Hrun as <- <- <- <-. exists []. rewrite app_nil_r. split_and!; [done|constructor|intros _; constructor|]. intros m _ _. exists [].
    split; [done|]. intros E n Hn. by exists n. }
  apply Forall_cons in Hwf as [Htx Hwf]. apply Forall_cons in Hpow as [Hp Hpow]. destruct Hf as [Hf Hfs].
  peel Hrun as [] _. peel Hrun as sz _. peel Hrun as [] _. peel Hrun as [[[s1 g1] ev1] d1] Htxr. peel Hrun as g2 _.
  assert (∃ b, op_applied s 0 s1 b) as [b Hb].
  { pose proof (tx_operations_run eras max eras_genesis s tx Hok Hr Htx Hf) as Ho. pose proof Htxr as (b & gas & Hops)%transaction_operations.
    rewrite Hops in Ho. destruct Ho as [Ho _]; [intros c' Hc'; congruence|eauto]. }
  pose proof (op_applied_slot _ _ _ _ Hb) as Hslot.
  eapply txs_mirrored_cons; [done|by eapply transaction_mirror|].
  eapply IH; [apply Hb|by eapply op_applied_range|by rewrite Hslot|done..|by eapply Hfs|done|done].
Qed.

(** ** Events *)

Lemma group_headers (events : list HeaderEvent) acc : foldl group_event acc (EventHeader <$> events) = (acc.1 ++ events, acc.2).
Proof.
  revert acc. induction events as [|e events IH]; intros [hs m]; cbn [fmap list_fmap foldl]; [by rewrite app_nil_r|].
  rewrite IH. cbn. by rewrite <- app_assoc.
Qed.

Lemma group_txs (events : list TxEvent) (hs : list HeaderEvent) (m : TxEvents) : NoDup (event_key <$> events) →
  ∃ m', foldl group_event (hs, m) (EventTx <$> events) = (hs, m') ∧ grouped m' events.
Proof.
  induction events as [|e events IH] using rev_ind; intros Hnd; [exists m; split; [done|]; by intros e ?%not_elem_of_nil|].
  rewrite fmap_app in Hnd. apply NoDup_app in Hnd as (Hnd & Hdis & _). destruct (IH Hnd) as (m' & Hm' & Hg).
  rewrite fmap_app, foldl_app, Hm'. cbn. eexists. split; [done|]. intros e' [He'|He'%list_elem_of_singleton]%elem_of_app.
  - assert (event_key e' ≠ event_key e) as Hne.
    { intros Heq. apply (Hdis (event_key e')); [apply list_elem_of_fmap; eauto|]. rewrite Heq. by left. }
    specialize (Hg e' He'). destruct (decide (te_tx_hash e' = te_tx_hash e)) as [Heq|?]; [|by rewrite lookup_insert_ne].
    rewrite Heq, lookup_insert_eq in *. cbn. rewrite lookup_insert_ne; [done|]. intros Hop. apply Hne. unfold event_key. congruence.
  - subst e'. by rewrite lookup_insert_eq; cbn; rewrite lookup_insert_eq.
Qed.

Lemma group_block header_events (events : list TxEvent) : NoDup (event_key <$> events) →
  ∃ m, group_events ((EventHeader <$> header_events) ++ (EventTx <$> events)) = (header_events, m) ∧ grouped m events.
Proof. intros Hnd. unfold group_events. rewrite foldl_app, group_headers. by apply group_txs. Qed.

End Ops.

(** ** Headers *)

Section Headers.
Context {T R Params : Type} `{!Rewards T R Params}.

(** The events of the removal of declarations name the notes it unlocks. *)
Lemma remove_loop_events {E : Type} l : ∀ (r : Registry) events r' events', remove_loop (E:=E) r events l = Ok (r', events') →
  ∃ new, events' = events ++ new ∧ omap rewarded new = [] ∧
    ∀ id, is_Some (service_notes r' !! id) ↔ is_Some (service_notes r !! id) ∧ id ∉ omap unlocked_note new.
Proof.
  induction l as [|[did dd] l IH]; intros r events r' events' Hrun; cbn [remove_loop] in Hrun.
  { injection Hrun as <- <-. exists []. rewrite app_nil_r. split_and!; [done..|]. intros id. cbn. rewrite elem_of_nil. tauto. }
  peel Hrun as sn Hsn. destruct (unlock _ _ _ _) as [[sn' nt]|e|f] eqn:Hu; [|done..]. injection Hsn as ->.
  apply IH in Hrun as (new & -> & Hrew & Hids). cbn [service_notes] in Hids. unfold sn_contains in *.
  assert (∀ id, is_Some (sn !! id) ↔ is_Some (service_notes r !! id) ∧ (id = service_note_id dd → is_Some (sn !! id))) as Hsn.
  { intros id. unfold unlock in Hu. destruct (service_notes r !! service_note_id dd) as [x|] eqn:Hx; [|done]. case_bool_decide; [|done].
    injection Hu as <- _. destruct (decide (id = service_note_id dd)) as [->|Hne].
    - rewrite Hx. split; [|tauto]. intros ?. split; [by eexists|done].
    - case_bool_decide; [rewrite lookup_delete_ne by done|rewrite lookup_insert_ne by done]; tauto. }
  case_bool_decide as Hc.
  - exists new. split_and!; [done..|]. intros id. rewrite Hids, Hsn. split; [tauto|]. intros [? ?]. split; [|done]. split; [done|]. by intros ->.
  - exists (SdpNoteUnlocked (service_note_id dd) (service_type dd) did :: new). rewrite <- app_assoc. split_and!; [done|done|].
    intros id. rewrite Hids, Hsn. cbn. rewrite not_elem_of_cons. split; [intros [[? Hi] ?]; split_and!; [done| |done]; intros ->; by apply Hc, Hi|].
    intros (? & ? & ?). tauto.
Qed.

(** The events of a header name its rewards and the notes it unlocks. *)
Lemma service_header_events {E : Type} (v : Service R) (les es : EpochState T) notes params lp p v' notes' us ev :
  service_apply_header (E:=E) v les es notes params lp p = Ok ((v', notes'), us, ev) →
  omap rewarded ev = us ∧ ∀ id, is_Some (notes' !! id) ↔ is_Some (notes !! id) ∧ id ∉ omap unlocked_note ev.
Proof.
  unfold service_apply_header. intros Hrun. destruct (_ <? _).
  - peel Hrun as [rw us'] _. peel Hrun as [r unl] Hr. injection Hrun as <- <- <- <-.
    unfold remove_withdrawn_declarations in Hr. apply remove_loop_events in Hr as (new & -> & Hrew & Hids). cbn [app service_notes] in *.
    rewrite omap_app, Hrew, app_nil_r. split.
    + induction us' as [|u us' IH]; [done|]. cbn. by rewrite IH.
    + intros id. rewrite Hids, omap_app, elem_of_app.
      assert (id ∉ omap unlocked_note (SdpRewardDistributed (s_service_type v) <$> us')) as Hno; [|tauto].
      clear. induction us'; [apply not_elem_of_nil|done].
  - injection Hrun as <- <- <- <-. split; [done|]. intros id. cbn. rewrite elem_of_nil. tauto.
Qed.

Lemma services_header_events (last_config config : SdpConfig Params) (les es : EpochState T) l : ∀ acc us ev acc' us' ev',
  services_apply_header (R:=R) last_config config les es acc us ev l = Ok (acc', us', ev') →
  ∃ new, ev' = ev ++ new ∧ us' = us ++ omap rewarded new ∧
    ∀ id, is_Some (acc'.2 !! id) ↔ is_Some (acc.2 !! id) ∧ id ∉ omap unlocked_note new.
Proof.
  induction l as [|[st v] l IH]; intros acc us ev acc' us' ev' Hrun; cbn [services_apply_header] in Hrun.
  { injection Hrun as <- <- <-. exists []. rewrite !app_nil_r. split_and!; [done..|]. intros id. cbn. rewrite elem_of_nil. tauto. }
  peel Hrun as params _. peel Hrun as [[[v' notes] u] e] Hv. apply service_header_events in Hv as [<- Hids].
  apply IH in Hrun as (new & -> & -> & Hids'). exists (e ++ new). rewrite omap_app, !app_assoc. split_and!; [done..|].
  intros id. rewrite Hids'. cbn [snd]. rewrite Hids, omap_app, not_elem_of_app. tauto.
Qed.

Lemma sdp_header_events sdp (last_config config : SdpConfig Params) (les es : EpochState T) sdp' effect :
  sdp_apply_header (R:=R) sdp last_config config les es = Ok (sdp', effect) → reward_utxos effect = omap rewarded (he_events effect) ∧
  ∀ id, is_Some (sdp_service_notes sdp' !! id) ↔ is_Some (sdp_service_notes sdp !! id) ∧ id ∉ omap unlocked_note (he_events effect).
Proof.
  unfold sdp_apply_header. intros Hrun. peel Hrun as [[[sv notes] us] ev] Hs. injection Hrun as <- <-.
  by apply services_header_events in Hs as (new & -> & -> & Hids).
Qed.

End Headers.

Section Kept.
Context {T R Params Id : Type} `{!KeyedStoreOps T NoteId Utxo} `{!Rewards T R Params} `{Poseidon2Crate} `{Blake2Crate} `{Ed25519Crate} `{MultiaddrCrate}.
Context `{Ed25519Verify} `{PoCVerify}.
Implicit Types (s : LedgerState T R).

(** Operations leave the vouchers and their snapshot alone. *)
Definition leaders_kept s s' : Prop :=
  vouchers (m_leaders (mantle_ledger s')) = vouchers (m_leaders (mantle_ledger s)) ∧
  vouchers_snapshot (m_leaders (mantle_ledger s')) = vouchers_snapshot (m_leaders (mantle_ledger s)).

Lemma op_leaders s op (c : Config Params) tx_hash balance events s' b' ev' :
  try_apply_op (Id:=Id) s op c tx_hash balance events = Ok (s', b', ev') → leaders_kept s s'.
Proof.
  destruct op; cbn [try_apply_op]; intros Hrun; inv_ok Hrun; done.
Qed.

Lemma ops_leaders (eras : EraSchedule (Config Params)) c tx_hash ops : ∀ s index balance gas events d s' b' g' ev' d',
  apply_ops (Id:=Id) s eras c tx_hash index balance gas events d ops = Ok (s', b', g', ev', d') → leaders_kept s s'.
Proof.
  induction ops as [|op ops IH]; intros s index balance gas events d s' b' g' ev' d' Hrun; cbn [apply_ops] in Hrun; [by injection Hrun as <- _ _ _ _|].
  peel Hrun as d1 _. peel Hrun as g1 _. peel Hrun as g2 _. peel Hrun as [[s1 b1] ev1] Hop. apply op_leaders in Hop as [? ?].
  apply IH in Hrun as [? ?]. split; congruence.
Qed.

Lemma txs_leaders (eras : EraSchedule (Config Params)) c txs : ∀ s index size g events d s' g' ev' d',
  apply_txs (Id:=Id) s eras c index size g events d txs = Ok (s', g', ev', d') → leaders_kept s s'.
Proof.
  induction txs as [|tx txs IH]; intros s index size g events d s' g' ev' d' Hrun; cbn [apply_txs] in Hrun; [by injection Hrun as <- _ _ _|].
  peel Hrun as [] _. peel Hrun as sz _. peel Hrun as [] _. peel Hrun as [[[s1 g1] ev1] d1] Htx. peel Hrun as g2 _.
  apply transaction_operations in Htx as (b & gas & Hops). unfold try_apply_tx_operations in Hops. peel Hops as c' _. peel Hops as [] _.
  peel Hops as h _. apply ops_leaders in Hops as [? ?]. apply IH in Hrun as [? ?]. split; congruence.
Qed.

(** The end of a block leaves alone what a wallet follows. *)
Record notes_kept s s' : Prop := {
  nk_utxos : cl_utxos (cryptarchia_ledger s') = cl_utxos (cryptarchia_ledger s);
  nk_channels : m_channels (mantle_ledger s') = m_channels (mantle_ledger s);
  nk_service : sdp_service_notes (m_sdp (mantle_ledger s')) = sdp_service_notes (m_sdp (mantle_ledger s));
  nk_epoch : cl_epoch_state (cryptarchia_ledger s') = cl_epoch_state (cryptarchia_ledger s);
  nk_leaders : leaders_kept s s'
}.

Lemma notes_kept_trans s s1 s2 : notes_kept s s1 → notes_kept s1 s2 → notes_kept s s2.
Proof. intros [? ? ? ? [? ?]] [? ? ? ? [? ?]]. split; [..|split]; congruence. Qed.

Lemma rewards_kept s burned tip (c : Config Params) s' : compute_block_rewards (Id:=Id) s burned tip c = Ok s' → notes_kept s s'.
Proof.
  unfold compute_block_rewards. intros Hrun. peel Hrun as refill _. peel Hrun as pooled _. peel Hrun as l Hl. peel Hrun as sum _.
  peel Hrun as fee _. peel Hrun as [bl ld] _. peel Hrun as ld' _. peel Hrun as ls Hls. peel Hrun as sdp Hsdp. peel Hrun as pow _.
  injection Hrun as <-. unfold update_fee_window in Hl. peel Hl as [] _. injection Hl as <-.
  unfold add_pending_rewards in Hls. peel Hls as pd _. injection Hls as <-.
  assert (sdp_service_notes sdp = sdp_service_notes (m_sdp (mantle_ledger s))) as Hsn; [|by split].
  unfold add_blend_income in Hsdp. destruct (services _ !! _); [peel Hsdp as rw _|]; by injection Hsdp as <-.
Qed.

Lemma contents_kept s (eras : EraSchedule (Config Params)) txs s' events d :
  try_apply_block_contents (Id:=Id) s eras txs = Ok (s', events, d) →
  ∃ c s1 g, config_for_slot (E:=LedgerError Id) eras (cl_slot (cryptarchia_ledger s)) = Ok c ∧
    apply_txs (Id:=Id) s eras c 0 0 gas_and_fees_default [] deferred_new txs = Ok (s1, g, events, d) ∧ notes_kept s1 s'.
Proof.
  unfold try_apply_block_contents. intros Hrun. peel Hrun as c Hc. peel Hrun as [[[s1 g] ev] df] Htxs. peel Hrun as s2 Hs2. peel Hrun as s3 Hs3.
  peel Hrun as s4 Hs4. injection Hrun as <- <- <-. exists c, s1, g. split_and!; [done..|].
  eapply notes_kept_trans; [by eapply rewards_kept|]. unfold ledger_execution_market, apply_execution_market in Hs3. peel Hs3 as l3 Hl3.
  injection Hs3 as <-. peel Hl3 as [av bf] _. injection Hl3 as <-. unfold ledger_storage_gas, add_storage_gas_consumed in Hs4. peel Hs4 as l4 Hl4.
  injection Hs4 as <-. apply map_err_ok in Hl4. peel Hl4 as cs _. injection Hl4 as <-. by split.
Qed.

End Kept.

(** ** Rewards of proof of work *)

Section Pow.
Context {T R Params KeyId Id : Type} `{!KeyedStoreOps T NoteId Utxo, !KeyedStore T NoteId Utxo}.
Context `{!Rewards T R Params, !RewardsLaws T R Params} `{Poseidon2Crate} `{Blake2Crate} `{Ed25519Crate} `{MultiaddrCrate} `{PoCVerify}.

(** C39: the wallet misses the rewards of proof of work: a claim for a key of the
    wallet is turned into no operation, although the ledger created a note for
    that key, which a wallet started from the new state has. *)
Theorem pow_reward_untracked max (keys : gmap ZkPublicKey KeyId) (s : LedgerState T R) op (c : Config Params) tx_hash balance events s' b' ev' :
  ledger_ok s → op_wf max (ClaimPowReward op) → op_fresh s (SignedClaimPow op) → is_Some (keys !! cp_public_key op) →
  try_apply_op (Id:=Id) s (SignedClaimPow op) c tx_hash balance events = Ok (s', b', ev') →
  (∀ (E : Type) (events_by_op : OpEvents), transform_ops (E:=E) events_by_op [ClaimPowReward op] = Ok []) ∧
  ∃ u, pk (note u) = cp_public_key op ∧ ks_view (cl_utxos (cryptarchia_ledger s')) !! utxo_id u = Some u ∧
    utxos (notes_from_ledger keys s') !! utxo_id u = Some u ∧ utxos (notes_from_ledger keys s) !! utxo_id u = None.
Proof.
  intros Hok Hwf Hf Hown Hrun. split; [done|]. pose proof Hok as [Hn _ _ _ [_ _ Hr _] _]. cbn [try_apply_op] in Hrun. unfold pow_claim_execute in Hrun.
  rewrite (op_id_ok claim_pow_codec tt) in Hrun by by apply (payload_valid_wf max (ClaimPowReward op)).
  change (blake2b_256 _) with (op_digest (ClaimPowReward op)) in Hrun. peel Hrun as [r ev] Hrr. peel Hrr as slot Hslot.
  cbn [mbind result_bind pe_epoch_reward pe_utxos] in Hrr. set (u := mkUtxo _ _ _) in Hrr.
  destruct (claim_note_ok (E:=LedgerError Id) (cl_utxos (cryptarchia_ledger s)) _ _ u Hn) as (t' & Hins & Hn' & _); [split; cbn; lia|exact Hf|].
  destruct (claim_note_run (E:=LedgerError Id) (cl_utxos (cryptarchia_ledger s)) u (no_store _ _ _ Hn) Hf) as (t1 & Hins' & Hsc).
  rewrite Hins in Hins'. injection Hins' as <-. rewrite Hins in Hrr. cbn [mbind result_bind] in Hrr. peel Hrr as pool _. injection Hrr as <- <-.
  injection Hrun as <- <- <-. exists u. assert (ks_view t' !! utxo_id u = Some u) as Hu by (apply (sc_view _ _ _ _ Hsc); left; split; [by left|done]).
  split_and!; [done|done| |].
  - match goal with |- context [notes_from_ledger keys ?st] => apply (fo_utxos _ _ _ _ _ (from_ledger_follows keys st Hn')) end. done.
  - apply eq_None_not_Some. intros [u' [Hu' _]%(fo_utxos _ _ _ _ _ (from_ledger_follows keys s Hn))].
    rewrite (ins_fresh _ _ Hf u) in Hu'; [done|by left].
Qed.

End Pow.

(** ** Vouchers *)

Section Paths.
Context {VoucherId Id B : Type} `{Poseidon2Crate}.
Implicit Types (w : WalletState) (known : Vouchers VoucherId) (b : WalletBlock Id) (xs : list Z).

(** Every path is that of its commitment in the range of [xs]. *)
Definition paths_track xs (paths : VoucherPaths) : Prop := ∀ cm p, paths !! cm = Some p →
  tracks ACCEPTABLE_MAX_HEIGHT xs p ∧ xs !! Z.to_nat (leaf_index p) = Some cm.

Lemma tracked_entries known (paths : VoucherPaths) xs :
  paths_track xs paths → Forall (tracks ACCEPTABLE_MAX_HEIGHT xs) (filter (λ p : Z * MerklePath Z, is_known known p.1) (map_to_list paths)).*2.
Proof.
  intros Hp. apply Forall_forall. intros p ([cm p'] & -> & [_ Hin]%list_elem_of_filter)%list_elem_of_fmap.
  apply elem_of_map_to_list in Hin. cbn. by apply Hp in Hin as [? _].
Qed.

Lemma push_tracks known (paths : VoucherPaths) xs x new_path (new : list (MerklePath Z)) : paths_track xs paths →
  let entries := filter (λ p : Z * MerklePath Z, is_known known p.1) (map_to_list paths) in
  leaf_index <$> new = leaf_index <$> entries.*2 → Forall (tracks ACCEPTABLE_MAX_HEIGHT (xs ++ [x])) (new_path :: new) →
  leaf_index new_path = Z.of_nat (length xs) →
  let paths' := collect_map (zip entries.*1 new) in
  paths_track (xs ++ [x]) (if is_known known x then <[x := new_path]> paths' else paths').
Proof.
  intros Hp entries Hidx [Hnew Hall]%Forall_cons Hlast paths'.
  assert (paths_track (xs ++ [x]) paths') as Hp'.
  { intros cm p Hcm. apply collect_map_in, list_elem_of_lookup in Hcm as [i Hi]. apply lookup_zip_Some in Hi as [Hcm Hi].
    split; [by eapply Forall_lookup_1|]. rewrite list_lookup_fmap in Hcm. apply fmap_Some in Hcm as ([cm' p0] & He & ->).
    assert (leaf_index p = leaf_index p0) as ->.
    { assert ((leaf_index <$> new) !! i = (leaf_index <$> entries.*2) !! i) as Hx by congruence.
      rewrite !list_lookup_fmap, Hi, He in Hx. by injection Hx. }
    apply list_elem_of_lookup_2, list_elem_of_filter in He as [_ He]. apply elem_of_map_to_list, Hp in He as [_ He].
    by apply lookup_app_l_Some. }
  destruct (is_known known x); [|done]. intros cm p [[<- <-]|[_ ?]]%lookup_insert_Some; [|by apply Hp'].
  split; [done|]. by rewrite Hlast, Nat2Z.id, lookup_app_r, Nat.sub_diag by lia.
Qed.

Lemma collect_map_keys {K V : Type} `{Countable K} (l : list (K * V)) k : k ∈ l.*1 → is_Some (collect_map l !! k).
Proof.
  unfold collect_map. induction l as [|[k' x] l IH] using rev_ind; [by intros ?%not_elem_of_nil|].
  rewrite foldl_snoc, fmap_app, elem_of_app. rewrite lookup_insert_is_Some'. cbn. rewrite list_elem_of_singleton. intros [?| ->]; auto.
Qed.

(** No path of a voucher still known is lost. *)
Lemma push_keeps known (paths : VoucherPaths) x new_path (new : list (MerklePath Z)) cm :
  let entries := filter (λ p : Z * MerklePath Z, is_known known p.1) (map_to_list paths) in
  length new = length entries → is_known known cm = true → is_Some (paths !! cm) ∨ cm = x →
  let paths' := collect_map (zip entries.*1 new) in
  is_Some ((if is_known known x then <[x := new_path]> paths' else paths') !! cm).
Proof.
  intros entries Hlen Hk Hcm paths'. assert (is_Some (paths !! cm) → is_Some (paths' !! cm)) as Hold.
  { intros [p Hp]. apply collect_map_keys. rewrite fst_zip by (rewrite length_fmap; lia). apply list_elem_of_fmap. exists (cm, p).
    split; [done|]. apply list_elem_of_filter. split; [by apply Is_true_true|]. by apply elem_of_map_to_list. }
  destruct Hcm as [Hcm| ->]; [|by rewrite Hk, lookup_insert_eq]. destruct (is_known known x); [|by apply Hold].
  rewrite lookup_insert_is_Some'. right. by apply Hold.
Qed.

Lemma apply_voucher_ok w known b xs : represents ACCEPTABLE_MAX_HEIGHT (w_vouchers w) xs → Z.of_nat (length xs) < 2 ^ 32 →
  paths_track xs (voucher_paths w) → ∃ roots paths,
  apply_voucher (B:=B) w known b = Ok (roots, paths, if w_epoch w <? wb_epoch b then voucher_paths w else voucher_paths_snapshot w) ∧
  push ACCEPTABLE_MAX_HEIGHT (w_vouchers w) (wb_voucher_cm b) = Ok roots ∧
  represents ACCEPTABLE_MAX_HEIGHT roots (xs ++ [wb_voucher_cm b]) ∧ paths_track (xs ++ [wb_voucher_cm b]) paths ∧
  ∀ cm, is_known known cm = true → is_Some (voucher_paths w !! cm) ∨ cm = wb_voucher_cm b → is_Some (paths !! cm).
Proof.
  intros Hr Hlen Hp. unfold apply_voucher. set (entries := filter _ (map_to_list (voucher_paths w))).
  destruct (push_with_paths_spec ACCEPTABLE_MAX_HEIGHT (w_vouchers w) xs (wb_voucher_cm b) entries.*2) as
    (roots & new & np & Hpush & Hpush' & Hr' & Hlast & Hall & Hidx); [unfold ACCEPTABLE_MAX_HEIGHT; lia|done|by rewrite width_32|by apply tracked_entries|].
  rewrite Hpush. cbn [map_err mbind result_bind]. eexists _, _. split; [done|]. split_and!; [done|done|by apply push_tracks|].
  intros cm Hk Hcm. apply push_keeps; [|done|done]. apply (f_equal length) in Hidx. by rewrite !length_fmap in Hidx.
Qed.

(** The snapshot verifies against the root of the range it was taken from. *)
Lemma paths_verify xs (paths : VoucherPaths) roots : represents ACCEPTABLE_MAX_HEIGHT roots xs → paths_track xs paths → ∀ cm p, paths !! cm = Some p →
  verify p cm (full_root (ACCEPTABLE_MAX_HEIGHT - 1) (leaf_fn xs)) = true.
Proof.
  intros Hr Hp cm p [Ht Hcm]%Hp. pose proof (frontier_root_represents (E:=False) ACCEPTABLE_MAX_HEIGHT roots xs) as Hf.
  eapply (tracked_path_verifies (E:=False)); [|exact Hr|done|done|apply Hf]; [unfold ACCEPTABLE_MAX_HEIGHT; lia..|done].
Qed.

End Paths.

(** ** The wallet along the chain *)

Section Mirror.
Context {T R Params P KeyId VoucherId Id B : Type} `{!KeyedStoreOps T NoteId Utxo, !KeyedStore T NoteId Utxo}.
Context `{!Rewards T R Params, !RewardsLaws T R Params}.
Context `{Poseidon2Crate} `{Blake2Crate} `{Ed25519Crate} `{MultiaddrCrate} `{Ed25519Verify} `{PoCVerify}.
Context `{BigUintCrate} `{LotteryCrate} `{!LeaderProof P} `{!IntoBlockHash Id} `{!SlotDuration (Config Params)}.
Context (eras : EraSchedule (Config Params)) (max : Z) (keys : gmap ZkPublicKey KeyId).
Hypothesis eras_genesis : e_first_slot (s_genesis eras) = 0.
Hypothesis eras_wf : wf_schedule eras.
Hypothesis eras_ok : ∀ v, v ∈ Era.eras eras → config_ok (v_parameters v).
Implicit Types (s : LedgerState T R) (w : WalletState) (known : Vouchers VoucherId) (n : Notes).

Notation leaders s := (m_leaders (mantle_ledger s)).
Notation slot_of s := (cl_slot (cryptarchia_ledger s)).

(** The wallet state is that of the ledger state: the notes are what a wallet
    started from it would have, the range of vouchers is its range, tracked paths
    are paths in it, and those of the snapshot verify against its snapshot. *)
Record wallet_tracks s w : Prop := {
  wt_notes : notes w = notes_from_ledger keys s;
  wt_epoch : w_epoch w = es_epoch (cl_epoch_state (cryptarchia_ledger s));
  wt_vouchers : w_vouchers w = vouchers (leaders s);
  wt_paths : ∃ xs, represents ACCEPTABLE_MAX_HEIGHT (w_vouchers w) xs ∧ paths_track xs (voucher_paths w);
  wt_snapshot : ∀ cm p, voucher_paths_snapshot w !! cm = Some p → verify p cm (vs_root (vouchers_snapshot (leaders s))) = true
}.

Lemma start_tracks s : ledger_ok s → wallet_tracks s (from_ledger keys s).
Proof.
  intros Hok. destruct (mo_leaders _ _ _ _ Hok) as (xs & Hl & _). split; [done..| |].
  - exists xs. split; [apply Hl|]. intros cm p. cbn. by rewrite lookup_empty.
  - intros cm p. cbn. by rewrite lookup_empty.
Qed.

(** The header of a block, for the notes. *)
Lemma header_mirror s slot proof uncles s' events : chain_ok (Id:=Id) eras s → header_fresh (Id:=Id) eras s slot proof uncles →
  try_apply_header (Id:=Id) s slot proof uncles eras = Ok (s', events) →
  ∀ n, follows_state keys s n → follows_state keys s' (foldl (apply_header_op keys) n (header_op <$> events)).
Proof.
  intros [Hok _ Hepo _ _ _] Hf Ha n Hn. unfold try_apply_header in Ha. peel Ha as l Hl. peel Ha as [m effect] Hm. apply map_err_ok in Hm.
  specialize (Hf l m effect Hl Hm). pose proof (apply_header_ok _ _ _ _ _ _ _ _ Hepo Hl) as (lu & _ & _ & _ & _ & Hu & _).
  rewrite Hu in Hf, Ha. peel Ha as t' Hins. peel Ha as number _. injection Ha as <- <-.
  destruct (spend_none (E:=LedgerError Id) _ _ (no_store _ _ _ (mo_notes _ _ _ _ Hok)) Hf) as (t1 & Ht1 & Hsc). rewrite Hins in Ht1. injection Ht1 as <-.
  unfold mantle_apply_header in Hm. peel Hm as lc _. peel Hm as c _. peel Hm as ls _. peel Hm as [sdp eff] Hsdp. peel Hm as pow _.
  injection Hm as <- <-. apply map_err_ok, sdp_header_events in Hsdp as [Hrew Hids]. rewrite Hrew in *.
  eapply follows_ext; [apply follows_header; [exact Hn|apply insertable_fresh; [apply Hok|done]]|..]; [| |done].
  - intros id u. cbn. rewrite (sc_view _ _ _ _ Hsc). pose proof (not_elem_of_nil id). tauto.
  - intros id. cbn. by rewrite Hids.
Qed.

(** The header of a block, for the vouchers. *)
Lemma header_vouchers s slot proof uncles s' events xs : chain_ok (Id:=Id) eras s → block_number s < 2 ^ 32 →
  represents ACCEPTABLE_MAX_HEIGHT (vouchers (leaders s)) xs →
  try_apply_header (Id:=Id) s slot proof uncles eras = Ok (s', events) →
  ∀ epoch, epoch_for_slot (E:=LedgerError Id) eras slot = Ok epoch →
  Z.of_nat (length xs) < 2 ^ 32 ∧ es_epoch (cl_epoch_state (cryptarchia_ledger s')) = epoch ∧
  push ACCEPTABLE_MAX_HEIGHT (vouchers (leaders s)) (lp_voucher_cm proof) = Ok (vouchers (leaders s')) ∧
  vs_root (vouchers_snapshot (leaders s')) =
    if es_epoch (cl_epoch_state (cryptarchia_ledger s)) <? epoch then full_root (ACCEPTABLE_MAX_HEIGHT - 1) (leaf_fn xs)
    else vs_root (vouchers_snapshot (leaders s)).
Proof.
  intros [Hok _ Hepo Hep _ _] Hnum Hr Ha epoch Hepoch. unfold try_apply_header in Ha. peel Ha as l Hl. peel Ha as [m effect] Hm.
  pose proof (apply_header_ok _ _ _ _ _ _ _ _ Hepo Hl) as (lu & _ & Hepo' & Hlt & Hs & _).
  peel Ha as t' _. peel Ha as number _. injection Ha as <- <-. cbn [cryptarchia_ledger update_utxos cl_epoch_state mantle_ledger].
  assert (es_epoch (cl_epoch_state l) = epoch) as He by (pose proof (eo_epoch _ _ Hepo') as He; rewrite Hs, Hepoch in He; by injection He).
  assert (es_epoch (cl_epoch_state (cryptarchia_ledger s)) <= epoch) as Hmono.
  { rewrite <- He. pose proof (eo_slot _ _ Hepo). eapply (epoch_for_slot_mono eras); [done| |apply Hepo|apply Hepo']. lia. }
  destruct (mo_leaders _ _ _ _ Hok) as (ys & [Hy ? ? ?] & Hlen). assert (length xs = length ys) as Hxy.
  { apply Nat2Z.inj. rewrite <- (represents_len ACCEPTABLE_MAX_HEIGHT (vouchers (leaders s)) xs), <- (represents_len ACCEPTABLE_MAX_HEIGHT (vouchers (leaders s)) ys);
      first [done|unfold ACCEPTABLE_MAX_HEIGHT; lia]. }
  assert (leaders_ok xs (leaders s)) as Hlo by (by split). pose proof (mo_epoch _ _ _ _ Hok) as Hle. rewrite <- Hep in Hle.
  unfold mantle_apply_header in Hm. apply map_err_ok in Hm. peel Hm as lc _. peel Hm as c _. peel Hm as ls Hls. peel Hm as [sdp eff] _. peel Hm as pow _.
  injection Hm as <- <-. apply map_err_ok in Hls. cbn [m_leaders].
  destruct (leaders_header xs (leaders s) (es_epoch (cl_epoch_state l)) (lp_voucher_cm proof) Hlo) as (ls' & Hls' & _ & _ & _ & Hsnap & _); [lia|lia|].
  rewrite Hls in Hls'. injection Hls' as <-. split_and!; [lia|done| |].
  - unfold leaders_apply_header in Hls. peel Hls as l1 Hl1. unfold add_voucher in Hls. peel Hls as roots Hroots. injection Hls as <-. cbn [vouchers].
    assert (vouchers l1 = vouchers (leaders s)) as Hv1.
    { unfold Leaders.update_epoch_state in Hl1. destruct (es_epoch (cl_epoch_state l) ?= l_epoch (leaders s)); [by injection Hl1 as <-|done|]. peel Hl1 as l2 Hl2. peel Hl1 as l3 Hl3. injection Hl1 as <-.
      unfold snapshot_vouchers in Hl2. peel Hl2 as r _. peel Hl2 as k _. injection Hl2 as <-. unfold update_claimable_rewards in Hl3.
      peel Hl3 as cl _. by injection Hl3 as <-. }
    rewrite <- Hv1. destruct (push _ _ _); [by injection Hroots as <-|done..].
  - rewrite Hsnap. unfold header_snapshot. rewrite Hle, He. by destruct (_ <? _).
Qed.

(** The transactions of a block keep the invariant and the epoch. *)
Lemma txs_keep c txs : ∀ s index size g events d s' g' events' d', ledger_ok s → in_range s →
  config_for_slot (E:=LedgerError Id) eras (slot_of s) = Ok c → profile_ok (gas_profile c) → Forall (tx_wf max) txs →
  txs_fresh (Id:=Id) eras s txs → apply_txs (Id:=Id) s eras c index size g events d txs = Ok (s', g', events', d') →
  ledger_ok s' ∧ cl_epoch_state (cryptarchia_ledger s') = cl_epoch_state (cryptarchia_ledger s).
Proof.
  induction txs as [|tx txs IH]; intros s index size g events d s' g' ev' d' Hok Hr Hc Hprof Hwf Hf Hrun; cbn [apply_txs] in Hrun; [by injection Hrun as <- _ _ _|].
  apply Forall_cons in Hwf as [Htx Hwf]. destruct Hf as [Hf Hfs].
  peel Hrun as [] _. peel Hrun as sz _. peel Hrun as [] _. peel Hrun as [[[s1 g1] ev1] d1] Htxr. peel Hrun as g2 _.
  pose proof (tx_operations_run eras max eras_genesis s tx Hok Hr Htx Hf) as Ho. pose proof Htxr as (b & gas & Hops)%transaction_operations.
  rewrite Hops in Ho. destruct Ho as [Hb _]; [intros c' Hc'; congruence|]. pose proof (op_applied_slot _ _ _ _ Hb) as Hslot.
  apply IH in Hrun as [? He]; [|apply Hb|by eapply op_applied_range|by rewrite Hslot|done|done|by eapply Hfs].
  split; [done|]. by rewrite He, (oa_consensus _ _ _ _ Hb).
Qed.

Lemma follows_kept s s' n : notes_kept s s' → follows_state keys s n → follows_state keys s' n.
Proof. intros [Hu Hc Hs _ _]. unfold follows_state. by rewrite Hu, Hc, Hs. Qed.

(** What a block does to the ledger state, in the parts a wallet follows. *)
Lemma update_parts s id slot proof uncles txs s' events d : try_update (Id:=Id) s id slot proof uncles txs eras = Ok (s', events, d) →
  ∃ s1 header_events m c s2 g tx_events dp, try_apply_header (Id:=Id) s slot proof uncles eras = Ok (s1, header_events) ∧
    mantle_add_seen_block (E:=LedgerError Id) (mantle_ledger s1) (into_block_hash id) slot eras = Ok m ∧ notes_kept s1 (with_mantle s1 m) ∧
    config_for_slot (E:=LedgerError Id) eras (slot_of s1) = Ok c ∧
    apply_txs (Id:=Id) (with_mantle s1 m) eras c 0 0 gas_and_fees_default [] deferred_new txs = Ok (s2, g, tx_events, dp) ∧
    notes_kept s2 s' ∧ events = (EventHeader <$> header_events) ++ (EventTx <$> tx_events).
Proof.
  unfold try_update. intros Hu. peel Hu as [s1 hev] Hs1. peel Hu as m Hm. peel Hu as [[s3 tev] dp] Hs3. peel Hu as p2 _. peel Hu as c2 _.
  peel Hu as s4 Hs4. injection Hu as <- <- <-. apply contents_kept in Hs3 as (c & s2 & g & Hc & Htxs & Hk).
  exists s1, hev, m, c, s2, g, tev, dp. split_and!; [done|done| |done|done| |done].
  - unfold mantle_add_seen_block in Hm. peel Hm as p _. by injection Hm as <-.
  - eapply notes_kept_trans; [exact Hk|]. unfold update_pow_reward_difficulty in Hs4. peel Hs4 as p3 _. by injection Hs4 as <-.
Qed.

(** The state in which the transactions of a block run. *)
Lemma contents_state s id slot proof uncles txs s1 hev m : chain_ok (Id:=Id) eras s → block_number s < 2 ^ 32 →
  block_assumptions eras max s id slot proof uncles txs → try_apply_header (Id:=Id) s slot proof uncles eras = Ok (s1, hev) →
  mantle_add_seen_block (E:=LedgerError Id) (mantle_ledger s1) (into_block_hash id) slot eras = Ok m →
  ledger_ok (with_mantle s1 m) ∧ in_range (with_mantle s1 m) ∧ slot_of s1 = slot ∧ txs_fresh (Id:=Id) eras (with_mantle s1 m) txs.
Proof.
  intros Hok Hnum [Hh Hft _ _ Hsb Heb] Hs1 Hm. destruct (header_run eras eras_wf eras_ok _ _ _ _ _ _ Hok Hnum Hh Hs1) as (Hok1 & Hlt & Hslot & _ & _).
  pose proof (eo_slot _ _ (ch_epochs _ _ Hok)) as Hpos. split_and!; [| |done|by eapply Hft].
  - unfold mantle_add_seen_block in Hm. peel Hm as pow Hpow. injection Hm as <-. apply add_seen_ok in Hpow as (Hpok & _); [|apply Hok1|lia].
    destruct (ch_ledger _ _ Hok1). by split.
  - pose proof (eo_epoch _ _ (ch_epochs _ _ Hok1)) as He. rewrite Hslot in He. destruct (Heb _ He) as [? ?]. rewrite (ch_epoch _ _ Hok1) in *.
    unfold mantle_add_seen_block in Hm. peel Hm as pow _. injection Hm as <-. split; cbn; lia.
Qed.

(** The notes of the wallet after a block. *)
Lemma block_notes s id slot proof uncles txs s' events d : chain_ok (Id:=Id) eras s → block_number s < 2 ^ 32 →
  block_assumptions eras max s id slot proof uncles txs → distinct_ids txs → Forall (λ tx, Forall (pow_unowned keys) (signed_ops tx)) txs →
  try_update (Id:=Id) s id slot proof uncles txs eras = Ok (s', events, d) →
  (∀ n, follows_state keys s' n → n = notes_from_ledger keys s') ∧ ∃ header_ops wallet_txs,
    (∀ (E : Type) parent voucher epoch, from_block (E:=E) id parent voucher txs epoch events =
       Ok (mkWalletBlock id parent epoch voucher header_ops wallet_txs)) ∧
    ∀ (E : Type) n, follows_state keys s n →
      ∃ n', apply_wallet_txs (E:=E) keys (foldl (apply_header_op keys) n header_ops) wallet_txs = Ok n' ∧ follows_state keys s' n'.
Proof.
  intros Hok Hnum Hba Hdist Hpow Hu.
  destruct (update_parts _ _ _ _ _ _ _ _ _ Hu) as (s1 & hev & m & c & s2 & g & tev & dp & Hs1 & Hm & Hk1 & Hc & Htxs & Hk2 & ->).
  destruct (contents_state _ _ _ _ _ _ _ _ _ Hok Hnum Hba Hs1 Hm) as (Hok1 & Hr1 & Hslot & Hft). pose proof (ba_wf _ _ _ _ _ _ _ _ Hba) as Hwf.
  assert (profile_ok (gas_profile c)) as Hprof by (pose proof (config_for_slot_in _ _ _ Hc) as (era & Hera & <-); apply eras_ok; done).
  destruct (txs_keep c txs _ _ _ _ _ _ _ _ _ _ Hok1 Hr1 Hc Hprof Hwf Hft Htxs) as [Hok2 _].
  destruct (txs_mirror keys eras max eras_genesis c txs _ _ _ _ _ _ _ _ _ _ Hok1 Hr1 Hc Hprof Hwf Hft Hpow Htxs) as (new & Hnew & _ & Hkeys & Hmirror).
  cbn [app] in Hnew. subst new. destruct (group_block hev tev (Hkeys Hdist)) as (tm & Hgroup & Hg). destruct (Hmirror tm Hg Hdist) as (wtxs & Hwtxs & Hruns).
  split.
  - intros n Hn. eapply follows_unique; [exact Hn|]. apply from_ledger_follows. rewrite (nk_utxos _ _ Hk2), (nk_channels _ _ Hk2), (nk_service _ _ Hk2). apply Hok2.
  - exists (header_op <$> hev), wtxs. split.
    + intros E parent voucher epoch. unfold from_block. rewrite Hgroup, Hwtxs. done.
    + intros E n Hn. pose proof (header_mirror _ _ _ _ _ _ Hok (ba_header _ _ _ _ _ _ _ _ Hba) Hs1 n Hn) as Hn1.
      apply (follows_kept _ _ _ Hk1) in Hn1. destruct (Hruns E _ Hn1) as (n' & Hrun & Hn'). exists n'. split; [done|]. by eapply follows_kept.
Qed.

(** The vouchers of the ledger after a block. *)
Lemma block_vouchers s id slot proof uncles txs s' events d xs epoch : chain_ok (Id:=Id) eras s → block_number s < 2 ^ 32 →
  block_assumptions eras max s id slot proof uncles txs → try_update (Id:=Id) s id slot proof uncles txs eras = Ok (s', events, d) →
  represents ACCEPTABLE_MAX_HEIGHT (vouchers (leaders s)) xs → epoch_for_slot (E:=LedgerError Id) eras slot = Ok epoch →
  Z.of_nat (length xs) < 2 ^ 32 ∧ es_epoch (cl_epoch_state (cryptarchia_ledger s')) = epoch ∧
  push ACCEPTABLE_MAX_HEIGHT (vouchers (leaders s)) (lp_voucher_cm proof) = Ok (vouchers (leaders s')) ∧
  vs_root (vouchers_snapshot (leaders s')) =
    if es_epoch (cl_epoch_state (cryptarchia_ledger s)) <? epoch then full_root (ACCEPTABLE_MAX_HEIGHT - 1) (leaf_fn xs)
    else vs_root (vouchers_snapshot (leaders s)).
Proof.
  intros Hok Hnum Hba Hu Hxs Hep.
  destruct (update_parts _ _ _ _ _ _ _ _ _ Hu) as (s1 & hev & m & c & s2 & g & tev & dp & Hs1 & Hm & Hk1 & Hc & Htxs & Hk2 & ->).
  destruct (contents_state _ _ _ _ _ _ _ _ _ Hok Hnum Hba Hs1 Hm) as (Hok1 & Hr1 & Hslot & Hft). pose proof (ba_wf _ _ _ _ _ _ _ _ Hba) as Hwf.
  assert (profile_ok (gas_profile c)) as Hprof by (pose proof (config_for_slot_in _ _ _ Hc) as (era & Hera & <-); apply eras_ok; done).
  destruct (txs_keep c txs _ _ _ _ _ _ _ _ _ _ Hok1 Hr1 Hc Hprof Hwf Hft Htxs) as [_ He2].
  apply txs_leaders in Htxs as [Hv2 Hsn2]. destruct Hk1 as [_ _ _ He1 [Hv1 Hsn1]], Hk2 as [_ _ _ He3 [Hv3 Hsn3]].
  rewrite He3, He2, He1, Hv3, Hv2, Hv1, Hsn3, Hsn2, Hsn1. by eapply header_vouchers.
Qed.

(** C13: the wallet mirrors the ledger. Started from a ledger state, it is in that
    state; and from a wallet in the state of a block, an accepted next block with
    its events makes the wallet neither panic nor fail, and leaves it in the state
    of that block: it has exactly the unspent notes of its keys, with their index,
    locks and channel marks, as if it were started there; every path it keeps is
    that of its voucher, paths of known vouchers are not lost, and the paths it
    would prove claims with verify against the root the ledger checks claims
    with. This holds of blocks without proof-of-work claims for a key of the
    wallet, whose identifiers do not collide. *)
Theorem wallet_mirrors_ledger s : chain_ok (Id:=Id) eras s → block_number s < 2 ^ 32 →
  wallet_tracks s (from_ledger keys s) ∧
  ∀ w known id parent slot proof uncles txs epoch s' events d, wallet_tracks s w →
    block_assumptions eras max s id slot proof uncles txs → distinct_ids txs →
    Forall (λ tx, Forall (pow_unowned keys) (signed_ops tx)) txs →
    try_update (Id:=Id) s id slot proof uncles txs eras = Ok (s', events, d) → epoch_for_slot (E:=LedgerError Id) eras slot = Ok epoch →
    ∃ b w', from_block (E:=WalletError Id B) id parent (lp_voucher_cm proof) txs epoch events = Ok b ∧
      state_apply_block (B:=B) w keys known b = Ok w' ∧ wallet_tracks s' w' ∧
      ∀ cm, is_known known cm = true → is_Some (voucher_paths w !! cm) ∨ cm = lp_voucher_cm proof → is_Some (voucher_paths w' !! cm).
Proof.
  intros Hok Hnum. split; [apply start_tracks, Hok|].
  intros w known id parent slot proof uncles txs epoch s' events d [Hwn Hwe Hwv (xs & Hxs & Hpaths) Hwsnap] Hba Hdist Hpow Hu Hep.
  destruct (block_notes _ _ _ _ _ _ _ _ _ Hok Hnum Hba Hdist Hpow Hu) as (Huniq & hops & wtxs & Hfrom & Hnotes).
  pose proof Hxs as Hxs'. rewrite Hwv in Hxs'.
  destruct (block_vouchers _ _ _ _ _ _ _ _ _ _ _ Hok Hnum Hba Hu Hxs' Hep) as (Hlen & He & Hpush & Hroot).
  set (b := mkWalletBlock id parent epoch (lp_voucher_cm proof) hops wtxs). exists b.
  destruct (Hnotes (WalletError Id B) (notes w)) as (n' & Hrun & Hn').
  { rewrite Hwn. apply from_ledger_follows, Hok. }
  destruct (apply_voucher_ok (B:=B) w known b xs Hxs Hlen Hpaths) as (roots & paths & Hv & Hpush' & Hr' & Hp' & Hkeep).
  eexists. split; [apply Hfrom|]. split_and!.
  - unfold state_apply_block, apply_notes. cbn [wb_header_ops wb_txs b]. rewrite Hrun. cbn [mbind result_bind]. rewrite Hv. done.
  - assert (roots = vouchers (leaders s')) as Hroots by (change (wb_voucher_cm b) with (lp_voucher_cm proof) in Hpush'; rewrite Hwv, Hpush in Hpush'; by injection Hpush').
    split; cbn; [by apply Huniq|done|done|by exists (xs ++ [lp_voucher_cm proof])|].
    intros cm p. rewrite Hroot, Hwe. destruct (_ <? _); [|apply Hwsnap]. by eapply paths_verify.
  - done.
Qed.

End Mirror.

End WalletMirror.
