(* ===== verification/TxBuilder.v ===== *)
(** * Building and pricing a transaction

    What a wallet does before a transaction is signed: core/src/mantle/transactions
    builder.rs, codec.rs (the size once signed), thresholds.rs (the thresholds as
    the operations move them) and tx_list/ops.rs (its gas), and the selection of
    notes of [WalletState::fund_tx] in wallet/src/lib.rs. *)

From stdpp Require Import sorting.
From S2P Require Import Prelude MerkleStore Mmr Codec Ops Channels Utxos ServiceNotes Inputs ChannelOps SignedTx SdpOps LedgerConfig ClaimOps TxVerification Leaders Pow Markets Cryptarchia Ledger Wallet.

#[local] Open Scope Z_scope.

Module TxBuilder.
Import Canonical Bounded Ops Utxos Channels ServiceNotes Inputs ChannelOps SignedTx SdpOps LedgerConfig ClaimOps TxVerification Leaders Pow Markets Cryptarchia Ledger Wallet.

(** ** The context of the prices *)

Record GasPrices := mkPrices { execution_base_gas_price : Z; storage_gas_price : Z }.

(** [OpsGasContext]; of [OpsContext] the pricing reads nothing else. *)
Record OpsGasContext := mkGasContext {
  transfer_thresholds : gmap ChannelId Z;
  configuration_thresholds : gmap ChannelId Z;
  gas_prices : GasPrices;
  context_profile : GasProfile
}.

(** [OpsGasContext::from_channels]. *)
Definition from_channels (c : Channels) (base_prices : GasPrices) (profile : GasProfile) : OpsGasContext :=
  mkGasContext (transfer_threshold <$> channels c) (configuration_threshold <$> channels c) base_prices profile.

(** ** Thresholds: [RunningThresholds] *)

Record RunningThresholds := mkRunning {
  running_context : OpsGasContext;
  running_transfer : gmap ChannelId Z;
  running_configuration : gmap ChannelId Z
}.

Definition running_new (context : OpsGasContext) : RunningThresholds := mkRunning context ∅ ∅.

Definition channel_exists (r : RunningThresholds) (channel : ChannelId) : bool :=
  bool_decide (is_Some (running_configuration r !! channel)) ||
  bool_decide (is_Some (configuration_thresholds (running_context r) !! channel)).

(** [RunningThresholds::apply]. *)
Definition running_apply (r : RunningThresholds) (op : Op) : RunningThresholds :=
  match op with
  | ChannelConfig op =>
      mkRunning (running_context r) (<[c_channel op := c_transfer_threshold op]> (running_transfer r))
        (<[c_channel op := c_configuration_threshold op]> (running_configuration r))
  | ChannelInscribe op =>
      if channel_exists r (i_channel_id op) then r
      else mkRunning (running_context r) (<[i_channel_id op := DEFAULT_TRANSFER_THRESHOLD]> (running_transfer r))
             (<[i_channel_id op := 1]> (running_configuration r))
  | _ => r
  end.

#[export] Instance running_thresholds : ThresholdSource RunningThresholds := {|
  source_configuration_threshold r channel :=
    default 0 (match running_configuration r !! channel with
               | Some t => Some t
               | None => configuration_thresholds (running_context r) !! channel
               end);
  source_transfer_threshold r channel :=
    default 0 (match running_transfer r !! channel with
               | Some t => Some t
               | None => transfer_thresholds (running_context r) !! channel
               end)
|}.

(** ** Gas and size: [TxGasCalculator for OpRefs] *)

(** The fold of [execution_gas_consumption]. *)
Fixpoint consumed_gas (thresholds : RunningThresholds) (total : Z) (ops : list Op) : result GasOverflow Z :=
  match ops with
  | [] => Ok total
  | op :: ops =>
      gas ← TxVerification.execution_gas op (context_profile (running_context thresholds)) thresholds;
      total ← gas_add total gas;
      consumed_gas (running_apply thresholds op) total ops
  end.

Definition execution_gas_consumption (context : OpsGasContext) (ops : TxOps) : result GasOverflow Z :=
  consumed_gas (running_new context) 0 (to_ops ops).

(** [calculate_channel_multi_sig_proof_byte_size]. *)
Definition multi_sig_proof_byte_size (threshold : Z) : Z := 2 + threshold * (2 + Z.of_nat SIGNATURE_SIZE).

Definition proof_byte_size (thresholds : RunningThresholds) (op : Op) : Z :=
  match op with
  | ChannelInscribe _ => Z.of_nat SIGNATURE_SIZE
  | ChannelConfig op => multi_sig_proof_byte_size (source_configuration_threshold thresholds (c_channel op))
  | SDPDeclare _ => Z.of_nat COMPRESSED_PROOF_SIZE + Z.of_nat SIGNATURE_SIZE
  | SDPWithdraw _ | SDPActive _ | LeaderClaim _ | Transfer _ | ChannelDeposit _ => Z.of_nat COMPRESSED_PROOF_SIZE
  | ChannelWithdraw op => multi_sig_proof_byte_size (source_transfer_threshold thresholds (w_channel_id op))
  | ChannelTransfer op => multi_sig_proof_byte_size (source_transfer_threshold thresholds (ct_channel_id op))
  | ClaimPowReward _ => 0
  end.

(** The fold of [minimum_signed_transaction_size]. *)
Fixpoint proofs_byte_size {E : Type} (thresholds : RunningThresholds) (total : Z) (ops : list Op) : result E Z :=
  match ops with
  | [] => Ok total
  | op :: ops =>
      total' ← strict_add usize_max total (proof_byte_size thresholds op);
      proofs_byte_size (running_apply thresholds op) total' ops
  end.

Section Price.
Context `{Ed25519Crate} `{MultiaddrCrate}.

Definition minimum_signed_transaction_size {E : Type} (context : OpsGasContext) (ops : TxOps) : result E Z :=
  encoded_ops_size ← encoded_length tx_ops_codec ops;
  ops_proofs_size ← proofs_byte_size (running_new context) 0 (to_ops ops);
  strict_add usize_max encoded_ops_size ops_proofs_size.

(** [storage_gas_cost] and [total_gas_cost]. *)
Definition storage_gas_cost (context : OpsGasContext) (ops : TxOps) : result GasOverflow Z :=
  size ← minimum_signed_transaction_size context ops;
  gas_cost (as_u64 size) (storage_gas_price (gas_prices context)).

Definition total_gas_cost (context : OpsGasContext) (ops : TxOps) : result GasOverflow Z :=
  execution_gas ← execution_gas_consumption context ops;
  execution_gas_cost ← gas_cost execution_gas (execution_base_gas_price (gas_prices context));
  storage_gas_cost ← storage_gas_cost context ops;
  cost_add execution_gas_cost storage_gas_cost.

End Price.

(** ** The builder *)

Inductive TxBuilderError :=
  | InvalidOpsBounds (e : BoundedError)
  | InvalidInputsBounds (e : BoundedError)
  | InvalidOutputsBounds (e : BoundedError)
  | BuilderGasOverflow
  | MissingTransferThreshold (channel_id : ChannelId)
  | NegativeNetBalance (net_balance : Z).

(** [MantleTxBuilder]. *)
Record MantleTxBuilder := mkBuilder {
  builder_ops : list Op;
  ledger_inputs : list Utxo;
  pending_transfer : TransferOp;
  channel_multi_sig_proofs : gmap Z ChannelMultiSigProof
}.

Definition builder_new : MantleTxBuilder := mkBuilder [] [] (mkTransfer [] []) ∅.

(** [MantleTxBuilder::extend_ops]. *)
Fixpoint extend_ops (b : MantleTxBuilder) (ops : list Op) : result TxBuilderError MantleTxBuilder :=
  match ops with
  | [] => Ok b
  | op :: ops =>
      l ← map_err InvalidOpsBounds (vec_push MAX_OPS_PER_TX (builder_ops b) op);
      extend_ops (mkBuilder l (ledger_inputs b) (pending_transfer b) (channel_multi_sig_proofs b)) ops
  end.

Definition push_op (b : MantleTxBuilder) (op : Op) : result TxBuilderError MantleTxBuilder := extend_ops b [op].

Section Builder.
Context `{Poseidon2Crate} `{Ed25519Crate} `{MultiaddrCrate}.
Implicit Types (b : MantleTxBuilder) (context : OpsGasContext).

(** [MantleTxBuilder::extend_ledger_inputs]. *)
Fixpoint extend_ledger_inputs b (utxos : list Utxo) : result TxBuilderError MantleTxBuilder :=
  match utxos with
  | [] => Ok b
  | utxo :: utxos =>
      assert_ (length (t_inputs (pending_transfer b)) =? length (ledger_inputs b))%nat;;
      inputs ← map_err InvalidInputsBounds (set_push MAX_TRANSACTION_INPUTS (t_inputs (pending_transfer b)) (utxo_id utxo));
      notes ← map_err InvalidInputsBounds (vec_push MAX_TRANSACTION_INPUTS (ledger_inputs b) utxo);
      extend_ledger_inputs (mkBuilder (builder_ops b) notes (mkTransfer inputs (t_outputs (pending_transfer b)))
                              (channel_multi_sig_proofs b)) utxos
  end.

Definition add_ledger_input b (utxo : Utxo) : result TxBuilderError MantleTxBuilder := extend_ledger_inputs b [utxo].

(** [MantleTxBuilder::extend_ledger_outputs]. *)
Fixpoint extend_ledger_outputs b (notes : list Note) : result TxBuilderError MantleTxBuilder :=
  match notes with
  | [] => Ok b
  | note :: notes =>
      outputs ← map_err InvalidOutputsBounds (vec_push MAX_TRANSACTION_OUTPUTS (t_outputs (pending_transfer b)) note);
      extend_ledger_outputs (mkBuilder (builder_ops b) (ledger_inputs b) (mkTransfer (t_inputs (pending_transfer b)) outputs)
                               (channel_multi_sig_proofs b)) notes
  end.

Definition add_ledger_output b (note : Note) : result TxBuilderError MantleTxBuilder := extend_ledger_outputs b [note].

Definition with_dummy_change_note b : result TxBuilderError MantleTxBuilder := add_ledger_output b (mkNote 0 0).

(** [MantleTxBuilder::net_balance]: at most 255 values of 64 bits on each side,
    so the sums fit an [i128]. *)
Definition net_balance b : Z := utxos_value (ledger_inputs b) - notes_value (t_outputs (pending_transfer b)).

(** [MantleTxBuilder::tx_fee]. *)
Definition tx_fee b : result TxBuilderError Z :=
  let balance := net_balance b in
  if (0 <=? balance) && (balance <=? u64_max) then Ok balance else Err (NegativeNetBalance balance).

(** [MantleTxBuilder::build]. *)
Definition build b (fork_digest : Hash) : result TxBuilderError TxOps :=
  let t := pending_transfer b in
  ops ← match t_inputs t, t_outputs t with
        | [], [] => Ok (builder_ops b)
        | _, _ => map_err InvalidOpsBounds (vec_push MAX_OPS_PER_TX (builder_ops b) (Transfer t))
        end;
  Ok (mkTxOps fork_digest ops).

(** The thresholds the operations need. *)
Fixpoint check_transfer_thresholds context (ops : list Op) : result TxBuilderError unit :=
  match ops with
  | [] => Ok tt
  | op :: ops =>
      let channel_id :=
        match op with ChannelWithdraw op => Some (w_channel_id op) | ChannelTransfer op => Some (ct_channel_id op) | _ => None end in
      match channel_id with
      | Some id => err_if (negb (bool_decide (is_Some (transfer_thresholds context !! id)))) (MissingTransferThreshold id)
      | None => Ok tt
      end;;
      check_transfer_thresholds context ops
  end.

(** [MantleTxBuilder::minimum_gas_cost]. *)
Definition minimum_gas_cost b context : result TxBuilderError Z :=
  check_transfer_thresholds context (builder_ops b);;
  ops ← build b (replicate 32 x00);
  map_err (λ _, BuilderGasOverflow) (total_gas_cost context ops).

(** [priority_fee_amount] and [required_fee]. *)
Definition priority_fee_amount (mandatory_fee priority_fee_percent : Z) : result TxBuilderError Z :=
  product ← ok_or (checked_mul u128_max mandatory_fee priority_fee_percent) BuilderGasOverflow;
  numerator ← ok_or (checked_add u128_max product 99) BuilderGasOverflow;
  if numerator / 100 <=? u64_max then Ok (numerator / 100) else Err BuilderGasOverflow.

Definition required_fee (mandatory_fee priority_fee_percent : Z) : result TxBuilderError Z :=
  amount ← priority_fee_amount mandatory_fee priority_fee_percent;
  ok_or (checked_add u64_max mandatory_fee amount) BuilderGasOverflow.

(** [MantleTxBuilder::funding_delta] and [funding_delta_with_priority_fee]. *)
Definition funding_delta b context : result TxBuilderError Z :=
  mandatory_fee ← minimum_gas_cost b context;
  Ok (net_balance b - mandatory_fee).

Definition funding_delta_with_priority_fee b context (priority_fee_percent : Z) : result TxBuilderError Z :=
  mandatory_fee ← minimum_gas_cost b context;
  required ← required_fee mandatory_fee priority_fee_percent;
  Ok (net_balance b - required).

(** [MantleTxBuilder::return_change]. *)
Definition return_change b context (change_pk : ZkPublicKey) (priority_fee_percent : Z)
    : result TxBuilderError (option MantleTxBuilder) :=
  candidate ← with_dummy_change_note b;
  available_change ← funding_delta_with_priority_fee candidate context priority_fee_percent;
  if available_change <? 1 then Ok None
  else
    change ← expect (if available_change <=? u64_max then Some available_change else None);
    tx_with_change ← add_ledger_output b (mkNote change change_pk);
    Ok (Some tx_with_change).

(** [MantleTxBuilder::notes_consumed_or_used_in_service]. *)
Definition op_consumed (op : Op) : list NoteId :=
  match op with
  | Transfer op => t_inputs op
  | ChannelDeposit op => d_inputs op
  | SDPDeclare op => [dm_service_note_id op]
  | _ => []
  end.

Definition notes_consumed_or_used_in_service b : list NoteId := (builder_ops b ≫= op_consumed) ++ (utxo_id <$> ledger_inputs b).

(** ** Funding: [WalletState::fund_tx] *)

Context {Id : Type}.
Notation wallet_result := (result (WalletError Id TxBuilderError)).

Definition builder_err {A : Type} (r : result TxBuilderError A) : wallet_result A := map_err WalletTxBuilder r.

(** Large notes first; the sort is stable. *)
Definition value_ge (u v : Utxo) : Prop := value (note v) <= value (note u).

#[export] Instance value_ge_dec u v : Decision (value_ge u v).
Proof. unfold value_ge. apply _. Defined.

(** The loop over the prefixes of the notes, from the one of length [S i]. *)
Fixpoint fund_loop b context (change_pk : ZkPublicKey) (priority_fee_percent : Z) (utxos : list Utxo) (i count : nat)
    : wallet_result MantleTxBuilder :=
  match count with
  | O =>
      available ← foldl (λ acc u, sum ← acc; strict_add u64_max sum (value (note u))) (Ok 0) utxos;
      Err (InsufficientFunds available)
  | S count =>
      funded ← builder_err (extend_ledger_inputs b (take (S i) utxos));
      delta ← builder_err (funding_delta_with_priority_fee funded context priority_fee_percent);
      match delta ?= 0 with
      | Lt => fund_loop b context change_pk priority_fee_percent utxos (S i) count
      | Eq => Ok funded
      | Gt =>
          with_change ← builder_err (return_change funded context change_pk priority_fee_percent);
          match with_change with
          | Some tx => Ok tx
          | None => fund_loop b context change_pk priority_fee_percent utxos (S i) count
          end
      end
  end.

(** The notes a wallet may spend on a transaction; among notes of one value the
    order is that of the index. *)
Definition funding_notes (n : Notes) b (pks : list ZkPublicKey) (excluded_notes : gset NoteId) : wallet_result (list Utxo) :=
  let excluded := list_to_set (notes_consumed_or_used_in_service b) ∪ w_service_notes n ∪ w_channel_notes n ∪ excluded_notes in
  owned ← utxos_owned_by_pks n pks;
  Ok (merge_sort value_ge (filter (λ u, utxo_id u ∉ excluded) owned)).

Definition fund_tx (n : Notes) b (change_pk : ZkPublicKey) (pks : list ZkPublicKey) context (excluded_notes : gset NoteId)
    (priority_fee_percent : Z) : wallet_result MantleTxBuilder :=
  utxos ← funding_notes n b pks excluded_notes;
  let continue := fund_loop b context change_pk priority_fee_percent utxos 0 (length utxos) in
  delta ← builder_err (funding_delta_with_priority_fee b context priority_fee_percent);
  match delta ?= 0 with
  | Eq => Ok b
  | Gt =>
      with_change ← builder_err (return_change b context change_pk priority_fee_percent);
      match with_change with Some tx => Ok tx | None => continue end
  | Lt => continue
  end.

(** [Wallet::fund_tx]. *)
Definition wallet_fund_tx {KeyId VoucherId : Type} `{Countable Id} (w : WalletStore KeyId VoucherId Id) (tip : Id) b
    (change_pk : ZkPublicKey) (funding_pks : list ZkPublicKey) context (excluded_notes : gset NoteId) (priority_fee_percent : Z)
    : wallet_result MantleTxBuilder :=
  state ← wallet_state_at w tip;
  fund_tx (notes state) b change_pk funding_pks context excluded_notes priority_fee_percent.

End Builder.

End TxBuilder.
