(* ===== verification/TxPricing.v ===== *)
(** * The price a wallet predicts

    The thresholds a wallet runs along the operations of a transaction are those
    of the channels of the ledger as it applies them, so the gas and the size it
    predicts are the ones the ledger charges. *)

From S2P Require Import Prelude Era EraFacts EngineConfig MerkleStore Mmr Codec CodecLaws Ops OpsCodec Channels Utxos ServiceNotes Inputs ChannelOps SignedTx SdpOps LedgerConfig ClaimOps TxVerification NoteFacts Leaders Pow Markets Cryptarchia Ledger LedgerInvariant TxTheorems Wallet TxBuilder.

#[local] Open Scope Z_scope.

Module TxPricing.
Import Canonical Ops OpsCodec Utxos Channels ServiceNotes Inputs ChannelOps SignedTx SdpOps LedgerConfig ClaimOps TxVerification NoteFacts Leaders Pow Markets Cryptarchia Ledger ChannelFacts LedgerInvariant LedgerVerify TxTheorems Wallet TxBuilder.

(** ** Thresholds *)

(** The predicted thresholds are those of the channels. *)
Definition thresholds_track (r : RunningThresholds) (cs : Channels) : Prop := ∀ id,
  channel_exists r id = bool_decide (is_Some (channels cs !! id)) ∧
  source_configuration_threshold r id = configuration_threshold_of cs id ∧
  source_transfer_threshold r id = transfer_threshold_of cs id.

Lemma track_new cs prices profile : thresholds_track (running_new (from_channels cs prices profile)) cs.
Proof.
  intros id. unfold channel_exists. cbn. rewrite !lookup_empty, !lookup_fmap, bool_decide_false by by intros [? ?].
  unfold configuration_threshold_of, transfer_threshold_of. by destruct (channels cs !! id).
Qed.

(** A channel set to new thresholds, in the prediction and in the ledger. *)
Lemma track_set r cs cs' id ch : thresholds_track r cs → channels cs' = <[id := ch]> (channels cs) →
  thresholds_track (mkRunning (running_context r) (<[id := transfer_threshold ch]> (running_transfer r))
    (<[id := configuration_threshold ch]> (running_configuration r))) cs'.
Proof.
  intros Ht Hcs id'. unfold configuration_threshold_of, transfer_threshold_of, channel_exists. rewrite Hcs. cbn.
  destruct (decide (id = id')) as [<-|Hne].
  - by rewrite !lookup_insert_eq, bool_decide_true.
  - rewrite !lookup_insert_ne by done. apply (Ht id').
Qed.

(** Channels whose thresholds have not moved. *)
Lemma track_kept r cs cs' : thresholds_track r cs →
  (∀ id, (λ ch, (configuration_threshold ch, transfer_threshold ch)) <$> channels cs' !! id =
         (λ ch, (configuration_threshold ch, transfer_threshold ch)) <$> channels cs !! id) → thresholds_track r cs'.
Proof.
  intros Ht Hk id. specialize (Hk id). destruct (Ht id) as (-> & -> & ->). unfold configuration_threshold_of, transfer_threshold_of.
  destruct (channels cs' !! id), (channels cs !! id); by simplify_eq/=.
Qed.

Lemma track_same r cs cs' : thresholds_track r cs → channels cs' = channels cs → thresholds_track r cs'.
Proof. intros Ht Heq. eapply track_kept; [done|]. by rewrite Heq. Qed.

Section Channels.
Context {T : Type} `{!KeyedStoreOps T NoteId Utxo} `{Poseidon2Crate} `{Blake2Crate} `{Ed25519Crate} `{MultiaddrCrate}.

(** Moving notes leaves the channels alone. *)
Lemma deposit_register_channels l : ∀ cs id notes cs' notes',
  deposit_register cs id notes l = Ok (cs', notes') → channels cs' = channels cs.
Proof.
  induction l as [|u l IH]; intros cs id notes cs' notes' Hr; cbn [deposit_register] in Hr; [by injection Hr as <- _|].
  peel Hr as c1 Hc1. apply map_err_ok in Hc1. unfold register_channel_note in Hc1. peel Hc1 as n _. injection Hc1 as <-.
  peel Hr as [] _. by apply IH in Hr.
Qed.

Lemma unregister_channels l : ∀ cs id cs', unregister_all cs id l = Ok cs' → channels cs' = channels cs.
Proof.
  induction l as [|i l IH]; intros cs id cs' Hr; cbn [unregister_all] in Hr; [by injection Hr as <-|].
  peel Hr as c1 Hc1. apply map_err_ok in Hc1. unfold unregister_channel_note in Hc1. peel Hc1 as n _. injection Hc1 as <-. by apply IH in Hr.
Qed.

Lemma register_channels l : ∀ cs id cs', register_all cs id l = Ok cs' → channels cs' = channels cs.
Proof.
  induction l as [|u l IH]; intros cs id cs' Hr; cbn [register_all] in Hr; [by injection Hr as <-|].
  peel Hr as c1 Hc1. apply map_err_ok in Hc1. unfold register_channel_note in Hc1. peel Hc1 as n _. injection Hc1 as <-. by apply IH in Hr.
Qed.

Lemma deposit_channels op cs (t : T) tx_hash cs' t' events : deposit_execute op cs t tx_hash = Ok (cs', t', events) → channels cs' = channels cs.
Proof.
  unfold deposit_execute. intros Hr. peel Hr as a _. peel Hr as outs _. peel Hr as t1 _. peel Hr as id _. peel Hr as t2 _.
  peel Hr as [c n] Hc. injection Hr as <- _ _. by apply deposit_register_channels in Hc.
Qed.

Lemma channel_transfer_channels op cs (t : T) cs' t' : channel_transfer_execute op cs t = Ok (cs', t') → channels cs' = channels cs.
Proof.
  unfold channel_transfer_execute. intros Hr. peel Hr as t1 _. peel Hr as c1 Hc1. peel Hr as id _. peel Hr as t2 _. peel Hr as c2 Hc2.
  injection Hr as <- _. apply unregister_channels in Hc1. apply register_channels in Hc2. congruence.
Qed.

Ltac set_track r cs Ht :=
  match goal with |- thresholds_track _ (mkChannels (<[?id := ?ch]> ?m) ?ns) => exact (track_set r cs (mkChannels (<[id := ch]> m) ns) id ch Ht eq_refl) end.

(** A new channel has the default thresholds; an inscription keeps those of an
    old one. *)
Lemma inscribe_track {E : Type} r op cs slot cs' : inscription_execute (E:=E) op cs slot = Ok cs' → thresholds_track r cs →
  thresholds_track (running_apply r (ChannelInscribe op)) cs'.
Proof.
  unfold inscription_execute. intros Hr Ht. peel Hr as [sq st] _. peel Hr as id _. injection Hr as <-. cbn [running_apply].
  destruct (Ht (i_channel_id op)) as (-> & _). case_bool_decide as Hch.
  - destruct Hch as [ch Hch]. rewrite Hch. cbn [default]. eapply track_kept; [done|]. intros id'. cbn [channels].
    destruct (decide (i_channel_id op = id')) as [<-|Hne]; [by rewrite lookup_insert_eq, Hch|by rewrite lookup_insert_ne].
  - rewrite (proj2 (eq_None_not_Some _) Hch). cbn [default]. set_track r cs Ht.
Qed.

Lemma config_track {E : Type} r op cs slot cs' : config_execute (E:=E) op cs slot = Ok cs' → thresholds_track r cs →
  thresholds_track (running_apply r (ChannelConfig op)) cs'.
Proof.
  unfold config_execute. intros Hr Ht. peel Hr as id _. injection Hr as <-. set_track r cs Ht.
Qed.

End Channels.

(** ** Sizes of proofs *)

Lemma all_bytes_fixed {C A : Type} (cd : Codec C A) `{!CanonicalCodec cd} k l :
  (∀ x, x ∈ l → length (bytes cd x) = k) → length (all_bytes cd l) = (k * length l)%nat.
Proof.
  unfold all_bytes. induction l as [|x l IH]; intros Hk; [cbn; lia|]. rewrite fmap_cons. cbn [concat length].
  rewrite length_app, (Hk x), IH; [lia|intros; apply Hk; by right|by left].
Qed.

Lemma signature_bytes_length p : length (bytes signature_codec p) = length p.
Proof. change (length (all_bytes byte_codec p) = length p). rewrite (all_bytes_fixed _ 1); [apply Nat.mul_1_l|done]. Qed.

Lemma groth16_bytes_length p : length (bytes groth16_codec p) = length p.
Proof. change (length (all_bytes byte_codec p) = length p). rewrite (all_bytes_fixed _ 1); [apply Nat.mul_1_l|done]. Qed.

Lemma zk_and_ed_bytes_length p : length (bytes zk_and_ed_codec p) = (length (zk_sig p) + length (ed25519_sig p))%nat.
Proof.
  rewrite <- (groth16_bytes_length (zk_sig p)), <- (signature_bytes_length (ed25519_sig p)).
  exact (length_app (bytes groth16_codec (zk_sig p)) (bytes signature_codec (ed25519_sig p))).
Qed.

Lemma multi_sig_bytes_length p : Forall (λ e, in_u16 e.1 ∧ length e.2 = SIGNATURE_SIZE) p →
  Z.of_nat (length (bytes multi_sig_codec p)) = multi_sig_proof_byte_size (Z.of_nat (length p)).
Proof.
  intros Hp. change (bytes multi_sig_codec p) with
    (to_le_bytes 2 (Z.of_nat (length p)) ++ all_bytes (entry_codec u16_codec signature_codec) p).
  rewrite length_app, to_le_bytes_length, (all_bytes_fixed _ (2 + SIGNATURE_SIZE)).
  - assert (∀ k, Z.of_nat (2 + (2 + SIGNATURE_SIZE) * k) = multi_sig_proof_byte_size (Z.of_nat k)) as Hk; [|apply Hk].
    intros k. unfold multi_sig_proof_byte_size, SIGNATURE_SIZE. lia.
  - intros [i sig] Hin. rewrite Forall_forall in Hp. destruct (Hp _ Hin) as [_ Hs]. cbn in Hs.
    change (length (to_le_bytes 2 i ++ bytes signature_codec sig) = (2 + SIGNATURE_SIZE)%nat).
    by rewrite length_app, to_le_bytes_length, signature_bytes_length, Hs.
Qed.

(** ** Operations *)

Section Ops.
Context {T R Params Id : Type} `{!KeyedStoreOps T NoteId Utxo} `{!Rewards T R Params}.
Context `{Poseidon2Crate} `{Blake2Crate} `{Ed25519Crate} `{MultiaddrCrate} `{Ed25519Verify} `{PoCVerify}.
Implicit Types (s : LedgerState T R) (eras : EraSchedule (Config Params)) (r : RunningThresholds).

Notation channels_of s := (m_channels (mantle_ledger s)).

Lemma op_track r s op (c : Config Params) tx_hash balance events s' b' ev' :
  try_apply_op (Id:=Id) s op c tx_hash balance events = Ok (s', b', ev') → thresholds_track r (channels_of s) →
  thresholds_track (running_apply r (operation op)) (channels_of s').
Proof.
  destruct op as [op p|op p|op p|op p|op p|op p|op p|op p|op p|op p|op]; cbn [try_apply_op operation]; intros Hr Ht.
  - peel Hr as [] _. peel Hr as cs Hcs. injection Hr as <- _ _. by eapply inscribe_track.
  - peel Hr as cs Hcs. injection Hr as <- _ _. by eapply config_track.
  - peel Hr as [] _. peel Hr as [[cs t] ev] Hcs. injection Hr as <- _ _. apply map_err_ok, deposit_channels in Hcs. by eapply track_same.
  - peel Hr as cs Hcs. injection Hr as <- _ _. apply map_err_ok, unregister_channels in Hcs. by eapply track_same.
  - peel Hr as [cs t] Hcs. injection Hr as <- _ _. apply map_err_ok, channel_transfer_channels in Hcs. by eapply track_same.
  - by inv_ok Hr.
  - by inv_ok Hr.
  - by inv_ok Hr.
  - by inv_ok Hr.
  - by inv_ok Hr.
  - by inv_ok Hr.
Qed.

Lemma running_apply_context r op : running_context (running_apply r op) = running_context r.
Proof. destruct op; cbn [running_apply]; try done. by destruct (channel_exists _ _). Qed.

(** The gas of an operation under equal thresholds. *)
Lemma execution_gas_track r cs op profile : thresholds_track r cs →
  TxVerification.execution_gas op profile r = TxVerification.execution_gas op profile cs.
Proof. intros Ht. destruct op; cbn [TxVerification.execution_gas]; try done; (f_equal; apply Ht). Qed.

(** A multi-signature accepted for a channel has as many entries as it asks. *)
Lemma multi_sig_count cs id proof tx_hash index :
  verify_channel_multi_sig (threshold_in cs) (key_in cs) id proof tx_hash index = Ok tt →
  Z.of_nat (length proof) = transfer_threshold_of cs id.
Proof. intros [ch [Hch Hth _]]%multi_sig_ok. unfold transfer_threshold_of. by rewrite Hch. Qed.

Lemma config_count op proof cs tx_hash : config_verify op proof cs tx_hash = Ok tt →
  Z.of_nat (length proof) = configuration_threshold_of cs (c_channel op).
Proof.
  unfold config_verify, configuration_threshold_of. destruct (channels cs !! c_channel op) as [ch|]; cbn [from_option]; intros Hv.
  - peel Hv as [] _. peel Hv as [] Hn. apply err_if_ok, negb_false_iff, Z.eqb_eq in Hn. done.
  - peel Hv as [] _. apply err_if_ok, negb_false_iff, bool_decide_eq_true in Hv. by subst proof.
Qed.

(** An accepted proof has the size that is predicted for it. *)
Lemma proof_size_track r s eras op index tx_hash d d' : proof_wf (proof_of op) → thresholds_track r (channels_of s) →
  into_verified op index tx_hash (helper_of (mantle_ledger s) (cryptarchia_ledger s) eras) d = Ok d' →
  proof_byte_size r (operation op) = Z.of_nat (length (proof_bytes (proof_of op))).
Proof.
  destruct op as [op p|op p|op p|op p|op p|op p|op p|op p|op p|op p|op];
    cbn [proof_of operation proof_byte_size proof_bytes proof_wf into_verified]; intros Hp Ht Hv.
  - by rewrite signature_bytes_length, Hp.
  - peel Hv as [] Hc. apply map_err_ok, config_count in Hc. rewrite multi_sig_bytes_length by apply Hp. rewrite Hc. f_equal. apply Ht.
  - by rewrite groth16_bytes_length, Hp.
  - peel Hv as [] Hc. apply map_err_ok in Hc. unfold withdraw_verify in Hc. peel Hc as [] Hm. apply map_err_ok in Hm.
    apply (multi_sig_count (channels_of s)) in Hm. rewrite multi_sig_bytes_length by apply Hp. rewrite Hm. f_equal. apply Ht.
  - peel Hv as [] Hc. apply map_err_ok in Hc. unfold channel_transfer_verify in Hc. peel Hc as [] Hm. apply map_err_ok in Hm.
    apply (multi_sig_count (channels_of s)) in Hm. rewrite multi_sig_bytes_length by apply Hp. rewrite Hm. f_equal. apply Ht.
  - destruct Hp as [Hz He]. by rewrite zk_and_ed_bytes_length, Hz, He, Nat2Z.inj_add.
  - by rewrite groth16_bytes_length, Hp.
  - by rewrite groth16_bytes_length, Hp.
  - by rewrite groth16_bytes_length, Hp.
  - by rewrite groth16_bytes_length, Hp.
  - done.
Qed.

(** The two folds over the operations the ledger applies. *)
Lemma ops_priced {E : Type} eras (c : Config Params) tx_hash ops : ∀ s index balance gas events d s' b' g' ev' d' r total,
  apply_ops (Id:=Id) s eras c tx_hash index balance gas events d ops = Ok (s', b', g', ev', d') →
  Forall (λ op, proof_wf (proof_of op)) ops → thresholds_track r (channels_of s) → context_profile (running_context r) = gas_profile c →
  0 <= total → total + Z.of_nat (length (all_proof_bytes (proof_of <$> ops))) <= usize_max →
  consumed_gas r gas (operation <$> ops) = Ok g' ∧
  proofs_byte_size (E:=E) r total (operation <$> ops) = Ok (total + Z.of_nat (length (all_proof_bytes (proof_of <$> ops)))).
Proof.
  induction ops as [|op ops IH]; intros s index balance gas events d s' b' g' ev' d' r total Hrun Hp Ht Hc Hpos Hmax; cbn [apply_ops] in Hrun.
  { injection Hrun as _ _ <- _ _. cbn. split; [done|]. f_equal. lia. }
  apply Forall_cons in Hp as [Hop Hp]. unfold all_proof_bytes in *. rewrite !fmap_cons in *. cbn [concat consumed_gas proofs_byte_size] in *.
  rewrite length_app, Nat2Z.inj_add in *.
  peel Hrun as d1 Hv. peel Hrun as g1 Hg1. peel Hrun as g2 Hg2. peel Hrun as [[s1 b1] ev1] Happ.
  apply map_err_ok in Hv, Hg1, Hg2. rewrite Hc, (execution_gas_track _ _ _ _ Ht), Hg1. cbn [mbind result_bind]. rewrite Hg2. cbn [mbind result_bind].
  rewrite (proof_size_track r s eras op index tx_hash d d1 Hop Ht Hv), strict_add_in by lia. cbn [mbind result_bind].
  destruct (IH s1 _ _ _ _ _ _ _ _ _ _ (running_apply r (operation op)) (total + Z.of_nat (length (proof_bytes (proof_of op)))) Hrun Hp) as [-> ->].
  - by eapply op_track.
  - by rewrite running_apply_context.
  - lia.
  - lia.
  - split; [done|]. f_equal. lia.
Qed.

(** The prices of a state. *)
Definition prices_of s : GasPrices :=
  mkPrices (cl_execution_base_fee (cryptarchia_ledger s)) (cl_storage_gas_price (cryptarchia_ledger s)).

(** Both totals of a transaction the ledger applies. *)
Lemma tx_priced max s eras tx s' balance gas events d (c : Config Params) prices : tx_wf max tx →
  config_for_slot (E:=LedgerError Id) eras (cl_slot (cryptarchia_ledger s)) = Ok c →
  try_apply_tx_operations (Id:=Id) s eras tx = Ok (s', balance, gas, events, d) →
  let context := from_channels (channels_of s) prices (gas_profile c) in
  execution_gas_consumption context (op_refs tx) = Ok gas ∧
  minimum_signed_transaction_size (E:=GasOverflow) context (op_refs tx) = storage_size tx.
Proof.
  intros [Hwf Hmax] Hc Hrun context. unfold try_apply_tx_operations in Hrun. rewrite Hc in Hrun. cbn [mbind result_bind] in Hrun.
  peel Hrun as [] _. peel Hrun as h _. pose proof Hwf as (_ & _ & _ & Hp). unfold tx_size in Hmax.
  change (bytes signed_ops_codec tx) with (bytes tx_ops_codec (op_refs tx) ++ all_proof_bytes (proof_of <$> signed_ops tx)) in Hmax.
  rewrite length_app, Nat2Z.inj_add in Hmax.
  destruct (ops_priced (E:=GasOverflow) eras c h (signed_ops tx) s _ _ _ _ _ _ _ _ _ _ (running_new context) 0 Hrun Hp) as [Hgas Hsize];
    [apply track_new|done|lia|lia|]. split; [exact Hgas|].
  unfold minimum_signed_transaction_size, storage_size. cbn [encoded_length signed_ops_codec op_refs to_ops].
  destruct (encoded_length tx_ops_codec _) as [n|e|f]; cbn [mbind result_bind]; [|done..].
  rewrite Hsize, proofs_length_ok by (lia || by apply Forall_fmap). done.
Qed.

(** What a wallet predicts is what the ledger charges: for a transaction whose
    operations the ledger applies, the execution gas predicted from the channels
    before it, through every threshold its own operations move, is the gas the
    ledger adds up, and the predicted size is the size it stores. *)
Theorem gas_prediction_exact max s eras tx s' balance gas events d (c : Config Params) prices : tx_wf max tx →
  config_for_slot (E:=LedgerError Id) eras (cl_slot (cryptarchia_ledger s)) = Ok c →
  try_apply_tx_operations (Id:=Id) s eras tx = Ok (s', balance, gas, events, d) →
  let context := from_channels (channels_of s) prices (gas_profile c) in
  execution_gas_consumption context (op_refs tx) = Ok gas ∧
  minimum_signed_transaction_size (E:=GasOverflow) context (op_refs tx) = storage_size tx.
Proof. apply tx_priced. Qed.

End Ops.

End TxPricing.
