(* ===== verification/TxFunding.v ===== *)
(** * Funding a transaction

    The notes a wallet adds to a transaction pay its price and the reserve for
    priority to the unit, and it gives up only when no prefix of its notes would:
    the invariant of the builder, the price as a function of the shape of the
    transfer, and the search of [WalletState::fund_tx]. *)

From stdpp Require Import sorting.
From S2P Require Import Prelude MerkleStore Mmr Codec CodecLaws Ops OpsCodec Channels Utxos ServiceNotes Inputs ChannelOps SignedTx SdpOps LedgerConfig ClaimOps TxVerification NoteFacts Leaders Pow Markets MarketFacts Cryptarchia Ledger LedgerInvariant TxTheorems Wallet WalletFacts TxBuilder.

#[local] Open Scope Z_scope.

Module TxFunding.
Import Canonical Bounded Ops OpsCodec Utxos Channels ServiceNotes Inputs ChannelOps SignedTx SdpOps LedgerConfig ClaimOps TxVerification NoteFacts Leaders Pow Markets MarketFacts Cryptarchia Ledger LedgerInvariant TxTheorems Wallet WalletFacts TxBuilder.

(** ** Prices by shape *)

Section Shape.
Context `{Ed25519Crate} `{MultiaddrCrate}.

Lemma bind_ext {E A B : Type} (r : result E A) (k k' : A → result E B) : (∀ a, k a = k' a) → (r ≫= k) = (r ≫= k').
Proof. destruct r; cbn; auto. Qed.

Lemma checked_add_in m a b : a + b <= m → checked_add m a b = Some (a + b).
Proof. intros. by apply checked_add_Some. Qed.

(** Items of one size: the length depends on their number. *)
Lemma items_length_shape {E C A : Type} (cd : Codec C A) (l l' : list A) : (∀ x y, encoded_length cd (E:=E) x = encoded_length cd y) →
  length l = length l' → items_length (E:=E) cd l = items_length cd l'.
Proof.
  intros Hc. unfold items_length. generalize (Ok (E:=E) 0). revert l'.
  induction l as [|x l IH]; intros [|y l'] acc Hl; cbn in Hl; try lia; [done|]. cbn [foldl]. rewrite (Hc x y). apply IH. lia.
Qed.

(** Transfers of as many inputs and outputs, and otherwise equal operations. *)
Inductive same_shape : Op → Op → Prop :=
  | shape_eq op : same_shape op op
  | shape_transfer t t' : length (t_inputs t) = length (t_inputs t') → length (t_outputs t) = length (t_outputs t') →
      same_shape (Transfer t) (Transfer t').

Lemma transfer_length_shape {E : Type} t t' : length (t_inputs t) = length (t_inputs t') → length (t_outputs t) = length (t_outputs t') →
  encoded_length (E:=E) transfer_codec t = encoded_length transfer_codec t'.
Proof.
  intros Hi Ho. cbn [encoded_length transfer_codec struct_codec field_pair transfer_fields inputs_codec outputs_codec bounded_ordered_set bounded_vec].
  by rewrite (items_length_shape fr_codec _ _ (λ _ _, eq_refl) Hi), (items_length_shape note_codec _ _ (λ _ _, eq_refl) Ho).
Qed.

Lemma op_length_shape {E : Type} op op' : same_shape op op' → encoded_length (E:=E) op_codec op = encoded_length op_codec op'.
Proof.
  intros [|t t' Hi Ho]; [done|]. cbn [encoded_length op_codec op_payload_length op_code]. by rewrite (transfer_length_shape t t' Hi Ho).
Qed.

Lemma ops_length_shape {E : Type} d d' ops ops' : length d = length d' → Forall2 same_shape ops ops' →
  encoded_length (E:=E) tx_ops_codec (mkTxOps d ops) = encoded_length tx_ops_codec (mkTxOps d' ops').
Proof.
  intros Hd Hs. cbn [encoded_length tx_ops_codec struct_codec field_pair tx_ops_fields to_fork_digest to_ops at_context bytes32 array_codec bounded_vec].
  rewrite (items_length_shape byte_codec _ _ (λ _ _, eq_refl) Hd). do 2 f_equal. unfold items_length.
  generalize (Ok (E:=E) 0). induction Hs as [|op op' ops ops' Hop _ IH]; intros acc; [done|].
  cbn [foldl]. by rewrite (op_length_shape _ _ Hop), IH.
Qed.

Lemma running_shape r op op' : same_shape op op' → running_apply r op = running_apply r op'.
Proof. by intros []. Qed.

Lemma consumed_gas_shape ops ops' : Forall2 same_shape ops ops' → ∀ r total, consumed_gas r total ops = consumed_gas r total ops'.
Proof.
  induction 1 as [|op op' ops ops' Hop _ IH]; intros r total; [done|]. cbn [consumed_gas]. rewrite (running_shape r op op' Hop).
  assert (∀ p, TxVerification.execution_gas op p r = TxVerification.execution_gas op' p r) as -> by (by destruct Hop).
  apply bind_ext. intros gas. apply bind_ext. intros total'. apply IH.
Qed.

Lemma proofs_size_shape {E : Type} ops ops' : Forall2 same_shape ops ops' → ∀ r total,
  proofs_byte_size (E:=E) r total ops = proofs_byte_size r total ops'.
Proof.
  induction 1 as [|op op' ops ops' Hop _ IH]; intros r total; [done|]. cbn [proofs_byte_size]. rewrite (running_shape r op op' Hop).
  assert (proof_byte_size r op = proof_byte_size r op') as -> by (by destruct Hop).
  apply bind_ext. intros total'. apply IH.
Qed.

Lemma total_gas_cost_shape context d d' ops ops' : length d = length d' → Forall2 same_shape ops ops' →
  total_gas_cost context (mkTxOps d ops) = total_gas_cost context (mkTxOps d' ops').
Proof.
  intros Hd Hs. unfold total_gas_cost, execution_gas_consumption, storage_gas_cost, minimum_signed_transaction_size.
  rewrite (ops_length_shape d d' ops ops' Hd Hs). cbn [to_ops].
  by rewrite (consumed_gas_shape _ _ Hs), (proofs_size_shape _ _ Hs).
Qed.

End Shape.

(** ** Prices by size *)

(** What a context promises: the thresholds are indices of keys, prices and
    costs are unsigned. *)
Record context_ok (context : OpsGasContext) : Prop := {
  co_transfer : ∀ id t, transfer_thresholds context !! id = Some t → in_u16 t;
  co_configuration : ∀ id t, configuration_thresholds context !! id = Some t → in_u16 t;
  co_execution_price : 0 <= execution_base_gas_price (gas_prices context);
  co_storage_price : 0 <= storage_gas_price (gas_prices context);
  co_profile : profile_ok (context_profile context)
}.

Section Size.
Implicit Types (context : OpsGasContext) (r : RunningThresholds).

(** The thresholds an operation sets are indices of keys. *)
Definition thresholds_wf (op : Op) : Prop :=
  match op with ChannelConfig o => in_u16 (c_transfer_threshold o) ∧ in_u16 (c_configuration_threshold o) | _ => True end.

Lemma op_thresholds_wf `{Ed25519Crate} `{MultiaddrCrate} max op : op_wf max op → thresholds_wf op.
Proof.
  destruct op as [o|o|o|o|o|o|o|o|o|o|o]; try done. intros (_ & _ & Hk & _ & _ & _ & Hcf & Htf). cbn.
  unfold in_u16, CHANNEL_MAX_KEYS, u16_max in *. lia.
Qed.

Record running_ok r : Prop := {
  ro_context : context_ok (running_context r);
  ro_transfer : ∀ id t, running_transfer r !! id = Some t → in_u16 t;
  ro_configuration : ∀ id t, running_configuration r !! id = Some t → in_u16 t
}.

Lemma running_new_ok context : context_ok context → running_ok (running_new context).
Proof. intros Hc. split; [done|..]; intros id t; cbn; by rewrite lookup_empty. Qed.

Lemma running_apply_ok r op : running_ok r → thresholds_wf op → running_ok (running_apply r op).
Proof.
  intros Hr Hwf. pose proof Hr as [Hc Ht Hf]. destruct op as [o|o|o|o|o|o|o|o|o|o|o]; try done; cbn [running_apply].
  - destruct (channel_exists r (i_channel_id o)); [done|]. split; [done|..]; intros id t; cbn; rewrite lookup_insert_Some.
    + intros [[_ <-]|[_ ?]]; [by unfold in_u16, u16_max, DEFAULT_TRANSFER_THRESHOLD|by eapply Ht].
    + intros [[_ <-]|[_ ?]]; [by unfold in_u16, u16_max|by eapply Hf].
  - destruct Hwf as [? ?]. split; [done|..]; intros id t; cbn; rewrite lookup_insert_Some; (intros [[_ <-]|[_ ?]]; [done|eauto]).
Qed.

Lemma running_thresholds_ok r id : running_ok r →
  in_u16 (source_configuration_threshold r id) ∧ in_u16 (source_transfer_threshold r id).
Proof.
  intros [[Ht Hc _ _ _] Hrt Hrc]. cbn. split.
  - destruct (running_configuration r !! id) eqn:E1; [by eapply Hrc|]. destruct (configuration_thresholds _ !! id) eqn:E2; [by eapply Hc|done].
  - destruct (running_transfer r !! id) eqn:E1; [by eapply Hrt|]. destruct (transfer_thresholds _ !! id) eqn:E2; [by eapply Ht|done].
Qed.

(** The largest proof: a signature for every key index. *)
Definition MAX_PROOF_SIZE : Z := multi_sig_proof_byte_size u16_max.

Lemma proof_byte_size_range r op : running_ok r → 0 <= proof_byte_size r op <= MAX_PROOF_SIZE.
Proof.
  intros Hr. unfold MAX_PROOF_SIZE. destruct op as [o|o|o|o|o|o|o|o|o|o|o]; cbn [proof_byte_size]; unfold multi_sig_proof_byte_size, SIGNATURE_SIZE, COMPRESSED_PROOF_SIZE; try (unfold u16_max; lia).
  - destruct (running_thresholds_ok r (c_channel o) Hr) as [[? ?] _]. unfold u16_max in *. lia.
  - destruct (running_thresholds_ok r (w_channel_id o) Hr) as [_ [? ?]]. unfold u16_max in *. lia.
  - destruct (running_thresholds_ok r (ct_channel_id o) Hr) as [_ [? ?]]. unfold u16_max in *. lia.
Qed.

Fixpoint proofs_size r (ops : list Op) : Z :=
  match ops with [] => 0 | op :: ops => proof_byte_size r op + proofs_size (running_apply r op) ops end.

Lemma proofs_size_range ops : ∀ r, running_ok r → Forall thresholds_wf ops → 0 <= proofs_size r ops <= Z.of_nat (length ops) * MAX_PROOF_SIZE.
Proof.
  induction ops as [|op ops IH]; intros r Hr Hwf; cbn [proofs_size length]; [lia|]. apply Forall_cons in Hwf as [Hop Hwf].
  pose proof (proof_byte_size_range r op Hr). pose proof (IH _ (running_apply_ok r op Hr Hop) Hwf). lia.
Qed.

Lemma proofs_byte_size_ok {E : Type} ops : ∀ r total, running_ok r → Forall thresholds_wf ops → total + proofs_size r ops <= usize_max →
  proofs_byte_size (E:=E) r total ops = Ok (total + proofs_size r ops).
Proof.
  induction ops as [|op ops IH]; intros r total Hr Hwf Hle; cbn [proofs_byte_size proofs_size] in *; [f_equal; lia|].
  apply Forall_cons in Hwf as [Hop Hwf]. pose proof (proofs_size_range ops _ (running_apply_ok r op Hr Hop) Hwf).
  rewrite strict_add_in by lia. cbn [mbind result_bind]. rewrite IH by (try done; try lia; by apply running_apply_ok). f_equal. lia.
Qed.

End Size.

(** ** The builder *)

Section Builder.
Context `{Poseidon2Crate} `{Ed25519Crate} `{MultiaddrCrate} (max : Z).
Implicit Types (b : MantleTxBuilder) (context : OpsGasContext).

Definition ops_size (ops : list Op) : Z := Z.of_nat (length (all_bytes op_codec ops)).

(** What every builder made by its operations satisfies, where one that was
    deserialized may not: the inputs of the transfer are the notes that
    fund it, each once, and the bounds of the lists. *)
Record builder_ok b : Prop := {
  bo_inputs : t_inputs (pending_transfer b) = utxo_id <$> ledger_inputs b;
  bo_nodup : NoDup (utxo_id <$> ledger_inputs b);
  bo_inputs_len : Z.of_nat (length (ledger_inputs b)) <= MAX_TRANSACTION_INPUTS;
  bo_outputs_len : Z.of_nat (length (t_outputs (pending_transfer b))) <= MAX_TRANSACTION_OUTPUTS;
  bo_ops_len : Z.of_nat (length (builder_ops b)) <= MAX_OPS_PER_TX;
  bo_ops : Forall (op_wf max) (builder_ops b)
}.

Lemma builder_new_ok : builder_ok builder_new.
Proof. split; cbn; [done|constructor|..|constructor]; unfold MAX_TRANSACTION_INPUTS, MAX_TRANSACTION_OUTPUTS, MAX_OPS_PER_TX, u8_max; lia. Qed.

Definition with_ops b (ops : list Op) : MantleTxBuilder :=
  mkBuilder (builder_ops b ++ ops) (ledger_inputs b) (pending_transfer b) (channel_multi_sig_proofs b).
Definition with_inputs b (us : list Utxo) : MantleTxBuilder :=
  mkBuilder (builder_ops b) (ledger_inputs b ++ us)
    (mkTransfer (t_inputs (pending_transfer b) ++ (utxo_id <$> us)) (t_outputs (pending_transfer b))) (channel_multi_sig_proofs b).
Definition with_outputs b (ns : list Note) : MantleTxBuilder :=
  mkBuilder (builder_ops b) (ledger_inputs b)
    (mkTransfer (t_inputs (pending_transfer b)) (t_outputs (pending_transfer b) ++ ns)) (channel_multi_sig_proofs b).

Lemma vec_push_outcome {A : Type} m (l : list A) x :
  outcome (λ l', l' = l ++ [x] ∧ Z.of_nat (length l') <= m) (λ _ : BoundedError, True) (vec_push m l x).
Proof.
  unfold vec_push. destruct (Z.leb_spec m (Z.of_nat (length l))); cbn; [done|]. split; [done|]. rewrite length_app. cbn. lia.
Qed.

Lemma set_push_outcome {A : Type} `{EqDecision A} m (l : list A) x :
  outcome (λ l', l' = l ++ [x] ∧ Z.of_nat (length l') <= m ∧ x ∉ l) (λ _ : BoundedError, True) (set_push m l x).
Proof.
  unfold set_push. destruct (Z.leb_spec m (Z.of_nat (length l))); cbn; [done|]. case_bool_decide; cbn; [done|]. split; [done|].
  rewrite length_app. cbn. split; [lia|done].
Qed.

Definition bounds_error (f : BoundedError → TxBuilderError) (e : TxBuilderError) : Prop := ∃ be, e = f be.

Lemma extend_inputs_outcome us : ∀ b, builder_ok b →
  outcome (λ b', b' = with_inputs b us ∧ builder_ok b') (bounds_error InvalidInputsBounds) (extend_ledger_inputs b us).
Proof.
  induction us as [|u us IH]; intros b Hb; cbn [extend_ledger_inputs].
  { cbn. split; [|done]. unfold with_inputs. cbn. rewrite !app_nil_r. by destruct b as [? ? []]. }
  pose proof Hb as [Hin Hnd Hil Hol Hops Hwf]. rewrite Hin, length_fmap, Nat.eqb_refl. cbn [assert_ mbind result_bind].
  eapply outcome_bind; [apply outcome_map_err; eapply outcome_impl; [apply set_push_outcome|exact (λ _ H, H)|by eexists]|].
  intros inputs (-> & Hlen & Hnew) _.
  eapply outcome_bind; [apply outcome_map_err; eapply outcome_impl; [apply vec_push_outcome|exact (λ _ H, H)|by eexists]|].
  intros notes [-> Hlen'] _. eapply outcome_impl; [apply IH|..].
  - split; cbn; [by rewrite fmap_app| |done|done|done|done]. rewrite fmap_app. apply NoDup_app. split_and!; [done| |apply NoDup_singleton].
    intros x Hx. cbn. by intros ->%list_elem_of_singleton.
  - intros b' [-> Hb']. split; [|done]. unfold with_inputs. cbn. by rewrite Hin, <- !app_assoc.
  - done.
Qed.

Lemma extend_outputs_outcome ns : ∀ b, builder_ok b →
  outcome (λ b', b' = with_outputs b ns ∧ builder_ok b') (bounds_error InvalidOutputsBounds) (extend_ledger_outputs b ns).
Proof.
  induction ns as [|n ns IH]; intros b Hb; cbn [extend_ledger_outputs].
  { cbn. split; [|done]. unfold with_outputs. cbn. rewrite !app_nil_r. by destruct b as [? ? []]. }
  pose proof Hb as [Hin Hnd Hil Hol Hops Hwf].
  eapply outcome_bind; [apply outcome_map_err; eapply outcome_impl; [apply vec_push_outcome|exact (λ _ H, H)|by eexists]|].
  intros notes [-> Hlen'] _. eapply outcome_impl; [apply IH; by split|..]; [|done].
  intros b' [-> Hb']. split; [|done]. unfold with_outputs. cbn. by rewrite <- !app_assoc.
Qed.

Lemma extend_ops_outcome ops : ∀ b, builder_ok b → Forall (op_wf max) ops →
  outcome (λ b', b' = with_ops b ops ∧ builder_ok b') (bounds_error InvalidOpsBounds) (extend_ops b ops).
Proof.
  induction ops as [|op ops IH]; intros b Hb Hops; cbn [extend_ops].
  { cbn. split; [|done]. unfold with_ops. rewrite app_nil_r. by destruct b. }
  pose proof Hb as [Hin Hnd Hil Hol Hlen Hwf]. apply Forall_cons in Hops as [Hop Hops].
  eapply outcome_bind; [apply outcome_map_err; eapply outcome_impl; [apply vec_push_outcome|exact (λ _ H, H)|by eexists]|].
  intros l [-> Hlen'] _. eapply outcome_impl; [apply IH; [split|]|..]; [done..| |done| |done].
  - cbn. apply Forall_app. split; [done|]. by apply Forall_singleton.
  - intros b' [-> Hb']. split; [|done]. unfold with_ops. cbn. by rewrite <- !app_assoc.
Qed.

(** ** The built transaction *)

(** The pending transfer, when there is one. *)
Definition tail_ops b : list Op :=
  match t_inputs (pending_transfer b), t_outputs (pending_transfer b) with [], [] => [] | _, _ => [Transfer (pending_transfer b)] end.

Definition full_ops b : list Op := builder_ops b ++ tail_ops b.

Lemma build_outcome b d : builder_ok b →
  outcome (λ o, o = mkTxOps d (full_ops b) ∧ Z.of_nat (length (full_ops b)) <= MAX_OPS_PER_TX) (bounds_error InvalidOpsBounds) (build b d).
Proof.
  intros [_ _ _ _ Hlen _]. unfold build, full_ops, tail_ops.
  destruct (t_inputs (pending_transfer b)) as [|i ins], (t_outputs (pending_transfer b)) as [|o outs]; cbn [mbind result_bind];
    [by cbn; rewrite app_nil_r|..];
    (eapply outcome_bind; [apply outcome_map_err; eapply outcome_impl; [apply vec_push_outcome|exact (λ _ H, H)|by eexists]|]);
    intros l [-> ?] _; cbn; done.
Qed.

Lemma items_length_snoc {E C A : Type} (cd : Codec C A) l x :
  items_length (E:=E) cd (l ++ [x]) = (sum ← items_length cd l; n ← encoded_length cd x; strict_add usize_max sum n).
Proof. unfold items_length. by rewrite foldl_app. Qed.

Lemma items_length_fixed {E C A : Type} (cd : Codec C A) k l : 0 <= k → (∀ x, encoded_length (E:=E) cd x = Ok k) →
  k * Z.of_nat (length l) <= usize_max → items_length (E:=E) cd l = Ok (k * Z.of_nat (length l)).
Proof.
  intros Hk Hc. induction l as [|x l IH] using rev_ind; intros Hle; [cbn; f_equal; lia|].
  rewrite length_app, Nat2Z.inj_add in *. cbn [length] in *. rewrite items_length_snoc, IH, Hc by lia. cbn [mbind result_bind].
  rewrite strict_add_in by lia. f_equal. lia.
Qed.

(** The bytes of a transfer with its code: three prefixes, and the fixed sizes of
    inputs and outputs. *)
Definition transfer_size (t : TransferOp) : Z := 3 + 32 * Z.of_nat (length (t_inputs t)) + 40 * Z.of_nat (length (t_outputs t)).
Definition tail_size b : Z := match tail_ops b with [] => 0 | _ => transfer_size (pending_transfer b) end.

Lemma transfer_length {E : Type} t : Z.of_nat (length (t_inputs t)) <= MAX_TRANSACTION_INPUTS →
  Z.of_nat (length (t_outputs t)) <= MAX_TRANSACTION_OUTPUTS → encoded_length (E:=E) op_codec (Transfer t) = Ok (transfer_size t).
Proof.
  intros Hi Ho. unfold MAX_TRANSACTION_INPUTS, MAX_TRANSACTION_OUTPUTS, u8_max, NoteId in *.
  assert (usize_max = 18446744073709551615) as Hu by done.
  cbn [encoded_length op_codec op_payload_length transfer_codec struct_codec field_pair transfer_fields inputs_codec outputs_codec bounded_ordered_set bounded_vec].
  rewrite (items_length_fixed fr_codec 32), (items_length_fixed note_codec 40) by (done || lia). unfold with_prefix_length, u8_codec.
  cbn [mbind result_bind encoded_length le_integer].
  rewrite !checked_add_in by (cbn; lia). cbn [expect mbind result_bind].
  rewrite strict_add_in by (cbn; lia). cbn [mbind result_bind]. 
  rewrite checked_add_in by (cbn; lia). cbn [expect]. unfold transfer_size, NoteId. f_equal. cbn. lia.
Qed.

(** The size of the transaction once signed. *)
Definition wire_size b : Z := 33 + ops_size (builder_ops b) + tail_size b.
Definition signed_size context b : Z := wire_size b + proofs_size (running_new context) (full_ops b).

(** Room below the width of a length, of which the operations of a transaction
    take but a fraction. *)
Definition fits b : Prop := ops_size (builder_ops b) <= 2 ^ 62.

Lemma tail_size_range b : builder_ok b → 0 <= tail_size b <= 3 + 72 * u8_max.
Proof.
  intros [Hin _ Hil Hol _ _]. unfold tail_size, transfer_size. destruct (tail_ops b); [unfold u8_max; lia|]. rewrite Hin, length_fmap.
  unfold MAX_TRANSACTION_INPUTS, MAX_TRANSACTION_OUTPUTS in *. lia.
Qed.

Lemma wire_length {E : Type} b d : builder_ok b → fits b → length d = 32%nat →
  encoded_length (E:=E) tx_ops_codec (mkTxOps d (full_ops b)) = Ok (wire_size b).
Proof.
  intros Hb Hf Hd. pose proof (tail_size_range b Hb) as Ht. pose proof Hb as [Hin _ Hil Hol _ Hwf]. unfold fits, ops_size in Hf.
  assert (usize_max = 18446744073709551615) as Hu by done. unfold u8_max in Ht.
  assert (items_length (E:=E) op_codec (full_ops b) = Ok (ops_size (builder_ops b) + tail_size b)) as Hi.
  { unfold full_ops, tail_size in *. destruct (tail_ops b) as [|op l] eqn:Htl.
    - rewrite app_nil_r, Z.add_0_r. apply (items_length_ok op_codec max); [done|lia].
    - assert (op :: l = [Transfer (pending_transfer b)]) as -> by (unfold tail_ops in Htl; by repeat case_match).
      rewrite items_length_snoc, (items_length_ok op_codec max) by (done || lia).
      rewrite transfer_length by (rewrite ?Hin, ?length_fmap; done). cbn [mbind result_bind]. apply strict_add_in. unfold ops_size in *. lia. }
  cbn [encoded_length tx_ops_codec struct_codec field_pair tx_ops_fields to_fork_digest to_ops at_context bytes32 array_codec bounded_vec].
  rewrite (items_length_fixed byte_codec 1), Hi, Hd by (done || lia). cbn [mbind result_bind]. unfold with_prefix_length, ops_size in *.
  rewrite checked_add_in by (cbn; lia). cbn [expect mbind result_bind]. rewrite strict_add_in by (cbn; lia).
  unfold wire_size, ops_size. f_equal. cbn. lia.
Qed.

Lemma full_ops_wf b : builder_ok b → Forall thresholds_wf (full_ops b).
Proof.
  intros [_ _ _ _ _ Hwf]. apply Forall_app. split; [eapply Forall_impl; [exact Hwf|]; apply op_thresholds_wf|].
  unfold tail_ops. repeat case_match; repeat constructor.
Qed.

Lemma signed_size_ok {E : Type} context b d : builder_ok b → fits b → context_ok context → length d = 32%nat →
  Z.of_nat (length (full_ops b)) <= MAX_OPS_PER_TX →
  minimum_signed_transaction_size (E:=E) context (mkTxOps d (full_ops b)) = Ok (signed_size context b) ∧
  0 <= signed_size context b <= usize_max.
Proof.
  intros Hb Hf Hc Hd Hlen. unfold minimum_signed_transaction_size. rewrite wire_length by done. cbn [mbind result_bind to_ops].
  pose proof (proofs_size_range (full_ops b) (running_new context) (running_new_ok _ Hc) (full_ops_wf b Hb)) as Hp.
  pose proof (tail_size_range b Hb). assert (usize_max = 18446744073709551615) as Hu by done.
  assert (MAX_PROOF_SIZE = 4325312) as Hm by done. rewrite Hm in Hp. unfold fits, MAX_OPS_PER_TX, u8_max in *.
  assert (0 <= ops_size (builder_ops b)) by (unfold ops_size; lia).
  rewrite proofs_byte_size_ok by (try apply running_new_ok; try apply full_ops_wf; done || lia). cbn [mbind result_bind].
  unfold signed_size, wire_size in *. rewrite strict_add_in by lia. split; [f_equal; lia|lia].
Qed.

(** ** The price *)

Lemma consumed_gas_nonneg ops : ∀ r total g, running_ok r → Forall thresholds_wf ops → 0 <= total → consumed_gas r total ops = Ok g → total <= g.
Proof.
  induction ops as [|op ops IH]; intros r total g Hr Hwf Ht Hg; cbn [consumed_gas] in Hg; [by injection Hg as <-|].
  apply Forall_cons in Hwf as [Hop Hwf]. peel Hg as x Hx. peel Hg as y Hy. apply ok_or_ok, checked_add_Some in Hy as [-> _].
  assert (0 <= x) as Hx0.
  { pose proof (co_profile _ (ro_context _ Hr)) as Hp. unfold profile_ok in Hp. repeat (apply Forall_cons in Hp as [? Hp]).
    destruct op as [o|o|o|o|o|o|o|o|o|o|o]; cbn [TxVerification.execution_gas] in Hx; try (by injection Hx as <-);
      apply ok_or_ok, checked_mul_Some in Hx as [-> _]; apply Z.mul_nonneg_nonneg; try done; apply running_thresholds_ok, Hr. }
  apply IH in Hg; [lia|by apply running_apply_ok|done|lia].
Qed.

Notation price context g n := (g * execution_base_gas_price (gas_prices context) + n * storage_gas_price (gas_prices context)).

Lemma total_gas_cost_outcome context b d : builder_ok b → fits b → context_ok context → length d = 32%nat →
  Z.of_nat (length (full_ops b)) <= MAX_OPS_PER_TX →
  outcome (λ f, ∃ g, consumed_gas (running_new context) 0 (full_ops b) = Ok g ∧ 0 <= g ∧ f = price context g (signed_size context b) ∧ 0 <= f <= u64_max)
    (λ _, True) (total_gas_cost context (mkTxOps d (full_ops b))).
Proof.
  intros Hb Hf Hc Hd Hlen. pose proof Hc as [_ _ Hep Hsp _].
  destruct (signed_size_ok (E:=GasOverflow) context b d Hb Hf Hc Hd Hlen) as [Hsz [Hn0 Hmax]].
  unfold total_gas_cost, storage_gas_cost, execution_gas_consumption. rewrite Hsz. cbn [to_ops mbind result_bind].
  rewrite as_u64_small by (unfold usize_max, u64_max in *; lia).
  destruct (consumed_gas _ _ _) as [g|e|f] eqn:Hg; cbn [mbind result_bind]; [|done|].
  2:{ exfalso. assert (∀ ops r total, consumed_gas r total ops ≠ Fault f) as Hno; [|by eapply Hno].
      clear. induction ops as [|op ops IH]; intros r total; cbn [consumed_gas]; [done|]. intros Hg.
      destruct (TxVerification.execution_gas _ _ _) as [x|e|f'] eqn:Hx; cbn in Hg; [|done|].
      - destruct (gas_add total x) as [y|e|f'] eqn:Hy; cbn in Hg; [by eapply IH|done|]. unfold gas_add in Hy. by destruct (checked_add _ _ _).
      - destruct op; cbn in Hx; try done; unfold gas_mul in Hx; by destruct (checked_mul _ _ _). }
  pose proof (consumed_gas_nonneg _ _ _ _ (running_new_ok _ Hc) (full_ops_wf b Hb) (Z.le_refl 0) Hg) as Hg0.
  unfold gas_cost, cost_add. destruct (checked_mul u64_max g _) as [x|] eqn:Hx; cbn; [|done]. apply checked_mul_Some in Hx as [-> _].
  destruct (checked_mul u64_max (signed_size context b) _) as [y|] eqn:Hy; cbn; [|done]. apply checked_mul_Some in Hy as [-> _].
  destruct (checked_add _ _ _) as [z|] eqn:Hz; cbn; [|done]. apply checked_add_Some in Hz as [-> ?].
  exists g. split_and!; [done|done|done|nia|done].
Qed.

Definition zeros : Hash := replicate 32 x00.

Lemma minimum_gas_cost_outcome context b : builder_ok b → fits b → context_ok context →
  outcome (λ f, ∃ g, consumed_gas (running_new context) 0 (full_ops b) = Ok g ∧ 0 <= g ∧ f = price context g (signed_size context b) ∧ 0 <= f <= u64_max)
    (λ _, True) (minimum_gas_cost b context).
Proof.
  intros Hb Hf Hc. unfold minimum_gas_cost. eapply (outcome_bind (λ _, True)).
  { clear. induction (builder_ops b) as [|op ops IH]; cbn [check_transfer_thresholds]; [done|].
    eapply (outcome_bind (λ _, True)); [|done]. destruct op; try done; cbn; by destruct (negb _). }
  intros [] _ _. eapply outcome_bind; [eapply outcome_impl; [by apply build_outcome|exact (λ _ H, H)|done]|].
  intros o [-> Hlen] _. apply outcome_map_err. by apply (total_gas_cost_outcome context b zeros).
Qed.

(** The price of a builder is that of the transaction it builds. *)
Lemma minimum_gas_cost_built context b f d o : builder_ok b → length d = 32%nat → minimum_gas_cost b context = Ok f → build b d = Ok o →
  o = mkTxOps d (full_ops b) ∧ total_gas_cost context o = Ok f.
Proof.
  intros Hb Hd Hf Ho. pose proof (build_outcome b d Hb) as Hbo. rewrite Ho in Hbo. destruct Hbo as [-> _]. split; [done|].
  unfold minimum_gas_cost in Hf. peel Hf as [] _. peel Hf as o Ho'. pose proof (build_outcome b zeros Hb) as Hbo. unfold zeros in Hbo.
  rewrite Ho' in Hbo. destruct Hbo as [-> _]. apply map_err_ok in Hf. rewrite <- Hf. apply total_gas_cost_shape; [done|].
  clear. induction (full_ops b); constructor; [apply shape_eq|done].
Qed.

(** Only the number of outputs matters to the price. *)
Lemma minimum_gas_cost_shape context b ns ns' : length ns = length ns' →
  minimum_gas_cost (with_outputs b ns) context = minimum_gas_cost (with_outputs b ns') context.
Proof.
  intros Hl. unfold minimum_gas_cost. apply bind_ext. intros []. unfold build. cbn [with_outputs pending_transfer t_inputs t_outputs builder_ops].
  set (ops := builder_ops b). set (ins := t_inputs _). set (outs := t_outputs _).
  assert (∀ t t', length (t_inputs t) = length (t_inputs t') → length (t_outputs t) = length (t_outputs t') →
    (o ← (l ← map_err InvalidOpsBounds (vec_push MAX_OPS_PER_TX ops (Transfer t)); Ok (mkTxOps (replicate 32 x00) l));
     map_err (λ _, BuilderGasOverflow) (total_gas_cost context o)) =
    (o ← (l ← map_err InvalidOpsBounds (vec_push MAX_OPS_PER_TX ops (Transfer t')); Ok (mkTxOps (replicate 32 x00) l));
     map_err (λ _, BuilderGasOverflow) (total_gas_cost context o))) as Hpush.
  { intros t1 t2 Hi Ho. unfold vec_push. destruct (_ <=? _); cbn [err_if map_err mbind result_bind]; [done|]. f_equal.
    apply total_gas_cost_shape; [done|]. apply Forall2_app; [induction ops; constructor; [apply shape_eq|done]|].
    constructor; [by constructor|constructor]. }
  assert (∀ l l' : list Note, length l = length l' → (l = [] ∧ l' = []) ∨ (∃ x y k k', l = x :: k ∧ l' = y :: k')) as Hcase.
  { intros [|x k] [|y k'] Hk; cbn in Hk; try lia; [by left|right; eauto 10]. }
  assert (length (outs ++ ns) = length (outs ++ ns')) as Hlo by (rewrite !length_app; lia).
  destruct ins as [|i ins']; [|by apply Hpush]. destruct (Hcase _ _ Hlo) as [[-> ->]|(x & y & k & k' & E1 & E2)]; [done|].
  rewrite E1, E2 in *. by apply Hpush.
Qed.

(** ** Growth *)

(** A fee and the reserve of a percentage of it, rounded up. *)
Definition due (fee percent : Z) : Z := fee + (fee * percent + 99) / 100.

Lemma due_mono f f' p : 0 <= p → f <= f' → due f p <= due f' p.
Proof. intros Hp Hf. unfold due. assert ((f * p + 99) / 100 <= (f' * p + 99) / 100) by (apply Z.div_le_mono; nia). lia. Qed.

Lemma due_nonneg f p : 0 <= p → 0 <= f → 0 <= due f p.
Proof. intros. unfold due. assert (0 <= (f * p + 99) / 100) by (apply Z.div_pos; nia). lia. Qed.

Lemma proofs_size_snoc ops t : ∀ r, proofs_size r (ops ++ [Transfer t]) = proofs_size r ops + Z.of_nat COMPRESSED_PROOF_SIZE.
Proof. induction ops as [|op ops IH]; intros r; cbn [app proofs_size]; [by cbn|]. rewrite IH. lia. Qed.

Lemma consumed_gas_snoc ops t : ∀ r total,
  consumed_gas r total (ops ++ [Transfer t]) = (g ← consumed_gas r total ops; gas_add g (g_transfer (context_profile (running_context r)))).
Proof.
  induction ops as [|op ops IH]; intros r total; cbn [app consumed_gas].
  { cbn [TxVerification.execution_gas mbind result_bind]. by destruct (gas_add _ _). }
  destruct (TxVerification.execution_gas _ _ _) as [x|e|f]; cbn [mbind result_bind]; [|done..].
  destruct (gas_add total x) as [y|e|f]; cbn [mbind result_bind]; [|done..]. rewrite IH.
  assert (running_context (running_apply r op) = running_context r) as ->; [|done].
  destruct op; cbn [running_apply]; try done. by destruct (channel_exists _ _).
Qed.

(** With one more output a transaction has a transfer and costs no less. *)
Lemma tail_ops_output b n : tail_ops (with_outputs b [n]) = [Transfer (pending_transfer (with_outputs b [n]))].
Proof.
  unfold tail_ops. cbn [with_outputs pending_transfer t_inputs t_outputs].
  destruct (t_inputs _); [|done]. by destruct (t_outputs _).
Qed.

Lemma minimum_gas_cost_grows context b n f f' : builder_ok b → builder_ok (with_outputs b [n]) → fits b → context_ok context →
  minimum_gas_cost b context = Ok f → minimum_gas_cost (with_outputs b [n]) context = Ok f' → f <= f'.
Proof.
  intros Hb Hb' Hf Hc E1 E2. pose proof (minimum_gas_cost_outcome context b Hb Hf Hc) as O1.
  pose proof (minimum_gas_cost_outcome context (with_outputs b [n]) Hb' Hf Hc) as O2. rewrite E1 in O1. rewrite E2 in O2.
  destruct O1 as (g & Hg & _ & -> & _), O2 as (g' & Hg' & Hg0 & -> & _). pose proof Hc as [_ _ Hep Hsp Hp].
  unfold full_ops in Hg'. rewrite tail_ops_output in Hg'. cbn [with_outputs builder_ops] in Hg'. rewrite consumed_gas_snoc in Hg'.
  peel Hg' as g1 Hg1. apply ok_or_ok, checked_add_Some in Hg' as [-> Hg'max]. cbn [running_new running_context] in *.
  assert (0 <= g_transfer (context_profile context)) by (by apply Forall_cons in Hp as [? _]).
  assert (g <= g1 + g_transfer (context_profile context) ∧ signed_size context b <= signed_size context (with_outputs b [n])) as [? ?]; [|nia].
  unfold signed_size, wire_size, full_ops, tail_size. rewrite tail_ops_output. cbn [with_outputs builder_ops].
  rewrite proofs_size_snoc. cbn [COMPRESSED_PROOF_SIZE]. unfold full_ops in Hg.
  destruct (tail_ops b) as [|op l] eqn:Ht.
  - rewrite app_nil_r in *. assert (g = g1) by congruence. unfold transfer_size. lia.
  - assert (op :: l = [Transfer (pending_transfer b)]) as Hl by (unfold tail_ops in Ht; by repeat case_match). rewrite Hl in *.
    rewrite consumed_gas_snoc, Hg1 in Hg. cbn [mbind result_bind running_new running_context] in Hg.
    apply ok_or_ok, checked_add_Some in Hg as [-> _]. rewrite proofs_size_snoc. unfold transfer_size. cbn [with_outputs pending_transfer t_inputs t_outputs].
    rewrite length_app, Nat2Z.inj_add. split; lia.
Qed.

(** ** The balance left over *)

Lemma required_fee_outcome f p : 0 <= f <= u64_max → 0 <= p <= u64_max → outcome (λ q, q = due f p) (λ _, True) (required_fee f p).
Proof.
  intros Hf Hp. unfold required_fee, priority_fee_amount. eapply (outcome_bind (λ a, a = (f * p + 99) / 100)).
  - eapply outcome_bind; [by apply (outcome_ok_or (λ x, x = f * p)); [intros ? [-> _]%checked_mul_Some|]|]. cbv beta; intros ? -> _.
    eapply outcome_bind; [by apply (outcome_ok_or (λ x, x = f * p + 99)); [intros ? [-> _]%checked_add_Some|]|]. cbv beta; intros ? -> _. by destruct (_ <=? _).
  - cbv beta; intros ? -> _. apply outcome_ok_or; [by intros ? [-> _]%checked_add_Some|done].
Qed.

Lemma delta_outcome context b p : builder_ok b → fits b → context_ok context → 0 <= p <= u64_max →
  outcome (λ δ, ∃ f, minimum_gas_cost b context = Ok f ∧ 0 <= f ∧ δ = net_balance b - due f p) (λ _, True)
    (funding_delta_with_priority_fee b context p).
Proof.
  intros Hb Hf Hc Hp. unfold funding_delta_with_priority_fee. eapply outcome_bind; [by apply minimum_gas_cost_outcome|].
  intros f (g & _ & _ & _ & Hf0) Hmin. eapply outcome_bind; [by apply required_fee_outcome|]. cbv beta; intros ? -> _. cbn [outcome]. exists f. split_and!; [done|lia|done].
Qed.

(** A balance that is spent to the unit. *)
Lemma delta_zero context b p : builder_ok b → fits b → context_ok context → 0 <= p <= u64_max →
  funding_delta_with_priority_fee b context p = Ok 0 → ∃ f, minimum_gas_cost b context = Ok f ∧ 0 <= f ∧ net_balance b = due f p.
Proof.
  intros Hb Hf Hc Hp Hd. pose proof (delta_outcome context b p Hb Hf Hc Hp) as Ho. rewrite Hd in Ho.
  destruct Ho as (f & ? & ? & ?). exists f. split_and!; [done|done|lia].
Qed.

Lemma net_balance_outputs b ns : net_balance (with_outputs b ns) = net_balance b - notes_value ns.
Proof.
  unfold net_balance. cbn [with_outputs ledger_inputs pending_transfer t_outputs].
  assert (∀ l, notes_value (l ++ ns) = notes_value l + notes_value ns) as ->; [|lia].
  unfold notes_value. induction l as [|x l IH]; cbn [app foldr]; lia.
Qed.

Lemma utxos_value_app l l' : utxos_value (l ++ l') = utxos_value l + utxos_value l'.
Proof. unfold utxos_value. induction l as [|x l IH]; cbn [app foldr]; lia. Qed.

Lemma net_balance_inputs b us : net_balance (with_inputs b us) = net_balance b + utxos_value us.
Proof. unfold net_balance. cbn [with_inputs ledger_inputs pending_transfer t_outputs]. rewrite utxos_value_app. lia. Qed.

(** ** One attempt *)

Section Attempt.
Context (context : OpsGasContext) (change_pk : ZkPublicKey) (p : Z).
Hypothesis context_sound : context_ok context.
Hypothesis percent_range : 0 <= p <= u64_max.

Notation delta b := (funding_delta_with_priority_fee b context p).

(** The change a builder may return: none, or a positive note. *)
Definition change_of (ns : list Note) : Prop := ns = [] ∨ ∃ v, 1 <= v ∧ ns = [mkNote v change_pk].

Lemma with_outputs_nil b : with_outputs b [] = b.
Proof. unfold with_outputs. rewrite app_nil_r. by destruct b as [? ? []]. Qed.

Lemma return_change_outcome b : builder_ok b → fits b → net_balance b <= u64_max →
  outcome (λ o, match o with
      | Some b' => ∃ v, 1 <= v ∧ b' = with_outputs b [mkNote v change_pk] ∧ builder_ok b' ∧ delta b' = Ok 0
      | None => ∃ δ, delta (with_outputs b [mkNote 0 0]) = Ok δ ∧ δ <= 0
      end) (λ _, True) (return_change b context change_pk p).
Proof.
  intros Hb Hf Hnet. unfold return_change, with_dummy_change_note, add_ledger_output.
  eapply outcome_bind; [eapply outcome_impl; [by apply extend_outputs_outcome|exact (λ _ H, H)|done]|]. intros b0 [-> Hb0] _.
  eapply outcome_bind; [by apply delta_outcome|]. intros δ (f & Hmin & Hf0 & Hδ) Hd.
  pose proof (due_nonneg f p ltac:(lia) Hf0) as Hdue. rewrite net_balance_outputs in Hδ. cbn in Hδ.
  destruct (Z.ltb_spec δ 1); [cbn; exists δ; split; [done|lia]|].
  rewrite (proj2 (Z.leb_le _ _)) by lia. cbn [expect mbind result_bind].
  eapply outcome_bind; [eapply outcome_impl; [by apply extend_outputs_outcome|exact (λ _ H, H)|done]|]. intros b1 [-> Hb1] _.
  exists δ. split_and!; [lia|done|done|]. unfold funding_delta_with_priority_fee in *.
  rewrite (minimum_gas_cost_shape context b [mkNote δ change_pk] [mkNote 0 0] eq_refl), Hmin in *. cbn [mbind result_bind] in *.
  destruct (required_fee f p) as [q|e|x]; cbn [mbind result_bind] in *; [|done..]. injection Hd as Hd. rewrite net_balance_outputs in *.
  cbn in *. f_equal. lia.
Qed.

(** What the loop does with a set of inputs. *)
Definition attempt b : result TxBuilderError (option MantleTxBuilder) :=
  δ ← delta b;
  match δ ?= 0 with Eq => Ok (Some b) | Gt => return_change b context change_pk p | Lt => Ok None end.

(** An attempt funds the transaction to the unit, and only fails when no change
    would. *)
Lemma attempt_outcome b : builder_ok b → fits b → net_balance b <= u64_max →
  outcome (λ o, match o with
      | Some b' => ∃ ns, change_of ns ∧ b' = with_outputs b ns ∧ builder_ok b' ∧ delta b' = Ok 0
      | None => ∀ ns, change_of ns → builder_ok (with_outputs b ns) → delta (with_outputs b ns) ≠ Ok 0
      end) (λ _, True) (attempt b).
Proof.
  intros Hb Hf Hnet. unfold attempt. eapply outcome_bind; [by apply delta_outcome|]. intros δ (f & Hmin & Hf0 & Hδ) Hd.
  destruct (Z.compare_spec δ 0) as [->|Hneg|Hpos].
  - cbn. exists []. rewrite with_outputs_nil. split_and!; [by left|done..].
  - intros ns Hns Hb'. destruct Hns as [->|(v & Hv & ->)]; [rewrite with_outputs_nil, Hd; intros [= ->]; lia|]. intros Hz.
    destruct (delta_zero context _ p Hb' Hf context_sound percent_range Hz) as (f' & Hmin' & _ & Hnet'). rewrite net_balance_outputs in Hnet'.
    pose proof (minimum_gas_cost_grows context b _ f f' Hb Hb' Hf context_sound Hmin Hmin') as Hle.
    pose proof (due_mono f f' p ltac:(lia) Hle). cbn in Hnet'. lia.
  - eapply outcome_impl; [by apply return_change_outcome| |done]. intros [b'|].
    + intros (v & Hv & -> & Hb' & Hz). exists [mkNote v change_pk]. split_and!; [right; eauto|done..].
    + intros (δ' & Hd' & Hle) ns [->|(v & Hv & ->)] Hb'; [rewrite with_outputs_nil, Hd; intros [= ->]; lia|].
      unfold funding_delta_with_priority_fee in *. rewrite (minimum_gas_cost_shape context b [mkNote v change_pk] [mkNote 0 0] eq_refl).
      destruct (minimum_gas_cost (with_outputs b [mkNote 0 0]) context) as [f'|e|x]; cbn [mbind result_bind] in *; [|done..].
      destruct (required_fee f' p) as [q|e|x]; cbn [mbind result_bind] in *; [|done..]. rewrite net_balance_outputs in *. cbn in *.
      injection Hd' as Hd'. intros [= ?]. lia.
Qed.

(** ** The search *)

Context {Id : Type} (b : MantleTxBuilder) (cands : list Utxo).
Hypothesis start_ok : builder_ok b.
Hypothesis start_fits : fits b.
Hypothesis values_nonneg : Forall (λ u, 0 <= utxo_value u) cands.
Hypothesis values_max : net_balance b + utxos_value cands <= u64_max.
Hypothesis cands_max : utxos_value cands <= u64_max.

(** The builder with the first [k] notes and some change, paid to the unit. *)
Definition funded_by (k : nat) (b' : MantleTxBuilder) : Prop :=
  ∃ ns, change_of ns ∧ b' = with_outputs (with_inputs b (take k cands)) ns ∧ builder_ok b' ∧ delta b' = Ok 0.

Definition fund_error (e : WalletError Id TxBuilderError) : Prop :=
  match e with
  | InsufficientFunds available => available = utxos_value cands ∧ ∀ k b', ¬ funded_by k b'
  | WalletTxBuilder _ => True
  | _ => False
  end.

Lemma utxos_value_nonneg l : Forall (λ u, 0 <= utxo_value u) l → 0 <= utxos_value l.
Proof. unfold utxos_value. induction 1; cbn [foldr]; lia. Qed.

Lemma take_value k : 0 <= utxos_value (take k cands) <= utxos_value cands.
Proof.
  rewrite <- (take_drop k cands) in values_nonneg. apply Forall_app in values_nonneg as [Ht Hd].
  pose proof (utxos_value_nonneg _ Ht). pose proof (utxos_value_nonneg _ Hd).
  rewrite <- (take_drop k cands) at 3. rewrite utxos_value_app. lia.
Qed.

Lemma available_sum {E : Type} l : Forall (λ u, 0 <= utxo_value u) l → ∀ acc, 0 <= acc → acc + utxos_value l <= u64_max →
  foldl (λ acc u, sum ← acc; strict_add (E:=E) u64_max sum (value (note u))) (Ok acc) l = Ok (acc + utxos_value l).
Proof.
  unfold utxos_value. induction 1 as [|u l Hu Hl IH]; intros acc Ha Hm; cbn [foldl foldr mbind result_bind] in *; [f_equal; lia|].
  pose proof (utxos_value_nonneg l Hl) as Hn. unfold utxos_value in Hn. unfold utxo_value at 1 in Hm.
  rewrite strict_add_in by lia. rewrite IH by (unfold utxo_value in Hu; lia). unfold utxo_value. f_equal. lia.
Qed.

Lemma fund_step i count : fund_loop (Id:=Id) b context change_pk p cands i (S count) =
  (funded ← builder_err (extend_ledger_inputs b (take (S i) cands));
   o ← builder_err (attempt funded);
   match o with Some tx => Ok tx | None => fund_loop b context change_pk p cands (S i) count end).
Proof.
  cbn [fund_loop]. apply bind_ext. intros b0. unfold attempt, builder_err.
  destruct (delta b0) as [δ|e|f]; cbn [map_err mbind result_bind]; [|done..]. destruct (δ ?= 0); cbn [map_err mbind result_bind]; [done..|].
  by destruct (return_change _ _ _ _).
Qed.

Lemma funded_past k b' : (length cands <= k)%nat → funded_by k b' → funded_by (length cands) b'.
Proof. intros Hk. unfold funded_by. by rewrite !take_ge by lia. Qed.

Lemma fund_loop_outcome count : ∀ i, (i + count = length cands)%nat → (∀ k b', (k <= i)%nat → ¬ funded_by k b') →
  outcome (λ b', ∃ k, funded_by k b') fund_error (fund_loop (Id:=Id) b context change_pk p cands i count).
Proof.
  induction count as [|count IH]; intros i Hi Hno.
  - cbn [fund_loop]. rewrite available_sum by (done || lia). cbn [mbind result_bind outcome fund_error]. split; [lia|].
    intros k b' Hk. destruct (Nat.le_gt_cases k i) as [?|?]; [by eapply Hno|]. apply (Hno (length cands) b'); [lia|].
    apply (funded_past k); [lia|done].
  - rewrite fund_step. pose proof (extend_inputs_outcome (take (S i) cands) b start_ok) as He. unfold builder_err.
    destruct (extend_ledger_inputs b (take (S i) cands)) as [b0|e|f]; cbn [map_err mbind result_bind]; [|done..].
    destruct He as [-> Hb0]. pose proof (take_value (S i)) as Htv.
    pose proof (attempt_outcome (with_inputs b (take (S i) cands)) Hb0 start_fits) as Ha. rewrite net_balance_inputs in Ha. specialize (Ha ltac:(lia)).
    destruct (attempt _) as [[b'|]|e|f]; cbn [map_err mbind result_bind]; [|..|done|done]; cbn [outcome] in Ha.
    + exists (S i). destruct Ha as (ns & ? & ? & ? & ?). exists ns. done.
    + apply IH; [lia|]. intros k b' Hk. destruct (decide (k = S i)) as [->|Hne]; [|apply Hno; lia].
      intros (ns & Hns & -> & Hok & Hz). by apply (Ha ns Hns Hok).
Qed.

Lemma with_inputs_nil b0 : with_inputs b0 [] = b0.
Proof. unfold with_inputs. cbn. rewrite !app_nil_r. by destruct b0 as [? ? []]. Qed.

(** The whole search. *)
Lemma fund_search_outcome :
  outcome (λ b', ∃ k, funded_by k b') fund_error
    (o ← builder_err (attempt b);
     match o with Some tx => Ok tx | None => fund_loop (Id:=Id) b context change_pk p cands 0 (length cands) end).
Proof.
  pose proof (utxos_value_nonneg cands values_nonneg) as Hv. pose proof (attempt_outcome b start_ok start_fits ltac:(lia)) as Ha.
  unfold builder_err. destruct (attempt b) as [[b'|]|e|f]; cbn [map_err mbind result_bind]; [|..|done|done]; cbn [outcome] in Ha.
  - exists 0%nat. destruct Ha as (ns & ? & ? & ? & ?). exists ns. by rewrite take_0, with_inputs_nil.
  - apply fund_loop_outcome; [lia|]. intros k b' Hk. assert (k = 0%nat) as -> by lia. intros (ns & Hns & -> & Hok & Hz).
    rewrite take_0, with_inputs_nil in *. by apply (Ha ns Hns Hok).
Qed.

End Attempt.

End Builder.

(** ** The wallet *)

Section Wallet.
Context {T R KeyId Id : Type} `{!KeyedStoreOps T NoteId Utxo, !KeyedStore T NoteId Utxo}.
Context `{Poseidon2Crate} `{Blake2Crate} `{Ed25519Crate} `{MultiaddrCrate}.
Context (max : Z) (keys : gmap ZkPublicKey KeyId).
Implicit Types (s : LedgerState T R) (b : MantleTxBuilder) (n : Notes) (pks : list ZkPublicKey) (excluded : gset NoteId).

Notation utxos_of_state s := (cl_utxos (cryptarchia_ledger s)).
Notation channels_of s := (m_channels (mantle_ledger s)).
Notation locked_of s := (sdp_service_notes (m_sdp (mantle_ledger s))).

(** The notes a wallet may fund a transaction with: unspent notes of the given
    keys, in no service and no channel, neither excluded nor used by the
    operations of the transaction. *)
Definition candidate s b pks excluded (u : Utxo) : Prop :=
  (ks_view (utxos_of_state s) !! utxo_id u = Some u ∧ pk (note u) ∈ pks ∧ is_Some (keys !! pk (note u))) ∧
  locked_of s !! utxo_id u = None ∧ channel_notes (channels_of s) !! utxo_id u = None ∧
  utxo_id u ∉ excluded ∧ utxo_id u ∉ notes_consumed_or_used_in_service b.

Lemma owned_notes_ok {E : Type} s n pks : notes_ok (utxos_of_state s) (channels_of s) (locked_of s) → follows_state keys s n → NoDup pks →
  ∃ l, utxos_owned_by_pks (E:=E) n pks = Ok l ∧ NoDup (utxo_id <$> l) ∧
    ∀ u, u ∈ l ↔ ks_view (utxos_of_state s) !! utxo_id u = Some u ∧ pk (note u) ∈ pks ∧ is_Some (keys !! pk (note u)).
Proof.
  intros Hn [Hu Hi _ _ _] Hnd. unfold utxos_owned_by_pks. set (ids := pks ≫= _).
  assert (∀ i, i ∈ ids ↔ ∃ u, utxos n !! i = Some u ∧ pk (note u) ∈ pks) as Hids.
  { intros i. unfold ids. rewrite list_elem_of_bind. setoid_rewrite elem_of_elements. setoid_rewrite Hi. naive_solver. }
  destruct (mapM_total (E:=E) (λ id, expect (utxos n !! id)) (λ id u, utxos n !! id = Some u) ids) as (l & -> & HF).
  { intros i (u & Hiu & _)%Hids. exists u. by rewrite Hiu. }
  assert (utxo_id <$> l = ids) as Heq.
  { clear -HF Hu Hn. induction HF as [|i u ids l [Hiu _]%Hu _ IH]; [done|]. cbn. rewrite IH. f_equal. by destruct (no_key _ _ _ Hn _ _ Hiu). }
  exists l. rewrite Heq. split_and!; [done| |].
  - unfold ids. clear -Hi Hnd. induction Hnd as [|p pks Hp Hnd IH]; [constructor|]. rewrite bind_cons. apply NoDup_app.
    split_and!; [apply NoDup_elements| |done]. intros i Hip (q & Hiq & Hq)%list_elem_of_bind. rewrite elem_of_elements in *.
    apply Hi in Hip as (u & Hiu & <-), Hiq as (u' & Hiu' & <-). assert (u' = u) as -> by congruence. done.
  - intros u. split.
    + intros (k & Hk)%list_elem_of_lookup. destruct (Forall2_lookup_r _ _ _ _ _ HF Hk) as (i & Hik & Hiu).
      assert (i ∈ ids) as (u' & Hiu' & Hpk)%Hids by (by eapply list_elem_of_lookup_2). assert (u' = u) as -> by congruence.
      apply Hu in Hiu as [Hv Ho]. destruct (no_key _ _ _ Hn _ _ Hv) as [-> _]. done.
    + intros (Hv & Hpk & Ho). assert (utxos n !! utxo_id u = Some u) as Hiu by (by apply Hu).
      assert (utxo_id u ∈ ids) as (k & Hk)%list_elem_of_lookup by (apply Hids; eauto).
      destruct (Forall2_lookup_l _ _ _ _ _ HF Hk) as (u' & Hk' & Hiu'). assert (u' = u) as -> by congruence. by eapply list_elem_of_lookup_2.
Qed.

#[local] Instance value_ge_total : Total value_ge.
Proof. intros u v. unfold value_ge. lia. Qed.

Lemma funding_notes_ok s n b pks excluded : notes_ok (utxos_of_state s) (channels_of s) (locked_of s) → follows_state keys s n → NoDup pks →
  ∃ cands, funding_notes (Id:=Id) n b pks excluded = Ok cands ∧ NoDup (utxo_id <$> cands) ∧ Sorted value_ge cands ∧
    ∀ u, u ∈ cands ↔ candidate s b pks excluded u.
Proof.
  intros Hn Hf Hnd. destruct (owned_notes_ok (E:=WalletError Id TxBuilderError) s n pks Hn Hf Hnd) as (l & Hl & Hnl & Hin).
  unfold funding_notes. rewrite Hl. cbn [mbind result_bind]. eexists. split; [done|].
  pose proof (merge_sort_Permutation value_ge (filter (λ u, utxo_id u ∉ list_to_set (notes_consumed_or_used_in_service b) ∪ w_service_notes n ∪ w_channel_notes n ∪ excluded) l)) as Hp.
  split_and!; [|apply Sorted_merge_sort; apply _|].
  - rewrite Hp. eapply sublist_NoDup; [exact Hnl|]. apply fmap_sublist, sublist_filter.
  - intros u. rewrite Hp, list_elem_of_filter, Hin. unfold candidate. destruct Hf as [Hu _ _ Hs Hc].
    rewrite !elem_of_union, elem_of_list_to_set, Hs, Hc. split.
    + intros [Hno (Hv & Hpk & Ho)]. assert (is_Some (utxos n !! utxo_id u)) by (exists u; by apply Hu). rewrite !eq_None_not_Some. tauto.
    + intros ((Hv & Hpk & Ho) & Hsn & Hch & Hex & Hb). rewrite Hsn, Hch. split; [|done]. intros [[[?|[[? ?] _]]|[[? ?] _]]|?]; done.
Qed.

Lemma fund_tx_search n b change_pk pks context excluded p cands : funding_notes (Id:=Id) n b pks excluded = Ok cands →
  fund_tx (Id:=Id) n b change_pk pks context excluded p =
    (o ← builder_err (attempt context change_pk p b);
     match o with Some tx => Ok tx | None => fund_loop b context change_pk p cands 0 (length cands) end).
Proof.
  intros Hc. unfold fund_tx. rewrite Hc. cbn [mbind result_bind]. unfold attempt, builder_err.
  destruct (funding_delta_with_priority_fee _ _ _) as [δ|e|f]; cbn [map_err mbind result_bind]; [|done..].
  destruct (δ ?= 0); cbn [map_err mbind result_bind]; [done..|]. by destruct (return_change _ _ _ _).
Qed.

Lemma listed_value (t : T) l : Forall (λ u, ks_view t !! utxo_id u = Some u) l → inputs_value (ks_view t) (utxo_id <$> l) = utxos_value l.
Proof.
  unfold inputs_value, utxos_value. induction 1 as [|u l Hu _ IH]; [done|]. cbn [fmap list_fmap foldr]. by rewrite Hu, IH.
Qed.

(** The notes of a builder and the candidates are distinct notes of the ledger. *)
Lemma funds_bounded s b cands pks excluded : notes_ok (utxos_of_state s) (channels_of s) (locked_of s) →
  notes_total (utxos_of_state s) <= u64_max → builder_ok max b → Forall (λ u, ks_view (utxos_of_state s) !! utxo_id u = Some u) (ledger_inputs b) →
  Forall (λ x, 0 <= value x) (t_outputs (pending_transfer b)) → NoDup (utxo_id <$> cands) → (∀ u, u ∈ cands ↔ candidate s b pks excluded u) →
  Forall (λ u, 0 <= utxo_value u) cands ∧ net_balance b + utxos_value cands <= u64_max ∧ utxos_value cands <= u64_max.
Proof.
  intros Hn Ht Hb Hin Hout Hnd Hc. set (t := utxos_of_state s) in *.
  assert (Forall (λ u, ks_view t !! utxo_id u = Some u) cands) as Hcv by (apply Forall_forall; intros u Hu; by apply Hc).
  assert (∀ l, Forall (λ u, ks_view t !! utxo_id u = Some u) l → Forall (λ u, 0 <= utxo_value u) l) as Hpos.
  { intros l Hl. eapply Forall_impl; [exact Hl|]. intros u Hu. by destruct (no_key _ _ _ Hn _ _ Hu) as [_ [? _]]. }
  pose proof (utxos_value_nonneg _ (Hpos _ Hin)) as Hv1. pose proof (utxos_value_nonneg _ (Hpos _ Hcv)) as Hv2.
  assert (0 <= notes_value (t_outputs (pending_transfer b))) as Hv3.
  { clear -Hout. unfold notes_value. induction Hout; cbn [foldr]; lia. }
  assert (utxos_value (ledger_inputs b ++ cands) <= notes_total t) as Hv4.
  { rewrite <- (listed_value t) by (apply Forall_app; by split). apply inputs_value_total; [apply Hn|by eapply notes_u64| |].
    - rewrite fmap_app. apply NoDup_app. split_and!; [apply Hb| |done]. intros i Hi (u & -> & Hu)%list_elem_of_fmap.
      apply Hc in Hu as (_ & _ & _ & _ & Hu). apply Hu. unfold notes_consumed_or_used_in_service. apply elem_of_app. by right.
    - intros i (u & -> & Hu)%list_elem_of_fmap. exists u. apply elem_of_app in Hu as [Hu|Hu]; [by eapply Forall_forall in Hin|by eapply Forall_forall in Hcv]. }
  rewrite utxos_value_app in Hv4. unfold net_balance. split_and!; [by apply Hpos|lia|lia].
Qed.

(** The outcome of funding, over the candidates. *)
Lemma fund_tx_outcome s n b change_pk pks context excluded p :
  notes_ok (utxos_of_state s) (channels_of s) (locked_of s) → notes_total (utxos_of_state s) <= u64_max → follows_state keys s n →
  builder_ok max b → fits b → Forall (λ u, ks_view (utxos_of_state s) !! utxo_id u = Some u) (ledger_inputs b) →
  Forall (λ x, 0 <= value x) (t_outputs (pending_transfer b)) → context_ok context → NoDup pks → 0 <= p <= u64_max →
  ∃ cands, (∀ u, u ∈ cands ↔ candidate s b pks excluded u) ∧ Sorted value_ge cands ∧
    outcome (λ b', ∃ k, funded_by max context change_pk p b cands k b') (fund_error max context change_pk p b cands)
      (fund_tx (Id:=Id) n b change_pk pks context excluded p).
Proof.
  intros Hn Ht Hf Hb Hfit Hin Hout Hctx Hnd Hp.
  destruct (funding_notes_ok s n b pks excluded Hn Hf Hnd) as (cands & Hc & Hcn & Hsort & Hel).
  exists cands. split_and!; [done|done|]. rewrite (fund_tx_search n b change_pk pks context excluded p cands Hc).
  destruct (funds_bounded s b cands pks excluded) as (Hpos & Hmax1 & Hmax2); [done..|].
  by apply (fund_search_outcome max context change_pk p Hctx Hp (Id:=Id) b cands).
Qed.

(** C35: a wallet that follows the ledger funds a transaction to the unit, without
    a panic, from any builder whose inputs are notes of the ledger, whose outputs have
    no negative value and whose parts fit their limits ([builder_ok], [fits]): the funded builder keeps the operations, adds the first notes of the
    candidates, largest first, and at most one note of change, and its balance is
    exactly the price predicted for it plus the reserve; it reports insufficient
    funds, with their exact sum, only when no such prefix pays. *)
Theorem fund_tx_exact s n b change_pk pks context excluded p :
  notes_ok (utxos_of_state s) (channels_of s) (locked_of s) → notes_total (utxos_of_state s) <= u64_max → follows_state keys s n →
  builder_ok max b → fits b → Forall (λ u, ks_view (utxos_of_state s) !! utxo_id u = Some u) (ledger_inputs b) →
  Forall (λ x, 0 <= value x) (t_outputs (pending_transfer b)) → context_ok context → NoDup pks → 0 <= p <= u64_max →
  ∃ cands, (∀ u, u ∈ cands ↔ candidate s b pks excluded u) ∧ Sorted value_ge cands ∧
    match fund_tx (Id:=Id) n b change_pk pks context excluded p with
    | Ok b' => builder_ok max b' ∧ builder_ops b' = builder_ops b ∧
        (∃ k, ledger_inputs b' = ledger_inputs b ++ take k cands) ∧
        (∃ change, t_outputs (pending_transfer b') = t_outputs (pending_transfer b) ++ change ∧ change_of change_pk change) ∧
        ∃ fee, minimum_gas_cost b' context = Ok fee ∧ net_balance b' = fee + (fee * p + 99) / 100
    | Err (InsufficientFunds available) => available = utxos_value cands ∧
        ∀ k change, change_of change_pk change → builder_ok max (with_outputs (with_inputs b (take k cands)) change) →
          funding_delta_with_priority_fee (with_outputs (with_inputs b (take k cands)) change) context p ≠ Ok 0
    | Err (WalletTxBuilder _) => True
    | _ => False
    end.
Proof.
  intros Hn Ht Hf Hb Hfit Hin Hout Hctx Hnd Hp.
  destruct (fund_tx_outcome s n b change_pk pks context excluded p Hn Ht Hf Hb Hfit Hin Hout Hctx Hnd Hp) as (cands & Hel & Hsort & Ho).
  exists cands. split_and!; [done|done|].
  destruct (fund_tx _ _ _ _ _ _ _) as [b'|e|f]; cbn [outcome] in Ho; [| |done].
  - destruct Ho as (k & ns & Hns & -> & Hok & Hz). destruct (delta_zero max context _ p Hok Hfit Hctx Hp Hz) as (f & Hmin & _ & Hnet).
    split_and!; [done|done|by exists k|by exists ns|]. by exists f.
  - destruct e; try done. destruct Ho as [-> Hno]. split; [done|]. intros k ns Hns Hok Hd.
    eapply (Hno k). exists ns. by split_and!.
Qed.

End Wallet.

End TxFunding.
