(* ===== verification/FundedTx.v ===== *)
(** * Funded transactions in the ledger

    The notes a wallet funds a transaction with are left alone by the other
    operations of the transaction, so the transfer that spends them is decided by
    the number of its signing keys, and the ledger takes from it exactly the
    price and the reserve the wallet had set. *)

From S2P Require Import Prelude Era EraFacts EngineConfig MerkleStore Mmr Codec CodecLaws Ops OpsCodec Channels Utxos ServiceNotes Inputs ChannelOps SignedTx SdpOps SdpTheorems LedgerConfig ClaimOps TxVerification NoteFacts Leaders Pow Markets MarketFacts Cryptarchia Ledger LedgerInvariant TxTheorems Wallet WalletFacts WalletMirror TxBuilder TxPricing TxFunding.

#[local] Open Scope Z_scope.

Module FundedTx.
Import Canonical Ops OpsCodec Utxos Channels ServiceNotes Inputs ChannelOps SignedTx SdpOps SdpFacts LedgerConfig ClaimOps TxVerification NoteFacts Leaders Pow Markets MarketFacts Cryptarchia Ledger ChannelFacts LedgerInvariant LedgerVerify TxTheorems Wallet WalletFacts WalletMirror TxBuilder TxPricing TxFunding.

Section Funded.
Context {T R Params KeyId Id : Type} `{!KeyedStoreOps T NoteId Utxo, !KeyedStore T NoteId Utxo}.
Context `{!Rewards T R Params, !RewardsLaws T R Params}.
Context `{Poseidon2Crate} `{Blake2Crate} `{Ed25519Crate} `{MultiaddrCrate} `{Ed25519Verify} `{PoCVerify}.
Context (eras : EraSchedule (Config Params)) (max : Z).
Implicit Types (s : LedgerState T R) (c : Config Params) (tx_hash : TxHash) (i : NoteId) (u : Utxo).

Notation utxos_of_state s := (cl_utxos (cryptarchia_ledger s)).
Notation channels_of s := (m_channels (mantle_ledger s)).
Notation locked_of s := (sdp_service_notes (m_sdp (mantle_ledger s))).
Notation slot_of s := (cl_slot (cryptarchia_ledger s)).

(** A note that is free to be spent by a transfer. *)
Definition held_in (t : T) (sn : ServiceNotes) (cs : Channels) i u : Prop :=
  ks_view t !! i = Some u ∧ sn !! i = None ∧ channel_notes cs !! i = None.

Definition held s i u : Prop := held_in (utxos_of_state s) (locked_of s) (channels_of s) i u.

Lemma held_spent t sn cs i u inputs l t' : held_in t sn cs i u → spent_created t inputs l t' → i ∉ inputs → held_in t' sn cs i u.
Proof. intros (Hv & ? & ?) Hsc Hi. split; [|done]. apply (sc_view _ _ _ _ Hsc). by right. Qed.

Lemma held_registered t sn cs i u ch l cs' : held_in t sn cs i u → insertable t l → registered ch l cs cs' → channel_notes cs' !! i = None.
Proof.
  intros (Hv & _ & Hc) Hins [_ Hr]. apply eq_None_not_Some. intros [x [(u' & Hu' & -> & _)|?]%Hr]; [|congruence].
  pose proof (ins_fresh _ _ Hins u' Hu'). congruence.
Qed.

Section Step.
Variables (s : LedgerState T R) (c : Config Params) (tx_hash : TxHash).
Variables (index balance : Z) (events : list TxEvent) (d d' : DeferredProofs) (i : NoteId) (u : Utxo).
Hypothesis (Hok : ledger_ok s).
Hypothesis (Hheld : held s i u).

Notation verified op := (into_verified op index tx_hash (helper_of (mantle_ledger s) (cryptarchia_ledger s) eras) d = Ok d').
Notation keeps op := (∀ s' b' ev', try_apply_op (Id:=Id) s op c tx_hash balance events = Ok (s', b', ev') → held s' i u).

Lemma hold_transfer op proof : op_wf max (Transfer op) → op_fresh s (SignedTransfer op proof) → verified (SignedTransfer op proof) →
  i ∉ t_inputs op → keeps (SignedTransfer op proof).
Proof.
  intros Hwf Hf Hv Hi s' b' ev' Hrun. pose proof Hok as [Hn _ _ _ _ _]. cbn [into_verified] in Hv. peel Hv as p Hv'.
  apply map_err_ok, transfer_verify_ok in Hv' as [Hnd Hin]; [|apply Hn]. destruct (transfer_run max op _ _ _ Hn Hwf Hnd Hin Hf) as (t' & Hex & Hsc).
  cbn [try_apply_op] in Hrun. peel Hrun as [l tb] Hl. unfold try_apply_transfer in Hl. peel Hl as tb' Htb.
  rewrite Hex in Hl. cbn [map_err mbind result_bind] in Hl. injection Hl as <- <-. peel Hrun as b Hb. injection Hrun as <- _ _.
  by eapply held_spent.
Qed.

Lemma hold_deposit op proof : op_wf max (ChannelDeposit op) → op_fresh s (SignedDeposit op proof) → verified (SignedDeposit op proof) →
  i ∉ d_inputs op → keeps (SignedDeposit op proof).
Proof.
  intros Hwf Hf Hv Hi s' b' ev' Hrun. pose proof Hok as [Hn _ _ _ _ _]. cbn [into_verified helper_of h_channels h_service_notes h_utxos] in Hv.
  peel Hv as p Hv'. apply map_err_ok, deposit_verify_ok in Hv' as (_ & Hnd & Hin); [|apply Hn].
  cbn [try_apply_op] in Hrun. peel Hrun as [] _.
  destruct (deposit_run max op _ _ _ tx_hash Hn Hwf Hnd Hin Hf) as [Hex|(cs & t' & payload & Hex & Hsc & Hreg)]; rewrite Hex in Hrun; [done|].
  cbn [channel_err map_err mbind result_bind] in Hrun. injection Hrun as <- _ _.
  destruct (held_spent _ _ _ _ _ _ _ _ Hheld Hsc Hi) as (? & ? & _). split_and!; [done|done|]. by eapply held_registered.
Qed.

Lemma hold_withdraw op proof : verified (SignedWithdraw op proof) → keeps (SignedWithdraw op proof).
Proof.
  intros Hv s' b' ev' Hrun. pose proof Hok as [Hn _ _ _ _ _]. cbn [into_verified] in Hv. peel Hv as [] Hv'.
  apply map_err_ok, withdraw_verify_iff in Hv' as [_ [Hnd Hin]]; [|apply Hn].
  destruct (unregister_all_ok (w_channel_id op) (w_inputs op) (m_channels (mantle_ledger s)) Hnd) as (cs & Hex & [_ Hun]);
    [intros j Hj; by apply Hin|]. cbn [try_apply_op] in Hrun. unfold withdraw_execute in Hrun. rewrite Hex in Hrun.
  cbn [channel_err map_err mbind result_bind] in Hrun. injection Hrun as <- _ _. destruct Hheld as (? & ? & Hc). split_and!; [done|done|].
  apply eq_None_not_Some. intros [x [_ ?]%Hun]. congruence.
Qed.

Lemma hold_channel_transfer op proof : op_wf max (ChannelTransfer op) → op_fresh s (SignedChannelTransfer op proof) →
  verified (SignedChannelTransfer op proof) → keeps (SignedChannelTransfer op proof).
Proof.
  intros Hwf Hf Hv s' b' ev' Hrun. pose proof Hok as [Hn _ _ _ _ _]. cbn [into_verified] in Hv. peel Hv as [] Hv'.
  apply map_err_ok, channel_transfer_verify_iff in Hv' as (_ & [Hnd Hin] & _ & _);
    [|apply Hn|by eapply notes_u64|eapply Forall_impl; [apply Hwf|by intros nt [? _]]].
  destruct (channel_transfer_run max op _ _ _ Hn Hwf Hnd Hin Hf) as (c1 & cs & t' & Hex & Hsc & [_ Hun] & Hreg).
  cbn [try_apply_op] in Hrun. rewrite Hex in Hrun. cbn [channel_err map_err mbind result_bind] in Hrun. injection Hrun as <- _ _.
  pose proof Hheld as (Hview & Hs & Hc). assert (i ∉ ct_inputs op) as Hi.
  { intros Hx. assert (channel_notes (channels_of s) !! i = Some (ct_channel_id op)) by by apply Hin. congruence. }
 
  destruct (held_spent _ _ _ _ _ _ _ _ Hheld Hsc Hi) as (? & ? & _). split_and!; [done|done|].
  eapply (held_registered _ (locked_of s) c1); [|exact Hf|exact Hreg]. split_and!; [done|done|]. apply eq_None_not_Some. intros [x [_ ?]%Hun]. congruence.
Qed.

Lemma hold_leader_claim op proof : op_wf max (LeaderClaim op) → op_fresh s (SignedLeaderClaim op proof) → keeps (SignedLeaderClaim op proof).
Proof.
  intros Hwf Hf s' b' ev' Hrun. pose proof Hok as [Hn _ _ _ _ _]. cbn [try_apply_op] in Hrun. unfold leader_claim_execute, leader_claim_utxo in Hrun.
  rewrite (op_id_ok leader_claim_codec tt) in Hrun by by apply (payload_valid_wf max (LeaderClaim op)).
  change (blake2b_256 _) with (op_digest (LeaderClaim op)) in Hrun. cbn [mbind result_bind lcc_reward_amount lcc_utxos] in Hrun.
  set (v := mkUtxo _ _ _) in Hrun. destruct (claim_note_run (E:=LedgerError Id) (utxos_of_state s) v (no_store _ _ _ Hn) Hf) as (t' & Hins & Hsc).
  rewrite Hins in Hrun. cbn [mbind result_bind] in Hrun. peel Hrun as [r ev] Hr. peel Hr as cl Hcl. injection Hr as <- <-. injection Hrun as <- _ _.
  eapply held_spent; [exact Hheld|exact Hsc|apply not_elem_of_nil].
Qed.

Lemma hold_claim_pow op : op_wf max (ClaimPowReward op) → op_fresh s (SignedClaimPow op) → keeps (SignedClaimPow op).
Proof.
  intros Hwf Hf s' b' ev' Hrun. pose proof Hok as [Hn _ _ _ _ _]. cbn [try_apply_op] in Hrun. unfold pow_claim_execute in Hrun.
  rewrite (op_id_ok claim_pow_codec tt) in Hrun by by apply (payload_valid_wf max (ClaimPowReward op)).
  change (blake2b_256 _) with (op_digest (ClaimPowReward op)) in Hrun. peel Hrun as [r ev] Hr. peel Hr as slot Hslot.
  cbn [mbind result_bind pe_epoch_reward pe_utxos] in Hr. set (v := mkUtxo _ _ _) in Hr.
  destruct (claim_note_run (E:=LedgerError Id) (utxos_of_state s) v (no_store _ _ _ Hn) Hf) as (t' & Hins & Hsc).
  rewrite Hins in Hr. cbn [mbind result_bind] in Hr. peel Hr as pool Hpool. injection Hr as <- <-. injection Hrun as <- _ _.
  eapply held_spent; [exact Hheld|exact Hsc|apply not_elem_of_nil].
Qed.

Lemma hold_declare op proof : i ≠ dm_service_note_id op → keeps (SignedSDPDeclare op proof).
Proof.
  intros Hi s' b' ev' Hrun. cbn [try_apply_op] in Hrun. peel Hrun as sdp Hsdp. injection Hrun as <- _ _.
  unfold try_apply_sdp_declaration, declare_execute in Hsdp. apply map_err_ok in Hsdp. peel Hsdp as v Hv. peel Hsdp as r Hr. injection Hsdp as <-.
  apply map_err_ok in Hr. peel Hr as dd Hd. peel Hr as w Hw. peel Hr as sn Hsn. injection Hr as <-. apply map_err_ok, lock_ok in Hsn as (_ & _ & ->).
  destruct Hheld as (? & ? & ?). split_and!; [done| |done]. cbn. by rewrite lookup_insert_ne.
Qed.

(** No operation touches a free note it does not name. *)
Lemma op_hold op : op_wf max (operation op) → op_fresh s op → verified op → i ∉ op_consumed (operation op) → keeps op.
Proof.
  destruct op as [op p|op p|op p|op p|op p|op p|op p|op p|op p|op p|op]; cbn [operation op_consumed]; intros Hwf Hf Hv Hi.
  - intros s' b' ev' Hrun. cbn [try_apply_op] in Hrun. peel Hrun as [] _. peel Hrun as cs Hcs. injection Hrun as <- _ _.
    unfold inscription_execute in Hcs. peel Hcs as [sq st] _. peel Hcs as tip _. by injection Hcs as <-.
  - intros s' b' ev' Hrun. cbn [try_apply_op] in Hrun. peel Hrun as cs Hcs. injection Hrun as <- _ _.
    unfold config_execute in Hcs. peel Hcs as tip _. by injection Hcs as <-.
  - by apply hold_deposit.
  - by apply hold_withdraw.
  - by apply hold_channel_transfer.
  - apply hold_declare. by apply not_elem_of_cons in Hi as [? _].
  - intros s' b' ev' Hrun. cbn [try_apply_op] in Hrun. peel Hrun as sdp Hsdp. injection Hrun as <- _ _.
    unfold apply_withdrawn_msg in Hsdp. apply map_err_ok in Hsdp. peel Hsdp as [st ?] _. peel Hsdp as v _. peel Hsdp as ds _. by injection Hsdp as <-.
  - intros s' b' ev' Hrun. cbn [try_apply_op] in Hrun. peel Hrun as sdp Hsdp. injection Hrun as <- _ _.
    unfold apply_active_msg in Hsdp. apply map_err_ok in Hsdp. peel Hsdp as [st ?] _. peel Hsdp as v _. peel Hsdp as ds _. peel Hsdp as dd _.
    peel Hsdp as r _. by injection Hsdp as <-.
  - by apply hold_leader_claim.
  - by apply hold_transfer.
  - by apply hold_claim_pow.
Qed.

End Step.

(** ** The operations before the transfer *)

Definition no_transfer (op : Op) : Prop := match op with Transfer _ => False | _ => True end.

Lemma op_balance s op c tx_hash balance events s' b' ev' : no_transfer (operation op) →
  try_apply_op (Id:=Id) s op c tx_hash balance events = Ok (s', b', ev') → b' = balance.
Proof. destruct op; cbn [try_apply_op operation no_transfer]; intros Hno Hrun; [..|done|]; inv_ok Hrun; done. Qed.

Lemma ops_hold c tx_hash ops tail : ∀ s index balance gas events d s' b' g' ev' d', ledger_ok s → in_range s →
  config_for_slot (E:=LedgerError Id) eras (slot_of s) = Ok c → Forall (λ op, op_wf max (operation op)) ops →
  Forall no_transfer (operation <$> ops) → ops_fresh (Id:=Id) eras s c tx_hash index (ops ++ tail) →
  apply_ops (Id:=Id) s eras c tx_hash index balance gas events d ops = Ok (s', b', g', ev', d') →
  op_applied s balance s' b' ∧ b' = balance ∧ ops_fresh (Id:=Id) eras s' c tx_hash (index + Z.of_nat (length ops)) tail ∧
  ∀ i u, i ∉ ((operation <$> ops) ≫= op_consumed) → held s i u → held s' i u.
Proof.
  induction ops as [|op ops IH]; intros s index balance gas events d s' b' g' ev' d' Hok Hr Hc Hwf Hno Hf Hrun; cbn [apply_ops] in Hrun.
  { injection Hrun as <- <- <- <- <-. cbn [length app] in *. rewrite Z.add_0_r. split_and!; [by apply op_applied_refl|done|done|done]. }
  apply Forall_cons in Hwf as [Hop Hwf]. rewrite fmap_cons in Hno. apply Forall_cons in Hno as [Hno1 Hno]. pose proof Hr as [Hslot Hep Hepm].
  peel Hrun as d1 Hv. apply map_err_ok in Hv. destruct (Hf d d1 Hv) as [Hfresh Hnext]. peel Hrun as g1 Hg1. peel Hrun as g2 Hg2.
  peel Hrun as [[s1 b1] ev1] Happ.
  pose proof (op_step max s eras c tx_hash index balance events d d1 Hok Hslot Hc Hep Hepm op Hop Hfresh Hv) as Hstep.
  rewrite Happ in Hstep. cbn [op_outcome] in Hstep. pose proof (op_applied_slot _ _ _ _ Hstep) as Hcons.
  assert (b1 = balance) as -> by (by eapply op_balance).
  destruct (IH s1 (index + 1) balance g2 ev1 d1 s' b' g' ev' d') as (Ha & -> & Htail & Hheld);
    [apply Hstep|by eapply op_applied_range|by rewrite Hcons|done|done|by eapply Hnext|done|].
  split_and!; [by eapply op_applied_trans|done| |].
  - cbn [length]. by replace (index + Z.of_nat (S (length ops))) with (index + 1 + Z.of_nat (length ops)) by lia.
  - intros i u Hi Hh. rewrite fmap_cons, bind_cons, not_elem_of_app in Hi. destruct Hi as [Hi1 Hi]. apply Hheld; [done|].
    by eapply (op_hold s c tx_hash index balance events d d1 i u Hok Hh op).
Qed.

Lemma apply_ops_app c tx_hash ops tail : ∀ s index balance gas events d,
  apply_ops (Id:=Id) s eras c tx_hash index balance gas events d (ops ++ tail) =
  (r ← apply_ops s eras c tx_hash index balance gas events d ops;
   let '(s1, b1, g1, ev1, d1) := r in apply_ops s1 eras c tx_hash (index + Z.of_nat (length ops)) b1 g1 ev1 d1 tail).
Proof.
  induction ops as [|op ops IH]; intros s index balance gas events d; cbn [app apply_ops length]; [cbn; by rewrite Z.add_0_r|].
  destruct (map_err _ (into_verified _ _ _ _ _)) as [d1|e|f]; cbn [mbind result_bind]; [|done..].
  destruct (gas_err (TxVerification.execution_gas _ _ _)) as [g1|e|f]; cbn [mbind result_bind]; [|done..].
  destruct (gas_err (gas_add _ _)) as [g2|e|f]; cbn [mbind result_bind]; [|done..].
  destruct (try_apply_op _ _ _ _ _ _) as [[[s1 b1] ev1]|e|f]; cbn [mbind result_bind]; [|done..].
  rewrite IH. by replace (index + Z.of_nat (S (length ops))) with (index + 1 + Z.of_nat (length ops)) by lia.
Qed.

(** ** The transfer *)

(** A transfer of free notes is refused exactly for having too many keys. *)
Lemma transfer_verdict s t proof index tx_hash d : ledger_ok s → NoDup (t_inputs t) → (∀ i, i ∈ t_inputs t → ∃ u, held s i u) →
  if (length (t_inputs t) <=? MAX_ZK_SIGNING_KEYS)%nat
  then ∃ d', into_verified (SignedTransfer t proof) index tx_hash (helper_of (mantle_ledger s) (cryptarchia_ledger s) eras) d = Ok d'
  else into_verified (SignedTransfer t proof) index tx_hash (helper_of (mantle_ledger s) (cryptarchia_ledger s) eras) d =
         Err (TransferVerificationError TransferInvalidProof).
Proof.
  intros [Hn _ _ _ _ _] Hnd Hh. cbn [into_verified]. unfold transfer_verify.
  assert (validate_not_in_channel (t_inputs t) (locked_of s) (channels_of s) (utxos_of_state s) = Ok tt) as Hval.
  { apply validate_not_in_channel_ok; [apply Hn|]. split; [done|]. intros i Hi. destruct (Hh i Hi) as (u & ? & ? & ?). split_and!; [by exists u|done|done]. }
  assert (∀ ids, (∀ i, i ∈ ids → ∃ u, held s i u) → ∃ pks, get_pk ids (utxos_of_state s) = Ok pks ∧ length pks = length ids) as Hpk.
  { induction ids as [|i ids IH]; intros Hi; [by exists []|]. destruct (Hi i) as (u & Hu & _); [by left|].
    destruct IH as (pks & Hp & Hl); [intros; apply Hi; by right|]. exists (pk (note u) :: pks). cbn [get_pk]. rewrite ks_get_view, Hu by apply Hn.
    cbn [ok_or mbind result_bind]. rewrite Hp. cbn. by rewrite Hl. }
  destruct (Hpk (t_inputs t) Hh) as (pks & Hp & Hl). cbn [helper_of h_service_notes h_channels h_utxos]. rewrite Hval. cbn [map_err mbind result_bind].
  rewrite Hp. cbn [map_err mbind result_bind]. unfold inputs_from_pks. rewrite Hl.
  destruct (Nat.leb_spec (length (t_inputs t)) MAX_ZK_SIGNING_KEYS) as [Hle|Hgt].
  - rewrite (proj2 (Nat.ltb_ge _ _)) by done. cbn. by eexists.
  - by rewrite (proj2 (Nat.ltb_lt _ _)) by done.
Qed.

Lemma transfer_balance_in t (store : T) : ks_ok store → utxos_u64 store → present store (t_inputs t) → outputs_wf (t_outputs t) →
  notes_value (t_outputs t) <= inputs_value (ks_view store) (t_inputs t) <= u64_max →
  transfer_balance t store = Ok (transfer_excess t store).
Proof.
  intros Hok Hu Hp Ho Hle. assert (Forall note_ok (t_outputs t)) as Ho' by (eapply Forall_impl; [apply Ho|by intros n [? _]]).
  pose proof (notes_value_nonneg _ Ho'). destruct (transfer_balance_ok t store Hok Hu Hp Ho) as [?|[Hx|Hx]]; [done|..]; exfalso; revert Hx.
  all: unfold transfer_balance; rewrite inputs_amount_sum, outputs_amount_sum by done.
  all: rewrite !(proj2 (Z.leb_le _ _)) by lia; cbn [map_err mbind result_bind].
  all: unfold i128_checked, u64_max in *; rewrite Z.add_0_l, (proj2 (Z.leb_le _ _)), (proj2 (Z.ltb_lt _ _)) by lia.
  all: cbn [andb ok_or mbind result_bind]; by rewrite (proj2 (Z.leb_le _ _)), (proj2 (Z.ltb_lt _ _)) by lia.
Qed.

Lemma transfer_applies s t proof c tx_hash events : ledger_ok s → supply s <= u64_max → op_wf max (Transfer t) →
  op_fresh s (SignedTransfer t proof) → NoDup (t_inputs t) → (∀ i, i ∈ t_inputs t → ∃ u, held s i u) →
  notes_value (t_outputs t) <= inputs_value (ks_view (utxos_of_state s)) (t_inputs t) →
  ∃ store, try_apply_op (Id:=Id) s (SignedTransfer t proof) c tx_hash 0 events =
    Ok (with_utxos s store, transfer_excess t (utxos_of_state s), events) ∧ transfer_excess t (utxos_of_state s) <= u64_max.
Proof.
  intros Hok Hsup Hwf Hf Hnd Hh Hle. pose proof Hok as [Hn _ _ _ _ _].
  assert (present (utxos_of_state s) (t_inputs t)) as Hp by (intros i Hi; destruct (Hh i Hi) as (u & Hu & _); by exists u).
  assert (inputs_value (ks_view (utxos_of_state s)) (t_inputs t) <= u64_max) as Hmax.
  { pose proof (inputs_value_total (utxos_of_state s) (t_inputs t) (no_store _ _ _ Hn) (notes_u64 _ _ _ Hn) Hnd Hp).
    pose proof (pools_nonneg _ _ _ _ Hok). unfold supply, pools in Hsup. lia. }
  assert (Forall note_ok (t_outputs t)) as Ho' by (eapply Forall_impl; [apply (proj2 Hwf)|by intros n [? _]]).
  pose proof (notes_value_nonneg _ Ho') as Hpos. assert (0 <= transfer_excess t (utxos_of_state s) <= u64_max) as Hex by (unfold transfer_excess; lia).
  destruct (transfer_run max t (utxos_of_state s) _ _ Hn Hwf Hnd) as (store & Hrun & _); [|exact Hf|].
  { intros i Hi. destruct (Hh i Hi) as (u & ? & ? & ?). split_and!; [by exists u|done|done]. }
  exists store. split; [|lia]. cbn [try_apply_op]. unfold try_apply_transfer.
  rewrite transfer_balance_in by (apply Hn || by eapply notes_u64 || done || apply Hwf). cbn [map_err mbind result_bind]. rewrite Hrun.
  cbn [map_err mbind result_bind]. unfold i128_checked. rewrite Z.add_0_l. unfold u64_max in Hex.
  by rewrite (proj2 (Z.leb_le _ _)), (proj2 (Z.ltb_lt _ _)) by lia.
Qed.

(** ** Fees *)

(** What a wallet reads from a state to price against it. *)
Definition context_of s c : OpsGasContext := from_channels (channels_of s) (prices_of s) (gas_profile c).

Lemma fees_taken s c tx s' balance gas events d fee : tx_wf max tx → config_for_slot (E:=LedgerError Id) eras (slot_of s) = Ok c →
  try_apply_tx_operations (Id:=Id) s eras tx = Ok (s', balance, gas, events, d) → prices_of s' = prices_of s →
  total_gas_cost (context_of s c) (op_refs tx) = Ok fee → 0 <= fee <= balance → balance <= u64_max →
  try_apply_transaction (Id:=Id) s eras tx = Ok (s', mkGasAndFees gas (tx_size tx) fee (balance - fee), events, d).
Proof.
  intros Hwf Hc Hops Hpr Hcost Hfee Hmax. destruct (tx_priced max s eras tx s' balance gas events d c (prices_of s) Hwf Hc Hops) as [Hgas Hsize].
  unfold try_apply_transaction. rewrite Hops. cbn [mbind result_bind]. rewrite (storage_size_ok max tx Hwf) in Hsize. rewrite (storage_size_ok max tx Hwf). cbn [mbind result_bind].
  unfold total_gas_cost, storage_gas_cost in Hcost. change (context_of s c) with (from_channels (channels_of s) (prices_of s) (gas_profile c)) in Hcost.
  rewrite Hgas, Hsize in Hcost. cbn [mbind result_bind from_channels gas_prices prices_of execution_base_gas_price storage_gas_price] in Hcost.
  injection Hpr as -> ->. rewrite as_u64_small in Hcost by (destruct Hwf as [_ Hsz]; unfold tx_size, usize_max, u64_max in *; lia).
  destruct (gas_cost gas _) as [e1|e|f]; cbn [mbind result_bind gas_err map_err] in *; [|done..].
  destruct (gas_cost (tx_size tx) _) as [e2|e|f]; cbn [mbind result_bind gas_err map_err] in *; [|done..].
  rewrite Hcost. cbn [mbind result_bind gas_err map_err]. rewrite (proj2 (Z.ltb_ge _ _)) by lia. cbn [err_if mbind result_bind].
  rewrite as_u64_small by lia. unfold cost_sub, checked_sub. by rewrite (proj2 (Z.leb_le _ _)) by lia.
Qed.

(** ** The verdict *)

Section Verdict.
Variables (s : LedgerState T R) (c : Config Params) (tx : SignedOps).
Hypothesis (Hok : ledger_ok s).
Hypothesis (Hr : in_range s).
Hypothesis (Hsup : supply s <= u64_max).
Hypothesis (Hc : config_for_slot (E:=LedgerError Id) eras (slot_of s) = Ok c).
Hypothesis (Hwf : tx_wf max tx).
Hypothesis (Hfork : fork_digest tx ∈ accepted_fork_digests c).
Hypothesis (Hfresh : tx_fresh (Id:=Id) eras s tx).

Notation run ops := (apply_ops (Id:=Id) s eras c (tx_digest tx) 0 0 0 [] deferred_new ops).

Lemma operations_run : try_apply_tx_operations (Id:=Id) s eras tx = run (signed_ops tx).
Proof.
  unfold try_apply_tx_operations. rewrite Hc. cbn [mbind result_bind]. rewrite bool_decide_true by done. cbn [negb err_if mbind result_bind].
  by rewrite (tx_hasher_ok (E:=LedgerError Id) max tx Hwf).
Qed.

Lemma prices_kept b s' b' : op_applied s b s' b' → prices_of s' = prices_of s.
Proof. intros Ha. unfold prices_of. by rewrite (oa_consensus _ _ _ _ Ha). Qed.

(** The gas of the operations before the transfer, and of the whole. *)
Lemma gas_of_prefix ops t proof s1 b1 g1 ev1 d1 fee : signed_ops tx = ops ++ [SignedTransfer t proof] → run ops = Ok (s1, b1, g1, ev1, d1) →
  total_gas_cost (context_of s c) (op_refs tx) = Ok fee → ∃ g2, gas_add g1 (g_transfer (gas_profile c)) = Ok g2.
Proof.
  intros Hops Hrun Hcost. pose proof Hwf as [(_ & _ & _ & Hp) Hsz]. rewrite Hops in Hp. apply Forall_app in Hp as [Hp _].
  destruct (ops_priced (E:=GasOverflow) eras c (tx_digest tx) ops s 0 0 0 [] deferred_new s1 b1 g1 ev1 d1 (running_new (context_of s c)) 0 Hrun Hp)
    as [Hg _]; [apply track_new|done|lia| |].
  { unfold tx_size in Hsz. change (bytes signed_ops_codec tx) with (bytes tx_ops_codec (op_refs tx) ++ all_proof_bytes (proof_of <$> signed_ops tx)) in Hsz.
    unfold all_proof_bytes in *. rewrite Hops, fmap_app, fmap_app, concat_app, !length_app in Hsz. lia. }
  unfold total_gas_cost, execution_gas_consumption in Hcost. cbn [op_refs to_ops] in Hcost. rewrite Hops, fmap_app in Hcost.
  cbn [fmap list_fmap operation] in Hcost. rewrite consumed_gas_snoc, Hg in Hcost. cbn [mbind result_bind] in Hcost. peel Hcost as g2 Hg2. by exists g2.
Qed.

(** The transfer that pays, after the operations it pays for. *)
Lemma paying_transfer ops t proof us s1 b1 g1 ev1 d1 fee p : signed_ops tx = ops ++ [SignedTransfer t proof] → run ops = Ok (s1, b1, g1, ev1, d1) →
  Forall no_transfer (operation <$> ops) → t_inputs t = utxo_id <$> us → NoDup (t_inputs t) →
  Forall (λ u, held s (utxo_id u) u ∧ utxo_id u ∉ (operation <$> ops) ≫= op_consumed) us →
  total_gas_cost (context_of s c) (op_refs tx) = Ok fee → 0 <= fee → 0 <= p → utxos_value us - notes_value (t_outputs t) = due fee p →
  if (length us <=? MAX_ZK_SIGNING_KEYS)%nat
  then ∃ s' g ev d, try_apply_transaction (Id:=Id) s eras tx = Ok (s', g, ev, d) ∧ gf_fee_burned g = fee ∧ gf_fee_tip g = due fee p - fee
  else try_apply_transaction (Id:=Id) s eras tx = Err (LedgerVerification (TransferVerificationError TransferInvalidProof)).
Proof.
  intros Hops Hrun Hno Hin Hnd Hus Hcost Hfee Hp Hnet. pose proof Hwf as [(_ & _ & Hopwf & _) _]. rewrite Hops in Hopwf.
  apply Forall_app in Hopwf as [Hw Hwt]. apply Forall_cons in Hwt as [Hwt _]. cbn [operation] in Hwt.
  pose proof (Hfresh c _ Hc (tx_hasher_ok (E:=LedgerError Id) max tx Hwf)) as Hf. rewrite Hops in Hf.
  destruct (ops_hold c _ ops _ s 0 0 0 [] deferred_new _ _ _ _ _ Hok Hr Hc Hw Hno Hf Hrun) as (Ha & -> & Hft & Hkeep).
  assert (Forall (λ u, held s1 (utxo_id u) u) us) as Hus1 by (eapply Forall_impl; [exact Hus|]; intros u [? ?]; by apply Hkeep).
  assert (∀ i, i ∈ t_inputs t → ∃ u, held s1 i u) as Hh.
  { rewrite Hin. intros i (u & -> & Hu)%list_elem_of_fmap. exists u. by eapply Forall_forall in Hus1. }
  pose proof (transfer_verdict s1 t proof (0 + Z.of_nat (length ops)) (tx_digest tx) d1 (oa_ok _ _ _ _ Ha) Hnd Hh) as Hv.
  pose proof operations_run as Hall. rewrite Hops, apply_ops_app, Hrun in Hall. cbn [mbind result_bind apply_ops] in Hall.
  rewrite Hin, length_fmap in Hv. destruct (Nat.leb_spec (length us) MAX_ZK_SIGNING_KEYS) as [Hle|Hgt].
  2:{ rewrite Hv in Hall. cbn [map_err mbind result_bind] in Hall. unfold try_apply_transaction. by rewrite Hall. }
  destruct Hv as [d2 Hv]. rewrite Hv in Hall. cbn [map_err mbind result_bind operation TxVerification.execution_gas gas_err] in Hall.
  destruct (gas_of_prefix ops t proof s1 0 g1 ev1 d1 fee Hops Hrun Hcost) as [g2 Hg2]. rewrite Hg2 in Hall. cbn [gas_err map_err mbind result_bind] in Hall.
  assert (inputs_value (ks_view (utxos_of_state s1)) (t_inputs t) = utxos_value us) as Hval.
  { rewrite Hin. apply listed_value. eapply Forall_impl; [exact Hus1|]. by intros u [? _]. }
  pose proof (due_nonneg fee p Hp Hfee) as Hdue. pose proof (oa_supply _ _ _ _ Ha) as Hs1.
  destruct (transfer_applies s1 t proof c (tx_digest tx) ev1) as (store & Happ & Hmax); [apply Ha|lia|exact Hwt|by eapply Hft|done|done|lia|].
  assert (transfer_excess t (utxos_of_state s1) = due fee p) as Hex by (unfold transfer_excess; lia).
  rewrite Happ in Hall. cbn [mbind result_bind] in Hall. rewrite Hex in *. eexists _, _, _, _.
  split; [apply (fees_taken s c tx _ _ _ _ _ fee Hwf Hc Hall); [|exact Hcost| |lia]|done].
  - unfold prices_of. cbn. exact (prices_kept _ _ _ Ha).
  - split; [done|]. unfold due. assert (0 <= (fee * p + 99) / 100) by (apply Z.div_pos; nia). lia.
Qed.

End Verdict.

(** ** From the wallet to the ledger *)

(** The funded builder, in terms of the notes that fund it. *)
Lemma funded_parts (keys : gmap ZkPublicKey KeyId) s n b change_pk pks context excluded p b' :
  ledger_ok s → supply s <= u64_max → follows_state keys s n → builder_ok max b → fits b → ledger_inputs b = [] →
  Forall (λ x, 0 <= value x) (t_outputs (pending_transfer b)) → context_ok context → NoDup pks → 0 <= p <= u64_max →
  fund_tx (Id:=Id) n b change_pk pks context excluded p = Ok b' →
  builder_ok max b' ∧ builder_ops b' = builder_ops b ∧
  Forall (λ u, held s (utxo_id u) u ∧ utxo_id u ∉ builder_ops b ≫= op_consumed) (ledger_inputs b') ∧
  ∃ fee, minimum_gas_cost b' context = Ok fee ∧ 0 <= fee ∧ net_balance b' = due fee p.
Proof.
  intros Hok Hsup Hf Hb Hfit Hnil Hout Hctx Hnd Hp Hfund. pose proof Hok as [Hn _ _ _ _ _].
  assert (notes_total (utxos_of_state s) <= u64_max) as Ht by (pose proof (pools_nonneg _ _ _ _ Hok); unfold supply, pools in Hsup; lia).
  destruct (fund_tx_outcome (Id:=Id) max keys s n b change_pk pks context excluded p) as (cands & Hel & _ & Ho);
    [done..|by rewrite Hnil|done|done|done|done|]. rewrite Hfund in Ho. destruct Ho as (k & ns & Hns & -> & Hok' & Hz).
  split_and!; [done|done| |by apply (delta_zero max context _ p Hok' Hfit Hctx Hp Hz)].
  cbn [with_outputs with_inputs ledger_inputs]. rewrite Hnil. cbn [app]. apply Forall_forall. intros u Hu.
  assert (u ∈ cands) as ((Hv & _) & Hs & Hch & _ & Hc)%Hel by (by eapply elem_of_sublist; [|apply sublist_take]).
  split; [done|]. unfold notes_consumed_or_used_in_service in Hc. by apply not_elem_of_app in Hc as [? _].
Qed.

(** The operations of a transaction built by the builder. *)
Lemma built_ops b d tx : builder_ok max b → length d = 32%nat → build b d = Ok (op_refs tx) → operation <$> signed_ops tx = full_ops b.
Proof. intros Hb Hd Ho. pose proof (build_outcome max b d Hb) as Hbo. rewrite Ho in Hbo. destruct Hbo as [[= _ Heq] _]. exact Heq. Qed.

Lemma tail_cases b : tail_ops b = [] ∧ t_inputs (pending_transfer b) = [] ∧ t_outputs (pending_transfer b) = [] ∨
  tail_ops b = [Transfer (pending_transfer b)].
Proof. unfold tail_ops. destruct (t_inputs _), (t_outputs _); auto. Qed.

(** C21: from the wallet to the block. A builder starts without inputs and with
    operations none of which is a transfer, and the ledger applies these operations
    by themselves. The transaction that a wallet in step with the ledger funds from it
    is well formed, of an accepted fork digest, and creates no note there is already. It is then accepted, burns
    exactly the predicted price and tips exactly the reserve, as long as the
    transfer that pays has no more inputs than a signature has keys; with more,
    the ledger refuses every such transaction. The notes chosen are never
    touched by the operations they pay for. *)
Theorem funded_transaction_verdict (keys : gmap ZkPublicKey KeyId) s n b change_pk pks c excluded p b' tx :
  ledger_ok s → in_range s → supply s <= u64_max → config_for_slot (E:=LedgerError Id) eras (slot_of s) = Ok c →
  context_ok (context_of s c) → follows_state keys s n → NoDup pks → 0 <= p <= u64_max →
  builder_ok max b → fits b → ledger_inputs b = [] → Forall (λ x, 0 <= value x) (t_outputs (pending_transfer b)) →
  Forall no_transfer (builder_ops b) →
  fund_tx (Id:=Id) n b change_pk pks (context_of s c) excluded p = Ok b' →
  build b' (fork_digest tx) = Ok (op_refs tx) → tx_wf max tx → fork_digest tx ∈ accepted_fork_digests c → tx_fresh (Id:=Id) eras s tx →
  (∃ r, apply_ops (Id:=Id) s eras c (tx_digest tx) 0 0 0 [] deferred_new (take (length (builder_ops b)) (signed_ops tx)) = Ok r) →
  ∃ fee, minimum_gas_cost b' (context_of s c) = Ok fee ∧
    if (length (ledger_inputs b') <=? MAX_ZK_SIGNING_KEYS)%nat
    then ∃ s' g ev d, try_apply_transaction (Id:=Id) s eras tx = Ok (s', g, ev, d) ∧
           gf_fee_burned g = fee ∧ gf_fee_tip g = (fee * p + 99) / 100
    else try_apply_transaction (Id:=Id) s eras tx = Err (LedgerVerification (TransferVerificationError TransferInvalidProof)).
Proof.
  intros Hok Hr Hsup Hc Hctx Hf Hnd Hp Hb Hfit Hnil Hout Hno Hfund Hbuild Hwf Hfork Hfresh [[[[[s1 b1] g1] ev1] d1] Hrun].
  destruct (funded_parts keys s n b change_pk pks (context_of s c) excluded p b') as (Hb' & Hops & Hus & fee & Hmin & Hfee & Hnet); [done..|].
  exists fee. split; [done|]. pose proof Hwf as [(Hd & _) _]. pose proof (built_ops b' _ tx Hb' Hd Hbuild) as Hfull.
  destruct (minimum_gas_cost_built max (context_of s c) b' fee _ _ Hb' Hd Hmin Hbuild) as [_ Hcost].
  set (k := length (builder_ops b)) in *. assert (operation <$> take k (signed_ops tx) = builder_ops b) as Htake.
  { rewrite fmap_take, Hfull. unfold full_ops. rewrite Hops. by apply take_app_length. }
  assert (operation <$> drop k (signed_ops tx) = tail_ops b') as Hdrop.
  { rewrite fmap_drop, Hfull. unfold full_ops. rewrite Hops. by apply drop_app_length. }
  pose proof (take_drop k (signed_ops tx)) as Hsplit. rewrite <- Htake in Hno.
  assert (due fee p - fee = (fee * p + 99) / 100) as Htip by (unfold due; lia).
  destruct (tail_cases b') as [(Ht & Hi & Ho)|Ht]; rewrite Ht in Hdrop.
  - assert (ledger_inputs b' = []) as Hli by (rewrite (bo_inputs _ _ Hb') in Hi; by apply fmap_nil_inv in Hi).
    apply fmap_nil_inv in Hdrop. rewrite Hdrop, app_nil_r in Hsplit. rewrite Hli. cbn [length Nat.leb].
    unfold net_balance in Hnet. rewrite Hli, Ho in Hnet. cbn in Hnet. assert (0 <= (fee * p + 99) / 100) by (apply Z.div_pos; nia).
    pose proof (Hfresh c _ Hc (tx_hasher_ok (E:=LedgerError Id) max tx Hwf)) as Hff. rewrite <- Hsplit, <- (app_nil_r (take _ _)) in Hff.
    pose proof Hwf as [(_ & _ & Hw & _) _]. rewrite <- Hsplit in Hw.
    destruct (ops_hold c _ _ _ s 0 0 0 [] deferred_new _ _ _ _ _ Hok Hr Hc Hw Hno Hff Hrun) as (Ha & -> & _).
    rewrite Hsplit in Hrun. eexists _, _, _, _. split; [apply (fees_taken s c tx s1 0 g1 ev1 d1 fee Hwf Hc)|cbn; lia].
    + by rewrite (operations_run s c tx Hc Hwf Hfork).
    + by eapply prices_kept.
    + done.
    + lia.
    + unfold u64_max. lia.
  - destruct (drop k (signed_ops tx)) as [|op [|]] eqn:Hlast; try done. injection Hdrop as Hop.
    assert (∃ proof, op = SignedTransfer (pending_transfer b') proof) as [proof ->] by (destruct op; cbn in Hop; try done; injection Hop as <-; eauto).
    rewrite <- Htip. eapply (paying_transfer s c tx Hok Hr Hsup Hc Hwf Hfork Hfresh _ _ proof (ledger_inputs b') s1 b1 g1 ev1 d1 fee p);
      [done|done|done|apply Hb'|rewrite (bo_inputs _ _ Hb'); apply Hb'| |done|done|lia|exact Hnet]. by rewrite Htake.
Qed.

End Funded.

End FundedTx.
