(* ===== verification/WalletWitness.v ===== *)
(** * The theorems of the wallet at the example ledger

    A wallet with one key over the ledger of [LedgerExamples]: its state after a
    block, its balance, and a transaction it funds. *)

From S2P Require Import Prelude Era EraFacts EngineConfig Merkle MerkleStore Mmr Codec CodecLaws Ops OpsCodec Channels Utxos ServiceNotes Inputs ChannelOps SignedTx SdpOps LedgerConfig ClaimOps TxVerification NoteFacts Leaders Pow Markets MarketFacts Cryptarchia ConsensusFacts Ledger BlendRewards BlendFacts LedgerInvariant TxTheorems BlockTheorems GenesisTheorems LedgerExamples LedgerWitness Wallet WalletFacts WalletMirror TxBuilder TxPricing TxFunding FundedTx.

#[local] Open Scope Z_scope.

Module WalletWitness.
Import Canonical Ops OpsCodec Utxos Channels ServiceNotes Inputs ChannelOps SignedTx SdpOps LedgerConfig ClaimOps TxVerification NoteFacts Leaders Pow Markets MarketFacts Cryptarchia ConsensusFacts Ledger LedgerInvariant LedgerVerify TxTheorems BlockTheorems GenesisTheorems BlendRewards BlendFacts LedgerExamples LedgerWitness Wallet WalletFacts WalletMirror TxBuilder TxPricing TxFunding FundedTx.
Import DynamicMerkle(MerkleHasher(..), EMPTY_VALUE, compress) KeyedTree(MerkleTree) UtxoTree.

Definition keys : gmap ZkPublicKey unit := {[zk_key := tt]}.
Definition no_vouchers : Vouchers unit := mkVouchers ∅ ∅.

#[local] Strategy expand [update_result].

(** ** Mirroring *)

Lemma transfer_distinct : distinct_ids [transfer_tx].
Proof. split; [apply NoDup_singleton|]. constructor; [|constructor]. apply NoDup_singleton. Qed.

Lemma wallet_mirrors_ledger_witness : ∃ b w', state_apply_block (B:=unit) (Id:=Z) (from_ledger keys state0) keys no_vouchers b = Ok w' ∧
  notes w' = notes_from_ledger keys state1.
Proof.
  pose proof (force_ok update_result update_computes) as Hu. unfold state1.
  destruct (force update_result update_computes) as [[s ev] d]. unfold update_result in Hu. pose proof state0_number as Hn.
  destruct (wallet_mirrors_ledger (T:=Tree) (R:=Service) (P:=Z) (Id:=Z) (VoucherId:=unit) (B:=unit) eras 1024 keys eq_refl eras_wf eras_valid state0 state0_chain)
    as [Hstart Hblock]; [rewrite Hn; lia|].
  destruct (Hblock (from_ledger keys state0) no_vouchers 1 0 1 5 [] [transfer_tx] 0 s ev d Hstart (block_ok _ state0_block_ok) transfer_distinct)
    as (b & w' & _ & Hw & [Hnotes _ _ _ _] & _); [constructor; [constructor; [exact I|constructor]|constructor]|exact Hu|exact epoch_of_slot_1|].
  exists b, w'. split; [exact Hw|exact Hnotes].
Defined.

(** ** Balance *)

Lemma notes_within (s : LedgerState Tree Service) : ledger_ok s → supply s <= u64_max → notes_total (cl_utxos (cryptarchia_ledger s)) <= u64_max.
Proof. intros Hok Hs. pose proof (pools_nonneg _ _ _ _ Hok). unfold supply, pools in Hs. lia. Qed.

Lemma notes_fit : notes_total (cl_utxos (cryptarchia_ledger state0)) <= u64_max.
Proof. exact (notes_within state0 (ch_ledger _ _ state0_chain) state0_fits). Qed.

Notation notes0 := (notes_from_ledger keys state0).

Lemma balance_computes : match state_balance (E:=unit) notes0 zk_key with Ok (Some b) => b_balance b =? 10500 | _ => false end = true.
Proof. vm_compute. reflexivity. Qed.


(** ** Rewards of proof of work *)

Lemma state1_chain : chain_ok (Id:=Z) eras state1.
Proof.
  pose proof state0_supply as Hs. pose proof state0_number as Hn.
  destruct (chain_run (T:=Tree) (R:=Service) (P:=Z) (Id:=Z) eras 1024 eq_refl eras_wf eras_valid state0 5 1 state1 state0_chain emission_5) as [Hok _];
    [lia|exact chain1|rewrite Hn; lia|rewrite Hs; unfold u64_max; lia|exact Hok].
Qed.

Definition claim_op : ClaimPowRewardOp := mkClaimPowReward 0 (into_block_hash (1 : Z)) zk_key.
Definition claim_result := try_apply_op (T:=Tree) (R:=Service) (Id:=Z) state1 (SignedClaimPow claim_op) config digest 0 [].
#[local] Strategy expand [claim_result].

Lemma claim_computes : is_ok claim_result = true.
Proof. vm_compute. reflexivity. Qed.

Lemma claim_fresh : insertable_b (cl_utxos (cryptarchia_ledger state1)) (op_notes state1 (SignedClaimPow claim_op)) = true.
Proof. vm_compute. reflexivity. Qed.

Lemma pow_reward_untracked_witness : ∃ (s' : LedgerState Tree Service) u, utxos (notes_from_ledger keys s') !! utxo_id u = Some u ∧ pk (note u) = zk_key ∧
  transform_ops (E:=unit) ∅ [ClaimPowReward claim_op] = Ok [].
Proof.
  pose proof (force_ok claim_result claim_computes) as Hr. destruct (force claim_result claim_computes) as [[s' b'] ev']. unfold claim_result in Hr.
  destruct (pow_reward_untracked (T:=Tree) (R:=Service) (Id:=Z) 1024 keys state1 claim_op config digest 0 [] s' b' ev' (ch_ledger _ _ state1_chain))
    as (Ht & u & Hpk & _ & Hu & _); [split; [split; by_compute|split; [done|split; by_compute]]|exact (insertable_b_ok _ _ claim_fresh)|by eexists|exact Hr|].
  exists s', u. split; [exact Hu|]. split; [exact Hpk|apply Ht].
Defined.

(** ** Prices *)

Lemma gas_prediction_exact_witness : ∃ gas,
  execution_gas_consumption (context_of state0 config) (op_refs transfer_tx) = Ok gas ∧
  minimum_signed_transaction_size (E:=GasOverflow) (context_of state0 config) (op_refs transfer_tx) = storage_size transfer_tx.
Proof.
  assert (ops_result = Ok ops_done) as Ho by exact (force_ok ops_result ops_compute). destruct ops_done as [[[[s1 balance] gas] ev] d].
  exists gas. exact (gas_prediction_exact (T:=Tree) (R:=Service) (Id:=Z) 1024 state0 eras transfer_tx s1 balance gas ev d config (prices_of state0)
    transfer_tx_wf state0_config Ho).
Defined.

(** ** Funding *)

(** The thresholds of a context, as a computation. *)
Definition thresholds_b (m : gmap ChannelId Z) : bool := bool_decide (map_Forall (λ _ t, 0 <= t <= 65535) m).

Lemma thresholds_b_ok m id t : thresholds_b m = true → m !! id = Some t → in_u16 t.
Proof. intros Hb%bool_decide_eq_true Ht. exact (Hb id t Ht). Qed.

Lemma thresholds0 : thresholds_b (transfer_thresholds (context_of state0 config)) && thresholds_b (configuration_thresholds (context_of state0 config)) = true.
Proof. vm_compute. reflexivity. Qed.

Lemma context0_ok : context_ok (context_of state0 config).
Proof.
  pose proof thresholds0 as Ht. apply andb_true_iff in Ht as [Ht Hc]. split.
  - intros id t. exact (thresholds_b_ok _ id t Ht).
  - intros id t. exact (thresholds_b_ok _ id t Hc).
  - cbn [context_of from_channels gas_prices prices_of execution_base_gas_price]. rewrite state0_fee. lia.
  - cbn [context_of from_channels gas_prices prices_of storage_gas_price]. rewrite state0_price. lia.
  - exact (ck_profile _ config_valid).
Qed.

(** An inscription that starts a channel, to be paid for. *)
Definition post : InscriptionOp := mkInscription other_channel [x01] root signer.
Definition builder0 : MantleTxBuilder := mkBuilder [ChannelInscribe post] [] (mkTransfer [] []) ∅.

Lemma post_wf : op_wf 1024 (ChannelInscribe post).
Proof. split_and!; [done|unfold data_wf; by_compute|done|split; done]. Qed.

Lemma builder0_ok : builder_ok 1024 builder0.
Proof. split; [done|constructor|by_compute|by_compute|by_compute|]. constructor; [exact post_wf|constructor]. Qed.

Lemma builder0_fits : fits builder0.
Proof. unfold fits. by_compute. Qed.

Notation fund_result := (fund_tx (Id:=Z) notes0 builder0 zk_key [zk_key] (context_of state0 config) ∅ 10).

Lemma fund_computes : is_ok fund_result = true.
Proof. vm_compute. reflexivity. Qed.

Definition funded : MantleTxBuilder := force fund_result fund_computes.

Lemma notes0_follow : follows_state keys state0 notes0.
Proof. exact (from_ledger_follows keys state0 (mo_notes _ _ _ _ (ch_ledger _ _ state0_chain))). Qed.

Lemma fund_tx_exact_witness : ∃ b' fee, fund_result = Ok b' ∧ minimum_gas_cost b' (context_of state0 config) = Ok fee ∧
  net_balance b' = fee + (fee * 10 + 99) / 100.
Proof.
  destruct (fund_tx_exact (T:=Tree) (R:=Service) (Id:=Z) 1024 keys state0 notes0 builder0 zk_key [zk_key] (context_of state0 config) ∅ 10
    (mo_notes _ _ _ _ (ch_ledger _ _ state0_chain)) notes_fit notes0_follow builder0_ok builder0_fits (Forall_nil_2 _) (Forall_nil_2 _) context0_ok
    (NoDup_singleton _) ltac:(unfold u64_max; lia)) as (cands & _ & _ & Hf).
  pose proof fund_computes as Hc. destruct fund_result as [b'|e|f]; [|discriminate..]. destruct Hf as (_ & _ & _ & _ & fee & Hm & Hn).
  exists b', fee. split; [reflexivity|]. split; [exact Hm|exact Hn].
Defined.

(** ** The funded transaction *)

Definition funded_op : TransferOp := mkTransfer [first_note] [mkNote 9546 zk_key].
Definition funded_tx : SignedOps :=
  mkSignedOps digest [SignedInscribe post (replicate 64 x01); SignedTransfer funded_op (replicate 128 x01)].

Lemma funded_built : build funded digest = Ok (op_refs funded_tx).
Proof. vm_compute. reflexivity. Qed.

Lemma funded_tx_wf : tx_wf 1024 funded_tx.
Proof.
  split; [|by_compute]. split_and!; [done|by_compute| |].
  - constructor; [exact post_wf|constructor; [|constructor]]. cbn [operation op_wf]. split; split; [by_compute| |by_compute|].
    + split; [by apply NoDup_singleton|]. constructor; [|constructor]. split; by_compute.
    + constructor; [apply note_wf_b; by_compute|constructor].
  - constructor; [done|constructor; [done|constructor]].
Qed.

(** An inscription leaves the notes alone. *)
Lemma inscribe_notes (s : LedgerState Tree Service) op proof c h balance events s' b' ev' :
  try_apply_op (Id:=Z) (Params:=Params) s (SignedInscribe op proof) c h balance events = Ok (s', b', ev') →
  cl_utxos (cryptarchia_ledger s') = cl_utxos (cryptarchia_ledger s).
Proof. cbn [try_apply_op]. intros Hr. peel Hr as [] _. peel Hr as cs _. by injection Hr as <- _ _. Qed.

Lemma two_fresh (s : LedgerState Tree Service) : insertable_b (cl_utxos (cryptarchia_ledger s)) (utxos_of (op_digest (Transfer funded_op)) (t_outputs funded_op)) = true →
  insertable_b (cl_utxos (cryptarchia_ledger s)) [] = true → tx_fresh (Id:=Z) eras s funded_tx.
Proof.
  intros Hi Hnil c h _ _ d d' _. split; [exact (insertable_b_ok _ _ Hnil)|]. intros balance events s' b' ev' Happ. cbn [ops_fresh].
  intros d1 d2 _. split; [|done]. unfold op_fresh. cbn [op_notes operation]. rewrite (inscribe_notes _ _ _ _ _ _ _ _ _ _ Happ). exact (insertable_b_ok _ _ Hi).
Qed.

Notation prefix_result := (apply_ops (T:=Tree) (R:=Service) (Id:=Z) state0 eras config (tx_digest funded_tx) 0 0 0 [] deferred_new
  (take (length (builder_ops builder0)) (signed_ops funded_tx))).
Lemma prefix_computes : is_ok prefix_result = true.
Proof. vm_compute. reflexivity. Qed.

Lemma funded_one_input : length (ledger_inputs funded) = 1%nat.
Proof. vm_compute. reflexivity. Qed.

Lemma funded_transaction_verdict_witness : ∃ s' g ev d fee,
  try_apply_transaction (T:=Tree) (R:=Service) (Id:=Z) state0 eras funded_tx = Ok (s', g, ev, d) ∧
  gf_fee_burned g = fee ∧ gf_fee_tip g = (fee * 10 + 99) / 100.
Proof.
  destruct (funded_transaction_verdict (T:=Tree) (R:=Service) (Id:=Z) eras 1024 keys state0 notes0 builder0 zk_key [zk_key] config ∅ 10 funded funded_tx
    (ch_ledger _ _ state0_chain) state0_range state0_fits state0_config context0_ok notes0_follow (NoDup_singleton _) ltac:(unfold u64_max; lia)
    builder0_ok builder0_fits eq_refl (Forall_nil_2 _)) as (fee & _ & Hv).
  - constructor; [exact I|constructor].
  - exact (force_ok fund_result fund_computes).
  - exact funded_built.
  - exact funded_tx_wf.
  - left.
  - apply two_fresh; vm_compute; reflexivity.
  - exists (force prefix_result prefix_computes). exact (force_ok prefix_result prefix_computes).
  - rewrite funded_one_input in Hv. destruct Hv as (s' & g & ev & d & Hr & Hb & Ht). exists s', g, ev, d, fee. split; [exact Hr|]. split; [exact Hb|exact Ht].
Defined.

End WalletWitness.
