(* ===== verification/Blocks.v ===== *)
(** * Headers, blocks and proposals

    core/src/header, core/src/block and core/src/utils/merkle.rs, with the
    leadership proof of core/src/proofs/leader_proof.rs: the identifier of a header,
    the commitment to a body, the canonical encodings, and the checks a block
    passes when it is created, rebuilt from its parts or decoded. The bincode
    serialization that is signed and the verifier of leadership proofs are class
    parameters. *)

From S2P Require Import Prelude Codec Ops Utxos ChannelOps SignedTx Cryptarchia.

#[local] Open Scope Z_scope.

Module Blocks.
Import Canonical Bounded Ops Utxos ChannelOps SignedTx Cryptarchia.

(** ** The proof of leadership *)

(** [Groth16LeaderProof]. *)
Record Groth16LeaderProof := mkLeaderProof {
  gl_proof : list byte;
  gl_entropy_contribution : Z;
  gl_leader_key : Ed25519Key;
  gl_voucher_cm : Z
}.

(** [lb_pol::verify]: the verdict on a proof and the nine inputs of
    [PolVerifierInput::to_inputs], or an error. *)
Class PolVerify := { pol_verify : list byte → list Z → option bool }.

(** [ed25519_pk_to_fr_tuple]: a half has 16 bytes and always fits. *)
Definition ed25519_pk_to_fr_tuple (k : Ed25519Key) : Z * Z := (from_le_bytes (take 16 k), from_le_bytes (drop 16 k)).

(** [PolVerifierInput::new] and [to_inputs]. *)
Definition pol_inputs (p : Groth16LeaderProof) (public : LeaderPublic) : list Z :=
  let leader_pk := ed25519_pk_to_fr_tuple (gl_leader_key p) in
  [gl_entropy_contribution p; lpub_slot public; lpub_epoch_nonce public; lpub_lottery_0 public; lpub_lottery_1 public;
   lpub_aged_root public; lpub_latest_root public; leader_pk.1; leader_pk.2].

(** [LeaderProof for Groth16LeaderProof]. *)
#[export] Instance groth16_leader_proof `{PolVerify} : LeaderProof Groth16LeaderProof := {|
  lp_verify p public := default false (pol_verify (gl_proof p) (pol_inputs p public));
  lp_entropy := gl_entropy_contribution;
  lp_voucher_cm := gl_voucher_cm
|}.

(** ** Headers *)

Definition HeaderId := Hash.

(** [Header]. *)
Record Header := mkHeader {
  h_slot : Z;
  h_parent_block : HeaderId;
  h_body_root : Hash;
  h_proof_of_leadership : Groth16LeaderProof
}.

(** [SignedHeader]. *)
Record SignedHeader := mkSignedHeader { sh_header : Header; sh_signature : Ed25519Signature }.

(** [Header::update_hasher]: the bytes that are hashed. *)
Definition header_preimage (h : Header) : list byte :=
  let p := h_proof_of_leadership h in
  ascii_bytes "BLOCK_ID_V1" ++ h_parent_block h ++ to_le_bytes 8 (h_slot h) ++ h_body_root h ++
  fr_to_bytes (gl_voucher_cm p) ++ fr_to_bytes (gl_entropy_contribution p) ++ gl_proof p ++ gl_leader_key p.

(** [Header::id]. *)
Definition header_id `{Blake2Crate} (h : Header) : HeaderId := blake2b_256 (header_preimage h).

Section Codecs.
Context `{Ed25519Crate}.

(** [BinaryEncode] and [BinaryDecode] of the proof, whose length is a constant. *)
Definition leader_proof_fields (p : Groth16LeaderProof) := (gl_proof p, (gl_entropy_contribution p, (gl_leader_key p, gl_voucher_cm p))).
Definition leader_proof_build '(p, (e, (k, v))) := mkLeaderProof p e k v.
Definition leader_proof_codec : Codec unit Groth16LeaderProof :=
  struct_codec leader_proof_fields leader_proof_build
    (field_pair groth16_codec (field_pair fr_codec (field_pair unverified_key_codec fr_codec))).

Definition LEADER_PROOF_SIZE : Z := Z.of_nat COMPRESSED_PROOF_SIZE + 32 + 32 + 32.

Definition header_fields (h : Header) := (h_slot h, (h_parent_block h, (h_body_root h, h_proof_of_leadership h))).
Definition header_build '(s, (p, (b, l))) := mkHeader s p b l.
Definition header_codec : Codec unit Header :=
  struct_codec header_fields header_build (field_pair u64_codec (field_pair bytes32 (field_pair bytes32 leader_proof_codec))).

(** [Header::CANONICAL_ENCODED_SIZE] and [SignedHeader::CANONICAL_ENCODED_SIZE]. *)
Definition HEADER_SIZE : Z := 8 + 32 + 32 + LEADER_PROOF_SIZE.
Definition SIGNED_HEADER_SIZE : Z := HEADER_SIZE + Z.of_nat SIGNATURE_SIZE.

Definition signed_header_fields (s : SignedHeader) := (sh_header s, sh_signature s).
Definition signed_header_build '(h, s) := mkSignedHeader h s.
Definition signed_header_codec : Codec unit SignedHeader :=
  struct_codec signed_header_fields signed_header_build (field_pair header_codec signature_codec).

(** [UncleHeaders], whose context is the most uncles of the era. *)
Definition uncle_headers_codec : Codec Z (list SignedHeader) :=
  at_context (λ max, (max, tt)) (runtime_bounded_vec 0 1 signed_header_codec).

Definition uncles_max_encoded_size (max_uncles : Z) : Z := 1 + max_uncles * SIGNED_HEADER_SIZE.

End Codecs.

(** ** The body root *)

(** [Hashable], [StorageSize] and the codec of the transactions of a block. *)
Class BlockTx (C Tx : Type) := {
  bt_codec : Codec C Tx;
  bt_hash : ∀ {E}, Tx → result E TxHash;
  bt_storage_size : ∀ {E}, Tx → result E Z
}.

#[export] Instance signed_ops_block_tx `{Ed25519Crate} `{MultiaddrCrate} `{Blake2Crate} : BlockTx Z SignedOps := {|
  bt_codec := signed_ops_codec;
  bt_hash E := tx_hasher;
  bt_storage_size E := storage_size
|}.

Section Roots.
Context `{Blake2Crate}.

(** [merkle::node]. *)
Definition node (l r : list byte) : Hash := blake2b_256 (l ++ r).

(** One round: [chunks(2)], where an odd chunk is indexed out of bounds. *)
Fixpoint pair_up {E} (leaves : list Hash) : result E (list Hash) :=
  match leaves with
  | [] => Ok []
  | [_] => Fault Panic
  | l :: r :: leaves => rest ← pair_up leaves; Ok (node l r :: rest)
  end.

(** The loop; every round halves the leaves. *)
Fixpoint root_loop {E} (fuel : nat) (leaves : list Hash) : result E Hash :=
  match leaves with
  | [leaf] => Ok leaf
  | [] => Fault Panic
  | _ => match fuel with O => Fault OutOfFuel | S fuel => leaves ← pair_up leaves; root_loop fuel leaves end
  end.

(** [usize::next_power_of_two]. *)
Definition next_power_of_two (n : nat) : nat := 2 ^ Nat.log2_up n.

(** [calculate_transactions_root], of the hashes. *)
Definition zero_leaf : TxHash := replicate 32 x00.
Definition pad_leaves (leaves : list TxHash) : list TxHash :=
  let target_size := next_power_of_two (Nat.max (length leaves) 1) in
  leaves ++ replicate (target_size - length leaves) zero_leaf.
Definition transactions_root {E} (leaves : list TxHash) : result E Hash :=
  let leaves := pad_leaves leaves in root_loop (length leaves) leaves.

Context `{Ed25519Crate} {C Tx : Type} `{!BlockTx C Tx}.

(** [body_root]. *)
Definition body_preimage (uncles : list byte) (txs_root : Hash) : list byte := ascii_bytes "BODY_ROOT_V1" ++ uncles ++ txs_root.
Definition body_root {E} (uncle_headers : list SignedHeader) (transactions : list Tx) : result E Hash :=
  uncles ← encode uncle_headers_codec uncle_headers;
  hashes ← mapM bt_hash transactions;
  txs_root ← transactions_root hashes;
  Ok (blake2b_256 (body_preimage uncles txs_root)).

End Roots.

(** ** Blocks *)

(** [BlockLimits]. *)
Record BlockLimits := mkLimits { max_uncles : Z; max_transactions : Z; max_transactions_size : Z }.

Inductive HeaderError := GenesisSlot.

(** [block::Error]. *)
Inductive BlockError :=
  | Serialisation
  | BlockSignature
  | BlockHeader (e : HeaderError)
  | BodyRootMismatch
  | KeyMismatch
  | BlockBounded (e : BoundedError)
  | ContentTooBig (size max : Z).

(** [Block]. *)
Record Block (Tx : Type) := mkBlock {
  header : Header;
  signature : Ed25519Signature;
  uncle_headers : list SignedHeader;
  transactions : list Tx
}.

Arguments mkBlock {Tx} _ _ _ _.
Arguments header {Tx} _.
Arguments signature {Tx} _.
Arguments uncle_headers {Tx} _.
Arguments transactions {Tx} _.

(** The bincode serialization of a header, which may fail. *)
Class HeaderBincode := { header_to_bytes : Header → option (list byte) }.

(** [Ed25519Key]: a signing key with its public key and signatures. *)
Class Ed25519Sign (SigningKey : Type) := {
  public_key : SigningKey → Ed25519Key;
  sign_payload : SigningKey → list byte → Ed25519Signature
}.

(** [verify_header_alone]. *)
Definition verify_header_alone (h : Header) : result HeaderError unit := err_if (h_slot h =? 0) GenesisSlot.

Section Verify.
Context `{Ed25519Verify} `{HeaderBincode}.

(** [verify_header_signature]. *)
Definition verify_header_signature (h : Header) (signature : Ed25519Signature) : result BlockError unit :=
  header_bytes ← ok_or (header_to_bytes h) Serialisation;
  err_if (negb (verify_strict (gl_leader_key (h_proof_of_leadership h)) header_bytes signature)) BlockSignature.

(** [SignedHeader::verify]. *)
Definition signed_header_verify (s : SignedHeader) : result BlockError unit :=
  map_err BlockHeader (verify_header_alone (sh_header s));;
  verify_header_signature (sh_header s) (sh_signature s).

Context `{Blake2Crate} `{Ed25519Crate} {C Tx : Type} `{!BlockTx C Tx}.
Implicit Types b : Block Tx.

(** [Block::validate_total_transactions_size]. *)
Fixpoint transactions_size_loop (max total : Z) (txs : list Tx) : result BlockError Z :=
  match txs with
  | [] => Ok total
  | tx :: txs =>
      size ← bt_storage_size tx;
      total ← ok_or (checked_add usize_max total size) (ContentTooBig usize_max max);
      err_if (max <? total) (ContentTooBig total max);;
      transactions_size_loop max total txs
  end.

Definition validate_total_transactions_size b (max_transactions_size : Z) : result BlockError Z :=
  transactions_size_loop max_transactions_size 0 (transactions b).

(** [Block::validate_body_root]. *)
Definition validate_body_root b : result BlockError unit :=
  root ← body_root (uncle_headers b) (transactions b);
  err_if (negb (bool_decide (h_body_root (header b) = root))) BodyRootMismatch.

(** [Block::into_verified] and [reconstruct]. *)
Definition into_verified_block b (max_transactions_size : Z) : result BlockError (Block Tx) :=
  map_err BlockHeader (verify_header_alone (header b));;
  validate_total_transactions_size b max_transactions_size;;
  validate_body_root b;;
  verify_header_signature (header b) (signature b);;
  Ok b.

Definition reconstruct (h : Header) (uncles : list SignedHeader) (txs : list Tx) (s : Ed25519Signature)
    (max_transactions_size : Z) : result BlockError (Block Tx) :=
  into_verified_block (mkBlock h s uncles txs) max_transactions_size.

Context {SigningKey : Type} `{!Ed25519Sign SigningKey}.

(** [Header::sign]. *)
Definition header_sign (h : Header) (k : SigningKey) : result BlockError Ed25519Signature :=
  header_bytes ← ok_or (header_to_bytes h) Serialisation;
  Ok (sign_payload k header_bytes).

(** [Block::create]. *)
Definition create (parent_block : HeaderId) (slot : Z) (uncles : list SignedHeader) (proof : Groth16LeaderProof)
    (txs : list Tx) (max_transactions_size : Z) (signing_key : SigningKey) : result BlockError (Block Tx) :=
  err_if (slot =? 0) (BlockHeader GenesisSlot);;
  err_if (negb (bool_decide (gl_leader_key proof = public_key signing_key))) KeyMismatch;;
  root ← body_root uncles txs;
  let h := mkHeader slot parent_block root proof in
  s ← header_sign h signing_key;
  let b := mkBlock h s uncles txs in
  validate_total_transactions_size b max_transactions_size;;
  Ok b.

(** [BlockTransactions], and [BinaryEncode] and [BinaryDecode] of [Block]. *)
Definition block_transactions_codec : Codec (Z * C) (list Tx) := runtime_bounded_vec 0 2 bt_codec.

Definition block_codec : Codec (Z * Z * (Z * C)) (Block Tx) := mkCodec
  (λ E b,
    nh ← encoded_length header_codec (header b);
    nu ← encoded_length uncle_headers_codec (uncle_headers b);
    n ← strict_add usize_max nh nu;
    nt ← encoded_length block_transactions_codec (transactions b);
    n ← strict_add usize_max n nt;
    ns ← encoded_length signature_codec (signature b);
    strict_add usize_max n ns)
  (λ E b,
    bh ← encode header_codec (header b);
    bu ← encode uncle_headers_codec (uncle_headers b);
    bt ← encode block_transactions_codec (transactions b);
    bs ← encode signature_codec (signature b);
    Ok (bh ++ bu ++ bt ++ bs))
  (λ input '(max_uncles, max_transactions_size, transactions_context),
    '(input, h) ← decode header_codec input tt;
    '(input, uncles) ← decode uncle_headers_codec input max_uncles;
    '(input, txs) ← decode block_transactions_codec input transactions_context;
    '(input, s) ← decode signature_codec input tt;
    b ← map_err (λ _, InvalidValue "a block that does not verify") (reconstruct h uncles txs s max_transactions_size);
    Ok (input, b)).

(** [Block::max_encoded_size]. *)
Definition block_max_encoded_size (limits : BlockLimits) : Z :=
  HEADER_SIZE + uncles_max_encoded_size (max_uncles limits) + 2 + max_transactions_size limits + Z.of_nat SIGNATURE_SIZE.

(** ** Proposals *)

(** [TxHash::prefix]. *)
Definition REFERENCE_PREFIX_BYTES : nat := 16.
Definition tx_hash_prefix (h : TxHash) : list byte := take REFERENCE_PREFIX_BYTES h.

(** [Proposal]; [References] is its prefixes. *)
Record Proposal := mkProposal {
  p_header : Header;
  p_uncle_headers : list SignedHeader;
  p_references : list (list byte);
  p_signature : Ed25519Signature
}.

(** [Block::to_proposal]. *)
Definition to_proposal {E} b : result E Proposal :=
  hashes ← mapM bt_hash (transactions b);
  Ok (mkProposal (header b) (uncle_headers b) (tx_hash_prefix <$> hashes) (signature b)).

Definition references_codec : Codec Z (list (list byte)) :=
  at_context (λ max, (max, tt)) (runtime_bounded_vec 0 2 (array_codec REFERENCE_PREFIX_BYTES byte_codec)).

Definition proposal_fields (p : Proposal) := (p_header p, (p_uncle_headers p, (p_references p, p_signature p))).
Definition proposal_build '(h, (u, (r, s))) := mkProposal h u r s.
Definition proposal_codec : Codec BlockLimits Proposal :=
  struct_codec proposal_fields proposal_build
    (field_pair (at_context (λ _, tt) header_codec)
      (field_pair (at_context max_uncles uncle_headers_codec)
        (field_pair (at_context max_transactions references_codec) (at_context (λ _, tt) signature_codec)))).

(** [References::max_encoded_size] and [Proposal::max_encoded_size]. *)
Definition references_max_encoded_size (max_transactions : Z) : Z := 2 + max_transactions * Z.of_nat REFERENCE_PREFIX_BYTES.
Definition proposal_max_encoded_size (limits : BlockLimits) : Z :=
  HEADER_SIZE + uncles_max_encoded_size (max_uncles limits) + references_max_encoded_size (max_transactions limits) +
  Z.of_nat SIGNATURE_SIZE.

End Verify.

End Blocks.
