(* ===== verification/BlockFacts.v ===== *)
(** * The Merkle root of the transactions

    The loop of core/src/utils/merkle.rs always returns, and what it returns is
    the root of the perfect tree over the padded leaves. The root determines the
    leaves: from two lists of transactions with one root, one reads either the
    equality of the lists, or two different preimages with one hash, or a
    preimage of the padding leaf. The first module, [BodyRoot], is about this
    root; [BlockFacts] about the formats of headers and uncles. *)

From S2P Require Import Prelude Codec CodecLaws Ops OpsCodec Utxos ChannelOps SignedTx Cryptarchia Blocks.

#[local] Open Scope nat_scope.

Module BodyRoot.
Import Bounded Ops Utxos ChannelOps SignedTx Blocks.

Section Tree.
Context `{Blake2Crate}.
Implicit Types (leaves : list Hash) (k : nat).

(** The root of the perfect tree of height [k] over [leaves], the reference. *)
Fixpoint tree_root k leaves : Hash :=
  match k with
  | O => default [] (head leaves)
  | S k => node (tree_root k (take (2 ^ k) leaves)) (tree_root k (drop (2 ^ k) leaves))
  end.

(** The preimages that the tree hashes. *)
Fixpoint tree_preimages k leaves : list (list byte) :=
  match k with
  | O => []
  | S k =>
      let l := take (2 ^ k) leaves in
      let r := drop (2 ^ k) leaves in
      (tree_root k l ++ tree_root k r) :: tree_preimages k l ++ tree_preimages k r
  end.

(** One round. *)
Fixpoint pairs leaves : list Hash :=
  match leaves with l :: r :: leaves => node l r :: pairs leaves | _ => [] end.

Lemma pairs_length n : ∀ leaves, length leaves = 2 * n → length (pairs leaves) = n.
Proof.
  induction n as [|n IH]; intros [|l [|r leaves]] Hl; cbn [length] in Hl; [done|lia..|]. cbn [pairs length]. rewrite IH; lia.
Qed.

Lemma pair_up_ok {E} n : ∀ leaves, length leaves = 2 * n → pair_up (E:=E) leaves = Ok (pairs leaves).
Proof.
  induction n as [|n IH]; intros [|l [|r leaves]] Hl; cbn [length] in Hl; [done|lia..|]. cbn [pair_up pairs]. by rewrite IH by lia.
Qed.

Lemma pairs_take n : ∀ leaves, pairs (take (2 * n) leaves) = take n (pairs leaves).
Proof.
  induction n as [|n IH]; intros leaves; [by rewrite Nat.mul_0_r, !take_0|].
  replace (2 * S n) with (S (S (2 * n))) by lia. destruct leaves as [|l [|r leaves]]; [done..|]. cbn [take pairs]. by rewrite IH.
Qed.

Lemma pairs_drop n : ∀ leaves, pairs (drop (2 * n) leaves) = drop n (pairs leaves).
Proof.
  induction n as [|n IH]; intros leaves; [by rewrite Nat.mul_0_r, !drop_0|].
  replace (2 * S n) with (S (S (2 * n))) by lia. destruct leaves as [|l [|r leaves]]; [done..|]. cbn [drop pairs]. by rewrite IH.
Qed.

Lemma tree_root_pairs k : ∀ leaves, length leaves = 2 ^ S k → tree_root (S k) leaves = tree_root k (pairs leaves).
Proof.
  induction k as [|k IH]; intros leaves Hl.
  - by destruct leaves as [|l [|r [|]]].
  - cbn [tree_root]. change (2 ^ S k) with (2 * 2 ^ k) in *. rewrite <- pairs_take, <- pairs_drop.
    rewrite <- !IH; [done|rewrite length_drop, Hl; cbn; lia|rewrite length_take, Hl; cbn; lia].
Qed.

Lemma root_loop_ok {E} k : ∀ fuel leaves, length leaves = 2 ^ k → k <= fuel → root_loop (E:=E) fuel leaves = Ok (tree_root k leaves).
Proof.
  induction k as [|k IH]; intros fuel leaves Hl Hf.
  - destruct leaves as [|l [|]]; [done| |done]. by destruct fuel.
  - destruct fuel as [|fuel]; [lia|]. pose proof (Nat.pow_nonzero 2 k ltac:(lia)).
    rewrite tree_root_pairs by done. rewrite <- (IH fuel); [|apply pairs_length; by rewrite Hl|lia].
    destruct leaves as [|l [|r leaves]]; [cbn in Hl; lia..|]. cbn [root_loop].
    by rewrite (pair_up_ok (2 ^ k)).
Qed.

(** The height of the tree over so many transactions. *)
Definition tree_height (n : nat) : nat := Nat.log2_up (Nat.max n 1).

Lemma pad_leaves_length leaves : length (pad_leaves leaves) = 2 ^ tree_height (length leaves).
Proof.
  unfold pad_leaves, next_power_of_two, tree_height. rewrite length_app, length_replicate.
  pose proof (Nat.log2_log2_up_spec (Nat.max (length leaves) 1) ltac:(lia)). unfold TxHash, Hash in *. lia.
Qed.

(** The loop returns, and returns the root of the tree. *)
Lemma transactions_root_ok {E} leaves : transactions_root (E:=E) leaves = Ok (tree_root (tree_height (length leaves)) (pad_leaves leaves)).
Proof.
  unfold transactions_root. rewrite pad_leaves_length. apply root_loop_ok; [apply pad_leaves_length|].
  apply Nat.lt_le_incl, Nat.pow_gt_lin_r. lia.
Qed.

(** ** Binding *)

(** Two preimages, one of each list, that differ and have one hash. *)
Definition collision (P Q : list (list byte)) : Prop := ∃ x y, x ∈ P ∧ y ∈ Q ∧ x ≠ y ∧ blake2b_256 x = blake2b_256 y.

Lemma collision_mono P Q P' Q' : collision P Q → P ⊆ P' → Q ⊆ Q' → collision P' Q'.
Proof. intros (x & y & ? & ? & ?) HP HQ. exists x, y. auto. Qed.

Lemma collision_sym P Q : collision P Q → collision Q P.
Proof. intros (x & y & ? & ? & ? & ?). exists y, x. auto. Qed.

Lemma same_hash x y P Q : blake2b_256 x = blake2b_256 y → x ∈ P → y ∈ Q → x = y ∨ collision P Q.
Proof. intros Hh Hx Hy. destruct (decide (x = y)); [by left|]. right. by exists x, y. Qed.

Context (blake2b_256_length : ∀ x, length (blake2b_256 x) = 32).

Definition hashes_wf leaves : Prop := Forall (λ h, length h = 32) leaves.

Lemma tree_root_length k : ∀ leaves, length leaves = 2 ^ k → hashes_wf leaves → length (tree_root k leaves) = 32.
Proof.
  destruct k; intros leaves Hl Hw; [|apply blake2b_256_length]. destruct leaves as [|l [|]]; try done. by apply Forall_cons in Hw as [? _].
Qed.

(** The halves of a tree. *)
Lemma tree_halves k leaves : length leaves = 2 ^ S k → hashes_wf leaves →
  (length (take (2 ^ k) leaves) = 2 ^ k ∧ hashes_wf (take (2 ^ k) leaves)) ∧
  (length (drop (2 ^ k) leaves) = 2 ^ k ∧ hashes_wf (drop (2 ^ k) leaves)).
Proof.
  intros Hl Hw. cbn [Nat.pow] in Hl. rewrite length_take, length_drop. split; (split; [lia|]); [by apply Forall_take|by apply Forall_drop].
Qed.

Lemma node_inv k k' l r l' r' P Q : length l = 2 ^ k → length l' = 2 ^ k' → hashes_wf l → hashes_wf l' →
  node (tree_root k l) (tree_root k r) = node (tree_root k' l') (tree_root k' r') →
  tree_root k l ++ tree_root k r ∈ P → tree_root k' l' ++ tree_root k' r' ∈ Q →
  (tree_root k l = tree_root k' l' ∧ tree_root k r = tree_root k' r') ∨ collision P Q.
Proof.
  intros Hl Hl' Hw Hw' Hn HP HQ. destruct (same_hash _ _ P Q Hn HP HQ) as [Heq|]; [left|by right].
  apply app_inj_1 in Heq; [done|]. by rewrite !tree_root_length.
Qed.

(** Trees of one height. *)
Lemma tree_binding k : ∀ l l', length l = 2 ^ k → length l' = 2 ^ k → hashes_wf l → hashes_wf l' → tree_root k l = tree_root k l' →
  l = l' ∨ collision (tree_preimages k l) (tree_preimages k l').
Proof.
  induction k as [|k IH]; intros l l' Hl Hl' Hw Hw' Hr.
  { destruct l as [|a [|]], l' as [|b [|]]; try done. left. cbn in Hr. by subst. }
  destruct (tree_halves k l Hl Hw) as [[? ?] [? ?]], (tree_halves k l' Hl' Hw') as [[? ?] [? ?]].
  cbn [tree_root tree_preimages] in *.
  edestruct (node_inv k k) as [[Ea Eb]|Hc]; [| | | |exact Hr|constructor|constructor| |by right]; [done..|].
  apply IH in Ea as [Ea|Hc]; try done; [|right; eapply collision_mono; [done|set_solver..]].
  apply IH in Eb as [Eb|Hc]; try done; [|right; eapply collision_mono; [done|set_solver..]].
  left. by rewrite <- (take_drop (2 ^ k) l), Ea, Eb, take_drop.
Qed.

(** A tree of less height: one of its leaves is a node of the other. *)
Lemma tree_heights k : ∀ k' l l', k < k' → length l = 2 ^ k → length l' = 2 ^ k' → hashes_wf l → hashes_wf l' →
  tree_root k l = tree_root k' l' →
  (∃ x, blake2b_256 x ∈ l ∧ x ∈ tree_preimages k' l') ∨ collision (tree_preimages k l) (tree_preimages k' l').
Proof.
  induction k as [|k IH]; intros [|k'] l l' Hk Hl Hl' Hw Hw' Hr; [lia| |lia|].
  { left. destruct l as [|a [|]]; [done| |done]. cbn [tree_root head default] in Hr. eexists. split; [|constructor].
    apply list_elem_of_singleton. symmetry. exact Hr. }
  destruct (tree_halves k l Hl Hw) as [[? ?] [? ?]], (tree_halves k' l' Hl' Hw') as [[? ?] [? ?]].
  cbn [tree_root tree_preimages] in *.
  edestruct (node_inv k k') as [[Ea Eb]|Hc]; [| | | |exact Hr|constructor|constructor| |by right]; [done..|].
  apply IH in Ea as [(x & Hx & Hx')|Hc]; try done; [|right; eapply collision_mono; [done|set_solver..]|lia].
  left. exists x. split; [rewrite <- (take_drop (2 ^ k) l); set_solver|set_solver].
Qed.

(** The root over the hashes of some payloads, and what it hashes besides. *)
Definition payloads_root (ps : list (list byte)) : Hash := tree_root (tree_height (length ps)) (pad_leaves (blake2b_256 <$> ps)).
Definition root_preimages (ps : list (list byte)) : list (list byte) :=
  tree_preimages (tree_height (length ps)) (pad_leaves (blake2b_256 <$> ps)).

(** What breaks the commitment: two of the hashed inputs collide, one of them is
    a preimage of the padding leaf, or a payload is also an inner node. *)
Definition root_break (ps ps' : list (list byte)) : Prop :=
  collision (ps ++ root_preimages ps) (ps' ++ root_preimages ps') ∨
  (∃ x, x ∈ (ps ++ root_preimages ps) ++ ps' ++ root_preimages ps' ∧ blake2b_256 x = zero_leaf) ∨
  (∃ x, (x ∈ ps ∧ x ∈ root_preimages ps') ∨ (x ∈ ps' ∧ x ∈ root_preimages ps)).

Lemma root_break_sym ps ps' : root_break ps ps' → root_break ps' ps.
Proof.
  intros [Hc|[(x & Hx & Hz)|(x & Hx)]]; [left; by apply collision_sym|right; left|right; right].
  - exists x. split; [set_solver|done].
  - exists x. tauto.
Qed.

Lemma leaves_wf ps : hashes_wf (pad_leaves (blake2b_256 <$> ps)).
Proof. apply Forall_app. split; [apply Forall_fmap, Forall_true; intros x; apply blake2b_256_length|by apply Forall_replicate]. Qed.

Lemma leaves_length ps : length (pad_leaves (blake2b_256 <$> ps)) = 2 ^ tree_height (length ps).
Proof. rewrite pad_leaves_length. by rewrite length_fmap. Qed.

Lemma padded_leaf ps h : h ∈ pad_leaves (blake2b_256 <$> ps) → h = zero_leaf ∨ ∃ x, x ∈ ps ∧ h = blake2b_256 x.
Proof.
  intros [Hh|Hh]%elem_of_app; [right|left; by apply elem_of_replicate in Hh as [? _]]. apply list_elem_of_fmap in Hh as (x & -> & Hx). by exists x.
Qed.

(** Lists of hashes that are padded alike are equal, item by item. *)
Lemma hashes_inj ps : ∀ ps', blake2b_256 <$> ps = blake2b_256 <$> ps' → ps = ps' ∨ collision ps ps'.
Proof.
  induction ps as [|p ps IH]; intros [|p' ps'] Heq; rewrite ?fmap_cons in Heq; try done; [by left|]. injection Heq as Hp Hps.
  destruct (same_hash p p' (p :: ps) (p' :: ps') Hp) as [->|]; [constructor..| |by right].
  destruct (IH _ Hps) as [->|Hc]; [by left|right]. eapply collision_mono; [done|set_solver..].
Qed.

Lemma padding_inj ps ps' : length ps <= length ps' → pad_leaves (blake2b_256 <$> ps) = pad_leaves (blake2b_256 <$> ps') →
  ps = ps' ∨ root_break ps ps'.
Proof.
  intros Hle Heq. destruct (decide (length ps = length ps')) as [Hl|Hl].
  - apply app_inj_1 in Heq as [Heq _]; [|by rewrite !length_fmap]. apply hashes_inj in Heq as [?|Hc]; [by left|right; left].
    eapply collision_mono; [done|set_solver..].
  - right. right. left. destruct (lookup_lt_is_Some_2 ps' (length ps)) as [x Hx]; [lia|]. exists x.
    split; [apply list_elem_of_lookup_2 in Hx; set_solver|].
    assert (pad_leaves (blake2b_256 <$> ps') !! length ps = Some (blake2b_256 x)) as Hb.
    { apply lookup_app_l_Some. by rewrite list_lookup_fmap, Hx. }
    rewrite <- Heq in Hb. unfold pad_leaves in Hb. rewrite lookup_app_r in Hb by (by rewrite length_fmap).
    by apply lookup_replicate_1 in Hb as [-> _].
Qed.

Lemma heights_break ps ps' : tree_height (length ps) < tree_height (length ps') → payloads_root ps = payloads_root ps' → root_break ps ps'.
Proof.
  intros Hlt Hr. apply tree_heights in Hr as [(x & Hx & Hn)|Hc]; [..|left; eapply collision_mono; [done|set_solver..]| |apply leaves_length|
    apply leaves_length|apply leaves_wf|apply leaves_wf]; [|done].
  apply padded_leaf in Hx as [Hz|(y & Hy & Hxy)]; [right; left; exists x; split; [set_solver|done]|].
  destruct (same_hash y x (ps ++ root_preimages ps) (ps' ++ root_preimages ps')) as [->|Hc]; [done|set_solver..| |by left].
  right. right. exists x. by left.
Qed.

(** The root determines the payloads and their number. *)
Lemma payloads_root_binding ps ps' : payloads_root ps = payloads_root ps' → ps = ps' ∨ root_break ps ps'.
Proof.
  intros Hr. destruct (Nat.lt_trichotomy (tree_height (length ps)) (tree_height (length ps'))) as [Hh|[Hh|Hh]];
    [right; by apply heights_break| |right; apply root_break_sym; by apply heights_break].
  unfold payloads_root in Hr. rewrite <- Hh in Hr.
  apply tree_binding in Hr as [Heq|Hc]; [..|right; left; unfold root_preimages; rewrite <- Hh; eapply collision_mono; [done|set_solver..]|
    apply leaves_length|rewrite Hh; apply leaves_length|apply leaves_wf|apply leaves_wf].
  destruct (Nat.le_ge_cases (length ps) (length ps')) as [Hle|Hle]; [by apply padding_inj|].
  destruct (padding_inj ps' ps Hle (eq_sym Heq)) as [->|Hb]; [by left|right; by apply root_break_sym].
Qed.

End Tree.

End BodyRoot.

(** * Facts on headers

    The codecs of leadership proofs, headers and lists of uncles are canonical and
    have their documented sizes, with the values they encode as predicates; and the
    laws of the hash and of the signatures the blocks are proved against. *)

#[local] Open Scope Z_scope.

Module BlockFacts.
Import Canonical Bounded Ops OpsCodec Utxos ChannelOps SignedTx Cryptarchia Blocks.

(** [Blake2b<U32>] has an output of 32 bytes. *)
Class Blake2Laws `{Blake2Crate} : Prop := { blake2b_256_length x : length (blake2b_256 x) = 32%nat }.

(** A signature of a key is accepted for its public key. *)
Class Ed25519SignLaws (SigningKey : Type) `{Ed25519Verify} `{!Ed25519Sign SigningKey} : Prop := {
  sign_length k m : length (sign_payload k m) = SIGNATURE_SIZE;
  sign_verifies k m : verify_strict (public_key k) m (sign_payload k m) = true
}.

(** ** Codecs *)

(** The bytes of a canonical codec determine the value. *)
Lemma bytes_inj {C T} (cd : Codec C T) `{!CanonicalCodec cd} c v w : valid cd c v → valid cd c w → bytes cd v = bytes cd w → v = w.
Proof.
  intros Hv Hw Heq. pose proof (decode_encode c v [] Hv) as Hd. rewrite Heq, (decode_encode c w [] Hw) in Hd. by injection Hd.
Qed.

Section Codecs.
Context `{Ed25519Crate}.

#[export] Instance leader_proof_fields_of : FieldsOf leader_proof_fields leader_proof_build.
Proof. split; [by intros []|by intros (?&?&?&?)]. Qed.
#[export] Instance header_fields_of : FieldsOf header_fields header_build.
Proof. split; [by intros []|by intros (?&?&?&?)]. Qed.
#[export] Instance signed_header_fields_of : FieldsOf signed_header_fields signed_header_build.
Proof. split; [by intros []|by intros (?&?)]. Qed.

#[export] Instance leader_proof_canonical : CanonicalCodec leader_proof_codec := _.
#[export] Instance header_canonical : CanonicalCodec header_codec := _.
#[export] Instance signed_header_canonical : CanonicalCodec signed_header_codec := _.
#[export] Instance uncle_headers_canonical : CanonicalCodec uncle_headers_codec := _.
#[export] Instance references_canonical : CanonicalCodec references_codec := _.
#[export] Instance proposal_fields_of : FieldsOf proposal_fields proposal_build.
Proof. split; [by intros []|by intros (?&?&?&?)]. Qed.
#[export] Instance proposal_canonical : CanonicalCodec proposal_codec := _.

(** What the parts of a header satisfy. *)
Definition leader_proof_wf (p : Groth16LeaderProof) : Prop :=
  length (gl_proof p) = COMPRESSED_PROOF_SIZE ∧ in_fr (gl_entropy_contribution p) ∧ unverified_key_wf (gl_leader_key p) ∧
  in_fr (gl_voucher_cm p).
Definition header_wf (h : Header) : Prop :=
  0 <= h_slot h <= u64_max ∧ length (h_parent_block h) = 32%nat ∧ length (h_body_root h) = 32%nat ∧
  leader_proof_wf (h_proof_of_leadership h).
Definition signed_header_wf (s : SignedHeader) : Prop := header_wf (sh_header s) ∧ length (sh_signature s) = SIGNATURE_SIZE.

Lemma leader_proof_valid c p : valid leader_proof_codec c p ↔ leader_proof_wf p.
Proof. unfold leader_proof_wf, in_fr. cbn. tauto. Qed.

Lemma header_valid c h : valid header_codec c h ↔ header_wf h.
Proof.
  unfold header_wf, u64_max. rewrite <- (leader_proof_valid tt). cbn [valid header_canonical struct_canonical field_pair_canonical
    bytes32_canonical revalidate le_integer_canonical header_fields fst snd].
  destruct c. change (256 ^ Z.of_nat 8) with 18446744073709551616. intuition lia.
Qed.

Lemma signed_header_valid c s : valid signed_header_codec c s ↔ signed_header_wf s.
Proof. unfold signed_header_wf. rewrite <- (header_valid c). cbn. tauto. Qed.

(** The sizes of the encodings. *)
Lemma all_bytes_const {C T} (cd : Codec C T) `{!CanonicalCodec cd} n l :
  Forall (λ x, length (bytes cd x) = n) l → length (all_bytes cd l) = (length l * n)%nat.
Proof. induction 1 as [|x l Hx _ IH]; [done|]. unfold all_bytes in *. rewrite fmap_cons. cbn [concat length]. rewrite length_app, IH, Hx. lia. Qed.

Lemma array_bytes n (l : list byte) : bytes (array_codec n byte_codec) l = l.
Proof. cbn [bytes array_canonical]. unfold all_bytes. induction l as [|b l IH]; [done|]. rewrite fmap_cons. cbn [concat]. by rewrite IH. Qed.

(** The bytes of a header are those of its fields. *)
Lemma header_bytes h : bytes header_codec h =
  to_le_bytes 8 (h_slot h) ++ h_parent_block h ++ h_body_root h ++ gl_proof (h_proof_of_leadership h) ++
  fr_to_bytes (gl_entropy_contribution (h_proof_of_leadership h)) ++ gl_leader_key (h_proof_of_leadership h) ++
  fr_to_bytes (gl_voucher_cm (h_proof_of_leadership h)).
Proof.
  rewrite <- (array_bytes 32 (h_parent_block h)), <- (array_bytes 32 (h_body_root h)), <- (array_bytes 128 (gl_proof _)),
    <- (array_bytes 32 (gl_leader_key _)). done.
Qed.

Lemma header_bytes_length h : header_wf h → Z.of_nat (length (bytes header_codec h)) = HEADER_SIZE.
Proof.
  intros (_ & Hp & Hb & Hpr & _ & [Hk _] & _). rewrite header_bytes. unfold fr_to_bytes.
  rewrite !length_app, !to_le_bytes_length, Hp, Hb, Hpr, Hk. done.
Qed.

Lemma signed_header_bytes_length s : signed_header_wf s → Z.of_nat (length (bytes signed_header_codec s)) = SIGNED_HEADER_SIZE.
Proof.
  intros [Hh Hs]. change (bytes signed_header_codec s) with (bytes header_codec (sh_header s) ++ bytes signature_codec (sh_signature s)).
  rewrite length_app, Nat2Z.inj_add, (header_bytes_length _ Hh). unfold signature_codec, SIGNED_HEADER_SIZE.
  change (bytes _ (sh_signature s)) with (bytes (array_codec SIGNATURE_SIZE byte_codec) (sh_signature s)). by rewrite array_bytes, Hs.
Qed.

(** The uncles of a block whose era allows [max]. *)
Definition uncles_wf (max : Z) (l : list SignedHeader) : Prop :=
  Z.of_nat (length l) <= max ∧ Z.of_nat (length l) <= u8_max ∧ Forall signed_header_wf l.

Lemma uncles_valid max l : valid uncle_headers_codec max l ↔ uncles_wf max l.
Proof.
  unfold uncles_wf, u8_max. cbn [valid uncle_headers_canonical at_context_canonical runtime_bounded_vec_canonical fst snd].
  change (256 ^ Z.of_nat 1) with 256. rewrite (Forall_iff _ l signed_header_wf) by apply signed_header_valid. split.
  - intros (? & ? & ? & _). split_and!; [lia|lia|done].
  - intros (? & ? & Hl). split_and!; [lia|lia|lia|done|]. right. eapply Forall_impl; [exact Hl|]. intros s Hs He.
    apply signed_header_bytes_length in Hs. rewrite He in Hs. done.
Qed.

Lemma uncles_bytes_length max l : uncles_wf max l → Z.of_nat (length (bytes uncle_headers_codec l)) = 1 + Z.of_nat (length l) * SIGNED_HEADER_SIZE.
Proof.
  intros (_ & _ & Hl). change (bytes uncle_headers_codec l) with (to_le_bytes 1 (Z.of_nat (length l)) ++ all_bytes signed_header_codec l).
  rewrite length_app, to_le_bytes_length, (all_bytes_const signed_header_codec (Z.to_nat SIGNED_HEADER_SIZE)).
  - rewrite Nat2Z.inj_add, Nat2Z.inj_mul. unfold SIGNED_HEADER_SIZE, HEADER_SIZE, LEADER_PROOF_SIZE, COMPRESSED_PROOF_SIZE, SIGNATURE_SIZE. lia.
  - eapply Forall_impl; [exact Hl|]. intros s Hs%signed_header_bytes_length. lia.
Qed.

End Codecs.

End BlockFacts.
