(* ===== verification/BlockVerify.v ===== *)
(** * Blocks that verify

    What the checks of a block accept, as a predicate on the block; that decoding
    accepts exactly the encodings of such blocks; that a block which is created
    passes the checks and travels within the size limits; and that the identifier
    of a block commits to its uncles and its operations. *)

From S2P Require Import Prelude Codec CodecLaws Ops OpsCodec Utxos ChannelOps SignedTx Cryptarchia Blocks BlockFacts.

#[local] Open Scope Z_scope.

Module BlockVerify.
Import Canonical Bounded Ops OpsCodec Utxos ChannelOps SignedTx Cryptarchia Blocks BodyRoot BlockFacts.

Section Verify.
Context `{Ed25519Crate} `{MultiaddrCrate} `{Blake2Crate} `{Ed25519Verify} `{HeaderBincode}.
Implicit Types (b : Block SignedOps) (txs : list SignedOps) (h : Header).

(** The payload of a transaction, and the bytes it takes. *)
Definition payload (t : SignedOps) : list byte := MANTLE_TX_HASH_V1 ++ bytes tx_ops_codec (op_refs t).
Definition size_of (t : SignedOps) : Z := Z.of_nat (length (bytes signed_ops_codec t)).
Definition total_size txs : Z := foldr Z.add 0 (size_of <$> txs).

(** The root of a body. *)
Definition body_root_of (uncles : list SignedHeader) txs : Hash :=
  blake2b_256 (body_preimage (bytes uncle_headers_codec uncles) (payloads_root (payload <$> txs))).

(** A block in the bounds of an era, [max] being the largest data of an operation. *)
Record block_wf (limits : BlockLimits) (max : Z) b : Prop := {
  bw_header : header_wf (header b);
  bw_signature : length (signature b) = SIGNATURE_SIZE;
  bw_uncles : uncles_wf (max_uncles limits) (uncle_headers b);
  bw_count : Z.of_nat (length (transactions b)) <= max_transactions limits;
  bw_count_u16 : Z.of_nat (length (transactions b)) <= u16_max;
  bw_txs : Forall (signed_ops_wf max) (transactions b)
}.

(** A header signed by its leader. *)
Definition header_signed h (s : Ed25519Signature) : Prop :=
  ∃ hb, header_to_bytes h = Some hb ∧ verify_strict (gl_leader_key (h_proof_of_leadership h)) hb s = true.

(** A block that verifies. *)
Record block_verifies (max_size : Z) b : Prop := {
  bv_slot : h_slot (header b) ≠ 0;
  bv_size : total_size (transactions b) <= max_size;
  bv_root : h_body_root (header b) = body_root_of (uncle_headers b) (transactions b);
  bv_signed : header_signed (header b) (signature b)
}.

Lemma size_of_pos t : 0 <= size_of t.
Proof. unfold size_of. lia. Qed.

Lemma total_size_bytes txs : total_size txs = Z.of_nat (length (all_bytes signed_ops_codec txs)).
Proof.
  induction txs as [|t txs IH]; [done|]. unfold all_bytes in *. rewrite fmap_cons. cbn [concat].
  rewrite length_app, Nat2Z.inj_add, <- IH. done.
Qed.

Lemma total_size_nonneg txs : 0 <= total_size txs.
Proof. rewrite total_size_bytes. lia. Qed.

Lemma signed_ops_bytes_nonempty max t : signed_ops_wf max t → bytes signed_ops_codec t ≠ [].
Proof.
  intros Hwf He. pose proof (decode_encode (cd:=signed_ops_codec) max t [] Hwf) as Hd. rewrite He in Hd. done.
Qed.

(** ** The parts of the checks *)

Lemma hashes_ok {E} max txs : Forall (signed_ops_wf max) txs →
  mapM (bt_hash (E:=E)) txs = Ok (blake2b_256 <$> (payload <$> txs)).
Proof.
  induction 1 as [|t txs Ht _ IH]; [done|]. cbn [mapM]. rewrite IH. cbn [bt_hash signed_ops_block_tx]. unfold tx_hasher.
  by rewrite (as_signing_ok max t Ht).
Qed.

Lemma body_root_ok {E} limits max uncles txs : uncles_wf limits uncles → Forall (signed_ops_wf max) txs →
  body_root (E:=E) uncles txs = Ok (body_root_of uncles txs).
Proof.
  intros Hu Ht. unfold body_root. rewrite (encode_ok limits uncles) by by apply uncles_valid. cbn [mbind result_bind].
  rewrite (hashes_ok max txs Ht). cbn [mbind result_bind]. rewrite transactions_root_ok. cbn [mbind result_bind].
  unfold body_root_of, payloads_root. by rewrite length_fmap.
Qed.

Lemma size_ok {E} max t : signed_ops_wf max t → size_of t <= usize_max → storage_size (E:=E) t = Ok (size_of t).
Proof. intros Hwf Hle. by apply (encoded_length_ok max t). Qed.

(** The sizes are summed until they exceed the limit. *)
Lemma transactions_size_loop_ok max_size max txs : max_size <= usize_max → Forall (signed_ops_wf max) txs →
  Forall (λ t, size_of t <= usize_max) txs → ∀ total, 0 <= total <= max_size →
  if total + total_size txs <=? max_size then transactions_size_loop max_size total txs = Ok (total + total_size txs)
  else ∃ n, transactions_size_loop max_size total txs = Err (ContentTooBig n max_size).
Proof.
  intros Hm Hw Hs. induction Hw as [|t txs Ht _ IH]; intros total Ht0; cbn [transactions_size_loop].
  { cbn. rewrite (proj2 (Z.leb_le _ _)) by lia. f_equal. lia. }
  apply Forall_cons in Hs as [Hs1 Hs]. cbn [bt_storage_size signed_ops_block_tx]. rewrite (size_ok max t Ht Hs1). cbn [mbind result_bind].
  pose proof (size_of_pos t). pose proof (total_size_nonneg txs). change (total_size (t :: txs)) with (size_of t + total_size txs).
  unfold checked_add. destruct (Z.leb_spec (total + size_of t) usize_max) as [Ha|Ha]; cbn [ok_or mbind result_bind].
  - destruct (Z.ltb_spec max_size (total + size_of t)) as [Hb|Hb]; cbn [err_if mbind result_bind].
    + rewrite (proj2 (Z.leb_gt _ _)) by lia. by eexists.
    + specialize (IH Hs (total + size_of t) ltac:(lia)). by rewrite <- !Z.add_assoc in IH.
  - rewrite (proj2 (Z.leb_gt _ _)) by lia. by eexists.
Qed.

Lemma validate_size_ok max_size max b : 0 <= max_size <= usize_max → Forall (signed_ops_wf max) (transactions b) →
  Forall (λ t, size_of t <= usize_max) (transactions b) →
  if total_size (transactions b) <=? max_size then validate_total_transactions_size b max_size = Ok (total_size (transactions b))
  else ∃ n, validate_total_transactions_size b max_size = Err (ContentTooBig n max_size).
Proof. intros Hm Hw Hs. apply (transactions_size_loop_ok max_size max (transactions b) ltac:(lia) Hw Hs 0). lia. Qed.

Lemma signature_check h s : match verify_header_signature h s with Ok _ => header_signed h s | Err _ => ¬ header_signed h s | Fault _ => False end.
Proof.
  unfold verify_header_signature, header_signed. destruct (header_to_bytes h) as [hb|]; cbn [ok_or mbind result_bind]; [|by intros (? & ? & _)].
  destruct (verify_strict _ hb s) eqn:Hv; cbn; [by eauto|]. intros (hb' & [= <-] & Hv'). congruence.
Qed.

(** The checks accept exactly the blocks that verify. *)
Lemma into_verified_exact limits max max_size b : 0 <= max_size <= usize_max → uncles_wf limits (uncle_headers b) →
  Forall (signed_ops_wf max) (transactions b) → Forall (λ t, size_of t <= usize_max) (transactions b) →
  match into_verified_block b max_size with
  | Ok b' => b' = b ∧ block_verifies max_size b
  | Err _ => ¬ block_verifies max_size b
  | Fault _ => False
  end.
Proof.
  intros Hm Hu Hw Hs. unfold into_verified_block, verify_header_alone.
  destruct (Z.eqb_spec (h_slot (header b)) 0) as [Hz|Hz]; cbn [err_if map_err mbind result_bind]; [by intros []|].
  pose proof (validate_size_ok max_size max b Hm Hw Hs) as Hv.
  destruct (Z.leb_spec (total_size (transactions b)) max_size) as [Hsz|Hsz].
  2:{ destruct Hv as [n ->]. cbn. intros []. lia. }
  rewrite Hv. cbn [mbind result_bind]. unfold validate_body_root. rewrite (body_root_ok limits max) by done. cbn [mbind result_bind].
  destruct (bool_decide _) eqn:Hr; cbn [negb err_if mbind result_bind].
  2:{ apply bool_decide_eq_false in Hr. by intros []. }
  apply bool_decide_eq_true in Hr. pose proof (signature_check (header b) (signature b)) as Hc.
  destruct (verify_header_signature _ _) as [[]|e|f]; cbn; [by split|by intros []|done].
Qed.

(** ** The encoding of a block *)

#[export] Instance signed_ops_vec_canonical : CanonicalCodec (bt_codec (Tx:=SignedOps)) := signed_ops_canonical.
#[export] Instance block_transactions_canonical : CanonicalCodec (block_transactions_codec (Tx:=SignedOps)) := _.

Definition block_context (limits : BlockLimits) (max : Z) : Z * Z * (Z * Z) :=
  (max_uncles limits, max_transactions_size limits, (max_transactions limits, max)).

Definition block_bytes b : list byte :=
  bytes header_codec (header b) ++ bytes uncle_headers_codec (uncle_headers b) ++
  bytes block_transactions_codec (transactions b) ++ bytes signature_codec (signature b).

Lemma transactions_valid max_txs max txs : valid block_transactions_codec (max_txs, max) txs ↔
  Z.of_nat (length txs) <= max_txs ∧ Z.of_nat (length txs) <= u16_max ∧ Forall (signed_ops_wf max) txs.
Proof.
  cbn [valid block_transactions_canonical runtime_bounded_vec_canonical fst snd]. unfold u16_max. change (256 ^ Z.of_nat 2) with 65536.
  split; [intros (? & ? & ? & _); split_and!; [lia|lia|done]|].
  intros (? & ? & Hw). split_and!; [lia|lia|lia|done|]. right. eapply Forall_impl; [exact Hw|]. intros t. apply signed_ops_bytes_nonempty.
Qed.

Lemma signature_valid c s : valid signature_codec c s ↔ length s = SIGNATURE_SIZE.
Proof. cbn. tauto. Qed.

Lemma transactions_bytes_length txs : Z.of_nat (length (bytes block_transactions_codec txs)) = 2 + total_size txs.
Proof.
  change (bytes block_transactions_codec txs) with (to_le_bytes 2 (Z.of_nat (length txs)) ++ all_bytes signed_ops_codec txs).
  rewrite length_app, to_le_bytes_length, Nat2Z.inj_add, <- total_size_bytes. done.
Qed.

Lemma size_of_total txs t : t ∈ txs → size_of t <= total_size txs.
Proof.
  induction 1 as [t txs|t u txs _ IH]; change (total_size (?x :: txs)) with (size_of x + total_size txs);
    [pose proof (total_size_nonneg txs)|pose proof (size_of_pos u)]; lia.
Qed.

(** A well-formed block has an encoding of a known size. *)
Lemma block_encode_ok {E} limits max b : block_wf limits max b → encode block_codec (E:=E) b = Ok (block_bytes b).
Proof.
  intros []. cbn [encode block_codec]. rewrite (encode_ok tt (header b)) by by apply header_valid.
  cbn [mbind result_bind]. rewrite (encode_ok (max_uncles limits) (uncle_headers b)) by by apply uncles_valid.
  cbn [mbind result_bind]. rewrite (encode_ok (max_transactions limits, max) (transactions b)) by by apply transactions_valid.
  cbn [mbind result_bind]. by rewrite (encode_ok tt (signature b)) by by apply signature_valid.
Qed.

Lemma block_bytes_length limits max b : block_wf limits max b → Z.of_nat (length (block_bytes b)) =
  HEADER_SIZE + (1 + Z.of_nat (length (uncle_headers b)) * SIGNED_HEADER_SIZE) + (2 + total_size (transactions b)) + Z.of_nat SIGNATURE_SIZE.
Proof.
  intros []. unfold block_bytes. rewrite !length_app, !Nat2Z.inj_add, header_bytes_length, (uncles_bytes_length (max_uncles limits)), transactions_bytes_length by done.
  change (bytes signature_codec (signature b)) with (bytes (array_codec SIGNATURE_SIZE byte_codec) (signature b)).
  rewrite array_bytes, bw_signature0. lia.
Qed.

(** A sum of four lengths that are computed in turn. *)
Lemma sum_lengths {E} (m1 m2 m3 m4 : result E Z) x y z t : m1 = Ok x → m2 = Ok y → m3 = Ok z → m4 = Ok t →
  0 <= x → 0 <= y → 0 <= z → 0 <= t → x + (y + (z + t)) <= usize_max →
  (nh ← m1; nu ← m2; n ← strict_add usize_max nh nu; nt ← m3; n ← strict_add usize_max n nt; ns ← m4; strict_add usize_max n ns) =
  Ok (x + (y + (z + t))).
Proof.
  intros -> -> -> ->. intros. cbn [mbind result_bind]. rewrite strict_add_in by lia. cbn [mbind result_bind].
  rewrite strict_add_in by lia. cbn [mbind result_bind]. rewrite strict_add_in by lia. f_equal. lia.
Qed.

Lemma block_encoded_length_ok {E} limits max b : block_wf limits max b → Z.of_nat (length (block_bytes b)) <= usize_max →
  encoded_length block_codec (E:=E) b = Ok (Z.of_nat (length (block_bytes b))).
Proof.
  intros []. unfold block_bytes. rewrite !length_app, !Nat2Z.inj_add. intros Hle. cbn [encoded_length block_codec].
  apply sum_lengths; try lia.
  - apply (encoded_length_ok (cd:=header_codec) tt); [by apply header_valid|lia].
  - apply (encoded_length_ok (cd:=uncle_headers_codec) (max_uncles limits)); [by apply uncles_valid|lia].
  - apply (encoded_length_ok (cd:=block_transactions_codec) (max_transactions limits, max)); [by apply transactions_valid|lia].
  - apply (encoded_length_ok (cd:=signature_codec) tt); [by apply signature_valid|lia].
Qed.

(** The parts of a block are decoded in order, whatever the checks say. *)
Definition decode_parts (input : list byte) (limits : BlockLimits) (max : Z) : result DecodeError (list byte * Block SignedOps) :=
  '(input, h) ← decode header_codec input tt;
  '(input, uncles) ← decode uncle_headers_codec input (max_uncles limits);
  '(input, txs) ← decode block_transactions_codec input (max_transactions limits, max);
  '(input, s) ← decode signature_codec input tt;
  Ok (input, mkBlock h s uncles txs).

Lemma block_decode_parts input limits max : decode block_codec input (block_context limits max) =
  ('(rest, b) ← decode_parts input limits max;
   b ← map_err (λ _, InvalidValue "a block that does not verify") (into_verified_block b (max_transactions_size limits));
   Ok (rest, b)).
Proof.
  unfold decode_parts. cbn [decode block_codec block_context].
  destruct (decode header_codec _ _) as [[? ?]| |]; [|done..]. cbn [mbind result_bind].
  destruct (decode uncle_headers_codec _ _) as [[? ?]| |]; [|done..]. cbn [mbind result_bind].
  destruct (decode block_transactions_codec _ _) as [[? ?]| |]; [|done..]. cbn [mbind result_bind].
  by destruct (decode signature_codec _ _) as [[? ?]| |].
Qed.

Lemma decode_parts_encode limits max b rest : block_wf limits max b → decode_parts (block_bytes b ++ rest) limits max = Ok (rest, b).
Proof.
  intros []. unfold decode_parts, block_bytes. rewrite <- !app_assoc.
  rewrite (decode_encode tt (header b)) by by apply header_valid. cbn [mbind result_bind].
  rewrite (decode_encode (max_uncles limits) (uncle_headers b)) by by apply uncles_valid. cbn [mbind result_bind].
  rewrite (decode_encode (max_transactions limits, max) (transactions b)) by by apply transactions_valid. cbn [mbind result_bind].
  rewrite (decode_encode tt (signature b)) by by apply signature_valid. by destruct b.
Qed.

Lemma decode_parts_sound limits max input rest b : decode_parts input limits max = Ok (rest, b) →
  block_wf limits max b ∧ input = block_bytes b ++ rest.
Proof.
  unfold decode_parts. intros Hd. peel Hd as [i1 h] Hh. peel Hd as [i2 us] Hu. peel Hd as [i3 txs] Ht. peel Hd as [i4 s] Hs.
  injection Hd as -> <-. apply decode_sound in Hh as [Hh%header_valid ->]. apply decode_sound in Hu as [Hu%uncles_valid ->].
  apply decode_sound in Ht as [(? & ? & ?)%transactions_valid ->]. apply decode_sound in Hs as [Hs%signature_valid ->].
  split; [by split|]. unfold block_bytes. cbn [header uncle_headers transactions signature]. by rewrite <- !app_assoc.
Qed.

Lemma decode_parts_no_fault input limits max f : decode_parts input limits max ≠ Fault f.
Proof.
  unfold decode_parts. do 4 (apply bind_no_fault; [apply decode_no_fault|]; intros [? ?] _). done.
Qed.

Lemma sizes_of_input limits max b rest : block_wf limits max b → Z.of_nat (length (block_bytes b ++ rest)) <= usize_max →
  Forall (λ t, size_of t <= usize_max) (transactions b).
Proof.
  intros Hwf. rewrite length_app, Nat2Z.inj_add, (block_bytes_length limits max b Hwf). intros Hle. apply Forall_forall. intros t Ht%size_of_total.
  assert (0 <= HEADER_SIZE ∧ 0 <= SIGNED_HEADER_SIZE) as [? ?] by done. nia.
Qed.

(** C36: Decoding a block accepts exactly the encodings of blocks that verify: on
    any input it returns, without a panic, either a well-formed block of a
    non-genesis slot, whose body has the root in the header and the allowed size
    and whose header is signed by the leader, with the one encoding of that block
    as the consumed bytes, or an error, and then no such block is a prefix of the
    input. *)
Theorem block_decode_exact {E} limits max input : 0 <= max_transactions_size limits <= u32_max → Z.of_nat (length input) <= usize_max →
  match decode block_codec input (block_context limits max) with
  | Ok (rest, b) => block_wf limits max b ∧ block_verifies (max_transactions_size limits) b ∧
      ∃ bs, encode block_codec (E:=E) b = Ok bs ∧ input = bs ++ rest
  | Err _ => ∀ b rest, block_wf limits max b → block_verifies (max_transactions_size limits) b → input ≠ block_bytes b ++ rest
  | Fault _ => False
  end.
Proof.
  intros Hm Hlen. rewrite block_decode_parts. assert (0 <= max_transactions_size limits <= usize_max) as Hm' by (assert (u32_max <= usize_max) by done; lia).
  destruct (decode_parts input limits max) as [[rest b]|e|f] eqn:Hd; cbn [mbind result_bind].
  - apply decode_parts_sound in Hd as [Hwf ->]. pose proof Hwf as [].
    pose proof (into_verified_exact (max_uncles limits) max _ b Hm' bw_uncles0 bw_txs0 (sizes_of_input limits max b rest Hwf Hlen)) as Hv.
    destruct (into_verified_block _ _) as [b'|e|f]; cbn [map_err mbind result_bind]; [|..|done].
    + destruct Hv as [-> Hv]. split_and!; [done..|]. exists (block_bytes b). split; [by apply (block_encode_ok limits max)|done].
    + intros b' rest' Hwf' Hv' Heq. pose proof (decode_parts_encode limits max b' rest' Hwf') as Hd'.
      rewrite <- Heq, (decode_parts_encode limits max b rest Hwf) in Hd'. injection Hd' as -> ->. done.
  - intros b rest Hwf _ ->. by rewrite (decode_parts_encode limits max b rest Hwf) in Hd.
  - by apply decode_parts_no_fault in Hd.
Qed.

(** ** Creating a block *)

(** A block that verifies decodes from its encoding. *)
Lemma block_decode_encode limits max b rest : 0 <= max_transactions_size limits <= usize_max → block_wf limits max b →
  Forall (λ t, size_of t <= usize_max) (transactions b) → block_verifies (max_transactions_size limits) b →
  decode block_codec (block_bytes b ++ rest) (block_context limits max) = Ok (rest, b).
Proof.
  intros Hm Hwf Hs Hv. rewrite block_decode_parts, (decode_parts_encode limits max b rest Hwf). cbn [mbind result_bind]. destruct Hwf.
  pose proof (into_verified_exact (max_uncles limits) max _ b Hm bw_uncles0 bw_txs0 Hs) as Hi.
  by destruct (into_verified_block _ _) as [b'|e|f]; [destruct Hi as [-> _]|..].
Qed.

Lemma block_size_bound limits max b : block_wf limits max b → total_size (transactions b) <= max_transactions_size limits →
  Z.of_nat (length (block_bytes b)) <= block_max_encoded_size limits.
Proof.
  intros Hwf Hs. rewrite (block_bytes_length limits max b Hwf). unfold block_max_encoded_size, uncles_max_encoded_size.
  destruct Hwf as [_ _ [Hu _] _ _ _]. assert (0 <= SIGNED_HEADER_SIZE) by done. nia.
Qed.

(** The proposal of a block, which names its transactions by prefixes of their hashes. *)
Definition proposal_of b : Proposal :=
  mkProposal (header b) (uncle_headers b) ((λ t, take REFERENCE_PREFIX_BYTES (blake2b_256 (payload t))) <$> transactions b) (signature b).

Lemma to_proposal_ok {E} limits max b : block_wf limits max b → to_proposal (E:=E) b = Ok (proposal_of b).
Proof.
  intros []. unfold to_proposal. rewrite (hashes_ok max _ bw_txs0). cbn [mbind result_bind]. unfold proposal_of.
  by rewrite <- !list_fmap_compose.
Qed.

Context `{!Blake2Laws}.

Lemma references_valid max refs : valid references_codec max refs ↔
  Z.of_nat (length refs) <= max ∧ Z.of_nat (length refs) <= u16_max ∧ Forall (λ r, length r = REFERENCE_PREFIX_BYTES) refs.
Proof.
  cbn [valid references_canonical at_context_canonical runtime_bounded_vec_canonical array_canonical fst snd]. unfold u16_max.
  change (256 ^ Z.of_nat 2) with 65536. rewrite (Forall_iff _ refs (λ r, length r = REFERENCE_PREFIX_BYTES)).
  2:{ intros r. split; [by intros [? _]|]. intros Hr. split; [done|]. by apply Forall_true. }
  split; [intros (? & ? & ? & _); split_and!; [lia|lia|done]|].
  intros (? & ? & Hw). split_and!; [lia|lia|lia|done|]. right. eapply Forall_impl; [exact Hw|]. intros r Hr.
  cbv beta in Hr. by rewrite array_bytes, <- length_zero_iff_nil, Hr.
Qed.

Lemma references_bytes_length max refs : valid references_codec max refs →
  Z.of_nat (length (bytes references_codec refs)) = 2 + Z.of_nat (length refs) * Z.of_nat REFERENCE_PREFIX_BYTES.
Proof.
  intros (_ & _ & Hr)%references_valid.
  change (bytes references_codec refs) with (to_le_bytes 2 (Z.of_nat (length refs)) ++ all_bytes (array_codec REFERENCE_PREFIX_BYTES byte_codec) refs).
  rewrite length_app, to_le_bytes_length, (all_bytes_const _ REFERENCE_PREFIX_BYTES); [lia|].
  eapply Forall_impl; [exact Hr|]. intros r Hl. cbv beta in *. by rewrite array_bytes.
Qed.

Lemma proposal_valid limits max b : block_wf limits max b → valid proposal_codec limits (proposal_of b).
Proof.
  intros []. change (valid header_codec tt (header b) ∧ valid uncle_headers_codec (max_uncles limits) (uncle_headers b) ∧
    valid references_codec (max_transactions limits) (p_references (proposal_of b)) ∧ valid signature_codec tt (signature b)).
  split_and!; [by apply header_valid|by apply uncles_valid| |by apply signature_valid]. apply references_valid.
  cbn [proposal_of p_references]. rewrite length_fmap. split_and!; [done..|]. apply Forall_fmap, Forall_true. intros t. cbn.
  rewrite length_take, blake2b_256_length. done.
Qed.

Lemma proposal_size_bound limits max b : block_wf limits max b →
  Z.of_nat (length (bytes proposal_codec (proposal_of b))) <= proposal_max_encoded_size limits.
Proof.
  intros Hwf. pose proof (proposal_valid limits max b Hwf) as (_ & _ & Hr & _). destruct Hwf.
  change (bytes proposal_codec (proposal_of b)) with (bytes header_codec (header b) ++ bytes uncle_headers_codec (uncle_headers b) ++
    bytes references_codec (p_references (proposal_of b)) ++ bytes (array_codec SIGNATURE_SIZE byte_codec) (signature b)).
  rewrite array_bytes, !length_app, !Nat2Z.inj_add, header_bytes_length, (uncles_bytes_length (max_uncles limits)) by done.
  rewrite (references_bytes_length (max_transactions limits)) by exact Hr. cbn [proposal_of p_references]. rewrite length_fmap, bw_signature0.
  unfold proposal_max_encoded_size, uncles_max_encoded_size, references_max_encoded_size. destruct bw_uncles0 as [? _].
  assert (0 <= SIGNED_HEADER_SIZE) by done. nia.
Qed.

(** ** What the identifier of a block commits to *)

Lemma fr_to_bytes_inj x y : in_fr x → in_fr y → fr_to_bytes x = fr_to_bytes y → x = y.
Proof. exact (bytes_inj fr_codec tt x y). Qed.

(** The hashed bytes of a header determine it. *)
Lemma header_preimage_inj h1 h2 : header_wf h1 → header_wf h2 → header_preimage h1 = header_preimage h2 → h1 = h2.
Proof.
  intros (Hs1 & Hp1 & Hb1 & Hl1 & He1 & [Hk1 _] & Hv1) (Hs2 & Hp2 & Hb2 & Hl2 & He2 & [Hk2 _] & Hv2) Heq.
  unfold header_preimage in Heq. apply app_inj_1 in Heq as [_ Heq]; [|done].
  apply app_inj_1 in Heq as [Ep Heq]; [|congruence]. apply app_inj_1 in Heq as [Es Heq]; [|by rewrite !to_le_bytes_length].
  apply app_inj_1 in Heq as [Eb Heq]; [|congruence]. apply app_inj_1 in Heq as [Ev Heq]; [|unfold fr_to_bytes; by rewrite !to_le_bytes_length].
  apply app_inj_1 in Heq as [Ee Heq]; [|unfold fr_to_bytes; by rewrite !to_le_bytes_length].
  apply app_inj_1 in Heq as [El Ek]; [|congruence]. apply fr_to_bytes_inj in Ev; [|done..]. apply fr_to_bytes_inj in Ee; [|done..].
  apply (f_equal from_le_bytes) in Es. rewrite !from_to_le_bytes in Es by (change (256 ^ Z.of_nat 8) with (u64_max + 1); lia).
  destruct h1 as [? ? ? []], h2 as [? ? ? []]. cbn in *. congruence.
Qed.

(** The inputs that are hashed for a block, besides those of its transactions. *)
Definition block_preimages b : list (list byte) :=
  [header_preimage (header b); body_preimage (bytes uncle_headers_codec (uncle_headers b)) (payloads_root (payload <$> transactions b))].

Definition block_break b1 b2 : Prop :=
  collision (block_preimages b1) (block_preimages b2) ∨ root_break (payload <$> transactions b1) (payload <$> transactions b2).

Lemma uncles_bytes_inj max1 max2 l1 l2 : uncles_wf max1 l1 → uncles_wf max2 l2 →
  bytes uncle_headers_codec l1 = bytes uncle_headers_codec l2 → l1 = l2.
Proof.
  intros (Hl1 & Hw1) (Hl2 & Hw2). apply (bytes_inj uncle_headers_codec (Z.max max1 max2)); apply uncles_valid; split; [lia|done|lia|done].
Qed.

Lemma payloads_inj max txs1 : ∀ txs2, Forall (signed_ops_wf max) txs1 → Forall (signed_ops_wf max) txs2 →
  payload <$> txs1 = payload <$> txs2 → op_refs <$> txs1 = op_refs <$> txs2.
Proof.
  induction txs1 as [|t1 txs1 IH]; intros [|t2 txs2] Hw1 Hw2 Heq; rewrite ?fmap_cons in Heq; try done.
  apply Forall_cons in Hw1 as [Ht1 Hw1]. apply Forall_cons in Hw2 as [Ht2 Hw2].
  assert (payload t1 = payload t2 ∧ payload <$> txs1 = payload <$> txs2) as [Hp Hps] by (split; congruence).
  rewrite !fmap_cons, (IH txs2) by done. f_equal. unfold payload in Hp. apply (app_inv_head MANTLE_TX_HASH_V1) in Hp.
  by apply (bytes_inj tx_ops_codec max) in Hp; [|apply op_refs_valid..].
Qed.

(** C20: The identifier of a block commits to all of it but the proofs of its
    transactions: two blocks that verify and have one identifier have the same
    header, the same uncles and the same transactions, fork digests and operations,
    in number and order, or else exhibit, among the inputs hashed for the two, a
    collision, a preimage of the padding leaf, or a transaction that is also an
    inner node of the other's Merkle tree. *)
Theorem block_binding limits1 limits2 max b1 b2 : block_wf limits1 max b1 → block_wf limits2 max b2 →
  block_verifies (max_transactions_size limits1) b1 → block_verifies (max_transactions_size limits2) b2 →
  header_id (header b1) = header_id (header b2) →
  (header b1 = header b2 ∧ uncle_headers b1 = uncle_headers b2 ∧ op_refs <$> transactions b1 = op_refs <$> transactions b2) ∨
  block_break b1 b2.
Proof.
  intros [] [] [_ _ Hr1 _] [_ _ Hr2 _] Hid.
  destruct (same_hash _ _ (block_preimages b1) (block_preimages b2) Hid) as [Hh|Hc]; [constructor..| |right; by left].
  apply header_preimage_inj in Hh; [|done..]. rewrite Hh, Hr2 in Hr1. symmetry in Hr1.
  destruct (same_hash _ _ (block_preimages b1) (block_preimages b2) Hr1) as [Hb|Hc]; [do 2 constructor..| |right; by left].
  unfold body_preimage in Hb. apply app_inj_1 in Hb as [_ Hb]; [|done]. apply app_inj_2 in Hb as [Hu Hp].
  2:{ unfold payloads_root. rewrite !tree_root_length; [done|apply blake2b_256_length|apply leaves_length|apply leaves_wf; apply blake2b_256_length|
      apply blake2b_256_length|apply leaves_length|apply leaves_wf; apply blake2b_256_length]. }
  apply (uncles_bytes_inj (max_uncles limits1) (max_uncles limits2)) in Hu; [|done..].
  apply payloads_root_binding in Hp as [Hp|Hp]; [..|apply blake2b_256_length]; [left|right; by right].
  split_and!; [done..|]. by apply (payloads_inj max).
Qed.

Context {SigningKey : Type} `{!Ed25519Sign SigningKey} `{!Ed25519SignLaws SigningKey}.

(** What a leader passes to [Block::create]. *)
Record create_ok (limits : BlockLimits) (max : Z) (parent : HeaderId) (slot : Z) (uncles : list SignedHeader)
    (proof : Groth16LeaderProof) txs : Prop := {
  co_parent : length parent = 32%nat;
  co_slot : 0 <= slot <= u64_max;
  co_uncles : uncles_wf (max_uncles limits) uncles;
  co_proof : leader_proof_wf proof;
  co_count : Z.of_nat (length txs) <= max_transactions limits;
  co_count_u16 : Z.of_nat (length txs) <= u16_max;
  co_txs : Forall (signed_ops_wf max) txs;
  co_sizes : Forall (λ t, size_of t <= usize_max) txs
}.

(** The block that is created, when the header serializes to [hb]. *)
Definition created (parent : HeaderId) (slot : Z) (uncles : list SignedHeader) (proof : Groth16LeaderProof) txs (key : SigningKey)
    (hb : list byte) : Block SignedOps :=
  mkBlock (mkHeader slot parent (body_root_of uncles txs) proof) (sign_payload key hb) uncles txs.

Lemma created_wf limits max parent slot uncles proof txs key hb : create_ok limits max parent slot uncles proof txs →
  block_wf limits max (created parent slot uncles proof txs key hb).
Proof.
  intros []. split; try done; [|apply sign_length]. split_and!; cbn; [lia..|done|apply blake2b_256_length|done].
Qed.

(** [create] in one equation. *)
Lemma create_eq limits max parent slot uncles proof txs key : 0 <= max_transactions_size limits <= usize_max →
  create_ok limits max parent slot uncles proof txs →
  let h := mkHeader slot parent (body_root_of uncles txs) proof in
  match create parent slot uncles proof txs (max_transactions_size limits) key with
  | Ok b => slot ≠ 0 ∧ gl_leader_key proof = public_key key ∧ total_size txs <= max_transactions_size limits ∧
      ∃ hb, header_to_bytes h = Some hb ∧ b = created parent slot uncles proof txs key hb
  | Err _ => slot = 0 ∨ gl_leader_key proof ≠ public_key key ∨ header_to_bytes h = None ∨ max_transactions_size limits < total_size txs
  | Fault _ => False
  end.
Proof.
  intros Hm [] h. unfold create. destruct (Z.eqb_spec slot 0) as [Hz|Hz]; cbn [err_if mbind result_bind]; [by left|].
  destruct (bool_decide _) eqn:Hk; cbn [negb err_if mbind result_bind]; [|right; left; by apply bool_decide_eq_false in Hk].
  apply bool_decide_eq_true in Hk. rewrite (body_root_ok (max_uncles limits) max) by done. cbn [mbind result_bind]. unfold header_sign. fold h.
  destruct (header_to_bytes h) as [hb|] eqn:Hb; cbn [ok_or mbind result_bind]; [|right; right; by left].
  pose proof (validate_size_ok (max_transactions_size limits) max (created parent slot uncles proof txs key hb) Hm co_txs0 co_sizes0) as Hv.
  cbv zeta. change (mkBlock h (sign_payload key hb) uncles txs) with (created parent slot uncles proof txs key hb).
  change (transactions (created _ _ _ _ _ _ _)) with txs in Hv.
  destruct (Z.leb_spec (total_size txs) (max_transactions_size limits)) as [Hs|Hs].
  - rewrite Hv. cbn [mbind result_bind]. split_and!; [done..|]. by exists hb.
  - destruct Hv as [n ->]. cbn. do 3 right. done.
Qed.

(** C19: A leader's block is accepted by everyone: [Block::create] fails only for
    the genesis slot, a key that is not the leader's, a header that does not
    serialize or too large transactions; the block it returns verifies, its
    encoding is within the announced size and decodes to it, and its proposal is
    within its own announced size, decodes to itself, and gives the block back to
    a node that has the transactions. *)
Theorem created_block {E} limits max parent slot uncles proof txs (key : SigningKey) : 0 <= max_transactions_size limits <= u32_max →
  create_ok limits max parent slot uncles proof txs →
  match create parent slot uncles proof txs (max_transactions_size limits) key with
  | Ok b => block_verifies (max_transactions_size limits) b ∧
      (∃ bs, encode block_codec (E:=E) b = Ok bs ∧ Z.of_nat (length bs) <= block_max_encoded_size limits ∧
        ∀ rest, decode block_codec (bs ++ rest) (block_context limits max) = Ok (rest, b)) ∧
      ∃ p ps, to_proposal (E:=E) b = Ok p ∧ encode proposal_codec (E:=E) p = Ok ps ∧ Z.of_nat (length ps) <= proposal_max_encoded_size limits ∧
        (∀ rest, decode proposal_codec (ps ++ rest) limits = Ok (rest, p)) ∧
        reconstruct (p_header p) (p_uncle_headers p) txs (p_signature p) (max_transactions_size limits) = Ok b
  | Err _ => slot = 0 ∨ gl_leader_key proof ≠ public_key key ∨
      header_to_bytes (mkHeader slot parent (body_root_of uncles txs) proof) = None ∨ max_transactions_size limits < total_size txs
  | Fault _ => False
  end.
Proof.
  intros Hm Hok. assert (0 <= max_transactions_size limits <= usize_max) as Hm' by (assert (u32_max <= usize_max) by done; lia).
  pose proof (create_eq limits max parent slot uncles proof txs key Hm' Hok) as Hc. cbv zeta in Hc.
  destruct (create _ _ _ _ _ _ _) as [b|e|f]; [|exact Hc|done]. destruct Hc as (Hz & Hk & Hs & hb & Hb & ->).
  pose proof (created_wf limits max parent slot uncles proof txs key hb Hok) as Hwf. destruct Hok.
  set (b := created _ _ _ _ _ _ _) in *.
  assert (block_verifies (max_transactions_size limits) b) as Hv.
  { split; [done..|]. exists hb. split; [done|]. cbn. rewrite Hk. apply sign_verifies. }
  split_and!; [done|exists (block_bytes b)|exists (proposal_of b), (bytes proposal_codec (proposal_of b))]; split_and!.
  - by apply (block_encode_ok limits max).
  - by apply (block_size_bound limits max).
  - intros rest. by apply block_decode_encode.
  - by apply (to_proposal_ok limits max).
  - apply (encode_ok (cd:=proposal_codec) limits). by apply (proposal_valid limits max).
  - by apply (proposal_size_bound limits max).
  - intros rest. apply (decode_encode (cd:=proposal_codec) limits). by apply (proposal_valid limits max).
  - unfold reconstruct. fold b. pose proof (into_verified_exact (max_uncles limits) max _ b Hm' co_uncles0 co_txs0 co_sizes0) as Hi.
    change (mkBlock _ _ _ _) with b. by destruct (into_verified_block _ _) as [b'|e|f]; [destruct Hi as [-> _]|..].
Qed.

End Verify.

End BlockVerify.
