(* ===== verification/Chain.v ===== *)
(** * The chain: the engine and the ledger together

    services/chain/chain-service/src/lib.rs and uncle.rs, with the block processing
    and the uncle selection of service/mod.rs: a block is checked, applied to the
    ledger, received by the engine, committed, stored, and the ledger states of the
    blocks that the engine pruned are dropped. The blocks that the storage service
    holds are a map; a write to it may fail. *)

From S2P Require Import Prelude BlockTree Era EngineConfig Engine MerkleStore Codec Ops Channels Utxos ServiceNotes Inputs ChannelOps SignedTx SdpOps LedgerConfig ClaimOps TxVerification Leaders Pow Markets Cryptarchia Ledger Blocks.

#[local] Open Scope Z_scope.

Module Chain.
Import Canonical Bounded Ops Utxos Channels ServiceNotes Inputs ChannelOps SignedTx SdpOps LedgerConfig ClaimOps TxVerification Leaders Pow Markets Cryptarchia Ledger Blocks.

(** [BlockOrigin]. *)
Inductive BlockOrigin := Network | Storage.

#[export] Instance BlockOrigin_eq_dec : EqDecision BlockOrigin.
Proof. solve_decision. Defined.

(** [CryptarchiaInfo]. *)
Record CryptarchiaInfo := mkInfo {
  i_lib : HeaderId;
  i_lib_slot : Z;
  i_tip : HeaderId;
  i_slot : Z;
  i_height : Z;
  i_state : State
}.

(** [UncleError]. *)
Inductive UncleError :=
  | NotStrictlyOlder
  | OtherEra
  | ParentNotOnChain
  | OnChain
  | InvalidHeader (e : HeaderError)
  | InvalidSignature
  | InvalidProof
  | OtherUncleError (e : BlockError).

(** [From<block::Error> for UncleError]. *)
Definition uncle_error_from (e : BlockError) : UncleError :=
  match e with
  | BlockHeader e => InvalidHeader e
  | BlockSignature => InvalidSignature
  | e => OtherUncleError e
  end.

(** [Error]. *)
Inductive ChainError :=
  | ChainParentMissing (parent : HeaderId) (info : CryptarchiaInfo)
  | FutureBlock (block_slot current_slot : Z)
  | AlreadyApplied (id : HeaderId)
  | ChainLedger (e : LedgerError HeaderId)
  | ChainConsensus (e : Error HeaderId)
  | ChainSerialisation
  | InvalidBlock
  | ChainStorage
  | ChainMempool
  | HeaderIdNotFound (id : HeaderId)
  | ParentIdNotFound (id : HeaderId)
  | AwaitingGenesisTime
  | InvalidUncle (uncle : HeaderId) (reason : UncleError)
  | TooManyUncles (count max : Z)
  | BatchDeferredProofVerification (e : BatchError).

(** [From<HeaderId> for BlockHash], which keeps the bytes. *)
#[export] Instance header_id_into_block_hash : IntoBlockHash HeaderId := {| into_block_hash id := id |}.

(** [UncleHeaders::slots], [ids] and [parents]. *)
Definition uncle_slots (l : list SignedHeader) : list Z := h_slot ∘ sh_header <$> l.
Definition uncle_ids `{Blake2Crate} (l : list SignedHeader) : list HeaderId := header_id ∘ sh_header <$> l.
Definition uncle_parents (l : list SignedHeader) : list HeaderId := h_parent_block ∘ sh_header <$> l.

Section Chain.
Context {T R Params : Type} `{!KeyedStoreOps T NoteId Utxo} `{!Rewards T R Params}.
Context `{Poseidon2Crate} `{Blake2Crate} `{BigUintCrate} `{LotteryCrate} `{Ed25519Crate} `{MultiaddrCrate} `{Ed25519Verify} `{PoCVerify} `{BatchVerify} `{PolVerify} `{HeaderBincode}.
Context {order : SetOrder HeaderId}.

(** [Cryptarchia] of the chain service. *)
Record ChainState := mkChain {
  ledger : BlockLedger (T:=T) (R:=R) (Params:=Params) (Id:=HeaderId);
  consensus : Engine.Cryptarchia HeaderId;
  genesis_id : HeaderId
}.

Implicit Types (c : ChainState) (b : Block SignedOps).
#[local] Notation chain_result := (result ChainError).

(** [Ledger::state]. *)
Definition ledger_state c (id : HeaderId) : option (LedgerState T R) := states (ledger c) !! id.

(** The era schedule of the engine, projected from that of the ledger. *)
Definition engine_eras (eras : EraSchedule (LedgerConfig.Config Params)) : EraSchedule EngineConfig.Config :=
  map_schedule (λ era, consensus_config (v_parameters era)) eras.

(** [Cryptarchia::from_lib] and [from_genesis]. *)
Definition chain_from_lib {E} (lib_id lib_parent : HeaderId) (lib_ledger_state : LedgerState T R) (genesis_id : HeaderId)
    (eras : EraSchedule (LedgerConfig.Config Params)) (st : State) (lib_slot lib_length : Z) (lib_uncle_slots : list Z)
    : result E ChainState :=
  let consensus := cryptarchia_from_lib lib_id lib_parent (engine_eras eras) st lib_slot lib_length lib_uncle_slots in
  ledger ← block_ledger_new lib_id lib_ledger_state eras;
  Ok (mkChain ledger consensus genesis_id).

Definition chain_from_genesis {E} (genesis_id : HeaderId) (genesis_state : LedgerState T R)
    (eras : EraSchedule (LedgerConfig.Config Params)) (st : State) : result E ChainState :=
  chain_from_lib genesis_id genesis_id genesis_state genesis_id eras st 0 0 [].

(** [Cryptarchia::info]. *)
Definition chain_info {E} c : result E CryptarchiaInfo :=
  let tip_branch := local_chain (consensus c) in
  lib_branch ← lib_branch (consensus c);
  Ok (mkInfo (b_id lib_branch) (b_slot lib_branch) (b_id tip_branch) (b_slot tip_branch) (b_length tip_branch)
        (Engine.state (consensus c))).

(** [Cryptarchia::has_block]. *)
Definition has_block c (id : HeaderId) : bool := bool_decide (is_Some (branches (tree (consensus c)) !! id)).

(** [Cryptarchia::epoch_state_for_slot]. *)
Definition chain_epoch_state_for_slot c (slot : Z) : chain_result (EpochState T) :=
  lib_branch (consensus c);;
  state ← expect (ledger_state c (b_id (local_chain (consensus c))));
  let m := mantle_ledger state in
  map_err ChainLedger (epoch_state_for_slot (cryptarchia_ledger state) slot (m_sdp m) (m_pow m) (Ledger.era_schedule (ledger c))).

(** ** The uncle validity rules *)

(** [ParentMissing] with the info of the chain. *)
Definition parent_missing {A} c (parent : HeaderId) : chain_result A := info ← chain_info c; Err (ChainParentMissing parent info).

(** [verify_uncle_count]. *)
Definition verify_uncle_count c b : chain_result unit :=
  era ← at_slot (Ledger.era_schedule (ledger c)) (h_slot (header b));
  let max_uncles := EngineConfig.max_uncles (consensus_config (v_parameters era)) in
  let uncle_count := Z.of_nat (length (uncle_headers b)) in
  err_if (max_uncles <? uncle_count) (TooManyUncles uncle_count max_uncles).

(** The loop over the slots of the uncles. *)
Fixpoint verify_uncle_slots (slot first_slot : Z) (uncles : list SignedHeader) : chain_result unit :=
  match uncles with
  | [] => Ok tt
  | uncle :: uncles =>
      let uncle_slot := h_slot (sh_header uncle) in
      err_if (slot <=? uncle_slot) (InvalidUncle (header_id (sh_header uncle)) NotStrictlyOlder);;
      err_if (uncle_slot <? first_slot) (InvalidUncle (header_id (sh_header uncle)) OtherEra);;
      verify_uncle_slots slot first_slot uncles
  end.

(** The walk back of [verify_uncles_ancestry]: the uncle parents that it finds. *)
Fixpoint ancestry_loop (fuel : nat) (t : Branches HeaderId) (uncles parents : list HeaderId) (window_start : Z)
    (found : gset HeaderId) (current : option (Branch HeaderId)) : chain_result (gset HeaderId) :=
  match current with
  | None => Ok found
  | Some block =>
      if b_slot block <? window_start then Ok found
      else if bool_decide (b_id block ∈ uncles) then Err (InvalidUncle (b_id block) OnChain)
      else
        let found := if bool_decide (b_id block ∈ parents) then {[b_id block]} ∪ found else found in
        if bool_decide (b_parent block = b_id block) then Ok found
        else match fuel with
             | O => Fault OutOfFuel
             | S fuel => ancestry_loop fuel t uncles parents window_start found (branches t !! b_parent block)
             end
  end.

(** Its second loop: every uncle has its parent found. *)
Fixpoint parents_found (found : gset HeaderId) (uncles : list SignedHeader) : chain_result unit :=
  match uncles with
  | [] => Ok tt
  | uncle :: uncles =>
      err_if (negb (bool_decide (h_parent_block (sh_header uncle) ∈ found))) (InvalidUncle (header_id (sh_header uncle)) ParentNotOnChain);;
      parents_found found uncles
  end.

(** [verify_uncles_ancestry]. *)
Definition verify_uncles_ancestry c (uncles : list SignedHeader) (parent : Branch HeaderId) (window_start : Z) : chain_result unit :=
  let t := tree (consensus c) in
  found ← ancestry_loop (walk_fuel t) t (uncle_ids uncles) (uncle_parents uncles) window_start ∅ (Some parent);
  parents_found found uncles.

(** [LedgerState::verify_proof_of_leadership]. *)
Definition ledger_verify_pol (s : LedgerState T R) (slot : Z) (proof : Groth16LeaderProof)
    (eras : EraSchedule (LedgerConfig.Config Params)) : result (LedgerError HeaderId) unit :=
  verify_proof_of_leadership (cryptarchia_ledger s) slot proof (m_sdp (mantle_ledger s)) (m_pow (mantle_ledger s)) eras.

(** [verify_uncle_pol]. *)
Definition verify_uncle_pol c (uncle : SignedHeader) : result UncleError unit :=
  let h := sh_header uncle in
  parent_state ← expect (ledger_state c (h_parent_block h));
  map_err (λ _, InvalidProof) (ledger_verify_pol parent_state (h_slot h) (h_proof_of_leadership h) (Ledger.era_schedule (ledger c))).

(** The loop over the headers and proofs of the uncles. *)
Fixpoint verify_uncle_headers c (uncles : list SignedHeader) : chain_result unit :=
  match uncles with
  | [] => Ok tt
  | uncle :: uncles =>
      map_err (InvalidUncle (header_id (sh_header uncle)))
        (map_err uncle_error_from (signed_header_verify uncle);; verify_uncle_pol c uncle);;
      verify_uncle_headers c uncles
  end.

(** [verify_uncles]. *)
Definition verify_uncles c b : chain_result unit :=
  match uncle_headers b with
  | [] => Ok tt
  | uncles =>
      let slot := h_slot (header b) in
      parent ← match branches (tree (consensus c)) !! h_parent_block (header b) with
               | Some parent => Ok parent
               | None => parent_missing c (h_parent_block (header b))
               end;
      era ← at_slot (Ledger.era_schedule (ledger c)) slot;
      verify_uncle_slots slot (v_first_slot era) uncles;;
      window ← uncle_reference_window_in_slot (consensus_config (v_parameters era));
      let window_start := saturating_sub slot window in
      verify_uncles_ancestry c uncles parent window_start;;
      verify_uncle_headers c uncles
  end.

(** ** Blocks *)

(** [TryApplyBlockOutcome]. *)
Record TryApplyBlockOutcome := mkApplied {
  ap_pruned_blocks : PrunedBlocks HeaderId;
  ap_reorged_blocks : list HeaderId;
  ap_newly_canonical_blocks : list HeaderId;
  ap_events : list Event
}.

(** [prepare_update] and [receive_block_with_canonical_change] with the errors of the chain. *)
Definition chain_prepare c (id parent : HeaderId) (slot : Z) (proof : Groth16LeaderProof) (uncles : list Z) (txs : list SignedOps)
    : chain_result (PreparedUpdate (T:=T) (R:=R) (Id:=HeaderId)) :=
  match prepare_update (ledger c) id parent slot proof uncles txs with
  | Ok u => Ok u
  | Err (ParentNotFound parent) => parent_missing c parent
  | Err e => Err (ChainLedger e)
  | Fault f => Fault f
  end.

Definition chain_receive c (id parent : HeaderId) (slot : Z) (uncles : list Z)
    : chain_result (Engine.Cryptarchia HeaderId * ReceiveBlockOutcome HeaderId) :=
  match receive_block_with_canonical_change (consensus c) id parent slot uncles with
  | Ok r => Ok r
  | Err (ParentMissing parent) => parent_missing c parent
  | Err e => Err (ChainConsensus e)
  | Fault f => Fault f
  end.

(** [try_apply_block_with_state_retention]. *)
Definition try_apply_block c b (current_slot : Z) (origin : BlockOrigin) : chain_result (ChainState * TryApplyBlockOutcome) :=
  let h := header b in
  let id := header_id h in
  let parent := h_parent_block h in
  let slot := h_slot h in
  err_if (bool_decide (is_Some (ledger_state c id))) (AlreadyApplied id);;
  verify_uncle_count c b;;
  (if bool_decide (origin = Network) then
     err_if (current_slot <? slot) (FutureBlock slot current_slot);;
     verify_uncles c b
   else Ok tt);;
  let slots := uncle_slots (uncle_headers b) in
  update ← chain_prepare c id parent slot (h_proof_of_leadership h) slots (transactions b);
  update ← map_err BatchDeferredProofVerification (verify_batch_proofs update);
  '(consensus, outcome) ← chain_receive c id parent slot slots;
  let '(ledger, events) := commit_update (ledger c) update in
  Ok (mkChain ledger consensus (genesis_id c),
      mkApplied (pruned_blocks outcome) (reorged_blocks outcome) (newly_canonical_blocks outcome) events).

(** [PrunedBlocks::all], an iterator. *)
Definition pruned_iter (p : PrunedBlocks HeaderId) : list HeaderId := set_iter (stale_blocks p) ++ (map_to_list (immutable_blocks p)).*2.

(** [prune_ledger_states]; the flag says that every block had a state, which the code logs. *)
Definition prune_ledger_states c (blocks : list HeaderId) : ChainState * bool :=
  let '(ledger, found) := foldl (λ '(l, found) block, let '(l, f) := prune_state_at l block in (l, found && f)) (ledger c, true) blocks in
  (mkChain ledger (consensus c) (genesis_id c), found).

(** [Cryptarchia::online]. *)
Definition chain_online {E} c : result E (ChainState * PrunedBlocks HeaderId) :=
  '(consensus, pruned_blocks) ← online (consensus c);
  Ok ((prune_ledger_states (mkChain (ledger c) consensus (genesis_id c)) (pruned_iter pruned_blocks)).1, pruned_blocks).

(** ** Processing and storing *)

(** The blocks that the storage service holds. *)
Definition Blocks := gmap HeaderId (Block SignedOps).

(** [load_blocks]: those that are stored. *)
Definition load_blocks (blocks : Blocks) (ids : list HeaderId) : list (Block SignedOps) := omap (λ id, blocks !! id) ids.

(** The transactions of a block, with its slot. *)
Definition txs_in_block b : list (SignedOps * Z) := (λ tx, (tx, h_slot (header b))) <$> transactions b.
Definition hash_in_block {E : Type} (tx : SignedOps * Z) : result E (TxHash * Z) := h ← tx_hasher tx.1; Ok (h, tx.2).

(** [newly_canonical_txs], collected into a map. *)
Definition newly_canonical_txs {E : Type} b (newly_canonical_blocks : list HeaderId) (blocks : Blocks) : result E (gmap TxHash Z) :=
  let applied_block_id := header_id (header b) in
  let early := load_blocks blocks (filter (λ id, id ≠ applied_block_id) newly_canonical_blocks) in
  let applied := if bool_decide (applied_block_id ∈ newly_canonical_blocks) then [b] else [] in
  hashes ← mapM hash_in_block (concat (txs_in_block <$> early) ++ concat (txs_in_block <$> applied));
  Ok (collect_map hashes).

(** [reorged_txs]. *)
Fixpoint not_canonical {E : Type} (canonical : gmap TxHash Z) (txs : list (SignedOps * Z)) : result E (list (SignedOps * Z)) :=
  match txs with
  | [] => Ok []
  | tx :: txs =>
      h ← tx_hasher tx.1;
      rest ← not_canonical canonical txs;
      Ok (if bool_decide (is_Some (canonical !! h)) then rest else tx :: rest)
  end.

Definition reorged_txs {E : Type} (reorged_blocks : list HeaderId) (canonical : gmap TxHash Z) (blocks : Blocks)
    : result E (list (SignedOps * Z)) :=
  not_canonical canonical (concat (txs_in_block <$> load_blocks blocks reorged_blocks)).

(** [ProcessBlockOutcome]. *)
Record ProcessBlockOutcome := mkProcessed {
  pr_pruned_blocks : PrunedBlocks HeaderId;
  pr_reorged_block_ids : list HeaderId;
  pr_reorged_txs : list (SignedOps * Z);
  pr_newly_canonical_txs : gmap TxHash Z
}.

(** [process_block]; [written] says whether the storage service stored the block. *)
Definition process_block c (blocks : Blocks) b (current_slot : Z) (origin : BlockOrigin) (written : bool)
    : chain_result (ChainState * Blocks * ProcessBlockOutcome) :=
  '(candidate, applied) ← try_apply_block c b current_slot origin;
  lib_branch (consensus candidate);;
  err_if (negb written) ChainStorage;;
  let blocks := <[header_id (header b) := b]> blocks in
  let c := (prune_ledger_states candidate (pruned_iter (ap_pruned_blocks applied))).1 in
  newly ← newly_canonical_txs b (ap_newly_canonical_blocks applied) blocks;
  reorged ← reorged_txs (ap_reorged_blocks applied) newly blocks;
  Ok (c, blocks, mkProcessed (ap_pruned_blocks applied) (ap_reorged_blocks applied) reorged newly).

(** [Service::select_uncles]. *)
Definition load_uncles (blocks : Blocks) (candidates : list (Branch HeaderId)) : list SignedHeader :=
  (λ b, mkSignedHeader (header b) (signature b)) <$> load_blocks blocks (b_id <$> candidates).

Definition service_select_uncles {E} (id_le : HeaderId → HeaderId → bool) c (blocks : Blocks) (parent : HeaderId) (slot : Z)
    : result E (list SignedHeader) :=
  match branches (tree (consensus c)) !! parent with
  | None => Ok []
  | Some parent_branch =>
      candidates ← select_uncles id_le (consensus c) parent_branch slot;
      let uncles := load_uncles blocks candidates in
      era ← at_slot (Ledger.era_schedule (ledger c)) slot;
      let max_uncles := EngineConfig.max_uncles (consensus_config (v_parameters era)) in
      match runtime_try_new uncles max_uncles with Ok uncles => Ok uncles | _ => Fault Unwrap end
  end.

End Chain.

End Chain.
