(* ===== verification/ChainFacts.v ===== *)
(** * The ledger seen from the chain

    What an accepted update says of the slots and of the leadership proof, with
    no assumption on the states: the slot of the new state is that of the block,
    which is after that of the parent, and the proof passes the check that is
    later made of the block as an uncle. The first module, [ChainLedger], is
    about the ledger alone; [ChainFacts] is the invariant of the chain service. *)

From S2P Require Import Prelude BlockTree TreeWalks Era EraFacts EngineConfig Engine ForkChoice Pruning EngineInvariant EngineTheorems Uncles MerkleStore Codec CodecLaws Ops OpsCodec Channels Utxos ServiceNotes Inputs ChannelOps SignedTx SdpOps LedgerConfig ClaimOps TxVerification Leaders Pow Markets Cryptarchia Ledger Blocks BlockFacts BlockVerify Chain.

#[local] Open Scope Z_scope.

Module ChainLedger.
Import Canonical Ops Utxos Channels ServiceNotes Inputs ChannelOps SignedTx SdpOps LedgerConfig ClaimOps TxVerification Leaders Pow Markets Cryptarchia Ledger Blocks Chain.

(** What a computation returns satisfies [Q]. *)
Definition returns {E A} (Q : A → Prop) (r : result E A) : Prop := ∀ a, r = Ok a → Q a.

Lemma returns_bind {E A B} (Q : B → Prop) (m : result E A) (k : A → result E B) :
  (∀ a, m = Ok a → returns Q (k a)) → returns Q (m ≫= k).
Proof. intros Hk b (a & Hm & Hb)%result_bind_ok. by apply (Hk a Hm). Qed.

Ltac returning :=
  repeat first
    [ apply returns_bind; let x := fresh "x" in let Hx := fresh "Hx" in intros x Hx; repeat match goal with p : (_ * _)%type |- _ => destruct p end
    | let x := fresh "x" in let Hx := fresh "Hx" in intros x Hx; injection Hx as <-; done ].

Section Slots.
Context {T R Params P Id : Type} `{!KeyedStoreOps T NoteId Utxo} `{!Rewards T R Params}.
Context `{Poseidon2Crate} `{Blake2Crate} `{Ed25519Crate} `{MultiaddrCrate} `{Ed25519Verify} `{PoCVerify}.
Context `{BigUintCrate} `{LotteryCrate} `{!LeaderProof P}.
Implicit Types (s : LedgerState T R) (c : Config Params) (eras : EraSchedule (Config Params)).

Definition state_slot s : Z := cl_slot (cryptarchia_ledger s).

Lemma apply_op_slot s op c tx_hash balance ev :
  returns (λ '(s', _, _), state_slot s' = state_slot s) (try_apply_op (Id:=Id) s op c tx_hash balance ev).
Proof.
  destruct op; cbn [try_apply_op]; unfold check_op_data_size, try_apply_transfer; try by returning.
  apply returns_bind. intros [l b] Hl. peel Hl as x Hx. peel Hl as y Hy. injection Hl as <- <-. by returning.
Qed.

Lemma apply_ops_slot eras c tx_hash ops : ∀ s index balance gas ev d,
  returns (λ '(s', _, _, _, _), state_slot s' = state_slot s) (apply_ops (Id:=Id) s eras c tx_hash index balance gas ev d ops).
Proof.
  induction ops as [|op ops IH]; intros s index balance gas ev d; cbn [apply_ops]; [by returning|].
  do 3 (apply returns_bind; intros ? _). apply returns_bind. intros [[s1 b1] ev1] Hop. apply apply_op_slot in Hop. cbn beta iota in Hop.
  intros [[[[s' b'] g'] ev'] d'] Hr. apply IH in Hr. by rewrite Hr.
Qed.

Lemma apply_tx_slot s eras tx : returns (λ '(s', _, _, _), state_slot s' = state_slot s) (try_apply_transaction (Id:=Id) s eras tx).
Proof.
  unfold try_apply_transaction, try_apply_tx_operations. apply returns_bind. intros [[[[s1 b] g] ev] d] Hops.
  assert (state_slot s1 = state_slot s) as Hs.
  { peel Hops as c Hc. peel Hops as [] Hf. peel Hops as h Hh. by apply apply_ops_slot in Hops. }
  do 6 (apply returns_bind; intros ? _). intros res Hres. by injection Hres as <-.
Qed.

Lemma apply_txs_slot eras c txs : ∀ s index size g ev d,
  returns (λ '(s', _, _, _), state_slot s' = state_slot s) (apply_txs (Id:=Id) s eras c index size g ev d txs).
Proof.
  induction txs as [|tx txs IH]; intros s index size g ev d; cbn [apply_txs]; [by returning|].
  do 3 (apply returns_bind; intros ? _). apply returns_bind. intros [[[s1 g1] ev1] d1] Htx. apply apply_tx_slot in Htx. cbn beta iota in Htx.
  apply returns_bind. intros g2 _ [[[s' g'] ev'] d'] Hr. apply IH in Hr. by rewrite Hr.
Qed.

Lemma rewards_slot s burned tip c : returns (λ s', state_slot s' = state_slot s) (compute_block_rewards (Id:=Id) s burned tip c).
Proof.
  unfold compute_block_rewards. do 2 (apply returns_bind; intros ? _). apply returns_bind. intros l Hl.
  unfold update_fee_window in Hl. peel Hl as [] Hi. injection Hl as <-.
  do 2 (apply returns_bind; intros ? _). apply returns_bind. intros [? ?] _. do 4 (apply returns_bind; intros ? _).
  intros res Hres. by injection Hres as <-.
Qed.

Lemma contents_slot s eras txs : returns (λ '(s', _, _), state_slot s' = state_slot s) (try_apply_block_contents (Id:=Id) s eras txs).
Proof.
  unfold try_apply_block_contents. apply returns_bind. intros c _. apply returns_bind. intros [[[s1 g] ev] d] H1'. apply apply_txs_slot in H1'.
  cbn beta iota in H1'. apply returns_bind. intros s2 H2'. apply rewards_slot in H2'. apply returns_bind. intros s3 H3'.
  unfold ledger_execution_market, apply_execution_market in H3'. peel H3' as l Hl. peel Hl as [? ?] Hm. injection Hl as <-. injection H3' as <-.
  apply returns_bind. intros s4 H4'. unfold ledger_storage_gas, add_storage_gas_consumed in H4'. peel H4' as l Hl.
  apply map_err_ok in Hl. peel Hl as gas Hgas. injection Hl as <-. injection H4' as <-.
  intros res Hres. injection Hres as <-. unfold state_slot in *. cbn in *. congruence.
Qed.

(** The update of the epoch state moves to the slot, which is later. *)
Lemma update_epoch_state_slot (l : Cryptarchia T) slot sdp pow eras :
  returns (λ l', cl_slot l < slot ∧ cl_slot l' = slot) (update_epoch_state (R:=R) (Id:=Id) l slot sdp pow eras).
Proof.
  unfold update_epoch_state. destruct (Z.leb_spec slot (cl_slot l)) as [|Hlt]; [by intros ? ?|].
  do 3 (apply returns_bind; intros ? _). case_match; [intros res Hres; by injection Hres as <-|].
  do 4 (apply returns_bind; intros ? _). case_match.
  - apply returns_bind. intros ? _. apply returns_bind. intros [? ?] _. do 3 (apply returns_bind; intros ? _).
    apply returns_bind. intros [? ?] _ res Hres. by injection Hres as <-.
  - do 2 (apply returns_bind; intros ? _). do 3 (apply returns_bind; intros [? ?] _). do 4 (apply returns_bind; intros ? _).
    intros res Hres. by injection Hres as <-.
Qed.

Context `{!IntoBlockHash Id}.

(** An accepted update: the slots and the proof. *)
Lemma try_update_slot s id slot proof uncles txs eras s' ev d :
  try_update (P:=P) (Id:=Id) s id slot proof uncles txs eras = Ok (s', ev, d) →
  state_slot s < slot ∧ state_slot s' = slot ∧
  verify_proof_of_leadership (Id:=Id) (cryptarchia_ledger s) slot proof (m_sdp (mantle_ledger s)) (m_pow (mantle_ledger s)) eras = Ok tt.
Proof.
  intros Hu. unfold try_update in Hu. peel Hu as [s1 he] Hh. peel Hu as m Hm. peel Hu as [[s2 te] dp] Hc. apply contents_slot in Hc.
  cbn beta iota in Hc. peel Hu as pow Hp. peel Hu as c Hcfg. peel Hu as s3 Hd. unfold update_pow_reward_difficulty in Hd. peel Hd as pw Hpw.
  injection Hd as <-. injection Hu as <- _ _. change (state_slot (with_mantle _ _)) with (state_slot s2). rewrite Hc.
  unfold try_apply_header in Hh. peel Hh as l Hl. peel Hh as [mm eff] Hmm. peel Hh as u Huu. peel Hh as n Hn. injection Hh as <- _.
  unfold cryptarchia_apply_header in Hl. peel Hl as l1 Hl1. injection Hl as <-. unfold verify_proof_of_leadership. rewrite Hl1.
  unfold update_epoch_state_and_apply_proof in Hl1. peel Hl1 as l2 Hl2. apply update_epoch_state_slot in Hl2 as [Hlt Hs].
  unfold try_apply_proof in Hl1. do 4 (let x := fresh in let Hx := fresh in peel Hl1 as x Hx). destruct (lp_verify _ _); [|done].
  injection Hl1 as <-. split_and!; [done| |done]. done.
Qed.

(** The check of a proof says that the slot is later. *)
Lemma verify_pol_slot (l : Cryptarchia T) slot (proof : P) sdp pow eras :
  verify_proof_of_leadership (R:=R) (Id:=Id) l slot proof sdp pow eras = Ok tt → cl_slot l < slot.
Proof.
  unfold verify_proof_of_leadership, update_epoch_state_and_apply_proof. intros Hv. peel Hv as l1 Hl. peel Hl as l2 Hl2.
  by apply update_epoch_state_slot in Hl2 as [? _].
Qed.

End Slots.

End ChainLedger.

(** * The chain keeps the engine and the ledger in step

    The invariant of the chain service: the ledger has a state for exactly the
    blocks of the tree, in their slots, and every block above the latest immutable
    one is stored with a header whose signature and leadership proof hold against
    the state of its parent. The ledger rejects a block that is not after its
    parent, which the engine alone does not, and this is what makes the engine
    report every immutable block it prunes. *)

#[local] Open Scope Z_scope.

Module ChainFacts.
Import Canonical Bounded Ops OpsCodec Utxos Channels ServiceNotes Inputs ChannelOps SignedTx SdpOps LedgerConfig ClaimOps TxVerification Leaders Pow Markets Cryptarchia Ledger Blocks BodyRoot BlockFacts BlockVerify Chain ChainLedger.

(** ** The blocks that a pruning reports *)

Section Pruned.
Context {order : SetOrder HeaderId}.
Implicit Types (t u : Branches HeaderId) (p : PrunedBlocks HeaderId) (L : Branch HeaderId).

Lemma pruned_iter_elem p id : id ∈ pruned_iter p ↔ id ∈ stale_blocks p ∨ ∃ s, immutable_blocks p !! s = Some id.
Proof.
  unfold pruned_iter. rewrite elem_of_app, set_iter_perm, elem_of_elements, list_elem_of_fmap. split.
  - intros [?|([s i] & -> & Hi%elem_of_map_to_list)]; [by left|right; by exists s].
  - intros [?|[s Hs]]; [by left|right]. exists (s, id). split; [done|by apply elem_of_map_to_list].
Qed.

(** With strict slots, they are the blocks that are no longer in the tree. *)
Lemma pruned_exact t L u p : wf_tree t → known t L → strict_slots t → pruned_at t L u p →
  ∀ id, id ∈ pruned_iter p ↔ is_Some (branches t !! id) ∧ branches u !! id = None.
Proof.
  intros WF HkL Hs HP id. rewrite pruned_iter_elem. setoid_rewrite (pruned_immutable t L u p WF HkL Hs HP).
  pose proof HP as [S Hst _ _]. rewrite Hst. split.
  - intros [(b & Hb & Hna & _)|(s & b & Ha & Hne & _ & <-)].
    + split; [by exists b|]. apply eq_None_not_Some. intros [b' Hb']. apply (sub_branches _ _ _ S) in Hb' as [? ?]. naive_solver.
    + destruct (ancestor_known t WF b L HkL Ha) as (Hkb & Hle & _). split; [by exists b|]. apply eq_None_not_Some. intros [b' Hb'].
      apply (sub_branches _ _ _ S) in Hb' as [Hb' HL]. unfold known in Hkb. rewrite Hkb in Hb'. injection Hb' as <-.
      apply Hne. by apply (ancestor_antisym t WF).
  - intros [[b Hb] Hu]. assert (known t b) as Hkb by (unfold known; by rewrite (wf_id t WF id b Hb)).
    destruct (ancestor_dec t L b WF HkL Hkb) as [Ha|Hn].
    { by rewrite (proj2 (sub_branches _ _ _ S id b) (conj Hb Ha)) in Hu. }
    destruct (ancestor_dec t b L WF Hkb HkL) as [Ha|Hn']; [right|left; by exists b].
    exists (b_slot b), b. split_and!; [done| |done|by apply (wf_id t WF)]. intros ->. by apply Hn.
Qed.

Lemma pruned_NoDup t L u p : wf_tree t → known t L → pruned_at t L u p → NoDup (pruned_iter p).
Proof.
  intros WF HkL [S Hst Him _]. apply NoDup_app. split_and!.
  - rewrite set_iter_perm. apply NoDup_elements.
  - intros i Hi. rewrite set_iter_perm, elem_of_elements in Hi. rewrite list_elem_of_fmap. intros ([s i'] & -> & Hm%elem_of_map_to_list).
    apply Hst in Hi as (b & Hb & _ & Hn). apply Him in Hm as (b' & Ha & _ & _ & Hid). cbn in *. subst.
    destruct (ancestor_known t WF b' L HkL Ha) as (Hkb & _ & _). unfold known in Hkb. rewrite Hkb in Hb. by injection Hb as ->.
  - apply NoDup_fmap_2_strong; [|apply NoDup_map_to_list]. intros [s1 i1] [s2 i2] H1%elem_of_map_to_list H2%elem_of_map_to_list Heq.
    cbn in Heq. subst. apply Him in H1 as (b1 & Ha1 & _ & <- & E1). apply Him in H2 as (b2 & Ha2 & _ & <- & E2).
    destruct (ancestor_known t WF b1 L HkL Ha1) as (Hk1 & _ & _), (ancestor_known t WF b2 L HkL Ha2) as (Hk2 & _ & _).
    by rewrite (known_id_inj t WF b1 b2 Hk1 Hk2) by congruence.
Qed.

End Pruned.

Section Chain.
Context {T R Params : Type} `{!KeyedStoreOps T NoteId Utxo} `{!Rewards T R Params}.
Context `{Poseidon2Crate} `{Blake2Crate} `{BigUintCrate} `{LotteryCrate} `{Ed25519Crate} `{MultiaddrCrate} `{Ed25519Verify} `{PoCVerify} `{BatchVerify} `{PolVerify} `{HeaderBincode}.
Context {order : SetOrder HeaderId}.
Notation Chain := (ChainState (T:=T) (R:=R) (Params:=Params)).
Implicit Types (c : Chain) (b : Block SignedOps) (blocks : Blocks) (br : Branch HeaderId).

(** ** Dropping states *)

Lemma prune_states_fold l : ∀ (lg : BlockLedger (T:=T) (R:=R) (Params:=Params) (Id:=HeaderId)) found lg' found',
  foldl (λ '(l, found) block, let '(l, f) := prune_state_at l block in (l, found && f)) (lg, found) l = (lg', found') →
  era_schedule lg' = era_schedule lg ∧
  (∀ id, states lg' !! id = if decide (id ∈ l) then None else states lg !! id) ∧
  (found = true → NoDup l → (∀ id, id ∈ l → is_Some (states lg !! id)) → found' = true).
Proof.
  induction l as [|x l IH]; intros lg found lg' found' Hf; cbn [foldl] in Hf.
  { injection Hf as <- <-. done. }
  cbn [prune_state_at] in Hf. apply IH in Hf as (He & Hl & Hfound). split; [by rewrite He|]. split.
  - intros id. rewrite Hl. cbn [states]. destruct (decide (id ∈ l)) as [Hin|Hin].
    + rewrite decide_True; [done|by right].
    + destruct (decide (id = x)) as [->|Hne]; [rewrite decide_True by left; apply lookup_delete_eq|].
      rewrite lookup_delete_ne by done. rewrite decide_False; [done|]. by intros [?|?]%elem_of_cons.
  - intros -> [Hx Hnd]%NoDup_cons Hall. apply Hfound; [|done|].
    + apply andb_true_intro. split; [done|]. apply bool_decide_eq_true, Hall. by left.
    + intros id Hid. cbn [states]. rewrite lookup_delete_ne by (intros ->; done). apply Hall. by right.
Qed.

Lemma prune_ledger_states_ok c l : let '(c', found) := prune_ledger_states c l in
  consensus c' = consensus c ∧ genesis_id c' = genesis_id c ∧ era_schedule (ledger c') = era_schedule (ledger c) ∧
  (∀ id, ledger_state c' id = if decide (id ∈ l) then None else ledger_state c id) ∧
  (NoDup l → (∀ id, id ∈ l → is_Some (ledger_state c id)) → found = true).
Proof.
  unfold prune_ledger_states. destruct (foldl _ _ l) as [lg found] eqn:Hf. apply prune_states_fold in Hf as (? & ? & ?).
  cbn. split_and!; [done..|]. intros. auto.
Qed.

(** ** The invariant *)

(** What a block above the latest immutable one comes with. *)
Record stored_block c blocks br blk : Prop := {
  sb_stored : blocks !! b_id br = Some blk;
  sb_id : header_id (header blk) = b_id br;
  sb_parent : h_parent_block (header blk) = b_parent br;
  sb_slot : h_slot (header blk) = b_slot br;
  sb_genesis : h_slot (header blk) ≠ 0;
  sb_signed : header_signed (header blk) (signature blk);
  sb_txs : ∃ max, Forall (signed_ops_wf max) (transactions blk);
  sb_proof : ∃ ps, ledger_state c (b_parent br) = Some ps ∧
    ledger_verify_pol ps (b_slot br) (h_proof_of_leadership (header blk)) (era_schedule (ledger c)) = Ok tt
}.

Record chain_inv c blocks : Prop := {
  ci_engine : wf_engine (consensus c);
  ci_eras : Engine.era_schedule (consensus c) = engine_eras (era_schedule (ledger c));
  ci_windows : ∀ v, v ∈ Era.eras (era_schedule (ledger c)) → ∃ w, ∀ E : Type,
    uncle_reference_window_in_slot (E:=E) (consensus_config (v_parameters v)) = Ok w;
  ci_states : ∀ id, is_Some (ledger_state c id) ↔ is_Some (branches (tree (consensus c)) !! id);
  ci_slots : ∀ id s br, ledger_state c id = Some s → branches (tree (consensus c)) !! id = Some br → state_slot s = b_slot br;
  ci_stored : ∀ br, known (tree (consensus c)) br → b_id br ≠ lib (tree (consensus c)) → ∃ blk, stored_block c blocks br blk
}.

(** Slots increase strictly along the chains. *)
Lemma chain_strict c blocks : chain_inv c blocks → strict_slots (tree (consensus c)).
Proof.
  intros [WE _ _ _ Hslots Hst] b q Hb Hp. pose proof (inv_tree _ WE) as WF.
  destruct (parent_spec _ WF b q Hb Hp) as (_ & _ & Hnl). destruct (parent_known _ WF b q Hp) as (Hkq & Eq & _).
  destruct (Hst b Hb Hnl) as [blk [_ _ _ _ _ _ _ (ps & Hps & Hpol)]]. apply verify_pol_slot in Hpol.
  unfold known in Hkq. rewrite Eq in Hkq. pose proof (Hslots _ _ _ Hps Hkq) as Hs. unfold state_slot in Hs. lia.
Qed.

(** ** Steps *)

(** A pruning of the engine, followed by that of the ledger, leaves them in step. *)
Lemma prune_keeps c blocks (t : Branches HeaderId) L p : wf_engine (consensus c) →
  Engine.era_schedule (consensus c) = engine_eras (era_schedule (ledger c)) →
  (∀ v, v ∈ Era.eras (era_schedule (ledger c)) → ∃ w, ∀ E : Type, uncle_reference_window_in_slot (E:=E) (consensus_config (v_parameters v)) = Ok w) →
  wf_tree t → known t L → strict_slots t → pruned_at t L (tree (consensus c)) p →
  (∀ id, is_Some (ledger_state c id) ↔ is_Some (branches t !! id)) →
  (∀ id s br, ledger_state c id = Some s → branches t !! id = Some br → state_slot s = b_slot br) →
  (∀ br, known t br → b_id br ≠ lib t → ∃ blk, stored_block c blocks br blk) →
  chain_inv (prune_ledger_states c (pruned_iter p)).1 blocks ∧ (prune_ledger_states c (pruned_iter p)).2 = true.
Proof.
  intros WE He Hw WF HkL Hs HP Hst Hsl Hbl. pose proof (prune_ledger_states_ok c (pruned_iter p)) as Hp.
  destruct (prune_ledger_states c (pruned_iter p)) as [c' found]. destruct Hp as (Ec & _ & Ee & El & Hf). cbn [fst snd].
  pose proof (pruned_exact t L _ p WF HkL Hs HP) as Hex. pose proof (pa_subtree _ _ _ _ HP) as S.
  assert (∀ id br, branches (tree (consensus c)) !! id = Some br → ledger_state c' id = ledger_state c id) as Hkept.
  { intros id br Hb. rewrite El, decide_False; [done|]. intros [_ Hn]%Hex. congruence. }
  split.
  2:{ apply Hf; [by eapply pruned_NoDup|]. intros id [? _]%Hex. by apply Hst. }
  split.
  - by rewrite Ec.
  - by rewrite Ec, Ee.
  - by rewrite Ee.
  - intros id. rewrite Ec. split.
    + rewrite El. case_decide as Hd; [by intros []|]. intros Hsome%Hst. destruct (branches (tree (consensus c)) !! id) eqn:Hb; [done|].
      destruct Hd. by apply Hex.
    + intros [br Hb]. rewrite (Hkept id br Hb). apply Hst. apply (sub_branches _ _ _ S) in Hb as [? _]. by exists br.
  - intros id st br Hi Hb. rewrite Ec in Hb. rewrite (Hkept id br Hb) in Hi. apply (sub_branches _ _ _ S) in Hb as [Hb _]. by eapply Hsl.
  - intros br Hk Hnl. rewrite Ec in Hk, Hnl. rewrite (sub_lib _ _ _ S) in Hnl. apply (sub_known _ _ _ _ S) in Hk as [Hk Ha].
    assert (b_id br ≠ lib t) as Hnl'.
    { intros Heq. destruct (lib_known t WF) as (r & Hr & Er & Hkr). apply Hnl. f_equal.
      assert (br = r) as -> by (apply (known_id_inj t WF); congruence).
      apply (ancestor_antisym t WF); [done|by apply (lib_ancestor t WF)|done]. }
    destruct (Hbl br Hk Hnl') as [blk [? ? ? ? ? ? ? (ps & Hps & Hpol)]]. exists blk. split; try done. exists ps.
    destruct (wf_parent t WF br Hk Hnl') as (q & Hq & _). destruct (sub_parent t WF L HkL _ br q S Hk Hnl Ha Hq) as [Hqu _].
    destruct (parent_known _ (inv_tree _ WE) br q Hqu) as (Hkq & Eq & _). unfold known in Hkq. rewrite Eq in Hkq.
    by rewrite (Hkept _ _ Hkq), Ee.
Qed.

(** What a caller guarantees of a block: it was verified, its identifier is not
    that of the pruned parent of the latest immutable block, and the heights and
    slots are in the range of the engine. *)
Record block_new c b : Prop := {
  bn_slot : in_u64 (h_slot (header b));
  bn_genesis : h_slot (header b) ≠ 0;
  bn_signed : header_signed (header b) (signature b);
  bn_txs : ∃ max, Forall (signed_ops_wf max) (transactions b);
  bn_root : ∀ r, branches (tree (consensus c)) !! lib (tree (consensus c)) = Some r → b_parent r ≠ header_id (header b);
  bn_room : Engine.state (consensus c) = Bootstrapping → slot_room (Engine.era_schedule (consensus c)) (h_slot (header b)) ∧
    ∀ br, known (tree (consensus c)) br → slot_room (Engine.era_schedule (consensus c)) (b_slot br);
  bn_height : ∀ br, known (tree (consensus c)) br → b_length br < u64_max
}.

Lemma new_acceptable c blocks b : chain_inv c blocks → block_new c b → ledger_state c (header_id (header b)) = None →
  acceptable (consensus c) (header_id (header b)) (h_slot (header b)).
Proof.
  intros HI [] Hn. split; try done. split; [|done]. apply eq_None_not_Some. intros Hs%(ci_states _ _ HI). rewrite Hn in Hs. by destruct Hs.
Qed.

(** The course of a block that is applied. *)
Record applied_block c b c1 out (ps s : LedgerState T R) consensus' outcome : Prop := {
  ab_fresh : ledger_state c (header_id (header b)) = None;
  ab_parent : ledger_state c (h_parent_block (header b)) = Some ps;
  ab_pol : ledger_verify_pol ps (h_slot (header b)) (h_proof_of_leadership (header b)) (era_schedule (ledger c)) = Ok tt;
  ab_slot : state_slot s = h_slot (header b);
  ab_receive : receive_block_with_canonical_change (consensus c) (header_id (header b)) (h_parent_block (header b)) (h_slot (header b))
    (uncle_slots (uncle_headers b)) = Ok (consensus', outcome);
  ab_chain : c1 = mkChain (mkBlockLedger (<[header_id (header b) := s]> (states (ledger c))) (era_schedule (ledger c))) consensus' (genesis_id c);
  ab_pruned : ap_pruned_blocks out = pruned_blocks outcome;
  ab_reorged : ap_reorged_blocks out = reorged_blocks outcome;
  ab_adopted : ap_newly_canonical_blocks out = newly_canonical_blocks outcome
}.

Lemma try_apply_inv c b current origin c1 out : try_apply_block c b current origin = Ok (c1, out) →
  ∃ ps s consensus' outcome, applied_block c b c1 out ps s consensus' outcome.
Proof.
  unfold try_apply_block. intros Ha. peel Ha as [] Hn. apply err_if_ok, bool_decide_eq_false in Hn.
  peel Ha as [] Hcount. peel Ha as [] Horigin. peel Ha as u Hu. peel Ha as v Hv. peel Ha as [cons outcome] Hr. cbn [commit_update] in Ha.
  injection Ha as <- <-. apply map_err_ok in Hv. unfold verify_batch_proofs in Hv. peel Hv as [] Hb. injection Hv as <-.
  assert (prepare_update (ledger c) (header_id (header b)) (h_parent_block (header b)) (h_slot (header b)) (h_proof_of_leadership (header b))
    (uncle_slots (uncle_headers b)) (transactions b) = Ok u) as Hp.
  { unfold chain_prepare in Hu. destruct (prepare_update _ _ _ _ _ _ _) as [u'|e|f]; [by injection Hu as ->| |done].
    destruct e; try done. unfold parent_missing in Hu. by peel Hu as i Hi. }
  unfold prepare_update in Hp. peel Hp as ps Hps. apply ok_or_ok in Hps. peel Hp as [[s ev] d] Hup. injection Hp as <-.
  apply try_update_slot in Hup as (_ & Hs & Hpol). exists ps, s, cons, outcome. split; try done.
  - by apply eq_None_not_Some.
  - unfold chain_receive in Hr. destruct (receive_block_with_canonical_change _ _ _ _ _) as [r|e|f]; [by injection Hr as ->| |done].
    destruct e; try done. unfold parent_missing in Hr. by peel Hr as i Hi.
Qed.

(** A stored block stays one when a state and a block are added. *)
Lemma stored_block_mono c c1 blocks blocks1 br blk : stored_block c blocks br blk → era_schedule (ledger c1) = era_schedule (ledger c) →
  (∀ id s, ledger_state c id = Some s → ledger_state c1 id = Some s) → blocks1 !! b_id br = blocks !! b_id br → stored_block c1 blocks1 br blk.
Proof.
  intros [? ? ? ? ? ? ? (ps & Hps & Hpol)] Ee Hl Hb. split; try done; [by rewrite Hb|]. exists ps. rewrite Ee. auto.
Qed.

(** An applied block keeps the invariant, once it is stored and what was pruned is dropped. *)
Lemma applied_keeps c blocks b c1 out ps s consensus' outcome : chain_inv c blocks → block_new c b →
  applied_block c b c1 out ps s consensus' outcome →
  let c' := prune_ledger_states c1 (pruned_iter (ap_pruned_blocks out)) in
  chain_inv c'.1 (<[header_id (header b) := b]> blocks) ∧ c'.2 = true.
Proof.
  intros HI HN [Hfr Hps Hpol Hs Hrc -> -> _ _]. pose proof (new_acceptable c blocks b HI HN Hfr) as HA.
  pose proof HI as [WE He Hw Hst Hsl Hbl]. set (id := header_id (header b)) in *.
  destruct (receive_inv _ _ _ _ _ _ _ WE HA Hrc) as (t1 & p & nb & L & HR). pose proof HR as [_ X (Enb & Epar & Esl & _) WF1 _ _ [HkL _] _ HP _ [Ee _]].
  pose proof (inv_tree _ WE) as WF. pose proof (ext_known _ _ _ _ X) as Hkp. rewrite <- Enb in *.
  assert (branches (tree (consensus c)) !! h_parent_block (header b) = Some p) as Hbp.
  { rewrite <- Epar, (ext_parent _ _ _ _ X). exact Hkp. }
  pose proof (Hsl _ _ _ Hps Hbp) as Hsp. pose proof Hpol as Hlt. apply verify_pol_slot in Hlt. unfold state_slot in Hsp.
  apply (prune_keeps _ _ t1 L).
  - by eapply received_wf.
  - cbn. by rewrite Ee.
  - done.
  - done.
  - done.
  - intros x q [->|Hx]%(ext_known_iff _ _ _ _ WF X) Hq.
    + rewrite (ext_parent_new _ _ _ _ WF X) in Hq. injection Hq as <-. lia.
    + rewrite (ext_parent_old _ _ _ _ WF X x Hx) in Hq. by apply (chain_strict c blocks HI x q).
  - done.
  - intros i. unfold ledger_state. cbn. rewrite (ext_branches _ _ _ _ X).
    destruct (decide (i = b_id nb)) as [->|Hne]; [by rewrite !lookup_insert_eq|]. rewrite !lookup_insert_ne by done. apply Hst.
  - intros i si br. unfold ledger_state. cbn. rewrite (ext_branches _ _ _ _ X).
    destruct (decide (i = b_id nb)) as [->|Hne]; [rewrite !lookup_insert_eq; intros [= <-] [= <-]; by rewrite Hs|].
    rewrite !lookup_insert_ne by done. apply Hsl.
  - assert (∀ i si, ledger_state c i = Some si → <[b_id nb := s]> (states (ledger c)) !! i = Some si) as Hkeep.
    { intros i si Hi. rewrite lookup_insert_ne; [done|]. intros <-. by rewrite Hfr in Hi. }
    intros br [->|Hk]%(ext_known_iff _ _ _ _ WF X) Hnl.
    + exists b. destruct HN. split; try done; [apply lookup_insert_eq|]. exists ps. unfold ledger_state. cbn.
      rewrite Epar, Esl. split; [by apply Hkeep|done].
    + rewrite (ext_lib _ _ _ _ X) in Hnl. destruct (Hbl br Hk Hnl) as [blk Hblk]. exists blk. eapply stored_block_mono; [done..|].
      apply lookup_insert_ne. intros E. destruct (ext_fresh _ _ _ _ X) as [Hf _]. unfold known in Hk. congruence.
Qed.

(** The engine going online keeps it. *)
Lemma online_keeps {E} c blocks : chain_inv c blocks → ∃ c' p, chain_online (E:=E) c = Ok (c', p) ∧ chain_inv c' blocks ∧
  Engine.state (consensus c') = Online ∧ local_chain (consensus c') = local_chain (consensus c).
Proof.
  intros HI. pose proof HI as [WE He Hw Hst Hsl Hbl]. unfold chain_online.
  destruct (online_spec (E:=E) (consensus c) WE) as (cons & p & L & Hok & WE' & Es & El & HL & HP). rewrite Hok. cbn [mbind result_bind].
  set (c1 := mkChain (ledger c) cons (genesis_id c)).
  assert (Engine.era_schedule cons = Engine.era_schedule (consensus c)) as Ee.
  { unfold online, update_lib in Hok. peel Hok as l Hl. destruct (decide _); [by injection Hok as <- _|].
    peel Hok as d Hd. peel Hok as [c2 st] Hst2. peel Hok as [c3 im] Him. injection Hok as <- _.
    unfold prune_immutable_blocks in Him. peel Him as lb Hlb. peel Him as [bs rm] Hbs. injection Him as <- _.
    unfold prune_stale_forks in Hst2. peel Hst2 as fk Hfk. peel Hst2 as [tt' rm'] Htt. by injection Hst2 as <- _. }
  assert (known (tree (consensus c)) L) as HkL.
  { destruct HL as [HaL _ _]. destruct (inv_local _ WE) as [Hk _]. by destruct (ancestor_known _ (inv_tree _ WE) _ _ Hk HaL). }
  destruct (prune_keeps c1 blocks (tree (consensus c)) L p) as [HI' _];
    [done|cbn; by rewrite Ee|done|apply (inv_tree _ WE)|done|by apply (chain_strict c blocks)|done|done|done| |].
  { intros br Hk Hn. destruct (Hbl br Hk Hn) as [blk Hblk]. exists blk. by eapply stored_block_mono. }
  exists (prune_ledger_states c1 (pruned_iter p)).1, p. pose proof (prune_ledger_states_ok c1 (pruned_iter p)) as Hp.
  destruct (prune_ledger_states c1 (pruned_iter p)) as [c' found]. destruct Hp as (Ec & _). cbn [fst] in *. rewrite Ec. done.
Qed.

End Chain.

End ChainFacts.
