(* ===== verification/UncleRules.v ===== *)
(** * The uncle rules

    The checks of services/chain/chain-service/src/uncle.rs accept a block exactly
    when each of its uncles satisfies the documented rules, without a panic of their
    own; and the uncles that the service selects for a new block pass them. *)

From S2P Require Import Prelude BlockTree TreeWalks Era EraFacts EngineConfig Engine ForkChoice Pruning EngineInvariant EngineTheorems Uncles MerkleStore Codec CodecLaws Ops OpsCodec Channels Utxos ServiceNotes Inputs ChannelOps SignedTx SdpOps LedgerConfig ClaimOps TxVerification Leaders Pow Markets Cryptarchia Ledger Blocks BlockFacts BlockVerify Chain ChainFacts.

#[local] Open Scope Z_scope.

Module UncleRules.
Import Canonical Bounded Ops OpsCodec Utxos Channels ServiceNotes Inputs ChannelOps SignedTx SdpOps LedgerConfig ClaimOps TxVerification Leaders Pow Markets Cryptarchia Ledger Blocks BodyRoot BlockFacts BlockVerify Chain ChainLedger ChainFacts.

Section Rules.
Context {T R Params : Type} `{!KeyedStoreOps T NoteId Utxo} `{!Rewards T R Params}.
Context `{Poseidon2Crate} `{Blake2Crate} `{BigUintCrate} `{LotteryCrate} `{Ed25519Crate} `{MultiaddrCrate} `{Ed25519Verify} `{PoCVerify} `{BatchVerify} `{PolVerify} `{HeaderBincode}.
Context {order : SetOrder HeaderId}.
Notation Chain := (ChainState (T:=T) (R:=R) (Params:=Params)).
Implicit Types (c : Chain) (b : Block SignedOps) (blocks : Blocks) (br : Branch HeaderId) (u : SignedHeader) (us : list SignedHeader).

(** The rules of an uncle of a block at [slot] on [par], in an era from [first] with a window from [ws]. *)
Record uncle_valid c par (slot first ws : Z) u : Prop := {
  uv_slot : first <= h_slot (sh_header u) < slot;
  uv_off_chain : ¬ ∃ a, ancestor (tree (consensus c)) a par ∧ ws <= b_slot a ∧ b_id a = header_id (sh_header u);
  uv_parent : ∃ q, ancestor (tree (consensus c)) q par ∧ ws <= b_slot q ∧ b_id q = h_parent_block (sh_header u);
  uv_genesis : h_slot (sh_header u) ≠ 0;
  uv_signed : header_signed (sh_header u) (sh_signature u);
  uv_proof : ∃ ps, ledger_state c (h_parent_block (sh_header u)) = Some ps ∧
    ledger_verify_pol ps (h_slot (sh_header u)) (h_proof_of_leadership (sh_header u)) (era_schedule (ledger c)) = Ok tt
}.

(** ** The loops *)

Lemma uncle_slots_exact slot first us : match verify_uncle_slots slot first us with
  | Ok _ => Forall (λ u, first <= h_slot (sh_header u) < slot) us
  | Err e => (∃ id reason, e = InvalidUncle id reason) ∧ ¬ Forall (λ u, first <= h_slot (sh_header u) < slot) us
  | Fault _ => False
  end.
Proof.
  induction us as [|u us IH]; cbn [verify_uncle_slots]; [done|].
  destruct (Z.leb_spec slot (h_slot (sh_header u))); cbn [err_if mbind result_bind]; [split; [by eauto|rewrite Forall_cons; lia]|].
  destruct (Z.ltb_spec (h_slot (sh_header u)) first); cbn [err_if mbind result_bind]; [split; [by eauto|rewrite Forall_cons; lia]|].
  destruct (verify_uncle_slots slot first us) as [[]|e|f]; [constructor; [lia|done]|rewrite Forall_cons; naive_solver|done].
Qed.

(** The walk back finds the chain in the window. *)
Lemma ancestry_exact (t : Branches HeaderId) (ids parents : list HeaderId) ws r : wf_tree t → branches t !! lib t = Some r →
  ∀ fuel o found, walk_room t r fuel o →
  match ancestry_loop fuel t ids parents ws found o with
  | Ok found' => (¬ ∃ a, ahead t o a ∧ ws <= b_slot a ∧ b_id a ∈ ids) ∧
      ∀ i, i ∈ found' ↔ i ∈ found ∨ i ∈ parents ∧ ∃ a, ahead t o a ∧ ws <= b_slot a ∧ b_id a = i
  | Err e => ∃ a, ahead t o a ∧ ws <= b_slot a ∧ b_id a ∈ ids ∧ e = InvalidUncle (b_id a) OnChain
  | Fault _ => False
  end.
Proof.
  intros WF Hr. induction fuel as [|fuel IH]; intros [br|] found Hroom; cbn [ancestry_loop]; try (split; [naive_solver|]; cbn [ahead]; naive_solver).
  { destruct Hroom as [Hb ?]. pose proof (height_fuel t WF r br Hr Hb). lia. }
  destruct (Z.ltb_spec (b_slot br) ws) as [Hs|Hs].
  { destruct Hroom as [Hb _]. assert (∀ a, ahead t (Some br) a → ¬ ws <= b_slot a) as Hno
      by (intros a Ha; destruct (ancestor_known t WF a br Hb Ha) as (_ & _ & ?); lia).
    split; [naive_solver|]. intros i. naive_solver. }
  destruct (bool_decide _) eqn:Hu.
  { apply bool_decide_eq_true in Hu. exists br. split_and!; [apply ancestor_refl|done..]. }
  apply bool_decide_eq_false in Hu. set (found1 := if bool_decide (b_id br ∈ parents) then _ else _).
  assert (∀ i, i ∈ found1 ↔ i ∈ found ∨ i ∈ parents ∧ b_id br = i) as Hf.
  { intros i. unfold found1. case_bool_decide; set_solver. }
  specialize (IH (parent t br) found1 (walk_room_parent t WF r fuel br Hr Hroom)).
  assert ((if bool_decide (b_parent br = b_id br) then Ok found1 else ancestry_loop fuel t ids parents ws found1 (branches t !! b_parent br)) =
    ancestry_loop fuel t ids parents ws found1 (parent t br)) as ->.
  { unfold parent. destruct (decide (b_parent br = b_id br)); [rewrite bool_decide_true by done; by destruct fuel|by rewrite bool_decide_false by done]. }
  assert (∀ a, ahead t (Some br) a ↔ a = br ∨ ahead t (parent t br) a) as Hst by (intros a; apply (ahead_step t br)).
  destruct (ancestry_loop fuel t ids parents ws found1 (parent t br)) as [found'|e|fl]; [|setoid_rewrite Hst; naive_solver|done].
  destruct IH as [Hn Hi]. setoid_rewrite Hst. split; [naive_solver|]. intros i. rewrite Hi, Hf. naive_solver.
Qed.

Lemma parents_found_exact found us : match parents_found found us with
  | Ok _ => Forall (λ u, h_parent_block (sh_header u) ∈ found) us
  | Err e => (∃ id reason, e = InvalidUncle id reason) ∧ ¬ Forall (λ u, h_parent_block (sh_header u) ∈ found) us
  | Fault _ => False
  end.
Proof.
  induction us as [|u us IH]; cbn [parents_found]; [done|].
  destruct (bool_decide _) eqn:Hd; cbn [negb err_if mbind result_bind].
  - apply bool_decide_eq_true in Hd. destruct (parents_found found us) as [[]|e|f]; [by constructor|rewrite Forall_cons; naive_solver|done].
  - apply bool_decide_eq_false in Hd. split; [by eauto|rewrite Forall_cons; naive_solver].
Qed.

(** The header and the proof of an uncle whose parent has a state. *)
Definition header_ok c u : Prop :=
  h_slot (sh_header u) ≠ 0 ∧ header_signed (sh_header u) (sh_signature u) ∧ ∃ ps, ledger_state c (h_parent_block (sh_header u)) = Some ps ∧
    ledger_verify_pol ps (h_slot (sh_header u)) (h_proof_of_leadership (sh_header u)) (era_schedule (ledger c)) = Ok tt.

(** The check of a proof panics. *)
Definition pol_panics c u (f : fault) : Prop := ∃ ps, ledger_state c (h_parent_block (sh_header u)) = Some ps ∧
  ledger_verify_pol ps (h_slot (sh_header u)) (h_proof_of_leadership (sh_header u)) (era_schedule (ledger c)) = Fault f.

Lemma signed_header_exact u : match signed_header_verify u with
  | Ok _ => h_slot (sh_header u) ≠ 0 ∧ header_signed (sh_header u) (sh_signature u)
  | Err _ => ¬ (h_slot (sh_header u) ≠ 0 ∧ header_signed (sh_header u) (sh_signature u))
  | Fault _ => False
  end.
Proof.
  unfold signed_header_verify, verify_header_alone. destruct (Z.eqb_spec (h_slot (sh_header u)) 0); cbn [err_if map_err mbind result_bind]; [naive_solver|].
  pose proof (signature_check (sh_header u) (sh_signature u)) as Hc. destruct (verify_header_signature _ _) as [[]|e|f]; naive_solver.
Qed.

Lemma uncle_headers_exact c us : Forall (λ u, is_Some (ledger_state c (h_parent_block (sh_header u)))) us →
  match verify_uncle_headers c us with
  | Ok _ => Forall (header_ok c) us
  | Err e => (∃ id reason, e = InvalidUncle id reason) ∧ ¬ Forall (header_ok c) us
  | Fault f => ∃ u, u ∈ us ∧ pol_panics c u f
  end.
Proof.
  induction 1 as [|u us [ps Hps] _ IH]; cbn [verify_uncle_headers]; [done|]. pose proof (signed_header_exact u) as Hh.
  destruct (signed_header_verify u) as [[]|e|f]; cbn [map_err mbind result_bind]; [| |done].
  2:{ split; [by eauto|]. rewrite Forall_cons. unfold header_ok. naive_solver. }
  unfold verify_uncle_pol. rewrite Hps. cbn [expect mbind result_bind].
  destruct (ledger_verify_pol ps _ _ _) as [[]|e|f] eqn:Hpol; cbn [map_err mbind result_bind].
  - destruct (verify_uncle_headers c us) as [[]|e|f].
    + constructor; [|done]. destruct Hh. split_and!; [done..|]. by exists ps.
    + destruct IH as [? Hn]. split; [done|]. by intros [_ ?]%Forall_cons.
    + destruct IH as (v & ? & ?). exists v. split; [by right|done].
  - split; [by eauto|]. intros [(_ & _ & ps' & Hps' & Hok) _]%Forall_cons. rewrite Hps in Hps'. injection Hps' as <-. congruence.
  - exists u. split; [by left|]. by exists ps.
Qed.

(** ** The rules *)

Lemma ancestor_state c blocks par q : chain_inv c blocks → known (tree (consensus c)) par → ancestor (tree (consensus c)) q par →
  is_Some (ledger_state c (b_id q)).
Proof.
  intros HI Hk Ha. apply (ci_states _ _ HI). destruct (ancestor_known _ (inv_tree _ (ci_engine _ _ HI)) q par Hk Ha) as (Hq & _ & _). by exists q.
Qed.

Lemma verify_uncles_ancestry_exact c blocks us par ws : chain_inv c blocks → known (tree (consensus c)) par →
  let off u := ¬ ∃ a, ancestor (tree (consensus c)) a par ∧ ws <= b_slot a ∧ b_id a = header_id (sh_header u) in
  let on u := ∃ q, ancestor (tree (consensus c)) q par ∧ ws <= b_slot q ∧ b_id q = h_parent_block (sh_header u) in
  match verify_uncles_ancestry c us par ws with
  | Ok _ => Forall (λ u, off u ∧ on u) us
  | Err e => (∃ id reason, e = InvalidUncle id reason) ∧ ¬ Forall (λ u, off u ∧ on u) us
  | Fault _ => False
  end.
Proof.
  intros HI Hk off on. pose proof (inv_tree _ (ci_engine _ _ HI)) as WF. destruct (lib_known _ WF) as (r & Hr & _).
  unfold verify_uncles_ancestry. pose proof (ancestry_exact (tree (consensus c)) (uncle_ids us) (uncle_parents us) ws r WF Hr
    (walk_fuel (tree (consensus c))) (Some par) ∅ (walk_room_start _ WF r par Hr Hk)) as Ha. cbn [ahead] in Ha.
  destruct (ancestry_loop _ _ _ _ _ _ _) as [found|e|f]; cbn [mbind result_bind]; [| |done].
  - destruct Ha as [Hn Hf]. assert (Forall off us) as Hoff.
    { apply Forall_forall. intros u Hu (a & ? & ? & Heq). apply Hn. exists a. split_and!; [done..|]. rewrite Heq.
      apply list_elem_of_fmap. by exists u. }
    assert (∀ u, u ∈ us → h_parent_block (sh_header u) ∈ found ↔ on u) as Hon.
    { intros u Hu. rewrite Hf. unfold on. split; [set_solver|]. intros Hq. right. split; [|done]. apply list_elem_of_fmap. by exists u. }
    pose proof (parents_found_exact found us) as Hp. rewrite !Forall_forall in *.
    destruct (parents_found found us) as [[]|e|f]; [|destruct Hp as [? Hp]; split; [done|]|done]; rewrite !Forall_forall in *.
    + intros u Hu. split; [by apply Hoff|]. by apply Hon, Hp.
    + intros Hall. apply Hp. intros u Hu. apply Hon; [done|]. by apply Hall.
  - destruct Ha as (a & Ha & Hs & Hin & ->). split; [by eauto|]. apply list_elem_of_fmap in Hin as (u & Heq & Hu). rewrite Forall_forall.
    intros Hall. destruct (Hall u Hu) as [Hoff _]. apply Hoff. by exists a.
Qed.

Lemma uncle_valid_parts c par slot first ws us : Forall (uncle_valid c par slot first ws) us ↔
  Forall (λ u, first <= h_slot (sh_header u) < slot) us ∧
  Forall (λ u, (¬ ∃ a, ancestor (tree (consensus c)) a par ∧ ws <= b_slot a ∧ b_id a = header_id (sh_header u)) ∧
    ∃ q, ancestor (tree (consensus c)) q par ∧ ws <= b_slot q ∧ b_id q = h_parent_block (sh_header u)) us ∧
  Forall (header_ok c) us.
Proof.
  rewrite <- !Forall_and. apply Forall_iff. intros u. unfold header_ok. split; [intros []; naive_solver|intros (? & [? ?] & ? & ? & ?); by split].
Qed.

(** The rules decide. *)
Lemma verify_uncles_decides c blocks b par era w : chain_inv c blocks → branches (tree (consensus c)) !! h_parent_block (header b) = Some par →
  (∀ E : Type, at_slot (E:=E) (era_schedule (ledger c)) (h_slot (header b)) = Ok era) →
  (∀ E : Type, uncle_reference_window_in_slot (E:=E) (consensus_config (v_parameters era)) = Ok w) →
  let valid := uncle_valid c par (h_slot (header b)) (v_first_slot era) (Z.max 0 (h_slot (header b) - w)) in
  match verify_uncles c b with
  | Ok _ => Forall valid (uncle_headers b)
  | Err e => (∃ id reason, e = InvalidUncle id reason) ∧ ¬ Forall valid (uncle_headers b)
  | Fault f => ∃ u, u ∈ uncle_headers b ∧ pol_panics c u f
  end.
Proof.
  intros HI Hpar Hera Hw valid. unfold verify_uncles. destruct (uncle_headers b) as [|u0 us0] eqn:Hus; [done|].
  rewrite <- Hus. clear Hus u0 us0. set (us := uncle_headers b). rewrite Hpar. cbn [mbind result_bind]. rewrite Hera. cbn [mbind result_bind].
  assert (known (tree (consensus c)) par) as Hk.
  { unfold known. by rewrite (wf_id _ (inv_tree _ (ci_engine _ _ HI)) _ _ Hpar). }
  pose proof (uncle_slots_exact (h_slot (header b)) (v_first_slot era) us) as Hs.
  destruct (verify_uncle_slots _ _ us) as [[]|e|f]; cbn [mbind result_bind]; [| |done].
  2:{ destruct Hs as [? Hn]. split; [done|]. by intros [? _]%uncle_valid_parts. }
  rewrite Hw. cbn [mbind result_bind]. change (saturating_sub (h_slot (header b)) w) with (Z.max 0 (h_slot (header b) - w)).
  pose proof (verify_uncles_ancestry_exact c blocks us par (Z.max 0 (h_slot (header b) - w)) HI Hk) as Ha. cbv zeta in Ha.
  destruct (verify_uncles_ancestry c us par _) as [[]|e|f]; cbn [mbind result_bind]; [| |done].
  2:{ destruct Ha as [? Hn]. split; [done|]. by intros (_ & ? & _)%uncle_valid_parts. }
  assert (Forall (λ u, is_Some (ledger_state c (h_parent_block (sh_header u)))) us) as Hst.
  { eapply Forall_impl; [exact Ha|]. intros u [_ (q & Hq & _ & <-)]. by eapply ancestor_state. }
  pose proof (uncle_headers_exact c us Hst) as Hh. destruct (verify_uncle_headers c us) as [[]|e|f]; [|destruct Hh as [? Hn]; split; [done|]|done].
  - by apply uncle_valid_parts.
  - by intros (_ & _ & ?)%uncle_valid_parts.
Qed.

(** The era of a slot, for the ledger and for the engine. *)
Lemma chain_era c blocks slot : chain_inv c blocks → in_u64 slot → ∃ era w, era ∈ Era.eras (era_schedule (ledger c)) ∧
  (∀ E : Type, at_slot (E:=E) (era_schedule (ledger c)) slot = Ok era) ∧
  (∀ E : Type, uncle_reference_window_in_slot (E:=E) (consensus_config (v_parameters era)) = Ok w) ∧
  (∀ E : Type, at_slot (E:=E) (Engine.era_schedule (consensus c)) slot = Ok (map_view (λ era, consensus_config (v_parameters era)) era)).
Proof.
  intros HI [Hs _]. assert (e_first_slot (s_genesis (era_schedule (ledger c))) = 0) as Hg.
  { pose proof (we_genesis _ (inv_eras _ (ci_engine _ _ HI))) as Hg. by rewrite (ci_eras _ _ HI) in Hg. }
  destruct (at_slot_from_genesis _ slot Hg Hs) as (era & Hin & Hat). destruct (ci_windows _ _ HI era Hin) as [w Hw].
  exists era, w. split_and!; [done..|]. intros E. rewrite (ci_eras _ _ HI). by apply (at_slot_map _ (E:=E)).
Qed.

(** C25: The uncle rules are the documented ones: on a chain that satisfies the
    invariant, the uncles of a block on a known parent are accepted exactly when
    each is before the block and in its era, is not on the chain in the window, has
    its parent on the chain in the window, and has a valid signature and a valid
    leadership proof against the state of that parent; the state always exists, so
    the checks panic only where the ledger's own check of a proof does. *)
Theorem verify_uncles_exact c blocks b par : chain_inv c blocks → in_u64 (h_slot (header b)) →
  branches (tree (consensus c)) !! h_parent_block (header b) = Some par →
  ∃ era w, at_slot (E:=ChainError) (era_schedule (ledger c)) (h_slot (header b)) = Ok era ∧
    uncle_reference_window_in_slot (E:=ChainError) (consensus_config (v_parameters era)) = Ok w ∧
    let valid := uncle_valid c par (h_slot (header b)) (v_first_slot era) (Z.max 0 (h_slot (header b) - w)) in
    match verify_uncles c b with
    | Ok _ => Forall valid (uncle_headers b)
    | Err e => (∃ id reason, e = InvalidUncle id reason) ∧ ¬ Forall valid (uncle_headers b)
    | Fault f => ∃ u, u ∈ uncle_headers b ∧ pol_panics c u f
    end.
Proof.
  intros HI Hs Hpar. destruct (chain_era c blocks _ HI Hs) as (era & w & _ & Hera & Hw & _). exists era, w.
  split_and!; [done..|]. by apply (verify_uncles_decides c blocks).
Qed.

(** ** Selected uncles *)

Lemma load_uncles_elem blocks l u : u ∈ load_uncles blocks l ↔
  ∃ br blk, br ∈ l ∧ blocks !! b_id br = Some blk ∧ u = mkSignedHeader (header blk) (signature blk).
Proof.
  unfold load_uncles, load_blocks. rewrite list_elem_of_fmap. setoid_rewrite list_elem_of_omap. setoid_rewrite list_elem_of_fmap. naive_solver.
Qed.

Lemma load_uncles_length blocks l : (length (load_uncles blocks l) ≤ length l)%nat.
Proof.
  unfold load_uncles, load_blocks. rewrite length_fmap. induction l as [|br l IH]; [done|]. rewrite fmap_cons. cbn [omap list_omap].
  destruct (blocks !! b_id br); cbn [length]; lia.
Qed.

(** A stored block that is eligible as an uncle is a valid one. *)
Lemma eligible_valid c blocks par br slot ws first blk : chain_inv c blocks → known (tree (consensus c)) par →
  eligible (tree (consensus c)) par slot ws first br → blocks !! b_id br = Some blk →
  uncle_valid c par slot first ws (mkSignedHeader (header blk) (signature blk)).
Proof.
  intros HI Hkp (Hk & Hna & Hsl & _ & q & Hq & Haq & Hws) Hb. pose proof (inv_tree _ (ci_engine _ _ HI)) as WF.
  destruct (parent_spec _ WF br q Hk Hq) as (_ & _ & Hnl). destruct (parent_known _ WF br q Hq) as (Hkq & Eq & _).
  destruct (ci_stored _ _ HI br Hk Hnl) as [blk' [Hb' Hid Hpar Hslot ? ? _ (ps & Hps & Hpol)]]. rewrite Hb in Hb'. injection Hb' as <-.
  split; cbn [sh_header sh_signature]; rewrite ?Hslot, ?Hpar; try done.
  - intros (a & Ha & _ & Hai). destruct (ancestor_known _ WF a par Hkp Ha) as (Hka & _ & _).
    assert (a = br) as -> by (apply (known_id_inj _ WF); congruence). done.
  - exists q. split_and!; [done..|by rewrite Eq].
  - by rewrite <- Hslot.
  - by exists ps.
Qed.

Lemma selected_uncles_pass {E : Type} id_le c blocks parent slot : chain_inv c blocks → in_u64 slot →
  (∀ v, v ∈ Era.eras (era_schedule (ledger c)) → 0 <= EngineConfig.max_uncles (consensus_config (v_parameters v))) →
  is_Some (branches (tree (consensus c)) !! parent) →
  ∃ us, service_select_uncles (E:=E) id_le c blocks parent slot = Ok us ∧
    ∀ b, h_parent_block (header b) = parent → h_slot (header b) = slot → uncle_headers b = us →
      verify_uncle_count c b = Ok tt ∧ verify_uncles c b = Ok tt.
Proof.
  intros HI Hs Hmax [par Hpar]. pose proof (inv_tree _ (ci_engine _ _ HI)) as WF.
  destruct (chain_era c blocks slot HI Hs) as (era & w & Hin & Hera & Hw & Hera').
  assert (known (tree (consensus c)) par) as Hk by (unfold known; by rewrite (wf_id _ WF _ _ Hpar)).
  destruct (select_uncles_fits (E:=E) id_le (consensus c) par slot _ w WF Hk (Hera' E) (Hw E)) as (cands & Hsel & Hlen & _ & Hfit & _).
  cbn [map_view v_parameters v_first_slot] in Hlen, Hfit.
  pose proof (load_uncles_length blocks cands) as Hll. set (us := load_uncles blocks cands) in *.
  assert (Z.of_nat (length us) <= EngineConfig.max_uncles (consensus_config (v_parameters era))) as Hc by (specialize (Hmax era Hin); lia).
  exists us. split.
  - unfold service_select_uncles. rewrite Hpar, Hsel. cbn [mbind result_bind]. fold us. rewrite Hera. cbn [mbind result_bind].
    unfold runtime_try_new. by rewrite (proj2 (Z.ltb_ge _ _) Hc).
  - intros b Hbp Hbs Hbu. subst slot parent. split.
    + unfold verify_uncle_count. rewrite Hera, Hbu. cbn [mbind result_bind]. by rewrite (proj2 (Z.ltb_ge _ _) Hc).
    + pose proof (verify_uncles_decides c blocks b par era w HI Hpar Hera Hw) as Hd. cbv zeta in Hd. rewrite Hbu in Hd.
      assert (Forall (uncle_valid c par (h_slot (header b)) (v_first_slot era) (Z.max 0 (h_slot (header b) - w))) us) as Hall.
      { apply Forall_forall. intros u (br & blk & Hbr & Hblk & ->)%load_uncles_elem. rewrite Forall_forall in Hfit. by eapply eligible_valid; [..|apply Hfit|]. }
      destruct (verify_uncles c b) as [[]|e|f]; [done|by destruct Hd|]. destruct Hd as (u & Hu & ps & Hps & Hf).
      rewrite Forall_forall in Hall. destruct (Hall u Hu) as [_ _ _ _ _ (ps' & Hps' & Hok)]. rewrite Hps in Hps'. injection Hps' as <-. congruence.
Qed.

(** The uncles that the service selects for a new block are accepted: a
    block on that parent at that slot with those uncles passes the count and the
    uncle rules of every node whose chain is in the same state, and the selection
    does not panic. *)
Theorem selected_uncles_valid {E : Type} id_le c blocks parent slot : chain_inv c blocks → in_u64 slot →
  (∀ v, v ∈ Era.eras (era_schedule (ledger c)) → 0 <= EngineConfig.max_uncles (consensus_config (v_parameters v))) →
  is_Some (branches (tree (consensus c)) !! parent) →
  ∃ us, service_select_uncles (E:=E) id_le c blocks parent slot = Ok us ∧
    ∀ b, h_parent_block (header b) = parent → h_slot (header b) = slot → uncle_headers b = us →
      verify_uncle_count c b = Ok tt ∧ verify_uncles c b = Ok tt.
Proof. apply selected_uncles_pass. Qed.

End Rules.

End UncleRules.
