(* ===== verification/ChainTheorems.v ===== *)
(** * Processing blocks

    The theorems on the chain service: applying a block either leaves everything
    as it was or keeps the engine, the ledger and the storage in step; the engine
    never rejects what the ledger accepted, and no panic is possible but the
    ledger's own; the transactions that are reported as entering and as leaving the
    canonical chain are exactly those; and the invariant holds in every state the
    service reaches. *)

From S2P Require Import Prelude BlockTree TreeWalks Era EraFacts EngineConfig Engine ForkChoice Pruning EngineInvariant EngineTheorems Uncles MerkleStore Codec CodecLaws Ops OpsCodec Channels Utxos ServiceNotes Inputs ChannelOps SignedTx SdpOps LedgerConfig ClaimOps TxVerification Leaders Pow Markets Cryptarchia Ledger Blocks BlockFacts BlockVerify Chain ChainFacts UncleRules.

#[local] Open Scope Z_scope.

Module ChainTheorems.
Import Canonical Bounded Ops OpsCodec Utxos Channels ServiceNotes Inputs ChannelOps SignedTx SdpOps LedgerConfig ClaimOps TxVerification Leaders Pow Markets Cryptarchia Ledger Blocks BodyRoot BlockFacts BlockVerify Chain ChainLedger ChainFacts UncleRules.

Section Theorems.
Context {T R Params : Type} `{!KeyedStoreOps T NoteId Utxo} `{!Rewards T R Params}.
Context `{Poseidon2Crate} `{Blake2Crate} `{BigUintCrate} `{LotteryCrate} `{Ed25519Crate} `{MultiaddrCrate} `{Ed25519Verify} `{PoCVerify} `{BatchVerify} `{PolVerify} `{HeaderBincode}.
Context {order : SetOrder HeaderId}.
Notation Chain := (ChainState (T:=T) (R:=R) (Params:=Params)).
Implicit Types (c : Chain) (b : Block SignedOps) (blocks : Blocks) (br : Branch HeaderId).

(** ** Transactions of blocks *)

(** Every transaction has a hash. *)
Definition hashed (tx : SignedOps) : Prop := ∃ max, signed_ops_wf max tx.

Lemma hasher_ok {E : Type} tx : hashed tx → tx_hasher (E:=E) tx = Ok (blake2b_256 (payload tx)).
Proof. intros [max Hwf]. unfold tx_hasher. by rewrite (as_signing_ok max tx Hwf). Qed.

Lemma txs_in_blocks_elem (bs : list (Block SignedOps)) tx s :
  (tx, s) ∈ concat (txs_in_block <$> bs) ↔ ∃ blk, blk ∈ bs ∧ tx ∈ transactions blk ∧ s = h_slot (header blk).
Proof.
  rewrite list_elem_of_In, in_concat. setoid_rewrite <- list_elem_of_In. split.
  - intros (l & (blk & -> & Hb)%list_elem_of_fmap & (t & [= -> ->] & Ht)%list_elem_of_fmap). by exists blk.
  - intros (blk & Hb & Ht & ->). exists (txs_in_block blk). split; apply list_elem_of_fmap; [by exists blk|by exists tx].
Qed.

Lemma mapM_hash {E : Type} l : Forall (λ x : SignedOps * Z, hashed x.1) l →
  mapM (hash_in_block (E:=E)) l = Ok ((λ x, (blake2b_256 (payload x.1), x.2)) <$> l).
Proof.
  induction 1 as [|x l Hx _ IH]; [done|]. cbn [mapM]. rewrite IH. unfold hash_in_block. rewrite (hasher_ok x.1 Hx). done.
Qed.

Lemma not_canonical_ok {E : Type} canonical l : Forall (λ x : SignedOps * Z, hashed x.1) l →
  not_canonical (E:=E) canonical l = Ok (filter (λ x, canonical !! blake2b_256 (payload x.1) = None) l).
Proof.
  induction 1 as [|x l Hx _ IH]; [done|]. cbn [not_canonical]. rewrite (hasher_ok x.1 Hx). cbn [mbind result_bind]. rewrite IH.
  cbn [mbind result_bind]. rewrite filter_cons. f_equal. destruct (canonical !! _) eqn:Hc.
  - rewrite bool_decide_true by done. by rewrite decide_False.
  - rewrite bool_decide_false by (by intros []). by rewrite decide_True.
Qed.

(** ** What a block that is applied changes *)

(** The blocks of the change of the canonical chain are stored. *)
Lemma change_stored c blocks b c1 out ps s consensus' outcome : chain_inv c blocks → block_new c b →
  applied_block c b c1 out ps s consensus' outcome → ∃ t1,
  apply_header (tree (consensus c)) (header_id (header b)) (h_parent_block (header b)) (h_slot (header b)) (uncle_slots (uncle_headers b)) = Ok t1 ∧
  (∀ i, i ∈ ap_reorged_blocks out ↔ ∃ x, b_id x = i ∧ ancestor t1 x (local_chain (consensus c)) ∧ ¬ ancestor t1 x (local_chain consensus')) ∧
  (∀ i, i ∈ ap_newly_canonical_blocks out ↔ ∃ x, b_id x = i ∧ ancestor t1 x (local_chain consensus') ∧ ¬ ancestor t1 x (local_chain (consensus c))) ∧
  ∀ x y z, ancestor t1 x y → known t1 y → known t1 z → ¬ ancestor t1 x z →
    ∃ blk, <[header_id (header b) := b]> blocks !! b_id x = Some blk ∧ header_id (header blk) = b_id x ∧ h_slot (header blk) = b_slot x ∧
      Forall hashed (transactions blk).
Proof.
  intros HI HN [Hfr Hps Hpol Hs Hrc _ _ -> ->]. pose proof (new_acceptable c blocks b HI HN Hfr) as HA. pose proof (ci_engine _ _ HI) as WE.
  destruct (receive_inv _ _ _ _ _ _ _ WE HA Hrc) as (t1 & p & nb & L & [Hah X (Enb & _ & Esl & _) WF1 _ [Hkl _] _ _ _ Hcc _]).
  pose proof (inv_tree _ WE) as WF. destruct (inv_local _ WE) as [Hko _].
  assert (known t1 (local_chain (consensus c))) as Hko1 by (apply (ext_known_iff _ _ _ _ WF X); by right).
  exists t1. split; [done|].
  destruct (canonical_change_spec (E:=Error HeaderId) t1 (local_chain (consensus c)) (local_chain consensus') WF1 Hko1 Hkl) as (ro & ad & Hcc' & Hro & Had).
  rewrite Hcc in Hcc'. injection Hcc' as <- <-. split_and!; [done..|].
  intros x y z Hxy Hy Hz Hxz. destruct (ancestor_known _ WF1 x y Hy Hxy) as (Hkx & _ & _).
  apply (ext_known_iff _ _ _ _ WF X) in Hkx as [->|Hkx].
  - exists b. rewrite Enb, Esl. split; [apply lookup_insert_eq|]. split_and!; [done..|]. destruct (bn_txs _ _ HN) as [max Hm].
    eapply Forall_impl; [exact Hm|]. intros t Ht. by exists max.
  - assert (b_id x ≠ lib (tree (consensus c))) as Hnl.
    { intros Heq. apply Hxz. apply (lib_ancestor t1 WF1); [|done]. rewrite (ext_lib _ _ _ _ X), <- Heq.
      apply (ext_known_iff _ _ _ _ WF X). by right. }
    destruct (ci_stored _ _ HI x Hkx Hnl) as [blk [Hb Hid _ Hsl _ _ [max Hm] _]]. exists blk. split_and!; [|done|done|].
    + rewrite <- Hb. apply lookup_insert_ne. intros E. destruct (ext_fresh _ _ _ _ X) as [Hf _]. unfold known in Hkx. congruence.
    + eapply Forall_impl; [exact Hm|]. intros t Ht. by exists max.
Qed.

(** The hash of a transaction that has one. *)
Definition hash_of (tx : SignedOps) : TxHash := blake2b_256 (payload tx).

(** What a report says of the switch from [old] to [new] in the tree [t]. *)
Record canonical_report (t : Branches HeaderId) (old new : Branch HeaderId) blocks (out : ProcessBlockOutcome) : Prop := {
  cr_adopted : ∀ h, is_Some (pr_newly_canonical_txs out !! h) ↔ ∃ x blk tx,
    ancestor t x new ∧ ¬ ancestor t x old ∧ blocks !! b_id x = Some blk ∧ tx ∈ transactions blk ∧ h = hash_of tx;
  cr_slot : ∀ h s, pr_newly_canonical_txs out !! h = Some s → ∃ x blk tx,
    ancestor t x new ∧ ¬ ancestor t x old ∧ blocks !! b_id x = Some blk ∧ tx ∈ transactions blk ∧ h = hash_of tx ∧ s = b_slot x;
  cr_reorged : ∀ tx s, (tx, s) ∈ pr_reorged_txs out ↔ (∃ x blk,
    ancestor t x old ∧ ¬ ancestor t x new ∧ blocks !! b_id x = Some blk ∧ tx ∈ transactions blk ∧ s = b_slot x) ∧
    pr_newly_canonical_txs out !! hash_of tx = None
}.

Lemma collect_map_dom {K V : Type} `{Countable K} (l : list (K * V)) k : is_Some (collect_map l !! k) ↔ ∃ x, (k, x) ∈ l.
Proof.
  unfold collect_map. induction l as [|[k' x'] l IH] using rev_ind; [split; [by intros []|by intros (? & ?%not_elem_of_nil)]|].
  rewrite foldl_snoc. setoid_rewrite elem_of_app. setoid_rewrite list_elem_of_singleton. rewrite lookup_insert_is_Some, IH. split.
  - intros [->|[_ [x Hx]]]; [by exists x'; right|by exists x; left].
  - intros [x [Hx|[= -> ->]]]; [|by left]. destruct (decide (k' = k)); [by left|right; split; [done|by exists x]].
Qed.

Lemma load_blocks_elem blocks ids blk : blk ∈ load_blocks blocks ids ↔ ∃ i, i ∈ ids ∧ blocks !! i = Some blk.
Proof. unfold load_blocks. apply list_elem_of_omap. Qed.

(** The blocks whose transactions are reported as newly canonical: those adopted. *)
Lemma adopted_blocks b blocks ids blk : blocks !! header_id (header b) = Some b →
  blk ∈ load_blocks blocks (filter (λ id, id ≠ header_id (header b)) ids) ++ (if bool_decide (header_id (header b) ∈ ids) then [b] else []) ↔
  blk ∈ load_blocks blocks ids.
Proof.
  intros Hb. rewrite elem_of_app, !load_blocks_elem. setoid_rewrite list_elem_of_filter. split.
  - intros [(i & [_ ?] & ?)|Hin]; [by exists i|]. case_bool_decide as Hd; [|by apply not_elem_of_nil in Hin].
    apply list_elem_of_singleton in Hin as ->. by exists (header_id (header b)).
  - intros (i & Hi & Hbi). destruct (decide (i = header_id (header b))) as [->|Hne]; [right|left; by exists i].
    rewrite bool_decide_true by done. rewrite Hb in Hbi. injection Hbi as ->. apply list_elem_of_singleton. done.
Qed.

Lemma reports_ok {E : Type} (t : Branches HeaderId) old new b blocks ro ad pruned : blocks !! header_id (header b) = Some b →
  (∀ i, i ∈ ro ↔ ∃ x, b_id x = i ∧ ancestor t x old ∧ ¬ ancestor t x new) →
  (∀ i, i ∈ ad ↔ ∃ x, b_id x = i ∧ ancestor t x new ∧ ¬ ancestor t x old) →
  (∀ x, (ancestor t x new ∧ ¬ ancestor t x old) ∨ (ancestor t x old ∧ ¬ ancestor t x new) →
    ∃ blk, blocks !! b_id x = Some blk ∧ h_slot (header blk) = b_slot x ∧ Forall hashed (transactions blk)) →
  ∃ newly reorged, newly_canonical_txs (E:=E) b ad blocks = Ok newly ∧ reorged_txs (E:=E) ro newly blocks = Ok reorged ∧
    canonical_report t old new blocks (mkProcessed pruned ro reorged newly).
Proof.
  intros Hb Hro Had Hst. unfold newly_canonical_txs. rewrite <- concat_app, <- fmap_app.
  set (bs := load_blocks blocks (filter (λ id, id ≠ header_id (header b)) ad) ++ _).
  assert (∀ blk, blk ∈ bs ↔ ∃ x, ancestor t x new ∧ ¬ ancestor t x old ∧ blocks !! b_id x = Some blk) as Hbs.
  { intros blk. unfold bs. rewrite (adopted_blocks b blocks ad blk Hb), load_blocks_elem. setoid_rewrite Had. naive_solver. }
  rewrite mapM_hash.
  2:{ apply Forall_forall. intros [tx s] (blk & (x & ? & ? & Hx)%Hbs & Htx & _)%txs_in_blocks_elem. cbn.
      destruct (Hst x) as (blk' & Hx' & _ & Hh); [by left|]. rewrite Hx in Hx'. injection Hx' as <-. rewrite Forall_forall in Hh. by apply Hh. }
  cbn [mbind result_bind]. set (newly := collect_map _). eexists newly, _. split; [done|]. unfold reorged_txs. split.
  { apply not_canonical_ok. apply Forall_forall. intros [tx s] (blk & (i & (x & <- & ? & ?)%Hro & Hx)%load_blocks_elem & Htx & _)%txs_in_blocks_elem. cbn.
    destruct (Hst x) as (blk' & Hx' & _ & Hh); [by right|]. rewrite Hx in Hx'. injection Hx' as <-. rewrite Forall_forall in Hh. by apply Hh. }
  assert (∀ h s, (h, s) ∈ ((λ x : SignedOps * Z, (blake2b_256 (payload x.1), x.2)) <$> concat (txs_in_block <$> bs)) ↔
    ∃ x blk tx, ancestor t x new ∧ ¬ ancestor t x old ∧ blocks !! b_id x = Some blk ∧ tx ∈ transactions blk ∧ h = hash_of tx ∧ s = b_slot x) as Hn.
  { intros h s. rewrite list_elem_of_fmap. split.
    - intros ([tx s'] & [= -> ->] & (blk & (x & ? & ? & Hx)%Hbs & Htx & ->)%txs_in_blocks_elem). exists x, blk, tx.
      destruct (Hst x) as (blk' & Hx' & Hsl & _); [by left|]. rewrite Hx in Hx'. injection Hx' as <-. done.
    - intros (x & blk & tx & ? & ? & Hx & Htx & -> & ->). exists (tx, b_slot x). split; [done|]. apply txs_in_blocks_elem.
      destruct (Hst x) as (blk' & Hx' & Hsl & _); [by left|]. rewrite Hx in Hx'. injection Hx' as <-. exists blk. rewrite Hbs. split; [by exists x|done]. }
  split; cbn [pr_newly_canonical_txs pr_reorged_txs].
  - intros h. unfold newly. rewrite collect_map_dom. setoid_rewrite Hn. naive_solver.
  - intros h s Hs. apply Hn. by apply collect_map_in.
  - intros tx s. rewrite (list_elem_of_filter _ _ (tx, s)), txs_in_blocks_elem. setoid_rewrite load_blocks_elem. cbn [fst]. split.
    + intros [Hnn (blk & (i & (x & <- & ? & ?)%Hro & Hx) & Htx & ->)]. split; [|done]. exists x, blk.
      destruct (Hst x) as (blk' & Hx' & Hsl & _); [by right|]. rewrite Hx in Hx'. injection Hx' as <-. done.
    + intros [(x & blk & ? & ? & Hx & Htx & ->) Hnn]. split; [done|]. exists blk.
      destruct (Hst x) as (blk' & Hx' & Hsl & _); [by right|]. rewrite Hx in Hx'. injection Hx' as <-. split; [|done].
      exists (b_id x). split; [|done]. apply Hro. by exists x.
Qed.

(** ** When a block is applied *)

Definition block_update c b := prepare_update (ledger c) (header_id (header b)) (h_parent_block (header b)) (h_slot (header b))
  (h_proof_of_leadership (header b)) (uncle_slots (uncle_headers b)) (transactions b).

(** What a block is checked for. *)
Record block_accepted c b (current_slot : Z) (origin : BlockOrigin) : Prop := {
  ba_new : ledger_state c (header_id (header b)) = None;
  ba_count : verify_uncle_count c b = Ok tt;
  ba_network : origin = Network → h_slot (header b) <= current_slot ∧ verify_uncles c b = Ok tt;
  ba_ledger : ∃ u v, block_update c b = Ok u ∧ verify_batch_proofs u = Ok v
}.

(** The panics of the ledger. *)
Definition ledger_panics c b (f : fault) : Prop := block_update c b = Fault f ∨ ∃ u, u ∈ uncle_headers b ∧ pol_panics c u f.

Lemma parent_missing_err {A} c blocks p : chain_inv c blocks → ∃ info, parent_missing (A:=A) c p = Err (ChainParentMissing p info).
Proof.
  intros HI. destruct (lib_known _ (inv_tree _ (ci_engine _ _ HI))) as (r & Hr & _). unfold parent_missing, chain_info, lib_branch.
  rewrite Hr. by eexists.
Qed.

(** The errors of a chain whose storage works. *)
Definition chain_error (e : ChainError) : Prop := match e with ChainConsensus _ | ChainStorage => False | _ => True end.

Lemma verify_uncles_outcome c blocks b : chain_inv c blocks → in_u64 (h_slot (header b)) →
  match verify_uncles c b with
  | Ok _ => True
  | Err e => chain_error e
  | Fault f => ∃ u, u ∈ uncle_headers b ∧ pol_panics c u f
  end.
Proof.
  intros HI Hs. destruct (branches (tree (consensus c)) !! h_parent_block (header b)) as [par|] eqn:Hp.
  - destruct (chain_era c blocks _ HI Hs) as (era & w & _ & Hera & Hw & _).
    pose proof (verify_uncles_decides c blocks b par era w HI Hp Hera Hw) as Hd. destruct (verify_uncles c b) as [|e|f]; [done| |done].
    by destruct Hd as [(id & reason & ->) _].
  - unfold verify_uncles. destruct (uncle_headers b); [done|]. rewrite Hp.
    by destruct (parent_missing_err (A:=Branch HeaderId) c blocks (h_parent_block (header b)) HI) as [info ->].
Qed.

(** The engine accepts what the ledger accepted. *)
Lemma chain_receive_ok c blocks b u : chain_inv c blocks → block_new c b → ledger_state c (header_id (header b)) = None →
  block_update c b = Ok u → ∃ r, chain_receive c (header_id (header b)) (h_parent_block (header b)) (h_slot (header b)) (uncle_slots (uncle_headers b)) = Ok r.
Proof.
  intros HI HN Hfr Hu. unfold block_update, prepare_update in Hu. peel Hu as ps Hps. apply ok_or_ok in Hps. peel Hu as [[s ev] d] Hup.
  apply try_update_slot in Hup as (Hlt & _). destruct (proj1 (ci_states _ _ HI _) (mk_is_Some _ _ Hps)) as [p Hp].
  pose proof (ci_slots _ _ HI _ _ _ Hps Hp) as Hsp.
  destruct (receive_unfold (consensus c) (header_id (header b)) (h_parent_block (header b)) (h_slot (header b)) (uncle_slots (uncle_headers b)) p
    (ci_engine _ _ HI) (new_acceptable c blocks b HI HN Hfr) Hp) as (c' & out & t1 & nb & L & Hok & _); [lia|].
  unfold chain_receive. rewrite Hok. by eexists.
Qed.

Lemma try_apply_exact c blocks b current_slot origin : chain_inv c blocks → block_new c b →
  match try_apply_block c b current_slot origin with
  | Ok _ => block_accepted c b current_slot origin
  | Err e => ¬ block_accepted c b current_slot origin ∧ chain_error e
  | Fault f => ledger_panics c b f
  end.
Proof.
  intros HI HN. unfold try_apply_block. destruct (ledger_state c (header_id (header b))) as [s|] eqn:Hn.
  { rewrite (bool_decide_true (is_Some (Some s))) by (by eexists). cbn [err_if mbind result_bind]. split; [|done]. intros []. congruence. }
  rewrite (bool_decide_false (is_Some None)) by (by intros []). cbn [err_if mbind result_bind].
  assert (match verify_uncle_count c b with Ok _ => True | Err e => ∃ n m, e = TooManyUncles n m | Fault _ => False end) as Hco.
  { destruct (chain_era c blocks _ HI (bn_slot _ _ HN)) as (era & w & _ & Hera & _). unfold verify_uncle_count. rewrite Hera. cbn.
    destruct (_ <? _); cbn; [by eexists _, _|done]. }
  destruct (verify_uncle_count c b) as [[]|e|f] eqn:Hcount; cbn [mbind result_bind];
    [|destruct Hco as (n & m & ->); split; [intros []; congruence|done]|done].
  pose proof (verify_uncles_outcome c blocks b HI (bn_slot _ _ HN)) as Huo.
  assert (match (if bool_decide (origin = Network) then err_if (current_slot <? h_slot (header b)) (FutureBlock (h_slot (header b)) current_slot);;
      verify_uncles c b else Ok tt) with
    | Ok _ => origin = Network → h_slot (header b) <= current_slot ∧ verify_uncles c b = Ok tt
    | Err e => ¬ (origin = Network → h_slot (header b) <= current_slot ∧ verify_uncles c b = Ok tt) ∧ chain_error e
    | Fault f => ledger_panics c b f end) as Hor.
  { case_bool_decide as Ho; [|naive_solver]. destruct (Z.ltb_spec current_slot (h_slot (header b))); cbn [err_if mbind result_bind].
    { split; [|done]. intros Hx. destruct (Hx Ho). lia. }
    destruct (verify_uncles c b) as [[]|e|f] eqn:Hv; [done| |by right]. split; [intros Hx; by destruct (Hx Ho)|].
    done. }
  destruct (if bool_decide (origin = Network) then _ else _) as [[]|e|f]; cbn [mbind result_bind];
    [|destruct Hor as [Hno ?]; split; [by intros []|done]|done].
  unfold chain_prepare. fold (block_update c b). destruct (block_update c b) as [u|e|f] eqn:Hu; [| |by left].
  2:{ assert (¬ block_accepted c b current_slot origin) as Hna by (intros [_ _ _ (u & v & ? & _)]; congruence).
      destruct e; try (split; [done|done]).
      match goal with |- context [parent_missing c ?p] => by destruct (parent_missing_err (A:=PreparedUpdate (T:=T) (R:=R) (Id:=HeaderId)) c blocks p HI) as [info ->] end. }
  cbn [mbind result_bind]. destruct (verify_batch_proofs u) as [v|e|f] eqn:Hv; cbn [map_err mbind result_bind].
  2:{ split; [intros [_ _ _ (u' & v & ? & ?)]; congruence|done]. }
  2:{ unfold verify_batch_proofs, deferred_verify, verify_zk_sigs, verify_leader_claims in Hv. by repeat (case_match || cbn in Hv). }
  destruct (chain_receive_ok c blocks b u HI HN Hn Hu) as [[cons outcome] ->]. cbn [mbind result_bind commit_update].
  split; [done..|]. by exists u, v.
Qed.

(** ** Processing *)

Lemma process_outcome c blocks b current_slot origin written : chain_inv c blocks → block_new c b →
  match process_block c blocks b current_slot origin written with
  | Ok (c', blocks', out) => (block_accepted c b current_slot origin ∧ written = true) ∧
      (chain_inv c' blocks' ∧ blocks' = <[header_id (header b) := b]> blocks) ∧
      ∃ t1, apply_header (tree (consensus c)) (header_id (header b)) (h_parent_block (header b)) (h_slot (header b))
          (uncle_slots (uncle_headers b)) = Ok t1 ∧
        canonical_report t1 (local_chain (consensus c)) (local_chain (consensus c')) blocks' out
  | Err e => (¬ block_accepted c b current_slot origin ∧ chain_error e) ∨ (written = false ∧ e = ChainStorage)
  | Fault f => ledger_panics c b f
  end.
Proof.
  intros HI HN. pose proof (try_apply_exact c blocks b current_slot origin HI HN) as Ht. unfold process_block.
  destruct (try_apply_block c b current_slot origin) as [[c1 out]|e|f] eqn:Happ; cbn [mbind result_bind]; [|by left|done].
  apply try_apply_inv in Happ as (ps & s & cons & outcome & HA).
  destruct (applied_keeps c blocks b c1 out ps s cons outcome HI HN HA) as [HI' Hfound].
  pose proof (prune_ledger_states_ok c1 (pruned_iter (ap_pruned_blocks out))) as Hp.
  destruct (prune_ledger_states c1 _) as [c' found]. cbn [fst snd] in *. destruct Hp as (Ec & _).
  destruct (lib_known _ (inv_tree _ (ci_engine _ _ HI'))) as (r & Hr & _). rewrite Ec in Hr. unfold lib_branch. rewrite Hr. cbn [expect mbind result_bind].
  destruct written; cbn [negb err_if mbind result_bind]; [|by right].
  destruct (change_stored c blocks b c1 out ps s cons outcome HI HN HA) as (t1 & Hah & Hro & Had & Hst).
  assert (consensus c1 = cons) as Ec1 by (by rewrite (ab_chain _ _ _ _ _ _ _ _ HA)).
  pose proof (new_acceptable c blocks b HI HN (ab_fresh _ _ _ _ _ _ _ _ HA)) as Hacc.
  destruct (receive_inv _ _ _ _ _ _ _ (ci_engine _ _ HI) Hacc (ab_receive _ _ _ _ _ _ _ _ HA)) as (t1' & p & nb & L & [Hah' X _ WF1 _ [Hkl _] _ _ _ _ _]).
  assert (t1' = t1) as -> by congruence. destruct (inv_local _ (ci_engine _ _ HI)) as [Hko _].
  assert (known t1 (local_chain (consensus c))) as Hko1 by (apply (ext_known_iff _ _ _ _ (inv_tree _ (ci_engine _ _ HI)) X); by right).
  destruct (reports_ok (E:=ChainError) t1 (local_chain (consensus c)) (local_chain cons) b (<[header_id (header b) := b]> blocks) (ap_reorged_blocks out)
    (ap_newly_canonical_blocks out) (ap_pruned_blocks out)) as (newly & reorged & Hn & Hr' & Hrep); [apply lookup_insert_eq|done|done| |].
  { intros x [[Hx Hnx]|[Hx Hnx]]; [destruct (Hst x _ _ Hx Hkl Hko1 Hnx) as (blk & ? & _ & ? & ?)|destruct (Hst x _ _ Hx Hko1 Hkl Hnx) as (blk & ? & _ & ? & ?)];
      by exists blk. }
  rewrite Hn. cbn [mbind result_bind]. rewrite Hr'. cbn [mbind result_bind]. split_and!; [done..|]. exists t1. split; [done|]. by rewrite Ec, Ec1.
Qed.

(** C7: Processing a block is all or nothing and keeps the parts in step: it
    succeeds exactly when the block is new, its uncles pass the rules, the ledger
    accepts it and it is stored, and then the ledger again has a state for exactly
    the blocks of the tree, with the block stored; the engine never refuses what the
    ledger accepted, and the only panics are the ledger's own. *)
Theorem process_block_safe c blocks b current_slot origin written : chain_inv c blocks → block_new c b →
  match process_block c blocks b current_slot origin written with
  | Ok (c', blocks', _) => block_accepted c b current_slot origin ∧ written = true ∧ chain_inv c' blocks' ∧
      blocks' = <[header_id (header b) := b]> blocks
  | Err e => (¬ block_accepted c b current_slot origin ∧ chain_error e) ∨ (written = false ∧ e = ChainStorage)
  | Fault f => ledger_panics c b f
  end.
Proof.
  intros HI HN. pose proof (process_outcome c blocks b current_slot origin written HI HN) as Hp.
  destruct (process_block _ _ _ _ _ _) as [[[c' blocks'] out]|e|f]; [|done..]. by destruct Hp as ([? ?] & [? ?] & _).
Qed.

(** The transactions reported for the mempool are exactly those of the
    switch: the newly canonical ones are those of the blocks of the new chain that
    are not on the old, each with the slot of such a block, and those handed back
    are those of the blocks of the old chain that are not on the new and whose hash
    is not among the newly canonical, each with the slot of its block. *)
Theorem reorg_transactions c blocks b current_slot origin written c' blocks' out : chain_inv c blocks → block_new c b →
  process_block c blocks b current_slot origin written = Ok (c', blocks', out) →
  ∃ t1, apply_header (tree (consensus c)) (header_id (header b)) (h_parent_block (header b)) (h_slot (header b))
      (uncle_slots (uncle_headers b)) = Ok t1 ∧
    canonical_report t1 (local_chain (consensus c)) (local_chain (consensus c')) blocks' out.
Proof.
  intros HI HN Hok. pose proof (process_outcome c blocks b current_slot origin written HI HN) as Hp. rewrite Hok in Hp. by destruct Hp as (_ & _ & ?).
Qed.

(** ** The states that the service reaches *)

Inductive chain_reachable : Chain → Blocks → Prop :=
  | reach_start lib_id lib_parent s gid eras st slot len uncles blocks c :
      wf_eras (engine_eras eras) →
      (∀ v, v ∈ Era.eras eras → ∃ w, ∀ E : Type, uncle_reference_window_in_slot (E:=E) (consensus_config (v_parameters v)) = Ok w) →
      in_u64 slot → in_u64 len → state_slot s = slot →
      chain_from_lib (E:=ChainError) lib_id lib_parent s gid eras st slot len uncles = Ok c → chain_reachable c blocks
  | reach_process c blocks b current_slot origin written c' blocks' out : chain_reachable c blocks → block_new c b →
      process_block c blocks b current_slot origin written = Ok (c', blocks', out) → chain_reachable c' blocks'
  | reach_online c blocks c' p : chain_reachable c blocks → chain_online (E:=ChainError) c = Ok (c', p) → chain_reachable c' blocks
  | reach_forget c blocks id : chain_reachable c blocks → has_block c id = false → chain_reachable c (delete id blocks).

Lemma start_inv lib_id lib_parent (s : LedgerState T R) gid eras st slot len uncles blocks c : wf_eras (engine_eras eras) →
  (∀ v, v ∈ Era.eras eras → ∃ w, ∀ E : Type, uncle_reference_window_in_slot (E:=E) (consensus_config (v_parameters v)) = Ok w) →
  in_u64 slot → in_u64 len → state_slot s = slot →
  chain_from_lib (E:=ChainError) lib_id lib_parent s gid eras st slot len uncles = Ok c → chain_inv c blocks.
Proof.
  intros WE Hw Hs Hl Hss Hc. unfold chain_from_lib, block_ledger_new in Hc. peel Hc as lg Hlg. peel Hlg as m Hm. injection Hlg as <-. injection Hc as <-.
  pose proof (start_wf lib_id lib_parent (engine_eras eras) st slot len uncles WE Hs Hl) as WF. split; try done; unfold ledger_state; cbn.
  - intros id. destruct (decide (lib_id = id)) as [->|Hne]; [by rewrite !lookup_singleton_eq|by rewrite !lookup_singleton_ne].
  - intros id s' br [_ <-]%lookup_singleton_Some [_ <-]%lookup_singleton_Some. done.
  - intros br Hk Hn. unfold known in Hk. cbn in Hk. apply lookup_singleton_Some in Hk as [Hk _]. by destruct Hn.
Qed.

(** C14: In every state that the chain service reaches, from a latest immutable
    block through any blocks, the switch to online and the removal of pruned blocks
    from storage, the ledger has a state for exactly the blocks of the tree, in the
    slots of the blocks, slots increase along chains, and every block above the
    latest immutable one is stored with a header whose identifier, parent, slot,
    signature and leadership proof are those of the block. *)
Theorem chain_in_step c blocks : chain_reachable c blocks → chain_inv c blocks ∧ strict_slots (tree (consensus c)).
Proof.
  intros Hr. assert (chain_inv c blocks) as HI; [|split; [done|by eapply chain_strict]].
  induction Hr as [lib_id lib_parent s gid eras st slot len uncles blocks c WE Hw Hs Hl Hss Hc
                  |c blocks b current_slot origin written c' blocks' out _ IH HN Hok|c blocks c' p _ IH Ho|c blocks id _ IH Hn].
  - exact (start_inv lib_id lib_parent s gid eras st slot len uncles blocks c WE Hw Hs Hl Hss Hc).
  - pose proof (process_outcome c blocks b current_slot origin written IH HN) as Hp. rewrite Hok in Hp. by destruct Hp as (_ & [? _] & _).
  - destruct (online_keeps (E:=ChainError) c blocks IH) as (c1 & p1 & Ho1 & HI & _). rewrite Ho in Ho1. by injection Ho1 as <- <-.
  - destruct IH as [? ? ? ? ? Hst]. split; try done. intros br Hk Hnl. destruct (Hst br Hk Hnl) as [blk Hb]. exists blk.
    eapply stored_block_mono; [done..|]. apply lookup_delete_ne. intros ->. unfold has_block in Hn.
    apply bool_decide_eq_false in Hn. apply Hn. by exists br.
Qed.

End Theorems.

End ChainTheorems.
