(* ===== verification/TxSelection.v ===== *)
(** * Selecting transactions and proposing a block

    services/chain/chain-leader/src/tx_selection.rs, with [propose_block] and
    [txs_for_block] of lib.rs: the candidates of the mempool are tried in rounds
    against the state that the header leaves, as long as a round adds some; the
    selected ones that fit the limits of the era make the block. *)

From S2P Require Import Prelude Era EngineConfig MerkleStore Codec Ops Channels Utxos ServiceNotes Inputs ChannelOps SignedTx SdpOps LedgerConfig ClaimOps TxVerification Leaders Pow Markets Cryptarchia Ledger Blocks Chain.

#[local] Open Scope Z_scope.

Module TxSelection.
Import Canonical Bounded Ops Utxos Channels ServiceNotes Inputs ChannelOps SignedTx SdpOps LedgerConfig ClaimOps TxVerification Leaders Pow Markets Cryptarchia Ledger Blocks Chain.

(** [AssemblyState]. *)
Inductive AssemblyState := Progress | NoProgress | GasCapacityReached.

Section Selection.
Context {T R Params : Type} `{!KeyedStoreOps T NoteId Utxo} `{!Rewards T R Params}.
Context `{Poseidon2Crate} `{Blake2Crate} `{Ed25519Crate} `{MultiaddrCrate} `{Ed25519Verify} `{PoCVerify} `{BatchVerify}.
Implicit Types (s : LedgerState T R) (eras : EraSchedule (LedgerConfig.Config Params)) (tx : SignedOps).
#[local] Notation leader_result := (result (LedgerError HeaderId)).

(** [BlockBuilder]. *)
Record BlockBuilder := mkBuilder { bb_state : LedgerState T R; bb_gas : GasAndFees }.

(** [BlockBuilder::try_add_transaction]. *)
Definition try_add_transaction (b : BlockBuilder) tx eras : leader_result (BlockBuilder * DeferredProofs) :=
  c ← config_for_slot eras (cl_slot (cryptarchia_ledger (bb_state b)));
  let max_gas := max_gas_per_block (execution_market c) in
  '(s, gas_and_fees, _, deferred_proofs) ← try_apply_transaction (bb_state b) eras tx;
  gas_and_fees ← gas_and_fees_add (bb_gas b) gas_and_fees max_gas;
  Ok (mkBuilder s gas_and_fees, deferred_proofs).

(** What a round of [select_transactions] carries. *)
Record Assembly := mkAssembly {
  as_builder : BlockBuilder;
  as_selected : list SignedOps;
  as_invalid : list TxHash;
  as_still_pending : list SignedOps;
  as_state : AssemblyState
}.

(** The cases of one candidate: the round goes on, or stops at the gas limit. *)
Definition keep_pending (a : Assembly) tx : Assembly :=
  mkAssembly (as_builder a) (as_selected a) (as_invalid a) (as_still_pending a ++ [tx]) (as_state a).
Definition mark_invalid {E : Type} (a : Assembly) tx : result E Assembly :=
  h ← tx_hasher tx;
  Ok (mkAssembly (as_builder a) (as_selected a) (as_invalid a ++ [h]) (as_still_pending a) (as_state a)).
Definition select_tx (a : Assembly) (b : BlockBuilder) tx : Assembly :=
  mkAssembly b (as_selected a ++ [tx]) (as_invalid a) (as_still_pending a) Progress.
Definition stop_at_gas (a : Assembly) : Assembly :=
  mkAssembly (as_builder a) (as_selected a) (as_invalid a) (as_still_pending a) GasCapacityReached.

Definition try_candidate {E : Type} (max_transactions_size : Z) eras (a : Assembly) tx : result E (Assembly * bool) :=
  size ← storage_size tx;
  if max_transactions_size <? size then a ← mark_invalid a tx; Ok (a, true)
  else match try_add_transaction (as_builder a) tx eras with
       | Ok (b, deferred_proofs) =>
           match deferred_verify deferred_proofs with
           | Ok _ => Ok (select_tx a b tx, true)
           | Err _ => Ok (keep_pending a tx, true)
           | Fault f => Fault f
           end
       | Err (TooMuchExecutionGas _ _) => Ok (stop_at_gas a, false)
       | Err (TooMuchTransactionExecutionGas _ _) => a ← mark_invalid a tx; Ok (a, true)
       | Err _ => Ok (keep_pending a tx, true)
       | Fault f => Fault f
       end.

(** The [for] loop of a round. *)
Fixpoint select_round {E : Type} (max_transactions_size : Z) eras (a : Assembly) (pending : list SignedOps) : result E Assembly :=
  match pending with
  | [] => Ok a
  | tx :: pending =>
      '(a, continue) ← try_candidate max_transactions_size eras a tx;
      if (continue : bool) then select_round max_transactions_size eras a pending else Ok a
  end.

(** The [while] loop. *)
Fixpoint select_rounds {E : Type} (fuel : nat) (max_transactions_size : Z) eras (b : BlockBuilder) (selected : list SignedOps)
    (invalid : list TxHash) (pending : list SignedOps) : result E Assembly :=
  match fuel with
  | O => Fault OutOfFuel
  | S fuel =>
      a ← select_round max_transactions_size eras (mkAssembly b selected invalid [] NoProgress) pending;
      match as_state a with
      | Progress => select_rounds fuel max_transactions_size eras (as_builder a) (as_selected a) (as_invalid a) (as_still_pending a)
      | _ => Ok a
      end
  end.

(** [TransactionSelection]. *)
Record TransactionSelection := mkSelection {
  ts_ledger_state : LedgerState T R;
  ts_selected_txs : list SignedOps;
  ts_invalid_tx_hashes : list TxHash
}.

(** The hashes to evict: those marked, and those never applicable unless the gas limit was reached. *)
Definition invalid_hashes {E : Type} (a : Assembly) : result E (list TxHash) :=
  match as_state a with
  | GasCapacityReached => Ok (as_invalid a)
  | _ => hashes ← mapM tx_hasher (as_still_pending a); Ok (as_invalid a ++ hashes)
  end.

(** [select_transactions]; every round but the last takes a candidate out of those pending. *)
Definition select_transactions {E : Type} s (pending : list SignedOps) eras : result E TransactionSelection :=
  c ← config_for_slot eras (cl_slot (cryptarchia_ledger s));
  a ← select_rounds (S (length pending)) (LedgerConfig.max_transactions_size c) eras (mkBuilder s gas_and_fees_default) [] [] pending;
  invalid ← invalid_hashes a;
  Ok (mkSelection (bb_state (as_builder a)) (as_selected a) invalid).

(** The loop of [txs_for_block]. *)
Fixpoint fitting_txs {E : Type} (max_transactions max_transactions_size : Z) (selected : list SignedOps) (block_transactions_size : Z)
    (txs : list SignedOps) : result E (list SignedOps) :=
  if Z.of_nat (length selected) <? max_transactions then
    match txs with
    | [] => Ok selected
    | tx :: txs =>
        tx_size ← storage_size tx;
        match checked_add usize_max block_transactions_size tx_size with
        | None => Ok selected
        | Some next =>
            if max_transactions_size <? next then Ok selected
            else fitting_txs max_transactions max_transactions_size (selected ++ [tx]) next txs
        end
    end
  else Ok selected.

(** [txs_for_block]. *)
Definition txs_for_block {E : Type} (txs : list SignedOps) (max_transactions max_transactions_size : Z) : result E (list SignedOps) :=
  selected ← fitting_txs max_transactions max_transactions_size [] 0 txs;
  match runtime_try_new selected max_transactions with Ok txs => Ok txs | _ => Fault Unwrap end.

(** [Error] of the leader, as far as a proposal returns it. *)
Inductive LeaderError :=
  | FetchBlockTransactions
  | LeaderLedger (e : LedgerError HeaderId)
  | LeaderBlock (e : BlockError).

Context `{BigUintCrate} `{LotteryCrate} `{PolVerify} `{HeaderBincode} {SigningKey : Type} `{!Ed25519Sign SigningKey}.

(** [propose_block]: the block, and the hashes that the mempool is asked to drop.
    [mempool] is the view of the mempool and [uncles] the answer of the chain
    service, or the error of either. *)
Definition propose_block (parent : HeaderId) (slot : Z) (proof : Groth16LeaderProof) (signing_key : SigningKey)
    (mempool : option (list SignedOps)) (uncles : option (list SignedHeader)) s eras
    : result LeaderError (Block SignedOps * list TxHash) :=
  candidates ← ok_or mempool FetchBlockTransactions;
  let uncles := default [] uncles in
  '(s, _) ← map_err LeaderLedger (try_apply_header s slot proof (uncle_slots uncles) eras);
  selection ← select_transactions s candidates eras;
  c ← config_for_slot eras slot;
  txs ← txs_for_block (ts_selected_txs selection) (LedgerConfig.max_transactions c) (LedgerConfig.max_transactions_size c);
  b ← map_err LeaderBlock (create parent slot uncles proof txs (LedgerConfig.max_transactions_size c) signing_key);
  Ok (b, ts_invalid_tx_hashes selection).

End Selection.

End TxSelection.
