(* ===== verification/SelectionFacts.v ===== *)
(** * Facts on the selection of transactions

    The rounds of [select_transactions] end, since every round but the last selects
    a candidate; the selected transactions apply one after the other from the state
    given; every candidate is selected, evicted or left for later; and a candidate
    is evicted only if it can never fit or is not applicable to the final state. *)

From S2P Require Import Prelude Era EngineConfig MerkleStore Codec CodecLaws Ops OpsCodec Channels Utxos ServiceNotes Inputs ChannelOps SignedTx SdpOps LedgerConfig ClaimOps TxVerification Leaders Pow Markets Cryptarchia Ledger Blocks BlockFacts BlockVerify Chain ChainFacts TxSelection.

#[local] Open Scope Z_scope.

Module SelectionFacts.
Import Canonical Bounded Ops OpsCodec Utxos Channels ServiceNotes Inputs ChannelOps SignedTx SdpOps LedgerConfig ClaimOps TxVerification Leaders Pow Markets Cryptarchia Ledger Blocks BodyRoot BlockFacts BlockVerify Chain ChainLedger TxSelection.

Section Facts.
Context {T R Params : Type} `{!KeyedStoreOps T NoteId Utxo} `{!Rewards T R Params}.
Context `{Poseidon2Crate} `{Blake2Crate} `{Ed25519Crate} `{MultiaddrCrate} `{Ed25519Verify} `{PoCVerify} `{BatchVerify}.
Context (eras : EraSchedule (LedgerConfig.Config Params)).
Notation Builder := (BlockBuilder (T:=T) (R:=R)).
Notation Assembly := (Assembly (T:=T) (R:=R)).
Implicit Types (s : LedgerState T R) (tx : SignedOps) (txs pending : list SignedOps) (b : Builder) (a : Assembly).

(** A run of additions, each with its proofs verified. *)
Inductive added b0 : list SignedOps → Builder → Prop :=
  | added_nil : added b0 [] b0
  | added_snoc txs b tx b' d : added b0 txs b → try_add_transaction b tx eras = Ok (b', d) → deferred_verify d = Ok tt → added b0 (txs ++ [tx]) b'.

(** A candidate that is within the size limit and is not applicable. *)
Definition rejected (max : Z) b tx : Prop := size_of tx <= max ∧
  match try_add_transaction b tx eras with Ok (_, d) => deferred_verify d ≠ Ok tt | Err _ => True | Fault _ => False end.

(** A candidate that no block of the era carries. *)
Definition never_fits (max : Z) b0 tx : Prop := max < size_of tx ∨
  ∃ txs b gas limit, added b0 txs b ∧ try_add_transaction b tx eras = Err (TooMuchTransactionExecutionGas gas limit).

Definition hash_of tx : TxHash := blake2b_256 (payload tx).

(** A candidate in the range of the machine. *)
Definition candidate_ok tx : Prop := (∃ m, signed_ops_wf m tx) ∧ size_of tx <= usize_max.

Lemma candidate_size {E : Type} tx : candidate_ok tx → storage_size (E:=E) tx = Ok (size_of tx).
Proof. intros [[m Hm] Hs]. by apply (size_ok m). Qed.

Lemma candidate_hash {E : Type} tx : candidate_ok tx → tx_hasher (E:=E) tx = Ok (hash_of tx).
Proof. intros [[m Hm] _]. unfold tx_hasher. by rewrite (as_signing_ok m tx Hm). Qed.

Lemma deferred_no_fault (d : DeferredProofs) f : deferred_verify d ≠ Fault f.
Proof. unfold deferred_verify, verify_zk_sigs, verify_leader_claims. by repeat (case_match || cbn). Qed.

(** ** A round *)

(** What a round did: the candidates it selected, dropped, kept and did not reach. *)
Record round_ok (max : Z) b0 a pending a' (sel drop still untried : list SignedOps) : Prop := {
  ro_selected : as_selected a' = as_selected a ++ sel;
  ro_invalid : as_invalid a' = as_invalid a ++ (hash_of <$> drop);
  ro_still : as_still_pending a' = as_still_pending a ++ still;
  ro_all : sel ++ drop ++ still ++ untried ≡ₚ pending;
  ro_added : added b0 (as_selected a') (as_builder a');
  ro_drop : Forall (never_fits max b0) drop;
  ro_state : match as_state a' with
    | NoProgress => as_state a = NoProgress ∧ sel = [] ∧ untried = [] ∧ as_builder a' = as_builder a ∧ Forall (rejected max (as_builder a)) still
    | Progress => untried = [] ∧ (as_state a = NoProgress → sel ≠ [])
    | GasCapacityReached => ∃ tx gas limit, tx ∈ untried ∧ try_add_transaction (as_builder a') tx eras = Err (TooMuchExecutionGas gas limit)
    end
}.

(** The ledger panics on a candidate. *)
Definition selection_panics b0 pending (f : fault) : Prop := ∃ txs b tx, added b0 txs b ∧ tx ∈ pending ∧ try_add_transaction b tx eras = Fault f.

(** The three ways to go on after a candidate. *)
Lemma round_select max b0 a b tx pending a' sel drop still untried :
  round_ok max b0 (select_tx a b tx) pending a' sel drop still untried → round_ok max b0 a (tx :: pending) a' (tx :: sel) drop still untried.
Proof.
  intros [Q1 Q2 Q3 Q4 Q5 Q6 Q7]. cbn [select_tx as_selected as_invalid as_still_pending as_state as_builder] in *. split; try done.
  - by rewrite Q1, <- app_assoc.
  - cbn [app]. by rewrite Q4.
  - destruct (as_state a'); [|by destruct Q7|done]. destruct Q7 as [? _]. split; [done|]. by intros _.
Qed.

Lemma round_keep max b0 a tx pending a' sel drop still untried : rejected max (as_builder a) tx →
  round_ok max b0 (keep_pending a tx) pending a' sel drop still untried → round_ok max b0 a (tx :: pending) a' sel drop (tx :: still) untried.
Proof.
  intros Hr [Q1 Q2 Q3 Q4 Q5 Q6 Q7]. cbn [keep_pending as_selected as_invalid as_still_pending as_state as_builder] in *. split; try done.
  - by rewrite Q3, <- app_assoc.
  - rewrite <- Q4. cbn [app]. by rewrite !Permutation_middle.
  - destruct (as_state a'); [done| |done]. destruct Q7 as (? & ? & ? & ? & ?). split_and!; try done. by constructor.
Qed.

Lemma round_drop max b0 a tx pending a' sel drop still untried : never_fits max b0 tx →
  round_ok max b0 (mkAssembly (as_builder a) (as_selected a) (as_invalid a ++ [hash_of tx]) (as_still_pending a) (as_state a)) pending a' sel drop still untried →
  round_ok max b0 a (tx :: pending) a' sel (tx :: drop) still untried.
Proof.
  intros Hr [Q1 Q2 Q3 Q4 Q5 Q6 Q7]. cbn [as_selected as_invalid as_still_pending as_state as_builder] in *. split; try done.
  - rewrite Q2, fmap_cons, <- app_assoc. done.
  - rewrite <- Q4. cbn [app]. by rewrite !Permutation_middle.
  - by constructor.
Qed.

Lemma panics_cons b0 tx pending f : selection_panics b0 pending f → selection_panics b0 (tx :: pending) f.
Proof. intros (txs & b & t & ? & ? & ?). exists txs, b, t. split_and!; [done|by right|done]. Qed.

Lemma round_spec {E : Type} max b0 pending : Forall candidate_ok pending → ∀ a, as_state a ≠ GasCapacityReached → added b0 (as_selected a) (as_builder a) →
  match select_round (E:=E) max eras a pending with
  | Ok a' => ∃ sel drop still untried, round_ok max b0 a pending a' sel drop still untried
  | Err _ => False
  | Fault f => selection_panics b0 pending f
  end.
Proof.
  induction 1 as [|tx pending Htx _ IH]; intros a Hst Hadd; cbn [select_round].
  { exists [], [], [], []. split; rewrite ?app_nil_r; try done. by destruct (as_state a). }
  assert (∀ a1 (Q : Assembly → Prop), as_state a1 ≠ GasCapacityReached → added b0 (as_selected a1) (as_builder a1) →
    (∀ a' sel drop still untried, round_ok max b0 a1 pending a' sel drop still untried → Q a') →
    match select_round (E:=E) max eras a1 pending with Ok a' => Q a' | Err _ => False | Fault f => selection_panics b0 (tx :: pending) f end) as Hgo.
  { intros a1 Q Hs1 Ha1 HQ. specialize (IH a1 Hs1 Ha1). destruct (select_round max eras a1 pending) as [a'|e|f]; [|done|by apply panics_cons].
    destruct IH as (sel & drop & still & untried & Hr). by eapply HQ. }
  unfold try_candidate. rewrite (candidate_size tx Htx). cbn [mbind result_bind]. unfold mark_invalid.
  destruct (Z.ltb_spec max (size_of tx)) as [Hsz|Hsz].
  { rewrite (candidate_hash tx Htx). cbn [mbind result_bind]. apply Hgo; [done..|]. intros a' sel drop still untried Hr.
    exists sel, (tx :: drop), still, untried. apply round_drop; [by left|done]. }
  destruct (try_add_transaction (as_builder a) tx eras) as [[b d]|e|f] eqn:Htry.
  - pose proof (deferred_no_fault d) as Hnf. destruct (deferred_verify d) as [[]|e|f] eqn:Hd; [| |by destruct (Hnf f)]; cbn [mbind result_bind]; (apply Hgo; [done..| |]).
    + cbn. by eapply added_snoc.
    + intros a' sel drop still untried Hr. exists (tx :: sel), drop, still, untried. by eapply round_select.
    + done.
    + intros a' sel drop still untried Hr. exists sel, drop, (tx :: still), untried. apply round_keep; [|done].
      split; [done|]. rewrite Htry. congruence.
  - assert (rejected max (as_builder a) tx) as Hrej by (split; [done|by rewrite Htry]).
    assert (match select_round (E:=E) max eras (keep_pending a tx) pending with
      | Ok a' => ∃ sel drop still untried, round_ok max b0 a (tx :: pending) a' sel drop still untried
      | Err _ => False | Fault f => selection_panics b0 (tx :: pending) f end) as Hkeep.
    { apply Hgo; [done..|]. intros a' sel drop still untried Hr. exists sel, drop, (tx :: still), untried. by apply round_keep. }
    destruct e; try exact Hkeep.
    + cbn [mbind result_bind]. rewrite (candidate_hash tx Htx). cbn [mbind result_bind]. apply Hgo; [done..|]. intros a' sel drop still untried Hr.
      exists sel, (tx :: drop), still, untried. apply round_drop; [|done]. right. by eexists _, _, _, _.
    + cbn [mbind result_bind]. exists [], [], [], (tx :: pending). split; cbn; rewrite ?app_nil_r; try done. exists tx. eexists _, _. split; [left|exact Htry].
  - cbn [mbind result_bind]. exists (as_selected a), (as_builder a), tx. split_and!; [done|by left|done].
Qed.

(** ** The rounds *)

(** Where the rounds stop. *)
Record rounds_ok (max : Z) b0 (sel0 : list SignedOps) (inv0 : list TxHash) pending a (sel drop untried : list SignedOps) : Prop := {
  rs_selected : as_selected a = sel0 ++ sel;
  rs_invalid : as_invalid a = inv0 ++ (hash_of <$> drop);
  rs_all : sel ++ drop ++ as_still_pending a ++ untried ≡ₚ pending;
  rs_added : added b0 (as_selected a) (as_builder a);
  rs_drop : Forall (never_fits max b0) drop;
  rs_state : match as_state a with
    | NoProgress => untried = [] ∧ Forall (rejected max (as_builder a)) (as_still_pending a)
    | GasCapacityReached => ∃ tx gas limit, tx ∈ untried ∧ try_add_transaction (as_builder a) tx eras = Err (TooMuchExecutionGas gas limit)
    | Progress => False
    end
}.

Lemma rounds_spec {E : Type} max b0 fuel : ∀ b sel0 inv0 pending, (length pending < fuel)%nat → Forall candidate_ok pending → added b0 sel0 b →
  match select_rounds (E:=E) fuel max eras b sel0 inv0 pending with
  | Ok a => ∃ sel drop untried, rounds_ok max b0 sel0 inv0 pending a sel drop untried
  | Err _ => False
  | Fault f => selection_panics b0 pending f
  end.
Proof.
  induction fuel as [|fuel IH]; intros b sel0 inv0 pending Hf Hok Hadd; [lia|]. cbn [select_rounds].
  pose proof (round_spec (E:=E) max b0 pending Hok (mkAssembly b sel0 inv0 [] NoProgress) ltac:(done) Hadd) as Hr.
  destruct (select_round max eras _ pending) as [a1|e|f]; cbn [mbind result_bind]; [|done..].
  destruct Hr as (sel & drop & still & untried & [R1 R2 R3 R4 R5 R6 R7]). cbn [as_selected as_invalid as_still_pending as_state as_builder app] in *.
  destruct (as_state a1) eqn:Hst.
  - destruct R7 as [-> Hsel]. rewrite app_nil_r in R4. pose proof (Permutation_length R4) as Hlen. rewrite !length_app in Hlen.
    assert (0 < length sel)%nat by (destruct sel; [by destruct (Hsel eq_refl)|cbn; lia]).
    assert (Forall candidate_ok still) as Hok'.
    { rewrite <- R4 in Hok. by apply Forall_app in Hok as [_ [_ ?]%Forall_app]. }
    specialize (IH (as_builder a1) (as_selected a1) (as_invalid a1) (as_still_pending a1)). rewrite R3 in IH |- *. specialize (IH ltac:(lia) Hok' R5).
    destruct (select_rounds fuel max eras _ _ _ still) as [a|e|f]; [|done|].
    + destruct IH as (sel' & drop' & untried' & [S1 S2 S3 S4 S5 S6]). exists (sel ++ sel'), (drop ++ drop'), untried'. split; try done.
      * by rewrite S1, R1, app_assoc.
      * by rewrite S2, R2, fmap_app, app_assoc.
      * rewrite <- R4, <- S3. solve_Permutation.
      * by apply Forall_app.
    + destruct IH as (txs & b' & tx & ? & Hin & ?). exists txs, b', tx. split_and!; [done| |done]. rewrite <- R4. set_solver.
  - destruct R7 as (_ & -> & -> & Hb & Hrej). exists [], drop, []. split; try done; [by rewrite R3|]. by rewrite Hst, R3, Hb.
  - exists sel, drop, untried. split; try done; [by rewrite R3|]. by rewrite Hst.
Qed.

Lemma mapM_hasher {E : Type} txs : Forall candidate_ok txs → mapM (tx_hasher (E:=E)) txs = Ok (hash_of <$> txs).
Proof. induction 1 as [|tx txs Htx _ IH]; [done|]. cbn [mapM]. rewrite (candidate_hash tx Htx), IH. done. Qed.

(** What a selection is. *)
Record selection_ok (max : Z) s pending (sel : TransactionSelection (T:=T) (R:=R)) b (invalid untried : list SignedOps) : Prop := {
  so_added : added (mkBuilder s gas_and_fees_default) (ts_selected_txs sel) b;
  so_state : ts_ledger_state sel = bb_state b;
  so_all : ts_selected_txs sel ++ invalid ++ untried ≡ₚ pending;
  so_hashes : ts_invalid_tx_hashes sel = hash_of <$> invalid;
  so_invalid : Forall (λ tx, never_fits max (mkBuilder s gas_and_fees_default) tx ∨ rejected max b tx) invalid;
  so_untried : untried ≠ [] → ∃ tx gas limit, tx ∈ untried ∧ try_add_transaction b tx eras = Err (TooMuchExecutionGas gas limit)
}.

Lemma selection_outcome {E : Type} s pending c : config_for_slot (E:=E) eras (cl_slot (cryptarchia_ledger s)) = Ok c → Forall candidate_ok pending →
  match select_transactions (E:=E) s pending eras with
  | Ok sel => ∃ b invalid untried, selection_ok (LedgerConfig.max_transactions_size c) s pending sel b invalid untried
  | Err _ => False
  | Fault f => selection_panics (mkBuilder s gas_and_fees_default) pending f
  end.
Proof.
  intros Hc Hok. unfold select_transactions. rewrite Hc. cbn [mbind result_bind]. set (b0 := mkBuilder s gas_and_fees_default).
  pose proof (rounds_spec (E:=E) (LedgerConfig.max_transactions_size c) b0 (S (length pending)) b0 [] [] pending ltac:(lia) Hok (added_nil b0)) as Hr.
  destruct (select_rounds _ _ _ _ _ _ _) as [a|e|f]; cbn [mbind result_bind]; [|done..].
  destruct Hr as (sel & drop & untried & [R1 R2 R3 R4 R5 R6]). cbn [app] in *. unfold invalid_hashes.
  assert (Forall candidate_ok (as_still_pending a)) as Hst.
  { rewrite <- R3 in Hok. by apply Forall_app in Hok as [_ [_ [? _]%Forall_app]%Forall_app]. }
  destruct (as_state a) eqn:Hs; [done| |].
  - destruct R6 as [-> Hrej]. rewrite (mapM_hasher _ Hst). cbn [mbind result_bind]. exists (as_builder a), (drop ++ as_still_pending a), [].
    split; cbn [ts_selected_txs ts_ledger_state ts_invalid_tx_hashes]; try done.
    + by rewrite R1, <- R3, <- !app_assoc.
    + by rewrite R2, fmap_app.
    + apply Forall_app. split; [eapply Forall_impl; [exact R5|by left]|eapply Forall_impl; [exact Hrej|by right]].
  - cbn [mbind result_bind]. exists (as_builder a), drop, (as_still_pending a ++ untried). split; cbn [ts_selected_txs ts_ledger_state ts_invalid_tx_hashes]; try done.
    + by rewrite R1, <- R3.
    + eapply Forall_impl; [exact R5|by left].
    + intros _. destruct R6 as (tx & gas & limit & ? & ?). exists tx, gas, limit. split; [set_solver|done].
Qed.

(** C17: The selection of transactions for a block returns, unless the ledger
    panics on a candidate: the selected transactions apply one after the other from
    the given state, with their proofs, to the state returned; every candidate is
    selected, evicted or left in the mempool; those evicted are larger than a block
    of the era, need more gas than a block has, or are not applicable to the state
    returned; and some are left only when the gas limit was reached. *)
Theorem selection_spec {E : Type} s pending c : config_for_slot (E:=E) eras (cl_slot (cryptarchia_ledger s)) = Ok c → Forall candidate_ok pending →
  match select_transactions (E:=E) s pending eras with
  | Ok sel => ∃ b invalid untried, selection_ok (LedgerConfig.max_transactions_size c) s pending sel b invalid untried
  | Err _ => False
  | Fault f => selection_panics (mkBuilder s gas_and_fees_default) pending f
  end.
Proof. apply selection_outcome. Qed.

End Facts.

End SelectionFacts.
