(* ===== verification/Proposals.v ===== *)
(** * Proposals that are accepted

    A leader selects transactions against the state its header leaves, while the
    block they end up in is also recorded among the blocks seen before they are
    applied. The two states differ in the anchors and the spent tickets of the
    proof-of-work rewards only, and what applies to the first applies to the second.
    Hence a proposed block is accepted by a chain in the state it was built on. *)

From S2P Require Import Prelude BlockTree TreeWalks Era EraFacts EngineConfig Engine EngineInvariant EngineTheorems Uncles MerkleStore Codec CodecLaws Ops OpsCodec Channels Utxos ServiceNotes Inputs ChannelOps SignedTx SdpOps LedgerConfig ClaimOps TxVerification Leaders Pow PowTheorems Markets Cryptarchia Ledger LedgerInvariant BlockTheorems Blocks BlockFacts BlockVerify Chain ChainFacts UncleRules ChainTheorems TxSelection SelectionFacts.

#[local] Open Scope Z_scope.

Module Proposals.
Import Canonical Bounded Ops OpsCodec Utxos Channels ServiceNotes Inputs ChannelOps SignedTx SdpOps LedgerConfig ClaimOps TxVerification Leaders Pow PowTheorems Markets Cryptarchia Ledger LedgerInvariant BlockTheorems Blocks BodyRoot BlockFacts BlockVerify Chain ChainLedger ChainFacts UncleRules ChainTheorems TxSelection SelectionFacts.

(** ** States that differ in what proof-of-work claims have seen *)

Section Seen.
Context {T R Params Id : Type} `{!KeyedStoreOps T NoteId Utxo} `{!Rewards T R Params}.
Context `{Poseidon2Crate} `{Blake2Crate} `{Ed25519Crate} `{MultiaddrCrate} `{Ed25519Verify} `{PoCVerify}.
Context (eras : EraSchedule (Config Params)).
Implicit Types (s : LedgerState T R) (c : Config Params) (tx : SignedOps) (op : SignedOp) (p q : PowState).

Definition with_pow s p : LedgerState T R :=
  let m := mantle_ledger s in with_mantle s (mkMantle (m_channels m) (m_sdp m) (m_leaders m) p).

(** An anchor is in the window of the slot [now]. *)
Definition in_window (now anchor : Z) : Prop := ∃ v, (∀ E : Type, at_slot (E:=E) (pow_slot_windows eras) anchor = Ok v) ∧ anchor <= now ∧ now - anchor <= v_parameters v.

(** [q] accepts the claims that [p] accepts at [now]. *)
Record accepts_more (now : Z) p q : Prop := {
  am_density : ps_tx_density q = ps_tx_density p;
  am_pool : reward_pool (ps_reward q) = reward_pool (ps_reward p);
  am_reward : epoch_reward (ps_reward q) = epoch_reward (ps_reward p);
  am_difficulty : reward_difficulty (ps_reward q) = reward_difficulty (ps_reward p);
  am_refill : refill_rewards (ps_reward q) = refill_rewards (ps_reward p);
  am_nullifiers : ∀ n, is_Some (nullifiers (ps_reward q) !! n) → is_Some (nullifiers (ps_reward p) !! n);
  am_blocks : ∀ h anchor, block_slots (ps_reward p) !! h = Some anchor → in_window now anchor → block_slots (ps_reward q) !! h = Some anchor
}.

(** Recording a new block as seen accepts as much. *)
Lemma add_seen_accepts {E : Type} p q hash slot : block_slots (ps_reward p) !! hash = None →
  add_seen_block (E:=E) p hash slot (pow_slot_windows eras) = Ok q → accepts_more slot p q.
Proof.
  intros Hn Hq. unfold add_seen_block in Hq. peel Hq as slots Hslots. peel Hq as nfs Hnfs. injection Hq as <-. split; try done; cbn.
  - intros n [a Ha]. apply (prune_ok _ _ _ _ Hnfs) in Ha as [? _]. by exists a.
  - intros h anchor Hh (v & Hv & Hle & Hw). apply (prune_ok _ _ _ _ Hslots). split.
    + rewrite lookup_insert_ne; [done|]. intros <-. congruence.
    + unfold is_within_slot_window. rewrite Hv. cbn [mbind result_bind]. f_equal. apply Z.leb_le. unfold saturating_sub. lia.
Qed.

Lemma at_slot_any {P : Type} {E F : Type} (sched : EraSchedule P) slot v : at_slot (E:=E) sched slot = Ok v → at_slot (E:=F) sched slot = Ok v.
Proof. unfold at_slot. intros Hv%expect_ok. by rewrite Hv. Qed.

Notation slot_of s := (cl_slot (cryptarchia_ledger s)).
Notation pow_of s := (m_pow (mantle_ledger s)).
Notation helper s := (helper_of (mantle_ledger s) (cryptarchia_ledger s) eras).

(** A claim that is accepted has its anchor in the window, and is accepted with more. *)
Lemma claim_accepted_more s q (op : ClaimPowRewardOp) : accepts_more (slot_of s) (pow_of s) q → pow_claim_verify op (pow_verification (helper s)) = Ok tt →
  pow_claim_verify op (pow_verification (helper (with_pow s q))) = Ok tt ∧
  ∃ anchor, block_slots (ps_reward (pow_of s)) !! cp_block_hash op = Some anchor ∧ block_slots (ps_reward q) !! cp_block_hash op = Some anchor.
Proof.
  intros [_ Hpool Hrew Hdiff _ Hnf Hbl] Hv. unfold pow_claim_verify in *. cbn [pow_verification helper_of h_pow_slot_windows] in *.
  peel Hv as [] He. peel Hv as [] Hnonce. peel Hv as [] Hacc. peel Hv as [] Hd.
  unfold are_pow_reward_enabled, validate_enough_funds_in_pool, validate_epoch_nonce, accept_claim, validate_difficulty_reward, validate_double_claiming in *.
  cbn in *. peel Hacc as anchor Ha. apply ok_or_ok in Ha. peel Hacc as v Hvw. peel Hacc as gap Hgap. apply ok_or_ok, checked_sub_Some in Hgap as [-> Hle].
  apply err_if_ok, Z.ltb_ge in Hacc. apply err_if_ok, bool_decide_eq_false in Hv.
  assert (block_slots (ps_reward q) !! cp_block_hash op = Some anchor) as Hq.
  { apply Hbl; [done|]. exists v. split; [intros E; by eapply at_slot_any|]. lia. }
  split; [|by exists anchor]. rewrite Hpool, Hrew, Hdiff, Hq, He, Hnonce. cbn [mbind result_bind ok_or]. rewrite Hvw. cbn [mbind result_bind].
  unfold checked_sub. rewrite (proj2 (Z.leb_le _ _) Hle). cbn [ok_or mbind result_bind]. rewrite (proj2 (Z.ltb_ge _ _) Hacc).
  cbn [err_if mbind result_bind]. rewrite Hd. cbn [mbind result_bind]. rewrite bool_decide_false; [done|]. intros Hs. by apply Hv, Hnf.
Qed.

Lemma verified_more s q op index tx_hash d d' : accepts_more (slot_of s) (pow_of s) q →
  into_verified op index tx_hash (helper s) d = Ok d' → into_verified op index tx_hash (helper (with_pow s q)) d = Ok d'.
Proof.
  intros Hm Hv. destruct op; try exact Hv. cbn [into_verified] in *. peel Hv as [] Hc. apply map_err_ok in Hc.
  destruct (claim_accepted_more s q _ Hm Hc) as [-> _]. exact Hv.
Qed.

(** An operation that is not a claim does not see the difference. *)
Definition pow_result q (r : result (LedgerError Id) (LedgerState T R * Z * list TxEvent)) : result (LedgerError Id) (LedgerState T R * Z * list TxEvent) :=
  match r with Ok (s, balance, ev) => Ok (with_pow s q, balance, ev) | Err e => Err e | Fault f => Fault f end.

Definition is_claim op : bool := match op with SignedClaimPow _ => true | _ => false end.

Ltac both_sides := repeat match goal with
  | |- context [?m ≫= _] => lazymatch m with context [_ ≫= _] => fail | _ => destruct m; cbn [mbind result_bind]; [|done..] end
  | p : (_ * _)%type |- _ => destruct p
  end.

Lemma apply_op_other s q op c tx_hash balance ev : is_claim op = false →
  try_apply_op (Id:=Id) (with_pow s q) op c tx_hash balance ev = pow_result q (try_apply_op (Id:=Id) s op c tx_hash balance ev).
Proof.
  intros Hop. destruct op; try done; cbn [try_apply_op]; unfold with_pow, with_mantle; cbn [mantle_ledger cryptarchia_ledger m_channels m_sdp m_leaders];
    unfold pow_result; both_sides; done.
Qed.

Lemma apply_op_keeps_pow s op c tx_hash balance ev : is_claim op = false →
  returns (λ '(s', _, _), pow_of s' = pow_of s) (try_apply_op (Id:=Id) s op c tx_hash balance ev).
Proof.
  intros Hop. destruct op; try done; cbn [try_apply_op]; unfold check_op_data_size, try_apply_transfer; returning.
Qed.

(** A claim spends the same ticket from the same pool. *)
Lemma apply_claim_more s q cop c tx_hash balance ev s1 balance1 ev1 : accepts_more (slot_of s) (pow_of s) q →
  pow_claim_verify cop (pow_verification (helper s)) = Ok tt →
  try_apply_op (Id:=Id) s (SignedClaimPow cop) c tx_hash balance ev = Ok (s1, balance1, ev1) →
  ∃ q1, try_apply_op (Id:=Id) (with_pow s q) (SignedClaimPow cop) c tx_hash balance ev = Ok (with_pow s1 q1, balance1, ev1) ∧
    accepts_more (slot_of s1) (pow_of s1) q1.
Proof.
  intros Hm Hv Hop. destruct (claim_accepted_more s q cop Hm Hv) as (_ & anchor & Ha & Hqa). destruct Hm as [Hden Hpool Hrew Hdiff Href Hnf Hbl].
  cbn [try_apply_op] in *. unfold with_pow, with_mantle. cbn [mantle_ledger cryptarchia_ledger m_channels m_sdp m_leaders m_pow].
  peel Hop as [r evs] He. injection Hop as <- <- <-. unfold pow_claim_execute in *. cbn [pe_block_slots pe_epoch_reward pe_utxos pe_reward_pool pe_nullifiers] in *.
  rewrite Ha in He. rewrite Hqa, Hrew, Hpool. cbn [expect mbind result_bind] in *. peel He as id Hid. peel He as us Hus. peel He as pool Hpl. injection He as <- <-.
  rewrite Hid. cbn [mbind result_bind]. rewrite Hus. cbn [mbind result_bind]. rewrite Hpl. cbn [mbind result_bind pe_utxos pe_nullifiers pe_reward_pool].
  eexists. split; [done|]. split; cbn; try done.
  intros n. rewrite !lookup_insert_is_Some. naive_solver.
Qed.

Lemma apply_op_more s q op c tx_hash index balance ev d d' s1 balance1 ev1 : accepts_more (slot_of s) (pow_of s) q →
  into_verified op index tx_hash (helper s) d = Ok d' → try_apply_op (Id:=Id) s op c tx_hash balance ev = Ok (s1, balance1, ev1) →
  ∃ q1, try_apply_op (Id:=Id) (with_pow s q) op c tx_hash balance ev = Ok (with_pow s1 q1, balance1, ev1) ∧ accepts_more (slot_of s1) (pow_of s1) q1.
Proof.
  intros Hm Hv Hop. destruct (is_claim op) eqn:Hc.
  - destruct op as [| | | | | | | | | |cop]; try done. eapply apply_claim_more; [done| |done]. cbn [into_verified] in Hv. peel Hv as [] Hcv. by apply map_err_ok in Hcv.
  - exists q. rewrite (apply_op_other s q op c tx_hash balance ev Hc), Hop. split; [done|].
    pose proof (apply_op_keeps_pow s op c tx_hash balance ev Hc _ Hop) as Hp. pose proof (apply_op_slot s op c tx_hash balance ev _ Hop) as Hs.
    cbn in Hp, Hs. unfold state_slot in Hs. by rewrite Hp, Hs.
Qed.

Lemma apply_ops_more c tx_hash ops : ∀ s q index balance gas ev d s' balance' gas' ev' d', accepts_more (slot_of s) (pow_of s) q →
  apply_ops (Id:=Id) s eras c tx_hash index balance gas ev d ops = Ok (s', balance', gas', ev', d') →
  ∃ q', apply_ops (Id:=Id) (with_pow s q) eras c tx_hash index balance gas ev d ops = Ok (with_pow s' q', balance', gas', ev', d') ∧
    accepts_more (slot_of s') (pow_of s') q'.
Proof.
  induction ops as [|op ops IH]; intros s q index balance gas ev d s' b' g' ev' d' Hm Hrun; cbn [apply_ops] in *.
  { injection Hrun as <- <- <- <- <-. by exists q. }
  peel Hrun as d1 Hv. apply map_err_ok in Hv. peel Hrun as g1 Hg1. peel Hrun as g2 Hg2. peel Hrun as [[s1 b1] ev1] Hop.
  destruct (apply_op_more s q op c tx_hash index balance ev d d1 s1 b1 ev1 Hm Hv Hop) as (q1 & Hop' & Hm1).
  destruct (IH s1 q1 (index + 1) b1 g2 ev1 d1 s' b' g' ev' d' Hm1 Hrun) as (q' & Hrun' & Hm'). exists q'. split; [|done].
  rewrite (verified_more s q op index tx_hash d d1 Hm Hv). cbn [map_err mbind result_bind].
  cbn [with_pow with_mantle mantle_ledger m_channels] in *. rewrite Hg1. cbn [mbind result_bind]. rewrite Hg2. cbn [mbind result_bind].
  rewrite Hop'. cbn [mbind result_bind]. exact Hrun'.
Qed.

(** A transaction. *)
Lemma apply_tx_more s q tx s' g ev d : accepts_more (slot_of s) (pow_of s) q →
  try_apply_transaction (Id:=Id) s eras tx = Ok (s', g, ev, d) →
  ∃ q', try_apply_transaction (Id:=Id) (with_pow s q) eras tx = Ok (with_pow s' q', g, ev, d) ∧ accepts_more (slot_of s') (pow_of s') q'.
Proof.
  intros Hm Hrun. unfold try_apply_transaction, try_apply_tx_operations in *. change (cl_slot (cryptarchia_ledger (with_pow s q))) with (slot_of s).
  peel Hrun as [[[[s1 b] gas] evs] df] Hops. peel Hops as c Hc. peel Hops as [] Hf. peel Hops as h Hh.
  destruct (apply_ops_more c h _ s q _ _ _ _ _ _ _ _ _ _ Hm Hops) as (q' & Hops' & Hm').
  rewrite Hc. cbn [mbind result_bind]. rewrite Hf. cbn [mbind result_bind]. rewrite Hh. cbn [mbind result_bind]. rewrite Hops'. cbn [mbind result_bind].
  peel Hrun as sg Hsg. peel Hrun as x Hx. peel Hrun as y Hy. peel Hrun as z Hz. peel Hrun as [] Hb. peel Hrun as t Ht. injection Hrun as <- <- <- <-.
  change (cryptarchia_ledger (with_pow s1 q')) with (cryptarchia_ledger s1).
  rewrite Hsg. cbn [mbind result_bind]. rewrite Hx. cbn [mbind result_bind]. rewrite Hy. cbn [mbind result_bind]. rewrite Hz. cbn [mbind result_bind].
  rewrite Hb. cbn [mbind result_bind]. rewrite Ht. cbn [mbind result_bind]. by exists q'.
Qed.

(** ** The transactions of a block *)

Lemma apply_txs_app c txs1 txs2 : Forall candidate_ok txs1 → ∀ s index size g ev d, 0 <= size → size + total_size txs1 <= usize_max →
  apply_txs (Id:=Id) s eras c index size g ev d (txs1 ++ txs2) =
  ('(s, g, ev, d) ← apply_txs (Id:=Id) s eras c index size g ev d txs1;
   apply_txs (Id:=Id) s eras c (index + Z.of_nat (length txs1)) (size + total_size txs1) g ev d txs2).
Proof.
  induction 1 as [|tx txs1 Htx _ IH]; intros s index size g ev d Hs Hle; cbn [apply_txs app].
  { cbn [mbind result_bind length]. by rewrite !Z.add_0_r. }
  change (total_size (tx :: txs1)) with (size_of tx + total_size txs1) in *. pose proof (size_of_pos tx). pose proof (total_size_nonneg txs1).
  destruct (err_if (LedgerConfig.max_transactions c <=? index) _) as [[]|e|f]; [|done..]. cbn [mbind result_bind]. rewrite (candidate_size tx Htx). cbn [mbind result_bind].
  assert (saturating_add usize_max size (size_of tx) = size + size_of tx) as -> by (unfold saturating_add; lia).
  destruct (err_if (LedgerConfig.max_transactions_size c <? _) _) as [[]|e|f]; [|done..]. cbn [mbind result_bind].
  destruct (try_apply_transaction s eras tx) as [[[[s1 g1] ev1] d1]|e|f]; [|done..]. cbn [mbind result_bind].
  destruct (gas_and_fees_add g g1 _) as [g2|e|f]; [|done..]. cbn [mbind result_bind]. rewrite IH by lia.
  cbn [length]. rewrite Nat2Z.inj_succ, <- Z.add_1_r, <- !Z.add_assoc, (Z.add_comm (Z.of_nat (length txs1)) 1). done.
Qed.

End Seen.

(** Batches of proofs that are accepted are accepted together. *)
Class BatchLaws `{BatchVerify} : Prop := {
  zksign_batch_app l1 l2 : zksign_batch_verify l1 = Some true → zksign_batch_verify l2 = Some true → zksign_batch_verify (l1 ++ l2) = Some true;
  poc_batch_app l1 l2 : poc_batch_verify l1 = Some true → poc_batch_verify l2 = Some true → poc_batch_verify (l1 ++ l2) = Some true
}.

Lemma extend_verifies `{BatchVerify} `{!BatchLaws} d1 d2 : deferred_verify d1 = Ok tt → deferred_verify d2 = Ok tt →
  deferred_verify (deferred_extend d1 d2) = Ok tt.
Proof.
  assert (∀ l, verify_zk_sigs l = Ok tt ↔ l = [] ∨ zksign_batch_verify l = Some true) as Hz.
  { intros [|x l]; cbn; [naive_solver|]. destruct (zksign_batch_verify (x :: l)) as [[]|]; naive_solver. }
  assert (∀ l, verify_leader_claims l = Ok tt ↔ l = [] ∨ poc_batch_verify l = Some true) as Hp.
  { intros [|x l]; cbn; [naive_solver|]. destruct (poc_batch_verify (x :: l)) as [[]|]; naive_solver. }
  unfold deferred_verify, deferred_extend. cbn [zk_sigs leader_claims]. rewrite !result_bind_ok. intros ([] & Hz1 & Hp1) ([] & Hz2 & Hp2).
  exists tt. rewrite Hz, Hp in *. split.
  - destruct Hz1 as [->|Hz1]; [done|]. destruct Hz2 as [->|Hz2]; [rewrite app_nil_r; by right|right; by apply zksign_batch_app].
  - destruct Hp1 as [->|Hp1]; [done|]. destruct Hp2 as [->|Hp2]; [rewrite app_nil_r; by right|right; by apply poc_batch_app].
Qed.

(** ** The transactions of a proposal *)

Section Fitting.
Context `{Ed25519Crate} `{MultiaddrCrate}.
Implicit Types (txs selected : list SignedOps).

Lemma total_size_snoc txs tx : total_size (txs ++ [tx]) = total_size txs + size_of tx.
Proof. unfold total_size. rewrite fmap_app, foldr_app. cbn. rewrite Z.add_0_r. induction (size_of <$> txs) as [|x l IH]; cbn; lia. Qed.

(** Transactions that are each within some bound of their data are so together. *)
Lemma signed_ops_wf_mono m1 m2 tx : m1 <= m2 → signed_ops_wf m1 tx → signed_ops_wf m2 tx.
Proof.
  intros Hm (? & ? & Hop & ?). split_and!; [done..| |done]. eapply Forall_impl; [exact Hop|]. intros o. cbn. unfold data_wf.
  destruct (operation o); cbn; unfold data_wf; intuition lia.
Qed.

Lemma candidates_wf txs : Forall candidate_ok txs → ∃ m, Forall (signed_ops_wf m) txs.
Proof.
  induction 1 as [|tx txs [[m Hm] _] _ [m' IH]]; [by exists 0|]. exists (Z.max m m'). constructor; [by apply (signed_ops_wf_mono m); [lia|]|].
  eapply Forall_impl; [exact IH|]. intros t. apply signed_ops_wf_mono. lia.
Qed.

(** A block takes a prefix of the selected transactions, within its limits. *)
Lemma fitting_prefix {E : Type} (max max_size : Z) txs : Forall candidate_ok txs → max_size <= usize_max → ∀ selected,
  0 <= total_size selected <= max_size → Z.of_nat (length selected) <= max →
  ∃ taken rest, fitting_txs (E:=E) max max_size selected (total_size selected) txs = Ok (selected ++ taken) ∧ txs = taken ++ rest ∧
    Z.of_nat (length (selected ++ taken)) <= max ∧ total_size (selected ++ taken) <= max_size.
Proof.
  intros Hok Hm. induction Hok as [|tx txs Htx Htxs IH]; intros selected Hs Hl; cbn [fitting_txs].
  { exists [], []. rewrite app_nil_r. split_and!; [by case_match|done|done|lia]. }
  destruct (Z.ltb_spec (Z.of_nat (length selected)) max).
  2:{ exists [], (tx :: txs). rewrite app_nil_r. split_and!; [done..|lia]. }
  rewrite (candidate_size tx Htx). cbn [mbind result_bind]. pose proof (size_of_pos tx).
  pose proof (total_size_snoc selected tx) as Hsum.
  assert (∃ taken rest, Ok selected = Ok (E:=E) (selected ++ taken) ∧ tx :: txs = taken ++ rest ∧
    Z.of_nat (length (selected ++ taken)) <= max ∧ total_size (selected ++ taken) <= max_size) as Hstop.
  { exists [], (tx :: txs). rewrite app_nil_r. split_and!; [done..|lia]. }
  unfold checked_add. destruct (Z.leb_spec (total_size selected + size_of tx) usize_max); [|done].
  destruct (Z.ltb_spec max_size (total_size selected + size_of tx)); [done|]. rewrite <- Hsum.
  destruct (IH (selected ++ [tx])) as (taken & rest & Hf & -> & Hlen & Hsz); [lia|rewrite length_app; cbn; lia|].
  exists (tx :: taken), rest. rewrite Hf, <- app_assoc in *. cbn [app] in *. done.
Qed.

Lemma txs_for_block_prefix {E : Type} txs (max max_size : Z) : Forall candidate_ok txs → 0 <= max → 0 <= max_size <= usize_max →
  ∃ taken rest, txs_for_block (E:=E) txs max max_size = Ok taken ∧ txs = taken ++ rest ∧
    Z.of_nat (length taken) <= max ∧ total_size taken <= max_size.
Proof.
  intros Hok Hmax Hm. destruct (fitting_prefix (E:=E) max max_size txs Hok ltac:(lia) []) as (taken & rest & Hf & -> & Hl & Hs); [cbn; lia|done|].
  exists taken, rest. unfold txs_for_block. change (fitting_txs max max_size [] 0) with (fitting_txs (E:=E) max max_size [] (total_size [])).
  rewrite Hf. cbn [mbind result_bind app] in *. unfold runtime_try_new. by rewrite (proj2 (Z.ltb_ge _ _) Hl).
Qed.

End Fitting.

Section Applied.
Context {T R Params : Type} `{!KeyedStoreOps T NoteId Utxo} `{!Rewards T R Params}.
Context `{Poseidon2Crate} `{Blake2Crate} `{Ed25519Crate} `{MultiaddrCrate} `{Ed25519Verify} `{PoCVerify} `{BatchVerify} `{!BatchLaws}.
Context (eras : EraSchedule (Config Params)).
Implicit Types (s : LedgerState T R) (c : Config Params) (txs : list SignedOps) (q : PowState).
Notation slot_of s := (cl_slot (cryptarchia_ledger s)).
Notation pow_of s := (m_pow (mantle_ledger s)).

Lemma added_prefix b0 txs2 : ∀ txs1 (b : BlockBuilder (T:=T) (R:=R)), added eras b0 (txs1 ++ txs2) b → ∃ b1, added eras b0 txs1 b1.
Proof.
  induction txs2 as [|tx txs2 IH] using rev_ind; intros txs1 b Ha; [rewrite app_nil_r in Ha; by exists b|].
  rewrite app_assoc in Ha. inversion Ha as [Heq|txs b1 tx' b' d Ha1 _ _ Heq]; [by destruct (txs1 ++ txs2)|].
  apply app_inj_2 in Heq as [-> _]; [|done]. by apply (IH txs1 b1).
Qed.

Lemma added_slot s txs b : added eras (mkBuilder s gas_and_fees_default) txs b → slot_of (bb_state b) = slot_of s.
Proof.
  induction 1 as [|txs b tx b' d _ IH Htry _]; [done|]. unfold try_add_transaction in Htry. peel Htry as c Hc.
  peel Htry as [[[s1 g1] ev1] d1] Htx. peel Htry as g2 Hg. injection Htry as <- _. apply apply_tx_slot in Htx. unfold state_slot in Htx. cbn in *. congruence.
Qed.

(** What was selected against a state applies to one that accepts more, with the same gas and fees. *)
Lemma added_applies s q c txs b : added eras (mkBuilder s gas_and_fees_default) txs b → config_for_slot (E:=LedgerError HeaderId) eras (slot_of s) = Ok c →
  accepts_more eras (slot_of s) (pow_of s) q → Forall candidate_ok txs → Z.of_nat (length txs) <= LedgerConfig.max_transactions c →
  total_size txs <= LedgerConfig.max_transactions_size c → LedgerConfig.max_transactions_size c <= usize_max →
  ∃ q' ev d, apply_txs (Id:=HeaderId) (with_pow s q) eras c 0 0 gas_and_fees_default [] deferred_new txs = Ok (with_pow (bb_state b) q', bb_gas b, ev, d) ∧
    accepts_more eras (slot_of (bb_state b)) (pow_of (bb_state b)) q' ∧ deferred_verify d = Ok tt.
Proof.
  intros Ha Hc Hm. induction Ha as [|txs b tx b' d Ha IH Htry Hd]; intros Hok Hl Hs Hu.
  { exists q, [], deferred_new. done. }
  apply Forall_app in Hok as [Hok [Htx _]%Forall_cons]. rewrite length_app in Hl. cbn in Hl.
  rewrite total_size_snoc in Hs. pose proof (size_of_pos tx). pose proof (total_size_nonneg txs). destruct IH as (q1 & ev1 & d1 & Hrun & Hm1 & Hd1); [done|lia|lia|done|].
  pose proof (added_slot s txs b Ha) as Hsl. unfold try_add_transaction in Htry. rewrite Hsl, Hc in Htry. cbn [mbind result_bind] in Htry.
  peel Htry as [[[s2 g2] ev2] d2] Htx2. peel Htry as g3 Hg3. injection Htry as <- <-.
  destruct (apply_tx_more eras (bb_state b) q1 tx s2 g2 ev2 d2 Hm1 Htx2) as (q2 & Htx2' & Hm2).
  exists q2, (ev1 ++ ev2), (deferred_extend d1 d2). split; [|split; [done|by apply extend_verifies]].
  rewrite apply_txs_app by (done || lia). rewrite Hrun. cbn [mbind result_bind]. cbn [apply_txs].
  rewrite (proj2 (Z.leb_gt _ _)) by lia. cbn [err_if mbind result_bind]. rewrite (candidate_size tx Htx). cbn [mbind result_bind].
  assert (saturating_add usize_max (0 + total_size txs) (size_of tx) = total_size txs + size_of tx) as -> by (unfold saturating_add; lia).
  rewrite (proj2 (Z.ltb_ge _ _)) by lia. cbn [err_if mbind result_bind]. rewrite Htx2'. cbn [mbind result_bind]. by rewrite Hg3.
Qed.

End Applied.

(** ** The block *)

Section Accepted.
Context {T R Params : Type} `{!KeyedStoreOps T NoteId Utxo} `{!Rewards T R Params}.
Context `{Poseidon2Crate} `{Blake2Crate} `{BigUintCrate} `{LotteryCrate} `{Ed25519Crate} `{MultiaddrCrate} `{Ed25519Verify} `{PoCVerify} `{BatchVerify} `{PolVerify} `{HeaderBincode}.
Context {order : SetOrder HeaderId}.
Implicit Types (s : LedgerState T R) (c : ChainState (T:=T) (R:=R) (Params:=Params)) (eras : EraSchedule (Config Params))
  (cfg : Config Params) (b : Block SignedOps) (blocks : Blocks) (txs : list SignedOps) (p q : PowState).
Notation pow_of s := (m_pow (mantle_ledger s)).

(** The slots that proof-of-work claims have seen are in range. *)
Definition seen_in_range p : Prop :=
  map_Forall (λ _ slot, 0 <= slot) (block_slots (ps_reward p)) ∧ map_Forall (λ _ slot, 0 <= slot) (nullifiers (ps_reward p)).

Lemma prune_total {E K : Type} `{Countable K} (m : gmap K Z) current (windows : EraSchedule Z) : e_first_slot (s_genesis windows) = 0 →
  map_Forall (λ _ slot, 0 <= slot) m → ∃ m', prune (E:=E) m current windows = Ok m'.
Proof.
  intros Hg Hm. unfold prune. assert (Forall (λ e : K * Z, 0 <= e.2) (map_to_list m)) as Hl.
  { apply Forall_forall. intros [k slot] Hin%elem_of_map_to_list. by apply (Hm k). }
  induction Hl as [|[k slot] l Hs _ IH]; cbn [foldr]; [by eexists|]. destruct IH as [m' ->]. cbn [mbind result_bind]. unfold is_within_slot_window.
  destruct (at_slot_from_genesis windows slot Hg Hs) as (v & _ & Hv). cbn [snd]. rewrite Hv. by eexists.
Qed.

Lemma add_seen_total {E : Type} eras p hash slot : e_first_slot (s_genesis eras) = 0 → 0 <= slot → seen_in_range p →
  ∃ q, add_seen_block (E:=E) p hash slot (pow_slot_windows eras) = Ok q.
Proof.
  intros Hg Hs [Hb Hn]. unfold add_seen_block.
  destruct (prune_total (E:=E) (<[hash := slot]> (block_slots (ps_reward p))) slot (pow_slot_windows eras)) as [m ->]; [done|by apply map_Forall_insert_2|].
  destruct (prune_total (E:=E) (nullifiers (ps_reward p)) slot (pow_slot_windows eras)) as [n Hn']; [done..|]. cbn [mbind result_bind]. rewrite Hn'. by eexists.
Qed.

(** A header moves to its slot and leaves what was seen. *)
Lemma header_seen s slot (proof : Groth16LeaderProof) uncles eras s1 ev : try_apply_header (Id:=HeaderId) s slot proof uncles eras = Ok (s1, ev) →
  cl_slot (cryptarchia_ledger s1) = slot ∧ block_slots (ps_reward (pow_of s1)) = block_slots (ps_reward (pow_of s)) ∧
  nullifiers (ps_reward (pow_of s1)) = nullifiers (ps_reward (pow_of s)).
Proof.
  intros Hh. unfold try_apply_header in Hh. peel Hh as l Hl. peel Hh as [m eff] Hm. apply map_err_ok in Hm. peel Hh as u Hu. peel Hh as n Hn.
  injection Hh as <- _. split.
  - unfold cryptarchia_apply_header in Hl. peel Hl as l1 Hl1. injection Hl as <-. unfold update_epoch_state_and_apply_proof in Hl1. peel Hl1 as l2 Hl2.
    apply update_epoch_state_slot in Hl2 as [_ Hs]. unfold try_apply_proof in Hl1. do 4 (let x := fresh in let Hx := fresh in peel Hl1 as x Hx).
    destruct (lp_verify _ _); [|done]. by injection Hl1 as <-.
  - unfold mantle_apply_header in Hm. peel Hm as c1 Hc1. peel Hm as c2 Hc2. peel Hm as ld Hld. peel Hm as [sdp e] Hsdp. peel Hm as pw Hpw.
    injection Hm as <- _. apply map_err_ok in Hpw. unfold pow_apply_header in Hpw. cbn.
    destruct (_ <=? _); [by injection Hpw as <-|]. peel Hpw as p1 Hp1. injection Hpw as <-. unfold add_rewards_to_pool in Hp1.
    peel Hp1 as pool Hpool. peel Hp1 as r Hr. by injection Hp1 as <-.
Qed.

(** What [try_update] does with the transactions applied: the rewards, the markets and the controllers. *)
Definition close_block s cfg (g : GasAndFees) (ev : list TxEvent) txs : result (LedgerError HeaderId) (LedgerState T R) :=
  s ← compute_block_rewards s (gf_fee_burned g) (gf_fee_tip g) cfg;
  s ← ledger_execution_market s (gf_execution_gas g) (execution_market cfg);
  s ← ledger_storage_gas s (gf_storage_gas g);
  let m := mantle_ledger s in
  pow ← record_block_txs (m_pow m) (Z.min (Z.of_nat (length txs)) u64_max);
  update_pow_reward_difficulty (with_mantle s (mkMantle (m_channels m) (m_sdp m) (m_leaders m) pow)) (pow_claims ev) cfg.

Lemma update_closed s id slot (proof : Groth16LeaderProof) uncles txs eras s1 he q cfg s2 g ev d s3 :
  try_apply_header (Id:=HeaderId) s slot proof uncles eras = Ok (s1, he) →
  add_seen_block (E:=LedgerError HeaderId) (pow_of s1) id slot (pow_slot_windows eras) = Ok q →
  config_for_slot (E:=LedgerError HeaderId) eras slot = Ok cfg →
  apply_txs (Id:=HeaderId) (with_pow s1 q) eras cfg 0 0 gas_and_fees_default [] deferred_new txs = Ok (s2, g, ev, d) →
  close_block s2 cfg g ev txs = Ok s3 →
  ∃ events, try_update (Id:=HeaderId) s id slot proof uncles txs eras = Ok (s3, events, d).
Proof.
  intros Hh Hq Hc Ha Hcl. destruct (header_seen s slot proof uncles eras s1 he Hh) as [Hs _]. unfold try_update. rewrite Hh. cbn [mbind result_bind].
  unfold mantle_add_seen_block. change (into_block_hash id) with id. rewrite Hq. cbn [mbind result_bind].
  unfold try_apply_block_contents. fold (with_pow s1 q). change (cl_slot (cryptarchia_ledger (with_pow s1 q))) with (cl_slot (cryptarchia_ledger s1)).
  rewrite Hs, Hc. cbn [mbind result_bind]. rewrite Ha. cbn [mbind result_bind]. unfold close_block in Hcl.
  peel Hcl as x1 Hx1. peel Hcl as x2 Hx2. peel Hcl as x3 Hx3. peel Hcl as x4 Hx4. rewrite Hx1. cbn [mbind result_bind]. rewrite Hx2.
  cbn [mbind result_bind]. rewrite Hx3. cbn [mbind result_bind]. rewrite Hx4. cbn [mbind result_bind]. rewrite Hcl. by eexists.
Qed.

Context {SigningKey : Type} `{!Ed25519Sign SigningKey} `{!Ed25519SignLaws SigningKey}.

(** A block that is created passes the checks of those who receive it. *)
Lemma create_verified parent slot uncles proof txs max_size (key : SigningKey) b : create parent slot uncles proof txs max_size key = Ok b →
  (h_parent_block (header b) = parent ∧ h_slot (header b) = slot ∧ h_proof_of_leadership (header b) = proof ∧ uncle_headers b = uncles ∧
    transactions b = txs) ∧ slot ≠ 0 ∧ header_signed (header b) (signature b) ∧ into_verified_block b max_size = Ok b.
Proof.
  intros Hb. unfold create in Hb. peel Hb as [] Hz. peel Hb as [] Hk. apply err_if_ok, negb_false_iff, bool_decide_eq_true in Hk.
  peel Hb as root Hroot. peel Hb as sg Hsg. peel Hb as size Hsize. injection Hb as <-. unfold header_sign in Hsg. peel Hsg as hb Hhb.
  injection Hsg as <-. apply ok_or_ok in Hhb. cbn [header signature uncle_headers transactions h_parent_block h_slot h_proof_of_leadership] in *.
  assert (verify_strict (gl_leader_key proof) hb (sign_payload key hb) = true) as Hv by (rewrite Hk; apply sign_verifies).
  apply err_if_ok in Hz. split_and!; try done; [by apply Z.eqb_neq|by exists hb|].
  unfold into_verified_block, verify_header_alone, validate_body_root, verify_header_signature. cbn [header h_slot uncle_headers transactions h_body_root signature h_proof_of_leadership].
  rewrite Hz. cbn [err_if map_err mbind result_bind]. rewrite Hsize. cbn [mbind result_bind]. rewrite Hroot. cbn [mbind result_bind].
  rewrite bool_decide_true by done. cbn [negb err_if mbind result_bind]. rewrite Hhb. cbn [ok_or mbind result_bind]. by rewrite Hv.
Qed.

(** Uncles as a leader is given them, none if the chain service does not answer. *)
Definition uncles_given id_le c blocks parent slot (uncles : option (list SignedHeader)) : Prop :=
  ∀ us, uncles = Some us → service_select_uncles (E:=ChainError) id_le c blocks parent slot = Ok us.

(** The engine has room for a new block. *)
Record engine_room c b : Prop := {
  er_root : ∀ r, branches (tree (consensus c)) !! lib (tree (consensus c)) = Some r → b_parent r ≠ header_id (header b);
  er_slots : Engine.state (consensus c) = Bootstrapping → slot_room (Engine.era_schedule (consensus c)) (h_slot (header b)) ∧
    ∀ br, known (tree (consensus c)) br → slot_room (Engine.era_schedule (consensus c)) (b_slot br);
  er_height : ∀ br, known (tree (consensus c)) br → b_length br < u64_max
}.

(** The transactions of a block apply after its header, with their proofs, leaving [s], [g] and [ev]. *)
Definition contents_pass eras ps b cfg s (g : GasAndFees) (ev : list TxEvent) : Prop := ∃ s1 he q d,
  try_apply_header (Id:=HeaderId) ps (h_slot (header b)) (h_proof_of_leadership (header b)) (uncle_slots (uncle_headers b)) eras = Ok (s1, he) ∧
  add_seen_block (E:=LedgerError HeaderId) (pow_of s1) (header_id (header b)) (h_slot (header b)) (pow_slot_windows eras) = Ok q ∧
  config_for_slot (E:=LedgerError HeaderId) eras (h_slot (header b)) = Ok cfg ∧
  apply_txs (Id:=HeaderId) (with_pow s1 q) eras cfg 0 0 gas_and_fees_default [] deferred_new (transactions b) = Ok (s, g, ev, d) ∧
  deferred_verify d = Ok tt.

Definition limits_ok eras : Prop := ∀ v, v ∈ Era.eras eras → 0 <= EngineConfig.max_uncles (consensus_config (v_parameters v)) ∧
  0 <= LedgerConfig.max_transactions (v_parameters v) ∧ 0 <= LedgerConfig.max_transactions_size (v_parameters v) <= usize_max.

Context `{!BatchLaws}.

(** What a leader proposes passes the checks of a block and of its transactions. *)
Lemma proposal_contents eras ps parent slot proof (key : SigningKey) candidates uncles b invalid :
  e_first_slot (s_genesis eras) = 0 → in_u64 slot → limits_ok eras → Forall candidate_ok candidates → seen_in_range (pow_of ps) →
  propose_block parent slot proof key (Some candidates) uncles ps eras = Ok (b, invalid) →
  block_slots (ps_reward (pow_of ps)) !! header_id (header b) = None →
  (h_parent_block (header b) = parent ∧ h_slot (header b) = slot ∧ uncle_headers b = default [] uncles) ∧ h_slot (header b) ≠ 0 ∧
  header_signed (header b) (signature b) ∧ Forall candidate_ok (transactions b) ∧
  ∃ cfg s g ev, into_verified_block b (LedgerConfig.max_transactions_size cfg) = Ok b ∧ contents_pass eras ps b cfg s g ev.
Proof.
  intros Hg Hsl Hlim Hok Hseen Hp Hfresh. unfold propose_block in Hp. cbn [ok_or mbind result_bind] in Hp. peel Hp as [s1 he] Hh.
  apply map_err_ok in Hh. peel Hp as sel Hsel. peel Hp as cfg Hcfg. peel Hp as txs Htxs. peel Hp as b' Hb. injection Hp as <- _. apply map_err_ok in Hb.
  destruct (header_seen _ _ _ _ _ _ _ Hh) as (Hs1 & Hbs & Hnf). pose proof (config_for_slot_any (E2:=LedgerError HeaderId) _ _ _ Hcfg) as Hcfg'.
  destruct (config_for_slot_in _ _ _ Hcfg) as (v & Hv & <-).
  destruct (Hlim v Hv) as (_ & Hmt & Hms). set (cfg := v_parameters v) in *.
  pose proof (selection_outcome (E:=LeaderError) eras s1 candidates cfg ltac:(by rewrite Hs1) Hok) as Hout. rewrite Hsel in Hout.
  destruct Hout as (bb & inv & untried & [Hadd _ Hall _ _ _]). assert (Forall candidate_ok (ts_selected_txs sel)) as Hok1.
  { rewrite <- Hall in Hok. by apply Forall_app in Hok as [? _]. }
  destruct (txs_for_block_prefix (E:=LeaderError) (ts_selected_txs sel) (LedgerConfig.max_transactions cfg) (LedgerConfig.max_transactions_size cfg) Hok1 Hmt Hms)
    as (taken & rest & Ht & Hpre & Hlen & Hsize).
  rewrite Htxs in Ht. injection Ht as ->. rewrite Hpre in Hadd, Hok1. apply Forall_app in Hok1 as [Hok1 _]. destruct (added_prefix eras _ _ _ _ Hadd) as [b1 Hadd1].
  destruct (create_verified _ _ _ _ _ _ _ _ Hb) as ((E1 & E2 & E3 & E4 & E5) & Hz & Hsg & Hv1). rewrite E5, E2. split_and!; try done.
  destruct (add_seen_total (E:=LedgerError HeaderId) eras (pow_of s1) (header_id (header b')) slot Hg) as [q Hq]; [by destruct Hsl|by unfold seen_in_range; rewrite Hbs, Hnf|].
  assert (accepts_more eras slot (pow_of s1) q) as Hm by (eapply add_seen_accepts; [by rewrite Hbs|exact Hq]). rewrite <- Hs1 in Hm.
  destruct (added_applies eras s1 q cfg taken b1 Hadd1 ltac:(by rewrite Hs1) Hm Hok1 Hlen Hsize ltac:(lia)) as (q' & ev & d & Hrun & _ & Hd).
  eexists cfg, _, _, ev. split; [done|]. exists s1, he, q, d. rewrite E2, E3, E4, E5. done.
Qed.

(** Such a block is accepted if its accounts close. *)
Lemma proposal_block_accepted id_le c blocks ps b current uncles cfg s g ev s3 : chain_inv c blocks → in_u64 (h_slot (header b)) →
  limits_ok (era_schedule (ledger c)) → ledger_state c (h_parent_block (header b)) = Some ps →
  uncles_given id_le c blocks (h_parent_block (header b)) (h_slot (header b)) uncles → uncle_headers b = default [] uncles →
  ledger_state c (header_id (header b)) = None → h_slot (header b) <= current →
  contents_pass (era_schedule (ledger c)) ps b cfg s g ev → close_block s cfg g ev (transactions b) = Ok s3 →
  block_accepted c b current Network ∧ ∀ f, ¬ ledger_panics c b f.
Proof.
  intros HI Hsl Hlim Hps Hus Hub Hn Hcur (s1 & he & q & d & Hh & Hq & Hc & Hrun & Hd) Hcl.
  destruct (update_closed ps _ _ _ _ _ _ _ _ _ _ _ _ _ _ _ Hh Hq Hc Hrun Hcl) as [events Hup].
  destruct (proj1 (ci_states _ _ HI _) (mk_is_Some _ _ Hps)) as [par Hpar].
  assert (verify_uncle_count c b = Ok tt ∧ verify_uncles c b = Ok tt) as [Hcount Hver].
  { destruct uncles as [us|]; cbn [default] in Hub.
    - destruct (selected_uncles_pass (E:=ChainError) id_le c blocks (h_parent_block (header b)) (h_slot (header b)) HI Hsl) as (us' & Hus' & Hall);
        [intros v Hv; by destruct (Hlim v Hv)|by exists par|]. rewrite (Hus us eq_refl) in Hus'. injection Hus' as <-. by apply Hall.
    - destruct (chain_era c blocks _ HI Hsl) as (era & w & Hin & Hera & _). unfold verify_uncle_count, verify_uncles. rewrite Hera, Hub. cbn [mbind result_bind length].
      destruct (Hlim era Hin) as [? _]. rewrite (proj2 (Z.ltb_ge _ _)) by done. done. }
  assert (block_update c b = Ok (mkPrepared (header_id (header b)) s3 events d)) as Hbu.
  { unfold block_update, prepare_update. change (states (ledger c) !! h_parent_block (header b)) with (ledger_state c (h_parent_block (header b))).
    rewrite Hps. cbn [ok_or mbind result_bind]. by rewrite Hup. }
  split.
  - split; try done. eexists _, _. split; [done|]. unfold verify_batch_proofs. cbn [pu_deferred_proofs]. by rewrite Hd.
  - intros f [Hf|(u & Hu & ps' & Hps' & Hf)]; [congruence|]. destruct (chain_era c blocks _ HI Hsl) as (era & w & _ & Hera & Hw & _).
    pose proof (verify_uncles_decides c blocks b par era w HI Hpar Hera Hw) as Hdec. rewrite Hver in Hdec. rewrite Forall_forall in Hdec.
    destruct (Hdec u Hu) as [_ _ _ _ _ (ps2 & Hps2 & Hok)]. rewrite Hps' in Hps2. injection Hps2 as <-. congruence.
Qed.

(** C11: What a leader proposes is accepted: the block that [propose_block] returns
    for a parent with a state, with the uncles of the chain service and any
    candidates of the mempool, passes the checks of a received block; its
    transactions, selected one by one against the state its header leaves, apply
    with their proofs after the block is recorded as seen and within the limits of
    the era; and a node with the same chain processes and stores it, keeping its
    invariant, unless closing its accounts (the rewards, markets and controllers)
    fails. *)
Theorem proposal_accepted id_le c blocks ps parent slot proof (key : SigningKey) candidates uncles current b invalid :
  chain_inv c blocks → in_u64 slot → limits_ok (era_schedule (ledger c)) → ledger_state c parent = Some ps →
  uncles_given id_le c blocks parent slot uncles → Forall candidate_ok candidates → seen_in_range (pow_of ps) → slot <= current →
  propose_block parent slot proof key (Some candidates) uncles ps (era_schedule (ledger c)) = Ok (b, invalid) →
  block_slots (ps_reward (pow_of ps)) !! header_id (header b) = None → ledger_state c (header_id (header b)) = None → engine_room c b →
  ∃ cfg s g ev, into_verified_block b (LedgerConfig.max_transactions_size cfg) = Ok b ∧ contents_pass (era_schedule (ledger c)) ps b cfg s g ev ∧
    match close_block s cfg g ev (transactions b) with
    | Ok _ => ∃ c' out, process_block c blocks b current Network true = Ok (c', <[header_id (header b) := b]> blocks, out) ∧
        chain_inv c' (<[header_id (header b) := b]> blocks)
    | _ => True
    end.
Proof.
  intros HI Hsl Hlim Hps Hus Hok Hseen Hcur Hp Hfresh Hn [Hroot Hroom Hheight].
  assert (e_first_slot (s_genesis (era_schedule (ledger c))) = 0) as Hg.
  { pose proof (we_genesis _ (inv_eras _ (ci_engine _ _ HI))) as Hg. by rewrite (ci_eras _ _ HI) in Hg. }
  destruct (proposal_contents _ ps parent slot proof key candidates uncles b invalid Hg Hsl Hlim Hok Hseen Hp Hfresh)
    as ((Epar & Eslot & Eus) & Hz & Hsg & Htxs & cfg & s & g & ev & Hv & Hc).
  exists cfg, s, g, ev. split_and!; [done..|]. destruct (close_block s cfg g ev (transactions b)) as [s3|e|f] eqn:Hcl; [|done..].
  subst parent slot. destruct (proposal_block_accepted id_le c blocks ps b current uncles cfg s g ev s3) as [Hacc Hnp]; [done..|].
  assert (block_new c b) as HN.
  { split; try done. by apply candidates_wf. }
  pose proof (process_outcome c blocks b current Network true HI HN) as Hout.
  destruct (process_block _ _ _ _ _ _) as [[[c' blocks'] out]|e|f]; [|by destruct Hout as [[? _]|[? _]]|by destruct (Hnp f)].
  destruct Hout as (_ & [HI' ->] & _). by exists c', out.
Qed.

End Accepted.

End Proposals.
