(* ===== verification/ChainWitness.v ===== *)
(** * A concrete chain

    The ledger of [LedgerExamples] under the chain service, with toy signatures
    and leadership proofs: a leader proposes a block with the transfer on
    genesis, another one an empty block beside it, which is then the uncle of a
    third block or the parent of a fourth one that abandons the first. The first
    module, [ChainExamples], is this chain; [ChainWitness] applies the theorems
    to it. *)

From Stdlib Require Import SpecFloat.
From S2P Require Import Prelude BlockTree TreeWalks Era EraFacts EngineConfig Engine EngineInvariant EngineTheorems Uncles MerkleStore Codec CodecLaws Ops OpsCodec Channels Utxos ServiceNotes Inputs ChannelOps SignedTx SdpOps LedgerConfig ClaimOps TxVerification Leaders Pow Markets Cryptarchia Ledger BlendRewards LedgerInvariant TxTheorems BlockTheorems LedgerExamples Blocks BlockFacts BlockVerify Chain ChainFacts UncleRules ChainTheorems TxSelection SelectionFacts Proposals.

#[local] Open Scope Z_scope.

Module ChainExamples.
Import Canonical Bounded Ops OpsCodec Utxos Channels ServiceNotes Inputs ChannelOps SignedTx SdpOps LedgerConfig ClaimOps TxVerification Leaders Pow Markets Cryptarchia Ledger BlendRewards TxTheorems LedgerExamples Blocks BodyRoot BlockFacts BlockVerify Chain ChainLedger ChainFacts UncleRules ChainTheorems TxSelection SelectionFacts Proposals.
Import KeyedTree(MerkleTree) UtxoTree.

(** ** Third-party code *)

#[export] Instance toy_pol : PolVerify := {| pol_verify proof inputs := Some (negb (bool_decide (proof = []))) |}.
#[export] Instance toy_header_bincode : HeaderBincode := {| header_to_bytes h := Some (header_preimage h) |}.
#[export] Instance toy_signing : Ed25519Sign unit := {| public_key _ := signer; sign_payload _ _ := signer ++ signer |}.
#[export] Instance toy_signing_laws : Ed25519SignLaws unit.
Proof. split; intros [] m; reflexivity. Qed.
#[export] Instance toy_blake2_laws : Blake2Laws.
Proof. split. intros x. apply to_le_bytes_length. Qed.
#[export] Instance toy_batch_laws : BatchLaws.
Proof. split; reflexivity. Qed.
#[export] Instance header_order : SetOrder HeaderId := elements_order HeaderId.

(** ** Blocks *)

Definition chain_config : LedgerConfig.Config Params :=
  LedgerConfig.mkConfig (epoch_config config) (EngineConfig.mkConfig 2 (mkRatio 1 1) (f64_of_Z 1) 4 2) 10 100000 1000
    (sdp_config config) (blend_pow config) (reward_pow config) [digest] (execution_market config) (storage_market config)
    (block_rewards_config config) (gas_profile config).
Definition chain_eras : EraSchedule (LedgerConfig.Config Params) := mkSchedule (mkEntry 0 0 chain_config) [].

Definition gid : HeaderId := replicate 32 x09.
Notation Chain := (ChainState (T:=Tree) (R:=Service) (Params:=Params)).

Definition pol (n : Z) : Groth16LeaderProof := mkLeaderProof (replicate COMPRESSED_PROOF_SIZE x01) n signer n.

(** Genesis, with a state for a block that the chain knows. *)
Definition chain0_result : result ChainError Chain := chain_from_genesis gid state0 chain_eras Online.
Lemma chain0_computes : is_ok chain0_result = true.
Proof. vm_compute. reflexivity. Qed.
Definition chain0 : Chain := force chain0_result chain0_computes.

Definition state_at (c : Chain) (id : HeaderId) : LedgerState Tree Service := default state0 (ledger_state c id).

(** A proposal with the uncles of the chain service. *)
Definition propose (c : Chain) (blocks : Blocks) (parent : HeaderId) (slot : Z) (txs : list SignedOps) : result LeaderError (Block SignedOps * list TxHash) :=
  us ← service_select_uncles (λ _ _, true) c blocks parent slot;
  propose_block parent slot (pol slot) tt (Some txs) (Some us) (state_at c parent) chain_eras.

Definition process (c : Chain) (blocks : Blocks) (b : Block SignedOps) := process_block c blocks b (h_slot (header b)) Network true.

(** The block with the transfer. *)
Definition b1_result := propose chain0 ∅ gid 1 [transfer_tx].
Lemma b1_computes : is_ok b1_result = true.
Proof. vm_compute. reflexivity. Qed.
Definition b1 : Block SignedOps := (force b1_result b1_computes).1.
Definition step1_result := process chain0 ∅ b1.
Lemma step1_computes : is_ok step1_result = true.
Proof. vm_compute. reflexivity. Qed.
Definition step1 := force step1_result step1_computes.
Definition chain1 : Chain := step1.1.1.
Definition blocks1 : Blocks := step1.1.2.

(** The empty block beside it. *)
Definition b2_result := propose chain1 blocks1 gid 2 [].
Lemma b2_computes : is_ok b2_result = true.
Proof. vm_compute. reflexivity. Qed.
Definition b2 : Block SignedOps := (force b2_result b2_computes).1.
Definition step2_result := process chain1 blocks1 b2.
Lemma step2_computes : is_ok step2_result = true.
Proof. vm_compute. reflexivity. Qed.
Definition step2 := force step2_result step2_computes.
Definition chain2 : Chain := step2.1.1.
Definition blocks2 : Blocks := step2.1.2.

(** A block on the first, with the second as its uncle. *)
Definition b3_result := propose chain2 blocks2 (header_id (header b1)) 3 [].
Lemma b3_computes : is_ok b3_result = true.
Proof. vm_compute. reflexivity. Qed.
Definition b3 : Block SignedOps := (force b3_result b3_computes).1.

(** A block on the second, which becomes the longer chain. *)
Definition b4_result := propose chain2 blocks2 (header_id (header b2)) 4 [].
Lemma b4_computes : is_ok b4_result = true.
Proof. vm_compute. reflexivity. Qed.
Definition b4 : Block SignedOps := (force b4_result b4_computes).1.
Definition step4_result := process chain2 blocks2 b4.
Lemma step4_computes : is_ok step4_result = true.
Proof. vm_compute. reflexivity. Qed.
Definition step4 := force step4_result step4_computes.

Lemma b3_uncle : uncle_ids (uncle_headers b3) = [header_id (header b2)].
Proof. vm_compute. reflexivity. Qed.

Lemma step4_reorg : pr_reorged_block_ids step4.2 = [header_id (header b1)] ∧ pr_reorged_txs step4.2 = [(transfer_tx, 1)].
Proof. vm_compute. split; reflexivity. Qed.

(** ** The hypotheses of the theorems, at this chain *)

Lemma chain_eras_wf : wf_eras (engine_eras chain_eras).
Proof. split; [reflexivity|]. intros v ->%list_elem_of_singleton. cbn. unfold u32_max. lia. Qed.

Lemma chain_windows v : v ∈ Era.eras chain_eras → ∃ w, ∀ E : Type, uncle_reference_window_in_slot (E:=E) (consensus_config (v_parameters v)) = Ok w.
Proof. intros ->%list_elem_of_singleton. exists 4. intros E. vm_compute. reflexivity. Qed.

Lemma chain_limits : limits_ok chain_eras.
Proof. intros v ->%list_elem_of_singleton. cbn. split_and!; by_compute. Qed.

Lemma chain0_start : chain_from_lib (E:=ChainError) gid gid state0 gid chain_eras Online 0 0 [] = Ok chain0.
Proof. exact (force_ok chain0_result chain0_computes). Qed.

Lemma state0_at_0 : state_slot state0 = 0.
Proof. vm_compute. reflexivity. Qed.

Lemma zero_u64 : in_u64 0.
Proof. split; by_compute. Qed.

Lemma chain0_inv blocks : chain_inv chain0 blocks.
Proof. exact (start_inv gid gid state0 gid chain_eras Online 0 0 [] blocks chain0 chain_eras_wf chain_windows zero_u64 zero_u64 state0_at_0 chain0_start). Qed.

Lemma transfer_candidate : candidate_ok transfer_tx.
Proof. destruct transfer_tx_wf as [Hwf _]. split; [by exists 1024|]. by_compute. Qed.

(** What the engine asks of a block, decided for an online node. *)
Definition room_b (c : Chain) (b : Block SignedOps) : bool :=
  bool_decide (Engine.state (consensus c) = Online) &&
  match branches (tree (consensus c)) !! lib (tree (consensus c)) with
  | Some r => bool_decide (b_parent r ≠ header_id (header b))
  | None => true
  end && bool_decide (map_Forall (λ _ br, b_length br < u64_max) (branches (tree (consensus c)))).

Lemma room_b_ok c b : room_b c b = true → engine_room c b.
Proof.
  unfold room_b. rewrite !andb_true_iff, !bool_decide_eq_true. intros ((Hon & Hroot) & Hlen). split.
  - intros r Hr. rewrite Hr in Hroot. by apply bool_decide_eq_true in Hroot.
  - congruence.
  - intros br Hb. by apply (Hlen (b_id br)).
Qed.

Definition signed_b (b : Block SignedOps) : bool :=
  (1 <=? h_slot (header b)) && (h_slot (header b) <=? u64_max) &&
  verify_strict (gl_leader_key (h_proof_of_leadership (header b))) (header_preimage (header b)) (signature b).

Lemma block_new_b c b : room_b c b = true → signed_b b = true → Forall candidate_ok (transactions b) → block_new c b.
Proof.
  intros [Hr Hs Hh]%room_b_ok Hb Htx. unfold signed_b in Hb. rewrite !andb_true_iff, !Z.leb_le in Hb. destruct Hb as [[? ?] Hv].
  split; [split; lia|lia|by exists (header_preimage (header b))|by apply candidates_wf|done..].
Qed.

Lemma b1_new : block_new chain0 b1.
Proof. apply block_new_b; [by_compute..|]. replace (transactions b1) with [transfer_tx] by by_compute. repeat constructor; apply transfer_candidate. Qed.
Lemma b2_new : block_new chain1 b2.
Proof. apply block_new_b; [by_compute..|]. replace (transactions b2) with (@nil SignedOps) by by_compute. constructor. Qed.
Lemma b3_new : block_new chain2 b3.
Proof. apply block_new_b; [by_compute..|]. replace (transactions b3) with (@nil SignedOps) by by_compute. constructor. Qed.
Lemma b4_new : block_new chain2 b4.
Proof. apply block_new_b; [by_compute..|]. replace (transactions b4) with (@nil SignedOps) by by_compute. constructor. Qed.

Lemma forced {E A B C} (r : result E (A * B * C)) (H : is_ok r = true) x : force r H = x → r = Ok (x.1.1, x.1.2, x.2).
Proof. intros <-. rewrite (force_ok r H) at 1. by destruct (force r H) as [[? ?] ?]. Qed.

Lemma step1_ok : process chain0 ∅ b1 = Ok (chain1, blocks1, step1.2).
Proof. change (step1_result = Ok (step1.1.1, step1.1.2, step1.2)). exact (forced step1_result step1_computes step1 eq_refl). Qed.
Lemma step2_ok : process chain1 blocks1 b2 = Ok (chain2, blocks2, step2.2).
Proof. change (step2_result = Ok (step2.1.1, step2.1.2, step2.2)). exact (forced step2_result step2_computes step2 eq_refl). Qed.
Lemma step4_ok : process chain2 blocks2 b4 = Ok (step4.1.1, step4.1.2, step4.2).
Proof. change (step4_result = Ok (step4.1.1, step4.1.2, step4.2)). exact (forced step4_result step4_computes step4 eq_refl). Qed.

Lemma processed_reachable c blocks b c' blocks' out : chain_reachable c blocks → block_new c b → process c blocks b = Ok (c', blocks', out) →
  chain_reachable c' blocks'.
Proof. intros HR HN Hf. exact (reach_process c blocks b (h_slot (header b)) Network true c' blocks' out HR HN Hf). Qed.

Lemma chain0_reachable : chain_reachable chain0 ∅.
Proof.
  exact (reach_start gid gid state0 gid chain_eras Online 0 0 [] ∅ chain0 chain_eras_wf chain_windows zero_u64 zero_u64 state0_at_0 chain0_start).
Qed.

Lemma chain2_reachable : chain_reachable chain2 blocks2.
Proof.
  exact (processed_reachable _ _ _ _ _ _ (processed_reachable _ _ _ _ _ _ chain0_reachable b1_new step1_ok) b2_new step2_ok).
Qed.

Lemma processed_inv c blocks b c' blocks' out : chain_inv c blocks → block_new c b → process c blocks b = Ok (c', blocks', out) → chain_inv c' blocks'.
Proof.
  intros HI HN Hf. pose proof (process_outcome c blocks b (h_slot (header b)) Network true HI HN) as Hp.
  unfold process in Hf. rewrite Hf in Hp. apply Hp.
Qed.

Lemma chain1_inv : chain_inv chain1 blocks1.
Proof. exact (processed_inv _ _ _ _ _ _ (chain0_inv ∅) b1_new step1_ok). Qed.
Lemma chain2_inv : chain_inv chain2 blocks2.
Proof. exact (processed_inv _ _ _ _ _ _ chain1_inv b2_new step2_ok). Qed.

End ChainExamples.

(** * The theorems of blocks and of the chain service at the example chain

    Each lemma applies one theorem to the chain of [ChainExamples]. *)

#[local] Open Scope Z_scope.

Module ChainWitness.
Import Canonical Bounded Ops OpsCodec Utxos Channels ServiceNotes Inputs ChannelOps SignedTx SdpOps LedgerConfig ClaimOps TxVerification Leaders Pow Markets Cryptarchia Ledger BlendRewards TxTheorems LedgerExamples Blocks BodyRoot BlockFacts BlockVerify Chain ChainLedger ChainFacts UncleRules ChainTheorems TxSelection SelectionFacts Proposals ChainExamples.
Import KeyedTree(MerkleTree) UtxoTree.

(** ** Blocks *)

Definition limits : BlockLimits := mkLimits 2 10 100000.

Lemma pol_wf n : 0 <= n < 1000 → leader_proof_wf (pol n).
Proof. intros Hn. unfold leader_proof_wf, in_fr, fr_modulus. cbn. split_and!; [reflexivity|lia|lia|split; reflexivity|lia|lia]. Qed.

Lemma transfer_create : create_ok limits 1024 gid 1 [] (pol 1) [transfer_tx].
Proof.
  destruct transfer_candidate as [_ Hs]. destruct transfer_tx_wf as [Hw _].
  split; [reflexivity|split; by_compute|split; [by_compute|split; [by_compute|apply Forall_nil_2]]|apply pol_wf; lia|by_compute|by_compute|..];
    apply Forall_cons_2; [exact Hw|apply Forall_nil_2|exact Hs|apply Forall_nil_2].
Qed.

Definition created_result : result BlockError (Block SignedOps) := create gid 1 [] (pol 1) [transfer_tx] (max_transactions_size limits) tt.
Lemma created_computes : is_ok created_result = true.
Proof. vm_compute. reflexivity. Qed.

Lemma limits_range : 0 <= max_transactions_size limits <= u32_max.
Proof. split; by_compute. Qed.

Lemma created_block_witness : ∃ b bs, created_result = Ok b ∧ encode block_codec (E:=False) b = Ok bs ∧
  decode block_codec bs (block_context limits 1024) = Ok ([], b).
Proof.
  pose proof (created_block (E:=False) limits 1024 gid 1 [] (pol 1) [transfer_tx] tt limits_range transfer_create) as Hc.
  pose proof created_computes as Hr. fold created_result in Hc. destruct created_result as [b|e|f]; [|discriminate..].
  destruct Hc as (_ & (bs & He & _ & Hd) & _). exists b, bs. split; [reflexivity|]. split; [exact He|]. rewrite <- (app_nil_r bs). apply Hd.
Defined.

(** The bytes of that block, with one byte after them. *)
Definition block_input : list byte :=
  match created_result with Ok b => match encode block_codec (E:=False) b with Ok bs => bs ++ [x00] | _ => [] end | _ => [] end.

Lemma block_decode_exact_witness : ∃ b bs, decode block_codec block_input (block_context limits 1024) = Ok ([x00], b) ∧
  block_wf limits 1024 b ∧ block_verifies (max_transactions_size limits) b ∧ encode block_codec (E:=False) b = Ok bs ∧ block_input = bs ++ [x00].
Proof.
  assert (Z.of_nat (length block_input) <= usize_max) as Hl by by_compute.
  pose proof (block_decode_exact (E:=False) limits 1024 block_input limits_range Hl) as Hd.
  assert (match decode block_codec block_input (block_context limits 1024) with Ok (rest, _) => bool_decide (rest = [x00]) | _ => false end = true) as Hr by by_compute.
  destruct (decode block_codec block_input (block_context limits 1024)) as [[rest b]|e|f]; [|discriminate..]. apply bool_decide_eq_true in Hr. subst rest.
  destruct Hd as (Hw & Hv & bs & He & Hi). exists b, bs. split; [reflexivity|]. split; [exact Hw|]. split; [exact Hv|]. split; [exact He|exact Hi].
Defined.

(** The block, and one whose transaction has another proof. *)
Definition forged_tx : SignedOps := mkSignedOps digest [SignedTransfer transfer_op (replicate 128 x02)].
Definition forged : Block SignedOps := mkBlock (header b1) (signature b1) [] [forged_tx].

Lemma forged_tx_wf : signed_ops_wf 1024 forged_tx.
Proof.
  destruct transfer_tx_wf as [(Hd & Hl & Ho & _) _]. split; [exact Hd|]. split; [exact Hl|].
  apply Forall_cons in Ho as [Ho _]. split; [apply Forall_cons_2; [exact Ho|apply Forall_nil_2]|].
  apply Forall_cons_2; [reflexivity|apply Forall_nil_2].
Qed.

Lemma example_wf b : header_wf (header b) → length (signature b) = SIGNATURE_SIZE → uncle_headers b = [] → Z.of_nat (length (transactions b)) = 1 →
  Forall (signed_ops_wf 1024) (transactions b) → block_wf limits 1024 b.
Proof.
  intros Hh Hs Hu Hl Hw. split; [exact Hh|exact Hs|rewrite Hu; split; [by_compute|split; [by_compute|apply Forall_nil_2]]|..|exact Hw]; rewrite Hl; by_compute.
Qed.

Lemma b1_header_wf : header_wf (header b1).
Proof.
  split; [split; by_compute|]. split; [by_compute|]. split; [by_compute|].
  replace (h_proof_of_leadership (header b1)) with (pol 1) by by_compute. apply pol_wf. lia.
Qed.

Lemma example_verifies b max : uncle_headers b = [] → Forall (signed_ops_wf 1024) (transactions b) → forallb (λ t, size_of t <=? usize_max) (transactions b) = true →
  0 <= max <= usize_max → is_ok (into_verified_block b max) = true → block_verifies max b.
Proof.
  intros Hu Hw Hs Hm Hok. assert (uncles_wf 0 (uncle_headers b)) as Huw by (rewrite Hu; split; [by_compute|split; [by_compute|apply Forall_nil_2]]).
  assert (Forall (λ t, size_of t <= usize_max) (transactions b)) as Hs'.
  { apply Forall_forall. intros t Ht. rewrite forallb_forall in Hs. apply Z.leb_le, Hs. by apply list_elem_of_In. }
  pose proof (into_verified_exact 0 1024 max b Hm Huw Hw Hs') as Hv. destruct (into_verified_block b max); [|discriminate..]. by destruct Hv.
Qed.

Lemma b1_txs : transactions b1 = [transfer_tx].
Proof. by_compute. Qed.

Lemma b1_wf : block_wf limits 1024 b1.
Proof. apply example_wf; [exact b1_header_wf|by_compute|by_compute|by_compute|]. rewrite b1_txs. apply Forall_cons_2; [apply transfer_tx_wf|apply Forall_nil_2]. Qed.

Lemma forged_wf : block_wf limits 1024 forged.
Proof. apply example_wf; [exact b1_header_wf|by_compute|by_compute|by_compute|]. apply Forall_cons_2; [exact forged_tx_wf|apply Forall_nil_2]. Qed.

Lemma limits_usize : 0 <= max_transactions_size limits <= usize_max.
Proof. split; by_compute. Qed.

Lemma b1_verifies : block_verifies (max_transactions_size limits) b1.
Proof. apply example_verifies; [by_compute|apply b1_wf|by_compute|exact limits_usize|by_compute]. Qed.
Lemma forged_verifies : block_verifies (max_transactions_size limits) forged.
Proof. apply example_verifies; [by_compute|apply forged_wf|by_compute|exact limits_usize|by_compute]. Qed.

Definition first_proof (b : Block SignedOps) : list byte :=
  match transactions b with [t] => match signed_ops t with [SignedTransfer _ p] => p | _ => [] end | _ => [] end.
Lemma proofs_differ : first_proof b1 ≠ first_proof forged.
Proof. apply (bool_decide_eq_false (first_proof b1 = first_proof forged)). by_compute. Qed.
Lemma one_identifier : header_id (header b1) = header_id (header forged).
Proof. by_compute. Qed.

Lemma block_binding_witness : first_proof b1 ≠ first_proof forged ∧
  ((header b1 = header forged ∧ uncle_headers b1 = uncle_headers forged ∧ op_refs <$> transactions b1 = op_refs <$> transactions forged) ∨
   block_break b1 forged).
Proof.
  split; [exact proofs_differ|].
  exact (block_binding limits limits 1024 b1 forged b1_wf forged_wf b1_verifies forged_verifies one_identifier).
Defined.

(** ** The chain service *)

Lemma lookup_forced {A} (o : option A) (x : A) : bool_decide (is_Some o) = true → o = Some (default x o).
Proof. intros [y ->]%bool_decide_eq_true. done. Qed.

Definition genesis_branch : Branch HeaderId := mkBranch gid gid 0 0 [].
Definition b1_branch : Branch HeaderId := default genesis_branch (branches (tree (consensus chain2)) !! h_parent_block (header b3)).
Lemma b1_known : branches (tree (consensus chain2)) !! h_parent_block (header b3) = Some b1_branch.
Proof. apply lookup_forced. by_compute. Qed.

Lemma b3_slot : in_u64 (h_slot (header b3)).
Proof. split; by_compute. Qed.

Lemma b3_uncles_pass : verify_uncles chain2 b3 = Ok tt.
Proof. by_compute. Qed.

Lemma verify_uncles_exact_witness : uncle_ids (uncle_headers b3) = [header_id (header b2)] ∧
  ∃ first ws, Forall (uncle_valid chain2 b1_branch (h_slot (header b3)) first ws) (uncle_headers b3).
Proof.
  split; [exact b3_uncle|]. destruct (verify_uncles_exact chain2 blocks2 b3 b1_branch chain2_inv b3_slot b1_known) as (era & w & _ & _ & Hv).
  cbv zeta in Hv. rewrite b3_uncles_pass in Hv. eexists _, _. exact Hv.
Defined.

Lemma chain2_eras : era_schedule (ledger chain2) = chain_eras.
Proof. by_compute. Qed.

Lemma chain2_max_uncles v : v ∈ Era.eras (era_schedule (ledger chain2)) → 0 <= EngineConfig.max_uncles (consensus_config (v_parameters v)).
Proof. rewrite chain2_eras. apply chain_limits. Qed.

Lemma selected_uncles_valid_witness : ∃ us, service_select_uncles (E:=ChainError) (λ _ _, true) chain2 blocks2 (h_parent_block (header b3)) (h_slot (header b3)) = Ok us ∧
  ∀ b, h_parent_block (header b) = h_parent_block (header b3) → h_slot (header b) = h_slot (header b3) → uncle_headers b = us →
    verify_uncle_count chain2 b = Ok tt ∧ verify_uncles chain2 b = Ok tt.
Proof.
  exact (selected_uncles_valid (E:=ChainError) (λ _ _, true) chain2 blocks2 (h_parent_block (header b3)) (h_slot (header b3)) chain2_inv b3_slot
    chain2_max_uncles (mk_is_Some _ _ b1_known)).
Defined.

Notation step4_process := (process_block chain2 blocks2 b4 (h_slot (header b4)) Network true).

Lemma process_block_safe_witness : ∃ c' blocks' out, step4_process = Ok (c', blocks', out) ∧ chain_inv c' blocks' ∧ blocks' = <[header_id (header b4) := b4]> blocks2.
Proof.
  pose proof (process_block_safe chain2 blocks2 b4 (h_slot (header b4)) Network true chain2_inv b4_new) as Hp.
  pose proof step4_ok as Hs. unfold process in Hs. rewrite Hs in Hp. destruct Hp as (_ & _ & HI & Hb).
  eexists _, _, _. split; [exact Hs|]. split; [exact HI|exact Hb].
Defined.

(** The transfer of the abandoned block is handed back. *)
Lemma reorg_transactions_witness : (transfer_tx, 1) ∈ pr_reorged_txs step4.2 ∧
  ∃ t1, canonical_report t1 (local_chain (consensus chain2)) (local_chain (consensus step4.1.1)) step4.1.2 step4.2.
Proof.
  split; [rewrite (proj2 step4_reorg); left|].
  pose proof step4_ok as Hs. unfold process in Hs.
  destruct (reorg_transactions chain2 blocks2 b4 (h_slot (header b4)) Network true step4.1.1 step4.1.2 step4.2 chain2_inv b4_new Hs) as (t1 & _ & Hr).
  exists t1. exact Hr.
Defined.

Lemma chain_in_step_witness : chain_inv chain2 blocks2 ∧ strict_slots (tree (consensus chain2)).
Proof. exact (chain_in_step chain2 blocks2 chain2_reachable). Defined.

(** ** The leader *)

(** A transfer and, again, the transfer: the second one has become inapplicable. *)
Definition twice : list SignedOps := [transfer_tx; transfer_tx].
Lemma twice_ok : Forall candidate_ok twice.
Proof. apply Forall_cons_2; [exact transfer_candidate|]. apply Forall_cons_2; [exact transfer_candidate|apply Forall_nil_2]. Qed.
Lemma state0_chain_config : config_for_slot (E:=False) chain_eras (cl_slot (cryptarchia_ledger state0)) = Ok chain_config.
Proof. by_compute. Qed.
Notation selected := (select_transactions (T:=Tree) (R:=Service) (E:=False) state0 twice chain_eras).
Lemma selected_computes : is_ok selected = true.
Proof. by_compute. Qed.

Lemma selection_spec_witness : ∃ sel b invalid untried, selected = Ok sel ∧
  selection_ok chain_eras (LedgerConfig.max_transactions_size chain_config) state0 twice sel b invalid untried.
Proof.
  pose proof (selection_spec (T:=Tree) (R:=Service) (E:=False) chain_eras state0 twice chain_config state0_chain_config twice_ok) as Hs.
  pose proof selected_computes as Hr. destruct selected as [sel|e|f]; [|discriminate..]. destruct Hs as (b & invalid & untried & Hs).
  exists sel, b, invalid, untried. split; [reflexivity|exact Hs].
Defined.

Definition ps0 : LedgerState Tree Service := state_at chain0 gid.
Definition b1_invalid : list TxHash := (force b1_result b1_computes).2.

Lemma ps0_known : ledger_state chain0 gid = Some ps0.
Proof. apply lookup_forced. by_compute. Qed.
Lemma chain0_eras : era_schedule (ledger chain0) = chain_eras.
Proof. by_compute. Qed.
Lemma chain0_limits : limits_ok (era_schedule (ledger chain0)).
Proof. rewrite chain0_eras. exact chain_limits. Qed.
Lemma no_uncles : uncles_given (λ _ _, true) chain0 ∅ gid 1 (Some []).
Proof. intros us [= <-]. by_compute. Qed.
Lemma ps0_seen : seen_in_range (m_pow (mantle_ledger ps0)).
Proof. split; apply (bool_decide_eq_true_1 _); by_compute. Qed.
Lemma b1_proposed : propose_block gid 1 (pol 1) tt (Some [transfer_tx]) (Some []) ps0 (era_schedule (ledger chain0)) = Ok (b1, b1_invalid).
Proof. by_compute. Qed.
Lemma b1_unseen : block_slots (ps_reward (m_pow (mantle_ledger ps0))) !! header_id (header b1) = None.
Proof. by_compute. Qed.
Lemma b1_unknown : ledger_state chain0 (header_id (header b1)) = None.
Proof. by_compute. Qed.
Lemma b1_room : engine_room chain0 b1.
Proof. apply room_b_ok. by_compute. Qed.
Lemma one_u64 : in_u64 1.
Proof. split; by_compute. Qed.

Lemma proposal_accepted_witness : ∃ cfg s g ev, into_verified_block b1 (LedgerConfig.max_transactions_size cfg) = Ok b1 ∧
  contents_pass (era_schedule (ledger chain0)) ps0 b1 cfg s g ev ∧
  match close_block s cfg g ev (transactions b1) with
  | Ok _ => ∃ c' out, process_block chain0 ∅ b1 1 Network true = Ok (c', <[header_id (header b1) := b1]> ∅, out) ∧
      chain_inv c' (<[header_id (header b1) := b1]> ∅)
  | _ => True
  end.
Proof.
  exact (proposal_accepted (λ _ _, true) chain0 ∅ ps0 gid 1 (pol 1) tt [transfer_tx] (Some []) 1 b1 b1_invalid (chain0_inv ∅) one_u64 chain0_limits ps0_known
    no_uncles (Forall_cons_2 _ _ _ transfer_candidate (Forall_nil_2 _)) ps0_seen (Z.le_refl 1) b1_proposed b1_unseen b1_unknown b1_room).
Defined.

End ChainWitness.
