(* ===== verification/Eviction.v ===== *)
(** * Eviction policies of the mempool

    services/tx-service/src/backend/policy and evictor.rs: transactions leave the
    pool when they are too old or when a proof-of-work claim in them is past its
    window. The evictor composes the two policies and returns the keys that the pool
    retires or releases. An [IndexMap] is the list of its entries and an [IndexSet]
    that of its elements, in order. Durations are in nanoseconds. *)

From stdpp Require Import sorting.
From S2P Require Import Prelude Era Codec Ops Utxos ServiceNotes ChannelOps SignedTx Blocks.

#[local] Open Scope Z_scope.

(** ** Vectors, index sets and loops *)

Section Index.
Context {K : Type} `{EqDecision K}.
Implicit Types (l : list K) (k : K).

(** [Vec::swap_remove] at an index in range: the last element takes its place. *)
Definition vec_swap_remove (i : nat) l : list K :=
  match last l with
  | Some x => take (length l - 1) (<[i := x]> l)
  | None => l
  end.

(** [IndexSet::insert], [IndexSet::swap_remove], and collecting into an [IndexSet]. *)
Definition set_insert l k : list K := if bool_decide (k ∈ l) then l else l ++ [k].
Definition set_swap_remove l k : list K :=
  match list_find (λ x, x = k) l with Some (i, _) => vec_swap_remove i l | None => l end.
Definition index_set l : list K := foldl set_insert [] l.

End Index.

(** A [for] loop whose body may panic. *)
Fixpoint fold_result {E A B : Type} (f : A → B → result E A) (a : A) (l : list B) : result E A :=
  match l with
  | [] => Ok a
  | x :: l => a ← f a x; fold_result f a l
  end.

(** [Iterator::any]. *)
Fixpoint any_result {E B : Type} (f : B → result E bool) (l : list B) : result E bool :=
  match l with
  | [] => Ok false
  | x :: l => b ← f x; if (b : bool) then Ok true else any_result f l
  end.

Module Eviction.
Import Canonical Ops Utxos ServiceNotes ChannelOps SignedTx Blocks.

(** [PolicyClock], and [BlockSlots]. *)
Record PolicyClock := mkClock { now_millis : Z; clock_slot : option Z }.
Definition BlockSlots := gmap HeaderId Z.

(** [IncludedItem]. *)
Record IncludedItem := mkIncluded { in_slot : Z; in_admitted_at : Z }.

(** [EvictableTx::pow_reward_claims], by the blocks the claims are anchored to. *)
Definition pow_reward_claims (tx : SignedOps) : list ClaimPowRewardOp :=
  omap (λ op, match op with ClaimPowReward claim => Some claim | _ => None end) (to_ops (op_refs tx)).
Definition claim_anchors (tx : SignedOps) : list HeaderId := cp_block_hash <$> pow_reward_claims tx.

(** ** The age of transactions *)

Definition RETIREMENT_GRACE : Z := 600 * 1000000000.

(** [Duration::as_millis], cast to 64 bits. *)
Definition as_millis_u64 (duration : Z) : Z := (duration / 1000000) mod (u64_max + 1).

Section Ttl.
Context {K : Type}.

(** [TtlPolicy::expired]. *)
Definition ttl_expired (tx_ttl : option Z) (pending : list (K * Z)) (now : Z) : list K :=
  match tx_ttl with
  | None => []
  | Some tx_ttl =>
      let ttl_millis := as_millis_u64 tx_ttl in
      fst <$> take_while (λ e, ttl_millis <=? saturating_sub now e.2) pending
  end.

(** [TtlPolicy::due_for_release]. *)
Definition due_for_release {E : Type} (tx_ttl : option Z) (retired : list (K * Z)) (now : Z) : result E (list K) :=
  match tx_ttl with
  | None => Ok []
  | Some tx_ttl =>
      age ← strict_add duration_max_nanos tx_ttl RETIREMENT_GRACE;
      let release_age_millis := as_millis_u64 age in
      Ok (fst <$> filter (λ e, release_age_millis <= saturating_sub now e.2) retired)
  end.

End Ttl.

(** ** Claims of proof-of-work rewards *)

(** [PowClaimEvictionSettings::grace_slots], of the window. *)
Definition grace_slots (slot_window : Z) : Z := saturating_mul u64_max slot_window 2.

(** [PowClaimPolicy]. *)
Record PowClaimPolicy := mkPowPolicy {
  pp_settings : EraSchedule Z;
  deadline_by_key : gmap TxHash Z;
  keys_by_deadline : gmap Z (list TxHash);
  parked_by_block : gmap HeaderId (list TxHash);
  parked_by_key : gmap TxHash (list HeaderId)
}.

Implicit Types (p : PowClaimPolicy) (key : TxHash) (tx : SignedOps).

Definition pow_policy_new (settings : EraSchedule Z) : PowClaimPolicy := mkPowPolicy settings ∅ ∅ ∅ ∅.

(** [PowClaimPolicy::deadline_for]. *)
Definition deadline_for {E : Type} p (anchor_slot : Z) : result E Z :=
  v ← at_slot (pp_settings p) anchor_slot;
  let slot_window := v_parameters v in
  Ok (saturating_add u64_max (saturating_add u64_max (saturating_add u64_max anchor_slot slot_window) 1) (grace_slots slot_window)).

(** The entries of a B-tree map up to a key, in ascending order. *)
Definition slot_le (a b : Z * list TxHash) : Prop := a.1 <= b.1.
#[export] Instance slot_le_dec a b : Decision (slot_le a b).
Proof. unfold slot_le. apply _. Defined.
Definition btree_range (m : gmap Z (list TxHash)) (slot : Z) : list (Z * list TxHash) :=
  merge_sort slot_le (filter (λ e, e.1 <= slot) (map_to_list m)).

(** [PowClaimPolicy::past_deadline]. *)
Definition past_deadline p (clock : PolicyClock) : list TxHash :=
  match clock_slot clock with
  | None => []
  | Some slot => concat (snd <$> btree_range (keys_by_deadline p) slot)
  end.

(** An entry of a map of sets loses a member, and goes away once it is empty. *)
Definition remove_member {K V : Type} `{Countable K} `{EqDecision V} (m : gmap K (list V)) (k : K) (x : V) : gmap K (list V) :=
  match m !! k with
  | None => m
  | Some s => let s := set_swap_remove s x in if bool_decide (s = []) then delete k m else <[k := s]> m
  end.

(** [entry(..).or_default().insert(..)]. *)
Definition insert_member {K V : Type} `{Countable K} `{EqDecision V} (m : gmap K (list V)) (k : K) (x : V) : gmap K (list V) :=
  <[k := set_insert (default [] (m !! k)) x]> m.

(** [PowClaimPolicy::untrack_deadline]. *)
Definition untrack_deadline p key (deadline : Z) : PowClaimPolicy :=
  mkPowPolicy (pp_settings p) (deadline_by_key p) (remove_member (keys_by_deadline p) deadline key) (parked_by_block p) (parked_by_key p).

(** [PowClaimPolicy::track]. *)
Definition track_at p key (deadline : Z) : PowClaimPolicy :=
  mkPowPolicy (pp_settings p) (<[key := deadline]> (deadline_by_key p)) (insert_member (keys_by_deadline p) deadline key)
    (parked_by_block p) (parked_by_key p).
Definition track p key (deadline : Z) : PowClaimPolicy :=
  match deadline_by_key p !! key with
  | Some current => if current <=? deadline then p else track_at (untrack_deadline p key current) key deadline
  | None => track_at p key deadline
  end.

(** [PowClaimPolicy::park] and [unpark]. *)
Definition park p key (anchor : HeaderId) : PowClaimPolicy :=
  mkPowPolicy (pp_settings p) (deadline_by_key p) (keys_by_deadline p) (insert_member (parked_by_block p) anchor key)
    (insert_member (parked_by_key p) key anchor).
Definition unpark p key : PowClaimPolicy :=
  match parked_by_key p !! key with
  | None => p
  | Some anchors =>
      mkPowPolicy (pp_settings p) (deadline_by_key p) (keys_by_deadline p)
        (foldl (λ m anchor, remove_member m anchor key) (parked_by_block p) anchors) (delete key (parked_by_key p))
  end.

(** [EvictionPolicy for PowClaimPolicy]. *)
Definition pow_is_expired {E : Type} p tx (clock : PolicyClock) (block_slots : BlockSlots) : result E bool :=
  match clock_slot clock with
  | None => Ok false
  | Some slot =>
      any_result (λ anchor, match block_slots !! anchor with
                            | None => Ok false
                            | Some anchor_slot => deadline ← deadline_for p anchor_slot; Ok (deadline <=? slot)
                            end) (claim_anchors tx)
  end.

Definition pow_on_add {E : Type} p key tx (block_slots : BlockSlots) : result E PowClaimPolicy :=
  fold_result (λ p anchor, match block_slots !! anchor with
                           | Some anchor_slot => deadline ← deadline_for p anchor_slot; Ok (track p key deadline)
                           | None => Ok (park p key anchor)
                           end) p (claim_anchors tx).

Definition pow_on_release p key : PowClaimPolicy :=
  let p := unpark p key in
  match deadline_by_key p !! key with
  | None => p
  | Some deadline =>
      untrack_deadline (mkPowPolicy (pp_settings p) (delete key (deadline_by_key p)) (keys_by_deadline p) (parked_by_block p) (parked_by_key p))
        key deadline
  end.

(** A parked key whose anchor was processed. *)
Definition unpark_at (block_id : HeaderId) (deadline : Z) p key : PowClaimPolicy :=
  track (mkPowPolicy (pp_settings p) (deadline_by_key p) (keys_by_deadline p) (parked_by_block p)
           (remove_member (parked_by_key p) key block_id)) key deadline.

Definition pow_on_processed_block {E : Type} p (block_id : HeaderId) (slot : Z) : result E PowClaimPolicy :=
  match parked_by_block p !! block_id with
  | None => Ok p
  | Some keys =>
      let p := mkPowPolicy (pp_settings p) (deadline_by_key p) (keys_by_deadline p) (delete block_id (parked_by_block p)) (parked_by_key p) in
      deadline ← deadline_for p slot;
      Ok (foldl (unpark_at block_id deadline) p keys)
  end.

(** ** The evictor *)

(** The implementations of the trait [EvictionPolicy]. *)
Inductive Policy := TtlPolicy (tx_ttl : option Z) | PowClaim (p : PowClaimPolicy).

(** [Evictor]. *)
Record Evictor := mkEvictor { policies : list Policy; ev_slot : option Z }.

Implicit Types (e : Evictor).

Definition evictor_new (tx_ttl : option Z) (pow_claim : option (EraSchedule Z)) : Evictor :=
  mkEvictor (TtlPolicy tx_ttl :: match pow_claim with Some settings => [PowClaim (pow_policy_new settings)] | None => [] end) None.

Definition clock e (now : Z) : PolicyClock := mkClock now (ev_slot e).

(** [Evictor::is_expired]. *)
Definition policy_is_expired {E : Type} tx (c : PolicyClock) (block_slots : BlockSlots) (p : Policy) : result E bool :=
  match p with TtlPolicy _ => Ok false | PowClaim p => pow_is_expired p tx c block_slots end.
Definition is_expired {E : Type} e tx (now : Z) (block_slots : BlockSlots) : result E bool :=
  any_result (policy_is_expired tx (clock e now) block_slots) (policies e).

(** [Evictor::on_add], [on_release] and [on_processed_block]. *)
Definition policy_on_add {E : Type} key tx (block_slots : BlockSlots) (p : Policy) : result E Policy :=
  match p with TtlPolicy t => Ok (TtlPolicy t) | PowClaim p => p ← pow_on_add p key tx block_slots; Ok (PowClaim p) end.
Definition on_add {E : Type} e key tx (block_slots : BlockSlots) : result E Evictor :=
  policies ← mapM (policy_on_add key tx block_slots) (policies e);
  Ok (mkEvictor policies (ev_slot e)).

Definition policy_on_release key (p : Policy) : Policy :=
  match p with TtlPolicy t => TtlPolicy t | PowClaim p => PowClaim (pow_on_release p key) end.
Definition on_release e key : Evictor := mkEvictor (policy_on_release key <$> policies e) (ev_slot e).

Definition policy_on_processed_block {E : Type} (block_id : HeaderId) (slot : Z) (p : Policy) : result E Policy :=
  match p with TtlPolicy t => Ok (TtlPolicy t) | PowClaim p => p ← pow_on_processed_block p block_id slot; Ok (PowClaim p) end.
Definition on_processed_block {E : Type} e (block_id : HeaderId) (slot : Z) : result E Evictor :=
  let current := Some (match ev_slot e with Some current => Z.max current slot | None => slot end) in
  policies ← mapM (policy_on_processed_block block_id slot) (policies e);
  Ok (mkEvictor policies current).

(** [Evictor::select_retirements]. *)
Definition policy_retirements (c : PolicyClock) (pending : list (TxHash * Z)) (p : Policy) : list TxHash :=
  match p with TtlPolicy t => ttl_expired t pending (now_millis c) | PowClaim p => past_deadline p c end.
Definition select_retirements e (now : Z) (pending : list (TxHash * Z)) : list TxHash :=
  index_set (concat (policy_retirements (clock e now) pending <$> policies e)).

(** [Evictor::select_releases]. *)
Definition policy_releases {E : Type} (c : PolicyClock) (retired : gmap TxHash Z) (included : gmap TxHash IncludedItem) (p : Policy)
    : result E (list TxHash) :=
  match p with
  | TtlPolicy t => due_for_release t (ordered_entries retired) (now_millis c)
  | PowClaim p => Ok (filter (λ key, is_Some (retired !! key) ∨ is_Some (included !! key)) (past_deadline p c))
  end.
Definition select_releases {E : Type} e (now : Z) (retired : gmap TxHash Z) (included : gmap TxHash IncludedItem) : result E (list TxHash) :=
  releases ← mapM (policy_releases (clock e now) retired included) (policies e);
  Ok (index_set (concat releases)).

End Eviction.
