(* ===== verification/Mempool.v ===== *)
(** * The mempool

    services/tx-service/src/backend/pool.rs: transactions wait in [pending_items],
    ordered by admission time; those that are inapplicable or evicted, or carried by
    a canonical block, are retired, and keep their body and their entry in the
    prefix index until they are released. The storage adapter is a type class, the
    trait [MempoolStorageAdapter] of the source, and [readings] are the results of
    the calls of [current_timestamp_millis] still to come. *)

From S2P Require Import Prelude Era Codec Ops Utxos ServiceNotes ChannelOps SignedTx Blocks Eviction.

#[local] Open Scope Z_scope.

Module Mempool.
Import Canonical Ops Utxos ServiceNotes ChannelOps SignedTx Blocks Eviction.

(** [MempoolStorageAdapter]; [false] and [None] are errors of the storage. *)
Class MempoolStorage (S : Type) := {
  store_item : S → TxHash → SignedOps → S * bool;
  get_items : S → list TxHash → option (list SignedOps);
  remove_items : S → list TxHash → S * bool;
  get_block_slots : S → list HeaderId → BlockSlots;
  storage_rotate_era : S → Z → S;
  storage_complete_era_transition : S → Z → S
}.

(** [MempoolError]. *)
Inductive MempoolError :=
  | ExistingItem
  | ItemTooLarge (size max : Z)
  | InscriptionTooLarge (size max : Z)
  | MetadataTooLarge (size max : Z)
  | Expired
  | UnacceptedForkDigest (digest : Hash)
  | StorageError
  | DynamicPoolError.

(** [Status]. *)
Inductive Status := Unknown | Pending | Retained.

(** [AdmissionLimits]. *)
Record AdmissionLimits := mkAdmission { max_transaction_size : Z; al_max_op_data_size : Z }.

(** [AdmissionLimits::admit]. *)
Definition admit_op (limits : AdmissionLimits) (op : Op) : result MempoolError unit :=
  match op with
  | ChannelInscribe inscription =>
      let size := Z.of_nat (length (i_inscription inscription)) in
      err_if (al_max_op_data_size limits <? size) (InscriptionTooLarge size (al_max_op_data_size limits))
  | ChannelDeposit deposit =>
      let size := Z.of_nat (length (d_metadata deposit)) in
      err_if (al_max_op_data_size limits <? size) (MetadataTooLarge size (al_max_op_data_size limits))
  | _ => Ok tt
  end.
Definition admit_item `{Ed25519Crate} `{MultiaddrCrate} (limits : AdmissionLimits) (item : SignedOps) : result MempoolError unit :=
  size ← storage_size item;
  err_if (max_transaction_size limits <? size) (ItemTooLarge size (max_transaction_size limits));;
  fold_result (λ _, admit_op limits) tt (to_ops (op_refs item)).

(** [MempoolSettings]. *)
Record MempoolSettings := mkPoolSettings {
  tx_ttl : option Z;
  pow_claim : option (EraSchedule Z);
  accepted_digests : EraSchedule (list Hash);
  era_timing : option (EraSchedule EraTiming);
  admission : EraSchedule AdmissionLimits
}.

(** [PoolRecoveryState]. *)
Record PoolRecoveryState := mkRecovery {
  rs_pending_items : list (TxHash * Z);
  rs_removed_items : gmap TxHash Z;
  rs_included_in_canonical : gmap TxHash IncludedItem;
  rs_last_item_timestamp : Z
}.

(** ** Pending items, an [IndexMap] *)

Definition pending_get (m : list (TxHash * Z)) (key : TxHash) : option Z := snd ∘ snd <$> list_find (λ e, e.1 = key) m.
Definition shift_remove (m : list (TxHash * Z)) (key : TxHash) : list (TxHash * Z) := filter (λ e, e.1 ≠ key) m.

(** [IndexMap::partition_point] on a map ordered by time, and [shift_insert]. *)
Definition partition_point (m : list (TxHash * Z)) (admitted_at : Z) : nat := length (take_while (λ e, e.2 <=? admitted_at) m).
Definition shift_insert (m : list (TxHash * Z)) (index : nat) (key : TxHash) (admitted_at : Z) : list (TxHash * Z) :=
  let m := shift_remove m key in take index m ++ (key, admitted_at) :: drop index m.

Section Pool.
Context {S : Type} `{!MempoolStorage S} `{Ed25519Crate} `{MultiaddrCrate} `{Blake2Crate} `{!TimeCrate}.

(** [Mempool]. *)
Record Mempool := mkPool {
  pending_items : list (TxHash * Z);
  by_prefix : gmap (list byte) (list TxHash);
  removed_items : gmap TxHash Z;
  included_in_canonical : gmap TxHash IncludedItem;
  settings : MempoolSettings;
  last_item_timestamp : Z;
  evictor : Evictor;
  era_in_force : Z;
  storage_adapter : S;
  readings : nat → Z
}.

Implicit Types (p : Mempool) (key : TxHash) (item : SignedOps) (keys : list TxHash).

(** Updates of one field. *)
Definition with_pending p (m : list (TxHash * Z)) : Mempool :=
  mkPool m (by_prefix p) (removed_items p) (included_in_canonical p) (settings p) (last_item_timestamp p) (evictor p) (era_in_force p)
    (storage_adapter p) (readings p).
Definition with_prefixes p (m : gmap (list byte) (list TxHash)) : Mempool :=
  mkPool (pending_items p) m (removed_items p) (included_in_canonical p) (settings p) (last_item_timestamp p) (evictor p) (era_in_force p)
    (storage_adapter p) (readings p).
Definition with_retired p (removed : gmap TxHash Z) (included : gmap TxHash IncludedItem) : Mempool :=
  mkPool (pending_items p) (by_prefix p) removed included (settings p) (last_item_timestamp p) (evictor p) (era_in_force p)
    (storage_adapter p) (readings p).
Definition with_evictor p (e : Evictor) : Mempool :=
  mkPool (pending_items p) (by_prefix p) (removed_items p) (included_in_canonical p) (settings p) (last_item_timestamp p) e (era_in_force p)
    (storage_adapter p) (readings p).
Definition with_storage p (s : S) : Mempool :=
  mkPool (pending_items p) (by_prefix p) (removed_items p) (included_in_canonical p) (settings p) (last_item_timestamp p) (evictor p)
    (era_in_force p) s (readings p).

(** [current_timestamp_millis]. *)
Definition current_timestamp_millis p : Z * Mempool :=
  (readings p 0%nat,
   mkPool (pending_items p) (by_prefix p) (removed_items p) (included_in_canonical p) (settings p) (last_item_timestamp p) (evictor p)
     (era_in_force p) (storage_adapter p) (λ n, readings p (n + 1)%nat)).

(** [Mempool::new]. *)
Definition mempool_new (settings : MempoolSettings) (current_era : Z) (storage : S) (readings : nat → Z) : Mempool :=
  mkPool [] ∅ ∅ ∅ settings 0 (evictor_new (tx_ttl settings) (pow_claim settings)) current_era storage readings.

(** [Mempool::rotate_era] and [complete_era_transition]. *)
Definition rotate_era p (era : Z) : Mempool :=
  mkPool (pending_items p) (by_prefix p) (removed_items p) (included_in_canonical p) (settings p) (last_item_timestamp p) (evictor p) era
    (storage_rotate_era (storage_adapter p) era) (readings p).
Definition complete_era_transition p (ended_era : Z) : Mempool :=
  with_storage p (storage_complete_era_transition (storage_adapter p) ended_era).

(** [Mempool::index_by_prefix] and [unindex_by_prefix]. *)
Definition index_by_prefix p key : Mempool := with_prefixes p (insert_member (by_prefix p) (tx_hash_prefix key) key).
Definition unindex_by_prefix p key : Mempool := with_prefixes p (remove_member (by_prefix p) (tx_hash_prefix key) key).

(** [Mempool::insert_pending]. *)
Definition insert_pending p key (admitted_at : Z) : Mempool :=
  let index := partition_point (pending_items p) admitted_at in
  with_pending p (shift_insert (pending_items p) index key admitted_at).

(** [Mempool::retire]. *)
Definition retire_key p key : Mempool :=
  match pending_get (pending_items p) key with
  | None => p
  | Some admitted_at =>
      with_retired (with_pending p (shift_remove (pending_items p) key)) (<[key := admitted_at]> (removed_items p)) (included_in_canonical p)
  end.
Definition retire p keys : Mempool := foldl retire_key p keys.

(** [Mempool::delete_retained]. *)
Definition drop_key p key : Mempool := let p := unindex_by_prefix p key in with_evictor p (on_release (evictor p) key).
Definition delete_retained p keys : Mempool * bool :=
  match keys with
  | [] => (p, true)
  | _ =>
      let '(s, removed) := remove_items (storage_adapter p) keys in
      let p := with_storage p s in
      if (removed : bool) then (foldl drop_key p keys, true) else (p, false)
  end.

(** [Mempool::release_retained]. *)
Definition forget_retired p key : Mempool := with_retired p (delete key (removed_items p)) (delete key (included_in_canonical p)).
Definition release_retained {E : Type} p : result E Mempool :=
  let '(now, p) := current_timestamp_millis p in
  releases ← select_releases (evictor p) now (removed_items p) (included_in_canonical p);
  assert_ (forallb (λ key, bool_decide (is_Some (removed_items p !! key)) || bool_decide (is_Some (included_in_canonical p !! key))) releases);;
  let '(p, deleted) := delete_retained p releases in
  Ok (if (deleted : bool) then foldl forget_retired p releases else p).

(** [Mempool::release_immutable]. *)
Definition release_immutable p (lib_slot : Z) : Mempool :=
  let immutable_keys := fst <$> filter (λ e : TxHash * IncludedItem, in_slot e.2 <= lib_slot) (map_to_list (included_in_canonical p)) in
  let '(p, deleted) := delete_retained p immutable_keys in
  if (deleted : bool) then foldl (λ p key, with_retired p (removed_items p) (delete key (included_in_canonical p))) p immutable_keys else p.

(** [Mempool::resolve_claim_anchors]. *)
Definition resolve_claim_anchors p item : BlockSlots :=
  match index_set (claim_anchors item) with [] => ∅ | anchors => get_block_slots (storage_adapter p) anchors end.

(** [Mempool::is_expired] and [slot_start]. *)
Definition older_than_ttl p (admitted_at now : Z) : bool :=
  match tx_ttl (settings p) with None => false | Some ttl => as_millis_u64 ttl <? saturating_sub now admitted_at end.
Definition slot_start {E : Type} p (slot : Z) : result E (option Z) :=
  match era_timing (settings p) with
  | None => Ok None
  | Some timing =>
      start ← checked_time_of timing slot;
      Ok (start ← start;
          let millis := Z.quot start 1000000 in
          if (0 <=? millis) && (millis <=? u64_max) then Some millis else None)
  end.

(** ** Admission *)

(** The end of [add_item], once the item is stored. *)
Definition admit_stored {E : Type} p key item (timestamp : Z) (block_slots : BlockSlots) : result E Mempool :=
  let admitted_at := default timestamp (removed_items p !! key) in
  let p := with_retired p (delete key (removed_items p)) (included_in_canonical p) in
  let p := index_by_prefix p key in
  e ← on_add (evictor p) key item block_slots;
  let p := insert_pending (with_evictor p e) key admitted_at in
  Ok (mkPool (pending_items p) (by_prefix p) (removed_items p) (included_in_canonical p) (settings p) timestamp (evictor p) (era_in_force p)
        (storage_adapter p) (readings p)).

(** [Mempool::add_item]: the pool, and the answer. [add_checked] is the part after the release. *)
Definition fork_digest_accepted p item : bool :=
  match get_era (accepted_digests (settings p)) (era_in_force p) with
  | Some era => bool_decide (fork_digest item ∈ v_parameters era)
  | None => false
  end.
Definition add_checked {E : Type} p key item : result E (Mempool * result MempoolError unit) :=
  if bool_decide (is_Some (pending_get (pending_items p) key)) || bool_decide (is_Some (included_in_canonical p !! key)) then Ok (p, Err ExistingItem)
  else
    let '(timestamp, p) := current_timestamp_millis p in
    if negb (fork_digest_accepted p item) then Ok (p, Err (UnacceptedForkDigest (fork_digest item)))
    else
      let block_slots := resolve_claim_anchors p item in
      expired ← is_expired (evictor p) item timestamp block_slots;
      if (expired : bool) then Ok (p, Err Expired)
      else
        let '(s, stored) := store_item (storage_adapter p) key item in
        let p := with_storage p s in
        if negb stored then Ok (p, Err StorageError)
        else p ← admit_stored p key item timestamp block_slots; Ok (p, Ok tt).
Definition add_item {E : Type} p key item : result E (Mempool * result MempoolError unit) :=
  era ← expect (get_era (admission (settings p)) (era_in_force p));
  match admit_item (v_parameters era) item with
  | Err e => Ok (p, Err e)
  | Fault f => Fault f
  | Ok _ => p ← release_retained p; add_checked p key item
  end.

(** ** Queries *)

(** [Mempool::get_items_by_keys] and [view]. *)
Definition get_items_by_keys p keys : result MempoolError (list SignedOps) := ok_or (get_items (storage_adapter p) keys) StorageError.
Definition pool_view p : result MempoolError (list SignedOps) := get_items_by_keys p (fst <$> pending_items p).

(** [Mempool::keys_by_prefix]. *)
Definition keys_by_prefix p (prefix : list byte) : list TxHash := default [] (by_prefix p !! prefix).

(** [Mempool::status]. *)
Definition status_of p key : Status :=
  if bool_decide (is_Some (pending_get (pending_items p) key)) then Pending
  else if bool_decide (is_Some (removed_items p !! key)) || bool_decide (is_Some (included_in_canonical p !! key)) then Retained
  else Unknown.
Definition pool_status p keys : list Status := status_of p <$> keys.

(** ** The chain *)

(** [Mempool::remove]. *)
Definition evict p : Mempool :=
  let '(now, p) := current_timestamp_millis p in
  retire p (select_retirements (evictor p) now (pending_items p)).
Definition pool_remove {E : Type} p keys : result E Mempool := release_retained (evict (retire p keys)).

(** [Mempool::on_processed_block]. *)
Definition pool_processed_block {E : Type} p (block_id : HeaderId) (slot lib_slot : Z) : result E Mempool :=
  let p := release_immutable p lib_slot in
  e ← on_processed_block (evictor p) block_id slot;
  release_retained (evict (with_evictor p e)).

(** [Mempool::on_canonical_chain_updated]: its three loops. [entered] is the map in the order of its iteration. *)
Definition leave_canonical {E : Type} p (reorged : SignedOps * Z) : result E Mempool :=
  key ← tx_hasher reorged.1;
  Ok (match included_in_canonical p !! key with
      | Some included => with_retired p (<[key := in_admitted_at included]> (removed_items p)) (delete key (included_in_canonical p))
      | None => p
      end).
Definition enter_canonical p (entered : TxHash * Z) : Mempool :=
  let '(key, slot) := entered in
  match pending_get (pending_items p) key with
  | Some admitted_at =>
      with_retired (with_pending p (shift_remove (pending_items p) key)) (removed_items p)
        (<[key := mkIncluded slot admitted_at]> (included_in_canonical p))
  | None =>
      match removed_items p !! key with
      | Some admitted_at =>
          with_retired p (delete key (removed_items p)) (<[key := mkIncluded slot admitted_at]> (included_in_canonical p))
      | None =>
          match included_in_canonical p !! key with
          | Some included =>
              with_retired p (removed_items p) (<[key := mkIncluded slot (in_admitted_at included)]> (included_in_canonical p))
          | None => p
          end
      end
  end.
Definition readmit {E : Type} (now : Z) (acc : Mempool * list SignedOps) (reorged : SignedOps * Z) : result E (Mempool * list SignedOps) :=
  let '(p, readmitted) := acc in
  let '(item, slot) := reorged in
  key ← tx_hasher item;
  admitted_at ← match removed_items p !! key with
                 | Some admitted_at => Ok admitted_at
                 | None => start ← slot_start p slot; Ok (default now start)
                 end;
  if older_than_ttl p admitted_at now then Ok (p, readmitted)
  else
    '(p, verdict) ← add_item p key item;
    Ok (p, match verdict with Ok _ => readmitted ++ [item] | _ => readmitted end).

Definition on_canonical_chain_updated {E : Type} p (entered : list (TxHash * Z)) (reorged : list (SignedOps * Z))
    : result E (Mempool * list SignedOps) :=
  p ← fold_result leave_canonical p reorged;
  let p := foldl enter_canonical p entered in
  let '(now, p) := current_timestamp_millis p in
  fold_result (readmit now) (p, []) reorged.

(** ** Recovery *)

(** [RecoverableMempool::save] and [recover]. *)
Definition pool_save p : PoolRecoveryState :=
  mkRecovery (pending_items p) (removed_items p) (included_in_canonical p) (last_item_timestamp p).

Definition held_keys p : list TxHash :=
  (fst <$> pending_items p) ++ (fst <$> ordered_entries (removed_items p)) ++ (fst <$> map_to_list (included_in_canonical p)).

(** [Mempool::add_recovered_items_to_evictor]. *)
Definition add_recovered_item {E : Type} p item : result E Mempool :=
  let block_slots := resolve_claim_anchors p item in
  key ← tx_hasher item;
  e ← on_add (evictor p) key item block_slots;
  Ok (with_evictor p e).
Definition add_recovered_items_to_evictor {E : Type} p : result E Mempool :=
  match get_items_by_keys p (held_keys p) with
  | Ok items => let '(_, p) := current_timestamp_millis p in fold_result add_recovered_item p items
  | _ => Ok p
  end.

Definition pool_recover {E : Type} (settings : MempoolSettings) (current_era : Z) (st : PoolRecoveryState) (storage : S) (readings : nat → Z)
    : result E Mempool :=
  let p := mkPool (rs_pending_items st) ∅ (rs_removed_items st) (rs_included_in_canonical st) settings (rs_last_item_timestamp st)
             (evictor_new (tx_ttl settings) (pow_claim settings)) current_era storage readings in
  add_recovered_items_to_evictor (foldl index_by_prefix p (held_keys p)).

End Pool.

Arguments Mempool : clear implicits.

End Mempool.
