(* ===== verification/EvictionFacts.v ===== *)
(** * Facts on the eviction policies

    The sets and maps of sets of the policy of claims are consistent: a key is
    filed under its deadline and under no other, and under an anchor exactly when
    the anchor is filed under the key. Each operation of the policy changes what is
    tracked for its own keys only. *)

From stdpp Require Import sorting.
From S2P Require Import Prelude Era EraFacts Codec Ops Utxos ServiceNotes ChannelOps SignedTx Blocks Eviction.

#[local] Open Scope Z_scope.

Module EvictionFacts.
Import Canonical Ops Utxos ServiceNotes ChannelOps SignedTx Blocks Eviction.

(** ** Sets *)

Section Sets.
Context {K : Type} `{EqDecision K}.
Implicit Types (l : list K) (k : K).

Lemma set_insert_elem l k x : x ∈ set_insert l k ↔ x = k ∨ x ∈ l.
Proof. unfold set_insert. case_bool_decide; set_solver. Qed.

Lemma set_insert_NoDup l k : NoDup l → NoDup (set_insert l k).
Proof. intros Hl. unfold set_insert. case_bool_decide as Hk; [done|]. apply NoDup_app. split_and!; [done|set_solver|by apply NoDup_singleton]. Qed.

Lemma set_insert_nonempty l k : set_insert l k ≠ [].
Proof. unfold set_insert. case_bool_decide as Hk; [intros ->; by apply not_elem_of_nil in Hk|by destruct l]. Qed.

Lemma vec_swap_remove_perm l1 k l2 : vec_swap_remove (length l1) (l1 ++ k :: l2) ≡ₚ l1 ++ l2.
Proof.
  unfold vec_swap_remove. destruct l2 as [|y l2 _] using rev_ind.
  - rewrite last_snoc, list_insert_id by by apply list_lookup_middle. rewrite length_app. cbn [length].
    replace (length l1 + 1 - 1)%nat with (length l1) by lia. by rewrite take_app_length, app_nil_r.
  - rewrite app_comm_cons, app_assoc, last_snoc, <- app_assoc, <- app_comm_cons. rewrite insert_app_r_alt by lia. rewrite Nat.sub_diag. cbn [insert list_insert].
    rewrite !length_app. cbn [length]. rewrite length_app. cbn [length].
    rewrite (app_assoc l1 (y :: l2) [y] : l1 ++ y :: l2 ++ [y] = _). rewrite take_app_le by (rewrite length_app; cbn; lia).
    rewrite take_ge by (rewrite length_app; cbn; lia). rewrite <- Permutation_cons_append. done.
Qed.

Lemma set_swap_remove_perm l k : k ∈ l → k :: set_swap_remove l k ≡ₚ l.
Proof.
  intros Hk. unfold set_swap_remove. destruct (list_find (λ x, x = k) l) as [[i x]|] eqn:Hf.
  - apply list_find_Some in Hf as (Hi & -> & _). apply list_elem_of_split_length in Hi as (l1 & l2 & -> & ->).
    by rewrite vec_swap_remove_perm, Permutation_middle.
  - apply list_find_None in Hf. rewrite Forall_forall in Hf. by destruct (Hf k Hk).
Qed.

Lemma set_swap_remove_id l k : k ∉ l → set_swap_remove l k = l.
Proof.
  intros Hk. unfold set_swap_remove. destruct (list_find (λ x, x = k) l) as [[i x]|] eqn:Hf; [|done].
  apply list_find_Some in Hf as (Hi & -> & _). by apply list_elem_of_lookup_2 in Hi.
Qed.

Lemma set_swap_remove_spec l k : NoDup l → NoDup (set_swap_remove l k) ∧ ∀ x, x ∈ set_swap_remove l k ↔ x ∈ l ∧ x ≠ k.
Proof.
  intros Hl. destruct (decide (k ∈ l)) as [Hk|Hk].
  - pose proof (set_swap_remove_perm l k Hk) as Hp. assert (NoDup (k :: set_swap_remove l k)) as [Hn Hl']%NoDup_cons by (by rewrite Hp). split; [done|].
    intros x. assert (x ∈ l ↔ x = k ∨ x ∈ set_swap_remove l k) as -> by (rewrite <- elem_of_cons; by rewrite Hp). set_solver.
  - rewrite set_swap_remove_id by done. split; [done|]. set_solver.
Qed.

Lemma index_set_spec l : NoDup (index_set l) ∧ ∀ x, x ∈ index_set l ↔ x ∈ l.
Proof.
  unfold index_set. assert (∀ acc, NoDup acc → NoDup (foldl set_insert acc l) ∧ ∀ x, x ∈ foldl set_insert acc l ↔ x ∈ acc ∨ x ∈ l) as Hg.
  { induction l as [|k l IH]; intros acc Hacc; cbn [foldl]; [set_solver|]. destruct (IH (set_insert acc k) (set_insert_NoDup acc k Hacc)) as [? He].
    split; [done|]. intros x. rewrite He, set_insert_elem. set_solver. }
  destruct (Hg [] (NoDup_nil_2)) as [? He]. split; [done|]. intros x. rewrite He. set_solver.
Qed.

End Sets.

(** ** Maps of sets *)

Section MapsOfSets.
Context {K V : Type} `{Countable K} `{EqDecision V}.
Implicit Types (m : gmap K (list V)).

Definition member m (k : K) (x : V) : Prop := x ∈ default [] (m !! k).
Definition sets_ok m : Prop := ∀ k l, m !! k = Some l → l ≠ [] ∧ NoDup l.

Lemma sets_ok_empty : sets_ok ∅.
Proof. intros k l Hl. by rewrite lookup_empty in Hl. Qed.

Lemma default_NoDup m k : sets_ok m → NoDup (default [] (m !! k)).
Proof. intros Hm. destruct (m !! k) as [l|] eqn:Hl; [by apply (Hm k)|constructor]. Qed.

Lemma insert_member_spec m k x : sets_ok m → sets_ok (insert_member m k x) ∧
  ∀ k' x', member (insert_member m k x) k' x' ↔ member m k' x' ∨ k' = k ∧ x' = x.
Proof.
  intros Hm. unfold insert_member, member. split.
  - intros k' l. rewrite lookup_insert_Some. intros [[-> <-]|[_ Hl]]; [|by apply (Hm k')].
    split; [apply set_insert_nonempty|by apply set_insert_NoDup, default_NoDup].
  - intros k' x'. destruct (decide (k' = k)) as [->|Hne]; [rewrite lookup_insert_eq; cbn; rewrite set_insert_elem; naive_solver|].
    rewrite lookup_insert_ne by done. naive_solver.
Qed.

Lemma remove_member_spec m k x : sets_ok m → sets_ok (remove_member m k x) ∧
  ∀ k' x', member (remove_member m k x) k' x' ↔ member m k' x' ∧ ¬ (k' = k ∧ x' = x).
Proof.
  intros Hm. unfold remove_member, member. destruct (m !! k) as [l|] eqn:Hl.
  2:{ split; [done|]. intros k' x'. split; [|by intros []]. intros Hx. split; [done|]. intros [-> _]. rewrite Hl in Hx. by apply not_elem_of_nil in Hx. }
  destruct (Hm k l Hl) as [Hne Hnd]. destruct (set_swap_remove_spec l x Hnd) as [Hnd' He]. case_bool_decide as Hempty.
  - split; [intros k' l'; rewrite lookup_delete_Some; intros [_ ?]; by apply (Hm k')|]. intros k' x'. destruct (decide (k' = k)) as [->|Hk].
    + rewrite lookup_delete_eq, Hl. cbn. specialize (He x'). rewrite Hempty in He. set_solver.
    + rewrite lookup_delete_ne by done. naive_solver.
  - split.
    + intros k' l'. rewrite lookup_insert_Some. intros [[-> <-]|[_ ?]]; [done|by apply (Hm k')].
    + intros k' x'. destruct (decide (k' = k)) as [->|Hk]; [rewrite lookup_insert_eq, Hl; cbn; rewrite He; naive_solver|].
      rewrite lookup_insert_ne by done. naive_solver.
Qed.

End MapsOfSets.

(** ** The policy of claims *)

Implicit Types (p : PowClaimPolicy) (key : TxHash) (tx : SignedOps) (e : Evictor).

Record policy_ok p : Prop := {
  po_deadlines : sets_ok (keys_by_deadline p);
  po_blocks : sets_ok (parked_by_block p);
  po_keys : sets_ok (parked_by_key p);
  po_filed : ∀ d key, member (keys_by_deadline p) d key ↔ deadline_by_key p !! key = Some d;
  po_parked : ∀ anchor key, member (parked_by_block p) anchor key ↔ member (parked_by_key p) key anchor
}.

Definition parked p key (anchor : HeaderId) : Prop := member (parked_by_key p) key anchor.
#[export] Instance parked_dec p key anchor : Decision (parked p key anchor).
Proof. unfold parked, member. apply _. Defined.
Definition tracked p key : Prop := is_Some (deadline_by_key p !! key) ∨ ∃ anchor, parked p key anchor.

Lemma policy_new_ok settings : policy_ok (pow_policy_new settings).
Proof. split; cbn; try apply sets_ok_empty; intros; unfold member; rewrite !lookup_empty; set_solver. Qed.

(** What an operation on the deadlines of one key does. *)
Record deadline_moved p p' key (d : option Z) : Prop := {
  dm_ok : policy_ok p';
  dm_settings : pp_settings p' = pp_settings p;
  dm_deadline : deadline_by_key p' !! key = d;
  dm_others : ∀ k, k ≠ key → deadline_by_key p' !! k = deadline_by_key p !! k;
  dm_parked : ∀ k anchor, parked p' k anchor ↔ parked p k anchor
}.

Lemma track_spec p key d : policy_ok p →
  deadline_moved p (track p key d) key (Some (match deadline_by_key p !! key with Some c => Z.min c d | None => d end)).
Proof.
  intros [H1' H2' H3' H4' H5']. unfold track. destruct (deadline_by_key p !! key) as [c|] eqn:Hc.
  - destruct (Z.leb_spec c d); [split; try done; by rewrite Hc, Z.min_l by lia|].
    destruct (remove_member_spec (keys_by_deadline p) c key H1') as [R1 R2]. destruct (insert_member_spec _ d key R1) as [I1 I2].
    split; try done; cbn [track_at untrack_deadline deadline_by_key keys_by_deadline pp_settings].
    + split; try done. intros d' k. cbn [track_at untrack_deadline deadline_by_key keys_by_deadline]. rewrite I2, R2, H4'. destruct (decide (k = key)) as [->|Hk].
      * rewrite lookup_insert_eq. rewrite Hc. naive_solver.
      * rewrite lookup_insert_ne by done. naive_solver.
    + by rewrite lookup_insert_eq, Z.min_r by lia.
    + intros k Hk. by rewrite lookup_insert_ne.
  - destruct (insert_member_spec (keys_by_deadline p) d key H1') as [I1 I2].
    split; try done; cbn [track_at deadline_by_key keys_by_deadline pp_settings].
    + split; try done. intros d' k. cbn [track_at untrack_deadline deadline_by_key keys_by_deadline]. rewrite I2, H4'. destruct (decide (k = key)) as [->|Hk].
      * rewrite lookup_insert_eq, Hc. naive_solver.
      * rewrite lookup_insert_ne by done. naive_solver.
    + by rewrite lookup_insert_eq.
    + intros k Hk. by rewrite lookup_insert_ne.
Qed.

Lemma park_spec p key anchor : policy_ok p → policy_ok (park p key anchor) ∧ pp_settings (park p key anchor) = pp_settings p ∧
  deadline_by_key (park p key anchor) = deadline_by_key p ∧ ∀ k a, parked (park p key anchor) k a ↔ parked p k a ∨ k = key ∧ a = anchor.
Proof.
  intros [H1' H2' H3' H4' H5']. destruct (insert_member_spec (parked_by_block p) anchor key H2') as [I1 I2].
  destruct (insert_member_spec (parked_by_key p) key anchor H3') as [J1 J2]. unfold park, parked. cbn. split_and!; try done.
  split; try done; cbn. intros a k. rewrite I2, J2, H5'. naive_solver.
Qed.

Lemma unpark_spec p key : policy_ok p → policy_ok (unpark p key) ∧ pp_settings (unpark p key) = pp_settings p ∧
  deadline_by_key (unpark p key) = deadline_by_key p ∧ ∀ k a, parked (unpark p key) k a ↔ parked p k a ∧ k ≠ key.
Proof.
  intros [H1' H2' H3' H4' H5']. unfold unpark. destruct (parked_by_key p !! key) as [anchors|] eqn:Ha.
  2:{ split_and!; try done; intros k a; unfold parked. split; [|by intros []]. intros Hk. split; [done|]. intros ->. unfold member in Hk.
      rewrite Ha in Hk. by apply not_elem_of_nil in Hk. }
  assert (∀ (l : list HeaderId) (m : gmap HeaderId (list TxHash)), sets_ok m → sets_ok (foldl (λ m anchor, remove_member m anchor key) m l) ∧
    ∀ a k, member (foldl (λ m anchor, remove_member m anchor key) m l) a k ↔ member m a k ∧ ¬ (a ∈ l ∧ k = key)) as Hfold.
  { induction l as [|a l IH]; intros m Hm; cbn [foldl]; [split; [done|set_solver]|]. destruct (remove_member_spec m a key Hm) as [R1 R2].
    destruct (IH _ R1) as [F1 F2]. split; [done|]. intros a' k. rewrite F2, R2. set_solver. }
  destruct (Hfold anchors (parked_by_block p) H2') as [F1 F2].
  assert (∀ k a, member (delete key (parked_by_key p)) k a ↔ member (parked_by_key p) k a ∧ k ≠ key) as Hd.
  { intros k a. unfold member. destruct (decide (k = key)) as [->|Hk]; [rewrite lookup_delete_eq; cbn; set_solver|]. rewrite lookup_delete_ne by done. naive_solver. }
  unfold parked. cbn. split_and!; try done. split; try done; cbn.
  - intros k l. rewrite lookup_delete_Some. intros [_ ?]. by apply (H3' k).
  - intros a k. rewrite F2, Hd, H5'. assert (a ∈ anchors ↔ member (parked_by_key p) key a) as -> by (unfold member; by rewrite Ha). naive_solver.
Qed.

Lemma untrack_spec p key d : policy_ok p → deadline_by_key p !! key = Some d →
  policy_ok (untrack_deadline (mkPowPolicy (pp_settings p) (delete key (deadline_by_key p)) (keys_by_deadline p) (parked_by_block p) (parked_by_key p)) key d).
Proof.
  intros [H1' H2' H3' H4' H5'] Hd. destruct (remove_member_spec (keys_by_deadline p) d key H1') as [R1 R2]. split; try done; cbn.
  intros d' k. rewrite R2, H4', lookup_delete_Some. destruct (decide (k = key)) as [->|Hk]; [rewrite Hd; naive_solver|naive_solver].
Qed.

Lemma release_spec p key : policy_ok p → policy_ok (pow_on_release p key) ∧ pp_settings (pow_on_release p key) = pp_settings p ∧
  (∀ k, deadline_by_key (pow_on_release p key) !! k = if decide (k = key) then None else deadline_by_key p !! k) ∧
  ∀ k a, parked (pow_on_release p key) k a ↔ parked p k a ∧ k ≠ key.
Proof.
  intros Hp. destruct (unpark_spec p key Hp) as (U1 & U2 & U3 & U4). unfold pow_on_release. rewrite U3. destruct (deadline_by_key p !! key) as [d|] eqn:Hd.
  - rewrite <- U3 in Hd. pose proof (untrack_spec _ key d U1 Hd) as Hu. rewrite U3 in Hu. split_and!; [exact Hu|exact U2| |exact U4].
    intros k. cbn. destruct (decide (k = key)) as [->|Hk]; [apply lookup_delete_eq|]. by rewrite lookup_delete_ne.
  - split_and!; try done. intros k. rewrite U3. destruct (decide (k = key)) as [->|Hk]; done.
Qed.

(** ** Deadlines *)

(** The settings of a policy: windows from the first slot on. *)
Definition windows_ok (s : EraSchedule Z) : Prop :=
  e_first_slot (s_genesis s) = 0 ∧ ∀ v, v ∈ eras s → 0 < v_parameters v.

(** The window of an anchor, and its deadline: three windows and a slot later. *)
Definition window_at (s : EraSchedule Z) (slot : Z) : Z := match at_slot (E:=Empty_set) s slot with Ok v => v_parameters v | _ => 0 end.
Definition deadline_at (s : EraSchedule Z) (slot : Z) : Z := Z.min u64_max (slot + 3 * window_at s slot + 1).

Lemma window_at_ok {E : Type} s slot : windows_ok s → 0 <= slot → ∃ v, at_slot (E:=E) s slot = Ok v ∧ v_parameters v = window_at s slot ∧ 0 < window_at s slot.
Proof.
  intros [Hg Hw] Hs. destruct (at_slot_from_genesis s slot Hg Hs) as (v & Hv & Hat). exists v. unfold window_at. rewrite (Hat Empty_set).
  split_and!; [apply Hat|done|by apply Hw].
Qed.

Lemma deadline_for_ok {E : Type} p slot : windows_ok (pp_settings p) → 0 <= slot → deadline_for (E:=E) p slot = Ok (deadline_at (pp_settings p) slot).
Proof.
  intros Hw Hs. destruct (window_at_ok (E:=E) (pp_settings p) slot Hw Hs) as (v & Hv & Hp & Hpos). unfold deadline_for, deadline_at. rewrite Hv, <- Hp in *.
  cbn [mbind result_bind]. unfold saturating_add, grace_slots, saturating_mul. f_equal. unfold u64_max. lia.
Qed.

Definition slots_ok (slots : BlockSlots) : Prop := map_Forall (λ _ slot, 0 <= slot) slots.

(** How the anchors of an added transaction are tracked. *)
Record claims_tracked p key (anchors : list HeaderId) (slots : BlockSlots) p' : Prop := {
  ct_ok : policy_ok p';
  ct_settings : pp_settings p' = pp_settings p;
  ct_other_deadline : ∀ k, k ≠ key → deadline_by_key p' !! k = deadline_by_key p !! k;
  ct_parked : ∀ k a, parked p' k a ↔ parked p k a ∨ k = key ∧ a ∈ anchors ∧ slots !! a = None;
  ct_deadline : ∀ a slot, a ∈ anchors → slots !! a = Some slot → ∃ d, deadline_by_key p' !! key = Some d ∧ d <= deadline_at (pp_settings p) slot;
  ct_earlier : ∀ d, deadline_by_key p !! key = Some d → ∃ d', deadline_by_key p' !! key = Some d' ∧ d' <= d;
  ct_sound : ∀ d, deadline_by_key p' !! key = Some d → deadline_by_key p !! key = Some d ∨
    ∃ a slot, a ∈ anchors ∧ slots !! a = Some slot ∧ d = deadline_at (pp_settings p) slot
}.

Lemma add_claims {E : Type} key (slots : BlockSlots) anchors : slots_ok slots → ∀ p, policy_ok p → windows_ok (pp_settings p) →
  ∃ p', fold_result (E:=E) (λ p anchor, match slots !! anchor with
          | Some anchor_slot => deadline ← deadline_for p anchor_slot; Ok (track p key deadline)
          | None => Ok (park p key anchor) end) p anchors = Ok p' ∧ claims_tracked p key anchors slots p'.
Proof.
  intros Hs. induction anchors as [|a anchors IH]; intros p Hp Hw; cbn [fold_result].
  { exists p. split; [done|]. split; try done; try set_solver; naive_solver lia. }
  destruct (slots !! a) as [slot|] eqn:Ha.
  - rewrite (deadline_for_ok p slot Hw (Hs a slot Ha)). cbn [mbind result_bind]. set (d := deadline_at _ slot).
    destruct (track_spec p key d Hp) as [T1 T2 T3 T4 T5]. destruct (IH (track p key d) T1) as (p' & Hf & [C1 C2 C3 C4 C5 C6 C7]); [by rewrite T2|].
    exists p'. split; [done|]. rewrite T2 in *. destruct (C6 _ T3) as (d' & Hd' & Hle). split; try done.
    + intros k Hk. by rewrite C3, T4.
    + intros k a'. rewrite C4, T5, elem_of_cons. naive_solver.
    + intros a' slot' [->|Hin]%elem_of_cons Ha'; [|by apply (C5 a')]. rewrite Ha in Ha'. injection Ha' as <-. exists d'. split; [done|].
      fold d. destruct (deadline_by_key p !! key); lia.
    + intros c Hc. exists d'. split; [done|]. rewrite Hc in Hle. lia.
    + intros c Hc. destruct (C7 c Hc) as [Hc'|(a' & slot' & ? & ? & ->)]; [|right; exists a', slot'; split_and!; [by right|done..]].
      rewrite T3 in Hc'. injection Hc' as <-. destruct (deadline_by_key p !! key) as [c|].
      * destruct (Z.min_spec c d) as [[_ ->]|[_ ->]]; [by left|right; exists a, slot; split_and!; [by left|done..]].
      * right. exists a, slot. split_and!; [by left|done..].
  - cbn [mbind result_bind]. destruct (park_spec p key a Hp) as (P1 & P2 & P3 & P4).
    destruct (IH (park p key a) P1) as (p' & Hf & [C1 C2 C3 C4 C5 C6 C7]); [by rewrite P2|]. exists p'. split; [done|]. rewrite P2, P3 in *. split; try done.
    + intros k a'. rewrite C4, P4, elem_of_cons. naive_solver.
    + intros a' slot' [->|Hin]%elem_of_cons Ha'; [congruence|by apply (C5 a')].
    + intros c Hc. destruct (C7 c Hc) as [?|(a' & slot' & ? & ? & ->)]; [by left|]. right. exists a', slot'. split_and!; [by right|done..].
Qed.

(** What processing a block does: the keys parked at it get a deadline. *)
Record block_resolved p (block_id : HeaderId) (d : Z) p' : Prop := {
  br_ok : policy_ok p';
  br_settings : pp_settings p' = pp_settings p;
  br_parked : ∀ k a, parked p' k a ↔ parked p k a ∧ a ≠ block_id;
  br_deadline : ∀ k, deadline_by_key p' !! k =
    if decide (parked p k block_id) then Some (match deadline_by_key p !! k with Some c => Z.min c d | None => d end) else deadline_by_key p !! k
}.

(** The keys parked at a block that was processed, one by one. *)
Lemma unpark_keys block_id d keys : ∀ p, sets_ok (keys_by_deadline p) → sets_ok (parked_by_block p) → sets_ok (parked_by_key p) →
  (∀ d key, member (keys_by_deadline p) d key ↔ deadline_by_key p !! key = Some d) →
  let p' := foldl (unpark_at block_id d) p keys in
  (sets_ok (keys_by_deadline p') ∧ sets_ok (parked_by_key p') ∧ (∀ d key, member (keys_by_deadline p') d key ↔ deadline_by_key p' !! key = Some d)) ∧
  pp_settings p' = pp_settings p ∧ parked_by_block p' = parked_by_block p ∧
  (∀ k a, parked p' k a ↔ parked p k a ∧ ¬ (a = block_id ∧ k ∈ keys)) ∧
  ∀ k, deadline_by_key p' !! k =
    if decide (k ∈ keys) then Some (match deadline_by_key p !! k with Some c => Z.min c d | None => d end) else deadline_by_key p !! k.
Proof.
  induction keys as [|key keys IH]; intros p H1' H2' H3' H4' p'.
  { split_and!; try done. intros k a. set_solver. }
  unfold p'. cbn [foldl]. clear p'. set (q := mkPowPolicy (pp_settings p) (deadline_by_key p) (keys_by_deadline p) ∅ ∅).
  assert (policy_ok q) as Hq.
  { split; [done|apply sets_ok_empty|apply sets_ok_empty|done|]. intros a k. unfold member. cbn. rewrite !lookup_empty. cbn. by rewrite !elem_of_nil. }
  destruct (track_spec q key d Hq) as [[T1 _ _ T4 _] _ T5 T6 _]. destruct (remove_member_spec (parked_by_key p) key block_id H3') as [R1 R2].
  assert (∀ q', keys_by_deadline q' = keys_by_deadline q → deadline_by_key q' = deadline_by_key q →
    keys_by_deadline (track q' key d) = keys_by_deadline (track q key d) ∧ deadline_by_key (track q' key d) = deadline_by_key (track q key d) ∧
    pp_settings (track q' key d) = pp_settings q' ∧ parked_by_block (track q' key d) = parked_by_block q' ∧ parked_by_key (track q' key d) = parked_by_key q') as Hsame.
  { intros q' Ek Ed. unfold track. rewrite Ed. destruct (deadline_by_key q !! key) as [c|]; [destruct (c <=? d)|]; cbn; rewrite ?Ek, ?Ed; done. }
  unfold unpark_at at 2 4 6 8 10 12 14 16. set (q' := mkPowPolicy (pp_settings p) (deadline_by_key p) (keys_by_deadline p) (parked_by_block p) (remove_member (parked_by_key p) key block_id)).
  destruct (Hsame q' eq_refl eq_refl) as (E1 & E2 & E3 & E4 & E5).
  destruct (IH (track q' key d)) as (F1 & F2 & F3 & F4 & F5); [by rewrite E1|by rewrite E4|by rewrite E5|by rewrite E1, E2|].
  split; [done|]. split; [by rewrite F2, E3|]. split; [by rewrite F3, E4|]. split.
  - intros k a. rewrite F4. unfold parked. rewrite E5. cbn [q' parked_by_key]. rewrite R2, elem_of_cons. split.
    + intros [[? Hn1] Hn2]. split; [done|]. intros [-> [->|?]]; [by apply Hn1|by apply Hn2].
    + intros [? Hn]. split; [split; [done|]; intros [-> ->]; apply Hn; split; [done|by left]|]. intros [-> ?]. apply Hn. split; [done|by right].
  - intros k. rewrite F5, E2. destruct (decide (k = key)) as [->|Hk].
    + rewrite T5. cbn [q deadline_by_key]. rewrite (decide_True (P:=key ∈ key :: keys)) by by left.
      case_decide; [|done]. f_equal. destruct (deadline_by_key p !! key); lia.
    + rewrite (T6 k Hk). cbn [q deadline_by_key]. destruct (decide (k ∈ keys)) as [Hin|Hin]; [rewrite decide_True by (by right); done|].
      rewrite decide_False; [done|]. by intros [?|?]%elem_of_cons.
Qed.

Lemma processed_spec {E : Type} p block_id slot : policy_ok p → windows_ok (pp_settings p) → 0 <= slot →
  ∃ p', pow_on_processed_block (E:=E) p block_id slot = Ok p' ∧ block_resolved p block_id (deadline_at (pp_settings p) slot) p'.
Proof.
  intros [H1' H2' H3' H4' H5'] Hw Hs. unfold pow_on_processed_block. destruct (parked_by_block p !! block_id) as [keys|] eqn:Hb.
  2:{ exists p. split; [done|]. assert (∀ k, ¬ parked p k block_id) as Hn.
      { intros k Hk. apply H5' in Hk. unfold member in Hk. rewrite Hb in Hk. by apply not_elem_of_nil in Hk. }
      split; [by split|done| |].
      - intros k a. split; [|by intros []]. intros Hk. split; [done|]. intros ->. by apply (Hn k).
      - intros k. by rewrite decide_False. }
  set (q := mkPowPolicy (pp_settings p) (deadline_by_key p) (keys_by_deadline p) (delete block_id (parked_by_block p)) (parked_by_key p)).
  rewrite (deadline_for_ok q slot Hw Hs). cbn [mbind result_bind]. eexists. split; [done|].
  assert (sets_ok (delete block_id (parked_by_block p))) as Hd by (intros a l; rewrite lookup_delete_Some; intros [_ ?]; by apply (H2' a)).
  assert (∀ k, k ∈ keys ↔ parked p k block_id) as Hkeys.
  { intros k. unfold parked. rewrite <- H5'. unfold member. by rewrite Hb. }
  destruct (unpark_keys block_id (deadline_at (pp_settings p) slot) keys q H1' Hd H3' H4') as ((F1 & F1' & F1'') & F2 & F3 & F4 & F5).
  cbn [q pp_settings] in *. split; [|done| |].
  - split; [done|by rewrite F3|done|done|]. intros a k. rewrite F3. cbn [q parked_by_block]. change (member (parked_by_key ?q) k a) with (parked q k a). rewrite F4.
    rewrite Hkeys. unfold parked, member in *. cbn [q parked_by_key]. rewrite <- (H5' a k), <- (H5' block_id k). unfold member.
    destruct (decide (a = block_id)) as [->|Ha]; [rewrite lookup_delete_eq; cbn; set_solver|]. rewrite lookup_delete_ne by done. naive_solver.
  - intros k a. rewrite F4, Hkeys. unfold parked. cbn [q parked_by_key]. naive_solver.
  - intros k. rewrite F5. cbn [q deadline_by_key]. destruct (decide (k ∈ keys)) as [Hk|Hk].
    + rewrite decide_True; [done|by apply Hkeys].
    + rewrite decide_False; [done|]. by rewrite <- Hkeys.
Qed.

(** The keys past their deadline. *)
Lemma past_deadline_spec p c key : policy_ok p →
  key ∈ past_deadline p c ↔ ∃ slot d, clock_slot c = Some slot ∧ deadline_by_key p !! key = Some d ∧ d <= slot.
Proof.
  intros Hp. unfold past_deadline. destruct (clock_slot c) as [slot|]; [|split; [by intros ?%not_elem_of_nil|by intros (? & ? & ? & _)]].
  rewrite list_elem_of_In, in_concat. setoid_rewrite <- list_elem_of_In. unfold btree_range. split.
  - intros (l & ([d l'] & -> & Hd)%list_elem_of_fmap & Hk). rewrite merge_sort_Permutation in Hd. apply list_elem_of_filter in Hd as [Hle Hin].
    apply elem_of_map_to_list in Hin. exists slot, d. cbn in *. split_and!; [done| |done]. apply (po_filed _ Hp). unfold member. by rewrite Hin.
  - intros (slot' & d & [= <-] & Hd & Hle). apply (po_filed _ Hp) in Hd. unfold member in Hd. destruct (keys_by_deadline p !! d) as [l|] eqn:Hl; [|by apply not_elem_of_nil in Hd].
    exists l. split; [|done]. apply list_elem_of_fmap. exists (d, l). split; [done|]. rewrite merge_sort_Permutation. apply list_elem_of_filter. split; [done|].
    by apply elem_of_map_to_list.
Qed.

(** ** The evictor *)

(** The policies of an evictor: the age, and that of claims if it is enabled. *)
Definition policies_of (ttl : option Z) (pp : option PowClaimPolicy) : list Policy :=
  TtlPolicy ttl :: match pp with Some p => [PowClaim p] | None => [] end.

Record evictor_ok e (ttl : option Z) (pp : option PowClaimPolicy) : Prop := {
  eo_policies : policies e = policies_of ttl pp;
  eo_policy : ∀ p, pp = Some p → policy_ok p ∧ windows_ok (pp_settings p);
  eo_slot : ∀ slot, ev_slot e = Some slot → 0 <= slot
}.

(** The policies before and after an operation. *)
Definition policy_rel (R : PowClaimPolicy → PowClaimPolicy → Prop) (pp pp' : option PowClaimPolicy) : Prop :=
  match pp, pp' with Some p, Some p' => R p p' | None, None => True | _, _ => False end.

Lemma evictor_new_ok ttl pow : (∀ s, pow = Some s → windows_ok s) → evictor_ok (evictor_new ttl pow) ttl (pow_policy_new <$> pow).
Proof.
  intros Hw. split; [by destruct pow| |done]. intros p. destruct pow as [s|]; [|done]. intros [= <-]. split; [apply policy_new_ok|by apply Hw].
Qed.

Lemma on_add_spec {E : Type} e ttl pp key tx slots : evictor_ok e ttl pp → slots_ok slots →
  ∃ e' pp', on_add (E:=E) e key tx slots = Ok e' ∧ ev_slot e' = ev_slot e ∧ evictor_ok e' ttl pp' ∧
    policy_rel (λ p p', claims_tracked p key (claim_anchors tx) slots p') pp pp'.
Proof.
  intros [Hp Hpp Hsl] Hs. unfold on_add. rewrite Hp. destruct pp as [p|]; cbn [policies_of mapM policy_on_add mbind result_bind].
  - destruct (Hpp p eq_refl) as [Ho Hw]. destruct (add_claims (E:=E) key slots (claim_anchors tx) Hs p Ho Hw) as (p' & Hf & Hc).
    unfold pow_on_add. rewrite Hf. cbn. exists (mkEvictor (policies_of ttl (Some p')) (ev_slot e)), (Some p'). split_and!; [done..| |done].
    split; [done| |done]. intros q [= <-]. destruct Hc as [? Hset]. by rewrite Hset.
  - exists (mkEvictor (policies_of ttl None) (ev_slot e)), None. by split_and!.
Qed.

Lemma on_release_spec e ttl pp key : evictor_ok e ttl pp →
  ∃ pp', ev_slot (on_release e key) = ev_slot e ∧ evictor_ok (on_release e key) ttl pp' ∧
    policy_rel (λ p p', pp_settings p' = pp_settings p ∧ (∀ k, deadline_by_key p' !! k = if decide (k = key) then None else deadline_by_key p !! k) ∧
      ∀ k a, parked p' k a ↔ parked p k a ∧ k ≠ key) pp pp'.
Proof.
  intros [Hp Hpp Hsl]. unfold on_release. rewrite Hp. destruct pp as [p|]; cbn.
  - destruct (Hpp p eq_refl) as [Ho Hw]. destruct (release_spec p key Ho) as (R1 & R2 & R3 & R4). exists (Some (pow_on_release p key)).
    split_and!; [done| |done..]. split; [done| |done]. intros q [= <-]. by rewrite R2.
  - exists None. by split_and!.
Qed.

Lemma on_processed_spec {E : Type} e ttl pp block_id slot : evictor_ok e ttl pp → 0 <= slot →
  ∃ e' pp', on_processed_block (E:=E) e block_id slot = Ok e' ∧ ev_slot e' = Some (match ev_slot e with Some c => Z.max c slot | None => slot end) ∧
    evictor_ok e' ttl pp' ∧ policy_rel (λ p p', block_resolved p block_id (deadline_at (pp_settings p) slot) p') pp pp'.
Proof.
  intros [Hp Hpp Hsl] Hs. unfold on_processed_block. rewrite Hp. set (sl := match ev_slot e with Some c => Z.max c slot | None => slot end).
  assert (∀ s, Some sl = Some s → 0 <= s) as Hsl'.
  { intros s [= <-]. unfold sl. destruct (ev_slot e); [lia|done]. }
  destruct pp as [p|]; cbn [policies_of mapM policy_on_processed_block mbind result_bind].
  - destruct (Hpp p eq_refl) as [Ho Hw]. destruct (processed_spec (E:=E) p block_id slot Ho Hw Hs) as (p' & Hf & Hc). rewrite Hf. cbn.
    exists (mkEvictor (policies_of ttl (Some p')) (Some sl)), (Some p'). split_and!; [done..| |done]. split; [done| |done].
    intros q [= <-]. destruct Hc as [? Hset]. by rewrite Hset.
  - exists (mkEvictor (policies_of ttl None) (Some sl)), None. by split_and!.
Qed.

(** A transaction is expired if some claim in it, with a known anchor, is past its deadline. *)
Definition claim_expired (pp : option PowClaimPolicy) (slot : option Z) tx (slots : BlockSlots) : Prop :=
  ∃ p now a s, pp = Some p ∧ slot = Some now ∧ a ∈ claim_anchors tx ∧ slots !! a = Some s ∧ deadline_at (pp_settings p) s <= now.

Lemma is_expired_spec {E : Type} e ttl pp tx now slots : evictor_ok e ttl pp → slots_ok slots →
  ∃ b, is_expired (E:=E) e tx now slots = Ok b ∧ (b = true ↔ claim_expired pp (ev_slot e) tx slots).
Proof.
  intros [Hp Hpp Hsl] Hs. unfold is_expired, claim_expired. rewrite Hp. destruct pp as [p|]; cbn [policies_of any_result policy_is_expired mbind result_bind].
  2:{ exists false. split; [done|]. naive_solver. }
  destruct (Hpp p eq_refl) as [Ho Hw]. unfold pow_is_expired. cbn [clock_slot clock]. destruct (ev_slot e) as [slot|].
  2:{ exists false. split; [done|]. naive_solver. }
  match goal with |- context [any_result ?g (claim_anchors tx)] => set (f := g) end.
  assert (∀ l, ∃ b, any_result (E:=E) f l = Ok b ∧ (b = true ↔ ∃ a s, a ∈ l ∧ slots !! a = Some s ∧ deadline_at (pp_settings p) s <= slot)) as Hany.
  { induction l as [|a l (b & Hb & He)]; cbn [any_result]; [exists false; split; [done|set_solver]|]. 
    assert (f a = match slots !! a with Some s => d ← deadline_for p s; Ok (d <=? slot) | None => Ok false end) as -> by done.
    destruct (slots !! a) as [s|] eqn:Ha.
    - rewrite (deadline_for_ok p s Hw (Hs a s Ha)). cbn [mbind result_bind]. destruct (Z.leb_spec (deadline_at (pp_settings p) s) slot).
      + exists true. split; [done|]. split; [|done]. intros _. exists a, s. split_and!; [by left|done..].
      + exists b. split; [done|]. rewrite He. split; intros (a' & s' & Hin & Ha' & Hle); exists a', s'; [split_and!; [by right|done..]|].
        apply elem_of_cons in Hin as [->|Hin]; [|done]. rewrite Ha in Ha'. injection Ha' as <-. lia.
    - cbn [mbind result_bind]. exists b. split; [done|]. rewrite He. split; intros (a' & s' & Hin & Ha' & Hle); exists a', s'; [split_and!; [by right|done..]|].
      apply elem_of_cons in Hin as [->|Hin]; [congruence|done]. }
  destruct (Hany (claim_anchors tx)) as (b & Hb & He). rewrite Hb. cbn [mbind result_bind]. exists b. split; [by destruct b|]. rewrite He. split.
  - intros (a & s & ? & ? & ?). by exists p, slot, a, s.
  - intros (q & sl & a & s & [= <-] & [= <-] & ? & ? & ?). by exists a, s.
Qed.

(** The keys a claim makes leave. *)
Definition claim_due (pp : option PowClaimPolicy) (slot : option Z) key : Prop :=
  ∃ p now d, pp = Some p ∧ slot = Some now ∧ deadline_by_key p !! key = Some d ∧ d <= now.

Lemma claim_due_lapsed e ttl pp now key : evictor_ok e ttl pp →
  claim_due pp (ev_slot e) key ↔ ∃ p, pp = Some p ∧ key ∈ past_deadline p (clock e now).
Proof.
  intros [_ Hpp _]. split.
  - intros (p & slot & d & -> & Hs & Hd & Hle). exists p. split; [done|]. apply past_deadline_spec; [by apply Hpp|]. by exists slot, d.
  - intros (p & -> & (slot & d & ? & ? & ?)%past_deadline_spec); [|by apply Hpp]. by exists p, slot, d.
Qed.

Lemma retirements_spec e ttl pp now pending : evictor_ok e ttl pp → NoDup (select_retirements e now pending) ∧
  ∀ key, key ∈ select_retirements e now pending ↔ key ∈ ttl_expired ttl pending now ∨ claim_due pp (ev_slot e) key.
Proof.
  intros Ho. unfold select_retirements. destruct (index_set_spec (concat (policy_retirements (clock e now) pending <$> policies e))) as [Hn He].
  split; [done|]. intros key. rewrite He, (claim_due_lapsed e ttl pp now key Ho), (eo_policies _ _ _ Ho). destruct pp as [p|]; cbn; rewrite ?app_nil_r, ?elem_of_app; naive_solver.
Qed.

(** Retired keys that are too old. *)
Definition ttl_due (ttl : option Z) (retired : gmap TxHash Z) (now : Z) key : Prop :=
  ∃ t admitted_at, ttl = Some t ∧ retired !! key = Some admitted_at ∧ as_millis_u64 (t + RETIREMENT_GRACE) <= saturating_sub now admitted_at.

Definition ttl_fits (ttl : option Z) : Prop := ∀ t, ttl = Some t → t + RETIREMENT_GRACE <= duration_max_nanos.

Lemma releases_spec {E : Type} e ttl pp now retired included : evictor_ok e ttl pp → ttl_fits ttl →
  ∃ l, select_releases (E:=E) e now retired included = Ok l ∧ NoDup l ∧
    ∀ key, key ∈ l ↔ ttl_due ttl retired now key ∨ claim_due pp (ev_slot e) key ∧ (is_Some (retired !! key) ∨ is_Some (included !! key)).
Proof.
  intros Ho Hf. assert (∃ l, due_for_release (E:=E) ttl (ordered_entries retired) now = Ok l ∧ ∀ key, key ∈ l ↔ ttl_due ttl retired now key) as (l & Hl & Hdue).
  { unfold due_for_release, ttl_due. destruct ttl as [t|]; [|exists []; split; [done|set_solver]]. rewrite strict_add_in by by apply Hf. cbn [mbind result_bind].
    eexists. split; [done|]. intros key. rewrite list_elem_of_fmap. setoid_rewrite list_elem_of_filter. unfold ordered_entries. setoid_rewrite merge_sort_Permutation. split.
    - intros ([k a] & -> & Hle & Hin%elem_of_map_to_list). by exists t, a.
    - intros (t' & a & [= <-] & Ha & Hle). exists (key, a). split_and!; [done..|by apply elem_of_map_to_list]. }
  unfold select_releases. rewrite (eo_policies _ _ _ Ho). cbn [policies_of mapM policy_releases]. change (now_millis (clock e now)) with now. rewrite Hl. cbn [mbind result_bind].
  destruct pp as [p|]; cbn [mapM policy_releases mbind result_bind]; eexists; (split; [done|]).
  - destruct (index_set_spec (concat [l; filter (λ key, is_Some (retired !! key) ∨ is_Some (included !! key)) (past_deadline p (clock e now))])) as [? He].
    split; [done|]. intros key. rewrite He, (claim_due_lapsed e ttl (Some p) now key Ho). cbn [concat]. rewrite app_nil_r, elem_of_app, Hdue, list_elem_of_filter. naive_solver.
  - destruct (index_set_spec (concat [l])) as [? He]. split; [done|]. intros key. rewrite He. cbn [concat]. rewrite app_nil_r, Hdue. unfold claim_due. naive_solver.
Qed.

End EvictionFacts.
