(* ===== verification/MempoolFacts.v ===== *)
(** * The invariant of the mempool

    A held transaction is pending, retired or carried by a canonical block, and only
    one of these; its body is stored, its key is in the prefix index once, and the
    claims in it are tracked. Pending transactions are ordered by admission time. *)

From stdpp Require Import sorting.
From S2P Require Import Prelude Era EraFacts Codec Ops Utxos ServiceNotes ChannelOps SignedTx Blocks Eviction Mempool EvictionFacts.

#[local] Open Scope Z_scope.

Module MempoolFacts.
Import Canonical Ops Utxos ServiceNotes ChannelOps SignedTx Blocks Eviction Mempool EvictionFacts.

(** What the pool relies on: the storage keeps the bodies it was given until it is
    asked to remove them, a failed operation leaves them as they are, and the slots
    it finds are those of the blocks. The adapter over the storage service sends a
    write without waiting for it; one that fails after it was sent is not covered. *)
Class MempoolStorageLaws (S : Type) `{!MempoolStorage S} (slot_of : HeaderId → option Z) := {
  bodies : S → gmap TxHash SignedOps;
  store_ok s key item s' : store_item s key item = (s', true) → bodies s' = <[key := item]> (bodies s);
  store_err s key item s' : store_item s key item = (s', false) → bodies s' = bodies s;
  remove_ok s keys s' key : remove_items s keys = (s', true) → bodies s' !! key = if decide (key ∈ keys) then None else bodies s !! key;
  remove_err s keys s' : remove_items s keys = (s', false) → bodies s' = bodies s;
  get_ok s keys items : get_items s keys = Some items → items = omap (λ key, bodies s !! key) keys;
  rotate_bodies s era : bodies (storage_rotate_era s era) = bodies s;
  complete_bodies s era : bodies (storage_complete_era_transition s era) = bodies s;
  block_slots_ok s anchors a slot : get_block_slots s anchors !! a = Some slot → slot_of a = Some slot
}.

(** The fields of an updated pool. *)
Ltac pool_cbn := cbn [with_pending with_prefixes with_retired with_evictor with_storage pending_items by_prefix removed_items included_in_canonical
  settings last_item_timestamp evictor era_in_force storage_adapter readings].

Ltac pool_cbn_all := cbn [with_pending with_prefixes with_retired with_evictor with_storage pending_items by_prefix removed_items included_in_canonical
  settings last_item_timestamp evictor era_in_force storage_adapter readings] in *.

(** A loop that leaves a part of the state alone. *)
Lemma foldl_same {A B C : Type} (part : A → C) (f : A → B → A) (l : list B) : (∀ a b, part (f a b) = part a) → ∀ a, part (foldl f a l) = part a.
Proof. intros Hf. induction l as [|b l IH]; intros a; cbn [foldl]; [done|]. by rewrite IH. Qed.

(** ** Pending items *)

Implicit Types (m : list (TxHash * Z)) (key : TxHash).

Definition time_le (a b : TxHash * Z) : Prop := a.2 <= b.2.
Definition pending_ok m : Prop := NoDup m.*1 ∧ StronglySorted time_le m.

Lemma pending_get_elem m key t : NoDup m.*1 → pending_get m key = Some t ↔ (key, t) ∈ m.
Proof.
  unfold pending_get. induction m as [|[k x] m IH]; [cbn; set_solver|]. cbn [fmap list_fmap]. intros [Hk Hn]%NoDup_cons. cbn [list_find fst].
  destruct (decide (k = key)) as [->|Hne].
  - cbn. rewrite elem_of_cons. split; [intros [= ->]; by left|]. intros [[= ->]|Hin]; [done|]. destruct Hk. by apply (list_elem_of_fmap_2 fst _ (key, t)).
  - rewrite elem_of_cons. destruct (list_find (λ e, e.1 = key) m) as [[i e]|]; cbn in *; rewrite <- IH by done; naive_solver.
Qed.

Lemma pending_get_some m key : is_Some (pending_get m key) ↔ key ∈ m.*1.
Proof.
  unfold pending_get. induction m as [|[k x] m IH]; [cbn; split; [by intros []|by intros ?%not_elem_of_nil]|]. cbn [fmap list_fmap list_find fst]. rewrite elem_of_cons.
  destruct (decide (k = key)) as [->|Hne]; [cbn; split; [by left|by eexists]|].
  destruct (list_find (λ e, e.1 = key) m) as [[i e]|]; cbn in *; rewrite <- IH; naive_solver.
Qed.

Lemma pending_get_none m key : pending_get m key = None ↔ key ∉ m.*1.
Proof. by rewrite eq_None_not_Some, pending_get_some. Qed.

Lemma StronglySorted_sublist {A} (R : A → A → Prop) (l k : list A) : sublist l k → StronglySorted R k → StronglySorted R l.
Proof.
  induction 1 as [|x l k Hl IH|x l k Hl IH]; [done| |]; intros [Hs Hf]%StronglySorted_inv; [|by apply IH]. constructor; [by apply IH|].
  rewrite Forall_forall in *. intros y Hy. apply Hf. by eapply elem_of_sublist.
Qed.

Lemma shift_remove_spec m key : pending_ok m → pending_ok (shift_remove m key) ∧
  ∀ k, pending_get (shift_remove m key) k = if decide (k = key) then None else pending_get m k.
Proof.
  intros [Hn Hs]. unfold shift_remove. assert (∀ e, e ∈ filter (λ e, e.1 ≠ key) m ↔ e ∈ m ∧ e.1 ≠ key) as Hel by (intros e; rewrite list_elem_of_filter; tauto).
  assert (pending_ok (filter (λ e, e.1 ≠ key) m)) as Hok.
  { split; [eapply sublist_NoDup; [exact Hn|]; apply fmap_sublist, sublist_filter|]. eapply StronglySorted_sublist; [|done]. apply sublist_filter. }
  split; [done|]. intros k. apply option_eq. intros t. rewrite (pending_get_elem _ k t (proj1 Hok)), Hel. destruct (decide (k = key)) as [->|Hk]; [naive_solver|].
  rewrite pending_get_elem by done. naive_solver.
Qed.

Lemma shift_remove_id m key : key ∉ m.*1 → shift_remove m key = m.
Proof.
  intros Hk. apply list_filter_all. apply Forall_forall. intros [k t] Hin. cbn. intros ->. apply Hk. by apply (list_elem_of_fmap_2 fst _ (key, t)).
Qed.

Lemma insert_pending_spec m key t : pending_ok m → key ∉ m.*1 → let m' := shift_insert m (partition_point m t) key t in
  pending_ok m' ∧ ∀ k, pending_get m' k = if decide (k = key) then Some t else pending_get m k.
Proof.
  intros [Hn Hs] Hk. unfold shift_insert. rewrite (shift_remove_id m key Hk). cbv zeta. set (m' := _ ++ _).
  assert (m' ≡ₚ (key, t) :: m) as Hp.
  { unfold m'. rewrite <- Permutation_middle. by rewrite take_drop. }
  assert (NoDup m'.*1) as Hn'.
  { rewrite Hp. cbn. by apply NoDup_cons. }
  split; [split; [done|]|].
  - unfold m'. clear -Hs. induction Hs as [|e m Hs IH Hf]; cbn [partition_point take_while take drop length app]; [repeat constructor|].
    unfold partition_point. cbn [take_while]. destruct (Z.leb_spec e.2 t); cbn [length take drop app].
    + constructor; [exact IH|]. apply Forall_app. split; [by apply Forall_take|]. constructor; [done|by apply Forall_drop].
    + constructor; [by constructor|]. constructor; [unfold time_le; cbn; lia|]. eapply Forall_impl; [exact Hf|]. unfold time_le. cbn. lia.
  - intros k. apply option_eq. intros x. rewrite (pending_get_elem _ k x Hn'), Hp, elem_of_cons. destruct (decide (k = key)) as [->|Hne].
    + split; [|intros [= ->]; by left]. intros [[= ->]|Hin]; [done|]. destruct Hk. by apply (list_elem_of_fmap_2 fst _ (key, x)).
    + rewrite pending_get_elem by done. naive_solver.
Qed.

(** Expired items are exactly those old enough, since the pending ones are ordered. *)
Lemma ttl_expired_spec ttl m now key : StronglySorted time_le m →
  key ∈ ttl_expired (Some ttl) m now ↔ ∃ t, (key, t) ∈ m ∧ as_millis_u64 ttl <= saturating_sub now t.
Proof.
  intros Hs. unfold ttl_expired. rewrite list_elem_of_fmap. split.
  - intros ([k t] & -> & Hin). exists t. cbn [fst]. induction Hs as [|e m Hs IH Hf]; cbn [take_while] in Hin; [by apply not_elem_of_nil in Hin|].
    destruct (Z.leb_spec (as_millis_u64 ttl) (saturating_sub now e.2)); [|by apply not_elem_of_nil in Hin].
    apply elem_of_cons in Hin as [<-|Hin]; [split; [by left|done]|]. destruct (IH Hin). split; [by right|done].
  - intros (t & Hin & Hle). exists (key, t). split; [done|]. induction Hs as [|e m Hs IH Hf]; [by apply not_elem_of_nil in Hin|]. cbn [take_while].
    assert (as_millis_u64 ttl <= saturating_sub now e.2) as He.
    { apply elem_of_cons in Hin as [<-|Hin]; [done|]. rewrite Forall_forall in Hf. specialize (Hf _ Hin). unfold time_le in Hf. cbn in Hf. unfold saturating_sub in *. lia. }
    rewrite (proj2 (Z.leb_le _ _) He). apply elem_of_cons in Hin as [<-|Hin]; [by left|right; by apply IH].
Qed.

(** ** The invariant *)

(** [lost] are transactions the evictor may not know the claims of, since their
    bodies could not be read when the pool was recovered. *)
Section Pool.
Context {S : Type} `{!MempoolStorage S} (slot_of : HeaderId → option Z) `{!MempoolStorageLaws S slot_of} {lost : gset TxHash}.
Context `{Ed25519Crate} `{MultiaddrCrate} `{Blake2Crate} `{!TimeCrate}.
Implicit Types (p : Mempool S) (item : SignedOps) (pp : option PowClaimPolicy) (q : PowClaimPolicy).

Definition pending p key : Prop := is_Some (pending_get (pending_items p) key).
Definition removed p key : Prop := is_Some (removed_items p !! key).
Definition included p key : Prop := is_Some (included_in_canonical p !! key).
Definition held p key : Prop := pending p key ∨ removed p key ∨ included p key.

(** The time a held transaction was admitted at. *)
Definition admitted p key : option Z :=
  match pending_get (pending_items p) key with
  | Some t => Some t
  | None => match removed_items p !! key with Some t => Some t | None => in_admitted_at <$> included_in_canonical p !! key end
  end.

Lemma held_admitted p key : held p key ↔ is_Some (admitted p key).
Proof.
  unfold held, pending, removed, included, admitted. destruct (pending_get (pending_items p) key); [naive_solver|].
  destruct (removed_items p !! key); [naive_solver|]. rewrite fmap_is_Some, <- !not_eq_None_Some. naive_solver.
Qed.

Definition body p key : option SignedOps := bodies (slot_of:=slot_of) (storage_adapter p) !! key.

Definition hashes item key : Prop := ∀ E : Type, tx_hasher (E:=E) item = Ok key.

(** A deadline is that of a claim of the transaction. *)
Definition deadline_sound q key (d : Z) : Prop := ∃ item a slot, hashes item key ∧ a ∈ claim_anchors item ∧ slot_of a = Some slot ∧
  d = deadline_at (pp_settings q) slot.
Definition parked_sound key (a : HeaderId) : Prop := ∃ item, hashes item key ∧ a ∈ claim_anchors item.

(** A claim is tracked: it waits for its anchor, or the key leaves by its deadline. *)
Definition claim_tracked q key (a : HeaderId) : Prop :=
  parked q key a ∨ ∃ d slot, deadline_by_key q !! key = Some d ∧ slot_of a = Some slot ∧ d <= deadline_at (pp_settings q) slot.

(** The claims in some transactions that are not lost, and only claims in these
    transactions, are tracked. *)
Record claims_in (K : TxHash → Prop) (txs : TxHash → option SignedOps) q : Prop := {
  cl_tracked : ∀ key item a, K key → key ∉ lost → txs key = Some item → a ∈ claim_anchors item → claim_tracked q key a;
  cl_held : ∀ key, tracked q key → K key;
  cl_deadline : ∀ key d, deadline_by_key q !! key = Some d → deadline_sound q key d;
  cl_parked : ∀ key a, parked q key a → parked_sound key a
}.
Definition claims_ok p q : Prop := claims_in (held p) (body p) q.

Record pool_ok p pp : Prop := {
  pk_pending : pending_ok (pending_items p);
  pk_pending_removed : ∀ key, pending p key → ¬ removed p key;
  pk_pending_included : ∀ key, pending p key → ¬ included p key;
  pk_removed_included : ∀ key, removed p key → ¬ included p key;
  pk_index : sets_ok (by_prefix p);
  pk_prefix : ∀ prefix key, member (by_prefix p) prefix key ↔ held p key ∧ tx_hash_prefix key = prefix;
  pk_bodies : ∀ key, held p key → ∃ item, body p key = Some item ∧ hashes item key;
  pk_evictor : evictor_ok (evictor p) (tx_ttl (settings p)) pp;
  pk_claims : ∀ q, pp = Some q → claims_ok p q;
  pk_windows : pow_claim (settings p) = pp_settings <$> pp
}.

(** The settings and the slots of blocks are in the range of the machine. *)
Record pool_env p : Prop := {
  pe_ttl : ttl_fits (tx_ttl (settings p));
  pe_windows : ∀ s, pow_claim (settings p) = Some s → windows_ok s;
  pe_timing : ∀ s, era_timing (settings p) = Some s → e_first_slot (s_genesis s) = 0;
  pe_slots : ∀ a slot, slot_of a = Some slot → 0 <= slot;
  pe_limits : ∀ v, v ∈ eras (admission (settings p)) → 0 <= al_max_op_data_size (v_parameters v)
}.

#[local] Instance pending_dec p key : Decision (pending p key) := _.

(** Parts of the pool that an operation does not touch. *)
Definition same_settings p p' : Prop := settings p' = settings p ∧ era_in_force p' = era_in_force p.

Lemma env_same p p' : settings p' = settings p → pool_env p → pool_env p'.
Proof. intros Hs []. split; rewrite ?Hs; done. Qed.

Lemma new_ok st era s readings : (∀ w, pow_claim st = Some w → windows_ok w) →
  pool_ok (mempool_new st era s readings) (pow_policy_new <$> pow_claim st).
Proof.
  intros Hw. set (p := mempool_new st era s readings). assert (∀ key, ¬ held p key) as Hh by (intros key [[? ?]|[[? ?]|[? ?]]]; done).
  split.
  - split; constructor.
  - intros key Hk. destruct (Hh key). by left.
  - intros key Hk. destruct (Hh key). by left.
  - intros key Hk. destruct (Hh key). right. by left.
  - apply sets_ok_empty.
  - intros prefix key. unfold member. cbn. rewrite lookup_empty. cbn. rewrite elem_of_nil. split; [done|]. intros [Hk _]. by apply (Hh key).
  - intros key Hk. by destruct (Hh key).
  - by apply evictor_new_ok.
  - intros q. destruct (pow_claim st) as [w|]; [|done]. intros [= <-].
    assert (∀ key a, ¬ parked (pow_policy_new w) key a) as Hn by (intros key a Ha; unfold parked, member in Ha; cbn in Ha; by apply not_elem_of_nil in Ha).
    split; [intros key item a Hk; by destruct (Hh key)|intros key [[? ?]|[a Ha]]; [done|by destruct (Hn key a)]|done|intros key a Ha; by destruct (Hn key a)].
  - cbn. by destruct (pow_claim st).
Qed.

(** ** Releases *)

(** Stopping to track keys. *)
Definition untracked (l : list TxHash) q q' : Prop := pp_settings q' = pp_settings q ∧
  (∀ k, deadline_by_key q' !! k = if decide (k ∈ l) then None else deadline_by_key q !! k) ∧ ∀ k a, parked q' k a ↔ parked q k a ∧ k ∉ l.

Lemma release_keys ttl l : ∀ (e : Evictor) pp, evictor_ok e ttl pp →
  ∃ pp', ev_slot (foldl on_release e l) = ev_slot e ∧ evictor_ok (foldl on_release e l) ttl pp' ∧ policy_rel (untracked l) pp pp'.
Proof.
  induction l as [|key l IH]; intros e pp He; cbn [foldl].
  { exists pp. split_and!; [done..|]. destruct pp as [q|]; [|done]. split_and!; [done..|]. set_solver. }
  destruct (on_release_spec e ttl pp key He) as (pp1 & Hs1 & He1 & Hr1). destruct (IH _ _ He1) as (pp2 & Hs2 & He2 & Hr2).
  exists pp2. split_and!; [by rewrite Hs2|done|]. destruct pp as [q|], pp1 as [q1|], pp2 as [q2|]; try done. cbn in *.
  destruct Hr1 as (A1 & A2 & A3), Hr2 as (B1 & B2 & B3). split_and!; [by rewrite B1| |].
  - intros k. rewrite B2, A2. destruct (decide (k ∈ l)) as [Hk|Hk]; [rewrite decide_True by (by right); done|].
    destruct (decide (k = key)) as [->|Hne]; [rewrite decide_True by (by left); done|]. rewrite decide_False; [done|]. by intros [?|?]%elem_of_cons.
  - intros k a. rewrite B3, A3, elem_of_cons. tauto.
Qed.

Lemma unindex_keys (l : list TxHash) : ∀ (m : gmap (list byte) (list TxHash)), sets_ok m →
  let m' := foldl (λ idx key, remove_member idx (tx_hash_prefix key) key) m l in
  sets_ok m' ∧ ∀ prefix key, member m' prefix key ↔ member m prefix key ∧ ¬ (key ∈ l ∧ tx_hash_prefix key = prefix).
Proof.
  induction l as [|k l IH]; intros m Hm; cbn [foldl]; [split; [done|set_solver]|]. destruct (remove_member_spec m (tx_hash_prefix k) k Hm) as [R1 R2].
  destruct (IH _ R1) as [F1 F2]. split; [done|]. intros prefix key. rewrite F2, R2, elem_of_cons. split.
  - intros [[? Hn1] Hn2]. split; [done|]. intros [[->|?] <-]; [by apply Hn1|by apply Hn2].
  - intros [? Hn]. split; [split; [done|]; intros [-> ->]; apply Hn; split; [by left|done]|]. intros [? <-]. apply Hn. split; [by right|done].
Qed.

(** Keys that leave the pool. *)
Record dropped p (l : list TxHash) p' : Prop := {
  dr_pending : pending_items p' = pending_items p;
  dr_settings : same_settings p p';
  dr_removed : ∀ k, removed_items p' !! k = if decide (k ∈ l) then None else removed_items p !! k;
  dr_included : ∀ k, included_in_canonical p' !! k = if decide (k ∈ l) then None else included_in_canonical p !! k;
  dr_index : by_prefix p' = foldl (λ idx key, remove_member idx (tx_hash_prefix key) key) (by_prefix p) l;
  dr_evictor : evictor p' = foldl on_release (evictor p) l;
  dr_bodies : ∀ k, body p' k = if decide (k ∈ l) then None else body p k
}.

Lemma dropped_ok p pp (l : list TxHash) p' : pool_ok p pp → (∀ k, k ∈ l → removed p k ∨ included p k) → dropped p l p' →
  ∃ pp', pool_ok p' pp' ∧ ev_slot (evictor p') = ev_slot (evictor p) ∧ policy_rel (untracked l) pp pp' ∧ ∀ k, held p' k ↔ held p k ∧ k ∉ l.
Proof.
  intros [Hp Hpr Hpi Hri Hix Hpx Hb He Hc Hw] Hl [D1 [D2 _] D3 D4 D5 D6 D7].
  destruct (release_keys (tx_ttl (settings p)) l (evictor p) pp He) as (pp' & Hs & He' & Hr). rewrite <- D6 in Hs, He'. rewrite <- D2 in He'.
  assert (∀ k, pending p k → k ∉ l) as Hpl by (intros k Hk Hin; destruct (Hl k Hin); naive_solver).
  assert (∀ k, pending p' k ↔ pending p k) as Ep by (intros k; unfold pending; by rewrite D1).
  assert (∀ k, removed p' k ↔ removed p k ∧ k ∉ l) as Er by (intros k; unfold removed; rewrite D3; case_decide; [split; [by intros []|naive_solver]|naive_solver]).
  assert (∀ k, included p' k ↔ included p k ∧ k ∉ l) as Ei by (intros k; unfold included; rewrite D4; case_decide; [split; [by intros []|naive_solver]|naive_solver]).
  assert (∀ k, held p' k ↔ held p k ∧ k ∉ l) as Eh by (intros k; unfold held; rewrite Ep, Er, Ei; naive_solver).
  destruct (unindex_keys l (by_prefix p) Hix) as [U1 U2]. exists pp'. split_and!; try done. split; try done.
  - by rewrite D1.
  - intros k. rewrite Ep, Er. naive_solver.
  - intros k. rewrite Ep, Ei. naive_solver.
  - intros k. rewrite Er, Ei. naive_solver.
  - by rewrite D5.
  - intros prefix k. rewrite D5, U2, Hpx, Eh. split; [|naive_solver]. intros [[? <-] Hn]. split; [|done]. split; [done|]. intros ?. by apply Hn.
  - intros k [Hk Hn]%Eh. rewrite D7, decide_False by done. by apply Hb.
  - intros q' ->. destruct pp as [q|]; [|done]. destruct (Hc q eq_refl) as [C1 C2 C3 C4]. destruct Hr as (R1 & R2 & R3). split.
    + intros k item a [Hk Hn]%Eh Hl'. rewrite D7, decide_False by done. intros Hbd Ha. unfold claim_tracked. rewrite R1, R3, R2, decide_False by done. destruct (C1 k item a Hk Hl' Hbd Ha); [by left|by right].
    + intros k Ht. apply Eh. destruct Ht as [Hd|[a Ha]].
      * rewrite R2 in Hd. case_decide as Hin; [by destruct Hd|]. split; [|done]. apply C2. by left.
      * apply R3 in Ha as [Ha Hin]. split; [|done]. apply C2. right. by exists a.
    + intros k d. rewrite R2. case_decide; [done|]. intros Hd. destruct (C3 k d Hd) as (item & a & slot & ? & ? & ? & ->). exists item, a, slot. by rewrite R1.
    + intros k a [Ha _]%R3. by apply C4.
  - rewrite D2, Hw. destruct pp as [q|], pp' as [q'|]; try done. cbn. destruct Hr as (-> & _). done.
Qed.

Lemma dropped_admitted p l p' k : dropped p l p' → (∀ k, k ∈ l → ¬ pending p k) → admitted p' k = if decide (k ∈ l) then None else admitted p k.
Proof.
  intros [D1 _ D3 D4 _ _ _] Hl. unfold admitted. rewrite D1, D3, D4. case_decide as Hk; [|done].
  destruct (pending_get (pending_items p) k) eqn:Hp; [|done]. destruct (Hl k Hk). by exists z.
Qed.

Lemma dropped_held p l p' k : dropped p l p' → held p' k → held p k ∧ (k ∈ l → pending p k).
Proof.
  intros [D1 _ D3 D4 _ _ _]. unfold held, pending, removed, included. rewrite D1, D3, D4. case_decide; [|naive_solver]. intros [?|[[? ?]|[? ?]]]; [naive_solver|done..].
Qed.

(** A pool that differs in its clock, its timestamp, its era and the state of its storage only. *)
Record same_pool p p' : Prop := {
  sm_pending : pending_items p' = pending_items p;
  sm_removed : removed_items p' = removed_items p;
  sm_included : included_in_canonical p' = included_in_canonical p;
  sm_index : by_prefix p' = by_prefix p;
  sm_settings : settings p' = settings p;
  sm_evictor : evictor p' = evictor p;
  sm_bodies : ∀ k, body p' k = body p k
}.

Lemma same_held p p' key : same_pool p p' → held p' key ↔ held p key.
Proof. intros []. unfold held, pending, removed, included. by rewrite sm_pending0, sm_removed0, sm_included0. Qed.

Lemma same_pool_ok p p' pp : same_pool p p' → pool_ok p pp → pool_ok p' pp.
Proof.
  intros Hs [Hp Hpr Hpi Hri Hix Hpx Hb He Hc Hw]. pose proof (λ k, same_held p p' k Hs) as Hh. destruct Hs as [S1 S2 S3 S4 S5 S6 S7].
  split; unfold pending, removed, included in *; rewrite ?S1, ?S2, ?S3, ?S4, ?S5, ?S6; try done.
  - intros prefix k. by rewrite Hh.
  - intros k. rewrite Hh, S7. apply Hb.
  - intros q Hq. destruct (Hc q Hq) as [C1 C2 C3 C4]. split; try done.
    + intros k item a. rewrite Hh, S7. apply C1.
    + intros k Ht. by apply Hh, C2.
Qed.

Lemma timestamp_same p : same_pool p (current_timestamp_millis p).2.
Proof. by split. Qed.

(** The keys of deleted bodies leave the index and the evictor, nothing else. *)
Lemma drop_keys l : ∀ p, pending_items (foldl drop_key p l) = pending_items p ∧ removed_items (foldl drop_key p l) = removed_items p ∧
  included_in_canonical (foldl drop_key p l) = included_in_canonical p ∧ same_settings p (foldl drop_key p l) ∧
  storage_adapter (foldl drop_key p l) = storage_adapter p ∧
  by_prefix (foldl drop_key p l) = foldl (λ idx key, remove_member idx (tx_hash_prefix key) key) (by_prefix p) l ∧
  evictor (foldl drop_key p l) = foldl on_release (evictor p) l.
Proof.
  induction l as [|k l IH]; intros p; cbn [foldl]; [by split_and!|]. destruct (IH (drop_key p k)) as (I1 & I2 & I3 & [I4 I4'] & I5 & I6 & I7).
  rewrite I1, I2, I3, I5, I6, I7. by split_and!.
Qed.

Lemma forget_keys l : ∀ p, pending_items (foldl forget_retired p l) = pending_items p ∧ same_settings p (foldl forget_retired p l) ∧
  storage_adapter (foldl forget_retired p l) = storage_adapter p ∧ by_prefix (foldl forget_retired p l) = by_prefix p ∧
  evictor (foldl forget_retired p l) = evictor p ∧
  (∀ k, removed_items (foldl forget_retired p l) !! k = if decide (k ∈ l) then None else removed_items p !! k) ∧
  ∀ k, included_in_canonical (foldl forget_retired p l) !! k = if decide (k ∈ l) then None else included_in_canonical p !! k.
Proof.
  induction l as [|x l IH]; intros p; cbn [foldl]; [by split_and!|]. destruct (IH (forget_retired p x)) as (I1 & [I2 I2'] & I3 & I4 & I5 & I6 & I7).
  split_and!; try done; intros k; [rewrite I6|rewrite I7]; cbn; (destruct (decide (k ∈ l)); [rewrite decide_True by (by right); done|]);
    (destruct (decide (k = x)) as [->|Hk]; [rewrite lookup_delete_eq, decide_True by (by left); done|]);
    rewrite lookup_delete_ne, decide_False by (done || by intros [?|?]%elem_of_cons); done.
Qed.

(** The storage refuses to remove the bodies of some keys. *)
Definition refused (s : S) (P : TxHash → Prop) : Prop := ∃ keys s', (∀ k, k ∈ keys ↔ P k) ∧ remove_items s keys = (s', false).

(** Deleting retired keys and forgetting them either does it all, or the storage refused it and nothing happens. *)
Lemma release_keys_spec p pp l (forget : Mempool S → TxHash → Mempool S) : pool_ok p pp → (∀ k, k ∈ l → removed p k ∨ included p k) →
  (∀ p1, removed_items p1 = removed_items p → included_in_canonical p1 = included_in_canonical p →
    pending_items (foldl forget p1 l) = pending_items p1 ∧ same_settings p1 (foldl forget p1 l) ∧ storage_adapter (foldl forget p1 l) = storage_adapter p1 ∧
    by_prefix (foldl forget p1 l) = by_prefix p1 ∧ evictor (foldl forget p1 l) = evictor p1 ∧
    (∀ k, removed_items (foldl forget p1 l) !! k = if decide (k ∈ l) then None else removed_items p1 !! k) ∧
    ∀ k, included_in_canonical (foldl forget p1 l) !! k = if decide (k ∈ l) then None else included_in_canonical p1 !! k) →
  let p' := let '(p1, deleted) := delete_retained p l in if (deleted : bool) then foldl forget p1 l else p1 in
  dropped p l p' ∨ dropped p [] p' ∧ ∃ s, remove_items (storage_adapter p) l = (s, false).
Proof.
  intros Hok Hl Hforget. unfold delete_retained. destruct l as [|x l']; [|set (l := x :: l') in *].
  { left. destruct (Hforget p eq_refl eq_refl) as (F1 & [F2 F2'] & F3 & F4 & F5 & F6 & F7). cbn [foldl] in *. split; done. }
  destruct (remove_items (storage_adapter p) l) as [s deleted] eqn:Hr. destruct deleted.
  - left. destruct (drop_keys l (with_storage p s)) as (K1 & K2 & K3 & [K4 K4'] & K5 & K6 & K7).
    destruct (Hforget (foldl drop_key (with_storage p s) l)) as (F1 & [F2 F2'] & F3 & F4 & F5 & F6 & F7); [done..|].
    split; rewrite ?F1, ?F4, ?F5, ?K1, ?K6, ?K7; try done.
    + split; [by rewrite F2, K4|by rewrite F2', K4'].
    + intros k. by rewrite F6, K2.
    + intros k. by rewrite F7, K3.
    + intros k. unfold body. rewrite F3, K5. cbn [with_storage storage_adapter]. by apply (remove_ok (slot_of:=slot_of)).
  - right. split; [|by exists s]. split; try done. intros k. unfold body. cbn. by rewrite (remove_err (slot_of:=slot_of) _ _ _ Hr).
Qed.

Lemma dropped_slot p l p' : dropped p l p' → ev_slot (evictor p') = ev_slot (evictor p).
Proof. intros [_ _ _ _ _ -> _]. by apply (foldl_same ev_slot). Qed.

Lemma delete_readings p l : readings (delete_retained p l).1 = readings p.
Proof. unfold delete_retained. destruct l; [done|]. destruct (remove_items _ _) as [s []]; [|done]. cbn [fst]. by rewrite (foldl_same readings drop_key). Qed.

Lemma release_readings {E : Type} p p' : release_retained (E:=E) p = Ok p' → ∀ i, readings p' i = readings p (i + 1)%nat.
Proof.
  unfold release_retained. cbn [current_timestamp_millis]. intros Hr. peel Hr as l Hl. peel Hr as u Hu.
  match type of Hr with context [delete_retained ?q l] => pose proof (delete_readings q l) as Hd; destruct (delete_retained q l) as [p2 b] end.
  injection Hr as <-. intros i. destruct b; [rewrite (foldl_same readings forget_retired) by done|]; cbn in Hd; by rewrite Hd.
Qed.

(** A transaction that is to be released: it was retired for long, or a claim in it is past its deadline. *)
Definition due p pp (now : Z) key : Prop :=
  ttl_due (tx_ttl (settings p)) (removed_items p) now key ∨ claim_due pp (ev_slot (evictor p)) key ∧ (removed p key ∨ included p key).

(** What is released: all that is due, or nothing when the storage refuses it. *)
Definition release_set (s : S) (l : list TxHash) (P : TxHash → Prop) : Prop := l = [] ∧ refused s P ∨ ∀ k, k ∈ l ↔ P k.

Lemma release_set_elem s l P k : release_set s l P → k ∈ l → P k.
Proof. intros [[-> _]|Hl] Hk; [by apply not_elem_of_nil in Hk|by apply Hl]. Qed.

Lemma release_retained_spec {E : Type} p pp : pool_ok p pp → ttl_fits (tx_ttl (settings p)) →
  ∃ p' pp' l, release_retained (E:=E) p = Ok p' ∧ dropped p l p' ∧ release_set (storage_adapter p) l (due p pp (readings p 0%nat)) ∧ pool_ok p' pp' ∧ policy_rel (untracked l) pp pp'.
Proof.
  intros Hok Hf. pose proof (same_pool_ok _ _ pp (timestamp_same p) Hok) as Hok'. unfold release_retained. cbn [current_timestamp_millis].
  set (p1 := mkPool _ _ _ _ _ _ _ _ _ _).
  destruct (releases_spec (E:=E) (evictor p) (tx_ttl (settings p)) pp (readings p 0%nat) (removed_items p) (included_in_canonical p) (pk_evictor _ _ Hok) Hf)
    as (l & Hl & _ & Hdue). change (evictor p1) with (evictor p). change (removed_items p1) with (removed_items p).
  change (included_in_canonical p1) with (included_in_canonical p). rewrite Hl. cbn [mbind result_bind].
  assert (∀ k, k ∈ l ↔ due p pp (readings p 0%nat) k) as Hset by done.
  assert (∀ k, k ∈ l → removed p k ∨ included p k) as Hin by (intros k [(t & a & _ & Ha & _)|[_ ?]]%Hset; [left; by exists a|done]).
  rewrite (proj2 (forallb_forall _ l)).
  2:{ intros k Hk%list_elem_of_In. destruct (Hin k Hk); [rewrite bool_decide_true by done; done|]. rewrite (bool_decide_true (is_Some (included_in_canonical p !! k))) by done. apply orb_true_r. }
  cbn [assert_ mbind result_bind]. pose proof (release_keys_spec p1 pp l forget_retired Hok' Hin (λ p2 _ _, forget_keys l p2)) as Hr. cbv zeta in Hr.
  destruct (delete_retained p1 l) as [p2 b]. set (p' := if b then _ else _) in *. exists p'.
  assert (∃ l', release_set (storage_adapter p) l' (due p pp (readings p 0%nat)) ∧ (∀ k, k ∈ l' → removed p k ∨ included p k) ∧ dropped p1 l' p') as (l' & Hl' & Hin' & Hd).
  { destruct Hr as [Hr|[Hr [s Hf']]]; [exists l; split_and!; [by right|done..]|exists []; split_and!; [left; split; [done|by exists l, s]|by intros k ?%not_elem_of_nil|done]]. }
  destruct (dropped_ok p1 pp l' p' Hok' Hin' Hd) as (pp' & O1 & _ & O2 & _). exists pp', l'. split_and!; try done. by destruct Hd.
Qed.

Lemma release_immutable_spec p pp lib_slot : pool_ok p pp →
  ∃ pp' l, dropped p l (release_immutable p lib_slot) ∧ pool_ok (release_immutable p lib_slot) pp' ∧ policy_rel (untracked l) pp pp' ∧
    release_set (storage_adapter p) l (λ k, ∃ inc, included_in_canonical p !! k = Some inc ∧ in_slot inc <= lib_slot).
Proof.
  intros Hok. unfold release_immutable. set (l := fst <$> _).
  assert (∀ k, k ∈ l ↔ ∃ inc, included_in_canonical p !! k = Some inc ∧ in_slot inc <= lib_slot) as Hl.
  { intros k. unfold l. rewrite list_elem_of_fmap. split.
    - intros ([k' inc] & -> & [? Hin%elem_of_map_to_list]%list_elem_of_filter). by exists inc.
    - intros (inc & Hin & ?). exists (k, inc). split; [done|]. apply list_elem_of_filter. split; [done|]. by apply elem_of_map_to_list. }
  assert (∀ k, k ∈ l → included p k) as Hin by (intros k (inc & ? & _)%Hl; by exists inc).
  pose proof (release_keys_spec p pp l (λ p key, with_retired p (removed_items p) (delete key (included_in_canonical p))) Hok) as Hr.
  cbv zeta in Hr. destruct (delete_retained p l) as [p2 b]. set (p' := if b then _ else _) in *.
  assert (∃ l', release_set (storage_adapter p) l' (λ k, ∃ inc, included_in_canonical p !! k = Some inc ∧ in_slot inc <= lib_slot) ∧ (∀ k, k ∈ l' → included p k) ∧ dropped p l' p')
    as (l' & Hl' & Hin' & Hd).
  { destruct Hr as [Hr|[Hr [s Hf]]]; [intros k Hk; right; by apply Hin| |exists l; split_and!; [by right|done..]|exists []; split_and!; [left; split; [done|by exists l, s]|by intros k ?%not_elem_of_nil|done]].
    intros p1 E1 E2. clear p'. assert (∀ k, k ∈ l → removed_items p1 !! k = None) as Hn.
    { intros k Hk. rewrite E1. destruct (removed_items p !! k) eqn:Hk'; [|done]. destruct (pk_removed_included _ _ Hok k); [by eexists|by apply Hin]. }
    clear -Hn. revert p1 Hn. induction l as [|x l IH]; intros p1 Hn; cbn [foldl]; [by split_and!|].
    destruct (IH (with_retired p1 (removed_items p1) (delete x (included_in_canonical p1)))) as (I1 & [I2 I2'] & I3 & I4 & I5 & I6 & I7).
    { intros k Hk. apply Hn. by right. }
    split_and!; try done; intros k.
    - rewrite I6. cbn. destruct (decide (k ∈ l)) as [|Hk]; [rewrite decide_True by (by right); done|]. case_decide as Hk'; [|done]. by apply Hn.
    - rewrite I7. cbn. destruct (decide (k ∈ l)) as [|Hk]; [rewrite decide_True by (by right); done|].
      destruct (decide (k = x)) as [->|Hne]; [rewrite lookup_delete_eq, decide_True by (by left); done|].
      rewrite lookup_delete_ne, decide_False by (done || by intros [?|?]%elem_of_cons); done. }
  destruct (dropped_ok p pp l' p' Hok (λ k Hk, or_intror (Hin' k Hk)) Hd) as (pp' & O1 & _ & O2 & _). by exists pp', l'.
Qed.

(** ** Moves within the pool *)

Definition with_readings p (r : nat → Z) : Mempool S :=
  mkPool (pending_items p) (by_prefix p) (removed_items p) (included_in_canonical p) (settings p) (last_item_timestamp p) (evictor p) (era_in_force p)
    (storage_adapter p) r.

(** The same transactions are held, in other states. *)
Record moved p p' : Prop := {
  mv_pending : pending_ok (pending_items p');
  mv_pending_removed : ∀ key, pending p' key → ¬ removed p' key;
  mv_pending_included : ∀ key, pending p' key → ¬ included p' key;
  mv_removed_included : ∀ key, removed p' key → ¬ included p' key;
  mv_admitted : ∀ key, admitted p' key = admitted p key;
  mv_index : by_prefix p' = by_prefix p;
  mv_settings : same_settings p p';
  mv_evictor : evictor p' = evictor p;
  mv_storage : storage_adapter p' = storage_adapter p
}.

Lemma moved_ok p p' pp : moved p p' → pool_ok p pp → pool_ok p' pp.
Proof.
  intros [M1 M2 M3 M4 M5' M6 [M7 _] M8 M9] [Hp Hpr Hpi Hri Hix Hpx Hb He Hc Hw].
  assert (∀ k, body p' k = body p k) as Mb by (intros k; unfold body; by rewrite M9).
  assert (∀ k, held p' k ↔ held p k) as M5 by (intros k; by rewrite !held_admitted, M5').
  split; rewrite ?M6, ?M7, ?M8; try done.
  - intros prefix k. by rewrite M5.
  - intros k. rewrite M5, Mb. apply Hb.
  - intros q Hq. destruct (Hc q Hq) as [C1 C2 C3 C4]. split; try done.
    + intros k item a. rewrite M5, Mb. apply C1.
    + intros k Ht. by apply M5, C2.
Qed.

Lemma moved_refl p pp : pool_ok p pp → moved p p.
Proof. intros []. by split. Qed.

Lemma moved_trans p1 p2 p3 : moved p1 p2 → moved p2 p3 → moved p1 p3.
Proof.
  intros [A1 A2 A3 A4 A5 A6 [A7 A7'] A8 A9] [B1 B2 B3 B4 B5 B6 [B7 B7'] B8 B9]. split; try done; [intros k; by rewrite B5|by rewrite B6|split; [by rewrite B7|by rewrite B7']|by rewrite B8|by rewrite B9].
Qed.

(** Pending transactions that are retired. *)
Definition retired_at p k : option Z := match pending_get (pending_items p) k with Some t => Some t | None => removed_items p !! k end.

Record retired p (l : list TxHash) p' : Prop := {
  rt_moved : moved p p';
  rt_pending : ∀ k, pending_get (pending_items p') k = if decide (k ∈ l) then None else pending_get (pending_items p) k;
  rt_removed : ∀ k, removed_items p' !! k = if decide (k ∈ l) then retired_at p k else removed_items p !! k;
  rt_included : included_in_canonical p' = included_in_canonical p;
  rt_readings : readings p' = readings p
}.

Lemma retire_key_spec p pp key : pool_ok p pp → retired p [key] (retire_key p key).
Proof.
  intros Hok. assert (∀ k : TxHash, k ∈ [key] ↔ k = key) as Hel by (intros k; by rewrite list_elem_of_singleton).
  unfold retire_key. destruct (pending_get (pending_items p) key) as [t|] eqn:Hk.
  2:{ split; [by apply (moved_refl p pp)| | |done..]; intros k; case_decide as Hin; try done; apply Hel in Hin as ->; [done|]. unfold retired_at. by rewrite Hk. }
  destruct (shift_remove_spec (pending_items p) key (pk_pending _ _ Hok)) as [S1 S2].
  assert (removed_items p !! key = None ∧ included_in_canonical p !! key = None) as [Hr Hi].
  { split; apply eq_None_not_Some; intros ?; [by apply (pk_pending_removed _ _ Hok key); [exists t|]|by apply (pk_pending_included _ _ Hok key); [exists t|]]. }
  destruct Hok as [Hp Hpr Hpi Hri _ _ _ _ _ _]. split; [split; try done| | |done..]; unfold pending, removed, included, admitted, retired_at in *; pool_cbn.
  - intros k. rewrite S2. case_decide as Hd; [by intros []|]. rewrite lookup_insert_ne by congruence. apply Hpr.
  - intros k. rewrite S2. case_decide as Hd; [by intros []|]. apply Hpi.
  - intros k. destruct (decide (k = key)) as [->|Hd]; [rewrite Hi; by intros _ []|]. rewrite lookup_insert_ne by congruence. apply Hri.
  - intros k. rewrite S2. case_decide as Hd; [subst k; by rewrite lookup_insert_eq, Hk|]. by rewrite lookup_insert_ne by congruence.
  - intros k. rewrite S2. case_decide as Hd; [rewrite decide_True by (by apply Hel); done|]. rewrite decide_False; [done|]. by rewrite Hel.
  - intros k. destruct (decide (k ∈ [key])) as [Hd|Hd]; rewrite Hel in Hd; [subst k; by rewrite lookup_insert_eq, Hk|]. by rewrite lookup_insert_ne by congruence.
Qed.

Lemma retire_spec pp (l : list TxHash) : ∀ p, pool_ok p pp → retired p l (retire p l).
Proof.
  unfold retire. induction l as [|key l IH]; intros p Hok; cbn [foldl]; [split; [by apply (moved_refl p pp)|done..]|].
  destruct (retire_key_spec p pp key Hok) as [R1 R2 R3 R4 R5]. destruct (IH (retire_key p key)) as [I1 I2 I3 I4 I5]; [by eapply moved_ok|].
  split; [by eapply moved_trans| | |by rewrite I4|by rewrite I5]; intros k; rewrite ?I2, ?I3; unfold retired_at; rewrite R2, ?R3; unfold retired_at;
    destruct (decide (k ∈ l)) as [Hl|Hl], (decide (k ∈ [key])) as [Hk|Hk]; rewrite list_elem_of_singleton in Hk;
    rewrite ?(decide_True (P := k ∈ key :: l)) by (rewrite elem_of_cons; tauto); rewrite ?(decide_False (P := k ∈ key :: l)) by (rewrite elem_of_cons; tauto); try done.
Qed.

(** Transactions leave when they are too old, or a claim in them is past its deadline. *)
Definition evicted p pp (now : Z) key : Prop :=
  (∃ ttl t, tx_ttl (settings p) = Some ttl ∧ pending_get (pending_items p) key = Some t ∧ as_millis_u64 ttl <= saturating_sub now t) ∨
  claim_due pp (ev_slot (evictor p)) key.

Lemma evict_spec p pp : pool_ok p pp → ∃ l, (∀ k, k ∈ l ↔ evicted p pp (readings p 0%nat) k) ∧
  retired p l (with_readings (evict p) (readings p)) ∧ readings (evict p) = (λ n, readings p (n + 1)%nat).
Proof.
  intros Hok. unfold evict. cbn [current_timestamp_millis]. set (p1 := mkPool _ _ _ _ _ _ _ _ _ _).
  pose proof (same_pool_ok p p1 pp (timestamp_same p) Hok) as Hok'. set (l := select_retirements (evictor p1) (readings p 0%nat) (pending_items p1)).
  exists l. destruct (retire_spec pp l p1 Hok') as [R1 R2 R3 R4 R5]. split_and!; [|split; try done|by rewrite R5].
  - intros k. etransitivity; [exact (proj2 (retirements_spec (evictor p) (tx_ttl (settings p)) pp _ _ (pk_evictor _ _ Hok)) k)|]. unfold evicted.
    apply or_iff_compat_r. destruct (pk_pending _ _ Hok) as [Hn Hs]. destruct (tx_ttl (settings p)) as [ttl|]; [|split; [by intros ?%not_elem_of_nil|by intros (? & ? & ? & _)]].
    rewrite ttl_expired_spec by done. setoid_rewrite pending_get_elem; [|done]. naive_solver.
  - by destruct R1.
Qed.

End Pool.

End MempoolFacts.
