(* ===== verification/MempoolSteps.v ===== *)
(** * Admission to the mempool, and recovery

    [Mempool::add_item] on each of its branches, the blocks the evictor learns
    of, and the state after a restart: each keeps the invariant of the pool. The
    first module, [MempoolAdmission], is about submissions; [MempoolSteps] about
    blocks, removals and recovery. *)

From S2P Require Import Prelude Era EraFacts Codec Ops Utxos ServiceNotes ChannelOps SignedTx Blocks BlockVerify TxSelection SelectionFacts Eviction Mempool EvictionFacts MempoolFacts.

#[local] Open Scope Z_scope.

Module MempoolAdmission.
Import Canonical Ops Utxos ServiceNotes ChannelOps SignedTx Blocks BlockVerify SelectionFacts Eviction Mempool EvictionFacts MempoolFacts.

Section Pool.
Context {S : Type} `{!MempoolStorage S} (slot_of : HeaderId → option Z) `{!MempoolStorageLaws S slot_of} {lost : gset TxHash}.
Context `{Ed25519Crate} `{MultiaddrCrate} `{Blake2Crate} `{!TimeCrate}.
Implicit Types (p : Mempool S) (item : SignedOps) (pp : option PowClaimPolicy) (q : PowClaimPolicy) (key : TxHash).
Notation pool_ok := (pool_ok slot_of (lost:=lost)).
Notation claims_in := (claims_in slot_of (lost:=lost)).
Notation pool_env := (pool_env slot_of).
Notation body := (body slot_of).
Notation dropped := (dropped slot_of).

Lemma hash_hashes item : candidate_ok item → hashes item (hash_of item).
Proof. intros Hc E. by apply candidate_hash. Qed.

(** ** Claims *)

Definition slots_sound (slots : BlockSlots) : Prop := ∀ a slot, slots !! a = Some slot → slot_of a = Some slot.

Lemma resolve_sound p item : slots_sound (resolve_claim_anchors p item).
Proof. intros a slot. unfold resolve_claim_anchors. case_match; [done|]. apply (block_slots_ok (slot_of:=slot_of)). Qed.

Lemma sound_slots_ok slots : (∀ a slot, slot_of a = Some slot → 0 <= slot) → slots_sound slots → slots_ok slots.
Proof. intros Hp Hs a slot Ha. by apply (Hp a), Hs. Qed.

Lemma claims_in_ext (K K' : TxHash → Prop) txs txs' q : (∀ k, K k ↔ K' k) → (∀ k, K k → txs k = txs' k) → claims_in K txs q → claims_in K' txs' q.
Proof.
  intros HK Ht [C1 C2 C3 C4]. split; try done.
  - intros k item a Hk%HK Hl Hb. rewrite <- Ht in Hb by done. by apply C1.
  - intros k Hk. by apply HK, C2.
Qed.

Lemma claims_added K txs q key item slots q' : claims_in K txs q → claims_tracked q key (claim_anchors item) slots q' → hashes item key → slots_sound slots →
  claims_in (λ k, K k ∨ k = key) (λ k, if decide (k = key) then Some item else txs k) q'.
Proof.
  intros [C1 C2 C3 C4] [T1 T2 T3 T4 T5 T6 T7] Hh Hs. split.
  - intros k it a Hk Hl. case_decide as Hd.
    + subst k. intros [= <-] Ha. destruct (slots !! a) as [slot|] eqn:Hsl; [|left; apply T4; by right].
      right. destruct (T5 a slot Ha Hsl) as (d & ? & ?). exists d, slot. rewrite T2. split_and!; [done|by apply Hs|done].
    + intros Ht Ha. destruct Hk as [Hk| ->]; [|done]. destruct (C1 k it a Hk Hl Ht Ha) as [Hp|(d & slot & ? & ? & ?)]; [left; apply T4; by left|].
      right. exists d, slot. by rewrite T2, T3.
  - intros k Hk. destruct (decide (k = key)) as [->|Hd]; [by right|]. left. apply C2. destruct Hk as [Hk|[a Ha]]; [left; by rewrite <- T3|].
    right. exists a. apply T4 in Ha as [?|[? _]]; done.
  - intros k d. destruct (decide (k = key)) as [->|Hd].
    + intros [Hd|(a & slot & Ha & Hsl & ->)]%T7; [|exists item, a, slot; rewrite T2; split_and!; try done; by apply Hs].
      destruct (C3 _ _ Hd) as (it & a & slot & ? & ? & ? & ->). exists it, a, slot. by rewrite T2.
    + rewrite T3 by done. intros Hk. destruct (C3 _ _ Hk) as (it & a & slot & ? & ? & ? & ->). exists it, a, slot. by rewrite T2.
  - intros k a [Hp|(-> & Ha & _)]%T4; [by apply C4|by exists item].
Qed.

(** ** Admission *)

Record added p key item (t : Z) p' : Prop := {
  ad_pending : ∀ k, pending_get (pending_items p') k = if decide (k = key) then Some (default t (removed_items p !! key)) else pending_get (pending_items p) k;
  ad_removed : removed_items p' = delete key (removed_items p);
  ad_included : included_in_canonical p' = included_in_canonical p;
  ad_settings : same_settings p p';
  ad_bodies : ∀ k, body p' k = if decide (k = key) then Some item else body p k;
  ad_slot : ev_slot (evictor p') = ev_slot (evictor p)
}.

Lemma added_held p key item t p' k : added p key item t p' → held p' k ↔ held p k ∨ k = key.
Proof.
  intros [A1 A2 A3 _ _ _]. unfold held, pending, removed, included. rewrite A1, A2, A3. destruct (decide (k = key)) as [->|Hk].
  - naive_solver.
  - rewrite lookup_delete_ne by done. naive_solver.
Qed.

Lemma admit_stored_spec {E : Type} p pp key item t slots s : pool_ok p pp → ¬ pending p key → ¬ included p key → hashes item key →
  store_item (storage_adapter p) key item = (s, true) → slots_sound slots → slots_ok slots →
  ∃ p' pp', admit_stored (E:=E) (with_storage p s) key item t slots = Ok p' ∧ pool_ok p' pp' ∧ added p key item t p' ∧ readings p' = readings p.
Proof.
  intros Hok Hnp Hni Hh Hst Hs Hso. unfold admit_stored. pool_cbn.
  destruct (on_add_spec (E:=E) (evictor p) (tx_ttl (settings p)) pp key item slots (pk_evictor _ _ _ Hok) Hso) as (e' & pp' & Ha & Hsl & He & Hr).
  change (evictor (index_by_prefix _ _)) with (evictor p). rewrite Ha. cbn [mbind result_bind]. eexists _, pp'. split; [done|].
  assert (key ∉ (pending_items p).*1) as Hkp by (rewrite <- pending_get_some; done).
  destruct (insert_pending_spec (pending_items p) key (default t (removed_items p !! key)) (pk_pending _ _ _ Hok) Hkp) as [I1 I2].
  unfold index_by_prefix, insert_pending. pool_cbn. set (p' := mkPool _ _ _ _ _ _ _ _ _ _).
  assert (added p key item t p') as Had.
  { split; try done. intros k. unfold MempoolFacts.body. pool_cbn. rewrite (store_ok (slot_of:=slot_of) _ _ _ _ Hst). case_decide as Hk; [subst k; apply lookup_insert_eq|].
    by apply lookup_insert_ne. }
  split; [|by split]. pose proof (λ k, added_held _ _ _ _ _ k Had) as Hheld. destruct Had as [A1 A2 A3 [A4 _] A5 _].
  destruct Hok as [Hp Hpr Hpi Hri Hix Hpx Hb _ Hc Hw]. unfold pending, removed, included in *.
  destruct (insert_member_spec (by_prefix p) (tx_hash_prefix key) key Hix) as [J1 J2]. split; unfold pending, removed, included; try done.
  - intros k. rewrite A1, A2. case_decide as Hk; [subst k; rewrite lookup_delete_eq; by intros _ []|]. rewrite lookup_delete_ne by done. apply Hpr.
  - intros k. rewrite A1, A3. case_decide as Hk; [subst k; by intros _|]. apply Hpi.
  - intros k. rewrite A2, A3. intros [_ ?]%lookup_delete_is_Some. by apply Hri.
  - intros prefix k. etransitivity; [apply J2|]. rewrite Hpx, Hheld. naive_solver.
  - intros k [Hk| ->]%Hheld; rewrite A5; [|rewrite decide_True by done; by exists item]. case_decide as Hd; [subst k; by exists item|]. by apply Hb.
  - intros q' ->. destruct pp as [q|]; [|done]. eapply claims_in_ext; [| |exact (claims_added _ _ q key item slots q' (Hc q eq_refl) Hr Hh Hs)].
    + intros k. by rewrite Hheld.
    + intros k _. by rewrite A5.
  - cbn. rewrite Hw. destruct pp as [q|], pp' as [q'|]; try done. cbn. by destruct Hr as [_ ->].
Qed.

(** The size of the data an operation brings, and the limits of an era. *)
Definition data_size (op : Op) : Z :=
  match op with
  | ChannelInscribe inscription => Z.of_nat (length (i_inscription inscription))
  | ChannelDeposit deposit => Z.of_nat (length (d_metadata deposit))
  | _ => 0
  end.
Definition within_limits (limits : AdmissionLimits) item : Prop :=
  size_of item <= max_transaction_size limits ∧ Forall (λ op, data_size op <= al_max_op_data_size limits) (to_ops (op_refs item)).

Definition too_large (e : MempoolError) : Prop :=
  match e with ItemTooLarge size max | InscriptionTooLarge size max | MetadataTooLarge size max => max < size | _ => False end.

Lemma admit_op_spec limits op : 0 <= al_max_op_data_size limits →
  admit_op limits op = Ok tt ∧ data_size op <= al_max_op_data_size limits ∨ ∃ e, admit_op limits op = Err e ∧ too_large e ∧ al_max_op_data_size limits < data_size op.
Proof.
  intros Hl. unfold admit_op, data_size. destruct op; try (left; split; [done|exact Hl]).
  all: match goal with |- context [err_if (?a <? ?b) _] => destruct (Z.ltb_spec a b) end; [right; eexists; by split_and!|left; by split].
Qed.

Lemma admit_item_spec limits item : candidate_ok item → 0 <= al_max_op_data_size limits →
  admit_item limits item = Ok tt ∧ within_limits limits item ∨ ∃ e, admit_item limits item = Err e ∧ too_large e ∧ ¬ within_limits limits item.
Proof.
  intros Hc Hl. unfold admit_item, within_limits. rewrite (candidate_size item Hc). cbn [mbind result_bind].
  destruct (Z.ltb_spec (max_transaction_size limits) (size_of item)) as [Hs|Hs]; cbn [err_if mbind result_bind].
  { right. eexists. split_and!; [done|done|lia]. }
  induction (to_ops (op_refs item)) as [|op ops IH]; cbn [fold_result]; [left; by repeat split|].
  destruct (admit_op_spec limits op Hl) as [[-> Ho]|(e & -> & He & Ho)]; cbn [mbind result_bind].
  - destruct IH as [[-> [_ Hf]]|(e & -> & He & Hf)]; [left; by repeat constructor|]. right. exists e. split_and!; [done..|]. intros [_ [_ ?]%Forall_cons]. by apply Hf.
  - right. exists e. split_and!; [done..|]. intros [_ [? _]%Forall_cons]. lia.
Qed.

(** The answers of [add_item], in the order of its checks. *)
Definition fork_accepted p item : Prop := ∃ era, get_era (accepted_digests (settings p)) (era_in_force p) = Some era ∧ fork_digest item ∈ v_parameters era.

(** A claim in the transaction, with a known anchor, is past its deadline. *)
Definition claim_lapsed p item (slots : BlockSlots) : Prop := ∃ s now a slot, pow_claim (settings p) = Some s ∧ ev_slot (evictor p) = Some now ∧
  a ∈ claim_anchors item ∧ slots !! a = Some slot ∧ deadline_at s slot <= now.

Lemma claim_lapsed_spec p pp item slots : pool_ok p pp → claim_expired pp (ev_slot (evictor p)) item slots ↔ claim_lapsed p item slots.
Proof.
  intros Hok. pose proof (pk_windows _ _ _ Hok) as Hw. unfold claim_expired, claim_lapsed. split.
  - intros (q & now & a & slot & -> & ? & ? & ? & ?). cbn in Hw. by exists (pp_settings q), now, a, slot.
  - intros (s & now & a & slot & Hs & ? & ? & ? & ?). rewrite Hw in Hs. destruct pp as [q|]; [|done]. injection Hs as <-. by exists q, now, a, slot.
Qed.

Inductive checked_outcome p key item (t : Z) p' : result MempoolError unit → Prop :=
  | out_existing : pending p key ∨ included p key → same_pool slot_of p p' → checked_outcome p key item t p' (Err ExistingItem)
  | out_digest : ¬ pending p key → ¬ included p key → ¬ fork_accepted p item → same_pool slot_of p p' →
      checked_outcome p key item t p' (Err (UnacceptedForkDigest (fork_digest item)))
  | out_expired : ¬ pending p key → ¬ included p key → fork_accepted p item →
      claim_lapsed p item (resolve_claim_anchors p item) → same_pool slot_of p p' → checked_outcome p key item t p' (Err Expired)
  | out_storage : ¬ pending p key → ¬ included p key → fork_accepted p item →
      ¬ claim_lapsed p item (resolve_claim_anchors p item) → (store_item (storage_adapter p) key item).2 = false → same_pool slot_of p p' →
      checked_outcome p key item t p' (Err StorageError)
  | out_added : ¬ pending p key → ¬ included p key → fork_accepted p item →
      ¬ claim_lapsed p item (resolve_claim_anchors p item) → (store_item (storage_adapter p) key item).2 = true → added p key item t p' →
      checked_outcome p key item t p' (Ok tt).

Lemma fork_digest_accepted_spec p item : fork_digest_accepted p item = true ↔ fork_accepted p item.
Proof.
  unfold fork_digest_accepted, fork_accepted. destruct (get_era _ _) as [era|]; [|naive_solver]. rewrite bool_decide_eq_true. naive_solver.
Qed.

(** The checks of [add_item] after the release of what is due. *)
Lemma checked_spec {E : Type} p pp key item : pool_ok p pp → pool_env p → hashes item key → 
  ∃ p' pp' v, add_checked (E:=E) p key item = Ok (p', v) ∧
    pool_ok p' pp' ∧ checked_outcome p key item (readings p 0%nat) p' v ∧ same_settings p p' ∧ ev_slot (evictor p') = ev_slot (evictor p) ∧
    ∃ n, ∀ i, readings p' i = readings p (i + n)%nat.
Proof.
  intros Hok Henv Hh. unfold add_checked. destruct (decide (pending p key ∨ included p key)) as [Hin|Hnin].
  { exists p, pp, (Err ExistingItem). split_and!; try done; [|by constructor|exists 0%nat; intros i; by rewrite Nat.add_0_r].
    unfold pending, included in Hin. destruct Hin as [Hin|Hin]; rewrite (bool_decide_true _ Hin); [done|by rewrite orb_true_r]. }
  assert (¬ pending p key ∧ ¬ included p key) as [Hnp Hni] by tauto. unfold pending, included in Hnp, Hni. rewrite !bool_decide_false by done.
  fold (pending p key) in Hnp. fold (included p key) in Hni. cbn [orb current_timestamp_millis]. set (p1 := mkPool _ _ _ _ _ _ _ _ _ _).
  assert (same_pool slot_of p p1) as Hsame by apply timestamp_same. pose proof (same_pool_ok slot_of p p1 pp Hsame Hok) as Hok1.
  assert (∃ n, ∀ i, readings p1 i = readings p (i + n)%nat) as Hread by (by exists 1%nat).
  destruct (fork_digest_accepted p1 item) eqn:Hf; cbn [negb].
  2:{ exists p1, pp, (Err (UnacceptedForkDigest (fork_digest item))). split_and!; try done. constructor; try done.
      change (fork_accepted p item) with (fork_accepted p1 item). rewrite <- fork_digest_accepted_spec. congruence. }
  apply fork_digest_accepted_spec in Hf. change (fork_accepted p1 item) with (fork_accepted p item) in Hf.
  change (resolve_claim_anchors p1 item) with (resolve_claim_anchors p item). set (slots := resolve_claim_anchors p item).
  assert (slots_ok slots) as Hso by (apply sound_slots_ok; [by apply Henv|apply resolve_sound]).
  destruct (is_expired_spec (E:=E) (evictor p) (tx_ttl (settings p)) pp item (readings p 0%nat) slots (pk_evictor _ _ _ Hok) Hso) as (b & Hb & Hexp).
  rewrite (claim_lapsed_spec p pp item slots Hok) in Hexp.
  change (evictor p1) with (evictor p). rewrite Hb. cbn [mbind result_bind]. destruct b.
  { exists p1, pp, (Err Expired). split_and!; try done. constructor; try done. by apply Hexp. }
  assert (¬ claim_lapsed p item slots) as Hne by (rewrite <- Hexp; done).
  change (storage_adapter p1) with (storage_adapter p). destruct (store_item (storage_adapter p) key item) as [s [|]] eqn:Hst; cbn [negb].
  - destruct (admit_stored_spec (E:=E) p1 pp key item (readings p 0%nat) slots s Hok1 Hnp Hni Hh Hst (resolve_sound p item) Hso) as (p' & pp' & Ha & Hok' & Hadd & A7).
    rewrite Ha. cbn [mbind result_bind]. exists p', pp', (Ok tt). assert (added p key item (readings p 0%nat) p') as Hadd' 
      by (destruct Hadd as [B1 B2 B3 B4 B5 B6]; split; [exact B1|exact B2|exact B3|exact B4|exact B5|exact B6]).
    destruct Hadd as [_ _ _ A4 _ A6]. split_and!; try done; [by constructor; [..|rewrite Hst|]|by exists 1%nat; intros i; rewrite A7].
  - assert (same_pool slot_of p (with_storage p1 s)) as Hs2.
    { split; try done. intros k. unfold MempoolFacts.body. cbn. by rewrite (store_err (slot_of:=slot_of) _ _ _ _ Hst). }
    exists (with_storage p1 s), pp, (Err StorageError). split_and!; try done; [by apply (same_pool_ok slot_of p)|by constructor; [..|rewrite Hst|]].
Qed.

(** ** What is kept *)

(** A held transaction may be released once a claim in it is past its deadline, or after a time of retirement. *)
Definition claim_past p key : Prop := ∃ s now item a slot, pow_claim (settings p) = Some s ∧ ev_slot (evictor p) = Some now ∧ hashes item key ∧
  a ∈ claim_anchors item ∧ slot_of a = Some slot ∧ deadline_at s slot <= now.
Definition lapsed p (now t : Z) key : Prop :=
  (∃ ttl, tx_ttl (settings p) = Some ttl ∧ as_millis_u64 (ttl + RETIREMENT_GRACE) <= saturating_sub now t) ∨ claim_past p key.

Lemma claim_due_past p pp key : pool_ok p pp → claim_due pp (ev_slot (evictor p)) key → claim_past p key.
Proof.
  intros Hok (q & now & d & -> & Hn & Hd & Hle). pose proof (pk_windows _ _ _ Hok) as Hw. cbn in Hw.
  destruct (cl_deadline _ _ _ _ (pk_claims _ _ _ Hok q eq_refl) key d Hd) as (item & a & slot & ? & ? & ? & ->). by exists (pp_settings q), now, item, a, slot.
Qed.

Record kept p p' : Prop := {
  kp_settings : same_settings p p';
  kp_slot : ev_slot (evictor p') = ev_slot (evictor p);
  kp_readings : ∃ n, ∀ i, readings p' i = readings p (i + n)%nat;
  kp_pending : ∀ k t, pending_get (pending_items p) k = Some t → pending_get (pending_items p') k = Some t;
  kp_included : ∀ k inc, included_in_canonical p !! k = Some inc → included_in_canonical p' !! k = Some inc ∨ claim_past p k;
  kp_included_from : ∀ k inc, included_in_canonical p' !! k = Some inc → included_in_canonical p !! k = Some inc;
  kp_admitted : ∀ k t, admitted p k = Some t → admitted p' k = Some t ∨ ∃ i, lapsed p (readings p i) t k;
  kp_body : ∀ k, pending p k → body p' k = body p k
}.

Lemma kept_refl p : kept p p.
Proof. split; try done; [exists 0%nat; intros i; by rewrite Nat.add_0_r|by left..]. Qed.

Lemma kept_trans p1 p2 p3 : kept p1 p2 → kept p2 p3 → kept p1 p3.
Proof.
  intros [[A1 A1'] A2 [n A3] A4 A5 A6 A7 A8] [[B1 B1'] B2 [m B3] B4 B5 B6 B7 B8].
  assert (∀ k, claim_past p2 k → claim_past p1 k) as Hc by (intros k; unfold claim_past; by rewrite A1, A2).
  split; [split; congruence|congruence| | | | | |].
  - exists (m + n)%nat. intros i. rewrite B3, A3. f_equal. lia.
  - intros k t Hk. by apply B4, A4.
  - intros k inc Hk. destruct (A5 k inc Hk) as [Hk'|?]; [|by right]. destruct (B5 k inc Hk'); [by left|right; by apply Hc].
  - intros k inc Hk. by apply A6, B6.
  - intros k t Hk. destruct (A7 k t Hk) as [Hk'|?]; [|by right]. destruct (B7 k t Hk') as [?|[i Hl]]; [by left|]. right. exists (i + n)%nat. rewrite <- A3.
    unfold lapsed in *. rewrite <- A1. destruct Hl; [by left|right; by apply Hc].
  - intros k [t Hk]. rewrite B8 by (exists t; by apply A4). apply A8. by exists t.
Qed.

Lemma same_kept p p' : same_pool slot_of p p' → same_settings p p' → (∃ n, ∀ i, readings p' i = readings p (i + n)%nat) → kept p p'.
Proof. intros [S1 S2 S3 S4 S5 S6 S7] Hs Hr. split; unfold admitted; rewrite ?S1, ?S2, ?S3, ?S6; try done; by left. Qed.

Lemma released_kept p pp l p' : pool_ok p pp → dropped p l p' → (∀ k, k ∈ l → due p pp (readings p 0%nat) k) →
  (∃ n, ∀ i, readings p' i = readings p (i + n)%nat) → kept p p'.
Proof.
  intros Hok Hd Hdue Hr. assert (∀ k, k ∈ l → ¬ pending p k) as Hnp.
  { intros k [(? & a & _ & Ha & _)|[_ [Hk|Hk]]]%Hdue Hp; [by apply (pk_pending_removed _ _ _ Hok k Hp); exists a|by apply (pk_pending_removed _ _ _ Hok k)|by apply (pk_pending_included _ _ _ Hok k)]. }
  pose proof (λ k, dropped_admitted slot_of p l p' k Hd Hnp) as Had. pose proof (dropped_slot slot_of p l p' Hd) as Hsl. destruct Hd as [D1 D2 D3 D4 _ _ D7]. split; try done.
  - intros k t. by rewrite D1.
  - intros k inc Hk. rewrite D4. case_decide as Hin; [|by left]. right. destruct (Hdue k Hin) as [(? & a & _ & Ha & _)|[Hc _]]; [|by apply (claim_due_past p pp)].
    destruct (pk_removed_included _ _ _ Hok k); [by exists a|by exists inc].
  - intros k inc. rewrite D4. by case_decide.
  - intros k t Hk. rewrite Had. case_decide as Hin; [|by left]. right. exists 0%nat. destruct (Hdue k Hin) as [(ttl & a & Ht & Ha & Hle)|[Hc _]]; [|right; by apply (claim_due_past p pp)].
    left. exists ttl. split; [done|]. unfold admitted in Hk. assert (pending_get (pending_items p) k = None) as Hn.
    { apply eq_None_not_Some. by apply Hnp. }
    rewrite Hn, Ha in Hk. by injection Hk as <-.
  - intros k Hk. rewrite D7. case_decide as Hin; [|done]. by destruct (Hnp k Hin).
Qed.

Lemma added_kept p key item t p' : added p key item t p' → ¬ pending p key → ¬ included p key → (∃ n, ∀ i, readings p' i = readings p (i + n)%nat) → kept p p'.
Proof.
  intros [A1 A2 A3 A4 A5 A6] Hnp Hni Hr. assert (pending_get (pending_items p) key = None) as Hn by (by apply eq_None_not_Some).
  split; try done; [|by rewrite A3; left|by rewrite A3| |].
  - intros k u Hk. rewrite A1. case_decide as Hd; [subst k; congruence|done].
  - intros k u Hk. left. unfold admitted in *. rewrite A1, A2, A3. case_decide as Hd; [subst k|by rewrite lookup_delete_ne].
    rewrite Hn in Hk. destruct (removed_items p !! key); [done|]. destruct (included_in_canonical p !! key) eqn:Hi; [|done]. destruct Hni. by exists i.
  - intros k Hk. rewrite A5. case_decide as Hd; [by subst k|done].
Qed.

Lemma outcome_kept p key item t p' v : checked_outcome p key item t p' v → same_settings p p' → (∃ n, ∀ i, readings p' i = readings p (i + n)%nat) → kept p p'.
Proof. intros Ho Hs Hr. destruct Ho; [by apply same_kept..|]. by apply (added_kept p key item t). Qed.

(** The limits of the era in force. *)
Definition limits_of p : option AdmissionLimits := v_parameters <$> get_era (admission (settings p)) (era_in_force p).
Definition era_ok p : Prop := ∃ limits, limits_of p = Some limits ∧ 0 <= al_max_op_data_size limits.

(** The answer to an item that is too large; to others, after the release of what is due, that of the checks. *)
Inductive add_outcome p key item p' : result MempoolError unit → Prop :=
  | add_large limits e : limits_of p = Some limits → ¬ within_limits limits item → too_large e → p' = p → add_outcome p key item p' (Err e)
  | add_small limits p1 l v : limits_of p = Some limits → within_limits limits item → dropped p l p1 → kept p p1 →
      checked_outcome p1 key item (readings p1 0%nat) p' v → add_outcome p key item p' v.

Lemma add_item_spec {E : Type} p pp key item : pool_ok p pp → pool_env p → era_ok p → candidate_ok item → hashes item key →
  ∃ p' pp' v, add_item (E:=E) p key item = Ok (p', v) ∧ pool_ok p' pp' ∧ kept p p' ∧ add_outcome p key item p' v.
Proof.
  intros Hok Henv (limits & Hl & Hpos) Hc Hh. unfold add_item. pose proof Hl as Hl'. unfold limits_of in Hl'. destruct (get_era _ _) as [era|]; [|done]. injection Hl' as Hl'.
  cbn [expect mbind result_bind]. rewrite Hl'. destruct (admit_item_spec limits item Hc Hpos) as [[-> Hw]|(e & -> & He & Hw)].
  2:{ exists p, pp, (Err e). split_and!; [done..|apply kept_refl|by econstructor]. }
  destruct (release_retained_spec (E:=E) slot_of p pp Hok (pe_ttl _ _ Henv)) as (p1 & pp1 & l & Hr & Hd & Hset & Hok1 & _). rewrite Hr. cbn [mbind result_bind].
  assert (kept p p1) as Hk1.
  { apply (released_kept p pp l); try done; [by intros k Hk; eapply release_set_elem|]. exists 1%nat. by apply (release_readings p p1 Hr). }
  destruct (checked_spec (E:=E) p1 pp1 key item Hok1 (env_same slot_of p p1 (proj1 (kp_settings _ _ Hk1)) Henv) Hh) as (p' & pp' & v & Ha & Hok' & Hout & Hs & _ & Hrd).
  exists p', pp', v. split_and!; [done..| |by eapply add_small]. eapply kept_trans; [exact Hk1|]. by eapply outcome_kept.
Qed.

End Pool.

End MempoolAdmission.

(** * The mempool and the chain

    What the pool does with a processed block and with an update of the canonical
    chain, the removal of transactions, and the recovery after a restart. *)

#[local] Open Scope Z_scope.

Module MempoolSteps.
Import Canonical Ops Utxos ServiceNotes ChannelOps SignedTx Blocks BlockVerify SelectionFacts Eviction Mempool EvictionFacts MempoolFacts MempoolAdmission.

Section Pool.
Context {S : Type} `{!MempoolStorage S} (slot_of : HeaderId → option Z) `{!MempoolStorageLaws S slot_of} {lost : gset TxHash}.
Context `{Ed25519Crate} `{MultiaddrCrate} `{Blake2Crate} `{!TimeCrate}.
Implicit Types (p : Mempool S) (item : SignedOps) (pp : option PowClaimPolicy) (q : PowClaimPolicy) (key : TxHash).
Notation pool_ok := (pool_ok slot_of (lost:=lost)).
Notation claims_in := (claims_in slot_of (lost:=lost)).
Notation pool_env := (pool_env slot_of).
Notation body := (body slot_of).
Notation dropped := (dropped slot_of).
Notation kept := (kept slot_of).
Notation claim_past := (claim_past slot_of).
Notation lapsed := (lapsed slot_of).

(** ** A processed block *)

Lemma claims_resolved K txs q block_id slot q' : claims_in K txs q → slot_of block_id = Some slot →
  block_resolved q block_id (deadline_at (pp_settings q) slot) q' → claims_in K txs q'.
Proof.
  intros [C1 C2 C3 C4] Hs [B1 B2 B3 B4]. split.
  - intros k item a Hk Hl Ht Ha. unfold claim_tracked. rewrite B2, B3, B4.
    destruct (C1 k item a Hk Hl Ht Ha) as [Hp|(d & sl & Hd & Hsl & Hle)]; [destruct (decide (a = block_id)) as [->|Hne]; [right|left; done]|right].
    + rewrite decide_True by done. eexists _, slot. split_and!; [done..|]. destruct (deadline_by_key q !! k); lia.
    + rewrite Hd. case_decide; [exists (Z.min d (deadline_at (pp_settings q) slot)), sl|exists d, sl]; (split_and!; [done..|lia]).
  - intros k [Hd|[a Ha]]; apply C2; [|apply B3 in Ha as [Ha _]; right; by exists a]. rewrite B4 in Hd. case_decide as Hp; [right; by exists block_id|by left].
  - intros k d. unfold deadline_sound. rewrite B4, B2. case_decide as Hp; [|apply C3]. intros [= <-]. destruct (C4 k block_id Hp) as (item & Hh & Ha).
    destruct (deadline_by_key q !! k) as [c|] eqn:Hc; [|by exists item, block_id, slot].
    destruct (Z.min_spec c (deadline_at (pp_settings q) slot)) as [[_ ->]|[_ ->]]; [by apply C3|by exists item, block_id, slot].
  - intros k a [Ha _]%B3. by apply C4.
Qed.

Lemma evictor_changed p pp e pp' : pool_ok p pp → evictor_ok e (tx_ttl (settings p)) pp' → pp_settings <$> pp' = pp_settings <$> pp →
  (∀ q', pp' = Some q' → claims_in (held p) (body p) q') → pool_ok (with_evictor p e) pp'.
Proof. intros [Hp Hpr Hpi Hri Hix Hpx Hb _ Hc Hw] He Hs Hc'. split; try done. by rewrite Hs. Qed.

(** ** Eviction and release *)

Definition too_old p (now t : Z) : Prop := ∃ ttl, tx_ttl (settings p) = Some ttl ∧ as_millis_u64 ttl <= saturating_sub now t.

(** Every claim in a pending transaction that is not lost waits for its anchor, or has time left. *)
Definition claims_timely p : Prop := ∀ k item a q now, k ∉ lost → pending p k → body p k = Some item → a ∈ claim_anchors item → PowClaim q ∈ policies (evictor p) →
  ev_slot (evictor p) = Some now → parked q k a ∨ ∃ slot, slot_of a = Some slot ∧ now < deadline_at (pp_settings q) slot.

(** A retired transaction is kept for the grace after its time to live. *)
Definition retired_long p (now t : Z) : Prop := ∃ ttl, tx_ttl (settings p) = Some ttl ∧ as_millis_u64 (ttl + RETIREMENT_GRACE) <= saturating_sub now t.

(** What an eviction leaves of the pool. *)
Record swept p p' : Prop := {
  sw_settings : same_settings p p';
  sw_slot : ev_slot (evictor p') = ev_slot (evictor p);
  sw_readings : ∃ n, ∀ i, readings p' i = readings p (i + n)%nat;
  sw_pending : ∀ k t, pending_get (pending_items p') k = Some t → pending_get (pending_items p) k = Some t ∧ ¬ too_old p (readings p 0%nat) t;
  sw_evicted : ∀ k t, pending_get (pending_items p) k = Some t → pending_get (pending_items p') k = Some t ∨ too_old p (readings p 0%nat) t ∨ claim_past p k;
  sw_claims : claims_timely p';
  sw_included : ∀ k inc, included_in_canonical p !! k = Some inc → included_in_canonical p' !! k = Some inc ∨ claim_past p k;
  sw_included_from : ∀ k inc, included_in_canonical p' !! k = Some inc → included_in_canonical p !! k = Some inc;
  sw_admitted : ∀ k t, admitted p k = Some t → admitted p' k = Some t ∨ ∃ i, lapsed p (readings p i) t k;
  sw_from : ∀ k, held p' k → held p k;
  sw_released : ∀ k t, removed_items p !! k = Some t → retired_long p (readings p 1%nat) t → ¬ held p' k ∨ ∃ s P, refused s P ∧ P k
}.

(** Claims that are due have left with the others. *)
Lemma timely p pp p' pp' l : pool_ok p' pp' → policy_rel (untracked l) pp pp' → (∀ k, pending p' k → ¬ claim_due pp (ev_slot (evictor p')) k) → claims_timely p'.
Proof.
  intros Hok Hr Hd k item a q now Hlo Hk Hb Ha Hq Hn. assert (pp' = Some q) as ->.
  { rewrite (eo_policies _ _ _ (pk_evictor _ _ _ Hok)) in Hq. unfold policies_of in Hq. apply elem_of_cons in Hq as [?|Hq]; [done|].
    destruct pp' as [q'|]; [|by apply not_elem_of_nil in Hq]. apply list_elem_of_singleton in Hq. congruence. }
  destruct pp as [q0|]; [|done]. destruct Hr as (R1 & R2 & _).
  destruct (cl_tracked _ _ _ _ (pk_claims _ _ _ Hok q eq_refl) k item a) as [?|(d & slot & Hdl & Hs & Hle)]; [by left|done..|by left|].
  right. exists slot. split; [done|]. rewrite R2 in Hdl. case_decide; [done|]. destruct (Z.le_gt_cases d now); [|lia].
  destruct (Hd k Hk). by exists q0, now, d.
Qed.

Lemma evict_release_spec {E : Type} p pp : pool_ok p pp → ttl_fits (tx_ttl (settings p)) →
  ∃ p' pp', release_retained (E:=E) (evict p) = Ok p' ∧ pool_ok p' pp' ∧ swept p p'.
Proof.
  intros Hok Hf. destruct (evict_spec slot_of p pp Hok) as (l & Hl & Hret & Hrd). set (p1 := evict p) in *.
  assert (pool_ok p1 pp) as Hok1.
  { apply (same_pool_ok slot_of (with_readings p1 (readings p))); [by split|]. eapply moved_ok; [by apply (rt_moved _ _ _ Hret)|done]. }
  destruct Hret as [[_ _ _ _ Ma _ [Ms Ms'] Me _] Rp Rr Ri _]. unfold with_readings, admitted in Ms, Ms', Ma, Me, Rp, Rr, Ri. pool_cbn_all.
  destruct (release_retained_spec (E:=E) slot_of p1 pp Hok1) as (p2 & pp2 & l2 & Hr & Hd & Hset & Hok2 & Hrel); [by rewrite Ms|].
  pose proof (release_readings p1 p2 Hr) as Hrd2.
  assert (kept p1 p2) as Hk by (apply (released_kept slot_of (lost:=lost) p1 pp l2); [done..|by intros k Hk; eapply release_set_elem|by exists 1%nat]).
  exists p2, pp2. split_and!; [done..|]. pose proof (dr_pending _ _ _ _ Hd) as Hdp. destruct Hk as [[K1 K1'] K2 _ K4 K5 K6 K7 _].
  assert (∀ k, claim_past p1 k → claim_past p k) as Hcp by (intros k; unfold MempoolAdmission.claim_past; by rewrite Ms, Me).
  split; [split; congruence|congruence|exists 2%nat; intros i; rewrite Hrd2, Hrd; f_equal; lia| | | | | | | |].
  - intros k t. rewrite Hdp, Rp. case_decide as Hin; [done|]. intros Hk. split; [done|]. intros (ttl & Ht & Hle). apply Hin, Hl. left. by exists ttl, t.
  - intros k t Hk. rewrite Hdp, Rp. case_decide as Hin; [|by left]. right. apply Hl in Hin as [(ttl & t' & Ht & Hk' & Hle)|Hc]; [|right; by apply (claim_due_past slot_of (lost:=lost) p pp)].
    left. exists ttl. split; [done|]. congruence.
  - apply (timely p pp p2 pp2 l2 Hok2 Hrel). intros k Hk Hc. unfold pending in Hk. rewrite Hdp, Rp in Hk. case_decide as Hin; [by destruct Hk|].
    apply Hin, Hl. right. by rewrite K2, Me in Hc.
  - intros k inc Hk. rewrite <- Ri in Hk. destruct (K5 k inc Hk); [by left|right; by apply Hcp].
  - intros k inc Hk%K6. by rewrite Ri in Hk.
  - intros k t Hk. unfold admitted in Hk. rewrite <- Ma in Hk. destruct (K7 k t Hk) as [?|(i & Hlp)]; [by left|]. right. exists (i + 1)%nat. rewrite Hrd in Hlp.
    destruct Hlp as [Hlp|?]; [left; by rewrite <- Ms|right; by apply Hcp].
  - intros k [Hk%held_admitted _]%(dropped_held slot_of p1 l2 p2 k Hd). apply held_admitted. unfold admitted in *. by rewrite <- Ma.
  - intros k t Hk (ttl & Ht & Hle). assert (pending_get (pending_items p) k = None) as Hnp.
    { apply eq_None_not_Some. intros Hp. apply (pk_pending_removed _ _ _ Hok k Hp). by exists t. }
    assert (removed_items p1 !! k = Some t) as Hk1 by (rewrite Rr; unfold retired_at; rewrite Hnp; by case_decide).
    assert (due p1 pp (readings p1 0%nat) k) as Hdue by (left; exists ttl, t; rewrite Ms, Hrd; done).
    destruct Hset as [[_ Href]|Hset]; [right; by exists (storage_adapter p1), (due p1 pp (readings p1 0%nat))|]. left.
    intros [_ Hp]%(dropped_held slot_of p1 l2 p2 k Hd). destruct (Hp (proj2 (Hset k) Hdue)) as [t' Hp']. rewrite Rp, Hnp in Hp'. by case_decide.
Qed.

(** A block at or below the immutable slot carried the transaction. *)
Definition immutable p (lib_slot : Z) key : Prop := ∃ inc, included_in_canonical p !! key = Some inc ∧ in_slot inc <= lib_slot.

(** What a processed block leaves of the pool: what is too old or has a claim past
    its deadline is evicted, and nothing else; what a block at or below the immutable
    slot carried is released, and what was retired for long, unless the storage
    refuses to remove the bodies. *)
Record processed p (slot lib_slot : Z) p' : Prop := {
  pc_settings : same_settings p p';
  pc_slot : ev_slot (evictor p') = Some (match ev_slot (evictor p) with Some c => Z.max c slot | None => slot end);
  pc_readings : ∃ n, ∀ i, readings p' i = readings p (i + n)%nat;
  pc_pending : ∀ k t, pending_get (pending_items p') k = Some t → pending_get (pending_items p) k = Some t ∧ ¬ too_old p (readings p 0%nat) t;
  pc_evicted : ∀ k t, pending_get (pending_items p) k = Some t → pending_get (pending_items p') k = Some t ∨ too_old p (readings p 0%nat) t ∨ claim_past p' k;
  pc_claims : claims_timely p';
  pc_included : ∀ k inc, included_in_canonical p !! k = Some inc → included_in_canonical p' !! k = Some inc ∨ in_slot inc <= lib_slot ∨ claim_past p' k;
  pc_included_from : ∀ k inc, included_in_canonical p' !! k = Some inc → included_in_canonical p !! k = Some inc;
  pc_admitted : ∀ k t, admitted p k = Some t → admitted p' k = Some t ∨ (∃ inc, included_in_canonical p !! k = Some inc ∧ in_slot inc <= lib_slot) ∨
    ∃ i, lapsed p' (readings p i) t k;
  pc_immutable : ∀ k inc, included_in_canonical p !! k = Some inc → in_slot inc <= lib_slot → ¬ held p' k ∨ refused (storage_adapter p) (immutable p lib_slot);
  pc_retired : ∀ k t, removed_items p !! k = Some t → retired_long p (readings p 1%nat) t → ¬ held p' k ∨ ∃ s P, refused s P ∧ P k
}.

Lemma immutable_readings p lib_slot : readings (release_immutable p lib_slot) = readings p.
Proof.
  unfold release_immutable. match goal with |- context [delete_retained p ?l] => pose proof (delete_readings p l) as Hd; destruct (delete_retained p l) as [p2 b] end.
  cbn in Hd. destruct b; [|done]. by rewrite (foldl_same readings).
Qed.

Lemma processed_block_spec {E : Type} p pp block_id slot lib_slot : pool_ok p pp → pool_env p → slot_of block_id = Some slot →
  ∃ p' pp', pool_processed_block (E:=E) p block_id slot lib_slot = Ok p' ∧ pool_ok p' pp' ∧ processed p slot lib_slot p'.
Proof.
  intros Hok Henv Hs. unfold pool_processed_block. destruct (release_immutable_spec slot_of p pp lib_slot Hok) as (pp1 & l1 & Hd & Hok1 & _ & Hset).
  pose proof (immutable_readings p lib_slot) as Hrd. set (p1 := release_immutable p lib_slot) in *.
  destruct (on_processed_spec (E:=E) (evictor p1) (tx_ttl (settings p1)) pp1 block_id slot (pk_evictor _ _ _ Hok1) (pe_slots _ _ Henv _ _ Hs)) as (e & pp2 & He & Hsl & Hev & Hrel).
  rewrite He. cbn [mbind result_bind]. set (p2 := with_evictor p1 e). assert (pool_ok p2 pp2) as Hok2.
  { apply (evictor_changed p1 pp1); [done..| |].
    - destruct pp1 as [q1|], pp2 as [q2|]; try done. cbn. f_equal. apply Hrel.
    - intros q' ->. destruct pp1 as [q1|]; [|done]. eapply claims_resolved; [by apply (pk_claims _ _ _ Hok1)|done|done]. }
  pose proof (dropped_slot slot_of p l1 p1 Hd) as Hds. assert (∀ k, k ∈ l1 → ¬ pending p k) as Hnp.
  { intros k Hk Hp. destruct (release_set_elem _ _ _ k Hset Hk) as (inc & Hi & _). by apply (pk_pending_included _ _ _ Hok k Hp); exists inc. }
  pose proof (λ k, dropped_admitted slot_of p l1 p1 k Hd Hnp) as Had. pose proof (λ k, dropped_held slot_of p l1 p1 k Hd) as Hhd. destruct Hd as [D1 [D2 D2'] D3 D4 _ _ _].
  destruct (evict_release_spec (E:=E) p2 pp2 Hok2) as (p' & pp' & Hr & Hok' & [[W1 W1'] W2 [n W3] W4 W5 W6 W7 W8 W9 W10 W11]); [change (settings p2) with (settings p1); rewrite D2; apply Henv|].
  exists p', pp'. split_and!; [done..|]. assert (readings p2 = readings p) as Hrd2 by exact Hrd. assert (settings p2 = settings p) as Hst by exact D2.
  assert (∀ t, too_old p2 (readings p2 0%nat) t ↔ too_old p (readings p 0%nat) t) as Hold by (intros t; unfold too_old; by rewrite Hrd2, Hst).
  assert (∀ k, claim_past p2 k → claim_past p' k) as Hcp by (intros k; unfold MempoolAdmission.claim_past; by rewrite W1, W2).
  change (pending_items p2) with (pending_items p1) in *. change (included_in_canonical p2) with (included_in_canonical p1) in *. rewrite D1 in *.
  split; [split; [congruence|rewrite W1'; exact D2']|rewrite W2, <- Hds; exact Hsl|exists n; intros i; by rewrite W3, Hrd2| | |done| | | | |].
  - intros k t Hk. destruct (W4 k t Hk) as [? Hn]. by rewrite Hold in Hn.
  - intros k t Hk. destruct (W5 k t Hk) as [?|[Ho|?]]; [by left|right; left; by apply Hold|right; right; by apply Hcp].
  - intros k inc Hk. destruct (decide (k ∈ l1)) as [Hin|Hin].
    + destruct (release_set_elem _ _ _ k Hset Hin) as (inc' & Hi & Hle). rewrite Hk in Hi. injection Hi as <-. right. by left.
    + destruct (W7 k inc) as [?|?]; [rewrite D4, decide_False by done; done|by left|right; right; by apply Hcp].
  - intros k inc Hk%W8. rewrite D4 in Hk. by case_decide.
  - intros k t Hk. destruct (decide (k ∈ l1)) as [Hin|Hin]; [right; left; exact (release_set_elem _ _ _ k Hset Hin)|].
    destruct (W9 k t) as [?|(i & Hlp)]; [change (admitted p2 k) with (admitted p1 k); rewrite Had, decide_False by done; done|by left|].
    right. right. exists i. rewrite Hrd2 in Hlp. unfold MempoolAdmission.lapsed in *. rewrite W1. destruct Hlp; [by left|right; by apply Hcp].
  - intros k inc Hk Hle. destruct Hset as [[_ ?]|Hset]; [by right|]. left. intros [_ Hp]%W10%Hhd. apply (Hnp k); [|apply Hp]; by apply Hset; exists inc.
  - intros k t Hk Hl. rewrite <- Hrd2 in Hl. apply (W11 k t); [|unfold retired_long in *; by rewrite Hst]. change (removed_items p2) with (removed_items p1). rewrite D3, decide_False; [done|].
    intros (inc & Hi & _)%(release_set_elem _ _ _ k Hset). apply (pk_removed_included _ _ _ Hok k); [by exists t|by exists inc].
Qed.

(** ** Removal *)

Record taken p (l : list TxHash) p' : Prop := {
  tk_settings : same_settings p p';
  tk_slot : ev_slot (evictor p') = ev_slot (evictor p);
  tk_pending : ∀ k t, pending_get (pending_items p') k = Some t → pending_get (pending_items p) k = Some t ∧ k ∉ l;
  tk_evicted : ∀ k t, pending_get (pending_items p) k = Some t → pending_get (pending_items p') k = Some t ∨ k ∈ l ∨ too_old p (readings p 0%nat) t ∨ claim_past p k;
  tk_admitted : ∀ k t, admitted p k = Some t → admitted p' k = Some t ∨ ∃ i, lapsed p (readings p i) t k
}.

Lemma remove_spec {E : Type} p pp l : pool_ok p pp → pool_env p → ∃ p' pp', pool_remove (E:=E) p l = Ok p' ∧ pool_ok p' pp' ∧ taken p l p'.
Proof.
  intros Hok Henv. unfold pool_remove. destruct (retire_spec slot_of pp l p Hok) as [Hm R2 R3 R4 R5]. set (p1 := retire p l) in *.
  pose proof (moved_ok slot_of p p1 pp Hm Hok) as Hok1. destruct Hm as [_ _ _ _ Ma _ [Ms Ms'] Me _].
  destruct (evict_release_spec (E:=E) p1 pp Hok1) as (p' & pp' & Hr & Hok' & [[W1 W1'] W2 _ W4 W5 _ _ _ W9 _ _]); [rewrite Ms; apply Henv|].
  exists p', pp'. split_and!; [done..|]. unfold too_old, MempoolAdmission.lapsed, MempoolAdmission.claim_past in *. rewrite R5, ?Ms, ?Me in *.
  split; [split; congruence|congruence| | |].
  - intros k t Hk. destruct (W4 k t Hk) as [Hk' _]. rewrite R2 in Hk'. by case_decide.
  - intros k t Hk. destruct (decide (k ∈ l)) as [?|Hin]; [right; by left|]. destruct (W5 k t) as [?|?]; [rewrite R2, decide_False by done; done|by left|right; by right].
  - intros k t Hk. rewrite <- Ma in Hk. by apply W9.
Qed.

(** ** The canonical chain *)

(** The three states of a key. *)
Definition state_of p key : option Z * option Z * option IncludedItem :=
  (pending_get (pending_items p) key, removed_items p !! key, included_in_canonical p !! key).

Lemma state_moved p p' key (t : Z) (inc : option IncludedItem) pp : pool_ok p pp → admitted p key = Some t →
  (∀ k, state_of p' k = if decide (k = key) then (None, match inc with Some _ => None | None => Some t end, inc) else state_of p k) →
  (∀ i, inc = Some i → in_admitted_at i = t) → pending_ok (pending_items p') → by_prefix p' = by_prefix p → same_settings p p' → evictor p' = evictor p →
  storage_adapter p' = storage_adapter p → moved p p'.
Proof.
  intros [_ Hpr Hpi Hri _ _ _ _ _ _] Ht Hst Hinc Hp Hx Hs He Hsa. unfold state_of in Hst. unfold pending, removed, included in *.
  split; try done; intros k; specialize (Hst k); destruct (decide (k = key)) as [->|Hk]; injection Hst as E1 E2 E3; unfold pending, removed, included;
    rewrite ?E1, ?E2, ?E3; try (apply Hpr || apply Hpi || apply Hri); try (by intros []).
  - intros Hd. destruct inc; [by destruct Hd|]. by intros [].
  - rewrite Ht. unfold admitted. rewrite E1, E2, E3. destruct inc as [i|]; [|done]. cbn. f_equal. by apply Hinc.
  - unfold admitted. by rewrite E1, E2, E3.
Qed.

Lemma leave_spec {E : Type} p pp item slot : pool_ok p pp → candidate_ok item →
  ∃ p', leave_canonical (E:=E) p (item, slot) = Ok p' ∧ moved p p' ∧ readings p' = readings p ∧
    ∀ k, state_of p' k = if decide (k = hash_of item) then
      match included_in_canonical p !! k with Some inc => (None, Some (in_admitted_at inc), None) | None => state_of p k end else state_of p k.
Proof.
  intros Hok Hc. unfold leave_canonical. cbn [fst]. rewrite (candidate_hash item Hc). cbn [mbind result_bind]. set (key := hash_of item).
  destruct (included_in_canonical p !! key) as [inc|] eqn:Hi.
  2:{ exists p. split_and!; [done|by apply (moved_refl slot_of (lost:=lost) p pp)|done|]. intros k. case_decide as Hk; [subst k; by rewrite Hi|done]. }
  eexists. split; [done|]. set (p' := with_retired _ _ _).
  assert (removed_items p !! key = None ∧ pending_get (pending_items p) key = None) as [Hr Hp].
  { split; apply eq_None_not_Some; intros Hk; [by apply (pk_removed_included _ _ _ Hok key Hk); exists inc|by apply (pk_pending_included _ _ _ Hok key Hk); exists inc]. }
  assert (∀ k, state_of p' k = if decide (k = key) then (None, Some (in_admitted_at inc), None) else state_of p k) as Hst.
  { intros k. unfold state_of, p'. pool_cbn. case_decide as Hk; [subst k; by rewrite lookup_insert_eq, lookup_delete_eq, Hp|]. by rewrite lookup_insert_ne, lookup_delete_ne by done. }
  split_and!; [|done|intros k; rewrite Hst; case_decide as Hk; [subst k; by rewrite Hi|done]].
  apply (state_moved p p' key (in_admitted_at inc) None pp); try done; [unfold admitted; by rewrite Hp, Hr, Hi|apply Hok].
Qed.

Lemma enter_spec p pp key slot : pool_ok p pp →
  let p' := enter_canonical p (key, slot) in moved p p' ∧ readings p' = readings p ∧
    ∀ k, state_of p' k = if decide (k = key) then match admitted p key with Some t => (None, None, Some (mkIncluded slot t)) | None => state_of p k end else state_of p k.
Proof.
  intros Hok p'. destruct (admitted p key) as [t|] eqn:Ht.
  2:{ assert (p' = p) as ->.
      { unfold p', enter_canonical. unfold admitted in Ht. destruct (pending_get _ _); [done|]. destruct (removed_items p !! key); [done|]. by destruct (included_in_canonical p !! key). }
      split_and!; [by apply (moved_refl slot_of (lost:=lost) p pp)|done|]. intros k. by case_decide. }
  assert ((∀ k, state_of p' k = if decide (k = key) then (None, None, Some (mkIncluded slot t)) else state_of p k) ∧ pending_ok (pending_items p') ∧
    readings p' = readings p ∧ by_prefix p' = by_prefix p ∧ same_settings p p' ∧ evictor p' = evictor p ∧ storage_adapter p' = storage_adapter p)
    as (Hst & Hpo & Hrd & Hx & Hs & He & Hsa).
  2:{ split_and!; [|done..]. by apply (state_moved p p' key t (Some (mkIncluded slot t)) pp); [..|intros i [= <-]| | | | |]. }
  unfold p', enter_canonical. unfold admitted in Ht. destruct (pending_get (pending_items p) key) as [t1|] eqn:Hp.
  { injection Ht as ->. destruct (shift_remove_spec (pending_items p) key (pk_pending _ _ _ Hok)) as [S1 S2]. split_and!; try done.
    assert (removed_items p !! key = None) as Hr by (apply eq_None_not_Some, (pk_pending_removed _ _ _ Hok); by exists t).
    intros k. unfold state_of. pool_cbn. rewrite S2. case_decide as Hk; [subst k; by rewrite Hr, lookup_insert_eq|by rewrite lookup_insert_ne]. }
  destruct (removed_items p !! key) as [t1|] eqn:Hr.
  { injection Ht as ->. split_and!; try done; [|apply Hok]. intros k. unfold state_of. pool_cbn.
    case_decide as Hk; [subst k; by rewrite Hp, lookup_delete_eq, lookup_insert_eq|by rewrite lookup_delete_ne, lookup_insert_ne]. }
  destruct (included_in_canonical p !! key) as [inc|] eqn:Hi; [|done]. injection Ht as <-. split_and!; try done; [|apply Hok]. intros k. unfold state_of. pool_cbn.
  case_decide as Hk; [subst k; by rewrite Hp, Hr, lookup_insert_eq|by rewrite lookup_insert_ne].
Qed.

(** The first two loops of the update. *)
Lemma leave_all {E : Type} pp (reorged : list (SignedOps * Z)) : Forall (λ x, candidate_ok x.1) reorged → ∀ p, pool_ok p pp →
  ∃ p', fold_result (E:=E) leave_canonical p reorged = Ok p' ∧ moved p p' ∧ readings p' = readings p ∧
    ∀ k, state_of p' k = if decide (k ∈ hash_of <$> reorged.*1) then
      match included_in_canonical p !! k with Some inc => (None, Some (in_admitted_at inc), None) | None => state_of p k end else state_of p k.
Proof.
  induction 1 as [|[item slot] reorged Hc _ IH]; intros p Hok; cbn [fold_result].
  { exists p. split_and!; [done|by apply (moved_refl slot_of (lost:=lost) p pp)|done|]. intros k. rewrite decide_False; [done|]. apply not_elem_of_nil. }
  destruct (leave_spec (E:=E) p pp item slot Hok Hc) as (p1 & -> & Hm & Hrd & Hst). cbn [mbind result_bind].
  destruct (IH p1 (moved_ok slot_of p p1 pp Hm Hok)) as (p' & Hf & Hm' & Hrd' & Hst'). exists p'. split_and!; [done|by eapply moved_trans|by rewrite Hrd'|].
  intros k. rewrite Hst'. cbn [fmap list_fmap fst]. specialize (Hst k). unfold state_of in *.
  destruct (decide (k = hash_of item)) as [->|Hne]; [|injection Hst as E1 E2 E3; rewrite E1, E2, E3].
  - rewrite (decide_True (P:=hash_of item ∈ hash_of item :: _)) by by left.
    destruct (included_in_canonical p !! hash_of item) as [inc|] eqn:Hi; injection Hst as E1 E2 E3; rewrite E1, E2, E3; [by case_decide|]. by case_decide.
  - destruct (decide (k ∈ hash_of <$> reorged.*1)) as [Hin|Hin]; [by rewrite decide_True by by right|]. rewrite decide_False; [done|]. by intros [?|?]%elem_of_cons.
Qed.

Lemma enter_all pp (entered : list (TxHash * Z)) : NoDup entered.*1 → ∀ p, pool_ok p pp → let p' := foldl enter_canonical p entered in
  moved p p' ∧ readings p' = readings p ∧ (∀ k slot, (k, slot) ∈ entered → state_of p' k = match admitted p k with Some t => (None, None, Some (mkIncluded slot t)) | None => state_of p k end) ∧
    ∀ k, k ∉ entered.*1 → state_of p' k = state_of p k.
Proof.
  induction entered as [|[key slot] entered IH]; intros Hn p Hok; cbn [foldl].
  { split_and!; [by apply (moved_refl slot_of (lost:=lost) p pp)|done|by intros k slot ?%not_elem_of_nil|done]. }
  apply NoDup_cons in Hn as [Hk Hn]. destruct (enter_spec p pp key slot Hok) as (Hm & Hrd & Hst). set (p1 := enter_canonical p (key, slot)) in *.
  destruct (IH Hn p1 (moved_ok slot_of p p1 pp Hm Hok)) as (Hm' & Hrd' & Hin & Hout). split_and!; [by eapply moved_trans|by rewrite Hrd'| |].
  - intros k sl [[= -> ->]|Hel]%elem_of_cons.
    + rewrite Hout by done. by rewrite Hst, decide_True.
    + assert (k ≠ key) as Hne by (intros ->; apply Hk; by apply (list_elem_of_fmap_2 fst _ (key, sl))). rewrite (Hin k sl Hel), (mv_admitted _ _ Hm), Hst, decide_False; done.
  - intros k Hel. cbn in Hel. apply not_elem_of_cons in Hel as [Hne Hel]. by rewrite (Hout k Hel), Hst, decide_False.
Qed.

Lemma slot_start_total {E : Type} p slot : pool_env p → 0 <= slot → ∃ start, slot_start (E:=E) p slot = Ok start.
Proof.
  intros Henv Hs. unfold slot_start. destruct (era_timing (settings p)) as [timing|] eqn:Ht; [|by eexists]. pose proof (pe_timing _ _ Henv timing Ht) as Hg.
  destruct (take_while_last (λ v : EraEntryView EraTiming, v_first_slot v <=? slot) (eras timing) (genesis timing)) as (i & v & Hl & _ & Hv & _); [done|cbn; lia|].
  assert (∀ F : Type, at_slot (E:=F) timing slot = Ok v) as Hat by (intros F; unfold at_slot, last_started; by rewrite Hl).
  unfold checked_time_of, elapsed_slots_since_era_start. rewrite Hat. cbn [mbind result_bind]. apply Z.leb_le in Hv. rewrite strict_sub_in by exact Hv. by eexists.
Qed.

(** A transaction that a reorganisation brings back is skipped for its age, or offered to the pool. *)
Definition offered (now : Z) p p' (readmitted : list SignedOps) (x : SignedOps * Z) : Prop :=
  (∃ p1 t, kept p p1 ∧ older_than_ttl p t now = true ∧
     (removed_items p1 !! hash_of x.1 = Some t ∨ removed_items p1 !! hash_of x.1 = None ∧ ∃ start, slot_start (E:=Empty_set) p x.2 = Ok start ∧ t = default now start)) ∨
  ∃ p1 p2 v, kept p p1 ∧ add_outcome slot_of p1 (hash_of x.1) x.1 p2 v ∧ kept p2 p' ∧ (v = Ok tt → x.1 ∈ readmitted).

Definition readmitted_ok p (reorged : list (SignedOps * Z)) item : Prop :=
  item ∈ reorged.*1 ∧ pending p (hash_of item) ∧ body p (hash_of item) = Some item.

Lemma offered_after now p p1 p' l l' x : kept p p1 → (∀ item, item ∈ l → item ∈ l') → offered now p1 p' l x → offered now p p' l' x.
Proof.
  intros Hk Hl Ho. pose proof (proj1 (kp_settings _ _ _ Hk)) as Hs. destruct Ho as [(p2 & t & Hk2 & Ho & Hr)|(p2 & p3 & v & Hk2 & Ho & Hk3 & Hv)].
  - left. exists p2, t. split_and!; [by eapply kept_trans|unfold older_than_ttl in *; by rewrite <- Hs|]. unfold slot_start in *. by rewrite <- Hs.
  - right. exists p2, p3, v. split_and!; [by eapply kept_trans|done..|]. intros ->. by apply Hl, Hv.
Qed.

Lemma readmitted_after p p' reorged reorged' item : kept p p' → (∀ x, x ∈ reorged.*1 → x ∈ reorged'.*1) → readmitted_ok p reorged item → readmitted_ok p' reorged' item.
Proof.
  intros Hk Hl (Hin & [t Hp] & Hb). split_and!; [by apply Hl|exists t; by apply (kp_pending _ _ _ Hk)|]. rewrite (kp_body _ _ _ Hk); [done|by exists t].
Qed.

Lemma slot_start_any {E F : Type} p slot start : slot_start (E:=E) p slot = Ok start → slot_start (E:=F) p slot = Ok start.
Proof.
  unfold slot_start. destruct (era_timing (settings p)) as [timing|]; [|by intros [= <-]]. intros Hs. peel Hs as o Ho. injection Hs as <-.
  unfold checked_time_of, elapsed_slots_since_era_start in *. peel Ho as v Hv. peel Ho as n Hn. peel Hn as w Hw. injection Ho as <-.
  unfold at_slot in *. apply expect_ok in Hv, Hw. rewrite Hv. cbn [expect mbind result_bind]. apply strict_sub_ok in Hn as [-> Hle].
  assert (w = v) as -> by congruence. by rewrite strict_sub_in.
Qed.

(** One transaction that a reorganisation brings back. *)
Lemma readmit_spec {E : Type} now p pp acc x : pool_ok p pp → pool_env p → era_ok p → candidate_ok x.1 → 0 <= x.2 →
  ∃ p' pp' out, readmit (E:=E) now (p, acc) x = Ok (p', acc ++ out) ∧ pool_ok p' pp' ∧ kept p p' ∧ Forall (readmitted_ok p' [x]) out ∧ offered now p p' out x.
Proof.
  intros Hok Henv Hera Hc Hsl. destruct x as [item slot]. cbn [fst snd] in *. unfold readmit. rewrite (candidate_hash item Hc). cbn [mbind result_bind]. set (key := hash_of item).
  assert (∃ t, (match removed_items p !! key with Some admitted_at => Ok (E:=E) admitted_at | None => start ← slot_start p slot; Ok (default now start) end) = Ok t ∧
    (removed_items p !! key = Some t ∨ removed_items p !! key = None ∧ ∃ start, slot_start (E:=Empty_set) p slot = Ok start ∧ t = default now start)) as (t & Ht & Hcase).
  { destruct (removed_items p !! key) as [t|]; [exists t; split; [done|by left]|]. destruct (slot_start_total (E:=E) p slot Henv Hsl) as [start Hst]. rewrite Hst.
    exists (default now start). split; [done|]. right. split; [done|]. exists start. split; [by eapply slot_start_any|done]. }
  rewrite Ht. cbn [mbind result_bind]. destruct (older_than_ttl p t now) eqn:Hold.
  { exists p, pp, []. rewrite app_nil_r. split_and!; [done..|apply kept_refl|constructor|]. left. exists p, t. split_and!; [apply kept_refl|done..]. }
  destruct (add_item_spec (E:=E) slot_of p pp key item Hok Henv Hera Hc (hash_hashes item Hc)) as (p' & pp' & v & Ha & Hok' & Hk & Hout). rewrite Ha. cbn [mbind result_bind].
  destruct v as [[]| |].
  - exists p', pp', [item]. split_and!; [done..| |].
    + apply Forall_singleton. split_and!; [by left|..].
      * inversion Hout; subst. match goal with Hx : checked_outcome _ _ _ _ _ _ _ |- _ => inversion Hx; subst end.
        match goal with Hx : added _ _ _ _ _ _ |- _ => destruct Hx as [A1 _ _ _ A5 _] end. unfold pending. rewrite A1, decide_True by done. by eexists.
      * inversion Hout; subst. match goal with Hx : checked_outcome _ _ _ _ _ _ _ |- _ => inversion Hx; subst end.
        match goal with Hx : added _ _ _ _ _ _ |- _ => destruct Hx as [A1 _ _ _ A5 _] end. by rewrite A5, decide_True.
    + right. exists p, p', (Ok tt). split_and!; [apply kept_refl|done|apply kept_refl|]. intros _. by left.
  - exists p', pp', []. rewrite app_nil_r. split_and!; [done..|constructor|]. right. exists p, p', (Err e). split_and!; [apply kept_refl|done|apply kept_refl|done].
  - exists p', pp', []. rewrite app_nil_r. split_and!; [done..|constructor|]. right. exists p, p', (Fault f). split_and!; [apply kept_refl|done|apply kept_refl|done].
Qed.

Lemma readmit_all {E : Type} now (reorged : list (SignedOps * Z)) : Forall (λ x, candidate_ok x.1 ∧ 0 <= x.2) reorged →
  ∀ p pp acc, pool_ok p pp → pool_env p → era_ok p → ∃ p' pp' out, fold_result (E:=E) (readmit now) (p, acc) reorged = Ok (p', acc ++ out) ∧ pool_ok p' pp' ∧ kept p p' ∧
    Forall (readmitted_ok p' reorged) out ∧ Forall (offered now p p' out) reorged.
Proof.
  induction 1 as [|x reorged [Hc Hs] _ IH]; intros p pp acc Hok Henv Hera; cbn [fold_result].
  { exists p, pp, []. rewrite app_nil_r. split_and!; [done..|apply kept_refl|constructor|constructor]. }
  destruct (readmit_spec (E:=E) now p pp acc x Hok Henv Hera Hc Hs) as (p1 & pp1 & out1 & -> & Hok1 & Hk1 & Hr1 & Ho1). cbn [mbind result_bind].
  pose proof (kp_settings _ _ _ Hk1) as [Hs1 Hs1']. destruct (IH p1 pp1 (acc ++ out1) Hok1) as (p' & pp' & out & Hf & Hok' & Hk & Hr & Ho).
  { by apply (env_same slot_of p). } { unfold era_ok, limits_of in *. by rewrite Hs1, Hs1'. }
  exists p', pp', (out1 ++ out). rewrite app_assoc. split_and!; [done..|by eapply kept_trans| |].
  - apply Forall_app. split; eapply Forall_impl; [exact Hr1| |exact Hr|]; intros item; apply readmitted_after; [done| |apply kept_refl|]; intros y Hy; cbn in *; [|by right].
    apply list_elem_of_singleton in Hy as ->. by left.
  - constructor.
    + destruct Ho1 as [(p2 & t & ? & ? & ?)|(p2 & p3 & v & Hk2 & Ho1 & Hk3 & Hv)]; [left; by exists p2, t|]. right. exists p2, p3, v.
      split_and!; [done..|by eapply kept_trans|]. intros ->. apply elem_of_app. left. by apply Hv.
    + eapply Forall_impl; [exact Ho|]. intros y. apply offered_after; [done|]. intros item ?. apply elem_of_app. by right.
Qed.

(** What an update of the canonical chain does: the held transactions that entered it
    are marked with the slot, those that left it are offered to the pool again, and
    all keep the time of their first admission. *)
Record canonical_updated p (entered : list (TxHash * Z)) (reorged : list (SignedOps * Z)) p' (readmitted : list SignedOps) : Prop := {
  cu_settings : same_settings p p';
  cu_slot : ev_slot (evictor p') = ev_slot (evictor p);
  cu_readings : ∃ n, ∀ i, readings p' i = readings p (i + n)%nat;
  cu_entered : ∀ k slot t, (k, slot) ∈ entered → admitted p k = Some t → included_in_canonical p' !! k = Some (mkIncluded slot t) ∨ claim_past p k;
  cu_included_from : ∀ k inc, included_in_canonical p' !! k = Some inc →
    (k, in_slot inc) ∈ entered ∨ included_in_canonical p !! k = Some inc ∧ k ∉ hash_of <$> reorged.*1;
  cu_included : ∀ k inc, included_in_canonical p !! k = Some inc → k ∉ entered.*1 → k ∉ hash_of <$> reorged.*1 →
    included_in_canonical p' !! k = Some inc ∨ claim_past p k;
  cu_pending : ∀ k t, pending_get (pending_items p) k = Some t → k ∉ entered.*1 → pending_get (pending_items p') k = Some t;
  cu_admitted : ∀ k t, admitted p k = Some t → admitted p' k = Some t ∨ ∃ i, lapsed p (readings p i) t k;
  cu_readmitted : Forall (readmitted_ok p' reorged) readmitted;
  cu_offered : ∃ p1, moved p p1 ∧ kept p1 p' ∧ Forall (offered (readings p 0%nat) p1 p' readmitted) reorged
}.

Lemma canonical_chain_spec {E : Type} p pp entered reorged : pool_ok p pp → pool_env p → era_ok p → NoDup entered.*1 → Forall (λ x, candidate_ok x.1 ∧ 0 <= x.2) reorged →
  ∃ p' pp' readmitted, on_canonical_chain_updated (E:=E) p entered reorged = Ok (p', readmitted) ∧ pool_ok p' pp' ∧ canonical_updated p entered reorged p' readmitted.
Proof.
  intros Hok Henv Hera Hn Hre. unfold on_canonical_chain_updated.
  destruct (leave_all (E:=E) pp reorged) with (p := p) as (p1 & -> & Hm1 & Hrd1 & Hst1); [by eapply Forall_impl; [exact Hre|intros x []]|done|]. cbn [mbind result_bind].
  pose proof (moved_ok slot_of p p1 pp Hm1 Hok) as Hok1. destruct (enter_all pp entered Hn p1 Hok1) as (Hm2 & Hrd2 & Hin & Hout). set (p2 := foldl enter_canonical p1 entered) in *.
  pose proof (moved_ok slot_of p1 p2 pp Hm2 Hok1) as Hok2. pose proof (moved_trans _ _ _ Hm1 Hm2) as Hm. cbn [current_timestamp_millis]. set (p3 := mkPool _ _ _ _ _ _ _ _ _ _).
  assert (same_pool slot_of p2 p3) as Hsm by by split. pose proof (same_pool_ok slot_of p2 p3 pp Hsm Hok2) as Hok3.
  destruct (mv_settings _ _ Hm) as [Hs Hs']. pose proof (mv_evictor _ _ Hm) as He. pose proof (mv_admitted _ _ Hm) as Had.
  assert (moved p p3) as Hm3.
  { eapply moved_trans; [exact Hm|]. destruct Hok3 as [? ? ? ? _ _ _ _ _ _]. by split. }
  assert (readings p2 0%nat = readings p 0%nat) as Hnow by by rewrite Hrd2, Hrd1.
  destruct (readmit_all (E:=E) (readings p2 0%nat) reorged Hre p3 pp [] Hok3) as (p' & pp' & out & Hf & Hok' & Hk & Hr & Ho).
  { by apply (env_same slot_of p). } { destruct Hera as (limits & Hl & ?). exists limits. split; [|done]. unfold limits_of in *. change (settings p3) with (settings p2).
    change (era_in_force p3) with (era_in_force p2). by rewrite Hs, Hs'. }
  exists p', pp', out. split_and!; [exact Hf|done|]. rewrite Hnow in Ho. destruct Hk as [[K1 K1'] K2 [n K3] K4 K5 K6 K7 K8].
  assert (∀ k, claim_past p3 k → claim_past p k) as Hcp.
  { intros k. unfold MempoolAdmission.claim_past. change (settings p3) with (settings p2). change (evictor p3) with (evictor p2). by rewrite Hs, He. }
  change (settings p3) with (settings p2) in *. change (evictor p3) with (evictor p2) in *. change (era_in_force p3) with (era_in_force p2) in *.
  split; [split; congruence|congruence| | | | | | |done|exists p3; split_and!; [done|split; try done; by exists n|done]].
  - exists (n + 1)%nat. intros i. rewrite K3. change (readings p3 (i + n)%nat) with (readings p2 (i + n + 1)%nat). rewrite Hrd2, Hrd1. f_equal. lia.
  - intros k slot t Hel Ht. pose proof (Hin k slot Hel) as Hk. rewrite (mv_admitted _ _ Hm1), Ht in Hk. injection Hk as _ _ Hk. destruct (K5 k _ Hk); [by left|right; by apply Hcp].
  - intros k inc Hk%K6. change (included_in_canonical p2 !! k = Some inc) in Hk. destruct (decide (k ∈ entered.*1)) as [Hel|Hel].
    + left. apply list_elem_of_fmap in Hel as ([k' slot] & -> & Hel). cbn [fst] in *. pose proof (Hin k' slot Hel) as Hst. unfold state_of in Hst.
      destruct (admitted p1 k') as [t|] eqn:Ht; injection Hst as _ _ E3; [rewrite Hk in E3; by injection E3 as ->|]. unfold admitted in Ht. rewrite <- E3, Hk in Ht. by repeat case_match.
    + right. pose proof (Hout k Hel) as Hst. injection Hst as _ _ E3. rewrite Hk in E3. pose proof (Hst1 k) as Hst. unfold state_of in Hst.
      case_decide as Hd; [|injection Hst as _ _ E4; split; [congruence|done]]. destruct (included_in_canonical p !! k) eqn:Hi; injection Hst as _ _ E4; congruence.
  - intros k inc Hi Hel Hnr. destruct (K5 k inc) as [?|?]; [|by left|right; by apply Hcp]. change (included_in_canonical p2 !! k = Some inc).
    pose proof (Hout k Hel) as Hst. injection Hst as _ _ ->. pose proof (Hst1 k) as Hst. rewrite decide_False in Hst by done. by injection Hst as _ _ ->.
  - intros k t Hp Hel. apply K4. pose proof (Hout k Hel) as Hst. injection Hst as E1 _ _. change (pending_get (pending_items p2) k = Some t). rewrite E1.
    pose proof (Hst1 k) as Hst. unfold state_of in Hst. case_decide as Hd; [|injection Hst as E4 _ _; congruence].
    destruct (included_in_canonical p !! k) as [inc|] eqn:Hi; [|injection Hst as E4 _ _; congruence]. destruct (pk_pending_included _ _ _ Hok k); [by exists t|by exists inc].
  - intros k t Hk. rewrite <- Had in Hk. destruct (K7 k t Hk) as [?|(i & Hl)]; [by left|]. right. exists (i + 1)%nat.
    change (readings p3 i) with (readings p2 (i + 1)%nat) in Hl. rewrite Hrd2, Hrd1 in Hl. destruct Hl as [(ttl & Ht & Hle)|?]; [|right; by apply Hcp].
    left. exists ttl. change (settings p3) with (settings p2) in Ht. by rewrite Hs in Ht.
Qed.

Lemma nothing_updated p pp : pool_ok p pp → canonical_updated p [] [] p [].
Proof.
  intros Hok. split; try done; [exists 0%nat; intros i; by rewrite Nat.add_0_r|by intros k slot t ?%not_elem_of_nil| |by left|by left|].
  - intros k inc Hk. right. split; [done|]. apply not_elem_of_nil.
  - exists p. split_and!; [by apply (moved_refl slot_of (lost:=lost) p pp)|apply kept_refl|constructor].
Qed.

End Pool.

End MempoolSteps.
