(* ===== verification/MempoolTheorems.v ===== *)
(** * Theorems on the mempool

    Every pool that the operations produce keeps the invariant, and no operation
    panics; what an operation admits, evicts and releases; and why a transaction
    that is evicted for a claim could not have been executed. *)

From stdpp Require Import sorting.
From S2P Require Import Prelude Era EraFacts Codec Ops Utxos ServiceNotes ChannelOps SignedTx ClaimOps Pow PowTheorems Blocks BlockVerify TxSelection SelectionFacts Eviction Mempool EvictionFacts MempoolFacts MempoolSteps.

#[local] Open Scope Z_scope.

Module MempoolTheorems.
Import Canonical Ops Utxos ServiceNotes ChannelOps SignedTx ClaimOps Pow PowTheorems Blocks BlockVerify SelectionFacts Eviction Mempool EvictionFacts MempoolFacts MempoolAdmission MempoolSteps.

Section Pool.
Context {S : Type} `{!MempoolStorage S} (slot_of : HeaderId → option Z) `{!MempoolStorageLaws S slot_of}.
Context `{Ed25519Crate} `{MultiaddrCrate} `{Blake2Crate} `{!TimeCrate}.
Implicit Types (p : Mempool S) (item : SignedOps) (pp : option PowClaimPolicy) (q : PowClaimPolicy) (key : TxHash).
Notation pool_ok lost := (pool_ok slot_of (lost:=lost)).
Notation claims_in lost := (claims_in slot_of (lost:=lost)).
Notation pool_env := (pool_env slot_of).
Notation body := (body slot_of).

(** ** Recovery *)

Lemma index_keys (l : list TxHash) : ∀ p, sets_ok (by_prefix p) → let p' := foldl index_by_prefix p l in
  p' = with_prefixes p (by_prefix p') ∧ sets_ok (by_prefix p') ∧
  ∀ prefix key, member (by_prefix p') prefix key ↔ member (by_prefix p) prefix key ∨ key ∈ l ∧ tx_hash_prefix key = prefix.
Proof.
  induction l as [|k l IH]; intros p Hp; cbn [foldl].
  { split_and!; [by destruct p|done|]. intros prefix key. rewrite elem_of_nil. naive_solver. }
  destruct (insert_member_spec (by_prefix p) (tx_hash_prefix k) k Hp) as [I1 I2]. destruct (IH (index_by_prefix p k) I1) as (E1 & E2 & E3). cbv zeta in *.
  split_and!; [by rewrite E1 at 1|done|]. intros prefix key. rewrite E3, elem_of_cons. etransitivity; [apply or_iff_compat_r, I2|]. naive_solver.
Qed.

(** The claims of the recovered transactions are tracked one by one. *)
Lemma recovered_claims {E : Type} lost (slots_pos : ∀ a slot, slot_of a = Some slot → 0 <= slot) (ks : list TxHash) : ∀ p pp (K : TxHash → Prop),
  (∀ k, k ∈ ks → ∃ item, body p k = Some item ∧ hashes item k) → evictor_ok (evictor p) (tx_ttl (settings p)) pp → (∀ q, pp = Some q → claims_in lost K (body p) q) →
  ∃ e pp', fold_result (E:=E) add_recovered_item p (omap (body p) ks) = Ok (with_evictor p e) ∧ evictor_ok e (tx_ttl (settings p)) pp' ∧
    pp_settings <$> pp' = pp_settings <$> pp ∧ ev_slot e = ev_slot (evictor p) ∧ ∀ q, pp' = Some q → claims_in lost (λ k, K k ∨ k ∈ ks) (body p) q.
Proof.
  induction ks as [|k ks IH]; intros p pp K Hb He Hc.
  { exists (evictor p), pp. split_and!; [by destruct p|done..|]. intros q Hq. eapply claims_in_ext; [| |by apply Hc]; [|done]. intros k. rewrite elem_of_nil. naive_solver. }
  destruct (Hb k) as (item & Hbk & Hh); [by left|]. cbn [omap list_omap]. rewrite Hbk. cbn [fold_result].
  set (slots := resolve_claim_anchors p item). pose proof (resolve_sound slot_of p item) as Hs.
  destruct (on_add_spec (E:=E) (evictor p) (tx_ttl (settings p)) pp k item slots He (sound_slots_ok slot_of slots slots_pos Hs)) as (e & pp1 & Ha & Hsl & He1 & Hr).
  assert (add_recovered_item (E:=E) p item = Ok (with_evictor p e)) as -> by (unfold add_recovered_item; rewrite Hh; cbn [mbind result_bind]; fold slots; by rewrite Ha).
  cbn [mbind result_bind]. destruct (IH (with_evictor p e) pp1 (λ x, K x ∨ x = k)) as (e' & pp' & Hf & He' & Hset & Hsl' & Hc').
  { intros k' Hk'. apply Hb. by right. } { done. }
  { intros q1 ->. destruct pp as [q|]; [|done]. eapply claims_in_ext; [| |exact (claims_added slot_of K (body p) q k item slots q1 (Hc q eq_refl) Hr Hh Hs)]; [done|].
    intros x _. cbv beta. case_decide as Hx; [by subst x|done]. }
  exists e', pp'. split_and!; [exact Hf|done| |by rewrite Hsl'|].
  - rewrite Hset. destruct pp as [q|], pp1 as [q1|]; try done. cbn. by destruct Hr as [_ ->].
  - intros q Hq. eapply claims_in_ext; [| |by apply Hc']; [|done]. intros x. rewrite elem_of_cons. tauto.
Qed.

Lemma held_keys_elem p key : key ∈ held_keys p ↔ held p key.
Proof.
  unfold held_keys, held, pending, removed, included. rewrite !elem_of_app, pending_get_some. unfold ordered_entries.
  rewrite !list_elem_of_fmap. setoid_rewrite sorting.merge_sort_Permutation. apply or_iff_compat_l. unfold is_Some. 
  assert (∀ (A : Type) (m : gmap TxHash A), (∃ y, key = y.1 ∧ y ∈ map_to_list m) ↔ ∃ x, m !! key = Some x) as Hm.
  { intros A m. split; [intros ([k x] & -> & Hin%elem_of_map_to_list); by exists x|]. intros [x Hx]. exists (key, x). split; [done|]. by apply elem_of_map_to_list. }
  by rewrite !Hm.
Qed.

(** The claims that are not tracked after a restart: those of all transactions, when
    the storage does not return the bodies. *)
Definition lost_at (s : S) p : gset TxHash := match get_items s (held_keys p) with Some _ => ∅ | None => list_to_set (held_keys p) end.

Lemma new_claims lost (K : TxHash → Prop) txs w : (∀ k, K k → k ∈ lost) → claims_in lost K txs (pow_policy_new w).
Proof.
  intros Hl. assert (∀ k a, ¬ parked (pow_policy_new w) k a) as Hn by (intros k a Ha; unfold parked, member in Ha; cbn in Ha; by apply not_elem_of_nil in Ha).
  split; [|intros k [[? ?]|[a Ha]]; [done|by destruct (Hn k a)]|done|intros k a Ha; by destruct (Hn k a)]. intros k item a Hk []. by apply Hl.
Qed.

(** The evictor after a restart. *)
Lemma recovered_evictor {E : Type} lost p p2 w : pool_ok lost p w → pool_env p2 → (∀ k, held p2 k ↔ held p k) → (∀ k, held p k → body p2 k = body p k) →
  evictor p2 = evictor_new (tx_ttl (settings p2)) (pow_claim (settings p2)) →
  ∃ e r pp, add_recovered_items_to_evictor (E:=E) p2 = Ok (with_readings (with_evictor p2 e) r) ∧ evictor_ok e (tx_ttl (settings p2)) pp ∧
    pp_settings <$> pp = pow_claim (settings p2) ∧ ∀ q, pp = Some q → claims_in (lost_at (storage_adapter p2) p2) (held p2) (body p2) q.
Proof.
  intros Hok Henv Hh Hb Hev. set (pp0 := pow_policy_new <$> pow_claim (settings p2)).
  assert (evictor_ok (evictor p2) (tx_ttl (settings p2)) pp0) as He0 by (rewrite Hev; apply evictor_new_ok; intros w' Hw'; by apply (pe_windows _ _ Henv)).
  assert (pp_settings <$> pp0 = pow_claim (settings p2)) as Hs0 by (unfold pp0; by destruct (pow_claim (settings p2))).
  unfold add_recovered_items_to_evictor, get_items_by_keys, lost_at. destruct (get_items (storage_adapter p2) (held_keys p2)) as [items|] eqn:Hg; cbn [ok_or].
  - apply (get_ok (slot_of:=slot_of)) in Hg as ->. cbn [current_timestamp_millis]. set (p3 := mkPool _ _ _ _ _ _ _ _ _ _).
    destruct (recovered_claims (E:=E) ∅ (pe_slots _ _ Henv) (held_keys p2) p3 pp0 (λ _, False)) as (e & pp & Hf & He & Hset & _ & Hc); [|done| |].
    { intros k Hk%held_keys_elem%Hh. change (body p3 k) with (body p2 k). rewrite Hb by done. by apply Hok. }
    { intros q Hq. unfold pp0 in Hq. destruct (pow_claim (settings p2)) as [w'|]; [|done]. injection Hq as <-. by apply new_claims. }
    exists e, (readings p3), pp. split_and!; [exact Hf|done|by rewrite Hset|]. intros q Hq. eapply claims_in_ext; [| |by apply Hc]; [|done].
    intros k. cbv beta. rewrite held_keys_elem. naive_solver.
  - exists (evictor p2), (readings p2), pp0. split_and!; [by destruct p2|done..|]. intros q Hq. unfold pp0 in Hq. destruct (pow_claim (settings p2)) as [w'|]; [|done]. injection Hq as <-.
    apply new_claims. intros k Hk. by apply elem_of_list_to_set, held_keys_elem.
Qed.

(** A pool after a restart, from the state that was saved, holds the same transactions. *)
Lemma pool_recover_spec {E : Type} lost p pp st era s r : pool_ok lost p pp → pool_env (mempool_new st era s r) → (∀ k, held p k → bodies (slot_of:=slot_of) s !! k = body p k) →
  ∃ p' pp', pool_recover (E:=E) st era (pool_save p) s r = Ok p' ∧ pool_ok (lost_at s p) p' pp' ∧
    pending_items p' = pending_items p ∧ removed_items p' = removed_items p ∧ included_in_canonical p' = included_in_canonical p ∧
    settings p' = st ∧ era_in_force p' = era.
Proof.
  intros Hok Henv Hb. unfold pool_recover. cbn [pool_save rs_pending_items rs_removed_items rs_included_in_canonical rs_last_item_timestamp].
  set (p0 := mkPool _ _ _ _ _ _ _ _ _ _). destruct (index_keys (held_keys p0) p0) as (E1 & E2 & E3); [apply sets_ok_empty|]. cbv zeta in *.
  set (m := by_prefix (foldl index_by_prefix p0 (held_keys p0))) in *. rewrite E1. set (p1 := with_prefixes p0 m).
  assert (∀ k, held p1 k ↔ held p k) as Hh by done. assert (∀ k, held p k → body p1 k = body p k) as Hb1 by exact Hb.
  destruct (recovered_evictor (E:=E) lost p p1 pp Hok) as (e & r' & pp' & -> & He & Hset & Hc); [by apply (env_same slot_of (mempool_new st era s r))|done..|].
  change (lost_at (storage_adapter p1) p1) with (lost_at s p) in Hc. eexists _, pp'. split; [done|]. split; [|split_and!; done].
  destruct Hok as [Hp Hpr Hpi Hri Hix Hpx Hbd _ _ Hw]. split; try done.
  - intros prefix k. etransitivity; [apply E3|]. change (held_keys p0) with (held_keys p). rewrite held_keys_elem. unfold member. cbn. rewrite lookup_empty. cbn. rewrite elem_of_nil.
    change (held (with_readings (with_evictor p1 e) r') k) with (held p k). naive_solver.
  - intros k Hk. destruct (Hbd k Hk) as (item & Hbk & ?). exists item. split; [|done]. rewrite <- Hbk. by apply Hb1.
Qed.

(** ** Reachable pools *)

(** The operations of the pool, and a restart from the saved state. *)
Inductive pool_op :=
  | OpAdd item
  | OpRemove (keys : list TxHash)
  | OpProcessed (block_id : HeaderId) (slot lib_slot : Z)
  | OpCanonical (entered : list (TxHash * Z)) (reorged : list (SignedOps * Z))
  | OpRotate (era : Z)
  | OpComplete (ended_era : Z)
  | OpRestart (st : MempoolSettings) (era : Z) (storage : S) (r : nat → Z).

Definition pool_step {E : Type} p (op : pool_op) : result E (Mempool S) :=
  match op with
  | OpAdd item => key ← tx_hasher item; '(p, _) ← add_item p key item; Ok p
  | OpRemove keys => pool_remove p keys
  | OpProcessed block_id slot lib_slot => pool_processed_block p block_id slot lib_slot
  | OpCanonical entered reorged => '(p, _) ← on_canonical_chain_updated p entered reorged; Ok p
  | OpRotate era => Ok (rotate_era p era)
  | OpComplete ended_era => Ok (complete_era_transition p ended_era)
  | OpRestart st era storage r => pool_recover st era (pool_save p) storage r
  end.

(** What the callers of the operations respect. A restart may change the settings and
    the era, and may fail to read the storage, which kept the bodies. *)
Definition op_ok p (op : pool_op) : Prop :=
  match op with
  | OpAdd item => candidate_ok item
  | OpRemove _ | OpComplete _ => True
  | OpProcessed block_id slot _ => slot_of block_id = Some slot
  | OpCanonical entered reorged => NoDup entered.*1 ∧ Forall (λ x, candidate_ok x.1 ∧ 0 <= x.2) reorged
  | OpRotate era => is_Some (get_era (admission (settings p)) era)
  | OpRestart st era storage r => pool_env (mempool_new st era storage r) ∧ is_Some (get_era (admission st) era) ∧
      ∀ k, held p k → bodies (slot_of:=slot_of) storage !! k = body p k
  end.

(** The pools that the operations lead to, with the transactions whose claims the
    evictor was not told of at the last restart. *)
Definition lost_after (lost : gset TxHash) p (op : pool_op) : gset TxHash :=
  match op with OpRestart _ _ storage _ => lost_at storage p | _ => lost end.

Inductive reached_with : gset TxHash → Mempool S → Prop :=
  | reached_new st era s r : pool_env (mempool_new st era s r) → is_Some (get_era (admission st) era) → reached_with ∅ (mempool_new st era s r)
  | reached_op (E : Type) lost p op p' : reached_with lost p → op_ok p op → pool_step (E:=E) p op = Ok p' → reached_with (lost_after lost p op) p'.

Definition reached p : Prop := ∃ lost, reached_with lost p.

Lemma reached_step (E : Type) p op p' : reached p → op_ok p op → pool_step (E:=E) p op = Ok p' → reached p'.
Proof. intros [lost Hp] Hop Hs. eexists. by eapply reached_op. Qed.

Definition pool_inv lost p : Prop := (∃ pp, pool_ok lost p pp) ∧ pool_env p ∧ era_ok p.

Lemma era_in_ok p : pool_env p → is_Some (get_era (admission (settings p)) (era_in_force p)) → era_ok p.
Proof.
  intros Henv [v Hv]. exists (v_parameters v). split; [unfold limits_of; by rewrite Hv|]. apply (pe_limits _ _ Henv). unfold get_era in Hv. by eapply list_elem_of_lookup_2.
Qed.

Lemma inv_same lost p p' pp' : pool_inv lost p → same_settings p p' → pool_ok lost p' pp' → pool_inv lost p'.
Proof.
  intros (_ & Henv & (limits & Hl & ?)) [Hs Hs'] Hok. split_and!; [by exists pp'|by apply (env_same slot_of p)|]. exists limits. split; [|done]. unfold limits_of in *. by rewrite Hs, Hs'.
Qed.

Lemma step_ok {E : Type} lost p op : pool_inv lost p → op_ok p op → ∃ p', pool_step (E:=E) p op = Ok p' ∧ pool_inv (lost_after lost p op) p'.
Proof.
  intros Hinv Hop. pose proof Hinv as ([pp Hok] & Henv & Hera). destruct op as [item|keys|block_id slot lib_slot|entered reorged|era|ended|st era s r]; cbn [pool_step op_ok lost_after] in *.
  - rewrite (candidate_hash item Hop). cbn [mbind result_bind].
    destruct (add_item_spec (E:=E) slot_of p pp (hash_of item) item Hok Henv Hera Hop (hash_hashes item Hop)) as (p' & pp' & v & -> & Hok' & Hk & _).
    exists p'. split; [done|]. by apply (inv_same lost p p' pp'); [|apply Hk|].
  - destruct (remove_spec (E:=E) slot_of p pp keys Hok Henv) as (p' & pp' & -> & Hok' & Hk). exists p'. split; [done|]. by apply (inv_same lost p p' pp'); [|apply Hk|].
  - destruct (processed_block_spec (E:=E) slot_of p pp block_id slot lib_slot Hok Henv Hop) as (p' & pp' & -> & Hok' & Hk). exists p'. split; [done|]. by apply (inv_same lost p p' pp'); [|apply Hk|].
  - destruct Hop as [Hn Hre]. destruct (canonical_chain_spec (E:=E) slot_of p pp entered reorged Hok Henv Hera Hn Hre) as (p' & pp' & out & -> & Hok' & Hk).
    exists p'. split; [done|]. by apply (inv_same lost p p' pp'); [|apply Hk|].
  - exists (rotate_era p era). split; [done|]. assert (pool_env (rotate_era p era)) as Henv' by by apply (env_same slot_of p). split_and!; [|done|by apply era_in_ok].
    exists pp. apply (same_pool_ok slot_of p); [|done]. split; try done. intros k. unfold MempoolFacts.body. cbn. by rewrite (rotate_bodies (slot_of:=slot_of)).
  - exists (complete_era_transition p ended). split; [done|]. apply (inv_same lost p _ pp); [done|done|]. apply (same_pool_ok slot_of p); [|done]. split; try done.
    intros k. unfold MempoolFacts.body. cbn. by rewrite (complete_bodies (slot_of:=slot_of)).
  - destruct Hop as (Hst & He & Hb). destruct (pool_recover_spec (E:=E) lost p pp st era s r Hok Hst Hb) as (p' & pp' & -> & Hok' & _ & _ & _ & Hs & Hs'). exists p'. split; [done|].
    assert (pool_env p') as Henv' by (by apply (env_same slot_of (mempool_new st era s r))). split_and!; [by exists pp'|done|]. apply era_in_ok; [done|]. by rewrite Hs, Hs'.
Qed.

Lemma reached_with_inv lost p : reached_with lost p → pool_inv lost p.
Proof.
  induction 1 as [st era s r Henv Hera|E lost p op p' _ IH Hop Hstep].
  - split_and!; [|done|by apply era_in_ok]. eexists. apply new_ok. intros w Hw. by apply (pe_windows _ _ Henv).
  - destruct (step_ok (E:=E) lost p op IH Hop) as (p'' & Hs & ?). rewrite Hstep in Hs. by injection Hs as ->.
Qed.

Lemma reached_inv p : reached p → ∃ lost, pool_inv lost p.
Proof. intros [lost Hp]. exists lost. by apply reached_with_inv. Qed.

(** What every pool satisfies, as its queries show it. *)
Record pool_sound p : Prop := {
  ps_bodies : ∀ k, held p k → ∃ item, body p k = Some item ∧ hashes item k;
  ps_pending : NoDup (pending_items p).*1 ∧ StronglySorted time_le (pending_items p);
  ps_disjoint : ∀ k, ¬ (pending p k ∧ removed p k) ∧ ¬ (pending p k ∧ included p k) ∧ ¬ (removed p k ∧ included p k);
  ps_status : ∀ k, status_of p k = Unknown ↔ ¬ held p k;
  ps_prefix : ∀ prefix, NoDup (keys_by_prefix p prefix) ∧ ∀ k, k ∈ keys_by_prefix p prefix ↔ held p k ∧ tx_hash_prefix k = prefix
}.

Lemma inv_sound lost p : pool_inv lost p → pool_sound p.
Proof.
  intros ([pp [Hp Hpr Hpi Hri Hix Hpx Hb _ _ _]] & _). split; try done; [naive_solver| |].
  - intros k. unfold status_of, held. unfold pending, removed, included. repeat case_bool_decide; cbn; naive_solver.
  - intros prefix. split; [|intros k; by rewrite <- Hpx]. unfold keys_by_prefix. destruct (by_prefix p !! prefix) as [l|] eqn:Hl; [|constructor]. by apply (Hix prefix).
Qed.

Lemma reached_sound p : reached p → pool_sound p.
Proof. intros [lost Hp]. by eapply inv_sound, reached_with_inv. Qed.

(** C12: The mempool never panics and never loses track of a transaction. Whatever
    sequence of operations led to it, submissions, removals, processed blocks,
    updates of the canonical chain, changes of era and restarts from the saved state
    under any valid settings, with a storage that keeps what it acknowledged but may
    refuse any call, the reading of the bodies at a restart included: a transaction
    is pending, retired or included and no two of these; its body, of that hash, is
    stored; the prefix index lists it exactly once; pending transactions are ordered
    by admission; and every next operation returns. *)
Theorem mempool_safe {E : Type} p : reached p → pool_sound p ∧ ∀ op, op_ok p op → ∃ p', pool_step (E:=E) p op = Ok p' ∧ reached p'.
Proof.
  intros Hp. destruct (reached_inv p Hp) as [lost Hinv]. split; [by eapply inv_sound|]. intros op Hop.
  destruct (step_ok (E:=E) lost p op Hinv Hop) as (p' & Hs & _). exists p'. split; [done|]. by eapply reached_step.
Qed.

(** C28: The answer to a submission, on every branch. A transaction beyond the limits
    of the era in force is refused and changes nothing. Otherwise only what was
    retired for too long, or has a claim past its deadline, is released; then the
    answer says, in this order, that the transaction is already pending or
    included, that its fork digest is not accepted, that a claim in it, with a
    known anchor, is past its deadline, that the storage failed, or that it is now
    pending, under the time of its first admission if it had been retired. *)
Theorem admission_exact {E : Type} p item : reached p → candidate_ok item →
  ∃ p' v, add_item (E:=E) p (hash_of item) item = Ok (p', v) ∧ kept slot_of p p' ∧ add_outcome slot_of p (hash_of item) item p' v.
Proof.
  intros Hp Hc. destruct (reached_inv p Hp) as (lost & [pp Hok] & Henv & Hera).
  destruct (add_item_spec (E:=E) slot_of p pp (hash_of item) item Hok Henv Hera Hc (hash_hashes item Hc)) as (p' & _ & v & Ha & _ & Hk & Ho). by exists p', v.
Qed.


(** The ledger rejects a claim in the transaction, in every block of a slot from the
    last the pool has seen on. *)
Definition never_executed `{Poseidon2Crate} p item : Prop := ∃ claim s now, ClaimPowReward claim ∈ to_ops (op_refs item) ∧
  pow_claim (settings p) = Some s ∧ ev_slot (evictor p) = Some now ∧
  ∀ ctx, pv_slot_windows ctx = s → now <= pv_current_block_slot ctx < u64_max → (∀ h slot, pv_blocks_slot ctx !! h = Some slot → slot_of h = Some slot) →
    pow_claim_verify claim ctx ≠ Ok tt.

Lemma past_never_executed `{Poseidon2Crate} p item s now a slot : pool_env p → pow_claim (settings p) = Some s → ev_slot (evictor p) = Some now →
  a ∈ claim_anchors item → slot_of a = Some slot → deadline_at s slot <= now → never_executed p item.
Proof.
  intros Henv Hs Hn Ha Hsl Hle. unfold claim_anchors in Ha. apply list_elem_of_fmap in Ha as (claim & -> & Hcl). unfold pow_reward_claims in Hcl. apply list_elem_of_omap in Hcl as (op & Hop & Hcl).
  exists claim, s, now. split_and!; [|done..|]; [destruct op; try done; by injection Hcl as <-|].
  intros ctx Hw Hcur Hslots (_ & _ & _ & sl & Hb & _ & Hin)%pow_claim_verify_ok. apply Hslots in Hb. rewrite Hsl in Hb. injection Hb as <-. rewrite Hw in Hin.
  destruct (window_at_ok (E:=False) s slot (pe_windows _ _ Henv s Hs) (pe_slots _ _ Henv _ _ Hsl)) as (v & Hv & Hpar & Hpos).
  unfold is_within_slot_window in Hin. rewrite Hv in Hin. cbn [mbind result_bind] in Hin. injection Hin as Hin. apply Z.leb_le in Hin.
  unfold deadline_at in Hle. unfold saturating_sub in Hin. lia.
Qed.

(** C27: No transaction is turned away for a claim that could still be executed. When a
    processed block takes a pending transaction away before it is as old as the time
    to live, and when a submission is answered that it has expired, the transaction
    has a claim that the ledger rejects in every block of a slot from the last the
    pool has seen on. (The evictor tracks hashes: the first case is about a
    transaction of the hash that was taken away.) *)
Theorem evicted_claims_rejected {E : Type} `{Poseidon2Crate} p : reached p →
  (∀ block_id slot lib_slot p' key t, slot_of block_id = Some slot → pool_processed_block (E:=E) p block_id slot lib_slot = Ok p' →
    pending_get (pending_items p) key = Some t → ¬ pending p' key → ¬ too_old p (readings p 0%nat) t → ∃ item, hashes item key ∧ never_executed p' item) ∧
  ∀ item p', candidate_ok item → add_item (E:=E) p (hash_of item) item = Ok (p', Err Expired) → never_executed p' item.
Proof.
  intros Hp. destruct (reached_inv p Hp) as (lost & [pp Hok] & Henv & Hera). split.
  - intros block_id slot lib_slot p' key t Hs Hstep Hk Hn Hold.
    destruct (processed_block_spec (E:=E) slot_of p pp block_id slot lib_slot Hok Henv Hs) as (p1 & _ & Ha & _ & Hr). rewrite Hstep in Ha. injection Ha as <-.
    destruct (pc_evicted _ _ _ _ _ Hr key t Hk) as [?|[?|(s & now & item & a & sl & Hst & Hnow & Hh & ? & ? & ?)]]; [destruct Hn; by exists t|done|].
    exists item. split; [done|]. eapply past_never_executed; [|done..]. apply (env_same slot_of p); [|done]. apply Hr.
  - intros item p' Hc Hadd. destruct (add_item_spec (E:=E) slot_of p pp (hash_of item) item Hok Henv Hera Hc (hash_hashes item Hc)) as (p1 & pp1 & v & Ha & Hok1 & Hk & Ho).
    rewrite Hadd in Ha. injection Ha as <- <-. assert (pool_env p') as Henv' by (apply (env_same slot_of p); [apply Hk|done]).
    inversion Ho as [limits e Hl Hw He Hpe|limits p2 l v Hl Hw Hd Hk2 Hout]; subst; [done|]. inversion Hout as [| |? ? ? Hcl Hsame| |]; subst.
    destruct Hcl as (s & now & a & slot & Hs & Hn & Ha & Hsl & Hle). destruct Hsame as [_ _ _ _ E5 E6 _]. eapply past_never_executed; [done|by rewrite E5|by rewrite E6|done| |done].
    by eapply resolve_sound.
Qed.

End Pool.

End MempoolTheorems.
