(* ===== verification/ChainNetwork.v ===== *)
(** * Blocks from the network

    services/chain/chain-network/src/lib.rs: a proposal refers to its transactions
    by prefixes of their hashes, which a node resolves against its mempool before it
    verifies and applies the block; once the block is applied the mempool is told
    which transactions entered and left the canonical chain. [AppliedBlock] is
    from services/chain/chain-service/src/lib.rs, its error type from api.rs. *)

From S2P Require Import Prelude BlockTree Era EngineConfig Engine MerkleStore Codec Ops Channels Utxos ServiceNotes ChannelOps SignedTx SdpOps LedgerConfig ClaimOps TxVerification Leaders Pow Markets Cryptarchia Ledger Blocks Chain Eviction Mempool.

#[local] Open Scope Z_scope.

Module ChainNetwork.
Import Canonical Bounded Ops Utxos Channels ServiceNotes ChannelOps SignedTx SdpOps LedgerConfig ClaimOps TxVerification Leaders Pow Markets Cryptarchia Ledger Blocks Chain Eviction Mempool.

(** [ApiError], and [Error] of the service. *)
Inductive ApiError :=
  | ApiParentMissing (parent : HeaderId) (info : CryptarchiaInfo)
  | ApiFutureBlock (block_slot current_slot : Z)
  | ApiAlreadyApplied (id : HeaderId)
  | CommsFailure
  | Unexpected.

Inductive NetError :=
  | NetCryptarchia (e : ApiError)
  | NetSerialisation
  | NetInvalidHeader (e : HeaderError)
  | NetInvalidBlock
  | InvalidSignature
  | NoMatchingReconstruction
  | UnresolvedReference (index : nat) (prefix : list byte)
  | CollidingReference (index : nat) (prefix : list byte)
  | NetMempool
  | NetHeaderIdNotFound (id : HeaderId)
  | NetBounded (e : BoundedError).

(** The errors of [CryptarchiaServiceApi::apply_block], and [From<lb_core::block::Error>]. *)
Definition api_error (e : ChainError) : ApiError :=
  match e with
  | ChainParentMissing parent info => ApiParentMissing parent info
  | FutureBlock block_slot current_slot => ApiFutureBlock block_slot current_slot
  | AlreadyApplied id => ApiAlreadyApplied id
  | _ => Unexpected
  end.
Definition net_error_from (e : BlockError) : NetError := match e with BlockSignature => InvalidSignature | _ => NetInvalidBlock end.

(** [is_recoverable_apply_error]. *)
Definition is_recoverable_apply_error (e : NetError) : bool :=
  match e with
  | NetCryptarchia (ApiParentMissing _ _ | ApiFutureBlock _ _ | ApiAlreadyApplied _ | CommsFailure) => true
  | _ => false
  end.

(** [verify_proposal]. *)
Definition verify_proposal `{Ed25519Verify} `{HeaderBincode} (proposal : Proposal) : result NetError unit :=
  map_err NetInvalidHeader (verify_header_alone (p_header proposal));;
  map_err net_error_from (verify_header_signature (p_header proposal) (p_signature proposal)).

(** ** Resolving references *)

Section Resolve.
Context {S : Type} `{!MempoolStorage S} `{Ed25519Crate} `{MultiaddrCrate} `{Blake2Crate} `{Ed25519Verify} `{HeaderBincode}.
Implicit Types (p : Mempool S).

(** [get_transactions_by_prefix] of the mempool service. *)
Definition get_transactions_by_prefix p (prefix : list byte) : result MempoolError (list SignedOps) :=
  get_items_by_keys p (keys_by_prefix p prefix).

(** [resolve_reference]. *)
Definition resolve_reference (index : nat) (prefix : list byte) p : result NetError SignedOps :=
  candidates ← map_err (λ _, NetMempool) (get_transactions_by_prefix p prefix);
  match take 2 candidates with
  | [] => Err (UnresolvedReference index prefix)
  | [candidate] => Ok candidate
  | _ => Err (CollidingReference index prefix)
  end.

(** The loop of [reconstruct_block_from_proposal]. *)
Fixpoint resolve_references (index : nat) (prefixes : list (list byte)) p : result NetError (list SignedOps) :=
  match prefixes with
  | [] => Ok []
  | prefix :: prefixes =>
      tx ← resolve_reference index prefix p;
      txs ← resolve_references (index + 1) prefixes p;
      Ok (tx :: txs)
  end.

(** [reconstruct_block_from_proposal]. *)
Definition reconstruct_block_from_proposal (proposal : Proposal) (block_limits : BlockLimits) p : result NetError (Block SignedOps) :=
  transactions ← resolve_references 0 (p_references proposal) p;
  transactions ← map_err (λ _, NoMatchingReconstruction) (runtime_try_new transactions (max_transactions block_limits));
  map_err (λ _, NoMatchingReconstruction)
    (reconstruct (p_header proposal) (p_uncle_headers proposal) transactions (p_signature proposal) (max_transactions_size block_limits)).

End Resolve.

(** ** Applying a block *)

Section Apply.
Context {T R Params : Type} `{!KeyedStoreOps T NoteId Utxo} `{!Rewards T R Params}.
Context `{Poseidon2Crate} `{Blake2Crate} `{BigUintCrate} `{LotteryCrate} `{Ed25519Crate} `{MultiaddrCrate} `{Ed25519Verify} `{PoCVerify} `{BatchVerify} `{PolVerify} `{HeaderBincode}.
Context {order : SetOrder HeaderId} {S : Type} `{!MempoolStorage S} `{!TimeCrate}.
Notation Chain := (ChainState (T:=T) (R:=R) (Params:=Params)).
Implicit Types (c : Chain) (b : Block SignedOps) (p : Mempool S).

(** [AppliedBlock]. *)
Record AppliedBlock := mkAppliedBlock {
  ab_tip : HeaderId;
  ab_newly_canonical_txs : gmap TxHash Z;
  ab_reorged_txs : list (SignedOps * Z);
  ab_lib_slot : Z
}.

(** [apply_block_and_reply], and the call of it. The deletion of the blocks that
    became stale from the storage, which follows, is left out. *)
Definition apply_block c (blocks : Blocks) b (current_slot : Z) (written : bool) : result NetError (Chain * Blocks * AppliedBlock) :=
  '(c, blocks, outcome) ← map_err (NetCryptarchia ∘ api_error) (process_block c blocks b current_slot Network written);
  lib_branch ← lib_branch (consensus c);
  Ok (c, blocks, mkAppliedBlock (b_id (local_chain (consensus c))) (pr_newly_canonical_txs outcome) (pr_reorged_txs outcome) (b_slot lib_branch)).

(** [apply_block_and_reconcile_mempool], when the mempool service is up. *)
Definition notify_canonical_chain_updated {E : Type} (applied : AppliedBlock) p : result E (Mempool S) :=
  if bool_decide (ab_newly_canonical_txs applied = ∅) && Nat.eqb (length (ab_reorged_txs applied)) 0 then Ok p
  else '(p, _) ← on_canonical_chain_updated p (map_to_list (ab_newly_canonical_txs applied)) (ab_reorged_txs applied); Ok p.

Definition apply_block_and_reconcile_mempool c (blocks : Blocks) b (current_slot : Z) (written : bool) p
    : result NetError (Chain * Blocks * Mempool S) :=
  '(c, blocks, applied) ← apply_block c blocks b current_slot written;
  p ← notify_canonical_chain_updated applied p;
  p ← pool_processed_block p (header_id (header b)) (h_slot (header b)) (ab_lib_slot applied);
  Ok (c, blocks, p).

End Apply.

End ChainNetwork.
