(* ===== verification/NetworkTheorems.v ===== *)
(** * Theorems on blocks from the network

    A proposal gives its block back to every node whose mempool has the
    transactions; and after a block is applied the mempool agrees with the
    canonical chain. *)

From S2P Require Import Prelude BlockTree TreeWalks Era EraFacts EngineConfig Engine EngineInvariant MerkleStore Codec CodecLaws Ops OpsCodec Channels Utxos ServiceNotes Inputs ChannelOps SignedTx SdpOps LedgerConfig ClaimOps TxVerification Leaders Pow Markets Cryptarchia Ledger Blocks BlockFacts BlockVerify Chain ChainFacts UncleRules ChainTheorems TxSelection SelectionFacts Eviction Mempool EvictionFacts MempoolFacts MempoolSteps MempoolTheorems ChainNetwork.

#[local] Open Scope Z_scope.

Module NetworkTheorems.
Import Canonical Bounded Ops OpsCodec Utxos Channels ServiceNotes Inputs ChannelOps SignedTx SdpOps LedgerConfig ClaimOps TxVerification Leaders Pow Markets Cryptarchia Ledger Blocks BodyRoot BlockFacts BlockVerify Chain ChainLedger ChainFacts UncleRules ChainTheorems SelectionFacts Eviction Mempool EvictionFacts MempoolFacts MempoolAdmission MempoolSteps MempoolTheorems ChainNetwork.

(** ** Proposals *)

Section Resolve.
Context {S : Type} `{!MempoolStorage S} (slot_of : HeaderId → option Z) `{!MempoolStorageLaws S slot_of}.
Context `{Ed25519Crate} `{MultiaddrCrate} `{Blake2Crate} `{!TimeCrate} `{Ed25519Verify} `{HeaderBincode}.
Implicit Types (p : Mempool S) (b : Block SignedOps) (tx : SignedOps).
Notation body := (body slot_of).
Notation reached := (reached slot_of).

(** The storage answers a request for bodies. *)
Definition answers p : Prop := ∀ keys, is_Some (get_items (storage_adapter p) keys).

(** The pool has the transaction, and no other of its prefix. *)
Definition available p tx : Prop := held p (hash_of tx) ∧ body p (hash_of tx) = Some tx ∧
  ∀ k, held p k → tx_hash_prefix k = tx_hash_prefix (hash_of tx) → k = hash_of tx.

(** A resolved reference. *)
Definition resolves p (prefix : list byte) tx : Prop := ∃ key, held p key ∧ body p key = Some tx ∧ hashes tx key ∧ tx_hash_prefix key = prefix.

Lemma by_prefix_items p prefix items : get_transactions_by_prefix p prefix = Ok items → items = omap (body p) (keys_by_prefix p prefix).
Proof.
  unfold get_transactions_by_prefix, get_items_by_keys. destruct (get_items _ _) as [l|] eqn:Hg; [|done]. intros [= <-]. by apply (get_ok (slot_of:=slot_of)) in Hg.
Qed.

Lemma resolve_available index p tx : reached p → answers p → available p tx → resolve_reference index (tx_hash_prefix (hash_of tx)) p = Ok tx.
Proof.
  intros Hp Ha (Hh & Hb & Hu). destruct (reached_sound slot_of p Hp) as [_ _ _ _ Hpre]. destruct (Hpre (tx_hash_prefix (hash_of tx))) as [Hn Hel].
  unfold resolve_reference. destruct (Ha (keys_by_prefix p (tx_hash_prefix (hash_of tx)))) as [items Hg].
  assert (get_transactions_by_prefix p (tx_hash_prefix (hash_of tx)) = Ok items) as Hi by (unfold get_transactions_by_prefix, get_items_by_keys; by rewrite Hg).
  pose proof (by_prefix_items p _ items Hi) as ->. rewrite Hi. cbn [map_err mbind result_bind].
  assert (keys_by_prefix p (tx_hash_prefix (hash_of tx)) = [hash_of tx]) as ->.
  { revert Hn Hel. clear Hi Hg. destruct (keys_by_prefix p (tx_hash_prefix (hash_of tx))) as [|k [|k' l]]; intros Hn Hel.
    - pose proof (proj2 (Hel (hash_of tx)) (conj Hh eq_refl)) as Hin. by apply not_elem_of_nil in Hin.
    - f_equal. destruct (proj1 (Hel k)) as [? ?]; [by left|]. by apply Hu.
    - destruct (proj1 (Hel k)) as [? ?]; [by left|]. destruct (proj1 (Hel k')) as [? ?]; [right; by left|]. apply NoDup_cons in Hn as [Hn _].
      destruct Hn. rewrite (Hu k), (Hu k') by done. by left. }
  cbn [omap list_omap]. by rewrite Hb.
Qed.

Lemma resolve_sound' index p prefix tx : reached p → resolve_reference index prefix p = Ok tx → resolves p prefix tx.
Proof.
  intros Hp Hr. destruct (reached_sound slot_of p Hp) as [Hbod _ _ _ Hpre]. destruct (Hpre prefix) as [_ Hel].
  unfold resolve_reference in Hr. peel Hr as items Hi. apply map_err_ok in Hi. apply by_prefix_items in Hi as ->.
  destruct (omap (body p) (keys_by_prefix p prefix)) as [|x [|y l]] eqn:Ho; cbn in Hr; [done| |done]. injection Hr as ->.
  assert (tx ∈ omap (body p) (keys_by_prefix p prefix)) as Hin by (rewrite Ho; by left). apply list_elem_of_omap in Hin as (key & Hk & Hb).
  apply Hel in Hk as [Hk Hpk]. destruct (Hbod key Hk) as (item & Hb' & Hh). exists key. split_and!; [done..| |done]. congruence.
Qed.

Lemma resolve_all_available p txs : reached p → answers p → Forall (available p) txs → ∀ index,
  resolve_references index (tx_hash_prefix <$> (hash_of <$> txs)) p = Ok txs.
Proof.
  intros Hp Ha. induction 1 as [|tx txs Hx _ IH]; intros index; [done|]. cbn [fmap list_fmap resolve_references].
  rewrite (resolve_available index p tx Hp Ha Hx). cbn [mbind result_bind]. by rewrite IH.
Qed.

Lemma resolve_all_sound p : reached p → ∀ prefixes index txs, resolve_references index prefixes p = Ok txs → Forall2 (resolves p) prefixes txs.
Proof.
  intros Hp. induction prefixes as [|prefix prefixes IH]; intros index txs Hr; cbn [resolve_references] in Hr; [injection Hr as <-; constructor|].
  peel Hr as tx Htx. peel Hr as txs' Htxs. injection Hr as <-. constructor; [by eapply resolve_sound'|by eapply IH].
Qed.

Lemma verified_root b max_size b' : into_verified_block b max_size = Ok b' → b' = b ∧ body_root (E:=BlockError) (uncle_headers b) (transactions b) = Ok (h_body_root (header b)).
Proof.
  unfold into_verified_block. intros Hv. peel Hv as u1 H1'. peel Hv as u2 H2'. peel Hv as u3 H3'. peel Hv as u4 H4'. injection Hv as <-. split; [done|].
  unfold validate_body_root in H3'. peel H3' as root Hr. destruct u3. apply err_if_ok in H3'. apply negb_false_iff, bool_decide_eq_true in H3' as ->. exact Hr.
Qed.

(** C18: A proposal is as good as its block. A node whose mempool, however it came to
    be, holds the transactions of a block that verifies, and no others of their
    prefixes, reconstructs exactly this block from the proposal; and whatever any
    node reconstructs has the header, the uncles and the signature of the proposal,
    transactions of its own mempool, one for each prefix and in this order, and a
    body of the root in the header. *)
Theorem proposal_reconstruction {E : Type} limits max b : 0 <= max_transactions_size limits <= usize_max → block_wf limits max b →
  block_verifies (max_transactions_size limits) b → ∃ proposal, to_proposal (E:=E) b = Ok proposal ∧
    (∀ p, reached p → answers p → Forall (available p) (transactions b) → reconstruct_block_from_proposal proposal limits p = Ok b) ∧
    ∀ p b', reached p → reconstruct_block_from_proposal proposal limits p = Ok b' →
      header b' = header b ∧ uncle_headers b' = uncle_headers b ∧ signature b' = signature b ∧
      Forall2 (resolves p) (tx_hash_prefix ∘ hash_of <$> transactions b) (transactions b') ∧
      body_root (E:=BlockError) (uncle_headers b') (transactions b') = Ok (h_body_root (header b)).
Proof.
  intros Hm Hwf Hv. exists (proposal_of b). split; [by apply (to_proposal_ok limits max)|]. split.
  - intros p Hp Ha Hav. unfold reconstruct_block_from_proposal. cbn [proposal_of p_references p_header p_uncle_headers p_signature].
    pose proof (resolve_all_available p _ Hp Ha Hav 0) as Hr. rewrite <- list_fmap_compose in Hr.
    change ((λ t, take REFERENCE_PREFIX_BYTES (blake2b_256 (payload t))) <$> transactions b) with (tx_hash_prefix ∘ hash_of <$> transactions b). rewrite Hr.
    cbn [mbind result_bind]. unfold runtime_try_new. rewrite (proj2 (Z.ltb_ge _ _) (bw_count _ _ _ Hwf)). cbn [err_if map_err mbind result_bind].
    unfold reconstruct. replace (mkBlock (header b) (signature b) (uncle_headers b) (transactions b)) with b by by destruct b.
    pose proof (into_verified_exact (max_uncles limits) max (max_transactions_size limits) b Hm (bw_uncles _ _ _ Hwf) (bw_txs _ _ _ Hwf)) as Hx.
    destruct (into_verified_block b _) as [b'|e|f]; cbn [map_err]; [by destruct Hx as [-> _]; [apply Forall_forall; intros t ?%size_of_total; destruct Hv; lia|]|..];
      destruct Hx; try done; apply Forall_forall; intros t ?%size_of_total; destruct Hv; lia.
  - intros p b' Hp Hr. unfold reconstruct_block_from_proposal in Hr. peel Hr as txs Htxs. apply (resolve_all_sound p Hp) in Htxs. peel Hr as txs' Hb. apply map_err_ok in Hb.
    unfold runtime_try_new in Hb. peel Hb as u Hu. injection Hb as <-. apply map_err_ok in Hr. unfold reconstruct in Hr. apply verified_root in Hr as [-> Hroot].
    cbn [header uncle_headers signature transactions proposal_of p_header p_uncle_headers p_signature] in *. by split_and!.
Qed.

End Resolve.

(** ** Applied blocks *)

Section Apply.
Context {T R Params : Type} `{!KeyedStoreOps T NoteId Utxo} `{!Rewards T R Params}.
Context `{Poseidon2Crate} `{Blake2Crate} `{BigUintCrate} `{LotteryCrate} `{Ed25519Crate} `{MultiaddrCrate} `{Ed25519Verify} `{PoCVerify} `{BatchVerify} `{PolVerify} `{HeaderBincode}.
Context {order : SetOrder HeaderId} {S : Type} `{!MempoolStorage S} (slot_of : HeaderId → option Z) `{!MempoolStorageLaws S slot_of} `{!TimeCrate}.
Notation Chain := (ChainState (T:=T) (R:=R) (Params:=Params)).
Implicit Types (c : Chain) (b : Block SignedOps) (p : Mempool S) (blocks : Blocks).
Notation reached := (MempoolTheorems.reached slot_of).
Notation claim_past := (claim_past slot_of).

(** Stored blocks are in the range of the machine. *)
Definition blocks_ok blocks : Prop := ∀ id blk, blocks !! id = Some blk → 0 <= h_slot (header blk) ∧ Forall candidate_ok (transactions blk).

Lemma not_canonical_sub {E : Type} canonical (txs l : list (SignedOps * Z)) : not_canonical (E:=E) canonical txs = Ok l → ∀ x, x ∈ l → x ∈ txs.
Proof.
  revert l. induction txs as [|tx txs IH]; intros l Hl x Hx; cbn [not_canonical] in Hl; [by injection Hl as <-|].
  peel Hl as h Hh. peel Hl as rest Hr. injection Hl as <-. case_bool_decide; [right; by eapply IH|]. apply elem_of_cons in Hx as [->|Hx]; [by left|right; by eapply IH].
Qed.

Lemma reorged_candidates c blocks b current_slot origin written c' blocks' out : process_block c blocks b current_slot origin written = Ok (c', blocks', out) →
  blocks_ok blocks' → Forall (λ x : SignedOps * Z, candidate_ok x.1 ∧ 0 <= x.2) (pr_reorged_txs out).
Proof.
  unfold process_block. intros Hp Hb. peel Hp as [c1 a] Ha. peel Hp as l Hl. peel Hp as u Hu. peel Hp as newly Hn. peel Hp as reorged Hr. injection Hp as <- <- <-.
  cbn [pr_reorged_txs]. apply Forall_forall. intros [tx s] Hin. apply (not_canonical_sub _ _ _ Hr) in Hin. apply txs_in_blocks_elem in Hin as (blk & Hblk & Htx & ->).
  unfold load_blocks in Hblk. apply list_elem_of_omap in Hblk as (id & _ & Hid). destruct (Hb id blk Hid) as [Hs Hf]. rewrite Forall_forall in Hf. split; [by apply Hf|done].
Qed.

Lemma claim_past_later p p' k : settings p' = settings p → (∀ n, ev_slot (evictor p) = Some n → ∃ n', ev_slot (evictor p') = Some n' ∧ n <= n') → claim_past p k → claim_past p' k.
Proof.
  intros Hs Hn (s & now & item & a & slot & H1' & H2' & H3' & H4' & H5' & H6'). destruct (Hn now H2') as (n' & Hn' & Hle). exists s, n', item, a, slot. rewrite Hs. split_and!; try done. lia.
Qed.

Lemma notify_spec {E : Type} p (applied : AppliedBlock) : reached p → Forall (λ x : SignedOps * Z, candidate_ok x.1 ∧ 0 <= x.2) (ab_reorged_txs applied) →
  ∃ p' out, notify_canonical_chain_updated (E:=E) applied p = Ok p' ∧ reached p' ∧
    canonical_updated slot_of p (map_to_list (ab_newly_canonical_txs applied)) (ab_reorged_txs applied) p' out.
Proof.
  intros Hp Hre. destruct (reached_inv slot_of p Hp) as (lost & [pp Hok] & Henv & Hera). unfold notify_canonical_chain_updated.
  destruct (bool_decide (ab_newly_canonical_txs applied = ∅) && Nat.eqb (length (ab_reorged_txs applied)) 0) eqn:He.
  { apply andb_true_iff in He as [Hn%bool_decide_eq_true Hr%Nat.eqb_eq]. apply nil_length_inv in Hr. exists p, []. split_and!; [done..|].
    rewrite Hn, Hr, map_to_list_empty. by apply (nothing_updated slot_of (lost:=lost) p pp). }
  assert (NoDup (map_to_list (ab_newly_canonical_txs applied)).*1) as Hnd by apply NoDup_fst_map_to_list.
  destruct (canonical_chain_spec (E:=E) slot_of p pp _ _ Hok Henv Hera Hnd Hre) as (p' & pp' & out & Hc & _ & Hu). exists p', out. rewrite Hc. split_and!; [done| |done].
  apply (reached_step slot_of E p (OpCanonical (map_to_list (ab_newly_canonical_txs applied)) (ab_reorged_txs applied)) p' Hp); [by split|]. cbn [pool_step]. by rewrite Hc.
Qed.

(** The transactions of the blocks that entered, or left, the canonical chain. *)
Definition carried (t : Branches HeaderId) (on off : Branch HeaderId) blocks (x : Branch HeaderId) (h : TxHash) : Prop :=
  ancestor t x on ∧ ¬ ancestor t x off ∧ ∃ blk tx, blocks !! b_id x = Some blk ∧ tx ∈ transactions blk ∧ h = hash_of tx.

(** How the mempool follows the switch from [old] to [new]. *)
Record mempool_follows t (old new : Branch HeaderId) blocks (lib_slot : Z) p p' : Prop := {
  mf_entered : ∀ x h time, carried t new old blocks x h → admitted p h = Some time →
    (∃ y, carried t new old blocks y h ∧ (included_in_canonical p' !! h = Some (mkIncluded (b_slot y) time) ∨ b_slot y <= lib_slot)) ∨ claim_past p' h;
  mf_included : ∀ h inc, included_in_canonical p' !! h = Some inc →
    (∃ x, carried t new old blocks x h ∧ in_slot inc = b_slot x) ∨
    included_in_canonical p !! h = Some inc ∧ ((∃ x, carried t old new blocks x h) → ∃ y, carried t new old blocks y h);
  mf_kept : ∀ h inc, included_in_canonical p !! h = Some inc → (∀ x, ¬ carried t new old blocks x h) → (∀ x, ¬ carried t old new blocks x h) →
    included_in_canonical p' !! h = Some inc ∨ in_slot inc <= lib_slot ∨ claim_past p' h;
  mf_immutable : ∀ h inc, included_in_canonical p' !! h = Some inc → lib_slot < in_slot inc ∨ ∃ s P, refused s P ∧ P h;
  mf_pending : ∀ h time, pending_get (pending_items p) h = Some time → (∀ x, ¬ carried t new old blocks x h) →
    pending_get (pending_items p') h = Some time ∨ (∃ i, too_old p (readings p i) time) ∨ claim_past p' h;
  mf_held : ∀ h time, admitted p h = Some time → admitted p' h = Some time ∨ (∃ i, lapsed slot_of p' (readings p i) time h) ∨
    (∃ inc, included_in_canonical p !! h = Some inc ∧ in_slot inc <= lib_slot) ∨ ∃ x, carried t new old blocks x h ∧ b_slot x <= lib_slot
}.

Lemma report_follows lost t old new blocks out p entered p1 readmitted p' slot lib_slot : canonical_report t old new blocks out → entered = map_to_list (pr_newly_canonical_txs out) →
  canonical_updated slot_of p entered (pr_reorged_txs out) p1 readmitted → processed slot_of (lost:=lost) p1 slot lib_slot p' → mempool_follows t old new blocks lib_slot p p'.
Proof.
  intros [Hr1 Hr2 Hr3] -> Hcu Hpc. destruct Hcu as [[U1 _] U2 [n U3] U4 U5 U5' U6 U7 _ _]. destruct Hpc as [[P1 _] P2 _ _ P5 _ P7 P8 P9 P10 _].
  assert (∀ h, claim_past p h → claim_past p' h) as Hcp.
  { intros h. apply claim_past_later; [congruence|]. intros m Hm. rewrite <- U2 in Hm. rewrite P2, Hm. eexists. split; [done|lia]. }
  assert (∀ h s, pr_newly_canonical_txs out !! h = Some s → ∃ x, carried t new old blocks x h ∧ s = b_slot x) as Hin.
  { intros h s (x & blk & tx & ? & ? & ? & ? & ? & ?)%Hr2. exists x. split; [|done]. split_and!; [done..|]. by exists blk, tx. }
  assert (∀ x h, carried t new old blocks x h → is_Some (pr_newly_canonical_txs out !! h)) as Hin'.
  { intros x h (? & ? & blk & tx & ? & ? & ?). apply Hr1. by exists x, blk, tx. }
  assert (∀ h inc, included_in_canonical p1 !! h = Some inc → (∃ x, carried t new old blocks x h ∧ in_slot inc = b_slot x) ∨
    included_in_canonical p !! h = Some inc ∧ ((∃ x, carried t old new blocks x h) → ∃ y, carried t new old blocks y h)) as Hinc.
  { intros h inc [Hel%elem_of_map_to_list|[Hi Hn]]%U5; [left; by apply Hin|]. right. split; [done|]. intros (x & Hx & Hnx & blk & tx & Hb & Htx & ->).
    destruct (pr_newly_canonical_txs out !! hash_of tx) as [s|] eqn:Hs; [destruct (Hin _ _ Hs) as (y & ? & _); by exists y|]. destruct Hn.
    apply list_elem_of_fmap. exists tx. split; [done|]. apply list_elem_of_fmap. exists (tx, b_slot x). split; [done|]. apply Hr3. split; [|done]. by exists x, blk. }
  split.
  - intros x h time Hx Ht. destruct (Hin' x h Hx) as [s Hs]. destruct (Hin h s Hs) as (y & Hy & ->). apply elem_of_map_to_list in Hs.
    destruct (U4 h _ time Hs Ht) as [Hi|?]; [|right; by apply Hcp]. destruct (P7 h _ Hi) as [?|[?|?]]; [left; exists y; split; [done|by left]|left; exists y; split; [done|by right]|by right].
  - intros h inc Hi%P8. by apply Hinc.
  - intros h inc Hi Hne Hnl. destruct (U5' h inc Hi) as [Hi1|?]; [| |by apply P7|right; right; by apply Hcp].
    + intros ([h' s] & -> & Hs%elem_of_map_to_list)%list_elem_of_fmap. destruct (Hin _ _ Hs) as (x & Hx & _). by apply (Hne x).
    + intros (tx & -> & ([tx' s] & -> & Hs)%list_elem_of_fmap)%list_elem_of_fmap. apply Hr3 in Hs as [(x & blk & ? & ? & ? & ? & _) _]. apply (Hnl x). split_and!; [done..|]. by exists blk, tx'.
  - intros h inc Hi. destruct (Z.le_gt_cases (in_slot inc) lib_slot) as [Hle|]; [right|left; lia].
    destruct (P10 h inc (P8 h inc Hi) Hle) as [Hn|?]; [destruct Hn; right; right; by exists inc|]. exists (storage_adapter p1), (immutable p1 lib_slot). split; [done|].
    exists inc. split; [by apply P8|done].
  - intros h time Hp Hn. assert (pending_get (pending_items p1) h = Some time) as Hp1.
    { apply U6; [done|]. intros ([h' s] & -> & Hs%elem_of_map_to_list)%list_elem_of_fmap. destruct (Hin _ _ Hs) as (x & Hx & _). by apply (Hn x). }
    destruct (P5 h time Hp1) as [?|[Ho|?]]; [by left| |right; by right]. right. left. exists (0 + n)%nat. rewrite <- U3. unfold too_old in *. by rewrite <- U1.
  - intros h time Ht. destruct (U7 h time Ht) as [Ht1|(i & Hl)].
    2:{ right. left. exists i. unfold lapsed in *. rewrite P1, U1. destruct Hl; [by left|right; by apply Hcp]. }
    destruct (P9 h time Ht1) as [?|[(inc & Hi & Hle)|(i & Hl)]]; [by left| |right; left; exists (i + n)%nat; by rewrite <- U3]. right. right.
    destruct (Hinc h inc Hi) as [(x & Hx & Hs)|[? _]]; [right; exists x; split; [done|lia]|left; by exists inc].
Qed.


End Apply.

End NetworkTheorems.
