(* ===== verification/MempoolWitness.v ===== *)
(** * The theorems of the mempool at a concrete pool

    A storage that keeps its bodies in a map, and a pool over it that receives the
    transfer of the example chain and a claim, sees blocks, and follows the
    reorganisation of that chain. *)

From S2P Require Import Prelude BlockTree TreeWalks Era EraFacts EngineConfig Engine EngineInvariant EngineTheorems Uncles MerkleStore Codec CodecLaws Ops OpsCodec Channels Utxos ServiceNotes Inputs ChannelOps SignedTx SdpOps LedgerConfig ClaimOps TxVerification Leaders Pow Markets Cryptarchia Ledger BlendRewards LedgerInvariant TxTheorems BlockTheorems LedgerExamples Blocks BlockFacts BlockVerify Chain ChainFacts UncleRules ChainTheorems TxSelection SelectionFacts Proposals ChainWitness Eviction Mempool EvictionFacts MempoolFacts MempoolSteps MempoolTheorems ChainNetwork NetworkTheorems.

#[local] Open Scope Z_scope.

Module MempoolWitness.
Import Canonical Bounded Ops OpsCodec Utxos Channels ServiceNotes Inputs ChannelOps SignedTx SdpOps LedgerConfig ClaimOps TxVerification Leaders Pow Markets Cryptarchia Ledger BlendRewards TxTheorems LedgerExamples Blocks BodyRoot BlockFacts BlockVerify Chain ChainLedger ChainFacts UncleRules ChainTheorems TxSelection SelectionFacts Proposals ChainExamples ChainWitness Eviction Mempool EvictionFacts MempoolFacts MempoolAdmission MempoolSteps MempoolTheorems ChainNetwork NetworkTheorems.
Import KeyedTree(MerkleTree) UtxoTree.

(** ** The storage *)

Definition Store := gmap TxHash SignedOps.

Section Table.
Context (slots : gmap HeaderId Z).

Definition table_ops : MempoolStorage Store := {|
  store_item s key item := (<[key := item]> s, true);
  get_items s keys := Some (omap (λ key, s !! key) keys);
  remove_items s keys := (filter (λ e, e.1 ∉ keys) s, true);
  get_block_slots s anchors := filter (λ e, e.1 ∈ anchors) slots;
  storage_rotate_era s era := s;
  storage_complete_era_transition s era := s
|}.

Definition table_laws : @MempoolStorageLaws Store table_ops (λ id, slots !! id).
Proof.
  refine {| bodies := λ s : Store, s |}; cbn.
  - intros s key item s' [= <-]. done.
  - intros s key item s' [=].
  - intros s keys s' key [= <-]. case_decide as Hk.
    + apply map_lookup_filter_None. right. intros x _ Hn. by apply Hn.
    + apply option_eq. intros x. rewrite map_lookup_filter_Some. naive_solver.
  - intros s keys s' [=].
  - intros s keys items [= <-]. done.
  - done.
  - done.
  - intros s anchors a slot Ha. by apply map_lookup_filter_Some in Ha as [? _].
Defined.

End Table.

Definition late : HeaderId := replicate 32 x0a.
Definition known_slots : gmap HeaderId Z := list_to_map [(gid, 0); (header_id (header b1), 1); (header_id (header b4), 4); (late, 10)].
Definition slot_of (id : HeaderId) : option Z := known_slots !! id.
#[export] Instance store_ops : MempoolStorage Store := table_ops known_slots.
#[export] Instance store_laws : MempoolStorageLaws Store slot_of := table_laws known_slots.

(** ** The pool *)

#[export] Instance pool_time : TimeCrate := bounded_time (10 ^ 30).

Definition one_era {A : Type} (x : A) : EraSchedule A := mkSchedule (mkEntry 0 0 x) [].
Definition pool_settings : MempoolSettings :=
  mkPoolSettings (Some (1000 * 1000000000)) (Some (one_era 2)) (one_era [digest]) None (one_era (mkAdmission 100000 1024)).
Definition pool0 : Mempool Store := mempool_new pool_settings 0 (∅ : Store) (λ n, Z.of_nat n * 1000).

(** A claim of a reward anchored to genesis. *)
Definition claim_tx : SignedOps := mkSignedOps digest [SignedClaimPow (mkClaimPowReward 7 gid 5)].
Lemma claim_candidate : candidate_ok claim_tx.
Proof.
  split; [exists 1024|by_compute]. split; [reflexivity|]. split; [by_compute|]. split; (apply Forall_cons_2; [|apply Forall_nil_2]); [|reflexivity].
  cbn. unfold in_fr, fr_modulus. split_and!; (lia || reflexivity).
Qed.

Lemma one_era_elem {A : Type} (x : A) v : v ∈ Era.eras (one_era x) → v_parameters v = x.
Proof. by intros ->%list_elem_of_singleton. Qed.

Lemma known_nonneg a slot : slot_of a = Some slot → 0 <= slot.
Proof.
  assert (map_Forall (λ _ s, 0 <= s) known_slots) as Hf by (apply (bool_decide_eq_true_1 _); by_compute).
  unfold slot_of. generalize dependent known_slots. intros slots Hf Ha. exact (Hf a slot Ha).
Qed.

Lemma pool0_env : pool_env slot_of pool0.
Proof.
  split.
  - intros t [= <-]. by_compute.
  - intros s [= <-]. split; [reflexivity|]. intros v ->%one_era_elem. lia.
  - discriminate.
  - apply known_nonneg.
  - intros v ->%one_era_elem. by_compute.
Qed.

Lemma pool0_reached : reached_with slot_of ∅ pool0.
Proof. apply reached_new; [exact pool0_env|by eexists]. Qed.

Definition step (p : Mempool Store) (op : pool_op (S:=Store)) : Mempool Store := match pool_step (E:=Empty_set) p op with Ok p' => p' | _ => p end.

Lemma step_reached lost p op : reached_with slot_of lost p → op_ok slot_of p op → reached_with slot_of (lost_after lost p op) (step p op).
Proof.
  intros Hp Hop. destruct (step_ok slot_of (E:=Empty_set) lost p op (reached_with_inv slot_of lost p Hp) Hop) as (p' & Hs & _). unfold step. rewrite Hs. by eapply reached_op.
Qed.

(** The pool with the transfer, and the one that saw it included. *)
Definition pool1 : Mempool Store := step pool0 (OpAdd transfer_tx).
Definition pool2 : Mempool Store := step pool1 (OpCanonical [(hash_of transfer_tx, 1)] []).

Lemma pool1_with : reached_with slot_of ∅ pool1.
Proof. unfold pool1. exact (step_reached ∅ pool0 (OpAdd transfer_tx) pool0_reached transfer_candidate). Qed.
Lemma pool1_reached : reached slot_of pool1.
Proof. exists ∅. exact pool1_with. Qed.
Lemma pool2_reached : reached slot_of pool2.
Proof.
  assert (op_ok slot_of pool1 (OpCanonical [(hash_of transfer_tx, 1)] [])) as Hop by (split; [apply NoDup_singleton|apply Forall_nil_2]).
  exists ∅. unfold pool2. exact (step_reached ∅ pool1 _ pool1_with Hop).
Qed.

(** The pool with the claim. *)
Definition pool3 : Mempool Store := step pool1 (OpAdd claim_tx).

Lemma pool3_with : reached_with slot_of ∅ pool3.
Proof. unfold pool3. exact (step_reached ∅ pool1 (OpAdd claim_tx) pool1_with claim_candidate). Qed.
Lemma pool3_reached : reached slot_of pool3.
Proof. exists ∅. exact pool3_with. Qed.
Lemma late_slot : slot_of late = Some 10.
Proof. by_compute. Qed.

(** ** The theorems *)

#[local] Instance status_eq_dec : EqDecision Status.
Proof. solve_decision. Defined.

Lemma mempool_safe_witness : status_of pool1 (hash_of transfer_tx) = Pending ∧ pool_sound slot_of pool1 ∧
  ∃ p', pool_step (E:=Empty_set) pool1 (OpAdd claim_tx) = Ok p' ∧ reached slot_of p'.
Proof.
  destruct (mempool_safe slot_of (E:=Empty_set) pool1 pool1_reached) as [Hs Hop]. split; [by_compute|]. split; [exact Hs|]. exact (Hop (OpAdd claim_tx) claim_candidate).
Defined.

Notation claim_added := (add_item (E:=Empty_set) pool1 (hash_of claim_tx) claim_tx).
Lemma claim_added_computes : match claim_added with Ok (_, Ok _) => true | _ => false end = true.
Proof. by_compute. Qed.

Lemma admission_exact_witness : ∃ p', claim_added = Ok (p', Ok tt) ∧ kept slot_of pool1 p' ∧ add_outcome slot_of pool1 (hash_of claim_tx) claim_tx p' (Ok tt).
Proof.
  destruct (admission_exact slot_of (E:=Empty_set) pool1 claim_tx pool1_reached claim_candidate) as (p' & v & Ha & Hk & Ho). pose proof claim_added_computes as Hc. rewrite Ha in Hc.
  destruct v as [[]| |]; [|discriminate..]. exists p'. split; [exact Ha|]. split; [exact Hk|exact Ho].
Defined.

(** The claim is evicted, the transfer stays. *)
Notation late_processed := (pool_processed_block (E:=Empty_set) pool3 late 10 0).
Lemma late_computes : match late_processed with
  | Ok p => bool_decide (status_of p (hash_of claim_tx) = Unknown) && bool_decide (status_of p (hash_of transfer_tx) = Pending)
  | _ => false
  end = true.
Proof. by_compute. Qed.


Lemma claim_pending : is_Some (pending_get (pending_items pool3) (hash_of claim_tx)) ∧
  ∀ t, pending_get (pending_items pool3) (hash_of claim_tx) = Some t → ¬ too_old pool3 (readings pool3 0%nat) t.
Proof.
  assert (match pending_get (pending_items pool3) (hash_of claim_tx) with
    | Some t => bool_decide (saturating_sub (readings pool3 0%nat) t < as_millis_u64 (1000 * 1000000000)) | None => false end = true) as Hc by by_compute.
  assert (tx_ttl (settings pool3) = Some (1000 * 1000000000)) as Ht by by_compute. generalize dependent (hash_of claim_tx). generalize dependent pool3. intros p Ht key Hc.
  destruct (pending_get (pending_items p) key) as [t|]; [|discriminate]. apply bool_decide_eq_true in Hc. split; [by eexists|]. intros t' [= <-] (ttl & Httl & Hle). rewrite Ht in Httl.
  injection Httl as <-. lia.
Qed.

Lemma evicted_claims_rejected_witness : ∃ p' item, late_processed = Ok p' ∧ ¬ pending p' (hash_of claim_tx) ∧ hashes item (hash_of claim_tx) ∧ never_executed slot_of p' item.
Proof.
  destruct (evicted_claims_rejected slot_of (E:=Empty_set) pool3 pool3_reached) as [Hev _]. destruct claim_pending as [[t Ht] Hold]. pose proof late_computes as Hc.
  destruct late_processed as [p'|e|f] eqn:Hp; [|discriminate..]. apply andb_true_iff in Hc as [Hc _]. apply bool_decide_eq_true_1 in Hc.
  assert (¬ pending p' (hash_of claim_tx)) as Hn.
  { intros Hpe. unfold status_of in Hc. rewrite (bool_decide_true _ Hpe) in Hc. discriminate. }
  destruct (Hev late 10 0 p' (hash_of claim_tx) t late_slot Hp Ht Hn (Hold t Ht)) as (item & Hh & Hx). exists p', item. split; [reflexivity|]. split; [exact Hn|]. split; [exact Hh|exact Hx].
Defined.

(** ** The network *)

Lemma pool1_keys : held_keys pool1 = [hash_of transfer_tx].
Proof. by_compute. Qed.

Lemma transfer_available : available slot_of pool1 transfer_tx.
Proof.
  split; [apply held_keys_elem; rewrite pool1_keys; left|]. split; [by_compute|].
  intros k Hk _. apply held_keys_elem in Hk. rewrite pool1_keys in Hk. by apply list_elem_of_singleton in Hk.
Qed.

Lemma b1_available : Forall (available slot_of pool1) (transactions b1).
Proof. rewrite b1_txs. apply Forall_cons_2; [exact transfer_available|apply Forall_nil_2]. Qed.

Lemma pool1_answers : answers pool1.
Proof. intros keys. by eexists. Qed.

Lemma proposal_reconstruction_witness : ∃ proposal, to_proposal (E:=Empty_set) b1 = Ok proposal ∧ reconstruct_block_from_proposal proposal limits pool1 = Ok b1.
Proof.
  destruct (proposal_reconstruction slot_of (E:=Empty_set) limits 1024 b1 limits_usize b1_wf b1_verifies) as (proposal & Hp & Hr & _).
  exists proposal. split; [exact Hp|]. exact (Hr pool1 pool1_reached pool1_answers b1_available).
Defined.

Lemma b4_slot : slot_of (header_id (header b4)) = Some (h_slot (header b4)).
Proof. by_compute. Qed.

Lemma stored_after c blocks b c' blocks' out : chain_inv c blocks → block_new c b → process c blocks b = Ok (c', blocks', out) → blocks' = <[header_id (header b) := b]> blocks.
Proof.
  intros HI HN Hf. pose proof (process_outcome c blocks b (h_slot (header b)) Network true HI HN) as Hp. unfold process in Hf. rewrite Hf in Hp. apply Hp.
Qed.

Lemma blocks_ok_insert (m : Blocks) b : blocks_ok m → 0 <= h_slot (header b) → Forall candidate_ok (transactions b) → blocks_ok (<[header_id (header b) := b]> m).
Proof. intros Hm Hs Ht id blk [[_ <-]|[_ Hb]]%lookup_insert_Some; [by split|by apply (Hm id)]. Qed.

Lemma stored_ok : blocks_ok (<[header_id (header b4) := b4]> blocks2).
Proof.
  rewrite (stored_after _ _ _ _ _ _ chain1_inv b2_new step2_ok), (stored_after _ _ _ _ _ _ (chain0_inv ∅) b1_new step1_ok).
  apply blocks_ok_insert; [apply blocks_ok_insert; [apply blocks_ok_insert; [by intros id blk ?%lookup_empty_Some|by_compute|]|by_compute|]|by_compute|].
  - rewrite b1_txs. apply Forall_cons_2; [exact transfer_candidate|apply Forall_nil_2].
  - replace (transactions b2) with (@nil SignedOps) by by_compute. apply Forall_nil_2.
  - replace (transactions b4) with (@nil SignedOps) by by_compute. apply Forall_nil_2.
Qed.

(** The block that abandons the transfer makes it pending again. *)
Notation reconciled := (apply_block_and_reconcile_mempool chain2 blocks2 b4 (h_slot (header b4)) true pool2).
Lemma reconciled_computes : match reconciled with Ok (_, _, p) => bool_decide (status_of p (hash_of transfer_tx) = Pending) | _ => false end = true.
Proof. by_compute. Qed.


End MempoolWitness.
